(* ===== verification/_CoqProject ===== *)
-Q . S2P
Prelude.v
RustStr.v
F64.v
Json.v
Platform.v
Attributes.v
Rules.v
Constraint.v
Step.v
Lexical.v
Predicate.v
Eval.v
Effects.v
Paths.v
Redaction.v
Host.v
PipelineEval.v
Branches.v
Dispatch.v
DispatchProps.v
PhaseProps.v
RouteEval.v
Routing.v
Fold.v
LexerProps.v
ParserTotal.v
ExtData.v
Plugin.v
Extensions.v
Executor.v
ExtProps.v
TierProps.v
ExecutorProps.v
Scan.v
Stages.v
RuleParser.v
StepParser.v
ScanProps.v
CompileProps.v
CompileErrors.v
StageProps.v
RuleProps.v
HttpPath.v
ConfigKeys.v
Hooks.v
Assertions.v
Config.v
Sections.v
ConfigCheck.v
RouteSelectProps.v
ContractProps.v
EffectLog.v
EffectLogProps.v
EffectSink.v
EffectSinkProps.v
SweepProps.v
DecisionCache.v
CacheKeyProps.v
CacheRaceProps.v
Bridge.v
BridgeProps.v
RateLimit.v
RateLimitProps.v
Runtime.v
Session.v
RuntimeProps.v
SessionProps.v
Delegation.v
DelegationProps.v
Credential.v
ClaimMap.v
ClaimMapProps.v
Dpop.v
Jwt.v
ApiKey.v
ApiKeyProps.v
Http.v
Ciba.v
OAuth.v
Quota.v
