(* ===== verification/Prelude.v ===== *)
(** * A verified model of the Praxis policy engine

    The program (Rust, [src/crates/]) decides whether a call of an AI gateway (a tool
    call, an LLM request) may go on, and what of its arguments and result may be seen. A
    policy author writes rules in APL; [ppe-apl-core] compiles them to routes and evaluates
    a route against the attributes of a request; [ppe-orchestration] runs the branches of a
    [parallel:] block; [ppe-apl-runtime] bridges a route's decision to the host. In
    [ppe-core] a request is a payload with extensions (identity, headers, credentials,
    labels, ...), and each hook of its life runs the plugins registered for it.

    ** How the parts interact

    A route has four phases: argument pipelines, pre-invocation effects, result pipelines
    and post-invocation effects. A pipeline expands a field path to the concrete places of
    a JSON document and runs its stages at each. An effect may deny, call a plugin, a
    decision point (PDP) or a delegator, ask a human, restrict the backends the host may
    choose, rewrite a field, or run other effects in sequence, in parallel or under a
    predicate. Predicates are parsed from text and evaluated against an attribute bag. The
    restrictions that fired are folded to one constraint each backend is checked against.

    A hook invocation runs its plugins in five phases: sequential and transform (one after
    the other, may modify; only sequential may deny), audit (observes), concurrent (may
    deny), fire-and-forget (in the background). A plugin gets a view of the extensions
    filtered by its capabilities, on a task that contains its panics and timeouts; what a
    modifying plugin hands back is checked and merged by mutability tier. A route is one
    such plugin.

    A configuration document declares the plugins, the routes with their selectors, and the
    sections a route inherits from: global, the default of its entity type, the bundles it
    joins. Loading a document checks the keys of every mapping on the raw YAML, reads it into
    [PolicyConfig], and checks that. A request resolves to the best matching route; the
    layers that reach the route give the authentication and rate-limit steps in force and the
    contract of headers the engine asserts toward the upstream and toward the client. The
    policy text of a route goes through the compiler to the evaluator above.

    A plugin that does something irreversible in the outside world (mints a token) does so
    through the extensions it is handed: its intent goes to a write-ahead log before the act,
    the outcome after it, and the audit sinks get both. A recovery sweep compacts the log and
    asks a reconciler about the intents a crash or a cancellation left without an outcome.

    Before policy runs, identity plugins read a credential from the request and turn what they
    verify into an identity: a signed token, bound to a key of the sender where the issuer asks
    for it, or an API key looked up in a directory. The runtime bridge flattens the extensions
    a plugin may see into attributes, plans which plugins a route calls, keeps what a session
    was tainted with, and calls decision points through a cache of their decisions, delegators
    for tokens, and an approver that asks a human through an OpenID provider.

    ** Files and the code they model

    - [Prelude]: results, tactics, generic lemmas. [RustStr], [F64], [Json]: what the
      source uses of Rust strings (bytes with UTF-8 characters), doubles
      ([SpecFloat] at precision 53) and [serde_json] values (objects as key-sorted lists).
    - [Platform], [Host]: the two interfaces. [Platform] holds library functions that are
      not under [src/] (float and debug formatting, Unicode lower case, the regex engine,
      JSON printing, the default hasher). [Host] holds the answers of plugins, PDPs,
      delegators and approval channels, and the choices of the async runtime: branch panics
      and the schedule of joins and aborts. Every call has a position in the effect tree
      and the oracles answer by position, so two calls may be answered differently.
      Every theorem holds for all instances; [ascii_platform] and [allow_host] are used by
      witnesses.
    - [Attributes] ([attributes.rs]), [Rules] and [Effects] ([rules.rs]), [Pipeline]
      ([pipeline.rs]), [Constraint] ([constraint.rs]), [Step] ([step.rs]): the data of the
      language with its operations; layering of policy blocks and the load-time checks.
    - [Lexical] ([lexical.rs]) and [Predicate] ([parser.rs], the lexer and parser of
      predicates): the concrete syntax.
    - [Eval] ([evaluator.rs], predicates and comparisons), [PipelineEval]
      ([evaluate_pipeline]), [Dispatch] ([dispatch_effect] with one definition per arm,
      [dispatch_elicitation], [dispatch_parallel], [dispatch_field_op],
      [evaluate_effects]). The mutable references the source passes along are the record
      [EvalState].
    - [Paths] ([route.rs]: depth check, path expansion, reads and writes) and [RouteEval]
      ([evaluate_pre], [evaluate_post], [evaluate_route]).
    - [Branches] ([ppe-orchestration/src/lib.rs], [run_branches]).
    - [Routing] ([ppe-core/src/extensions/routing.rs]) and [Fold]
      ([ppe-apl-runtime/src/candidate_constraint.rs]).
    - [ExtData] (the slots under [ppe-core/src/extensions/]), [Plugin] ([plugin.rs],
      [error.rs], [context.rs], [decision.rs], [registry.rs]): the data of the executor.
    - [Extensions] ([extensions/container.rs], [filter.rs], [tiers.rs]): views and merges;
      an [Arc] whose identity the source compares is a value with an address.
    - [Executor] ([identity/payload.rs], [executor.rs]): a handler is a
      function from the payload, view and context it is given to how its call ends; the
      payload types are the class [Payloads]; the references the phases share are the
      record [ExecState], with the set of plugins disabled so far.

    - [Scan], [Stages], [RuleParser], [StepParser] ([parser.rs] after the
      predicates): the scanners, the pipeline stages, rules and actions, the steps with their
      call arguments and maps, and the compilation of a policy block. Derived deserializers
      are the classes [SerdeDerive] and [StepSerde]; a scanner of the source is a fold of a
      step function over the characters with the state the loop keeps.
    - [HttpPath] ([http_path.rs]): the guard that reads a request path.
    - [ConfigKeys] (the key tables of [config.rs] and the checks on raw YAML), [Hooks]
      ([hooks/metadata.rs], with the hook name suggestion of [config.rs]), [Config] (the
      declarations and conditions of plugins in [plugin.rs], the data, the selectors and route
      resolution of [config.rs], and its callers in [engine.rs]), [Sections] (the layered
      blocks of [config.rs], with [apply_assertions] of [engine.rs]), [ConfigCheck] (the
      checks of a typed configuration and [parse_config]).
    - [Assertions] ([assertions/]): sources, blocks, floors, contracts, rendering and
      application. Glob matching is the class [WildMatch], the order of a hash map the class
      [HashOrder]; an error text is a constructor with what the text interpolates.
    - [EffectLog] ([effect.rs], records and [FileEffectLog]): the file is its content, the
      contents its inode may have on stable storage and the ones an older directory would
      name; [AppendIo] and [RecoverIo] are the system's answer to each call, so a failure or
      a crash between any two calls is one of the answers. The codec of a record is the class
      [EffectCodec]. [EffectSink] (the rest of [effect.rs], with its callers in [executor.rs]
      and [engine.rs]): the log as the class [DurableEffectLog], which the file log
      implements, keys in flight, the sink and the perform protocol. [SweepProps]: the same
      protocol as a step relation over attempts, sweeps, blocking writes, refusals and crashes,
      with what they leave of the file.
    - [DecisionCache] ([ppe-apl-runtime/src/decision_cache]: the key, the bounded store, the
      wrapping resolver); SHA-256 is the class [Digest], the clock's range the class [Clock].
    - [Bridge] ([ppe-apl-cmf] and the other bridges from a slot to attributes, with the table
      of what a capability opens); time formatting is the class [Chrono].
    - [RateLimit] (the limiter plugin); the counters of the Limitador crate are the class
      [Limitador].
    - [Runtime] ([parallel_safety.rs], [dispatch_plan.rs], [pdp_router.rs],
      [cmf_invoker.rs] of [ppe-apl-runtime]) and [Session] ([session_resolver.rs],
      [session_store.rs], [route_handler.rs]); another session store is an instance of the
      class [SessionStore] that keeps [SessionStoreLaws].
    - [Delegation] ([delegation/], [elicitation/] of [ppe-core] and both invokers of
      [ppe-apl-runtime]).
    - [Credential] ([http_credential.rs], [identity/credential.rs]), [ClaimMap]
      ([identity/mapping/], the mappers and presets of the two identity plugins), [Dpop] and
      [Jwt] ([identity_jwt/]): the JOSE crate is the class [Jose], key files and endpoints the
      classes [KeyMaterial] and [JwksHost], a replay guard the class [ReplayGuard].
    - [ApiKey] ([identity_api_key/]): lookups as atomic steps over what they share; reading
      records and JSON are the classes [RecordFormat] and [JsonFormat].
    - [Http] ([http.rs], [http_retry.rs], [host.rs] of [ppe-core]): transport errors, the retry
      loop, the gate before it and forms; what the transport answers an attempt is given.
    - [Ciba] ([elicitation_ciba/]): the approval store is the class [CorrelationStore] with
      [CorrelationLaws], which the one in memory keeps; an operation is a sequence of steps
      between accesses of the store, and the provider's replies are given to the steps.
    - [OAuth] ([delegator_oauth/]): the token cache and the exchange, in steps likewise; what the
      cache crate gives out is a condition on the run, the keyed hash the class [KeyedHash], the
      derived deserializers and date arithmetic the class [TokenHost].
    - [Quota] ([quota/]): the pending debits and the two handlers as steps between their awaits,
      any of which may be dropped; what the transport does with a request is given.

    ** What the theorems show

    - [Eval]: predicates are strong Kleene logic over "cannot be ordered", by its truth
      tables; integer order is exact, an unorderable verdict names a present key.
    - [LexerProps], [ParserTotal]: [require] is negation; printing then parsing is the
      identity, for every path of the path syntax and every float some text stands for; every
      text is answered.
    - [Effects]: the purity check is exact, layers merge associatively.
    - [Paths], [Redaction]: reads after writes, depth check, and the redaction walk
      against an inductive definition of the places a pattern names.
    - [PipelineEval]: validators, masking, redaction, halting.
    - [Branches]: every schedule fills every slot and loses no deny that a task gave; a task
      the runtime drops is filled in as aborted.
    - [DispatchProps], [PhaseProps]: effects append to what was collected
      and stay on their side of the payload; a parallel block refines the sequential one;
      PDP steps fail closed; only elicitations suspend; approval is needed, denial is
      final, retries keep their id.
    - [RouteEval]: redaction end to end, the gate between the halves, sound modification
      flags, layers that cannot loosen a route.
    - [Routing], [Fold]: the glob matcher against its relation; the fold is sound, exact,
      independent of order and refuses only the unsatisfiable.
    - [ExtProps]: a view depends only on what the capabilities name.
    - [TierProps]: what a merge can change, as a reflexive and transitive relation; when a
      view handed back untouched is neutral, and two combinations of capabilities under
      which it is not.
    - [ExecutorProps]: the executor denies exactly when an enforcement point says so, under
      every schedule (a concurrent plugin whose task is dropped says nothing, and passes);
      observers cannot decide; a pipeline keeps the tiers, raw credentials excepted; its log
      is complete.

    - [ScanProps], [StageProps]: the scanners split exactly at the separators
      of the top level, and printed pipelines read back.
    - [CompileProps], [CompileErrors]: a compiled route is well formed and holds every entry
      of its document; a document is refused exactly for the listed reasons; the compiler
      answers every document.
    - [RuleProps]: from the text of a policy to its decision, through the compiler and the
      evaluator, for lines over plain paths and without float literals.
    - [HttpPath]: accepted paths have a normal form that is a fixed point.
    - [Hooks]: the two-row edit distance is the least number of changes.
    - [RouteSelectProps]: the resolved route is the first of the greatest score, the
      machine-width score of [http:] routes orders as a tuple, and in a configuration that
      loads a resolved name belongs to one route; the layers in force and the exact report of
      what is dropped.
    - [ContractProps]: the most specific entry per header, and that a client cannot choose what
      stands under an asserted name; the source grammar is exact; contracts that load keep the
      protocol floor and put no secret in a response.
    - [EffectLogProps]: a recovery keeps exactly the unsettled keys, and appends and
      recoveries are all or nothing under any failure or crash, from a file without unsynced
      changes; an example shows why that condition is needed.
    - [EffectSinkProps]: over a durable log an act runs only behind a durable intent, the
      stream of the sinks has no gap, a sweep settles what it can answer for.
    - [SweepProps]: by rule induction over the steps, every act is accounted for, except the
      ones whose record a crash takes with a file whose name is not durable and except while
      the file cannot be parsed; as long as no file is lost no key gets a second answer. An
      example runs a loss.

    - [CacheKeyProps], [CacheRaceProps]: evaluations share a key exactly
      when they agree on what the decision depends on; the store stays within its bound; a hit
      is of the current generation and young enough under every interleaving.
    - [BridgeProps]: a plugin's attributes agree with the whole request's on what its
      capabilities open, and hold nothing else.
    - [RateLimitProps]: callers cannot choose their counter before they are identified, and
      whoever is admitted was counted.
    - [RuntimeProps], [SessionProps]: what parallel branches call writes nothing; no call of the
      build of a plan meets an engine older than the request, though one build may meet
      several; labels of a session stick, sessions belong to a subject,
      and the verdict on a request is exact.
    - [DelegationProps]: a delegation step reaches only its own slots and sends the credentials
      of the roles it names; a silent approver never approves.
    - [Credential], [ClaimMapProps]: a credential is the only one of its place; an identity
      holds what the declared paths reach; the standard preset agrees with the mapper it
      replaces; the claims bag is exact.
    - [Dpop], [Jwt]: identities come from verified tokens, bound tokens need a fresh proof,
      a proof is accepted once, the guard in memory refines a map, fetches keep their floor.
    - [ApiKeyProps]: how old an answer can be under every interleaving of lookups, reloads
      and time, with the run that breaks the bound when a reload outlasts its interval; what
      identity a key is given.
    - [Http]: a request that must not be repeated reaches its peer at most once, and a retry
      fits its budget with the delay before it; a form can be read back.
    - [Ciba]: what a redeemed approval rests on, and that it is redeemed once.
    - [OAuth]: delegations share a key exactly when they ask for the same token, and a token is
      only given to the caller it was minted for; one read from the cache only while it may
      still be served.
    - [Quota]: what is debited is never forgotten nor confirmed twice; a check passes only once
      all of it is confirmed, and a principal is not locked out when the server answers.

    ** Bounds and fuel

    The lexer's loops are bounded by the length of the text and the parser's recursion by
    the number of tokens; [ParserTotal] proves the bound is never reached. The depth check
    and the path walks recurse on the document or on a number of nodes that covers it; the
    limits of the source (depth 128, 100,000 paths, 100,000 walk states) are kept as
    numbers. [glob_loop] is bounded by a product of the lengths, which [Routing] proves
    enough. Stream counters wrap at 64 bits. The recursion over nested steps and effects is
    bounded by the size of the YAML value, and [CompileProps] proves that bound is never
    reached. A [usize] score is a [Z] with its saturating operations. Integers are [Z] with the
    [i64] and [usize] ranges written out where the source parses or casts; lengths and indices
    in memory are [nat]. Times are [Z], in nanoseconds for a date and in milliseconds where the
    source keeps those; a sum of durations past the range of [Duration] is a panic of the retry
    loop. A run of an interleaved component is a finite list of events, and the
    theorems hold for every such list.

    ** What is not modelled

    Panics of external code are modelled where the source contains them (PDP tasks,
    branches and plugin tasks) and not elsewhere; a branch that never ends is not modelled
    where no timeout is configured. Wall-clock time appears only as the timeout of a branch
    or a plugin, and time spent waiting for audit sinks is not counted, as in the source.
    A plugin disabled by another request while a pipeline runs is not modelled: the set of
    disabled plugins belongs to the pipeline. Of the executor: the stamps of the audit
    stream (span, content hashes, sequence numbers), audit sinks and the recording of
    effects it performs (which [EffectSink] models); of an error: its chain of causes.
    Serialization, logging and tracing are left out, and so are derived deserializers, which
    are parameters.

    Of the repository, by component:
    - the engine of [ppe-core] around the dispatch that is modelled: registration and loading
      of plugins, the public entry points, reload; it composes what is modelled with I/O;
    - [visitor.rs] and [message_projection.rs] of [ppe-apl-runtime], and the message format
      with its views: walks over large data types without decisions of their own;
    - the decision points (Cedar, CEL, OPA), which adapt third-party engines, and the Vault
      delegator, which talks to a service;
    - the Valkey stores, whose work is in scripts a server runs; the FIPS
      provider of the JWT plugin; secret providers, audit export and the effective-policy
      artifact; facades, benchmarks, test tools and reference plugins. *)

From Stdlib Require Export ZArith Lia.
From stdpp Require Export base tactics list strings gmap sorting.

(** ** Results of fallible operations: Rust's [Result<A, E>] *)

Inductive result (A E : Type) : Type :=
| Ok (a : A)
| Err (e : E).
Arguments Ok {A E} a.
Arguments Err {A E} e.

Declare Scope policy_scope.
Delimit Scope policy_scope with policy.
Open Scope policy_scope.

Notation "'let?' x ':=' c 'in' k" :=
  (match c with Ok x => k | Err e => Err e end)
  (at level 10, x pattern, c at level 100, k at level 200) : policy_scope.

Definition result_is_ok {A E} (r : result A E) : bool :=
  match r with Ok _ => true | Err _ => false end.

Definition result_map_err {A E F} (f : E -> F) (r : result A E) : result A F :=
  match r with Ok a => Ok a | Err e => Err (f e) end.

(** [bool::then_some]. *)
Definition then_some {A} (b : bool) (a : A) : option A :=
  if b then Some a else None.

(** [Option::is_some_and]. *)
Definition is_some_and {A} (p : A -> bool) (o : option A) : bool :=
  match o with Some a => p a | None => false end.

#[global] Instance result_eq_dec {A E} `{EqDecision A, EqDecision E} :
  EqDecision (result A E).
Proof. solve_decision. Defined.

(** ** Automation shared by the components *)

Create HintDb policy discriminated.

(** Case analysis on every [match]/[if] in the goal or the context, closing the
    absurd branches. *)
Ltac cases_in_goal := repeat (case_match; simplify_eq/=; try done).

(** [for x in l { f(x)?; }]. *)
Fixpoint try_each {A E} (f : A -> result unit E) (l : list A) : result unit E :=
  match l with [] => Ok tt | x :: l' => let? _ := f x in try_each f l' end.

Lemma try_each_ok {A E} (f : A -> result unit E) l : try_each f l = Ok tt <-> Forall (fun x => f x = Ok tt) l.
Proof.
  induction l as [|x l IH]; simpl; [by split|]. rewrite Forall_cons.
  destruct (f x) as [[]|]; [|naive_solver]. rewrite IH. naive_solver.
Qed.

Lemma try_each_elem {A E} (f : A -> result unit E) l : try_each f l = Ok tt -> forall x, x ∈ l -> f x = Ok tt.
Proof. by rewrite try_each_ok, Forall_forall. Qed.

(** Step through the [let?] chain of a hypothesis that ends in [Ok]. *)
Ltac peel_ok H :=
  repeat match type of H with
  | (match ?c with Ok _ => _ | Err _ => _ end) = Ok _ => destruct c as [?|?] eqn:?; [|discriminate H]
  end.

(** Split a conjunction-shaped boolean hypothesis. *)
Ltac split_bools :=
  repeat match goal with
  | H : _ && _ = true |- _ => apply andb_true_iff in H; destruct H
  | H : _ || _ = false |- _ => apply orb_false_iff in H; destruct H
  | H : negb _ = true |- _ => apply negb_true_iff in H
  | H : negb _ = false |- _ => apply negb_false_iff in H
  end.

(** ** Lists *)

(** A prefix is kept by any function that only appends. *)
Lemma prefix_app_l {A} (l k1 k2 : list A) : l `prefix_of` l ++ k1 ++ k2.
Proof. by exists (k1 ++ k2). Qed.

Lemma prefix_app_trans {A} (l1 l2 k : list A) :
  l1 `prefix_of` l2 -> l1 `prefix_of` l2 ++ k.
Proof. intros [j ->]. exists (j ++ k). by rewrite (assoc_L (++)). Qed.

#[export] Hint Resolve prefix_app_l prefix_app_trans : policy.

Lemma filter_same {A} (P Q : A -> Prop) `{forall x, Decision (P x), forall x, Decision (Q x)} (l : list A) :
  (forall x, x ∈ l -> P x <-> Q x) -> filter P l = filter Q l.
Proof.
  induction l as [|x l IH]; intros HPQ; [done|]. rewrite !filter_cons.
  rewrite IH by set_solver. specialize (HPQ x ltac:(left)). repeat case_decide; tauto.
Qed.

Lemma filter_all {A} (P : A -> Prop) `{forall x, Decision (P x)} (l : list A) :
  (forall x, x ∈ l -> P x) -> filter P l = l.
Proof.
  induction l as [|x l IH]; intros HP; [done|]. rewrite filter_cons_True by (apply HP; left).
  rewrite IH; [done|]. intros y Hy. apply HP. by right.
Qed.

Lemma nodup_map_inj {A B} (f : A -> B) l x y : NoDup (map f l) -> x ∈ l -> y ∈ l -> f x = f y -> x = y.
Proof.
  induction l as [|z l IH]; simpl; intros Hnd Hx Hy Hf; [by apply not_elem_of_nil in Hx|].
  apply NoDup_cons in Hnd as [Hz Hnd].
  apply elem_of_cons in Hx as [-> |Hx]; apply elem_of_cons in Hy as [-> |Hy]; auto; destruct Hz.
  - rewrite Hf. by apply list_elem_of_fmap_2.
  - rewrite <- Hf. by apply list_elem_of_fmap_2.
Qed.

Lemma existsb_forallb_negb {A} (f : A -> bool) l :
  existsb f l = negb (forallb (fun x => negb (f x)) l).
Proof. induction l as [|x l IH]; simpl; [done|]. rewrite IH. by destruct (f x). Qed.

Lemma existsb_false_iff {A} (f : A -> bool) l :
  existsb f l = false <-> Forall (fun x => f x = false) l.
Proof.
  induction l as [|x l IH]; simpl; [split; auto|].
  rewrite orb_false_iff, IH, Forall_cons. done.
Qed.

Lemma existsb_true_iff {A} (f : A -> bool) l :
  existsb f l = true <-> exists x, x ∈ l /\ f x = true.
Proof.
  rewrite existsb_exists. by setoid_rewrite list_elem_of_In.
Qed.

Lemma existsb_perm {A} (f : A -> bool) l k : l ≡ₚ k -> existsb f l = existsb f k.
Proof.
  intros Hp. apply eq_iff_eq_true. rewrite !existsb_true_iff.
  by setoid_rewrite Hp.
Qed.

Lemma forallb_true_iff {A} (f : A -> bool) l :
  forallb f l = true <-> Forall (fun x => f x = true) l.
Proof.
  induction l as [|x l IH]; simpl; [split; auto|].
  rewrite andb_true_iff, IH, Forall_cons. done.
Qed.

Lemma forallb_false_iff {A} (f : A -> bool) l :
  forallb f l = false <-> exists x, x ∈ l /\ f x = false.
Proof.
  induction l as [|x l IH]; simpl; [set_solver|].
  rewrite andb_false_iff, IH. setoid_rewrite elem_of_cons. naive_solver.
Qed.

Lemma elem_of_concat_map {A B} (f : A -> list B) l x :
  x ∈ concat (map f l) <-> exists y, y ∈ l /\ x ∈ f y.
Proof.
  induction l as [|y l IH]; simpl; [set_solver|].
  rewrite elem_of_app, IH. set_solver.
Qed.
