(* ===== verification/RustStr.v ===== *)
(** * Rust strings

    The operations of [str] and of the integer [FromStr] implementations the
    policy engine uses. A Rust [String] is its UTF-8 byte sequence, a Rocq
    [string]; [chars] recovers the characters by grouping each lead byte with
    the continuation bytes that follow it. *)

From Stdlib Require Import Ascii String DecimalString DecimalN.
From S2P Require Import Prelude.

Open Scope string_scope.
Open Scope list_scope.

(** ** Bytes and characters *)

Definition byte_val (a : ascii) : N := N_of_ascii a.

(** A UTF-8 continuation byte, [0b10xxxxxx]. *)
Definition is_continuation (a : ascii) : bool :=
  ((128 <=? byte_val a) && (byte_val a <? 192))%N.

Definition starts_with_continuation (c : string) : bool :=
  match c with String a _ => is_continuation a | EmptyString => false end.

(** [str::chars]: each character as the bytes that encode it. *)
Fixpoint chars (s : string) : list string :=
  match s with
  | EmptyString => []
  | String a s' =>
      match chars s' with
      | [] => [String a EmptyString]
      | c :: cs =>
          if starts_with_continuation c then String a c :: cs
          else String a EmptyString :: c :: cs
      end
  end.

Definition of_chars (cs : list string) : string := String.concat "" cs.

Lemma string_app_cons a s t : String a s +:+ t = String a (s +:+ t).
Proof. reflexivity. Qed.

Lemma string_app_nil_r s : s +:+ "" = s.
Proof. induction s as [|a s IH]; [done|]. by rewrite string_app_cons, IH. Qed.

Lemma of_chars_cons c cs : of_chars (c :: cs) = c +:+ of_chars cs.
Proof.
  unfold of_chars. simpl. destruct cs; simpl; [by rewrite string_app_nil_r|done].
Qed.

Lemma of_chars_chars s : of_chars (chars s) = s.
Proof.
  induction s as [|a s IH]; [done|]. simpl.
  destruct (chars s) as [|c cs].
  - simpl in *. unfold of_chars in IH. simpl in IH. by subst.
  - destruct (starts_with_continuation c);
      rewrite !of_chars_cons, !string_app_cons in *; by rewrite IH.
Qed.

(** ** ASCII case *)

Definition ascii_lower (a : ascii) : ascii :=
  let n := N_of_ascii a in
  if ((65 <=? n) && (n <=? 90))%N then ascii_of_N (n + 32) else a.

Fixpoint to_ascii_lowercase (s : string) : string :=
  match s with
  | EmptyString => EmptyString
  | String a s' => String (ascii_lower a) (to_ascii_lowercase s')
  end.

(** [str::eq_ignore_ascii_case]. *)
Definition eq_ignore_ascii_case (s t : string) : bool :=
  String.eqb (to_ascii_lowercase s) (to_ascii_lowercase t).

Definition in_byte_range (lo hi : N) (a : ascii) : bool :=
  ((lo <=? N_of_ascii a) && (N_of_ascii a <=? hi))%N.

Definition is_ascii_digit (a : ascii) : bool := in_byte_range 48 57 a.
Definition is_ascii_upper (a : ascii) : bool := in_byte_range 65 90 a.
Definition is_ascii_lower (a : ascii) : bool := in_byte_range 97 122 a.
Definition is_ascii_alphabetic (a : ascii) : bool := is_ascii_upper a || is_ascii_lower a.
Definition is_ascii_alphanumeric (a : ascii) : bool := is_ascii_alphabetic a || is_ascii_digit a.
Definition is_ascii_hexdigit (a : ascii) : bool :=
  is_ascii_digit a || in_byte_range 65 70 a || in_byte_range 97 102 a.

Fixpoint string_forall (p : ascii -> bool) (s : string) : bool :=
  match s with
  | EmptyString => true
  | String a s' => p a && string_forall p s'
  end.

(** ** Searching and splitting *)

(** [str::contains(char)] for an ASCII character. *)
Fixpoint contains_char (c : ascii) (s : string) : bool :=
  match s with
  | EmptyString => false
  | String a s' => Ascii.eqb a c || contains_char c s'
  end.

(** [str::find] on an ASCII delimiter together with the split it is used for:
    the text before the first [c] and the text after it. *)
Fixpoint split_once (c : ascii) (s : string) : option (string * string) :=
  match s with
  | EmptyString => None
  | String a s' =>
      if Ascii.eqb a c then Some (EmptyString, s')
      else match split_once c s' with
           | Some (before, after) => Some (String a before, after)
           | None => None
           end
  end.

(** [str::split(char)]: always at least one piece. *)
Fixpoint split (c : ascii) (s : string) : list string :=
  match s with
  | EmptyString => [EmptyString]
  | String a s' =>
      if Ascii.eqb a c then EmptyString :: split c s'
      else match split c s' with
           | p :: ps => String a p :: ps
           | [] => [String a EmptyString]
           end
  end.

Definition starts_with (p s : string) : bool := String.prefix p s.

Fixpoint strip_prefix (p s : string) : option string :=
  match p, s with
  | EmptyString, _ => Some s
  | String a p', String b s' => if Ascii.eqb a b then strip_prefix p' s' else None
  | String _ _, EmptyString => None
  end.

(** ** Whitespace *)

(** The characters of [char::is_whitespace] (Unicode [White_Space]), each as its
    UTF-8 encoding. *)
Definition ascii_whitespace (a : ascii) : bool :=
  in_byte_range 9 13 a || in_byte_range 32 32 a.

Definition bytes (l : list N) : string := string_of_list_ascii (map ascii_of_N l).

Definition unicode_whitespace : list string :=
  Eval vm_compute in
  ([bytes [194; 133]; bytes [194; 160]; bytes [225; 154; 128]]
   ++ map (fun k => bytes [226; 128; 128 + k]%N) [0; 1; 2; 3; 4; 5; 6; 7; 8; 9; 10]%N
   ++ [bytes [226; 128; 168]; bytes [226; 128; 169]; bytes [226; 128; 175];
       bytes [226; 129; 159]; bytes [227; 128; 128]])%N.

Definition is_whitespace (c : string) : bool :=
  match c with
  | String a EmptyString => ascii_whitespace a
  | _ => existsb (String.eqb c) unicode_whitespace
  end.

Fixpoint drop_while {A} (p : A -> bool) (l : list A) : list A :=
  match l with
  | [] => []
  | x :: l' => if p x then drop_while p l' else l
  end.

(** [str::trim]. *)
Definition trim (s : string) : string :=
  of_chars (rev (drop_while is_whitespace (rev (drop_while is_whitespace (chars s))))).

(** ** Integers *)

Definition i64_min : Z := (- 2 ^ 63)%Z.
Definition i64_max : Z := (2 ^ 63 - 1)%Z.
Definition usize_max : Z := (2 ^ 64 - 1)%Z.

Definition in_i64 (z : Z) : bool := ((i64_min <=? z) && (z <=? i64_max))%Z.

(** Unsigned decimal digits, at least one. *)
Definition parse_digits (s : string) : option Z :=
  match NilZero.uint_of_string s with
  | Some d => Some (Z.of_N (N.of_uint d))
  | None => None
  end.

(** [str::parse::<usize>]: an optional [+], then digits, within 64 bits. *)
Definition parse_usize (s : string) : option Z :=
  let digits := match strip_prefix "+" s with Some r => r | None => s end in
  match parse_digits digits with
  | Some n => then_some (n <=? usize_max)%Z n
  | None => None
  end.

(** [str::parse::<i64>]: an optional sign, then digits, within range. *)
Definition parse_i64 (s : string) : option Z :=
  let signed :=
    match strip_prefix "-" s with
    | Some r => option_map Z.opp (parse_digits r)
    | None => parse_digits (match strip_prefix "+" s with Some r => r | None => s end)
    end in
  match signed with
  | Some n => then_some (in_i64 n) n
  | None => None
  end.

(** [usize::to_string]. *)
Definition show_nat (n : nat) : string :=
  NilZero.string_of_uint (N.to_uint (N.of_nat n)).

(** [i64::to_string]. *)
Definition show_Z (z : Z) : string :=
  match z with
  | Zneg p => "-" +:+ NilZero.string_of_uint (N.to_uint (Npos p))
  | _ => NilZero.string_of_uint (N.to_uint (Z.to_N z))
  end.

Definition show_bool (b : bool) : string := if b then "true" else "false".

(** [{:?}] of an [Option] of something already rendered. *)
Definition debug_option (o : option string) : string :=
  match o with Some s => "Some(" +:+ s +:+ ")" | None => "None" end.

Lemma uint_string_no_sign d c s :
  NilZero.string_of_uint d = String c s -> Ascii.eqb "+" c = false.
Proof.
  intros H. destruct d; simpl in H; injection H as <- _; reflexivity.
Qed.

Lemma parse_digits_show n :
  parse_digits (NilZero.string_of_uint (N.to_uint n)) = Some (Z.of_N n).
Proof.
  unfold parse_digits. rewrite NilZero.usu.
  - by rewrite DecimalN.Unsigned.of_to.
  - intros E. assert (N.of_uint (N.to_uint n) = N.of_uint Decimal.Nil) as H by by rewrite E.
    rewrite DecimalN.Unsigned.of_to in H. simpl in H. subst n. done.
Qed.

(** An index written by [to_string] reads back as itself. *)
Lemma parse_show_nat n :
  (Z.of_nat n <= usize_max)%Z -> parse_usize (show_nat n) = Some (Z.of_nat n).
Proof.
  intros Hn. unfold parse_usize.
  replace (strip_prefix "+" (show_nat n)) with (@None string).
  - unfold show_nat. rewrite parse_digits_show, nat_N_Z. unfold then_some.
    by rewrite (proj2 (Z.leb_le _ _) Hn).
  - destruct (show_nat n) as [|c s] eqn:E; [done|].
    unfold strip_prefix. by rewrite (uint_string_no_sign _ _ _ E).
Qed.

Lemma split_ne_nil c s : split c s <> [].
Proof. destruct s as [|a s]; simpl; [done|]. destruct (Ascii.eqb a c), (split c s); done. Qed.

(** ** The order of strings (bytewise), as [Ord] for [String] and the iteration
    order of [BTreeMap]/[BTreeSet] *)

Definition string_le (a b : string) : Prop := String.leb a b = true.

#[global] Instance string_le_dec : RelDecision string_le.
Proof. intros a b. unfold string_le. apply _. Defined.

Lemma string_leb_cons c s d t :
  String.leb (String c s) (String d t)
  = match N.compare (N_of_ascii c) (N_of_ascii d) with
    | Lt => true | Gt => false | Eq => String.leb s t
    end.
Proof.
  unfold String.leb. simpl. unfold Ascii.compare.
  by destruct (N.compare (N_of_ascii c) (N_of_ascii d)).
Qed.

#[global] Instance string_le_trans : Transitive string_le.
Proof.
  intros a. induction a as [|c a IH]; intros [|d b] [|e t]; unfold string_le in *; try done.
  rewrite !string_leb_cons.
  destruct (N.compare_spec (N_of_ascii c) (N_of_ascii d)) as [H1|H1|H1],
    (N.compare_spec (N_of_ascii d) (N_of_ascii e)) as [H2|H2|H2],
    (N.compare_spec (N_of_ascii c) (N_of_ascii e)) as [H3|H3|H3]; try done; try lia.
  apply IH.
Qed.

#[global] Instance string_le_total : Total string_le.
Proof.
  intros a. induction a as [|c a IH]; intros [|d b]; unfold string_le in *; auto.
  rewrite !string_leb_cons, (N.compare_antisym (N_of_ascii c) (N_of_ascii d)).
  destruct (N.compare (N_of_ascii c) (N_of_ascii d)); simpl; auto.
Qed.

#[global] Instance string_le_antisym : AntiSymm (=) string_le.
Proof.
  intros a. induction a as [|c a IH]; intros [|d b]; unfold string_le in *; try done.
  rewrite !string_leb_cons, (N.compare_antisym (N_of_ascii c) (N_of_ascii d)).
  destruct (N.compare_spec (N_of_ascii c) (N_of_ascii d)) as [E|E|E]; simpl; try done.
  intros H1 H2. f_equal; [|by apply IH].
  by rewrite <- (ascii_N_embedding c), <- (ascii_N_embedding d), E.
Qed.

(** The elements of a set in iteration order of a [BTreeSet]. *)
Definition sorted_elements (s : gset string) : list string := merge_sort string_le (elements s).

Lemma sorted_elements_elem s x : x ∈ sorted_elements s <-> x ∈ s.
Proof. unfold sorted_elements. rewrite merge_sort_Permutation. apply elem_of_elements. Qed.

(** Sorting a collected set: the entries of a [BTreeMap] in iteration order. *)
Definition key_le {V} (a b : string * V) : Prop := string_le a.1 b.1.

#[global] Instance key_le_dec {V} : RelDecision (@key_le V).
Proof. intros a b. unfold key_le. apply _. Defined.

Definition sorted_entries {V} (m : gmap string V) : list (string * V) :=
  merge_sort key_le (map_to_list m).

Lemma sorted_entries_elem {V} (m : gmap string V) k v :
  (k, v) ∈ sorted_entries m <-> m !! k = Some v.
Proof. unfold sorted_entries. rewrite merge_sort_Permutation. apply elem_of_map_to_list. Qed.
