(* ===== verification/F64.v ===== *)
(** * [f64]

    IEEE-754 binary64 as the standard library's [spec_float] at precision 53 and
    maximal exponent 1024: the comparisons, the [i64 as f64] cast, and
    [str::parse::<f64>] with correct rounding. *)

From Stdlib Require Import Ascii String SpecFloat DecimalString.
From S2P Require Import Prelude RustStr.

Local Open Scope Z_scope.

Definition f64 : Type := spec_float.

Definition f64_prec : Z := 53.
Definition f64_emax : Z := 1024.

#[global] Instance f64_eq_dec : EqDecision f64.
Proof. solve_decision. Defined.

(** [a == b], [a < b], [a <= b], [a > b], [a >= b] on [f64]: false on [NaN]. *)
Definition f64_eqb (a b : f64) : bool := SFeqb a b.
Definition f64_ltb (a b : f64) : bool := SFltb a b.
Definition f64_leb (a b : f64) : bool := SFleb a b.
Definition f64_gtb (a b : f64) : bool := SFltb b a.
Definition f64_geb (a b : f64) : bool := SFleb b a.

Definition f64_is_finite (f : f64) : bool :=
  match f with
  | S754_zero _ | S754_finite _ _ _ => true
  | S754_infinity _ | S754_nan => false
  end.

(** [n as f64]: round to nearest, ties to even. *)
Definition f64_of_Z (n : Z) : f64 := binary_normalize f64_prec f64_emax n 0 false.

(** ** [str::parse::<f64>] *)

Fixpoint take_digits (s : string) : string * string :=
  match s with
  | EmptyString => (EmptyString, EmptyString)
  | String a s' =>
      if is_ascii_digit a then
        let '(d, r) := take_digits s' in (String a d, r)
      else (EmptyString, s)
  end.

Definition digits_value (d : string) : Z :=
  match parse_digits d with Some n => n | None => 0 end.

(** A leading sign: the sign and what follows it. *)
Definition take_sign (s : string) : bool * string :=
  match s with
  | String a s' =>
      if Ascii.eqb a "-" then (true, s')
      else if Ascii.eqb a "+" then (false, s') else (false, s)
  | EmptyString => (false, s)
  end.

(** The exponent part: empty, or [e]/[E], an optional sign and digits. *)
Definition parse_exponent (s : string) : option Z :=
  match s with
  | EmptyString => Some 0
  | String a s' =>
      if Ascii.eqb a "e" || Ascii.eqb a "E" then
        let '(neg, r) := take_sign s' in
        match parse_digits r with
        | Some n => Some (if neg then - n else n)
        | None => None
        end
      else None
  end.

(** The double nearest to [(-1)^neg * m * 10^e]. *)
Definition f64_of_decimal (neg : bool) (m e : Z) : f64 :=
  match m with
  | Zpos p =>
      if 0 <=? e then
        binary_normalize f64_prec f64_emax
          ((if neg then -1 else 1) * (Zpos p * 10 ^ e)) 0 false
      else
        match 10 ^ (- e) with
        | Zpos q => SFdiv f64_prec f64_emax (S754_finite neg p 0) (S754_finite false q 0)
        | _ => S754_nan
        end
  | _ => S754_zero neg
  end.

Definition parse_number (neg : bool) (s : string) : option f64 :=
  let '(ipart, r) := take_digits s in
  let '(fpart, r') :=
    match r with
    | String a r1 => if Ascii.eqb a "." then take_digits r1 else (EmptyString, r)
    | EmptyString => (EmptyString, r)
    end in
  if String.eqb (ipart +:+ fpart) "" then None
  else match parse_exponent r' with
       | Some e =>
           Some (f64_of_decimal neg (digits_value (ipart +:+ fpart))
                   (e - Z.of_nat (String.length fpart)))
       | None => None
       end.

Definition parse_f64 (s : string) : option f64 :=
  let '(neg, r) := take_sign s in
  let l := to_ascii_lowercase r in
  if String.eqb l "inf" || String.eqb l "infinity" then Some (S754_infinity neg)
  else if String.eqb l "nan" then Some S754_nan
  else parse_number neg r.

Example parse_f64_examples :
  parse_f64 "2.5" = Some (SFdiv 53 1024 (f64_of_Z 5) (f64_of_Z 2))
  /\ parse_f64 "-1e3" = Some (f64_of_Z (-1000))
  /\ parse_f64 ".5" = Some (SFdiv 53 1024 (f64_of_Z 1) (f64_of_Z 2))
  /\ parse_f64 "0.1" = Some (S754_finite false 7205759403792794 (-56))
  /\ parse_f64 "9007199254740993" = parse_f64 "9007199254740992"
  /\ parse_f64 "." = None /\ parse_f64 "1e" = None /\ parse_f64 "12x" = None.
Proof. vm_compute. repeat split. Qed.

(** ** Exactness of the cast within [2^53] *)

Lemma digits2_pos_bounds p :
  2 ^ (Zpos (digits2_pos p) - 1) <= Zpos p < 2 ^ Zpos (digits2_pos p).
Proof.
  induction p as [p IH|p IH|]; cbn [digits2_pos]; [| |by vm_compute];
    set (k := digits2_pos p) in *;
    assert (2 ^ Zpos k = 2 * 2 ^ (Zpos k - 1)) as H
      by (rewrite <- Z.pow_succ_r by lia; f_equal; lia);
    assert (2 ^ Zpos (Pos.succ k) = 2 * 2 ^ Zpos k) as H'
      by (rewrite Pos2Z.inj_succ, Z.pow_succ_r by lia; done);
    replace (Zpos (Pos.succ k) - 1) with (Zpos k) by lia;
    rewrite H'; lia.
Qed.

Lemma digits2_pos_unique p d :
  0 < d -> 2 ^ (d - 1) <= Zpos p < 2 ^ d -> Zpos (digits2_pos p) = d.
Proof.
  intros Hd [H1 H2]. pose proof (digits2_pos_bounds p) as [B1 B2].
  assert (2 ^ (d - 1) < 2 ^ Zpos (digits2_pos p)) as A1 by lia.
  assert (2 ^ (Zpos (digits2_pos p) - 1) < 2 ^ d) as A2 by lia.
  apply Z.pow_lt_mono_r_iff in A1; [|lia..].
  apply Z.pow_lt_mono_r_iff in A2; [|lia..]. lia.
Qed.

(** [f] is the normalized double of sign [s] and magnitude [p]. *)
Definition f64_repr (s : bool) (p : positive) (f : f64) : Prop :=
  exists m e, f = S754_finite s m e
    /\ 2 ^ 52 <= Zpos m < 2 ^ 53 /\ -53 <= e
    /\ Zpos m * 2 ^ (e + 53) = Zpos p * 2 ^ 53.

(** A mantissa of exactly 53 digits is not changed by rounding. *)
Lemma binary_round_aux_normal s m e :
  2 ^ 52 <= Zpos m < 2 ^ 53 -> -1074 <= e <= 971 ->
  binary_round_aux f64_prec f64_emax s (Zpos m) e loc_Exact = S754_finite s m e.
Proof.
  intros Hm He.
  assert (Zpos (digits2_pos m) = 53) as Hd by (apply digits2_pos_unique; lia).
  assert (shr_fexp f64_prec f64_emax (Zpos m) e loc_Exact
          = (Build_shr_record (Zpos m) false false, e)) as Hs.
  { unfold shr_fexp, Zdigits2. rewrite Hd. unfold fexp, emin, f64_prec, f64_emax.
    replace (Z.max (53 + e - 53) (3 - 1024 - 53) - e) with 0 by lia. done. }
  unfold binary_round_aux. rewrite Hs. cbn -[Z.leb shr_fexp f64_prec f64_emax].
  rewrite Hs. cbn -[Z.leb f64_prec f64_emax].
  rewrite (proj2 (Z.leb_le _ _)); [done|]. unfold f64_prec, f64_emax. lia.
Qed.

Lemma binary_round_exact s p :
  Zpos p <= 2 ^ 53 -> f64_repr s p (binary_round f64_prec f64_emax s p 0).
Proof.
  intros Hp. destruct (Z.eq_dec (Zpos p) (2 ^ 53)) as [E|E].
  - injection E as ->. exists (2 ^ 52)%positive, 1. by vm_compute.
  - pose proof (digits2_pos_bounds p) as [B1 B2].
    set (d := Zpos (digits2_pos p)) in *.
    assert (0 < d) as Hd0 by (unfold d; lia).
    assert (d <= 53) as Hd.
    { assert (2 ^ (d - 1) < 2 ^ 53) as A by lia.
      apply Z.pow_lt_mono_r_iff in A; lia. }
    unfold binary_round, shl_align. fold d.
    assert (fexp f64_prec f64_emax (d + 0) = d - 53) as ->
      by (unfold fexp, emin, f64_prec, f64_emax; lia).
    rewrite Z.sub_0_r. destruct (d - 53) as [|q|q] eqn:Eq; [| lia |].
    + assert (d = 53) as Hd53 by lia. exists p, 0.
      rewrite Hd53 in *. split; [apply binary_round_aux_normal; lia|].
      repeat split; lia.
    + assert (Zpos (Pos.iter xO p q) = Zpos p * 2 ^ (53 - d)) as Hv.
      { change (Pos.iter xO p q) with (Zpower.shift_pos q p).
        rewrite Zpower.shift_pos_correct, Z.pow_pos_fold.
        replace (53 - d) with (Zpos q) by lia. lia. }
      assert (2 ^ 53 = 2 ^ d * 2 ^ (53 - d)) as S1 by (rewrite <- Z.pow_add_r by lia; f_equal; lia).
      assert (2 ^ 52 = 2 ^ (d - 1) * 2 ^ (53 - d)) as S2
        by (rewrite <- Z.pow_add_r by lia; f_equal; lia).
      assert (0 < 2 ^ (53 - d)) by (apply Z.pow_pos_nonneg; lia).
      exists (Pos.iter xO p q), (Zneg q).
      assert (2 ^ 52 <= Zpos (Pos.iter xO p q) < 2 ^ 53) as Hb by (rewrite Hv, S1, S2; nia).
      split; [apply binary_round_aux_normal; lia|]. split; [done|]. split; [lia|].
      rewrite Hv, <- Z.mul_assoc, <- Z.pow_add_r by lia.
      do 2 f_equal. lia.
Qed.

Lemma f64_repr_compare m1 m2 e1 e2 p1 p2 :
  2 ^ 52 <= Zpos m1 < 2 ^ 53 -> 2 ^ 52 <= Zpos m2 < 2 ^ 53 -> -53 <= e1 -> -53 <= e2 ->
  Zpos m1 * 2 ^ (e1 + 53) = Zpos p1 * 2 ^ 53 ->
  Zpos m2 * 2 ^ (e2 + 53) = Zpos p2 * 2 ^ 53 ->
  match (e1 ?= e2) with Lt => Lt | Gt => Gt | Eq => Pos.compare m1 m2 end = (Zpos p1 ?= Zpos p2).
Proof.
  assert (forall a b, -53 <= a < b -> 2 ^ 53 * 2 ^ (a + 53) <= 2 ^ 52 * 2 ^ (b + 53)) as Hmono.
  { intros a b Hab. rewrite <- !Z.pow_add_r by lia. apply Z.pow_le_mono_r; lia. }
  assert (forall a, -53 <= a -> 0 < 2 ^ (a + 53)) as Hpos
    by (intros; apply Z.pow_pos_nonneg; lia).
  intros M1 M2 E1 E2 V1 V2. pose proof (Hpos e1 E1). pose proof (Hpos e2 E2).
  destruct (Z.compare_spec e1 e2) as [He|He|He]; symmetry.
  - subst e2. change (Pos.compare m1 m2) with (Zpos m1 ?= Zpos m2).
    destruct (Z.compare_spec (Zpos m1) (Zpos m2)) as [Hm|Hm|Hm].
    + apply Z.compare_eq_iff. rewrite Hm in V1. nia.
    + apply Z.compare_lt_iff. nia.
    + apply Z.compare_gt_iff. nia.
  - apply Z.compare_lt_iff. specialize (Hmono e1 e2 ltac:(lia)). nia.
  - apply Z.compare_gt_iff. specialize (Hmono e2 e1 ltac:(lia)). nia.
Qed.

(** Within [2^53] the cast preserves the order of the integers. *)
Lemma f64_of_Z_compare a b :
  - 2 ^ 53 <= a <= 2 ^ 53 -> - 2 ^ 53 <= b <= 2 ^ 53 ->
  SFcompare (f64_of_Z a) (f64_of_Z b) = Some (a ?= b).
Proof.
  intros Ha Hb. unfold f64_of_Z, binary_normalize.
  destruct a as [|p|p], b as [|q|q];
    try (destruct (binary_round_exact false p ltac:(lia)) as (m1 & e1 & -> & M1 & E1 & V1));
    try (destruct (binary_round_exact true p ltac:(lia)) as (m1 & e1 & -> & M1 & E1 & V1));
    try (destruct (binary_round_exact false q ltac:(lia)) as (m2 & e2 & -> & M2 & E2 & V2));
    try (destruct (binary_round_exact true q ltac:(lia)) as (m2 & e2 & -> & M2 & E2 & V2));
    try done; cbn [SFcompare].
  - pose proof (f64_repr_compare m1 m2 e1 e2 p q M1 M2 E1 E2 V1 V2) as H.
    rewrite <- H. destruct (e1 ?= e2); done.
  - pose proof (f64_repr_compare m1 m2 e1 e2 p q M1 M2 E1 E2 V1 V2) as H.
    rewrite <- !Pos2Z.opp_pos, Z.compare_opp, (Z.compare_antisym (Zpos p) (Zpos q)), <- H.
    destruct (e1 ?= e2); done.
Qed.
