(* ===== verification/Json.v ===== *)
(** * JSON documents

    [serde_json::Value] with its six variants. An object is the entry list of an
    ordered map (the default [Map] of [serde_json]); [map_insert] keeps the key
    order and replaces an existing entry in place. *)

From Stdlib Require Import Ascii String.
From S2P Require Import Prelude RustStr F64.

(** [serde_json::Number]: an integer ([i64] or [u64]) or a double. *)
Inductive number : Type :=
| NInt (z : Z)
| NFloat (f : f64).

Unset Elimination Schemes.
Inductive json : Type :=
| JNull
| JBool (b : bool)
| JNumber (n : number)
| JString (s : string)
| JArray (items : list json)
| JObject (map : list (string * json)).
Set Elimination Schemes.

(** Induction through arrays and objects. *)
Definition json_ind (P : json -> Prop)
    (Hnull : P JNull) (Hbool : forall b, P (JBool b))
    (Hnum : forall n, P (JNumber n)) (Hstr : forall s, P (JString s))
    (Harr : forall items, Forall P items -> P (JArray items))
    (Hobj : forall m, Forall (fun kv => P kv.2) m -> P (JObject m)) :
    forall j, P j :=
  fix F (j : json) : P j :=
    match j with
    | JNull => Hnull
    | JBool b => Hbool b
    | JNumber n => Hnum n
    | JString s => Hstr s
    | JArray items =>
        Harr items
          ((fix G (l : list json) : Forall P l :=
              match l with
              | [] => Forall_nil_2 P
              | x :: l' => Forall_cons_2 P x l' (F x) (G l')
              end) items)
    | JObject m =>
        Hobj m
          ((fix G (l : list (string * json)) : Forall (fun kv => P kv.2) l :=
              match l with
              | [] => Forall_nil_2 _
              | kv :: l' => Forall_cons_2 _ kv l' (F kv.2) (G l')
              end) m)
    end.

(** ** Accessors *)

Definition number_is_i64 (n : number) : bool :=
  match n with NInt z => in_i64 z | NFloat _ => false end.

Definition is_string (v : json) : bool := match v with JString _ => true | _ => false end.
Definition is_boolean (v : json) : bool := match v with JBool _ => true | _ => false end.
Definition is_i64 (v : json) : bool :=
  match v with JNumber n => number_is_i64 n | _ => false end.
Definition is_f64 (v : json) : bool :=
  match v with JNumber (NFloat _) => true | _ => false end.
Definition as_str (v : json) : option string :=
  match v with JString s => Some s | _ => None end.
Definition as_i64 (v : json) : option Z :=
  match v with JNumber (NInt z) => then_some (in_i64 z) z | _ => None end.

(** ** Objects: [Map::get], [Map::insert], [Map::remove] *)

Fixpoint map_get (k : string) (m : list (string * json)) : option json :=
  match m with
  | [] => None
  | (k', v) :: m' => if String.eqb k k' then Some v else map_get k m'
  end.

Fixpoint map_insert (k : string) (v : json) (m : list (string * json)) :
    list (string * json) :=
  match m with
  | [] => [(k, v)]
  | (k', v') :: m' =>
      match String.compare k k' with
      | Lt => (k, v) :: m
      | Eq => (k, v) :: m'
      | Gt => (k', v') :: map_insert k v m'
      end
  end.

Fixpoint map_remove (k : string) (m : list (string * json)) : list (string * json) :=
  match m with
  | [] => []
  | (k', v) :: m' => if String.eqb k k' then m' else (k', v) :: map_remove k m'
  end.

(** ** Arrays: [Vec::get], assignment through [get_mut], [Vec::remove].
    The index is a [usize] read from a path segment, so it may be far past the
    end; the length test comes before the conversion. *)

Definition vec_index {A} (l : list A) (i : Z) : option nat :=
  if ((0 <=? i) && (i <? Z.of_nat (length l)))%Z then Some (Z.to_nat i) else None.

Definition vec_get {A} (l : list A) (i : Z) : option A :=
  match vec_index l i with Some n => l !! n | None => None end.

Definition vec_remove {A} (l : list A) (n : nat) : list A := take n l ++ drop (S n) l.

(** ** Well-formed documents: no object has two entries for one key, and an array's
    length is a [usize] *)

Fixpoint json_wf (j : json) : Prop :=
  match j with
  | JArray items =>
      (Z.of_nat (length items) <= usize_max)%Z /\
      (fix all (l : list json) : Prop :=
         match l with [] => True | x :: l' => json_wf x /\ all l' end) items
  | JObject m =>
      NoDup (m.*1) /\
      (fix all (l : list (string * json)) : Prop :=
         match l with [] => True | (_, x) :: l' => json_wf x /\ all l' end) m
  | _ => True
  end.

Lemma json_wf_array items :
  json_wf (JArray items) <-> (Z.of_nat (length items) <= usize_max)%Z /\ Forall json_wf items.
Proof.
  cbn [json_wf]. split; intros [H1 H2]; split; try done; clear H1.
  - induction items as [|x l IH]; [done|]. rewrite Forall_cons. naive_solver.
  - induction items as [|x l IH]; [done|]. rewrite Forall_cons in H2. naive_solver.
Qed.

Lemma json_wf_object m :
  json_wf (JObject m) <-> NoDup (m.*1) /\ Forall (fun kv => json_wf kv.2) m.
Proof.
  cbn [json_wf]. split; intros [H1 H2]; split; try done; clear H1.
  - induction m as [|[k x] l IH]; [done|]. rewrite Forall_cons. naive_solver.
  - induction m as [|[k x] l IH]; [done|]. rewrite Forall_cons in H2. naive_solver.
Qed.

(** ** Map laws *)

Lemma map_get_in k v m : map_get k m = Some v -> (k, v) ∈ m.
Proof.
  induction m as [|[k' v'] m IH]; simpl; [done|].
  destruct (String.eqb_spec k k'); intros; simplify_eq; set_solver.
Qed.

Lemma map_get_none k m : map_get k m = None <-> k ∉ m.*1.
Proof.
  induction m as [|[k' v'] m IH]; simpl; [set_solver|].
  destruct (String.eqb_spec k k'); set_solver.
Qed.

Lemma map_get_nodup k v m : NoDup (m.*1) -> (k, v) ∈ m -> map_get k m = Some v.
Proof.
  induction m as [|[k' v'] m IH]; simpl; [set_solver|].
  rewrite NoDup_cons. intros [Hn Hd] Hin. apply elem_of_cons in Hin as [Hin|Hin].
  - simplify_eq. by rewrite String.eqb_refl.
  - destruct (String.eqb_spec k k') as [->|]; [|by apply IH].
    destruct Hn. apply list_elem_of_fmap. by exists (k', v).
Qed.

Lemma string_compare_refl a : String.compare a a = Eq.
Proof.
  induction a as [|c a IH]; [done|]. simpl.
  unfold Ascii.compare. by rewrite N.compare_refl.
Qed.

Lemma map_get_insert k k' v m :
  map_get k' (map_insert k v m) = if String.eqb k' k then Some v else map_get k' m.
Proof.
  induction m as [|[k0 v0] m IH]; simpl; [done|].
  destruct (String.compare k k0) eqn:E; simpl.
  - apply String.compare_eq_iff in E as ->. by destruct (String.eqb k' k0).
  - by destruct (String.eqb k' k).
  - destruct (String.eqb_spec k' k0) as [->|]; [|done].
    destruct (String.eqb_spec k0 k) as [->|]; [|done].
    rewrite string_compare_refl in E. done.
Qed.

Lemma map_get_remove k k' m :
  NoDup (m.*1) ->
  map_get k' (map_remove k m) = if String.eqb k' k then None else map_get k' m.
Proof.
  induction m as [|[k0 v0] m IH]; simpl; [by destruct (String.eqb k' k)|].
  rewrite NoDup_cons. intros [Hn Hd].
  destruct (String.eqb_spec k k0) as [->|].
  - destruct (String.eqb_spec k' k0) as [->|]; [|done]. by apply map_get_none.
  - simpl. rewrite IH by done. destruct (String.eqb_spec k' k0) as [->|]; [|done].
    by destruct (String.eqb_spec k0 k); [congruence|].
Qed.

Lemma map_insert_keys k v m x : x ∈ (map_insert k v m).*1 <-> x = k \/ x ∈ m.*1.
Proof.
  induction m as [|[k0 v0] m IH]; simpl; [set_solver|].
  destruct (String.compare k k0) eqn:E; simpl.
  - apply String.compare_eq_iff in E as ->. set_solver.
  - set_solver.
  - rewrite !elem_of_cons, IH. set_solver.
Qed.

Lemma vec_index_some {A} (l : list A) i n :
  vec_index l i = Some n -> n < length l /\ Z.of_nat n = i.
Proof.
  unfold vec_index. destruct (_ && _)%Z eqn:E; [|done]. intros [= <-].
  split_bools. lia.
Qed.

Lemma vec_index_of_nat {A} (l : list A) n :
  n < length l -> vec_index l (Z.of_nat n) = Some n.
Proof.
  intros H. unfold vec_index.
  rewrite (proj2 (andb_true_iff _ _)); [by rewrite Nat2Z.id|].
  split; [by apply Z.leb_le; lia|by apply Z.ltb_lt; lia].
Qed.

#[export] Hint Rewrite map_get_insert : policy.

(** ** Equality ([PartialEq] of [Value]: doubles compare as doubles) *)

Definition number_eqb (a b : number) : bool :=
  match a, b with
  | NInt x, NInt y => (x =? y)%Z
  | NFloat x, NFloat y => f64_eqb x y
  | _, _ => false
  end.

Section ListEqb.
Context {A : Type}.
Variable eqb : A -> A -> bool.
Fixpoint list_eqb (l k : list A) : bool :=
  match l, k with
  | [], [] => true
  | x :: l', y :: k' => eqb x y && list_eqb l' k'
  | _, _ => false
  end.
End ListEqb.

Fixpoint json_eqb (a b : json) : bool :=
  match a, b with
  | JNull, JNull => true
  | JBool x, JBool y => Bool.eqb x y
  | JNumber x, JNumber y => number_eqb x y
  | JString x, JString y => String.eqb x y
  | JArray l, JArray k => list_eqb json_eqb l k
  | JObject l, JObject k =>
      list_eqb (fun e f => String.eqb e.1 f.1 && json_eqb e.2 f.2) l k
  | _, _ => false
  end.
