(* ===== verification/Platform.v ===== *)
(** * What the engine takes from outside the repository

    Functions of the Rust standard library that print or fold Unicode, the
    [regex] crate and the JSON printer are parameters of the model: every
    definition that uses one takes a [Platform], and every theorem holds for all
    of them. *)

From Stdlib Require Import Ascii String.
From S2P Require Import Prelude RustStr F64 Json.

Class Platform := {
  (** [f64]'s [Display]. *)
  f64_display : f64 -> string;
  (** [f64]'s [Debug]. *)
  f64_debug : f64 -> string;
  (** [str]'s [Debug]: the quoted, escaped text. *)
  str_debug : string -> string;
  (** [str::to_lowercase], by the Unicode tables. *)
  str_to_lowercase : string -> string;
  (** [Regex::new(pattern)]: the matcher, or the error's text. *)
  regex_new : string -> result (string -> bool) string;
  (** [serde_json::to_string(v).unwrap_or_default()]. *)
  json_to_string : json -> string;
  (** The [u64] [DefaultHasher] finishes with on a [String]. *)
  default_hash : string -> N;
}.

(** [{:?}] of a slice of strings. *)
Definition debug_str_list `{Platform} (l : list string) : string :=
  "[" +:+ String.concat ", " (map str_debug l) +:+ "]".

(** [{:016x}] of a [u64]: sixteen lower-case hexadecimal digits. *)
Definition hex_digit (n : N) : ascii :=
  if (n <? 10)%N then ascii_of_N (48 + n) else ascii_of_N (87 + n).

Fixpoint hex_digits (count : nat) (n : N) : string :=
  match count with
  | O => ""
  | S c => hex_digits c (n / 16)%N +:+ String (hex_digit (n mod 16)%N) ""
  end.

Definition hex016 (n : N) : string := hex_digits 16 n.

Lemma string_app_length s t : String.length (s +:+ t) = String.length s + String.length t.
Proof. induction s as [|a s IH]; [done|]. rewrite string_app_cons. simpl. by rewrite IH. Qed.

Lemma hex_digits_length c n : String.length (hex_digits c n) = c.
Proof.
  revert n. induction c as [|c IH]; intros n; [done|].
  cbn [hex_digits]. rewrite string_app_length, IH. simpl. lia.
Qed.

(** A platform to run examples on: lower-casing and quoting restricted to ASCII,
    a [regex] that knows literal patterns only. *)
Definition ascii_platform : Platform := {|
  f64_display := fun _ => "1";
  f64_debug := fun _ => "1.0";
  str_debug := fun s => String (ascii_of_N 34) (s +:+ String (ascii_of_N 34) "");
  str_to_lowercase := to_ascii_lowercase;
  regex_new := fun pattern =>
    if contains_char "(" pattern then Err "unclosed group" else Ok (String.eqb pattern);
  json_to_string := fun v =>
    match v with JString s => s | JBool b => show_bool b | _ => "null" end;
  default_hash := fun s => N.of_nat (String.length s);
|}.
