(* ===== verification/Attributes.v ===== *)
(** * Attributes ([ppe-apl-core/src/attributes.rs])

    The flat namespace predicates are evaluated against: typed lookups, and the
    expansion of interpolated paths ([resolve_key]). *)

From Stdlib Require Import Ascii String.
From S2P Require Import Prelude RustStr F64 Json Platform.

Inductive AttributeValue : Type :=
| AVBool (b : bool)
| AVInt (i : Z)
| AVFloat (f : f64)
| AVString (s : string)
| AVStringSet (set : gset string)
| AVNonScalar.

#[global] Instance AttributeValue_eq_dec : EqDecision AttributeValue.
Proof. solve_decision. Defined.

Abbreviation AttributeBag := (gmap string AttributeValue).

(** [AttributeBag::new]. *)
Definition bag_new : AttributeBag := ∅.

Definition bag_set (bag : AttributeBag) (key : string) (value : AttributeValue) : AttributeBag :=
  <[key := value]> bag.

Definition bag_get (bag : AttributeBag) (key : string) : option AttributeValue := bag !! key.

Definition bag_contains (bag : AttributeBag) (key : string) : bool :=
  match bag_get bag key with Some _ => true | None => false end.

Definition get_bool (bag : AttributeBag) (key : string) : option bool :=
  match bag_get bag key with Some (AVBool v) => Some v | _ => None end.

Definition get_int (bag : AttributeBag) (key : string) : option Z :=
  match bag_get bag key with Some (AVInt v) => Some v | _ => None end.

Definition get_float (bag : AttributeBag) (key : string) : option f64 :=
  match bag_get bag key with
  | Some (AVFloat v) => Some v
  | Some (AVInt v) => Some (f64_of_Z v)
  | _ => None
  end.

Definition get_string (bag : AttributeBag) (key : string) : option string :=
  match bag_get bag key with Some (AVString v) => Some v | _ => None end.

Definition get_string_set (bag : AttributeBag) (key : string) : option (gset string) :=
  match bag_get bag key with Some (AVStringSet v) => Some v | _ => None end.

Definition set_contains (bag : AttributeBag) (key value : string) : bool :=
  match get_string_set bag key with
  | Some set => bool_decide (value ∈ set)
  | None => false
  end.

Section Resolve.
Context `{Platform}.

Definition scalar_as_string (bag : AttributeBag) (key : string) : option string :=
  match bag_get bag key with
  | Some (AVString s) => Some s
  | Some (AVInt i) => Some (show_Z i)
  | Some (AVBool b) => Some (show_bool b)
  | Some (AVFloat f) => Some (f64_display f)
  | Some (AVStringSet _) | Some AVNonScalar | None => None
  end.

(** The [while let Some(open) = rest.find('[')] loop: [out] is what has been
    written so far. Every turn drops at least the bracket it found from [rest],
    so [S (length rest)] turns always suffice. *)
Fixpoint resolve_loop (fuel : nat) (bag : AttributeBag) (out rest : string) : option string :=
  match fuel with
  | O => None
  | S fuel' =>
      match split_once "[" rest with
      | None => Some (out +:+ rest)
      | Some (before, after) =>
          match split_once "]" after with
          | None => None
          | Some (inner, rest') =>
              match scalar_as_string bag (trim inner) with
              | None => None
              | Some v => resolve_loop fuel' bag (out +:+ before +:+ "." +:+ v) rest'
              end
          end
      end
  end.

Definition resolve_key (bag : AttributeBag) (key : string) : option string :=
  if contains_char "[" key then resolve_loop (S (String.length key)) bag "" key
  else Some key.

(** ** The loop always has turns left *)

Lemma split_once_length c s before after :
  split_once c s = Some (before, after) ->
  String.length s = S (String.length before + String.length after).
Proof.
  revert before after. induction s as [|a s IH]; simpl; [done|]. intros b r.
  destruct (Ascii.eqb a c); [by intros [= <- <-]|].
  destruct (split_once c s) as [[b' r']|] eqn:E; [|done].
  intros [= <- <-]. simpl. by rewrite (IH b' r').
Qed.

(** More turns never change the answer, so the answer of [resolve_key] is the
    answer of the unbounded loop. *)
Lemma resolve_loop_fuel bag fuel fuel' out rest :
  String.length rest < fuel -> String.length rest < fuel' ->
  resolve_loop fuel bag out rest = resolve_loop fuel' bag out rest.
Proof.
  revert fuel' out rest. induction fuel as [|fuel IH]; intros fuel' out rest Hf Hf'; [lia|].
  destruct fuel' as [|fuel']; [lia|]. simpl.
  destruct (split_once "[" rest) as [[before after]|] eqn:E1; [|done].
  destruct (split_once "]" after) as [[inner rest']|] eqn:E2; [|done].
  destruct (scalar_as_string bag (trim inner)); [|done].
  apply split_once_length in E1. apply split_once_length in E2.
  apply IH; lia.
Qed.

Lemma resolve_key_plain bag key : contains_char "[" key = false -> resolve_key bag key = Some key.
Proof. intros H1. unfold resolve_key. by rewrite H1. Qed.

(** A resolved path depends only on the interpolated keys: two bags that agree on
    every scalar resolve a key alike. *)
Lemma resolve_loop_ext fuel bag bag' out rest :
  (forall k, scalar_as_string bag k = scalar_as_string bag' k) ->
  resolve_loop fuel bag out rest = resolve_loop fuel bag' out rest.
Proof.
  intros Hext. revert out rest. induction fuel as [|fuel IH]; intros; simpl; [done|].
  destruct (split_once "[" rest) as [[before after]|]; [|done].
  destruct (split_once "]" after) as [[inner rest']|]; [|done].
  rewrite Hext. destruct (scalar_as_string bag' (trim inner)); [apply IH|done].
Qed.
End Resolve.

Example resolve_key_example :
  resolve_key (H := ascii_platform)
    (bag_set ∅ "subject.tenant" (AVString "acme-eu"))
    "data.tenants[ subject.tenant ].data_region"
  = Some "data.tenants.acme-eu.data_region".
Proof. vm_compute. reflexivity. Qed.
