(* ===== verification/Rules.v ===== *)
(** * Predicates ([ppe-apl-core/src/rules.rs], first half)

    The predicate language: comparison operators, literals, conditions and
    compound expressions. *)

From Stdlib Require Import Ascii String.
From S2P Require Import Prelude RustStr F64.

Inductive CompareOp : Type := OpEq | OpNotEq | OpGt | OpGtEq | OpLt | OpLtEq | OpContains.

Inductive Literal : Type :=
| LBool (b : bool)
| LInt (i : Z)
| LFloat (f : f64)
| LString (s : string).

Inductive Condition : Type :=
| Comparison (key : string) (op : CompareOp) (value : Literal)
| IsTrue (key : string)
| IsFalse (key : string)
| CExists (key : string)
| InSet (value_key set_key : string) (negate : bool).

Unset Elimination Schemes.
Inductive Expression : Type :=
| ECondition (c : Condition)
| EAnd (parts : list Expression)
| EOr (parts : list Expression)
| ENot (inner : Expression)
| EAlways.
Set Elimination Schemes.

Definition Expression_ind (P : Expression -> Prop)
    (Hcond : forall c, P (ECondition c))
    (Hand : forall parts, Forall P parts -> P (EAnd parts))
    (Hor : forall parts, Forall P parts -> P (EOr parts))
    (Hnot : forall e, P e -> P (ENot e)) (Halways : P EAlways) : forall e, P e :=
  fix F (e : Expression) : P e :=
    let G := fix G (l : list Expression) : Forall P l :=
      match l with
      | [] => Forall_nil_2 P
      | x :: l' => Forall_cons_2 P x l' (F x) (G l')
      end in
    match e with
    | ECondition c => Hcond c
    | EAnd parts => Hand parts (G parts)
    | EOr parts => Hor parts (G parts)
    | ENot e' => Hnot e' (F e')
    | EAlways => Halways
    end.

#[global] Instance CompareOp_eq_dec : EqDecision CompareOp.
Proof. solve_decision. Defined.
#[global] Instance Literal_eq_dec : EqDecision Literal.
Proof. solve_decision. Defined.
#[global] Instance Condition_eq_dec : EqDecision Condition.
Proof. solve_decision. Defined.

(** ** Pipe chains ([ppe-apl-core/src/pipeline.rs])

    The stages of a field pipeline and the taints it emits. *)

Inductive TypeCheck : Type := TStr | TInt | TBool | TFloat | TEmail | TUrl | TUuid.

Inductive TaintScope : Type := ScopeSession | ScopeMessage.

Inductive ScanKind : Type := PiiRedact | PiiDetect | InjectionScan.

Inductive Stage : Type :=
| StType (tc : TypeCheck)
| StRegex (pattern : string)
| StValidate (name : string)
| StLength (min max : option Z)
| StRange (min max : option Z)
| StEnum (values : list string)
| StMask (keep_last : Z)
| StRedact (condition : option Expression)
| StOmit
| StHash
| StTaint (label : string) (scopes : list TaintScope)
| StPlugin (name : string)
| StScan (kind : ScanKind).

Record Pipeline : Type := mkPipeline { stages : list Stage }.

Definition Pipeline_new : Pipeline := mkPipeline [].
Definition Pipeline_push (p : Pipeline) (s : Stage) : Pipeline := mkPipeline (stages p ++ [s]).
Definition Pipeline_is_empty (p : Pipeline) : bool :=
  match stages p with [] => true | _ => false end.

Record FieldRule : Type := mkFieldRule {
  fr_field : string;
  fr_pipeline : Pipeline;
  fr_source : string;
}.

Record TaintEvent : Type := mkTaint {
  taint_label : string;
  taint_scopes : list TaintScope;
}.
