(* ===== verification/Constraint.v ===== *)
(** * Backend candidate constraints ([ppe-apl-core/src/constraint.rs])

    The authoring form of [restrict] and its resolution against the request's
    attributes. Allow-lists and deny-lists fail closed in opposite directions:
    an unresolvable allow-list becomes the empty set, an unresolvable deny-list is
    an error. *)

From Stdlib Require Import Ascii String.
From S2P Require Import Prelude RustStr F64 Json Platform Attributes.

(** [OnEmpty]: what the host does when no backend qualifies. *)
Inductive OnEmpty : Type := OnEmptyDeny | OnEmptyFallback.

#[global] Instance OnEmpty_eq_dec : EqDecision OnEmpty.
Proof. solve_decision. Defined.

Record CandidateConstraint : Type := mkConstraint {
  cc_allow_models : option (list string);
  cc_deny_models : list string;
  cc_allow_regions : option (list string);
  cc_allow_sites : option (list string);
  cc_max_cost_tier : option string;
  cc_custom : gmap string string;
  cc_on_empty : OnEmpty;
}.

Definition is_none {A} (o : option A) : bool := match o with None => true | Some _ => false end.
Definition is_nil {A} (l : list A) : bool := match l with [] => true | _ => false end.

Definition constraint_is_empty (c : CandidateConstraint) : bool :=
  is_none (cc_allow_models c) && is_nil (cc_deny_models c)
  && is_none (cc_allow_regions c) && is_none (cc_allow_sites c)
  && is_none (cc_max_cost_tier c) && bool_decide (cc_custom c = ∅).

Inductive StringSetSpec : Type :=
| SetRef (path : string)
| SetLiteral (v : list string).

Record RestrictResolveError : Type := mkResolveError { rre_field : string; rre_path : string }.

Definition resolve_error_display (e : RestrictResolveError) : string :=
  "restrict: `" +:+ rre_field e +:+ "` reference `" +:+ rre_path e
  +:+ "` did not resolve to a set — denying (a deny-list cannot fail open)".

Record RestrictSpec : Type := mkRestrict {
  rs_allow_models : option StringSetSpec;
  rs_deny_models : option StringSetSpec;
  rs_allow_regions : option StringSetSpec;
  rs_allow_sites : option StringSetSpec;
  rs_max_cost_tier : option string;
  rs_custom : gmap string string;
  rs_on_empty : OnEmpty;
}.

Definition restrict_is_empty (s : RestrictSpec) : bool :=
  is_none (rs_allow_models s) && is_none (rs_deny_models s)
  && is_none (rs_allow_regions s) && is_none (rs_allow_sites s)
  && is_none (rs_max_cost_tier s) && bool_decide (rs_custom s = ∅).

Section Resolve.
Context `{Platform}.

Definition spec_resolve (s : StringSetSpec) (bag : AttributeBag) : option (list string) :=
  match s with
  | SetLiteral v => Some v
  | SetRef path =>
      match resolve_key bag path with
      | None => None
      | Some key =>
          match bag_get bag key with
          | Some (AVStringSet s) => Some (sorted_elements s)
          | Some (AVString s) => Some [s]
          | _ => None
          end
      end
  end.

(** [s.resolve(bag).unwrap_or_default()] under the option. *)
Definition resolve_allow (o : option StringSetSpec) (bag : AttributeBag) : option (list string) :=
  match o with
  | Some s => Some (match spec_resolve s bag with Some v => v | None => [] end)
  | None => None
  end.

Definition resolve_deny (o : option StringSetSpec) (bag : AttributeBag) :
    result (list string) RestrictResolveError :=
  match o with
  | None => Ok []
  | Some spec =>
      match spec_resolve spec bag with
      | Some v => Ok v
      | None =>
          Err {| rre_field := "deny_models";
                 rre_path := match spec with SetRef p => p | SetLiteral _ => "" end |}
      end
  end.

Definition restrict_resolve (s : RestrictSpec) (bag : AttributeBag) :
    result CandidateConstraint RestrictResolveError :=
  match resolve_deny (rs_deny_models s) bag with
  | Err e => Err e
  | Ok deny_models => Ok {|
      cc_allow_models := resolve_allow (rs_allow_models s) bag;
      cc_deny_models := deny_models;
      cc_allow_regions := resolve_allow (rs_allow_regions s) bag;
      cc_allow_sites := resolve_allow (rs_allow_sites s) bag;
      cc_max_cost_tier := rs_max_cost_tier s;
      cc_custom := rs_custom s;
      cc_on_empty := rs_on_empty s;
    |}
  end.

(** ** Fail-closed resolution *)

Lemma spec_resolve_literal v bag : spec_resolve (SetLiteral v) bag = Some v.
Proof. done. Qed.

(** Resolution fails exactly on a deny-list reference that does not name a set or
    a string. *)
Lemma restrict_resolve_err_iff s bag :
  (exists e, restrict_resolve s bag = Err e)
  <-> exists path, rs_deny_models s = Some (SetRef path)
        /\ spec_resolve (SetRef path) bag = None.
Proof.
  unfold restrict_resolve, resolve_deny.
  destruct (rs_deny_models s) as [[p|v]|]; [|simpl; naive_solver..].
  destruct (spec_resolve (SetRef p) bag) eqn:E; [naive_solver|].
  split; [|by eexists]. intros _. by exists p.
Qed.

(** A declared allow-list stays declared, whatever the bag holds: an unresolved
    reference yields the empty list, which qualifies no backend. *)
Lemma resolve_allow_declared o bag : is_none (resolve_allow o bag) = is_none o.
Proof. by destruct o. Qed.
End Resolve.
