(* ===== verification/Step.v ===== *)
(** * Steps and host outcomes ([ppe-apl-core/src/step.rs])

    The data of delegation, elicitation, PDP and plugin steps: the calls the
    evaluator makes and what the host's invokers answer. The invoker traits
    themselves are the [Host] class of [Host.v]. *)

From Stdlib Require Import Ascii String.
From S2P Require Import Prelude RustStr F64 Json Platform Attributes Rules.

(** Outcome of a phase ([evaluator.rs]). *)
Inductive Decision : Type :=
| Allow
| Deny (reason : option string) (rule_source : string).

Definition is_deny (d : Decision) : bool := match d with Deny _ _ => true | Allow => false end.

(** [serde_yaml::Value]. *)
Inductive yaml : Type :=
| YNull
| YBool (b : bool)
| YNumber (n : number)
| YString (s : string)
| YSequence (l : list yaml)
| YMapping (m : list (yaml * yaml))
| YTagged (tag : string) (v : yaml).

Fixpoint untag (y : yaml) : yaml := match y with YTagged _ v => untag v | _ => y end.

Definition as_mapping (y : yaml) : option (list (yaml * yaml)) :=
  match untag y with YMapping m => Some m | _ => None end.
Definition as_bool (y : yaml) : option bool :=
  match untag y with YBool b => Some b | _ => None end.

(** [map.get(Value::String(key))]. *)
Fixpoint mapping_get (key : string) (m : list (yaml * yaml)) : option yaml :=
  match m with
  | [] => None
  | (YString k, v) :: m' => if String.eqb k key then Some v else mapping_get key m'
  | _ :: m' => mapping_get key m'
  end.

Record DelegateStep : Type := mkDelegate {
  dg_plugin_name : string;
  dg_config_override : option yaml;
  dg_on_error : option string;
  dg_source : string;
}.

Inductive ElicitKind : Type := Approval | Confirm | StepUp | Attestation | Info | Review.

Definition ElicitKind_as_str (k : ElicitKind) : string :=
  match k with
  | Approval => "approval"
  | Confirm => "confirm"
  | StepUp => "step_up"
  | Attestation => "attestation"
  | Info => "info"
  | Review => "review"
  end.

Record ElicitStep : Type := mkElicit {
  el_kind : ElicitKind;
  el_plugin_name : string;
  el_channel : option string;
  el_from : string;
  el_purpose : option string;
  el_scope : option string;
  el_timeout : option string;
  el_config_override : option yaml;
  el_on_error : option string;
  el_source : string;
}.

Inductive PdpDialect : Type := Cedar | Opa | AuthZen | NeMo | Cel | CustomDialect (name : string).

Definition from_builtin_key (key : string) : option PdpDialect :=
  if String.eqb key "cedar" then Some Cedar
  else if String.eqb key "opa" then Some Opa
  else if String.eqb key "authzen" then Some AuthZen
  else if String.eqb key "nemo" then Some NeMo
  else if String.eqb key "cel" then Some Cel
  else None.

Definition dialect_debug `{Platform} (d : PdpDialect) : string :=
  match d with
  | Cedar => "Cedar"
  | Opa => "Opa"
  | AuthZen => "AuthZen"
  | NeMo => "NeMo"
  | Cel => "Cel"
  | CustomDialect name => "Custom(" +:+ str_debug name +:+ ")"
  end.

Record PdpCall : Type := mkPdpCall { pdp_dialect : PdpDialect; pdp_args : yaml }.

Definition requires_llm_request (c : PdpCall) : bool :=
  match as_mapping (pdp_args c) with
  | Some m =>
      match mapping_get "require_llm_request" m with
      | Some v => match as_bool v with Some b => b | None => false end
      | None => false
      end
  | None => false
  end.

Definition validate_input_options (c : PdpCall) : result unit string :=
  match as_mapping (pdp_args c) with
  | Some m =>
      match mapping_get "require_llm_request" m with
      | Some v => match as_bool v with
                  | Some _ => Ok tt
                  | None => Err "`require_llm_request` must be a bool"
                  end
      | None => Ok tt
      end
  | None => Ok tt
  end.

Record StructuredInputAvailability : Type := mkAvail { av_llm_request : bool; av_args : bool }.

(** [PdpResolver::validate_call_with_input], the trait's default. *)
Definition validate_call_with_input (c : PdpCall) (input : StructuredInputAvailability) :
    result unit string :=
  match validate_input_options c with
  | Err e => Err e
  | Ok _ =>
      if requires_llm_request c && negb (av_llm_request input)
      then Err "`require_llm_request: true` requires a route that can carry a host request document"
      else Ok tt
  end.

Inductive DispatchPhase : Type := Pre | Post.

Inductive PluginInvocation : Type :=
| InvokeStep (phase : DispatchPhase)
| InvokeField (name : string) (value : json) (phase : DispatchPhase).

Definition invocation_phase (i : PluginInvocation) : DispatchPhase :=
  match i with InvokeStep phase => phase | InvokeField _ _ phase => phase end.

Record DelegationOutcome : Type := mkDelegationOutcome {
  do_decision : Decision;
  do_granted_permissions : list string;
  do_granted_audience : option string;
  do_granted_expires_at : option string;
}.

Inductive DelegationError : Type :=
| DelNotFound (name : string)
| DelDispatch (msg : string)
| DelInvalidConfig (msg : string).

Definition delegation_error_display (e : DelegationError) : string :=
  match e with
  | DelNotFound n => "no delegation invoker available for plugin `" +:+ n +:+ "`"
  | DelDispatch m => "delegation dispatch failed: " +:+ m
  | DelInvalidConfig m => "invalid delegation config: " +:+ m
  end.

Record ElicitationDispatch : Type := mkElicitationDispatch {
  ed_id : string;
  ed_approver : option string;
  ed_intent_id : option string;
  ed_expires_at : option string;
}.

Inductive ElicitationOutcome : Type := Approved | Denied.

Inductive ElicitationStatus : Type :=
| StatusPending
| StatusResolved (outcome : ElicitationOutcome)
| StatusExpired.

Record ElicitationValidation : Type := mkElicitationValidation {
  ev_valid : bool;
  ev_approver : option string;
  ev_intent_id : option string;
  ev_reason : option string;
}.

Record PendingElicitation : Type := mkPending {
  pe_id : string;
  pe_plugin_name : string;
  pe_approver : option string;
  pe_intent_id : option string;
  pe_channel : option string;
  pe_expires_at : option string;
  pe_source : string;
}.

Inductive ElicitationError : Type :=
| ElNotFound (name : string)
| ElHandler (msg : string)
| ElHandlerViolation (code reason : string)
| ElStoreUnavailable (code reason : string).

Definition elicitation_error_code (e : ElicitationError) : option string :=
  match e with
  | ElHandlerViolation code _ | ElStoreUnavailable code _ => Some code
  | _ => None
  end.

Definition elicitation_error_display (e : ElicitationError) : string :=
  match e with
  | ElNotFound n => "no elicitation invoker available for plugin `" +:+ n +:+ "`"
  | ElHandler m => "elicitation handler error: " +:+ m
  | ElHandlerViolation code reason => "elicitation handler error " +:+ code +:+ ": " +:+ reason
  | ElStoreUnavailable code reason =>
      "elicitation storage unavailable " +:+ code +:+ ": " +:+ reason
  end.

Record PdpDecision : Type := mkPdpDecision {
  pd_decision : Decision;
  pd_diagnostics : list string;
}.

Record PluginOutcome : Type := mkPluginOutcome {
  po_decision : Decision;
  po_taints : list TaintEvent;
  po_modified_value : option json;
}.

Inductive PdpError : Type :=
| PdpNoResolver (d : PdpDialect)
| PdpDispatch (msg : string).

Definition pdp_error_display `{Platform} (e : PdpError) : string :=
  match e with
  | PdpNoResolver d => "no PDP resolver registered for dialect " +:+ dialect_debug d
  | PdpDispatch m => "PDP dispatch failed: " +:+ m
  end.

Inductive PluginError : Type :=
| PlNotFound (name : string)
| PlDispatch (msg : string).

Definition plugin_error_display (e : PluginError) : string :=
  match e with
  | PlNotFound n => "no plugin invoker available for `" +:+ n +:+ "`"
  | PlDispatch m => "plugin dispatch failed: " +:+ m
  end.

(** Bag keys written by a delegation ([delegation_bag_keys]). *)
Definition GRANTED_PERMISSIONS : string := "delegation.granted.permissions".
Definition GRANTED_AUDIENCE : string := "delegation.granted.audience".
Definition GRANTED_EXPIRES_AT : string := "delegation.granted.expires_at".
Definition GRANTED : string := "delegation.granted".

(** Bag keys written by an elicitation ([elicitation_bag_keys]). *)
Definition EL_ID : string := "elicitation.id".
Definition EL_STATUS : string := "elicitation.status".
Definition EL_APPROVER : string := "elicitation.approver".
Definition EL_OUTCOME : string := "elicitation.outcome".
Definition EL_INTENT_ID : string := "elicitation.intent_id".
Definition EL_CHANNEL : string := "elicitation.channel".
Definition EL_EXPIRES_AT : string := "elicitation.expires_at".
