(* ===== verification/Lexical.v ===== *)
(** * Quoted literals ([ppe-apl-core/src/lexical.rs])

    The one reader for quoted text. A byte index into the source is a [nat], and
    what is left of the source from that index on is carried beside it. *)

From Stdlib Require Import Ascii String.
From S2P Require Import Prelude RustStr.

Definition dquote : ascii := ascii_of_N 34.
Definition squote : ascii := ascii_of_N 39.
Definition backslash : ascii := ascii_of_N 92.

(** A one-byte string. *)
Definition str1 (a : ascii) : string := String a "".

Record LiteralError : Type := mkLiteralError { le_at : nat; le_msg : string }.

(** [lexical::Literal]: the content, the index past the closing quote, and the
    source from there on. *)
Record QuotedLiteral : Type := mkQuoted { ql_value : string; ql_end : nat; ql_rest : string }.

Definition is_quote (b : ascii) : bool := Ascii.eqb b dquote || Ascii.eqb b squote.

Fixpoint drop_bytes (n : nat) (s : string) : string :=
  match n, s with S n', String _ s' => drop_bytes n' s' | _, _ => s end.

Fixpoint take_bytes (n : nat) (s : string) : string :=
  match n, s with S n', String a s' => String a (take_bytes n' s') | _, _ => "" end.

(** [str::is_char_boundary]. *)
Definition is_char_boundary (src : string) (at_ : nat) : bool :=
  (at_ <=? String.length src)%nat
  && match drop_bytes at_ src with String a _ => negb (is_continuation a) | EmptyString => true end.

(** [src.get(..at).map_or(at, |head| head.chars().count())]. *)
Definition char_offset (src : string) (at_ : nat) : nat :=
  if is_char_boundary src at_ then length (chars (take_bytes at_ src)) else at_.

Definition unterminated (src : string) (open : nat) : LiteralError :=
  mkLiteralError (char_offset src open) "unterminated string literal".

(** [other as char], printed: a byte read as a Latin-1 code point, in UTF-8. *)
Definition byte_as_char (b : ascii) : string :=
  let n := N_of_ascii b in
  if (n <? 128)%N then str1 b
  else String (ascii_of_N (192 + n / 64)) (str1 (ascii_of_N (128 + n mod 64))).

Definition bad_escape (b : ascii) : string :=
  "unrecognized escape `\" +:+ byte_as_char b +:+ "` in a quoted literal; only `\\`, `\'` and `\"
  +:+ str1 dquote +:+ "` are escapes, so write `\\` for a literal backslash".

(** The loop over [i], with [rest] the source from [i] on and [value] the content so
    far. A character that is neither the quote nor a backslash is copied; copying it
    byte by byte is the same, since the other bytes of a character are above 127. *)
Fixpoint literal_loop (src : string) (open : nat) (quote : ascii) (i : nat) (rest value : string) :
    result QuotedLiteral LiteralError :=
  match rest with
  | EmptyString => Err (unterminated src open)
  | String b rest' =>
      if Ascii.eqb b quote then Ok (mkQuoted value (S i) rest')
      else if Ascii.eqb b backslash then
        match rest' with
        | EmptyString => Err (unterminated src open)
        | String esc rest'' =>
            if Ascii.eqb esc backslash || Ascii.eqb esc squote || Ascii.eqb esc dquote
            then literal_loop src open quote (S (S i)) rest'' (value +:+ str1 esc)
            else Err (mkLiteralError (char_offset src i) (bad_escape esc))
        end
      else literal_loop src open quote (S i) rest' (value +:+ str1 b)
  end.

Definition read_literal (src : string) (open : nat) : result QuotedLiteral LiteralError :=
  match drop_bytes open src with
  | String b rest =>
      if is_quote b then literal_loop src open b (S open) rest ""
      else Err (mkLiteralError (char_offset src open) "expected a quoted literal here")
  | EmptyString => Err (mkLiteralError (char_offset src open) "expected a quoted literal here")
  end.

Definition skip_literal (src : string) (open : nat) : result nat LiteralError :=
  match read_literal src open with Ok lit => Ok (ql_end lit) | Err e => Err e end.

(** [str::trim_start]. *)
Definition trim_start (s : string) : string := of_chars (drop_while is_whitespace (chars s)).

Definition read_whole_literal (src : string) : result (option string) LiteralError :=
  let trimmed := trim src in
  match trimmed with
  | EmptyString => Ok None
  | String first _ =>
      if negb (is_quote first) then Ok None
      else
        let lead := String.length src - String.length (trim_start src) in
        match read_literal trimmed 0 with
        | Err e => Err (mkLiteralError (le_at e + char_offset src lead) (le_msg e))
        | Ok lit =>
            if (ql_end lit =? String.length trimmed)%nat then Ok (Some (ql_value lit))
            else Err (mkLiteralError (char_offset src (lead + ql_end lit))
              "trailing text after a quoted literal; a value is one literal or one bare word")
        end
  end.

(** ** Writing a literal *)

(** The content with every quote and backslash escaped. *)
Fixpoint escape (s : string) : string :=
  match s with
  | EmptyString => ""
  | String a s' =>
      if Ascii.eqb a backslash || is_quote a
      then String backslash (String a (escape s')) else String a (escape s')
  end.

Definition quote_literal (s : string) : string := String squote (escape s +:+ str1 squote).

Lemma append_assoc (a b c : string) : (a +:+ b) +:+ c = a +:+ (b +:+ c).
Proof. induction a as [|x a IH]; [done|]. by rewrite !string_app_cons, IH. Qed.

(** The reader resolves what [escape] wrote, and stops at the closing quote. *)
Lemma literal_loop_escape src open s i tail value :
  literal_loop src open squote i (escape s +:+ str1 squote +:+ tail) value
  = Ok (mkQuoted (value +:+ s) (S (i + String.length (escape s))) tail).
Proof.
  revert i value. induction s as [|a s IH]; intros i value.
  { simpl. by rewrite string_app_nil_r, Nat.add_0_r. }
  assert (Hv : (value +:+ str1 a) +:+ s = value +:+ String a s) by by rewrite append_assoc.
  cbn [escape]. destruct (Ascii.eqb a backslash || is_quote a) eqn:E.
  - rewrite !string_app_cons. cbn [literal_loop String.length]. unfold is_quote in E.
    specialize (IH (S (S i)) (value +:+ str1 a)). rewrite Hv in IH.
    replace (i + S (S (String.length (escape s)))) with (S (S i) + String.length (escape s)) by lia.
    rewrite <- IH. simpl (Ascii.eqb backslash squote). simpl (Ascii.eqb backslash backslash).
    by destruct (Ascii.eqb a backslash), (Ascii.eqb a squote), (Ascii.eqb a dquote).
  - rewrite string_app_cons. cbn [literal_loop String.length]. apply orb_false_iff in E as [Eb Eq].
    unfold is_quote in Eq. apply orb_false_iff in Eq as [_ ->]. rewrite Eb.
    specialize (IH (S i) (value +:+ str1 a)). rewrite Hv in IH.
    replace (i + S (String.length (escape s))) with (S i + String.length (escape s)) by lia. done.
Qed.
