(* ===== verification/Predicate.v ===== *)
(** * The predicate parser ([ppe-apl-core/src/parser.rs], [Lexer] and [PredParser])

    From the text of a predicate to an [Expression]: the lexer over bytes, and the
    recursive-descent parser over tokens. *)

From Stdlib Require Import Ascii String.
From S2P Require Import Prelude RustStr F64 Json Platform Rules Lexical.

(** [OutOfFuel] is not an error of the source: it is what the bounded recursions of
    the model answer when the bound is reached, which never happens. *)
Inductive ParseError : Type :=
| PeYaml (e : string)
| PeRule (rule msg : string)
| PeUnsupportedStep (rule kind : string)
| PePredicate (predicate msg : string)
| PeEmptyAuthorization (location : string)
| OutOfFuel.

Definition parse_error_display (e : ParseError) : string :=
  match e with
  | PeYaml e => "YAML parse error: " +:+ e
  | PeRule rule msg => "rule '" +:+ rule +:+ "': " +:+ msg
  | PeUnsupportedStep rule kind => "unsupported step `" +:+ kind +:+ "` in rule '" +:+ rule +:+ "'"
  | PePredicate predicate msg => "predicate '" +:+ predicate +:+ "': " +:+ msg
  | PeEmptyAuthorization location =>
      "in `" +:+ location +:+ "`: `authorization:` contributes no step; it declares neither "
      +:+ "`pre_invocation:` nor `post_invocation:`, or declares them empty. Name at least one "
      +:+ "step, or remove the block"
  | OutOfFuel => ""
  end.

Inductive Tok : Type :=
| TIdent (s : string)
| TStringLit (s : string)
| TIntLit (i : Z)
| TFloatLit (f : f64)
| TBoolLit (b : bool)
| TEq | TNotEq | TGt | TGtEq | TLt | TLtEq
| TAnd | TOr | TNot | TNotWord
| TLParen | TRParen | TComma
| TContains | TRequire | TExists | TIn.

#[global] Instance Tok_eq_dec : EqDecision Tok.
Proof. solve_decision. Defined.

Definition EMPTY_SEGMENT : string :=
  "empty segment in an attribute path; a path is dot-separated names, so `a..b`, `a.` and `.a` name nothing".
Definition RESERVED_SEGMENT : string :=
  "a `$` segment is one `$` then a name, as in `metadata.account.$outcome`; it cannot start a path".
Definition NOT_IS_RESERVED : string :=
  "`not` is reserved for the `not in` phrase; APL spells predicate negation `!`, as in `!authenticated`".
Definition NUMBER_SHAPE : string :=
  "a number is an optional `-`, then digits, then optionally `.` and more digits; there is no exponent form, and digits are required on both sides of the dot".

Definition is_ident_start (b : ascii) : bool := is_ascii_alphabetic b || Ascii.eqb b "_".
Definition is_segment_char (b : ascii) : bool := is_ascii_alphanumeric b || Ascii.eqb b "_".

(** [u8::is_ascii_whitespace]: space, tab, line feed, form feed, carriage return. *)
Definition is_ascii_whitespace (b : ascii) : bool :=
  in_byte_range 32 32 b || in_byte_range 9 10 b || in_byte_range 12 13 b.

(** ** The lexer *)

(** The cursor: the byte position and the source from it on. *)
Record Cursor : Type := mkCursor { cur_pos : nat; cur_rest : string }.

Definition peek (c : Cursor) : option ascii :=
  match cur_rest c with String b _ => Some b | EmptyString => None end.

Definition peek_is (b : ascii) (c : Cursor) : bool := is_some_and (Ascii.eqb b) (peek c).

(** [self.pos += 1]. *)
Definition advance (c : Cursor) : Cursor := mkCursor (S (cur_pos c)) (drop_bytes 1 (cur_rest c)).

(** The text between two positions, [self.src.get(start..self.pos)]. *)
Definition text_between (start c : Cursor) : string :=
  take_bytes (cur_pos c - cur_pos start) (cur_rest start).

(** [while let Some(b) = self.peek() { if p(b) { self.pos += 1 } else { break } }]. *)
Fixpoint skip_rest (p : ascii -> bool) (pos : nat) (rest : string) : Cursor :=
  match rest with
  | String b rest' => if p b then skip_rest p (S pos) rest' else mkCursor pos rest
  | EmptyString => mkCursor pos rest
  end.

Definition skip_while (p : ascii -> bool) (c : Cursor) : Cursor := skip_rest p (cur_pos c) (cur_rest c).

Definition skip_ws (c : Cursor) : Cursor := skip_while is_ascii_whitespace c.
Definition eat_digits (c : Cursor) : Cursor := skip_while is_ascii_digit c.

Fixpoint contains_dots (s : string) : bool :=
  match s with
  | String a s' => (Ascii.eqb a "." && starts_with "." s') || contains_dots s'
  | EmptyString => false
  end.

Fixpoint ends_with_dot (s : string) : bool :=
  match s with
  | EmptyString => false
  | String a EmptyString => Ascii.eqb a "."
  | String _ s' => ends_with_dot s'
  end.

Section Lexer.
Variable src : string.

Definition err_at (at_ : nat) (msg : string) : ParseError :=
  PePredicate src ("at character " +:+ show_nat (char_offset src at_) +:+ ": " +:+ msg).

(** [Lexer::at]: the reader's offset is a character offset already. *)
Definition err_literal (e : LiteralError) : ParseError :=
  PePredicate src ("at character " +:+ show_nat (le_at e) +:+ ": " +:+ le_msg e).

Definition err (c : Cursor) (msg : string) : ParseError := err_at (cur_pos c) msg.

(** The character at the cursor, for diagnostics; [U+FFFD] at the end. *)
Definition char_at_cursor (c : Cursor) : string :=
  match chars (cur_rest c) with ch :: _ => ch | [] => bytes [239; 191; 189]%N end.

Definition lex_string (c : Cursor) : result (Tok * Cursor) ParseError :=
  match read_literal src (cur_pos c) with
  | Ok lit => Ok (TStringLit (ql_value lit), mkCursor (ql_end lit) (ql_rest lit))
  | Err e => Err (err_literal e)
  end.

(** [ParseIntError]'s text for a well-formed integer out of range. *)
Definition int_range_error (text : string) : string :=
  if starts_with "-" text then "number too small to fit in target type"
  else "number too large to fit in target type".

Definition lex_number (start : Cursor) : result (Tok * Cursor) ParseError :=
  let c := if peek_is "-" start then advance start else start in
  let int_start := c in
  let c := eat_digits c in
  if (cur_pos c =? cur_pos int_start)%nat then Err (err_at (cur_pos start) NUMBER_SHAPE)
  else
    let? (is_float, c) :=
      if peek_is "." c then
        let frac_start := advance c in
        let c := eat_digits frac_start in
        if (cur_pos c =? cur_pos frac_start)%nat then Err (err_at (cur_pos start) NUMBER_SHAPE)
        else Ok (true, c)
      else Ok (false, c) in
    if peek_is "e" c || peek_is "E" c then Err (err_at (cur_pos start) NUMBER_SHAPE)
    else
      let text := text_between start c in
      if is_float : bool then
        match parse_f64 text with
        | Some f => Ok (TFloatLit f, c)
        | None => Err (err c ("bad float `" +:+ text +:+ "`: invalid float literal"))
        end
      else
        match parse_i64 text with
        | Some i => Ok (TIntLit i, c)
        | None => Err (err c ("bad int `" +:+ text +:+ "`: " +:+ int_range_error text))
        end.

(** The loop of [lex_subscript] up to the closing bracket. *)
Fixpoint subscript_loop (open pos : nat) (rest : string) : result Cursor ParseError :=
  match rest with
  | EmptyString => Err (err_at open "unterminated `[` in an attribute path")
  | String b rest' =>
      if Ascii.eqb b "]" then Ok (mkCursor pos rest)
      else if Ascii.eqb b "[" then Err (err_at pos "nested `[` in an attribute path subscript")
      else if is_segment_char b || Ascii.eqb b "." then subscript_loop open (S pos) rest'
      else Err (err_at pos ("`" +:+ char_at_cursor (mkCursor pos rest)
        +:+ "` in an attribute path subscript; a subscript holds a nested path, "
        +:+ "so it takes names and dots and nothing else"))
  end.

Definition lex_subscript (c : Cursor) : result Cursor ParseError :=
  let open := c in
  let inner_start := advance c in
  let? c := subscript_loop (cur_pos open) (cur_pos inner_start) (cur_rest inner_start) in
  if (cur_pos c =? cur_pos inner_start)%nat then
    Err (err_at (cur_pos open) ("empty subscript in an attribute path; a subscript holds the nested "
      +:+ "path whose value is the key to look up"))
  else
    let inner := text_between inner_start c in
    if starts_with "." inner || ends_with_dot inner || contains_dots inner then
      Err (err_at (cur_pos inner_start) ("empty segment in an attribute path subscript; a subscript "
        +:+ "holds dot-separated names"))
    else Ok (advance c).

(** The segment loop of [lex_ident_or_keyword]; every turn consumes a byte. *)
Fixpoint path_loop (fuel : nat) (first has_bracket : bool) (c : Cursor) :
    result (bool * Cursor) ParseError :=
  match fuel with
  | O => Err OutOfFuel
  | S fuel' =>
      let seg_start := c in
      let? c :=
        if negb first && peek_is "$" c then
          let c := advance c in
          if is_some_and is_ident_start (peek c) then Ok c
          else Err (err_at (cur_pos seg_start) RESERVED_SEGMENT)
        else Ok c in
      let c := skip_while is_segment_char c in
      if (cur_pos c =? cur_pos seg_start)%nat then Err (err_at (cur_pos seg_start) EMPTY_SEGMENT)
      else
        let? (has_bracket, c) :=
          if peek_is "[" c then let? c := lex_subscript c in Ok (true, c)
          else Ok (has_bracket, c) in
        if peek_is "." c then path_loop fuel' false has_bracket (advance c)
        else Ok (has_bracket, c)
  end.

Definition keyword (s : string) : Tok :=
  if String.eqb s "true" then TBoolLit true
  else if String.eqb s "false" then TBoolLit false
  else if String.eqb s "contains" then TContains
  else if String.eqb s "require" then TRequire
  else if String.eqb s "exists" then TExists
  else if String.eqb s "in" then TIn
  else if String.eqb s "not" then TNotWord
  else TIdent s.

Definition lex_ident_or_keyword (start : Cursor) : result (Tok * Cursor) ParseError :=
  let? (has_bracket, c) := path_loop (S (String.length (cur_rest start))) true false start in
  let s := text_between start c in
  if starts_with "not." s then Err (err_at (cur_pos start) NOT_IS_RESERVED)
  else if has_bracket : bool then Ok (TIdent s, c)
  else Ok (keyword s, c).

(** A two-byte operator: [long] when [second] follows the byte at the cursor. *)
Definition lex_pair (second : ascii) (long short : Tok) (c : Cursor) : Tok * Cursor :=
  let c := advance c in
  if peek_is second c then (long, advance c) else (short, c).

(** One token, the [match b] of [tokenize_all]. *)
Definition lex_token (b : ascii) (c : Cursor) : result (Tok * Cursor) ParseError :=
  if Ascii.eqb b "(" then Ok (TLParen, advance c)
  else if Ascii.eqb b ")" then Ok (TRParen, advance c)
  else if Ascii.eqb b "," then Ok (TComma, advance c)
  else if Ascii.eqb b "&" then
    if peek_is "&" (advance c)
    then Err (err c "`&&` is not an operator; APL spells conjunction `&`") else Ok (TAnd, advance c)
  else if Ascii.eqb b "|" then
    if peek_is "|" (advance c)
    then Err (err c "`||` is not an operator; APL spells disjunction `|`") else Ok (TOr, advance c)
  else if Ascii.eqb b "=" then
    if peek_is "=" (advance c) then Ok (TEq, advance (advance c))
    else Err (err (advance c) "expected `==`, saw `=`")
  else if Ascii.eqb b "!" then Ok (lex_pair "=" TNotEq TNot c)
  else if Ascii.eqb b ">" then Ok (lex_pair "=" TGtEq TGt c)
  else if Ascii.eqb b "<" then Ok (lex_pair "=" TLtEq TLt c)
  else if is_quote b then lex_string c
  else if Ascii.eqb b "-" || is_ascii_digit b then lex_number c
  else if Ascii.eqb b "." then
    if is_some_and is_ascii_digit (peek (advance c)) then Err (err c NUMBER_SHAPE)
    else Err (err c EMPTY_SEGMENT)
  else if is_ident_start b then lex_ident_or_keyword c
  else Err (err c ("unexpected character `" +:+ char_at_cursor c +:+ "`")).

(** The loop of [tokenize_all]; every turn consumes a byte. *)
Fixpoint tokenize_loop (fuel : nat) (c : Cursor) (out : list Tok) : result (list Tok) ParseError :=
  match fuel with
  | O => Err OutOfFuel
  | S fuel' =>
      let c := skip_ws c in
      match peek c with
      | None => Ok out
      | Some b =>
          let? (tok, c) := lex_token b c in
          tokenize_loop fuel' c (out ++ [tok])
      end
  end.

Definition tokenize_all : result (list Tok) ParseError :=
  tokenize_loop (S (String.length src)) (mkCursor 0 src) [].
End Lexer.

(** ** Negation normal form of [require] *)

Fixpoint normalize_not (e : Expression) : Expression :=
  match e with
  | ECondition (IsTrue key) => ECondition (IsFalse key)
  | ECondition (IsFalse key) => ECondition (IsTrue key)
  | EAnd parts => EOr (map normalize_not parts)
  | EOr parts => EAnd (map normalize_not parts)
  | ENot inner => inner
  | other => ENot other
  end.

(** ** The parser *)

Section Parser.
Context `{Platform}.
Variable src : string.

Definition tok_debug (t : Tok) : string :=
  match t with
  | TIdent s => "Ident(" +:+ str_debug s +:+ ")"
  | TStringLit s => "StringLit(" +:+ str_debug s +:+ ")"
  | TIntLit i => "IntLit(" +:+ show_Z i +:+ ")"
  | TFloatLit f => "FloatLit(" +:+ f64_debug f +:+ ")"
  | TBoolLit b => "BoolLit(" +:+ show_bool b +:+ ")"
  | TEq => "Eq" | TNotEq => "NotEq" | TGt => "Gt" | TGtEq => "GtEq" | TLt => "Lt" | TLtEq => "LtEq"
  | TAnd => "And" | TOr => "Or" | TNot => "Not" | TNotWord => "NotWord"
  | TLParen => "LParen" | TRParen => "RParen" | TComma => "Comma"
  | TContains => "Contains" | TRequire => "Require" | TExists => "Exists" | TIn => "In"
  end.

Definition perr {A} (msg : string) : result A ParseError := Err (PePredicate src msg).

(** The parser's state is the tokens still to read. *)
Definition parser (A : Type) : Type := list Tok -> result (A * list Tok) ParseError.

(** [{:?}] of [self.peek()] or [self.bump()]. *)
Definition next_debug (toks : list Tok) : string := debug_option (option_map tok_debug (head toks)).

Definition finish_in_set (value_key : string) (negate : bool) : parser Expression := fun toks =>
  match toks with
  | TIdent set_key :: rest => Ok (ECondition (InSet value_key set_key negate), rest)
  | _ => perr ("expected set-attribute identifier after `" +:+ (if negate then "not " else "")
           +:+ "in`, got " +:+ next_debug toks)
  end.

Definition compare_op (toks : list Tok) : option CompareOp :=
  match toks with
  | TEq :: _ => Some OpEq
  | TNotEq :: _ => Some OpNotEq
  | TGt :: _ => Some OpGt
  | TGtEq :: _ => Some OpGtEq
  | TLt :: _ => Some OpLt
  | TLtEq :: _ => Some OpLtEq
  | TContains :: _ => Some OpContains
  | _ => None
  end.

Definition parse_literal : parser Literal := fun toks =>
  match toks with
  | TStringLit s :: rest => Ok (LString s, rest)
  | TIntLit i :: rest => Ok (LInt i, rest)
  | TFloatLit f :: rest => Ok (LFloat f, rest)
  | TBoolLit b :: rest => Ok (LBool b, rest)
  | TIdent _ :: _ =>
      perr ("RHS-as-identifier on comparison operators not supported — "
        +:+ "for set membership use `value_key in set_key`")
  | _ => perr ("expected literal RHS, got " +:+ next_debug toks)
  end.

Definition parse_identifier_predicate : parser Expression := fun toks =>
  match toks with
  | TIdent key :: rest =>
      match rest with
      | TIn :: rest => finish_in_set key false rest
      | TNotWord :: TIn :: rest => finish_in_set key true rest
      | TNotWord :: _ => perr NOT_IS_RESERVED
      | _ =>
          match compare_op rest with
          | None => Ok (ECondition (IsTrue key), rest)
          | Some op =>
              let? (value, rest) := parse_literal (tail rest) in
              Ok (ECondition (Comparison key op value), rest)
          end
      end
  | _ => perr "expected an identifier at the start of a predicate"
  end.

Definition parse_exists : parser Expression := fun toks =>
  match tail toks with
  | TLParen :: TIdent key :: TRParen :: rest => Ok (ECondition (CExists key), rest)
  | TLParen :: TIdent key :: rest =>
      perr ("expected `)` after exists() argument, got " +:+ next_debug rest)
  | TLParen :: rest => perr ("exists(...) expects an attribute key, got " +:+ next_debug rest)
  | _ => perr "expected `(` after `exists`"
  end.

Section Nested.
(** [parse_or], for what stands between parentheses. *)
Variable parse_or_rec : parser Expression.

(** The argument loop of [parse_require]; every turn consumes a token. *)
Fixpoint require_loop (fuel : nat) (parts : list Expression) : parser (list Expression) := fun toks =>
  match fuel with
  | O => Err OutOfFuel
  | S fuel' =>
      let? (e, toks) := parse_or_rec toks in
      let parts := parts ++ [e] in
      match toks with
      | TComma :: rest => require_loop fuel' parts rest
      | TRParen :: rest => Ok (parts, rest)
      | _ => perr ("expected `,` or `)` in `require(...)`, got " +:+ next_debug toks)
      end
  end.

Definition parse_require : parser Expression := fun toks =>
  match tail toks with
  | TLParen :: rest =>
      let? (parts, rest) := require_loop (S (length rest)) [] rest in
      let inner := match parts with [e] => e | _ => EAnd parts end in
      Ok (normalize_not inner, rest)
  | _ => perr "expected `(` after `require`"
  end.

Definition parse_atom : parser Expression := fun toks =>
  match toks with
  | TLParen :: rest =>
      let? (inner, rest) := parse_or_rec rest in
      match rest with
      | TRParen :: rest => Ok (inner, rest)
      | _ => perr "expected `)`"
      end
  | TRequire :: _ => parse_require toks
  | TExists :: _ => parse_exists toks
  | TIdent _ :: _ => parse_identifier_predicate toks
  | TNotWord :: _ => perr NOT_IS_RESERVED
  | (TStringLit _ | TIntLit _ | TFloatLit _ | TBoolLit _) :: _ =>
      perr ("a comparison names the attribute first, as in `subject.tenant == 'acme'`; a "
        +:+ "literal cannot open one")
  | _ => perr ("expected atom, got " +:+ next_debug toks)
  end.

Fixpoint parse_unary (toks : list Tok) : result (Expression * list Tok) ParseError :=
  match toks with
  | TNot :: rest => let? (inner, rest) := parse_unary rest in Ok (ENot inner, rest)
  | _ => parse_atom toks
  end.

(** [while matches!(self.peek(), Some(sep)) { self.bump(); rest.push(operand()?) }]. *)
Fixpoint operand_loop (fuel : nat) (sep : Tok) (operand : parser Expression) (acc : list Expression) :
    parser (list Expression) := fun toks =>
  match fuel with
  | O => Err OutOfFuel
  | S fuel' =>
      match toks with
      | t :: rest =>
          if decide (t = sep) then
            let? (e, rest) := operand rest in operand_loop fuel' sep operand (acc ++ [e]) rest
          else Ok (acc, toks)
      | [] => Ok (acc, toks)
      end
  end.

(** The body [parse_or] and [parse_and] share. *)
Definition parse_chain (sep : Tok) (operand : parser Expression)
    (combine : list Expression -> Expression) : parser Expression := fun toks =>
  let? (first, toks) := operand toks in
  let? (rest, toks) := operand_loop (S (length toks)) sep operand [] toks in
  match rest with
  | [] => Ok (first, toks)
  | _ => Ok (combine (first :: rest), toks)
  end.

Definition parse_and : parser Expression := parse_chain TAnd parse_unary EAnd.
Definition parse_or_step : parser Expression := parse_chain TOr parse_and EOr.
End Nested.

(** Nesting is bounded by the number of tokens. *)
Fixpoint parse_or (fuel : nat) : parser Expression :=
  match fuel with
  | O => fun _ => Err OutOfFuel
  | S fuel' => parse_or_step (parse_or fuel')
  end.

Definition debug_toks (toks : list Tok) : string :=
  "[" +:+ String.concat ", " (map tok_debug toks) +:+ "]".

Definition PredParser_parse : result Expression ParseError :=
  let? toks := tokenize_all src in
  let? (expr, rest) := parse_or (S (length toks)) toks in
  match rest with
  | [] => Ok expr
  | _ => perr ("trailing tokens after expression: " +:+ debug_toks rest)
  end.
End Parser.

Definition parse_predicate `{Platform} (src : string) : result Expression ParseError :=
  PredParser_parse (trim src).

Example parse_predicate_examples :
  let p := @parse_predicate ascii_platform in
  p " a.b == 'x\'y' & !(c | require(d, e))" =
    Ok (EAnd [ECondition (Comparison "a.b" OpEq (LString "x'y"));
              ENot (EOr [ECondition (IsTrue "c");
                         EOr [ECondition (IsFalse "d"); ECondition (IsFalse "e")]])])
  /\ p "depth >= -7" = Ok (ECondition (Comparison "depth" OpGtEq (LInt (-7))))
  /\ p "a not in data.t[subject.id]" = Ok (ECondition (InSet "a" "data.t[subject.id]" true))
  /\ p "a && b" = Err (PePredicate "a && b" "at character 2: `&&` is not an operator; APL spells conjunction `&`")
  /\ p "not a" = Err (PePredicate "not a" NOT_IS_RESERVED)
  /\ p "a b" = Err (PePredicate "a b" ("trailing tokens after expression: [Ident("
       +:+ str1 dquote +:+ "b" +:+ str1 dquote +:+ ")]")).
Proof. vm_compute. repeat split. Qed.
