(* ===== verification/Eval.v ===== *)
(** * Predicate evaluation ([ppe-apl-core/src/evaluator.rs], lines 95-384)

    A predicate evaluates to a boolean or to [Unorderable], when an order operator
    meets a present value that is not an exactly comparable number. [&] and [|]
    are the strong Kleene connectives: a definite operand settles them whatever
    its position, and [Unorderable] survives negation. *)

From Stdlib Require Import Ascii String SpecFloat.
From S2P Require Import Prelude RustStr F64 Json Platform Attributes Rules.

Record Unorderable : Type := mkUnorderable { uo_key : string }.

Definition unorderable_reason (u : Unorderable) : string :=
  "order comparison on `" +:+ uo_key u
  +:+ "` failed (fail-closed): value is not a finite number, or an integer that cannot be compared exactly through f64".

Inductive OrderOp : Type := OGt | OGtEq | OLt | OLtEq.

(** ** Literals against attributes *)

Definition values_eq (attr : AttributeValue) (lit : Literal) : bool :=
  match attr, lit with
  | AVBool a, LBool b => Bool.eqb a b
  | AVInt a, LInt b => Z.eqb a b
  | AVFloat a, LFloat b => f64_eqb a b
  | AVString a, LString b => String.eqb a b
  | AVInt a, LFloat b => f64_eqb (f64_of_Z a) b
  | AVFloat a, LInt b => f64_eqb a (f64_of_Z b)
  | _, _ => false
  end.

Definition order_Z (op : OrderOp) (a b : Z) : bool :=
  match op with
  | OGt => (b <? a)%Z
  | OGtEq => (b <=? a)%Z
  | OLt => (a <? b)%Z
  | OLtEq => (a <=? b)%Z
  end.

Definition order_f64 (op : OrderOp) (a b : f64) : bool :=
  match op with
  | OGt => f64_gtb a b
  | OGtEq => f64_geb a b
  | OLt => f64_ltb a b
  | OLtEq => f64_leb a b
  end.

Definition F64_EXACT_INT_BOUND : Z := 9007199254740992.

Definition in_exact_bound (n : Z) : bool :=
  ((- F64_EXACT_INT_BOUND <=? n) && (n <=? F64_EXACT_INT_BOUND))%Z.

Definition i64_as_exact_f64 (n : Z) : option f64 := then_some (in_exact_bound n) (f64_of_Z n).

Definition finite_f64 (f : f64) : option f64 := then_some (f64_is_finite f) f.

Definition coerce_f64_numeric_string (s : string) : option f64 :=
  let s := trim s in
  match parse_i64 s with
  | Some n => i64_as_exact_f64 n
  | None => match parse_f64 s with Some f => finite_f64 f | None => None end
  end.

Definition coerce_f64_attr (attr : AttributeValue) : option f64 :=
  match attr with
  | AVInt a => i64_as_exact_f64 a
  | AVFloat a => finite_f64 a
  | AVString s => coerce_f64_numeric_string s
  | _ => None
  end.

Definition coerce_f64_lit (lit : Literal) : option f64 :=
  match lit with
  | LInt b => i64_as_exact_f64 b
  | LFloat b => finite_f64 b
  | LString s => coerce_f64_numeric_string s
  | _ => None
  end.

(** [Result<bool, ()>]: [None] is the [Err(())] of the source. *)
Definition numeric_compare (attr : AttributeValue) (lit : Literal) (op : OrderOp) : option bool :=
  match attr, lit with
  | AVInt a, LInt b => Some (order_Z op a b)
  | _, _ =>
      match coerce_f64_attr attr with
      | None => None
      | Some a =>
          match coerce_f64_lit lit with
          | None => None
          | Some b => Some (order_f64 op a b)
          end
      end
  end.

Definition order_compare (key : string) (attr : AttributeValue) (lit : Literal) (op : OrderOp) :
    result bool Unorderable :=
  match numeric_compare attr lit op with
  | Some b => Ok b
  | None => Err (mkUnorderable key)
  end.

Definition is_not_eq (op : CompareOp) : bool := match op with OpNotEq => true | _ => false end.

Definition eval_comparison (key : string) (op : CompareOp) (lit : Literal) (bag : AttributeBag) :
    result bool Unorderable :=
  match bag_get bag key with
  | None => Ok (is_not_eq op)
  | Some attr =>
      match op with
      | OpContains =>
          Ok (match attr, lit with
              | AVStringSet _, LString s => set_contains bag key s
              | _, _ => false
              end)
      | OpEq => Ok (values_eq attr lit)
      | OpNotEq => Ok (negb (values_eq attr lit))
      | OpGt => order_compare key attr lit OGt
      | OpGtEq => order_compare key attr lit OGtEq
      | OpLt => order_compare key attr lit OLt
      | OpLtEq => order_compare key attr lit OLtEq
      end
  end.

(** ** Conditions and expressions *)

Section Combinators.
Variable f : Expression -> result bool Unorderable.

(** The loop of [eval_and]: [pending] keeps the first error seen. *)
Fixpoint and_loop (parts : list Expression) (pending : option Unorderable) :
    result bool Unorderable :=
  match parts with
  | [] => match pending with Some err => Err err | None => Ok true end
  | e :: rest =>
      match f e with
      | Ok false => Ok false
      | Ok true => and_loop rest pending
      | Err err => and_loop rest (match pending with None => Some err | Some p => Some p end)
      end
  end.

Fixpoint or_loop (parts : list Expression) (pending : option Unorderable) :
    result bool Unorderable :=
  match parts with
  | [] => match pending with Some err => Err err | None => Ok false end
  | e :: rest =>
      match f e with
      | Ok true => Ok true
      | Ok false => or_loop rest pending
      | Err err => or_loop rest (match pending with None => Some err | Some p => Some p end)
      end
  end.

Definition eval_and (parts : list Expression) : result bool Unorderable := and_loop parts None.
Definition eval_or (parts : list Expression) : result bool Unorderable := or_loop parts None.
End Combinators.

Section Eval.
Context `{Platform}.

Definition eval_condition (cond : Condition) (bag : AttributeBag) : result bool Unorderable :=
  match cond with
  | IsTrue key =>
      Ok (match resolve_key bag key with
          | Some k => match get_bool bag k with Some b => b | None => false end
          | None => false
          end)
  | IsFalse key =>
      Ok (match resolve_key bag key with
          | Some k => negb (match get_bool bag k with Some b => b | None => false end)
          | None => true
          end)
  | CExists key =>
      Ok (match resolve_key bag key with Some k => bag_contains bag k | None => false end)
  | Comparison key op value =>
      match resolve_key bag key with
      | Some k => eval_comparison k op value bag
      | None => Ok (is_not_eq op)
      end
  | InSet value_key set_key negate =>
      let in_set :=
        match resolve_key bag value_key, resolve_key bag set_key with
        | Some vk, Some sk =>
            match get_string bag vk, get_string_set bag sk with
            | Some s, Some set => bool_decide (s ∈ set)
            | _, _ => false
            end
        | _, _ => false
        end in
      Ok (if negate then negb in_set else in_set)
  end.

Fixpoint eval_expression (bag : AttributeBag) (expr : Expression) : result bool Unorderable :=
  match expr with
  | ECondition c => eval_condition c bag
  | EAnd parts => eval_and (eval_expression bag) parts
  | EOr parts => eval_or (eval_expression bag) parts
  | ENot inner =>
      match eval_expression bag inner with
      | Ok b => Ok (negb b)
      | Err e => Err e
      end
  | EAlways => Ok true
  end.

(** ** What the combinator loops compute *)

Definition is_ok_with (b : bool) (r : result bool Unorderable) : bool :=
  match r with Ok b' => Bool.eqb b b' | Err _ => false end.
Definition is_err (r : result bool Unorderable) : bool :=
  match r with Err _ => true | Ok _ => false end.

(** The first error of a list of results. *)
Fixpoint first_err (rs : list (result bool Unorderable)) : option Unorderable :=
  match rs with
  | [] => None
  | Err e :: _ => Some e
  | Ok _ :: rest => first_err rest
  end.

Lemma and_loop_spec f parts pending :
  and_loop f parts pending =
  if existsb (is_ok_with false) (map f parts) then Ok false
  else match pending with
       | Some e => Err e
       | None => match first_err (map f parts) with Some e => Err e | None => Ok true end
       end.
Proof.
  revert pending. induction parts as [|e parts IH]; intros pending; simpl.
  { by destruct pending. }
  destruct (f e) as [[]|err]; simpl; rewrite ?IH; [done..|].
  destruct (existsb _ _); [done|]. by destruct pending.
Qed.

Lemma or_loop_spec f parts pending :
  or_loop f parts pending =
  if existsb (is_ok_with true) (map f parts) then Ok true
  else match pending with
       | Some e => Err e
       | None => match first_err (map f parts) with Some e => Err e | None => Ok false end
       end.
Proof.
  revert pending. induction parts as [|e parts IH]; intros pending; simpl.
  { by destruct pending. }
  destruct (f e) as [[]|err]; simpl; rewrite ?IH; [done..|].
  destruct (existsb _ _); [done|]. by destruct pending.
Qed.

Lemma first_err_none rs : first_err rs = None <-> existsb is_err rs = false.
Proof. induction rs as [|[b|e] rs IH]; simpl; [done|exact IH|]. split; done. Qed.

Lemma first_err_some rs e : first_err rs = Some e -> Err e ∈ rs.
Proof. induction rs as [|[b|e'] rs IH]; simpl; intros; simplify_eq; set_solver. Qed.

(** The verdict of an evaluation, forgetting which comparison was unorderable. *)
Definition verdict (r : result bool Unorderable) : option bool :=
  match r with Ok b => Some b | Err _ => None end.

Lemma eval_and_verdict f parts :
  verdict (eval_and f parts) =
  if existsb (is_ok_with false) (map f parts) then Some false
  else if existsb is_err (map f parts) then None else Some true.
Proof.
  unfold eval_and. rewrite and_loop_spec. destruct (existsb (is_ok_with false) _); [done|].
  destruct (first_err (map f parts)) eqn:E, (existsb is_err (map f parts)) eqn:E'; try done.
  - apply first_err_none in E'. congruence.
  - apply first_err_none in E. congruence.
Qed.

Lemma eval_or_verdict f parts :
  verdict (eval_or f parts) =
  if existsb (is_ok_with true) (map f parts) then Some true
  else if existsb is_err (map f parts) then None else Some false.
Proof.
  unfold eval_or. rewrite or_loop_spec. destruct (existsb (is_ok_with true) _); [done|].
  destruct (first_err (map f parts)) eqn:E, (existsb is_err (map f parts)) eqn:E'; try done.
  - apply first_err_none in E'. congruence.
  - apply first_err_none in E. congruence.
Qed.
End Eval.

(** ** Properties of predicate evaluation *)

(** ** Reference semantics: two-valued logic over an assignment of the conditions *)

Fixpoint classical (o : Condition -> bool) (e : Expression) : bool :=
  match e with
  | ECondition c => o c
  | EAnd parts => forallb (classical o) parts
  | EOr parts => existsb (classical o) parts
  | ENot inner => negb (classical o inner)
  | EAlways => true
  end.

(** ** Reference semantics: strong Kleene logic, [None] being the undecided value *)

Definition k_and (a b : option bool) : option bool :=
  match a, b with
  | Some false, _ | _, Some false => Some false
  | Some true, Some true => Some true
  | None, _ | _, None => None
  end.

Definition k_or (a b : option bool) : option bool :=
  match a, b with
  | Some true, _ | _, Some true => Some true
  | Some false, Some false => Some false
  | None, _ | _, None => None
  end.

Fixpoint kleene (v : Condition -> option bool) (e : Expression) : option bool :=
  match e with
  | ECondition c => v c
  | EAnd parts => foldr k_and (Some true) (map (kleene v) parts)
  | EOr parts => foldr k_or (Some false) (map (kleene v) parts)
  | ENot inner => option_map negb (kleene v inner)
  | EAlways => Some true
  end.

(** The conditions of an expression. *)
Fixpoint conditions (e : Expression) : list Condition :=
  match e with
  | ECondition c => [c]
  | EAnd parts | EOr parts => concat (map conditions parts)
  | ENot inner => conditions inner
  | EAlways => []
  end.

Section Props.
Context `{Platform}.

(** [o] answers every condition the way the bag does, where the bag answers it at
    all; on an unorderable comparison it is free. *)
Definition completes (o : Condition -> bool) (bag : AttributeBag) : Prop :=
  forall c b, eval_condition c bag = Ok b -> o c = b.

Lemma is_ok_with_iff b r : is_ok_with b r = true <-> r = Ok b.
Proof. destruct r as [[]|]; destruct b; simpl; split; congruence. Qed.

Lemma eval_and_ok f parts b :
  eval_and f parts = Ok b ->
  if b then Forall (fun e => f e = Ok true) parts else Exists (fun e => f e = Ok false) parts.
Proof.
  intros E. pose proof (eval_and_verdict f parts) as V. rewrite E in V. simpl in V.
  destruct (existsb (is_ok_with false) _) eqn:E1.
  - simplify_eq. apply existsb_true_iff in E1 as (r & Hr & H1).
    apply list_elem_of_fmap in Hr as (e & -> & He). apply is_ok_with_iff in H1.
    apply Exists_exists. eauto.
  - destruct (existsb is_err _) eqn:E2; simplify_eq.
    apply existsb_false_iff in E1, E2. rewrite Forall_fmap in E1, E2.
    rewrite Forall_forall in *. intros e He. specialize (E1 e He). specialize (E2 e He).
    simpl in *. by destruct (f e) as [[]|].
Qed.

Lemma eval_or_ok f parts b :
  eval_or f parts = Ok b ->
  if b then Exists (fun e => f e = Ok true) parts else Forall (fun e => f e = Ok false) parts.
Proof.
  intros E. pose proof (eval_or_verdict f parts) as V. rewrite E in V. simpl in V.
  destruct (existsb (is_ok_with true) _) eqn:E1.
  - simplify_eq. apply existsb_true_iff in E1 as (r & Hr & H1).
    apply list_elem_of_fmap in Hr as (e & -> & He). apply is_ok_with_iff in H1.
    apply Exists_exists. eauto.
  - destruct (existsb is_err _) eqn:E2; simplify_eq.
    apply existsb_false_iff in E1, E2. rewrite Forall_fmap in E1, E2.
    rewrite Forall_forall in *. intros e He. specialize (E1 e He). specialize (E2 e He).
    simpl in *. by destruct (f e) as [[]|].
Qed.

(** A definite answer is right whichever way the unorderable comparisons go. *)
Lemma definite_answer_sound o bag e b :
  completes o bag -> eval_expression bag e = Ok b -> classical o e = b.
Proof.
  intros Ho. revert b. induction e as [c|parts IH|parts IH|e IH|]; intros b; cbn.
  - apply Ho.
  - intros E. apply eval_and_ok in E. rewrite Forall_forall in IH. destruct b.
    + apply forallb_true_iff. rewrite Forall_forall in *. auto.
    + apply Exists_exists in E as (e & He & E). apply forallb_false_iff. eauto.
  - intros E. apply eval_or_ok in E. rewrite Forall_forall in IH. destruct b.
    + apply Exists_exists in E as (e & He & E). apply existsb_true_iff. eauto.
    + apply existsb_false_iff. rewrite Forall_forall in *. auto.
  - destruct (eval_expression bag e) as [b'|]; [|done]. intros [= <-]. by rewrite (IH b').
  - congruence.
Qed.

(** An error needs an unorderable condition. *)
Lemma eval_expression_err bag e u :
  eval_expression bag e = Err u -> exists c, c ∈ conditions e /\ eval_condition c bag = Err u.
Proof.
  revert u. induction e as [c|parts IH|parts IH|e IH|]; intros u; cbn.
  - exists c. set_solver.
  - unfold eval_and. rewrite and_loop_spec. destruct (existsb _ _); [done|].
    destruct (first_err _) as [u'|] eqn:E; [|done]. intros [= ->].
    apply first_err_some, list_elem_of_fmap in E as (e & E & He).
    rewrite Forall_forall in IH. destruct (IH e He u ltac:(done)) as (c & Hc & Ec).
    exists c. split; [|done]. apply elem_of_concat_map. eauto.
  - unfold eval_or. rewrite or_loop_spec. destruct (existsb _ _); [done|].
    destruct (first_err _) as [u'|] eqn:E; [|done]. intros [= ->].
    apply first_err_some, list_elem_of_fmap in E as (e & E & He).
    rewrite Forall_forall in IH. destruct (IH e He u ltac:(done)) as (c & Hc & Ec).
    exists c. split; [|done]. apply elem_of_concat_map. eauto.
  - destruct (eval_expression bag e) as [b'|]; [done|]. intros [= ->]. by apply IH.
  - done.
Qed.

(** One conjunct or disjunct more is one application of the truth table. *)
Lemma eval_and_cons f e parts :
  verdict (eval_and f (e :: parts)) = k_and (verdict (f e)) (verdict (eval_and f parts)).
Proof.
  rewrite !eval_and_verdict. simpl.
  destruct (f e) as [[]|]; simpl; [|done|]; destruct (existsb _ _); try done; by destruct (existsb _ _).
Qed.

Lemma eval_or_cons f e parts :
  verdict (eval_or f (e :: parts)) = k_or (verdict (f e)) (verdict (eval_or f parts)).
Proof.
  rewrite !eval_or_verdict. simpl.
  destruct (f e) as [[]|]; simpl; [done| |]; destruct (existsb _ _); try done; by destruct (existsb _ _).
Qed.

(** The evaluator computes the truth tables. *)
Lemma eval_expression_tables bag e :
  verdict (eval_expression bag e) = kleene (fun c => verdict (eval_condition c bag)) e.
Proof.
  induction e as [c|parts IH|parts IH|e IH|]; cbn; [done| | | |done].
  - induction IH as [|e parts He _ IHp]; [done|]. cbn [map foldr]. by rewrite eval_and_cons, He, IHp.
  - induction IH as [|e parts He _ IHp]; [done|]. cbn [map foldr]. by rewrite eval_or_cons, He, IHp.
  - rewrite <- IH. by destruct (eval_expression bag e).
Qed.

(** Claim C38. Predicate evaluation is strong Kleene logic. The verdict of every predicate
    is what the strong Kleene truth tables give for the verdicts of its conditions, an
    unorderable comparison being the undecided value: a false conjunct decides a conjunction
    and a true disjunct a disjunction wherever an undecided operand stands. A definite
    verdict is the two-valued verdict under every way of resolving the unorderable
    comparisons, when no condition of the predicate is unorderable the verdict is definite
    and equals the two-valued one, and an undecided predicate reports one of its own
    unorderable comparisons. *)
Theorem eval_expression_kleene o bag e :
  completes o bag ->
  verdict (eval_expression bag e) = kleene (fun c => verdict (eval_condition c bag)) e
  /\ (forall b, eval_expression bag e = Ok b -> classical o e = b)
  /\ ((forall c, c ∈ conditions e -> result_is_ok (eval_condition c bag) = true) ->
      eval_expression bag e = Ok (classical o e))
  /\ (forall u, eval_expression bag e = Err u ->
      exists c, c ∈ conditions e /\ eval_condition c bag = Err u).
Proof.
  intros Ho. split; [apply eval_expression_tables|]. split; [intros b; by apply definite_answer_sound|].
  split; [|apply eval_expression_err].
  intros Hok. destruct (eval_expression bag e) as [b|u] eqn:E.
  - by rewrite (definite_answer_sound _ _ _ _ Ho E).
  - destruct (eval_expression_err _ _ _ E) as (c & Hc & Ec).
    specialize (Hok c Hc). by rewrite Ec in Hok.
Qed.

(** The verdict of [&] and [|] does not depend on the order the operands
    are written in: permuting them keeps a definite verdict, and keeps an
    unorderable one unorderable. *)
Theorem and_or_order_independent bag parts parts' :
  parts ≡ₚ parts' ->
  verdict (eval_expression bag (EAnd parts)) = verdict (eval_expression bag (EAnd parts'))
  /\ verdict (eval_expression bag (EOr parts)) = verdict (eval_expression bag (EOr parts')).
Proof.
  intros Hp. cbn. rewrite !eval_and_verdict, !eval_or_verdict.
  apply (Permutation_map (eval_expression bag)) in Hp.
  by rewrite !(existsb_perm _ _ _ Hp).
Qed.

(** [key != v] is the exact negation of [key == v], for a missing key, an
    unresolvable interpolated path and a type mismatch included, and neither can
    be unorderable. *)
Theorem not_eq_is_negation key lit bag :
  exists b, eval_condition (Comparison key OpEq lit) bag = Ok b
         /\ eval_condition (Comparison key OpNotEq lit) bag = Ok (negb b).
Proof.
  simpl. destruct (resolve_key bag key) as [k|]; [|by exists false].
  unfold eval_comparison. destruct (bag_get bag k) as [attr|]; [|by exists false].
  by exists (values_eq attr lit).
Qed.

(** A predicate is unorderable only because of an order operator applied
    to a key that is present and whose value cannot be compared as a number; the
    reported key is that key. Absent keys never raise it. *)
Theorem unorderable_needs_present_value bag e u :
  eval_expression bag e = Err u ->
  exists key op lit attr,
    Comparison key op lit ∈ conditions e
    /\ resolve_key bag key = Some (uo_key u)
    /\ bag_get bag (uo_key u) = Some attr
    /\ (op = OpGt \/ op = OpGtEq \/ op = OpLt \/ op = OpLtEq)
    /\ (coerce_f64_attr attr = None \/ coerce_f64_lit lit = None).
Proof.
  intros E. destruct (eval_expression_err _ _ _ E) as (c & Hc & Ec).
  destruct c as [key op lit| | | |]; simpl in Ec; try done.
  destruct (resolve_key bag key) as [k|] eqn:Ek; [|done].
  unfold eval_comparison in Ec. destruct (bag_get bag k) as [attr|] eqn:Ea; [|done].
  exists key, op, lit, attr.
  assert (forall oo, order_compare k attr lit oo = Err u ->
    uo_key u = k /\ (coerce_f64_attr attr = None \/ coerce_f64_lit lit = None)) as Hord.
  { intros oo. unfold order_compare, numeric_compare.
    destruct attr, lit; simpl; try done; repeat case_match; intros; simplify_eq/=; auto. }
  destruct op; try done; apply Hord in Ec as [-> Ho]; naive_solver.
Qed.

(** ** Order comparisons are exact *)

Lemma order_f64_of_Z op a b :
  in_exact_bound a = true -> in_exact_bound b = true ->
  order_f64 op (f64_of_Z a) (f64_of_Z b) = order_Z op a b.
Proof.
  unfold in_exact_bound, F64_EXACT_INT_BOUND. intros Ha Hb. split_bools.
  assert (SFcompare (f64_of_Z a) (f64_of_Z b) = Some (a ?= b)%Z) as E1
    by (apply f64_of_Z_compare; lia).
  assert (SFcompare (f64_of_Z b) (f64_of_Z a) = Some (b ?= a)%Z) as E2
    by (apply f64_of_Z_compare; lia).
  destruct op; simpl;
    unfold f64_gtb, f64_geb, f64_ltb, f64_leb, SFltb, SFleb; rewrite ?E1, ?E2;
    unfold Z.ltb, Z.leb; by destruct (_ ?= _)%Z.
Qed.

(** The integer an attribute denotes: itself, or the integer spelling of a string. *)
Definition attr_int (a : AttributeValue) : option Z :=
  match a with AVInt n => Some n | AVString s => parse_i64 (trim s) | _ => None end.

(** Ordering an integer-valued attribute, be it an [Int] or the string
    spelling of one, against an integer literal is exact: the answer is the order
    of the integers, or there is no answer because a string operand leaves the
    range where doubles represent every integer. Distinct amounts are never
    collapsed onto one double. *)
Theorem integer_order_exact key attr n lit_n op :
  attr_int attr = Some n ->
  order_compare key attr (LInt lit_n) op =
  match attr with
  | AVInt _ => Ok (order_Z op n lit_n)
  | _ => if in_exact_bound n && in_exact_bound lit_n then Ok (order_Z op n lit_n)
         else Err (mkUnorderable key)
  end.
Proof.
  unfold order_compare, numeric_compare.
  destruct attr; simpl; intros E; simplify_eq; [done|].
  unfold coerce_f64_numeric_string. rewrite E. unfold i64_as_exact_f64, then_some.
  destruct (in_exact_bound n) eqn:En; [|done].
  destruct (in_exact_bound lit_n) eqn:El; [|done]. simpl. by rewrite order_f64_of_Z.
Qed.
End Props.

(** ** Witnesses *)

Section Witnesses.
Let P := ascii_platform.

Definition w_bag : AttributeBag :=
  bag_set (bag_set ∅ "amount" (AVString "9007199254740993")) "role" (AVString "user").

Definition w_gt : Expression := ECondition (Comparison "amount" OpGt (LInt 10)).
Definition w_eq : Expression := ECondition (Comparison "role" OpEq (LString "admin")).

Definition w_oracle (c : Condition) : bool :=
  match eval_condition (H := P) c w_bag with Ok b => b | Err _ => true end.
End Witnesses.

(** A comparison that cannot be ordered, before a false conjunct. *)
Lemma eval_expression_kleene_witness :
  kleene (fun c => verdict (eval_condition (H := ascii_platform) c w_bag)) w_gt = None
  /\ kleene (fun c => verdict (eval_condition (H := ascii_platform) c w_bag)) (EAnd [w_gt; w_eq]) = Some false
  /\ classical w_oracle (EAnd [w_gt; w_eq]) = false.
Proof.
  destruct (@eval_expression_kleene ascii_platform w_oracle w_bag (EAnd [w_gt; w_eq])) as (Hk & Hd & _).
  - intros c b E. unfold w_oracle. by rewrite E.
  - split; [vm_compute; reflexivity|]. split; [rewrite <- Hk; vm_compute; reflexivity|].
    apply Hd. vm_compute. reflexivity.
Defined.

