(* ===== verification/Effects.v ===== *)
(** * Effects, rules and compiled routes ([ppe-apl-core/src/rules.rs], second half)

    The effect tree a policy compiles to, the load-time checks over it, the phase
    set of a route, and the layering of policy blocks, with what they guarantee. *)

From Stdlib Require Import Ascii String.
From S2P Require Import Prelude RustStr F64 Json Platform Attributes Rules Constraint Step Eval.

Unset Elimination Schemes.
Inductive Effect : Type :=
| EffAllow
| EffDeny (reason code : option string)
| EffPlugin (name : string)
| EffDelegate (step : DelegateStep)
| EffElicit (step : ElicitStep)
| EffTaint (label : string) (scopes : list TaintScope)
| EffRestrict (spec : RestrictSpec)
| EffFieldOp (path : string) (stages : list Stage)
| EffSequential (effects : list Effect)
| EffParallel (effects : list Effect)
| EffWhen (condition : Expression) (body : list Effect) (source : string)
| EffPdp (call : PdpCall) (on_allow on_deny : list Effect).
Set Elimination Schemes.

(** The effects directly inside an effect. *)
Definition children (e : Effect) : list Effect :=
  match e with
  | EffSequential es | EffParallel es => es
  | EffWhen _ body _ => body
  | EffPdp _ on_allow on_deny => on_allow ++ on_deny
  | _ => []
  end.

(** Induction over the effect tree: one case, with the hypothesis for the children. *)
Definition Effect_ind (P : Effect -> Prop)
    (Hstep : forall e, Forall P (children e) -> P e) : forall e, P e :=
  fix F (e : Effect) : P e :=
    let G := fix G (l : list Effect) : Forall P l :=
      match l with
      | [] => Forall_nil_2 P
      | x :: l' => Forall_cons_2 P x l' (F x) (G l')
      end in
    match e with
    | EffSequential es => Hstep (EffSequential es) (G es)
    | EffParallel es => Hstep (EffParallel es) (G es)
    | EffWhen c body s => Hstep (EffWhen c body s) (G body)
    | EffPdp call a d => Hstep (EffPdp call a d) (Forall_app_2 P a d (G a) (G d))
    | EffAllow => Hstep EffAllow (Forall_nil_2 P)
    | EffDeny r c => Hstep (EffDeny r c) (Forall_nil_2 P)
    | EffPlugin n => Hstep (EffPlugin n) (Forall_nil_2 P)
    | EffDelegate s => Hstep (EffDelegate s) (Forall_nil_2 P)
    | EffElicit s => Hstep (EffElicit s) (Forall_nil_2 P)
    | EffTaint l s => Hstep (EffTaint l s) (Forall_nil_2 P)
    | EffRestrict s => Hstep (EffRestrict s) (Forall_nil_2 P)
    | EffFieldOp p s => Hstep (EffFieldOp p s) (Forall_nil_2 P)
    end.

(** ** Load-time walks *)

Fixpoint contains_mutation (e : Effect) : bool :=
  match e with
  | EffFieldOp _ _ | EffDelegate _ | EffElicit _ => true
  | EffSequential effects | EffParallel effects => existsb contains_mutation effects
  | EffWhen _ body _ => existsb contains_mutation body
  | EffPdp _ on_allow on_deny =>
      existsb contains_mutation on_allow || existsb contains_mutation on_deny
  | EffAllow | EffDeny _ _ | EffPlugin _ | EffTaint _ _ | EffRestrict _ => false
  end.

Fixpoint count_elicits (e : Effect) : nat :=
  match e with
  | EffElicit _ => 1
  | EffSequential effects | EffParallel effects => list_sum (map count_elicits effects)
  | EffWhen _ body _ => list_sum (map count_elicits body)
  | EffPdp _ on_allow on_deny =>
      list_sum (map count_elicits on_allow) + list_sum (map count_elicits on_deny)
  | EffAllow | EffDeny _ _ | EffPlugin _ | EffTaint _ _ | EffRestrict _
  | EffFieldOp _ _ | EffDelegate _ => 0
  end.

(** The error of the source is a message built around the [Debug] rendering of the
    offending effect; the model carries the effect. *)
Fixpoint validate_parallel_purity (e : Effect) : result unit Effect :=
  match e with
  | EffParallel effects =>
      try_each (fun e => if contains_mutation e then Err e else validate_parallel_purity e) effects
  | EffSequential effects => try_each validate_parallel_purity effects
  | EffWhen _ body _ => try_each validate_parallel_purity body
  | EffPdp _ on_allow on_deny =>
      match try_each validate_parallel_purity on_allow with
      | Err err => Err err
      | Ok _ => try_each validate_parallel_purity on_deny
      end
  | _ => Ok tt
  end.

(** ** Rules *)

Record Rule : Type := mkRule {
  rule_condition : Expression;
  rule_effects : list Effect;
  rule_source_of : string;
}.

Definition Rule_single (condition : Expression) (effect : Effect) (source : string) : Rule :=
  mkRule condition [effect] source.

Definition Effect_from_Rule (r : Rule) : Effect :=
  EffWhen (rule_condition r) (rule_effects r) (rule_source_of r).

(** The effect loop of one rule in [evaluate_rules]: the first [Deny], if any. *)
Fixpoint first_deny (source : string) (effects : list Effect) : option Decision :=
  match effects with
  | [] => None
  | EffDeny reason code :: _ =>
      Some (Deny reason (match code with Some c => c | None => source end))
  | _ :: rest => first_deny source rest
  end.

(** The synchronous fast path: control effects only ([evaluator.rs]). *)
Fixpoint evaluate_rules `{Platform} (rules : list Rule) (bag : AttributeBag) : Decision :=
  match rules with
  | [] => Allow
  | rule :: rest =>
      match eval_expression bag (rule_condition rule) with
      | Ok false => evaluate_rules rest bag
      | Err err => Deny (Some (unorderable_reason err)) (rule_source_of rule)
      | Ok true =>
          match first_deny (rule_source_of rule) (rule_effects rule) with
          | Some d => d
          | None => evaluate_rules rest bag
          end
      end
  end.

(** ** Phases *)

Inductive Phase : Type := PhArgs | PhPreInvocation | PhResult | PhPostInvocation.

(** [PhaseSet(u8)]. *)
Definition PhaseSet : Type := Z.

Definition phase_bit (p : Phase) : Z :=
  match p with PhArgs => 1 | PhPreInvocation => 2 | PhResult => 4 | PhPostInvocation => 8 end.

Definition PhaseSet_new : PhaseSet := 0%Z.
Definition PhaseSet_insert (s : PhaseSet) (p : Phase) : PhaseSet := Z.lor s (phase_bit p).
Definition PhaseSet_contains (s : PhaseSet) (p : Phase) : bool :=
  negb (Z.land s (phase_bit p) =? 0)%Z.
Definition PhaseSet_is_empty (s : PhaseSet) : bool := (s =? 0)%Z.

(** ** Compiled routes *)

Record DenyResponse : Type := mkDenyResponse {
  dr_status : option Z;
  dr_body : option string;
  dr_headers : gmap string string;
}.

Record PluginOverride : Type := mkOverride {
  ov_config : option yaml;
  ov_capabilities : option (list string);
  ov_on_error : option string;
}.

Record CompiledRoute : Type := mkRoute {
  route_key : string;
  rt_args : list FieldRule;
  pre_invocation : list Effect;
  rt_result : list FieldRule;
  post_invocation : list Effect;
  plugin_overrides : gmap string PluginOverride;
  response : option DenyResponse;
}.

Definition CompiledRoute_new (key : string) : CompiledRoute := mkRoute key [] [] [] [] ∅ None.

Definition declared_phases (r : CompiledRoute) : PhaseSet :=
  let set := PhaseSet_new in
  let set := if is_nil (rt_args r) then set else PhaseSet_insert set PhArgs in
  let set := if is_nil (pre_invocation r) then set else PhaseSet_insert set PhPreInvocation in
  let set := if is_nil (rt_result r) then set else PhaseSet_insert set PhResult in
  if is_nil (post_invocation r) then set else PhaseSet_insert set PhPostInvocation.

(** [retain] the fields the new layer does not redefine, then append its rules. *)
Definition layer_fields (base more : list FieldRule) : list FieldRule :=
  List.filter (fun f => negb (existsb (fun g => String.eqb (fr_field g) (fr_field f)) more)) base
  ++ more.

Definition apply_layer (self more_specific : CompiledRoute) : CompiledRoute := {|
  route_key := route_key self;
  rt_args := layer_fields (rt_args self) (rt_args more_specific);
  pre_invocation := pre_invocation self ++ pre_invocation more_specific;
  rt_result := layer_fields (rt_result self) (rt_result more_specific);
  post_invocation := post_invocation self ++ post_invocation more_specific;
  plugin_overrides := plugin_overrides more_specific ∪ plugin_overrides self;
  response := response self;
|}.

(** ** Properties of effect trees, rules and route layering *)

(** ** The tree below an effect *)

Inductive subeffect : Effect -> Effect -> Prop :=
| sub_refl e : subeffect e e
| sub_child m c e : c ∈ children e -> subeffect m c -> subeffect m e.

#[export] Hint Constructors subeffect : policy.

(** The effects whose work is lost on a cloned branch. *)
Definition mutates (e : Effect) : Prop :=
  match e with EffFieldOp _ _ | EffDelegate _ | EffElicit _ => True | _ => False end.

Lemma contains_mutation_children e :
  contains_mutation e = true <-> mutates e \/ exists c, c ∈ children e /\ contains_mutation c = true.
Proof.
  destruct e; simpl; rewrite ?orb_true_iff, ?existsb_true_iff; setoid_rewrite elem_of_app || idtac; set_solver.
Qed.

Lemma contains_mutation_spec e :
  contains_mutation e = true <-> exists m, subeffect m e /\ mutates m.
Proof.
  induction e as [e IH]. rewrite contains_mutation_children. rewrite Forall_forall in IH.
  split.
  - intros [Hm|(c & Hc & Hm)]; [eauto with policy|].
    apply IH in Hm as (m & Hsub & Hm); [|done]. eauto with policy.
  - intros (m & Hsub & Hm). destruct Hsub as [|m c e Hc Hsub]; [by left|].
    right. exists c. split; [done|]. apply IH; eauto.
Qed.

(** The check of one node, given that of its children. *)
Lemma validate_children e :
  validate_parallel_purity e = Ok tt <->
  Forall (fun c => validate_parallel_purity c = Ok tt) (children e)
  /\ match e with
     | EffParallel es => Forall (fun c => contains_mutation c = false) es
     | _ => True
     end.
Proof.
  destruct e; simpl; rewrite ?try_each_ok; try naive_solver.
  - rewrite !Forall_forall. split.
    + intros Hv; split; intros x Hx; specialize (Hv x Hx); by destruct (contains_mutation x).
    + intros [H1 H2] x Hx. by rewrite H2, H1.
  - rewrite Forall_app, <- !try_each_ok.
    destruct (try_each validate_parallel_purity on_allow) as [[]|]; naive_solver.
Qed.

(** The load-time check accepts an effect tree exactly when no effect that
    rewrites a field, mints a credential or asks a human lies anywhere below a
    [parallel:] node, at any depth and through any nesting. *)
Theorem parallel_purity_correct e :
  validate_parallel_purity e = Ok tt <->
  forall es m, subeffect (EffParallel es) e -> subeffect m (EffParallel es) -> ~ mutates m.
Proof.
  induction e as [e IH]. rewrite validate_children. rewrite Forall_forall in IH. split.
  - intros [Hc Hp] es m Hsub Hm Hmut. inversion Hsub as [e0|m0 c e0 Hin Hsub']; subst.
    + inversion Hm as [e0|m0 c e0 Hin Hm']; subst; [done|]. simpl in Hin.
      rewrite Forall_forall in Hp. specialize (Hp c Hin).
      enough (contains_mutation c = true) by congruence.
      apply contains_mutation_spec. eauto.
    + rewrite Forall_forall in Hc. specialize (Hc c Hin).
      rewrite (IH c Hin) in Hc. by eapply Hc.
  - intros Hall. split.
    + apply Forall_forall. intros c Hin. apply (IH c Hin). intros es m Hsub.
      apply Hall. eauto with policy.
    + destruct e as [| | | | | | | | |es| |]; try done. apply Forall_forall. intros c Hin.
      destruct (contains_mutation c) eqn:E; [|done].
      apply contains_mutation_spec in E as (m & Hsub & Hm).
      exfalso. eapply (Hall es m); eauto with policy.
Qed.

Lemma list_sum_map_zero {A} (f : A -> nat) l :
  list_sum (map f l) = 0 <-> Forall (fun x => f x = 0) l.
Proof. induction l as [|c l IHl]; simpl; [by split|]. rewrite Forall_cons, <- IHl. lia. Qed.

Lemma count_elicits_children e :
  count_elicits e = 0 <->
  (forall s, e <> EffElicit s) /\ Forall (fun c => count_elicits c = 0) (children e).
Proof.
  destruct e; simpl; rewrite ?Forall_app, <- ?list_sum_map_zero; try naive_solver.
  split; [intros; split; [done|lia]|lia].
Qed.

(** [count_elicits] is zero exactly when the tree holds no elicitation,
    in any arm of a condition or of a PDP reaction. *)
Theorem count_elicits_zero e :
  count_elicits e = 0 <-> forall s, ~ subeffect (EffElicit s) e.
Proof.
  induction e as [e IH]. rewrite count_elicits_children. rewrite !Forall_forall in *. split.
  - intros [Hn Hc] s Hsub. inversion Hsub as [|m c e0 Hin Hsub']; subst; [by eapply Hn|].
    by apply (IH c Hin) in Hsub'; [|apply Hc].
  - intros Hall. split; [intros s ->; eapply Hall; eauto with policy|].
    intros c Hin. apply (IH c Hin). intros s Hs. eapply Hall; eauto with policy.
Qed.

(** ** The synchronous rule evaluator *)

Lemma first_deny_none source effects :
  first_deny source effects = None <-> forall r c, EffDeny r c ∉ effects.
Proof.
  induction effects as [|e effects IH]; simpl; [set_solver|].
  destruct e; rewrite ?IH; split; intros; try done; set_solver.
Qed.

Lemma first_deny_some source effects d :
  first_deny source effects = Some d -> exists reason src, d = Deny reason src.
Proof. induction effects as [|e l IH]; simpl; [done|]. destruct e; naive_solver. Qed.

Section Rules.
Context `{Platform}.

(** A rule lets the request through: its condition is definitely false, or it is
    definitely true and no effect of the rule is a deny. *)
Definition rule_passes (bag : AttributeBag) (r : Rule) : Prop :=
  eval_expression bag (rule_condition r) = Ok false
  \/ (eval_expression bag (rule_condition r) = Ok true
      /\ forall reason code, EffDeny reason code ∉ rule_effects r).

Lemma rule_passes_iff bag r :
  rule_passes bag r <->
  match eval_expression bag (rule_condition r) with
  | Ok false => True
  | Ok true => first_deny (rule_source_of r) (rule_effects r) = None
  | Err _ => False
  end.
Proof.
  unfold rule_passes. rewrite <- (first_deny_none (rule_source_of r)).
  destruct (eval_expression bag (rule_condition r)) as [[]|]; naive_solver.
Qed.

(** Why a rule that does not pass denies. *)
Definition denied_by (bag : AttributeBag) (r : Rule) (reason : option string) (source : string) : Prop :=
  (exists u, eval_expression bag (rule_condition r) = Err u
     /\ reason = Some (unorderable_reason u) /\ source = rule_source_of r)
  \/ (eval_expression bag (rule_condition r) = Ok true
      /\ first_deny (rule_source_of r) (rule_effects r) = Some (Deny reason source)).

Lemma evaluate_rules_cons r rules bag :
  (rule_passes bag r /\ evaluate_rules (r :: rules) bag = evaluate_rules rules bag)
  \/ (~ rule_passes bag r /\ exists reason source,
        evaluate_rules (r :: rules) bag = Deny reason source /\ denied_by bag r reason source).
Proof.
  rewrite rule_passes_iff. unfold denied_by. simpl.
  destruct (eval_expression bag (rule_condition r)) as [[]|u]; [|naive_solver..].
  destruct (first_deny _ _) as [d|] eqn:F; [|naive_solver].
  destruct (first_deny_some _ _ _ F) as (reason & src & ->). right. split; [done|]. eauto 6.
Qed.

(** The rule evaluator is fail-closed and first-deny-wins: it allows
    exactly when every rule passes, and otherwise the denial comes from the first
    rule that does not, whether that rule denied or could not be evaluated. *)
Theorem evaluate_rules_correct rules bag :
  (evaluate_rules rules bag = Allow <-> Forall (rule_passes bag) rules)
  /\ (forall reason source, evaluate_rules rules bag = Deny reason source ->
      exists before r after, rules = before ++ r :: after
        /\ Forall (rule_passes bag) before /\ ~ rule_passes bag r
        /\ denied_by bag r reason source).
Proof.
  induction rules as [|r rules [IHa IHd]]; [by split|]. rewrite Forall_cons.
  destruct (evaluate_rules_cons r rules bag) as [[Hp ->]|[Hn (reason & src & -> & Hd)]].
  - rewrite IHa. split; [naive_solver|]. intros reason source E.
    apply IHd in E as (b & r' & a & -> & Hb & E). exists (r :: b), r', a.
    split; [done|]. split; [by constructor|done].
  - split; [naive_solver|]. intros ? ? [= <- <-]. by exists [], r, rules.
Qed.
End Rules.

(** ** Phase sets *)

Definition phase_is_declared (r : CompiledRoute) (p : Phase) : bool :=
  match p with
  | PhArgs => negb (is_nil (rt_args r))
  | PhPreInvocation => negb (is_nil (pre_invocation r))
  | PhResult => negb (is_nil (rt_result r))
  | PhPostInvocation => negb (is_nil (post_invocation r))
  end.

#[global] Instance Phase_eq_dec : EqDecision Phase.
Proof. solve_decision. Defined.

Lemma PhaseSet_insert_contains s p q :
  PhaseSet_contains (PhaseSet_insert s p) q = PhaseSet_contains s q || bool_decide (p = q).
Proof.
  unfold PhaseSet_contains, PhaseSet_insert. rewrite Z.land_lor_distr_l.
  replace (Z.land (phase_bit p) (phase_bit q)) with (if bool_decide (p = q) then phase_bit p else 0%Z)
    by (by destruct p, q).
  case_bool_decide; [|by rewrite Z.lor_0_r, orb_false_r].
  rewrite orb_true_r. apply negb_true_iff, Z.eqb_neq. rewrite Z.lor_eq_0_iff.
  destruct p; naive_solver.
Qed.

(** The bit set of declared phases holds exactly the phases whose list of
    rules or effects is not empty, and it is empty only for a route that runs
    nothing. *)
Theorem declared_phases_correct r :
  (forall p, PhaseSet_contains (declared_phases r) p = phase_is_declared r p)
  /\ (PhaseSet_is_empty (declared_phases r) = true <-> forall p, phase_is_declared r p = false).
Proof.
  unfold declared_phases, phase_is_declared. split.
  - intros p. destruct (is_nil (rt_args r)), (is_nil (pre_invocation r)),
      (is_nil (rt_result r)), (is_nil (post_invocation r)), p; reflexivity.
  - destruct (is_nil (rt_args r)), (is_nil (pre_invocation r)),
      (is_nil (rt_result r)), (is_nil (post_invocation r)); vm_compute; split; try done.
    all: intros Hall; first
      [ specialize (Hall PhArgs); done | specialize (Hall PhPreInvocation); done
      | specialize (Hall PhResult); done | specialize (Hall PhPostInvocation); done
      | by intros [] ].
Qed.

(** ** Layering *)

Definition has_field (l : list FieldRule) (f : string) : bool :=
  existsb (fun g => String.eqb (fr_field g) f) l.

Lemma has_field_app l k f : has_field (l ++ k) f = has_field l f || has_field k f.
Proof. apply existsb_app. Qed.

Lemma layer_fields_unfold base more :
  layer_fields base more = List.filter (fun f => negb (has_field more (fr_field f))) base ++ more.
Proof. done. Qed.

Lemma has_field_filter l (p : string -> bool) f :
  has_field (List.filter (fun g => p (fr_field g)) l) f = has_field l f && p f.
Proof.
  induction l as [|g l IH]; simpl; [done|].
  destruct (p (fr_field g)) eqn:E; simpl; rewrite IH;
    destruct (String.eqb_spec (fr_field g) f) as [<-|]; simpl; rewrite ?E; try done.
  by rewrite !andb_false_r.
Qed.

Lemma has_field_layer base more f :
  has_field (layer_fields base more) f = has_field base f || has_field more f.
Proof.
  rewrite layer_fields_unfold, has_field_app,
    (has_field_filter base (fun x => negb (has_field more x))).
  destruct (has_field base f), (has_field more f); done.
Qed.

Lemma list_filter_app {A} (p : A -> bool) l k :
  List.filter p (l ++ k) = List.filter p l ++ List.filter p k.
Proof. apply List.filter_app. Qed.

Lemma list_filter_filter {A} (p q : A -> bool) l :
  List.filter p (List.filter q l) = List.filter (fun x => q x && p x) l.
Proof.
  induction l as [|x l IH]; simpl; [done|]. destruct (q x); simpl; rewrite ?IH; done.
Qed.

Lemma list_filter_nil {A} (p : A -> bool) l :
  (forall x, x ∈ l -> p x = false) -> List.filter p l = [].
Proof.
  induction l as [|x l IH]; intros Hp; simpl; [done|].
  rewrite Hp by set_solver. apply IH. set_solver.
Qed.

Lemma layer_fields_assoc a b c :
  layer_fields (layer_fields a b) c = layer_fields a (layer_fields b c).
Proof.
  rewrite !layer_fields_unfold, list_filter_app, list_filter_filter, <- app_assoc.
  f_equal. apply filter_ext. intros x. rewrite <- layer_fields_unfold, has_field_layer.
  by destruct (has_field b (fr_field x)), (has_field c (fr_field x)).
Qed.

(** Layering policy blocks is associative, so the effective route depends
    on the sequence of layers and not on how the merges are grouped, and the empty
    block is neutral on the policy content. *)
Theorem apply_layer_assoc a b c :
  apply_layer (apply_layer a b) c = apply_layer a (apply_layer b c)
  /\ forall key, apply_layer a (CompiledRoute_new key) = a.
Proof.
  split.
  - unfold apply_layer; simpl. f_equal; try apply layer_fields_assoc;
      by rewrite ?(assoc_L (++)), ?(assoc_L (∪)).
  - intros key. destruct a. unfold apply_layer, layer_fields; simpl.
    f_equal; rewrite ?app_nil_r, ?(left_id_L ∅ (∪)); try done;
      apply forallb_filter_id, forallb_forall; done.
Qed.

(** The more specific layer wins on every field and plugin it declares,
    and what it does not declare is kept; policy steps of the earlier layer run
    first. *)
Theorem apply_layer_specific_wins base more f name :
  let r := apply_layer base more in
  List.filter (fun g => String.eqb (fr_field g) f) (rt_args r)
    = List.filter (fun g => String.eqb (fr_field g) f)
        (if has_field (rt_args more) f then rt_args more else rt_args base)
  /\ plugin_overrides r !! name
     = match plugin_overrides more !! name with Some o => Some o | None => plugin_overrides base !! name end
  /\ (exists tail, pre_invocation r = pre_invocation base ++ tail)
  /\ route_key r = route_key base /\ response r = response base.
Proof.
  simpl. split; [|split; [|by eauto]].
  - rewrite layer_fields_unfold, list_filter_app, list_filter_filter.
    destruct (has_field (rt_args more) f) eqn:E.
    + rewrite (list_filter_nil _ (rt_args base)); [done|]. intros g _.
      destruct (String.eqb_spec (fr_field g) f) as [->|]; [by rewrite E|apply andb_false_r].
    + rewrite (list_filter_nil _ (rt_args more)), app_nil_r.
      * apply filter_ext. intros g.
        destruct (String.eqb_spec (fr_field g) f) as [->|]; [by rewrite E|apply andb_false_r].
      * apply existsb_false_iff in E. rewrite Forall_forall in E. exact E.
  - rewrite lookup_union. by destruct (plugin_overrides more !! name), (plugin_overrides base !! name).
Qed.
