(* ===== verification/Paths.v ===== *)
(** * Payload paths and structured input ([ppe-apl-core/src/route.rs])

    Reading, writing and removing a field through a path, the expansion of a
    dotted path over arrays (and, for redaction, over [**] and key case), and the
    depth bound of the structured input handed to PDPs; reads after writes. *)

From Stdlib Require Import Ascii String.
From S2P Require Import Prelude RustStr F64 Json Platform Rules Step.

(** ** Structured input *)

Definition MAX_STRUCTURED_DEPTH : nat := 128.
Definition INPUT_TOO_DEEP_CODE : string := "pdp.input_too_deep".
Definition LLM_REQUEST_MISSING_CODE : string := "pdp.llm_request_missing".

Definition json_children (v : json) : option (list json) :=
  match v with
  | JArray items => Some items
  | JObject m => Some (m.*2)
  | _ => None
  end.

Fixpoint json_size (v : json) : nat :=
  match v with
  | JArray items => S (list_sum (map json_size items))
  | JObject m => S (list_sum (map (fun kv => json_size kv.2) m))
  | _ => 1
  end.

(** The explicit-stack walk; the top of the stack is the head of the list. Each
    turn pops one node, so the number of nodes bounds the turns. *)
Fixpoint depth_loop (fuel : nat) (limit : nat) (stack : list (json * nat)) : bool :=
  match fuel with
  | O => false
  | S fuel' =>
      match stack with
      | [] => false
      | (node, child_depth) :: rest =>
          match json_children node with
          | Some cs =>
              if (limit <? child_depth)%nat then true
              else depth_loop fuel' limit (rev (map (fun c => (c, S child_depth)) cs) ++ rest)
          | None => depth_loop fuel' limit rest
          end
      end
  end.

Definition exceeds_depth (value : json) (limit : nat) : bool :=
  depth_loop (S (json_size value)) limit [(value, 2)].

Record StructuredInput : Type := mkStructured {
  si_llm_request : option json;
  si_args : option json;
  si_too_deep : bool;
}.

Definition opt_exceeds (o : option json) : bool :=
  match o with Some v => exceeds_depth v MAX_STRUCTURED_DEPTH | None => false end.

Definition StructuredInput_new (llm_request args : option json) : StructuredInput := {|
  si_llm_request := llm_request;
  si_args := args;
  si_too_deep := opt_exceeds llm_request || opt_exceeds args;
|}.

Definition StructuredInput_default : StructuredInput := mkStructured None None false.

Definition keep_if {A} (b : bool) (o : option A) : option A := if b then o else None.

Definition StructuredInput_retain (s : StructuredInput) (keep_llm_request keep_args : bool) :
    StructuredInput := {|
  si_llm_request := keep_if keep_llm_request (si_llm_request s);
  si_args := keep_if keep_args (si_args s);
  si_too_deep := si_too_deep s;
|}.

Record RoutePayload : Type := mkPayload {
  pl_args : json;
  pl_result : option json;
  pl_structured : StructuredInput;
}.

Definition RoutePayload_new (args : json) : RoutePayload :=
  mkPayload args None StructuredInput_default.
Definition RoutePayload_with_result (args result : json) : RoutePayload :=
  mkPayload args (Some result) StructuredInput_default.
Definition with_structured (p : RoutePayload) (s : StructuredInput) : RoutePayload :=
  mkPayload (pl_args p) (pl_result p) s.

(** ** Reading *)

Definition segment_get (value : json) (seg : string) : option json :=
  match value with
  | JObject m => map_get seg m
  | JArray items =>
      match parse_usize seg with Some i => vec_get items i | None => None end
  | _ => None
  end.

Fixpoint get_concrete (root : json) (path : list string) : option json :=
  match path with
  | [] => Some root
  | seg :: rest =>
      match segment_get root seg with
      | Some child => get_concrete child rest
      | None => None
      end
  end.

Definition get_dotted (root : json) (path : string) : option json :=
  get_concrete root (split "." path).

(** ** Writing: [None] is the [false] of the source, the document unchanged *)

(** Assignment through [Map::get_mut]: the entry's value is replaced in place. *)
Fixpoint map_replace (k : string) (v : json) (m : list (string * json)) : list (string * json) :=
  match m with
  | [] => []
  | (k', v') :: m' => if String.eqb k k' then (k', v) :: m' else (k', v') :: map_replace k v m'
  end.

(** [parent_mut] followed by an update [f] of the value it points to. *)
Fixpoint modify_at (parents : list string) (f : json -> option json) (root : json) : option json :=
  match parents with
  | [] => f root
  | seg :: rest =>
      match root with
      | JObject m =>
          match map_get seg m with
          | Some child =>
              match modify_at rest f child with
              | Some child' => Some (JObject (map_replace seg child' m))
              | None => None
              end
          | None => None
          end
      | JArray items =>
          match parse_usize seg with
          | Some i =>
              match vec_index items i with
              | Some n =>
                  match items !! n with
                  | Some child =>
                      match modify_at rest f child with
                      | Some child' => Some (JArray (<[n := child']> items))
                      | None => None
                      end
                  | None => None
                  end
              | None => None
              end
          | None => None
          end
      | _ => None
      end
  end.

(** [slice::split_last]. *)
Fixpoint split_last {A} (l : list A) : option (list A * A) :=
  match l with
  | [] => None
  | x :: l' => match split_last l' with Some (init, last) => Some (x :: init, last) | None => Some ([], x) end
  end.

Definition set_leaf (leaf : string) (value : json) (cur : json) : option json :=
  match cur with
  | JObject m => Some (JObject (map_insert leaf value m))
  | JArray items =>
      match parse_usize leaf with
      | Some i => match vec_index items i with
                  | Some n => Some (JArray (<[n := value]> items))
                  | None => None
                  end
      | None => None
      end
  | _ => None
  end.

Definition set_concrete (root : json) (path : list string) (value : json) : option json :=
  match split_last path with
  | None => Some value
  | Some (parents, leaf) => modify_at parents (set_leaf leaf value) root
  end.

Definition remove_leaf (leaf : string) (cur : json) : option json :=
  match cur with
  | JObject m =>
      match map_get leaf m with Some _ => Some (JObject (map_remove leaf m)) | None => None end
  | JArray items =>
      match parse_usize leaf with
      | Some i => match vec_index items i with
                  | Some n => Some (JArray (vec_remove items n))
                  | None => None
                  end
      | None => None
      end
  | _ => None
  end.

Definition remove_concrete (root : json) (path : list string) : option json :=
  match split_last path with
  | None => None
  | Some (parents, leaf) => modify_at parents (remove_leaf leaf) root
  end.

(** ** Expansion of a dotted path *)

Definition MAX_FANOUT_DEPTH : nat := 128.
Definition MAX_EXPANDED_PATHS : Z := 100000.
Definition MAX_REDACTION_WALK_STATES : Z := 100000.

Definition len_Z {A} (l : list A) : Z := Z.of_nat (length l).

(** [for (i, item) in items.iter().enumerate() { if !step(i, item, state) { return false } }]. *)
Fixpoint walk_each {A S} (step : nat -> A -> S -> option S) (i : nat) (items : list A) (st : S) :
    option S :=
  match items with
  | [] => Some st
  | item :: rest =>
      match step i item st with
      | Some st' => walk_each step (Datatypes.S i) rest st'
      | None => None
      end
  end.

Definition join (prefix seg : string) : string :=
  if String.eqb prefix "" then seg else prefix +:+ "." +:+ seg.

(** The inner [walk]: [fuel] is [MAX_FANOUT_DEPTH + 1 - depth], so [fuel = 0] is the
    test [depth > MAX_FANOUT_DEPTH]. [None] is the [false] of the source. *)
Fixpoint field_walk (fuel : nat) (value : json) (segs : list string) (prefix : string)
    (out : list string) : option (list string) :=
  match fuel with
  | O => None
  | S fuel' =>
      if (MAX_EXPANDED_PATHS <? len_Z out)%Z then None
      else match segs with
      | [] => Some (out ++ [prefix])
      | seg :: rest =>
          match value with
          | JArray items =>
              match parse_usize seg with
              | Some idx =>
                  match vec_get items idx with
                  | Some child => field_walk fuel' child rest (join prefix seg) out
                  | None => Some out
                  end
              | None =>
                  walk_each (fun i item => field_walk fuel' item segs (join prefix (show_nat i)))
                    0 items out
              end
          | _ =>
              match segment_get value seg with
              | Some child => field_walk fuel' child rest (join prefix seg) out
              | None => Some out
              end
          end
      end
  end.

Definition expand_field_paths (root : json) (path : string) : option (list string) :=
  field_walk (S MAX_FANOUT_DEPTH) root (split "." path) "" [].

Definition is_redact (s : Stage) : bool := match s with StRedact _ => true | _ => false end.

(** Lexicographic order of paths and [Vec::dedup]. *)
Fixpoint path_leb (a b : list string) : bool :=
  match a, b with
  | [], _ => true
  | _ :: _, [] => false
  | x :: a', y :: b' =>
      match String.compare x y with Lt => true | Gt => false | Eq => path_leb a' b' end
  end.

Definition path_le (a b : list string) : Prop := path_leb a b = true.
#[global] Instance path_le_dec : RelDecision path_le.
Proof. intros a b. unfold path_le. apply _. Defined.

Fixpoint dedup (l : list (list string)) : list (list string) :=
  match l with
  | x :: ((y :: _) as l') => if decide (x = y) then dedup l' else x :: dedup l'
  | _ => l
  end.

Section Redaction.
Context `{Platform}.

(** State of the redaction walk: the remaining budget and the paths found. *)
Definition walk_state : Type := Z * list (list string).

(** The inner [walk] of [expand_for_pipeline], [descend] inlined: the path prefix
    is pushed before and popped after the recursive call. *)
Fixpoint redact_walk (fuel : nat) (value : json) (segs : list string) (prefix : list string)
    (st : walk_state) : option walk_state :=
  match fuel with
  | O => None
  | S fuel' =>
      let '(budget, out) := st in
      if ((budget =? 0) || (MAX_EXPANDED_PATHS <? len_Z out))%Z then None
      else
        let budget := (budget - 1)%Z in
        match segs with
        | [] =>
            if (len_Z out =? MAX_EXPANDED_PATHS)%Z then None
            else Some (budget, out ++ [prefix])
        | seg :: rest =>
            let descend child segs key := redact_walk fuel' child segs (prefix ++ [key]) in
            if String.eqb seg "**" then
              match redact_walk fuel' value rest prefix (budget, out) with
              | None => None
              | Some st' =>
                  match value with
                  | JObject m => walk_each (fun _ kv => descend kv.2 segs kv.1) 0 m st'
                  | JArray items => walk_each (fun i item => descend item segs (show_nat i)) 0 items st'
                  | _ => Some st'
                  end
              end
            else
              match value with
              | JObject m =>
                  walk_each (fun _ kv st =>
                    if String.eqb (str_to_lowercase kv.1) (str_to_lowercase seg)
                    then descend kv.2 rest kv.1 st else Some st) 0 m (budget, out)
              | JArray items =>
                  match parse_usize seg with
                  | Some index =>
                      match vec_get items index with
                      | Some child => descend child rest seg (budget, out)
                      | None => Some (budget, out)
                      end
                  | None =>
                      walk_each (fun i item => descend item segs (show_nat i)) 0 items (budget, out)
                  end
              | _ => Some (budget, out)
              end
        end
  end.

Definition walk_budget (segs : list string) : Z :=
  if existsb (String.eqb "**") segs then MAX_REDACTION_WALK_STATES else usize_max.

Definition expand_for_pipeline (root : json) (path : string) (stages : list Stage) :
    option (list (list string)) :=
  if negb (existsb is_redact stages) then
    match expand_field_paths root path with
    | Some paths => Some (map (split ".") paths)
    | None => None
    end
  else
    let segs := split "." path in
    match redact_walk (S MAX_FANOUT_DEPTH) root segs [] (walk_budget segs, []) with
    | Some (_, paths) => Some (dedup (merge_sort path_le paths))
    | None => None
    end.
End Redaction.

Definition w_doc : json :=
  JObject [("a", JArray [JObject [("SSN", JString "1"); ("x", JNull)];
                         JObject [("ssn", JString "2")]])].

Example expand_examples :
  expand_for_pipeline (H := ascii_platform) w_doc "a.ssn" [StRedact None]
    = Some [["a"; "0"; "SSN"]; ["a"; "1"; "ssn"]]
  /\ expand_for_pipeline (H := ascii_platform) w_doc "a.ssn" [StHash] = Some [["a"; "1"; "ssn"]]
  /\ expand_for_pipeline (H := ascii_platform) w_doc "**.ssn" [StRedact None]
    = Some [["a"; "0"; "SSN"]; ["a"; "1"; "ssn"]]
  /\ set_concrete w_doc ["a"; "1"; "ssn"] JNull
    = Some (JObject [("a", JArray [JObject [("SSN", JString "1"); ("x", JNull)];
                                   JObject [("ssn", JNull)]])]).
Proof. vm_compute. repeat split. Qed.

(** ** Properties of payload paths *)

(** ** Depth of structured input *)

(** One more than the number of arrays and objects on the deepest path. *)
Fixpoint json_depth (v : json) : nat :=
  match v with
  | JArray items => S (foldr Nat.max 1 (map json_depth items))
  | JObject m => S (foldr Nat.max 1 (map (fun kv => json_depth kv.2) m))
  | _ => 1
  end.

Lemma json_depth_children v cs :
  json_children v = Some cs -> json_depth v = S (foldr Nat.max 1 (map json_depth cs)).
Proof.
  destruct v; simpl; intros; simplify_eq; try done. f_equal. rewrite map_map. done.
Qed.

Lemma json_size_children v cs :
  json_children v = Some cs -> json_size v = S (list_sum (map json_size cs)).
Proof.
  destruct v; simpl; intros; simplify_eq; try done. f_equal. rewrite map_map. done.
Qed.

Lemma json_depth_scalar v : json_children v = None -> json_depth v = 1.
Proof. by destruct v. Qed.

Lemma json_depth_pos v : 0 < json_depth v.
Proof. destruct v; simpl; lia. Qed.

Lemma json_size_pos v : 0 < json_size v.
Proof. destruct v; simpl; lia. Qed.

(** A stack entry goes past the limit: it is a container, and some container at or
    below it has children deeper than [limit]. *)
Definition over (limit : nat) (vd : json * nat) : bool :=
  match json_children vd.1 with
  | Some _ => (limit + 2 <? vd.2 + json_depth vd.1)%nat
  | None => false
  end.

Lemma max_fold_lt l n : n < foldr Nat.max 1 l <-> n < 1 \/ Exists (fun x => n < x) l.
Proof.
  induction l as [|x l IH]; simpl; [rewrite Exists_nil; lia|].
  rewrite Exists_cons, Nat.max_lt_iff, IH. tauto.
Qed.

Lemma over_container limit v d cs :
  json_children v = Some cs -> 2 <= d ->
  over limit (v, d) = (limit <? d)%nat || existsb (over limit) (map (fun c => (c, S d)) cs).
Proof.
  intros Hc Hd. unfold over at 1. simpl. rewrite Hc.
  apply eq_iff_eq_true. rewrite orb_true_iff, !Nat.ltb_lt, existsb_true_iff.
  rewrite (json_depth_children _ _ Hc).
  setoid_rewrite list_elem_of_fmap.
  split.
  - intros Hlt. destruct (decide (limit < d)) as [|Hge]; [by left|right].
    assert (limit + 1 - d < foldr Nat.max 1 (map json_depth cs)) as Hm by lia.
    apply max_fold_lt in Hm as [Hm|Hm]; [lia|].
    apply Exists_exists in Hm as (n & Hn & Hlt').
    apply list_elem_of_fmap in Hn as (c & -> & Hc').
    exists (c, S d). split; [by eexists|]. unfold over. simpl.
    destruct (json_children c) eqn:Ec; [apply Nat.ltb_lt; lia|].
    rewrite (json_depth_scalar _ Ec) in Hlt'. lia.
  - intros [Hlt|(vd & (c & -> & Hc') & Ho)].
    + enough (0 < foldr Nat.max 1 (map json_depth cs)) by lia.
      apply max_fold_lt. lia.
    + unfold over in Ho. simpl in Ho. destruct (json_children c); [|done].
      apply Nat.ltb_lt in Ho.
      enough (limit + 1 - d < foldr Nat.max 1 (map json_depth cs)) by lia.
      apply max_fold_lt. right. apply Exists_exists. exists (json_depth c).
      pose proof (json_depth_pos c). split; [by apply list_elem_of_fmap_2|lia].
Qed.

Definition stack_size (stack : list (json * nat)) : nat := list_sum (map (fun vd => json_size vd.1) stack).

Lemma stack_size_app s t : stack_size (s ++ t) = stack_size s + stack_size t.
Proof. unfold stack_size. by rewrite map_app, list_sum_app. Qed.

Lemma list_sum_rev l : list_sum (rev l) = list_sum l.
Proof. induction l as [|x l IH]; simpl; [done|]. rewrite list_sum_app, IH. simpl. lia. Qed.

Lemma stack_size_children d cs :
  stack_size (rev (map (fun c => (c, d)) cs)) = list_sum (map json_size cs).
Proof. unfold stack_size. rewrite map_rev, list_sum_rev, map_map. done. Qed.

Lemma depth_loop_spec fuel limit stack :
  stack_size stack < fuel -> Forall (fun vd => 2 <= vd.2) stack ->
  depth_loop fuel limit stack = existsb (over limit) stack.
Proof.
  revert stack. induction fuel as [|fuel IH]; intros stack Hs Hd; [lia|].
  destruct stack as [|[v d] rest]; [done|]. simpl depth_loop.
  apply Forall_cons in Hd as [Hd Hrest]. simpl in Hd.
  unfold stack_size in Hs. simpl in Hs. fold (stack_size rest) in Hs.
  destruct (json_children v) as [cs|] eqn:Hc.
  - cbn [existsb]. rewrite (over_container _ _ _ _ Hc Hd).
    destruct (limit <? d)%nat; [done|]. rewrite IH.
    + rewrite existsb_app. f_equal. apply existsb_perm. symmetry. apply Permutation_rev.
    + rewrite stack_size_app, stack_size_children. rewrite (json_size_children _ _ Hc) in Hs. lia.
    + apply Forall_app. split; [|done]. apply Forall_rev, Forall_fmap, Forall_forall.
      intros x _. simpl. lia.
  - rewrite IH; [|pose proof (json_size_pos v); lia|done].
    cbn [existsb]. unfold over at 2. simpl. by rewrite Hc.
Qed.

(** The explicit-stack depth check computes the nesting depth test: it
    stops with [true] exactly when the document is deeper than the limit, and it
    always terminates within the number of nodes. *)
Theorem exceeds_depth_correct v limit :
  1 <= limit -> exceeds_depth v limit = (limit <? json_depth v)%nat.
Proof.
  intros Hl. unfold exceeds_depth. rewrite depth_loop_spec.
  - simpl. rewrite orb_false_r. unfold over. simpl.
    destruct (json_children v) eqn:Hc.
    + apply eq_iff_eq_true. rewrite !Nat.ltb_lt. lia.
    + rewrite (json_depth_scalar _ Hc). symmetry. apply Nat.ltb_ge. lia.
  - unfold stack_size. simpl. lia.
  - repeat constructor.
Qed.


(** ** Reading back what was written *)

Lemma split_last_app {A} (l : list A) x : split_last (l ++ [x]) = Some (l, x).
Proof. induction l as [|y l IH]; simpl; [done|]. by rewrite IH. Qed.

Lemma split_last_some {A} (l init : list A) x : split_last l = Some (init, x) -> l = init ++ [x].
Proof.
  revert init. induction l as [|y l IH]; intros init; simpl; [done|].
  destruct (split_last l) as [[i z]|] eqn:E.
  - intros [= <- ->]. simpl. by rewrite (IH i).
  - intros [= <- ->]. destruct l; simpl in E; [done|]. by destruct (split_last l) as [[]|].
Qed.

Lemma split_last_none {A} (l : list A) : split_last l = None -> l = [].
Proof. destruct l as [|x l]; simpl; [done|]. by destruct (split_last l) as [[]|]. Qed.

Lemma get_concrete_app root p q :
  get_concrete root (p ++ q) =
  match get_concrete root p with Some v => get_concrete v q | None => None end.
Proof.
  revert root. induction p as [|seg p IH]; intros root; simpl; [done|].
  destruct (segment_get root seg); [apply IH|done].
Qed.

Lemma map_get_replace k k' v m :
  map_get k' (map_replace k v m)
  = if String.eqb k' k then (match map_get k m with Some _ => Some v | None => None end)
    else map_get k' m.
Proof.
  induction m as [|[k0 v0] m IH]; simpl; [by destruct (String.eqb k' k)|].
  destruct (String.eqb_spec k k0) as [->|Hne]; simpl.
  - by destruct (String.eqb k' k0).
  - rewrite IH. destruct (String.eqb_spec k' k0) as [->|]; [|done].
    destruct (String.eqb_spec k0 k); congruence.
Qed.

Lemma vec_get_some {A} (l : list A) i x :
  vec_get l i = Some x <-> exists n, vec_index l i = Some n /\ l !! n = Some x.
Proof. unfold vec_get. destruct (vec_index l i); naive_solver. Qed.

Lemma vec_get_insert {A} (l : list A) i j n x :
  vec_index l i = Some n ->
  vec_get (<[n := x]> l) j = if decide (i = j) then Some x else vec_get l j.
Proof.
  intros Hi. pose proof (vec_index_some _ _ _ Hi) as [Hn Hz].
  unfold vec_get, vec_index. rewrite length_insert. destruct (_ && _)%Z eqn:E.
  - split_bools. case_decide as Hd; subst.
    + rewrite Nat2Z.id. by rewrite list_lookup_insert_eq.
    + rewrite list_lookup_insert_ne; [done|]. lia.
  - case_decide as Hd; [|done]. subst. exfalso.
    apply andb_false_iff in E as [E|E]; [apply Z.leb_gt in E|apply Z.ltb_ge in E]; lia.
Qed.

(** One step of a write, seen by a reader at the same level. *)
Lemma segment_get_modify seg rest f root root' :
  modify_at (seg :: rest) f root = Some root' ->
  exists child child', segment_get root seg = Some child
    /\ modify_at rest f child = Some child'
    /\ segment_get root' seg = Some child'
    /\ forall seg', segment_get root' seg' = segment_get root seg'
                 \/ (segment_get root seg' = Some child /\ segment_get root' seg' = Some child').
Proof.
  simpl. destruct root as [| | | |items|m]; try done.
  - destruct (parse_usize seg) as [i|] eqn:Ep; [|done].
    destruct (vec_index items i) as [n|] eqn:Ei; [|done].
    destruct (items !! n) as [child|] eqn:El; [|done].
    destruct (modify_at rest f child) as [child'|] eqn:Em; [|done]. intros [= <-].
    exists child, child'. simpl. rewrite Ep.
    assert (vec_get items i = Some child) as Hg by (apply vec_get_some; eauto).
    split; [done|]. split; [done|]. split; [rewrite (vec_get_insert _ _ _ _ _ Ei); by case_decide|].
    intros seg'. destruct (parse_usize seg') as [j|]; [|by left].
    rewrite (vec_get_insert _ _ _ _ _ Ei). case_decide; [|by left]. subst. by right.
  - destruct (map_get seg m) as [child|] eqn:Eg; [|done].
    destruct (modify_at rest f child) as [child'|] eqn:Em; [|done]. intros [= <-].
    exists child, child'. simpl. rewrite map_get_replace, String.eqb_refl, Eg.
    repeat (split; [done|]). intros seg'. rewrite map_get_replace, Eg.
    destruct (String.eqb_spec seg' seg) as [->|]; [by right|by left].
Qed.

Lemma set_leaf_read leaf v cur cur' :
  set_leaf leaf v cur = Some cur' -> segment_get cur' leaf = Some v.
Proof.
  destruct cur as [| | | |items|m]; simpl; try done.
  - destruct (parse_usize leaf) as [i|] eqn:Ep; [|done].
    destruct (vec_index items i) as [n|] eqn:Ei; [|done]. intros [= <-]. simpl. rewrite Ep.
    rewrite (vec_get_insert _ _ _ _ _ Ei). by case_decide.
  - intros [= <-]. simpl. by rewrite map_get_insert, String.eqb_refl.
Qed.

Lemma modify_at_read parents f root root' leaf v :
  modify_at parents f root = Some root' ->
  (forall cur cur', f cur = Some cur' -> segment_get cur' leaf = v) ->
  get_concrete root' (parents ++ [leaf]) = v.
Proof.
  intros Hm Hf. revert root root' Hm. induction parents as [|seg parents IH]; intros root root' Hm.
  - simpl. rewrite (Hf _ _ Hm). by destruct v.
  - destruct (segment_get_modify _ _ _ _ _ Hm) as (c & c' & _ & Hm' & Hs & _).
    simpl. rewrite Hs. eauto.
Qed.

Lemma set_get root path v root' :
  set_concrete root path v = Some root' -> get_concrete root' path = Some v.
Proof.
  unfold set_concrete. destruct (split_last path) as [[parents leaf]|] eqn:E.
  - apply split_last_some in E as ->. intros Hm. eapply modify_at_read; [done|].
    intros; by eapply set_leaf_read.
  - apply split_last_none in E as ->. by intros [= <-].
Qed.

(** ** Bounds of the expansion *)

Lemma walk_each_inv {A S} (step : nat -> A -> S -> option S) (I : S -> Prop) i items st st' :
  (forall i x st st', step i x st = Some st' -> I st -> I st') ->
  walk_each step i items st = Some st' -> I st -> I st'.
Proof.
  intros Hstep. revert i st. induction items as [|x items IH]; intros i st; simpl; [by intros [= ->]|].
  destruct (step i x st) eqn:E; [|done]. eauto.
Qed.

Lemma field_walk_bound fuel value segs prefix out out' :
  field_walk fuel value segs prefix out = Some out' ->
  (len_Z out <= MAX_EXPANDED_PATHS + 1)%Z -> (len_Z out' <= MAX_EXPANDED_PATHS + 1)%Z.
Proof.
  revert value segs prefix out out'.
  induction fuel as [|fuel IH]; intros value segs prefix out out'; [done|]. cbn [field_walk].
  destruct (Z.ltb_spec MAX_EXPANDED_PATHS (len_Z out)) as [|Hle]; [done|].
  destruct segs as [|seg rest].
  { intros [= <-] _. unfold len_Z in *. rewrite length_app. simpl. lia. }
  destruct value as [| | | |items|m]; try (destruct (segment_get _ _); [apply IH|by intros [= <-]]).
  destruct (parse_usize seg) as [idx|].
  - destruct (vec_get items idx); [apply IH|by intros [= <-]].
  - intros E. refine (walk_each_inv _ (fun o => (len_Z o <= MAX_EXPANDED_PATHS + 1)%Z) _ _ _ _ _ E).
    intros i x st st' Hx. by eapply IH.
Qed.

(** A list of elements that each contribute one path. *)
Lemma walk_each_one_path {A} (step : nat -> A -> list string -> option (list string)) i items out :
  (forall i x out, x ∈ items -> (len_Z out <= MAX_EXPANDED_PATHS)%Z ->
     exists p, step i x out = Some (out ++ [p])) ->
  (len_Z out + len_Z items <= MAX_EXPANDED_PATHS + 1)%Z ->
  exists out', walk_each step i items out = Some out' /\ len_Z out' = (len_Z out + len_Z items)%Z.
Proof.
  revert i out. induction items as [|x items IH]; intros i out Hstep Hb; simpl.
  - exists out. unfold len_Z. simpl. split; [done|lia].
  - unfold len_Z in *. simpl in *.
    destruct (Hstep i x out) as [p ->]; [set_solver|unfold len_Z; lia|].
    destruct (IH (S i) (out ++ [p])) as (out' & -> & E);
      [intros; apply Hstep; set_solver|rewrite length_app; simpl; lia|].
    exists out'. split; [done|]. rewrite length_app in E. simpl in E. lia.
Qed.

Lemma field_walk_object_step fuel k v rest prefix out :
  (len_Z out <= MAX_EXPANDED_PATHS)%Z ->
  field_walk (S fuel) (JObject [(k, v)]) (k :: rest) prefix out
  = field_walk fuel v rest (join prefix k) out.
Proof.
  intros Hb. cbn [field_walk]. destruct (Z.ltb_spec MAX_EXPANDED_PATHS (len_Z out)); [lia|].
  cbn [segment_get map_get]. by rewrite String.eqb_refl.
Qed.

Lemma field_walk_leaf fuel v prefix out :
  (len_Z out <= MAX_EXPANDED_PATHS)%Z -> field_walk (S fuel) v [] prefix out = Some (out ++ [prefix]).
Proof.
  intros Hb. cbn [field_walk]. by destruct (Z.ltb_spec MAX_EXPANDED_PATHS (len_Z out)); [lia|].
Qed.

Lemma field_walk_fanout fuel items seg rest prefix out :
  (len_Z out <= MAX_EXPANDED_PATHS)%Z -> parse_usize seg = None ->
  field_walk (S fuel) (JArray items) (seg :: rest) prefix out
  = walk_each (fun i item => field_walk fuel item (seg :: rest) (join prefix (show_nat i))) 0 items out.
Proof.
  intros Hb Hp. cbn [field_walk]. destruct (Z.ltb_spec MAX_EXPANDED_PATHS (len_Z out)); [lia|].
  by rewrite Hp.
Qed.

Definition wide_doc (n : nat) : json :=
  JObject [("rows", JArray (replicate n (JObject [("ssn", JNull)])))].

(** The plain expansion stops fan-out at one path past
    [MAX_EXPANDED_PATHS]: it never returns more than that, and a document with one
    element too many is accepted, not refused. (The redaction walk refuses it.) *)
Theorem expand_field_paths_bound :
  (forall root path out, expand_field_paths root path = Some out ->
     (len_Z out <= MAX_EXPANDED_PATHS + 1)%Z)
  /\ exists out, expand_field_paths (wide_doc (Z.to_nat (MAX_EXPANDED_PATHS + 1))) "rows.ssn" = Some out
     /\ len_Z out = (MAX_EXPANDED_PATHS + 1)%Z.
Proof.
  split.
  - intros root path out E. eapply field_walk_bound; [exact E|]. done.
  - unfold expand_field_paths, wide_doc. set (n := Z.to_nat (MAX_EXPANDED_PATHS + 1)).
    change (split "." "rows.ssn") with ["rows"; "ssn"].
    remember (S MAX_FANOUT_DEPTH) as fuel eqn:Hf.
    assert (exists f, fuel = S (S (S (S f)))) as [f ->] by (exists 125; subst; done). clear Hf.
    rewrite field_walk_object_step by done.
    rewrite field_walk_fanout by done.
    destruct (walk_each_one_path
      (fun i item => field_walk (S (S f)) item ["ssn"] (join (join "" "rows") (show_nat i)))
      0 (replicate n (JObject [("ssn", JNull)])) []) as (out & E & Hl).
    + intros i x out Hx Hb. apply elem_of_replicate in Hx as [-> _].
      exists (join (join (join "" "rows") (show_nat i)) "ssn").
      rewrite field_walk_object_step by done. by rewrite field_walk_leaf.
    + unfold len_Z. rewrite length_replicate. unfold n. rewrite Z2Nat.id by done.
      cbn [length]. lia.
    + exists out. split; [done|]. rewrite Hl. unfold len_Z. rewrite length_replicate.
      unfold n. rewrite Z2Nat.id by done. done.
Qed.
