(* ===== verification/Redaction.v ===== *)
(** * Redaction reaches every field it names

    A declarative reading of a redaction path, and the proof that the bounded walk
    of [expand_for_pipeline] computes it; then what a redaction leaves behind. *)

From Stdlib Require Import Ascii String.
From S2P Require Import Prelude RustStr F64 Json Platform Rules Step Paths.

Section Matches.
Context `{Platform}.

(** [matches v segs p]: below [v], the pattern [segs] names the concrete path [p].
    [**] stands for any number of steps, an object key is compared without case, a
    numeric segment indexes an array, and any other segment passes through one. *)
Inductive matches : json -> list string -> list string -> Prop :=
| m_leaf v : matches v [] []
| m_star_here v rest p : matches v rest p -> matches v ("**" :: rest) p
| m_star_object m k c rest p :
    (k, c) ∈ m -> matches c ("**" :: rest) p -> matches (JObject m) ("**" :: rest) (k :: p)
| m_star_array items i c rest p :
    items !! i = Some c -> matches c ("**" :: rest) p ->
    matches (JArray items) ("**" :: rest) (show_nat i :: p)
| m_key m k c seg rest p :
    seg <> "**" -> (k, c) ∈ m -> str_to_lowercase k = str_to_lowercase seg ->
    matches c rest p -> matches (JObject m) (seg :: rest) (k :: p)
| m_index items seg n c rest p :
    seg <> "**" -> parse_usize seg = Some n -> vec_get items n = Some c ->
    matches c rest p -> matches (JArray items) (seg :: rest) (seg :: p)
| m_fanout items seg i c rest p :
    seg <> "**" -> parse_usize seg = None -> items !! i = Some c ->
    matches c (seg :: rest) p -> matches (JArray items) (seg :: rest) (show_nat i :: p).

(** A step of the walk appended, under [prefix], exactly the paths satisfying [R]. *)
Definition adds (prefix : list string) (st st' : walk_state) (R : list string -> Prop) : Prop :=
  exists found, st'.2 = st.2 ++ map (app prefix) found /\ forall p, p ∈ found <-> R p.

Lemma adds_nothing prefix b b' out (R : list string -> Prop) :
  (forall p, ~ R p) -> adds prefix (b, out) (b', out) R.
Proof. intros Hn. exists []. simpl. rewrite app_nil_r. set_solver. Qed.

Lemma adds_trans prefix st1 st2 st3 (R1 R2 : list string -> Prop) :
  adds prefix st1 st2 R1 -> adds prefix st2 st3 R2 ->
  adds prefix st1 st3 (fun p => R1 p \/ R2 p).
Proof.
  intros (f1 & E1 & H1) (f2 & E2 & H2). exists (f1 ++ f2).
  rewrite E2, E1, map_app, app_assoc. split; [done|].
  intros p. by rewrite elem_of_app, H1, H2.
Qed.

Lemma adds_iff prefix st st' (R R' : list string -> Prop) :
  (forall p, R p <-> R' p) -> adds prefix st st' R -> adds prefix st st' R'.
Proof. intros HR (f & E & Hf). exists f. split; [done|]. intros p. by rewrite Hf. Qed.

(** Adding under a longer prefix is adding, under the shorter one, the same paths
    with the extra segment in front. *)
Lemma adds_descend prefix key st st' R :
  adds (prefix ++ [key]) st st' R ->
  adds prefix st st' (fun p => exists p', p = key :: p' /\ R p').
Proof.
  intros (f & E & Hf). exists (map (cons key) f). split.
  - rewrite E. f_equal. rewrite map_map. apply map_ext. intros p. by rewrite <- app_assoc.
  - intros p. rewrite list_elem_of_fmap. setoid_rewrite Hf. done.
Qed.

Lemma adds_budget prefix b b1 out st' R :
  adds prefix (b, out) st' R -> adds prefix (b1, out) st' R.
Proof. done. Qed.

Lemma walk_each_adds {A} (step : nat -> A -> walk_state -> option walk_state) prefix
    (Q : nat -> A -> list string -> Prop) items i0 st st' :
  (forall i x st st', step i x st = Some st' -> adds prefix st st' (Q i x)) ->
  walk_each step i0 items st = Some st' ->
  adds prefix st st' (fun p => exists j x, items !! j = Some x /\ Q (i0 + j) x p).
Proof.
  intros Hstep. revert i0 st. induction items as [|x items IH]; intros i0 st; simpl.
  - intros [= <-]. destruct st. apply adds_nothing. set_solver.
  - destruct (step i0 x st) as [st1|] eqn:E; [|done]. intros Hw.
    apply Hstep in E. apply IH in Hw. eapply adds_iff, adds_trans; [|done..].
    intros p. split.
    + intros [Hq|(j & y & Hj & Hq)].
      * exists 0, x. rewrite Nat.add_0_r. done.
      * exists (S j), y. by rewrite Nat.add_succ_r.
    + intros ([|j] & y & Hj & Hq); simpl in Hj; simplify_eq.
      * left. by rewrite Nat.add_0_r in Hq.
      * right. exists j, y. by rewrite Nat.add_succ_r in Hq.
Qed.

(** The walk finds exactly the matching paths. *)
Lemma redact_walk_adds fuel value segs prefix st st' :
  redact_walk fuel value segs prefix st = Some st' -> adds prefix st st' (matches value segs).
Proof.
  revert value segs prefix st st'.
  induction fuel as [|fuel IH]; intros value segs prefix [b out] st'; [done|]. cbn [redact_walk].
  destruct (_ || _)%Z; [done|]. destruct segs as [|seg rest].
  { destruct (_ =? _)%Z; [done|]. intros [= <-]. exists [[]]. simpl. rewrite app_nil_r.
    split; [done|]. intros p. rewrite list_elem_of_singleton. split; [intros ->; constructor|].
    by inversion 1. }
  destruct (String.eqb_spec seg "**") as [->|Hns].
  - destruct (redact_walk fuel value rest prefix _) as [st1|] eqn:E1; [|done].
    apply IH in E1. apply (adds_budget _ _ b) in E1.
    destruct value as [| | | |items|m]; intros E2; simplify_eq;
      try (eapply adds_iff; [|exact E1]; intros p; split; [by constructor|]; by inversion 1).
    + apply (walk_each_adds _ prefix
        (fun i c p => exists p', p = show_nat i :: p' /\ matches c ("**" :: rest) p')) in E2.
      2: { intros i c s1 s2 E. apply adds_descend. by apply IH. }
      eapply adds_iff; [|exact (adds_trans _ _ _ _ _ _ E1 E2)]. intros p. simpl. split.
      * intros [?|(j & c & Hj & p' & -> & Hm)]; by econstructor.
      * inversion 1; subst; [by left|right; naive_solver..].
    + apply (walk_each_adds _ prefix
        (fun _ kv p => exists p', p = kv.1 :: p' /\ matches kv.2 ("**" :: rest) p')) in E2.
      2: { intros i c s1 s2 E. apply adds_descend. by apply IH. }
      eapply adds_iff; [|exact (adds_trans _ _ _ _ _ _ E1 E2)]. intros p. simpl. split.
      * intros [?|(j & [k c] & Hj & p' & -> & Hm)]; [by constructor|].
        eapply m_star_object; [by eapply list_elem_of_lookup_2|done].
      * inversion 1 as [|? ? ? Hm|? k c ? p' Hin Hm| |? ? ? ? ? ? Hne| |]; subst; [by left| |done].
        right. apply list_elem_of_lookup in Hin as [j Hj]. exists j, (k, c). eauto.
  - destruct value as [| | | |items|m]; intros E2; simplify_eq;
      try (apply adds_nothing; intros p; by inversion 1).
    + destruct (parse_usize seg) as [n|] eqn:Ep.
      * destruct (vec_get items n) as [c|] eqn:Ev.
        -- apply IH, adds_descend, (adds_budget _ _ b) in E2.
           eapply adds_iff; [|exact E2]. intros p. split.
           ++ intros (p' & -> & Hm). by eapply m_index.
           ++ inversion 1; subst; try done; try congruence.
              exists p0. split; [done|]. congruence.
        -- simplify_eq. apply adds_nothing. intros p. inversion 1; subst; congruence.
      * apply (walk_each_adds _ prefix
          (fun i c p => exists p', p = show_nat i :: p' /\ matches c (seg :: rest) p')) in E2.
        2: { intros i c s1 s2 E. apply adds_descend. by apply IH. }
        apply (adds_budget _ _ b) in E2. eapply adds_iff; [|exact E2]. intros p. simpl. split.
        -- intros (j & c & Hj & p' & -> & Hm). by eapply m_fanout.
        -- inversion 1; subst; try done; try congruence. naive_solver.
    + apply (walk_each_adds _ prefix
        (fun _ kv p => str_to_lowercase kv.1 = str_to_lowercase seg
           /\ exists p', p = kv.1 :: p' /\ matches kv.2 rest p')) in E2.
      2: { intros i [k c] s1 s2 E. simpl in *.
           destruct (String.eqb_spec (str_to_lowercase k) (str_to_lowercase seg)) as [Hl|Hl].
           - apply IH, adds_descend in E. eapply adds_iff; [|exact E]. naive_solver.
           - simplify_eq. destruct s2. apply adds_nothing. naive_solver. }
      apply (adds_budget _ _ b) in E2. eapply adds_iff; [|exact E2]. intros p. simpl. split.
      * intros (j & [k c] & Hj & Hl & p' & -> & Hm).
        eapply m_key; eauto. by eapply list_elem_of_lookup_2.
      * inversion 1 as [| | | |? k c ? ? p' Hne Hin Hl Hm| |]; subst; try done.
        apply list_elem_of_lookup in Hin as [j Hj]. exists j, (k, c). eauto.
Qed.

Lemma dedup_elem l p : p ∈ dedup l <-> p ∈ l.
Proof.
  induction l as [|x l IH]; [done|]. destruct l as [|y l]; [done|].
  change (dedup (x :: y :: l)) with (if decide (x = y) then dedup (y :: l) else x :: dedup (y :: l)).
  case_decide as Hd; rewrite ?elem_of_cons, IH; set_solver.
Qed.

Lemma expand_redact_matches root path stages paths :
  existsb is_redact stages = true ->
  expand_for_pipeline root path stages = Some paths ->
  forall p, p ∈ paths <-> matches root (split "." path) p.
Proof.
  intros Hr. unfold expand_for_pipeline. rewrite Hr. cbn [negb].
  destruct (redact_walk _ _ _ _ _) as [[b out]|] eqn:E; [|done]. intros [= <-] p.
  apply redact_walk_adds in E as (found & Eo & Hf). cbn [snd] in Eo.
  rewrite (map_ext (app []) id), map_id in Eo by done. subst out.
  rewrite dedup_elem, merge_sort_Permutation. apply Hf.
Qed.

(** Redaction path expansion is sound and complete: whenever the bounded
    walk answers at all, the concrete paths it returns are exactly the ones the
    pattern names, [**] and case-insensitive keys included. No matching field is
    missed and no other field is touched. *)
Theorem redaction_paths_exact root path stages paths :
  existsb is_redact stages = true ->
  expand_for_pipeline root path stages = Some paths ->
  forall p, p ∈ paths <-> matches root (split "." path) p.
Proof. apply expand_redact_matches. Qed.

Lemma matches_resolves v segs p :
  json_wf v -> matches v segs p -> exists leaf, get_concrete v p = Some leaf.
Proof.
  intros Hwf Hm. induction Hm as [v|v rest p Hm IH|m k c rest p Hin Hm IH
    |items i c rest p Hi Hm IH|m k c seg rest p Hne Hin Hl Hm IH
    |items seg n c rest p Hne Hp Hv Hm IH|items seg i c rest p Hne Hp Hi Hm IH]; cbn.
  - by exists v.
  - auto.
  - apply json_wf_object in Hwf as [Hnd Hall]. rewrite (map_get_nodup _ _ _ Hnd Hin).
    rewrite Forall_forall in Hall. by apply IH, (Hall (k, c)).
  - apply json_wf_array in Hwf as [Hlen Hall].
    pose proof (lookup_lt_Some _ _ _ Hi) as Hlt.
    rewrite parse_show_nat by lia. unfold vec_get. rewrite vec_index_of_nat, Hi by done.
    rewrite Forall_forall in Hall. by eapply IH, Hall, list_elem_of_lookup_2.
  - apply json_wf_object in Hwf as [Hnd Hall]. rewrite (map_get_nodup _ _ _ Hnd Hin).
    rewrite Forall_forall in Hall. by apply IH, (Hall (k, c)).
  - apply json_wf_array in Hwf as [Hlen Hall]. rewrite Hp, Hv.
    apply vec_get_some in Hv as (j & _ & Hj).
    rewrite Forall_forall in Hall. by eapply IH, Hall, list_elem_of_lookup_2.
  - apply json_wf_array in Hwf as [Hlen Hall].
    pose proof (lookup_lt_Some _ _ _ Hi) as Hlt.
    rewrite parse_show_nat by lia. unfold vec_get. rewrite vec_index_of_nat, Hi by done.
    rewrite Forall_forall in Hall. by eapply IH, Hall, list_elem_of_lookup_2.
Qed.
End Matches.


(** ** What a scalar write leaves behind *)

Definition is_scalar (v : json) : bool :=
  match v with JArray _ | JObject _ => false | _ => true end.

(** The path holds no container. *)
Definition no_container (root : json) (p : list string) : Prop :=
  match get_concrete root p with Some v => is_scalar v = true | None => True end.

Lemma scalar_no_children v seg : is_scalar v = true -> segment_get v seg = None.
Proof. by destruct v. Qed.

Lemma scalar_get v p : is_scalar v = true -> get_concrete v p = Some v /\ p = [] \/ get_concrete v p = None.
Proof.
  intros Hs. destruct p as [|seg p]; [by left|right]. simpl. by rewrite scalar_no_children.
Qed.

Lemma set_leaf_frame leaf v cur cur' seg :
  set_leaf leaf v cur = Some cur' ->
  segment_get cur' seg = segment_get cur seg \/ segment_get cur' seg = Some v.
Proof.
  destruct cur as [| | | |items|m]; simpl; try done.
  - destruct (parse_usize leaf) as [i|]; [|done].
    destruct (vec_index items i) as [n|] eqn:Ei; [|done]. intros [= <-]. simpl.
    destruct (parse_usize seg) as [j|]; [|by left].
    rewrite (vec_get_insert _ _ _ _ _ Ei). case_decide; auto.
  - intros [= <-]. simpl. rewrite map_get_insert. destruct (String.eqb seg leaf); auto.
Qed.

Lemma modify_at_root parents f root root' :
  modify_at parents f root = Some root' ->
  (forall cur cur', f cur = Some cur' -> is_scalar cur = false) -> is_scalar root = false.
Proof. intros Hm Hf. destruct parents; simpl in Hm; [by eapply Hf|by destruct root]. Qed.

Lemma set_leaf_container leaf v cur cur' : set_leaf leaf v cur = Some cur' -> is_scalar cur = false.
Proof. by destruct cur. Qed.

(** After a scalar is written somewhere, a path that held no container holds what it
    held, or the scalar, or nothing. *)
Lemma set_scalar_frame root q v root' p :
  set_concrete root q v = Some root' -> is_scalar v = true -> no_container root p ->
  get_concrete root' p = get_concrete root p \/ get_concrete root' p = Some v
  \/ get_concrete root' p = None.
Proof.
  intros Hs Hv. unfold set_concrete in Hs.
  destruct (split_last q) as [[parents leaf]|]; [|simplify_eq; intros _; destruct (scalar_get root' p Hv); naive_solver].
  revert root root' p Hs. induction parents as [|seg parents IH]; intros root root' p Hs Hn.
  - destruct p as [|sp p]; simpl in *.
    { unfold no_container in Hn. simpl in Hn. apply set_leaf_container in Hs. congruence. }
    destruct (set_leaf_frame _ _ _ _ sp Hs) as [->| ->]; [by left|].
    right. destruct (scalar_get v p Hv) as [[-> _]| ->]; auto.
  - destruct p as [|sp p].
    { unfold no_container in Hn. simpl in Hn.
      apply modify_at_root in Hs; [congruence|]. intros; by eapply set_leaf_container. }
    destruct (segment_get_modify _ _ _ _ _ Hs) as (c & c' & _ & Hm & _ & Hf).
    simpl. destruct (Hf sp) as [->|[E E']]; [by left|]. rewrite E'. rewrite E.
    apply (IH c c'); [done|]. unfold no_container in *. simpl in Hn. by rewrite E in Hn.
Qed.
