(* ===== verification/Host.v ===== *)
(** * The host's side of an evaluation

    The evaluator calls plugins, PDPs, delegation and elicitation handlers
    through traits whose implementations live in the host, and runs parallel
    branches on an asynchronous runtime. All of it is the [Host] class: every
    theorem about the evaluator holds for every host.

    An answer may depend on anything the host keeps, including what concurrent
    branches did before. Each call therefore carries its [pos]ition in the
    evaluation, unique per call, and a host is a function of the position and of
    the arguments: whatever a stateful host answers in one run is the answer of
    some such function. *)

From Stdlib Require Import Ascii String.
From S2P Require Import Prelude RustStr F64 Json Platform Attributes Rules Step Paths.

(** The position of a call: the indices that lead to it, innermost first. *)
Definition pos : Type := list nat.

(** How a spawned PDP task ends ([tokio::spawn] of a [timeout]). *)
Inductive PdpTask : Type :=
| TaskReturned (r : result PdpDecision PdpError)
| TaskTimedOut
| TaskPanicked (join_err : string)
| TaskCancelled (join_err : string).

(** The runtime's choices when a set of tasks is joined: at each turn, which of
    the live tasks comes next, and whether an abort reached it first. *)
Definition schedule : Type := nat -> nat * bool.

Class Host := {
  (** [PluginInvoker::invoke]. *)
  plugin_invoke : pos -> string -> AttributeBag -> PluginInvocation ->
    result PluginOutcome PluginError;
  (** The join of the task that runs [PdpResolver::evaluate_structured]. *)
  pdp_evaluate : pos -> PdpCall -> AttributeBag -> StructuredInput -> PdpTask;
  (** [DelegationInvoker::delegate]. *)
  delegate : pos -> DelegateStep -> result DelegationOutcome DelegationError;
  (** [ElicitationInvoker]. *)
  elicit_dispatch : pos -> ElicitStep -> string -> result ElicitationDispatch ElicitationError;
  elicit_check : pos -> ElicitStep -> string -> result ElicitationStatus ElicitationError;
  elicit_validate : pos -> ElicitStep -> string -> result ElicitationValidation ElicitationError;
  (** Whether the task of a parallel branch panics, with the rendered payload. *)
  branch_panic : pos -> option string;
  (** The order in which the branches of a parallel block are joined. *)
  join_schedule : pos -> schedule;
}.

(** A host that grants everything, to run examples on. *)
Definition allow_host : Host := {|
  plugin_invoke := fun _ _ _ _ => Ok (mkPluginOutcome Allow [] None);
  pdp_evaluate := fun _ _ _ _ => TaskReturned (Ok (mkPdpDecision Allow []));
  delegate := fun _ _ => Ok (mkDelegationOutcome Allow [] None None);
  elicit_dispatch := fun _ _ _ => Ok (mkElicitationDispatch "e1" None None None);
  elicit_check := fun _ _ _ => Ok (StatusResolved Approved);
  elicit_validate := fun _ _ _ => Ok (mkElicitationValidation true None None None);
  branch_panic := fun _ => None;
  join_schedule := fun _ _ => (0, false);
|}.
