(* ===== verification/PipelineEval.v ===== *)
(** * Running a pipe chain ([evaluator.rs], [evaluate_pipeline])

    The stages of a field pipeline, left to right over one value. The four groups
    of stages of the source's [match] are four definitions, the loop is a fifth. *)

From Stdlib Require Import Ascii String.
From S2P Require Import Prelude RustStr F64 Json Platform Attributes Rules Step Eval Paths Host.

Inductive FieldOutcome : Type :=
| FPass
| FReplace (v : json)
| FOmit
| FDeny (reason : string) (stage_index : nat).

Record PipelineEvaluation : Type := mkPipelineEvaluation {
  pv_outcome : FieldOutcome;
  pv_taints : list TaintEvent;
}.

(** ** Checks on a value *)

(** [8 | 13 | 18 | 23 => '-'], a hexadecimal digit elsewhere. *)
Fixpoint uuid_bytes (i : nat) (s : string) : bool :=
  match s with
  | EmptyString => true
  | String b s' =>
      (if ((i =? 8) || (i =? 13) || (i =? 18) || (i =? 23))%nat
       then Ascii.eqb b "-" else is_ascii_hexdigit b) && uuid_bytes (S i) s'
  end.

Definition is_uuid_shape (s : string) : bool :=
  (String.length s =? 36)%nat && uuid_bytes 0 s.

Definition type_check (tc : TypeCheck) (v : json) : bool :=
  match tc with
  | TStr => is_string v
  | TInt => is_i64 v
  | TBool => is_boolean v
  | TFloat => is_f64 v || is_i64 v
  | TEmail => is_some_and (fun s => contains_char "@" s && contains_char "." s) (as_str v)
  | TUrl => is_some_and (fun s => starts_with "http://" s || starts_with "https://" s) (as_str v)
  | TUuid => is_some_and is_uuid_shape (as_str v)
  end.

Definition value_kind (v : json) : string :=
  match v with
  | JNull => "null"
  | JBool _ => "bool"
  | JNumber n => if number_is_i64 n then "int" else "float"
  | JString _ => "string"
  | JArray _ => "array"
  | JObject _ => "object"
  end.

Definition type_check_debug (tc : TypeCheck) : string :=
  match tc with
  | TStr => "Str" | TInt => "Int" | TBool => "Bool" | TFloat => "Float"
  | TEmail => "Email" | TUrl => "Url" | TUuid => "Uuid"
  end.

Definition REDACTED : json := JString "[REDACTED]".

(** [min.is_some_and(|m| n < m) || max.is_some_and(|m| n > m)]. *)
Definition outside (min max : option Z) (n : Z) : bool :=
  is_some_and (fun m => (n <? m)%Z) min || is_some_and (fun m => (m <? n)%Z) max.

(** [mask(keep_last)] on the characters of a string. *)
Definition mask_chars (keep_last : Z) (cs : list string) : list string :=
  let keep := Z.to_nat (Z.min keep_last (len_Z cs)) in
  let mask_count := length cs - keep in
  replicate mask_count "*" ++ drop mask_count cs.

Section Run.
Context `{Platform} `{Host}.

Definition value_for_hash (v : json) : string := json_to_string v.

(** What one stage does: go on with a value, whether it was replaced, and the taints
    so far, or return. *)
Inductive StageStep : Type :=
| Next (current : json) (replaced : bool) (taints : list TaintEvent)
| Return (ev : PipelineEvaluation).

Definition deny_stage (idx : nat) (reason : string) (taints : list TaintEvent) : StageStep :=
  Return (mkPipelineEvaluation (FDeny reason idx) taints).

(** [let Some(s) = current.as_str() else { deny }]. *)
Definition require_str (what : string) (idx : nat) (current : json) (taints : list TaintEvent)
    (k : string -> StageStep) : StageStep :=
  match as_str current with
  | Some s => k s
  | None =>
      deny_stage idx (what +:+ " requires string value, got " +:+ value_kind current) taints
  end.

Definition stage_type (tc : TypeCheck) (idx : nat) (current : json) (replaced : bool)
    (taints : list TaintEvent) : StageStep :=
  if type_check tc current then Next current replaced taints
  else deny_stage idx ("expected " +:+ type_check_debug tc +:+ ", got " +:+ value_kind current) taints.

Definition stage_length (min max : option Z) (idx : nat) (current : json) (replaced : bool)
    (taints : list TaintEvent) : StageStep :=
  require_str "len(...)" idx current taints (fun s =>
    let len := len_Z (chars s) in
    if outside min max len
    then deny_stage idx ("length " +:+ show_Z len +:+ " outside [" +:+ debug_option (option_map show_Z min)
           +:+ ", " +:+ debug_option (option_map show_Z max) +:+ "]") taints
    else Next current replaced taints).

Definition stage_range (min max : option Z) (idx : nat) (current : json) (replaced : bool)
    (taints : list TaintEvent) : StageStep :=
  match as_i64 current with
  | None => deny_stage idx ("range requires integer value, got " +:+ value_kind current) taints
  | Some n =>
      if outside min max n
      then deny_stage idx ("value " +:+ show_Z n +:+ " outside [" +:+ debug_option (option_map show_Z min)
             +:+ ", " +:+ debug_option (option_map show_Z max) +:+ "]") taints
      else Next current replaced taints
  end.

Definition stage_enum (values : list string) (idx : nat) (current : json) (replaced : bool)
    (taints : list TaintEvent) : StageStep :=
  require_str "enum(...)" idx current taints (fun s =>
    if existsb (fun v => String.eqb v s) values then Next current replaced taints
    else deny_stage idx ("value `" +:+ s +:+ "` not in enum " +:+ debug_str_list values) taints).

Definition stage_regex (pattern : string) (idx : nat) (current : json) (replaced : bool)
    (taints : list TaintEvent) : StageStep :=
  match regex_new pattern with
  | Err e => deny_stage idx ("invalid regex `" +:+ pattern +:+ "`: " +:+ e) taints
  | Ok is_match =>
      require_str "regex" idx current taints (fun s =>
        if is_match s then Next current replaced taints
        else deny_stage idx ("value did not match regex `" +:+ pattern +:+ "`") taints)
  end.

Definition stage_validate (name : string) (idx : nat) (taints : list TaintEvent) : StageStep :=
  deny_stage idx ("`validate(" +:+ name +:+ ")` is not implemented; use `regex(...)` or `run("
    +:+ name +:+ ")` instead") taints.

Definition stage_mask (keep_last : Z) (idx : nat) (current : json) (replaced : bool)
    (taints : list TaintEvent) : StageStep :=
  require_str "mask(...)" idx current taints (fun s =>
    Next (JString (of_chars (mask_chars keep_last (chars s)))) true taints).

Definition stage_redact (condition : option Expression) (bag : AttributeBag) (idx : nat)
    (current : json) (replaced : bool) (taints : list TaintEvent) : StageStep :=
  let should_redact :=
    match condition with None => Ok true | Some expr => eval_expression bag expr end in
  match should_redact with
  | Err err => deny_stage idx (unorderable_reason err) taints
  | Ok true => Next REDACTED true taints
  | Ok false => Next current replaced taints
  end.

Definition stage_hash (current : json) (taints : list TaintEvent) : StageStep :=
  Next (JString ("hash:" +:+ hex016 (default_hash (value_for_hash current)))) true taints.

Definition stage_plugin (p : pos) (name : string) (bag : AttributeBag) (field_name : string)
    (phase : DispatchPhase) (idx : nat) (current : json) (replaced : bool)
    (taints : list TaintEvent) : StageStep :=
  match plugin_invoke p name bag (InvokeField field_name current phase) with
  | Ok outcome =>
      let taints := taints ++ po_taints outcome in
      match po_decision outcome with
      | Allow =>
          match po_modified_value outcome with
          | Some new_value => Next new_value true taints
          | None => Next current replaced taints
          end
      | Deny reason _ =>
          deny_stage idx (match reason with
                          | Some r => r
                          | None => "plugin `" +:+ name +:+ "` denied"
                          end) taints
      end
  | Err e =>
      deny_stage idx ("plugin `" +:+ name +:+ "` error: " +:+ plugin_error_display e) taints
  end.

Definition stage_scan (kind : ScanKind) (current : json) (replaced : bool)
    (taints : list TaintEvent) : StageStep :=
  let '(label, redact) :=
    match kind with
    | PiiDetect => ("PII", false)
    | PiiRedact => ("PII", true)
    | InjectionScan => ("injection", false)
    end in
  let taints := taints ++ [mkTaint label [ScopeSession]] in
  if redact then Next REDACTED true taints else Next current replaced taints.

Definition run_stage (p : pos) (bag : AttributeBag) (field_name : string) (phase : DispatchPhase)
    (idx : nat) (stage : Stage) (current : json) (replaced : bool) (taints : list TaintEvent) :
    StageStep :=
  match stage with
  | StType tc => stage_type tc idx current replaced taints
  | StLength min max => stage_length min max idx current replaced taints
  | StRange min max => stage_range min max idx current replaced taints
  | StEnum values => stage_enum values idx current replaced taints
  | StRegex pattern => stage_regex pattern idx current replaced taints
  | StValidate name => stage_validate name idx taints
  | StMask keep_last => stage_mask keep_last idx current replaced taints
  | StRedact condition => stage_redact condition bag idx current replaced taints
  | StOmit => Return (mkPipelineEvaluation FOmit taints)
  | StHash => stage_hash current taints
  | StTaint label scopes => Next current replaced (taints ++ [mkTaint label scopes])
  | StPlugin name => stage_plugin p name bag field_name phase idx current replaced taints
  | StScan kind => stage_scan kind current replaced taints
  end.

(** The loop; the call of stage [idx] is at position [idx :: p]. *)
Fixpoint pipeline_loop (p : pos) (bag : AttributeBag) (field_name : string) (phase : DispatchPhase)
    (idx : nat) (stages : list Stage) (current : json) (replaced : bool)
    (taints : list TaintEvent) : PipelineEvaluation :=
  match stages with
  | [] => mkPipelineEvaluation (if replaced then FReplace current else FPass) taints
  | stage :: rest =>
      match run_stage (idx :: p) bag field_name phase idx stage current replaced taints with
      | Return ev => ev
      | Next current replaced taints =>
          pipeline_loop p bag field_name phase (S idx) rest current replaced taints
      end
  end.

Definition evaluate_pipeline (p : pos) (pipeline : Pipeline) (value : json) (bag : AttributeBag)
    (field_name : string) (phase : DispatchPhase) : PipelineEvaluation :=
  pipeline_loop p bag field_name phase 0 (stages pipeline) value false [].
End Run.

Example pipeline_examples :
  let ev := fun st v => @evaluate_pipeline ascii_platform allow_host [] (mkPipeline st) v ∅ "f" Pre in
  pv_outcome (ev [StMask 4%Z] (JString "123456789")) = FReplace (JString "*****6789")
  /\ pv_outcome (ev [StType TInt] (JString "x")) = FDeny "expected Int, got string" 0
  /\ pv_outcome (ev [StLength (Some 2%Z) (Some 3%Z)] (JString "abcd")) = FDeny "length 4 outside [Some(2), Some(3)]" 0
  /\ ev [StTaint "a" [ScopeSession]; StOmit; StHash] JNull
     = mkPipelineEvaluation FOmit [mkTaint "a" [ScopeSession]]
  /\ pv_outcome (ev [StType TUuid] (JString "123e4567-e89b-12d3-a456-426614174000")) = FPass.
Proof. vm_compute. repeat split. Qed.

(** ** What a pipe chain guarantees *)

(** ** Characters of a reassembled string *)

Definition char_wf (c : string) : Prop :=
  exists a t, c = String a t /\ string_forall is_continuation t = true.

(** Characters as [chars] yields them: only the first may start with a continuation
    byte (and only in a byte string that is not UTF-8). *)
Definition chars_wf (cs : list string) : Prop :=
  Forall char_wf cs /\ Forall (fun c => starts_with_continuation c = false) (tail cs).

Lemma chars_chars_wf s : chars_wf (chars s).
Proof.
  unfold chars_wf. induction s as [|a s [IH1 IH2]]; simpl; [done|].
  destruct (chars s) as [|c cs]; simpl.
  { split; [|done]. apply Forall_singleton. by exists a, "". }
  apply Forall_cons in IH1 as [(b & t & -> & Ht) IH1]. simpl in IH2.
  destruct (starts_with_continuation (String b t)) eqn:E; simpl in *.
  - split; [|done]. apply Forall_cons. split; [|done].
    exists a, (String b t). simpl. by rewrite E, Ht.
  - rewrite !Forall_cons. split; [|done]. split; [by exists a, ""|]. split; [by exists b, t|done].
Qed.

Lemma chars_cons a s :
  chars (String a s) = match chars s with
                       | [] => [String a ""]
                       | c :: cs => if starts_with_continuation c then String a c :: cs
                                    else String a "" :: c :: cs
                       end.
Proof. done. Qed.

Lemma chars_app_cont a t s :
  string_forall is_continuation t = true -> starts_with_continuation s = false ->
  chars (String a (t +:+ s)) = String a t :: chars s.
Proof.
  revert a. induction t as [|b t IH]; intros a Ht Hs.
  - change ("" +:+ s) with s. simpl. destruct s as [|b s]; [done|].
    simpl in Hs. pose proof (chars_chars_wf (String b s)) as [Hwf _].
    destruct (chars (String b s)) as [|c cs] eqn:E; [done|].
    assert (exists t', c = String b t') as [t' ->].
    { simpl in E. destruct (chars s) as [|c' cs']; [naive_solver|].
      destruct (starts_with_continuation c'); naive_solver. }
    simpl. by rewrite Hs.
  - simpl in Ht. apply andb_true_iff in Ht as [Hb Ht].
    rewrite string_app_cons, chars_cons, IH by done. simpl. by rewrite Hb.
Qed.

Lemma of_chars_head c cs :
  char_wf c -> starts_with_continuation (of_chars (c :: cs)) = starts_with_continuation c.
Proof. intros (a & t & -> & _). by rewrite of_chars_cons, string_app_cons. Qed.

Lemma chars_of_chars cs : chars_wf cs -> chars (of_chars cs) = cs.
Proof.
  intros [H1 H2]. induction cs as [|c cs IH]; [done|].
  apply Forall_cons in H1 as [(a & t & -> & Ht) H1]. simpl in H2.
  rewrite of_chars_cons, string_app_cons, chars_app_cont; [|done|].
  - f_equal. apply IH; [done|]. destruct cs; [done|]. by apply Forall_cons in H2 as [_ H2].
  - destruct cs as [|c cs]; [done|]. rewrite of_chars_head by (by apply Forall_cons in H1 as [? _]).
    by apply Forall_cons in H2 as [? _].
Qed.

Lemma mask_chars_wf n cs : chars_wf cs -> chars_wf (mask_chars n cs).
Proof.
  unfold mask_chars. set (k := length cs - _). intros [H1 H2]. split.
  - apply Forall_app. split; [|by apply Forall_drop].
    apply Forall_replicate. by exists "*"%char, "".
  - destruct k as [|k]; [done|]. simpl. apply Forall_app. split; [by apply Forall_replicate|].
    destruct cs as [|c cs]; [by rewrite drop_nil|]. simpl. by apply Forall_drop.
Qed.

Section Props.
Context `{Platform} `{Host}.

(** [mask(n)] shows the last [n] characters of a string and nothing else: the
    result has as many characters as the original, all but the last [n] are [*],
    and the last [n] are the original ones. *)
Theorem mask_shows_last p bag field phase keep s :
  exists m, evaluate_pipeline p (mkPipeline [StMask keep]) (JString s) bag field phase
            = mkPipelineEvaluation (FReplace (JString m)) []
  /\ length (chars m) = length (chars s)
  /\ forall i, i < length (chars s) ->
       chars m !! i = if (Z.of_nat i <? len_Z (chars s) - Z.max 0 keep)%Z then Some "*"
                      else chars s !! i.
Proof.
  eexists. split; [reflexivity|].
  rewrite chars_of_chars by apply mask_chars_wf, chars_chars_wf.
  unfold mask_chars, len_Z. set (n := length (chars s)).
  set (k := n - Z.to_nat (Z.min keep (Z.of_nat n))).
  assert (k <= n) by lia. split.
  - rewrite length_app, length_replicate, length_drop. lia.
  - intros i Hi. destruct (Z.ltb_spec (Z.of_nat i) (Z.of_nat n - Z.max 0 keep)).
    + rewrite lookup_app_l by (rewrite length_replicate; lia). apply lookup_replicate. split; [done|lia].
    + rewrite lookup_app_r by (rewrite length_replicate; lia).
      rewrite length_replicate, lookup_drop. f_equal. lia.
Qed.

(** ** Composition of stages *)

(** Every branch of every stage. *)
Ltac stage_cases st :=
  destruct st; simpl; unfold stage_type, stage_regex, stage_validate, stage_length, stage_range,
    stage_enum, stage_mask, stage_redact, stage_hash, stage_plugin, stage_scan, require_str, deny_stage;
  repeat case_match.

Lemma run_stage_taints p bag field phase idx st cur rep taints :
  match run_stage p bag field phase idx st cur rep taints with
  | Next _ _ t => taints `prefix_of` t
  | Return ev => taints `prefix_of` pv_taints ev
  end.
Proof.
  stage_cases st; simplify_eq/=; eauto using prefix_app_r, prefix_app_trans.
Qed.

Lemma pipeline_loop_taints p bag field phase idx sts cur rep taints :
  taints `prefix_of` pv_taints (pipeline_loop p bag field phase idx sts cur rep taints).
Proof.
  revert idx cur rep taints. induction sts as [|st sts IH]; intros idx cur rep taints; simpl; [done|].
  pose proof (run_stage_taints (idx :: p) bag field phase idx st cur rep taints) as Ht.
  destruct (run_stage _ _ _ _ _ _ _ _ _); [|done]. etrans; [exact Ht|apply IH].
Qed.

(** Only a [Next] with an untouched value reports a value that was not replaced. *)
Lemma run_stage_replaced p bag field phase idx st cur rep taints cur' rep' taints' :
  run_stage p bag field phase idx st cur rep taints = Next cur' rep' taints' ->
  (rep = true -> rep' = true) /\ (rep' = false -> cur' = cur).
Proof.
  stage_cases st; intros; simplify_eq/=; naive_solver.
Qed.

(** A returned evaluation never is a pass or a replacement. *)
Lemma run_stage_return p bag field phase idx st cur rep taints ev :
  run_stage p bag field phase idx st cur rep taints = Return ev ->
  pv_outcome ev = FOmit \/ exists reason, pv_outcome ev = FDeny reason idx.
Proof.
  stage_cases st; intros; simplify_eq/=; eauto.
Qed.

Definition is_final (o : FieldOutcome) : bool :=
  match o with FOmit | FDeny _ _ => true | FPass | FReplace _ => false end.

(** Running [sts ++ more] is running [sts] and then, unless that returned, [more]. *)
Lemma pipeline_loop_app p bag field phase idx sts more cur rep taints :
  (exists ev, (forall k, pipeline_loop p bag field phase idx (sts ++ k) cur rep taints = ev)
     /\ is_final (pv_outcome ev) = true
     /\ (forall reason i, pv_outcome ev = FDeny reason i -> idx <= i < idx + length sts))
  \/ exists cur' rep' taints',
     pipeline_loop p bag field phase idx (sts ++ more) cur rep taints
     = pipeline_loop p bag field phase (idx + length sts) more cur' rep' taints'
     /\ pipeline_loop p bag field phase idx sts cur rep taints
        = mkPipelineEvaluation (if rep' then FReplace cur' else FPass) taints'
     /\ (rep = true -> rep' = true).
Proof.
  revert idx cur rep taints. induction sts as [|st sts IH]; intros idx cur rep taints; simpl.
  { right. exists cur, rep, taints. by rewrite Nat.add_0_r. }
  destruct (run_stage (idx :: p) bag field phase idx st cur rep taints) as [c r t|ev] eqn:E.
  - destruct (IH (S idx) c r t) as [(ev & Hk & Hf & Hi)|(c' & r' & t' & E1 & E2 & Hr)].
    + left. exists ev. split; [done|]. split; [done|]. intros reason i Ei.
      specialize (Hi _ _ Ei). lia.
    + right. exists c', r', t'. split; [rewrite E1; f_equal; lia|]. split; [done|].
      apply run_stage_replaced in E as [? _]. auto.
  - left. exists ev. split; [done|]. apply run_stage_return in E as [->|[reason ->]].
    + split; [done|]. by intros.
    + split; [done|]. intros ? ? [= _ <-]. lia.
Qed.

(** A stage that denies or omits ends the chain: whatever is appended to it,
    the evaluation (outcome and taints) is the same, and the reported stage is one
    of the chain. *)
Theorem pipeline_halts p bag field phase sts more v ev :
  evaluate_pipeline p (mkPipeline sts) v bag field phase = ev ->
  is_final (pv_outcome ev) = true ->
  evaluate_pipeline p (mkPipeline (sts ++ more)) v bag field phase = ev
  /\ forall reason i, pv_outcome ev = FDeny reason i -> i < length sts.
Proof.
  unfold evaluate_pipeline. simpl. intros E Hf.
  destruct (pipeline_loop_app p bag field phase 0 sts more v false [])
    as [(ev' & Hk & _ & Hi)|(c & r & t & _ & E2 & _)].
  - assert (ev' = ev) as -> by (rewrite <- E, <- (Hk []); by rewrite app_nil_r).
    split; [apply Hk|]. intros reason i Ei. specialize (Hi _ _ Ei). lia.
  - rewrite E2 in E. subst ev. simpl in Hf. by destruct r.
Qed.

Lemma replaced_never_passes p bag field phase idx sts cur t :
  pv_outcome (pipeline_loop p bag field phase idx sts cur true t) <> FPass.
Proof.
  revert idx cur t. induction sts as [|st sts IH]; intros idx cur t; simpl; [done|].
  destruct (run_stage _ _ _ _ _ _ _ _ _) as [c r t'|e] eqn:E.
  - apply run_stage_replaced in E as [Hr _]. rewrite Hr by done. apply IH.
  - apply run_stage_return in E as [->|[? ->]]; done.
Qed.

(** The taints collected so far never influence the value. *)
Lemma run_stage_taints_irrelevant p bag field phase idx st cur rep t1 t2 :
  match run_stage p bag field phase idx st cur rep t1, run_stage p bag field phase idx st cur rep t2 with
  | Next c1 r1 _, Next c2 r2 _ => c1 = c2 /\ r1 = r2
  | Return e1, Return e2 => pv_outcome e1 = pv_outcome e2
  | _, _ => False
  end.
Proof. stage_cases st; by simplify_eq/=. Qed.

Lemma loop_taints_irrelevant p bag field phase idx sts cur rep t1 t2 :
  pv_outcome (pipeline_loop p bag field phase idx sts cur rep t1)
  = pv_outcome (pipeline_loop p bag field phase idx sts cur rep t2).
Proof.
  revert idx cur rep t1 t2. induction sts as [|st sts IH]; intros idx cur rep t1 t2; simpl; [done|].
  pose proof (run_stage_taints_irrelevant (idx :: p) bag field phase idx st cur rep t1 t2) as Hs.
  destruct (run_stage _ _ _ _ _ _ _ _ t1), (run_stage _ _ _ _ _ _ _ _ t2); try done.
  destruct Hs as [-> ->]. apply IH.
Qed.

(** An unconditional [redact] hides the value: the chain never passes it
    through, and the value it is replaced by is the same for all values the chain
    replaces, whatever stages (plugins included) come before or after. *)
Theorem redact_hides_value p bag field phase before after v1 v2 w1 :
  let ev v := pv_outcome (evaluate_pipeline p (mkPipeline (before ++ StRedact None :: after))
                v bag field phase) in
  ev v1 <> FPass
  /\ (ev v1 = FReplace w1 ->
      ev v2 = FReplace w1 \/ is_final (ev v2) = true).
Proof.
  intros ev.
  assert (Hev : forall v, is_final (ev v) = true \/ exists t,
    ev v = pv_outcome (pipeline_loop p bag field phase (S (length before)) after REDACTED true t)).
  { intros v. unfold ev, evaluate_pipeline. simpl.
    destruct (pipeline_loop_app p bag field phase 0 before (StRedact None :: after) v false [])
      as [(e & Hk & Hf & _)|(c & r & t & E & _)].
    - left. by rewrite Hk.
    - right. exists t. by rewrite E. }
  destruct (Hev v1) as [Hf|[t E]].
  - split; [by intros E; rewrite E in Hf|]. intros E. by rewrite E in Hf.
  - split; [rewrite E; apply replaced_never_passes|]. intros E1. destruct (Hev v2) as [|[t' E']]; [by right|].
    left. rewrite E', <- E1, E. apply loop_taints_irrelevant.
Qed.
(** ** Validators *)

(** The check a validator stage makes, read off the language's description of it. *)
Definition stage_accepts (st : Stage) (v : json) : bool :=
  match st with
  | StType tc => type_check tc v
  | StLength min max => is_some_and (fun s => negb (outside min max (len_Z (chars s)))) (as_str v)
  | StRange min max => is_some_and (fun n => negb (outside min max n)) (as_i64 v)
  | StEnum values => is_some_and (fun s => existsb (fun v => String.eqb v s) values) (as_str v)
  | StRegex pattern =>
      match regex_new pattern with
      | Ok is_match => is_some_and is_match (as_str v)
      | Err _ => false
      end
  | _ => false
  end.

Definition is_validator (st : Stage) : bool :=
  match st with
  | StType _ | StLength _ _ | StRange _ _ | StEnum _ | StRegex _ | StValidate _ => true
  | _ => false
  end.

Lemma validator_step p bag field phase idx st cur rep t :
  is_validator st = true ->
  if stage_accepts st cur then run_stage p bag field phase idx st cur rep t = Next cur rep t
  else exists reason, run_stage p bag field phase idx st cur rep t = deny_stage idx reason t.
Proof.
  intros Hv. destruct st; try done; simpl; unfold stage_type, stage_regex, stage_validate,
    stage_length, stage_range, stage_enum, require_str, is_some_and; repeat case_match;
    simplify_eq/=; split_bools; simplify_eq/=; eauto; congruence.
Qed.

(** A chain of validators passes a value exactly when every one of them
    accepts it, unchanged and without taints; otherwise it denies at the first that
    does not. *)
Theorem validators_exact p bag field phase sts v :
  forallb is_validator sts = true ->
  match list_find (fun st => stage_accepts st v = false) sts with
  | None => evaluate_pipeline p (mkPipeline sts) v bag field phase = mkPipelineEvaluation FPass []
  | Some (i, _) => exists reason,
      evaluate_pipeline p (mkPipeline sts) v bag field phase
      = mkPipelineEvaluation (FDeny reason i) []
  end.
Proof.
  intros Hall. unfold evaluate_pipeline. cbn [stages].
  enough (forall idx, match list_find (fun st => stage_accepts st v = false) sts with
    | None => pipeline_loop p bag field phase idx sts v false [] = mkPipelineEvaluation FPass []
    | Some (i, _) => exists reason, pipeline_loop p bag field phase idx sts v false []
        = mkPipelineEvaluation (FDeny reason (idx + i)) []
    end) as Hx by exact (Hx 0).
  induction sts as [|st sts IH]; intros idx; [done|].
  cbn [forallb] in Hall. apply andb_true_iff in Hall as [Hv Hall]. specialize (IH Hall).
  pose proof (validator_step (idx :: p) bag field phase idx st v false [] Hv) as Hs.
  cbn [list_find pipeline_loop]. destruct (stage_accepts st v).
  - rewrite decide_False by done. rewrite Hs. specialize (IH (S idx)).
    destruct (list_find _ sts) as [[i s]|]; simpl; [|done]. destruct IH as [reason ->].
    exists reason. do 2 f_equal. lia.
  - rewrite decide_True by done. destruct Hs as [reason ->]. exists reason. simpl. do 2 f_equal. lia.
Qed.
End Props.


