(* ===== verification/Branches.v ===== *)
(** * Concurrent branches ([ppe-orchestration/src/lib.rs])

    [run_branches]: spawn a list of branches, join them as they end, abort the rest
    once one of them denies, and return one outcome per branch in input order. The
    runtime's choices are a [schedule]; the theorems hold for every schedule. *)

From Stdlib Require Import Ascii String.
From S2P Require Import Prelude Host.

Record BranchConfig : Type := mkBranchConfig {
  timeout_per_branch : option Z;
  short_circuit_on_deny : bool;
}.

Inductive BranchOutcome (T : Type) : Type :=
| Completed (v : T)
| TimedOut
| Aborted
| Panicked (payload : string).
Arguments Completed {T} v.
Arguments TimedOut {T}.
Arguments Aborted {T}.
Arguments Panicked {T} payload.

Definition completed {T} (o : BranchOutcome T) : option T :=
  match o with Completed v => Some v | TimedOut | Aborted | Panicked _ => None end.

(** A branch's future: what it ends with and after how long; [Dropped] is a task the
    runtime cancels before it ends, without a call of [abort_all]. *)
Inductive FutureEnd (T : Type) : Type :=
| Yields (v : T)
| Panics (payload : string)
| Dropped.
Arguments Yields {T} v.
Arguments Panics {T} payload.
Arguments Dropped {T}.

Record Branch (T : Type) : Type := mkBranch { br_end : FutureEnd T; br_time : Z }.
Arguments mkBranch {T} br_end br_time.
Arguments br_end {T} b : rename.
Arguments br_time {T} b : rename.

Section Run.
Context {T : Type}.

(** The body of [set.spawn], the future under its optional [timeout]. *)
Definition timed {A} (config : BranchConfig) (b : Branch T) (timed_out ended : A) : A :=
  match timeout_per_branch config with
  | None => ended
  | Some dur => if (dur <? br_time b)%Z then timed_out else ended
  end.

(** What a branch's slot holds when no abort reached its task: a task the runtime drops
    joins with an error that is not a panic, so its slot is filled with [Aborted]. *)
Definition task_outcome (config : BranchConfig) (b : Branch T) : BranchOutcome T :=
  match br_end b with
  | Yields v => timed config b TimedOut (Completed v)
  | Panics payload => timed config b TimedOut (Panicked payload)
  | Dropped => Aborted
  end.

Record JoinState : Type := mkJoin {
  js_live : list (nat * BranchOutcome T);   (* the tasks of the [JoinSet], by input index;
                                               [Aborted]: a task the runtime cancels *)
  js_done : gmap nat (BranchOutcome T);
  js_aborted : bool;
}.

(** The [n]-th remaining task of the set and the others. *)
Fixpoint take_nth {A} (n : nat) (l : list A) : option (A * list A) :=
  match l with
  | [] => None
  | x :: l' =>
      match n with
      | O => Some (x, l')
      | S n' => match take_nth n' l' with Some (y, r) => Some (y, x :: r) | None => None end
      end
  end.

Definition cancelled (o : BranchOutcome T) : bool :=
  match o with Aborted => true | Completed _ | TimedOut | Panicked _ => false end.

(** One turn of the [while let Some(joined) = set.join_next_with_id()] loop: which
    live task is joined, and whether, once [abort_all] was called, the abort came
    before the task's own end. A task that had already ended keeps its outcome; a task
    that was cancelled leaves no entry. *)
Definition join_next (config : BranchConfig) (is_deny : T -> bool) (choice : nat * bool)
    (s : JoinState) : JoinState :=
  match take_nth (choice.1 mod length (js_live s)) (js_live s) with
  | None => s
  | Some ((idx, outcome), live) =>
      if (js_aborted s && choice.2) || cancelled outcome then mkJoin live (js_done s) (js_aborted s)
      else
        let halts := match outcome with Completed val => is_deny val | _ => false end in
        mkJoin live (<[idx := outcome]> (js_done s))
          (if halts && short_circuit_on_deny config && negb (js_aborted s)
           then true else js_aborted s)
  end.

(** The drain: as many turns as there are tasks. *)
Fixpoint join_all (config : BranchConfig) (is_deny : T -> bool) (sched : schedule)
    (turns : nat) (s : JoinState) : JoinState :=
  match turns with
  | O => s
  | S turns' => join_all config is_deny sched turns' (join_next config is_deny (sched turns') s)
  end.

Definition spawn_all (config : BranchConfig) (branches : list (Branch T)) :
    list (nat * BranchOutcome T) :=
  imap (fun idx b => (idx, task_outcome config b)) branches.

Definition run_branches (branches : list (Branch T)) (config : BranchConfig) (is_deny : T -> bool)
    (sched : schedule) : list (BranchOutcome T) :=
  let n := length branches in
  let s := join_all config is_deny sched n (mkJoin (spawn_all config branches) ∅ false) in
  map (fun i => match js_done s !! i with Some o => o | None => Aborted end) (seq 0 n).

(** ** The joining loop, as an invariant over every schedule *)

Lemma take_nth_perm {A} n (l : list A) x r : take_nth n l = Some (x, r) -> l ≡ₚ x :: r.
Proof.
  revert l r. induction n as [|n IH]; intros [|y l] r; simpl; try done.
  { by intros [= <- <-]. }
  destruct (take_nth n l) as [[z r']|] eqn:E; [|done]. intros [= <- <-].
  rewrite (IH _ _ E). apply perm_swap.
Qed.

Lemma take_nth_some {A} n (l : list A) : n < length l -> is_Some (take_nth n l).
Proof.
  revert l. induction n as [|n IH]; intros [|y l] Hl; simpl in *; try lia; [done|].
  destruct (IH l) as [[z r] ->]; [lia|done].
Qed.

Variable config : BranchConfig.
Variable is_deny : T -> bool.

Definition denies (o : BranchOutcome T) : bool :=
  match o with Completed v => is_deny v | _ => false end.

(** [joined all s]: [s] is a state of the loop over the tasks [all]. *)
Record joined (all : list (nat * BranchOutcome T)) (s : JoinState) : Prop := {
  j_live : forall i o, (i, o) ∈ js_live s -> (i, o) ∈ all /\ js_done s !! i = None;
  j_done : forall i o, js_done s !! i = Some o -> (i, o) ∈ all;
  j_lost : js_aborted s = false ->
    forall i o, (i, o) ∈ all -> (i, o) ∈ js_live s \/ js_done s !! i = Some o \/ o = Aborted;
  j_nodup : NoDup (js_live s).*1;
  j_abort : js_aborted s = true ->
    short_circuit_on_deny config = true
    /\ exists i o, js_done s !! i = Some o /\ denies o = true;
}.

Lemma join_next_joined all s choice :
  NoDup all.*1 -> js_live s <> [] -> joined all s ->
  joined all (join_next config is_deny choice s)
  /\ S (length (js_live (join_next config is_deny choice s))) = length (js_live s).
Proof.
  intros Hnd Hne [Hlive Hdone Hlost Hnodup Habort]. unfold join_next.
  destruct (take_nth_some (choice.1 mod length (js_live s)) (js_live s)) as [[[i o] live] E].
  { apply Nat.mod_upper_bound. by destruct (js_live s). }
  rewrite E. apply take_nth_perm in E.
  pose proof Hnodup as Hnodup'. rewrite E in Hnodup'. simpl in Hnodup'.
  apply NoDup_cons in Hnodup' as [Hni Hnl].
  assert (Hin : (i, o) ∈ js_live s) by (rewrite E; set_solver).
  assert (Hsub : forall x, x ∈ live -> x ∈ js_live s) by (intros; rewrite E; set_solver).
  split; [|destruct (_ || cancelled o); simpl; by rewrite E].
  destruct (_ || cancelled o) eqn:Ea; split; simpl; auto; try done.
  - intros Hab j o' Hj. rewrite Hab in Ea. simpl in Ea.
    destruct (Hlost Hab j o' Hj) as [Hl|Hd]; [|by right].
    rewrite E in Hl. apply elem_of_cons in Hl as [[= -> ->]|Hl]; [|by left].
    right. right. by destruct o.
  - intros j o' Hj. destruct (Hlive j o') as [? Hn]; [auto|]. split; [done|].
    rewrite lookup_insert_ne; [done|]. intros <-. apply Hni. by apply (list_elem_of_fmap_2 fst) in Hj.
  - intros j o'. rewrite lookup_insert_Some. intros [[<- <-]|[_ ?]]; [by apply Hlive|auto].
  - intros Hf j o' Hj. assert (js_aborted s = false) as Hab by (destruct (js_aborted s); repeat case_match; done).
    destruct (Hlost Hab j o' Hj) as [Hl|[Hd|Hd]]; [| |by auto].
    + rewrite E in Hl. apply elem_of_cons in Hl as [[= -> ->]|Hl]; [|by left].
      right. left. apply lookup_insert_eq.
    + right. left. destruct (decide (i = j)) as [<-|]; [|by rewrite lookup_insert_ne].
      destruct (Hlive i o Hin). congruence.
  - intros Ht. destruct (js_aborted s) eqn:Hab.
    + destruct (Habort eq_refl) as (? & j & o' & Hj & ?). split; [done|]. exists j, o'. split; [|done].
      rewrite lookup_insert_ne; [done|]. intros <-. destruct (Hlive i o Hin). congruence.
    + destruct (_ && short_circuit_on_deny config) eqn:E2; [|done].
      apply andb_true_iff in E2 as [E2 ?]. split; [done|]. exists i, o. split; [apply lookup_insert_eq|done].
Qed.

Lemma join_all_joined all sched turns s :
  NoDup all.*1 -> joined all s -> turns = length (js_live s) ->
  joined all (join_all config is_deny sched turns s)
  /\ js_live (join_all config is_deny sched turns s) = [].
Proof.
  intros Hnd. revert s. induction turns as [|turns IH]; intros s Hj Hl; simpl.
  { split; [done|]. by destruct (js_live s). }
  destruct (join_next_joined all s (sched turns) Hnd) as [Hj' Hl']; [by destruct (js_live s)|done|].
  apply IH; [done|]. lia.
Qed.

Lemma elem_of_spawn_all branches i o :
  (i, o) ∈ spawn_all config branches
  <-> exists b, branches !! i = Some b /\ o = task_outcome config b.
Proof. unfold spawn_all. rewrite elem_of_lookup_imap. naive_solver. Qed.

Lemma spawn_all_nodup branches : NoDup (spawn_all config branches).*1.
Proof.
  unfold spawn_all. apply NoDup_alt. intros i j x. rewrite !list_lookup_fmap, !list_lookup_imap.
  destruct (branches !! i), (branches !! j); naive_solver.
Qed.

(** The final state of the loop. *)
Lemma run_branches_joined branches sched :
  let s := join_all config is_deny sched (length branches) (mkJoin (spawn_all config branches) ∅ false) in
  joined (spawn_all config branches) s /\ js_live s = [].
Proof.
  apply join_all_joined; [apply spawn_all_nodup| |].
  - split; simpl; [intros i o Hi; by rewrite lookup_empty|intros i o; by rewrite lookup_empty
                  |by auto|apply spawn_all_nodup|done].
  - simpl. unfold spawn_all. by rewrite length_imap.
Qed.

Lemma run_branches_lookup branches sched i b :
  branches !! i = Some b ->
  run_branches branches config is_deny sched !! i = Some (task_outcome config b)
  \/ run_branches branches config is_deny sched !! i = Some Aborted
     /\ short_circuit_on_deny config = true
     /\ exists j d, run_branches branches config is_deny sched !! j = Some d /\ denies d = true.
Proof.
  intros Hi. unfold run_branches. pose proof (run_branches_joined branches sched) as [Hj Hl].
  set (s := join_all _ _ _ _ _) in *. rewrite list_lookup_fmap.
  rewrite lookup_seq_lt by (by eapply lookup_lt_Some). simpl.
  destruct (js_done s !! i) as [o|] eqn:Ed.
  - left. apply Hj, elem_of_spawn_all in Ed as (b' & Hb & ->). by simplify_eq.
  - destruct (js_aborted s) eqn:Ea.
    + right. split; [done|]. destruct (j_abort _ _ Hj Ea) as (Hs & j & o & Hdj & Hd). split; [done|]. exists j, o. split; [|done].
      pose proof (j_done _ _ Hj _ _ Hdj) as Hb. apply elem_of_spawn_all in Hb as (b' & Hb & _).
      rewrite list_lookup_fmap, lookup_seq_lt by (by eapply lookup_lt_Some). simpl. by rewrite Hdj.
    + assert (Hall : (i, task_outcome config b) ∈ spawn_all config branches)
        by (apply elem_of_spawn_all; eauto).
      destruct (j_lost _ _ Hj Ea _ _ Hall) as [Hin|[Hdone|Hlost]]; [|congruence|by left; rewrite Hlost].
      fold s in Hin. rewrite Hl in Hin. by apply not_elem_of_nil in Hin.
Qed.

Lemma run_branches_length branches sched :
  length (run_branches branches config is_deny sched) = length branches.
Proof. unfold run_branches. by rewrite length_map, length_seq. Qed.

(** Whatever order the runtime joins the tasks in, [run_branches] returns
    one outcome per branch, in input order, and each is the branch's own outcome
    ([Aborted] for a task the runtime dropped); the only exception is [Aborted] in
    place of another outcome, which appears only under [short_circuit_on_deny] and
    only when a denying outcome is also returned. *)
Theorem run_branches_slots branches sched :
  length (run_branches branches config is_deny sched) = length branches
  /\ forall i b, branches !! i = Some b ->
       exists o, run_branches branches config is_deny sched !! i = Some o
       /\ (o = task_outcome config b
           \/ o = Aborted /\ short_circuit_on_deny config = true
              /\ existsb denies (run_branches branches config is_deny sched) = true).
Proof.
  split; [apply run_branches_length|]. intros i b Hb.
  destruct (run_branches_lookup branches sched i b Hb) as [E|(E & Hs & j & d & Hj & Hd)]; [by eauto|].
  exists Aborted. split; [done|]. right. split; [done|]. split; [done|].
  apply existsb_true_iff. exists d. split; [by eapply list_elem_of_lookup_2|done].
Qed.

Lemma run_branches_inv branches sched i o :
  run_branches branches config is_deny sched !! i = Some o ->
  exists b, branches !! i = Some b /\ (o = task_outcome config b \/ o = Aborted).
Proof.
  intros Ho. destruct (lookup_lt_is_Some_2 branches i) as [b Hb].
  { rewrite <- (run_branches_length branches sched). by eapply lookup_lt_Some. }
  exists b. split; [done|].
  destruct (run_branches_lookup branches sched i b Hb) as [E|(E & _)]; rewrite E in Ho; naive_solver.
Qed.

Lemma run_branches_denies branches sched :
  existsb denies (run_branches branches config is_deny sched)
  = existsb denies (map (task_outcome config) branches).
Proof.
  apply eq_iff_eq_true. rewrite !existsb_true_iff. split.
  - intros (o & Ho & Hd). apply list_elem_of_lookup in Ho as [i Hi].
    apply run_branches_inv in Hi as (b & Hb & [->| ->]); [|done].
    exists (task_outcome config b). split; [|done].
    by apply list_elem_of_fmap_2, (list_elem_of_lookup_2 _ i).
  - intros (o & Ho & Hd). apply list_elem_of_fmap in Ho as (b & -> & Hb).
    apply list_elem_of_lookup in Hb as [i Hb].
    destruct (run_branches_lookup branches sched i b Hb) as [E|(E & Hs & j & d & Hj & Hdd)].
    + exists (task_outcome config b). split; [by eapply list_elem_of_lookup_2|done].
    + exists d. split; [by eapply list_elem_of_lookup_2|done].
Qed.

(** Without a deny (or without short-circuiting) every slot holds the branch's own outcome. *)
Lemma run_branches_all branches sched :
  short_circuit_on_deny config = false \/ existsb denies (map (task_outcome config) branches) = false ->
  run_branches branches config is_deny sched = map (task_outcome config) branches.
Proof.
  intros Hno. apply list_eq. intros i. rewrite list_lookup_fmap.
  destruct (branches !! i) as [b|] eqn:Hb; simpl.
  - destruct (run_branches_lookup branches sched i b Hb) as [E|(E & Hs & j & d & Hj & Hd)]; [done|].
    destruct Hno as [Hno|Hno]; [congruence|]. exfalso.
    apply run_branches_inv in Hj as (b' & Hb' & [->| ->]); [|done].
    apply existsb_false_iff in Hno. rewrite Forall_forall in Hno.
    rewrite (Hno (task_outcome config b')) in Hd; [done|].
    by apply list_elem_of_fmap_2, (list_elem_of_lookup_2 _ j).
  - apply lookup_ge_None in Hb. apply lookup_ge_None. by rewrite run_branches_length.
Qed.
End Run.

Arguments run_branches {T} branches config is_deny sched.
