(* ===== verification/Dispatch.v ===== *)
(** * Dispatching effects ([ppe-apl-core/src/evaluator.rs])

    One definition per arm of [dispatch_effect], the elicitation and parallel
    dispatchers, and the phase walk [evaluate_effects]. The mutable references the
    source threads through every call are the fields of an [EvalState]. *)

From Stdlib Require Import Ascii String.
From S2P Require Import Prelude RustStr F64 Json Platform Attributes Rules Constraint Step Lexical Predicate Eval.
From S2P Require Import Effects Paths Host PipelineEval Branches.

Record EvalState : Type := mkState {
  es_bag : AttributeBag;
  es_taints : list TaintEvent;
  es_constraints : list CandidateConstraint;
  es_args_modified : bool;
  es_result_modified : bool;
  es_payload : RoutePayload;
}.

Definition with_bag (st : EvalState) (bag : AttributeBag) : EvalState :=
  mkState bag (es_taints st) (es_constraints st) (es_args_modified st) (es_result_modified st)
    (es_payload st).
Definition with_taints (st : EvalState) (taints : list TaintEvent) : EvalState :=
  mkState (es_bag st) taints (es_constraints st) (es_args_modified st) (es_result_modified st)
    (es_payload st).
Definition with_constraints (st : EvalState) (cs : list CandidateConstraint) : EvalState :=
  mkState (es_bag st) (es_taints st) cs (es_args_modified st) (es_result_modified st) (es_payload st).

Inductive EffectOutcome : Type :=
| Continue
| Halt (d : Decision)
| Pending (bundle : PendingElicitation).

Definition is_halt (o : EffectOutcome) : bool := match o with Halt _ => true | _ => false end.

Definition deny_with (reason rule_source : string) : EffectOutcome :=
  Halt (Deny (Some reason) rule_source).

(** [.as_deref().unwrap_or("deny")] compared with [continue], whatever the case. *)
Definition on_error_continues (on_error : option string) : bool :=
  String.eqb (to_ascii_lowercase (match on_error with Some s => s | None => "deny" end)) "continue".

Definition looks_like_attribute_ref (s : string) : bool :=
  contains_char "." s
  && match s with String c _ => is_ascii_alphabetic c | EmptyString => false end
  && string_forall (fun c => is_ascii_alphanumeric c || Ascii.eqb c "_" || Ascii.eqb c ".") s.

(** The effect lists of [Sequential], [When] and the PDP reactions: in order, stopping at
    the first outcome that is not [Continue]. *)
Section Walk.
Variable f : nat -> Effect -> EvalState -> EffectOutcome * EvalState.
Fixpoint walk_effects (i : nat) (effects : list Effect) (st : EvalState) :
    EffectOutcome * EvalState :=
  match effects with
  | [] => (Continue, st)
  | inner :: rest =>
      match f i inner st with
      | (Continue, st') => walk_effects (S i) rest st'
      | other => other
      end
  end.
End Walk.

Section Dispatch.
Context `{Platform} `{Host}.

(** ** PDP calls *)

Definition llm_request_missing : PdpDecision :=
  mkPdpDecision (Deny (Some "PDP step denied: LLM request document is missing")
    LLM_REQUEST_MISSING_CODE) [].

Definition input_too_deep : PdpDecision :=
  mkPdpDecision (Deny (Some ("PDP step denied: structured input nests deeper than "
    +:+ show_nat MAX_STRUCTURED_DEPTH +:+ " levels")) INPUT_TOO_DEEP_CODE) [].

Definition evaluate_pdp_contained (p : pos) (call : PdpCall) (bag : AttributeBag)
    (structured : StructuredInput) : result PdpDecision PdpError :=
  if requires_llm_request call && is_none (si_llm_request structured) then Ok llm_request_missing
  else if si_too_deep structured then Ok input_too_deep
  else match pdp_evaluate p call bag structured with
  | TaskReturned r => r
  | TaskTimedOut => Err (PdpDispatch "PDP timed out")
  | TaskPanicked join_err => Err (PdpDispatch ("PDP task panicked: " +:+ join_err))
  | TaskCancelled join_err => Err (PdpDispatch ("PDP task cancelled: " +:+ join_err))
  end.

(** ** Plugins, delegation, restriction *)

Definition dispatch_plugin (p : pos) (name : string) (phase : DispatchPhase) (st : EvalState) :
    EffectOutcome * EvalState :=
  match plugin_invoke p name (es_bag st) (InvokeStep phase) with
  | Ok outcome =>
      let st := with_taints st (es_taints st ++ po_taints outcome) in
      match po_decision outcome with
      | Allow => (Continue, st)
      | Deny _ _ as deny => (Halt deny, st)
      end
  | Err e => (deny_with ("plugin `" +:+ name +:+ "` error: " +:+ plugin_error_display e)
                ("plugin:" +:+ name), st)
  end.

(** [if let Some(v) = value { bag.set(key, v) }]. *)
Definition set_opt (key : string) (value : option string) (bag : AttributeBag) : AttributeBag :=
  match value with Some v => bag_set bag key (AVString v) | None => bag end.

Definition record_grant (outcome : DelegationOutcome) (bag : AttributeBag) : AttributeBag :=
  let bag := bag_set bag GRANTED (AVBool true) in
  let bag :=
    if is_nil (do_granted_permissions outcome) then bag
    else bag_set bag GRANTED_PERMISSIONS (AVStringSet (list_to_set (do_granted_permissions outcome))) in
  let bag := set_opt GRANTED_AUDIENCE (do_granted_audience outcome) bag in
  set_opt GRANTED_EXPIRES_AT (do_granted_expires_at outcome) bag.

Definition dispatch_delegate (p : pos) (step : DelegateStep) (st : EvalState) :
    EffectOutcome * EvalState :=
  match delegate p step with
  | Ok outcome =>
      match do_decision outcome with
      | Allow => (Continue, with_bag st (record_grant outcome (es_bag st)))
      | Deny _ _ =>
          if on_error_continues (dg_on_error step) then (Continue, st)
          else (Halt (do_decision outcome), st)
      end
  | Err e =>
      if on_error_continues (dg_on_error step) then (Continue, st)
      else (deny_with ("delegate `" +:+ dg_plugin_name step +:+ "` error: "
              +:+ delegation_error_display e) (dg_source step), st)
  end.

Definition dispatch_restrict (spec : RestrictSpec) (fallback_source : string) (st : EvalState) :
    EffectOutcome * EvalState :=
  match restrict_resolve spec (es_bag st) with
  | Ok constraint =>
      (Continue, if constraint_is_empty constraint then st
                 else with_constraints st (es_constraints st ++ [constraint]))
  | Err e => (deny_with (resolve_error_display e) fallback_source, st)
  end.

(** ** Elicitation *)

(** The closures [fail_with_code], [fail] and [invocation_failure]. *)
Definition fail_with_code (step : ElicitStep) (reason : string) (code : option string) : EffectOutcome :=
  if on_error_continues (el_on_error step) then Continue
  else deny_with reason (match code with Some c => c | None => el_source step end).

Definition fail_elicit (step : ElicitStep) (reason : string) : EffectOutcome :=
  fail_with_code step reason None.

Definition invocation_failure (step : ElicitStep) (op : string) (error : ElicitationError) :
    EffectOutcome :=
  let code := elicitation_error_code error in
  let reason := "elicitation " +:+ op +:+ " failed: " +:+ elicitation_error_display error in
  match error with
  | ElStoreUnavailable _ _ =>
      deny_with reason (match code with Some c => c | None => el_source step end)
  | _ => fail_with_code step reason code
  end.

(** The identity [from] names: a bag attribute, or the literal unless it looks like an
    attribute that did not resolve. *)
Definition resolve_from (step : ElicitStep) (bag : AttributeBag) : option string :=
  match get_string bag (el_from step) with
  | Some v => Some v
  | None => if looks_like_attribute_ref (el_from step) then None else Some (el_from step)
  end.

Definition record_dispatch (step : ElicitStep) (d : ElicitationDispatch) (bag : AttributeBag) :
    AttributeBag :=
  let bag := bag_set bag EL_ID (AVString (ed_id d)) in
  let bag := bag_set bag EL_STATUS (AVString "pending") in
  let bag := set_opt EL_CHANNEL (el_channel step) bag in
  let bag := set_opt EL_APPROVER (ed_approver d) bag in
  let bag := set_opt EL_INTENT_ID (ed_intent_id d) bag in
  set_opt EL_EXPIRES_AT (ed_expires_at d) bag.

(** The sufficiency check: [scope] parsed and evaluated against the bag. *)
Definition check_scope (step : ElicitStep) (bag : AttributeBag) : result unit EffectOutcome :=
  match el_scope step with
  | None => Ok tt
  | Some scope_src =>
      match parse_predicate scope_src with
      | Ok expr =>
          match eval_expression bag expr with
          | Ok true => Ok tt
          | Ok false =>
              Err (fail_elicit step ("elicitation scope not satisfied: `" +:+ scope_src +:+ "`"))
          | Err err => Err (fail_elicit step (unorderable_reason err))
          end
      | Err e =>
          Err (fail_elicit step ("elicitation scope `" +:+ scope_src +:+ "` failed to parse: "
            +:+ parse_error_display e))
      end
  end.

Definition resolve_approved (p : pos) (step : ElicitStep) (id : string) (bag : AttributeBag) :
    EffectOutcome * AttributeBag :=
  match elicit_validate p step id with
  | Err e => (invocation_failure step "validation" e, bag)
  | Ok validation =>
      if negb (ev_valid validation) then
        let why := match ev_reason validation with
                   | Some r => r | None => "response failed validation" end in
        (fail_elicit step ("elicitation invalid: " +:+ why), bag)
      else match check_scope step bag with
      | Err outcome => (outcome, bag)
      | Ok _ =>
          let bag := bag_set bag EL_STATUS (AVString "resolved") in
          let bag := bag_set bag EL_OUTCOME (AVString "approved") in
          let bag := set_opt EL_APPROVER (ev_approver validation) bag in
          let bag := set_opt EL_INTENT_ID (ev_intent_id validation) bag in
          (Continue, bag)
      end
  end.

(** The [match status] of [dispatch_elicitation]. *)
Definition elicit_status (p : pos) (step : ElicitStep) (id : string) (status : ElicitationStatus)
    (bag : AttributeBag) : EffectOutcome * AttributeBag :=
  match status with
  | StatusPending =>
      let bag := bag_set bag EL_STATUS (AVString "pending") in
      (Pending {| pe_id := id;
                  pe_plugin_name := el_plugin_name step;
                  pe_approver := get_string bag EL_APPROVER;
                  pe_intent_id := get_string bag EL_INTENT_ID;
                  pe_channel := el_channel step;
                  pe_expires_at := get_string bag EL_EXPIRES_AT;
                  pe_source := el_source step |}, bag)
  | StatusExpired =>
      (fail_elicit step "elicitation expired before a response",
       bag_set bag EL_STATUS (AVString "expired"))
  | StatusResolved Denied =>
      let bag := bag_set bag EL_STATUS (AVString "resolved") in
      let bag := bag_set bag EL_OUTCOME (AVString "denied") in
      (deny_with "elicitation denied by approver" (el_source step), bag)
  | StatusResolved Approved => resolve_approved p step id bag
  end.

Definition dispatch_elicitation (p : pos) (step : ElicitStep) (bag : AttributeBag) :
    EffectOutcome * AttributeBag :=
  match resolve_from step bag with
  | None =>
      (fail_elicit step ("elicitation `from` attribute `" +:+ el_from step
         +:+ "` did not resolve to an identity"), bag)
  | Some resolved_from =>
      let arrival :=
        match get_string bag EL_ID with
        | Some existing => Ok (existing, bag)
        | None =>
            match elicit_dispatch p step resolved_from with
            | Ok d => Ok (ed_id d, record_dispatch step d bag)
            | Err e => Err e
            end
        end in
      match arrival with
      | Err e => (invocation_failure step "dispatch" e, bag)
      | Ok (id, bag) =>
          match elicit_check p step id with
          | Err e => (invocation_failure step "check" e, bag)
          | Ok status => elicit_status p step id status bag
          end
      end
  end.
(** ** Field operations *)

(** [for concrete in paths { ... }]: run the pipeline at each path that still resolves and
    write its outcome back. The first component is the reason of a deny. *)
Fixpoint apply_paths (p : pos) (pipeline : Pipeline) (bag : AttributeBag) (field_name : string)
    (phase : DispatchPhase) (i : nat) (paths : list (list string))
    (root : json) (taints : list TaintEvent) (modified : bool) :
    option string * (json * list TaintEvent * bool) :=
  match paths with
  | [] => (None, (root, taints, modified))
  | concrete :: rest =>
      let next := apply_paths p pipeline bag field_name phase (S i) rest in
      match get_concrete root concrete with
      | None => next root taints modified
      | Some current =>
          let ev := evaluate_pipeline (i :: p) pipeline current bag field_name phase in
          let taints := taints ++ pv_taints ev in
          match pv_outcome ev with
          | FPass => next root taints modified
          | FReplace new_val =>
              match set_concrete root concrete new_val with
              | Some root' => next root' taints true
              | None => next root taints modified
              end
          | FOmit =>
              match remove_concrete root concrete with
              | Some root' => next root' taints true
              | None => next root taints modified
              end
          | FDeny reason _ => (Some reason, (root, taints, modified))
          end
      end
  end.

(** The side of the payload a field operation works on. *)
Inductive Side : Type := SideArgs | SideResult.

Inductive FieldTarget : Type :=
| TargetSkip
| TargetBad
| TargetRoot (root : json) (subpath : string) (side : Side).

Definition field_target (path : string) (phase : DispatchPhase) (payload : RoutePayload) : FieldTarget :=
  match strip_prefix "args." path with
  | Some rest => match phase with Pre => TargetRoot (pl_args payload) rest SideArgs | Post => TargetSkip end
  | None =>
      match strip_prefix "result." path with
      | Some rest =>
          match phase with
          | Post => match pl_result payload with
                    | Some result => TargetRoot result rest SideResult
                    | None => TargetSkip
                    end
          | Pre => TargetSkip
          end
      | None => TargetBad
      end
  end.

(** The writes through [root] and [mark_modified]. *)
Definition write_side (side : Side) (root : json) (modified : bool) (st : EvalState) : EvalState :=
  let pl := es_payload st in
  match side with
  | SideArgs =>
      mkState (es_bag st) (es_taints st) (es_constraints st) (es_args_modified st || modified)
        (es_result_modified st) (mkPayload root (pl_result pl) (pl_structured pl))
  | SideResult =>
      mkState (es_bag st) (es_taints st) (es_constraints st) (es_args_modified st)
        (es_result_modified st || modified) (mkPayload (pl_args pl) (Some root) (pl_structured pl))
  end.

Definition dispatch_field_op (p : pos) (path : string) (stages : list Stage) (fallback_source : string)
    (phase : DispatchPhase) (st : EvalState) : EffectOutcome * EvalState :=
  match field_target path phase (es_payload st) with
  | TargetSkip => (Continue, st)
  | TargetBad =>
      (deny_with ("FieldOp path `" +:+ path +:+ "` must start with `args.` or `result.`")
         fallback_source, st)
  | TargetRoot root subpath side =>
      match expand_for_pipeline root subpath stages with
      | None =>
          (deny_with ("FieldOp path `" +:+ path +:+ "` expands to too many elements to redact safely")
             fallback_source, st)
      | Some paths =>
          let '(denied, (root, taints, modified)) :=
            apply_paths p (mkPipeline stages) (es_bag st) subpath phase 0 paths root (es_taints st) false in
          let st := with_taints (write_side side root modified st) taints in
          match denied with
          | Some reason => (deny_with reason fallback_source, st)
          | None => (Continue, st)
          end
      end
  end.

(** ** Parallel blocks *)

Definition parallel_branch_label (effect : Effect) : string :=
  match effect with
  | EffAllow => "allow"
  | EffDeny _ _ => "deny"
  | EffPlugin name => "plugin(" +:+ name +:+ ")"
  | EffDelegate _ => "delegate"
  | EffElicit _ => "elicit"
  | EffTaint label _ => "taint(" +:+ label +:+ ")"
  | EffRestrict _ => "restrict"
  | EffFieldOp path _ => "field_op(" +:+ path +:+ ")"
  | EffSequential _ => "sequential"
  | EffParallel _ => "parallel"
  | EffWhen _ _ source => "when(" +:+ source +:+ ")"
  | EffPdp call _ _ => "pdp(" +:+ dialect_debug (pdp_dialect call) +:+ ")"
  end.

(** What a branch returns: its outcome, taints and constraints. *)
Definition BranchResult : Type := EffectOutcome * list TaintEvent * list CandidateConstraint.

(** A branch starts from a copy of the bag and the payload, with nothing collected. *)
Definition branch_start (st : EvalState) : EvalState :=
  mkState (es_bag st) [] [] false false (es_payload st).

Definition branch_result (r : EffectOutcome * EvalState) : BranchResult :=
  (r.1, es_taints r.2, es_constraints r.2).

Section Branch.
(** [f i effect]: dispatch branch [i] from its start. *)
Variable f : nat -> Effect -> EffectOutcome * EvalState.
Variable p : pos.
(** The futures of the branches: each ends with its result, or panics. *)
Fixpoint branch_futures (i : nat) (effects : list Effect) : list (Branch BranchResult) :=
  match effects with
  | [] => []
  | e :: rest =>
      mkBranch (match branch_panic (i :: p) with
                | Some payload => Panics payload
                | None => Yields (branch_result (f i e))
                end) 0 :: branch_futures (S i) rest
  end.
End Branch.

(** The label of branch [idx] in a fail-closed reason. *)
Definition branch_label (effects : list Effect) (idx : nat) : string :=
  match effects !! idx with Some e => parallel_branch_label e | None => "unknown" end.

Definition or_halt (first_halt : option Decision) (d : Decision) : option Decision :=
  match first_halt with Some _ => first_halt | None => Some d end.

(** The aggregation, in input order. *)
Fixpoint aggregate (effects : list Effect) (fallback_source : string) (idx : nat)
    (outcomes : list (BranchOutcome BranchResult)) (taints : list TaintEvent)
    (constraints : list CandidateConstraint) (first_halt : option Decision) :
    option Decision * list TaintEvent * list CandidateConstraint :=
  match outcomes with
  | [] => (first_halt, taints, constraints)
  | outcome :: rest =>
      let next := aggregate effects fallback_source (S idx) rest in
      let branch := "parallel branch " +:+ show_nat idx +:+ " (" +:+ branch_label effects idx +:+ ") " in
      match outcome with
      | Completed (effect_outcome, branch_taints, branch_constraints) =>
          next (taints ++ branch_taints) (constraints ++ branch_constraints)
            (match effect_outcome with Halt d => or_halt first_halt d | _ => first_halt end)
      | Aborted => next taints constraints first_halt
      | TimedOut =>
          next taints constraints
            (or_halt first_halt (Deny (Some (branch +:+ "timed out (fail-closed)")) fallback_source))
      | Panicked msg =>
          next taints constraints
            (or_halt first_halt (Deny (Some (branch +:+ "panicked (fail-closed): " +:+ msg))
               "parallel.branch_panic"))
      end
  end.

Definition parallel_config : BranchConfig := mkBranchConfig None true.

Definition dispatch_parallel (p : pos) (effects : list Effect)
    (branches : list (Branch BranchResult)) (fallback_source : string) (st : EvalState) :
    EffectOutcome * EvalState :=
  if is_nil effects then (Continue, st)
  else
    let outcomes := run_branches branches parallel_config (fun v => is_halt v.1.1) (join_schedule p) in
    let '(first_halt, taints, constraints) :=
      aggregate effects fallback_source 0 outcomes (es_taints st) (es_constraints st) None in
    let st := with_constraints (with_taints st taints) constraints in
    match first_halt with
    | Some d => (Halt d, st)
    | None => (Continue, st)
    end.

(** ** One effect *)

Fixpoint dispatch_effect (effect : Effect) (p : pos) (fallback_source : string)
    (phase : DispatchPhase) (st : EvalState) : EffectOutcome * EvalState :=
  match effect with
  | EffAllow => (Continue, st)
  | EffDeny reason code =>
      (Halt (Deny reason (match code with Some c => c | None => fallback_source end)), st)
  | EffPlugin name => dispatch_plugin p name phase st
  | EffDelegate step => dispatch_delegate p step st
  | EffElicit step =>
      let '(outcome, bag) := dispatch_elicitation p step (es_bag st) in (outcome, with_bag st bag)
  | EffTaint label scopes => (Continue, with_taints st (es_taints st ++ [mkTaint label scopes]))
  | EffRestrict spec => dispatch_restrict spec fallback_source st
  | EffFieldOp path stages => dispatch_field_op p path stages fallback_source phase st
  | EffSequential effects =>
      walk_effects (fun i inner => dispatch_effect inner (i :: p) fallback_source phase) 0 effects st
  | EffParallel effects =>
      dispatch_parallel p effects
        (branch_futures
           (fun i inner => dispatch_effect inner (i :: p) fallback_source phase (branch_start st))
           p 0 effects)
        fallback_source st
  | EffWhen condition body source =>
      match eval_expression (es_bag st) condition with
      | Ok false => (Continue, st)
      | Err err => (deny_with (unorderable_reason err) source, st)
      | Ok true =>
          walk_effects (fun i inner => dispatch_effect inner (i :: p) source phase) 0 body st
      end
  | EffPdp call on_allow on_deny =>
      match evaluate_pdp_contained p call (es_bag st) (pl_structured (es_payload st)) with
      | Ok pdp_result =>
          match pd_decision pdp_result with
          | Allow =>
              walk_effects (fun i inner => dispatch_effect inner (i :: p) fallback_source phase)
                0 on_allow st
          | Deny _ _ as deny =>
              match walk_effects (fun i inner => dispatch_effect inner (i :: p) fallback_source phase)
                      0 on_deny st with
              | (Continue, st') => (Halt deny, st')
              | other => other
              end
          end
      | Err e =>
          (deny_with ("PDP error: " +:+ pdp_error_display e)
             ("pdp:" +:+ dialect_debug (pdp_dialect call)), st)
      end
  end.

(** ** One phase *)

Record StepsEvaluation : Type := mkSteps {
  sv_decision : Decision;
  sv_taints : list TaintEvent;
  sv_constraints : list CandidateConstraint;
  sv_args_modified : bool;
  sv_result_modified : bool;
  sv_pending : option PendingElicitation;
}.

Definition top_source (effect : Effect) : string :=
  match effect with EffWhen _ _ source => source | _ => "" end.

(** The phase walk; the bag and the payload are left in the returned state. *)
Definition evaluate_effects (p : pos) (effects : list Effect) (bag : AttributeBag)
    (phase : DispatchPhase) (payload : RoutePayload) : StepsEvaluation * AttributeBag * RoutePayload :=
  let '(outcome, st) :=
    walk_effects (fun i effect => dispatch_effect effect (i :: p) (top_source effect) phase) 0 effects
      (mkState bag [] [] false false payload) in
  let '(decision, pending) :=
    match outcome with
    | Continue => (Allow, None)
    | Halt d => (d, None)
    | Pending bundle => (Allow, Some bundle)
    end in
  (mkSteps decision (es_taints st) (es_constraints st) (es_args_modified st) (es_result_modified st)
     pending, es_bag st, es_payload st).
End Dispatch.
