(* ===== verification/DispatchProps.v ===== *)
(** * What dispatching an effect guarantees *)

From Stdlib Require Import Ascii String.
From S2P Require Import Prelude RustStr F64 Json Platform Attributes Rules Constraint Step Lexical Predicate Eval.
From S2P Require Import Effects Paths Host PipelineEval Branches Dispatch.

(** ** The frame of a dispatch

    Taints, constraints and modification flags are write-only: what an effect does
    depends on the bag and the payload alone, and what it collects is appended. This
    is one lemma, [dispatch_frame], from which the growth of the accumulators and the
    equivalence of parallel and sequential blocks follow. *)

(** [graft st st']: the state [st'] reached from nothing collected, on top of [st]. *)
Definition graft (st st' : EvalState) : EvalState :=
  mkState (es_bag st') (es_taints st ++ es_taints st') (es_constraints st ++ es_constraints st')
    (es_args_modified st || es_args_modified st') (es_result_modified st || es_result_modified st')
    (es_payload st').

Definition grafted (st : EvalState) (r : EffectOutcome * EvalState) : EffectOutcome * EvalState :=
  (r.1, graft st r.2).

(** [framed g]: [g] only appends to what was collected. *)
Definition framed (g : EvalState -> EffectOutcome * EvalState) : Prop :=
  forall st, g st = grafted st (g (branch_start st)).

Lemma graft_assoc s1 s2 s3 : graft s1 (graft s2 s3) = graft (graft s1 s2) s3.
Proof. unfold graft. simpl. by rewrite !(assoc_L (++)), !orb_assoc. Qed.

Lemma branch_start_graft st st' : branch_start (graft st st') = branch_start st'.
Proof. done. Qed.

Lemma graft_start st : graft st (branch_start st) = st.
Proof. destruct st. unfold graft. simpl. by rewrite !app_nil_r, !orb_false_r. Qed.

Section Frame.
Context `{Platform} `{Host}.

Lemma apply_paths_frame p pipeline bag field phase i paths root taints modified :
  apply_paths p pipeline bag field phase i paths root taints modified
  = let '(d, (root', t, m)) := apply_paths p pipeline bag field phase i paths root [] false in
    (d, (root', taints ++ t, modified || m)).
Proof.
  revert i root taints modified. induction paths as [|c paths IH]; intros i root taints modified; simpl.
  { by rewrite app_nil_r, orb_false_r. }
  destruct (get_concrete root c) as [cur|]; [|apply IH].
  set (ev := evaluate_pipeline _ _ _ _ _ _).
  destruct (pv_outcome ev) as [|v| |reason idx].
  - rewrite IH, (IH _ _ (pv_taints ev)). repeat case_match; simplify_eq/=. by rewrite (assoc_L (++)).
  - destruct (set_concrete root c v); rewrite IH, (IH _ _ (pv_taints ev));
      repeat case_match; simplify_eq/=; rewrite (assoc_L (++)); repeat f_equal. by rewrite orb_true_r.
  - destruct (remove_concrete root c); rewrite IH, (IH _ _ (pv_taints ev));
      repeat case_match; simplify_eq/=; rewrite (assoc_L (++)); repeat f_equal. by rewrite orb_true_r.
  - by rewrite orb_false_r.
Qed.

Lemma aggregate_frame effects fb idx outcomes taints cs fh :
  aggregate effects fb idx outcomes taints cs fh
  = let '(h, t, c) := aggregate effects fb idx outcomes [] [] fh in (h, taints ++ t, cs ++ c).
Proof.
  revert idx taints cs fh. induction outcomes as [|o outcomes IH]; intros idx taints cs fh; simpl.
  { by rewrite !app_nil_r. }
  destruct o as [[[eo t] c]| | |msg]; [|apply IH..].
  rewrite IH, (IH _ t c). destruct (aggregate _ _ _ _ [] [] _) as [[h t'] c'].
  by rewrite !(assoc_L (++)).
Qed.

Lemma dispatch_plugin_frame p name phase : framed (dispatch_plugin p name phase).
Proof.
  intros st. unfold dispatch_plugin, grafted. simpl. destruct (plugin_invoke _ _ _ _); simpl;
    [destruct (po_decision _)|]; unfold graft; simpl; rewrite ?app_nil_r, ?orb_false_r; by destruct st.
Qed.

Lemma dispatch_delegate_frame p step : framed (dispatch_delegate p step).
Proof.
  intros st. unfold dispatch_delegate, grafted, graft. destruct (delegate p step); simpl;
    [destruct (do_decision _)|]; try destruct (on_error_continues _); simpl;
    rewrite ?app_nil_r, ?orb_false_r; by destruct st.
Qed.

Lemma dispatch_restrict_frame spec fb : framed (dispatch_restrict spec fb).
Proof.
  intros st. unfold dispatch_restrict, grafted, graft. simpl. destruct (restrict_resolve _ _); simpl;
    [destruct (constraint_is_empty _)|]; simpl; rewrite ?app_nil_r, ?orb_false_r; by destruct st.
Qed.

Lemma dispatch_field_op_frame p path sts fb phase : framed (dispatch_field_op p path sts fb phase).
Proof.
  intros st. unfold dispatch_field_op, grafted. simpl.
  destruct (field_target _ _ _) as [| |root sub side]; simpl; [by rewrite graft_start..|].
  destruct (expand_for_pipeline _ _ _) as [paths|]; simpl; [|by rewrite graft_start].
  rewrite apply_paths_frame.
  destruct (apply_paths p (mkPipeline sts) (es_bag st) sub phase 0 paths root [] false) as [d [[r t] m]].
  destruct side, d; unfold graft; simpl; by rewrite ?app_nil_r, ?orb_false_r.
Qed.

Lemma walk_frame f i es :
  Forall (fun e => forall i, framed (f i e)) es -> framed (walk_effects f i es).
Proof.
  intros Hf. revert i. induction Hf as [|e es He Hes IH]; intros i st; simpl.
  { unfold grafted. simpl. by rewrite graft_start. }
  rewrite (He i st). destruct (f i e (branch_start st)) as [[|d|b] s1] eqn:E; unfold grafted; simpl; [|done..].
  rewrite IH, branch_start_graft, (IH (S i) s1). unfold grafted. simpl. by rewrite graft_assoc.
Qed.

Lemma dispatch_parallel_frame p es branches fb :
  framed (fun st => dispatch_parallel p es branches fb st).
Proof.
  intros st. unfold dispatch_parallel, grafted. destruct (is_nil es); simpl; [by rewrite graft_start|].
  rewrite aggregate_frame. destruct (aggregate _ _ _ _ [] [] None) as [[h t] c].
  destruct h; unfold graft; simpl; by rewrite ?app_nil_r, ?orb_false_r.
Qed.

Lemma walk_dispatch_frame es p fb phase :
  Forall (fun e => forall p fb phase, framed (dispatch_effect e p fb phase)) es ->
  framed (walk_effects (fun i inner => dispatch_effect inner (i :: p) fb phase) 0 es).
Proof. intros Hes. apply walk_frame. eapply Forall_impl; [exact Hes|]. intros x Hx i. apply Hx. Qed.

(** Every effect, on every branch, only appends to what was collected before, and does
    the same whatever that was. *)
Lemma dispatch_frame e p fb phase : framed (dispatch_effect e p fb phase).
Proof.
  revert p fb phase. induction e as [e IH] using Effect_ind. intros p fb phase st.
  destruct e; simpl in *.
  1-2: unfold grafted; simpl; by rewrite graft_start.
  - apply dispatch_plugin_frame.
  - apply dispatch_delegate_frame.
  - destruct (dispatch_elicitation _ _ _) as [o bag]. unfold grafted, graft. simpl.
    by rewrite !app_nil_r, !orb_false_r.
  - unfold grafted, graft. simpl. rewrite app_nil_r, !orb_false_r. by destruct st.
  - apply dispatch_restrict_frame.
  - apply dispatch_field_op_frame.
  - by apply (walk_dispatch_frame effects).
  - exact (dispatch_parallel_frame p effects _ fb st).
  - destruct (eval_expression _ _) as [[]|]; unfold grafted; simpl; [|by rewrite graft_start..].
    by apply (walk_dispatch_frame body).
  - apply Forall_app in IH as [IHa IHd].
    destruct (evaluate_pdp_contained _ _ _ _) as [r|]; unfold grafted; simpl; [|by rewrite graft_start].
    destruct (pd_decision r) as [|rs sr].
    + by apply (walk_dispatch_frame on_allow).
    + rewrite (walk_dispatch_frame on_deny p fb phase IHd st). by destruct (walk_effects _ _ _ (branch_start st)) as [[] s].
Qed.
End Frame.

Section Props.
Context `{Platform} `{Host}.

(** ** Walking a list *)

(** A predicate on outcome and state that every element of the list establishes from
    any state satisfying [I], where continuing re-establishes [I]. *)
Lemma walk_effects_inv (f : nat -> Effect -> EvalState -> EffectOutcome * EvalState)
    (I : EvalState -> Prop) (Q : EffectOutcome -> EvalState -> Prop) i es st :
  (forall st, I st -> Q Continue st) -> (forall st, Q Continue st -> I st) ->
  (forall i e st, e ∈ es -> I st -> Q (f i e st).1 (f i e st).2) ->
  I st -> Q (walk_effects f i es st).1 (walk_effects f i es st).2.
Proof.
  intros Hin Hout. revert i st. induction es as [|e es IH]; intros i st Hf Hst; simpl; [auto|].
  pose proof (Hf i e st ltac:(set_solver) Hst) as He.
  destruct (f i e st) as [[|d|b] st'] eqn:E; simpl in *; [|done..].
  apply IH; [|auto]. intros; apply Hf; set_solver.
Qed.

Lemma walk_dispatch_inv (I : EvalState -> Prop) (Q : EffectOutcome -> EvalState -> Prop) es p fb phase st :
  (forall st, I st -> Q Continue st) -> (forall st, Q Continue st -> I st) ->
  Forall (fun e => forall p fb st, I st ->
    Q (dispatch_effect e p fb phase st).1 (dispatch_effect e p fb phase st).2) es -> I st ->
  let r := walk_effects (fun i inner => dispatch_effect inner (i :: p) fb phase) 0 es st in Q r.1 r.2.
Proof.
  intros Hin Hout Hes Hst. apply (walk_effects_inv _ I Q); [done..| |done].
  intros i e s He Hs. rewrite Forall_forall in Hes. by apply Hes.
Qed.

Lemma walk_effects_app f i es more st :
  walk_effects f i (es ++ more) st
  = match walk_effects f i es st with
    | (Continue, st') => walk_effects f (i + length es) more st'
    | other => other
    end.
Proof.
  revert i st. induction es as [|e es IH]; intros i st; simpl; [by rewrite Nat.add_0_r|].
  destruct (f i e st) as [[|d|b] st']; [|done..]. rewrite IH. by rewrite Nat.add_succ_r.
Qed.

(** ** Branches of a parallel block *)

Definition branch_halts (o : BranchOutcome BranchResult) : bool :=
  match o with
  | Completed (Halt _, _, _) | TimedOut | Panicked _ => true
  | _ => false
  end.

Lemma aggregate_halts effects fb idx outcomes t c fh :
  bool_decide (is_Some (aggregate effects fb idx outcomes t c fh).1.1)
  = bool_decide (is_Some fh) || existsb branch_halts outcomes.
Proof.
  revert idx t c fh. induction outcomes as [|o outcomes IH]; intros idx t c fh; simpl.
  { by rewrite orb_false_r. }
  destruct o as [[[eo t'] c']| | |msg]; [destruct eo|..]; rewrite IH; destruct fh; simpl; done.
Qed.

Lemma aggregate_deny effects fb idx outcomes t c fh d :
  (forall d t c, Completed (Halt d, t, c) ∈ outcomes -> is_deny d = true) ->
  (forall d, fh = Some d -> is_deny d = true) ->
  (aggregate effects fb idx outcomes t c fh).1.1 = Some d -> is_deny d = true.
Proof.
  revert idx t c fh. induction outcomes as [|o outcomes IH]; intros idx t c fh Ho Hfh; simpl; [auto|].
  assert (Ho' : forall d t c, Completed (Halt d, t, c) ∈ outcomes -> is_deny d = true)
    by (intros; eapply Ho, list_elem_of_further; eauto).
  destruct o as [[[eo t'] c']| | |msg]; apply IH; try done.
  - destruct eo; [done| |done]. destruct fh as [d'|]; simpl; [done|].
    intros ? [= <-]. eapply Ho. apply list_elem_of_here.
  - destruct fh; simpl; [done|]. by intros ? [= <-].
  - destruct fh; simpl; [done|]. by intros ? [= <-].
Qed.

Lemma branch_futures_lookup f p i es k :
  branch_futures f p i es !! k
  = (fun e => mkBranch (match branch_panic (i + k :: p) with
                        | Some payload => Panics payload
                        | None => Yields (branch_result (f (i + k) e))
                        end) 0) <$> es !! k.
Proof.
  revert i k. induction es as [|e es IH]; intros i [|k]; simpl; [done..| |].
  - by rewrite Nat.add_0_r.
  - rewrite IH. by rewrite Nat.add_succ_r.
Qed.

Lemma branch_futures_elem f p i es b :
  b ∈ branch_futures f p i es ->
  exists k e, es !! k = Some e
  /\ b = mkBranch (match branch_panic (i + k :: p) with
                   | Some payload => Panics payload
                   | None => Yields (branch_result (f (i + k) e))
                   end) 0.
Proof.
  intros Hb. apply list_elem_of_lookup in Hb as [k Hk]. rewrite branch_futures_lookup in Hk.
  destruct (es !! k) as [e|] eqn:E; [|done]. simpl in Hk. simplify_eq. eauto.
Qed.

(** A completed outcome of a block is the result of one of its branches. *)
Lemma completed_branch f p es sched o :
  Completed o ∈ run_branches (branch_futures f p 0 es) parallel_config (fun v => is_halt v.1.1) sched ->
  exists k e, es !! k = Some e /\ o = branch_result (f k e).
Proof.
  intros Ho. apply list_elem_of_lookup in Ho as [j Hj].
  apply run_branches_inv in Hj as (b & Hb & [E|E]); [|done].
  apply list_elem_of_lookup_2, branch_futures_elem in Hb as (k & e & Hk & ->).
  unfold task_outcome, timed in E. simpl in E. destruct (branch_panic _); simplify_eq/=. eauto.
Qed.

(** ** Every halt is a deny *)

Lemma dispatch_elicitation_deny p step bag d :
  (dispatch_elicitation p step bag).1 = Halt d -> is_deny d = true.
Proof.
  unfold dispatch_elicitation, elicit_status, resolve_approved, check_scope, invocation_failure,
    fail_elicit, fail_with_code, deny_with.
  repeat case_match; simplify_eq/=; intros; by simplify_eq/=.
Qed.

(** A property of outcomes that holds of every leaf effect holds of every tree. *)
Section Outcomes.
Variable Q : EffectOutcome -> Prop.
Hypothesis Qcontinue : Q Continue.

Lemma walk_outcome es p fb phase st :
  Forall (fun e => forall p fb st, Q (dispatch_effect e p fb phase st).1) es ->
  Q (walk_effects (fun i inner => dispatch_effect inner (i :: p) fb phase) 0 es st).1.
Proof.
  intros Hes. apply (walk_dispatch_inv (fun _ => True) (fun o _ => Q o)); [done..| |done].
  eapply Forall_impl; [exact Hes|]. auto.
Qed.
End Outcomes.

Lemma halt_is_deny e p fb phase st d :
  (dispatch_effect e p fb phase st).1 = Halt d -> is_deny d = true.
Proof.
  revert p fb st d. induction e as [e IH] using Effect_ind. intros p fb st.
  pose (Q := fun o => forall d, o = Halt d -> is_deny d = true).
  destruct e as [|r c|name|step|step|l sc|spec|path sts|es|es|cond body src|call oa od]; simpl in *.
  1-2: by intros d [= <-].
  - unfold dispatch_plugin, deny_with. repeat case_match; simplify_eq/=; intros; by simplify_eq.
  - unfold dispatch_delegate, deny_with. repeat case_match; simplify_eq/=; intros; simplify_eq/=; congruence.
  - destruct (dispatch_elicitation _ _ _) as [o bag] eqn:E. simpl. intros d ->.
    by eapply dispatch_elicitation_deny; rewrite E.
  - done.
  - unfold dispatch_restrict, deny_with. repeat case_match; simplify_eq/=; intros; by simplify_eq.
  - unfold dispatch_field_op, deny_with. repeat case_match; simplify_eq/=; intros; by simplify_eq.
  - by apply (walk_outcome Q).
  - unfold dispatch_parallel. destruct (is_nil es); [done|].
    match goal with |- context [aggregate ?a ?b ?c ?o ?t ?cs None] =>
      pose proof (aggregate_deny a b c o t cs None) as Hagg;
      destruct (aggregate a b c o t cs None) as [[h t'] c'] end.
    destruct h as [d'|]; simpl in *; [|done]. intros d [= <-]. apply Hagg; [|done..].
    intros d t c Hc. apply completed_branch in Hc as (k & e & Hk & E).
    rewrite Forall_forall in IH. eapply (IH e); [by eapply list_elem_of_lookup_2|].
    unfold branch_result in E. by injection E.
  - destruct (eval_expression _ _) as [[]|]; [by apply (walk_outcome Q)|done|by intros d [= <-]].
  - apply Forall_app in IH as [IHa IHd].
    destruct (evaluate_pdp_contained _ _ _ _) as [r|]; [|by intros d [= <-]].
    destruct (pd_decision r) as [|rs sr]; [by apply (walk_outcome Q)|].
    pose proof (walk_outcome Q ltac:(done) od p fb phase st IHd) as Hw.
    destruct (walk_effects _ _ _ _) as [[|d'|b] s]; simpl in *; [by intros d [= <-]|done..].
Qed.
(** ** Effects without mutation *)

Definition is_pending (o : EffectOutcome) : bool := match o with Pending _ => true | _ => false end.

(** [st'] differs from [st] in taints and constraints at most. *)
Definition same_store (st st' : EvalState) : Prop :=
  es_bag st' = es_bag st /\ es_payload st' = es_payload st
  /\ es_args_modified st' = es_args_modified st /\ es_result_modified st' = es_result_modified st.

#[export] Instance same_store_refl : Reflexive same_store.
Proof. by intros st. Qed.
#[export] Instance same_store_trans : Transitive same_store.
Proof. intros a b c (?&?&?&?) (?&?&?&?). repeat split; congruence. Qed.

Lemma existsb_false_forall {A} (f : A -> bool) l (P : A -> Prop) :
  existsb f l = false -> Forall (fun x => f x = false -> P x) l -> Forall P l.
Proof.
  intros Hf%existsb_false_iff HP. apply Forall_forall. intros x Hx.
  rewrite Forall_forall in Hf, HP. auto.
Qed.

Lemma mutation_free_pure e p fb phase st :
  contains_mutation e = false ->
  same_store st (dispatch_effect e p fb phase st).2
  /\ is_pending (dispatch_effect e p fb phase st).1 = false.
Proof.
  revert p fb st. induction e as [e IH] using Effect_ind. intros p fb st.
  assert (Hwalk : forall es fb st, existsb contains_mutation es = false ->
    Forall (fun e => forall p fb st, contains_mutation e = false ->
      same_store st (dispatch_effect e p fb phase st).2
      /\ is_pending (dispatch_effect e p fb phase st).1 = false) es ->
    let r := walk_effects (fun i inner => dispatch_effect inner (i :: p) fb phase) 0 es st in
    same_store st r.2 /\ is_pending r.1 = false).
  { intros es fb' st0 Hes HF.
    apply (walk_dispatch_inv (same_store st0) (fun o s => same_store st0 s /\ is_pending o = false));
      [done|naive_solver| |done].
    apply (existsb_false_forall _ _ _ Hes). eapply Forall_impl; [exact HF|].
    intros x Hx Hm p' fb'' s Hs. destruct (Hx p' fb'' s Hm). split; [by etrans|done]. }
  destruct e as [|r c|name|step|step|l sc|spec|path sts|es|es|cond body src|call oa od];
    simpl in *; try done; intros Hm.
  - unfold dispatch_plugin. by repeat case_match.
  - unfold dispatch_restrict. by repeat case_match.
  - by apply (Hwalk es).
  - unfold dispatch_parallel. by repeat case_match; simplify_eq/=.
  - destruct (eval_expression _ _) as [[]|]; [by apply (Hwalk body)|done..].
  - apply orb_false_iff in Hm as [Ha Hd]. apply Forall_app in IH as [IHa IHd].
    destruct (evaluate_pdp_contained _ _ _ _) as [r|]; [|done].
    destruct (pd_decision r) as [|rs sr]; [by apply (Hwalk oa)|].
    destruct (Hwalk od fb st Hd IHd) as [Hs Hp].
    by destruct (walk_effects _ _ _ _) as [[|d'|b] s].
Qed.
(** What the load-time purity check accepts under [parallel:] is pure at run
    time: an effect without mutation leaves the bag, the payload and the modification
    flags as they were, and never suspends the phase. *)
Theorem mutation_free_is_pure e p fb phase st :
  contains_mutation e = false ->
  same_store st (dispatch_effect e p fb phase st).2
  /\ is_pending (dispatch_effect e p fb phase st).1 = false.
Proof. apply mutation_free_pure. Qed.

(** ** Parallel blocks under every schedule *)

(** Branch [i] cannot be counted as an allow: its task panics, or it denies. *)
Definition branch_fails (p : pos) (fb : string) (phase : DispatchPhase) (st : EvalState)
    (i : nat) (e : Effect) : bool :=
  bool_decide (is_Some (branch_panic (i :: p)))
  || is_halt (dispatch_effect e (i :: p) fb phase (branch_start st)).1.

Lemma branch_futures_halts p fb phase st i es :
  existsb branch_halts
    (map (task_outcome parallel_config)
       (branch_futures (fun i inner => dispatch_effect inner (i :: p) fb phase (branch_start st)) p i es))
  = existsb id (imap (fun k e => branch_fails p fb phase st (i + k) e) es).
Proof.
  revert i. induction es as [|e es IH]; intros i; [done|]. cbn [branch_futures map existsb imap].
  rewrite IH. unfold compose. rewrite Nat.add_0_r. f_equal.
  - unfold branch_fails, task_outcome. simpl. destruct (branch_panic (i :: p)); [done|].
    simpl. unfold branch_result. by destruct (dispatch_effect _ _ _ _ _) as [[] ?].
  - f_equal. apply imap_ext. intros k x _. by rewrite Nat.add_succ_r.
Qed.

Lemma denies_halts l :
  existsb (denies (fun v : BranchResult => is_halt v.1.1)) l = true -> existsb branch_halts l = true.
Proof.
  rewrite !existsb_true_iff. intros (o & Ho & Hd). exists o. split; [done|].
  by destruct o as [[[[] ?] ?]| | |].
Qed.

(** No schedule hides a failing branch. *)
Lemma run_branches_halts branches sched :
  existsb branch_halts (run_branches branches parallel_config (fun v => is_halt v.1.1) sched)
  = existsb branch_halts (map (task_outcome parallel_config) branches).
Proof.
  set (dn := denies (fun v : BranchResult => is_halt v.1.1)).
  destruct (existsb dn (map (task_outcome parallel_config) branches)) eqn:E.
  - rewrite (denies_halts _ E). apply denies_halts. unfold dn in E. rewrite <- E.
    apply run_branches_denies.
  - f_equal. apply run_branches_all. by right.
Qed.

Lemma parallel_verdict es p fb phase st :
  is_halt (dispatch_effect (EffParallel es) p fb phase st).1
  = existsb id (imap (branch_fails p fb phase st) es).
Proof.
  simpl. unfold dispatch_parallel. destruct es as [|e es]; [done|]. cbn [is_nil].
  match goal with |- context [aggregate ?a ?b ?c ?o ?t ?cs None] =>
    pose proof (aggregate_halts a b c o t cs None) as Hagg;
    destruct (aggregate a b c o t cs None) as [[h t'] c'] end.
  rewrite run_branches_halts, branch_futures_halts in Hagg.
  change (bool_decide (is_Some (@None Decision))) with false in Hagg.
  change (fun k e => branch_fails p fb phase st (0 + k) e) with (branch_fails p fb phase st) in Hagg.
  cbn [fst orb] in Hagg.
  rewrite <- Hagg. by destruct h.
Qed.

(** A [parallel:] block denies exactly when some branch denies or its task
    panics, whatever order the runtime finishes or cancels the branches in. *)
Theorem parallel_verdict_exact es p fb phase st :
  is_halt (dispatch_effect (EffParallel es) p fb phase st).1
  = existsb id (imap (branch_fails p fb phase st) es).
Proof. apply parallel_verdict. Qed.
(** ** Parallel and sequential *)

Lemma same_store_start st st' : same_store st st' -> branch_start st' = branch_start st.
Proof. intros (Hb & Hp & _). unfold branch_start. by rewrite Hb, Hp. Qed.

(** What a pure effect does from [st] is what it does from a copy of [st]. *)
Lemma pure_step e p fb phase st :
  contains_mutation e = false ->
  (dispatch_effect e p fb phase st).1 = (dispatch_effect e p fb phase (branch_start st)).1
  /\ branch_start (dispatch_effect e p fb phase st).2 = branch_start st.
Proof.
  intros Hm. split; [by rewrite dispatch_frame|].
  by apply same_store_start, mutation_free_pure.
Qed.

Lemma sequential_verdict es p fb phase i st :
  existsb contains_mutation es = false ->
  is_halt (walk_effects (fun i inner => dispatch_effect inner (i :: p) fb phase) i es st).1
  = existsb id (imap (fun k e =>
      is_halt (dispatch_effect e (i + k :: p) fb phase (branch_start st)).1) es).
Proof.
  revert i st. induction es as [|e es IH]; intros i st Hm; [done|].
  cbn [existsb] in Hm. apply orb_false_iff in Hm as [He Hes].
  cbn [walk_effects imap existsb]. unfold compose. rewrite Nat.add_0_r.
  destruct (pure_step e (i :: p) fb phase st He) as [Ho Hs]. rewrite <- Ho.
  pose proof (mutation_free_pure e (i :: p) fb phase st He) as [_ Hpend].
  destruct (dispatch_effect e (i :: p) fb phase st) as [[|d|b] st']; simpl in *; [|done..].
  rewrite IH by done. rewrite Hs. f_equal. apply imap_ext. intros k x _. by rewrite Nat.add_succ_r.
Qed.

(** When no branch fails, aggregating the branches' results collects what walking them
    in order collects. *)
Lemma aggregate_sequential effects es p fb phase i idx st0 st :
  existsb contains_mutation es = false -> branch_start st = branch_start st0 ->
  existsb id (imap (fun k e => branch_fails p fb phase st0 (i + k) e) es) = false ->
  let g := fun i inner => dispatch_effect inner (i :: p) fb phase in
  aggregate effects fb idx
    (map (task_outcome parallel_config) (branch_futures (fun i e => g i e (branch_start st0)) p i es))
    (es_taints st) (es_constraints st) None
  = (None, es_taints (walk_effects g i es st).2, es_constraints (walk_effects g i es st).2)
  /\ (walk_effects g i es st).1 = Continue /\ same_store st (walk_effects g i es st).2.
Proof.
  intros Hm Hst Hf g. revert i idx st Hst Hf. induction es as [|e es IH]; intros i idx st Hst Hf.
  { by split. }
  cbn [existsb] in Hm. apply orb_false_iff in Hm as [He Hes].
  cbn [imap existsb] in Hf. unfold compose in Hf. rewrite Nat.add_0_r in Hf.
  apply orb_false_iff in Hf as [Hfe Hf]. unfold id, branch_fails in Hfe.
  apply orb_false_iff in Hfe as [Hpanic Hhalt].
  cbn [branch_futures map walk_effects]. unfold task_outcome at 1. simpl.
  destruct (branch_panic (i :: p)); [done|]. simpl.
  unfold branch_result. change (g i e st) with (dispatch_effect e (i :: p) fb phase st).
  pose proof (dispatch_frame e (i :: p) fb phase st) as Hfr. rewrite Hst in Hfr.
  pose proof (mutation_free_pure e (i :: p) fb phase st He) as [Hs Hpend].
  change (g i e (branch_start st0)) with (dispatch_effect e (i :: p) fb phase (branch_start st0)).
  destruct (dispatch_effect e (i :: p) fb phase (branch_start st0)) as [o s1].
  rewrite Hfr in *. unfold grafted in *. simpl in *. destruct o; [|done..].
  destruct (IH Hes (S i) (S idx) (graft st s1)) as (IH1 & IH2 & IH3).
  - rewrite <- Hst. by apply same_store_start.
  - rewrite <- Hf. f_equal. apply imap_ext. intros k x _. by rewrite Nat.add_succ_r.
  - simpl in IH1. rewrite IH1. split; [done|]. split; [done|]. by etrans.
Qed.

Lemma dispatch_parallel_eq es p fb phase st :
  dispatch_effect (EffParallel es) p fb phase st
  = dispatch_parallel p es
      (branch_futures (fun i inner => dispatch_effect inner (i :: p) fb phase (branch_start st)) p 0 es)
      fb st.
Proof. done. Qed.

Lemma dispatch_sequential_eq es p fb phase st :
  dispatch_effect (EffSequential es) p fb phase st
  = walk_effects (fun i inner => dispatch_effect inner (i :: p) fb phase) 0 es st.
Proof. done. Qed.

(** Claim C2. [parallel:] is an optimisation of [sequential:]. For effects the purity
    check accepts, with no branch task panicking, both reach the same verdict under
    every schedule; and when they continue, they leave the same state, with the taints
    and constraints in the same order. *)
Theorem parallel_refines_sequential es p fb phase st :
  existsb contains_mutation es = false -> (forall i, branch_panic (i :: p) = None) ->
  let par := dispatch_effect (EffParallel es) p fb phase st in
  let seq := dispatch_effect (EffSequential es) p fb phase st in
  is_halt par.1 = is_halt seq.1 /\ (is_halt seq.1 = false -> par = seq).
Proof.
  intros Hm Hpanic.
  assert (Hv : is_halt (dispatch_effect (EffParallel es) p fb phase st).1
    = is_halt (dispatch_effect (EffSequential es) p fb phase st).1).
  { rewrite parallel_verdict, dispatch_sequential_eq, sequential_verdict by done. f_equal.
    apply imap_ext. intros k x _. unfold branch_fails. by rewrite Hpanic. }
  split; [exact Hv|]. intros Hseq. rewrite Hseq, parallel_verdict in Hv.
  destruct es as [|e es]; [done|]. set (es' := e :: es) in *.
  destruct (aggregate_sequential es' es' p fb phase 0 0 st st Hm eq_refl Hv) as (Ha & Hc & Hs).
  cbv zeta. rewrite dispatch_parallel_eq, dispatch_sequential_eq. unfold dispatch_parallel.
  change (is_nil es') with false. cbv iota.
  rewrite run_branches_all.
  - rewrite Ha. cbv beta iota.
    destruct (walk_effects _ 0 es' st) as [o [bag t c am rm pl]] eqn:E. simpl in Hc, Hs. subst o.
    destruct Hs as (Hb & Hp & Ham & Hrm). simpl in *. by subst.
  - right. apply not_true_is_false. intros Hd%denies_halts.
    rewrite branch_futures_halts in Hd.
    change (fun k e => branch_fails p fb phase st (0 + k) e) with (branch_fails p fb phase st) in Hd.
    congruence.
Qed.
End Props.


(** Witness: two plugins and a taint. *)
Lemma parallel_refines_sequential_witness :
  let es := [EffPlugin "a"; EffTaint "pii" [ScopeSession]; EffPlugin "b"] in
  let st := mkState ∅ [] [] false false (RoutePayload_new JNull) in
  existsb contains_mutation es = false
  /\ is_halt (@dispatch_effect ascii_platform allow_host (EffParallel es) [] "" Pre st).1
     = is_halt (@dispatch_effect ascii_platform allow_host (EffSequential es) [] "" Pre st).1.
Proof.
  cbv zeta. split; [reflexivity|].
  exact (proj1 (@parallel_refines_sequential ascii_platform allow_host
    [EffPlugin "a"; EffTaint "pii" [ScopeSession]; EffPlugin "b"] [] "" Pre
    (mkState ∅ [] [] false false (RoutePayload_new JNull)) eq_refl (fun _ => eq_refl))).
Defined.
