(* ===== verification/PhaseProps.v ===== *)
(** * What a phase guarantees

    Growth of the accumulators and confinement of writes to the phase's side of the
    payload, PDP calls and elicitations that fail closed, and the agreement of the
    synchronous rule evaluator with the effect walk. *)

From Stdlib Require Import Ascii String.
From S2P Require Import Prelude RustStr F64 Json Platform Attributes Rules Constraint Step Lexical Predicate Eval.
From S2P Require Import Effects Paths Host PipelineEval Branches Dispatch DispatchProps.

Section Props.
Context `{Platform} `{Host}.

(** ** Accumulators and the payload *)

(** [phase] took [st] to [st']. *)
Record evolves (phase : DispatchPhase) (st st' : EvalState) : Prop := {
  ev_taints : es_taints st `prefix_of` es_taints st';
  ev_constraints : es_constraints st `prefix_of` es_constraints st';
  ev_structured : pl_structured (es_payload st') = pl_structured (es_payload st);
  ev_args_flag : es_args_modified st' = false -> es_args_modified st = false;
  ev_result_flag : es_result_modified st' = false -> es_result_modified st = false;
  ev_args : es_args_modified st' = false \/ phase = Post ->
    pl_args (es_payload st') = pl_args (es_payload st);
  ev_result : es_result_modified st' = false \/ phase = Pre ->
    pl_result (es_payload st') = pl_result (es_payload st);
}.

#[export] Instance evolves_refl phase : Reflexive (evolves phase).
Proof. by intros st; split. Qed.

#[export] Instance evolves_trans phase : Transitive (evolves phase).
Proof.
  intros a b c [] []. split; try (etrans; eauto; fail); auto.
  - intros [Hf|Hp]; [rewrite ev_args1 by auto|rewrite ev_args1 by auto]; auto.
  - intros [Hf|Hp]; [rewrite ev_result1 by auto|rewrite ev_result1 by auto]; auto.
Qed.

Lemma apply_paths_unmodified p pipeline bag field phase i paths root taints d root' t :
  apply_paths p pipeline bag field phase i paths root taints false = (d, (root', t, false)) -> root' = root.
Proof.
  revert i root taints. induction paths as [|c paths IH]; intros i root taints; simpl; [by intros [= _ -> _]|].
  destruct (get_concrete root c) as [cur|]; [|apply IH].
  set (ev := evaluate_pipeline _ _ _ _ _ _).
  assert (Htrue : forall r tn, apply_paths p pipeline bag field phase (S i) paths r tn true
    <> (d, (root', t, false))).
  { intros r tn. rewrite apply_paths_frame. by destruct (apply_paths _ _ _ _ _ _ _ _ [] _) as [? [[? ?] ?]]. }
  destruct (pv_outcome ev) as [|v| |reason idx]; [apply IH| | |by intros [= _ -> _]].
  - destruct (set_concrete root c v); [|apply IH]. intros E. by apply Htrue in E.
  - destruct (remove_concrete root c); [|apply IH]. intros E. by apply Htrue in E.
Qed.

Lemma field_target_side path phase pl root sub side :
  field_target path phase pl = TargetRoot root sub side ->
  (side = SideArgs /\ phase = Pre /\ root = pl_args pl)
  \/ (side = SideResult /\ phase = Post /\ pl_result pl = Some root).
Proof. unfold field_target. repeat case_match; intros; simplify_eq; auto. Qed.

Lemma dispatch_field_op_evolves p path sts fb phase st :
  evolves phase st (dispatch_field_op p path sts fb phase st).2.
Proof.
  unfold dispatch_field_op.
  destruct (field_target _ _ _) as [| |root sub side] eqn:Et; [done..|].
  destruct (expand_for_pipeline _ _ _) as [paths|]; [|done].
  pose proof (apply_paths_frame p (mkPipeline sts) (es_bag st) sub phase 0 paths root (es_taints st) false) as Hf.
  destruct (apply_paths _ _ _ _ _ _ _ _ (es_taints st) _) as [d [[r t] m]] eqn:Ea.
  destruct (apply_paths _ _ _ _ _ _ _ _ [] _) as [d' [[r' t'] m']].
  simpl in Hf. injection Hf as -> -> -> ->.
  assert (Hm : m' = false -> r' = root) by (intros ->; by eapply apply_paths_unmodified).
  apply field_target_side in Et as [(-> & -> & ->)|(-> & -> & Hr)]; destruct d'; split; simpl;
    try done; try (by apply prefix_app_r); intros; split_bools; try naive_solver.
  all: destruct H1 as [[_ Hm']%orb_false_iff|]; [|done]; rewrite ?Hr, Hm by done; done.
Qed.

Lemma dispatch_evolves e p fb phase st : evolves phase st (dispatch_effect e p fb phase st).2.
Proof.
  revert p fb st. induction e as [e IH] using Effect_ind. intros p fb st.
  assert (Hleaf : forall st', same_store st st' -> es_taints st `prefix_of` es_taints st' ->
    es_constraints st `prefix_of` es_constraints st' -> evolves phase st st').
  { intros st' (Hb & Hp & Ha & Hr) Ht Hc. split; rewrite ?Hp, ?Ha, ?Hr; done. }
  assert (Hwalk : forall es fb st, Forall (fun e => forall p fb st,
      evolves phase st (dispatch_effect e p fb phase st).2) es ->
    evolves phase st (walk_effects (fun i inner => dispatch_effect inner (i :: p) fb phase) 0 es st).2).
  { intros es fb' st0 HF.
    apply (walk_dispatch_inv (evolves phase st0) (fun _ s => evolves phase st0 s)); [done|done| |done].
    eapply Forall_impl; [exact HF|]. intros x Hx p' fb'' s Hs. by etrans. }
  destruct e as [|r c|name|step|step|l sc|spec|path sts|es|es|cond body src|call oa od]; simpl in *.
  1-2: done.
  - unfold dispatch_plugin. repeat case_match; simpl; try done; by apply Hleaf; [..|apply prefix_app_r|].
  - unfold dispatch_delegate. repeat case_match; simpl; try done; by split.
  - destruct (dispatch_elicitation _ _ _). by split.
  - by apply Hleaf; [..|apply prefix_app_r|].
  - unfold dispatch_restrict. repeat case_match; simpl; try done; by apply Hleaf; [..|apply prefix_app_r].
  - apply dispatch_field_op_evolves.
  - by apply Hwalk.
  - pose proof (dispatch_parallel_frame p es
      (branch_futures (fun i inner => dispatch_effect inner (i :: p) fb phase (branch_start st)) p 0 es) fb st) as Hfr.
    unfold grafted in Hfr. rewrite Hfr.
    assert (Hsame : same_store st (dispatch_effect (EffParallel es) p fb phase st).2).
    { rewrite dispatch_parallel_eq. unfold dispatch_parallel. by repeat case_match; simplify_eq/=. }
    rewrite dispatch_parallel_eq, Hfr in Hsame.
    apply Hleaf; [done|by apply prefix_app_r..].
  - destruct (eval_expression _ _) as [[]|]; [by apply Hwalk|done..].
  - apply Forall_app in IH as [IHa IHd].
    destruct (evaluate_pdp_contained _ _ _ _) as [r|]; [|done].
    destruct (pd_decision r) as [|rs sr]; [by apply Hwalk|].
    pose proof (Hwalk od fb st IHd) as Hw. by destruct (walk_effects _ _ _ _) as [[|d'|b] s].
Qed.

(** Whatever an effect does, taints and constraints recorded before it survive
    (also when it denies), the structured PDP input is untouched, and writes stay on the
    phase's side of the payload: the pre phase never changes the result and the post
    phase never changes the arguments. A document the flags report as unmodified is
    unmodified. *)
Theorem dispatch_confined e p fb phase st :
  let st' := (dispatch_effect e p fb phase st).2 in
  es_taints st `prefix_of` es_taints st' /\ es_constraints st `prefix_of` es_constraints st'
  /\ pl_structured (es_payload st') = pl_structured (es_payload st)
  /\ (es_args_modified st' = false \/ phase = Post ->
      pl_args (es_payload st') = pl_args (es_payload st))
  /\ (es_result_modified st' = false \/ phase = Pre ->
      pl_result (es_payload st') = pl_result (es_payload st)).
Proof. cbv zeta. destruct (dispatch_evolves e p fb phase st). done. Qed.

(** ** The phase's decision *)

Lemma evaluate_effects_walk p effects bag phase payload :
  let '(sv, bag', payload') := evaluate_effects p effects bag phase payload in
  let '(o, st) := walk_effects (fun i effect => dispatch_effect effect (i :: p) (top_source effect) phase)
                    0 effects (mkState bag [] [] false false payload) in
  sv = mkSteps (match o with Halt d => d | _ => Allow end) (es_taints st) (es_constraints st)
         (es_args_modified st) (es_result_modified st)
         (match o with Pending b => Some b | _ => None end)
  /\ bag' = es_bag st /\ payload' = es_payload st.
Proof. unfold evaluate_effects. destruct (walk_effects _ _ _ _) as [[|d|b] st]; done. Qed.

Lemma deny_stable p effects more bag phase payload :
  is_deny (sv_decision (evaluate_effects p effects bag phase payload).1.1) = true ->
  evaluate_effects p (effects ++ more) bag phase payload = evaluate_effects p effects bag phase payload.
Proof.
  unfold evaluate_effects. rewrite walk_effects_app.
  by destruct (walk_effects _ _ effects _) as [[|d|b] st].
Qed.

(** ** PDP calls fail closed *)

(** Claim C20. A PDP step lets the phase go on only when the resolver really answered
    [Allow]: a missing required request document, too deep an input, a resolver error, a
    timeout, a panic or a cancellation, and of course a deny, never continue. *)
Theorem pdp_continue_means_allow call on_allow on_deny p fb phase st :
  (dispatch_effect (EffPdp call on_allow on_deny) p fb phase st).1 = Continue ->
  (exists diags, pdp_evaluate p call (es_bag st) (pl_structured (es_payload st))
     = TaskReturned (Ok (mkPdpDecision Allow diags)))
  /\ si_too_deep (pl_structured (es_payload st)) = false
  /\ (requires_llm_request call = true -> si_llm_request (pl_structured (es_payload st)) <> None).
Proof.
  simpl. unfold evaluate_pdp_contained.
  destruct (requires_llm_request call && _) eqn:Er; [simpl; by repeat case_match|].
  destruct (si_too_deep _); [simpl; by repeat case_match|].
  destruct (pdp_evaluate _ _ _ _) as [[[d diags]|e]| |m|m]; try done.
  simpl. destruct d; [|by repeat case_match]. intros _. split; [by eauto|]. split; [done|].
  intros Hr. rewrite Hr in Er. by destruct (si_llm_request _).
Qed.

(** ** Suspension *)

Lemma count_zero_children es :
  list_sum (map count_elicits es) = 0 -> Forall (fun e => count_elicits e = 0) es.
Proof. induction es as [|e es IH]; simpl; intros E; [done|]. apply Forall_cons. split; [lia|]. apply IH. lia. Qed.

Lemma no_elicit_no_pending e p fb phase st :
  count_elicits e = 0 -> is_pending (dispatch_effect e p fb phase st).1 = false.
Proof.
  revert p fb st. induction e as [e IH] using Effect_ind. intros p fb st.
  assert (Hwalk : forall es fb st, list_sum (map count_elicits es) = 0 -> Forall (fun e => forall p fb st,
      count_elicits e = 0 -> is_pending (dispatch_effect e p fb phase st).1 = false) es ->
    is_pending (walk_effects (fun i inner => dispatch_effect inner (i :: p) fb phase) 0 es st).1 = false).
  { intros es fb' st0 Hc%count_zero_children HF.
    apply (walk_outcome (fun o => is_pending o = false)); [done|].
    apply Forall_forall. intros x Hx p' fb'' s. rewrite Forall_forall in Hc, HF. auto. }
  destruct e as [|r c|name|step|step|l sc|spec|path sts|es|es|cond body src|call oa od]; simpl in *;
    try done; intros Hc.
  - unfold dispatch_plugin. by repeat case_match.
  - unfold dispatch_delegate. by repeat case_match.
  - unfold dispatch_restrict. by repeat case_match.
  - unfold dispatch_field_op. by repeat case_match.
  - by apply Hwalk.
  - unfold dispatch_parallel. by repeat case_match; simplify_eq/=.
  - destruct (eval_expression _ _) as [[]|]; [by apply Hwalk|done..].
  - apply Forall_app in IH as [IHa IHd].
    destruct (evaluate_pdp_contained _ _ _ _) as [r|]; [|done].
    destruct (pd_decision r) as [|rs sr]; [apply Hwalk; [lia|done]|].
    pose proof (Hwalk od fb st ltac:(lia) IHd) as Hw. by destruct (walk_effects _ _ _ _) as [[|d'|b] s].
Qed.

(** Only an elicitation suspends: an effect tree that holds none never does,
    so a phase without [elicit] steps always decides. *)
Theorem suspension_needs_elicit e p fb phase st :
  is_pending (dispatch_effect e p fb phase st).1 = true -> 0 < count_elicits e.
Proof.
  intros Hp. destruct (Nat.eq_dec (count_elicits e) 0) as [E|]; [|lia].
  rewrite no_elicit_no_pending in Hp; done.
Qed.

(** Reactions cannot turn a PDP deny into an allow: when the resolver denies,
    the step ends in a deny, its own or a reaction's; it can be put off only by a
    reaction that suspends on an elicitation. *)
Theorem pdp_deny_stands call on_allow on_deny p fb phase st reason source diags :
  pdp_evaluate p call (es_bag st) (pl_structured (es_payload st))
    = TaskReturned (Ok (mkPdpDecision (Deny reason source) diags)) ->
  match (dispatch_effect (EffPdp call on_allow on_deny) p fb phase st).1 with
  | Halt d => is_deny d = true
  | Pending _ => 0 < list_sum (map count_elicits on_deny)
  | Continue => False
  end.
Proof.
  intros E.
  pose proof (halt_is_deny (EffPdp call on_allow on_deny) p fb phase st) as Hd.
  pose proof (no_elicit_no_pending (EffPdp call [] on_deny) p fb phase st) as Hp.
  simpl in *. unfold evaluate_pdp_contained in *. rewrite E in *.
  destruct (_ && is_none _); simpl in *.
  2: destruct (si_too_deep _); simpl in *.
  all: destruct (walk_effects _ 0 on_deny st) as [[|d|b] s]; simpl in *; [done|by apply Hd|].
  all: destruct (list_sum (map count_elicits on_deny)); [by specialize (Hp eq_refl)|lia].
Qed.

(** ** The synchronous evaluator *)

Definition is_control (e : Effect) : bool :=
  match e with EffAllow | EffDeny _ _ => true | _ => false end.

Lemma walk_control p source phase i es st :
  forallb is_control es = true ->
  walk_effects (fun i inner => dispatch_effect inner (i :: p) source phase) i es st
  = (match first_deny source es with Some d => Halt d | None => Continue end, st).
Proof.
  revert i. induction es as [|e es IH]; intros i Hc; [done|]. cbn [forallb] in Hc.
  apply andb_true_iff in Hc as [He Hes]. destruct e; try done. by apply IH.
Qed.

Lemma control_rules_walk p rules bag phase payload :
  forallb (fun r => forallb is_control (rule_effects r)) rules = true ->
  evaluate_effects p (map Effect_from_Rule rules) bag phase payload
  = (mkSteps (evaluate_rules rules bag) [] [] false false None, bag, payload).
Proof.
  intros Hc. unfold evaluate_effects.
  enough (forall i, walk_effects (fun i effect => dispatch_effect effect (i :: p) (top_source effect) phase)
    i (map Effect_from_Rule rules) (mkState bag [] [] false false payload)
    = (match evaluate_rules rules bag with Allow => Continue | d => Halt d end,
       mkState bag [] [] false false payload)) as -> by by destruct (evaluate_rules rules bag).
  induction rules as [|r rules IH]; intros i; [done|].
  cbn [forallb] in Hc. apply andb_true_iff in Hc as [Hr Hrs]. simpl.
  destruct (eval_expression bag (rule_condition r)) as [[]|err]; [|by apply IH|done].
  rewrite walk_control by done.
  destruct (first_deny (rule_source_of r) (rule_effects r)) as [d|] eqn:E; [|by apply IH].
  destruct d; [|done]. exfalso. clear -E. revert E.
  induction (rule_effects r) as [|e es IH]; simpl; [done|]. by destruct e.
Qed.
(** The synchronous rule evaluator and the asynchronous effect walk agree: on
    rules whose effects are [allow] and [deny] only, both reach the same decision, and
    the walk has no other effect. *)
Theorem rules_refine_effects p rules bag phase payload :
  forallb (fun r => forallb is_control (rule_effects r)) rules = true ->
  evaluate_effects p (map Effect_from_Rule rules) bag phase payload
  = (mkSteps (evaluate_rules rules bag) [] [] false false None, bag, payload).
Proof. apply control_rules_walk. Qed.
End Props.

(** ** Witnesses *)

(** A host whose PDP answers [r] and whose elicitations stay pending. *)
Definition pdp_host (r : PdpTask) : Host := {|
  plugin_invoke := fun _ _ _ _ => Ok (mkPluginOutcome Allow [] None);
  pdp_evaluate := fun _ _ _ _ => r;
  delegate := fun _ _ => Ok (mkDelegationOutcome Allow [] None None);
  elicit_dispatch := fun _ _ _ => Ok (mkElicitationDispatch "e1" None None None);
  elicit_check := fun _ _ _ => Ok StatusPending;
  elicit_validate := fun _ _ _ => Ok (mkElicitationValidation true None None None);
  branch_panic := fun _ => None;
  join_schedule := fun _ _ => (0, false);
|}.

Definition w_state : EvalState := mkState bag_new [] [] false false (RoutePayload_new JNull).
Definition w_pdp : PdpCall := mkPdpCall Cedar YNull.


Lemma pdp_continue_means_allow_witness :
  (@dispatch_effect ascii_platform allow_host (EffPdp w_pdp [] []) [] "" Pre w_state).1 = Continue
  /\ si_too_deep (pl_structured (es_payload w_state)) = false.
Proof.
  split; [reflexivity|].
  exact (proj1 (proj2 (@pdp_continue_means_allow ascii_platform allow_host w_pdp [] [] [] "" Pre w_state eq_refl))).
Defined.

(** ** Elicitation and delegation *)

(** ** Typed reads after writes *)

Lemma get_string_set_same bag k v : get_string (bag_set bag k (AVString v)) k = Some v.
Proof. unfold get_string, bag_get, bag_set. by rewrite lookup_insert_eq. Qed.

Lemma get_string_set_other bag k k' v :
  k <> k' -> get_string (bag_set bag k v) k' = get_string bag k'.
Proof. intros Hk. unfold get_string, bag_get, bag_set. by rewrite lookup_insert_ne. Qed.

Lemma get_string_set_opt bag k k' v :
  k <> k' -> get_string (set_opt k v bag) k' = get_string bag k'.
Proof. intros Hk. destruct v; simpl; [by apply get_string_set_other|done]. Qed.

(** Read a key through a chain of writes to other keys. *)
Ltac read_bag :=
  repeat first
    [ rewrite get_string_set_same
    | rewrite get_string_set_other by done
    | rewrite get_string_set_opt by done ].

Section Elicit.
Context `{Platform} `{Host}.

(** The id the step works with and the bag after its first arrival. *)
Definition arrives (p : pos) (step : ElicitStep) (bag : AttributeBag) (id : string)
    (bag0 : AttributeBag) : Prop :=
  (get_string bag EL_ID = Some id /\ bag0 = bag)
  \/ (get_string bag EL_ID = None /\ exists from d,
        resolve_from step bag = Some from /\ elicit_dispatch p step from = Ok d
        /\ id = ed_id d /\ bag0 = record_dispatch step d bag).

Definition scope_holds (step : ElicitStep) (bag : AttributeBag) : Prop :=
  match el_scope step with
  | None => True
  | Some src => exists expr, parse_predicate src = Ok expr /\ eval_expression bag expr = Ok true
  end.

Lemma check_scope_ok step bag : check_scope step bag = Ok tt <-> scope_holds step bag.
Proof.
  unfold check_scope, scope_holds. destruct (el_scope step) as [src|]; [|done].
  destruct (parse_predicate src) as [expr|e]; [|by split; [|intros (? & ? & ?)]].
  destruct (eval_expression bag expr) as [[]|err] eqn:E; split; try done; [by eauto|..];
    intros (x & Hx & Hx'); simplify_eq; congruence.
Qed.

Lemma arrives_id p step bag id bag0 : arrives p step bag id bag0 -> get_string bag0 EL_ID = Some id.
Proof.
  intros [[? ->]|(_ & from & d & _ & _ & -> & ->)]; [done|]. unfold record_dispatch. by read_bag.
Qed.

(** The step, seen from its arrival. *)
Lemma dispatch_elicitation_cases p step bag :
  (exists id bag0, arrives p step bag id bag0
     /\ dispatch_elicitation p step bag
        = match elicit_check p step id with
          | Err e => (invocation_failure step "check" e, bag0)
          | Ok status => elicit_status p step id status bag0
          end)
  \/ (exists reason, (dispatch_elicitation p step bag).1 = fail_elicit step reason)
  \/ (exists e, (dispatch_elicitation p step bag).1 = invocation_failure step "dispatch" e).
Proof.
  unfold dispatch_elicitation, arrives. destruct (resolve_from step bag) as [from|] eqn:Ef; [|by eauto].
  destruct (get_string bag EL_ID) as [id|] eqn:Ei; [by left; exists id, bag; auto|].
  destruct (elicit_dispatch p step from) as [d|e] eqn:Ed; [|by eauto].
  left. exists (ed_id d), (record_dispatch step d bag). split; [|done]. right. eauto 8.
Qed.

Lemma fail_not_continue step reason code :
  on_error_continues (el_on_error step) = false -> fail_with_code step reason code <> Continue.
Proof. unfold fail_with_code, deny_with. by intros ->. Qed.

Lemma invocation_failure_not_continue step op e :
  on_error_continues (el_on_error step) = false -> invocation_failure step op e <> Continue.
Proof.
  intros Hc. unfold invocation_failure. destruct e; try by apply fail_not_continue. done.
Qed.

(** An elicitation step that fails closed goes on only after a genuine, sufficient
    approval: the channel reports [approved] for this step's id, the response validates,
    and the [scope] predicate parses and holds; the bag then records the approval. *)
Theorem elicit_continue_sound p step bag bag' :
  on_error_continues (el_on_error step) = false ->
  dispatch_elicitation p step bag = (Continue, bag') ->
  exists id bag0 v,
    arrives p step bag id bag0
    /\ elicit_check p step id = Ok (StatusResolved Approved)
    /\ elicit_validate p step id = Ok v /\ ev_valid v = true
    /\ scope_holds step bag0
    /\ get_string bag' EL_ID = Some id
    /\ get_string bag' EL_STATUS = Some "resolved" /\ get_string bag' EL_OUTCOME = Some "approved".
Proof.
  intros Hc E. destruct (dispatch_elicitation_cases p step bag)
    as [(id & bag0 & Ha & Ed)|[[reason Ef]|[e Ef]]].
  2: { exfalso. rewrite E in Ef. simpl in Ef. symmetry in Ef. by apply fail_not_continue in Ef. }
  2: { exfalso. rewrite E in Ef. simpl in Ef. symmetry in Ef. by apply invocation_failure_not_continue in Ef. }
  rewrite Ed in E. clear Ed. exists id, bag0.
  destruct (elicit_check p step id) as [status|e].
  2: { injection E as Ef _. by apply invocation_failure_not_continue in Ef. }
  destruct status as [|[]|]; simpl in E; try done.
  2: { injection E as Ef _. by apply fail_not_continue in Ef. }
  unfold resolve_approved in E. destruct (elicit_validate p step id) as [v|e].
  2: { injection E as Ef _. by apply invocation_failure_not_continue in Ef. }
  destruct (ev_valid v) eqn:Ev; simpl in E.
  2: { injection E as Ef _. by apply fail_not_continue in Ef. }
  destruct (check_scope step bag0) as [[]|o] eqn:Es.
  2: { injection E as -> _. unfold check_scope in Es. repeat case_match; simplify_eq.
       all: by apply fail_not_continue in Es. }
  injection E as <-. exists v. apply check_scope_ok in Es. apply arrives_id in Ha as Hid.
  read_bag. done.
Qed.
(** An approver's denial always halts, also under [on_error: continue]: when the
    channel reports that this step's elicitation was denied, the step denies with the
    step's own source and the bag records it. *)
Theorem elicit_denial_halts p step bag id bag0 :
  arrives p step bag id bag0 -> resolve_from step bag <> None ->
  elicit_check p step id = Ok (StatusResolved Denied) ->
  exists bag', dispatch_elicitation p step bag
    = (Halt (Deny (Some "elicitation denied by approver") (el_source step)), bag')
  /\ get_string bag' EL_ID = Some id /\ get_string bag' EL_OUTCOME = Some "denied".
Proof.
  intros Ha Hf Hc. pose proof (arrives_id _ _ _ _ _ Ha) as Hid. unfold dispatch_elicitation.
  destruct (resolve_from step bag) as [from|] eqn:Ef; [|done].
  destruct Ha as [[Ei ->]|(Ei & from' & d & Hfr & Ed & -> & ->)]; rewrite Ei.
  - rewrite Hc. simpl. eexists. split; [reflexivity|]. by read_bag.
  - assert (from' = from) as -> by congruence. rewrite Ed, Hc. simpl.
    eexists. split; [reflexivity|]. by read_bag.
Qed.

Lemma pending_bundle p step bag b bag' :
  dispatch_elicitation p step bag = (Pending b, bag') ->
  (exists bag0, arrives p step bag (pe_id b) bag0)
  /\ get_string bag' EL_ID = Some (pe_id b) /\ get_string bag' EL_STATUS = Some "pending".
Proof.
  unfold dispatch_elicitation, arrives. destruct (resolve_from step bag) as [from|] eqn:Ef.
  2: { unfold fail_elicit, fail_with_code, deny_with. by repeat case_match. }
  assert (Hcheck : forall id bag0, get_string bag0 EL_ID = Some id ->
    match elicit_check p step id with
    | Err e => (invocation_failure step "check" e, bag0)
    | Ok status => elicit_status p step id status bag0
    end = (Pending b, bag') ->
    id = pe_id b /\ get_string bag' EL_ID = Some id /\ get_string bag' EL_STATUS = Some "pending").
  { intros id bag0 Hid. unfold elicit_status, resolve_approved, check_scope, invocation_failure,
      fail_elicit, fail_with_code, deny_with.
    repeat case_match; intros; simplify_eq/=; try done. read_bag. done. }
  destruct (get_string bag EL_ID) as [id|] eqn:Ei.
  - intros E. destruct (Hcheck _ _ Ei E) as (-> & ? & ?). split; [exists bag; by left|done].
  - destruct (elicit_dispatch p step from) as [d|e] eqn:Ed.
    + intros E. destruct (Hcheck (ed_id d) (record_dispatch step d bag)) as (<- & ? & ?); [|done|].
      * unfold record_dispatch. by read_bag.
      * split; [eexists; right; eauto 8|done].
    + unfold invocation_failure, fail_elicit, fail_with_code, deny_with. by repeat case_match.
Qed.
End Elicit.

(** A retry goes on with the elicitation that was opened: once a step suspended,
    evaluating it again from the bag it left, with whatever the host answers then, either
    decides or suspends on the same id. *)
Theorem elicit_retry_same_id `{Platform} (h1 h2 : Host) p1 p2 step step2 bag b1 bag1 b2 bag2 :
  @dispatch_elicitation _ h1 p1 step bag = (Pending b1, bag1) ->
  @dispatch_elicitation _ h2 p2 step2 bag1 = (Pending b2, bag2) ->
  pe_id b2 = pe_id b1.
Proof.
  intros (_ & Hid & _)%pending_bundle ([bag0 Ha] & _ & _)%pending_bundle.
  destruct Ha as [[E _]|[E _]]; congruence.
Qed.

(** ** Delegation *)

Definition grants (bag : AttributeBag) (permission : string) : bool :=
  match get_bool bag GRANTED with Some true => set_contains bag GRANTED_PERMISSIONS permission | _ => false end.

Lemma record_grant_grants outcome bag permission :
  permission ∈ do_granted_permissions outcome -> grants (record_grant outcome bag) permission = true.
Proof.
  intros Hp. unfold grants, record_grant, get_bool, set_contains, get_string_set, bag_get, bag_set.
  destruct (is_nil (do_granted_permissions outcome)) eqn:En.
  { by destruct (do_granted_permissions outcome); [apply not_elem_of_nil in Hp|]. }
  assert (Hk : forall k v (b : AttributeBag) k', k <> k' -> set_opt k v b !! k' = b !! k').
  { intros k v b k' Hk. destruct v; [|done]. simpl. by apply lookup_insert_ne. }
  rewrite !Hk by done. rewrite lookup_insert_ne by done. rewrite !lookup_insert_eq.
  apply bool_decide_eq_true_2. set_solver.
Qed.

(** A grant outlives a later refusal: when a second delegation is denied, or
    fails, under [on_error: continue], the permissions the first one granted still read as
    granted. *)
Theorem grant_survives_denied_delegation `{Platform} `{Host} p1 p2 step1 step2 st outcome permission :
  delegate p1 step1 = Ok outcome -> do_decision outcome = Allow ->
  permission ∈ do_granted_permissions outcome ->
  on_error_continues (dg_on_error step2) = true ->
  (forall o, delegate p2 step2 = Ok o -> is_deny (do_decision o) = true) ->
  let st2 := (dispatch_delegate p2 step2 (dispatch_delegate p1 step1 st).2).2 in
  grants (es_bag st2) permission = true.
Proof.
  intros E1 Ed Hp Hc E2. unfold dispatch_delegate. rewrite E1, Ed. cbn [snd].
  destruct (delegate p2 step2) as [o2|e2].
  - specialize (E2 _ eq_refl). destruct (do_decision o2); [done|]. rewrite Hc.
    by apply record_grant_grants.
  - rewrite Hc. by apply record_grant_grants.
Qed.

(** ** Witnesses *)

(** A host whose elicitation channel reports [status] and whose delegation answers [d]. *)
Definition channel_host (status : ElicitationStatus) (d : DelegateStep -> DelegationOutcome) : Host := {|
  plugin_invoke := fun _ _ _ _ => Ok (mkPluginOutcome Allow [] None);
  pdp_evaluate := fun _ _ _ _ => TaskReturned (Ok (mkPdpDecision Allow []));
  delegate := fun _ step => Ok (d step);
  elicit_dispatch := fun _ _ _ => Ok (mkElicitationDispatch "e1" None None None);
  elicit_check := fun _ _ _ => Ok status;
  elicit_validate := fun _ _ _ => Ok (mkElicitationValidation true None None None);
  branch_panic := fun _ => None;
  join_schedule := fun _ _ => (0, false);
|}.

Definition no_grant : DelegationOutcome := mkDelegationOutcome (Deny None "idp") [] None None.

Definition w_elicit (on_error scope : option string) : ElicitStep :=
  mkElicit Approval "ciba" None "alice@corp.com" None scope None None on_error "r1".




Definition w_delegate (name : string) : DelegateStep := mkDelegate name None (Some "continue") name.

