(* ===== verification/RouteEval.v ===== *)
(** * Routes ([ppe-apl-core/src/route.rs], [evaluate_pre], [evaluate_post], [evaluate_route])

    The four phases of a route: the argument pipelines and the pre-invocation effects,
    then the result pipelines and the post-invocation effects; and what a route guarantees. *)

From Stdlib Require Import Ascii String.
From S2P Require Import Prelude RustStr F64 Json Platform Attributes Rules Constraint Step Lexical Predicate Eval.
From S2P Require Import Effects Paths Redaction Host PipelineEval Branches Dispatch DispatchProps PhaseProps.

Record RouteDecision : Type := mkRouteDecision {
  rd_decision : Decision;
  rd_taints : list TaintEvent;
  rd_constraints : list CandidateConstraint;
  rd_args_modified : bool;
  rd_result_modified : bool;
  rd_pending : option PendingElicitation;
}.

Section Route.
Context `{Platform} `{Host}.

(** [for rule in &route.args] (or [&route.result]): expand the rule's field in the document
    as it is now, run the pipeline at each path. [half] is [args] or [result]; the first
    component is the deny the loop returns with. *)
Fixpoint apply_field_rules (half : string) (p : pos) (phase : DispatchPhase) (bag : AttributeBag)
    (i : nat) (rules : list FieldRule) (root : json) (taints : list TaintEvent) (modified : bool) :
    option Decision * (json * list TaintEvent * bool) :=
  match rules with
  | [] => (None, (root, taints, modified))
  | rule :: rest =>
      match expand_for_pipeline root (fr_field rule) (stages (fr_pipeline rule)) with
      | None =>
          (Some (Deny (Some (half +:+ " field `" +:+ fr_field rule
                   +:+ "` expands to too many elements to redact safely")) (fr_source rule)),
           (root, taints, modified))
      | Some paths =>
          let '(denied, (root, taints, modified)) :=
            apply_paths (i :: p) (fr_pipeline rule) bag (fr_field rule) phase 0 paths
              root taints modified in
          match denied with
          | Some reason => (Some (Deny (Some reason) (fr_source rule)), (root, taints, modified))
          | None => apply_field_rules half p phase bag (S i) rest root taints modified
          end
      end
  end.

(** The calls of the argument rules are at [0 :: p], those of the policy at [1 :: p]. *)
Definition evaluate_pre (p : pos) (route : CompiledRoute) (bag : AttributeBag) (payload : RoutePayload) :
    RouteDecision * AttributeBag * RoutePayload :=
  let '(denied, (args, taints, args_modified)) :=
    apply_field_rules "args" (0 :: p) Pre bag 0 (rt_args route) (pl_args payload) [] false in
  let payload := mkPayload args (pl_result payload) (pl_structured payload) in
  match denied with
  | Some decision => (mkRouteDecision decision taints [] args_modified false None, bag, payload)
  | None =>
      let '(policy_eval, bag, payload) :=
        evaluate_effects (1 :: p) (pre_invocation route) bag Pre payload in
      (mkRouteDecision (sv_decision policy_eval) (taints ++ sv_taints policy_eval)
         (sv_constraints policy_eval) (args_modified || sv_args_modified policy_eval) false
         (sv_pending policy_eval), bag, payload)
  end.

Definition evaluate_post (p : pos) (route : CompiledRoute) (bag : AttributeBag) (payload : RoutePayload) :
    RouteDecision * AttributeBag * RoutePayload :=
  let '(denied, (result, taints, result_modified)) :=
    match pl_result payload with
    | Some result =>
        let '(denied, (result, taints, modified)) :=
          apply_field_rules "result" (2 :: p) Post bag 0 (rt_result route) result [] false in
        (denied, (Some result, taints, modified))
    | None => (None, (None, [], false))
    end in
  let payload := mkPayload (pl_args payload) result (pl_structured payload) in
  match denied with
  | Some decision => (mkRouteDecision decision taints [] false result_modified None, bag, payload)
  | None =>
      let '(post_eval, bag, payload) :=
        evaluate_effects (3 :: p) (post_invocation route) bag Post payload in
      (mkRouteDecision (sv_decision post_eval) (taints ++ sv_taints post_eval)
         (sv_constraints post_eval) false (result_modified || sv_result_modified post_eval)
         (sv_pending post_eval), bag, payload)
  end.

Definition evaluate_route (p : pos) (route : CompiledRoute) (bag : AttributeBag) (payload : RoutePayload) :
    RouteDecision * AttributeBag * RoutePayload :=
  let '(pre, bag, payload) := evaluate_pre p route bag payload in
  if is_deny (rd_decision pre) || negb (is_none (rd_pending pre)) then (pre, bag, payload)
  else
    let '(post, bag, payload) := evaluate_post p route bag payload in
    (mkRouteDecision (rd_decision post) (rd_taints pre ++ rd_taints post)
       (rd_constraints pre ++ rd_constraints post) (rd_args_modified pre)
       (rd_result_modified post) (rd_pending post), bag, payload).
End Route.

Example route_example :
  let rule := mkFieldRule "a.ssn" (mkPipeline [StRedact None]) "r1" in
  let route := mkRoute "k" [rule] [EffWhen (ECondition (IsTrue "x")) [EffDeny None None] "r2"]
                 [] [] ∅ None in
  let run bag := @evaluate_route ascii_platform allow_host [] route bag (RoutePayload_new w_doc) in
  rd_decision (run bag_new).1.1 = Allow
  /\ pl_args (run bag_new).2
     = JObject [("a", JArray [JObject [("SSN", REDACTED); ("x", JNull)]; JObject [("ssn", REDACTED)]])]
  /\ rd_decision (run (bag_set bag_new "x" (AVBool true))).1.1 = Deny None "r2".
Proof. vm_compute. repeat split. Qed.

(** ** What a route guarantees

    The gate between the halves, the soundness of the modification flags, redaction
    end to end, and the effect of layering policy blocks. *)

(** The host forwards the call when the half allows and nothing is pending. *)
Definition forwards (d : RouteDecision) : bool :=
  negb (is_deny (rd_decision d)) && is_none (rd_pending d).

Section Props.
Context `{Platform} `{Host}.

Lemma apply_paths_flag p pipeline bag field phase i paths root taints modified d root' t :
  apply_paths p pipeline bag field phase i paths root taints modified = (d, (root', t, false)) ->
  modified = false /\ root' = root.
Proof.
  intros E. destruct modified.
  - rewrite apply_paths_frame in E. by destruct (apply_paths _ _ _ _ _ _ _ _ [] _) as [? [[? ?] ?]].
  - split; [done|]. by eapply apply_paths_unmodified.
Qed.

Lemma apply_field_rules_flag half p phase bag i rules root taints modified d root' t :
  apply_field_rules half p phase bag i rules root taints modified = (d, (root', t, false)) ->
  modified = false /\ root' = root.
Proof.
  revert i root taints modified. induction rules as [|r rules IH]; intros i root taints modified; simpl.
  { by intros [= _ -> _ ->]. }
  destruct (expand_for_pipeline _ _ _) as [paths|]; [|by intros [= _ -> _ ->]].
  destruct (apply_paths _ _ _ _ _ _ _ _ _ _) as [d' [[r' t'] m']] eqn:E.
  destruct d'.
  - intros [= _ -> _ ->]. by apply apply_paths_flag in E.
  - intros [-> ->]%IH. by apply apply_paths_flag in E.
Qed.

(** The start of a phase evolves into its end. *)
Lemma evaluate_effects_evolves p effects bag phase payload :
  let '(sv, _, payload') := evaluate_effects p effects bag phase payload in
  evolves phase (mkState bag [] [] false false payload)
    (mkState bag (sv_taints sv) (sv_constraints sv) (sv_args_modified sv) (sv_result_modified sv) payload').
Proof.
  unfold evaluate_effects.
  set (st0 := mkState bag [] [] false false payload).
  assert (Hw : evolves phase st0 (walk_effects (fun i effect =>
    dispatch_effect effect (i :: p) (top_source effect) phase) 0 effects st0).2).
  { apply (walk_effects_inv _ (evolves phase st0) (fun _ s => evolves phase st0 s)); [done|done| |done].
    intros i e s _ Hs. etrans; [exact Hs|apply dispatch_evolves]. }
  destruct (walk_effects _ _ _ _) as [o [bag' t c am rm pl]]. simpl in Hw. destruct Hw.
  by destruct o; split.
Qed.

Lemma evaluate_pre_confined p route bag payload :
  let '(d, _, payload') := evaluate_pre p route bag payload in
  pl_result payload' = pl_result payload /\ pl_structured payload' = pl_structured payload
  /\ rd_result_modified d = false
  /\ (rd_args_modified d = false -> pl_args payload' = pl_args payload).
Proof.
  unfold evaluate_pre.
  destruct (apply_field_rules _ _ _ _ _ _ _ _ _) as [d [[args t] m]] eqn:E.
  assert (Hm : m = false -> args = pl_args payload).
  { intros ->. by apply apply_field_rules_flag in E as [_ ->]. }
  destruct d; simpl; [done|].
  pose proof (evaluate_effects_evolves (1 :: p) (pre_invocation route) bag Pre
    (mkPayload args (pl_result payload) (pl_structured payload))) as He.
  destruct (evaluate_effects _ _ _ _ _) as [[sv bag'] payload']. destruct He. simpl in *.
  split; [by apply ev_result; right|]. split; [done|]. split; [done|].
  intros [Ha Hs]%orb_false_iff. rewrite ev_args by auto. auto.
Qed.

Lemma evaluate_post_confined p route bag payload :
  let '(d, _, payload') := evaluate_post p route bag payload in
  pl_args payload' = pl_args payload /\ pl_structured payload' = pl_structured payload
  /\ rd_args_modified d = false
  /\ (rd_result_modified d = false -> pl_result payload' = pl_result payload).
Proof.
  unfold evaluate_post.
  set (r := match pl_result payload with Some _ => _ | None => _ end).
  assert (Hr : r.2.2 = false -> r.2.1.1 = pl_result payload).
  { unfold r. destruct (pl_result payload) as [res|]; [|done].
    destruct (apply_field_rules _ _ _ _ _ _ _ _ _) as [d [[args t] m]] eqn:E. simpl. intros ->.
    by apply apply_field_rules_flag in E as [_ ->]. }
  destruct r as [d [[res t] m]]. simpl in Hr. destruct d; simpl; [done|].
  pose proof (evaluate_effects_evolves (3 :: p) (post_invocation route) bag Post
    (mkPayload (pl_args payload) res (pl_structured payload))) as He.
  destruct (evaluate_effects _ _ _ _ _) as [[sv bag'] payload']. destruct He. simpl in *.
  split; [by apply ev_args; right|]. split; [done|]. split; [done|].
  intros [Ha Hs]%orb_false_iff. rewrite ev_result by auto. auto.
Qed.

(** The modification flags of a route never under-report: when [args_modified]
    (or [result_modified]) is false, the arguments (or the result) are exactly what they
    were; the structured PDP input is never changed. The host may skip re-serializing. *)
Theorem route_flags_sound p route bag payload :
  let '(d, _, payload') := evaluate_route p route bag payload in
  (rd_args_modified d = false -> pl_args payload' = pl_args payload)
  /\ (rd_result_modified d = false -> pl_result payload' = pl_result payload)
  /\ pl_structured payload' = pl_structured payload.
Proof.
  unfold evaluate_route. pose proof (evaluate_pre_confined p route bag payload) as Hpre.
  destruct (evaluate_pre p route bag payload) as [[pre bag1] payload1].
  destruct Hpre as (Hr & Hs & _ & Ha).
  destruct (_ || _); [done|]. pose proof (evaluate_post_confined p route bag1 payload1) as Hpost.
  destruct (evaluate_post p route bag1 payload1) as [[post bag2] payload2].
  destruct Hpost as (Ha' & Hs' & _ & Hr'). simpl.
  split; [by intros; rewrite Ha'; auto|]. split; [by intros; rewrite Hr'|congruence].
Qed.

(** A route forwards exactly when both halves do. When the pre half denies or
    suspends, the post half does not run: the decision is the pre half's and the result
    is left as it was. *)
Theorem route_gate p route bag payload :
  let '(pre, bag1, payload1) := evaluate_pre p route bag payload in
  let '(d, bag', payload') := evaluate_route p route bag payload in
  forwards d = forwards pre && forwards (evaluate_post p route bag1 payload1).1.1
  /\ (forwards pre = false ->
      d = pre /\ bag' = bag1 /\ payload' = payload1 /\ pl_result payload' = pl_result payload).
Proof.
  unfold evaluate_route. pose proof (evaluate_pre_confined p route bag payload) as Hpre.
  destruct (evaluate_pre p route bag payload) as [[pre bag1] payload1]. destruct Hpre as (Hr & _).
  unfold forwards. destruct (is_deny (rd_decision pre)) eqn:E1, (is_none (rd_pending pre)) eqn:E2; simpl;
    rewrite ?E1, ?E2; try done.
  destruct (evaluate_post p route bag1 payload1) as [[post bag2] payload2]. done.
Qed.

(** ** Redaction, end to end *)

Lemma set_concrete_total root q cur v : get_concrete root q = Some cur -> is_Some (set_concrete root q v).
Proof.
  unfold set_concrete. destruct (split_last q) as [[parents leaf]|] eqn:E; [|done].
  apply split_last_some in E as ->. revert root. induction parents as [|seg parents IH]; intros root; simpl.
  - destruct root as [| | | |items|m]; simpl; try done. unfold vec_get.
    destruct (parse_usize leaf); [|done]. by destruct (vec_index items z).
  - destruct root as [| | | |items|m]; simpl; try done.
    + destruct (parse_usize seg) as [i|]; [|done]. unfold vec_get.
      destruct (vec_index items i) as [n|]; [|done]. destruct (items !! n) as [c|]; [|done].
      intros [c' ->]%IH. done.
    + destruct (map_get seg m) as [c|]; [|done]. intros [c' ->]%IH. done.
Qed.

(** The path holds the redaction mark, or nothing. *)
Definition hidden (root : json) (q : list string) : Prop :=
  get_concrete root q = Some REDACTED \/ get_concrete root q = None.

Lemma hidden_set root q root' q' :
  set_concrete root q REDACTED = Some root' -> hidden root q' -> hidden root' q'.
Proof.
  intros Hs Hq. unfold hidden in *.
  destruct (set_scalar_frame _ _ _ _ q' Hs eq_refl) as [E|[E|E]]; rewrite ?E; auto.
  unfold no_container. by destruct Hq as [->| ->].
Qed.

Lemma apply_redact_hides p bag field phase i paths root taints modified :
  let '(d, (root', _, _)) :=
    apply_paths p (mkPipeline [StRedact None]) bag field phase i paths root taints modified in
  d = None /\ (forall q, q ∈ paths -> hidden root' q) /\ (forall q, hidden root q -> hidden root' q).
Proof.
  revert i root taints modified. induction paths as [|c paths IH]; intros i root taints modified; simpl.
  { split; [done|]. split; [|done]. by intros q ?%not_elem_of_nil. }
  destruct (get_concrete root c) as [cur|] eqn:Eg; simpl.
  - destruct (set_concrete_total root c cur REDACTED Eg) as [root1 Es]. rewrite Es.
    specialize (IH (S i) root1 (taints ++ []) true).
    destruct (apply_paths _ _ _ _ _ _ _ _ _ _) as [d [[root' t] m]]. destruct IH as (-> & Hin & Hk).
    split; [done|]. split.
    + intros q [->|?]%elem_of_cons; [|auto]. apply Hk. left.
      by eapply set_get.
    + intros q Hq. apply Hk. by eapply hidden_set.
  - specialize (IH (S i) root taints modified).
    destruct (apply_paths _ _ _ _ _ _ _ _ _ _) as [d [[root' t] m]]. destruct IH as (-> & Hin & Hk).
    split; [done|]. split; [|done]. intros q [->|?]%elem_of_cons; [|auto]. apply Hk. by right.
Qed.

Lemma pure_phase_keeps_payload p effects bag phase payload :
  existsb contains_mutation effects = false ->
  (evaluate_effects p effects bag phase payload).2 = payload.
Proof.
  intros Hm. unfold evaluate_effects. set (st0 := mkState bag [] [] false false payload).
  assert (Hw : same_store st0 (walk_effects (fun i effect =>
    dispatch_effect effect (i :: p) (top_source effect) phase) 0 effects st0).2).
  { apply (walk_effects_inv _ (same_store st0) (fun _ s => same_store st0 s)); [done|done| |done].
    intros i e s He Hs. apply existsb_false_iff in Hm. rewrite Forall_forall in Hm.
    etrans; [exact Hs|]. by apply mutation_free_pure, Hm. }
  destruct Hw as (_ & Hp & _). by destruct (walk_effects _ _ _ _) as [[] s].
Qed.

(** Claim C1. Redaction holds end to end. Take a route whose argument rule redacts a field
    unconditionally and whose policy does not rewrite the payload: if the call is forwarded,
    every argument the field's pattern names, [**], arrays and key case included, is the
    redaction mark or gone. Too large an expansion is a deny, never a partial redaction. *)
Theorem redaction_end_to_end p route bag payload field source :
  rt_args route = [mkFieldRule field (mkPipeline [StRedact None]) source] ->
  existsb contains_mutation (pre_invocation route) = false ->
  let '(d, _, payload') := evaluate_pre p route bag payload in
  forwards d = true ->
  forall q, matches (pl_args payload) (split "." field) q -> hidden (pl_args payload') q.
Proof.
  intros Hr Hm. unfold evaluate_pre. rewrite Hr. cbn [apply_field_rules fr_field fr_pipeline stages].
  destruct (expand_for_pipeline _ _ _) as [paths|] eqn:Ex; [|by intros ?].
  pose proof (apply_redact_hides (0 :: 0 :: p) bag field Pre 0 paths (pl_args payload) [] false) as Ha.
  destruct (apply_paths _ _ _ _ _ _ _ _ _ _) as [d [[args t] m]]. destruct Ha as (-> & Hin & _).
  set (payload1 := mkPayload args (pl_result payload) (pl_structured payload)).
  pose proof (pure_phase_keeps_payload (1 :: p) _ bag Pre payload1 Hm) as Hp.
  destruct (evaluate_effects _ _ _ _ _) as [[sv bag'] payload']. simpl in Hp. subst payload'.
  intros _ q Hq. simpl. apply Hin. by apply (expand_redact_matches (pl_args payload) field [StRedact None] paths eq_refl Ex).
Qed.

(** ** Layers *)

(** A more specific layer that only adds policy steps cannot loosen a route: a
    call the base route's pre half denies is denied by the layered route, with the same
    reason, taints and payload. *)
Theorem layer_cannot_loosen p base more bag payload :
  rt_args more = [] ->
  is_deny (rd_decision (evaluate_pre p base bag payload).1.1) = true ->
  evaluate_pre p (apply_layer base more) bag payload = evaluate_pre p base bag payload.
Proof.
  intros Hm. unfold evaluate_pre, apply_layer, layer_fields. cbn [rt_args pre_invocation]. rewrite Hm.
  rewrite app_nil_r. replace (List.filter _ (rt_args base)) with (rt_args base).
  2: { symmetry. generalize (rt_args base). intros rs. induction rs as [|r rs IH]; [done|].
       cbn [List.filter existsb negb] in *. by rewrite IH. }
  destruct (apply_field_rules _ _ _ _ _ _ _ _ _) as [[d|] [[args t] m]]; [done|].
  pose proof (deny_stable (1 :: p) (pre_invocation base) (pre_invocation more) bag Pre
    (mkPayload args (pl_result payload) (pl_structured payload))) as Hd.
  destruct (evaluate_effects _ (pre_invocation base) _ _ _) as [[sv bag'] payload']. simpl in *.
  intros Hdeny. by rewrite Hd.
Qed.
End Props.

(** ** Witnesses *)

Definition w_rule : FieldRule := mkFieldRule "**.ssn" (mkPipeline [StRedact None]) "r1".
Definition w_route : CompiledRoute := mkRoute "k" [w_rule] [EffPlugin "audit"] [] [] ∅ None.

Lemma redaction_end_to_end_witness :
  let r := @evaluate_pre ascii_platform allow_host [] w_route bag_new (RoutePayload_new w_doc) in
  forwards r.1.1 = true /\ hidden (pl_args r.2) ["a"; "0"; "SSN"].
Proof.
  cbv zeta. split; [vm_compute; reflexivity|].
  pose proof (@redaction_end_to_end ascii_platform allow_host [] w_route bag_new (RoutePayload_new w_doc)
    "**.ssn" "r1" eq_refl eq_refl) as Hx.
  assert (Hf : forwards (@evaluate_pre ascii_platform allow_host [] w_route bag_new
    (RoutePayload_new w_doc)).1.1 = true) by (vm_compute; reflexivity).
  destruct (evaluate_pre _ _ _ _) as [[d bag'] payload']. apply (Hx Hf).
  change (split "." "**.ssn") with ["**"; "ssn"].
  eapply m_star_object; [apply list_elem_of_here|].
  eapply (m_star_array _ 0); [reflexivity|]. apply m_star_here.
  eapply m_key; [discriminate|apply list_elem_of_here|reflexivity|constructor].
Defined.



