(* ===== verification/Routing.v ===== *)
(** * The candidate constraint the router reads ([ppe-core/src/extensions/routing.rs])

    The folded constraint, the test of one backend against it ([accepts]), and the glob
    matcher for model names. *)

From Stdlib Require Import Ascii String.
From S2P Require Import Prelude RustStr Constraint.

(** The wire type's own [OnEmpty]. *)
Inductive WireOnEmpty : Type := WireDeny | WireFallback.

Record CandidateConstraintExtension : Type := mkExtension {
  ce_allow_models : option (list string);
  ce_deny_models : list string;
  ce_allow_regions : option (list string);
  ce_allow_sites : option (list string);
  ce_max_cost_tiers : list string;
  ce_custom : gmap string string;
  ce_on_empty : WireOnEmpty;
}.

Definition extension_is_empty (c : CandidateConstraintExtension) : bool :=
  is_none (ce_allow_models c) && is_nil (ce_deny_models c) && is_none (ce_allow_regions c)
  && is_none (ce_allow_sites c) && is_nil (ce_max_cost_tiers c) && bool_decide (ce_custom c = ∅).

Definition LABEL_MODEL : string := "model".
Definition LABEL_REGION : string := "region".
Definition LABEL_SITE : string := "site".
Definition LABEL_COST_TIER : string := "cost_tier".

(** [BackendLabels]: a backend is its label lookup. *)
Definition BackendLabels : Type := string -> option string.

(** ** Globs *)

(** [while p.get(pi) == Some(&b'*') { pi += 1 } pi == p.len()]. *)
Fixpoint only_stars (p : list ascii) : bool :=
  match p with [] => true | c :: p' => Ascii.eqb c "*" && only_stars p' end.

(** The loop. [p] and [t] are the pattern from [pi] and the text from [ti]; [star] is the
    pattern after the last [*] and the text from [resume]. *)
Fixpoint glob_loop (fuel : nat) (p t : list ascii) (star : option (list ascii * list ascii)) : bool :=
  match fuel with
  | O => false
  | S fuel' =>
      match t with
      | [] => only_stars p
      | tb :: t' =>
          let mismatch :=
            match star with
            | Some (after, resume) =>
                let resume := tail resume in glob_loop fuel' after resume (Some (after, resume))
            | None => false
            end in
          match p with
          | pb :: p' =>
              if Ascii.eqb pb tb then glob_loop fuel' p' t' star
              else if Ascii.eqb pb "*" then glob_loop fuel' p' t (Some (p', t))
              else mismatch
          | [] => mismatch
          end
      end
  end.

(** Every turn shortens the pattern or moves [resume] on, so this many turns suffice. *)
Definition glob_fuel (p t : list ascii) : nat := S (length t * (length p + 2) + length p).

Definition glob_match (pattern text : string) : bool :=
  let p := list_ascii_of_string pattern in
  let t := list_ascii_of_string text in
  glob_loop (glob_fuel p t) p t None.

(** ** Acceptance *)

(** An allow-list over a label: unset, or the label is there and [ok] with some entry. *)
Definition allowed (allow : option (list string)) (label : option string)
    (ok : string -> string -> bool) : bool :=
  match allow with
  | None => true
  | Some entries => is_some_and (fun l => existsb (fun x => ok x l) entries) label
  end.

Definition tiers_ok (ceilings : list string) (tier : option string) (tier_rank : string -> option N) : bool :=
  match ceilings with
  | [] => true
  | _ =>
      match tier with
      | None => false
      | Some bt =>
          match tier_rank bt with
          | None => false
          | Some backend_rank =>
              forallb (fun ceiling =>
                is_some_and (fun ceiling_rank => (backend_rank <=? ceiling_rank)%N) (tier_rank ceiling))
                ceilings
          end
      end
  end.

Definition accepts (c : CandidateConstraintExtension) (backend : BackendLabels)
    (tier_rank : string -> option N) : bool :=
  allowed (ce_allow_models c) (backend LABEL_MODEL) glob_match
  && negb (is_some_and (fun m => existsb (fun pat => glob_match pat m) (ce_deny_models c))
             (backend LABEL_MODEL))
  && allowed (ce_allow_regions c) (backend LABEL_REGION) String.eqb
  && allowed (ce_allow_sites c) (backend LABEL_SITE) String.eqb
  && tiers_ok (ce_max_cost_tiers c) (backend LABEL_COST_TIER) tier_rank
  && forallb (fun kv => is_some_and (fun bv => String.eqb bv kv.2) (backend kv.1))
       (sorted_entries (ce_custom c)).

Example glob_examples :
  glob_match "anthropic/*" "anthropic/claude-sonnet-4" = true
  /\ glob_match "*/claude-*-4" "anthropic/claude-sonnet-4" = true
  /\ glob_match "*/claude-*-4" "anthropic/claude-sonnet-5" = false
  /\ glob_match "a*b*c" "axxbyybc" = true /\ glob_match "" "" = true /\ glob_match "*" "" = true.
Proof. vm_compute. repeat split. Qed.

(** ** What a glob means *)

(** [*] stands for any run of characters, every other character for itself. *)
Inductive globs : list ascii -> list ascii -> Prop :=
| g_nil : globs [] []
| g_char c p t : c <> "*"%char -> globs p t -> globs (c :: p) (c :: t)
| g_star_end p t : globs p t -> globs ("*"%char :: p) t
| g_star_more p c t : globs ("*"%char :: p) t -> globs ("*"%char :: p) (c :: t).

Lemma globs_star_app p u t : globs p t -> globs ("*"%char :: p) (u ++ t).
Proof. intros Hg. induction u as [|c u IH]; simpl; [by constructor|by constructor]. Qed.

Lemma globs_star_inv p t :
  globs ("*"%char :: p) t <-> exists u t', t = u ++ t' /\ globs p t'.
Proof.
  split; [|intros (u & t' & -> & Hg); by apply globs_star_app].
  remember ("*"%char :: p) as q eqn:Eq. intros Hg. revert p Eq.
  induction Hg as [|c p0 t Hc _ _|p0 t Hg _|p0 c t _ IH]; intros p Eq; simplify_eq.
  - by exists [], t.
  - destruct (IH p eq_refl) as (u & t' & -> & Hg). by exists (c :: u), t'.
Qed.

Lemma only_stars_globs p : only_stars p = true <-> globs p [].
Proof.
  induction p as [|c p IH]; simpl; [split; [constructor|done]|].
  rewrite andb_true_iff, IH, Ascii.eqb_eq. split; [by intros [-> ?]; constructor|].
  inversion 1; subst; auto.
Qed.

(** What the loop can still match: from here, or from the last star. *)
Definition glob_state (p t : list ascii) (star : option (list ascii * list ascii)) : Prop :=
  globs p t \/ match star with
               | Some (after, resume) => globs ("*"%char :: after) (tail resume)
               | None => False
               end.

Lemma globs_tail p t : globs ("*"%char :: p) (tail t) -> globs ("*"%char :: p) t.
Proof. destruct t; simpl; [done|by constructor]. Qed.

Lemma glob_loop_sound fuel p t star : glob_loop fuel p t star = true -> glob_state p t star.
Proof.
  unfold glob_state. revert p t star. induction fuel as [|fuel IH]; intros p t star; simpl; [done|].
  assert (Hmis : match star with
    | Some (after, resume) => glob_loop fuel after (tail resume) (Some (after, tail resume))
    | None => false
    end = true -> match star with
    | Some (after, resume) => globs ("*"%char :: after) (tail resume)
    | None => False
    end).
  { destruct star as [[after resume]|]; [|done]. intros [Hg|Hg]%IH; [by constructor|by apply globs_tail]. }
  destruct t as [|tb t]; [by intros ?%only_stars_globs; left|].
  destruct p as [|pb p]; [by right; apply Hmis|].
  destruct (Ascii.eqb_spec pb tb) as [->|Hne].
  - intros [Hg|Hs]%IH; [|by right]. left.
    destruct (decide (tb = "*"%char)) as [->|]; [|by constructor]. by do 2 constructor.
  - destruct (Ascii.eqb_spec pb "*") as [->|Hnes]; [|by right; apply Hmis].
    intros [Hg|Hg]%IH; left; [by constructor|by constructor].
Qed.

(** A star-free prefix of a pattern matches itself. *)
Lemma globs_literal u p y :
  Forall (fun c => c <> "*"%char) u -> globs (u ++ p) y -> exists y', y = u ++ y' /\ globs p y'.
Proof.
  intros Hu. revert y. induction Hu as [|c u Hc _ IH]; intros y; simpl; [by eauto|].
  inversion 1; subst; try done. destruct (IH t) as (y' & -> & ?); [done|]. by exists y'.
Qed.

Lemma globs_star_cases p t :
  globs ("*"%char :: p) t -> globs p t \/ globs ("*"%char :: p) (tail t).
Proof.
  intros (u & t' & -> & Hg)%globs_star_inv. destruct u as [|c u]; [by left|]. right.
  by apply globs_star_app.
Qed.

(** The text between [resume] and [t] was matched literally since the last star. *)
Definition glob_inv (p t : list ascii) (star : option (list ascii * list ascii)) : Prop :=
  match star with
  | None => True
  | Some (after, resume) => exists u,
      after = u ++ p /\ resume = u ++ t /\ Forall (fun c => c <> "*"%char) u
  end.

Definition glob_measure (p t : list ascii) (star : option (list ascii * list ascii)) : nat :=
  match star with
  | None => length t * (length p + 2) + length p
  | Some (after, resume) => length resume * (length after + 2) + length p
  end.

(** A match that started again after the last star also starts at the star met now. *)
Lemma glob_restart u p t :
  Forall (fun c => c <> "*"%char) u -> t <> [] ->
  globs ("*"%char :: u ++ "*"%char :: p) (tail (u ++ t)) -> globs ("*"%char :: p) (tail t).
Proof.
  intros Hu Ht (x & y & E & Hg)%globs_star_inv.
  apply globs_literal in Hg as (y' & -> & Hg); [|done].
  destruct u as [|c u]; simpl in *.
  - rewrite E. apply globs_star_inv in Hg as (v & w & -> & Hw). rewrite (assoc_L (++)). by apply globs_star_app.
  - apply (f_equal (drop (length u))) in E. rewrite drop_app_length in E.
    change (x ++ c :: u ++ y') with (x ++ (c :: u) ++ y') in E. rewrite (assoc_L (++)) in E.
    rewrite drop_app_le in E by (rewrite length_app; simpl; lia).
    set (z := drop (length u) (x ++ c :: u)) in *.
    assert (Hz : length z > 0) by (unfold z; rewrite length_drop, length_app; simpl; lia).
    destruct z as [|d z]; [simpl in Hz; lia|]. subst t. simpl.
    apply globs_star_inv in Hg as (v & w & -> & Hw). rewrite (assoc_L (++)). by apply globs_star_app.
Qed.

Lemma glob_mismatch fuel p tb t star :
  (forall p t star, Forall (fun c => c <> "*"%char) t -> glob_inv p t star -> glob_measure p t star < fuel ->
     glob_state p t star -> glob_loop fuel p t star = true) ->
  Forall (fun c => c <> "*"%char) (tb :: t) -> glob_inv p (tb :: t) star ->
  glob_measure p (tb :: t) star < S fuel ->
  ~ globs p (tb :: t) -> glob_state p (tb :: t) star ->
  match star with
  | Some (after, resume) => glob_loop fuel after (tail resume) (Some (after, tail resume))
  | None => false
  end = true.
Proof.
  intros IH Ht Hi Hm Hno [Hg|Hs]; [done|]. destruct star as [[after resume]|]; [|done].
  destruct Hi as (u & -> & -> & Hu). simpl in Hm.
  set (resume := u ++ tb :: t) in *.
  assert (Hr : Forall (fun c => c <> "*"%char) resume) by (apply Forall_app; done).
  assert (Hl : length resume = S (length (tail resume)))
    by (unfold resume; rewrite length_app; destruct u; simpl; rewrite ?length_app; simpl; lia).
  apply IH.
  - destruct resume; simpl; [done|]. by apply Forall_cons in Hr as [_ ?].
  - by exists [].
  - simpl. rewrite Hl in Hm. rewrite length_app in *. lia.
  - apply globs_star_cases in Hs. unfold glob_state. done.
Qed.

Lemma glob_loop_complete fuel p t star :
  Forall (fun c => c <> "*"%char) t -> glob_inv p t star -> glob_measure p t star < fuel ->
  glob_state p t star -> glob_loop fuel p t star = true.
Proof.
  revert p t star. induction fuel as [|fuel IH]; intros p t star Ht Hi Hm Hs; [lia|].
  destruct t as [|tb t]; simpl.
  { apply only_stars_globs. destruct Hs as [Hg|Hs]; [done|]. destruct star as [[after resume]|]; [|done].
    destruct Hi as (u & -> & -> & Hu). rewrite app_nil_r in Hs.
    apply globs_star_inv in Hs as (x & y & E & Hg). apply globs_literal in Hg as (y' & -> & Hg); [|done].
    apply (f_equal length) in E. rewrite !length_app in E.
    destruct u as [|c u]; simpl in E; [|lia].
    by destruct y'; [|simpl in E; lia]. }
  pose proof (glob_mismatch fuel p tb t star IH Ht Hi Hm) as Hmis.
  apply Forall_cons in Ht as [Htb Ht].
  destruct p as [|pb p]; [apply Hmis; [by inversion 1|done]|].
  destruct (Ascii.eqb_spec pb tb) as [->|Hne].
  - apply IH; [done| | |].
    + destruct star as [[after resume]|]; [|done]. destruct Hi as (u & -> & -> & Hu).
      exists (u ++ [tb]). rewrite <- !(assoc_L (++)). simpl. split; [done|]. split; [done|].
      apply Forall_app. split; [done|]. by apply Forall_singleton.
    + destruct star as [[after resume]|]; simpl in *; nia.
    + destruct Hs as [Hg|Hs]; [|by right]. left. by inversion Hg; subst.
  - destruct (Ascii.eqb_spec pb "*") as [->|Hns].
    + apply IH; [by apply Forall_cons|by exists []| |].
      * destruct star as [[after resume]|]; simpl in *; [|nia].
        destruct Hi as (u & -> & -> & _). rewrite !length_app in Hm. simpl in *. nia.
      * unfold glob_state. destruct Hs as [Hg|Hs]; [by apply globs_star_cases in Hg|].
        destruct star as [[after resume]|]; [|done]. destruct Hi as (u & -> & -> & Hu).
        right. by apply (glob_restart u).
    + apply Hmis; [|done]. by inversion 1; subst.
Qed.

(** The backtracking glob matcher is sound for every text, and complete for every
    text without a [*]: it answers true exactly when the pattern, read as literals and
    [*] for any run, matches. Its loop always ends within the bound. *)
Theorem glob_match_correct pattern text :
  let p := list_ascii_of_string pattern in
  let t := list_ascii_of_string text in
  (glob_match pattern text = true -> globs p t)
  /\ (Forall (fun c => c <> "*"%char) t -> globs p t -> glob_match pattern text = true).
Proof.
  intros p t. unfold glob_match. fold p t. split.
  - by intros [Hg|?]%glob_loop_sound.
  - intros Ht Hg. apply glob_loop_complete; [done..| |by left]. simpl. unfold glob_fuel. lia.
Qed.


(** On a text that holds a [*] the matcher can miss: the pattern [*] names every
    model, yet does not match the model [*x], because a literal [*] is compared before the
    wildcard is tried. *)
Theorem glob_match_literal_star :
  globs (list_ascii_of_string "*") (list_ascii_of_string "*x") /\ glob_match "*" "*x" = false.
Proof. split; [|reflexivity]. simpl. apply (globs_star_app [] ["*"; "x"]%char []). constructor. Qed.
