(* ===== verification/Fold.v ===== *)
(** * Folding restrictions ([ppe-apl-runtime/src/candidate_constraint.rs])

    Every [restrict] a request emitted, in one constraint for the router. *)

From Stdlib Require Import Ascii String.
From S2P Require Import Prelude RustStr Constraint Routing.

Record ConstraintConflict : Type := mkConflict {
  cf_key : string;
  cf_existing : string;
  cf_incoming : string;
}.

Definition conflict_display (c : ConstraintConflict) : string :=
  "conflicting `restrict` custom label `" +:+ cf_key c +:+ "`: `" +:+ cf_existing c +:+ "` vs `"
  +:+ cf_incoming c +:+ "` (no backend can be both)".

Definition strictest (a b : WireOnEmpty) : WireOnEmpty :=
  match a, b with WireFallback, WireFallback => WireFallback | _, _ => WireDeny end.

Definition map_on_empty (v : OnEmpty) : WireOnEmpty :=
  match v with OnEmptyDeny => WireDeny | OnEmptyFallback => WireFallback end.

Definition intersect_into (acc incoming : option (list string)) : option (list string) :=
  match incoming with
  | None => acc
  | Some incoming =>
      let incoming : gset string := list_to_set incoming in
      match acc with
      | None => Some (sorted_elements incoming)
      | Some existing => Some (List.filter (fun e => bool_decide (e ∈ incoming)) existing)
      end
  end.

(** [for (k, v) in &c.custom]. *)
Fixpoint custom_loop (entries : list (string * string)) (custom : gmap string string) :
    result (gmap string string) ConstraintConflict :=
  match entries with
  | [] => Ok custom
  | (k, v) :: rest =>
      match custom !! k with
      | Some existing =>
          if String.eqb existing v then custom_loop rest custom else Err (mkConflict k existing v)
      | None => custom_loop rest (<[k := v]> custom)
      end
  end.

(** The accumulators of the loop. *)
Record FoldState : Type := mkFold {
  fd_allow_models : option (list string);
  fd_allow_regions : option (list string);
  fd_allow_sites : option (list string);
  fd_deny_models : gset string;
  fd_tiers : gset string;
  fd_custom : gmap string string;
  fd_on_empty : WireOnEmpty;
}.

Definition fold_start : FoldState := mkFold None None None ∅ ∅ ∅ WireFallback.

Definition fold_step (s : FoldState) (c : CandidateConstraint) : result FoldState ConstraintConflict :=
  match custom_loop (sorted_entries (cc_custom c)) (fd_custom s) with
  | Err e => Err e
  | Ok custom => Ok {|
      fd_allow_models := intersect_into (fd_allow_models s) (cc_allow_models c);
      fd_allow_regions := intersect_into (fd_allow_regions s) (cc_allow_regions c);
      fd_allow_sites := intersect_into (fd_allow_sites s) (cc_allow_sites c);
      fd_deny_models := fd_deny_models s ∪ list_to_set (cc_deny_models c);
      fd_tiers := match cc_max_cost_tier c with Some t => fd_tiers s ∪ {[ t ]} | None => fd_tiers s end;
      fd_custom := custom;
      fd_on_empty := strictest (fd_on_empty s) (map_on_empty (cc_on_empty c));
    |}
  end.

Fixpoint fold_loop (s : FoldState) (cs : list CandidateConstraint) : result FoldState ConstraintConflict :=
  match cs with
  | [] => Ok s
  | c :: rest => match fold_step s c with Err e => Err e | Ok s' => fold_loop s' rest end
  end.

Definition fold_finish (s : FoldState) : CandidateConstraintExtension := {|
  ce_allow_models := fd_allow_models s;
  ce_deny_models := sorted_elements (fd_deny_models s);
  ce_allow_regions := fd_allow_regions s;
  ce_allow_sites := fd_allow_sites s;
  ce_max_cost_tiers := sorted_elements (fd_tiers s);
  ce_custom := fd_custom s;
  ce_on_empty := fd_on_empty s;
|}.

Definition fold_candidate_constraints (constraints : list CandidateConstraint) :
    result (option CandidateConstraintExtension) ConstraintConflict :=
  match constraints with
  | [] => Ok None
  | _ =>
      match fold_loop fold_start constraints with
      | Err e => Err e
      | Ok s => let folded := fold_finish s in
                Ok (if extension_is_empty folded then None else Some folded)
      end
  end.

(** ** Allow-lists: the sorted intersection *)

Definition sorted_set (l : list string) : Prop := NoDup l /\ StronglySorted string_le l.

Lemma sorted_elements_sorted s : sorted_set (sorted_elements s).
Proof.
  unfold sorted_elements. split.
  - rewrite merge_sort_Permutation. apply NoDup_elements.
  - apply StronglySorted_merge_sort; apply _.
Qed.

Lemma sorted_set_unique l k :
  sorted_set l -> sorted_set k -> (forall x, x ∈ l <-> x ∈ k) -> l = k.
Proof.
  intros [Hn1 Hs1] [Hn2 Hs2] Hx. apply (StronglySorted_unique string_le); [done..|].
  by apply NoDup_Permutation.
Qed.

Lemma filter_sorted f l : sorted_set l -> sorted_set (List.filter f l).
Proof.
  intros [Hn Hs]. split.
  - induction Hn as [|x l Hx Hn IH]; simpl; [constructor|].
    apply StronglySorted_inv in Hs as [Hs _]. destruct (f x); [|auto]. constructor; [|auto].
    rewrite list_elem_of_In, filter_In, <- list_elem_of_In. naive_solver.
  - induction Hs as [|x l Hs IH Hx]; simpl; [constructor|].
    apply NoDup_cons in Hn as [_ Hn]. destruct (f x); [|auto]. constructor; [auto|].
    rewrite Forall_forall in *. intros y. rewrite list_elem_of_In, filter_In, <- list_elem_of_In. naive_solver.
Qed.

(** [narrowed allows acc]: [acc] is the intersection of the lists of [allows] that are set. *)
Definition narrowed (allows : list (option (list string))) (acc : option (list string)) : Prop :=
  match acc with
  | None => Forall (fun a => a = None) allows
  | Some l => sorted_set l /\ (exists m, Some m ∈ allows)
      /\ forall x, x ∈ l <-> forall m, Some m ∈ allows -> x ∈ m
  end.

Lemma intersect_narrowed allows acc a :
  narrowed allows acc -> narrowed (allows ++ [a]) (intersect_into acc a).
Proof.
  unfold narrowed, intersect_into. destruct a as [m|]; destruct acc as [l|].
  - intros (Hs & [m' Hm'] & Hx). split; [by apply filter_sorted|]. split; [exists m'; set_solver|].
    intros x. rewrite list_elem_of_In, filter_In, <- list_elem_of_In, bool_decide_eq_true, Hx, elem_of_list_to_set.
    split.
    + intros [Ha Hm] m0 [?|[= ->]%list_elem_of_singleton]%elem_of_app; auto.
    + intros Ha. split; [intros; apply Ha; set_solver|apply Ha; set_solver].
  - intros Hn. split; [apply sorted_elements_sorted|]. split; [exists m; set_solver|].
    intros x. rewrite sorted_elements_elem, elem_of_list_to_set. split.
    + intros Hx m0 [Hm|[= ->]%list_elem_of_singleton]%elem_of_app; [|done].
      rewrite Forall_forall in Hn. by apply Hn in Hm.
    + intros Ha. apply Ha. set_solver.
  - intros (Hs & [m' Hm'] & Hx). split; [done|]. split; [exists m'; set_solver|].
    intros x. rewrite Hx. split; intros Ha m0 Hm; apply Ha; [|set_solver].
    apply elem_of_app in Hm as [?|?%list_elem_of_singleton]; [done|done].
  - intros Hn. apply Forall_app. by split; [|apply Forall_singleton].
Qed.

Lemma narrowed_unique allows allows' acc acc' :
  (forall a, a ∈ allows <-> a ∈ allows') -> narrowed allows acc -> narrowed allows' acc' -> acc = acc'.
Proof.
  intros Ha. unfold narrowed. destruct acc as [l|], acc' as [l'|]; [| | |done].
  - intros (Hs & _ & Hx) (Hs' & _ & Hx'). f_equal. apply sorted_set_unique; [done..|].
    intros x. rewrite Hx, Hx'. by setoid_rewrite Ha.
  - intros (_ & [m Hm] & _) Hn. rewrite Forall_forall in Hn. by apply Ha, Hn in Hm.
  - intros Hn (_ & [m Hm] & _). rewrite Forall_forall in Hn. by apply Ha, Hn in Hm.
Qed.

(** ** Custom labels *)

Lemma custom_loop_ok entries m m' :
  custom_loop entries m = Ok m' ->
  forall k v, m' !! k = Some v <-> m !! k = Some v \/ (k, v) ∈ entries.
Proof.
  revert m. induction entries as [|[k0 v0] entries IH]; intros m; simpl.
  { intros [= <-] k v. set_solver. }
  intros E k v. destruct (m !! k0) as [old|] eqn:Em.
  - destruct (String.eqb_spec old v0) as [->|]; [|done]. rewrite (IH _ E).
    rewrite elem_of_cons. naive_solver.
  - rewrite (IH _ E), elem_of_cons, lookup_insert_Some. naive_solver.
Qed.

Lemma custom_loop_err entries m e :
  custom_loop entries m = Err e ->
  exists k v v', v <> v' /\ (k, v') ∈ entries /\ (m !! k = Some v \/ (k, v) ∈ entries).
Proof.
  revert m. induction entries as [|[k0 v0] entries IH]; intros m; simpl; [done|].
  destruct (m !! k0) as [old|] eqn:Em.
  - destruct (String.eqb_spec old v0) as [->|Hne].
    + intros (k & v & v' & ? & ? & ?)%IH. exists k, v, v'. set_solver.
    + intros _. exists k0, old, v0. split; [done|]. set_solver.
  - intros (k & v & v' & Hne & Hin & Hor)%IH.
    destruct Hor as [Hl|Hl]; [|exists k, v, v'; set_solver].
    apply lookup_insert_Some in Hl as [[<- <-]|[_ Hl]].
    + exists k0, v0, v'. set_solver.
    + exists k, v, v'. set_solver.
Qed.

(** ** The loop *)

(** [s] is the fold of [cs]. *)
Record folded (cs : list CandidateConstraint) (s : FoldState) : Prop := {
  f_models : narrowed (map cc_allow_models cs) (fd_allow_models s);
  f_regions : narrowed (map cc_allow_regions cs) (fd_allow_regions s);
  f_sites : narrowed (map cc_allow_sites cs) (fd_allow_sites s);
  f_deny : forall x, x ∈ fd_deny_models s <-> exists c, c ∈ cs /\ x ∈ cc_deny_models c;
  f_tiers : forall x, x ∈ fd_tiers s <-> exists c, c ∈ cs /\ cc_max_cost_tier c = Some x;
  f_custom : forall k v, fd_custom s !! k = Some v <-> exists c, c ∈ cs /\ cc_custom c !! k = Some v;
  f_on_empty : fd_on_empty s = WireDeny <-> exists c, c ∈ cs /\ cc_on_empty c = OnEmptyDeny;
}.

Lemma exists_snoc {A} (P : A -> Prop) l x :
  (exists y, y ∈ l ++ [x] /\ P y) <-> (exists y, y ∈ l /\ P y) \/ P x.
Proof. setoid_rewrite elem_of_app. setoid_rewrite list_elem_of_singleton. naive_solver. Qed.

Lemma fold_step_folded cs s c s' :
  folded cs s -> fold_step s c = Ok s' -> folded (cs ++ [c]) s'.
Proof.
  intros [Hm Hr Hs Hd Ht Hc Ho]. unfold fold_step.
  destruct (custom_loop _ _) as [custom|] eqn:Ec; [|done]. intros [= <-]. split; simpl.
  - rewrite map_app. by apply intersect_narrowed.
  - rewrite map_app. by apply intersect_narrowed.
  - rewrite map_app. by apply intersect_narrowed.
  - intros x. rewrite exists_snoc, elem_of_union, Hd, elem_of_list_to_set. done.
  - intros x. rewrite exists_snoc, <- Ht. destruct (cc_max_cost_tier c) as [t|]; [|set_solver].
    rewrite elem_of_union, elem_of_singleton. naive_solver.
  - intros k v. rewrite (custom_loop_ok _ _ _ Ec), exists_snoc, Hc, sorted_entries_elem. done.
  - rewrite exists_snoc, <- Ho. destruct (fd_on_empty s), (cc_on_empty c); simpl; naive_solver.
Qed.

Lemma fold_loop_ok seen cs s s' :
  folded seen s -> fold_loop s cs = Ok s' -> folded (seen ++ cs) s'.
Proof.
  revert seen s. induction cs as [|c cs IH]; intros seen s Hf; simpl.
  { intros [= <-]. by rewrite app_nil_r. }
  destruct (fold_step s c) as [s1|] eqn:E; [|done]. intros Hl.
  replace (seen ++ c :: cs) with ((seen ++ [c]) ++ cs) by (by rewrite <- (assoc_L (++))).
  eapply IH; [|done]. by eapply fold_step_folded.
Qed.

Lemma fold_start_folded : folded [] fold_start.
Proof.
  split; simpl; [by constructor..| | | |]; intros; rewrite ?lookup_empty;
    (split; [set_solver|by intros (? & ?%not_elem_of_nil & _)]).
Qed.

(** Two constraints require one label to hold two values. *)
Definition conflicting (cs : list CandidateConstraint) : Prop :=
  exists c c' k v v', c ∈ cs /\ c' ∈ cs /\ cc_custom c !! k = Some v /\ cc_custom c' !! k = Some v' /\ v <> v'.

Lemma fold_loop_err seen cs s e :
  folded seen s -> fold_loop s cs = Err e -> conflicting (seen ++ cs).
Proof.
  revert seen s. induction cs as [|c cs IH]; intros seen s Hf; simpl; [done|].
  destruct (fold_step s c) as [s1|e1] eqn:E.
  - intros Hl. replace (seen ++ c :: cs) with ((seen ++ [c]) ++ cs) by (by rewrite <- (assoc_L (++))).
    eapply IH; [|done]. by eapply fold_step_folded.
  - intros _. unfold fold_step in E. destruct (custom_loop _ _) as [|e2] eqn:Ec; [done|].
    apply custom_loop_err in Ec as (k & v & v' & Hne & Hin & Hor). apply sorted_entries_elem in Hin.
    destruct Hor as [(c0 & Hc0 & Hv)%(f_custom _ _ Hf)|Hv%sorted_entries_elem].
    + exists c0, c, k, v, v'. set_solver.
    + exists c, c, k, v, v'. set_solver.
Qed.

Lemma folded_consistent cs s : folded cs s -> ~ conflicting cs.
Proof.
  intros Hf (c & c' & k & v & v' & Hc & Hc' & Hv & Hv' & Hne).
  assert (fd_custom s !! k = Some v) as E by (apply (f_custom _ _ Hf); eauto).
  assert (fd_custom s !! k = Some v') as E' by (apply (f_custom _ _ Hf); eauto).
  congruence.
Qed.

(** The fold decides conflicts and computes the folded state. *)
Lemma fold_loop_spec cs :
  match fold_loop fold_start cs with
  | Ok s => folded cs s
  | Err _ => conflicting cs
  end.
Proof.
  destruct (fold_loop fold_start cs) as [s|e] eqn:E.
  - by apply (fold_loop_ok [] cs _ _ fold_start_folded).
  - by apply (fold_loop_err [] cs _ _ fold_start_folded E).
Qed.

Lemma folded_unique cs cs' s s' :
  (forall c, c ∈ cs <-> c ∈ cs') -> folded cs s -> folded cs' s' -> s = s'.
Proof.
  intros Hc [Hm Hr Hs Hd Ht Hcu Ho] [Hm' Hr' Hs' Hd' Ht' Hcu' Ho'].
  assert (Hmap : forall {A} (f : CandidateConstraint -> A) a, a ∈ map f cs <-> a ∈ map f cs').
  { intros A f a. rewrite !list_elem_of_fmap. by setoid_rewrite Hc. }
  destruct s as [am ar as_ dm tr cu oe], s' as [am' ar' as' dm' tr' cu' oe']. simpl in *.
  f_equal; try (eapply narrowed_unique; [apply Hmap|done..]).
  - apply set_eq. intros x. rewrite Hd, Hd'. by setoid_rewrite Hc.
  - apply set_eq. intros x. rewrite Ht, Ht'. by setoid_rewrite Hc.
  - apply map_eq. intros k. apply option_eq. intros v. rewrite Hcu, Hcu'. by setoid_rewrite Hc.
  - assert (oe = WireDeny <-> oe' = WireDeny) as Hoe by (rewrite Ho, Ho'; by setoid_rewrite Hc).
    destruct oe, oe'; naive_solver.
Qed.

(** The fold does not depend on the order (nor the multiplicity) in which the
    restrictions arrive, so parallel branches may merge them in any order: two lists with
    the same restrictions both conflict, or give the same constraint. *)
Theorem fold_order_independent cs cs' :
  (forall c, c ∈ cs <-> c ∈ cs') ->
  match fold_candidate_constraints cs, fold_candidate_constraints cs' with
  | Ok r, Ok r' => r = r'
  | Err _, Err _ => True
  | _, _ => False
  end.
Proof.
  intros Hc. unfold fold_candidate_constraints.
  destruct cs as [|c cs], cs' as [|c' cs']; [done| | |].
  { exfalso. by apply (not_elem_of_nil c'), Hc, list_elem_of_here. }
  { exfalso. by apply (not_elem_of_nil c), Hc, list_elem_of_here. }
  pose proof (fold_loop_spec (c :: cs)) as H1. pose proof (fold_loop_spec (c' :: cs')) as H2.
  assert (Hcf : conflicting (c :: cs) <-> conflicting (c' :: cs')).
  { unfold conflicting. by setoid_rewrite Hc. }
  destruct (fold_loop _ (c :: cs)) as [s|], (fold_loop _ (c' :: cs')) as [s'|]; [| | |done].
  - by rewrite (folded_unique _ _ _ _ Hc H1 H2).
  - by apply folded_consistent in H1; apply H1, Hcf.
  - by apply folded_consistent in H2; apply H2, Hcf.
Qed.

(** ** What the router accepts *)

(** One restriction, read on its own. *)
Definition constraint_accepts (c : CandidateConstraint) (backend : BackendLabels)
    (tier_rank : string -> option N) : bool :=
  allowed (cc_allow_models c) (backend LABEL_MODEL) glob_match
  && negb (is_some_and (fun m => existsb (fun pat => glob_match pat m) (cc_deny_models c))
             (backend LABEL_MODEL))
  && allowed (cc_allow_regions c) (backend LABEL_REGION) String.eqb
  && allowed (cc_allow_sites c) (backend LABEL_SITE) String.eqb
  && tiers_ok (match cc_max_cost_tier c with Some t => [t] | None => [] end)
       (backend LABEL_COST_TIER) tier_rank
  && forallb (fun kv => is_some_and (fun bv => String.eqb bv kv.2) (backend kv.1))
       (sorted_entries (cc_custom c)).

(** What the host does with the result of the fold: no constraint accepts everything. *)
Definition fold_accepts (r : option CandidateConstraintExtension) (backend : BackendLabels)
    (tier_rank : string -> option N) : bool :=
  match r with Some e => accepts e backend tier_rank | None => true end.

Definition tier_within (tier : option string) (tier_rank : string -> option N) (ceiling : string) : bool :=
  match tier with
  | Some bt => match tier_rank bt, tier_rank ceiling with
               | Some b, Some c => (b <=? c)%N
               | _, _ => false
               end
  | None => false
  end.

Lemma tiers_ok_forall ceilings tier rank :
  tiers_ok ceilings tier rank = true <-> forall c, c ∈ ceilings -> tier_within tier rank c = true.
Proof.
  unfold tiers_ok, tier_within. destruct ceilings as [|c0 cs]; [set_solver|].
  destruct tier as [bt|]; [|split; [done|intros Hc; by apply (Hc c0), list_elem_of_here]].
  destruct (rank bt) as [b|]; [|split; [done|intros Hc; by apply (Hc c0), list_elem_of_here]].
  rewrite forallb_true_iff, Forall_forall. split; intros Hc c Hin; specialize (Hc c Hin); by destruct (rank c).
Qed.

Lemma custom_ok_forall (m : gmap string string) (backend : BackendLabels) :
  forallb (fun kv => is_some_and (fun bv => String.eqb bv kv.2) (backend kv.1)) (sorted_entries m) = true
  <-> forall k v, m !! k = Some v -> backend k = Some v.
Proof.
  rewrite forallb_true_iff, Forall_forall. split.
  - intros Hm k v Hk%sorted_entries_elem. specialize (Hm _ Hk). simpl in Hm.
    destruct (backend k); simpl in Hm; [|done]. by apply String.eqb_eq in Hm as ->.
  - intros Hm [k v] Hk%sorted_entries_elem. simpl. rewrite (Hm _ _ Hk). simpl. apply String.eqb_refl.
Qed.

Lemma deny_ok_forall pats label :
  negb (is_some_and (fun m => existsb (fun pat => glob_match pat m) pats) label) = true
  <-> forall pat m, pat ∈ pats -> label = Some m -> glob_match pat m = false.
Proof.
  destruct label as [m|]; simpl; [|naive_solver].
  rewrite negb_true_iff, existsb_false_iff, Forall_forall. naive_solver.
Qed.

(** An intersection allows no more than each of its parts; and as much, when the test is
    equality or the parts list the same entries. *)
Lemma narrowed_allowed {A} (f : A -> option (list string)) cs acc label ok c :
  narrowed (map f cs) acc -> c ∈ cs -> allowed acc label ok = true -> allowed (f c) label ok = true.
Proof.
  intros Hn Hc. unfold allowed, narrowed in *. destruct (f c) as [m|] eqn:Em; [|done].
  assert (Hm : Some m ∈ map f cs) by (rewrite <- Em; by apply list_elem_of_fmap_2).
  destruct acc as [l|]; [|by rewrite Forall_forall in Hn; apply Hn in Hm].
  destruct Hn as (_ & _ & Hx). destruct label as [lb|]; simpl; [|done].
  rewrite !existsb_true_iff. intros (x & Hl & Ho). exists x. split; [|done]. by apply Hx.
Qed.

Lemma allowed_eq_narrowed {A} (f : A -> option (list string)) cs acc label :
  narrowed (map f cs) acc -> (forall c, c ∈ cs -> allowed (f c) label String.eqb = true) ->
  allowed acc label String.eqb = true.
Proof.
  intros Hn Hall. unfold narrowed in Hn. destruct acc as [l|]; [|done].
  destruct Hn as (_ & [m Hm] & Hx).
  assert (Hlab : forall m', Some m' ∈ map f cs -> exists lb, label = Some lb /\ lb ∈ m').
  { intros m' (c & Ec & Hc)%list_elem_of_fmap. specialize (Hall c Hc). rewrite <- Ec in Hall. simpl in Hall.
    destruct label as [lb|]; [|done]. simpl in Hall.
    apply existsb_true_iff in Hall as (x & Hin & ->%String.eqb_eq). eauto. }
  destruct (Hlab m Hm) as (lb & -> & _). simpl. apply existsb_true_iff. exists lb.
  split; [|apply String.eqb_refl]. apply Hx. intros m' Hm'. destruct (Hlab m' Hm') as (? & [= <-] & ?). done.
Qed.

(** The wire form of a fold, empty or not. *)
Lemma fold_result cs r :
  fold_candidate_constraints cs = Ok r ->
  exists s, folded cs s /\ forall backend rank, fold_accepts r backend rank = accepts (fold_finish s) backend rank.
Proof.
  unfold fold_candidate_constraints. pose proof (fold_loop_spec cs) as Hs. destruct cs as [|c cs].
  - intros [= <-]. exists fold_start. split; [done|]. intros. symmetry. unfold accepts. simpl.
    by destruct (backend LABEL_MODEL).
  - destruct (fold_loop _ _) as [s|]; [|done]. intros [= <-]. exists s. split; [done|]. intros backend rank.
    destruct (extension_is_empty (fold_finish s)) eqn:E; [|done]. simpl. symmetry.
    unfold extension_is_empty in E. split_bools. destruct s as [[] [] [] dm tr cu oe]; simpl in *; try done.
    unfold accepts. simpl. destruct (sorted_elements dm); [|done]. destruct (sorted_elements tr); [|done].
    apply bool_decide_eq_true in H0 as ->. by destruct (backend LABEL_MODEL).
Qed.

Lemma fold_accepts_each cs r backend tier_rank c :
  fold_candidate_constraints cs = Ok r -> fold_accepts r backend tier_rank = true ->
  c ∈ cs -> constraint_accepts c backend tier_rank = true.
Proof.
  intros (s & [Hm Hr Hs Hd Ht Hcu _] & Ha)%fold_result Hacc Hc. rewrite Ha in Hacc.
  unfold accepts in Hacc. simpl in Hacc. rewrite !andb_true_iff in Hacc.
  destruct Hacc as (((((Hm' & Hd') & Hr') & Hs') & Ht') & Hcu').
  unfold constraint_accepts. rewrite !andb_true_iff. repeat split.
  - by eapply narrowed_allowed.
  - rewrite deny_ok_forall in *. intros pat m Hp Hl. apply Hd'; [|done]. apply sorted_elements_elem, Hd. eauto.
  - by eapply narrowed_allowed.
  - by eapply narrowed_allowed.
  - rewrite tiers_ok_forall in *. intros t Htc. apply Ht'. apply sorted_elements_elem, Ht. exists c.
    split; [done|]. destruct (cc_max_cost_tier c); set_solver.
  - rewrite custom_ok_forall in *. intros k v Hk. apply Hcu', Hcu. eauto.
Qed.

(** The folded constraint is monotone: whatever backend it accepts is accepted by
    every single restriction that fired. No restriction is lost or weakened by the fold. *)
Theorem fold_sound cs r backend tier_rank c :
  fold_candidate_constraints cs = Ok r -> fold_accepts r backend tier_rank = true ->
  c ∈ cs -> constraint_accepts c backend tier_rank = true.
Proof. apply fold_accepts_each. Qed.

(** All the model allow-lists that are set list the same patterns. *)
Definition same_models (cs : list CandidateConstraint) : Prop :=
  forall c c' m m', c ∈ cs -> c' ∈ cs -> cc_allow_models c = Some m -> cc_allow_models c' = Some m' ->
  forall x, x ∈ m <-> x ∈ m'.

(** Claim C39. The fold is exact: when the model allow-lists that are set agree (in
    particular when at most one restriction has one), a backend passes the folded constraint
    exactly when it passes every restriction. *)
Theorem fold_exact cs r backend tier_rank :
  fold_candidate_constraints cs = Ok r -> same_models cs ->
  (fold_accepts r backend tier_rank = true
   <-> forall c, c ∈ cs -> constraint_accepts c backend tier_rank = true).
Proof.
  intros Hf Hsame. split; [intros Ha c Hc; by eapply fold_accepts_each|].
  apply fold_result in Hf as (s & [Hm Hr Hs Hd Ht Hcu _] & ->). intros Hall.
  assert (Hparts : forall c, c ∈ cs ->
    allowed (cc_allow_models c) (backend LABEL_MODEL) glob_match = true
    /\ (forall pat m, pat ∈ cc_deny_models c -> backend LABEL_MODEL = Some m -> glob_match pat m = false)
    /\ allowed (cc_allow_regions c) (backend LABEL_REGION) String.eqb = true
    /\ allowed (cc_allow_sites c) (backend LABEL_SITE) String.eqb = true
    /\ (forall t, cc_max_cost_tier c = Some t -> tier_within (backend LABEL_COST_TIER) tier_rank t = true)
    /\ (forall k v, cc_custom c !! k = Some v -> backend k = Some v)).
  { intros c Hc. specialize (Hall c Hc). unfold constraint_accepts in Hall.
    rewrite !andb_true_iff, deny_ok_forall, tiers_ok_forall, custom_ok_forall in Hall.
    destruct Hall as (((((? & ?) & ?) & ?) & Htc) & ?). repeat split; try done.
    intros t E. apply Htc. rewrite E. set_solver. }
  unfold accepts. simpl. rewrite !andb_true_iff, deny_ok_forall, tiers_ok_forall, custom_ok_forall.
  repeat split.
  - unfold narrowed in Hm. destruct (fd_allow_models s) as [l|]; [|done].
    destruct Hm as (_ & [m Hmm] & Hx). apply list_elem_of_fmap in Hmm as (c & Ec & Hc).
    destruct (Hparts c Hc) as (Ha & _). rewrite <- Ec in Ha. simpl in *.
    destruct (backend LABEL_MODEL) as [lb|]; [|done]. simpl in *.
    apply existsb_true_iff in Ha as (x & Hin & Hg). apply existsb_true_iff. exists x. split; [|done].
    apply Hx. intros m' (c' & Ec' & Hc')%list_elem_of_fmap. by apply (Hsame c c' m m').
  - intros pat m (c & Hc & Hp)%sorted_elements_elem%Hd Hl. destruct (Hparts c Hc) as (_ & Hdn & _). by eapply Hdn.
  - eapply allowed_eq_narrowed; [done|]. intros c Hc. by destruct (Hparts c Hc) as (_ & _ & ? & _).
  - eapply allowed_eq_narrowed; [done|]. intros c Hc. by destruct (Hparts c Hc) as (_ & _ & _ & ? & _).
  - intros t (c & Hc & Et)%sorted_elements_elem%Ht. destruct (Hparts c Hc) as (_ & _ & _ & _ & Htt & _). auto.
  - intros k v (c & Hc & Ek)%Hcu. destruct (Hparts c Hc) as (_ & _ & _ & _ & _ & Hck). auto.
Qed.

(** The fold refuses only the impossible: when it reports a conflict, every
    backend fails some restriction, so the deny it leads to excludes no usable backend. *)
Theorem fold_conflict_unsatisfiable cs e backend tier_rank :
  fold_candidate_constraints cs = Err e ->
  exists c, c ∈ cs /\ constraint_accepts c backend tier_rank = false.
Proof.
  unfold fold_candidate_constraints. pose proof (fold_loop_spec cs) as Hs. destruct cs as [|c0 cs]; [done|].
  destruct (fold_loop _ _); [done|]. intros _. destruct Hs as (c & c' & k & v & v' & Hc & Hc' & Hv & Hv' & Hne).
  destruct (constraint_accepts c backend tier_rank) eqn:E; [|by eauto]. exists c'. split; [done|].
  apply not_true_is_false. intros E'. unfold constraint_accepts in *. rewrite !andb_true_iff in *.
  destruct E as [_ E], E' as [_ E']. rewrite custom_ok_forall in *.
  specialize (E _ _ Hv). specialize (E' _ _ Hv'). congruence.
Qed.

(** ** Witnesses *)

Definition w_region (regions : list string) : CandidateConstraint :=
  mkConstraint None [] (Some regions) None (Some "gold") ∅ OnEmptyDeny.
Definition w_gpu (v : string) : CandidateConstraint :=
  mkConstraint None ["openai/*"] None None None {[ "gpu" := v ]} OnEmptyFallback.
Definition w_backend : BackendLabels := fun k =>
  if String.eqb k "region" then Some "eu" else if String.eqb k "cost_tier" then Some "gold"
  else if String.eqb k "gpu" then Some "h100" else None.
Definition w_rank : string -> option N := fun _ => Some 1%N.
Definition w_folded : CandidateConstraintExtension :=
  mkExtension None ["openai/*"] (Some ["eu"]) None ["gold"] {[ "gpu" := "h100" ]} WireDeny.



Lemma fold_exact_witness :
  fold_accepts (Some w_folded) w_backend w_rank = true
  <-> forall c, c ∈ [w_region ["us"; "eu"]; w_gpu "h100"; w_region ["eu"]] ->
      constraint_accepts c w_backend w_rank = true.
Proof.
  apply (fold_exact [w_region ["us"; "eu"]; w_gpu "h100"; w_region ["eu"]] (Some w_folded)).
  - vm_compute. reflexivity.
  - intros c c' m m' Hc Hc' Em. exfalso.
    repeat (apply elem_of_cons in Hc as [->|Hc]; [discriminate Em|]). by apply not_elem_of_nil in Hc.
Defined.
