(* ===== verification/LexerProps.v ===== *)
(** * The lexer reads back what is spelled

    Tokens written with a space between them lex to themselves, whatever paths (with [$]
    segments and subscripts) and numbers they hold; with the round trip of the parser, a printed
    predicate parses to the predicate that was printed. *)

From Stdlib Require Import Ascii String DecimalString DecimalN.
From S2P Require Import Prelude RustStr F64 Json Platform Attributes Rules Lexical Predicate Eval PipelineEval.

(** ** What the predicate parser guarantees

    [require] is negation; the parser reads back what the printer writes. *)

(** ** [require] *)

Section Require.
Context `{Platform}.

Lemma is_ok_with_verdict b r : is_ok_with b r = bool_decide (verdict r = Some b).
Proof. destruct r as [[]|]; destruct b; done. Qed.

Lemma is_err_verdict r : is_err r = bool_decide (verdict r = None).
Proof. by destruct r. Qed.

Lemma existsb_map_ext {A B C} (f : B -> bool) (g : A -> B) (f' : C -> bool) (g' : A -> C) l :
  Forall (fun x => f (g x) = f' (g' x)) l -> existsb f (map g l) = existsb f' (map g' l).
Proof. induction 1 as [|x l Hx _ IH]; simpl; [done|]. by rewrite Hx, IH. Qed.

Lemma normalized_parts bag parts :
  Forall (fun e => verdict (eval_expression bag (normalize_not e))
                   = option_map negb (verdict (eval_expression bag e))) parts ->
  (forall b, existsb (is_ok_with b) (map (fun e => eval_expression bag (normalize_not e)) parts)
             = existsb (is_ok_with (negb b)) (map (eval_expression bag) parts))
  /\ existsb is_err (map (fun e => eval_expression bag (normalize_not e)) parts)
     = existsb is_err (map (eval_expression bag) parts).
Proof.
  intros IH. split.
  - intros b. apply existsb_map_ext. eapply Forall_impl; [exact IH|]. intros x Hx.
    rewrite !is_ok_with_verdict, Hx. by destruct (verdict _) as [[]|], b.
  - apply existsb_map_ext. eapply Forall_impl; [exact IH|]. intros x Hx.
    rewrite !is_err_verdict, Hx. by destruct (verdict _).
Qed.

Lemma normalize_not_verdict bag e :
  verdict (eval_expression bag (normalize_not e)) = option_map negb (verdict (eval_expression bag e)).
Proof.
  induction e as [c|parts IH|parts IH|e IH|] using Expression_ind; cbn [normalize_not].
  - destruct c; simpl; repeat case_match; simplify_eq/=; rewrite ?negb_involutive; done.
  - destruct (normalized_parts bag parts IH) as [Hneg Herr].
    cbn [eval_expression]. rewrite eval_or_verdict, eval_and_verdict, !map_map, Hneg, Herr.
    clear. cbn [negb]. generalize (map (eval_expression bag) parts). intros rs.
    destruct (existsb (is_ok_with _) rs); [done|]. by destruct (existsb is_err rs).
  - destruct (normalized_parts bag parts IH) as [Hneg Herr].
    cbn [eval_expression]. rewrite eval_or_verdict, eval_and_verdict, !map_map, Hneg, Herr.
    clear. cbn [negb]. generalize (map (eval_expression bag) parts). intros rs.
    destruct (existsb (is_ok_with _) rs); [done|]. by destruct (existsb is_err rs).
  - cbn [eval_expression]. destruct (eval_expression bag e) as [[]|]; done.
  - done.
Qed.

(** [require(P)] is exactly the negation of [P], although it is stored pushed down
    to the leaves: it holds when [P] does not, fails when [P] holds, and cannot be decided
    exactly when [P] cannot. *)
Theorem require_negates bag e :
  verdict (eval_expression bag (normalize_not e)) = option_map negb (verdict (eval_expression bag e)).
Proof. apply normalize_not_verdict. Qed.
End Require.

(** ** Printing *)

Definition op_tok (op : CompareOp) : Tok :=
  match op with
  | OpEq => TEq | OpNotEq => TNotEq | OpGt => TGt | OpGtEq => TGtEq | OpLt => TLt | OpLtEq => TLtEq
  | OpContains => TContains
  end.

Definition literal_tok (l : Literal) : Tok :=
  match l with
  | LString s => TStringLit s
  | LInt i => TIntLit i
  | LFloat f => TFloatLit f
  | LBool b => TBoolLit b
  end.

Definition condition_toks (c : Condition) : list Tok :=
  match c with
  | Comparison key op value => [TIdent key; op_tok op; literal_tok value]
  | IsTrue key => [TIdent key]
  | IsFalse key => [TRequire; TLParen; TIdent key; TRParen]
  | CExists key => [TExists; TLParen; TIdent key; TRParen]
  | InSet value_key set_key false => [TIdent value_key; TIn; TIdent set_key]
  | InSet value_key set_key true => [TIdent value_key; TNotWord; TIn; TIdent set_key]
  end.

Definition paren_if (b : bool) (ts : list Tok) : list Tok :=
  if b then TLParen :: ts ++ [TRParen] else ts.

Fixpoint sep_by (sep : Tok) (parts : list (list Tok)) : list Tok :=
  match parts with
  | [] => []
  | [p] => p
  | p :: rest => p ++ sep :: sep_by sep rest
  end.

(** The tokens of an expression where an operand of level [lvl] is expected: 0 under [|],
    1 between [|], 2 between [&] and after [!]. *)
Fixpoint print (lvl : nat) (e : Expression) : list Tok :=
  match e with
  | ECondition c => condition_toks c
  | ENot inner => TNot :: print 2 inner
  | EAnd parts => paren_if (1 <? lvl)%nat (sep_by TAnd (map (print 2) parts))
  | EOr parts => paren_if (0 <? lvl)%nat (sep_by TOr (map (print 1) parts))
  | EAlways => []
  end.

(** What the grammar can write: groups have at least two members, and there is no text for
    [EAlways]. *)
Fixpoint printable (e : Expression) : bool :=
  match e with
  | ECondition _ => true
  | ENot inner => printable inner
  | EAnd parts | EOr parts => (2 <=? length parts)%nat && forallb printable parts
  | EAlways => false
  end.

Fixpoint expr_size (e : Expression) : nat :=
  match e with
  | ECondition _ | EAlways => 1
  | ENot inner => S (expr_size inner)
  | EAnd parts | EOr parts => S (list_sum (map expr_size parts))
  end.

(** ** Parsing what was printed *)

(** [k] may follow an operand of level [lvl]. *)
Definition follows (lvl : nat) (k : list Tok) : bool :=
  match k with
  | [] | TRParen :: _ => true
  | TAnd :: _ => (2 <=? lvl)%nat
  | TOr :: _ => (1 <=? lvl)%nat
  | _ => false
  end.

Lemma follows_le lvl lvl' k : lvl <= lvl' -> follows lvl k = true -> follows lvl' k = true.
Proof. intros Hl. destruct k as [|[] k]; cbn [follows]; try done; rewrite !Nat.leb_le; lia. Qed.

Section Parse.
Context `{Platform}.
Variable src : string.
Variable rec : parser Expression.

Lemma operand_loop_stop sep operand acc k fuel :
  head k <> Some sep -> operand_loop (S fuel) sep operand acc k = Ok (acc, k).
Proof. intros Hk. destruct k as [|t k]; simpl; [done|]. by rewrite decide_False by naive_solver. Qed.

Lemma chain_single sep operand combine ts e k :
  operand ts = Ok (e, k) -> head k <> Some sep -> parse_chain sep operand combine ts = Ok (e, k).
Proof. intros E Hk. unfold parse_chain. by rewrite E, operand_loop_stop. Qed.

(** The loop reads the operands that are left. *)
Lemma operand_loop_parts sep operand acc parts (pr : Expression -> list Tok) k fuel :
  (forall e k', e ∈ parts -> (k' = k \/ head k' = Some sep) -> operand (pr e ++ k') = Ok (e, k')) ->
  head k <> Some sep -> length parts < fuel ->
  operand_loop fuel sep operand acc (concat (map (fun e => sep :: pr e) parts) ++ k) = Ok (acc ++ parts, k).
Proof.
  intros Hop Hk. revert fuel acc. induction parts as [|e parts IH]; intros [|fuel] acc Hf; simpl in *; try lia.
  { rewrite app_nil_r. by apply (operand_loop_stop sep operand acc k fuel). }
  rewrite decide_True by done. rewrite <- (assoc_L (++)).
  rewrite Hop; [|set_solver|destruct parts; simpl; auto].
  rewrite IH; [by rewrite <- (assoc_L (++))| |lia]. intros; apply Hop; set_solver.
Qed.

Lemma sep_by_concat sep p ps :
  sep_by sep (p :: ps) = p ++ concat (map (fun q => sep :: q) ps).
Proof.
  revert p. induction ps as [|q ps IH]; intros p; [by rewrite app_nil_r|].
  change (sep_by sep (p :: q :: ps)) with (p ++ sep :: sep_by sep (q :: ps)). rewrite IH. done.
Qed.

Lemma chain_parts sep operand combine (pr : Expression -> list Tok) parts k :
  2 <= length parts ->
  (forall e k', e ∈ parts -> (k' = k \/ head k' = Some sep) -> operand (pr e ++ k') = Ok (e, k')) ->
  head k <> Some sep ->
  parse_chain sep operand combine (sep_by sep (map pr parts) ++ k) = Ok (combine parts, k).
Proof.
  intros Hl Hop Hk. destruct parts as [|e [|e' parts]]; simpl in Hl; [lia..|].
  set (rest := e' :: parts) in *. cbn [map]. rewrite sep_by_concat, map_map, <- (assoc_L (++)).
  unfold parse_chain. rewrite Hop; [|set_solver|right; done].
  rewrite (operand_loop_parts sep operand [] rest pr k); [done| |done|].
  - intros; apply Hop; set_solver.
  - rewrite length_app. enough (length rest <= length (concat (map (fun e => sep :: pr e) rest))) by lia.
    clear. induction rest as [|x rest IH]; simpl; [lia|]. rewrite length_app. lia.
Qed.

Lemma follows_not_sep k : (follows 1 k = true -> head k <> Some TAnd) /\ (follows 0 k = true -> head k <> Some TOr).
Proof. by destruct k as [|[] k]. Qed.

(** From an operand of [&] to a whole [|] chain with one member. *)
Lemma unary_to_and ts e k :
  parse_unary src rec (ts ++ k) = Ok (e, k) -> follows 1 k = true -> parse_and src rec (ts ++ k) = Ok (e, k).
Proof. intros E Hk. apply chain_single; [done|]. by apply follows_not_sep. Qed.

Lemma and_to_or ts e k :
  parse_and src rec (ts ++ k) = Ok (e, k) -> follows 0 k = true -> parse_or_step src rec (ts ++ k) = Ok (e, k).
Proof. intros E Hk. apply chain_single; [done|]. by apply follows_not_sep. Qed.

Lemma parse_is_true key k :
  follows 2 k = true -> parse_unary src rec (TIdent key :: k) = Ok (ECondition (IsTrue key), k).
Proof. intros Hk. simpl. by destruct k as [|[] k]. Qed.
End Parse.

Section RoundTrip.
Context `{Platform}.
Variable src : string.

Lemma parse_condition c n k :
  follows 2 k = true -> 1 <= n ->
  parse_unary src (parse_or src n) (condition_toks c ++ k) = Ok (ECondition c, k).
Proof.
  intros Hk Hn. destruct c as [key op v|key|key|key|vk sk []]; try done.
  - by destruct op, v.
  - by apply parse_is_true.
  - destruct n as [|n]; [lia|].
    assert (E : parse_or src (S n) (TIdent key :: TRParen :: k) = Ok (ECondition (IsTrue key), TRParen :: k)).
    { apply (and_to_or src (parse_or src n) [TIdent key]); [|done].
      by apply (unary_to_and src (parse_or src n) [TIdent key]); [apply parse_is_true|]. }
    cbn [condition_toks app parse_unary parse_atom]. unfold parse_require. cbn [tail require_loop].
    by rewrite E.
Qed.

(** The three levels at which an expression can be read. *)
Definition reads (n : nat) (e : Expression) : Prop :=
  (forall k, follows 2 k = true -> parse_unary src (parse_or src n) (print 2 e ++ k) = Ok (e, k))
  /\ (forall k, follows 1 k = true -> parse_and src (parse_or src n) (print 1 e ++ k) = Ok (e, k))
  /\ (forall k, follows 0 k = true -> parse_or_step src (parse_or src n) (print 0 e ++ k) = Ok (e, k)).

Lemma reads_unary n e :
  print 1 e = print 2 e -> print 0 e = print 2 e ->
  (forall k, follows 2 k = true -> parse_unary src (parse_or src n) (print 2 e ++ k) = Ok (e, k)) ->
  reads n e.
Proof.
  intros E1 E0 Hu. unfold reads. rewrite E1, E0. split; [done|].
  assert (Ha : forall k, follows 1 k = true -> parse_and src (parse_or src n) (print 2 e ++ k) = Ok (e, k)).
  { intros k Hk. apply unary_to_and; [|done]. apply Hu. apply (follows_le 1); [lia|done]. }
  split; [done|]. intros k Hk. apply and_to_or; [|done]. apply Ha. apply (follows_le 0); [lia|done].
Qed.

(** A parenthesized group. *)
Lemma reads_paren n e ts k :
  parse_or_step src (parse_or src n) (ts ++ TRParen :: k) = Ok (e, TRParen :: k) ->
  parse_unary src (parse_or src (S n)) ((TLParen :: ts ++ [TRParen]) ++ k) = Ok (e, k).
Proof. intros E. simpl. rewrite <- (assoc_L (++)). simpl. by rewrite E. Qed.

Lemma size_part e parts : e ∈ parts -> expr_size e <= list_sum (map expr_size parts).
Proof. induction parts as [|x parts IH]; [by intros ?%not_elem_of_nil|]. intros [->|?%IH]%elem_of_cons; simpl; lia. Qed.

Lemma parse_print e n : printable e = true -> expr_size e <= n -> reads n e.
Proof.
  revert n. induction e as [c|parts IH|parts IH|e IH|] using Expression_ind; intros n Hp Hn; simpl in Hn.
  - apply reads_unary; [done..|]. intros k Hk. by apply parse_condition.
  - cbn [printable] in Hp. apply andb_true_iff in Hp as [Hl Hp]. apply Nat.leb_le in Hl.
    rewrite forallb_true_iff in Hp. rewrite Forall_forall in IH, Hp.
    destruct n as [|n]; [lia|].
    assert (Ha : forall n' k, list_sum (map expr_size parts) <= n' -> follows 1 k = true ->
      parse_and src (parse_or src n') (sep_by TAnd (map (print 2) parts) ++ k) = Ok (EAnd parts, k)).
    { intros n' k Hn' Hk. apply chain_parts; [done| |by apply follows_not_sep].
      intros e k' He Hk'. apply IH; [done|by apply Hp|pose proof (size_part e parts He); lia|].
      destruct Hk' as [->|Hk']; [by apply (follows_le 1); [lia|]|by destruct k' as [|[] k']]. }
    unfold reads. cbn [print paren_if Nat.ltb Nat.leb]. split; [|split].
    + intros k Hk. apply reads_paren. apply and_to_or; [|done]. apply Ha; [lia|done].
    + intros k Hk. apply Ha; [lia|done].
    + intros k Hk. apply and_to_or; [|done]. apply Ha; [lia|]. apply (follows_le 0); [lia|done].
  - cbn [printable] in Hp. apply andb_true_iff in Hp as [Hl Hp]. apply Nat.leb_le in Hl.
    rewrite forallb_true_iff in Hp. rewrite Forall_forall in IH, Hp.
    destruct n as [|n]; [lia|].
    assert (Ha : forall n' k, list_sum (map expr_size parts) <= n' -> follows 0 k = true ->
      parse_or_step src (parse_or src n') (sep_by TOr (map (print 1) parts) ++ k) = Ok (EOr parts, k)).
    { intros n' k Hn' Hk. apply chain_parts; [done| |by apply follows_not_sep].
      intros e k' He Hk'. apply IH; [done|by apply Hp|pose proof (size_part e parts He); lia|].
      destruct Hk' as [->|Hk']; [by apply (follows_le 0); [lia|]|by destruct k' as [|[] k']]. }
    assert (Hu : forall k, parse_unary src (parse_or src (S n))
      ((TLParen :: sep_by TOr (map (print 1) parts) ++ [TRParen]) ++ k) = Ok (EOr parts, k)).
    { intros k. apply reads_paren, Ha; [lia|done]. }
    unfold reads. cbn [print paren_if Nat.ltb Nat.leb]. split; [|split].
    + intros k Hk. apply Hu.
    + intros k Hk. by apply unary_to_and.
    + intros k Hk. apply Ha; [lia|done].
  - cbn [printable] in Hp. apply reads_unary; [done..|]. intros k Hk.
    cbn [print]. simpl. destruct (IH n Hp ltac:(lia)) as (Hu & _). by rewrite Hu.
  - done.
Qed.

Lemma paren_if_length b ts : length ts <= length (paren_if b ts).
Proof. destruct b; simpl; [rewrite length_app; lia|lia]. Qed.

Lemma sep_by_size sep (pr : Expression -> list Tok) parts :
  2 <= length parts -> Forall (fun e => expr_size e <= length (pr e)) parts ->
  S (list_sum (map expr_size parts)) <= length (sep_by sep (map pr parts)).
Proof.
  destruct parts as [|e [|e' parts]]; [simpl; lia..|]. intros _ [He Hparts]%Forall_cons.
  set (l := e' :: parts) in *. cbn [map]. rewrite sep_by_concat, length_app, map_map.
  enough (S (list_sum (map expr_size l)) <= length (concat (map (fun x => sep :: pr x) l)))
    by (change (list_sum (expr_size e :: map expr_size l)) with (expr_size e + list_sum (map expr_size l)); lia).
  assert (Hl : 1 <= length l) by (unfold l; simpl; lia). clearbody l.
  induction Hparts as [|x l Hx Hl' IH]; simpl in *; [lia|]. rewrite length_app.
  destruct l as [|y l]; simpl in *; [lia|]. specialize (IH ltac:(lia)). lia.
Qed.

Lemma print_size lvl e : printable e = true -> expr_size e <= length (print lvl e).
Proof.
  revert lvl. induction e as [c|parts IH|parts IH|e IH|] using Expression_ind; intros lvl Hp; [|..|done].
  - by destruct c as [? ? ?|?|?|?|? ? []]; simpl; lia.
  - cbn [printable] in Hp. apply andb_true_iff in Hp as [Hl Hp]. apply Nat.leb_le in Hl.
    cbn [print expr_size]. etrans; [|apply paren_if_length]. apply sep_by_size; [done|].
    rewrite forallb_true_iff in Hp. apply Forall_forall. intros x Hx. rewrite Forall_forall in IH, Hp. auto.
  - cbn [printable] in Hp. apply andb_true_iff in Hp as [Hl Hp]. apply Nat.leb_le in Hl.
    cbn [print expr_size]. etrans; [|apply paren_if_length]. apply sep_by_size; [done|].
    rewrite forallb_true_iff in Hp. apply Forall_forall. intros x Hx. rewrite Forall_forall in IH, Hp. auto.
  - simpl. specialize (IH 2 Hp). lia.
Qed.

(** The parser reads back the printed tokens and leaves none. *)
Lemma parse_printed e :
  printable e = true -> parse_or src (S (length (print 0 e))) (print 0 e) = Ok (e, []).
Proof.
  intros Hp. destruct (parse_print e (length (print 0 e)) Hp (print_size 0 e Hp)) as (_ & _ & Hr).
  specialize (Hr [] eq_refl). by rewrite app_nil_r in Hr.
Qed.
End RoundTrip.

(** ** Spelling *)

Definition is_keyword (s : string) : bool := negb (bool_decide (keyword s = TIdent s)).

Definition segment_ok (s : string) : bool :=
  negb (String.eqb s "") && string_forall is_segment_char s.

(** The plain paths, a part of the paths below: dot-separated names without [$] and without
    subscripts, not a reserved word. *)
Definition key_ok (key : string) : bool :=
  forallb segment_ok (split "." key)
  && match key with String a _ => is_ident_start a | EmptyString => false end
  && negb (is_keyword key) && negb (starts_with "not." key).

(** The plain tokens, which need no choice of text: no subscripted or [$] path and no float. *)
Definition tok_ok (t : Tok) : bool :=
  match t with
  | TIdent s => key_ok s
  | TIntLit i => in_i64 i
  | TFloatLit _ => false
  | _ => true
  end.

Definition spell (t : Tok) : string :=
  match t with
  | TIdent s => s
  | TStringLit s => quote_literal s
  | TIntLit i => show_Z i
  | TFloatLit _ => ""
  | TBoolLit b => show_bool b
  | TEq => "==" | TNotEq => "!=" | TGt => ">" | TGtEq => ">=" | TLt => "<" | TLtEq => "<="
  | TAnd => "&" | TOr => "|" | TNot => "!" | TNotWord => "not"
  | TLParen => "(" | TRParen => ")" | TComma => ","
  | TContains => "contains" | TRequire => "require" | TExists => "exists" | TIn => "in"
  end.

Definition spell_all (ts : list Tok) : string := String.concat " " (map spell ts).

(** ** Paths and numbers as they are written

    One segment of a path: [$] or not, the name, and the path in brackets behind it. *)
Record Segment : Type := mkSegment {
  seg_reserved : bool;
  seg_name : string;
  seg_subscript : option (list string)
}.

Definition subscript_text (names : list string) : string := "[" +:+ String.concat "." names +:+ "]".

Definition segment_text (s : Segment) : string :=
  (if seg_reserved s then "$" else "") +:+ seg_name s
  +:+ match seg_subscript s with Some names => subscript_text names | None => "" end.

Definition path_text (segs : list Segment) : string := String.concat "." (map segment_text segs).

Definition starts_name (s : string) : bool :=
  match s with String a _ => is_ident_start a | EmptyString => false end.

Definition segment_wf (s : Segment) : bool :=
  segment_ok (seg_name s)
  && (negb (seg_reserved s) || starts_name (seg_name s))
  && match seg_subscript s with
     | Some [] => false
     | Some names => forallb segment_ok names
     | None => true
     end.

Definition subscripted (s : Segment) : bool := bool_decide (is_Some (seg_subscript s)).

(** A path opens with a name that is not reserved and not a number; without a subscript it is
    not a keyword either, and [not] does not open a longer path. *)
Definition path_wf (segs : list Segment) : bool :=
  match segs with
  | s :: _ => negb (seg_reserved s) && starts_name (seg_name s)
  | [] => false
  end
  && forallb segment_wf segs
  && (existsb subscripted segs || negb (is_keyword (path_text segs)))
  && negb (starts_with "not." (path_text segs)).

Definition digits_ok (d : string) : bool := negb (String.eqb d "") && string_forall is_ascii_digit d.

(** An optional [-], digits, a dot, digits. *)
Definition float_text (s : string) : bool :=
  let unsigned := match strip_prefix "-" s with Some r => r | None => s end in
  match split "." unsigned with [int; frac] => digits_ok int && digits_ok frac | _ => false end.

(** The text of a token, [sf] being the text chosen for the float literals. *)
Definition write (sf : f64 -> string) (t : Tok) : string :=
  match t with TFloatLit f => sf f | _ => spell t end.

(** The tokens that have a text: every path, every [i64], and the floats [sf] writes in the
    number syntax so that they read as the value they stand for. *)
Definition written (sf : f64 -> string) (t : Tok) : Prop :=
  match t with
  | TIdent s => exists segs, s = path_text segs /\ path_wf segs = true
  | TIntLit i => in_i64 i = true
  | TFloatLit f => float_text (sf f) = true /\ parse_f64 (sf f) = Some f
  | _ => True
  end.

Definition write_all (sf : f64 -> string) (ts : list Tok) : string := String.concat " " (map (write sf) ts).

(** What may follow a spelled token: the end, or a space. *)
Definition ends_token (tail : string) : Prop := tail = "" \/ exists t, tail = String " " t.

(** ** Strings and cursors *)

Lemma take_bytes_app s t : take_bytes (String.length s) (s +:+ t) = s.
Proof. induction s as [|a s IH]; [by destruct t|]. rewrite string_app_cons. simpl. by rewrite IH. Qed.

Lemma drop_bytes_app s t : drop_bytes (String.length s) (s +:+ t) = t.
Proof. induction s as [|a s IH]; [by destruct t|]. rewrite string_app_cons. simpl. done. Qed.

Lemma drop_bytes_add n m s : drop_bytes m (drop_bytes n s) = drop_bytes (n + m) s.
Proof. revert s. induction n as [|n IH]; intros [|a s]; simpl; try done. by destruct m. Qed.

Lemma text_between_app pos s t :
  text_between (mkCursor pos (s +:+ t)) (mkCursor (pos + String.length s) t) = s.
Proof.
  unfold text_between. simpl. replace (pos + String.length s - pos) with (String.length s) by lia.
  apply take_bytes_app.
Qed.

Lemma skip_rest_app p pos s t :
  string_forall p s = true -> match t with String a _ => p a = false | EmptyString => True end ->
  skip_rest p pos (s +:+ t) = mkCursor (pos + String.length s) t.
Proof.
  revert pos. induction s as [|a s IH]; intros pos Hs Ht.
  - change ("" +:+ t) with t. simpl. rewrite Nat.add_0_r. destruct t; [done|]. simpl. by rewrite Ht.
  - simpl in Hs. apply andb_true_iff in Hs as [Ha Hs]. rewrite string_app_cons. simpl. rewrite Ha.
    rewrite IH by done. f_equal. lia.
Qed.

Lemma ends_token_not p tail :
  ends_token tail -> p " "%char = false -> match tail with String a _ => p a = false | EmptyString => True end.
Proof. by intros [->|[t ->]]. Qed.

Lemma peek_is_end b pos tail : ends_token tail -> b <> " "%char -> peek_is b (mkCursor pos tail) = false.
Proof. intros [->|[t ->]] Hb; simpl; [done|]. unfold peek_is. simpl. by destruct (Ascii.eqb_spec b " "). Qed.

(** ** Integers *)

Lemma uint_digits d : string_forall is_ascii_digit (NilEmpty.string_of_uint d) = true.
Proof. induction d; simpl; done. Qed.

Lemma digits_string n :
  let s := NilZero.string_of_uint (N.to_uint n) in
  s <> "" /\ string_forall is_ascii_digit s = true /\ parse_digits s = Some (Z.of_N n).
Proof.
  intros s. split; [|split; [|apply parse_digits_show]].
  - unfold s. by destruct (N.to_uint n).
  - unfold s. destruct (N.to_uint n) eqn:E; [done|..]; apply uint_digits.
Qed.

(** The sign and the digits of a printed integer. *)
Lemma show_Z_shape z :
  exists neg digits, show_Z z = (if neg : bool then "-" else "") +:+ digits
  /\ digits <> "" /\ string_forall is_ascii_digit digits = true
  /\ parse_digits digits = Some (if neg then - z else z)%Z.
Proof.
  destruct z as [|p|p]; simpl.
  - exists false, "0". done.
  - exists false, (NilZero.string_of_uint (N.to_uint (Npos p))).
    destruct (digits_string (Npos p)) as (? & ? & ?). done.
  - exists true, (NilZero.string_of_uint (N.to_uint (Npos p))).
    destruct (digits_string (Npos p)) as (? & ? & ?). done.
Qed.

Lemma strip_prefix_digit b s d :
  string_forall is_ascii_digit d = true -> d <> "" -> is_ascii_digit b = false ->
  strip_prefix (String b s) d = None.
Proof.
  intros Hd Hn Hb. destruct d as [|a d]; [done|]. simpl in *. apply andb_true_iff in Hd as [Ha _].
  destruct (Ascii.eqb_spec b a) as [->|]; [congruence|done].
Qed.

Lemma parse_show_Z z : in_i64 z = true -> parse_i64 (show_Z z) = Some z.
Proof.
  intros Hz. destruct (show_Z_shape z) as (neg & d & -> & Hn & Hd & Hp). unfold parse_i64. destruct neg.
  - change (strip_prefix "-" ("-" +:+ d)) with (Some d). simpl. rewrite Hp. simpl.
    rewrite Z.opp_involutive. unfold then_some. by rewrite Hz.
  - change ("" +:+ d) with d. rewrite !(strip_prefix_digit _ _ d) by done. rewrite Hp.
    unfold then_some. by rewrite Hz.
Qed.

(** ** One token *)

Section Lex.
Variable src : string.

Lemma lex_token_ident b c : is_ident_start b = true -> lex_token src b c = lex_ident_or_keyword src c.
Proof. intros Hb. destruct b as [[] [] [] [] [] [] [] []]; first [discriminate Hb|reflexivity]. Qed.

Lemma lex_token_number b c :
  Ascii.eqb b "-" || is_ascii_digit b = true -> lex_token src b c = lex_number src c.
Proof. intros Hb. destruct b as [[] [] [] [] [] [] [] []]; first [discriminate Hb|reflexivity]. Qed.

Lemma not_whitespace b :
  is_ident_start b || Ascii.eqb b "-" || is_ascii_digit b = true -> is_ascii_whitespace b = false.
Proof. destruct b as [[] [] [] [] [] [] [] []]; first [discriminate|reflexivity]. Qed.

Lemma segment_head s :
  segment_ok s = true -> exists a s', s = String a s' /\ is_segment_char a = true.
Proof.
  intros [Hn Hs]%andb_true_iff. destruct s as [|a s]; [done|].
  simpl in Hs. apply andb_true_iff in Hs as [Ha _]. eauto.
Qed.

Lemma segment_not_dollar a : is_segment_char a = true -> Ascii.eqb "$" a = false.
Proof. destruct a as [[] [] [] [] [] [] [] []]; first [discriminate|reflexivity]. Qed.

Lemma concat_cons sep s s' ss :
  String.concat sep (s :: s' :: ss) = s +:+ sep +:+ String.concat sep (s' :: ss).
Proof. done. Qed.

(** *** Subscripts *)

Definition subscript_char (a : ascii) : bool := is_segment_char a || Ascii.eqb a ".".

Lemma subscript_loop_app open pos s rest :
  string_forall subscript_char s = true ->
  subscript_loop src open pos (s +:+ String "]" rest) = Ok (mkCursor (pos + String.length s) (String "]" rest)).
Proof.
  revert pos. induction s as [|a s IH]; intros pos Hs; [by rewrite Nat.add_0_r|].
  apply andb_true_iff in Hs as [Ha Hs]. rewrite string_app_cons. cbn [subscript_loop].
  assert (Ascii.eqb a "]" = false /\ Ascii.eqb a "[" = false) as [-> ->]
    by (revert Ha; clear; destruct a as [[] [] [] [] [] [] [] []]; first [discriminate|done]).
  unfold subscript_char in Ha. rewrite Ha, IH by done. do 2 f_equal. simpl. lia.
Qed.

Lemma segment_first_not_dot s t : segment_ok s = true -> starts_with "." (s +:+ t) = false.
Proof.
  intros (a & s' & -> & Ha)%segment_head. rewrite string_app_cons. cbn [starts_with strip_prefix].
  revert Ha. clear. destruct a as [[] [] [] [] [] [] [] []]; first [discriminate|done].
Qed.

(** Dot-separated names have no empty one at either end or between two dots. *)
Lemma segment_dots s :
  string_forall is_segment_char s = true ->
  forall t, contains_dots (s +:+ t) = contains_dots t
  /\ (t <> "" -> ends_with_dot (s +:+ t) = ends_with_dot t) /\ ends_with_dot s = false.
Proof.
  induction s as [|a s IH]; intros Hs t; [done|]. apply andb_true_iff in Hs as [Ha Hs].
  destruct (IH Hs t) as (Hc & He & Hd).
  assert (Hdot : Ascii.eqb a "." = false)
    by (revert Ha; clear; destruct a as [[] [] [] [] [] [] [] []]; first [discriminate|done]).
  rewrite string_app_cons. split; [|split].
  - cbn [contains_dots]. by rewrite Hdot.
  - intros Ht. rewrite <- He by done. cbn [ends_with_dot].
    destruct (s +:+ t) eqn:E; [|done]. by destruct s, t.
  - destruct s; [done|]. exact Hd.
Qed.

Lemma names_shape names :
  names <> [] -> forallb segment_ok names = true ->
  let inner := String.concat "." names in
  inner <> "" /\ string_forall subscript_char inner = true
  /\ starts_with "." inner = false /\ ends_with_dot inner = false /\ contains_dots inner = false.
Proof.
  intros Hne Hok. cbv zeta. induction names as [|s names IH]; [done|].
  apply andb_true_iff in Hok as [Hs Hok]. pose proof (segment_head s Hs) as (a & s' & E & _).
  pose proof Hs as [_ Hc]%andb_true_iff.
  assert (Hsub : string_forall subscript_char s = true).
  { clear -Hc. induction s as [|b s IHs]; [done|]. simpl in *. apply andb_true_iff in Hc as [Hb Hc].
    unfold subscript_char at 1. by rewrite Hb, IHs. }
  destruct names as [|s2 names].
  - change (String.concat "." [s]) with s. pose proof (segment_first_not_dot s "" Hs) as Hd.
    destruct (segment_dots s Hc "") as (Hcd & _ & He). rewrite string_app_nil_r in Hd, Hcd. by subst.
  - rewrite concat_cons. destruct (IH ltac:(done) Hok) as (Hn & Hi & Hd & He & Hcd).
    set (more := String.concat "." (s2 :: names)) in *. change ("." +:+ more) with (String "." more).
    destruct (segment_dots s Hc (String "." more)) as (-> & -> & _); [|done].
    split; [by subst|]. split; [|split; [by apply segment_first_not_dot|]].
    + clear -Hsub Hi. induction s as [|b s IHs]; [exact Hi|]. rewrite string_app_cons. simpl in *.
      apply andb_true_iff in Hsub as [Hb Hsub]. by rewrite Hb, IHs.
    + cbn [ends_with_dot contains_dots]. rewrite Hcd, Hd. split; [by destruct more|done].
Qed.

Lemma lex_subscript_written names pos rest :
  names <> [] -> forallb segment_ok names = true ->
  lex_subscript src (mkCursor pos (subscript_text names +:+ rest))
  = Ok (mkCursor (pos + String.length (subscript_text names)) rest).
Proof.
  intros Hne Hok. destruct (names_shape names Hne Hok) as (Hn & Hi & Hd & He & Hc).
  unfold subscript_text. set (inner := String.concat "." names) in *. rewrite !append_assoc.
  change ("[" +:+ inner +:+ "]" +:+ rest) with (String "[" (inner +:+ String "]" rest)).
  unfold lex_subscript, advance. cbn [cur_pos cur_rest drop_bytes].
  rewrite subscript_loop_app by done. cbn [cur_pos cur_rest].
  destruct (Nat.eqb_spec (S pos + String.length inner) (S pos)) as [E|_]; [destruct inner; simpl in *; [done|lia]|].
  rewrite text_between_app, Hd, He, Hc. cbn [orb cur_pos cur_rest drop_bytes]. do 2 f_equal.
  rewrite !string_app_length. simpl. lia.
Qed.

(** *** Segments *)

(** One turn of the segment loop: [rest] starts with [.], or cannot continue the path. *)
Lemma path_loop_step fuel first hb pos s rest :
  segment_wf s = true -> (seg_reserved s = true -> first = false) ->
  match rest with String a _ => is_segment_char a = false /\ a <> "["%char | EmptyString => True end ->
  let after := mkCursor (pos + String.length (segment_text s)) rest in
  path_loop src (S fuel) first hb (mkCursor pos (segment_text s +:+ rest))
  = if peek_is "." after then path_loop src fuel false (hb || subscripted s) (advance after)
    else Ok (hb || subscripted s, after).
Proof.
  intros Hwf Hfirst Hr. cbv zeta. destruct s as [res name sub]. unfold segment_wf, segment_text, subscripted in *.
  cbn [seg_reserved seg_name seg_subscript] in *. rewrite !andb_true_iff in Hwf. destruct Hwf as [[Hname Hres] Hsub].
  destruct (segment_head name Hname) as (a & name' & Ename & Ha). pose proof Hname as [_ Hchars]%andb_true_iff.
  set (st := match sub with Some names => subscript_text names | None => "" end). rewrite !append_assoc.
  set (dollar := if res then "$" else ""). cbn [path_loop].
  assert (Hopen : (if negb first && peek_is "$" (mkCursor pos (dollar +:+ name +:+ st +:+ rest)) then
      let c := advance (mkCursor pos (dollar +:+ name +:+ st +:+ rest)) in
      if is_some_and is_ident_start (peek c) then Ok c
      else Err (err_at src pos RESERVED_SEGMENT)
    else Ok (mkCursor pos (dollar +:+ name +:+ st +:+ rest)))
    = Ok (mkCursor (pos + String.length dollar) (name +:+ st +:+ rest))).
  { unfold dollar. destruct res.
    - rewrite (Hfirst eq_refl). change ("$" +:+ name +:+ st +:+ rest) with (String "$" (name +:+ st +:+ rest)).
      unfold advance, peek_is. cbn.
      assert (is_ident_start a = true) as Hi by (by rewrite Ename in Hres).
      rewrite Ename, !string_app_cons. cbn. rewrite Hi. do 2 f_equal. lia.
    - change ("" +:+ ?x) with x. rewrite Ename, !string_app_cons. unfold peek_is. cbn [peek cur_rest is_some_and].
      rewrite (segment_not_dollar a Ha), andb_false_r. do 2 f_equal. simpl. lia. }
  cbn [cur_pos] in *. cbv zeta in Hopen. rewrite Hopen. unfold skip_while. cbn [cur_pos cur_rest].
  rewrite skip_rest_app; [|done|].
  2:{ unfold st. destruct sub as [names|]; [done|]. change ("" +:+ rest) with rest. by destruct rest; [|destruct Hr]. }
  cbn [cur_pos]. destruct (Nat.eqb_spec (pos + String.length dollar + String.length name) pos) as [E|_];
    [rewrite Ename in E; simpl in E; lia|].
  assert (Hlen : pos + String.length (dollar +:+ name +:+ st)
    = pos + String.length dollar + String.length name + String.length st) by (rewrite !string_app_length; lia).
  rewrite Hlen. destruct sub as [names|].
  - change (peek_is "[" (mkCursor _ (st +:+ rest))) with true. cbv iota. unfold st.
    rewrite lex_subscript_written by (destruct names; done). by rewrite bool_decide_true, orb_true_r by (by eexists).
  - change (st +:+ rest) with rest. rewrite bool_decide_false, orb_false_r by (by intros [? ?]).
    rewrite Nat.add_0_r. destruct (peek_is "[" _) eqn:Eb; [|done].
    exfalso. destruct rest as [|c rest]; [done|]. destruct Hr as [_ Hc].
    unfold peek_is in Eb. cbn [peek cur_rest is_some_and] in Eb. apply Ascii.eqb_eq in Eb. congruence.
Qed.

Lemma path_loop_segments segs fuel first hb pos tail :
  segs <> [] -> forallb segment_wf segs = true ->
  (first = true -> match segs with s :: _ => seg_reserved s = false | [] => True end) ->
  length segs <= fuel -> ends_token tail ->
  path_loop src fuel first hb (mkCursor pos (path_text segs +:+ tail))
  = Ok (hb || existsb subscripted segs, mkCursor (pos + String.length (path_text segs)) tail).
Proof.
  intros Hne Hok Hres Hf Ht. revert fuel first hb pos Hf Hres.
  induction segs as [|s segs IH]; intros fuel first hb pos Hf Hres; [done|].
  cbn [forallb] in Hok. apply andb_true_iff in Hok as [Hs Hok].
  destruct fuel as [|fuel]; [simpl in Hf; lia|].
  assert (Hfirst : seg_reserved s = true -> first = false).
  { intros E. destruct first; [|done]. specialize (Hres eq_refl). congruence. }
  unfold path_text. destruct segs as [|s' segs].
  - change (String.concat "." (map segment_text [s])) with (segment_text s).
    rewrite path_loop_step; [|done|done|by destruct Ht as [->|[t ->]]].
    rewrite peek_is_end by done. cbn [existsb]. by rewrite orb_false_r.
  - cbn [map]. rewrite concat_cons, !append_assoc.
    change (String.concat "." (segment_text s' :: map segment_text segs)) with (path_text (s' :: segs)).
    set (more := path_text (s' :: segs)) in *. rewrite path_loop_step by done.
    change ("." +:+ more +:+ tail) with (String "." (more +:+ tail)).
    unfold peek_is. simpl (is_some_and _ _). cbv iota. unfold advance. cbn [cur_pos cur_rest drop_bytes].
    rewrite IH; [|done|done|simpl in *; lia|done].
    change (existsb subscripted (s :: s' :: segs)) with (subscripted s || existsb subscripted (s' :: segs)).
    rewrite orb_assoc. do 2 f_equal. f_equal.
    rewrite !string_app_length. simpl. lia.
Qed.

(** *** Plain paths *)

Definition plain_segment (name : string) : Segment := mkSegment false name None.

Lemma plain_path_text names : path_text (map plain_segment names) = String.concat "." names.
Proof.
  unfold path_text. rewrite map_map. f_equal. rewrite <- (map_id names) at 2. apply map_ext. intros name.
  unfold segment_text. simpl. by rewrite string_app_nil_r.
Qed.

Lemma concat_split s : String.concat "." (split "." s) = s.
Proof.
  induction s as [|a s IH]; [done|]. simpl. pose proof (split_ne_nil "." s) as Hn.
  destruct (Ascii.eqb_spec a ".") as [->|Ha].
  - destruct (split "." s) as [|p ps]; [done|]. rewrite concat_cons, IH. done.
  - destruct (split "." s) as [|p ps]; [done|]. destruct ps as [|p' ps].
    + simpl in *. by rewrite IH.
    + rewrite concat_cons, string_app_cons. rewrite concat_cons in IH. by rewrite IH.
Qed.

Lemma split_length s : length (split "." s) <= S (String.length s).
Proof.
  induction s as [|a s IH]; simpl; [lia|]. destruct (Ascii.eqb a "."); simpl; [lia|].
  destruct (split "." s); simpl in *; lia.
Qed.

Lemma plain_path names :
  forallb segment_ok names = true ->
  forallb segment_wf (map plain_segment names) = true /\ existsb subscripted (map plain_segment names) = false.
Proof.
  induction names as [|n names IH]; [done|]. intros [Hn Hok]%andb_true_iff. destruct (IH Hok) as [Hw Hb].
  cbn [map forallb existsb]. rewrite Hw, Hb. unfold segment_wf. simpl. by rewrite Hn.
Qed.

Lemma path_length segs : forallb segment_wf segs = true -> length segs <= S (String.length (path_text segs)).
Proof.
  induction segs as [|s segs IH]; intros Hok; simpl; [lia|]. apply andb_true_iff in Hok as [Hs Hok].
  specialize (IH Hok). unfold path_text in *. destruct segs as [|s' segs]; [simpl; lia|].
  cbn [map]. rewrite concat_cons, !string_app_length. cbn [map] in IH. simpl (String.length "."). lia.
Qed.

Lemma lex_path segs pos tail :
  match segs with s :: _ => seg_reserved s = false | [] => False end -> forallb segment_wf segs = true ->
  starts_with "not." (path_text segs) = false -> ends_token tail ->
  lex_ident_or_keyword src (mkCursor pos (path_text segs +:+ tail))
  = Ok (if existsb subscripted segs then TIdent (path_text segs) else keyword (path_text segs),
        mkCursor (pos + String.length (path_text segs)) tail).
Proof.
  intros Hres Hok Hnot Ht. unfold lex_ident_or_keyword. cbn [cur_rest].
  rewrite path_loop_segments; [|by destruct segs|done|by destruct segs| |done].
  - rewrite text_between_app, Hnot. by destruct (existsb subscripted segs).
  - pose proof (path_length segs Hok). rewrite string_app_length. lia.
Qed.

(** *** Numbers *)

Lemma lex_sign neg d pos tail :
  digits_ok d = true ->
  let start := mkCursor pos (((if neg : bool then "-" else "") +:+ d) +:+ tail) in
  (if peek_is "-" start then advance start else start) = mkCursor (pos + (if neg then 1 else 0)) (d +:+ tail).
Proof.
  intros [Hn Hd]%andb_true_iff. cbv zeta. destruct neg; simpl.
  - unfold advance. simpl. f_equal. lia.
  - change ("" +:+ d) with d. destruct d as [|a d]; [done|]. simpl in Hd. apply andb_true_iff in Hd as [Ha _].
    assert (Hneg : Ascii.eqb "-" a = false) by (destruct (Ascii.eqb_spec "-" a) as [<-|]; done).
    rewrite string_app_cons. unfold peek_is. cbn [peek cur_rest is_some_and]. rewrite Hneg.
    by rewrite Nat.add_0_r.
Qed.

Lemma eat_digits_app d pos rest :
  digits_ok d = true -> match rest with String a _ => is_ascii_digit a = false | EmptyString => True end ->
  eat_digits (mkCursor pos (d +:+ rest)) = mkCursor (pos + String.length d) rest
  /\ (pos + String.length d =? pos)%nat = false.
Proof.
  intros [Hn Hd]%andb_true_iff Hr. split; [by apply skip_rest_app|].
  apply Nat.eqb_neq. destruct d; simpl in *; [done|lia].
Qed.

Lemma lex_int_written z pos tail :
  in_i64 z = true -> ends_token tail ->
  lex_number src (mkCursor pos (show_Z z +:+ tail))
  = Ok (TIntLit z, mkCursor (pos + String.length (show_Z z)) tail).
Proof.
  intros Hz Ht. pose proof (parse_show_Z z Hz) as Hp.
  destruct (show_Z_shape z) as (neg & d & E & Hn & Hd & _).
  assert (Hok : digits_ok d = true) by (unfold digits_ok; rewrite Hd; by destruct d).
  assert (Hlen : String.length (show_Z z) = (if neg then 1 else 0) + String.length d)
    by (rewrite E, string_app_length; by destruct neg).
  pose proof (lex_sign neg d pos tail Hok) as Hstart. cbv zeta in Hstart. rewrite <- E in Hstart.
  unfold lex_number. cbv zeta. rewrite Hstart. cbn [cur_pos].
  destruct (eat_digits_app d (pos + (if neg then 1 else 0)) tail Hok) as [-> Hpos]; [by apply ends_token_not|].
  cbn [cur_pos]. rewrite Hpos.
  rewrite !peek_is_end by done. simpl (_ || _). cbv iota.
  replace (pos + (if neg then 1 else 0) + String.length d) with (pos + String.length (show_Z z)) by lia.
  by rewrite text_between_app, Hp.
Qed.

Lemma split_two s a b : split "." s = [a; b] -> s = a +:+ "." +:+ b.
Proof. intros E. rewrite <- (concat_split s), E. done. Qed.

Lemma float_text_shape s :
  float_text s = true ->
  exists neg int frac, s = ((if neg : bool then "-" else "") +:+ int) +:+ "." +:+ frac
  /\ digits_ok int = true /\ digits_ok frac = true.
Proof.
  unfold float_text. intros Hs.
  assert (Hsign : exists neg, s = (if neg : bool then "-" else "") +:+
    match strip_prefix "-" s with Some r => r | None => s end).
  { destruct (strip_prefix "-" s) as [r|] eqn:E; [|by exists false].
    exists true. destruct s as [|a s]; [done|]. cbn [strip_prefix] in E. destruct (Ascii.eqb_spec "-" a) as [<-|]; [|done].
    destruct s; by injection E as <-. }
  destruct Hsign as [neg Hsign].
  destruct (split "." _) as [|int [|frac [|]]] eqn:E; try done. apply andb_true_iff in Hs as [Hi Hf].
  exists neg, int, frac. split; [|done]. rewrite Hsign, (split_two _ _ _ E), append_assoc. done.
Qed.

Lemma lex_float_written s f pos tail :
  float_text s = true -> parse_f64 s = Some f -> ends_token tail ->
  lex_number src (mkCursor pos (s +:+ tail)) = Ok (TFloatLit f, mkCursor (pos + String.length s) tail).
Proof.
  intros (neg & int & frac & E & Hi & Hf)%float_text_shape Hp Ht.
  assert (Hlen : String.length s = (if neg then 1 else 0) + String.length int + S (String.length frac))
    by (rewrite E, !string_app_length; by destruct neg).
  assert (Es : s +:+ tail = ((if neg then "-" else "") +:+ int) +:+ String "." (frac +:+ tail))
    by (by rewrite E, !append_assoc).
  pose proof (lex_sign neg int pos (String "." (frac +:+ tail)) Hi) as Hstart. cbv zeta in Hstart.
  rewrite <- Es in Hstart. unfold lex_number. cbv zeta. rewrite Hstart. cbn [cur_pos].
  destruct (eat_digits_app int (pos + (if neg then 1 else 0)) (String "." (frac +:+ tail)) Hi) as [-> Hpos]; [done|].
  cbn [cur_pos]. rewrite Hpos.
  change (peek_is "." (mkCursor _ (String "." (frac +:+ tail)))) with true. cbv iota.
  unfold advance. cbn [cur_pos cur_rest drop_bytes].
  destruct (eat_digits_app frac (S (pos + (if neg then 1 else 0) + String.length int)) tail Hf) as [-> Hpos'];
    [by apply ends_token_not|].
  cbn [cur_pos]. rewrite Hpos'.
  rewrite !peek_is_end by done. simpl (_ || _). cbv iota.
  replace (S (pos + (if neg then 1 else 0) + String.length int) + String.length frac)
    with (pos + String.length s) by lia.
  by rewrite text_between_app, Hp.
Qed.

Lemma number_first neg d :
  digits_ok d = true ->
  forall t, exists b s, ((if neg : bool then "-" else "") +:+ d) +:+ t = String b s
  /\ Ascii.eqb b "-" || is_ascii_digit b = true.
Proof.
  intros [Hn Hd]%andb_true_iff t. destruct neg; [by eexists "-"%char, _|].
  destruct d as [|a d]; [done|]. simpl in Hd. apply andb_true_iff in Hd as [Ha _].
  exists a, (d +:+ t). split; [done|]. by rewrite Ha, orb_true_r.
Qed.

Lemma lex_string_spelled s pos tail :
  drop_bytes pos src = quote_literal s +:+ tail ->
  lex_string src (mkCursor pos (quote_literal s +:+ tail))
  = Ok (TStringLit s, mkCursor (pos + String.length (quote_literal s)) tail).
Proof.
  intros E. unfold lex_string, read_literal. cbn [cur_pos]. rewrite E. unfold quote_literal.
  rewrite string_app_cons. change (is_quote squote) with true. cbv iota.
  rewrite append_assoc, literal_loop_escape. simpl. do 2 f_equal. f_equal.
  rewrite string_app_length. simpl. lia.
Qed.

(** The first byte of a path is the first byte of its first name. *)
Lemma path_first s segs :
  seg_reserved s = false -> starts_name (seg_name s) = true ->
  exists b r, path_text (s :: segs) = String b r /\ is_ident_start b = true.
Proof.
  intros Hres Hn. destruct s as [res name sub]. cbn [seg_reserved seg_name] in *. subst res.
  destruct name as [|b name]; [done|]. unfold path_text. cbn [map].
  destruct segs as [|s' segs]; [|cbn [map]; rewrite concat_cons]; unfold segment_text; cbn [seg_reserved seg_name];
    rewrite ?append_assoc; eexists b, _; (split; [reflexivity|done]).
Qed.

Lemma lex_path_token s segs pos tail :
  seg_reserved s = false -> starts_name (seg_name s) = true -> forallb segment_wf (s :: segs) = true ->
  starts_with "not." (path_text (s :: segs)) = false -> ends_token tail ->
  let w := path_text (s :: segs) in
  exists b r, w = String b r /\ is_ascii_whitespace b = false
  /\ lex_token src b (mkCursor pos (w +:+ tail))
     = Ok (if existsb subscripted (s :: segs) then TIdent w else keyword w, mkCursor (pos + String.length w) tail).
Proof.
  intros Hres Hn Hok Hnot Ht. cbv zeta. destruct (path_first s segs Hres Hn) as (b & r & E & Hb).
  exists b, r. split; [done|]. split; [apply not_whitespace; by rewrite Hb|].
  rewrite lex_token_ident by done. by apply lex_path.
Qed.

Lemma word_not_path w : segment_ok w = true -> starts_with "not." w = false.
Proof.
  intros Hw. apply not_true_is_false. unfold starts_with. intros Hp.
  do 4 (destruct w as [|? w]; [done|]; cbn [String.prefix] in Hp; case_match; [subst|done]).
  discriminate Hw.
Qed.

Lemma lex_word w pos tail :
  segment_ok w = true -> starts_name w = true -> ends_token tail ->
  exists b r, w = String b r /\ is_ascii_whitespace b = false
  /\ lex_token src b (mkCursor pos (w +:+ tail)) = Ok (keyword w, mkCursor (pos + String.length w) tail).
Proof.
  intros Hs Hn Ht. pose proof (lex_path_token (plain_segment w) [] pos tail eq_refl Hn) as E.
  assert (Ew : path_text [plain_segment w] = w) by apply (plain_path_text [w]).
  cbv zeta in E. rewrite Ew in E. apply E; [|by apply word_not_path|done].
  by apply (plain_path [w]); simpl; rewrite Hs.
Qed.

Section Written.
Variable sf : f64 -> string.

(** A written token, at the cursor, is read as itself. *)
Lemma lex_written t pos tail :
  written sf t -> ends_token tail -> drop_bytes pos src = write sf t +:+ tail ->
  exists b s, write sf t = String b s /\ is_ascii_whitespace b = false
  /\ lex_token src b (mkCursor pos (write sf t +:+ tail))
     = Ok (t, mkCursor (pos + String.length (write sf t)) tail).
Proof.
  intros Hok Ht E. destruct t; simpl in Hok; cbn [write spell] in *.
  (* operators and punctuation *)
  6-14, 16-18: destruct Ht as [->|[t ->]]; eexists _, _; (split; [reflexivity|]); (split; [reflexivity|]);
    unfold lex_token, lex_pair, peek_is, advance; simpl; do 2 f_equal; f_equal; lia.
  (* the words *)
  5-10: try destruct b; by apply lex_word.
  - destruct Hok as (segs & -> & Hwf). unfold path_wf in Hwf. rewrite !andb_true_iff, !negb_true_iff in Hwf.
    destruct Hwf as [[[Hf Hs] Hk] Hn]. destruct segs as [|g segs]; [done|].
    apply andb_true_iff in Hf as [Hres Hf]. apply negb_true_iff in Hres.
    destruct (lex_path_token g segs pos tail Hres Hf Hs Hn Ht) as (b & r & Eb & Hb & El). exists b, r.
    split; [done|]. split; [done|]. rewrite El. do 2 f_equal. destruct (existsb _ _); [done|].
    apply negb_true_iff, negb_false_iff, bool_decide_eq_true in Hk. done.
  - exists squote, (escape s +:+ str1 squote). split; [done|]. split; [done|].
    rewrite <- (lex_string_spelled s pos tail E). done.
  - destruct (show_Z_shape i) as (neg & d & Es & Hn & Hd & _).
    destruct (number_first neg d) with (t := "") as (b & s & Eb & Hb); [unfold digits_ok; rewrite Hd; by destruct d|].
    rewrite string_app_nil_r, <- Es in Eb. exists b, s. split; [done|].
    split; [apply not_whitespace; by rewrite <- orb_assoc, Hb, orb_true_r|].
    rewrite lex_token_number by done. by apply lex_int_written.
  - destruct Hok as [Hs Hp]. destruct (float_text_shape _ Hs) as (neg & int & frac & Es & Hi & _).
    destruct (number_first neg int Hi ("." +:+ frac)) as (b & s & Eb & Hb). rewrite <- Es in Eb.
    exists b, s. split; [done|]. split; [apply not_whitespace; by rewrite <- orb_assoc, Hb, orb_true_r|].
    rewrite lex_token_number by done. by apply lex_float_written.
Qed.

(** What follows the first of the written tokens. *)
Definition write_tail (ts : list Tok) : string :=
  match ts with [] => "" | _ => String " " (write_all sf ts) end.

Lemma write_all_cons t ts : write_all sf (t :: ts) = write sf t +:+ write_tail ts.
Proof. destruct ts as [|t' ts]; [by rewrite string_app_nil_r|done]. Qed.

Lemma write_tail_ends ts : ends_token (write_tail ts).
Proof. destruct ts; [by left|right; by eexists]. Qed.

Lemma drop_bytes_S pos a s : drop_bytes pos src = String a s -> drop_bytes (S pos) src = s.
Proof. intros E. rewrite <- Nat.add_1_r, <- drop_bytes_add, E. by destruct s. Qed.

Lemma tokenize_written ts pos out fuel :
  Forall (written sf) ts -> drop_bytes pos src = write_tail ts -> length ts < fuel ->
  tokenize_loop src fuel (mkCursor pos (write_tail ts)) out = Ok (out ++ ts).
Proof.
  revert pos out fuel. induction ts as [|t ts IH]; intros pos out [|fuel] Hok E Hf; simpl in Hf; try lia.
  { by rewrite app_nil_r. }
  apply Forall_cons in Hok as [Ht Hts].
  change (write_tail (t :: ts)) with (String " " (write_all sf (t :: ts))) in *.
  apply drop_bytes_S in E. rewrite write_all_cons in *.
  destruct (lex_written t (S pos) (write_tail ts) Ht (write_tail_ends ts) E) as (b & s & Es & Hb & El).
  assert (Hws : skip_ws (mkCursor pos (String " " (write sf t +:+ write_tail ts)))
    = mkCursor (S pos) (write sf t +:+ write_tail ts)).
  { rewrite Es, string_app_cons. unfold skip_ws, skip_while. simpl. by rewrite Hb. }
  cbn [tokenize_loop]. rewrite Hws. unfold peek at 1. cbn [cur_rest].
  assert (Hpeek : (match write sf t +:+ write_tail ts with String b _ => Some b | EmptyString => None end) = Some b)
    by (by rewrite Es, string_app_cons).
  rewrite Hpeek, El. rewrite IH; [by rewrite <- (assoc_L (++))|done| |lia].
  rewrite <- drop_bytes_add, E. apply drop_bytes_app.
Qed.
End Written.
End Lex.

(** The whole text: the first token has no space before it. *)
Lemma tokenize_write_all sf ts :
  Forall (written sf) ts -> tokenize_all (write_all sf ts) = Ok ts.
Proof.
  intros Hok. unfold tokenize_all. destruct ts as [|t ts]; [done|].
  apply Forall_cons in Hok as [Ht Hts]. rewrite write_all_cons.
  set (src := write sf t +:+ write_tail sf ts).
  destruct (lex_written src sf t 0 (write_tail sf ts) Ht (write_tail_ends sf ts) eq_refl) as (b & s & Es & Hb & El).
  assert (Hsrc : src = String b (s +:+ write_tail sf ts)) by (unfold src; by rewrite Es).
  cbn [tokenize_loop]. assert (Hws : skip_ws (mkCursor 0 src) = mkCursor 0 src).
  { rewrite Hsrc. unfold skip_ws, skip_while. simpl. by rewrite Hb. }
  assert (Hp : peek (mkCursor 0 src) = Some b) by (by rewrite Hsrc).
  fold src in El. rewrite Hws, Hp, El.
  rewrite (tokenize_written src sf ts); [done|done| |].
  - unfold src. apply drop_bytes_app.
  - assert (Hl : forall ts, length ts <= String.length (write_tail sf ts)).
    { clear. intros ts. induction ts as [|t ts IH]; [done|].
      change (write_tail sf (t :: ts)) with (String " " (write_all sf (t :: ts))). rewrite write_all_cons.
      simpl. rewrite string_app_length. lia. }
    unfold src. rewrite string_app_length. specialize (Hl ts). rewrite Es. simpl. lia.
Qed.

(** *** Tokens without subscripts and floats

    The plain tokens are written the same way by every choice of float texts. *)

Lemma key_is_path key : key_ok key = true -> written (fun _ => "") (TIdent key).
Proof.
  unfold key_ok. rewrite !andb_true_iff, !negb_true_iff. intros [[[Hs Hf] Hk] Hn].
  exists (map plain_segment (split "." key)). rewrite plain_path_text, concat_split. split; [done|].
  destruct (plain_path _ Hs) as [Hw Hb]. unfold path_wf. rewrite plain_path_text, concat_split, Hw, Hb, Hk, Hn.
  rewrite !andb_true_r. pose proof (concat_split key) as E.
  destruct (split "." key) as [|p ps]; [by subst|]. cbn [map seg_reserved seg_name plain_segment negb andb].
  cbn [forallb] in Hs. apply andb_true_iff in Hs as [(c & p' & -> & _)%segment_head _].
  destruct ps as [|q ps]; [|rewrite concat_cons, string_app_cons in E]; subst key; exact Hf.
Qed.

Lemma tok_ok_written t : tok_ok t = true -> written (fun _ => "") t.
Proof. destruct t; simpl; try done. apply key_is_path. Qed.

Lemma toks_ok_written ts : forallb tok_ok ts = true -> Forall (written (fun _ => "")) ts.
Proof. rewrite forallb_true_iff. intros Hok. eapply Forall_impl; [exact Hok|]. apply tok_ok_written. Qed.

Lemma write_all_plain ts : forallb tok_ok ts = true -> write_all (fun _ => "") ts = spell_all ts.
Proof.
  intros Hok. unfold write_all, spell_all. f_equal. rewrite forallb_true_iff in Hok.
  apply map_ext_in. intros t _. by destruct t.
Qed.

Definition spell_tail (ts : list Tok) : string :=
  match ts with [] => "" | _ => String " " (spell_all ts) end.

Lemma spell_all_cons t ts : spell_all (t :: ts) = spell t +:+ spell_tail ts.
Proof. destruct ts as [|t' ts]; [by rewrite string_app_nil_r|done]. Qed.

Lemma tokenize_spell_all ts : forallb tok_ok ts = true -> tokenize_all (spell_all ts) = Ok ts.
Proof. intros Hok. rewrite <- write_all_plain by done. by apply tokenize_write_all, toks_ok_written. Qed.

(** ** Trimming *)

Definition graphic (a : ascii) : bool := in_byte_range 33 126 a.

Lemma graphic_not_whitespace a t : graphic a = true -> is_whitespace (String a t) = false.
Proof.
  intros Ha. destruct t as [|b t].
  - simpl. destruct a as [[] [] [] [] [] [] [] []]; first [discriminate Ha|reflexivity].
  - apply not_true_is_false. intros Hx. unfold is_whitespace in Hx.
    apply existsb_exists in Hx as (w & Hin & E). apply String.eqb_eq in E. subst w.
    repeat (destruct Hin as [Hin|Hin]; [injection Hin as <- _; discriminate Ha|]). destruct Hin.
Qed.

Lemma graphic_not_continuation a : graphic a = true -> is_continuation a = false.
Proof. destruct a as [[] [] [] [] [] [] [] []]; first [discriminate|reflexivity]. Qed.

Lemma chars_head a s : exists t cs, chars (String a s) = String a t :: cs.
Proof. rewrite chars_cons. destruct (chars s) as [|c cs]; [by eauto|]. destruct (starts_with_continuation c); eauto. Qed.

Lemma chars_last s b : is_continuation b = false -> chars (s +:+ str1 b) = chars s ++ [str1 b].
Proof.
  intros Hb. induction s as [|a s IH]; [done|]. rewrite string_app_cons, !chars_cons, IH.
  destruct (chars s) as [|c cs]; simpl; [by rewrite Hb|]. by destruct (starts_with_continuation c).
Qed.

(** Both ends are printable ASCII. *)
Definition edged (s : string) : Prop :=
  exists a s' u b, s = String a s' /\ s = u +:+ str1 b /\ graphic a = true /\ graphic b = true.

Lemma trim_edged s : edged s -> trim s = s.
Proof.
  intros (a & s' & u & b & E1 & E2 & Ha & Hb). unfold trim.
  destruct (chars_head a s') as (t & cs & Ec).
  assert (Hd1 : drop_while is_whitespace (chars s) = chars s).
  { rewrite E1, Ec. cbn [drop_while]. by rewrite (graphic_not_whitespace a t Ha). }
  assert (Hr : rev (chars s) = str1 b :: rev (chars u)).
  { rewrite E2, chars_last by (by apply graphic_not_continuation). by rewrite rev_app_distr. }
  rewrite Hd1, Hr. cbn [drop_while]. unfold str1 at 1. rewrite (graphic_not_whitespace b "" Hb).
  rewrite <- Hr, rev_involutive.
  apply of_chars_chars.
Qed.

Lemma string_snoc a s : exists u b, String a s = u +:+ str1 b /\ (forall p, p a && string_forall p s = true -> p b = true).
Proof.
  revert a. induction s as [|c s IH]; intros a.
  - exists "", a. split; [done|]. intros p. simpl. by rewrite andb_true_r.
  - destruct (IH c) as (u & b & E & Hp). exists (String a u), b. rewrite string_app_cons, <- E.
    split; [done|]. intros p [_ Hs]%andb_true_iff. by apply Hp.
Qed.

Lemma all_graphic_edged s : s <> "" -> string_forall graphic s = true -> edged s.
Proof.
  intros Hn Hs. destruct s as [|a s]; [done|]. destruct (string_snoc a s) as (u & b & E & Hb).
  exists a, s, u, b. split; [done|]. split; [done|]. split; [|by apply Hb].
  by apply andb_true_iff in Hs as [? _].
Qed.

Lemma string_forall_impl p q s :
  (forall a, p a = true -> q a = true) -> string_forall p s = true -> string_forall q s = true.
Proof. intros Hpq. induction s as [|a s IH]; simpl; [done|]. intros [? ?]%andb_true_iff. rewrite Hpq, IH; done. Qed.

Lemma string_forall_app p s t : string_forall p (s +:+ t) = string_forall p s && string_forall p t.
Proof. induction s as [|a s IH]; [done|]. rewrite string_app_cons. simpl. by rewrite IH, andb_assoc. Qed.

Lemma segment_char_graphic a : is_segment_char a = true -> graphic a = true.
Proof. destruct a as [[] [] [] [] [] [] [] []]; first [discriminate|reflexivity]. Qed.

Lemma digit_graphic a : is_ascii_digit a = true -> graphic a = true.
Proof. destruct a as [[] [] [] [] [] [] [] []]; first [discriminate|reflexivity]. Qed.

Lemma subscript_char_graphic a : subscript_char a = true -> graphic a = true.
Proof. destruct a as [[] [] [] [] [] [] [] []]; first [discriminate|reflexivity]. Qed.

Lemma segment_graphic s : segment_wf s = true -> string_forall graphic (segment_text s) = true.
Proof.
  destruct s as [res name sub]. unfold segment_wf, segment_text. cbn [seg_reserved seg_name seg_subscript].
  rewrite !andb_true_iff. intros [[[_ Hn]%andb_true_iff _] Hsub]. rewrite !string_forall_app.
  rewrite (string_forall_impl _ _ _ segment_char_graphic Hn). destruct res; simpl (string_forall graphic _ && _).
  all: destruct sub as [names|]; [|done]; unfold subscript_text; rewrite !string_forall_app; simpl;
    rewrite andb_true_r; destruct names as [|n names]; [done|];
    destruct (names_shape (n :: names) ltac:(done) Hsub) as (_ & Hi & _);
    by rewrite (string_forall_impl _ _ _ subscript_char_graphic Hi).
Qed.

Lemma path_graphic segs : forallb segment_wf segs = true -> string_forall graphic (path_text segs) = true.
Proof.
  unfold path_text. induction segs as [|s segs IH]; [done|]. intros [Hs Hok]%andb_true_iff.
  destruct segs as [|s' segs]; [by apply segment_graphic|].
  cbn [map] in *. rewrite concat_cons, !string_forall_app, segment_graphic, IH by done. done.
Qed.

Lemma digits_graphic d : digits_ok d = true -> string_forall graphic d = true.
Proof. intros [_ Hd]%andb_true_iff. exact (string_forall_impl _ _ _ digit_graphic Hd). Qed.

Lemma write_edged sf t : written sf t -> edged (write sf t).
Proof.
  intros Hok. destruct t; simpl in Hok; cbn [write spell]; try (by apply all_graphic_edged).
  - destruct Hok as (segs & -> & Hwf). unfold path_wf in Hwf. rewrite !andb_true_iff in Hwf.
    destruct Hwf as [[[Hf Hs] _] _]. apply all_graphic_edged; [|by apply path_graphic].
    destruct segs as [|g segs]; [done|]. apply andb_true_iff in Hf as [Hres Hf]. apply negb_true_iff in Hres.
    destruct (path_first g segs Hres Hf) as (b & r & -> & _). done.
  - exists squote, (escape s +:+ str1 squote), (String squote (escape s)), squote. done.
  - destruct (show_Z_shape i) as (neg & d & -> & Hn & Hd & _).
    assert (Hg : string_forall graphic d = true) by (by apply (string_forall_impl _ _ _ digit_graphic)).
    apply all_graphic_edged; destruct neg; [done|by destruct d|done..].
  - destruct Hok as [(neg & int & frac & -> & Hi%digits_graphic & Hf%digits_graphic)%float_text_shape _].
    apply all_graphic_edged; [by destruct neg, int|].
    rewrite !string_forall_app, Hi, Hf. by destruct neg.
  - destruct b; by apply all_graphic_edged.
Qed.

Lemma edged_app s t m : edged s -> edged t -> edged (s +:+ m +:+ t).
Proof.
  intros (a & s' & _ & _ & -> & _ & Ha & _) (_ & _ & u & b & _ & -> & _ & Hb).
  exists a, (s' +:+ m +:+ u +:+ str1 b), (String a s' +:+ m +:+ u), b.
  split; [by rewrite string_app_cons|]. split; [by rewrite !append_assoc|]. done.
Qed.

Lemma write_all_edged sf ts : ts <> [] -> Forall (written sf) ts -> edged (write_all sf ts).
Proof.
  induction ts as [|t ts IH]; [done|]. intros _ [Ht Hts]%Forall_cons. destruct ts as [|t' ts].
  - by apply write_edged.
  - change (write_all sf (t :: t' :: ts)) with (write sf t +:+ " " +:+ write_all sf (t' :: ts)).
    apply edged_app; [by apply write_edged|by apply IH].
Qed.

Lemma spell_all_edged ts : ts <> [] -> forallb tok_ok ts = true -> edged (spell_all ts).
Proof. intros Hne Hok. rewrite <- write_all_plain by done. by apply write_all_edged, toks_ok_written. Qed.

(** ** Round trip *)

Section RoundTrip.
Context `{Platform}.

(** Claim C37. Predicates round-trip through their text: an expression the grammar can write
    (no empty group, no always-true leaf), printed with only the parentheses it needs and its
    tokens separated by spaces, parses back to exactly that expression: precedence, grouping,
    negation, [require], escapes in quoted strings, negative integers, paths with [$] segments
    and bracketed subscripts. Each key is the text of a path of the path syntax, each integer an
    [i64], and each float literal is written by a text of the number syntax (sign, digits, dot,
    digits) that reads as that float; which text is the writer's choice. *)
Theorem predicate_round_trip (sf : f64 -> string) e :
  printable e = true -> Forall (written sf) (print 0 e) ->
  parse_predicate (write_all sf (print 0 e)) = Ok e.
Proof.
  intros Hp Hok. assert (Hne : print 0 e <> []).
  { pose proof (print_size 0 e Hp) as Hs. intros E. rewrite E in Hs. by destruct e; simpl in Hs; lia. }
  unfold parse_predicate, PredParser_parse. rewrite trim_edged by (by apply write_all_edged).
  rewrite tokenize_write_all by done. by rewrite parse_printed.
Qed.
End RoundTrip.

(** [tools[args.name].$outcome] and [a.b] *)
Definition w_outcome : list Segment := [mkSegment false "tools" (Some ["args"; "name"]); mkSegment true "outcome" None].
Definition w_plain_path : list Segment := [plain_segment "a"; plain_segment "b"].
Definition w_half : f64 := SpecFloat.SFdiv 53 1024 (f64_of_Z (-5)) (f64_of_Z 2).

Lemma predicate_round_trip_witness :
  let e := EAnd [ENot (EOr [ECondition (IsTrue "a.b"); ECondition (IsFalse "c")]);
                 ECondition (Comparison "d" OpGtEq (LInt (-7)));
                 ECondition (Comparison "tools[args.name].$outcome" OpLt (LFloat w_half));
                 ECondition (Comparison "name" OpEq (LString "it's"))] in
  let sf := fun _ => "-2.50" in
  write_all sf (print 0 e)
  = "! ( a.b | require ( c ) ) & d >= -7 & tools[args.name].$outcome < -2.50 & name == 'it\'s'"
  /\ @parse_predicate ascii_platform (write_all sf (print 0 e)) = Ok e.
Proof.
  cbv zeta. split; [vm_compute; reflexivity|].
  apply (@predicate_round_trip ascii_platform); [vm_compute; reflexivity|].
  repeat (apply Forall_cons; split); try apply Forall_nil; try exact I.
  - by exists w_plain_path.
  - by exists [plain_segment "c"].
  - by exists [plain_segment "d"].
  - done.
  - by exists w_outcome.
  - split; vm_compute; reflexivity.
  - by exists [plain_segment "name"].
Defined.
