(* ===== verification/ParserTotal.v ===== *)
(** * Parsing always ends

    The recursions of the lexer and the parser are bounded in the model; here, that the
    bounds are never reached, whatever the text. *)

From Stdlib Require Import Ascii String.
From S2P Require Import Prelude RustStr F64 Json Platform Rules Lexical Predicate.

(** ** The lexer moves on *)

Section Lexer.
Variable src : string.

(** A cursor into [src]. *)
Definition in_src (c : Cursor) : Prop :=
  cur_rest c = drop_bytes (cur_pos c) src /\ cur_pos c + String.length (cur_rest c) = String.length src.

Lemma in_src_advance c b : in_src c -> peek c = Some b -> in_src (advance c).
Proof.
  intros [E Hl] Hp. unfold peek in Hp. destruct c as [pos rest]. simpl in *.
  destruct rest as [|a rest]; [done|]. unfold advance, in_src. simpl in *. split; [|lia].
  revert src E Hl. clear. induction pos as [|pos IH]; intros [|c src] E Hl; simpl in *; try done.
  - simplify_eq. by destruct src.
  - apply IH; [done|lia].
Qed.

Lemma peek_is_some b c : peek_is b c = true -> exists b', peek c = Some b'.
Proof. unfold peek_is. destruct (peek c); [by eauto|done]. Qed.

Lemma skip_rest_moves p pos rest :
  in_src (mkCursor pos rest) -> in_src (skip_rest p pos rest) /\ pos <= cur_pos (skip_rest p pos rest).
Proof.
  revert pos. induction rest as [|a rest IH]; intros pos Hc; simpl; [done|].
  destruct (p a); [|done]. destruct (IH (S pos)) as [? ?]; [|split; [done|lia]].
  by apply (in_src_advance (mkCursor pos (String a rest)) a).
Qed.

Lemma skip_while_moves p c :
  in_src c -> in_src (skip_while p c) /\ cur_pos c <= cur_pos (skip_while p c).
Proof. destruct c. apply skip_rest_moves. Qed.

(** [r] is an answer, and a successful one moved past [c]. *)
Definition moves {A} (c : Cursor) (cur : A -> Cursor) (r : result A ParseError) : Prop :=
  r <> Err OutOfFuel /\ forall a, r = Ok a -> in_src (cur a) /\ cur_pos c < cur_pos (cur a).

Lemma moves_err {A} c (cur : A -> Cursor) at_ msg : moves c cur (Err (err_at src at_ msg)).
Proof. by split. Qed.

Lemma moves_ok {A} c (cur : A -> Cursor) a : in_src (cur a) -> cur_pos c < cur_pos (cur a) -> moves c cur (Ok a).
Proof. intros. split; [done|]. by intros ? [= <-]. Qed.

Lemma advance_moves {A} c (cur : A -> Cursor) a b :
  in_src c -> peek c = Some b -> cur a = advance c -> moves c cur (Ok a).
Proof. intros Hc Hp E. apply moves_ok; rewrite E; [by eapply in_src_advance|simpl; lia]. Qed.

Lemma subscript_loop_moves open pos rest :
  in_src (mkCursor pos rest) ->
  subscript_loop src open pos rest <> Err OutOfFuel
  /\ forall c, subscript_loop src open pos rest = Ok c ->
       in_src c /\ pos <= cur_pos c /\ exists b, peek c = Some b.
Proof.
  revert pos. induction rest as [|b rest IH]; intros pos Hc; simpl; [done|].
  destruct (Ascii.eqb b "]"); [split; [done|]; intros c [= <-]; by eauto|].
  destruct (Ascii.eqb b "["); [done|]. destruct (_ || _); [|done].
  destruct (IH (S pos)) as [Hn Hok]; [by apply (in_src_advance (mkCursor pos (String b rest)) b)|].
  split; [done|]. intros c Hr. destruct (Hok c Hr) as (? & ? & ?). split; [done|]. split; [lia|done].
Qed.

Lemma lex_subscript_moves c b : in_src c -> peek c = Some b -> moves c id (lex_subscript src c).
Proof.
  intros Hc Hp. unfold lex_subscript. pose proof (in_src_advance c b Hc Hp) as Ha.
  destruct (subscript_loop_moves (cur_pos c) (cur_pos (advance c)) (cur_rest (advance c))) as [Hn Hok];
    [by destruct (advance c)|].
  destruct (subscript_loop _ _ _ _) as [c'|e]; [|split; [congruence|done]].
  destruct (Hok c' eq_refl) as (Hin & Hpos & b' & Hb'). simpl in Hpos.
  destruct (_ =? _)%nat; [apply moves_err|]. destruct (_ || _); [apply moves_err|].
  apply moves_ok; [by eapply in_src_advance|simpl; lia].
Qed.

Lemma in_src_length c c' :
  in_src c -> in_src c' -> cur_pos c < cur_pos c' ->
  String.length (cur_rest c') < String.length (cur_rest c).
Proof. intros [_ ?] [_ ?] ?. lia. Qed.

Lemma path_loop_moves fuel first hb c :
  in_src c -> String.length (cur_rest c) < fuel -> moves c snd (path_loop src fuel first hb c).
Proof.
  revert first hb c. induction fuel as [|fuel IH]; intros first hb c Hc Hf; [lia|]. cbn [path_loop].
  match goal with |- moves _ _ (match ?r with Ok c => _ | Err e => _ end) =>
    assert (Hr : (exists at_ msg, r = Err (err_at src at_ msg))
      \/ exists c1, r = Ok c1 /\ in_src c1 /\ cur_pos c <= cur_pos c1);
    [|destruct Hr as [(at_ & msg & ->)|(c1 & -> & Hc1 & Hp1)]; [apply moves_err|]] end.
  { destruct (negb first && peek_is "$" c) eqn:E; [|right; eauto].
    apply andb_true_iff in E as [_ [b Hb]%peek_is_some].
    destruct (is_some_and _ _); [right|left; eauto]. exists (advance c).
    split; [done|]. split; [by eapply in_src_advance|simpl; lia]. }
  destruct (skip_while_moves is_segment_char c1 Hc1) as [Hc2 Hp2].
  set (c2 := skip_while is_segment_char c1) in *.
  destruct (Nat.eqb_spec (cur_pos c2) (cur_pos c)) as [|Hne]; [apply moves_err|].
  match goal with |- moves _ _ (match ?r with Ok x => _ | Err e => _ end) =>
    assert (Hr : r <> Err OutOfFuel /\ forall x, r = Ok x -> in_src x.2 /\ cur_pos c2 <= cur_pos x.2);
    [|destruct r as [[hb' c3]|e]; destruct Hr as [Hn Hok]; [|split; [congruence|done]]] end.
  { destruct (peek_is "[" c2) eqn:E; [|split; [done|]; by intros x [= <-]].
    apply peek_is_some in E as [b Hb]. destruct (lex_subscript_moves c2 b Hc2 Hb) as [Hn Hok].
    destruct (lex_subscript src c2) as [c3|e]; [|split; [congruence|done]].
    split; [done|]. intros x [= <-]. destruct (Hok c3 eq_refl). simpl. split; [done|]. unfold id in *. lia. }
  destruct (Hok _ eq_refl) as [Hc3 Hp3]. simpl in Hc3, Hp3.
  destruct (peek_is "." c3) eqn:E; [|apply moves_ok; simpl; [done|lia]].
  apply peek_is_some in E as [b Hb]. pose proof (in_src_advance c3 b Hc3 Hb) as Hc4.
  destruct (IH false hb' (advance c3) Hc4) as [Hn' Hok'].
  { enough (String.length (cur_rest (advance c3)) < String.length (cur_rest c)) by lia.
    apply in_src_length; [done|done|simpl; lia]. }
  split; [done|]. intros x Hx. destruct (Hok' x Hx). simpl in *. split; [done|]. lia.
Qed.

Lemma lex_ident_moves c : in_src c -> moves c snd (lex_ident_or_keyword src c).
Proof.
  intros Hc. unfold lex_ident_or_keyword.
  destruct (path_loop_moves (S (String.length (cur_rest c))) true false c Hc) as [Hn Hok]; [lia|].
  destruct (path_loop _ _ _ _ _) as [[hb c']|e]; [|split; [congruence|done]].
  destruct (Hok _ eq_refl). destruct (starts_with _ _); [apply moves_err|].
  destruct hb; by apply moves_ok.
Qed.

Lemma eat_digits_moves c c' :
  in_src c -> eat_digits c = c' -> in_src c' /\ cur_pos c <= cur_pos c'.
Proof. intros Hc <-. by apply skip_while_moves. Qed.

Lemma lex_number_moves c b : in_src c -> peek c = Some b -> moves c snd (lex_number src c).
Proof.
  intros Hc Hp. unfold lex_number.
  set (c1 := if peek_is "-" c then advance c else c).
  assert (Hc1 : in_src c1 /\ cur_pos c <= cur_pos c1).
  { unfold c1. destruct (peek_is "-" c); [|done]. split; [by eapply in_src_advance|simpl; lia]. }
  destruct Hc1 as [Hc1 Hp1]. destruct (eat_digits c1) as [pos2 rest2] eqn:E2.
  destruct (eat_digits_moves _ _ Hc1 E2) as [Hc2 Hp2]. set (c2 := mkCursor pos2 rest2) in *.
  destruct (Nat.eqb_spec (cur_pos c2) (cur_pos c1)) as [|Hne]; [apply moves_err|].
  match goal with |- moves _ _ (match ?r with Ok x => _ | Err e => _ end) =>
    assert (Hr : r <> Err OutOfFuel /\ forall x, r = Ok x -> in_src x.2 /\ cur_pos c2 <= cur_pos x.2);
    [|destruct r as [[fl c3]|e]; destruct Hr as [Hn Hok]; [|split; [congruence|done]]] end.
  { destruct (peek_is "." c2) eqn:E; [|split; [done|]; by intros x [= <-]].
    apply peek_is_some in E as [b' Hb']. pose proof (in_src_advance c2 b' Hc2 Hb') as Hc3.
    destruct (eat_digits (advance c2)) as [pos3 rest3] eqn:E3.
    destruct (eat_digits_moves _ _ Hc3 E3) as [Hc4 Hp4].
    destruct (_ =? _)%nat; [done|]. split; [done|]. intros x [= <-]. simpl in *. split; [done|lia]. }
  destruct (Hok _ eq_refl) as [Hc3 Hp3]. simpl in Hc3, Hp3.
  destruct (_ || _); [apply moves_err|].
  destruct fl; [destruct (parse_f64 _)|destruct (parse_i64 _)]; try apply moves_err;
    apply moves_ok; simpl in *; try done; lia.
Qed.

Lemma literal_loop_moves open q i rest value lit :
  in_src (mkCursor i rest) -> literal_loop src open q i rest value = Ok lit ->
  in_src (mkCursor (ql_end lit) (ql_rest lit)) /\ i < ql_end lit.
Proof.
  remember (String.length rest) as n eqn:En. assert (Hn : String.length rest <= n) by lia. clear En.
  revert i rest value Hn. induction n as [|n IH]; intros i rest value Hn Hc; destruct rest as [|b rest];
    simpl in Hn; try lia; try done. cbn [literal_loop].
  pose proof (in_src_advance (mkCursor i (String b rest)) b Hc eq_refl) as Hc1. unfold advance in Hc1. simpl in Hc1.
  destruct (Ascii.eqb b q); [intros [= <-]; simpl; split; [done|lia]|].
  destruct (Ascii.eqb b backslash).
  - destruct rest as [|esc rest]; [done|]. destruct (_ || _); [|done]. intros E.
    pose proof (in_src_advance (mkCursor (S i) (String esc rest)) esc Hc1 eq_refl) as Hc2.
    unfold advance in Hc2. simpl in Hc2, Hn.
    apply IH in E; [|lia|done]. destruct E. split; [done|lia].
  - intros E. apply IH in E; [|lia|done]. destruct E. split; [done|lia].
Qed.

Lemma lex_string_moves c : in_src c -> moves c snd (lex_string src c).
Proof.
  intros Hc. unfold lex_string, read_literal. destruct c as [pos rest]. destruct Hc as [E Hl]. cbn [cur_pos cur_rest] in *.
  rewrite <- E. destruct rest as [|b rest]; [by split|]. destruct (is_quote b); [|by split].
  destruct (literal_loop _ _ _ _ _ _) as [lit|e] eqn:El; [|by split].
  apply literal_loop_moves in El as [? ?]; [apply moves_ok; simpl; [done|lia]|].
  pose proof (in_src_advance (mkCursor pos (String b rest)) b (conj E Hl) eq_refl) as Hc1.
  unfold advance in Hc1. simpl in Hc1. by destruct rest.
Qed.

Lemma lex_pair_moves c b second long short :
  in_src c -> peek c = Some b -> moves c snd (Ok (lex_pair second long short c)).
Proof.
  intros Hc Hp. pose proof (in_src_advance c b Hc Hp) as Ha. unfold lex_pair.
  destruct (peek_is second (advance c)) eqn:E; apply moves_ok; simpl; try done; try lia.
  apply peek_is_some in E as [b' Hb']. by eapply in_src_advance.
Qed.

Lemma lex_token_moves c b : in_src c -> peek c = Some b -> moves c snd (lex_token src b c).
Proof.
  intros Hc Hp. pose proof (in_src_advance c b Hc Hp) as Ha. unfold lex_token, err.
  repeat match goal with |- moves _ _ (if ?t then _ else _) => destruct t eqn:? end;
    try apply moves_err; try (by eapply advance_moves); try (by eapply lex_pair_moves).
  - match goal with E : peek_is "=" (advance c) = true |- _ => apply peek_is_some in E as [b' Hb'] end.
    apply moves_ok; simpl; [by eapply in_src_advance|lia].
  - by apply lex_string_moves.
  - by eapply lex_number_moves.
  - by apply lex_ident_moves.
Qed.

Lemma tokenize_loop_total fuel c out :
  in_src c -> String.length (cur_rest c) < fuel -> tokenize_loop src fuel c out <> Err OutOfFuel.
Proof.
  revert c out. induction fuel as [|fuel IH]; intros c out Hc Hf; [lia|]. cbn [tokenize_loop].
  destruct (skip_while_moves is_ascii_whitespace c Hc) as [Hc1 Hp1]. fold (skip_ws c) in *.
  destruct (peek (skip_ws c)) as [b|] eqn:Hb; [|done].
  destruct (lex_token_moves (skip_ws c) b Hc1 Hb) as [Hn Hok].
  destruct (lex_token src b (skip_ws c)) as [[tok c2]|e]; [|congruence].
  destruct (Hok _ eq_refl) as [Hc2 Hp2]. simpl in Hc2, Hp2. apply IH; [done|].
  enough (String.length (cur_rest c2) < String.length (cur_rest c)) by lia.
  apply in_src_length; [done|done|lia].
Qed.

Lemma tokenize_total : tokenize_all src <> Err OutOfFuel.
Proof. apply tokenize_loop_total; [by split|simpl; lia]. Qed.
End Lexer.

(** ** The parser consumes *)

(** [p] answers on fewer than [n] tokens, and a success consumes at least one. *)
Definition consumes {A} (n : nat) (p : parser A) : Prop :=
  forall toks, length toks < n ->
    p toks <> Err OutOfFuel /\ forall a r, p toks = Ok (a, r) -> length r < length toks.

Section Parser.
Context `{Platform}.
Variable src : string.

Lemma parse_literal_consumes n : consumes n (parse_literal src).
Proof.
  intros toks _. unfold parse_literal, perr.
  destruct toks as [|[] toks]; (split; [done|]); intros; simplify_eq; simpl; lia.
Qed.

Lemma finish_in_set_consumes n key neg : consumes n (finish_in_set src key neg).
Proof.
  intros toks _. unfold finish_in_set, perr.
  destruct toks as [|[] toks]; (split; [done|]); intros; simplify_eq; simpl; lia.
Qed.

(** [p] applied to a shorter list still consumes. *)
Lemma consumes_after {A} n (p : parser A) (toks rest : list Tok) :
  consumes n p -> length toks < n -> length rest <= length toks ->
  p rest <> Err OutOfFuel /\ forall a r, p rest = Ok (a, r) -> length r < length toks.
Proof. intros Hp Hn Hl. destruct (Hp rest) as [? Hok]; [lia|]. split; [done|]. intros a r E. apply Hok in E. lia. Qed.

Lemma parse_ident_consumes n : consumes n (parse_identifier_predicate src).
Proof.
  intros toks Hn. unfold parse_identifier_predicate, perr. destruct toks as [|[key| | | | | | | | | | | | | | | | | | | | |] rest]; try done.
  assert (Hin : forall neg k, length k <= length rest ->
    finish_in_set src key neg k <> Err OutOfFuel
    /\ forall a r, finish_in_set src key neg k = Ok (a, r) -> length r < length (TIdent key :: rest)).
  { intros neg k Hk. eapply (consumes_after n); [apply finish_in_set_consumes|done|simpl; lia]. }
  assert (Hcmp : match compare_op rest with
    | Some op => let? (value, rest) := parse_literal src (tail rest) in
                 Ok (ECondition (Comparison key op value), rest)
    | None => Ok (ECondition (IsTrue key), rest)
    end <> Err OutOfFuel /\ forall a r, match compare_op rest with
    | Some op => let? (value, rest) := parse_literal src (tail rest) in
                 Ok (ECondition (Comparison key op value), rest)
    | None => Ok (ECondition (IsTrue key), rest)
    end = Ok (a, r) -> length r < length (TIdent key :: rest)).
  { destruct (compare_op rest) as [op|]; [|split; [done|]; intros; simplify_eq; simpl; lia].
    destruct (parse_literal_consumes (S (length (tail rest))) (tail rest)) as [Hl Hok]; [lia|].
    destruct (parse_literal src (tail rest)) as [[v r0]|e]; [|split; [congruence|done]].
    specialize (Hok _ _ eq_refl). split; [done|]. intros a r [= _ <-]. destruct rest; simpl in *; lia. }
  destruct rest as [|t rest]; [exact Hcmp|]. destruct t; try exact Hcmp.
  - destruct rest as [|[] rest]; try done. apply Hin. simpl. lia.
  - apply Hin. simpl. lia.
Qed.

Lemma parse_exists_consumes n : consumes n (parse_exists src).
Proof.
  intros toks Hn. unfold parse_exists, perr.
  destruct toks as [|t0 toks]; [done|]. simpl.
  do 3 (destruct toks as [|[] toks]; try done). split; [done|]. intros; simplify_eq/=. lia.
Qed.

Section Nested.
Variable rec : parser Expression.
Variable n : nat.
Hypothesis Hrec : consumes n rec.

Lemma require_loop_consumes fuel parts toks :
  length toks < n -> length toks < fuel ->
  require_loop src rec fuel parts toks <> Err OutOfFuel
  /\ forall a r, require_loop src rec fuel parts toks = Ok (a, r) -> length r < length toks.
Proof.
  revert parts toks. induction fuel as [|fuel IH]; intros parts toks Hn Hf; [lia|]. cbn [require_loop].
  destruct (Hrec toks Hn) as [Hne Hok]. destruct (rec toks) as [[e rest]|]; [|split; [congruence|done]].
  specialize (Hok _ _ eq_refl). unfold perr. destruct rest as [|t rest]; [done|].
  destruct t; try done; simpl in Hok.
  - split; [done|]. intros; simplify_eq. lia.
  - destruct (IH (parts ++ [e]) rest) as [? Hok2]; [lia..|]. split; [done|]. intros a r E. apply Hok2 in E. lia.
Qed.

Lemma parse_atom_consumes : consumes (S n) (parse_atom src rec).
Proof.
  intros toks Hn. unfold parse_atom, perr. destruct toks as [|t rest]; [done|]. simpl in Hn.
  destruct t; try done.
  - by apply (parse_ident_consumes (S n)).
  - destruct (Hrec rest) as [Hne Hok]; [lia|]. destruct (rec rest) as [[e r0]|]; [|split; [congruence|done]].
    specialize (Hok _ _ eq_refl). destruct r0 as [|[] r0]; try done. split; [done|]. intros; simplify_eq/=. lia.
  - unfold parse_require, perr. cbn [tail]. destruct rest as [|[] rest]; try done. simpl in Hn.
    destruct (require_loop_consumes (S (length rest)) [] rest) as [Hne Hok]; [lia..|].
    destruct (require_loop _ _ _ _ _) as [[ps r0]|]; [|split; [congruence|done]].
    specialize (Hok _ _ eq_refl). split; [done|]. intros; simplify_eq/=. lia.
  - by apply (parse_exists_consumes (S n)).
Qed.

Lemma parse_unary_consumes : consumes (S n) (parse_unary src rec).
Proof.
  intros toks. induction toks as [|t toks IH]; intros Hn; [by apply parse_atom_consumes|].
  destruct t; try (by apply parse_atom_consumes). simpl in Hn. destruct IH as [Hne Hok]; [lia|].
  cbn [parse_unary]. destruct (parse_unary src rec toks) as [[e r0]|]; [|split; [congruence|done]].
  specialize (Hok _ _ eq_refl). split; [done|]. intros; simplify_eq/=. lia.
Qed.

Lemma operand_loop_consumes fuel sep operand acc toks :
  consumes (S n) operand -> length toks <= n -> length toks < fuel ->
  operand_loop fuel sep operand acc toks <> Err OutOfFuel
  /\ forall a r, operand_loop fuel sep operand acc toks = Ok (a, r) -> length r <= length toks.
Proof.
  intros Hop. revert acc toks. induction fuel as [|fuel IH]; intros acc toks Hn Hf; [lia|]. cbn [operand_loop].
  destruct toks as [|t rest]; [split; [done|]; intros; by simplify_eq|]. simpl in Hn, Hf.
  destruct (decide (t = sep)) as [_|_]; [|split; [done|]; intros; by simplify_eq].
  destruct (Hop rest) as [Hne Hok]; [lia|]. destruct (operand rest) as [[e r0]|]; [|split; [congruence|done]].
  specialize (Hok _ _ eq_refl). destruct (IH (acc ++ [e]) r0) as [? Hok2]; [lia..|].
  split; [done|]. intros a r E. apply Hok2 in E. simpl. lia.
Qed.

Lemma parse_chain_consumes sep operand combine :
  consumes (S n) operand -> consumes (S n) (parse_chain sep operand combine).
Proof.
  intros Hop toks Hn. unfold parse_chain. destruct (Hop toks Hn) as [Hne Hok].
  destruct (operand toks) as [[e r0]|]; [|split; [congruence|done]]. specialize (Hok _ _ eq_refl).
  destruct (operand_loop_consumes (S (length r0)) sep operand [] r0 Hop) as [Hne2 Hok2]; [lia..|].
  destruct (operand_loop _ _ _ _ _) as [[es r1]|]; [|split; [congruence|done]]. specialize (Hok2 _ _ eq_refl).
  destruct es; (split; [done|]); intros; simplify_eq; lia.
Qed.

Lemma parse_or_step_consumes : consumes (S n) (parse_or_step src rec).
Proof. apply parse_chain_consumes, parse_chain_consumes, parse_unary_consumes. Qed.
End Nested.

Lemma parse_or_consumes n : consumes n (parse_or src n).
Proof. induction n as [|n IH]; [by intros toks ?%Nat.nlt_0_r|]. by apply parse_or_step_consumes. Qed.

End Parser.

(** Every text gets an answer: neither the lexer nor the parser ever exhausts the
    bound on its recursion, so [parse_predicate] always returns an expression or one of the
    errors of the source. *)
Theorem parse_predicate_total `{Platform} text : parse_predicate text <> Err OutOfFuel.
Proof.
  unfold parse_predicate, PredParser_parse. pose proof (tokenize_total (trim text)) as Ht.
  destruct (tokenize_all (trim text)) as [toks|e]; [|congruence].
  destruct (parse_or_consumes (trim text) (S (length toks)) toks) as [Hp _]; [lia|].
  destruct (parse_or (trim text) (S (length toks)) toks) as [[e [|t r]]|]; [done|done|congruence].
Qed.
