(* ===== verification/ExtData.v ===== *)
(** * The data of the extension slots ([ppe-core/src/extensions/])

    The slots a request carries beside its payload: one record per struct of the source,
    with its fields. A [HashMap] is a [gmap], a [HashSet] a [gset], an instant a number of
    nanoseconds. What the container only carries along and never reads (the messages of a
    conversation) is of the type parameter [Message]. *)

From Stdlib Require Import Ascii String.
From S2P Require Import Prelude RustStr F64 Json.

Definition DateTime : Type := Z.

(** ** Immutable slots *)

Record RequestExtension : Type := mkRequest {
  rq_environment : option string;
  rq_request_id : option string;
  rq_timestamp : option string;
  rq_trace_id : option string;
  rq_span_id : option string;
}.

Record ConversationContext (Message : Type) : Type := mkConversation {
  cv_history : list Message;
  cv_summary : option string;
  cv_topics : list string;
}.

Record AgentExtension (Message : Type) : Type := mkAgent {
  ag_input : option string;
  ag_session_id : option string;
  ag_conversation_id : option string;
  ag_turn : option Z;
  ag_agent_id : option string;
  ag_parent_agent_id : option string;
  ag_conversation : option (ConversationContext Message);
}.

Record ToolMetadata : Type := mkTool {
  tm_name : string;
  tm_title : option string;
  tm_description : option string;
  tm_input_schema : option json;
  tm_output_schema : option json;
  tm_server_id : option string;
  tm_namespace : option string;
  tm_annotations : gmap string json;
}.

Record ResourceMetadata : Type := mkResource {
  rm_uri : string;
  rm_name : option string;
  rm_description : option string;
  rm_mime_type : option string;
  rm_server_id : option string;
  rm_annotations : gmap string json;
}.

Record PromptMetadata : Type := mkPrompt {
  pm_name : string;
  pm_description : option string;
  pm_arguments : option (list json);
  pm_server_id : option string;
  pm_annotations : gmap string json;
}.

Record MCPExtension : Type := mkMCP {
  mcp_tool : option ToolMetadata;
  mcp_resource : option ResourceMetadata;
  mcp_prompt : option PromptMetadata;
}.

Inductive StopReason : Type := StopEnd | StopReturn | StopCall | StopMaxTokens | StopSequence.

Record TokenUsage : Type := mkTokenUsage {
  tu_input_tokens : Z;
  tu_output_tokens : Z;
  tu_total_tokens : Z;
}.

Record CompletionExtension : Type := mkCompletion {
  cp_stop_reason : option StopReason;
  cp_tokens : option TokenUsage;
  cp_model : option string;
  cp_raw_format : option string;
  cp_created_at : option string;
  cp_latency_ms : option Z;
}.

Record ProvenanceExtension : Type := mkProvenance {
  pv_source : option string;
  pv_message_id : option string;
  pv_parent_id : option string;
}.

Record LLMExtension : Type := mkLLM {
  llm_model_id : option string;
  llm_provider : option string;
  llm_capabilities : list string;
}.

Inductive LlmInstructionRole : Type := RoleSystem | RoleDeveloper.

Record LlmInstruction : Type := mkInstruction {
  li_role : LlmInstructionRole;
  li_text : string;
}.

Inductive ToolChoice : Type :=
| ChoiceAuto
| ChoiceNone
| ChoiceRequired
| ChoiceTool (name : string).

Record LlmRequestParts : Type := mkRequestParts {
  lp_instructions : list LlmInstruction;
  lp_offered_tools : list ToolMetadata;
  lp_tool_choice : option ToolChoice;
  lp_max_tokens : option Z;
  lp_candidate_count : option Z;
  lp_temperature : option f64;
  lp_top_p : option f64;
  lp_stop_sequences : list string;
  lp_stream : option bool;
}.

Record LlmRequestData : Type := mkRequestData {
  lr_body : option json;
  lr_parts : option LlmRequestParts;
}.

Record FrameworkExtension : Type := mkFramework {
  fw_framework : option string;
  fw_framework_version : option string;
  fw_node_id : option string;
  fw_graph_id : option string;
  fw_metadata : gmap string json;
}.

Record MetaExtension : Type := mkMeta {
  mt_entity_type : option string;
  mt_entity_name : option string;
  mt_tags : gset string;
  mt_scope : option string;
  mt_properties : gmap string string;
}.

(** ** Acquired metadata ([metadata.rs]) *)

Inductive MetadataCacheDisposition : Type :=
  CacheDisabled | CacheMiss | CacheHit | CacheRevalidated | CacheStale.

#[global] Instance MetadataCacheDisposition_eq_dec : EqDecision MetadataCacheDisposition.
Proof. solve_decision. Defined.

Inductive MetadataOutcome : Type := MetaSuccess | MetaError.

Record MetadataSource : Type := mkMetadataSource {
  ms_instance : string;
  ms_kind : string;
}.

Record AcquiredFacts : Type := mkFacts {
  af_cache : MetadataCacheDisposition;
  af_error_code : option string;
  af_fetched_at : option DateTime;
  af_outcome : MetadataOutcome;
  af_source : option MetadataSource;
  af_stale : bool;
  af_status : option Z;
  af_value : option json;
}.

Definition MetadataExtension : Type := gmap string AcquiredFacts.

Inductive MetadataInstallError : Type :=
| DuplicateInstance (instance : string)
| InvalidResponseKey (key : string)
| InvalidInstanceName (instance : string)
| InvalidSourceKind
| InvalidRecordShape.

Definition facts_success (value : json) (fetched_at : DateTime) (cache : MetadataCacheDisposition) :
    AcquiredFacts :=
  mkFacts cache None (Some fetched_at) MetaSuccess None false None (Some value).

Definition facts_error (error_code : string) (cache : MetadataCacheDisposition) : AcquiredFacts :=
  mkFacts cache (Some error_code) None MetaError None false None None.

Definition validate_instance_name (instance : string) : result unit MetadataInstallError :=
  match instance with
  | EmptyString => Err (InvalidInstanceName instance)
  | String first rest =>
      if negb (is_ascii_alphabetic first || Ascii.eqb first "_")
         || negb (string_forall (fun ch => is_ascii_alphanumeric ch || Ascii.eqb ch "_") rest)
      then Err (InvalidInstanceName instance) else Ok tt
  end.

Definition key_refused (key : string) (root : bool) : bool :=
  String.eqb key "" || contains_char "." key || starts_with "$" key || (root && String.eqb key "value").

(** [for item in items { f(item)?; }]. *)
Section TryFor.
Context {A E : Type}.
Variable f : A -> result unit E.
Fixpoint try_for (items : list A) : result unit E :=
  match items with
  | [] => Ok tt
  | item :: rest => match f item with Ok _ => try_for rest | Err e => Err e end
  end.
End TryFor.

Fixpoint validate_keys (value : json) (root : bool) : result unit MetadataInstallError :=
  match value with
  | JObject m =>
      try_for (fun kv =>
        if key_refused kv.1 root then Err (InvalidResponseKey kv.1) else validate_keys kv.2 false) m
  | JArray items => try_for (fun item => validate_keys item false) items
  | _ => Ok tt
  end.

Definition validate_record (facts : AcquiredFacts) : result unit MetadataInstallError :=
  match af_outcome facts, af_value facts with
  | MetaSuccess, Some value =>
      if bool_decide (is_Some (af_fetched_at facts)) && bool_decide (af_error_code facts = None)
         && Bool.eqb (af_stale facts) (bool_decide (af_cache facts = CacheStale))
      then validate_keys value true else Err InvalidRecordShape
  | MetaError, value =>
      if bool_decide (value = None) && bool_decide (af_fetched_at facts = None)
         && is_some_and (fun code => negb (String.eqb code "")) (af_error_code facts)
         && negb (af_stale facts) && bool_decide (af_cache facts <> CacheStale)
      then Ok tt else Err InvalidRecordShape
  | MetaSuccess, None => Err InvalidRecordShape
  end.

Definition with_source (facts : AcquiredFacts) (source : MetadataSource) : AcquiredFacts :=
  mkFacts (af_cache facts) (af_error_code facts) (af_fetched_at facts) (af_outcome facts)
    (Some source) (af_stale facts) (af_status facts) (af_value facts).

(** [MetadataExtension::install]: the new map, or the error with the map unchanged. *)
Definition metadata_install (m : MetadataExtension) (instance kind : string) (facts : AcquiredFacts) :
    result MetadataExtension MetadataInstallError :=
  let? _ := validate_instance_name instance in
  if String.eqb kind "" then Err InvalidSourceKind
  else
    let? _ := validate_record facts in
    match m !! instance with
    | Some _ => Err (DuplicateInstance instance)
    | None => Ok (<[instance := with_source facts (mkMetadataSource instance kind)]> m)
    end.

(** ** Security ([security.rs], [monotonic.rs]) *)

Inductive SubjectType : Type := SubUser | SubAgent | SubService | SubSystem.

Record KeyBinding : Type := mkKeyBinding {
  kb_method : string;
  kb_thumbprint : string;
}.

Record SubjectExtension : Type := mkSubject {
  sj_id : option string;
  sj_subject_type : option SubjectType;
  sj_roles : gset string;
  sj_permissions : gset string;
  sj_teams : gset string;
  sj_claims : gmap string json;
  sj_key_binding : option KeyBinding;
}.

Record ObjectSecurityProfile : Type := mkProfile {
  op_managed_by : option string;
  op_permissions : list string;
  op_trust_domain : option string;
  op_data_scope : list string;
}.

Record RetentionPolicy : Type := mkRetention {
  rp_max_age_seconds : option Z;
  rp_policy : string;
  rp_delete_after : option string;
}.

Record DataPolicy : Type := mkDataPolicy {
  dp_apply_labels : list string;
  dp_allowed_actions : option (list string);
  dp_denied_actions : list string;
  dp_retention : option RetentionPolicy;
}.

Inductive ClientTrustLevel : Type :=
| TrustFirstParty
| TrustThirdParty
| TrustInternal
| TrustCustom (level : string).

Record ClientExtension : Type := mkClient {
  cl_client_id : string;
  cl_client_name : option string;
  cl_trust_level : ClientTrustLevel;
  cl_authorized_scopes : list string;
  cl_authorized_audiences : list string;
  cl_roles : list string;
  cl_permissions : list string;
  cl_teams : list string;
  cl_claims : gmap string json;
  cl_key_binding : option KeyBinding;
}.

Record WorkloadIdentity : Type := mkWorkload {
  wi_spiffe_id : option string;
  wi_trust_domain : option string;
  wi_attested_at : option DateTime;
  wi_attestor : option string;
  wi_selectors : list string;
  wi_client_id : option string;
  wi_key_binding : option KeyBinding;
}.

(** [MonotonicSet<String>]: its only removal needs a token no plugin can make. *)
Definition MonotonicSet : Type := gset string.

Definition add_label (labels : MonotonicSet) (label : string) : MonotonicSet := labels ∪ {[ label ]}.

Record SecurityExtension : Type := mkSecurity {
  sec_labels : MonotonicSet;
  sec_classification : option string;
  sec_subject : option SubjectExtension;
  sec_client : option ClientExtension;
  sec_caller_workload : option WorkloadIdentity;
  sec_this_workload : option WorkloadIdentity;
  sec_auth_method : option string;
  sec_objects : gmap string ObjectSecurityProfile;
  sec_data : gmap string DataPolicy;
}.

Definition SecurityExtension_default : SecurityExtension :=
  mkSecurity ∅ None None None None None None ∅ ∅.

(** ** Delegation ([delegation.rs], [authorization.rs]) *)

Inductive DelegationStrategy : Type :=
| StTokenExchange
| StClientCredentials
| StSpiffeSvid
| StPassthrough
| StUcan
| StTransactionToken
| StCustom (name : string).

Record AuthorizationDetail : Type := mkDetail {
  ad_detail_type : string;
  ad_locations : option (list string);
  ad_actions : option (list string);
  ad_datatypes : option (list string);
  ad_identifier : option string;
  ad_privileges : option (list string);
  ad_extra : list (string * json);   (* a [BTreeMap], in key order *)
}.

Record DelegationHop : Type := mkHop {
  hop_subject_id : string;
  hop_subject_type : option SubjectType;
  hop_audience : option string;
  hop_scopes_granted : list string;
  hop_authorization_details : list AuthorizationDetail;
  hop_timestamp : DateTime;
  hop_ttl_seconds : option Z;
  hop_strategy : option DelegationStrategy;
  hop_from_cache : bool;
}.

Record DelegationExtension : Type := mkDelegation {
  del_chain : list DelegationHop;
  del_depth : Z;
  del_origin_subject_id : option string;
  del_actor_subject_id : option string;
  del_delegated : bool;
  del_age_seconds : f64;
}.

Definition DelegationExtension_default : DelegationExtension :=
  mkDelegation [] 0 None None false (f64_of_Z 0).

#[global] Instance SubjectType_eq_dec : EqDecision SubjectType.
Proof. solve_decision. Defined.
#[global] Instance DelegationStrategy_eq_dec : EqDecision DelegationStrategy.
Proof. solve_decision. Defined.

(** ** HTTP ([http.rs]) *)

Definition SecretHeaderProvenance : Type := gmap string string.

Record HttpExtension : Type := mkHttp {
  ht_request_headers : gmap string string;
  ht_client_address : option string;
  ht_secret_headers : SecretHeaderProvenance;   (* the marker of each secret header, by lower-case name *)
  ht_response_headers : gmap string string;
  ht_status : option Z;
  ht_method : option string;
  ht_path : option string;
  ht_query : option string;
  ht_host : option string;
  ht_scheme : option string;
}.

Definition HttpExtension_default : HttpExtension :=
  mkHttp ∅ None ∅ ∅ None None None None None None.

Definition is_marked (markers : SecretHeaderProvenance) (name : string) : bool :=
  bool_decide (is_Some (markers !! to_ascii_lowercase name)).

Definition redacted_request_headers (http : HttpExtension) : gmap string string :=
  if bool_decide (ht_secret_headers http = ∅) then ht_request_headers http
  else map_imap (fun name value =>
         Some (match ht_secret_headers http !! to_ascii_lowercase name with
               | Some marker => marker | None => value end)) (ht_request_headers http).

(** ** Raw credentials ([raw_credentials.rs]) *)

Inductive Credential : Type :=
| CredHeader (name : string)
| CredCookie (name : string)
| CredQueryParam (name : string).

Inductive TokenRole : Type :=
| RoleUser
| RoleClient
| RoleCallerWorkload
| RoleCustom (name : string).

Inductive TokenKind : Type := KindJwt | KindOpaque | KindSpiffeJwt | KindUcan | KindTxnToken.

Inductive DelegationMode : Type := OnBehalfOfUser | AsClient | AsCallerWorkload | AsThisWorkload.

Record RawInboundToken : Type := mkInbound {
  ri_token : string;
  ri_source : Credential;
  ri_kind : TokenKind;
}.

Record DelegationKey : Type := mkDelegationKey {
  dk_subject_id : string;
  dk_workload_id : option string;
  dk_client_id : option string;
  dk_delegator_name : string;
  dk_target_name : string;
  dk_audience : string;
  dk_scopes : list string;
  dk_mode : DelegationMode;
}.

Record RawDelegatedToken : Type := mkDelegated {
  rd_token : string;
  rd_outbound_header : string;
  rd_outbound_prefix : string;
  rd_audience : string;
  rd_scopes : list string;
  rd_expires_at : DateTime;
}.

#[global] Instance TokenRole_eq_dec : EqDecision TokenRole.
Proof. solve_decision. Defined.
#[global] Instance TokenRole_countable : Countable TokenRole.
Proof.
  refine (inj_countable'
    (fun r => match r with
              | RoleUser => inl 0 | RoleClient => inl 1 | RoleCallerWorkload => inl 2
              | RoleCustom s => inr s end)
    (fun c => match c with
              | inl 0 => RoleUser | inl 1 => RoleClient | inl _ => RoleCallerWorkload
              | inr s => RoleCustom s end) _).
  by intros [].
Defined.

#[global] Instance DelegationMode_eq_dec : EqDecision DelegationMode.
Proof. solve_decision. Defined.
#[global] Instance DelegationMode_countable : Countable DelegationMode.
Proof.
  refine (inj_countable'
    (fun m => match m with OnBehalfOfUser => 0 | AsClient => 1 | AsCallerWorkload => 2 | AsThisWorkload => 3 end)
    (fun n => match n with 0 => OnBehalfOfUser | 1 => AsClient | 2 => AsCallerWorkload | _ => AsThisWorkload end) _).
  by intros [].
Defined.
#[global] Instance DelegationKey_eq_dec : EqDecision DelegationKey.
Proof. solve_decision. Defined.
#[global] Instance DelegationKey_countable : Countable DelegationKey.
Proof.
  refine (inj_countable'
    (fun k => (dk_subject_id k, dk_workload_id k, dk_client_id k, dk_delegator_name k,
               dk_target_name k, dk_audience k, dk_scopes k, dk_mode k))
    (fun '(a, b, c, d, e, f, g, h) => mkDelegationKey a b c d e f g h) _).
  by intros [].
Defined.

Record RawCredentialsExtension : Type := mkRawCredentials {
  rc_inbound_tokens : gmap TokenRole RawInboundToken;
  rc_delegated_tokens : gmap DelegationKey RawDelegatedToken;
}.
