(* ===== verification/Plugin.v ===== *)
(** * Plugins as the executor sees them

    Modes and error policies ([ppe-core/src/plugin.rs]), errors and violations
    ([error.rs]), per-plugin contexts ([context.rs]), the decision log ([decision.rs]) and
    the registry's references ([registry.rs]). *)

From Stdlib Require Import Ascii String.
From S2P Require Import Prelude RustStr Json.

(** ** Modes and error policies *)

Inductive PluginMode : Type :=
  Sequential | Transform | Audit | Concurrent | FireAndForget | Disabled.

#[global] Instance PluginMode_eq_dec : EqDecision PluginMode.
Proof. solve_decision. Defined.

Definition can_block (m : PluginMode) : bool :=
  match m with Sequential | Concurrent => true | _ => false end.

Definition can_modify (m : PluginMode) : bool :=
  match m with Sequential | Transform => true | _ => false end.

Definition is_awaited (m : PluginMode) : bool :=
  match m with FireAndForget | Disabled => false | _ => true end.

Definition permits_effects (m : PluginMode) : bool :=
  match m with Sequential | Transform => true | _ => false end.

Definition mode_display (m : PluginMode) : string :=
  match m with
  | Sequential => "sequential" | Transform => "transform" | Audit => "audit" | Concurrent => "concurrent"
  | FireAndForget => "fire_and_forget" | Disabled => "disabled"
  end.

Inductive OnError : Type := OeFail | OeIgnore | OeDisable.

#[global] Instance OnError_eq_dec : EqDecision OnError.
Proof. solve_decision. Defined.

(** ** Violations and errors *)

Record PluginViolation : Type := mkViolation {
  vi_code : string;
  vi_reason : string;
  vi_description : option string;
  vi_details : gmap string json;
  vi_plugin_name : option string;
  vi_proto_error_code : option Z;
}.

Definition violation_new (code reason : string) : PluginViolation :=
  mkViolation code reason None ∅ None None.

(** [v.plugin_name = Some(plugin_name)]. *)
Definition attribute_to (plugin_name : string) (v : PluginViolation) : PluginViolation :=
  mkViolation (vi_code v) (vi_reason v) (vi_description v) (vi_details v) (Some plugin_name)
    (vi_proto_error_code v).

(** The [source] chain of an error is diagnostic only; of a crypto error its text is kept. *)
Inductive PluginError : Type :=
| PeCrypto (source : string)
| PeExecution (plugin_name message : string) (code : option string) (details : gmap string json)
    (proto_error_code : option Z)
| PeTimeout (plugin_name : string) (timeout_ms : Z) (proto_error_code : option Z)
| PeViolation (plugin_name : string) (violation : PluginViolation)
| PeConfig (message : string)
| PeUnknownHook (hook_type : string).

Definition error_display (e : PluginError) : string :=
  match e with
  | PeCrypto source => "Policy crypto backend validation failed: " +:+ source
  | PeExecution plugin_name message _ _ _ => "plugin '" +:+ plugin_name +:+ "' failed: " +:+ message
  | PeTimeout plugin_name timeout_ms _ =>
      "plugin '" +:+ plugin_name +:+ "' timed out after " +:+ show_Z timeout_ms +:+ "ms"
  | PeViolation plugin_name violation =>
      "plugin '" +:+ plugin_name +:+ "' denied: " +:+ vi_reason violation
  | PeConfig message => "configuration error: " +:+ message
  | PeUnknownHook hook_type => "unknown hook type: " +:+ hook_type
  end.

Record PluginErrorRecord : Type := mkErrorRecord {
  er_plugin_name : string;
  er_message : string;
  er_code : option string;
  er_details : gmap string json;
  er_proto_error_code : option Z;
}.

Definition CRYPTO_FAILED_CODE : string := "policy.crypto_failed".

Definition error_record (e : PluginError) : PluginErrorRecord :=
  match e with
  | PeCrypto _ =>
      mkErrorRecord "" "Policy crypto backend validation failed" (Some CRYPTO_FAILED_CODE) ∅ None
  | PeExecution plugin_name message code details proto =>
      mkErrorRecord plugin_name message code details proto
  | PeTimeout plugin_name timeout_ms proto =>
      mkErrorRecord plugin_name ("plugin timed out after " +:+ show_Z timeout_ms +:+ "ms")
        (Some "timeout") ∅ proto
  | PeViolation plugin_name v =>
      mkErrorRecord plugin_name ("plugin denied: " +:+ vi_reason v) (Some (vi_code v))
        (vi_details v) (vi_proto_error_code v)
  | PeConfig message => mkErrorRecord "" message (Some "config") ∅ None
  | PeUnknownHook hook_type =>
      mkErrorRecord "" ("unknown hook type: " +:+ hook_type) (Some "unknown_hook") ∅ None
  end.

(** ** Contexts *)

Definition State : Type := gmap string json.

Record PluginContext : Type := mkContext {
  cx_local_state : State;
  cx_global_state : State;
}.

(** A plugin's id: the UUID its reference drew at registration. *)
Definition Uuid : Type := N.

Record PluginContextTable : Type := mkTable {
  tb_global_state : State;
  tb_local_states : gmap Uuid State;
  tb_pre_identity_rate_limited : bool;
}.

Definition table_default : PluginContextTable := mkTable ∅ ∅ false.

Definition snapshot_context (t : PluginContextTable) (plugin_id : Uuid) : PluginContext :=
  mkContext (default ∅ (tb_local_states t !! plugin_id)) (tb_global_state t).

Definition take_context (t : PluginContextTable) (plugin_id : Uuid) : PluginContext * PluginContextTable :=
  (snapshot_context t plugin_id,
   mkTable (tb_global_state t) (delete plugin_id (tb_local_states t)) (tb_pre_identity_rate_limited t)).

Definition store_context (t : PluginContextTable) (plugin_id : Uuid) (ctx : PluginContext) :
    PluginContextTable :=
  mkTable (cx_global_state ctx) (<[plugin_id := cx_local_state ctx]> (tb_local_states t))
    (tb_pre_identity_rate_limited t).

(** ** The decision log *)

Inductive PluginAction : Type :=
| ActAllowed
| ActDenied (v : PluginViolation)
| ActModifiedPayload
| ActModifiedExtensions
| ActDenyIgnored (v : PluginViolation)
| ActAborted
| ActError (message : string).

Record DecisionStep : Type := mkDecisionStep {
  ds_plugin_name : string;
  ds_phase : PluginMode;
  ds_action : PluginAction;
}.

Inductive Verdict : Type := VAllow | VDeny (v : PluginViolation).

(** The steps and the verdict; the identity of the record in the audit stream (span,
    hashes, sequence numbers) is stamped outside the phases. *)
Record DecisionLog : Type := mkLog {
  dl_steps : list DecisionStep;
  dl_verdict : option Verdict;
}.

Definition log_new : DecisionLog := mkLog [] None.

Definition log_record (log : DecisionLog) (plugin_name : string) (phase : PluginMode)
    (action : PluginAction) : DecisionLog :=
  mkLog (dl_steps log ++ [mkDecisionStep plugin_name phase action]) (dl_verdict log).

Definition log_finalize (log : DecisionLog) (verdict : Verdict) : DecisionLog :=
  mkLog (dl_steps log) (Some verdict).

(** ** References *)

(** The fields of the trusted configuration the executor and the registry read. *)
Record TrustedConfig : Type := mkConfig {
  pc_name : string;
  pc_mode : PluginMode;
  pc_on_error : OnError;
  pc_capabilities : gset string;
  pc_priority : Z;
}.

Record PluginRef : Type := mkRef {
  pr_id : Uuid;
  pr_trusted_config : TrustedConfig;
}.

(** The atomic [disabled] flags of all references, as the set of ids that have it. *)
Definition DisabledSet : Type := gset Uuid.

Definition disable (disabled : DisabledSet) (r : PluginRef) : DisabledSet := disabled ∪ {[ pr_id r ]}.

Definition mode (disabled : DisabledSet) (r : PluginRef) : PluginMode :=
  if bool_decide (pr_id r ∈ disabled) then Disabled else pc_mode (pr_trusted_config r).
