(* ===== verification/Extensions.v ===== *)
(** * Extensions ([ppe-core/src/extensions/container.rs], [filter.rs], [tiers.rs])

    The slots a request carries beside its payload, the view of them a plugin's
    capabilities allow, and the merge of what a plugin hands back. An [Arc] of the slots
    whose identity is compared is a value with its address; the other slots are values. *)

From Stdlib Require Import Ascii String.
From S2P Require Import Prelude RustStr F64 Json Constraint Routing ExtData Plugin.

(** ** Shared pointers *)

Record arc (T : Type) : Type := mkArc { arc_addr : N; arc_val : T }.
Arguments mkArc {T} arc_addr arc_val.
Arguments arc_addr {T} a : rename.
Arguments arc_val {T} a : rename.

(** [Arc::ptr_eq]. *)
Definition ptr_eq {T} (a b : arc T) : bool := (arc_addr a =? arc_addr b)%N.

(** ** Capabilities and slot policies *)

Inductive MutabilityTier : Type := Immutable | Monotonic | Mutable.

Inductive Capability : Type :=
| ReadSubject | ReadRoles | ReadTeams | ReadClaims | ReadPermissions | ReadClient | ReadWorkload
| ReadAgent | ReadLlmRequest | ReadMetadata | ReadHeaders | ReadQuery | WriteHeaders | ReadLabels
| AppendLabels | ReadDelegation | AppendDelegation | ReadInboundCredentials | ReadDelegatedTokens
| PerformHttp.

#[global] Instance Capability_eq_dec : EqDecision Capability.
Proof. solve_decision. Defined.

(** The serialized name of a capability. *)
Definition cap_str (c : Capability) : string :=
  match c with
  | ReadSubject => "read_subject" | ReadRoles => "read_roles" | ReadTeams => "read_teams"
  | ReadClaims => "read_claims" | ReadPermissions => "read_permissions"
  | ReadClient => "read_client" | ReadWorkload => "read_workload" | ReadAgent => "read_agent"
  | ReadLlmRequest => "read_llm_request" | ReadMetadata => "read_metadata"
  | ReadHeaders => "read_headers" | ReadQuery => "read_query" | WriteHeaders => "write_headers"
  | ReadLabels => "read_labels" | AppendLabels => "append_labels"
  | ReadDelegation => "read_delegation" | AppendDelegation => "append_delegation"
  | ReadInboundCredentials => "read_inbound_credentials"
  | ReadDelegatedTokens => "read_delegated_tokens" | PerformHttp => "perform_http"
  end.

Inductive AccessPolicy : Type := Unrestricted | CapabilityGated.

Record SlotPolicy : Type := mkSlotPolicy {
  sp_tier : MutabilityTier;
  sp_access : AccessPolicy;
  sp_read_cap : option Capability;
  sp_write_cap : option Capability;
}.

Inductive SlotName : Type :=
| SlRequest | SlAgent | SlHttp | SlMeta | SlMetadata | SlDelegation | SlCustom | SlMcp
| SlCompletion | SlProvenance | SlLlm | SlLlmRequest | SlFramework
| SlSecurityLabels | SlSecuritySubject | SlSecuritySubjectRoles | SlSecuritySubjectTeams
| SlSecuritySubjectClaims | SlSecuritySubjectPermissions | SlSecurityClient
| SlSecurityCallerWorkload | SlSecurityThisWorkload | SlSecurityObjects | SlSecurityData
| SlRawCredentialsInbound | SlRawCredentialsDelegated.

Definition slot_policy (slot : SlotName) : SlotPolicy :=
  let open tier := mkSlotPolicy tier Unrestricted None None in
  let gated tier read write := mkSlotPolicy tier CapabilityGated (Some read) write in
  match slot with
  | SlRequest | SlProvenance | SlCompletion | SlLlm | SlFramework | SlMcp | SlMeta => open Immutable
  | SlCustom => open Mutable
  | SlAgent => gated Immutable ReadAgent None
  | SlLlmRequest => gated Immutable ReadLlmRequest None
  | SlMetadata => gated Immutable ReadMetadata None
  | SlHttp => gated Mutable ReadHeaders (Some WriteHeaders)
  | SlDelegation => gated Monotonic ReadDelegation (Some AppendDelegation)
  | SlSecurityLabels => gated Monotonic ReadLabels (Some AppendLabels)
  | SlSecuritySubject => gated Immutable ReadSubject None
  | SlSecuritySubjectRoles => gated Immutable ReadRoles None
  | SlSecuritySubjectTeams => gated Immutable ReadTeams None
  | SlSecuritySubjectClaims => gated Immutable ReadClaims None
  | SlSecuritySubjectPermissions => gated Immutable ReadPermissions None
  | SlSecurityObjects | SlSecurityData => open Immutable
  | SlSecurityClient => gated Immutable ReadClient None
  | SlSecurityCallerWorkload | SlSecurityThisWorkload => gated Immutable ReadWorkload None
  | SlRawCredentialsInbound => gated Immutable ReadInboundCredentials None
  | SlRawCredentialsDelegated => gated Immutable ReadDelegatedTokens None
  end.

Definition Capabilities : Type := gset string.

Definition has_cap (capabilities : Capabilities) (c : Capability) : bool :=
  bool_decide (cap_str c ∈ capabilities).

Definition has_any_subject_capability (capabilities : Capabilities) : bool :=
  existsb (has_cap capabilities)
    [ReadSubject; ReadRoles; ReadTeams; ReadClaims; ReadPermissions].

Definition has_read_access (policy : SlotPolicy) (capabilities : Capabilities) : bool :=
  match sp_access policy with
  | Unrestricted => true
  | CapabilityGated =>
      is_some_and (has_cap capabilities) (sp_read_cap policy)
      || (bool_decide (sp_read_cap policy = Some ReadSubject) && has_any_subject_capability capabilities)
  end.

Definition CAP_WRITE_CANDIDATE_CONSTRAINT : string := "write_candidate_constraint".

#[global] Instance WireOnEmpty_eq_dec : EqDecision WireOnEmpty.
Proof. solve_decision. Defined.
#[global] Instance CandidateConstraintExtension_eq_dec : EqDecision CandidateConstraintExtension.
Proof. solve_decision. Defined.

(** ** The container *)

(** [HttpTransportSlot]; the transport is an opaque handle of the host. *)
Inductive HttpTransportSlot : Type :=
| TransportAvailable (transport : N)
| TransportNotInstalled
| TransportNotPermitted.

Definition transport_is_available (s : HttpTransportSlot) : bool :=
  match s with TransportAvailable _ => true | _ => false end.

(** [EffectLogSlot]: the sink of a recorded slot is the executor's only one. *)
Inductive EffectLogSlot : Type :=
| EffectDetached
| EffectUnrecorded
| EffectRecorded (plugin_name : string)
| EffectNotPermitted (mode : PluginMode) (plugin_name : string).

Section Container.
Context {Message : Type}.

Record Extensions : Type := mkExtensions {
  x_request : option (arc RequestExtension);
  x_agent : option (arc (AgentExtension Message));
  x_http : option HttpExtension;
  x_security : option SecurityExtension;
  x_candidate_constraint : option CandidateConstraintExtension;
  x_delegation : option DelegationExtension;
  x_raw_credentials : option RawCredentialsExtension;
  x_mcp : option (arc MCPExtension);
  x_completion : option (arc CompletionExtension);
  x_provenance : option (arc ProvenanceExtension);
  x_llm : option (arc LLMExtension);
  x_llm_request : option (arc LlmRequestData);
  x_framework : option (arc FrameworkExtension);
  x_meta : option (arc MetaExtension);
  x_metadata : option (arc MetadataExtension);
  x_custom : option (gmap string json);
  x_http_write_token : bool;
  x_labels_write_token : bool;
  x_delegation_write_token : bool;
  x_http_transport : HttpTransportSlot;
  x_effect_log : EffectLogSlot;
}.

Record OwnedExtensions : Type := mkOwned {
  o_request : option (arc RequestExtension);
  o_agent : option (arc (AgentExtension Message));
  o_mcp : option (arc MCPExtension);
  o_completion : option (arc CompletionExtension);
  o_provenance : option (arc ProvenanceExtension);
  o_llm : option (arc LLMExtension);
  o_llm_request : option (arc LlmRequestData);
  o_framework : option (arc FrameworkExtension);
  o_meta : option (arc MetaExtension);
  o_metadata : option (arc MetadataExtension);
  o_raw_credentials : option RawCredentialsExtension;
  o_http : option HttpExtension;
  o_security : option SecurityExtension;
  o_candidate_constraint : option CandidateConstraintExtension;
  o_delegation : option DelegationExtension;
  o_custom : option (gmap string json);
  o_http_write_token : bool;
  o_labels_write_token : bool;
  o_delegation_write_token : bool;
}.

Definition Extensions_default : Extensions :=
  mkExtensions None None None None None None None None None None None None None None None None
    false false false TransportNotInstalled EffectDetached.
(** [Clone]: the tokens, the transport and the effect slot stay behind. *)
Definition clone (x : Extensions) : Extensions :=
  mkExtensions (x_request x) (x_agent x) (x_http x) (x_security x) (x_candidate_constraint x)
    (x_delegation x) (x_raw_credentials x) (x_mcp x) (x_completion x) (x_provenance x) (x_llm x)
    (x_llm_request x) (x_framework x) (x_meta x) (x_metadata x) (x_custom x)
    false false false TransportNotInstalled EffectDetached.

(** Assignment to the metadata slot. *)
Definition set_metadata (x : Extensions) (m : option (arc MetadataExtension)) : Extensions :=
  mkExtensions (x_request x) (x_agent x) (x_http x) (x_security x) (x_candidate_constraint x)
    (x_delegation x) (x_raw_credentials x) (x_mcp x) (x_completion x) (x_provenance x) (x_llm x)
    (x_llm_request x) (x_framework x) (x_meta x) m (x_custom x) (x_http_write_token x)
    (x_labels_write_token x) (x_delegation_write_token x) (x_http_transport x) (x_effect_log x).

Definition for_child_request (x : Extensions) : Extensions := set_metadata (clone x) None.

Definition retain_metadata_from (x parent : Extensions) : Extensions :=
  set_metadata x (x_metadata parent).

(** [install_metadata]: in place when the map is not shared, else in a new allocation;
    [fresh] is its address. *)
Definition install_metadata (x : Extensions) (shared : bool) (fresh : N) (instance kind : string)
    (facts : AcquiredFacts) : result Extensions MetadataInstallError :=
  let current := match x_metadata x with Some a => arc_val a | None => ∅ end in
  let? m := metadata_install current instance kind facts in
  let addr := match x_metadata x with
              | Some a => if shared then fresh else arc_addr a
              | None => fresh
              end in
  Ok (set_metadata x (Some (mkArc addr m))).

Definition cow_copy (x : Extensions) : OwnedExtensions :=
  mkOwned (x_request x) (x_agent x) (x_mcp x) (x_completion x) (x_provenance x) (x_llm x)
    (x_llm_request x) (x_framework x) (x_meta x) (x_metadata x) (x_raw_credentials x)
    (x_http x) (x_security x) (x_candidate_constraint x) (x_delegation x) (x_custom x)
    (x_http_write_token x) (x_labels_write_token x) (x_delegation_write_token x).

(** ** What a plugin may hand back *)

Definition ptr_eq_opt {T} (a b : option (arc T)) : bool :=
  match a, b with
  | Some a, Some b => ptr_eq a b
  | _, None => true
  | None, Some _ => false
  end.

Definition validate_immutable (x : Extensions) (modified : OwnedExtensions) : bool :=
  ptr_eq_opt (x_request x) (o_request modified)
  && ptr_eq_opt (x_agent x) (o_agent modified)
  && ptr_eq_opt (x_mcp x) (o_mcp modified)
  && ptr_eq_opt (x_completion x) (o_completion modified)
  && ptr_eq_opt (x_provenance x) (o_provenance modified)
  && ptr_eq_opt (x_llm x) (o_llm modified)
  && ptr_eq_opt (x_llm_request x) (o_llm_request modified)
  && ptr_eq_opt (x_framework x) (o_framework modified)
  && ptr_eq_opt (x_meta x) (o_meta modified)
  && ptr_eq_opt (x_metadata x) (o_metadata modified).

Definition candidate_constraint_write_ok (x : Extensions) (modified : OwnedExtensions)
    (capabilities : Capabilities) : bool :=
  bool_decide (CAP_WRITE_CANDIDATE_CONSTRAINT ∈ capabilities)
  || bool_decide (o_candidate_constraint modified = x_candidate_constraint x).

Definition merge_http (canonical owned : option HttpExtension) (token : bool) : option HttpExtension :=
  match owned with
  | None => canonical
  | Some owned =>
      if negb token then canonical
      else
        let merged := default HttpExtension_default canonical in
        let markers := ht_secret_headers merged in
        let request_headers :=
          if bool_decide (markers = ∅) then ht_request_headers owned
          else
            (* retain what is not marked, then insert the marked headers of the canonical slot *)
            filter (fun h => is_marked markers h.1 = true) (ht_request_headers merged)
            ∪ filter (fun h => is_marked markers h.1 = false) (ht_request_headers owned) in
        Some (mkHttp request_headers (ht_client_address merged) markers (ht_response_headers owned)
                (ht_status merged) (ht_method merged) (ht_path merged) (ht_query merged)
                (ht_host merged) (ht_scheme merged))
  end.

Definition merge_security (canonical owned : option SecurityExtension) (token : bool) :
    option SecurityExtension :=
  match owned with
  | None => canonical
  | Some owned =>
      if negb token then canonical
      else
        let merged := default SecurityExtension_default canonical in
        Some (mkSecurity (fold_left add_label (elements (sec_labels owned)) (sec_labels merged))
                (sec_classification merged) (sec_subject merged) (sec_client merged)
                (sec_caller_workload merged) (sec_this_workload merged) (sec_auth_method merged)
                (sec_objects merged) (sec_data merged))
  end.

Definition detail_eqb (a b : AuthorizationDetail) : bool :=
  bool_decide (ad_detail_type a = ad_detail_type b)
  && bool_decide (ad_locations a = ad_locations b) && bool_decide (ad_actions a = ad_actions b)
  && bool_decide (ad_datatypes a = ad_datatypes b) && bool_decide (ad_identifier a = ad_identifier b)
  && bool_decide (ad_privileges a = ad_privileges b)
  && list_eqb (fun e f => String.eqb e.1 f.1 && json_eqb e.2 f.2) (ad_extra a) (ad_extra b).

(** The hop fields [chain_extends] compares. *)
Definition same_hop (before after : DelegationHop) : bool :=
  bool_decide (hop_subject_id before = hop_subject_id after)
  && bool_decide (hop_subject_type before = hop_subject_type after)
  && bool_decide (hop_audience before = hop_audience after)
  && bool_decide (hop_scopes_granted before = hop_scopes_granted after)
  && bool_decide (hop_strategy before = hop_strategy after)
  && list_eqb detail_eqb (hop_authorization_details before) (hop_authorization_details after)
  && bool_decide (hop_ttl_seconds before = hop_ttl_seconds after)
  && (hop_timestamp before =? hop_timestamp after)%Z.

Definition chain_extends (canonical returned : list DelegationHop) : bool :=
  if (length returned <? length canonical)%nat then false
  else forallb (fun '(before, after) => same_hop before after) (zip canonical returned).

Definition u32_max : Z := 4294967295.

Definition merge_delegation (canonical owned : option DelegationExtension) (token : bool) :
    option DelegationExtension :=
  match owned with
  | None => canonical
  | Some owned =>
      if negb token then canonical
      else
        let refused := is_some_and (fun c => negb (chain_extends (del_chain c) (del_chain owned))) canonical in
        if refused then canonical
        else
          let merged := default DelegationExtension_default canonical in
          Some (mkDelegation (del_chain owned)
                  (Z.min (Z.of_nat (length (del_chain owned))) u32_max)
                  (match del_origin_subject_id merged with
                   | Some origin => Some origin | None => del_origin_subject_id owned end)
                  (del_actor_subject_id owned)
                  (negb (is_nil (del_chain owned)))
                  (del_age_seconds owned))
  end.

Definition merge_owned (x : Extensions) (owned : OwnedExtensions) : Extensions :=
  mkExtensions (x_request x) (x_agent x)
    (merge_http (x_http x) (o_http owned) (o_http_write_token owned))
    (merge_security (x_security x) (o_security owned) (o_labels_write_token owned))
    (o_candidate_constraint owned)
    (merge_delegation (x_delegation x) (o_delegation owned) (o_delegation_write_token owned))
    (match o_raw_credentials owned with Some raw => Some raw | None => x_raw_credentials x end)
    (x_mcp x) (x_completion x) (x_provenance x) (x_llm x) (x_llm_request x) (x_framework x)
    (x_meta x) (x_metadata x) (o_custom owned) (x_http_write_token x) (x_labels_write_token x)
    (x_delegation_write_token x) (x_http_transport x) (x_effect_log x).

(** ** The filtered view *)

Definition build_filtered_subject (subject : SubjectExtension) (capabilities : Capabilities) :
    SubjectExtension :=
  mkSubject (sj_id subject) (sj_subject_type subject)
    (if has_cap capabilities ReadRoles then sj_roles subject else ∅)
    (if has_cap capabilities ReadPermissions then sj_permissions subject else ∅)
    (if has_cap capabilities ReadTeams then sj_teams subject else ∅)
    (if has_cap capabilities ReadClaims then sj_claims subject else ∅)
    (sj_key_binding subject).

(** [slot] when the policy of [name] grants it. *)
Definition gate {T} (name : SlotName) (capabilities : Capabilities) (slot : option T) : option T :=
  if has_read_access (slot_policy name) capabilities then slot else None.

Definition build_filtered_security (security : SecurityExtension) (capabilities : Capabilities) :
    SecurityExtension :=
  mkSecurity
    (if has_read_access (slot_policy SlSecurityLabels) capabilities then sec_labels security else ∅)
    (sec_classification security)
    (match sec_subject security with
     | Some subject =>
         if has_any_subject_capability capabilities
         then Some (build_filtered_subject subject capabilities) else None
     | None => None
     end)
    (gate SlSecurityClient capabilities (sec_client security))
    (gate SlSecurityCallerWorkload capabilities (sec_caller_workload security))
    (gate SlSecurityThisWorkload capabilities (sec_this_workload security))
    (sec_auth_method security) (sec_objects security) (sec_data security).

Definition build_filtered_raw_credentials (raw : RawCredentialsExtension)
    (allow_inbound allow_delegated : bool) : RawCredentialsExtension :=
  mkRawCredentials (if allow_inbound then rc_inbound_tokens raw else ∅)
    (if allow_delegated then rc_delegated_tokens raw else ∅).

(** The HTTP part of [filter_extensions]. *)
Definition filter_http (http : HttpExtension) (capabilities : Capabilities) : option HttpExtension :=
  let read_headers := has_read_access (slot_policy SlHttp) capabilities in
  let read_query := has_cap capabilities ReadQuery in
  if read_headers && bool_decide (ht_secret_headers http = ∅) && (read_query || is_none (ht_query http))
  then Some http
  else if read_headers then
    Some (mkHttp (redacted_request_headers http) (ht_client_address http) (ht_secret_headers http)
            (ht_response_headers http) (ht_status http) (ht_method http) (ht_path http)
            (if read_query then ht_query http else None) (ht_host http) (ht_scheme http))
  else if read_query then
    Some (mkHttp ∅ None ∅ ∅ None None None (ht_query http) None None)
  else None.

Definition filter_raw (raw : RawCredentialsExtension) (capabilities : Capabilities) :
    option RawCredentialsExtension :=
  let allow_inbound := has_read_access (slot_policy SlRawCredentialsInbound) capabilities in
  let allow_delegated := has_read_access (slot_policy SlRawCredentialsDelegated) capabilities in
  if allow_inbound || allow_delegated
  then Some (build_filtered_raw_credentials raw allow_inbound allow_delegated) else None.

Definition filter_transport (slot : HttpTransportSlot) (capabilities : Capabilities) : HttpTransportSlot :=
  if transport_is_available slot then
    if has_cap capabilities PerformHttp then slot else TransportNotPermitted
  else TransportNotInstalled.

Definition filter_extensions (x : Extensions) (capabilities : Capabilities) : Extensions :=
  mkExtensions (x_request x) (gate SlAgent capabilities (x_agent x))
    (match x_http x with Some http => filter_http http capabilities | None => None end)
    (option_map (fun security => build_filtered_security security capabilities) (x_security x))
    (x_candidate_constraint x)
    (gate SlDelegation capabilities (x_delegation x))
    (match x_raw_credentials x with Some raw => filter_raw raw capabilities | None => None end)
    (x_mcp x) (x_completion x) (x_provenance x) (x_llm x)
    (gate SlLlmRequest capabilities (x_llm_request x))
    (x_framework x) (x_meta x)
    (gate SlMetadata capabilities (x_metadata x))
    (x_custom x) false false false
    (filter_transport (x_http_transport x) capabilities) EffectDetached.
End Container.
Arguments Extensions Message : clear implicits.
Arguments OwnedExtensions Message : clear implicits.

(** ** Resolved identity ([ppe-core/src/identity/payload.rs])

    The payload the identity resolvers build up, its merge, and its transfer to the
    extensions of the request. *)

Inductive TokenSource : Type :=
| SrcBearer
| SrcUserToken
| SrcMtls
| SrcSpiffeJwtSvid
| SrcApiKey
| SrcCustom (name : string).

Record IdentityPayload : Type := mkIdentity {
  id_raw_token : string;
  id_source : TokenSource;
  id_source_header : option string;
  id_headers : gmap string string;
  id_client_host : option string;
  id_client_port : option Z;
  id_subject : option SubjectExtension;
  id_client : option ClientExtension;
  id_caller_workload : option WorkloadIdentity;
  id_delegation : option DelegationExtension;
  id_raw_credentials : option RawCredentialsExtension;
  id_resolved_at : option DateTime;
  id_raw_claims : gmap string json;
  id_credential_declined : bool;
}.

Definition identity_new (raw_token : string) (source : TokenSource) : IdentityPayload :=
  mkIdentity raw_token source None ∅ None None None None None None None None ∅ false.

(** [if other.f.is_some() { self.f = other.f }]. *)
Definition or_else {A} (other self : option A) : option A :=
  match other with Some a => Some a | None => self end.

Definition identity_merge (self other : IdentityPayload) : IdentityPayload :=
  mkIdentity (id_raw_token self) (id_source self) (id_source_header self) (id_headers self)
    (id_client_host self) (id_client_port self)
    (or_else (id_subject other) (id_subject self))
    (or_else (id_client other) (id_client self))
    (or_else (id_caller_workload other) (id_caller_workload self))
    (or_else (id_delegation other) (id_delegation self))
    (or_else (id_raw_credentials other) (id_raw_credentials self))
    (or_else (id_resolved_at other) (id_resolved_at self))
    (id_raw_claims other ∪ id_raw_claims self)
    (id_credential_declined self || id_credential_declined other).

Definition is_some {A} (o : option A) : bool := match o with Some _ => true | None => false end.

(** The security slot [apply_to_extensions] leaves. *)
Definition apply_security (i : IdentityPayload) (security : option SecurityExtension) :
    option SecurityExtension :=
  if is_some (id_subject i) || is_some (id_client i) || is_some (id_caller_workload i) then
    let sec := default SecurityExtension_default security in
    Some (mkSecurity (sec_labels sec) (sec_classification sec)
            (or_else (id_subject i) (sec_subject sec)) (or_else (id_client i) (sec_client sec))
            (or_else (id_caller_workload i) (sec_caller_workload sec)) (sec_this_workload sec)
            (sec_auth_method sec) (sec_objects sec) (sec_data sec))
  else security.

Definition apply_to_extensions {Message} (i : IdentityPayload) (x : Extensions Message) :
    Extensions Message :=
  mkExtensions (x_request x) (x_agent x) (x_http x) (apply_security i (x_security x))
    (x_candidate_constraint x) (or_else (id_delegation i) (x_delegation x))
    (or_else (id_raw_credentials i) (x_raw_credentials x)) (x_mcp x) (x_completion x)
    (x_provenance x) (x_llm x) (x_llm_request x) (x_framework x) (x_meta x) (x_metadata x)
    (x_custom x) (x_http_write_token x) (x_labels_write_token x) (x_delegation_write_token x)
    (x_http_transport x) (x_effect_log x).
