(* ===== verification/Executor.v ===== *)
(** * The plugin executor ([ppe-core/src/executor.rs])

    A hook invocation runs the plugins registered for it in five phases: sequential,
    transform, audit, concurrent, fire-and-forget. A handler is a function from what it is
    given to how its call ends; the payload types are a parameter, of which the executor
    only asks whether a payload is an identity. *)

From Stdlib Require Import Ascii String.
From S2P Require Import Prelude RustStr Json Constraint Host Branches ExtData Plugin Extensions.

(** [dyn PluginPayload] and the message type of the agent slot. *)
Class Payloads := {
  Payload : Type;
  Message : Type;
  (** [as_any().downcast_ref::<IdentityPayload>()]. *)
  as_identity : Payload -> option IdentityPayload;
}.

Record ExecutorConfig : Type := mkExecutorConfig {
  ec_timeout_seconds : Z;
  ec_short_circuit_on_deny : bool;
  ec_effect_sink : bool;   (* whether an effect sink is attached *)
}.

Section Executor.
Context `{Payloads}.

(** ** Handlers *)

Record ErasedResultFields : Type := mkErased {
  ef_continue_processing : bool;
  ef_modified_payload : option Payload;
  ef_modified_extensions : option (OwnedExtensions Message);
  ef_violation : option PluginViolation;
}.

(** What a handler's box holds: the fields, or another type ([extract_erased] gives [None]). *)
Definition HandlerValue : Type := option ErasedResultFields.

Inductive HandlerEnd : Type :=
| HOk (value : HandlerValue)
| HErr (e : PluginError)
| HPanic (join : string).

(** How a call ends: its end, the context as it leaves it (also when cut off), how long it
    takes in milliseconds (waits for audit sinks not counted), and what its join error says
    when the runtime drops its task before it ends. *)
Record Invocation : Type := mkInvocation {
  inv_end : HandlerEnd;
  inv_ctx : PluginContext;
  inv_time : Z;
  inv_lost : option string;
}.

Record HookEntry : Type := mkEntry {
  he_ref : PluginRef;
  he_handler : Payload -> Extensions Message -> PluginContext -> Invocation;
}.

Definition he_config (e : HookEntry) : TrustedConfig := pr_trusted_config (he_ref e).
Definition he_name (e : HookEntry) : string := pc_name (he_config e).
Definition he_id (e : HookEntry) : Uuid := pr_id (he_ref e).

(** ** Containment *)

Inductive ContainedOutcome : Type :=
| COSuccess (value : HandlerValue) (ctx : PluginContext)
| COError (e : PluginError) (ctx : PluginContext)
| COTimeout (ctx : PluginContext)
| COPanic (s : string)
| COLost.

Definition timeout_dur (cfg : ExecutorConfig) : Z := (ec_timeout_seconds cfg * 1000)%Z.

Definition u64_max : Z := 18446744073709551615.

(** [u64::try_from(timeout_dur.as_millis()).unwrap_or(u64::MAX)]. *)
Definition timeout_ms (cfg : ExecutorConfig) : Z := Z.min (timeout_dur cfg) u64_max.

Definition invoke_contained (e : HookEntry) (payload : Payload) (extensions : Extensions Message)
    (ctx : PluginContext) (dur : Z) : ContainedOutcome :=
  let inv := he_handler e payload extensions ctx in
  if inv_lost inv then COLost
  else if (dur <? inv_time inv)%Z then COTimeout (inv_ctx inv)
  else match inv_end inv with
  | HOk value => COSuccess value (inv_ctx inv)
  | HErr err => COError err (inv_ctx inv)
  | HPanic s => COPanic s
  end.

(** ** Views *)

(** The view of a serial plugin: filtered, with the write tokens its capabilities grant. *)
Definition serial_view (cfg : ExecutorConfig) (e : HookEntry) (x : Extensions Message) :
    Extensions Message :=
  let capabilities := pc_capabilities (he_config e) in
  let f := filter_extensions x capabilities in
  mkExtensions (x_request f) (x_agent f) (x_http f) (x_security f) (x_candidate_constraint f)
    (x_delegation f) (x_raw_credentials f) (x_mcp f) (x_completion f) (x_provenance f) (x_llm f)
    (x_llm_request f) (x_framework f) (x_meta f) (x_metadata f) (x_custom f)
    (has_cap capabilities WriteHeaders) (has_cap capabilities AppendLabels)
    (has_cap capabilities AppendDelegation) (x_http_transport f)
    (if negb (permits_effects (pc_mode (he_config e)))
     then EffectNotPermitted (pc_mode (he_config e)) (he_name e)
     else if ec_effect_sink cfg then EffectRecorded (he_name e) else EffectUnrecorded).

(** The view of the read-only phases: filtered, no tokens, no effects. *)
Definition readonly_view (e : HookEntry) (x : Extensions Message) : Extensions Message :=
  let f := filter_extensions x (pc_capabilities (he_config e)) in
  mkExtensions (x_request f) (x_agent f) (x_http f) (x_security f) (x_candidate_constraint f)
    (x_delegation f) (x_raw_credentials f) (x_mcp f) (x_completion f) (x_provenance f) (x_llm f)
    (x_llm_request f) (x_framework f) (x_meta f) (x_metadata f) (x_custom f)
    (x_http_write_token f) (x_labels_write_token f) (x_delegation_write_token f)
    (x_http_transport f) (EffectNotPermitted (pc_mode (he_config e)) (he_name e)).

(** ** Accepting what a serial plugin returns *)

(** The write tokens are derived again from the capabilities, not read off the value. *)
Definition with_tokens (owned : OwnedExtensions Message) (capabilities : Capabilities) :
    OwnedExtensions Message :=
  mkOwned (o_request owned) (o_agent owned) (o_mcp owned) (o_completion owned) (o_provenance owned)
    (o_llm owned) (o_llm_request owned) (o_framework owned) (o_meta owned) (o_metadata owned)
    (o_raw_credentials owned) (o_http owned) (o_security owned) (o_candidate_constraint owned)
    (o_delegation owned) (o_custom owned) (has_cap capabilities WriteHeaders)
    (has_cap capabilities AppendLabels) (has_cap capabilities AppendDelegation).

Definition accept_extensions (capabilities : Capabilities) (x : Extensions Message)
    (owned : OwnedExtensions Message) : option (Extensions Message) :=
  let immutable_ok := validate_immutable x owned in
  let labels_ok :=
    negb (has_cap capabilities ReadLabels)
    || match x_security x, o_security owned with
       | Some orig, Some new => bool_decide (sec_labels orig ⊆ sec_labels new)
       | _, _ => true
       end in
  let constraint_ok := candidate_constraint_write_ok x owned capabilities in
  if negb immutable_ok then None
  else if negb labels_ok then None
  else if negb constraint_ok then None
  else Some (merge_owned x (with_tokens owned capabilities)).

(** What the phases thread along. *)
Record ExecState : Type := mkExec {
  ex_payload : Payload;
  ex_extensions : Extensions Message;
  ex_table : PluginContextTable;
  ex_errors : list PluginErrorRecord;
  ex_log : DecisionLog;
  ex_modified : bool;
  ex_declined : bool;
  ex_disabled : DisabledSet;
}.

Definition declined (p : Payload) : bool :=
  match as_identity p with Some i => id_credential_declined i | None => false end.

(** [if let Some(mp) = erased.modified_payload { ... }]. *)
Definition accept_payload (mp : option Payload) (action : PluginAction) (st : ExecState) :
    PluginAction * ExecState :=
  match mp with
  | None => (action, st)
  | Some mp =>
      (ActModifiedPayload,
       mkExec mp (ex_extensions st) (ex_table st) (ex_errors st) (ex_log st) true
         (ex_declined st || declined mp) (ex_disabled st))
  end.

(** [if let Some(mut owned) = erased.modified_extensions { ... }]. *)
Definition accept_owned (capabilities : Capabilities) (owned : option (OwnedExtensions Message))
    (action : PluginAction) (st : ExecState) : PluginAction * ExecState :=
  match owned with
  | None => (action, st)
  | Some owned =>
      match accept_extensions capabilities (ex_extensions st) owned with
      | None => (action, st)
      | Some x =>
          (match action with ActAllowed => ActModifiedExtensions | _ => action end,
           mkExec (ex_payload st) x (ex_table st) (ex_errors st) (ex_log st) (ex_modified st)
             (ex_declined st) (ex_disabled st))
      end
  end.
(** ** Serial phases *)

(** How one plugin of a serial phase ends: the phase halts, or goes on with the context to
    commit, if the task gave one back. *)
Inductive SerialStep : Type :=
| SHalt (v : PluginViolation) (action : PluginAction)
| SGo (action : PluginAction) (ctx : option PluginContext) (st : ExecState).

Definition push_error (e : PluginError) (st : ExecState) : ExecState :=
  mkExec (ex_payload st) (ex_extensions st) (ex_table st) (ex_errors st ++ [error_record e])
    (ex_log st) (ex_modified st) (ex_declined st) (ex_disabled st).

Definition disable_plugin (e : HookEntry) (st : ExecState) : ExecState :=
  mkExec (ex_payload st) (ex_extensions st) (ex_table st) (ex_errors st) (ex_log st)
    (ex_modified st) (ex_declined st) (disable (ex_disabled st) (he_ref e)).

Definition record_step (e : HookEntry) (action : PluginAction) (st : ExecState) : ExecState :=
  mkExec (ex_payload st) (ex_extensions st) (ex_table st) (ex_errors st)
    (log_record (ex_log st) (he_name e) (pc_mode (he_config e)) action)
    (ex_modified st) (ex_declined st) (ex_disabled st).

Definition store_step (e : HookEntry) (ctx : option PluginContext) (st : ExecState) : ExecState :=
  match ctx with
  | None => st
  | Some ctx =>
      mkExec (ex_payload st) (ex_extensions st) (store_context (ex_table st) (he_id e) ctx)
        (ex_errors st) (ex_log st) (ex_modified st) (ex_declined st) (ex_disabled st)
  end.

(** [PluginError::Execution] as the executor builds it. *)
Definition execution_error (e : HookEntry) (message : string) (code : option string) : PluginError :=
  PeExecution (he_name e) message code ∅ None.

Definition violation_for (e : HookEntry) (code reason : string) : PluginViolation :=
  attribute_to (he_name e) (violation_new code reason).

(** The [match on_error] every failure goes through: [code] and [reason] make the
    violation, [err] the error record. *)
Definition serial_failure (blocking : bool) (e : HookEntry) (action : PluginAction)
    (code reason : string) (err : PluginError) (ctx : option PluginContext) (st : ExecState) : SerialStep :=
  match pc_on_error (he_config e) with
  | OeFail =>
      if blocking then SHalt (violation_for e code reason) action
      else SGo action ctx (push_error err st)
  | OeIgnore => SGo action ctx (push_error err st)
  | OeDisable => SGo action ctx (disable_plugin e (push_error err st))
  end.

(** The violation of a deny, made up when the plugin gave none. *)
Definition deny_violation (code : string) (e : HookEntry) (v : option PluginViolation) : PluginViolation :=
  attribute_to (he_name e)
    (match v with Some v => v | None => violation_new code ("Plugin '" +:+ he_name e +:+ "' denied") end).

Definition serial_success (blocking modifying : bool) (e : HookEntry) (erased : ErasedResultFields)
    (ctx : PluginContext) (st : ExecState) : SerialStep :=
  if negb (ef_continue_processing erased) then
    let v := deny_violation "plugin_deny" e (ef_violation erased) in
    if blocking then SHalt v (ActDenied v) else SGo (ActDenyIgnored v) (Some ctx) st
  else if modifying then
    let '(action, st) := accept_payload (ef_modified_payload erased) ActAllowed st in
    let '(action, st) :=
      accept_owned (pc_capabilities (he_config e)) (ef_modified_extensions erased) action st in
    SGo action (Some ctx) st
  else SGo ActAllowed (Some ctx) st.

Definition serial_step (cfg : ExecutorConfig) (blocking modifying : bool) (e : HookEntry)
    (st : ExecState) : SerialStep :=
  let ctx := snapshot_context (ex_table st) (he_id e) in
  match invoke_contained e (ex_payload st) (serial_view cfg e (ex_extensions st)) ctx (timeout_dur cfg) with
  | COSuccess (Some erased) ctx => serial_success blocking modifying e erased ctx st
  | COSuccess None ctx =>
      let err := execution_error e "handler returned unexpected result type" None in
      serial_failure blocking e (ActError (error_display err)) "plugin_error"
        ("Plugin '" +:+ he_name e +:+ "' failed: " +:+ error_display err) err (Some ctx) st
  | COError err ctx =>
      serial_failure blocking e (ActError (error_display err)) "plugin_error"
        ("Plugin '" +:+ he_name e +:+ "' failed: " +:+ error_display err) err (Some ctx) st
  | COTimeout ctx =>
      serial_failure blocking e (ActError "timed out") "plugin_timeout"
        ("Plugin '" +:+ he_name e +:+ "' timed out")
        (PeTimeout (he_name e) (timeout_ms cfg) None) (Some ctx) st
  | COPanic s =>
      serial_failure blocking e (ActError ("task panicked: " +:+ s)) "plugin_panic"
        ("Plugin '" +:+ he_name e +:+ "' task panicked: " +:+ s)
        (execution_error e ("task panicked: " +:+ s) (Some "panic")) None st
  | COLost =>
      let action := ActError "task ended without a result" in
      if blocking then
        SHalt (violation_for e "executor_invariant"
                 ("Plugin '" +:+ he_name e
                  +:+ "' task ended without a result; cannot attribute an allow")) action
      else
        let st := push_error (execution_error e "task ended without a result" (Some "lost")) st in
        SGo action None
          (match pc_on_error (he_config e) with OeDisable => disable_plugin e st | _ => st end)
  end.

Fixpoint run_serial_phase (cfg : ExecutorConfig) (blocking modifying : bool)
    (entries : list HookEntry) (st : ExecState) : option PluginViolation * ExecState :=
  match entries with
  | [] => (None, st)
  | e :: rest =>
      match serial_step cfg blocking modifying e st with
      | SHalt v action => (Some v, record_step e action st)
      | SGo action ctx st' =>
          run_serial_phase cfg blocking modifying rest (store_step e ctx (record_step e action st'))
      end
  end.

(** ** The audit phase *)

Definition audit_success_action (e : HookEntry) (value : HandlerValue) : PluginAction :=
  match value with
  | Some r =>
      if negb (ef_continue_processing r)
      then ActDenyIgnored (deny_violation "plugin_deny" e (ef_violation r)) else ActAllowed
  | None => ActAllowed
  end.

Definition audit_action (e : HookEntry) (o : ContainedOutcome) : PluginAction :=
  match o with
  | COSuccess value _ => audit_success_action e value
  | COError err _ => ActError (error_display err)
  | COTimeout _ => ActError "timed out"
  | COPanic s => ActError ("task panicked: " +:+ s)
  | COLost => ActError "task ended without a result"
  end.

(** The error an audit plugin's outcome leaves, if any. *)
Definition audit_error (cfg : ExecutorConfig) (e : HookEntry) (o : ContainedOutcome) : option PluginError :=
  match o with
  | COSuccess _ _ => None
  | COError err _ => Some err
  | COTimeout _ => Some (PeTimeout (he_name e) (timeout_ms cfg) None)
  | COPanic s => Some (execution_error e ("task panicked: " +:+ s) (Some "panic"))
  | COLost => Some (execution_error e "task ended without a result" (Some "lost"))
  end.

Definition ref_step (cfg : ExecutorConfig) (e : HookEntry) (st : ExecState) : ExecState :=
  let contained :=
    invoke_contained e (ex_payload st) (readonly_view e (ex_extensions st))
      (snapshot_context (ex_table st) (he_id e)) (timeout_dur cfg) in
  let st := record_step e (audit_action e contained) st in
  match audit_error cfg e contained with
  | None => st
  | Some err =>
      let st := push_error err st in
      match pc_on_error (he_config e) with OeDisable => disable_plugin e st | _ => st end
  end.

Definition run_ref_phase (cfg : ExecutorConfig) (entries : list HookEntry) (st : ExecState) : ExecState :=
  fold_left (fun st e => ref_step cfg e st) entries st.

(** ** The concurrent phase *)

Inductive BranchData : Type :=
| BdAllow
| BdDeny (v : option PluginViolation)
| BdError (e : PluginError).

Definition branch_data (e : HookEntry) (end_ : HandlerEnd) : FutureEnd BranchData :=
  match end_ with
  | HOk (Some erased) =>
      if negb (ef_continue_processing erased)
      then Yields (BdDeny (option_map (attribute_to (he_name e)) (ef_violation erased)))
      else Yields BdAllow
  | HOk None => Yields (BdError (execution_error e "handler returned unexpected result type" None))
  | HErr err => Yields (BdError err)
  | HPanic s => Panics s
  end.

Definition concurrent_branch (e : HookEntry) (st : ExecState) : Branch BranchData :=
  let inv := he_handler e (ex_payload st) (readonly_view e (ex_extensions st))
               (snapshot_context (ex_table st) (he_id e)) in
  mkBranch (if inv_lost inv then Dropped else branch_data e (inv_end inv)) (inv_time inv).

Definition is_branch_deny (v : BranchData) : bool := match v with BdDeny _ => true | _ => false end.

Definition concurrent_action (e : HookEntry) (o : BranchOutcome BranchData) : PluginAction :=
  match o with
  | Completed BdAllow => ActAllowed
  | Completed (BdDeny v) => ActDenied (deny_violation "concurrent_deny" e v)
  | Completed (BdError err) => ActError (error_display err)
  | TimedOut => ActError "timed out"
  | Panicked s => ActError ("panicked: " +:+ s)
  | Aborted => ActAborted
  end.

Definition first_violation (current : option PluginViolation) (v : PluginViolation) :
    option PluginViolation :=
  match current with Some _ => current | None => Some v end.

(** The [match on_error] of a failed branch. *)
Definition concurrent_failure (e : HookEntry) (code reason : string) (err : PluginError)
    (current : option PluginViolation) (st : ExecState) : option PluginViolation * ExecState :=
  match pc_on_error (he_config e) with
  | OeFail => (first_violation current (violation_for e code reason), st)
  | OeIgnore => (current, push_error err st)
  | OeDisable => (current, disable_plugin e (push_error err st))
  end.

Definition concurrent_step (cfg : ExecutorConfig) (e : HookEntry) (o : BranchOutcome BranchData)
    (current : option PluginViolation) (st : ExecState) : option PluginViolation * ExecState :=
  let st := record_step e (concurrent_action e o) st in
  match o with
  | Completed BdAllow | Aborted => (current, st)
  | Completed (BdDeny v) => (first_violation current (deny_violation "concurrent_deny" e v), st)
  | Completed (BdError err) =>
      concurrent_failure e "plugin_error"
        ("Plugin '" +:+ he_name e +:+ "' failed: " +:+ error_display err) err current st
  | TimedOut =>
      concurrent_failure e "plugin_timeout" ("Plugin '" +:+ he_name e +:+ "' timed out")
        (PeTimeout (he_name e) (timeout_ms cfg) None) current st
  | Panicked s =>
      concurrent_failure e "plugin_panic" ("Plugin '" +:+ he_name e +:+ "' task panicked: " +:+ s)
        (execution_error e ("task panicked: " +:+ s) (Some "panic")) current st
  end.

Fixpoint concurrent_loop (cfg : ExecutorConfig) (pairs : list (HookEntry * BranchOutcome BranchData))
    (current : option PluginViolation) (st : ExecState) : option PluginViolation * ExecState :=
  match pairs with
  | [] => (current, st)
  | (e, o) :: rest =>
      let '(current, st) := concurrent_step cfg e o current st in
      concurrent_loop cfg rest current st
  end.

Definition concurrent_config (cfg : ExecutorConfig) : BranchConfig :=
  mkBranchConfig (Some (timeout_dur cfg)) (ec_short_circuit_on_deny cfg).

Definition run_concurrent_phase (cfg : ExecutorConfig) (sched : schedule) (entries : list HookEntry)
    (st : ExecState) : option PluginViolation * ExecState :=
  if is_nil entries then (None, st)
  else
    let outcomes :=
      run_branches (map (fun e => concurrent_branch e st) entries) (concurrent_config cfg)
        is_branch_deny sched in
    if negb (length outcomes =? length entries)%nat then
      (Some (violation_new "executor_invariant"
         ("concurrent dispatch produced " +:+ show_nat (length outcomes) +:+ " outcomes and "
          +:+ show_nat (length entries) +:+ " on_error entries for " +:+ show_nat (length entries)
          +:+ " plugins; cannot attribute results")), st)
    else concurrent_loop cfg (zip entries outcomes) None st.

(** ** Fire and forget *)

(** A background task: the plugin's name and, when it panics or the runtime drops it, what
    its join error says. *)
Definition BackgroundTask : Type := string * option string.

Definition spawn_fire_and_forget (cfg : ExecutorConfig) (entries : list HookEntry) (st : ExecState) :
    list BackgroundTask :=
  map (fun e =>
    let inv := he_handler e (ex_payload st) (readonly_view e (ex_extensions st))
                 (snapshot_context (ex_table st) (he_id e)) in
    (he_name e,
     if inv_lost inv then inv_lost inv
     else if (timeout_dur cfg <? inv_time inv)%Z then None
     else match inv_end inv with HPanic s => Some s | _ => None end)) entries.

Definition wait_for_background_tasks (tasks : list BackgroundTask) : list PluginError :=
  flat_map (fun '(name, panic) =>
    match panic with
    | Some s => [PeExecution name ("background task panicked: " +:+ s) None ∅ None]
    | None => []
    end) tasks.

(** ** The pipeline *)

Record PipelineResult : Type := mkPipelineResult {
  pp_continue_processing : bool;
  pp_modified_payload : option Payload;
  pp_payload_modified : bool;
  pp_modified_extensions : option (Extensions Message);
  pp_violation : option PluginViolation;
  pp_errors : list PluginErrorRecord;
  pp_context_table : PluginContextTable;
  pp_decision_log : DecisionLog;
}.

(** [allowed_with], with what the executor attaches. *)
Definition allowed_with (st : ExecState) : PipelineResult :=
  mkPipelineResult true (Some (ex_payload st)) (ex_modified st) (Some (ex_extensions st)) None
    (ex_errors st) (ex_table st) (log_finalize (ex_log st) VAllow).

Definition denied (v : PluginViolation) (st : ExecState) : PipelineResult :=
  mkPipelineResult false None false (Some (ex_extensions st)) (Some v) (ex_errors st) (ex_table st)
    (log_finalize (ex_log st) (VDeny v)).

Definition entries_of (m : PluginMode) (disabled : DisabledSet) (entries : list HookEntry) : list HookEntry :=
  List.filter (fun e => bool_decide (mode disabled (he_ref e) = m)) entries.

Definition group_by_mode (disabled : DisabledSet) (entries : list HookEntry) :
    list HookEntry * list HookEntry * list HookEntry * list HookEntry * list HookEntry :=
  (entries_of Sequential disabled entries, entries_of Transform disabled entries,
   entries_of Audit disabled entries, entries_of Concurrent disabled entries,
   entries_of FireAndForget disabled entries).

(** A credential some resolver declined and none recognized. *)
Definition unrecognized (st : ExecState) : bool :=
  match as_identity (ex_payload st) with
  | Some identity =>
      ex_declined st && is_none (id_subject identity) && is_none (id_client identity)
      && is_none (id_caller_workload identity)
  | None => false
  end.

Definition unrecognized_violation : PluginViolation :=
  violation_new "auth.unrecognized_credential"
    "no identity resolver recognized the presented credential".

(** The result, the background tasks, the refused payload and the disabled plugins. *)
Definition execute_audited (cfg : ExecutorConfig) (sched : schedule) (disabled : DisabledSet)
    (entries : list HookEntry) (payload : Payload) (extensions : Extensions Message)
    (context_table : option PluginContextTable) :
    PipelineResult * list BackgroundTask * option Payload * DisabledSet :=
  let st := mkExec payload extensions (default table_default context_table) [] log_new false
              (declined payload) disabled in
  if is_nil entries then (allowed_with st, [], None, disabled)
  else
    let '(sequential, transform, audit, concurrent, fire_and_forget) := group_by_mode disabled entries in
    let refuse v st := (denied v st, [], Some (ex_payload st), ex_disabled st) in
    match run_serial_phase cfg true true sequential st with
    | (Some v, st) => refuse v st
    | (None, st) =>
        let '(_, st) := run_serial_phase cfg false true transform st in
        let st := run_ref_phase cfg audit st in
        match run_concurrent_phase cfg sched concurrent st with
        | (Some v, st) => refuse v st
        | (None, st) =>
            if unrecognized st then refuse unrecognized_violation st
            else (allowed_with st, spawn_fire_and_forget cfg fire_and_forget st, None, ex_disabled st)
        end
    end.

Definition execute (cfg : ExecutorConfig) (sched : schedule) (disabled : DisabledSet)
    (entries : list HookEntry) (payload : Payload) (extensions : Extensions Message)
    (context_table : option PluginContextTable) : PipelineResult * list BackgroundTask :=
  let '(result, tasks, _, _) :=
    execute_audited cfg sched disabled entries payload extensions context_table in
  (result, tasks).
End Executor.
