(* ===== verification/ExtProps.v ===== *)
(** * What plugins see and may change

    The filtered view of the extensions is a function of what the capabilities name, and
    the merge of what a plugin hands back keeps the tiers: immutable slots stay, labels and
    the delegation chain only grow, guarded headers need their capability. *)

From Stdlib Require Import Ascii String SpecFloat.
From S2P Require Import Prelude RustStr F64 Json Constraint Routing ExtData Plugin Extensions.

(** ** Capabilities *)

(** The slots other than the subject are read with one capability. *)
Lemma read_access slot capabilities c :
  slot_policy slot = mkSlotPolicy (sp_tier (slot_policy slot)) CapabilityGated (Some c)
                       (sp_write_cap (slot_policy slot)) ->
  c <> ReadSubject -> has_read_access (slot_policy slot) capabilities = has_cap capabilities c.
Proof.
  intros -> Hc. unfold has_read_access. simpl.
  rewrite (bool_decide_eq_false_2 (Some c = Some ReadSubject)) by congruence. apply orb_false_r.
Qed.

Lemma gate_cap {T} slot capabilities c (o : option T) :
  slot_policy slot = mkSlotPolicy (sp_tier (slot_policy slot)) CapabilityGated (Some c)
                       (sp_write_cap (slot_policy slot)) ->
  c <> ReadSubject -> gate slot capabilities o = if has_cap capabilities c then o else None.
Proof. intros Hs Hc. unfold gate. by rewrite (read_access _ _ _ Hs Hc). Qed.

(** Rewrite every gate to the capability it asks for. *)
Ltac open_gates :=
  repeat first
    [ rewrite (gate_cap SlAgent _ ReadAgent) by done
    | rewrite (gate_cap SlDelegation _ ReadDelegation) by done
    | rewrite (gate_cap SlLlmRequest _ ReadLlmRequest) by done
    | rewrite (gate_cap SlMetadata _ ReadMetadata) by done
    | rewrite (gate_cap SlSecurityClient _ ReadClient) by done
    | rewrite (gate_cap SlSecurityCallerWorkload _ ReadWorkload) by done
    | rewrite (gate_cap SlSecurityThisWorkload _ ReadWorkload) by done
    | rewrite (read_access SlHttp _ ReadHeaders) by done
    | rewrite (read_access SlSecurityLabels _ ReadLabels) by done
    | rewrite (read_access SlRawCredentialsInbound _ ReadInboundCredentials) by done
    | rewrite (read_access SlRawCredentialsDelegated _ ReadDelegatedTokens) by done ].

(** ** The view is a function of what the capabilities name *)

Section Noninterference.
Context {Message : Type}.
Variable capabilities : Capabilities.
Notation can c := (has_cap capabilities c = true).

(** Headers that look alike to a reader of headers: a secret header's value is not seen. *)
Record headers_alike (h h' : HttpExtension) : Prop := {
  ha_markers : ht_secret_headers h' = ht_secret_headers h;
  ha_open : forall name, is_marked (ht_secret_headers h) name = false ->
    ht_request_headers h' !! name = ht_request_headers h !! name;
  ha_names : forall name, is_Some (ht_request_headers h' !! name) <-> is_Some (ht_request_headers h !! name);
  ha_rest : (ht_client_address h', ht_response_headers h', ht_status h', ht_method h', ht_path h',
             ht_host h', ht_scheme h')
          = (ht_client_address h, ht_response_headers h, ht_status h, ht_method h, ht_path h,
             ht_host h, ht_scheme h);
}.

Definition http_alike (h h' : option HttpExtension) : Prop :=
  match h, h' with
  | Some h, Some h' =>
      (can ReadHeaders -> headers_alike h h') /\ (can ReadQuery -> ht_query h' = ht_query h)
  | None, None => True
  | _, _ => ~ can ReadHeaders /\ ~ can ReadQuery
  end.

Definition subject_alike (s s' : option SubjectExtension) : Prop :=
  match s, s' with
  | Some s, Some s' =>
      (has_any_subject_capability capabilities = true ->
         (sj_id s', sj_subject_type s', sj_key_binding s') = (sj_id s, sj_subject_type s, sj_key_binding s))
      /\ (can ReadRoles -> sj_roles s' = sj_roles s)
      /\ (can ReadPermissions -> sj_permissions s' = sj_permissions s)
      /\ (can ReadTeams -> sj_teams s' = sj_teams s)
      /\ (can ReadClaims -> sj_claims s' = sj_claims s)
  | None, None => True
  | _, _ => has_any_subject_capability capabilities = false
  end.

Definition security_alike (s s' : option SecurityExtension) : Prop :=
  match s, s' with
  | Some s, Some s' =>
      (sec_classification s', sec_auth_method s', sec_objects s', sec_data s')
        = (sec_classification s, sec_auth_method s, sec_objects s, sec_data s)
      /\ (can ReadLabels -> sec_labels s' = sec_labels s)
      /\ subject_alike (sec_subject s) (sec_subject s')
      /\ (can ReadClient -> sec_client s' = sec_client s)
      /\ (can ReadWorkload -> sec_caller_workload s' = sec_caller_workload s
                              /\ sec_this_workload s' = sec_this_workload s)
  | None, None => True
  | _, _ => False
  end.

Definition credentials_alike (r r' : option RawCredentialsExtension) : Prop :=
  match r, r' with
  | Some r, Some r' =>
      (can ReadInboundCredentials -> rc_inbound_tokens r' = rc_inbound_tokens r)
      /\ (can ReadDelegatedTokens -> rc_delegated_tokens r' = rc_delegated_tokens r)
  | None, None => True
  | _, _ => ~ can ReadInboundCredentials /\ ~ can ReadDelegatedTokens
  end.

(** Two requests a plugin with these capabilities must not tell apart: they agree on the
    open slots, and on a gated part only where its capability is held. *)
Record sees_same (x x' : Extensions Message) : Prop := {
  ss_open : (x_request x', x_provenance x', x_completion x', x_llm x', x_framework x', x_mcp x',
             x_meta x', x_custom x', x_candidate_constraint x')
          = (x_request x, x_provenance x, x_completion x, x_llm x, x_framework x, x_mcp x,
             x_meta x, x_custom x, x_candidate_constraint x);
  ss_agent : can ReadAgent -> x_agent x' = x_agent x;
  ss_llm_request : can ReadLlmRequest -> x_llm_request x' = x_llm_request x;
  ss_metadata : can ReadMetadata -> x_metadata x' = x_metadata x;
  ss_delegation : can ReadDelegation -> x_delegation x' = x_delegation x;
  ss_http : http_alike (x_http x) (x_http x');
  ss_security : security_alike (x_security x) (x_security x');
  ss_credentials : credentials_alike (x_raw_credentials x) (x_raw_credentials x');
  ss_transport : transport_is_available (x_http_transport x') = transport_is_available (x_http_transport x);
  ss_handle : can PerformHttp -> x_http_transport x' = x_http_transport x;
}.

(** With [read_headers], the view is the redacted form in both branches of the source. *)
Lemma filter_http_headers h :
  can ReadHeaders ->
  filter_http h capabilities
  = Some (mkHttp (redacted_request_headers h) (ht_client_address h) (ht_secret_headers h)
            (ht_response_headers h) (ht_status h) (ht_method h) (ht_path h)
            (if has_cap capabilities ReadQuery then ht_query h else None) (ht_host h) (ht_scheme h)).
Proof.
  intros Hc. unfold filter_http. open_gates. rewrite Hc. simpl.
  case_bool_decide as E; [|done]. simpl. unfold redacted_request_headers. rewrite E.
  rewrite bool_decide_eq_true_2 by done.
  destruct h as [? ? ? ? ? ? ? q ? ?]; simpl in *. subst.
  destruct (has_cap capabilities ReadQuery), q; done.
Qed.

Lemma is_marked_none markers name :
  markers !! to_ascii_lowercase name = None -> is_marked markers name = false.
Proof. intros E. unfold is_marked. rewrite E. by apply bool_decide_eq_false_2; intros [? [=]]. Qed.

Lemma redacted_alike h h' :
  headers_alike h h' -> redacted_request_headers h' = redacted_request_headers h.
Proof.
  intros [Hm Ho Hn _]. unfold redacted_request_headers. rewrite Hm.
  case_bool_decide as E.
  - apply map_eq. intros name. apply Ho, is_marked_none. rewrite E. apply lookup_empty.
  - apply map_eq. intros name. rewrite !map_lookup_imap.
    destruct (ht_secret_headers h !! to_ascii_lowercase name) as [m|] eqn:El.
    + specialize (Hn name).
      destruct (ht_request_headers h' !! name), (ht_request_headers h !! name); simpl; [done|..|done].
      * destruct Hn as [Hn _]. by destruct Hn.
      * destruct Hn as [_ Hn]. by destruct Hn.
    + by rewrite Ho by (by apply is_marked_none).
Qed.

Lemma filter_http_alike h h' :
  (can ReadHeaders -> headers_alike h h') -> (can ReadQuery -> ht_query h' = ht_query h) ->
  filter_http h' capabilities = filter_http h capabilities.
Proof.
  intros Hh Hq. destruct (has_cap capabilities ReadHeaders) eqn:Eh.
  - specialize (Hh eq_refl). rewrite !filter_http_headers by done.
    rewrite (redacted_alike _ _ Hh). destruct Hh as [-> _ _ Hrest]. simplify_eq/=.
    destruct (has_cap capabilities ReadQuery); [rewrite Hq by done|]; congruence.
  - unfold filter_http. open_gates. rewrite Eh. simpl.
    destruct (has_cap capabilities ReadQuery); [by rewrite Hq|done].
Qed.

Lemma any_subject c :
  c ∈ [ReadSubject; ReadRoles; ReadTeams; ReadClaims; ReadPermissions] -> can c ->
  has_any_subject_capability capabilities = true.
Proof. intros Hin Hc. apply existsb_exists. exists c. by rewrite <- list_elem_of_In. Qed.

Lemma filter_subject_alike s s' :
  has_any_subject_capability capabilities = true -> subject_alike (Some s) (Some s') ->
  build_filtered_subject s' capabilities = build_filtered_subject s capabilities.
Proof.
  intros Hany (Hid & Hr & Hp & Ht & Hc). specialize (Hid Hany). unfold build_filtered_subject. simplify_eq/=.
  f_equal; try congruence;
    match goal with |- context [has_cap capabilities ?c] => destruct (has_cap capabilities c); auto end.
Qed.

Lemma filter_security_alike s s' :
  security_alike (Some s) (Some s') ->
  build_filtered_security s' capabilities = build_filtered_security s capabilities.
Proof.
  intros (Hopen & Hl & Hs & Hc & Hw). unfold build_filtered_security. simplify_eq/=. open_gates.
  f_equal; try congruence.
  - destruct (has_cap capabilities ReadLabels); auto.
  - destruct (has_any_subject_capability capabilities) eqn:E.
    + unfold subject_alike in Hs. destruct (sec_subject s), (sec_subject s'); try congruence.
      f_equal. by apply filter_subject_alike.
    + by destruct (sec_subject s), (sec_subject s').
  - destruct (has_cap capabilities ReadClient); auto.
  - destruct (has_cap capabilities ReadWorkload); [|done]. by apply Hw.
  - destruct (has_cap capabilities ReadWorkload); [|done]. by apply Hw.
Qed.

Lemma filter_raw_alike r r' :
  credentials_alike (Some r) (Some r') -> filter_raw r' capabilities = filter_raw r capabilities.
Proof.
  intros [Hi Hd]. unfold filter_raw, build_filtered_raw_credentials. open_gates.
  destruct (has_cap capabilities ReadInboundCredentials), (has_cap capabilities ReadDelegatedTokens);
    simpl; [rewrite Hi, Hd by done|rewrite Hi by done|rewrite Hd by done|]; done.
Qed.

Lemma filter_raw_hidden r :
  ~ can ReadInboundCredentials /\ ~ can ReadDelegatedTokens -> filter_raw r capabilities = None.
Proof.
  intros [Hi Hd]. unfold filter_raw. open_gates.
  by rewrite (not_true_is_false _ Hi), (not_true_is_false _ Hd).
Qed.

Lemma filter_http_hidden h :
  ~ can ReadHeaders /\ ~ can ReadQuery -> filter_http h capabilities = None.
Proof.
  intros [Hh Hq]. unfold filter_http. open_gates.
  by rewrite (not_true_is_false _ Hh), (not_true_is_false _ Hq).
Qed.

(** Claim C6. A plugin's view depends only on what its capabilities name. Two requests that
    agree on the open slots, and on each gated slot or field where its capability is held,
    give the same view: without the capability a plugin learns nothing of the rest, not even
    that it is there, and the value of a header the engine marked secret reaches no plugin,
    whatever it holds. *)
Theorem filter_noninterference x x' :
  sees_same x x' -> filter_extensions x' capabilities = filter_extensions x capabilities.
Proof.
  intros [Hopen Ha Hl Hm Hd Hh Hs Hr Ht Hp]. unfold filter_extensions. simplify_eq/=. open_gates.
  f_equal; try congruence.
  - destruct (has_cap capabilities ReadAgent); auto.
  - unfold http_alike in Hh. destruct (x_http x), (x_http x'); try done;
      [by apply filter_http_alike; apply Hh|by rewrite filter_http_hidden|by rewrite filter_http_hidden].
  - destruct (x_security x), (x_security x'); simpl; try done. f_equal. by apply filter_security_alike.
  - destruct (has_cap capabilities ReadDelegation); auto.
  - destruct (x_raw_credentials x), (x_raw_credentials x'); simpl; try done;
      [by apply filter_raw_alike|by rewrite filter_raw_hidden|by rewrite filter_raw_hidden].
  - destruct (has_cap capabilities ReadLlmRequest); auto.
  - destruct (has_cap capabilities ReadMetadata); auto.
  - pose proof Ht as Ht'. unfold filter_transport. rewrite Ht'.
    destruct (transport_is_available (x_http_transport x)) eqn:Et; [|done].
    destruct (has_cap capabilities PerformHttp); auto.
Qed.
End Noninterference.

(** ** A concrete request *)

Definition w_http (authorization : string) : HttpExtension :=
  mkHttp {[ "Authorization" := authorization; "accept" := "json" ]} None
    {[ "authorization" := "<asserted>" ]} ∅ None (Some "GET") (Some "/v1") (Some "k=1") None None.

Definition w_security (label : string) : SecurityExtension :=
  mkSecurity {[ label ]} None (Some (mkSubject (Some "alice") None ∅ {[ "write" ]} ∅ ∅ None)) None None None
    None ∅ ∅.

Definition w_raw : RawCredentialsExtension :=
  mkRawCredentials {[ RoleUser := mkInbound "tok" (CredHeader "Authorization") KindJwt ]}
    {[ mkDelegationKey "alice" None None "d" "t" "aud" [] OnBehalfOfUser
       := mkDelegated "minted" "Authorization" "Bearer " "aud" [] 0%Z ]}.

(** A request with a header, a label and a secret. *)
Definition w_request (authorization label : string) : Extensions string :=
  mkExtensions None None (Some (w_http authorization)) (Some (w_security label)) None None (Some w_raw)
    None None None None None None None None None false false false TransportNotInstalled EffectDetached.

Lemma filter_noninterference_witness :
  let capabilities : Capabilities := {[ "read_headers"; "read_roles" ]} in
  w_request "Bearer one" "PII" <> w_request "Bearer two" "SECRET"
  /\ filter_extensions (w_request "Bearer two" "SECRET") capabilities
     = filter_extensions (w_request "Bearer one" "PII") capabilities.
Proof.
  split; [intros E; apply (f_equal x_security) in E; vm_compute in E; discriminate E|].
  apply filter_noninterference.
  assert (Hno : forall c, c ∈ [ReadQuery; ReadLabels; ReadClient; ReadWorkload; ReadClaims; ReadTeams;
      ReadPermissions; ReadInboundCredentials; ReadDelegatedTokens; ReadAgent; ReadLlmRequest;
      ReadMetadata; ReadDelegation; PerformHttp]
    -> has_cap {[ "read_headers"; "read_roles" ]} c = true -> False).
  { intros c Hc. repeat (apply elem_of_cons in Hc as [->|Hc]; [vm_compute; discriminate|]).
    by apply not_elem_of_nil in Hc. }
  split; try done; try (intros Hc; exfalso; eapply Hno; [|exact Hc]; set_solver).
  - split; [|intros Hc; exfalso; eapply Hno; [|exact Hc]; set_solver]. intros _. split; try done.
    + intros name Hn. destruct (decide (name = "Authorization")) as [->|]; [vm_compute in Hn; discriminate Hn|].
      simpl. by rewrite !lookup_insert_ne by done.
    + intros name. simpl. rewrite <- !elem_of_dom. set_solver.
Defined.
