(* ===== verification/TierProps.v ===== *)
(** * The tiers of the extension slots

    Whatever a plugin hands back, the merge keeps immutable data as it was, lets labels and
    the delegation chain only grow, and lets a guarded slot change only for a plugin that
    holds its capability. *)

From Stdlib Require Import Ascii String SpecFloat.
From S2P Require Import Prelude RustStr F64 Json Constraint Routing ExtData Plugin Extensions Executor ExtProps.

(** ** Comparison of hops is transitive *)

Lemma list_eqb_trans {A} (eqb : A -> A -> bool) (l k m : list A) :
  Forall (fun x => forall y z, eqb x y = true -> eqb y z = true -> eqb x z = true) l ->
  list_eqb eqb l k = true -> list_eqb eqb k m = true -> list_eqb eqb l m = true.
Proof.
  intros Hf. revert k m. induction Hf as [|x l Hx _ IH]; intros [|y k] [|z m]; simpl; try done.
  intros H1 H2. split_bools. rewrite (Hx y z) by done. by rewrite (IH k m).
Qed.

Lemma f64_eqb_spec a b :
  f64_eqb a b = true -> a = b \/ exists s t, a = S754_zero s /\ b = S754_zero t.
Proof.
  unfold f64_eqb, SFeqb, SFcompare.
  destruct a as [s|s| |s m e], b as [t|t| |t n f]; try (destruct s, t); try destruct s; try destruct t;
    try done; eauto.
  all: destruct (Z.compare_spec e f); try done; subst.
  all: try (destruct (Pos.compare_cont Eq m n) eqn:E; try done; simpl;
            apply Pos.compare_eq in E as ->; auto).
Qed.

Lemma f64_eqb_trans a b c : f64_eqb a b = true -> f64_eqb b c = true -> f64_eqb a c = true.
Proof.
  intros H1 H2. destruct (f64_eqb_spec _ _ H1) as [->|(s & t & -> & ->)]; [done|].
  by destruct (f64_eqb_spec _ _ H2) as [<-|(s' & t' & ? & ->)].
Qed.

Lemma json_eqb_trans a b c : json_eqb a b = true -> json_eqb b c = true -> json_eqb a c = true.
Proof.
  revert b c. induction a as [|x|x|x|l IH|l IH]; intros [] []; simpl; try done.
  - intros ->%Bool.eqb_prop ->%Bool.eqb_prop. apply Bool.eqb_reflx.
  - destruct x, n, n0; simpl; try done; [rewrite !Z.eqb_eq; congruence|apply f64_eqb_trans].
  - rewrite !String.eqb_eq. congruence.
  - by apply list_eqb_trans.
  - apply list_eqb_trans. eapply Forall_impl; [exact IH|]. intros [k v] Hkv [k1 v1] [k2 v2]; simpl in *.
    intros H1 H2. split_bools.
    rewrite String.eqb_eq in *. subst. rewrite String.eqb_refl. simpl. by eapply Hkv.
Qed.

(** Turn decided equalities into equations, both ways. *)
Ltac decided :=
  repeat match goal with
  | H : bool_decide _ = true |- _ => apply bool_decide_eq_true in H
  | H : Z.eqb _ _ = true |- _ => apply Z.eqb_eq in H
  end.

Lemma detail_eqb_trans a b c : detail_eqb a b = true -> detail_eqb b c = true -> detail_eqb a c = true.
Proof.
  unfold detail_eqb. intros H1 H2. split_bools. decided.
  repeat (apply andb_true_intro; split); try (apply bool_decide_eq_true_2; congruence).
  eapply list_eqb_trans; [|eassumption|eassumption]. apply Forall_true. intros x y z Hxy Hyz.
  split_bools. rewrite String.eqb_eq in *. apply andb_true_intro. split.
  - apply String.eqb_eq. congruence.
  - by eapply json_eqb_trans.
Qed.

Lemma same_hop_trans a b c : same_hop a b = true -> same_hop b c = true -> same_hop a c = true.
Proof.
  unfold same_hop. intros H1 H2. split_bools. decided.
  repeat (apply andb_true_intro; split); try (apply bool_decide_eq_true_2; congruence).
  - eapply list_eqb_trans; [|eassumption|eassumption]. apply Forall_true, detail_eqb_trans.
  - apply Z.eqb_eq. congruence.
Qed.

(** ** Growth of the delegation chain *)

(** Every hop stays at its place with its authority. *)
Definition hop_kept (before after : DelegationHop) : Prop := before = after \/ same_hop before after = true.

Definition chain_kept (c c' : list DelegationHop) : Prop :=
  forall i hop, c !! i = Some hop -> exists hop', c' !! i = Some hop' /\ hop_kept hop hop'.

Lemma hop_kept_trans a b c : hop_kept a b -> hop_kept b c -> hop_kept a c.
Proof.
  intros [->|H1] [->|H2]; unfold hop_kept; auto. right. by eapply same_hop_trans.
Qed.

#[global] Instance chain_kept_preorder : PreOrder chain_kept.
Proof.
  split.
  - intros c i hop E. exists hop. split; [done|by left].
  - intros a b c H1 H2 i hop (hop1 & E1 & K1)%H1. destruct (H2 _ _ E1) as (hop2 & E2 & K2).
    exists hop2. split; [done|]. by eapply hop_kept_trans.
Qed.

Lemma chain_extends_kept c c' : chain_extends c c' = true -> chain_kept c c'.
Proof.
  unfold chain_extends. destruct (_ <? _)%nat eqn:El; [done|]. apply Nat.ltb_ge in El.
  intros Hall i hop E. assert (Hi : i < length c) by by eapply lookup_lt_Some.
  destruct (lookup_lt_is_Some_2 c' i) as [hop' E']; [lia|]. exists hop'. split; [done|]. right.
  rewrite forallb_forall in Hall.
  apply (Hall (hop, hop')), list_elem_of_In, list_elem_of_lookup. exists i.
  apply lookup_zip_with_Some. by exists hop, hop'.
Qed.

(** ** Tiers *)

Section Tiers.
Context {Message : Type}.
Implicit Types x : Extensions Message.

(** The slots the merge never takes from a plugin: the immutable ones, apart from the two
    kinds of raw credentials, and the transport set per dispatch. The policy of the slots
    tiers raw credentials immutable too, but the merge replaces them by what a plugin hands
    back ([ti_raw], [inbound_reader_drops_delegated_tokens]). *)
Definition frozen x :=
  (x_request x, x_agent x, x_mcp x, x_completion x, x_provenance x, x_llm x, x_llm_request x,
   x_framework x, x_meta x, x_metadata x, x_http_transport x).

(** What a slot says, an absent one saying what its default does. *)
Definition security_of x : SecurityExtension := default SecurityExtension_default (x_security x).
Definition http_of x : HttpExtension := default HttpExtension_default (x_http x).
Definition delegation_of x : DelegationExtension := default DelegationExtension_default (x_delegation x).

(** The parts of the security slot no capability lets a plugin write. *)
Definition identity_of (s : SecurityExtension) :=
  (sec_classification s, sec_subject s, sec_client s, sec_caller_workload s, sec_this_workload s,
   sec_auth_method s, sec_objects s, sec_data s).

(** The request line and what else the host asserts of the HTTP slot. *)
Definition request_line (h : HttpExtension) :=
  (ht_client_address h, ht_secret_headers h, ht_status h, ht_method h, ht_path h, ht_query h,
   ht_host h, ht_scheme h).

(** The markers and the values of the headers the engine asserted are kept. *)
Definition line_kept (h h' : HttpExtension) : Prop :=
  request_line h' = request_line h
  /\ forall name, is_marked (ht_secret_headers h) name = true ->
       ht_request_headers h' !! name = ht_request_headers h !! name.

Definition delegation_kept (d d' : DelegationExtension) : Prop :=
  chain_kept (del_chain d) (del_chain d')
  /\ forall origin, del_origin_subject_id d = Some origin -> del_origin_subject_id d' = Some origin.

#[global] Instance line_kept_preorder : PreOrder line_kept.
Proof.
  split; [by intros h|]. intros h h1 h2 [Hr1 Hm1] [Hr2 Hm2]. split; [congruence|].
  intros name Hn. rewrite Hm2, Hm1; [done..|]. unfold request_line in Hr1. by simplify_eq/=; congruence.
Qed.

#[global] Instance delegation_kept_preorder : PreOrder delegation_kept.
Proof.
  split; [by intros d; split|]. intros d d1 d2 [Hc1 Ho1] [Hc2 Ho2]. split; [by etrans|auto].
Qed.

(** [x'] may follow [x] when exactly the capabilities of [grant] are held. A slot a plugin
    creates adds labels, headers or hops to the default slot: it asserts no identity and no
    request line. *)
Record tiers (grant : string -> Prop) x x' : Prop := {
  ti_frozen : frozen x' = frozen x;
  ti_present : (is_Some (x_security x) -> is_Some (x_security x'))
    /\ (is_Some (x_http x) -> is_Some (x_http x'))
    /\ (is_Some (x_delegation x) -> is_Some (x_delegation x'));
  ti_labels : sec_labels (security_of x) ⊆ sec_labels (security_of x');
  ti_identity : identity_of (security_of x') = identity_of (security_of x);
  ti_security : ~ grant (cap_str AppendLabels) -> x_security x' = x_security x;
  ti_line : line_kept (http_of x) (http_of x');
  ti_http : ~ grant (cap_str WriteHeaders) -> x_http x' = x_http x;
  ti_chain : delegation_kept (delegation_of x) (delegation_of x');
  ti_delegation : ~ grant (cap_str AppendDelegation) -> x_delegation x' = x_delegation x;
  ti_constraint : ~ grant CAP_WRITE_CANDIDATE_CONSTRAINT ->
    x_candidate_constraint x' = x_candidate_constraint x;
  ti_raw : is_Some (x_raw_credentials x) -> is_Some (x_raw_credentials x');
}.

#[global] Instance tiers_preorder grant : PreOrder (tiers grant).
Proof.
  split.
  - intros x. by split.
  - intros x y z [F1 P1 L1 I1 S1 R1 H1 C1 D1 K1 W1] [F2 P2 L2 I2 S2 R2 H2 C2 D2 K2 W2].
    split; [congruence|naive_solver|by etrans|congruence|intros; rewrite S2, S1; done|by etrans
      |intros; rewrite H2, H1; done|by etrans|intros; rewrite D2, D1; done|intros; rewrite K2, K1; done|auto].
Qed.

Lemma tiers_mono (grant grant' : string -> Prop) x x' :
  (forall c, grant c -> grant' c) -> tiers grant x x' -> tiers grant' x x'.
Proof. intros Hg [F P L I S R Hh C D K W]. split; auto. Qed.

(** ** Each merge keeps its tier *)

Lemma fold_add_label labels base l : l ∈ fold_left add_label labels base <-> l ∈ base \/ l ∈ labels.
Proof.
  revert base. induction labels as [|a labels IH]; intros base; simpl; [set_solver|].
  rewrite IH. unfold add_label. set_solver.
Qed.

Lemma merge_security_labels canonical owned token :
  let merged := merge_security canonical owned token in
  let slot s := default SecurityExtension_default s in
  (is_Some canonical -> is_Some merged) /\ sec_labels (slot canonical) ⊆ sec_labels (slot merged)
  /\ identity_of (slot merged) = identity_of (slot canonical).
Proof.
  simpl. unfold merge_security. destruct owned as [owned|]; [|done].
  destruct token; simpl; [|done]. split_and!; [done| |by destruct canonical].
  intros l Hl. apply fold_add_label. by left.
Qed.

Lemma merge_http_line canonical owned token :
  let merged := merge_http canonical owned token in
  let slot h := default HttpExtension_default h in
  (is_Some canonical -> is_Some merged) /\ line_kept (slot canonical) (slot merged).
Proof.
  simpl. unfold merge_http. destruct owned as [owned|]; [|done].
  destruct token; simpl; [|done]. split; [done|]. set (h := default _ canonical). split; [done|].
  simpl. intros name Hn. case_bool_decide as E.
  { rewrite is_marked_none in Hn; [done|]. rewrite E. apply lookup_empty. }
  destruct (ht_request_headers h !! name) as [v|] eqn:Ev.
  - apply lookup_union_Some_l. by apply map_lookup_filter_Some.
  - apply lookup_union_None. split; apply map_lookup_filter_None; [by left|].
    right. intros v Hv. simpl. congruence.
Qed.

Lemma merge_delegation_chain canonical owned token :
  let merged := merge_delegation canonical owned token in
  let slot d := default DelegationExtension_default d in
  (is_Some canonical -> is_Some merged) /\ delegation_kept (slot canonical) (slot merged).
Proof.
  simpl. unfold merge_delegation. destruct owned as [owned|]; [|done].
  destruct token; simpl; [|done]. destruct canonical as [d|]; simpl; [|by split].
  destruct (chain_extends (del_chain d) (del_chain owned)) eqn:E; simpl; [|done].
  split; [done|]. split; [by apply chain_extends_kept|]. by intros origin ->.
Qed.

Lemma merge_no_token (x : Extensions Message) owned :
  (o_http_write_token owned = false -> x_http (merge_owned x owned) = x_http x)
  /\ (o_labels_write_token owned = false -> x_security (merge_owned x owned) = x_security x)
  /\ (o_delegation_write_token owned = false -> x_delegation (merge_owned x owned) = x_delegation x).
Proof.
  simpl. unfold merge_http, merge_security, merge_delegation.
  split_and!; intros ->; by case_match.
Qed.
End Tiers.

Lemma has_cap_false capabilities c : ~ cap_str c ∈ capabilities -> has_cap capabilities c = false.
Proof. apply bool_decide_eq_false_2. Qed.

Section Accept.
Context `{Payloads}.

(** What the executor accepts of any plugin keeps the tiers of its capabilities. *)
Lemma accept_tiers capabilities x owned x' :
  accept_extensions capabilities x owned = Some x' -> tiers (fun c => c ∈ capabilities) x x'.
Proof.
  unfold accept_extensions. destruct (validate_immutable x owned); simpl; [|done].
  destruct (negb _ || _); simpl; [|done].
  destruct (candidate_constraint_write_ok x owned capabilities) eqn:Ec; simpl; [|done].
  intros [= <-].
  destruct (merge_no_token x (with_tokens owned capabilities)) as (Hh & Hs & Hd). simpl in *.
  destruct (merge_security_labels (x_security x) (o_security owned) (has_cap capabilities AppendLabels))
    as (Ps & Hl & Hi).
  destruct (merge_http_line (x_http x) (o_http owned) (has_cap capabilities WriteHeaders)) as [Ph Hline].
  destruct (merge_delegation_chain (x_delegation x) (o_delegation owned) (has_cap capabilities AppendDelegation))
    as [Pd Hchain].
  split; [done|by split_and!|done|done| |done| |done| | |].
  - intros Hc. by apply Hs, has_cap_false.
  - intros Hc. by apply Hh, has_cap_false.
  - intros Hc. by apply Hd, has_cap_false.
  - intros Hc. simpl. unfold candidate_constraint_write_ok in Ec.
    rewrite bool_decide_eq_false_2 in Ec by done. by apply bool_decide_eq_true in Ec.
  - simpl. by destruct (o_raw_credentials owned).
Qed.

(** ** A plugin that hands its view back *)

Lemma ptr_eq_opt_refl {T} (o : option (arc T)) : ptr_eq_opt o o = true.
Proof. destruct o; [apply N.eqb_refl|done]. Qed.

Lemma ptr_eq_opt_gate {T} (b : bool) (o : option (arc T)) : ptr_eq_opt o (if b then o else None) = true.
Proof. destruct b; [apply ptr_eq_opt_refl|by destruct o]. Qed.

(** The checks pass for the view itself. *)
Lemma view_accepted cfg e x :
  let capabilities := pc_capabilities (he_config e) in
  let owned := cow_copy (serial_view cfg e x) in
  accept_extensions capabilities x owned = Some (merge_owned x (with_tokens owned capabilities)).
Proof.
  simpl. unfold accept_extensions.
  assert (validate_immutable x (cow_copy (serial_view cfg e x)) = true) as ->.
  { unfold validate_immutable. simpl. open_gates. by rewrite !ptr_eq_opt_refl, !ptr_eq_opt_gate. }
  unfold candidate_constraint_write_ok. simpl. rewrite (bool_decide_eq_true_2 (_ = _)) by done.
  rewrite orb_true_r. simpl.
  destruct (has_cap _ ReadLabels) eqn:El; simpl; [|done].
  destruct (x_security x) as [s|]; simpl; [|done].
  open_gates. rewrite El. by rewrite bool_decide_eq_true_2.
Qed.

(** The derived fields of a chain are what [append_hop] keeps them at. *)
Definition coherent (d : DelegationExtension) : Prop :=
  del_depth d = Z.min (Z.of_nat (length (del_chain d))) u32_max
  /\ del_delegated d = negb (is_nil (del_chain d)).

Lemma merge_security_view (x : Extensions Message) capabilities token :
  merge_security (x_security x)
    (option_map (fun s => build_filtered_security s capabilities) (x_security x)) token = x_security x.
Proof.
  destruct (x_security x) as [s|]; simpl; [|done]. destruct token; simpl; [|done].
  f_equal. destruct s as [labels]; simpl. f_equal. apply leibniz_equiv. intros l.
  rewrite fold_add_label, elem_of_elements. open_gates.
  destruct (has_cap capabilities ReadLabels); set_solver.
Qed.

Lemma merge_delegation_view d token (seen : bool) :
  (forall c, d = Some c -> coherent c) ->
  merge_delegation d (if seen then d else None) token = d.
Proof.
  intros Hd. destruct seen; [|done]. destruct d as [d|]; [|done]. destruct (Hd d eq_refl) as [Hn He].
  simpl. destruct token; simpl; [|done]. destruct (chain_extends _ _); simpl; [|done].
  destruct d as [chain depth origin actor delegated age]; simpl in *. subst. by destruct origin.
Qed.

Lemma filter_unmarked_redacted h :
  filter (fun kv => is_marked (ht_secret_headers h) kv.1 = false) (redacted_request_headers h)
  = filter (fun kv => is_marked (ht_secret_headers h) kv.1 = false) (ht_request_headers h).
Proof.
  unfold redacted_request_headers. case_bool_decide as E; [done|].
  apply map_eq. intros name. apply option_eq. intros v.
  rewrite !map_lookup_filter_Some, map_lookup_imap. simpl. split.
  - intros [Hv Hm]. destruct (ht_request_headers h !! name) as [w|] eqn:Ew; simpl in Hv; [|done].
    split; [|done]. unfold is_marked in Hm. apply bool_decide_eq_false in Hm.
    rewrite <- eq_None_not_Some in Hm. by rewrite Hm in Hv.
  - intros [Hv Hm]. rewrite Hv. simpl. split; [|done]. unfold is_marked in Hm.
    apply bool_decide_eq_false in Hm. rewrite <- eq_None_not_Some in Hm. by rewrite Hm.
Qed.

Lemma filter_split (m : gmap string string) markers :
  filter (fun kv => is_marked markers kv.1 = true) m ∪ filter (fun kv => is_marked markers kv.1 = false) m = m.
Proof.
  apply map_eq. intros name. apply option_eq. intros v. rewrite lookup_union_Some_raw.
  rewrite map_lookup_filter_None, !map_lookup_filter_Some. simpl.
  destruct (is_marked markers name) eqn:Em; naive_solver.
Qed.

Lemma merge_http_view h capabilities token :
  (token = true -> has_cap capabilities ReadQuery = true -> has_cap capabilities ReadHeaders = true) ->
  merge_http (Some h) (filter_http h capabilities) token = Some h.
Proof.
  intros Hc. destruct (has_cap capabilities ReadHeaders) eqn:Eh.
  - rewrite filter_http_headers by done. simpl. destruct token; simpl; [|done]. f_equal.
    destruct h as [headers ca markers resp st me pa q ho sc]; simpl. f_equal.
    case_bool_decide as E.
    + unfold redacted_request_headers. simpl. by rewrite bool_decide_eq_true_2.
    + pose proof (filter_unmarked_redacted (mkHttp headers ca markers resp st me pa q ho sc)) as Hf.
      simpl in Hf. rewrite Hf. apply filter_split.
  - unfold filter_http. open_gates. rewrite Eh. simpl. destruct (has_cap capabilities ReadQuery); [|done].
    destruct token; [|done]. by discriminate Hc.
Qed.

(** A serial plugin that hands its view back unchanged changes nothing, provided it
    reads both kinds of credentials or neither, and reads headers if it reads the query and
    writes headers. Slots and fields its capabilities hide are not blanked by the merge. *)
Theorem returned_view_neutral cfg e x :
  let capabilities := pc_capabilities (he_config e) in
  has_cap capabilities ReadInboundCredentials = has_cap capabilities ReadDelegatedTokens ->
  (has_cap capabilities WriteHeaders = true -> has_cap capabilities ReadQuery = true ->
   has_cap capabilities ReadHeaders = true) ->
  (forall d, x_delegation x = Some d -> coherent d) ->
  accept_extensions capabilities x (cow_copy (serial_view cfg e x)) = Some x.
Proof.
  simpl. intros Hraw Hhead Hd. rewrite view_accepted. f_equal. unfold merge_owned. simpl.
  rewrite merge_security_view. open_gates. rewrite merge_delegation_view by done.
  assert (merge_http (x_http x)
    match x_http x with Some http => filter_http http (pc_capabilities (he_config e)) | None => None end
    (has_cap (pc_capabilities (he_config e)) WriteHeaders) = x_http x) as ->.
  { destruct (x_http x) as [h|]; [|done]. by apply merge_http_view. }
  destruct x as [? ? ? ? ? ? raw]; simpl. f_equal. destruct raw as [[inb del]|]; simpl; [|done].
  unfold filter_raw. open_gates. rewrite Hraw. by destruct (has_cap _ ReadDelegatedTokens).
Qed.

(** The merge loses credentials: when a plugin that reads inbound credentials but
    not delegated tokens hands back its view, without touching it, the delegated tokens of
    the request are gone. *)
Theorem inbound_reader_drops_delegated_tokens cfg e x raw :
  let capabilities := pc_capabilities (he_config e) in
  x_raw_credentials x = Some raw ->
  has_cap capabilities ReadInboundCredentials = true ->
  has_cap capabilities ReadDelegatedTokens = false ->
  exists x', accept_extensions capabilities x (cow_copy (serial_view cfg e x)) = Some x'
    /\ x_raw_credentials x' = Some (mkRawCredentials (rc_inbound_tokens raw) ∅).
Proof.
  simpl. intros Hr Hi Hd. eexists. split; [apply view_accepted|]. simpl. rewrite Hr.
  unfold filter_raw. open_gates. by rewrite Hi, Hd.
Qed.

(** The merge loses headers: when a plugin that reads the query and writes headers,
    but does not read headers, hands back its view, without touching it, all request headers
    that are not engine-asserted secrets and all response headers are gone. *)
Theorem query_reader_drops_headers cfg e x h :
  let capabilities := pc_capabilities (he_config e) in
  x_http x = Some h ->
  has_cap capabilities ReadQuery = true -> has_cap capabilities WriteHeaders = true ->
  has_cap capabilities ReadHeaders = false ->
  exists x' h', accept_extensions capabilities x (cow_copy (serial_view cfg e x)) = Some x'
    /\ x_http x' = Some h' /\ ht_response_headers h' = ∅
    /\ forall name, is_marked (ht_secret_headers h) name = false -> ht_request_headers h' !! name = None.
Proof.
  simpl. intros Hh Hq Hw Hr. eexists _, _. split; [apply view_accepted|]. simpl. rewrite Hh.
  unfold filter_http. open_gates. rewrite Hr, Hq. simpl. rewrite Hw. simpl.
  split; [done|]. simpl. split; [done|]. intros name Hm. case_bool_decide as E; [apply lookup_empty|].
  apply lookup_union_None. split; apply map_lookup_filter_None.
  - right. intros v _. simpl. congruence.
  - left. apply lookup_empty.
Qed.
End Accept.

(** ** Concrete plugins *)

(** Payloads that are never an identity. *)
Definition string_payloads : Payloads := {| Payload := string; Message := string; as_identity := fun _ => None |}.

(** A plugin whose handler always returns [r]. *)
Definition w_entry (mode : PluginMode) (capabilities : Capabilities)
    (r : @ErasedResultFields string_payloads) : @HookEntry string_payloads :=
  @mkEntry string_payloads (mkRef 1%N (mkConfig "p" mode OeFail capabilities 0%Z))
    (fun _ _ ctx => @mkInvocation string_payloads (HOk (Some r)) ctx 0%Z None).

Definition w_pass : @ErasedResultFields string_payloads := @mkErased string_payloads true None None None.

Definition w_cfg : ExecutorConfig := mkExecutorConfig 30%Z true false.



