(* ===== verification/ExecutorProps.v ===== *)
(** * The executor keeps its promises

    Which pipelines are denied, what the plugins of each phase can and cannot influence,
    and what the decision log records, for every behaviour of the handlers and every
    schedule of the concurrent phase. *)

From Stdlib Require Import Ascii String.
From S2P Require Import Prelude RustStr F64 Json Constraint Host Branches Routing ExtData Plugin Extensions Executor.
From S2P Require Import ExtProps TierProps.

Section ExecutorProps.
Context `{Payloads}.
Variable cfg : ExecutorConfig.
Implicit Types (e : HookEntry) (st : ExecState) (es : list HookEntry).

(** ** What the read-only phases leave alone *)

(** What later plugins see and the caller gets back. *)
Definition core st : Payload * Extensions Message * PluginContextTable * bool * bool :=
  (ex_payload st, ex_extensions st, ex_table st, ex_modified st, ex_declined st).

Lemma push_error_core err st : core (push_error err st) = core st.
Proof. done. Qed.
Lemma disable_core e st : core (disable_plugin e st) = core st.
Proof. done. Qed.
Lemma record_core e a st : core (record_step e a st) = core st.
Proof. done. Qed.

Lemma ref_step_core e st : core (ref_step cfg e st) = core st.
Proof. unfold ref_step. repeat case_match; done. Qed.

Lemma run_ref_core es st : core (run_ref_phase cfg es st) = core st.
Proof.
  revert st. induction es as [|e es IH]; intros st; [done|].
  change (core (run_ref_phase cfg es (ref_step cfg e st)) = core st). by rewrite IH, ref_step_core.
Qed.

Lemma concurrent_step_core e o cur st : core (concurrent_step cfg e o cur st).2 = core st.
Proof. unfold concurrent_step, concurrent_failure. repeat case_match; done. Qed.

Lemma concurrent_loop_core pairs cur st : core (concurrent_loop cfg pairs cur st).2 = core st.
Proof.
  revert cur st. induction pairs as [|[e o] pairs IH]; intros cur st; simpl; [done|].
  pose proof (concurrent_step_core e o cur st) as Hc.
  destruct (concurrent_step cfg e o cur st) as [cur' st']. simpl in Hc. by rewrite IH.
Qed.

Lemma run_concurrent_core sched es st : core (run_concurrent_phase cfg sched es st).2 = core st.
Proof.
  unfold run_concurrent_phase. destruct (is_nil es); [done|].
  destruct (negb _); [done|]. apply concurrent_loop_core.
Qed.

(** ** Which outcomes block *)

(** The outcome of [e]'s call in a serial phase at [st]. *)
Definition serial_outcome e st : ContainedOutcome :=
  invoke_contained e (ex_payload st) (serial_view cfg e (ex_extensions st))
    (snapshot_context (ex_table st) (he_id e)) (timeout_dur cfg).

Definition fails_closed e : bool := bool_decide (pc_on_error (he_config e) = OeFail).

(** A deny and a lost task always block; an error, a timeout, a panic and an unreadable
    result block under [on_error: fail]. *)
Definition blocks e (o : ContainedOutcome) : bool :=
  match o with
  | COSuccess (Some r) _ => negb (ef_continue_processing r)
  | COSuccess None _ | COError _ _ | COTimeout _ | COPanic _ => fails_closed e
  | COLost => true
  end.

Definition halts (s : SerialStep) : bool := match s with SHalt _ _ => true | SGo _ _ _ => false end.

Lemma serial_failure_halts blocking e a code reason err ctx st :
  halts (serial_failure blocking e a code reason err ctx st) = blocking && fails_closed e.
Proof. unfold serial_failure, fails_closed. destruct (pc_on_error (he_config e)), blocking; done. Qed.

Lemma serial_step_halts blocking modifying e st :
  halts (serial_step cfg blocking modifying e st) = blocking && blocks e (serial_outcome e st).
Proof.
  unfold serial_step. fold (serial_outcome e st).
  destruct (serial_outcome e st) as [[r|] ctx|err ctx|ctx|s|]; simpl;
    try apply serial_failure_halts; [|by destruct blocking].
  unfold serial_success. destruct (ef_continue_processing r); simpl.
  - rewrite andb_false_r. destruct modifying; [|done].
    destruct (accept_payload _ _ _). destruct (accept_owned _ _ _ _). done.
  - by destruct blocking.
Qed.

(** A phase that cannot block runs to its end. *)
Lemma nonblocking_phase modifying es st : (run_serial_phase cfg false modifying es st).1 = None.
Proof.
  revert st. induction es as [|e es IH]; intros st; simpl; [done|].
  pose proof (serial_step_halts false modifying e st) as Hh.
  destruct (serial_step cfg false modifying e st); [done|]. apply IH.
Qed.

(** A blocking phase halts exactly at the first plugin whose outcome blocks. *)
Lemma blocking_phase es st :
  (exists v, (run_serial_phase cfg true true es st).1 = Some v)
  <-> exists before e after st', es = before ++ e :: after
        /\ run_serial_phase cfg true true before st = (None, st')
        /\ blocks e (serial_outcome e st') = true.
Proof.
  revert st. induction es as [|e es IH]; intros st; simpl.
  { split; [by intros [v [=]]|]. intros (b & e & a & st' & E & _). by destruct b. }
  pose proof (serial_step_halts true true e st) as Hh. simpl in Hh.
  destruct (serial_step cfg true true e st) as [v a|a ctx st1] eqn:Es; simpl in Hh.
  - split; [|by eexists]. intros _. exists [], e, es, st. by rewrite <- Hh.
  - rewrite IH. split.
    + intros (b & e' & a' & st' & -> & Hr & Hb). exists (e :: b), e', a', st'.
      split; [done|]. simpl. by rewrite Es.
    + intros (b & e' & a' & st' & E & Hr & Hb). destruct b as [|e0 b]; simplify_eq/=; [congruence|].
      rewrite Es in Hr. by exists b, e', a', st'.
Qed.

(** ** The concurrent phase *)

Definition branch_of e st : BranchOutcome BranchData :=
  task_outcome (concurrent_config cfg) (concurrent_branch e st).

(** A concurrent plugin blocks when it denies, and when it fails under [on_error: fail]. *)
Definition branch_blocks e (o : BranchOutcome BranchData) : bool :=
  match o with
  | Completed BdAllow | Aborted => false
  | Completed (BdDeny _) => true
  | Completed (BdError _) | TimedOut | Panicked _ => fails_closed e
  end.

(** A concurrent task the runtime drops counts as aborted, so it blocks nothing, whatever
    its plugin's [on_error]; a sequential plugin that loses its task blocks. *)
Lemma lost_branch_passes e st :
  is_Some (inv_lost (he_handler e (ex_payload st) (readonly_view e (ex_extensions st))
                       (snapshot_context (ex_table st) (he_id e)))) ->
  branch_blocks e (branch_of e st) = false.
Proof. intros [s Hs]. unfold branch_of, concurrent_branch, task_outcome. by rewrite Hs. Qed.

Definition is_Some_b {A} (o : option A) : bool := match o with Some _ => true | None => false end.

Lemma concurrent_step_blocks e o cur st :
  is_Some_b (concurrent_step cfg e o cur st).1 = is_Some_b cur || branch_blocks e o.
Proof.
  unfold concurrent_step, concurrent_failure, fails_closed, first_violation, branch_blocks, fails_closed.
  destruct o as [[|v|err]| | |s], cur, (pc_on_error (he_config e)); done.
Qed.

Lemma concurrent_loop_blocks pairs cur st :
  is_Some_b (concurrent_loop cfg pairs cur st).1
  = is_Some_b cur || existsb (fun p => branch_blocks p.1 p.2) pairs.
Proof.
  revert cur st. induction pairs as [|[e o] pairs IH]; intros cur st; simpl; [by rewrite orb_false_r|].
  pose proof (concurrent_step_blocks e o cur st) as Hc.
  destruct (concurrent_step cfg e o cur st) as [cur' st']. simpl in Hc.
  by rewrite IH, Hc, orb_assoc.
Qed.

Lemma branch_outcomes es st :
  map (task_outcome (concurrent_config cfg)) (map (fun e => concurrent_branch e st) es)
  = map (fun e => branch_of e st) es.
Proof. by rewrite map_map. Qed.

(** Some branch ends with a deny. *)
Definition some_deny es st : bool := existsb (fun e => denies is_branch_deny (branch_of e st)) es.

Lemma run_branches_quiet sched es st :
  some_deny es st = false ->
  run_branches (map (fun e => concurrent_branch e st) es) (concurrent_config cfg) is_branch_deny sched
  = map (fun e => branch_of e st) es.
Proof.
  intros Hd. rewrite <- branch_outcomes. apply run_branches_all. right.
  rewrite branch_outcomes. unfold some_deny in Hd. rewrite <- Hd. clear Hd.
  induction es as [|e es IH]; simpl; [done|]. by rewrite IH.
Qed.

Lemma zip_map_r {A B} (f : A -> B) (l : list A) : zip l (map f l) = map (fun a => (a, f a)) l.
Proof. induction l; simpl; by f_equal. Qed.

(** The phase blocks exactly when some plugin does, under every schedule. *)
Lemma concurrent_phase sched es st :
  is_Some_b (run_concurrent_phase cfg sched es st).1
  = existsb (fun e => branch_blocks e (branch_of e st)) es.
Proof.
  unfold run_concurrent_phase. destruct (is_nil es) eqn:En; [by destruct es|].
  remember (run_branches (map (fun e => concurrent_branch e st) es) (concurrent_config cfg)
              is_branch_deny sched) as outs eqn:Eo.
  assert (Hlen : length outs = length es) by (by rewrite Eo, run_branches_length, length_map).
  assert (Hden : existsb (denies is_branch_deny) outs = some_deny es st).
  { rewrite Eo, run_branches_denies, branch_outcomes. unfold some_deny.
    clear. induction es as [|e es IH]; simpl; [done|]. by rewrite IH. }
  rewrite (proj2 (Nat.eqb_eq _ _) Hlen). simpl. rewrite concurrent_loop_blocks. simpl.
  destruct (some_deny es st) eqn:Ed.
  - transitivity true; [|symmetry].
    + apply existsb_true_iff in Hden as (o & Ho & Hd). apply list_elem_of_lookup in Ho as [i Hi].
      destruct (lookup_lt_is_Some_2 es i) as [e He]; [rewrite <- Hlen; by eapply lookup_lt_Some|].
      apply existsb_true_iff. exists (e, o). split.
      * apply (list_elem_of_lookup_2 _ i), lookup_zip_with_Some. by exists e, o.
      * by destruct o as [[]| | |].
    + unfold some_deny in Ed. apply existsb_true_iff in Ed as (e & He & Hd).
      apply existsb_true_iff. exists e. split; [done|]. by destruct (branch_of e st) as [[]| | |].
  - rewrite Eo, run_branches_quiet, zip_map_r by done.
    clear. induction es as [|e es IH]; simpl; [done|]. by rewrite IH.
Qed.

(** ** The verdict *)

Definition start (disabled : DisabledSet) (payload : Payload) (x : Extensions Message)
    (table : option PluginContextTable) : ExecState :=
  mkExec payload x (default table_default table) [] log_new false (declined payload) disabled.

(** The state the concurrent plugins see, when the sequential phase ended in [st]. *)
Definition before_concurrent (disabled : DisabledSet) es st : ExecState :=
  run_ref_phase cfg (entries_of Audit disabled es)
    (run_serial_phase cfg false true (entries_of Transform disabled es) st).2.

Lemma unrecognized_core st st' : core st = core st' -> unrecognized st = unrecognized st'.
Proof. intros [= Hp _ _ _ Hd]. unfold unrecognized. by rewrite Hp, Hd. Qed.

(** [execute] when there are entries, phase by phase. *)
Lemma execute_phases sched disabled es payload x table :
  es <> [] ->
  execute cfg sched disabled es payload x table
  = match run_serial_phase cfg true true (entries_of Sequential disabled es)
            (start disabled payload x table) with
    | (Some v, st) => (Executor.denied v st, [])
    | (None, st) =>
        let st := before_concurrent disabled es st in
        match run_concurrent_phase cfg sched (entries_of Concurrent disabled es) st with
        | (Some v, st) => (Executor.denied v st, [])
        | (None, st) =>
            if unrecognized st then (Executor.denied unrecognized_violation st, [])
            else (allowed_with st, spawn_fire_and_forget cfg (entries_of FireAndForget disabled es) st)
        end
    end.
Proof.
  intros Hne. unfold execute, execute_audited, group_by_mode, before_concurrent, start.
  destruct es as [|e0 es0] eqn:Ees; [done|]. rewrite <- Ees in *. assert (is_nil es = false) as -> by by rewrite Ees.
  destruct (run_serial_phase cfg true true _ _) as [[v|] st]; [done|].
  destruct (run_serial_phase cfg false true _ _) as [o st1]. simpl.
  destruct (run_concurrent_phase _ _ _ _) as [[v|] st2]; [done|]. by destruct (unrecognized st2).
Qed.

(** Claim C4. The executor denies exactly when an enforcement point says so: some
    sequential plugin that is reached denies, loses its task, or errs, times out, panics or
    returns an unreadable result under [on_error: fail]; or, the sequential phase having
    passed, some concurrent plugin denies, or errs, times out, panics or returns an
    unreadable result under [on_error: fail], under every schedule of their tasks; or a
    credential was declined by a resolver and recognized by none. A concurrent plugin whose
    task the runtime drops does not deny ([lost_branch_passes]). *)
Theorem execute_deny_exact sched disabled es payload x table :
  let sequential := entries_of Sequential disabled es in
  let st0 := start disabled payload x table in
  pp_continue_processing (execute cfg sched disabled es payload x table).1 = false
  <-> (exists before e after st, sequential = before ++ e :: after
         /\ run_serial_phase cfg true true before st0 = (None, st)
         /\ blocks e (serial_outcome e st) = true)
   \/ (exists st1, run_serial_phase cfg true true sequential st0 = (None, st1)
         /\ let st := before_concurrent disabled es st1 in
            (exists e, e ∈ entries_of Concurrent disabled es
                       /\ branch_blocks e (branch_of e st) = true)
            \/ es <> [] /\ unrecognized st = true).
Proof.
  simpl. destruct (decide (es = [])) as [->|Hne].
  { split; [done|]. intros [(b & e & a & st & E & _)|(st1 & _ & [(e & He & _)|[? _]])]; [|by apply not_elem_of_nil in He|done].
    by destruct b. }
  rewrite execute_phases by done. rewrite <- blocking_phase.
  destruct (run_serial_phase cfg true true _ _) as [[v|] st] eqn:Es; simpl.
  { split; [|done]. intros _. left. by exists v. }
  pose proof (concurrent_phase sched (entries_of Concurrent disabled es) (before_concurrent disabled es st)) as Hc.
  pose proof (run_concurrent_core sched (entries_of Concurrent disabled es) (before_concurrent disabled es st)) as Hcore.
  destruct (run_concurrent_phase _ _ _ _) as [[v|] st2]; simpl in *.
  - split; [|done]. intros _. right. exists st. split; [done|]. left.
    symmetry in Hc. by apply existsb_true_iff in Hc.
  - pose proof (unrecognized_core _ _ Hcore) as Hu2. split.
    + destruct (unrecognized st2); [|done]. intros _. right. exists st. split; [done|]. right. by rewrite <- Hu2.
    + intros [[v [=]]|(st1 & [= <-] & [(e & He & Hb)|[_ Hu]])].
      * symmetry in Hc. apply existsb_false_iff in Hc. rewrite Forall_forall in Hc.
        by rewrite (Hc e He) in Hb.
      * by rewrite Hu2, Hu.
Qed.

(** ** The schedule *)

Lemma quiet_if_unblocked es st :
  existsb (fun e => branch_blocks e (branch_of e st)) es = false -> some_deny es st = false.
Proof.
  unfold some_deny. rewrite !existsb_false_iff, !Forall_forall. intros Hb e He. specialize (Hb e He).
  by destruct (branch_of e st) as [[]| | |].
Qed.

Lemma concurrent_unblocked sched sched' es st :
  existsb (fun e => branch_blocks e (branch_of e st)) es = false ->
  run_concurrent_phase cfg sched es st = run_concurrent_phase cfg sched' es st.
Proof.
  intros Hb%quiet_if_unblocked. unfold run_concurrent_phase. by rewrite !run_branches_quiet.
Qed.

(** The order in which concurrent plugins finish or are cancelled does not decide:
    the verdict is the same under every schedule, and an allowed pipeline returns the same
    result, payload, extensions, errors, log and background tasks included. *)
Theorem execute_schedule_independent sched sched' disabled es payload x table :
  let r := execute cfg sched disabled es payload x table in
  let r' := execute cfg sched' disabled es payload x table in
  pp_continue_processing r.1 = pp_continue_processing r'.1
  /\ (pp_continue_processing r.1 = true -> r = r').
Proof.
  simpl. destruct (decide (es = [])) as [->|Hne]; [done|]. rewrite !execute_phases by done.
  destruct (run_serial_phase cfg true true _ _) as [[v|] st]; simpl; [done|].
  set (st' := before_concurrent disabled es st).
  destruct (existsb (fun e => branch_blocks e (branch_of e st')) (entries_of Concurrent disabled es)) eqn:Eb.
  - pose proof (concurrent_phase sched (entries_of Concurrent disabled es) st') as H1.
    pose proof (concurrent_phase sched' (entries_of Concurrent disabled es) st') as H2.
    rewrite Eb in H1, H2.
    destruct (run_concurrent_phase _ sched _ _) as [[]], (run_concurrent_phase _ sched' _ _) as [[]]; done.
  - by rewrite (concurrent_unblocked sched sched').
Qed.

(** ** Observers *)

Definition is_observer (m : PluginMode) : bool := match m with Audit | FireAndForget => true | _ => false end.

(** The same plugins, whose handlers may differ where they only observe. *)
Definition same_deciders e e' : Prop :=
  he_ref e = he_ref e'
  /\ (he_handler e = he_handler e' \/ is_observer (pc_mode (he_config e)) = true).

Lemma entry_eq e e' : he_ref e = he_ref e' -> he_handler e = he_handler e' -> e = e'.
Proof. destruct e, e'; simpl. congruence. Qed.

Lemma entries_of_agree m disabled es es' :
  is_observer m = false -> m <> Disabled ->
  Forall2 same_deciders es es' -> entries_of m disabled es = entries_of m disabled es'.
Proof.
  intros Hm Hd. induction 1 as [|e e' es es' [Hr Hh] _ IH]; [done|]. unfold entries_of in *. simpl.
  rewrite <- Hr. case_bool_decide as E; [|done]. f_equal; [|done]. apply entry_eq; [done|].
  destruct Hh as [|Ho]; [done|]. unfold mode in E. case_bool_decide; [congruence|].
  unfold he_config in Ho. congruence.
Qed.

Lemma concurrent_loop_verdict pairs cur st st' :
  (concurrent_loop cfg pairs cur st).1 = (concurrent_loop cfg pairs cur st').1.
Proof.
  revert cur st st'. induction pairs as [|[e o] pairs IH]; intros cur st st'; simpl; [done|].
  assert ((concurrent_step cfg e o cur st).1 = (concurrent_step cfg e o cur st').1) as Hc.
  { unfold concurrent_step, concurrent_failure. by destruct o as [[]| | |], (pc_on_error (he_config e)). }
  destruct (concurrent_step cfg e o cur st), (concurrent_step cfg e o cur st'). simpl in Hc. subst. apply IH.
Qed.

Lemma branches_core es st st' :
  core st = core st' ->
  map (fun e => concurrent_branch e st) es = map (fun e => concurrent_branch e st') es.
Proof. intros [= Hp Hx Ht _ _]. apply map_ext. intros e. unfold concurrent_branch. by rewrite Hp, Hx, Ht. Qed.

Lemma run_concurrent_verdict sched es st st' :
  core st = core st' -> (run_concurrent_phase cfg sched es st).1 = (run_concurrent_phase cfg sched es st').1.
Proof.
  intros Hc. unfold run_concurrent_phase. destruct (is_nil es); [done|].
  rewrite (branches_core es st st' Hc). destruct (negb _); [done|]. apply concurrent_loop_verdict.
Qed.

(** What a caller acts on. *)
Definition ruling (r : PipelineResult) :=
  (pp_continue_processing r, pp_modified_payload r, pp_payload_modified r, pp_modified_extensions r,
   pp_violation r, pp_context_table r).

Lemma allowed_ruling st st' : core st = core st' -> ruling (allowed_with st) = ruling (allowed_with st').
Proof. intros [= Hp Hx Ht Hm _]. unfold ruling. simpl. by rewrite Hp, Hx, Ht, Hm. Qed.

Lemma denied_ruling v st st' :
  core st = core st' -> ruling (Executor.denied v st) = ruling (Executor.denied v st').
Proof. intros [= Hp Hx Ht Hm _]. unfold ruling. simpl. by rewrite Hx, Ht. Qed.

(** Observers cannot decide: replacing the handlers of audit and fire-and-forget
    plugins, by ones that deny, panic, hang or return anything else, changes neither the
    verdict and its violation nor the payload, the extensions and the plugin contexts. *)
Theorem observers_cannot_decide sched disabled es es' payload x table :
  Forall2 same_deciders es es' ->
  ruling (execute cfg sched disabled es payload x table).1
  = ruling (execute cfg sched disabled es' payload x table).1.
Proof.
  intros Hs. destruct (decide (es = [])) as [->|Hne]; [by inversion Hs|].
  assert (es' <> []) as Hne' by (intros ->; inversion Hs; congruence).
  rewrite !execute_phases by done. unfold before_concurrent.
  rewrite (entries_of_agree Sequential _ _ _ eq_refl ltac:(done) Hs).
  rewrite (entries_of_agree Transform _ _ _ eq_refl ltac:(done) Hs).
  rewrite (entries_of_agree Concurrent _ _ _ eq_refl ltac:(done) Hs).
  destruct (run_serial_phase cfg true true _ _) as [[v|] st]; simpl; [done|].
  set (st1 := (run_serial_phase cfg false true _ _).2).
  assert (Hcore : core (run_ref_phase cfg (entries_of Audit disabled es) st1)
                  = core (run_ref_phase cfg (entries_of Audit disabled es') st1)) by (by rewrite !run_ref_core).
  set (sa := run_ref_phase cfg (entries_of Audit disabled es) st1) in *.
  set (sb := run_ref_phase cfg (entries_of Audit disabled es') st1) in *.
  set (cs := entries_of Concurrent disabled es').
  pose proof (run_concurrent_verdict sched cs _ _ Hcore) as Hv.
  pose proof (run_concurrent_core sched cs sa) as Ha. pose proof (run_concurrent_core sched cs sb) as Hb.
  destruct (run_concurrent_phase cfg sched cs sa) as [va ta], (run_concurrent_phase cfg sched cs sb) as [vb tb].
  simpl in *. subst vb. assert (Hab : core ta = core tb) by congruence.
  destruct va as [v|]; simpl; [by apply denied_ruling|].
  rewrite (unrecognized_core _ _ Hab). destruct (unrecognized tb); [by apply denied_ruling|by apply allowed_ruling].
Qed.

(** ** The extensions a pipeline leaves *)

(** Some plugin of [es] declares the capability. *)
Definition granted es (c : string) : Prop := exists e, e ∈ es /\ c ∈ pc_capabilities (he_config e).

Lemma serial_failure_extensions blocking e a code reason err ctx st a' ctx' st' :
  serial_failure blocking e a code reason err ctx st = SGo a' ctx' st' ->
  ex_extensions st' = ex_extensions st.
Proof. unfold serial_failure. intros. repeat case_match; by simplify_eq. Qed.

Lemma serial_step_tiers blocking modifying e st a ctx st' :
  serial_step cfg blocking modifying e st = SGo a ctx st' ->
  tiers (fun c => c ∈ pc_capabilities (he_config e)) (ex_extensions st) (ex_extensions st').
Proof.
  unfold serial_step. destruct (invoke_contained _ _ _ _ _) as [[r|] c|err c|c|s|]; intros Hs;
    try (apply serial_failure_extensions in Hs; by rewrite Hs).
  - unfold serial_success in Hs. destruct (ef_continue_processing r); simpl in Hs; [|destruct blocking; by simplify_eq/=].
    destruct modifying; [|by simplify_eq/=].
    destruct (accept_payload (ef_modified_payload r) ActAllowed st) as [a1 st1] eqn:E1.
    assert (ex_extensions st1 = ex_extensions st) as <-.
    { unfold accept_payload in E1. destruct (ef_modified_payload r); by simplify_eq/=. }
    unfold accept_owned in Hs. destruct (ef_modified_extensions r) as [owned|]; [|by simplify_eq].
    destruct (accept_extensions _ _ owned) as [x|] eqn:Ex; simplify_eq/=; [by eapply accept_tiers|done].
  - destruct blocking; [done|]. simplify_eq/=. by destruct (pc_on_error (he_config e)).
Qed.

Lemma run_serial_tiers blocking modifying es st :
  tiers (granted es) (ex_extensions st) (ex_extensions (run_serial_phase cfg blocking modifying es st).2).
Proof.
  revert st. induction es as [|e es IH]; intros st; simpl; [done|].
  destruct (serial_step cfg blocking modifying e st) as [v a|a ctx st1] eqn:Es; simpl; [done|].
  transitivity (ex_extensions st1).
  - eapply tiers_mono; [|by eapply serial_step_tiers]. intros c Hc. exists e. split; [set_solver|done].
  - eapply tiers_mono; [|eapply transitivity; [|apply IH]].
    + intros c (e' & He' & Hc). exists e'. split; [set_solver|done].
    + by destruct ctx.
Qed.

Lemma core_extensions st st' : core st = core st' -> ex_extensions st = ex_extensions st'.
Proof. by intros [=]. Qed.

Lemma granted_mono (es es' : list HookEntry) c : (forall e, e ∈ es -> e ∈ es') -> granted es c -> granted es' c.
Proof. intros Hs (e & He & Hc). exists e. auto. Qed.

Lemma entries_of_in m disabled es e :
  e ∈ entries_of m disabled es <-> e ∈ es /\ mode disabled (he_ref e) = m.
Proof.
  unfold entries_of. rewrite !list_elem_of_In, filter_In, bool_decide_eq_true. done.
Qed.

(** The plugins that may modify: sequential and transform, not disabled. *)
Definition modifiers (disabled : DisabledSet) es : list HookEntry :=
  entries_of Sequential disabled es ++ entries_of Transform disabled es.

Lemma pipeline_tiers sched disabled es payload x table :
  exists x', pp_modified_extensions (execute cfg sched disabled es payload x table).1 = Some x'
    /\ tiers (granted (modifiers disabled es)) x x'.
Proof.
  destruct (decide (es = [])) as [->|Hne]; [by eexists|]. rewrite execute_phases by done.
  set (st0 := start disabled payload x table).
  pose proof (run_serial_tiers true true (entries_of Sequential disabled es) st0) as H1.
  destruct (run_serial_phase cfg true true _ _) as [[v|] st1]; simpl in *.
  { eexists. split; [done|]. eapply tiers_mono; [|done]. intros c. apply granted_mono. set_solver. }
  assert (Hm : tiers (granted (modifiers disabled es)) x (ex_extensions (before_concurrent disabled es st1))).
  { transitivity (ex_extensions st1).
    - eapply tiers_mono; [|done]. intros c. apply granted_mono. set_solver.
    - unfold before_concurrent. rewrite (core_extensions _ _ (run_ref_core _ _)).
      eapply tiers_mono; [|apply run_serial_tiers]. intros c. apply granted_mono. set_solver. }
  pose proof (run_concurrent_core sched (entries_of Concurrent disabled es) (before_concurrent disabled es st1)) as Hc.
  apply core_extensions in Hc.
  destruct (run_concurrent_phase _ _ _ _) as [[v|] st2]; simpl in *; rewrite <- Hc in Hm; [by eexists|].
  destruct (unrecognized st2); by eexists.
Qed.

(** With nothing that may modify, the pipeline leaves what it was given. *)
Lemma pipeline_readonly sched disabled es payload x table :
  modifiers disabled es = [] ->
  pp_payload_modified (execute cfg sched disabled es payload x table).1 = false
  /\ pp_modified_extensions (execute cfg sched disabled es payload x table).1 = Some x
  /\ (pp_continue_processing (execute cfg sched disabled es payload x table).1 = true ->
      pp_modified_payload (execute cfg sched disabled es payload x table).1 = Some payload).
Proof.
  intros Hm. destruct (decide (es = [])) as [->|Hne]; [done|]. rewrite execute_phases by done.
  apply app_eq_nil in Hm as [-> Ht]. cbn [run_serial_phase].
  set (st0 := start disabled payload x table).
  assert (Hc : core (before_concurrent disabled es st0) = core st0).
  { unfold before_concurrent. rewrite run_ref_core, Ht. done. }
  pose proof (run_concurrent_core sched (entries_of Concurrent disabled es) (before_concurrent disabled es st0)) as Hc2.
  rewrite Hc in Hc2. unfold core in Hc2. simpl in Hc2.
  destruct (run_concurrent_phase _ _ _ _) as [[v|] st2]; simpl in *.
  { split_and!; [done|congruence|done]. }
  destruct (unrecognized st2); simpl; split_and!; congruence || done.
Qed.

(** Claim C5. Whatever the plugins return, and whether the pipeline allows or denies, the
    extensions it leaves keep their tiers. The request, agent, MCP, completion, provenance,
    LLM, LLM request, framework, meta and metadata slots and the transport are those of the
    request; so are the authenticated identity, the request line and the engine-asserted
    headers, also when a plugin creates the security or the HTTP slot. Labels and the
    delegation chain only grow; labels, headers, chain and routing constraint change at all
    only if some sequential or transform plugin declares the capability for it. Raw
    credentials are the exception among the slots tiered immutable: they stay present when
    they were, but any such plugin may replace them. *)
Theorem execute_tiers sched disabled es payload x table :
  exists x', pp_modified_extensions (execute cfg sched disabled es payload x table).1 = Some x'
    /\ tiers (granted (modifiers disabled es)) x x'.
Proof. apply pipeline_tiers. Qed.

(** ** The decision log *)

Definition log_tags st : list (string * PluginMode) :=
  map (fun step => (ds_plugin_name step, ds_phase step)) (dl_steps (ex_log st)).

Definition tag e : string * PluginMode := (he_name e, pc_mode (he_config e)).

Lemma record_tags e a st : log_tags (record_step e a st) = log_tags st ++ [tag e].
Proof. unfold log_tags. simpl. by rewrite map_app. Qed.

Lemma serial_step_log blocking modifying e st a ctx st' :
  serial_step cfg blocking modifying e st = SGo a ctx st' -> log_tags st' = log_tags st.
Proof.
  unfold serial_step. destruct (invoke_contained _ _ _ _ _) as [[r|] c|err c|c|s|]; intros Hs;
    try (unfold serial_failure in Hs; repeat case_match; by simplify_eq).
  unfold serial_success in Hs. destruct (ef_continue_processing r); simpl in Hs; [|destruct blocking; by simplify_eq/=].
  destruct modifying; [|by simplify_eq/=]. unfold accept_payload, accept_owned in Hs.
  repeat case_match; by simplify_eq/=.
Qed.

Lemma run_serial_log blocking modifying es st :
  let '(v, st') := run_serial_phase cfg blocking modifying es st in
  exists ran, ran `prefix_of` es /\ log_tags st' = log_tags st ++ map tag ran
    /\ (v = None -> ran = es).
Proof.
  revert st. induction es as [|e es IH]; intros st; simpl; [exists []; by rewrite app_nil_r|].
  destruct (serial_step cfg blocking modifying e st) as [v a|a ctx st1] eqn:Es.
  - exists [e]. split; [by apply prefix_cons, prefix_nil|]. by rewrite record_tags.
  - specialize (IH (store_step e ctx (record_step e a st1))).
    destruct (run_serial_phase _ _ _ _ _) as [v st']. destruct IH as (ran & Hp & Hl & Hv).
    exists (e :: ran). split; [by apply prefix_cons|]. split; [|intros ->; by rewrite Hv].
    assert (log_tags (store_step e ctx (record_step e a st1)) = log_tags st ++ [tag e]) as Hs.
    { rewrite <- (serial_step_log _ _ _ _ _ _ _ Es), <- record_tags with (a := a). by destruct ctx. }
    rewrite Hl, Hs, <- app_assoc. done.
Qed.

Lemma run_ref_log es st : log_tags (run_ref_phase cfg es st) = log_tags st ++ map tag es.
Proof.
  revert st. induction es as [|e es IH]; intros st; [by rewrite app_nil_r|].
  change (log_tags (run_ref_phase cfg es (ref_step cfg e st)) = log_tags st ++ map tag (e :: es)).
  rewrite IH. assert (log_tags (ref_step cfg e st) = log_tags st ++ [tag e]) as ->.
  { unfold ref_step. rewrite <- record_tags with (a := audit_action e (invoke_contained e (ex_payload st)
      (readonly_view e (ex_extensions st)) (snapshot_context (ex_table st) (he_id e)) (timeout_dur cfg))).
    destruct (audit_error _ _ _); [|done]. by destruct (pc_on_error (he_config e)). }
  by rewrite <- app_assoc.
Qed.

Lemma concurrent_step_log e o cur st : log_tags (concurrent_step cfg e o cur st).2 = log_tags st ++ [tag e].
Proof.
  unfold concurrent_step. rewrite <- record_tags with (a := concurrent_action e o).
  destruct o as [[]| | |]; try done; unfold concurrent_failure; by destruct (pc_on_error (he_config e)).
Qed.

Lemma concurrent_loop_log pairs cur st :
  log_tags (concurrent_loop cfg pairs cur st).2 = log_tags st ++ map (fun p => tag p.1) pairs.
Proof.
  revert cur st. induction pairs as [|[e o] pairs IH]; intros cur st; simpl; [by rewrite app_nil_r|].
  pose proof (concurrent_step_log e o cur st) as Hs.
  destruct (concurrent_step cfg e o cur st) as [cur' st']. simpl in Hs. rewrite IH, Hs, <- app_assoc. done.
Qed.

Lemma run_concurrent_log sched es st :
  log_tags (run_concurrent_phase cfg sched es st).2 = log_tags st ++ map tag es.
Proof.
  unfold run_concurrent_phase. destruct (is_nil es) eqn:En; [destruct es; [by rewrite app_nil_r|done]|].
  remember (run_branches (map (fun e => concurrent_branch e st) es) (concurrent_config cfg)
              is_branch_deny sched) as outs eqn:Eo.
  assert (Hlen : length outs = length es) by (by rewrite Eo, run_branches_length, length_map).
  rewrite (proj2 (Nat.eqb_eq _ _) Hlen). simpl. rewrite concurrent_loop_log. f_equal.
  clear -Hlen. revert outs Hlen. induction es as [|e es IH]; intros [|o outs] [=]; simpl; [done|].
  by rewrite IH.
Qed.

(** The plugins in the order they are dispatched and awaited. *)
Definition awaited (disabled : DisabledSet) es : list HookEntry :=
  entries_of Sequential disabled es ++ entries_of Transform disabled es
  ++ entries_of Audit disabled es ++ entries_of Concurrent disabled es.

Lemma before_concurrent_log disabled es st :
  log_tags (before_concurrent disabled es st)
  = log_tags st ++ map tag (entries_of Transform disabled es) ++ map tag (entries_of Audit disabled es).
Proof.
  unfold before_concurrent. rewrite run_ref_log.
  pose proof (nonblocking_phase true (entries_of Transform disabled es) st) as Hn.
  pose proof (run_serial_log false true (entries_of Transform disabled es) st) as Hs.
  destruct (run_serial_phase cfg false true _ _) as [v st']. simpl in *.
  destruct Hs as (ran & _ & Hl & Hv). rewrite Hl, Hv by done. by rewrite <- app_assoc.
Qed.

(** The result's parts tell one story. *)
Definition consistent (r : PipelineResult) : Prop :=
  match pp_violation r with
  | None => pp_continue_processing r = true /\ is_Some (pp_modified_payload r)
            /\ dl_verdict (pp_decision_log r) = Some VAllow
  | Some v => pp_continue_processing r = false /\ pp_modified_payload r = None
              /\ dl_verdict (pp_decision_log r) = Some (VDeny v)
  end.

Definition result_tags (r : PipelineResult) : list (string * PluginMode) :=
  map (fun step => (ds_plugin_name step, ds_phase step)) (dl_steps (pp_decision_log r)).

(** The decision log is complete: it has one step per plugin dispatched, with its
    phase, in the order of the phases; all awaited plugins of an allowed pipeline, a prefix
    of them when it was denied. Its verdict, the violation and the flag agree, and a denied
    pipeline hands out no payload. *)
Theorem execute_log_complete sched disabled es payload x table :
  let r := (execute cfg sched disabled es payload x table).1 in
  consistent r
  /\ result_tags r `prefix_of` map tag (awaited disabled es)
  /\ (pp_continue_processing r = true -> result_tags r = map tag (awaited disabled es)).
Proof.
  simpl. destruct (decide (es = [])) as [->|Hne]; [by split_and!|]. rewrite execute_phases by done.
  set (st0 := start disabled payload x table). unfold awaited.
  pose proof (run_serial_log true true (entries_of Sequential disabled es) st0) as H1.
  destruct (run_serial_phase cfg true true _ _) as [[v|] st1]; simpl in H1;
    destruct H1 as (ran & [rest Hr] & Hl & Hv).
  { split; [done|]. split; [|done]. change (log_tags st1 `prefix_of` map tag (awaited disabled es)).
    unfold awaited. rewrite Hl, Hr, !map_app, <- app_assoc. simpl. by eexists. }
  rewrite Hv in Hl by done.
  pose proof (before_concurrent_log disabled es st1) as Hb. rewrite Hl in Hb.
  pose proof (run_concurrent_log sched (entries_of Concurrent disabled es) (before_concurrent disabled es st1)) as Hc.
  rewrite Hb in Hc. simpl in Hc.
  assert (Hall : map tag (awaited disabled es) = (map tag (entries_of Sequential disabled es)
    ++ map tag (entries_of Transform disabled es) ++ map tag (entries_of Audit disabled es))
    ++ map tag (entries_of Concurrent disabled es)).
  { unfold awaited. by rewrite !map_app, <- !app_assoc. }
  unfold awaited in Hall. rewrite Hall. simpl.
  destruct (run_concurrent_phase _ _ _ _) as [[v|] st2]; simpl in Hc |- *.
  { rewrite <- Hc. by split_and!. }
  destruct (unrecognized st2); rewrite <- Hc; by split_and!.
Qed.
End ExecutorProps.

(** ** Concrete pipelines *)

Definition w_deny : @ErasedResultFields string_payloads := @mkErased string_payloads false None None None.

Definition w_run (es : list (@HookEntry string_payloads)) : @PipelineResult string_payloads :=
  (@execute string_payloads w_cfg (fun _ => (0, false)) ∅ es "body" (w_request "Bearer one" "PII") None).1.

(** An audit plugin that objects is recorded and does not decide; a sequential one decides. *)
Example pipeline_example :
  pp_continue_processing (w_run [w_entry Audit ∅ w_deny]) = true
  /\ result_tags (w_run [w_entry Audit ∅ w_deny]) = [("p", Audit)]
  /\ option_map vi_code (pp_violation (w_run [w_entry Sequential ∅ w_deny])) = Some "plugin_deny"
  /\ option_map vi_code (pp_violation (w_run [w_entry Concurrent ∅ w_deny])) = Some "concurrent_deny".
Proof. vm_compute. repeat split. Qed.

