(* ===== verification/Scan.v ===== *)
(** * Splitting policy text ([ppe-apl-core/src/parser.rs], the byte scanners)

    The rule and stage grammars are textual: they cut a line at separators that stand
    outside quotes and brackets. All the cutters walk the bytes the same way and step over
    a quoted literal with the shared reader; [scan_from] is that walk and each cutter gives
    its loop body. *)

From Stdlib Require Import Ascii String.
From S2P Require Import Prelude RustStr F64 Lexical.

(** ** More of Rust's [str] *)

(** [str::trim_end]. *)
Definition trim_end (s : string) : string := of_chars (rev (drop_while is_whitespace (rev (chars s)))).

Fixpoint string_rev_app (s acc : string) : string :=
  match s with EmptyString => acc | String a s' => string_rev_app s' (String a acc) end.

Definition string_rev (s : string) : string := string_rev_app s "".

(** [str::strip_suffix] of an ASCII character. *)
Definition strip_suffix (c : ascii) (s : string) : option string :=
  match string_rev s with
  | String a r => if Ascii.eqb a c then Some (string_rev r) else None
  | EmptyString => None
  end.

(** [s.strip_prefix(open).and_then(|s| s.strip_suffix(close))]. *)
Definition strip_brackets (open close : ascii) (s : string) : option string :=
  match strip_prefix (str1 open) s with Some r => strip_suffix close r | None => None end.

(** [str::find] of an ASCII character: its byte index. *)
Fixpoint find_char (c : ascii) (s : string) : option nat :=
  match s with
  | EmptyString => None
  | String a s' => if Ascii.eqb a c then Some 0 else option_map S (find_char c s')
  end.

(** [str::rfind] of an ASCII character. *)
Fixpoint rfind_char (c : ascii) (s : string) : option nat :=
  match s with
  | EmptyString => None
  | String a s' =>
      match rfind_char c s' with
      | Some i => Some (S i)
      | None => if Ascii.eqb a c then Some 0 else None
      end
  end.

(** [s.get(a..b)] at ASCII boundaries. *)
Definition slice (a b : nat) (s : string) : string := take_bytes (b - a) (drop_bytes a s).

(** [i32::saturating_sub(1)]: at the least [i32], not at zero. *)
Definition i32_saturating_dec (d : Z) : Z := Z.max (- 2 ^ 31) (d - 1).

(** ** The walk *)

(** What stands at the cursor: a quote, with what the literal reader makes of it, or
    another byte. *)
Inductive ScanItem : Type :=
| Quoted (r : result nat LiteralError)
| Plain (b : ascii).

(** How a turn of the loop ends: at the index [next], or out of the loop. *)
Inductive Turn (A R : Type) : Type :=
| Go (next : nat) (a : A)
| Break (r : R).
Arguments Go {A R} next a.
Arguments Break {A R} r.

Section Walk.
Context {A R : Type}.
Variable s : string.
Variable body : nat -> A -> ScanItem -> Turn A R.
Variable finish : A -> R.

Definition item_at (i : nat) (b : ascii) : ScanItem :=
  if is_quote b then Quoted (skip_literal s i) else Plain b.

(** [while let Some(&b) = bytes.get(i) { ... }], with [rest] the bytes from [i] on. A turn
    that jumps ahead leaves [skip] bytes to pass over. *)
Fixpoint scan_from (rest : string) (i skip : nat) (a : A) : R :=
  match rest with
  | EmptyString => finish a
  | String b rest' =>
      match skip with
      | S k => scan_from rest' (S i) k a
      | O =>
          match body i a (item_at i b) with
          | Go next a' => scan_from rest' (S i) (next - S i) a'
          | Break r => r
          end
      end
  end.
End Walk.

(** ** The cutters *)

(** Between [(] and [)], between brackets, and the last colon outside both. *)
Record ColonState : Type := mkColon { cs_parens : Z; cs_brackets : Z; cs_last : option nat }.

Definition colon_body (i : nat) (st : ColonState) (it : ScanItem) : Turn ColonState (option nat) :=
  let '(mkColon parens brackets last) := st in
  match it with
  | Quoted (Ok e) => Go e st
  | Quoted (Err _) => Break last
  | Plain b =>
      Go (S i)
        (if Ascii.eqb b "(" then mkColon (parens + 1) brackets last
         else if Ascii.eqb b ")" then mkColon (i32_saturating_dec parens) brackets last
         else if Ascii.eqb b "[" then mkColon parens (brackets + 1) last
         else if Ascii.eqb b "]" then mkColon parens (i32_saturating_dec brackets) last
         else if Ascii.eqb b ":" && (parens =? 0)%Z && (brackets =? 0)%Z
         then mkColon parens brackets (Some i) else st)
  end.

Definition split_predicate_action (s : string) : option (string * string) :=
  match scan_from s colon_body cs_last s 0 0 (mkColon 0 0 None) with
  | Some i => Some (trim (take_bytes i s), trim (drop_bytes (S i) s))
  | None => None
  end.

(** The parts so far, the part being read, and the bracket depth. *)
Record CommaState : Type := mkComma { cm_parts : list string; cm_current : string; cm_depth : nat }.

Definition is_open3 (b : ascii) : bool := Ascii.eqb b "[" || Ascii.eqb b "(" || Ascii.eqb b "{".
Definition is_close3 (b : ascii) : bool := Ascii.eqb b "]" || Ascii.eqb b ")" || Ascii.eqb b "}".

Definition comma_body (s : string) (i : nat) (st : CommaState) (it : ScanItem) :
    Turn CommaState (result (list string) string) :=
  let '(mkComma parts current depth) := st in
  match it with
  | Quoted (Ok e) => Go e (mkComma parts (current +:+ slice i e s) depth)
  | Quoted (Err e) => Break (Err (le_msg e))
  | Plain b =>
      if is_open3 b then Go (S i) (mkComma parts (current +:+ str1 b) (S depth))
      else if is_close3 b then
        match depth with
        | O => Break (Err ("unmatched `" +:+ str1 b +:+ "` in delegate(...) args"))
        | S d => Go (S i) (mkComma parts (current +:+ str1 b) d)
        end
      else if Ascii.eqb b "," && (depth =? 0)%nat
      then Go (S i) (mkComma (parts ++ [current]) "" depth)
      else Go (S i) (mkComma parts (current +:+ str1 b) depth)
  end.

(** The source copies a whole character per turn; byte by byte is the same, since the other
    bytes of a character are above 127. *)
Definition split_top_level_commas (input : string) : result (list string) string :=
  scan_from input (comma_body input)
    (fun st => if (cm_depth st =? 0)%nat then Ok (cm_parts st ++ [cm_current st])
               else Err "unbalanced brackets in delegate(...) args")
    input 0 0 (mkComma [] "" 0).

Definition is_open2 (b : ascii) : bool := Ascii.eqb b "(" || Ascii.eqb b "[".
Definition is_close2 (b : ascii) : bool := Ascii.eqb b ")" || Ascii.eqb b "]".

(** The byte after index [i]. *)
Definition byte_at (s : string) (i : nat) : option ascii :=
  match drop_bytes i s with String b _ => Some b | EmptyString => None end.

Definition pipe_body (s : string) (i : nat) (depth : Z) (it : ScanItem) : Turn Z (option nat) :=
  match it with
  | Quoted (Ok e) => Go e depth
  | Quoted (Err _) => Break None
  | Plain b =>
      if is_open2 b then Go (S i) (depth + 1)%Z
      else if is_close2 b then Go (S i) (i32_saturating_dec depth)
      else if Ascii.eqb b "|" && (depth =? 0)%Z then
        if bool_decide (byte_at s (S i) = Some "|"%char) then Go (S (S i)) depth else Break (Some i)
      else Go (S i) depth
  end.

Definition find_top_level_pipe (s : string) : option nat :=
  scan_from s (pipe_body s) (fun _ => None) s 0 0 0%Z.

(** The index of the parenthesis that closes the first one. *)
Definition close_body (i : nat) (depth : Z) (it : ScanItem) : Turn Z (option nat) :=
  match it with
  | Quoted (Ok e) => Go e depth
  | Quoted (Err _) => Go (S i) depth
  | Plain b =>
      if Ascii.eqb b "(" then Go (S i) (depth + 1)%Z
      else if Ascii.eqb b ")" then
        if (depth - 1 =? 0)%Z then Break (Some i) else Go (S i) (depth - 1)%Z
      else Go (S i) depth
  end.

Definition matching_close (s : string) (from : nat) : option nat :=
  scan_from s close_body (fun _ => None) (drop_bytes from s) from 0 0%Z.

Definition is_blank (s : string) : bool := String.eqb (trim s) "".

Definition extract_call_args (line name : string) : option string :=
  let line := trim line in
  match strip_prefix name line with
  | None => None
  | Some after =>
      if negb (starts_with "(" after) then None
      else match matching_close after 0 with
           | Some i => if is_blank (drop_bytes (S i) after) then Some (slice 1 i after) else None
           | None => None
           end
  end.

(** The segments so far, the start of the current one, and the depth. *)
Record SplitState : Type := mkSplit { ss_out : list string; ss_start : nat; ss_depth : Z }.

Definition split_body (s : string) (delim : ascii) (i : nat) (st : SplitState) (it : ScanItem) :
    Turn SplitState SplitState :=
  let '(mkSplit out start depth) := st in
  match it with
  | Quoted (Ok e) => Go e st
  | Quoted (Err _) => Break st
  | Plain b =>
      Go (S i)
        (if is_open2 b then mkSplit out start (depth + 1)
         else if is_close2 b then mkSplit out start (i32_saturating_dec depth)
         else if Ascii.eqb b delim && (depth =? 0)%Z
         then mkSplit (out ++ [slice start i s]) (S i) depth else st)
  end.

Definition split_top_level (s : string) (delim : ascii) : list string :=
  let st := scan_from s (split_body s delim) id s 0 0 (mkSplit [] 0 0) in
  ss_out st ++ [drop_bytes (ss_start st) s].

Definition split_head_args (s : string) : option (string * option string) :=
  match find_char "(" s with
  | Some open =>
      match matching_close s open with
      | None => None
      | Some close =>
          let head := trim (take_bytes open s) in
          if String.eqb head "" then None
          else then_some (is_blank (drop_bytes (S close) s)) (head, Some (slice (S open) close s))
      end
  | None =>
      let head := trim s in
      if String.eqb head "" then None else Some (head, None)
  end.

Example split_examples :
  split_predicate_action "a == 'x:y' : deny" = Some ("a == 'x:y'", "deny")
  /\ split_top_level "enum(a|b) | redact( c | d ) | 'x|y'" "|" = ["enum(a|b) "; " redact( c | d ) "; " 'x|y'"]
  /\ split_top_level_commas "p, k: [a, b], j: 'x, y'" = Ok ["p"; " k: [a, b]"; " j: 'x, y'"]
  /\ extract_call_args "deny('a)b') " "deny" = Some "'a)b'"
  /\ split_head_args "regex('(')" = Some ("regex", Some "'('")
  /\ find_top_level_pipe "a || b | c" = Some 7.
Proof. vm_compute. repeat split. Qed.
