(* ===== verification/Stages.v ===== *)
(** * Pipe chains ([ppe-apl-core/src/parser.rs], [parse_pipeline] and [parse_stage])

    From the text of a field's chain to a [Pipeline]. *)

From Stdlib Require Import Ascii String.
From S2P Require Import Prelude RustStr F64 Json Platform Rules Lexical Predicate Scan.

Definition PLUGIN_IS_RUN : string :=
  "`plugin(name)` is not a step; `run(name)` is the one form that invokes a plugin, in a step list and in a pipe chain alike".

(** ** Numbers *)

(** The text of the [ParseIntError] of [str::parse::<usize>] on text it refuses: the loop
    over the digits stops at the first that is not one, or at the first overflow. *)
Fixpoint usize_loop_error (acc : Z) (s : string) : string :=
  match s with
  | EmptyString => ""
  | String a s' =>
      if negb (is_ascii_digit a) then "invalid digit found in string"
      else
        let acc' := (acc * 10 + (Z.of_N (N_of_ascii a) - 48))%Z in
        if (usize_max <? acc')%Z then "number too large to fit in target type"
        else usize_loop_error acc' s'
  end.

Definition usize_error (s : string) : string :=
  match s with
  | EmptyString => "cannot parse integer from empty string"
  | String a EmptyString =>
      if is_ascii_digit a then "" else "invalid digit found in string"
  | _ => usize_loop_error 0 (match strip_prefix "+" s with Some r => r | None => s end)
  end.

(** [i64::checked_mul]. *)
Definition checked_mul (a b : Z) : option Z := then_some (in_i64 (a * b)) (a * b)%Z.

(** [s.strip_suffix([lo, hi])]. *)
Definition strip_either (lo hi : ascii) (s : string) : option string :=
  match strip_suffix lo s with Some r => Some r | None => strip_suffix hi s end.

Definition parse_numeric_with_suffix (s : string) : option Z :=
  let s := trim s in
  if String.eqb s "" then None
  else
    let '(num_part, mult) :=
      match strip_either "k" "K" s with
      | Some rest => (rest, 1000%Z)
      | None => match strip_either "m" "M" s with
                | Some rest => (rest, 1000000%Z)
                | None => (s, 1%Z)
                end
      end in
    match parse_i64 num_part with Some n => checked_mul n mult | None => None end.

(** [s.find("..")]: the text before and after. *)
Fixpoint split_dotdot (s : string) : option (string * string) :=
  match s with
  | EmptyString => None
  | String a s' =>
      match strip_prefix ".." s with
      | Some r => Some ("", r)
      | None => match split_dotdot s' with
                | Some (l, r) => Some (String a l, r)
                | None => None
                end
      end
  end.

(** A bound that may be left out; [None] when it is there and is not a number. *)
Definition parse_bound (s : string) : option (option Z) :=
  if String.eqb s "" then Some None else option_map Some (parse_numeric_with_suffix s).

Definition parse_range_inner (s : string) : option (option Z * option Z) :=
  match split_dotdot s with
  | None => None
  | Some (lhs, rhs) =>
      match parse_bound (trim lhs) with
      | None => None
      | Some min =>
          match parse_bound (trim rhs) with
          | None => None
          | Some max =>
              match min, max with None, None => None | _, _ => Some (min, max) end
          end
      end
  end.

Definition try_parse_range (s : string) : option Stage :=
  match split_dotdot s with
  | None => None
  | Some _ =>
      match s with
      | EmptyString => None
      | String first _ =>
          if is_ascii_alphabetic first || Ascii.eqb first "_" then None
          else match parse_range_inner s with
               | Some (min, max) => Some (StRange min max)
               | None => None
               end
      end
  end.

(** ** Literals and bare words *)

Definition literal_or_bare (s : string) : result (option string) LiteralError := read_whole_literal s.

Definition literal_value (s : string) : result string string :=
  match literal_or_bare s with
  | Ok (Some v) => Ok v
  | Ok None => Ok (trim s)
  | Err e => Err (le_msg e)
  end.

(** [iter.map(f).collect::<Result<Vec<_>, _>>()]. *)
Fixpoint collect {A B E} (f : A -> result B E) (l : list A) : result (list B) E :=
  match l with
  | [] => Ok []
  | x :: l' =>
      let? y := f x in
      let? ys := collect f l' in
      Ok (y :: ys)
  end.

(** ** Stages *)

Definition parse_taint_scope (s src : string) : result TaintScope ParseError :=
  if String.eqb s "session" then Ok ScopeSession
  else if String.eqb s "message" then Ok ScopeMessage
  else Err (PePredicate src ("unknown taint scope `" +:+ s +:+ "` (expected `session` or `message`)")).

Definition parse_taint (args src : string) : result Stage ParseError :=
  match split_top_level args "," with
  | [] => Err (PePredicate src "taint() requires at least a label")
  | first :: more =>
      let label := trim first in
      if String.eqb label "" then Err (PePredicate src "taint label must not be empty")
      else
        let? scopes :=
          match more with
          | [] => Ok [ScopeSession]
          | _ =>
              let scope_arg := trim (String.concat "," more) in
              match strip_brackets "[" "]" scope_arg with
              | Some inner =>
                  collect (fun s => parse_taint_scope (trim s) src) (split_top_level inner ",")
              | None => let? scope := parse_taint_scope scope_arg src in Ok [scope]
              end
          end in
        Ok (StTaint label scopes)
  end.

Section Stage.
Context `{Platform}.

(** [bad(msg)]: the stage's text and what is wrong with it. *)
Variable src : string.
Definition bad (msg : string) : ParseError := PePredicate src msg.

Definition parse_stage_mask (a : string) : result Stage ParseError :=
  match parse_usize (trim a) with
  | Some n => Ok (StMask n)
  | None => Err (bad ("mask(N) expects a non-negative integer, got `" +:+ a +:+ "`: " +:+ usize_error (trim a)))
  end.

Definition parse_stage_redact_cond (a : string) : result Stage ParseError :=
  match parse_predicate a with
  | Ok cond => Ok (StRedact (Some cond))
  | Err e => Err (PePredicate src ("invalid redact() condition: " +:+ parse_error_display e))
  end.

(** [usize::try_from] of an [i64], on a 64-bit target. *)
Definition to_usize (v : Z) : result Z ParseError :=
  if (v <? 0)%Z
  then Err (bad ("len bound `" +:+ show_Z v
         +:+ "` is not a valid length: out of range integral type conversion attempted"))
  else Ok v.

(** [o.map(f).transpose()]. *)
Definition transpose {A B E} (f : A -> result B E) (o : option A) : result (option B) E :=
  match o with Some a => let? b := f a in Ok (Some b) | None => Ok None end.

Definition parse_stage_len (a : string) : result Stage ParseError :=
  match parse_range_inner a with
  | None => Err (bad ("len(...) expects N..M range, got `" +:+ a +:+ "`"))
  | Some (min, max) =>
      let? min := transpose to_usize min in
      let? max := transpose to_usize max in
      Ok (StLength min max)
  end.

Definition parse_stage_enum (a : string) : result Stage ParseError :=
  let? values := collect (fun v => result_map_err bad (literal_value (trim v))) (split_top_level a ",") in
  let values := List.filter (fun s => negb (String.eqb s "")) values in
  match values with
  | [] => Err (bad "enum() requires at least one value")
  | _ => Ok (StEnum values)
  end.

Definition parse_stage_regex (a : string) : result Stage ParseError :=
  let? pattern := result_map_err bad (literal_value (trim a)) in
  Ok (StRegex pattern).

Definition parse_stage_validate_rejected (a : string) : ParseError :=
  bad ("`validate(" +:+ trim a +:+ ")` — named-validator dispatch is not implemented in this build. Use `regex("
    +:+ str1 dquote +:+ "pattern" +:+ str1 dquote +:+ ")` for a named-regex equivalent, or `run("
    +:+ trim a +:+ ")` for richer validation logic.").

Definition parse_stage_plugin (head a : string) : result Stage ParseError :=
  let name := trim a in
  if String.eqb name "" then Err (bad ("`" +:+ head +:+ "(...)`: plugin name must not be empty"))
  else Ok (StPlugin name).

(** The stages that take no arguments. *)
Definition bare_stage (head : string) : option Stage :=
  if String.eqb head "str" then Some (StType TStr)
  else if String.eqb head "int" then Some (StType TInt)
  else if String.eqb head "bool" then Some (StType TBool)
  else if String.eqb head "float" then Some (StType TFloat)
  else if String.eqb head "email" then Some (StType TEmail)
  else if String.eqb head "url" then Some (StType TUrl)
  else if String.eqb head "uuid" then Some (StType TUuid)
  else if String.eqb head "redact" then Some (StRedact None)
  else if String.eqb head "omit" then Some StOmit
  else if String.eqb head "hash" then Some StHash
  else if String.eqb head "pii.redact" then Some (StScan PiiRedact)
  else if String.eqb head "pii.detect" then Some (StScan PiiDetect)
  else if String.eqb head "injection.scan" then Some (StScan InjectionScan)
  else None.

(** The stages that take arguments. *)
Definition call_stage (head a : string) : result Stage ParseError :=
  if String.eqb head "mask" then parse_stage_mask a
  else if String.eqb head "redact" then parse_stage_redact_cond a
  else if String.eqb head "hash" then Err (bad "hash takes no arguments")
  else if String.eqb head "omit" then
    Err (bad "omit takes no arguments — for conditional omit, use a policy rule predicate")
  else if String.eqb head "len" then parse_stage_len a
  else if String.eqb head "enum" then parse_stage_enum a
  else if String.eqb head "regex" then parse_stage_regex a
  else if String.eqb head "validate" then Err (parse_stage_validate_rejected a)
  else if String.eqb head "plugin" then Err (bad PLUGIN_IS_RUN)
  else if String.eqb head "run" then parse_stage_plugin head a
  else if String.eqb head "taint" then parse_taint a src
  else Err (bad ("unknown stage `" +:+ head +:+ "`")).

Definition parse_stage : result Stage ParseError :=
  let s := trim src in
  match try_parse_range s with
  | Some stage => Ok stage
  | None =>
      match split_head_args s with
      | None => Err (bad "expected stage identifier")
      | Some (head, None) =>
          match bare_stage head with
          | Some stage => Ok stage
          | None => Err (bad ("unknown stage `" +:+ head +:+ "`"))
          end
      | Some (head, Some a) => call_stage head a
      end
  end.
End Stage.

Section Pipelines.
Context `{Platform}.

Definition EMPTY_STAGE : string :=
  "empty stage in a pipe chain; a leading, trailing or doubled `|` leaves a position with no stage in it".

(** [for seg in segments { ...; pipeline.push(parse_stage(seg)?) }]. *)
Fixpoint pipeline_segments (src : string) (segments : list string) (p : Pipeline) :
    result Pipeline ParseError :=
  match segments with
  | [] => Ok p
  | seg :: rest =>
      let seg := trim seg in
      if String.eqb seg "" then Err (PePredicate src EMPTY_STAGE)
      else
        let? stage := parse_stage seg in
        pipeline_segments src rest (Pipeline_push p stage)
  end.

Definition parse_pipeline (src : string) : result Pipeline ParseError :=
  let trimmed := trim src in
  if String.eqb trimmed "" then Ok Pipeline_new
  else pipeline_segments src (split_top_level trimmed "|") Pipeline_new.
End Pipelines.

Example parse_pipeline_examples :
  let p := @parse_pipeline ascii_platform in
  p "str | len(1..64) | redact(!perm.view | role.x) | mask(4)" =
    Ok (mkPipeline [StType TStr; StLength (Some 1%Z) (Some 64%Z);
      StRedact (Some (EOr [ENot (ECondition (IsTrue "perm.view")); ECondition (IsTrue "role.x")])); StMask 4%Z])
  /\ p "0..1M | taint(PII, [session, message]) | enum('a,b', c)" =
    Ok (mkPipeline [StRange (Some 0%Z) (Some 1000000%Z); StTaint "PII" [ScopeSession; ScopeMessage];
      StEnum ["a,b"; "c"]])
  /\ p "" = Ok (mkPipeline [])
  /\ p "str |" = Err (PePredicate "str |" EMPTY_STAGE)
  /\ p "mask(x)" = Err (PePredicate "mask(x)"
       "mask(N) expects a non-negative integer, got `x`: invalid digit found in string")
  /\ p "len(-1..)" = Err (PePredicate "len(-1..)"
       "len bound `-1` is not a valid length: out of range integral type conversion attempted").
Proof. vm_compute. repeat split. Qed.
