(* ===== verification/RuleParser.v ===== *)
(** * Rule lines ([ppe-apl-core/src/parser.rs], [parse_rule])

    A rule is a predicate with an optional action; the guards below refuse the lines that
    would compile to something their author did not mean. *)

From Stdlib Require Import Ascii String.
From S2P Require Import Prelude RustStr F64 Json Platform Rules Constraint Step Lexical Predicate Effects Scan Stages.

(** ** Actions *)

Definition try_bare_action (s : string) : option (list Effect) :=
  let s := trim s in
  if String.eqb s "deny" then Some [EffDeny None None]
  else if String.eqb s "allow" then Some [EffAllow]
  else None.

Definition strip_string_literal (s rule : string) : result string ParseError :=
  let s := trim s in
  match literal_or_bare s with
  | Ok (Some inner) => Ok inner
  | Ok None => Err (PeRule rule ("expected a quoted string, got `" +:+ s +:+ "`"))
  | Err e => Err (PeRule rule (le_msg e))
  end.

Definition try_parse_deny_call (s rule : string) : result (option Effect) ParseError :=
  if negb (starts_with "deny(" s) then Ok None
  else match extract_call_args s "deny" with
  | None => Err (PeRule rule "malformed `deny(...)`")
  | Some inside =>
      let? parts := result_map_err (fun e => PeRule rule ("deny(...): " +:+ e)) (split_top_level_commas inside) in
      let? reason := transpose (fun p => strip_string_literal (trim p) rule) (head parts) in
      let? code := transpose (fun p => strip_string_literal (trim p) rule) (head (tail parts)) in
      match tail (tail parts) with
      | [] => Ok (Some (EffDeny reason code))
      | _ => Err (PeRule rule "deny(...) takes at most two args: deny('reason', 'code')")
      end
  end.

Definition parse_action (s rule : string) : result (list Effect) ParseError :=
  match try_bare_action s with
  | Some effects => Ok effects
  | None =>
      let? call := try_parse_deny_call (trim s) rule in
      match call with
      | Some deny => Ok [deny]
      | None => Err (PeRule rule ("unsupported action `" +:+ trim s
          +:+ "` — recognized: `deny`, `deny('reason')`, `deny('reason', 'code')`, `allow`"))
      end
  end.

(** ** Guards *)

Section Guards.
Context `{Platform}.

Definition field_operation_in_rule_position (predicate : string) : option string :=
  match split_top_level (trim predicate) "|" with
  | [] => None
  | first :: rest =>
      let head := trim first in
      match rest with
      | [] => None
      | _ =>
          if negb (starts_with "args." head || starts_with "result." head) then None
          else then_some (existsb (fun seg => result_is_ok (parse_stage (trim seg))) rest) head
      end
  end.

Definition reject_field_operation_in_rule_position (predicate rule : string) : result unit ParseError :=
  match field_operation_in_rule_position predicate with
  | Some field =>
      Err (PeRule rule ("`" +:+ field +:+ "` is a field operation, and this is effect position: a rule here is a "
        +:+ "predicate with an optional `allow`/`deny`. Move the chain under `args:` or "
        +:+ "`result:`, keyed by the field it names"))
  | None => Ok tt
  end.

Definition is_require_form (s : string) : bool :=
  match strip_prefix "require" (trim s) with
  | None => false
  | Some rest =>
      match extract_call_args ("require" +:+ trim_start rest) "require" with Some _ => true | None => false end
  end.

Definition is_allow (e : Effect) : bool := match e with EffAllow => true | _ => false end.

Definition reject_require_with_allow (predicate : string) (effects : list Effect) (rule : string) :
    result unit ParseError :=
  if is_require_form predicate && existsb is_allow effects then
    Err (PeRule rule ("`require(...)` states what must hold and denies when it does not, so its "
      +:+ "action can only be `deny`; write the predicate without `require` to allow on it"))
  else Ok tt.

Definition STEP_PREFIXES : list (string * string) :=
  [("taint(", "taint"); ("run(", "run"); ("cedar:", "cedar"); ("opa(", "opa"); ("authzen(", "authzen");
   ("nemo(", "nemo"); ("cel:", "cel"); ("sequential:", "sequential"); ("parallel:", "parallel")].

Definition detect_step_kind (s : string) : option string :=
  let s := trim_start s in
  option_map snd (List.find (fun p => starts_with p.1 s) STEP_PREFIXES).

(** ** Rules *)

(** [parse_predicate(p).map_err(|e| ParseError::Rule { rule, msg: format!("{e}") })]. *)
Definition parse_rule_predicate (predicate rule : string) : result Expression ParseError :=
  result_map_err (fun e => PeRule rule (parse_error_display e)) (parse_predicate predicate).

(** The predicate is read and guarded after its effects are known. *)
Definition guarded_rule (predicate rule source : string) (effects : list Effect) : result Rule ParseError :=
  let? _ := reject_field_operation_in_rule_position predicate rule in
  let? _ := reject_require_with_allow predicate effects rule in
  let? condition := parse_rule_predicate predicate rule in
  Ok (mkRule condition effects source).

Definition parse_rule (line source : string) : result Rule ParseError :=
  let trimmed := trim line in
  if starts_with "plugin(" (trim_start trimmed) then Err (PeRule trimmed PLUGIN_IS_RUN)
  else match detect_step_kind trimmed with
  | Some kind => Err (PeUnsupportedStep trimmed (kind +:+ " (use parse_step for step kinds)"))
  | None =>
      match split_predicate_action trimmed with
      | Some (p, a) =>
          let? effects := parse_action a trimmed in
          guarded_rule p trimmed source effects
      | None =>
          match try_bare_action trimmed with
          | Some effects => Ok (mkRule EAlways effects source)
          | None =>
              let? call := try_parse_deny_call trimmed trimmed in
              match call with
              | Some deny => Ok (mkRule EAlways [deny] source)
              | None => guarded_rule trimmed trimmed source [EffDeny None None]
              end
          end
      end
  end.
End Guards.

Example parse_rule_examples :
  let p := fun l => @parse_rule ascii_platform l "s" in
  p " delegation.depth > 2: deny('too deep', 'depth') " =
    Ok (mkRule (ECondition (Comparison "delegation.depth" OpGt (LInt 2)))
          [EffDeny (Some "too deep") (Some "depth")] "s")
  /\ p "require(a, b)" = Ok (mkRule (EOr [ECondition (IsFalse "a"); ECondition (IsFalse "b")]) [EffDeny None None] "s")
  /\ p "deny" = Ok (mkRule EAlways [EffDeny None None] "s")
  /\ result_is_ok (p "require (a): allow") = false
  /\ result_is_ok (p "a & require(b): allow") = true
  /\ result_is_ok (p "args.x | redact") = false
  /\ result_is_ok (p "args.x | args.y: deny") = true
  /\ p "run(x)" = Err (PeUnsupportedStep "run(x)" "run (use parse_step for step kinds)").
Proof. vm_compute. repeat split. Qed.
