(* ===== verification/StepParser.v ===== *)
(** * Steps, effects and the policy document ([ppe-apl-core/src/parser.rs], [parse_step] and below)

    A step is a YAML string (a rule, [run(...)], [taint(...)], [delegate(...)] or an
    elicitation verb) or a YAML map (a structured rule, a decision point call, [restrict:],
    [delegate:], [sequential:], [parallel:]); the compiler of a whole document ends the file. *)

From Stdlib Require Import Ascii String.
From S2P Require Import Prelude RustStr F64 Json Platform Rules Constraint Step Lexical Predicate Effects Scan Stages.
From S2P Require Import RuleParser.

(** [step::Step]. *)
Unset Elimination Schemes.
Inductive Step : Type :=
| StepRule (r : Rule)
| StepPdp (call : PdpCall) (on_deny on_allow : list Step)
| StepPlugin (name : string)
| StepDelegate (d : DelegateStep)
| StepTaint (label : string) (scopes : list TaintScope)
| StepRestrict (spec : RestrictSpec)
| StepElicit (e : ElicitStep).
Set Elimination Schemes.

(** Library functions the parser calls, for the text of its errors and for Unicode. *)
Class CompilerLib := {
  (** [{:?}] of a [serde_yaml::Value], of a [Mapping] and of an [Effect]. *)
  yaml_debug : yaml -> string;
  mapping_debug : list (yaml * yaml) -> string;
  effect_debug : Effect -> string;
  (** [Display] of a YAML float. *)
  yaml_float_display : f64 -> string;
  (** [char::is_alphanumeric] of a character that is not ASCII. *)
  unicode_alphanumeric : string -> bool;
}.

Definition ascii_compiler_lib : CompilerLib := {|
  yaml_debug := fun _ => "..";
  mapping_debug := fun _ => "{..}";
  effect_debug := fun _ => "..";
  yaml_float_display := fun _ => "1.0";
  unicode_alphanumeric := fun _ => false;
|}.

(** ** YAML values *)

Definition yaml_as_str (y : yaml) : option string := match untag y with YString s => Some s | _ => None end.
Definition as_sequence (y : yaml) : option (list yaml) := match untag y with YSequence l => Some l | _ => None end.
Definition is_null (y : yaml) : bool := match untag y with YNull => true | _ => false end.

Definition has_key (m : list (yaml * yaml)) (key : string) : bool :=
  match mapping_get key m with Some _ => true | None => false end.

(** [Mapping::insert] with a string key: in place, or at the end. *)
Fixpoint mapping_insert (key : string) (v : yaml) (m : list (yaml * yaml)) : list (yaml * yaml) :=
  match m with
  | [] => [(YString key, v)]
  | (YString k, v') :: m' =>
      if String.eqb k key then (YString k, v) :: m' else (YString k, v') :: mapping_insert key v m'
  | e :: m' => e :: mapping_insert key v m'
  end.

(** ** Call arguments *)

(** The value of [key: value], by descending into lists. A list item is shorter than the
    list, so a bound of the length of the text is never reached. *)
Fixpoint delegate_value (fuel : nat) (s : string) : result yaml string :=
  match fuel with
  | O => Err ""
  | S fuel' =>
      let trimmed := trim s in
      if String.eqb trimmed "" then Err "empty value"
      else match strip_brackets "[" "]" trimmed with
      | Some stripped =>
          let? items := split_top_level_commas stripped in
          let? out := collect (delegate_value fuel')
                        (List.filter (fun i => negb (String.eqb i "")) (map trim items)) in
          Ok (YSequence out)
      | None =>
          let? lit := result_map_err le_msg (literal_or_bare trimmed) in
          match lit with
          | Some inner => Ok (YString inner)
          | None =>
              if String.eqb trimmed "true" then Ok (YBool true)
              else if String.eqb trimmed "false" then Ok (YBool false)
              else match parse_i64 trimmed with
              | Some n => Ok (YNumber (NInt n))
              | None =>
                  match parse_f64 trimmed with
                  | Some f => Ok (YNumber (NFloat f))
                  | None => Ok (YString trimmed)
                  end
              end
          end
      end
  end.

Definition parse_delegate_value (s : string) : result yaml string := delegate_value (S (String.length s)) s.

Record ParsedDelegateCall : Type := mkDelegateCall {
  pd_plugin_name : string;
  pd_config_override : option yaml;
  pd_on_error : option string;
}.

(** What the keyword loop of [delegate(...)] collects. *)
Record DelegateArgs : Type := mkDelegateArgs { da_on_error : option string; da_config : list (yaml * yaml) }.

Definition config_of (m : list (yaml * yaml)) : option yaml :=
  match m with [] => None | _ => Some (YMapping m) end.

(** The first positional argument: the plugin's name, bare or quoted. *)
Definition positional_name (parts : list string) (rule missing source : string) : result string ParseError :=
  match head parts with
  | Some p =>
      if String.eqb (trim p) "" then Err (PeRule rule missing)
      else result_map_err (fun msg => PeRule rule (source +:+ ": " +:+ msg)) (literal_value (trim p))
  | None => Err (PeRule rule missing)
  end.

Fixpoint delegate_kwargs (source : string) (parts : list string) (acc : DelegateArgs) :
    result DelegateArgs ParseError :=
  match parts with
  | [] => Ok acc
  | raw :: rest =>
      let kwarg := trim raw in
      if String.eqb kwarg "" then delegate_kwargs source rest acc
      else match split_once ":" kwarg with
      | None => Err (PeRule kwarg (source +:+ ": `delegate(...)` kwarg `" +:+ kwarg
                  +:+ "` must be `key: value` (use the map form for richer config)"))
      | Some (key, value_str) =>
          let key := trim key in
          let value_str := trim value_str in
          if String.eqb key "" then Err (PeRule kwarg (source +:+ ": `delegate(...)` kwarg has empty key"))
          else if String.eqb key "on_error" then
            let? val := result_map_err (fun msg => PeRule kwarg (source +:+ ": on_error: " +:+ msg))
                          (parse_delegate_value value_str) in
            match yaml_as_str val with
            | Some s => delegate_kwargs source rest (mkDelegateArgs (Some s) (da_config acc))
            | None => Err (PeRule kwarg (source +:+ ": `on_error` must be a string"))
            end
          else if String.eqb key "plugin" then
            Err (PeRule kwarg (source +:+ ": `plugin` is set as the first positional argument of `delegate(...)`; "
              +:+ "don't pass it as a kwarg too"))
          else
            let? value := result_map_err (fun msg => PeRule kwarg (source +:+ ": `" +:+ key +:+ "`: " +:+ msg))
                            (parse_delegate_value value_str) in
            delegate_kwargs source rest (mkDelegateArgs (da_on_error acc) (mapping_insert key value (da_config acc)))
      end
  end.

Definition parse_delegate_call_args (inside source : string) : result ParsedDelegateCall ParseError :=
  let rule := "delegate(" +:+ inside +:+ ")" in
  let? parts := result_map_err (fun msg => PeRule rule (source +:+ ": " +:+ msg)) (split_top_level_commas inside) in
  let? plugin_name := positional_name parts rule
    (source +:+ ": `delegate(...)` requires a plugin name as the first positional argument") source in
  if String.eqb plugin_name "" then
    Err (PeRule rule (source +:+ ": `delegate(...)` plugin name cannot be empty"))
  else
    let? args := delegate_kwargs source (tail parts) (mkDelegateArgs None []) in
    Ok (mkDelegateCall plugin_name (config_of (da_config args)) (da_on_error args)).

Definition ELICIT_VERBS : list (string * ElicitKind) :=
  [("require_approval", Approval); ("confirm", Confirm); ("require_step_up", StepUp);
   ("require_attestation", Attestation); ("request_info", Info); ("require_review", Review)].

(** What the keyword loop of an elicitation verb collects. *)
Record ElicitArgs : Type := mkElicitArgs {
  ea_from : option string;
  ea_channel : option string;
  ea_purpose : option string;
  ea_scope : option string;
  ea_timeout : option string;
  ea_on_error : option string;
  ea_config : list (yaml * yaml);
}.

Record ParsedElicitCall : Type := mkElicitCall {
  pe_plugin_name : string;
  pe_from : string;
  pe_channel : option string;
  pe_purpose : option string;
  pe_scope : option string;
  pe_timeout : option string;
  pe_on_error : option string;
  pe_config_override : option yaml;
}.

Section Elicit.
Context `{CompilerLib}.
Variable verb source : string.

Definition as_string (value : yaml) (key : string) : result string ParseError :=
  match value with
  | YString s => Ok s
  | other => Err (PeRule (verb +:+ "(...)") (source +:+ ": `" +:+ key +:+ "` must be a string, got " +:+ yaml_debug other))
  end.

(** [match key { ... }] of the loop. *)
Definition elicit_arg (kwarg key : string) (value : yaml) (a : ElicitArgs) : result ElicitArgs ParseError :=
  let '(mkElicitArgs from channel purpose scope timeout on_error config) := a in
  if String.eqb key "from" then
    let? s := as_string value "from" in Ok (mkElicitArgs (Some s) channel purpose scope timeout on_error config)
  else if String.eqb key "channel" then
    let? s := as_string value "channel" in Ok (mkElicitArgs from (Some s) purpose scope timeout on_error config)
  else if String.eqb key "scope" then
    let? s := as_string value "scope" in Ok (mkElicitArgs from channel purpose (Some s) timeout on_error config)
  else if String.eqb key "purpose" || String.eqb key "prompt" then
    let? s := as_string value key in Ok (mkElicitArgs from channel (Some s) scope timeout on_error config)
  else if String.eqb key "timeout" then
    let? s := as_string value "timeout" in Ok (mkElicitArgs from channel purpose scope (Some s) on_error config)
  else if String.eqb key "on_error" then
    let? s := as_string value "on_error" in Ok (mkElicitArgs from channel purpose scope timeout (Some s) config)
  else if String.eqb key "plugin" then
    Err (PeRule kwarg (source +:+ ": the plugin name is the first positional argument of `" +:+ verb
      +:+ "(...)`; don't pass it as a kwarg too"))
  else Ok (mkElicitArgs from channel purpose scope timeout on_error (mapping_insert key value config)).

Fixpoint elicit_kwargs (parts : list string) (acc : ElicitArgs) : result ElicitArgs ParseError :=
  match parts with
  | [] => Ok acc
  | raw :: rest =>
      let kwarg := trim raw in
      if String.eqb kwarg "" then elicit_kwargs rest acc
      else match split_once ":" kwarg with
      | None => Err (PeRule kwarg (source +:+ ": `" +:+ verb +:+ "(...)` argument `" +:+ kwarg
                  +:+ "` must be `key: value` (the plugin name is the first positional argument)"))
      | Some (key, value_str) =>
          let key := trim key in
          let value_str := trim value_str in
          if String.eqb key "" then Err (PeRule kwarg (source +:+ ": `" +:+ verb +:+ "(...)` argument has empty key"))
          else
            let? value := result_map_err (fun msg => PeRule kwarg (source +:+ ": `" +:+ key +:+ "`: " +:+ msg))
                            (parse_delegate_value value_str) in
            let? acc := elicit_arg kwarg key value acc in
            elicit_kwargs rest acc
      end
  end.

Definition parse_elicit_call_args (inside : string) : result ParsedElicitCall ParseError :=
  let rule := verb +:+ "(" +:+ inside +:+ ")" in
  let? parts := result_map_err (fun msg => PeRule rule (source +:+ ": " +:+ msg)) (split_top_level_commas inside) in
  let? plugin_name := positional_name parts rule
    (source +:+ ": `" +:+ verb +:+ "(...)` requires an ElicitationHandler plugin name as the first positional argument")
    source in
  let? a := elicit_kwargs (tail parts) (mkElicitArgs None None None None None None []) in
  match ea_from a with
  | None => Err (PeRule rule (source +:+ ": `" +:+ verb +:+ "(...)` requires `from` (the approver)"))
  | Some from =>
      Ok (mkElicitCall plugin_name from (ea_channel a) (ea_purpose a) (ea_scope a) (ea_timeout a)
            (ea_on_error a) (config_of (ea_config a)))
  end.
End Elicit.

(** ** [restrict:] *)

Section Restrict.
Context `{CompilerLib}.

Definition parse_string_list (v : yaml) : result (list string) string :=
  match as_sequence v with
  | None => Err "must be a list of strings"
  | Some seq =>
      let? out := collect (fun item =>
        match yaml_as_str item with
        | None => Err "list entries must be strings"
        | Some s => if is_blank s then Err "list entries must not be empty" else Ok (trim s)
        end) seq in
      match out with [] => Err "list must not be empty" | _ => Ok out end
  end.

Definition parse_string_set_spec (v : yaml) : result StringSetSpec string :=
  match v with
  | YSequence _ => let? l := parse_string_list v in Ok (SetLiteral l)
  | YString s => if is_blank s then Err "reference path must not be empty" else Ok (SetRef (trim s))
  | _ => Err "must be a list of strings or a `data.*` reference string"
  end.

Definition number_to_string (n : number) : string :=
  match n with NInt z => show_Z z | NFloat f => yaml_float_display f end.

Definition scalar_to_string (v : yaml) : option string :=
  match v with
  | YString s => Some s
  | YBool b => Some (show_bool b)
  | YNumber n => Some (number_to_string n)
  | _ => None
  end.

Fixpoint label_entries (m : list (yaml * yaml)) (out : gmap string string) : result (gmap string string) string :=
  match m with
  | [] => Ok out
  | (k, v) :: rest =>
      match yaml_as_str k with
      | None => Err "label keys must be strings"
      | Some key =>
          if is_blank key then Err "label keys must not be empty"
          else match scalar_to_string v with
          | None => Err ("label `" +:+ trim key +:+ "` must be a scalar (string / bool / number)")
          | Some value => label_entries rest (<[trim key := value]> out)
          end
      end
  end.

Definition parse_label_map (v : yaml) : result (gmap string string) string :=
  match as_mapping v with
  | None => Err "must be a map of `label: value` pairs"
  | Some m =>
      let? out := label_entries m ∅ in
      if bool_decide (out = ∅) then Err "`custom` map must not be empty" else Ok out
  end.

Definition RestrictSpec_default : RestrictSpec := mkRestrict None None None None None ∅ OnEmptyDeny.

(** [match key.trim() { ... }] of the field loop; errors are those of [field_err]. *)
Definition restrict_field (key : string) (v : yaml) (spec : RestrictSpec) : result RestrictSpec string :=
  let '(mkRestrict am dm ar as_ mt cu oe) := spec in
  if String.eqb key "allow_models" then
    let? x := parse_string_set_spec v in Ok (mkRestrict (Some x) dm ar as_ mt cu oe)
  else if String.eqb key "deny_models" then
    let? x := parse_string_set_spec v in Ok (mkRestrict am (Some x) ar as_ mt cu oe)
  else if String.eqb key "allow_regions" then
    let? x := parse_string_set_spec v in Ok (mkRestrict am dm (Some x) as_ mt cu oe)
  else if String.eqb key "allow_sites" then
    let? x := parse_string_set_spec v in Ok (mkRestrict am dm ar (Some x) mt cu oe)
  else if String.eqb key "max_cost_tier" then
    match yaml_as_str v with
    | None => Err "must be a string tier"
    | Some tier => if is_blank tier then Err "tier must not be empty"
                   else Ok (mkRestrict am dm ar as_ (Some (trim tier)) cu oe)
    end
  else if String.eqb key "custom" then
    let? m := parse_label_map v in Ok (mkRestrict am dm ar as_ mt m oe)
  else
    match yaml_as_str v with
    | None => Err "must be `deny` or `fallback`"
    | Some s =>
        if String.eqb (trim s) "deny" then Ok (mkRestrict am dm ar as_ mt cu OnEmptyDeny)
        else if String.eqb (trim s) "fallback" then Ok (mkRestrict am dm ar as_ mt cu OnEmptyFallback)
        else Err ("unknown value `" +:+ trim s +:+ "` (expected `deny` or `fallback`)")
    end.

Definition RESTRICT_FIELDS : list string :=
  ["allow_models"; "deny_models"; "allow_regions"; "allow_sites"; "max_cost_tier"; "custom"; "on_empty"].

Fixpoint restrict_fields (source : string) (body : list (yaml * yaml)) (spec : RestrictSpec) :
    result RestrictSpec ParseError :=
  match body with
  | [] => Ok spec
  | (k, v) :: rest =>
      match yaml_as_str k with
      | None => Err (PeRule source "`restrict:` field keys must be strings")
      | Some key =>
          let key := trim key in
          if existsb (String.eqb key) RESTRICT_FIELDS then
            let? spec := result_map_err (fun msg => PeRule source ("`restrict." +:+ key +:+ "`: " +:+ msg))
                           (restrict_field key v spec) in
            restrict_fields source rest spec
          else Err (PeRule source ("unknown `restrict:` field `" +:+ key
            +:+ "` (allowed: allow_models, deny_models, allow_regions, allow_sites, max_cost_tier, custom, on_empty)"))
      end
  end.

Definition parse_restrict_spec (body_val : yaml) (source : string) : result RestrictSpec ParseError :=
  match as_mapping body_val with
  | None => Err (PeRule source ("`restrict:` body must be a map of constraint fields (allow_models / "
      +:+ "deny_models / allow_regions / allow_sites / max_cost_tier / custom / on_empty)"))
  | Some body =>
      let? spec := restrict_fields source body RestrictSpec_default in
      if restrict_is_empty spec then
        Err (PeRule source ("`restrict:` declares no constraint fields — it would restrict nothing; "
          +:+ "remove it or add at least one of allow_models / deny_models / allow_regions / allow_sites / "
          +:+ "max_cost_tier / custom"))
      else Ok spec
  end.

Definition parse_restrict_effect (body : yaml) (source : string) : result Effect ParseError :=
  let? spec := parse_restrict_spec body source in Ok (EffRestrict spec).

(** ** [delegate:] *)

Definition parse_delegate_step (body_val : yaml) (source : string) : result Step ParseError :=
  match as_mapping body_val with
  | None => Err (PeRule source "`delegate:` body must be a map with `plugin:` and optional `config:` / `on_error:`")
  | Some body =>
      match mapping_get "plugin" body with
      | None => Err (PeRule source ("`delegate:` requires `plugin: <name>` referencing a top-level plugin "
          +:+ "registered under `token.delegate`"))
      | Some plugin =>
          match yaml_as_str plugin with
          | None => Err (PeRule source "`delegate.plugin` must be a string")
          | Some plugin_name =>
              if String.eqb plugin_name "" then Err (PeRule source "`delegate.plugin` cannot be empty")
              else
                let config_override := mapping_get "config" body in
                let? on_error := transpose (fun v =>
                  match yaml_as_str v with
                  | Some s => Ok s
                  | None => Err (PeRule source "`delegate.on_error` must be a string (e.g. `deny`, `continue`)")
                  end) (mapping_get "on_error" body) in
                Ok (StepDelegate (mkDelegate plugin_name config_override on_error source))
          end
      end
  end.

(** ** Keys of step maps *)

Definition PDP_CUSTOM_KEY : string := "pdp".

Definition STEP_MAP_KEYS : string :=
  "`when:` with `do:`, `sequential:`, `parallel:`, `delegate:`, `restrict:`, a built-in PDP dialect (`cedar:`, `cel:`, `opa:`, `authzen:`, `nemo:`), or `pdp(name):` for a custom dialect".

Definition is_known_pdp_dialect (key : string) : bool :=
  let base := match split_once "(" key with Some (b, _) => b | None => key end in
  let base := trim base in
  String.eqb base PDP_CUSTOM_KEY || match from_builtin_key base with Some _ => true | None => false end.

Definition split_call_key (key : string) : result (option (string * string)) ParseError :=
  match find_char "(" key with
  | None => Ok None
  | Some open =>
      match rfind_char ")" key with
      | None => Err (PeRule key "missing `)` in PDP call signature")
      | Some close =>
          if (close <? open)%nat || negb (is_blank (drop_bytes (S close) key)) then
            Err (PeRule key "the `)` must end a PDP call signature, with nothing after it")
          else
            let? inside := result_map_err (PeRule key) (literal_value (slice (S open) close key)) in
            Ok (Some (trim (take_bytes open key), inside))
      end
  end.

Definition unknown_step_map_key (key : string) : ParseError :=
  PeRule key ("`" +:+ key +:+ ":` is not a step-map key. Accepted: " +:+ STEP_MAP_KEYS
    +:+ ". A custom PDP dialect is written `pdp(" +:+ key +:+ "):`, not `" +:+ key +:+ ":`").

Definition parse_pdp_key (key : string) : result (PdpDialect * option string) ParseError :=
  let trimmed := trim key in
  let trimmed := match strip_suffix ":" trimmed with Some r => trim_end r | None => trimmed end in
  let? call := split_call_key trimmed in
  match call with
  | None =>
      match from_builtin_key trimmed with
      | Some d => Ok (d, None)
      | None => Err (unknown_step_map_key trimmed)
      end
  | Some (name, inside) =>
      if String.eqb name PDP_CUSTOM_KEY then
        if String.eqb inside "" then
          Err (PeRule trimmed "`pdp(name):` names the custom dialect to route to, so the name must not be empty")
        else Ok (CustomDialect inside, None)
      else match from_builtin_key name with
           | Some d => Ok (d, Some inside)
           | None => Err (unknown_step_map_key trimmed)
           end
  end.
End Restrict.

(** ** Step strings *)

Section Strings.
Context `{Platform, CompilerLib}.

(** [for (verb, kind) in ELICIT_VERBS { if trimmed.starts_with("{verb}(") { ... } }]. *)
Definition find_verb (trimmed : string) : option (string * ElicitKind) :=
  List.find (fun vk => starts_with (vk.1 +:+ "(") trimmed) ELICIT_VERBS.

Definition parse_elicit_step (verb : string) (kind : ElicitKind) (trimmed source : string) :
    result Step ParseError :=
  match extract_call_args trimmed verb with
  | None => Err (PeRule trimmed ("malformed `" +:+ verb +:+ "(...)`"))
  | Some inside =>
      let? p := parse_elicit_call_args verb source inside in
      Ok (StepElicit (mkElicit kind (pe_plugin_name p) (pe_channel p) (pe_from p) (pe_purpose p) (pe_scope p)
            (pe_timeout p) (pe_config_override p) (pe_on_error p) source))
  end.

Definition parse_step_string (line source : string) : result Step ParseError :=
  let trimmed := trim line in
  if starts_with "taint(" trimmed then
    match extract_call_args trimmed "taint" with
    | None => Err (PeRule trimmed "malformed `taint(...)`")
    | Some inside =>
        let? stage := parse_taint inside trimmed in
        match stage with
        | StTaint label scopes => Ok (StepTaint label scopes)
        | _ => Err (PeRule trimmed "internal: `taint(...)` did not produce a taint stage")
        end
    end
  else if starts_with "plugin(" trimmed then Err (PeRule trimmed PLUGIN_IS_RUN)
  else if starts_with "run(" trimmed then
    match extract_call_args trimmed "run" with
    | None => Err (PeRule trimmed "malformed `run(...)`")
    | Some inside =>
        let name := trim inside in
        if String.eqb name "" then Err (PeRule trimmed "`run(...)`: plugin name must not be empty")
        else Ok (StepPlugin name)
    end
  else if starts_with "delegate(" trimmed then
    match extract_call_args trimmed "delegate" with
    | None => Err (PeRule trimmed "malformed `delegate(...)`")
    | Some inside =>
        let? p := parse_delegate_call_args inside source in
        Ok (StepDelegate (mkDelegate (pd_plugin_name p) (pd_config_override p) (pd_on_error p) source))
    end
  else match find_verb trimmed with
  | Some (verb, kind) => parse_elicit_step verb kind trimmed source
  | None => let? rule := parse_rule trimmed source in Ok (StepRule rule)
  end.

(** ** Effects *)

(** [char::is_alphanumeric]. *)
Definition char_alphanumeric (c : string) : bool :=
  match c with
  | String a EmptyString => is_ascii_alphanumeric a
  | _ => unicode_alphanumeric c
  end.

Definition valid_segment (seg : string) : bool :=
  String.eqb seg "**"
  || (negb (String.eqb seg "") && forallb (fun c => char_alphanumeric c || String.eqb c "_") (chars seg)).

Definition is_valid_field_path (s : string) : bool :=
  match (match strip_prefix "args." s with Some r => Some r | None => strip_prefix "result." s end) with
  | None => false
  | Some rest => negb (String.eqb rest "") && forallb valid_segment (split "." rest)
  end.

Definition is_redact (st : Stage) : bool := match st with StRedact _ => true | _ => false end.

(** A [**] segment asks for a redact stage. *)
Definition deep_without_redact (path : string) (stages : list Stage) : bool :=
  existsb (fun seg => String.eqb seg "**") (split "." path) && negb (existsb is_redact stages).

Definition try_parse_field_op (s rule : string) : result (option Effect) ParseError :=
  match find_top_level_pipe s with
  | None => Ok None
  | Some i =>
      let path := trim (take_bytes i s) in
      let chain := trim (drop_bytes (S i) s) in
      if String.eqb path "" || String.eqb chain "" then Ok None
      else if negb (is_valid_field_path path) then Ok None
      else
        let? p := result_map_err (fun e => PeRule rule ("field op `" +:+ path +:+ "`: " +:+ parse_error_display e))
                    (parse_pipeline chain) in
        if deep_without_redact path (stages p) then Err (PeRule rule "`**` paths require a redact stage")
        else if is_nil (stages p) then Err (PeRule rule ("field op `" +:+ path +:+ "` has no stages"))
        else Ok (Some (EffFieldOp path (stages p)))
  end.

Definition step_to_effect (step : Step) (source : string) : result Effect ParseError :=
  match step with
  | StepPlugin name => Ok (EffPlugin name)
  | StepDelegate d => Ok (EffDelegate d)
  | StepElicit e => Ok (EffElicit e)
  | StepTaint label scopes => Ok (EffTaint label scopes)
  | StepRestrict spec => Ok (EffRestrict spec)
  | StepRule rule =>
      match rule_condition rule with
      | EAlways => Err (PeRule source
          "unconditional rule inside `do:` is not supported (use the effect on its own)")
      | _ => Err (PeRule source ("conditional rules nested inside `do:` are not supported "
               +:+ "(use a sibling `when:`/`do:` rule instead)"))
      end
  | StepPdp _ _ _ => Err (PeRule source "PDP calls inside `do:` are not supported (use a sibling step instead)")
  end.

Definition parse_effect_string (s source : string) : result Effect ParseError :=
  let trimmed := trim s in
  match try_bare_action trimmed with
  | Some [only] => Ok only
  | _ =>
      let? deny := try_parse_deny_call trimmed s in
      match deny with
      | Some effect => Ok effect
      | None =>
          let? op := try_parse_field_op trimmed s in
          match op with
          | Some field_op => Ok field_op
          | None => let? step := parse_step_string s source in step_to_effect step source
          end
      end
  end.
End Strings.

(** ** Step maps *)

Section Maps.
Context `{Platform, CompilerLib}.
(** [parse_step] and [parse_effect_value] on the values inside a map. *)
Variable parse_step_rec : yaml -> string -> result Step ParseError.
Variable parse_effect_rec : yaml -> string -> result Effect ParseError.

(** The body of a [sequential:] or [parallel:] block. *)
Definition effect_list (which : string) (body : yaml) (source : string) : result (list Effect) ParseError :=
  match as_sequence body with
  | None => Err (PeRule (yaml_debug body) ("`" +:+ which +:+ ":` body must be a list of effects"))
  | Some [] => Err (PeRule (yaml_debug body) ("`" +:+ which +:+ ":` body is empty"))
  | Some items => collect (fun item => parse_effect_rec item source) items
  end.

Definition parse_sequential_effect (body : yaml) (source : string) : result Effect ParseError :=
  let? effects := effect_list "sequential" body source in Ok (EffSequential effects).

Definition purity_message (e : Effect) : string :=
  "`parallel:` contains a mutation effect (" +:+ effect_debug e
  +:+ "); use `sequential:` for ordered mutations".

Definition parse_parallel_effect (body : yaml) (source : string) : result Effect ParseError :=
  let? effects := effect_list "parallel" body source in
  let parallel := EffParallel effects in
  let? _ := result_map_err (fun e => PeRule source (purity_message e)) (validate_parallel_purity parallel) in
  Ok parallel.

Definition parse_do_body (val : yaml) (source : string) : result (list Effect) ParseError :=
  match val with
  | YString s => let? e := parse_effect_string s source in Ok [e]
  | YSequence items => collect (fun item => parse_effect_rec item source) items
  | YMapping _ => let? e := parse_effect_rec val source in Ok [e]
  | other => Err (PeRule (yaml_debug other) "`do:` value must be a string, a list of effects, or an effect map")
  end.

(** The first key a when/do rule may not have. *)
Definition stray_key (m : list (yaml * yaml)) : option string :=
  List.find (fun key => negb (existsb (String.eqb key) ["when"; "do"; "id"]))
    (map (fun kv => default "" (yaml_as_str kv.1)) m).

Definition parse_when_do_rule (m : list (yaml * yaml)) (source : string) : result Step ParseError :=
  match stray_key m with
  | Some key => Err (PeRule (mapping_debug m)
      ("unexpected key `" +:+ key +:+ "` in when/do rule (allowed: `when`, `do`, `id`)"))
  | None =>
      match mapping_get "when" m with
      | None => Err (PeRule (mapping_debug m) "`when:` key missing from when/do rule")
      | Some when_val =>
          match yaml_as_str when_val with
          | None => Err (PeRule (yaml_debug when_val) "`when:` must be a predicate string")
          | Some predicate =>
              let quoted := "when: " +:+ predicate in
              let? _ := reject_field_operation_in_rule_position predicate quoted in
              let? condition := parse_rule_predicate predicate quoted in
              match mapping_get "do" m with
              | None => Err (PeRule (mapping_debug m) "`do:` key missing from when/do rule")
              | Some do_val =>
                  let? effects := parse_do_body do_val source in
                  if is_nil effects then Err (PeRule (mapping_debug m) "`do:` produced no effects")
                  else
                    let? _ := reject_require_with_allow predicate effects quoted in
                    Ok (StepRule (mkRule condition effects source))
              end
          end
      end
  end.

Definition parse_shorthand_multi_effect (predicate : string) (items : list yaml) (source : string) :
    result Step ParseError :=
  let? _ := reject_field_operation_in_rule_position predicate predicate in
  let? condition := parse_rule_predicate predicate predicate in
  let? effects := collect (fun item => parse_effect_rec item source) items in
  if is_nil effects then Err (PeRule predicate "shorthand multi-effect map produced no effects")
  else
    let? _ := reject_require_with_allow predicate effects predicate in
    Ok (StepRule (mkRule condition effects source)).

(** [list.iter().enumerate().map(|(i, entry)| parse_step(entry, "{source}.{which}[{i}]"))]. *)
Fixpoint indexed_steps (prefix : string) (i : nat) (list_ : list yaml) : result (list Step) ParseError :=
  match list_ with
  | [] => Ok []
  | entry :: rest =>
      let? step := parse_step_rec entry (prefix +:+ "[" +:+ show_nat i +:+ "]") in
      let? steps := indexed_steps prefix (S i) rest in
      Ok (step :: steps)
  end.

Definition parse_reaction_list (v : yaml) (source which : string) : result (list Step) ParseError :=
  match as_sequence v with
  | None => Err (PeRule (yaml_debug v) ("`" +:+ which +:+ ":` must be a list of steps"))
  | Some list_ => indexed_steps (source +:+ "." +:+ which) 0 list_
  end.

(** The loop over the body: the arguments (the keys of a mapping are distinct, so an
    insertion appends), [on_deny] and [on_allow]. *)
Fixpoint pdp_entries (source : string) (body args : list (yaml * yaml)) (on_deny on_allow : list Step) :
    result (list (yaml * yaml) * list Step * list Step) ParseError :=
  match body with
  | [] => Ok (args, on_deny, on_allow)
  | (k, v) :: rest =>
      if bool_decide (yaml_as_str k = Some "on_deny") then
        let? d := parse_reaction_list v source "on_deny" in pdp_entries source rest args d on_allow
      else if bool_decide (yaml_as_str k = Some "on_allow") then
        let? a := parse_reaction_list v source "on_allow" in pdp_entries source rest args on_deny a
      else pdp_entries source rest (args ++ [(k, v)]) on_deny on_allow
  end.

Definition extract_pdp_body (body : list (yaml * yaml)) (paren_args : option string) (source : string) :
    result (yaml * list Step * list Step) ParseError :=
  let? (args_map, on_deny, on_allow) := pdp_entries source body [] [] [] in
  Ok (match paren_args with Some s => YString s | None => YMapping args_map end, on_deny, on_allow).

(** An effect as a step of its own: an unconditional rule. *)
Definition always_rule (e : Effect) (source : string) : Step := StepRule (mkRule EAlways [e] source).

(** A sequence under a key that is not an orchestration key or a dialect. *)
Definition shorthand_items (key : string) (body_val : yaml) : option (list yaml) :=
  match body_val with
  | YSequence items =>
      if existsb (String.eqb key) ["delegate"; "sequential"; "parallel"] || is_known_pdp_dialect key
      then None else Some items
  | _ => None
  end.

Definition parse_pdp_step (key : string) (body_val : yaml) (source : string) : result Step ParseError :=
  let? (dialect, paren_args) := parse_pdp_key key in
  match as_mapping body_val with
  | None => Err (PeRule (yaml_debug body_val) ("`" +:+ key +:+ ":` body must be a map (with on_deny / on_allow / args)"))
  | Some body =>
      let? (args, on_deny, on_allow) := extract_pdp_body body paren_args source in
      Ok (StepPdp (mkPdpCall dialect args) on_deny on_allow)
  end.

Definition parse_step_map (m : list (yaml * yaml)) (source : string) : result Step ParseError :=
  if has_key m "when" && has_key m "do" then parse_when_do_rule m source
  else match m with
  | [(key_val, body_val)] =>
      match yaml_as_str key_val with
      | None => Err (PeRule (yaml_debug key_val) "PDP step key must be a string")
      | Some key =>
          let trimmed := trim key in
          match shorthand_items trimmed body_val with
          | Some items => parse_shorthand_multi_effect trimmed items source
          | None =>
              if String.eqb trimmed "delegate" then parse_delegate_step body_val source
              else if String.eqb trimmed "restrict" then
                let? spec := parse_restrict_spec body_val source in Ok (StepRestrict spec)
              else if String.eqb trimmed "sequential" then
                let? e := parse_sequential_effect body_val source in Ok (always_rule e source)
              else if String.eqb trimmed "parallel" then
                let? e := parse_parallel_effect body_val source in Ok (always_rule e source)
              else parse_pdp_step key body_val source
          end
      end
  | _ => Err (PeRule (mapping_debug m) ("step map must have exactly one key (PDP call signature, "
           +:+ "`when:`/`do:`, or a `predicate: [effects...]` shorthand)"))
  end.

Definition parse_step_body (value : yaml) (source : string) : result Step ParseError :=
  match value with
  | YString s => parse_step_string s source
  | YMapping m => parse_step_map m source
  | other => Err (PeRule (yaml_debug other) "step must be a string or a single-key map")
  end.

(** A map effect that [parse_effect_value] reads itself. *)
Definition own_effect (m : list (yaml * yaml)) (source : string) : option (result Effect ParseError) :=
  match m with
  | [(k, v)] =>
      match option_map trim (yaml_as_str k) with
      | Some key =>
          if String.eqb key "sequential" then Some (parse_sequential_effect v source)
          else if String.eqb key "parallel" then Some (parse_parallel_effect v source)
          else if String.eqb key "restrict" then Some (parse_restrict_effect v source)
          else None
      | None => None
      end
  | _ => None
  end.

Definition parse_effect_body (val : yaml) (source : string) : result Effect ParseError :=
  match val with
  | YString s => parse_effect_string s source
  | YMapping m =>
      match own_effect m source with
      | Some r => r
      | None => let? step := parse_step_rec val source in step_to_effect step source
      end
  | other => Err (PeRule (yaml_debug other) "effect entry must be a string or a map")
  end.
End Maps.

(** ** The recursion *)

(** The number of nodes of a value; every call descends into a value or turns an effect
    into a step of the same value, so twice the size bounds the calls. *)
Fixpoint yaml_size (y : yaml) : nat :=
  match y with
  | YSequence l => S (list_sum (map yaml_size l))
  | YMapping m => S (list_sum (map (fun kv => yaml_size kv.1 + yaml_size kv.2) m))
  | YTagged _ v => S (yaml_size v)
  | _ => 1
  end.

Section Recursion.
Context `{Platform, CompilerLib}.

Fixpoint step_of (fuel : nat) (value : yaml) (source : string) : result Step ParseError :=
  match fuel with
  | O => Err OutOfFuel
  | S fuel' => parse_step_body (step_of fuel') (effect_of fuel') value source
  end
with effect_of (fuel : nat) (value : yaml) (source : string) : result Effect ParseError :=
  match fuel with
  | O => Err OutOfFuel
  | S fuel' => parse_effect_body (step_of fuel') (effect_of fuel') value source
  end.

Definition parse_step (value : yaml) (source : string) : result Step ParseError :=
  step_of (2 * yaml_size value) value source.

Definition parse_effect_value (value : yaml) (source : string) : result Effect ParseError :=
  effect_of (S (2 * yaml_size value)) value source.

(** ** From steps to effects *)

Fixpoint step_to_top_level_effect (step : Step) : result Effect ParseError :=
  match step with
  | StepRule rule => Ok (EffWhen (rule_condition rule) (rule_effects rule) (rule_source_of rule))
  | StepPdp call on_deny on_allow =>
      let? on_allow := collect step_to_top_level_effect on_allow in
      let? on_deny := collect step_to_top_level_effect on_deny in
      Ok (EffPdp call on_allow on_deny)
  | StepPlugin name => Ok (EffPlugin name)
  | StepDelegate d => Ok (EffDelegate d)
  | StepElicit e => Ok (EffElicit e)
  | StepTaint label scopes => Ok (EffTaint label scopes)
  | StepRestrict spec => Ok (EffRestrict spec)
  end.
End Recursion.

Example parse_step_examples :
  let p := fun v => @parse_step ascii_platform ascii_compiler_lib v "s" in
  p (YString "run( rate_limiter )") = Ok (StepPlugin "rate_limiter")
  /\ p (YString "delegate(workday, target: hr, scopes: [a, 'b c'], on_error: continue)")
     = Ok (StepDelegate (mkDelegate "workday"
         (Some (YMapping [(YString "target", YString "hr");
            (YString "scopes", YSequence [YString "a"; YString "b c"])])) (Some "continue") "s"))
  /\ p (YMapping [(YString "when", YString "a"); (YString "do", YSequence [YString "args.x | redact"; YString "deny"])])
     = Ok (StepRule (mkRule (ECondition (IsTrue "a")) [EffFieldOp "args.x" [StRedact None]; EffDeny None None] "s"))
  /\ result_is_ok (p (YMapping [(YString "parallel", YSequence [YString "args.x | redact"])])) = false
  /\ p (YMapping [(YString "pdp(workload)", YMapping [(YString "action", YString "read");
         (YString "on_deny", YSequence [YString "deny"])])])
     = Ok (StepPdp (mkPdpCall (CustomDialect "workload") (YMapping [(YString "action", YString "read")]))
         [StepRule (mkRule EAlways [EffDeny None None] "s.on_deny[0]")] [])
  /\ result_is_ok (p (YMapping [(YString "whens", YNull)])) = false
  /\ p (YMapping [(YString "restrict", YMapping [(YString "allow_models", YSequence [YString "gpt-*"])])])
     = Ok (StepRestrict (mkRestrict (Some (SetLiteral ["gpt-*"])) None None None None ∅ OnEmptyDeny)).
Proof. vm_compute. repeat split. Qed.

(** ** Policy blocks ([ppe-apl-core/src/parser.rs], [compile_policy_block_value])

    A section's policy block, from its YAML value to a [CompiledRoute]. *)

Record AuthorizationYaml : Type := mkAuth {
  au_pre_invocation : option (list yaml);
  au_post_invocation : option (list yaml);
}.

Definition AuthorizationYaml_default : AuthorizationYaml := mkAuth None None.

(** The field maps are hash maps: a list of entries in the order the map iterates. *)
Record RouteYaml : Type := mkRouteYaml {
  ry_authorization : option AuthorizationYaml;
  ry_args : list (string * string);
  ry_result : list (string * string);
  ry_plugins : gmap string PluginOverride;
}.

(** The deserializers [serde] derives for the two structs. That of the route is given the
    reader of its [authorization] field. *)
Class SerdeDerive := {
  auth_from_value : yaml -> result AuthorizationYaml string;
  route_from_value : (yaml -> result (option AuthorizationYaml) string) -> yaml -> result RouteYaml string;
}.

Definition authorization_block `{SerdeDerive} (value : yaml) : result (option AuthorizationYaml) string :=
  if is_null value then Ok (Some AuthorizationYaml_default)
  else let? a := auth_from_value value in Ok (Some a).

Definition phase_empty (phase : option (list yaml)) : bool :=
  match phase with Some l => is_nil l | None => true end.

Definition reject_empty_authorization (location : string) (authorization : option AuthorizationYaml) :
    result unit ParseError :=
  if is_some_and (fun a => phase_empty (au_pre_invocation a) && phase_empty (au_post_invocation a)) authorization
  then Err (PeEmptyAuthorization location) else Ok tt.

Section Compile.
Context `{Platform, CompilerLib}.

Definition compile_declared_pipeline (half field chain : string) : result Pipeline ParseError :=
  let rule := half +:+ "." +:+ field +:+ ": " +:+ str_debug chain in
  let? p := result_map_err (fun e => PeRule rule (parse_error_display e)) (parse_pipeline chain) in
  if is_nil (stages p) then
    Err (PeRule rule ("`" +:+ half +:+ "." +:+ field +:+ ":` declares no stages. A field entry names an operation "
      +:+ "to run on the field, so an empty chain is a no-op the author did not mean; remove the entry or give it a stage"))
  else if deep_without_redact field (stages p) then Err (PeRule rule "`**` paths require a redact stage")
  else Ok p.

(** [for (i, entry) in entries.iter().enumerate() { ... push(step_to_top_level_effect(step)?) }]. *)
Fixpoint compile_phase (prefix : string) (i : nat) (entries : list yaml) : result (list Effect) ParseError :=
  match entries with
  | [] => Ok []
  | entry :: rest =>
      let? step := parse_step entry (prefix +:+ "[" +:+ show_nat i +:+ "]") in
      let? effect := step_to_top_level_effect step in
      let? effects := compile_phase prefix (S i) rest in
      Ok (effect :: effects)
  end.

Definition compile_fields (source half : string) (entries : list (string * string)) :
    result (list FieldRule) ParseError :=
  collect (fun '(field, chain) =>
    let? p := compile_declared_pipeline half field chain in
    Ok (mkFieldRule field p (source +:+ "." +:+ half +:+ "." +:+ field))) entries.

Definition elicits (effects : list Effect) : nat := list_sum (map count_elicits effects).

Definition reject_elicitations (source phase : string) (effects : list Effect) : result unit ParseError :=
  if (1 <? elicits effects)%nat then
    Err (PeRule (source +:+ "." +:+ phase)
      (phase +:+ " reaches " +:+ show_nat (elicits effects) +:+ " elicitation steps; at most one elicitation per "
       +:+ "phase is supported (they would share one retry id and resolve against each other)"))
  else Ok tt.

Definition compile_apl_blocks (source : string) (raw : RouteYaml) : result CompiledRoute ParseError :=
  let? _ := reject_empty_authorization source (ry_authorization raw) in
  let auth_pre := match ry_authorization raw with Some a => default [] (au_pre_invocation a) | None => [] end in
  let auth_post := match ry_authorization raw with Some a => default [] (au_post_invocation a) | None => [] end in
  let? pre := compile_phase (source +:+ ".pre_invocation") 0 auth_pre in
  let? post := compile_phase (source +:+ ".post_invocation") 0 auth_post in
  let? args := compile_fields source "args" (ry_args raw) in
  let? result_ := compile_fields source "result" (ry_result raw) in
  let? _ := reject_elicitations source "pre_invocation" pre in
  let? _ := reject_elicitations source "post_invocation" post in
  Ok (mkRoute source args pre result_ post (ry_plugins raw) None).

Definition compile_policy_block_value `{SerdeDerive} (source : string) (block : yaml) :
    result CompiledRoute ParseError :=
  if is_null block then Ok (CompiledRoute_new source)
  else
    let? raw := result_map_err PeYaml (route_from_value authorization_block block) in
    compile_apl_blocks source raw.
End Compile.
