(* ===== verification/ScanProps.v ===== *)
(** * The cutters cut at the separators

    Text is described by its pieces: bytes outside quotes, and quoted literals. On the text
    of pieces a cutter runs as a recursion over the pieces, and a run of pieces that is
    balanced, with no separator at depth zero, leaves its state alone. The text of a printed
    predicate is such a run. *)

From Stdlib Require Import Ascii String.
From S2P Require Import Prelude RustStr F64 Json Platform Rules Lexical Predicate LexerProps Scan.

Inductive piece : Type :=
| PB (b : ascii)
| PL (v : string).

Definition piece_text (p : piece) : string :=
  match p with PB b => str1 b | PL v => quote_literal v end.

Fixpoint render (ps : list piece) : string :=
  match ps with [] => "" | p :: rest => piece_text p +:+ render rest end.

(** Unquoted text. *)
Fixpoint text (s : string) : list piece :=
  match s with EmptyString => [] | String a s' => PB a :: text s' end.

Definition piece_ok (p : piece) : bool := match p with PB b => negb (is_quote b) | PL _ => true end.

Lemma render_app a b : render (a ++ b) = render a +:+ render b.
Proof. induction a as [|p a IH]; simpl; [done|]. by rewrite IH, append_assoc. Qed.

Lemma render_text s : render (text s) = s.
Proof. induction s as [|a s IH]; simpl; [done|]. by rewrite IH. Qed.

Lemma text_app s t : text (s +:+ t) = text s ++ text t.
Proof. induction s as [|a s IH]; [done|]. rewrite string_app_cons. simpl. by rewrite IH. Qed.

Lemma text_ok s : string_forall (fun a => negb (is_quote a)) s = true -> forallb piece_ok (text s) = true.
Proof. induction s as [|a s IH]; simpl; [done|]. intros [-> ?]%andb_true_iff. by apply IH. Qed.

(** ** The walk over pieces *)

Lemma quote_literal_reads s i v tail :
  drop_bytes i s = quote_literal v +:+ tail ->
  skip_literal s i = Ok (i + String.length (quote_literal v)).
Proof.
  intros E. unfold skip_literal, read_literal. rewrite E. unfold quote_literal. rewrite string_app_cons.
  change (is_quote squote) with true. cbv iota. rewrite append_assoc, literal_loop_escape. simpl. f_equal.
  rewrite string_app_length. simpl. lia.
Qed.

Section Walk.
Context {A R : Type}.
Variable s : string.
Variable body : nat -> A -> ScanItem -> Turn A R.
Variable finish : A -> R.

Lemma scan_skip x tail i a :
  scan_from s body finish (x +:+ tail) i (String.length x) a
  = scan_from s body finish tail (i + String.length x) 0 a.
Proof.
  revert i. induction x as [|c x IH]; intros i; [change ("" +:+ tail) with tail; simpl; by rewrite Nat.add_0_r|].
  rewrite string_app_cons. simpl. rewrite IH. f_equal. lia.
Qed.

(** The state after the pieces, when every turn goes on right behind its piece. *)
Fixpoint run_pieces (i : nat) (ps : list piece) (a : A) : option A :=
  match ps with
  | [] => Some a
  | p :: rest =>
      let e := i + String.length (piece_text p) in
      match body i a (match p with PB b => Plain b | PL _ => Quoted (Ok e) end) with
      | Go next a' => if (next =? e)%nat then run_pieces e rest a' else None
      | Break _ => None
      end
  end.

Lemma scan_pieces ps tail i a a' :
  forallb piece_ok ps = true -> drop_bytes i s = render ps +:+ tail -> run_pieces i ps a = Some a' ->
  scan_from s body finish (render ps +:+ tail) i 0 a
  = scan_from s body finish tail (i + String.length (render ps)) 0 a'.
Proof.
  revert i a. induction ps as [|p ps IH]; intros i a Hok E Hr.
  { injection Hr as ->. change (render [] +:+ tail) with tail. simpl. by rewrite Nat.add_0_r. }
  cbn [forallb] in Hok. apply andb_true_iff in Hok as [Hp Hok]. cbn [render] in *.
  rewrite append_assoc in *. set (rest := render ps +:+ tail) in *.
  assert (Hd : drop_bytes (i + String.length (piece_text p)) s = rest)
    by (by rewrite <- drop_bytes_add, E, drop_bytes_app).
  cbn [run_pieces] in Hr.
  assert (Hstep : forall c x, piece_text p = String c x ->
    item_at s i c = (match p with PB b => Plain b | PL _ => Quoted (Ok (i + String.length (piece_text p))) end)
    -> scan_from s body finish (piece_text p +:+ rest) i 0 a
       = scan_from s body finish tail (i + String.length (piece_text p +:+ render ps)) 0 a').
  { intros c x Ex Hi. rewrite Ex, string_app_cons. cbn [scan_from]. rewrite Hi.
    destruct (body i a _) as [next a1|]; [|done]. destruct (Nat.eqb_spec next (i + String.length (piece_text p))) as [->|]; [|done].
    rewrite Ex. cbn [String.length].
    replace (i + S (String.length x) - S i) with (String.length x) by lia. rewrite scan_skip.
    replace (S i + String.length x) with (i + String.length (piece_text p)) by (rewrite Ex; simpl; lia).
    unfold rest. rewrite (IH _ a1); [|done|done|done]. f_equal.
    rewrite string_app_length, Ex. simpl. lia. }
  destruct p as [b|v].
  - apply (Hstep b ""); [done|]. unfold item_at. simpl in Hp. by destruct (is_quote b).
  - apply (Hstep squote (escape v +:+ str1 squote)); [done|]. unfold item_at.
    change (is_quote squote) with true. by rewrite (quote_literal_reads s i v rest E).
Qed.

Lemma run_pieces_app i ps qs a :
  run_pieces i (ps ++ qs) a
  = match run_pieces i ps a with Some a' => run_pieces (i + String.length (render ps)) qs a' | None => None end.
Proof.
  revert i a. induction ps as [|p ps IH]; intros i a; simpl; [by rewrite Nat.add_0_r|].
  destruct (body i a _) as [next a'|]; [|done]. destruct (Nat.eqb next _); [|done].
  rewrite IH. rewrite string_app_length. by rewrite Nat.add_assoc.
Qed.
End Walk.

(** ** Depth *)

Section Level.
Variable opens closes stop : ascii -> bool.

(** The depth after the pieces, unless a bracket closes more than was opened or a separator
    stands at depth zero. *)
Fixpoint level (ps : list piece) (d : nat) : option nat :=
  match ps with
  | [] => Some d
  | PL _ :: rest => level rest d
  | PB b :: rest =>
      if opens b then level rest (S d)
      else if closes b then match d with O => None | S d' => level rest d' end
      else if stop b && (d =? 0)%nat then None else level rest d
  end.

Lemma level_app ps qs d : level (ps ++ qs) d = match level ps d with Some d' => level qs d' | None => None end.
Proof.
  revert d. induction ps as [|[b|v] ps IH]; intros d; simpl; [done| |done].
  destruct (opens b); [done|]. destruct (closes b); [by destruct d|]. by destruct (stop b && (d =? 0)%nat).
Qed.

(** A byte that is no bracket and no separator. *)
Definition inert (b : ascii) : bool := negb (opens b) && negb (closes b) && negb (stop b).

Lemma level_inert s d : string_forall inert s = true -> level (text s) d = Some d.
Proof.
  induction s as [|a s IH]; simpl; [done|]. intros [Ha Hs]%andb_true_iff. unfold inert in Ha.
  rewrite !andb_true_iff, !negb_true_iff in Ha. destruct Ha as [[-> ->] ->]. by apply IH.
Qed.
End Level.

(** Balanced text is balanced at every depth, and separators inside brackets do not count. *)
Lemma level_nested opens closes stop ps j j' k :
  level opens closes (fun _ => false) ps j = Some j' ->
  level opens closes stop ps (S (j + k)) = Some (S (j' + k)).
Proof.
  revert j. induction ps as [|[b|v] ps IH]; intros j; simpl; [by intros [= ->]| |apply IH].
  destruct (opens b); [apply (IH (S j))|]. destruct (closes b).
  - destruct j; [done|]. apply IH.
  - rewrite andb_false_r. apply IH.
Qed.

(** ** The cutters *)

Definition no_stop (_ : ascii) : bool := false.

Lemma dec_S (d : nat) : i32_saturating_dec (Z.of_nat (S d)) = Z.of_nat d.
Proof. unfold i32_saturating_dec. lia. Qed.

(** Pieces joined by a separator byte. *)
Fixpoint join_pieces (sep : ascii) (segs : list (list piece)) : list piece :=
  match segs with
  | [] => []
  | [p] => p
  | p :: rest => p ++ PB sep :: join_pieces sep rest
  end.

Lemma render_join_cons sep p q segs :
  render (join_pieces sep (p :: q :: segs)) = render p +:+ String sep (render (join_pieces sep (q :: segs))).
Proof. cbn [join_pieces]. by rewrite render_app. Qed.

Definition segment_cut (opens closes : ascii -> bool) (delim : ascii) (ps : list piece) : Prop :=
  forallb piece_ok ps = true /\ level opens closes (Ascii.eqb delim) ps 0 = Some 0.

Section Split.
Variable s : string.
Variable delim : ascii.
Hypothesis delim_plain : is_quote delim = false /\ is_open2 delim = false /\ is_close2 delim = false.

Lemma split_run ps i out start d d' :
  level is_open2 is_close2 (Ascii.eqb delim) ps d = Some d' ->
  run_pieces (split_body s delim) i ps (mkSplit out start (Z.of_nat d)) = Some (mkSplit out start (Z.of_nat d')).
Proof.
  revert i d. induction ps as [|[b|v] ps IH]; intros i d; simpl; [by intros [= ->]| |].
  - rewrite Nat.add_1_r, Nat.eqb_refl. destruct (is_open2 b).
    { replace (Z.of_nat d + 1)%Z with (Z.of_nat (S d)) by lia. apply IH. }
    destruct (is_close2 b); [destruct d; [done|]; rewrite dec_S; apply IH|].
    rewrite (Ascii.eqb_sym b delim). destruct (Ascii.eqb delim b); simpl; [|apply IH].
    destruct d; simpl; [done|]. intros Hl. by apply IH.
  - rewrite Nat.eqb_refl. apply IH.
Qed.

Lemma split_from segs i out :
  segs <> [] -> Forall (segment_cut is_open2 is_close2 delim) segs ->
  drop_bytes i s = render (join_pieces delim segs) ->
  let st := scan_from s (split_body s delim) id (render (join_pieces delim segs)) i 0 (mkSplit out i 0) in
  ss_out st ++ [drop_bytes (ss_start st) s] = out ++ map render segs.
Proof.
  revert i out. induction segs as [|p segs IH]; intros i out Hne Hs E; [done|].
  inversion Hs as [|? ? [Hok Hl] Hs']; subst. pose proof (split_run p i out i 0 0 Hl) as Hrun.
  destruct segs as [|q segs].
  - cbn [join_pieces] in *. change (Z.of_nat 0) with 0%Z in Hrun.
    assert (E' : drop_bytes i s = render p +:+ "") by (by rewrite string_app_nil_r).
    pose proof (scan_pieces s (split_body s delim) id p "" i _ _ Hok E' Hrun) as Hsc.
    rewrite string_app_nil_r in Hsc. cbv zeta. rewrite Hsc. simpl. by rewrite E.
  - rewrite render_join_cons in *. set (more := render (join_pieces delim (q :: segs))) in *.
    change (Z.of_nat 0) with 0%Z in Hrun.
    pose proof (scan_pieces s (split_body s delim) id p (String delim more) i _ _ Hok E Hrun) as Hsc.
    cbv zeta. rewrite Hsc. destruct delim_plain as (Hq & Ho & Hc).
    cbn [scan_from]. unfold item_at. rewrite Hq. unfold split_body at 1 3. rewrite Ho, Hc, Ascii.eqb_refl.
    cbn [andb Z.eqb]. rewrite Nat.sub_diag.
    assert (Hd : drop_bytes (S (i + String.length (render p))) s = more).
    { rewrite <- Nat.add_1_r, <- drop_bytes_add, <- drop_bytes_add, E, drop_bytes_app. simpl. by destruct more. }
    specialize (IH (S (i + String.length (render p)))
      (out ++ [slice i (i + String.length (render p)) s]) ltac:(done) Hs' Hd). cbv zeta in IH. rewrite IH.
    rewrite <- (assoc_L (++)). unfold slice. rewrite E.
    replace (i + String.length (render p) - i) with (String.length (render p)) by lia. by rewrite take_bytes_app.
Qed.
End Split.

(** [split_top_level] gives back the segments a separator was put between. *)
Lemma split_top_level_join delim segs :
  is_quote delim = false -> is_open2 delim = false -> is_close2 delim = false ->
  segs <> [] -> Forall (segment_cut is_open2 is_close2 delim) segs ->
  split_top_level (render (join_pieces delim segs)) delim = map render segs.
Proof. intros Hq Ho Hc Hne Hs. unfold split_top_level. by apply split_from. Qed.

(** ** Closing parentheses *)

Lemma close_run ps i d d' :
  level (Ascii.eqb "(") (Ascii.eqb ")") no_stop ps d = Some d' ->
  run_pieces close_body i ps (Z.of_nat (S d)) = Some (Z.of_nat (S d')).
Proof.
  revert i d. induction ps as [|[b|v] ps IH]; intros i d; cbn [level run_pieces close_body]; [by intros [= ->]| |].
  - change (String.length (piece_text (PB b))) with 1. rewrite Nat.add_1_r, (Ascii.eqb_sym b "("), (Ascii.eqb_sym b ")").
    destruct (Ascii.eqb "(" b).
    { rewrite Nat.eqb_refl. replace (Z.of_nat (S d) + 1)%Z with (Z.of_nat (S (S d))) by lia. apply IH. }
    destruct (Ascii.eqb ")" b).
    { destruct d as [|d]; [done|]. destruct (Z.eqb_spec (Z.of_nat (S (S d)) - 1) 0); [lia|].
      rewrite Nat.eqb_refl. replace (Z.of_nat (S (S d)) - 1)%Z with (Z.of_nat (S d)) by lia. apply IH. }
    rewrite Nat.eqb_refl. apply IH.
  - rewrite Nat.eqb_refl. apply IH.
Qed.

(** The parenthesis that closes the one at [from] stands right behind balanced text. *)
Lemma matching_close_at s from ps tail :
  drop_bytes from s = String "(" (render ps +:+ String ")" tail) ->
  forallb piece_ok ps = true -> level (Ascii.eqb "(") (Ascii.eqb ")") no_stop ps 0 = Some 0 ->
  matching_close s from = Some (S from + String.length (render ps)).
Proof.
  intros E Hok Hl. unfold matching_close. rewrite E. cbn [scan_from]. unfold item_at at 1.
  change (is_quote "(") with false. cbn [close_body]. change (Ascii.eqb "(" "(") with true. cbv iota.
  rewrite Nat.sub_diag. assert (E1 : drop_bytes (S from) s = render ps +:+ String ")" tail).
  { by rewrite <- Nat.add_1_r, <- drop_bytes_add, E. }
  pose proof (close_run ps (S from) 0 0 Hl) as Hrun.
  change (Z.of_nat 1) with 1%Z in Hrun. change (0 + 1)%Z with 1%Z.
  rewrite (scan_pieces s close_body (fun _ => None) ps (String ")" tail) (S from) 1%Z 1%Z Hok E1 Hrun).
  cbn [scan_from]. unfold item_at. change (is_quote ")") with false. done.
Qed.

(** ** Commas *)

Section Commas.
Variable s : string.

(** Over balanced text the current part grows by that text. *)
Lemma comma_run ps i parts current d d' tail :
  forallb piece_ok ps = true -> drop_bytes i s = render ps +:+ tail ->
  level is_open3 is_close3 (Ascii.eqb ",") ps d = Some d' ->
  run_pieces (comma_body s) i ps (mkComma parts current d) = Some (mkComma parts (current +:+ render ps) d').
Proof.
  revert i current d. induction ps as [|p ps IH]; intros i current d Hok E Hl.
  { cbn [level] in Hl. injection Hl as ->. cbn [run_pieces render]. by rewrite string_app_nil_r. }
  cbn [forallb] in Hok. apply andb_true_iff in Hok as [Hp Hok]. cbn [render] in *. rewrite append_assoc in E.
  assert (Hd : drop_bytes (i + String.length (piece_text p)) s = render ps +:+ tail)
    by (by rewrite <- drop_bytes_add, E, drop_bytes_app).
  rewrite <- append_assoc. cbn [run_pieces]. destruct p as [b|v]; cbn [level] in Hl.
  - change (String.length (piece_text (PB b))) with 1 in *. rewrite Nat.add_1_r in *. cbn [comma_body piece_text].
    destruct (is_open3 b); [rewrite Nat.eqb_refl; by apply IH|].
    destruct (is_close3 b); [destruct d; [done|]; rewrite Nat.eqb_refl; by apply IH|].
    rewrite (Ascii.eqb_sym b ","). destruct (Ascii.eqb "," b && (d =? 0)%nat); [done|].
    rewrite Nat.eqb_refl. by apply IH.
  - cbn [comma_body piece_text] in *. rewrite Nat.eqb_refl. unfold slice. rewrite E.
    replace (i + String.length (quote_literal v) - i) with (String.length (quote_literal v)) by lia.
    rewrite take_bytes_app. by apply IH.
Qed.

Definition comma_finish (st : CommaState) : result (list string) string :=
  if (cm_depth st =? 0)%nat then Ok (cm_parts st ++ [cm_current st])
  else Err "unbalanced brackets in delegate(...) args".

Lemma commas_from segs i parts :
  segs <> [] -> Forall (segment_cut is_open3 is_close3 ",") segs ->
  drop_bytes i s = render (join_pieces "," segs) ->
  scan_from s (comma_body s) comma_finish (render (join_pieces "," segs)) i 0 (mkComma parts "" 0)
  = Ok (parts ++ map render segs).
Proof.
  revert i parts. induction segs as [|p segs IH]; intros i parts Hne Hs E; [done|].
  inversion Hs as [|? ? [Hok Hl] Hs']; subst. destruct segs as [|q segs].
  - cbn [join_pieces] in *. assert (E' : drop_bytes i s = render p +:+ "") by (by rewrite string_app_nil_r).
    pose proof (comma_run p i parts "" 0 0 "" Hok E' Hl) as Hrun.
    pose proof (scan_pieces s (comma_body s) comma_finish p "" i _ _ Hok E' Hrun) as Hsc.
    rewrite string_app_nil_r in Hsc. rewrite Hsc. done.
  - rewrite render_join_cons in *. set (more := render (join_pieces "," (q :: segs))) in *.
    pose proof (comma_run p i parts "" 0 0 _ Hok E Hl) as Hrun.
    rewrite (scan_pieces s (comma_body s) comma_finish p (String "," more) i _ _ Hok E Hrun).
    cbn [scan_from]. unfold item_at. change (is_quote ",") with false. cbn [comma_body].
    change (is_open3 ",") with false. change (is_close3 ",") with false.
    change (Ascii.eqb "," "," && (0 =? 0)%nat) with true. cbv iota. rewrite Nat.sub_diag.
    assert (Hd : drop_bytes (S (i + String.length (render p))) s = more).
    { rewrite <- Nat.add_1_r, <- drop_bytes_add, <- drop_bytes_add, E, drop_bytes_app. simpl. by destruct more. }
    change ("" +:+ render p) with (render p).
    rewrite (IH (S (i + String.length (render p))) (parts ++ [render p])) by done.
    by rewrite <- (assoc_L (++)).
Qed.
End Commas.

(** [split_top_level_commas] gives back the parts. *)
Lemma split_commas_join segs :
  segs <> [] -> Forall (segment_cut is_open3 is_close3 ",") segs ->
  split_top_level_commas (render (join_pieces "," segs)) = Ok (map render segs).
Proof. intros Hne Hs. unfold split_top_level_commas. by apply (commas_from _ segs 0 []). Qed.

(** ** Colons *)

(** A byte that is no square bracket: the rule cutter counts the two kinds apart. *)
Definition no_square (p : piece) : bool :=
  match p with PB b => negb (Ascii.eqb b "[") && negb (Ascii.eqb b "]") | PL _ => true end.

Lemma colon_run ps i last d d' :
  forallb no_square ps = true -> level (Ascii.eqb "(") (Ascii.eqb ")") (Ascii.eqb ":") ps d = Some d' ->
  run_pieces colon_body i ps (mkColon (Z.of_nat d) 0 last) = Some (mkColon (Z.of_nat d') 0 last).
Proof.
  revert i d. induction ps as [|[b|v] ps IH]; intros i d Hok; cbn [forallb no_square level run_pieces colon_body] in *;
    [by intros [= ->]| |].
  - rewrite !andb_true_iff, !negb_true_iff in Hok. destruct Hok as [[Ho Hc] Hok].
    change (String.length (piece_text (PB b))) with 1. rewrite Nat.add_1_r, Nat.eqb_refl, Ho, Hc.
    rewrite (Ascii.eqb_sym b "("), (Ascii.eqb_sym b ")"), (Ascii.eqb_sym b ":").
    destruct (Ascii.eqb "(" b).
    { replace (Z.of_nat d + 1)%Z with (Z.of_nat (S d)) by lia. by apply IH. }
    destruct (Ascii.eqb ")" b); [destruct d; [done|]; rewrite dec_S; by apply IH|].
    destruct (Ascii.eqb ":" b); simpl; [|by apply IH]. destruct d; simpl; [done|]. intros Hl. by apply IH.
  - rewrite Nat.eqb_refl. by apply IH.
Qed.

(** Text without a colon outside literals and parentheses has no action. *)
Lemma split_predicate_none ps :
  forallb piece_ok ps = true -> forallb no_square ps = true ->
  level (Ascii.eqb "(") (Ascii.eqb ")") (Ascii.eqb ":") ps 0 = Some 0 ->
  split_predicate_action (render ps) = None.
Proof.
  intros Hok Hsq Hl. unfold split_predicate_action.
  assert (E : drop_bytes 0 (render ps) = render ps +:+ "") by (by rewrite string_app_nil_r).
  pose proof (scan_pieces (render ps) colon_body cs_last ps "" 0 _ _ Hok E (colon_run ps 0 None 0 0 Hsq Hl)) as Hsc.
  rewrite string_app_nil_r in Hsc. change (Z.of_nat 0) with 0%Z in Hsc. by rewrite Hsc.
Qed.

Lemma split_predicate_at ps qs :
  forallb piece_ok (ps ++ qs) = true -> forallb no_square (ps ++ qs) = true ->
  level (Ascii.eqb "(") (Ascii.eqb ")") (Ascii.eqb ":") ps 0 = Some 0 ->
  level (Ascii.eqb "(") (Ascii.eqb ")") (Ascii.eqb ":") qs 0 = Some 0 ->
  split_predicate_action (render ps +:+ String ":" (render qs)) = Some (trim (render ps), trim (render qs)).
Proof.
  rewrite !forallb_app, !andb_true_iff. intros [Hp Hq] [Sp Sq] Lp Lq. unfold split_predicate_action.
  set (s := render ps +:+ String ":" (render qs)).
  pose proof (scan_pieces s colon_body cs_last ps (String ":" (render qs)) 0 _ _ Hp eq_refl
    (colon_run ps 0 None 0 0 Sp Lp)) as Hsc. change (Z.of_nat 0) with 0%Z in Hsc.
  assert (Ed : drop_bytes (S (String.length (render ps))) s = render qs).
  { unfold s. rewrite <- Nat.add_1_r, <- drop_bytes_add, drop_bytes_app. simpl. by destruct (render qs). }
  assert (E : drop_bytes (S (String.length (render ps))) s = render qs +:+ "") by (by rewrite string_app_nil_r).
  pose proof (scan_pieces s colon_body cs_last qs "" _ _ _ Hq E
    (colon_run qs (S (String.length (render ps))) (Some (String.length (render ps))) 0 0 Sq Lq)) as Hsq.
  change (Z.of_nat 0) with 0%Z in Hsq. rewrite string_app_nil_r in Hsq.
  assert (Hall : scan_from s colon_body cs_last s 0 0 (mkColon 0 0 None) = Some (String.length (render ps))).
  { unfold s at 2. rewrite Hsc. cbn [scan_from]. unfold item_at. change (is_quote ":") with false.
    cbn [colon_body]. rewrite Nat.sub_diag. change (0 + String.length (render ps)) with (String.length (render ps)).
    exact Hsq. }
  rewrite Hall, Ed. unfold s. by rewrite take_bytes_app.
Qed.

(** ** The pieces of spelled tokens

    The text of a printed predicate, as pieces: balanced, so the cutters step over it. *)

(** A byte that is neither a bracket nor a quote. *)
Definition quiet (b : ascii) : bool := negb (is_open3 b) && negb (is_close3 b) && negb (is_quote b).

(** A bracket pair a cutter counts. *)
Record Pair : Type := mkPair { opens : ascii -> bool; closes : ascii -> bool }.

Record pair_ok (p : Pair) : Prop := {
  pair_open : opens p "("%char = true;
  pair_close : opens p ")"%char = false /\ closes p ")"%char = true;
  pair_quiet : forall b, quiet b = true -> opens p b = false /\ closes p b = false;
}.

Definition parens : Pair := mkPair (Ascii.eqb "(") (Ascii.eqb ")").
Definition brackets2 : Pair := mkPair is_open2 is_close2.
Definition brackets3 : Pair := mkPair is_open3 is_close3.

Lemma parens_ok : pair_ok parens.
Proof. by split; [| |intros [[] [] [] [] [] [] [] []]]. Qed.
Lemma brackets2_ok : pair_ok brackets2.
Proof. by split; [| |intros [[] [] [] [] [] [] [] []]]. Qed.
Lemma brackets3_ok : pair_ok brackets3.
Proof. by split; [| |intros [[] [] [] [] [] [] [] []]]. Qed.

(** ** Tokens as pieces *)

Definition tok_pieces (t : Tok) : list piece :=
  match t with TStringLit s => [PL s] | _ => text (spell t) end.

Definition spell_pieces (ts : list Tok) : list piece := join_pieces " " (map tok_pieces ts).

Lemma render_tok t : render (tok_pieces t) = spell t.
Proof. destruct t; try apply render_text. simpl. apply string_app_nil_r. Qed.

Lemma render_spell ts : render (spell_pieces ts) = spell_all ts.
Proof.
  unfold spell_pieces. induction ts as [|t ts IH]; [done|]. destruct ts as [|t' ts].
  - apply render_tok.
  - cbn [map] in *. rewrite render_join_cons, IH, render_tok. done.
Qed.

Lemma segment_char_quiet a : is_segment_char a = true -> quiet a = true.
Proof. destruct a as [[] [] [] [] [] [] [] []]; first [discriminate|reflexivity]. Qed.

Lemma digit_quiet a : is_ascii_digit a = true -> quiet a = true.
Proof. destruct a as [[] [] [] [] [] [] [] []]; first [discriminate|reflexivity]. Qed.

(** What holds of the dot and of the bytes of every segment holds of a dotted path. *)
Lemma split_forall (q : ascii -> bool) s :
  q "."%char = true -> forallb (string_forall q) (split "." s) = true -> string_forall q s = true.
Proof.
  intros Hd. induction s as [|a s IH]; [done|]. simpl. destruct (Ascii.eqb_spec a ".") as [->|Ha].
  - cbn [forallb]. intros [_ Hs]%andb_true_iff. by rewrite Hd, IH.
  - pose proof (split_ne_nil "." s) as Hne. destruct (split "." s) as [|p ps]; [done|].
    cbn [forallb string_forall] in *. rewrite !andb_true_iff in *. intros [[Ha' Hp] Hps]. naive_solver.
Qed.

Lemma segments_forall (q : ascii -> bool) s :
  q "."%char = true -> (forall a, is_segment_char a = true -> q a = true) ->
  forallb segment_ok (split "." s) = true -> string_forall q s = true.
Proof.
  intros Hd Hq Hs. apply split_forall; [done|]. rewrite forallb_true_iff in *. eapply Forall_impl; [exact Hs|].
  intros x [_ Hx]%andb_true_iff. eapply string_forall_impl; [exact Hq|exact Hx].
Qed.

Lemma split_quiet s : forallb segment_ok (split "." s) = true -> string_forall quiet s = true.
Proof. apply segments_forall; [done|apply segment_char_quiet]. Qed.

(** How a token moves the depth. *)
Definition tok_level (t : Tok) (d : nat) : option nat :=
  match t with
  | TLParen => Some (S d)
  | TRParen => match d with O => None | S d' => Some d' end
  | _ => Some d
  end.

Fixpoint toks_level (ts : list Tok) (d : nat) : option nat :=
  match ts with
  | [] => Some d
  | t :: ts' => match tok_level t d with Some d' => toks_level ts' d' | None => None end
  end.

Lemma spell_quiet t :
  tok_ok t = true -> t <> TLParen -> t <> TRParen -> (forall s, t <> TStringLit s) ->
  string_forall quiet (spell t) = true.
Proof.
  intros Hok Hl Hr Hs. destruct t; try done; cbn [spell] in *.
  - unfold tok_ok, key_ok in Hok. rewrite !andb_true_iff in Hok. destruct Hok as [[[Hk _] _] _]. by apply split_quiet.
  - by destruct (Hs s).
  - destruct (show_Z_shape i) as (neg & d & -> & _ & Hd & _).
    assert (Hq : string_forall quiet d = true) by (eapply string_forall_impl; [apply digit_quiet|exact Hd]).
    destruct neg; done.
  - by destruct b.
Qed.

Lemma tok_pieces_ok t : tok_ok t = true -> forallb piece_ok (tok_pieces t) = true.
Proof.
  intros Hok. assert (Ht : (exists s, t = TStringLit s) \/ forall s, t <> TStringLit s) by (destruct t; eauto; by right).
  destruct Ht as [[s ->]|Ht]; [done|].
  replace (tok_pieces t) with (text (spell t)) by (destruct t; try done; by destruct (Ht s)). apply text_ok.
  destruct (decide (t = TLParen)) as [->|Hl]; [done|]. destruct (decide (t = TRParen)) as [->|Hr]; [done|].
  eapply string_forall_impl; [|by apply spell_quiet]. unfold quiet. intros a. rewrite !andb_true_iff. naive_solver.
Qed.

Lemma join_pieces_ok sep segs :
  is_quote sep = false -> Forall (fun ps => forallb piece_ok ps = true) segs ->
  forallb piece_ok (join_pieces sep segs) = true.
Proof.
  intros Hs. induction 1 as [|ps segs Hps Hsegs IH]; [done|]. destruct segs as [|q segs]; [done|].
  change (join_pieces sep (ps :: q :: segs)) with (ps ++ PB sep :: join_pieces sep (q :: segs)).
  rewrite forallb_app, Hps. cbn [forallb]. rewrite IH. simpl. by rewrite Hs.
Qed.

Lemma spell_pieces_ok ts : forallb tok_ok ts = true -> forallb piece_ok (spell_pieces ts) = true.
Proof.
  intros Hok. apply join_pieces_ok; [done|]. rewrite forallb_true_iff in Hok.
  apply Forall_map. eapply Forall_impl; [exact Hok|]. apply tok_pieces_ok.
Qed.

Section Levels.
Variable p : Pair.
Hypothesis Hp : pair_ok p.

Lemma level_quiet stop s d :
  string_forall (fun b => quiet b && negb (stop b)) s = true -> level (opens p) (closes p) stop (text s) d = Some d.
Proof.
  intros Hs. apply level_inert. eapply string_forall_impl; [|exact Hs]. intros b [Hq Hb]%andb_true_iff.
  unfold inert. destruct (pair_quiet p Hp b Hq) as [-> ->]. done.
Qed.

Lemma tok_pieces_level t d :
  tok_ok t = true -> level (opens p) (closes p) no_stop (tok_pieces t) d = tok_level t d.
Proof.
  intros Hok. pose proof (spell_quiet t Hok) as Hq.
  assert (Hplain : string_forall quiet (spell t) = true ->
    level (opens p) (closes p) no_stop (text (spell t)) d = Some d).
  { intros Hs. apply level_quiet. eapply string_forall_impl; [|exact Hs]. simpl. by intros a ->. }
  destruct t; try (apply Hplain, Hq; done); simpl.
  - done.
  - by rewrite (pair_open p Hp).
  - destruct (pair_close p Hp) as [-> ->]. done.
Qed.

Lemma spell_level ts d :
  forallb tok_ok ts = true -> level (opens p) (closes p) no_stop (spell_pieces ts) d = toks_level ts d.
Proof.
  unfold spell_pieces. revert d. induction ts as [|t ts IH]; intros d; [done|].
  cbn [forallb]. intros [Ht Hts]%andb_true_iff. destruct ts as [|t' ts].
  - cbn [map join_pieces toks_level]. rewrite tok_pieces_level by done. by destruct (tok_level t d).
  - change (join_pieces " " (map tok_pieces (t :: t' :: ts)))
      with (tok_pieces t ++ PB " " :: join_pieces " " (map tok_pieces (t' :: ts))).
    rewrite level_app, tok_pieces_level by done. cbn [toks_level]. destruct (tok_level t d) as [d'|]; [|done].
    cbn [level]. destruct (pair_quiet p Hp " "%char eq_refl) as [-> ->]. simpl. by apply IH.
Qed.
End Levels.

(** ** Printed predicates are balanced *)

Lemma toks_level_app a b d :
  toks_level (a ++ b) d = match toks_level a d with Some d' => toks_level b d' | None => None end.
Proof. revert d. induction a as [|t a IH]; intros d; simpl; [done|]. by destruct (tok_level t d). Qed.

Lemma sep_by_level sep parts d :
  tok_level sep d = Some d -> Forall (fun p => toks_level p d = Some d) parts ->
  toks_level (sep_by sep parts) d = Some d.
Proof.
  intros Hs. induction 1 as [|q parts Hq Hparts IH]; [done|]. destruct parts as [|r parts]; [done|].
  change (sep_by sep (q :: r :: parts)) with (q ++ sep :: sep_by sep (r :: parts)).
  rewrite toks_level_app, Hq. cbn [toks_level]. by rewrite Hs.
Qed.

Lemma paren_level b ts d : (forall d, toks_level ts d = Some d) -> toks_level (paren_if b ts) d = Some d.
Proof. intros Ht. destruct b; [|done]. simpl. by rewrite toks_level_app, Ht. Qed.

Lemma print_level e lvl d : toks_level (print lvl e) d = Some d.
Proof.
  revert lvl d. induction e as [c|parts IH|parts IH|e IH|] using Expression_ind; intros lvl d.
  - destruct c as [k op v|k|k|k|k1 k2 []]; try done. by destruct op, v.
  - cbn [print]. apply paren_level. intros d'. apply sep_by_level; [done|].
    apply Forall_map. eapply Forall_impl; [exact IH|]. simpl. auto.
  - cbn [print]. apply paren_level. intros d'. apply sep_by_level; [done|].
    apply Forall_map. eapply Forall_impl; [exact IH|]. simpl. auto.
  - apply IH.
  - done.
Qed.

(** A printed predicate, for any bracket pair: the depth after it is the depth before. *)
Lemma printed_level p e lvl d :
  pair_ok p -> forallb tok_ok (print lvl e) = true ->
  level (opens p) (closes p) no_stop (spell_pieces (print lvl e)) d = Some d.
Proof. intros Hp Hok. rewrite spell_level by done. apply print_level. Qed.
