(* ===== verification/CompileProps.v ===== *)
(** * What the compiler produces is well formed, and it always answers

    [route_wf] is the type of compiled policy: the conditions the evaluator relies on and
    the author cannot see from the text. Every parser below is shown to end in a value of
    its type or in an error of the source, never in the bound of a recursion. *)

From Stdlib Require Import Ascii String DecimalString.
From S2P Require Import Prelude RustStr F64 Json Platform Attributes Rules Constraint Step Lexical Predicate Eval.
From S2P Require Import Effects LexerProps ParserTotal Scan Stages RuleParser StepParser.

(** ** The type of compiled policy *)

Definition non_empty (s : string) : bool := negb (String.eqb s "").

Definition bound_ok (lo : Z) (o : option Z) : bool :=
  match o with Some z => (lo <=? z)%Z && in_i64 z | None => true end.

Definition one_bound (min max : option Z) : bool := negb (is_none min && is_none max).

Definition stage_wf (st : Stage) : bool :=
  match st with
  | StValidate _ => false
  | StLength min max => one_bound min max && bound_ok 0 min && bound_ok 0 max
  | StRange min max => one_bound min max && bound_ok i64_min min && bound_ok i64_min max
  | StEnum values => negb (is_nil values) && forallb non_empty values
  | StMask n => (0 <=? n)%Z && (n <=? usize_max)%Z
  | StTaint label scopes => non_empty label && negb (is_nil scopes)
  | StPlugin name => non_empty name
  | StType _ | StRegex _ | StRedact _ | StOmit | StHash | StScan _ => true
  end.

Definition chain_wf (path : string) (l : list Stage) : bool :=
  negb (is_nil l) && forallb stage_wf l && negb (deep_without_redact path l).

(** An effect inside a rule: no condition and no decision point call. *)
Fixpoint body_wf `{CompilerLib} (e : Effect) : bool :=
  match e with
  | EffAllow | EffDeny _ _ | EffElicit _ => true
  | EffPlugin name => non_empty name
  | EffDelegate d => non_empty (dg_plugin_name d)
  | EffTaint label scopes => non_empty label && negb (is_nil scopes)
  | EffRestrict spec => negb (restrict_is_empty spec)
  | EffFieldOp path l => is_valid_field_path path && chain_wf path l
  | EffSequential es => negb (is_nil es) && forallb body_wf es
  | EffParallel es =>
      negb (is_nil es) && forallb body_wf es && forallb (fun e => negb (contains_mutation e)) es
  | EffWhen _ _ _ | EffPdp _ _ _ => false
  end.

(** An effect of a phase, or of the reactions of a decision point call. *)
Fixpoint top_wf `{CompilerLib} (e : Effect) : bool :=
  match e with
  | EffWhen _ body _ => negb (is_nil body) && forallb body_wf body
  | EffPdp _ on_allow on_deny => forallb top_wf on_allow && forallb top_wf on_deny
  | EffPlugin _ | EffDelegate _ | EffElicit _ | EffTaint _ _ | EffRestrict _ => body_wf e
  | EffAllow | EffDeny _ _ | EffFieldOp _ _ | EffSequential _ | EffParallel _ => false
  end.

Definition phase_wf `{CompilerLib} (effects : list Effect) : Prop :=
  forallb top_wf effects = true /\ elicits effects <= 1.

Definition field_wf (f : FieldRule) : bool := chain_wf (fr_field f) (stages (fr_pipeline f)).

Definition route_wf `{CompilerLib} (r : CompiledRoute) : Prop :=
  phase_wf (pre_invocation r) /\ phase_wf (post_invocation r)
  /\ forallb field_wf (rt_args r) = true /\ forallb field_wf (rt_result r) = true.

(** ** Results that keep a promise *)

(** The value satisfies [P]; the error satisfies [Q]. *)
Definition lands {A E} (P : A -> Prop) (Q : E -> Prop) (r : result A E) : Prop :=
  match r with Ok a => P a | Err e => Q e end.

Definition anything {E} (_ : E) : Prop := True.
Definition source_error (e : ParseError) : Prop := e <> OutOfFuel.

Lemma lands_bind {A B E} (P : A -> Prop) (P' : B -> Prop) (Q : E -> Prop) r (k : A -> result B E) :
  lands P Q r -> (forall a, P a -> lands P' Q (k a)) -> lands P' Q (let? a := r in k a).
Proof. destruct r; simpl; auto. Qed.

Lemma lands_map_err {A E F} (P : A -> Prop) (Q : F -> Prop) (f : E -> F) r :
  lands P anything r -> (forall e, Q (f e)) -> lands P Q (result_map_err f r).
Proof. destruct r; simpl; auto. Qed.

Lemma lands_weaken {A E} (P P' : A -> Prop) (Q : E -> Prop) r :
  lands P Q r -> (forall a, P a -> P' a) -> lands P' Q r.
Proof. destruct r; simpl; auto. Qed.

Lemma lands_any {A E} (P : A -> Prop) (Q : E -> Prop) r : lands P Q r -> lands P anything r.
Proof. by destruct r. Qed.

Lemma lands_trivial {A E} (r : result A E) : lands anything anything r.
Proof. by destruct r. Qed.

Lemma lands_collect {A B E} (P : B -> Prop) (Q : E -> Prop) (f : A -> result B E) l :
  (forall x, x ∈ l -> lands P Q (f x)) -> lands (Forall P) Q (collect f l).
Proof.
  induction l as [|x l IH]; intros Hf; simpl; [constructor|].
  eapply lands_bind; [apply Hf; left|]. intros y Hy. eapply lands_bind; [apply IH; set_solver|].
  intros ys Hys. by constructor.
Qed.

Lemma collect_length {A B E} (f : A -> result B E) l ys : collect f l = Ok ys -> length ys = length l.
Proof.
  revert ys. induction l as [|x l IH]; intros ys; simpl; [by intros [= <-]|].
  destruct (f x); [|done]. destruct (collect f l); [|done]. intros [= <-]. simpl. by rewrite IH.
Qed.

(** Walk a computation: bind with the known promise of its head, or case analysis. *)
Create HintDb lands discriminated.
#[export] Hint Resolve lands_trivial : lands.
#[export] Hint Extern 0 (anything _) => exact I : lands.
Ltac lands_step :=
  match goal with
  | |- lands _ _ (Ok _) => simpl
  | |- lands _ source_error (Err _) => done
  | |- lands _ anything (Err _) => done
  | |- lands _ _ (result_map_err _ _) => eapply lands_map_err; [|done]
  | |- lands _ _ (match ?r with Ok _ => _ | Err _ => _ end) =>
      eapply lands_bind; [first [solve [eauto with lands]
        | eapply lands_map_err; [solve [eauto with lands]|done]]|intros]
  | |- lands _ _ (match ?x with _ => _ end) => destruct x eqn:?
  end.
Ltac lands_walk := repeat lands_step; eauto with lands.

(** ** Stages *)

Lemma eqb_non_empty s : String.eqb s "" = false -> non_empty s = true.
Proof. unfold non_empty. by intros ->. Qed.

Lemma parse_i64_range s n : parse_i64 s = Some n -> in_i64 n = true.
Proof.
  unfold parse_i64, then_some. intros Hp.
  destruct (match strip_prefix "-" s with Some _ => _ | None => _ end) as [z|]; [|done].
  destruct (in_i64 z) eqn:E; congruence.
Qed.

Lemma parse_usize_range s n : parse_usize s = Some n -> (0 <= n <= usize_max)%Z.
Proof.
  unfold parse_usize, parse_digits, then_some. destruct (NilZero.uint_of_string _) as [d|]; [|done].
  destruct (Z.leb_spec (Z.of_N (N.of_uint d)) usize_max); [|done]. intros [= <-]. lia.
Qed.

Lemma parse_numeric_range s n : parse_numeric_with_suffix s = Some n -> in_i64 n = true.
Proof.
  unfold parse_numeric_with_suffix, checked_mul, then_some. destruct (String.eqb _ _); [done|].
  destruct (match strip_either "k" "K" _ with Some _ => _ | None => _ end) as [num mult].
  destruct (parse_i64 num) as [z|]; [|done]. destruct (in_i64 (z * mult)) eqn:E; congruence.
Qed.

Lemma parse_bound_range s o : parse_bound s = Some o -> bound_ok i64_min o = true.
Proof.
  unfold parse_bound. destruct (String.eqb s ""); [by intros [= <-]|].
  destruct (parse_numeric_with_suffix s) as [n|] eqn:E; [|done]. intros [= <-]. simpl.
  apply parse_numeric_range in E as E'. rewrite E', andb_true_r. unfold in_i64 in E'.
  by apply andb_true_iff in E' as [-> _].
Qed.

Lemma parse_range_bounds s min max :
  parse_range_inner s = Some (min, max) ->
  one_bound min max = true /\ bound_ok i64_min min = true /\ bound_ok i64_min max = true.
Proof.
  unfold parse_range_inner. destruct (split_dotdot s) as [[l r]|]; [|done].
  destruct (parse_bound (trim l)) as [mn|] eqn:El; [|done].
  destruct (parse_bound (trim r)) as [mx|] eqn:Er; [|done].
  apply parse_bound_range in El, Er. intros Hm.
  assert (min = mn /\ max = mx) as [-> ->] by (destruct mn, mx; naive_solver).
  split; [|done]. by destruct mn, mx.
Qed.

Lemma to_usize_bound src o :
  bound_ok i64_min o = true ->
  lands (fun o' => o' = o /\ bound_ok 0 o = true) source_error (transpose (to_usize src) o).
Proof.
  destruct o as [z|]; [|done]. intros Hb. simpl. unfold to_usize. destruct (Z.ltb_spec z 0); [done|].
  simpl. split; [done|]. simpl in Hb. rewrite andb_true_iff in *. destruct Hb as [_ ->]. split; [lia|done].
Qed.

Lemma filter_non_empty l : forallb non_empty (List.filter (fun s => negb (String.eqb s "")) l) = true.
Proof. apply forallb_forall. intros x [_ Hx]%filter_In. exact Hx. Qed.

Lemma split_top_level_ne s d : split_top_level s d <> [].
Proof. unfold split_top_level. by destruct (ss_out _). Qed.

Definition taint_stage (st : Stage) : Prop :=
  exists label scopes, st = StTaint label scopes /\ stage_wf st = true.

Lemma parse_taint_wf args src : lands taint_stage source_error (parse_taint args src).
Proof.
  unfold parse_taint. destruct (split_top_level args ",") as [|first more]; [done|].
  destruct (String.eqb (trim first) "") eqn:El; [done|].
  apply lands_bind with (P := fun scopes => is_nil scopes = false).
  - assert (Hs : forall s, lands anything source_error (parse_taint_scope s src)).
    { intros s. unfold parse_taint_scope. lands_walk. }
    destruct more as [|m more]; [done|]. destruct (strip_brackets _ _ _) as [inner|].
    + pose proof (split_top_level_ne inner ",") as Hne. destruct (split_top_level inner ",") as [|x xs]; [done|].
      simpl. eapply lands_bind; [apply Hs|]. intros y _.
      eapply lands_bind; [apply lands_collect; intros; apply Hs|]. done.
    + eapply lands_bind; [apply Hs|]. done.
  - intros scopes Hs. simpl. exists (trim first), scopes. split; [done|]. simpl.
    by rewrite Hs, eqb_non_empty.
Qed.

Lemma stage_wf_taint st : taint_stage st -> stage_wf st = true.
Proof. by intros (l & sc & -> & ?). Qed.

Section Parsers.
Context `{Platform, CompilerLib}.

Lemma parse_stage_wf src : lands (fun st => stage_wf st = true) source_error (parse_stage src).
Proof.
  unfold parse_stage. destruct (try_parse_range (trim src)) as [st|] eqn:Er.
  { unfold try_parse_range in Er. destruct (split_dotdot (trim src)); [|done].
    destruct (trim src) as [|a s]; [done|]. destruct (_ || _); [done|].
    destruct (parse_range_inner _) as [[mn mx]|] eqn:Ei; [|done]. injection Er as <-.
    apply parse_range_bounds in Ei as (Ha & Hb & Hc). simpl. by rewrite Ha, Hb, Hc. }
  destruct (split_head_args (trim src)) as [[head [a|]]|]; [| |done].
  - unfold call_stage. repeat (case_match; [|]).
    + unfold parse_stage_mask. destruct (parse_usize (trim a)) as [n|] eqn:E; [|done].
      apply parse_usize_range in E. simpl. rewrite andb_true_iff, !Z.leb_le. lia.
    + unfold parse_stage_redact_cond. by destruct (parse_predicate a).
    + done.
    + done.
    + unfold parse_stage_len. destruct (parse_range_inner a) as [[mn mx]|] eqn:E; [|done].
      apply parse_range_bounds in E as (Ha & Hb & Hc).
      eapply lands_bind; [by apply to_usize_bound|]. intros ? [-> Hmn].
      eapply lands_bind; [by apply to_usize_bound|]. intros ? [-> Hmx]. simpl. by rewrite Ha, Hmn, Hmx.
    + unfold parse_stage_enum. eapply lands_bind.
      { apply lands_collect with (P := anything). intros. eapply lands_map_err; [apply lands_trivial|done]. }
      intros vs _. pose proof (filter_non_empty vs) as Hv. destruct (List.filter _ vs) as [|v vs']; [done|].
      simpl. exact Hv.
    + unfold parse_stage_regex. lands_walk.
    + done.
    + done.
    + unfold parse_stage_plugin. destruct (String.eqb (trim a) "") eqn:E; [done|]. by apply eqb_non_empty.
    + eapply lands_weaken; [apply parse_taint_wf|]. apply stage_wf_taint.
    + done.
  - destruct (bare_stage head) as [st|] eqn:E; [|done]. unfold bare_stage in E.
    repeat (destruct (String.eqb head _) in E; [by injection E as <-|]). done.
Qed.
#[local] Hint Resolve parse_stage_wf : lands.

Lemma pipeline_segments_wf src segs p :
  forallb stage_wf (stages p) = true ->
  lands (fun p' => forallb stage_wf (stages p') = true) source_error (pipeline_segments src segs p).
Proof.
  revert p. induction segs as [|seg segs IH]; intros p Hp; simpl; [done|].
  destruct (String.eqb (trim seg) ""); [done|]. eapply lands_bind; [apply parse_stage_wf|].
  intros st Hst. apply IH. unfold Pipeline_push. simpl. rewrite forallb_app, Hp. simpl. by rewrite Hst.
Qed.

Lemma parse_pipeline_wf src :
  lands (fun p => forallb stage_wf (stages p) = true) source_error (parse_pipeline src).
Proof. unfold parse_pipeline. destruct (String.eqb _ _); [done|]. by apply pipeline_segments_wf. Qed.

Lemma compile_declared_wf half field chain :
  lands (fun p => chain_wf field (stages p) = true) source_error (compile_declared_pipeline half field chain).
Proof.
  unfold compile_declared_pipeline.
  eapply lands_bind; [eapply lands_map_err; [eapply lands_any, parse_pipeline_wf|done]|].
  intros p Hp. simpl in Hp. unfold chain_wf. destruct (is_nil (stages p)) eqn:En; [done|].
  destruct (deep_without_redact _ _) eqn:Ed; [done|]. simpl. by rewrite En, Ed, Hp.
Qed.
End Parsers.

(** ** Rules and step strings *)

Definition step_ok `{CompilerLib} (s : Step) : Prop :=
  exists e, step_to_top_level_effect s = Ok e /\ top_wf e = true.

Section Steps.
Context `{Platform, CompilerLib}.

Definition effects_wf (es : list Effect) : Prop := es <> [] /\ forallb body_wf es = true.

Lemma rule_step_ok c es src : effects_wf es -> step_ok (StepRule (mkRule c es src)).
Proof. intros [Hn Hes]. eexists. split; [done|]. simpl. rewrite Hes. by destruct es. Qed.

Lemma deny_call_wf s rule :
  lands (fun o => forall e, o = Some e -> body_wf e = true) source_error (try_parse_deny_call s rule).
Proof.
  assert (Hs : forall o, lands (E := ParseError) anything source_error
      (transpose (fun p => strip_string_literal (trim p) rule) o)).
  { intros [p|]; [|done]. simpl. eapply lands_bind with (P := anything); [|done].
    unfold strip_string_literal. lands_walk. }
  unfold try_parse_deny_call. destruct (negb _); [done|]. destruct (extract_call_args s "deny"); [|done].
  eapply lands_bind; [eapply lands_map_err; [apply lands_trivial|done]|]. intros parts _.
  eapply lands_bind; [apply Hs|]. intros reason _. eapply lands_bind; [apply Hs|]. intros code _.
  destruct (tail (tail parts)); [|done]. by intros e [= <-].
Qed.

Lemma bare_action_wf s es : try_bare_action s = Some es -> effects_wf es.
Proof. unfold try_bare_action. repeat (case_match; [by intros [= <-]|]). done. Qed.

Lemma parse_action_wf s rule : lands effects_wf source_error (parse_action s rule).
Proof.
  unfold parse_action. destruct (try_bare_action s) as [es|] eqn:E; [by apply bare_action_wf in E|].
  eapply lands_bind; [apply deny_call_wf|]. intros [d|] Hd; [|done]. simpl. split; [done|].
  simpl. by rewrite (Hd d).
Qed.

Lemma reject_field_lands predicate rule :
  lands anything source_error (reject_field_operation_in_rule_position predicate rule).
Proof. unfold reject_field_operation_in_rule_position. lands_walk. Qed.

Lemma reject_require_lands predicate es rule :
  lands anything source_error (reject_require_with_allow predicate es rule).
Proof. unfold reject_require_with_allow. lands_walk. Qed.

Lemma parse_rule_predicate_lands predicate rule :
  lands anything source_error (parse_rule_predicate predicate rule).
Proof. unfold parse_rule_predicate. lands_walk. Qed.

#[local] Hint Resolve reject_field_lands reject_require_lands parse_rule_predicate_lands : lands.

Lemma parse_rule_wf line source :
  lands (fun r => effects_wf (rule_effects r)) source_error (parse_rule line source).
Proof.
  assert (Hg : forall p rule es, effects_wf es ->
    lands (fun r => effects_wf (rule_effects r)) source_error (guarded_rule p rule source es)).
  { intros p rule es Hes. unfold guarded_rule. lands_walk. }
  unfold parse_rule. destruct (starts_with _ _); [done|]. destruct (detect_step_kind _); [done|].
  destruct (split_predicate_action _) as [[p a]|].
  - eapply lands_bind; [apply parse_action_wf|]. auto.
  - destruct (try_bare_action _) as [es|] eqn:E; [by apply bare_action_wf in E|].
    eapply lands_bind; [apply deny_call_wf|]. intros [d|] Hd; [|by apply Hg].
    split; [done|]. simpl. by rewrite (Hd d).
Qed.

Lemma positional_name_lands parts rule missing source :
  lands anything source_error (positional_name parts rule missing source).
Proof. unfold positional_name. lands_walk. Qed.

Lemma delegate_kwargs_lands source parts acc : lands anything source_error (delegate_kwargs source parts acc).
Proof.
  revert acc. induction parts as [|raw rest IH]; intros acc; simpl; [done|]. lands_walk.
Qed.

Lemma as_string_lands verb source v key : lands anything source_error (as_string verb source v key).
Proof. unfold as_string. lands_walk. Qed.
#[local] Hint Resolve as_string_lands positional_name_lands delegate_kwargs_lands : lands.

Lemma elicit_arg_lands verb source kwarg key v a :
  lands anything source_error (elicit_arg verb source kwarg key v a).
Proof. unfold elicit_arg. destruct a. lands_walk. Qed.
#[local] Hint Resolve elicit_arg_lands : lands.

Lemma elicit_kwargs_lands verb source parts acc :
  lands anything source_error (elicit_kwargs verb source parts acc).
Proof. revert acc. induction parts as [|raw rest IH]; intros acc; simpl; [done|]. lands_walk. Qed.
#[local] Hint Resolve elicit_kwargs_lands : lands.

Lemma delegate_call_wf inside source :
  lands (fun p => non_empty (pd_plugin_name p) = true) source_error (parse_delegate_call_args inside source).
Proof.
  unfold parse_delegate_call_args. do 2 lands_step.
  destruct (String.eqb _ "") eqn:E; [done|]. lands_step. by apply eqb_non_empty.
Qed.

Lemma elicit_call_lands verb source inside :
  lands anything source_error (parse_elicit_call_args verb source inside).
Proof. unfold parse_elicit_call_args. lands_walk. Qed.

(** A step that is not a rule or a decision point call is an effect as it stands. *)
Definition leaf_step (s : Step) : Prop :=
  match s with StepRule _ | StepPdp _ _ _ => False | _ => True end.

Lemma leaf_step_effect s source e :
  step_ok s -> step_to_effect s source = Ok e -> body_wf e = true.
Proof.
  intros (e' & He & Hwf) Hs. destruct s; simpl in *; simplify_eq; try done.
  by destruct (rule_condition r).
Qed.

Lemma step_to_effect_lands s source :
  step_ok s -> lands (fun e => body_wf e = true) source_error (step_to_effect s source).
Proof.
  intros Hs. destruct (step_to_effect s source) as [e|err] eqn:E; simpl; [by eapply leaf_step_effect|].
  destruct s; simpl in E; simplify_eq; try done. by destruct (rule_condition r); simplify_eq.
Qed.

Lemma parse_step_string_ok line source : lands step_ok source_error (parse_step_string line source).
Proof.
  unfold parse_step_string. destruct (starts_with "taint(" _).
  { destruct (extract_call_args _ _); [|done]. eapply lands_bind; [apply parse_taint_wf|].
    intros st (label & scopes & -> & Hst). eexists. split; [done|]. exact Hst. }
  destruct (starts_with "plugin(" _); [done|]. destruct (starts_with "run(" _).
  { destruct (extract_call_args _ _); [|done]. destruct (String.eqb _ "") eqn:E; [done|].
    eexists. split; [done|]. by apply eqb_non_empty. }
  destruct (starts_with "delegate(" _).
  { destruct (extract_call_args _ _); [|done]. eapply lands_bind; [apply delegate_call_wf|].
    intros p Hp. eexists. by split. }
  destruct (find_verb _) as [[verb kind]|].
  { unfold parse_elicit_step. destruct (extract_call_args _ _); [|done].
    eapply lands_bind; [apply elicit_call_lands|]. intros p _. eexists. by split. }
  eapply lands_bind; [apply parse_rule_wf|]. intros [c es src] Hr. by apply rule_step_ok.
Qed.

Lemma field_op_wf s rule :
  lands (fun o => forall e, o = Some e -> body_wf e = true) source_error (try_parse_field_op s rule).
Proof.
  unfold try_parse_field_op. destruct (find_top_level_pipe s); [|done]. destruct (_ || _); [done|].
  destruct (is_valid_field_path _) eqn:Ev; simpl; [|done].
  eapply lands_bind; [eapply lands_map_err; [eapply lands_any, parse_pipeline_wf|done]|].
  intros p Hp. simpl in Hp. destruct (deep_without_redact _ _) eqn:Ed; [done|].
  destruct (is_nil (stages p)) eqn:En; [done|]. intros e [= <-]. simpl. unfold chain_wf.
  by rewrite Ev, Ed, En, Hp.
Qed.

Lemma parse_effect_string_wf s source :
  lands (fun e => body_wf e = true) source_error (parse_effect_string s source).
Proof.
  assert (Hrest : lands (fun e => body_wf e = true) source_error
    (let? deny := try_parse_deny_call (trim s) s in
     match deny with
     | Some effect => Ok effect
     | None => let? op := try_parse_field_op (trim s) s in
         match op with
         | Some field_op => Ok field_op
         | None => let? step := parse_step_string s source in step_to_effect step source
         end
     end)).
  { eapply lands_bind; [apply deny_call_wf|]. intros [d|] Hd; [by apply (Hd d)|].
    eapply lands_bind; [apply field_op_wf|]. intros [f|] Hf; [by apply (Hf f)|].
    eapply lands_bind; [apply parse_step_string_ok|]. intros st Hst. by apply step_to_effect_lands. }
  unfold parse_effect_string. destruct (try_bare_action (trim s)) as [[|e [|]]|] eqn:E; [exact Hrest| |exact Hrest..].
  apply bare_action_wf in E as [_ E]. simpl in E. by rewrite andb_true_r in E.
Qed.
End Steps.

(** ** Sizes of YAML values *)

Lemma untag_size v : yaml_size (untag v) <= yaml_size v.
Proof. induction v; simpl; lia. Qed.

Lemma elem_size {A} (f : A -> nat) x l : x ∈ l -> f x <= list_sum (map f l).
Proof. induction 1 as [x l|x y l ? IH]; simpl; lia. Qed.

Lemma sequence_size v items item : as_sequence v = Some items -> item ∈ items -> yaml_size item < yaml_size v.
Proof.
  unfold as_sequence. intros E Hi. pose proof (untag_size v) as Hu.
  destruct (untag v); simplify_eq. apply (elem_size yaml_size) in Hi. simpl in Hu. lia.
Qed.

Lemma mapping_get_elem key m v : mapping_get key m = Some v -> (YString key, v) ∈ m.
Proof.
  induction m as [|[k w] m IH]; simpl; [done|]. intros E.
  destruct k; try (right; by apply IH). destruct (String.eqb_spec s key) as [->|]; [|right; by apply IH].
  injection E as ->. left.
Qed.

Lemma entry_size k v m : (k, v) ∈ m -> yaml_size v < yaml_size (YMapping m).
Proof.
  intros Hm. apply (elem_size (fun kv => yaml_size kv.1 + yaml_size kv.2)) in Hm. simpl in *. lia.
Qed.

Lemma as_mapping_size v m k w : as_mapping v = Some m -> (k, w) ∈ m -> yaml_size w < yaml_size v.
Proof.
  unfold as_mapping. intros E Hm. pose proof (untag_size v) as Hu. destruct (untag v); simplify_eq.
  apply entry_size in Hm. lia.
Qed.

(** ** Step maps *)

Section Maps.
Context `{Platform, CompilerLib}.

Lemma restrict_fields_lands source body spec : lands anything source_error (restrict_fields source body spec).
Proof. revert spec. induction body as [|[k v] rest IH]; intros spec; simpl; [done|]. lands_walk. Qed.

Lemma restrict_spec_wf body source :
  lands (fun s => restrict_is_empty s = false) source_error (parse_restrict_spec body source).
Proof.
  unfold parse_restrict_spec. destruct (as_mapping body); [|done].
  eapply lands_bind; [apply restrict_fields_lands|]. intros spec _.
  by destruct (restrict_is_empty spec) eqn:E.
Qed.

Lemma delegate_step_ok body source : lands step_ok source_error (parse_delegate_step body source).
Proof.
  unfold parse_delegate_step. destruct (as_mapping body) as [m|]; [|done].
  destruct (mapping_get "plugin" m) as [p|]; [|done]. destruct (yaml_as_str p) as [name|]; [|done].
  destruct (String.eqb name "") eqn:E; [done|].
  eapply lands_bind with (P := anything).
  { destruct (mapping_get "on_error" m) as [v|]; [|done]. simpl. by destruct (yaml_as_str v). }
  intros oe _. eexists. split; [done|]. by apply eqb_non_empty.
Qed.

Lemma pdp_key_lands key : lands anything source_error (parse_pdp_key key).
Proof.
  assert (Hc : forall k, lands anything source_error (split_call_key k)).
  { intros k. unfold split_call_key. lands_walk. }
  unfold parse_pdp_key. eapply lands_bind; [apply Hc|]. intros [[name inside]|] _; lands_walk.
Qed.

Variable step_rec : yaml -> string -> result Step ParseError.
Variable effect_rec : yaml -> string -> result Effect ParseError.
Variable v : yaml.
(** The recursive calls on what is inside the value keep their promises. *)
Hypothesis step_inside : forall w src, yaml_size w < yaml_size v -> lands step_ok source_error (step_rec w src).
Hypothesis effect_inside : forall w src, yaml_size w < yaml_size v ->
  lands (fun e => body_wf e = true) source_error (effect_rec w src).

Lemma effect_items_wf items src :
  (forall item, item ∈ items -> yaml_size item < yaml_size v) ->
  lands (fun es => length es = length items /\ forallb body_wf es = true) source_error
    (collect (fun item => effect_rec item src) items).
Proof.
  intros Hi. destruct (collect _ items) as [es|e] eqn:E.
  - split; [by eapply collect_length|]. apply forallb_true_iff.
    pose proof (lands_collect (fun e => body_wf e = true) source_error (fun item => effect_rec item src) items) as Hl.
    rewrite E in Hl. apply Hl. intros; apply effect_inside; auto.
  - pose proof (lands_collect (fun e => body_wf e = true) source_error (fun item => effect_rec item src) items) as Hl.
    rewrite E in Hl. apply Hl. intros; apply effect_inside; auto.
Qed.

Lemma effect_list_wf which body src :
  yaml_size body < yaml_size v -> lands effects_wf source_error (effect_list effect_rec which body src).
Proof.
  intros Hb. unfold effect_list. destruct (as_sequence body) as [items|] eqn:E; [|done].
  destruct items as [|i items]; [done|]. eapply lands_weaken; [apply effect_items_wf|].
  - intros item Hi. eapply sequence_size in Hi; [|exact E]. lia.
  - intros es [Hlen Hes]. split; [by destruct es|done].
Qed.

Lemma sequential_wf body src : yaml_size body < yaml_size v ->
  lands (fun e => body_wf e = true) source_error (parse_sequential_effect effect_rec body src).
Proof.
  intros Hb. unfold parse_sequential_effect. eapply lands_bind; [by apply effect_list_wf|].
  intros es [Hn Hes]. simpl. rewrite Hes. by destruct es.
Qed.

Lemma parallel_wf body src : yaml_size body < yaml_size v ->
  lands (fun e => body_wf e = true) source_error (parse_parallel_effect effect_rec body src).
Proof.
  intros Hb. unfold parse_parallel_effect. eapply lands_bind; [by apply effect_list_wf|].
  intros es [Hn Hes]. destruct (validate_parallel_purity (EffParallel es)) as [[]|] eqn:Ev; [|done].
  apply validate_children in Ev as [_ Hp]. simpl. rewrite Hes.
  assert (forallb (fun e => negb (contains_mutation e)) es = true) as ->; [|by destruct es].
  apply forallb_true_iff. eapply Forall_impl; [exact Hp|]. by intros ? ->.
Qed.

Lemma do_body_wf val src : yaml_size val < yaml_size v ->
  lands (fun es => forallb body_wf es = true) source_error (parse_do_body effect_rec val src).
Proof.
  assert (Hone : forall r, lands (fun e => body_wf e = true) source_error r ->
    lands (fun es => forallb body_wf es = true) source_error (let? e := r in Ok [e])).
  { intros r Hr. eapply lands_bind; [exact Hr|]. intros e He. simpl. by rewrite He. }
  intros Hv. destruct val; try done; simpl.
  - apply Hone, parse_effect_string_wf.
  - eapply lands_weaken; [apply effect_items_wf|by intros ? []].
    intros item Hi. eapply (sequence_size (YSequence l)) in Hi; [|done]. lia.
  - by apply Hone, effect_inside.
Qed.

Lemma not_nil {A} (l : list A) : is_nil l = false -> l <> [].
Proof. by destruct l. Qed.

#[local] Hint Resolve reject_field_lands reject_require_lands parse_rule_predicate_lands : lands.

Lemma when_do_ok m src : v = YMapping m -> lands step_ok source_error (parse_when_do_rule effect_rec m src).
Proof.
  intros Ev. unfold parse_when_do_rule. destruct (stray_key m); [done|].
  destruct (mapping_get "when" m); [|done]. destruct (yaml_as_str _); [|done]. do 2 lands_step.
  destruct (mapping_get "do" m) as [do_val|] eqn:E; [|done].
  eapply lands_bind; [apply do_body_wf; rewrite Ev; by eapply entry_size, mapping_get_elem|].
  intros es Hes. destruct (is_nil es) eqn:En; [done|]. lands_step.
  apply rule_step_ok. by split; [apply not_nil|].
Qed.

Lemma shorthand_ok predicate items src :
  (forall item, item ∈ items -> yaml_size item < yaml_size v) ->
  lands step_ok source_error (parse_shorthand_multi_effect effect_rec predicate items src).
Proof.
  intros Hi. unfold parse_shorthand_multi_effect. do 2 lands_step.
  eapply lands_bind; [by apply effect_items_wf|]. intros es [_ Hes]. destruct (is_nil es) eqn:En; [done|].
  lands_step. apply rule_step_ok. by split; [apply not_nil|].
Qed.

Lemma reaction_ok body src which : yaml_size body < yaml_size v ->
  lands (Forall step_ok) source_error (parse_reaction_list step_rec body src which).
Proof.
  intros Hb. unfold parse_reaction_list. destruct (as_sequence body) as [items|] eqn:E; [|done].
  assert (Hi : forall item, item ∈ items -> yaml_size item < yaml_size v).
  { intros item Hi. eapply sequence_size in Hi; [|exact E]. lia. }
  clear E. generalize 0. induction items as [|x items IH]; intros i; simpl; [constructor|].
  eapply lands_bind; [apply step_inside, Hi; left|]. intros st Hst.
  eapply lands_bind; [apply IH; intros; apply Hi; by right|]. intros sts Hsts. by constructor.
Qed.

Lemma pdp_entries_ok src body args d a :
  (forall k w, (k, w) ∈ body -> yaml_size w < yaml_size v) -> Forall step_ok d -> Forall step_ok a ->
  lands (fun r => Forall step_ok r.1.2 /\ Forall step_ok r.2) source_error (pdp_entries step_rec src body args d a).
Proof.
  revert args d a. induction body as [|[k w] rest IH]; intros args d a Hi Hd Ha; simpl; [done|].
  assert (Hw : yaml_size w < yaml_size v) by (eapply Hi; left).
  assert (Hr : forall k w, (k, w) ∈ rest -> yaml_size w < yaml_size v) by (intros; eapply Hi; by right).
  case_bool_decide; [|case_bool_decide].
  - eapply lands_bind; [by apply reaction_ok|]. auto.
  - eapply lands_bind; [by apply reaction_ok|]. auto.
  - auto.
Qed.

Lemma pdp_step_ok key body src : yaml_size body <= yaml_size v ->
  lands step_ok source_error (parse_pdp_step step_rec key body src).
Proof.
  intros Hb. unfold parse_pdp_step. eapply lands_bind; [apply pdp_key_lands|]. intros [dialect paren] _.
  destruct (as_mapping body) as [m|] eqn:E; [|done]. unfold extract_pdp_body.
  pose proof (pdp_entries_ok src m [] [] []) as Hl.
  destruct (pdp_entries step_rec src m [] [] []) as [[[args d] a]|]; simpl in *.
  - destruct Hl as [Hd Ha]; [|constructor..|].
    { intros k w Hm. eapply as_mapping_size in Hm; [|exact E]. lia. }
    assert (Hc : forall l, Forall step_ok l ->
      exists es, collect step_to_top_level_effect l = Ok es /\ forallb top_wf es = true).
    { induction 1 as [|s l (e & He & Hwf) _ (es & Hes & Hall)]; [by exists []|].
      exists (e :: es). simpl. by rewrite He, Hes, Hwf, Hall. }
    destruct (Hc d Hd) as (des & Ed & Hdes). destruct (Hc a Ha) as (aes & Ea & Haes).
    eexists. simpl. rewrite Ed, Ea. split; [done|]. simpl. by rewrite Haes, Hdes.
  - apply Hl; [|constructor..]. intros k w Hm. eapply as_mapping_size in Hm; [|exact E]. lia.
Qed.

Lemma step_body_ok src : lands step_ok source_error (parse_step_body step_rec effect_rec v src).
Proof.
  assert (Hv : exists w, v = w) by eauto. destruct Hv as [w Ev]. rewrite Ev at 1.
  destruct w as [| | |s|l|m|t w]; try done; simpl; [apply parse_step_string_ok|].
  unfold parse_step_map. destruct (_ && _); [by apply when_do_ok|].
  destruct m as [|[k body] [|]]; [done| |done]. destruct (yaml_as_str k) as [key|]; [|done].
  assert (Hb : yaml_size body < yaml_size v) by (rewrite Ev; apply (entry_size k); left).
  destruct (shorthand_items (trim key) body) as [items|] eqn:Es.
  { apply shorthand_ok. intros item Hi. destruct body; try done. simpl in Es.
    destruct (_ || _) in Es; [done|]. injection Es as <-.
    eapply (sequence_size (YSequence l)) in Hi; [|done]. lia. }
  assert (Hal : forall e, body_wf e = true -> step_ok (always_rule e src)).
  { intros e He. apply rule_step_ok. split; [done|]. simpl. by rewrite He. }
  destruct (String.eqb _ "delegate"); [apply delegate_step_ok|].
  destruct (String.eqb _ "restrict").
  { eapply lands_bind; [apply restrict_spec_wf|]. intros spec Hs. eexists. split; [done|].
    simpl. by rewrite Hs. }
  destruct (String.eqb _ "sequential"); [eapply lands_bind; [by apply sequential_wf|done]|].
  destruct (String.eqb _ "parallel"); [eapply lands_bind; [by apply parallel_wf|done]|].
  apply pdp_step_ok. lia.
Qed.

Lemma effect_body_ok src :
  (forall src, lands step_ok source_error (step_rec v src)) ->
  lands (fun e => body_wf e = true) source_error (parse_effect_body step_rec effect_rec v src).
Proof.
  intros Hself. unfold parse_effect_body.
  assert (Hstep : lands (fun e => body_wf e = true) source_error
    (let? step := step_rec v src in step_to_effect step src)).
  { eapply lands_bind; [apply Hself|]. intros. by apply step_to_effect_lands. }
  assert (Hv : exists w, v = w) by eauto. destruct Hv as [w Ev]. rewrite Ev at 1.
  destruct w as [| | |s|l|m|t w]; try done; [apply parse_effect_string_wf|].
  destruct (own_effect effect_rec m src) as [r|] eqn:E; [|exact Hstep].
  unfold own_effect in E. destruct m as [|[k body] [|]]; try done.
  assert (Hb : yaml_size body < yaml_size v) by (rewrite Ev; apply (entry_size k); left).
  destruct (option_map trim (yaml_as_str k)) as [key|]; [|done].
  destruct (String.eqb _ "sequential"); [injection E as <-; by apply sequential_wf|].
  destruct (String.eqb _ "parallel"); [injection E as <-; by apply parallel_wf|].
  destruct (String.eqb _ "restrict"); [|done]. injection E as <-. unfold parse_restrict_effect.
  eapply lands_bind; [apply restrict_spec_wf|]. intros spec Hs. simpl. by rewrite Hs.
Qed.
End Maps.

(** ** The recursion and the compiler *)

Section Compiler.
Context `{Platform, CompilerLib}.

Lemma recursion_ok fuel :
  (forall v src, 2 * yaml_size v <= fuel -> lands step_ok source_error (step_of fuel v src))
  /\ (forall v src, 2 * yaml_size v < fuel ->
      lands (fun e => body_wf e = true) source_error (effect_of fuel v src)).
Proof.
  induction fuel as [|fuel [IHs IHe]].
  - split; intros v src Hf; destruct v; simpl in Hf; lia.
  - split; intros v src Hf; simpl.
    + apply step_body_ok; intros w src' Hw; [apply IHs|apply IHe]; lia.
    + apply effect_body_ok; [intros w src' Hw; apply IHe; lia|intros src'; apply IHs; lia].
Qed.

Lemma parse_step_ok v src : lands step_ok source_error (parse_step v src).
Proof. apply recursion_ok. lia. Qed.

Lemma compile_phase_wf prefix i entries :
  lands (fun es => length es = length entries /\ forallb top_wf es = true) source_error
    (compile_phase prefix i entries).
Proof.
  revert i. induction entries as [|entry rest IH]; intros i; simpl; [done|].
  eapply lands_bind; [apply parse_step_ok|]. intros st (e & He & Hwf). rewrite He.
  eapply lands_bind; [apply IH|]. intros es [Hlen Hes]. simpl. by rewrite Hlen, Hwf, Hes.
Qed.

Lemma compile_fields_wf source half entries :
  lands (fun fs => forallb field_wf fs = true /\ map fr_field fs = map fst entries) source_error
    (compile_fields source half entries).
Proof.
  induction entries as [|[field chain] rest IH]; simpl; [done|].
  unfold compile_fields. simpl. fold (compile_fields source half rest).
  pose proof (compile_declared_wf half field chain) as Hd.
  destruct (compile_declared_pipeline half field chain) as [p|e]; [|done].
  eapply lands_bind; [exact IH|]. intros fs [Hfs Hm]. simpl. unfold field_wf at 1. simpl.
  simpl in Hd. by rewrite Hd, Hfs, Hm.
Qed.

Lemma reject_elicitations_lands source phase es :
  lands (fun _ => elicits es <= 1) source_error (reject_elicitations source phase es).
Proof. unfold reject_elicitations. destruct (Nat.ltb_spec 1 (elicits es)); [done|]. simpl. lia. Qed.
End Compiler.

(** ** The values of call arguments *)

Fixpoint chars_length (cs : list string) : nat :=
  match cs with [] => 0 | c :: cs' => String.length c + chars_length cs' end.

Lemma chars_length_app a b : chars_length (a ++ b) = chars_length a + chars_length b.
Proof. induction a; simpl; lia. Qed.

Lemma of_chars_length cs : String.length (of_chars cs) = chars_length cs.
Proof. induction cs as [|c cs IH]; [done|]. rewrite of_chars_cons, string_app_length. simpl. lia. Qed.

Lemma rev_chars_length cs : chars_length (rev cs) = chars_length cs.
Proof. induction cs; simpl; [done|]. rewrite chars_length_app. simpl. lia. Qed.

Lemma drop_while_length p cs : chars_length (drop_while p cs) <= chars_length cs.
Proof. induction cs as [|c cs IH]; simpl; [done|]. destruct (p c); simpl; lia. Qed.

Lemma trim_length s : String.length (trim s) <= String.length s.
Proof.
  unfold trim. rewrite of_chars_length, rev_chars_length. etrans; [apply drop_while_length|].
  rewrite rev_chars_length. etrans; [apply drop_while_length|]. by rewrite <- of_chars_length, of_chars_chars.
Qed.

Lemma string_rev_app_length s acc : String.length (string_rev_app s acc) = String.length s + String.length acc.
Proof. revert acc. induction s as [|a s IH]; intros acc; simpl; [done|]. rewrite IH. simpl. lia. Qed.

Lemma string_rev_length s : String.length (string_rev s) = String.length s.
Proof. unfold string_rev. rewrite string_rev_app_length. simpl. lia. Qed.

Lemma strip_brackets_length o c s r : strip_brackets o c s = Some r -> String.length r < String.length s.
Proof.
  unfold strip_brackets, strip_suffix. destruct s as [|a s]; simpl; [done|].
  destruct (Ascii.eqb o a); [|done]. pose proof (string_rev_length s) as Hl.
  destruct (string_rev s) as [|b t]; [done|]. destruct (Ascii.eqb b c); [|done]. intros [= <-].
  rewrite string_rev_length. simpl in Hl. lia.
Qed.

Lemma take_bytes_length n s : String.length (take_bytes n s) <= Nat.min n (String.length s).
Proof. revert s. induction n as [|n IH]; intros [|a s]; simpl; try lia. specialize (IH s). lia. Qed.

Lemma drop_bytes_length n s : String.length (drop_bytes n s) = String.length s - n.
Proof. revert s. induction n as [|n IH]; intros [|a s]; simpl; try lia. by rewrite IH. Qed.

Section Commas.
Variable s : string.
Let len := String.length s.
Let short (n : nat) (x : string) : Prop := String.length x <= Nat.min n len.

Lemma commas_scan rest i skip st items :
  i + String.length rest = len -> Forall (short (i + skip)) (cm_current st :: cm_parts st) ->
  scan_from s (comma_body s)
    (fun st => if (cm_depth st =? 0)%nat then Ok (cm_parts st ++ [cm_current st])
               else Err "unbalanced brackets in delegate(...) args") rest i skip st = Ok items ->
  Forall (fun x => String.length x <= len) items.
Proof.
  revert i skip st. induction rest as [|b rest IH]; intros i skip [parts current depth] Hi Hs; simpl.
  { destruct (depth =? 0)%nat; [|done]. intros [= <-]. inversion Hs; subst.
    apply Forall_app. split; [|constructor; [|done]].
    - eapply Forall_impl; [eassumption|]. unfold short. intros; simpl in *; lia.
    - unfold short in *. simpl in *. lia. }
  simpl in Hi. destruct skip as [|skip]; [|apply IH; [lia|by rewrite Nat.add_succ_l, <- Nat.add_succ_r]].
  rewrite Nat.add_0_r in Hs. inversion Hs as [|? ? Hc Hp]; subst. simpl in Hc, Hp.
  assert (Hmore : forall n, i <= n -> Forall (short n) parts).
  { intros n Hn. eapply Forall_impl; [exact Hp|]. unfold short. lia. }
  assert (Hone : short (S i) (current +:+ str1 b)).
  { unfold short in *. rewrite string_app_length. change (String.length (str1 b)) with 1. lia. }
  assert (Hgo : forall d, scan_from s (comma_body s)
    (fun st => if (cm_depth st =? 0)%nat then Ok (cm_parts st ++ [cm_current st])
               else Err "unbalanced brackets in delegate(...) args") rest (S i) (S i - S i)
      (mkComma parts (current +:+ str1 b) d) = Ok items -> Forall (fun x => String.length x <= len) items).
  { intros d. apply IH; [lia|]. rewrite Nat.sub_diag, Nat.add_0_r. constructor; [exact Hone|apply Hmore; lia]. }
  unfold item_at. destruct (is_quote b).
  - destruct (skip_literal s i) as [e|]; [|done]. apply IH; [lia|]. constructor; [|apply Hmore; lia].
    unfold short, slice in *. cbn [cm_current]. rewrite string_app_length.
    pose proof (take_bytes_length (e - i) (drop_bytes i s)) as Ht. rewrite drop_bytes_length in Ht. fold len in Ht. lia.
  - destruct (is_open3 b); [apply Hgo|]. destruct (is_close3 b); [destruct depth; [done|apply Hgo]|].
    destruct (_ && _); [|apply Hgo]. apply IH; [lia|]. rewrite Nat.sub_diag, Nat.add_0_r.
    constructor; [unfold short; simpl; lia|]. simpl. apply Forall_app. split; [apply Hmore; lia|].
    constructor; [unfold short in *; lia|done].
Qed.
End Commas.

Lemma commas_length s items :
  split_top_level_commas s = Ok items -> Forall (fun x => String.length x <= String.length s) items.
Proof. apply commas_scan; [done|]. by constructor; [simpl; lia|]. Qed.

Lemma collect_ext {A B E} (f g : A -> result B E) l :
  (forall x, x ∈ l -> f x = g x) -> collect f l = collect g l.
Proof.
  induction l as [|x l IH]; intros Hfg; simpl; [done|]. rewrite (Hfg x) by left. by rewrite IH by set_solver.
Qed.

(** A bound above the length of the text is not reached. *)
Lemma delegate_value_bound n m s :
  String.length s < n -> String.length s < m -> delegate_value n s = delegate_value m s.
Proof.
  revert m s. induction n as [|n IH]; intros m s Hn Hm; [lia|]. destruct m as [|m]; [lia|]. simpl.
  destruct (String.eqb (trim s) ""); [done|]. destruct (strip_brackets "[" "]" (trim s)) as [inner|] eqn:E; [|done].
  destruct (split_top_level_commas inner) as [items|] eqn:Ec; [|done].
  rewrite (collect_ext _ (delegate_value m)); [done|]. intros x Hx.
  apply list_elem_of_In, filter_In in Hx as [Hx _]. apply in_map_iff in Hx as (y & <- & Hy).
  apply commas_length in Ec. rewrite Forall_forall in Ec. apply list_elem_of_In in Hy.
  specialize (Ec y Hy). pose proof (trim_length y). pose proof (trim_length s).
  apply strip_brackets_length in E. apply IH; lia.
Qed.

(** ** The compiler's promises *)

Section Claims.
Context `{Platform, CompilerLib}.

Lemma body_wf_pure e : body_wf e = true -> validate_parallel_purity e = Ok tt.
Proof.
  induction e as [e IH]. intros Hwf. apply validate_children.
  assert (Hc : Forall (fun c => body_wf c = true) (children e)).
  { destruct e; try done; simpl in *; split_bools; by apply forallb_true_iff. }
  split; [rewrite Forall_forall in *; auto|]. destruct e; try done. simpl in Hwf. split_bools.
  eapply Forall_impl; [by apply forallb_true_iff|]. simpl. intros c. apply negb_true_iff.
Qed.

Lemma top_wf_pure e : top_wf e = true -> validate_parallel_purity e = Ok tt.
Proof.
  induction e as [e IH]. intros Hwf.
  destruct e; try done; apply validate_children; simpl in *; split_bools; (split; [|done]).
  - eapply Forall_impl; [by apply forallb_true_iff|]. apply body_wf_pure.
  - rewrite Forall_forall in *. intros c Hc. apply IH; [done|].
    apply elem_of_app in Hc as [Hc|Hc].
    + by eapply (proj1 (Forall_forall _ _)) in Hc; [|by apply forallb_true_iff].
    + by eapply (proj1 (Forall_forall _ _)) in Hc; [|by apply forallb_true_iff].
Qed.

(** What [authorization:] holds for a phase. *)
Definition phase_entries (phase : AuthorizationYaml -> option (list yaml)) (raw : RouteYaml) : list yaml :=
  match ry_authorization raw with Some a => default [] (phase a) | None => [] end.

Definition compiled_from (raw : RouteYaml) (r : CompiledRoute) : Prop :=
  length (pre_invocation r) = length (phase_entries au_pre_invocation raw)
  /\ length (post_invocation r) = length (phase_entries au_post_invocation raw)
  /\ map fr_field (rt_args r) = map fst (ry_args raw)
  /\ map fr_field (rt_result r) = map fst (ry_result raw)
  /\ plugin_overrides r = ry_plugins raw.

Lemma compile_lands source raw :
  lands (fun r => route_wf r /\ compiled_from raw r) source_error (compile_apl_blocks source raw).
Proof.
  unfold compile_apl_blocks, reject_empty_authorization. destruct (is_some_and _ _); [done|].
  eapply lands_bind; [apply compile_phase_wf|]. intros pre [Lpre Wpre].
  eapply lands_bind; [apply compile_phase_wf|]. intros post [Lpost Wpost].
  eapply lands_bind; [apply compile_fields_wf|]. intros args [Wargs Margs].
  eapply lands_bind; [apply compile_fields_wf|]. intros res [Wres Mres].
  eapply lands_bind; [apply reject_elicitations_lands|]. intros [] Epre.
  eapply lands_bind; [apply reject_elicitations_lands|]. intros [] Epost.
  simpl. by repeat split.
Qed.

(** Claim C29. Compiled policy is well formed. A document that compiles gives a route with
    one effect per step and one rule per field, none dropped, in which every rule has
    effects, every chain has stages, every bound is in range, a [**] field is redacted, no
    [restrict] is empty, conditions and decision point calls stand only where the evaluator
    takes them, a [parallel:] block holds nothing that mutates, and no phase reaches a
    second elicitation. *)
Theorem compile_well_formed source raw r :
  compile_apl_blocks source raw = Ok r ->
  route_wf r /\ compiled_from raw r
  /\ Forall (fun e => validate_parallel_purity e = Ok tt) (pre_invocation r ++ post_invocation r).
Proof.
  intros E. pose proof (compile_lands source raw) as Hl. rewrite E in Hl. destruct Hl as [Hwf Hfrom].
  split; [done|]. split; [done|]. destruct Hwf as ([Hpre _] & [Hpost _] & _).
  apply Forall_app; split; (eapply Forall_impl; [by apply forallb_true_iff|apply top_wf_pure]).
Qed.

(** Claim C40. The compiler always answers: none of its bounded recursions reaches its bound
    (nested steps and effects, predicates, values of call arguments), whatever the document,
    so what it returns is what the unbounded recursion of the code returns. *)
Theorem compile_total `{SerdeDerive} source block :
  compile_policy_block_value source block <> Err OutOfFuel
  /\ (forall text, parse_predicate text <> Err OutOfFuel)
  /\ (forall bound text, String.length text < bound -> delegate_value bound text = parse_delegate_value text).
Proof.
  split; [|split].
  - unfold compile_policy_block_value. destruct (is_null block); [done|].
    destruct (route_from_value _ _) as [raw|]; [|done]. simpl.
    pose proof (compile_lands source raw) as Hl. by destruct (compile_apl_blocks source raw) as [|[]].
  - apply parse_predicate_total.
  - intros bound text Hb. apply delegate_value_bound; lia.
Qed.
End Claims.

(** A document with a rule, a [parallel:] block, a decision point call with reactions, and
    field chains on both sides. *)
Definition example_document : RouteYaml :=
  mkRouteYaml
    (Some (mkAuth
      (Some [YString "require(role.hr)";
             YMapping [(YString "parallel", YSequence [YString "run(audit)"; YString "taint(pii, session)"])];
             YMapping [(YString "cedar", YMapping [(YString "action", YString "read");
               (YString "on_deny", YSequence [YString "deny('no', 'cedar')"])])];
             YString "require_approval(manager, from: claim.manager)"])
      (Some [YMapping [(YString "when", YString "delegation.depth > 2");
               (YString "do", YSequence [YString "result.**.ssn | redact"; YString "deny"])]])))
    [("ssn", "str | len(9..11) | mask(4)")] [("**.ssn", "redact(!perm.view_ssn)")] ∅.

Definition example_route : CompiledRoute :=
  mkRoute "payroll"
    [mkFieldRule "ssn" (mkPipeline [StType TStr; StLength (Some 9%Z) (Some 11%Z); StMask 4]) "payroll.args.ssn"]
    [EffWhen (ECondition (IsFalse "role.hr")) [EffDeny None None] "payroll.pre_invocation[0]";
     EffWhen EAlways [EffParallel [EffPlugin "audit"; EffTaint "pii" [ScopeSession]]] "payroll.pre_invocation[1]";
     EffPdp (mkPdpCall Cedar (YMapping [(YString "action", YString "read")])) []
       [EffWhen EAlways [EffDeny (Some "no") (Some "cedar")] "payroll.pre_invocation[2].on_deny[0]"];
     EffElicit (mkElicit Approval "manager" None "claim.manager" None None None None None "payroll.pre_invocation[3]")]
    [mkFieldRule "**.ssn" (mkPipeline [StRedact (Some (ENot (ECondition (IsTrue "perm.view_ssn"))))])
       "payroll.result.**.ssn"]
    [EffWhen (ECondition (Comparison "delegation.depth" OpGt (LInt 2)))
       [EffFieldOp "result.**.ssn" [StRedact None]; EffDeny None None] "payroll.post_invocation[0]"]
    ∅ None.

Lemma compile_well_formed_witness :
  @compile_apl_blocks ascii_platform ascii_compiler_lib "payroll" example_document = Ok example_route
  /\ @route_wf ascii_compiler_lib example_route.
Proof.
  assert (E : @compile_apl_blocks ascii_platform ascii_compiler_lib "payroll" example_document = Ok example_route)
    by (vm_compute; reflexivity).
  split; [exact E|].
  exact (proj1 (@compile_well_formed ascii_platform ascii_compiler_lib "payroll" example_document example_route E)).
Defined.
