(* ===== verification/CompileErrors.v ===== *)
(** * The errors of the compiler

    [refused] lists the reasons a document is refused, in the order the compiler finds them:
    the first is the one it reports, and a document without any of them compiles. *)

From Stdlib Require Import Ascii String.
From S2P Require Import Prelude RustStr F64 Json Platform Rules Constraint Step Lexical Predicate Effects Scan Stages.
From S2P Require Import RuleParser StepParser CompileProps.

(** ** First failures *)

Section FirstFailure.
Context {A B E : Type}.
Variable f : A -> result B E.

Definition accepts (l : list A) : Prop := Forall (fun x => result_is_ok (f x) = true) l.

(** [x] is the first of the list that fails, and it fails with [e]. *)
Definition first_failure (l : list A) (e : E) : Prop :=
  exists before x after, l = before ++ x :: after /\ accepts before /\ f x = Err e.

Lemma first_failure_cons x l e :
  first_failure (x :: l) e <-> f x = Err e \/ (result_is_ok (f x) = true /\ first_failure l e).
Proof.
  split.
  - intros (before & y & after & E' & Hb & Hy). destruct before as [|z before]; simplify_eq/=; [by left|].
    inversion Hb; subst. right. split; [done|]. by exists before, y, after.
  - intros [Hx|(Hx & before & y & after & -> & Hb & Hy)].
    + exists [], x, l. repeat split; [constructor|done].
    + exists (x :: before), y, after. repeat split; [by constructor|done].
Qed.

Lemma accepts_or_fails l : accepts l \/ exists e, first_failure l e.
Proof.
  induction l as [|x l [IH|[e IH]]]; [by left; constructor| |].
  - destruct (f x) as [b|e] eqn:E'; [left; constructor; [by rewrite E'|done]|].
    right. exists e. apply first_failure_cons. by left.
  - destruct (f x) as [b|e'] eqn:E'.
    + right. exists e. apply first_failure_cons. right. by rewrite E'.
    + right. exists e'. apply first_failure_cons. by left.
Qed.

Lemma accepts_app l k : accepts (l ++ k) <-> accepts l /\ accepts k.
Proof. apply Forall_app. Qed.

Lemma accepts_no_failure l e : accepts l -> ~ first_failure l e.
Proof.
  intros Ha (before & x & after & -> & _ & Hx). apply accepts_app in Ha as [_ Ha].
  inversion Ha as [|? ? Hx' _]; subst. by rewrite Hx in Hx'.
Qed.

Lemma first_failure_app l k e :
  first_failure (l ++ k) e <-> first_failure l e \/ (accepts l /\ first_failure k e).
Proof.
  induction l as [|x l IH]; simpl.
  - split; [intros; right; split; [constructor|done]|]. intros [(b & y & a & E' & _)|[_ ?]]; [by destruct b|done].
  - rewrite !first_failure_cons, IH. unfold accepts. rewrite Forall_cons. naive_solver.
Qed.

Lemma collect_first_failure l e : collect f l = Err e <-> first_failure l e.
Proof.
  induction l as [|x l IH]; simpl.
  - split; [done|]. intros (b & y & a & E' & _). by destruct b.
  - rewrite first_failure_cons, <- IH. destruct (f x), (collect f l); naive_solver.
Qed.

Lemma collect_accepts l : accepts l <-> exists ys, collect f l = Ok ys.
Proof.
  induction l as [|x l IH]; simpl; [split; [eauto|constructor]|].
  unfold accepts in *. rewrite Forall_cons, IH. destruct (f x), (collect f l); naive_solver.
Qed.
End FirstFailure.

(** ** The reasons *)

Section Errors.
Context `{Platform, CompilerLib}.

Definition entry_source (prefix : string) (i : nat) : string := prefix +:+ "[" +:+ show_nat i +:+ "]".

(** The steps of a phase with the source each is compiled under. *)
Fixpoint located (prefix : string) (i : nat) (entries : list yaml) : list (yaml * string) :=
  match entries with
  | [] => []
  | entry :: rest => (entry, entry_source prefix i) :: located prefix (S i) rest
  end.

Definition pre_steps (source : string) (raw : RouteYaml) : list (yaml * string) :=
  located (source +:+ ".pre_invocation") 0 (phase_entries au_pre_invocation raw).
Definition post_steps (source : string) (raw : RouteYaml) : list (yaml * string) :=
  located (source +:+ ".post_invocation") 0 (phase_entries au_post_invocation raw).

(** The chains with the half of the document each stands in. *)
Definition chains (raw : RouteYaml) : list (string * (string * string)) :=
  map (pair "args") (ry_args raw) ++ map (pair "result") (ry_result raw).

Definition read_step (x : yaml * string) : result Step ParseError := parse_step x.1 x.2.
Definition read_chain (x : string * (string * string)) : result Pipeline ParseError :=
  compile_declared_pipeline x.1 x.2.1 x.2.2.

Definition empty_authorization (raw : RouteYaml) : bool :=
  is_some_and (fun a => phase_empty (au_pre_invocation a) && phase_empty (au_post_invocation a))
    (ry_authorization raw).

Inductive refused (source : string) (raw : RouteYaml) : ParseError -> Prop :=
| refused_authorization :
    empty_authorization raw = true -> refused source raw (PeEmptyAuthorization source)
| refused_step e :
    empty_authorization raw = false ->
    first_failure read_step (pre_steps source raw ++ post_steps source raw) e -> refused source raw e
| refused_chain e :
    empty_authorization raw = false -> accepts read_step (pre_steps source raw ++ post_steps source raw) ->
    first_failure read_chain (chains raw) e -> refused source raw e
| refused_elicitations pre post e :
    empty_authorization raw = false -> accepts read_chain (chains raw) ->
    compile_phase (source +:+ ".pre_invocation") 0 (phase_entries au_pre_invocation raw) = Ok pre ->
    compile_phase (source +:+ ".post_invocation") 0 (phase_entries au_post_invocation raw) = Ok post ->
    first_failure (fun x => reject_elicitations source x.1 x.2)
      [("pre_invocation", pre); ("post_invocation", post)] e -> refused source raw e.

Lemma compile_phase_collect prefix i entries :
  compile_phase prefix i entries
  = collect (fun x => let? step := read_step x in step_to_top_level_effect step) (located prefix i entries).
Proof.
  revert i. induction entries as [|entry rest IH]; intros i; simpl; [done|]. rewrite IH.
  unfold read_step, entry_source. simpl. by destruct (parse_step _ _).
Qed.

(** A step that was read is an effect. *)
Lemma read_step_effect x :
  match read_step x with
  | Ok st => exists e, step_to_top_level_effect st = Ok e
  | Err _ => True
  end.
Proof.
  pose proof (parse_step_ok x.1 x.2) as Hl. unfold read_step. destruct (parse_step x.1 x.2); [|done].
  destruct Hl as (e & He & _). eauto.
Qed.

Lemma step_effect_failure l e :
  first_failure (fun x => let? step := read_step x in step_to_top_level_effect step) l e
  <-> first_failure read_step l e.
Proof.
  induction l as [|x l IH]; [|rewrite !first_failure_cons, IH; pose proof (read_step_effect x) as Hx;
    destruct (read_step x); [destruct Hx as [? ->]|]; naive_solver].
  split; intros (b & y & a & E & _); by destruct b.
Qed.

Lemma step_effect_accepts l :
  accepts (fun x => let? step := read_step x in step_to_top_level_effect step) l <-> accepts read_step l.
Proof.
  unfold accepts. rewrite !Forall_forall. apply forall_proper. intros x. pose proof (read_step_effect x) as Hx.
  by destruct (read_step x); [destruct Hx as [? ->]|].
Qed.

Lemma compile_phase_err prefix i entries e :
  compile_phase prefix i entries = Err e <-> first_failure read_step (located prefix i entries) e.
Proof. by rewrite compile_phase_collect, collect_first_failure, step_effect_failure. Qed.

Lemma compile_phase_ok prefix i entries :
  accepts read_step (located prefix i entries) <-> exists es, compile_phase prefix i entries = Ok es.
Proof. by rewrite compile_phase_collect, <- collect_accepts, step_effect_accepts. Qed.

Lemma compile_fields_err source half entries e :
  compile_fields source half entries = Err e <-> first_failure read_chain (map (pair half) entries) e.
Proof.
  induction entries as [|[field chain] rest IH]; simpl.
  - split; [done|]. intros (b & y & a & E & _). by destruct b.
  - rewrite first_failure_cons, <- IH. unfold compile_fields. simpl. fold (compile_fields source half rest).
    unfold read_chain. simpl. destruct (compile_declared_pipeline half field chain); [|naive_solver].
    destruct (compile_fields source half rest); naive_solver.
Qed.

Lemma compile_fields_ok source half entries fs :
  compile_fields source half entries = Ok fs -> accepts read_chain (map (pair half) entries).
Proof.
  intros E. destruct (accepts_or_fails read_chain (map (pair half) entries)) as [Ha|[e Hf]]; [done|].
  apply (compile_fields_err source) in Hf. congruence.
Qed.

(** The compiler with its parts named. *)
Lemma compile_unfold source raw :
  compile_apl_blocks source raw =
  if empty_authorization raw then Err (PeEmptyAuthorization source) else
  let? pre := compile_phase (source +:+ ".pre_invocation") 0 (phase_entries au_pre_invocation raw) in
  let? post := compile_phase (source +:+ ".post_invocation") 0 (phase_entries au_post_invocation raw) in
  let? args := compile_fields source "args" (ry_args raw) in
  let? result_ := compile_fields source "result" (ry_result raw) in
  let? _ := reject_elicitations source "pre_invocation" pre in
  let? _ := reject_elicitations source "post_invocation" post in
  Ok (mkRoute source args pre result_ post (ry_plugins raw) None).
Proof.
  unfold compile_apl_blocks, reject_empty_authorization. fold (empty_authorization raw).
  by destruct (empty_authorization raw).
Qed.

Lemma compile_err_refused source raw e : compile_apl_blocks source raw = Err e -> refused source raw e.
Proof.
  rewrite compile_unfold. destruct (empty_authorization raw) eqn:Ea; [by intros [= <-]; constructor|].
  destruct (compile_phase (source +:+ ".pre_invocation") _ _) as [pre|e1] eqn:E1.
  2: { intros [= <-]. apply refused_step; [done|]. apply first_failure_app. left. by apply compile_phase_err. }
  assert (A1 : accepts read_step (pre_steps source raw)) by (apply compile_phase_ok; eauto).
  destruct (compile_phase (source +:+ ".post_invocation") _ _) as [post|e2] eqn:E2.
  2: { intros [= <-]. apply refused_step; [done|]. apply first_failure_app. right.
       split; [done|]. by apply compile_phase_err. }
  assert (A2 : accepts read_step (post_steps source raw)) by (apply compile_phase_ok; eauto).
  assert (A12 : accepts read_step (pre_steps source raw ++ post_steps source raw)) by (by apply accepts_app).
  destruct (compile_fields source "args" _) as [args|e3] eqn:E3.
  2: { intros [= <-]. apply refused_chain; [done..|]. apply first_failure_app. left. by apply compile_fields_err in E3. }
  apply compile_fields_ok in E3.
  destruct (compile_fields source "result" _) as [res|e4] eqn:E4.
  2: { intros [= <-]. apply refused_chain; [done..|]. apply first_failure_app. right.
       split; [done|]. by apply compile_fields_err in E4. }
  apply compile_fields_ok in E4. intros Hr.
  eapply refused_elicitations; [done|by apply accepts_app|exact E1|exact E2|].
  rewrite !first_failure_cons. simpl. destruct (reject_elicitations source "pre_invocation" pre); [|naive_solver].
  right. split; [done|]. left. destruct (reject_elicitations source "post_invocation" post); naive_solver.
Qed.

Lemma chains_ok source raw :
  accepts read_chain (chains raw) ->
  exists args res, compile_fields source "args" (ry_args raw) = Ok args
    /\ compile_fields source "result" (ry_result raw) = Ok res.
Proof.
  unfold chains. rewrite accepts_app. intros [Ha Hr].
  destruct (compile_fields source "args" (ry_args raw)) as [args|e] eqn:E1.
  2: { apply compile_fields_err in E1. by apply accepts_no_failure in E1. }
  destruct (compile_fields source "result" (ry_result raw)) as [res|e] eqn:E2; [eauto|].
  apply compile_fields_err in E2. by apply accepts_no_failure in E2.
Qed.

Lemma refused_compile_err source raw e : refused source raw e -> compile_apl_blocks source raw = Err e.
Proof.
  rewrite compile_unfold. intros [Ha|e1 Ha Hf|e1 Ha Hs Hf|pre post e1 Ha Hc E1 E2 Hf]; rewrite Ha; [done|..].
  - apply first_failure_app in Hf as [Hf|[Hs Hf]].
    + apply compile_phase_err in Hf. by rewrite Hf.
    + apply compile_phase_ok in Hs as [pre ->]. apply compile_phase_err in Hf. by rewrite Hf.
  - apply accepts_app in Hs as [Hs1 Hs2]. apply compile_phase_ok in Hs1 as [pre ->].
    apply compile_phase_ok in Hs2 as [post ->]. apply first_failure_app in Hf as [Hf|[Hc Hf]].
    + apply (compile_fields_err source) in Hf. by rewrite Hf.
    + destruct (compile_fields source "args" (ry_args raw)) as [args|e2] eqn:E2.
      * apply (compile_fields_err source) in Hf. by rewrite Hf.
      * apply compile_fields_err in E2. by apply accepts_no_failure in E2.
  - rewrite E1, E2. destruct (chains_ok source raw Hc) as (args & res & -> & ->).
    rewrite !first_failure_cons in Hf. simpl in Hf.
    destruct (reject_elicitations source "pre_invocation" pre); [|naive_solver].
    destruct Hf as [?|[_ [Hf|[_ (b & y & k & E & _)]]]]; [done| |by destruct b]. by rewrite Hf.
Qed.

(** Claim C30. The compiler refuses a document exactly for one of the listed reasons and
    reports the first: an [authorization:] block without steps, then the first step that
    does not parse, then the first chain, then a phase with two elicitations. No bad entry
    is skipped and no later error hides an earlier one. *)
Theorem compile_refuses_exactly source raw e :
  compile_apl_blocks source raw = Err e <-> refused source raw e.
Proof. split; [apply compile_err_refused|apply refused_compile_err]. Qed.
End Errors.
