(* ===== verification/StageProps.v ===== *)
(** * Pipe chains round-trip

    A chain printed in the concrete syntax parses back to itself. *)

From Stdlib Require Import Ascii String DecimalString.
From S2P Require Import Prelude RustStr F64 Json Platform Rules Constraint Step Lexical Predicate Effects LexerProps.
From S2P Require Import Scan Stages StepParser ScanProps CompileProps.

(** ** Printing *)

Definition type_word (tc : TypeCheck) : string :=
  match tc with
  | TStr => "str" | TInt => "int" | TBool => "bool" | TFloat => "float"
  | TEmail => "email" | TUrl => "url" | TUuid => "uuid"
  end.

Definition scan_word (k : ScanKind) : string :=
  match k with PiiRedact => "pii.redact" | PiiDetect => "pii.detect" | InjectionScan => "injection.scan" end.

Definition scope_word (s : TaintScope) : string :=
  match s with ScopeSession => "session" | ScopeMessage => "message" end.

Definition show_bound (o : option Z) : string := match o with Some z => show_Z z | None => "" end.
Definition range_text (min max : option Z) : string := show_bound min +:+ ".." +:+ show_bound max.

Definition call (head : string) (body : list piece) : list piece := text head ++ PB "(" :: body ++ [PB ")"].

Definition scopes_pieces (scopes : list TaintScope) : list piece :=
  PB "[" :: join_pieces "," (map (fun s => text (scope_word s)) scopes) ++ [PB "]"].

Definition print_stage (st : Stage) : list piece :=
  match st with
  | StType tc => text (type_word tc)
  | StRegex pattern => call "regex" [PL pattern]
  | StValidate _ => []
  | StLength min max => call "len" (text (range_text min max))
  | StRange min max => text (range_text min max)
  | StEnum values => call "enum" (join_pieces "," (map (fun v => [PL v]) values))
  | StMask n => call "mask" (text (show_Z n))
  | StRedact None => text "redact"
  | StRedact (Some e) => call "redact" (spell_pieces (print 0 e))
  | StOmit => text "omit"
  | StHash => text "hash"
  | StTaint label scopes => call "taint" (join_pieces "," [text label; scopes_pieces scopes])
  | StPlugin name => call "run" (text name)
  | StScan k => text (scan_word k)
  end.

Definition print_pipeline (p : Pipeline) : string := render (join_pieces "|" (map print_stage (stages p))).

(** A bare word: printable ASCII without brackets, quotes or commas. *)
Definition word_byte (b : ascii) : bool := graphic b && quiet b && negb (Ascii.eqb "," b).
Definition word (s : string) : bool := non_empty s && string_forall word_byte s.

(** What the syntax can write. *)
Definition writable (st : Stage) : bool :=
  stage_wf st &&
  match st with
  | StRedact (Some e) => printable e && forallb tok_ok (print 0 e)
  | StTaint label _ => word label
  | StPlugin name => word name
  | _ => true
  end.

(** ** Suffixes *)

Lemma string_rev_app_snoc s c acc : string_rev_app (s +:+ str1 c) acc = String c (string_rev_app s acc).
Proof. revert acc. induction s as [|a s IH]; intros acc; [done|]. rewrite string_app_cons. simpl. apply IH. Qed.

Lemma string_rev_app_app s acc : string_rev_app s acc = string_rev s +:+ acc.
Proof.
  unfold string_rev. revert acc. induction s as [|a s IH]; intros acc; simpl; [done|].
  rewrite IH, (IH (String a "")), append_assoc. done.
Qed.

Lemma string_rev_cons a s : string_rev (String a s) = string_rev s +:+ str1 a.
Proof. unfold string_rev at 1. simpl. by rewrite string_rev_app_app. Qed.

Lemma string_rev_snoc s c : string_rev (s +:+ str1 c) = String c (string_rev s).
Proof. apply string_rev_app_snoc. Qed.

Lemma string_rev_involutive s : string_rev (string_rev s) = s.
Proof. induction s as [|a s IH]; [done|]. by rewrite string_rev_cons, string_rev_snoc, IH. Qed.

Lemma strip_suffix_snoc c d s : strip_suffix c (s +:+ str1 d) = if Ascii.eqb d c then Some s else None.
Proof. unfold strip_suffix. rewrite string_rev_snoc. by rewrite string_rev_involutive. Qed.

(** ** Numbers *)

Lemma show_Z_snoc z : exists u b, show_Z z = u +:+ str1 b /\ is_ascii_digit b = true.
Proof.
  destruct (show_Z_shape z) as (neg & d & -> & Hn & Hd & _). destruct d as [|a d]; [done|].
  destruct (string_snoc a d) as (u & b & E & Hb). exists ((if neg : bool then "-" else "") +:+ u), b.
  rewrite E, append_assoc. split; [done|]. by apply Hb.
Qed.

Lemma show_Z_edged z : edged (show_Z z).
Proof.
  apply all_graphic_edged.
  - destruct (show_Z_shape z) as (neg & d & -> & Hn & _ & _). destruct neg, d; done.
  - destruct (show_Z_shape z) as (neg & d & -> & _ & Hd & _).
    assert (string_forall graphic d = true) by (eapply string_forall_impl; [apply digit_graphic|exact Hd]).
    by destruct neg.
Qed.

Lemma numeric_show z : in_i64 z = true -> parse_numeric_with_suffix (show_Z z) = Some z.
Proof.
  intros Hz. unfold parse_numeric_with_suffix. rewrite trim_edged by apply show_Z_edged.
  pose proof (parse_show_Z z Hz) as Hp. destruct (show_Z_snoc z) as (u & b & E & Hb). rewrite E in *.
  assert (String.eqb (u +:+ str1 b) "" = false) as -> by (by destruct u).
  unfold strip_either. rewrite !strip_suffix_snoc.
  assert (forall c, is_ascii_digit c = false -> Ascii.eqb b c = false) as Hne.
  { intros c Hc. destruct (Ascii.eqb_spec b c) as [->|]; congruence. }
  rewrite !Hne by done. rewrite Hp. unfold checked_mul, then_some. rewrite Z.mul_1_r. by rewrite Hz.
Qed.

Lemma bound_show o : bound_ok i64_min o = true -> parse_bound (trim (show_bound o)) = Some o.
Proof.
  destruct o as [z|]; simpl; [|done]. intros [_ Hz]%andb_true_iff. rewrite trim_edged by apply show_Z_edged.
  unfold parse_bound. destruct (show_Z_snoc z) as (u & b & E & Hb).
  assert (String.eqb (show_Z z) "" = false) as -> by (rewrite E; by destruct u).
  by rewrite numeric_show.
Qed.

Lemma split_dotdot_app s t : string_forall (fun a => negb (Ascii.eqb "." a)) s = true -> split_dotdot (s +:+ ".." +:+ t) = Some (s, t).
Proof.
  induction s as [|a s IH]; [done|]. cbn [string_forall]. intros [Ha Hs]%andb_true_iff.
  rewrite string_app_cons. cbn [split_dotdot strip_prefix]. apply negb_true_iff in Ha. rewrite Ha. by rewrite IH.
Qed.

Lemma show_bound_no_dot o : string_forall (fun a => negb (Ascii.eqb "." a)) (show_bound o) = true.
Proof.
  destruct o as [z|]; [|done]. simpl. destruct (show_Z_shape z) as (neg & d & -> & _ & Hd & _).
  assert (Hd' : string_forall (fun a => negb (Ascii.eqb "." a)) d = true).
  { eapply string_forall_impl; [|exact Hd]. intros a Ha. by destruct (Ascii.eqb_spec "." a) as [<-|]. }
  by destruct neg.
Qed.

Lemma range_show min max :
  one_bound min max = true -> bound_ok i64_min min = true -> bound_ok i64_min max = true ->
  parse_range_inner (range_text min max) = Some (min, max).
Proof.
  intros H1 Hmin Hmax. unfold parse_range_inner, range_text. rewrite split_dotdot_app by apply show_bound_no_dot.
  rewrite !bound_show by done. by destruct min, max.
Qed.

Lemma parse_show_usize n : (0 <= n <= usize_max)%Z -> parse_usize (show_Z n) = Some n.
Proof.
  intros Hn. pose proof (parse_show_nat (Z.to_nat n)) as Hp. rewrite Z2Nat.id in Hp by lia.
  rewrite <- Hp by lia. f_equal. unfold show_nat, show_Z. rewrite Z_nat_N. destruct n; [done|done|lia].
Qed.

(** ** Heads and arguments *)

Definition head_byte (b : ascii) : bool := graphic b && quiet b && negb (Ascii.eqb "|" b).
Definition head_ok (s : string) : bool := non_empty s && string_forall head_byte s.

Lemma head_edged s : head_ok s = true -> edged s.
Proof.
  unfold head_ok, non_empty. intros [Hn Hs]%andb_true_iff. apply all_graphic_edged.
  - by destruct s.
  - eapply string_forall_impl; [|exact Hs]. unfold head_byte. intros a. rewrite !andb_true_iff. naive_solver.
Qed.

Lemma find_paren s t : string_forall quiet s = true -> find_char "(" (s +:+ String "(" t) = Some (String.length s).
Proof.
  induction s as [|a s IH]; [done|]. cbn [string_forall]. intros [Ha Hs]%andb_true_iff.
  rewrite string_app_cons. cbn [find_char String.length]. rewrite IH by done.
  by destruct (Ascii.eqb_spec a "(") as [->|].
Qed.

Lemma find_no_paren s : string_forall quiet s = true -> find_char "(" s = None.
Proof.
  induction s as [|a s IH]; [done|]. cbn [string_forall find_char]. intros [Ha Hs]%andb_true_iff.
  rewrite IH by done. by destruct (Ascii.eqb_spec a "(") as [->|].
Qed.

Lemma head_quiet s : head_ok s = true -> string_forall quiet s = true.
Proof.
  intros [_ Hs]%andb_true_iff. eapply string_forall_impl; [|exact Hs].
  unfold head_byte. intros a. rewrite !andb_true_iff. naive_solver.
Qed.

Lemma head_nonempty s : head_ok s = true -> String.eqb s "" = false.
Proof. intros [Hn _]%andb_true_iff. unfold non_empty in Hn. by apply negb_true_iff in Hn. Qed.

Lemma split_head_bare s : head_ok s = true -> split_head_args s = Some (s, None).
Proof.
  intros Hs. unfold split_head_args. rewrite find_no_paren by (by apply head_quiet).
  rewrite trim_edged by (by apply head_edged). by rewrite head_nonempty.
Qed.

(** Text that is balanced for a cutter. *)
Definition balanced (p : Pair) (ps : list piece) : Prop := level (opens p) (closes p) no_stop ps 0 = Some 0.

Lemma render_call head ps : render (call head ps) = head +:+ String "(" (render ps +:+ ")").
Proof. unfold call. rewrite render_app, render_text. cbn [render piece_text]. by rewrite render_app. Qed.

Lemma split_head_call head ps :
  head_ok head = true -> forallb piece_ok ps = true -> balanced parens ps ->
  split_head_args (render (call head ps)) = Some (head, Some (render ps)).
Proof.
  intros Hh Hok Hb. unfold split_head_args. rewrite render_call, find_paren by (by apply head_quiet).
  rewrite (matching_close_at _ _ ps "") by (done || apply drop_bytes_app).
  rewrite take_bytes_app, trim_edged, head_nonempty by (done || by apply head_edged).
  assert (Hin : drop_bytes (S (String.length head)) (head +:+ String "(" (render ps +:+ ")")) = render ps +:+ ")").
  { rewrite <- Nat.add_1_r, <- drop_bytes_add, drop_bytes_app. simpl. by destruct (render ps). }
  replace (S (S (String.length head) + String.length (render ps)))
    with (S (String.length head) + (String.length (render ps) + 1)) by lia.
  rewrite <- drop_bytes_add, Hin, <- drop_bytes_add, drop_bytes_app. unfold slice. rewrite Hin.
  replace (S (String.length head) + String.length (render ps) - S (String.length head))
    with (String.length (render ps)) by lia.
  by rewrite take_bytes_app.
Qed.

Lemma call_edged head ps : head_ok head = true -> edged (render (call head ps)).
Proof.
  intros Hh. rewrite render_call. change (String "(" (render ps +:+ ")")) with (("(" +:+ render ps) +:+ ")").
  apply edged_app; [by apply head_edged|]. by apply all_graphic_edged.
Qed.

Lemma not_range a s : is_ascii_alphabetic a = true -> try_parse_range (String a s) = None.
Proof. intros Ha. unfold try_parse_range. destruct (split_dotdot _); [|done]. by rewrite Ha. Qed.

Section Parse.
Context `{Platform}.

Lemma parse_stage_call a head ps :
  is_ascii_alphabetic a = true -> head_ok (String a head) = true -> forallb piece_ok ps = true -> balanced parens ps ->
  parse_stage (render (call (String a head) ps)) = call_stage (render (call (String a head) ps)) (String a head) (render ps).
Proof.
  intros Ha Hh Hok Hb. unfold parse_stage. rewrite trim_edged by (by apply call_edged).
  rewrite split_head_call by done. rewrite render_call at 1. rewrite string_app_cons. by rewrite not_range.
Qed.

Lemma parse_stage_bare a head st :
  is_ascii_alphabetic a = true -> head_ok (String a head) = true -> bare_stage (String a head) = Some st ->
  parse_stage (String a head) = Ok st.
Proof.
  intros Ha Hh Hst. unfold parse_stage. rewrite trim_edged by (by apply head_edged).
  by rewrite not_range, split_head_bare, Hst.
Qed.
End Parse.

(** ** Literals *)

Lemma quote_literal_edged v : edged (quote_literal v).
Proof. exists squote, (escape v +:+ str1 squote), (String squote (escape v)), squote. done. Qed.

Lemma literal_value_quoted v : literal_value (trim (quote_literal v)) = Ok v.
Proof.
  rewrite trim_edged by apply quote_literal_edged. unfold literal_value, literal_or_bare, read_whole_literal.
  rewrite trim_edged by apply quote_literal_edged. unfold quote_literal at 1. change (is_quote squote) with true.
  cbv iota zeta. unfold read_literal. change (drop_bytes 0 (quote_literal v)) with (quote_literal v).
  unfold quote_literal at 1. change (is_quote squote) with true. cbv iota.
  pose proof (literal_loop_escape (quote_literal v) 0 v 1 "" "") as E. rewrite string_app_nil_r in E. rewrite E.
  cbn [ql_end ql_value]. unfold quote_literal. cbn [String.length]. rewrite string_app_length.
  change (String.length (str1 squote)) with 1. rewrite Nat.add_1_r, Nat.eqb_refl. done.
Qed.

(** ** Words and scopes *)

Lemma word_edged s : word s = true -> edged s.
Proof.
  intros [Hn Hs]%andb_true_iff. unfold non_empty in Hn. apply all_graphic_edged; [by destruct s|].
  eapply string_forall_impl; [|exact Hs]. unfold word_byte. intros a. rewrite !andb_true_iff. naive_solver.
Qed.

Lemma word_quiet s : word s = true -> string_forall quiet s = true.
Proof.
  intros [_ Hs]%andb_true_iff. eapply string_forall_impl; [|exact Hs].
  unfold word_byte. intros a. rewrite !andb_true_iff. naive_solver.
Qed.

Lemma quiet_pieces_ok s : string_forall quiet s = true -> forallb piece_ok (text s) = true.
Proof.
  intros Hs. apply text_ok. eapply string_forall_impl; [|exact Hs].
  unfold quiet. intros a. rewrite !andb_true_iff. naive_solver.
Qed.

Lemma quiet_balanced p s : pair_ok p -> string_forall quiet s = true -> balanced p (text s).
Proof.
  intros Hp Hs. apply level_quiet; [done|]. eapply string_forall_impl; [|exact Hs]. simpl. by intros a ->.
Qed.

Lemma join_level op cl sep segs d :
  op sep = false -> cl sep = false -> Forall (fun ps => level op cl no_stop ps d = Some d) segs ->
  level op cl no_stop (join_pieces sep segs) d = Some d.
Proof.
  intros Ho Hc. induction 1 as [|ps segs Hps Hsegs IH]; [done|]. destruct segs as [|q segs]; [done|].
  change (join_pieces sep (ps :: q :: segs)) with (ps ++ PB sep :: join_pieces sep (q :: segs)).
  rewrite level_app, Hps. cbn [level]. rewrite Ho, Hc. done.
Qed.

Lemma scope_words_ok scopes : Forall (fun ps => forallb piece_ok ps = true) (map (fun s => text (scope_word s)) scopes).
Proof. apply Forall_map, Forall_forall. by intros []. Qed.

Lemma scopes_ok scopes : forallb piece_ok (scopes_pieces scopes) = true.
Proof. simpl. rewrite forallb_app, join_pieces_ok; [done|done|apply scope_words_ok]. Qed.

Lemma scopes_level p scopes d :
  opens p "["%char = closes p "]"%char -> opens p "]"%char = false -> closes p "["%char = false ->
  opens p ","%char = false -> closes p ","%char = false ->
  (forall s d, level (opens p) (closes p) no_stop (text (scope_word s)) d = Some d) ->
  level (opens p) (closes p) no_stop (scopes_pieces scopes) d = Some d.
Proof.
  intros He Ho Hc Hco Hcc Hw. unfold scopes_pieces. cbn [level]. rewrite He, Hc.
  assert (Hj : forall d, level (opens p) (closes p) no_stop
    (join_pieces "," (map (fun s => text (scope_word s)) scopes)) d = Some d).
  { intros d'. apply join_level; [done..|]. apply Forall_map, Forall_forall. auto. }
  destruct (closes p "]"%char) eqn:E; simpl; rewrite level_app, Hj; simpl; rewrite Ho, E; done.
Qed.

(** Balanced text in brackets: separators inside do not count. *)
Lemma bracketed_level op cl stop o c ps :
  op o = true -> op c = false -> cl c = true -> level op cl no_stop ps 0 = Some 0 ->
  level op cl stop (PB o :: ps ++ [PB c]) 0 = Some 0.
Proof.
  intros Ho Hoc Hc Hl. cbn [level]. rewrite Ho, level_app.
  pose proof (level_nested op cl stop ps 0 0 0 Hl) as Hn. simpl in Hn. rewrite Hn. cbn [level]. by rewrite Hoc, Hc.
Qed.

Lemma scope_list_inside scopes :
  scopes <> [] ->
  split_top_level (render (join_pieces "," (map (fun s => text (scope_word s)) scopes))) "," = map scope_word scopes.
Proof.
  intros Hne. rewrite split_top_level_join; [|done..|by destruct scopes|].
  - rewrite map_map. apply map_ext. intros s. apply render_text.
  - apply Forall_map, Forall_forall. by intros [].
Qed.

Lemma parse_taint_printed label scopes src :
  word label = true -> scopes <> [] ->
  parse_taint (render (join_pieces "," [text label; scopes_pieces scopes])) src = Ok (StTaint label scopes).
Proof.
  intros Hw Hne. unfold parse_taint. rewrite split_top_level_join; [|done..|].
  - cbn [map]. rewrite render_text, trim_edged by (by apply word_edged).
    assert (String.eqb label "" = false) as ->.
    { apply andb_true_iff in Hw as [Hn _]. unfold non_empty in Hn. by apply negb_true_iff in Hn. }
    cbn [String.concat]. set (inner := join_pieces "," (map (fun s => text (scope_word s)) scopes)).
    assert (Er : render (scopes_pieces scopes) = String "[" (render inner +:+ "]")).
    { unfold scopes_pieces. cbn [render piece_text]. by rewrite render_app. }
    rewrite Er, trim_edged.
    2: { exists "["%char, (render inner +:+ "]"), (String "[" (render inner)), "]"%char. done. }
    unfold strip_brackets. cbn [strip_prefix str1]. change (Ascii.eqb "[" "[") with true. cbv iota.
    change (render inner +:+ "]") with (render inner +:+ str1 "]"). rewrite strip_suffix_snoc.
    change (Ascii.eqb "]" "]") with true. cbv iota. unfold inner.
    rewrite scope_list_inside by done.
    assert (Hc : collect (fun s => parse_taint_scope (trim s) src) (map scope_word scopes) = Ok scopes).
    { clear. induction scopes as [|s scopes IH]; [done|]. cbn [map collect]. rewrite IH. by destruct s. }
    by rewrite Hc.
  - constructor; [|constructor; [|done]].
    + split; [by apply quiet_pieces_ok, word_quiet|]. apply (level_quiet brackets2 brackets2_ok).
      apply andb_true_iff in Hw as [_ Hs]. eapply string_forall_impl; [|exact Hs].
      unfold word_byte. intros a. rewrite !andb_true_iff. naive_solver.
    + split; [apply scopes_ok|]. apply bracketed_level; [done..|]. apply join_level; [done..|].
      apply Forall_map, Forall_forall. by intros [].
Qed.

(** The arguments of every stage are balanced for both cutters. *)
Definition inside_ok (ps : list piece) : Prop :=
  forallb piece_ok ps = true /\ balanced parens ps /\ balanced brackets2 ps.

Lemma quiet_inside s : string_forall quiet s = true -> inside_ok (text s).
Proof.
  intros Hs. split; [by apply quiet_pieces_ok|]. split; apply quiet_balanced; by auto using parens_ok, brackets2_ok.
Qed.

Lemma show_bound_quiet o : string_forall quiet (show_bound o) = true.
Proof.
  destruct o as [z|]; [|done]. simpl. destruct (show_Z_shape z) as (neg & d & -> & _ & Hd & _).
  assert (string_forall quiet d = true) by (eapply string_forall_impl; [apply digit_quiet|exact Hd]).
  by destruct neg.
Qed.

Lemma range_quiet min max : string_forall quiet (range_text min max) = true.
Proof. unfold range_text. rewrite !string_forall_app, !show_bound_quiet. done. Qed.

Lemma printed_inside e : forallb tok_ok (print 0 e) = true -> inside_ok (spell_pieces (print 0 e)).
Proof.
  intros Hok. split; [by apply spell_pieces_ok|].
  split; apply printed_level; by auto using parens_ok, brackets2_ok.
Qed.

Lemma enum_inside values : inside_ok (join_pieces "," (map (fun v => [PL v]) values)).
Proof.
  split; [|split]; [apply join_pieces_ok; [done|]|apply join_level; [done..|]|apply join_level; [done..|]];
    by apply Forall_map, Forall_forall.
Qed.

Lemma taint_inside label scopes :
  word label = true -> inside_ok (join_pieces "," [text label; scopes_pieces scopes]).
Proof.
  intros Hw. pose proof (word_quiet label Hw) as Hq. split; [|split].
  - apply join_pieces_ok; [done|]. constructor; [by apply quiet_pieces_ok|]. constructor; [apply scopes_ok|done].
  - apply join_level; [done..|]. constructor; [exact (quiet_balanced parens label parens_ok Hq)|].
    constructor; [|done]. apply (scopes_level parens); [done..|]. by intros [].
  - apply join_level; [done..|]. constructor; [exact (quiet_balanced brackets2 label brackets2_ok Hq)|].
    constructor; [|done]. apply (scopes_level brackets2); [done..|]. by intros [].
Qed.

Lemma call_cut head ps :
  head_ok head = true -> inside_ok ps -> segment_cut is_open2 is_close2 "|" (call head ps).
Proof.
  intros Hh (Hok & _ & Hb). split.
  - unfold call. rewrite forallb_app, quiet_pieces_ok by (by apply head_quiet). cbn [forallb piece_ok]. simpl.
    rewrite forallb_app, Hok. done.
  - unfold call. rewrite level_app.
    assert (level is_open2 is_close2 (Ascii.eqb "|") (text head) 0 = Some 0) as ->.
    { apply (level_quiet brackets2 brackets2_ok). apply andb_true_iff in Hh as [_ Hh].
      eapply string_forall_impl; [|exact Hh]. unfold head_byte. intros a. rewrite !andb_true_iff. naive_solver. }
    by apply bracketed_level.
Qed.

Lemma bare_cut head : head_ok head = true -> segment_cut is_open2 is_close2 "|" (text head).
Proof.
  intros Hh. split; [by apply quiet_pieces_ok, head_quiet|]. apply (level_quiet brackets2 brackets2_ok).
  apply andb_true_iff in Hh as [_ Hh]. eapply string_forall_impl; [|exact Hh].
  unfold head_byte. intros a. rewrite !andb_true_iff. naive_solver.
Qed.

(** The bytes of a range. *)
Definition range_byte (b : ascii) : bool := is_ascii_digit b || Ascii.eqb b "-" || Ascii.eqb b ".".

Lemma range_bytes min max : string_forall range_byte (range_text min max) = true.
Proof.
  assert (Hb : forall o, string_forall range_byte (show_bound o) = true).
  { intros [z|]; [|done]. simpl. destruct (show_Z_shape z) as (neg & d & -> & _ & Hd & _).
    assert (string_forall range_byte d = true)
      by (eapply string_forall_impl; [|exact Hd]; unfold range_byte; by intros a ->).
    by destruct neg. }
  unfold range_text. by rewrite !string_forall_app, !Hb.
Qed.

Lemma range_byte_head b : range_byte b = true -> head_byte b = true.
Proof. destruct b as [[] [] [] [] [] [] [] []]; first [discriminate|reflexivity]. Qed.

Lemma range_byte_not_name b : range_byte b = true -> is_ascii_alphabetic b || Ascii.eqb b "_" = false.
Proof. destruct b as [[] [] [] [] [] [] [] []]; first [discriminate|reflexivity]. Qed.

Lemma range_head min max : head_ok (range_text min max) = true.
Proof.
  unfold head_ok. apply andb_true_iff. split.
  - unfold range_text. by destruct (show_bound min).
  - eapply string_forall_impl; [apply range_byte_head|apply range_bytes].
Qed.

Lemma try_range_show min max :
  one_bound min max = true -> bound_ok i64_min min = true -> bound_ok i64_min max = true ->
  try_parse_range (range_text min max) = Some (StRange min max).
Proof.
  intros H1 Hmin Hmax. unfold try_parse_range. rewrite (range_show min max) by done.
  pose proof (range_bytes min max) as Hb. unfold range_text in *. rewrite split_dotdot_app by apply show_bound_no_dot.
  destruct (show_bound min +:+ ".." +:+ show_bound max) as [|a s] eqn:E; [by destruct (show_bound min)|].
  cbn [string_forall] in Hb. apply andb_true_iff in Hb as [Ha _]. by rewrite range_byte_not_name.
Qed.

(** ** Round trip *)

Section RoundTrip.
Context `{Platform}.

(** A printed predicate reads back (the round trip of the predicate language). *)
Lemma parse_predicate_printed e :
  printable e = true -> forallb tok_ok (print 0 e) = true -> parse_predicate (spell_all (print 0 e)) = Ok e.
Proof.
  intros Hp Hok. assert (Hne : print 0 e <> []).
  { pose proof (print_size 0 e Hp) as Hs. intros E. rewrite E in Hs. by destruct e; simpl in Hs; lia. }
  unfold parse_predicate, PredParser_parse. rewrite trim_edged by (by apply spell_all_edged).
  rewrite tokenize_spell_all by done. by rewrite parse_printed.
Qed.

Lemma to_usize_ok src o : bound_ok 0 o = true -> transpose (to_usize src) o = Ok o.
Proof.
  destruct o as [z|]; [|done]. simpl. intros [Hz _]%andb_true_iff. unfold to_usize.
  destruct (Z.ltb_spec z 0); [lia|done].
Qed.

Lemma bound_weaken o : bound_ok 0 o = true -> bound_ok i64_min o = true.
Proof. destruct o as [z|]; [|done]. simpl. intros [Hz ->]%andb_true_iff. unfold i64_min. lia. Qed.

Lemma collect_quoted src values :
  collect (fun v => result_map_err (bad src) (literal_value (trim v))) (map quote_literal values) = Ok values.
Proof. induction values as [|v values IH]; [done|]. cbn [map collect]. by rewrite literal_value_quoted, IH. Qed.

Lemma filter_all_non_empty values :
  forallb non_empty values = true -> List.filter (fun s => negb (String.eqb s "")) values = values.
Proof. intros Hv. by apply forallb_filter_id. Qed.

(** Text that is cut as one segment and reads as the stage. *)
Definition reads_stage (st : Stage) (ps : list piece) : Prop :=
  segment_cut is_open2 is_close2 "|" ps /\ edged (render ps) /\ parse_stage (render ps) = Ok st.

Lemma bare_reads st a head :
  is_ascii_alphabetic a = true -> head_ok (String a head) = true -> bare_stage (String a head) = Some st ->
  reads_stage st (text (String a head)).
Proof.
  intros Ha Hh Hst. split; [by apply bare_cut|]. rewrite render_text. split; [by apply head_edged|].
  by apply parse_stage_bare.
Qed.

Lemma call_reads st a head ps :
  is_ascii_alphabetic a = true -> head_ok (String a head) = true -> inside_ok ps ->
  call_stage (render (call (String a head) ps)) (String a head) (render ps) = Ok st ->
  reads_stage st (call (String a head) ps).
Proof.
  intros Ha Hh Hi Hst. split; [by apply call_cut|]. split; [by apply call_edged|].
  destruct Hi as (Hok & Hb & _). by rewrite parse_stage_call.
Qed.

Lemma range_reads mn mx : stage_wf (StRange mn mx) = true -> reads_stage (StRange mn mx) (text (range_text mn mx)).
Proof.
  cbn [stage_wf]. rewrite !andb_true_iff. intros [[H1 Hmn] Hmx].
  pose proof (range_head mn mx) as Hh. split; [by apply bare_cut|]. rewrite render_text.
  split; [by apply head_edged|]. unfold parse_stage. rewrite trim_edged by (by apply head_edged).
  by rewrite try_range_show.
Qed.

Lemma enum_reads values : stage_wf (StEnum values) = true -> reads_stage (StEnum values) (print_stage (StEnum values)).
Proof.
  cbn [stage_wf]. intros [Hn Hv]%andb_true_iff.
  apply call_reads; [done..|apply enum_inside|]. unfold call_stage. simpl (String.eqb _ _). cbv iota.
  unfold parse_stage_enum. rewrite split_top_level_join; [|done..|by destruct values|].
  2: { by apply Forall_map, Forall_forall. }
  rewrite map_map. cbn [render piece_text]. setoid_rewrite string_app_nil_r.
  rewrite collect_quoted, filter_all_non_empty by done. by destruct values.
Qed.

Lemma stage_round_trip st : writable st = true -> reads_stage st (print_stage st).
Proof.
  unfold writable. intros [Hwf Hw]%andb_true_iff.
  destruct st as [tc|pattern|name|mn mx|mn mx|values|n|[e|]| | |label scopes|name|k]; cbn [print_stage].
  - destruct tc; by apply bare_reads.
  - apply call_reads; [done..|]. unfold call_stage. cbn [render piece_text]. rewrite string_app_nil_r.
    simpl (String.eqb _ _). cbv iota. unfold parse_stage_regex. by rewrite literal_value_quoted.
  - done.
  - cbn [stage_wf] in Hwf. rewrite !andb_true_iff in Hwf. destruct Hwf as [[H1 Hmn] Hmx].
    apply call_reads; [done..|apply quiet_inside, range_quiet|]. unfold call_stage. rewrite render_text.
    simpl (String.eqb _ _). cbv iota. unfold parse_stage_len. rewrite range_show by (done || by apply bound_weaken).
    by rewrite !to_usize_ok.
  - by apply range_reads.
  - by apply enum_reads.
  - cbn [stage_wf] in Hwf. rewrite andb_true_iff, !Z.leb_le in Hwf.
    apply call_reads; [done..|apply quiet_inside, (show_bound_quiet (Some n))|]. unfold call_stage. rewrite render_text.
    simpl (String.eqb _ _). cbv iota. unfold parse_stage_mask. rewrite trim_edged by apply show_Z_edged.
    by rewrite parse_show_usize.
  - apply andb_true_iff in Hw as [Hp Hok]. apply call_reads; [done..|by apply printed_inside|].
    unfold call_stage. simpl (String.eqb _ _). cbv iota. unfold parse_stage_redact_cond.
    by rewrite render_spell, parse_predicate_printed.
  - by apply bare_reads.
  - by apply bare_reads.
  - by apply bare_reads.
  - cbn [stage_wf] in Hwf. apply andb_true_iff in Hwf as [_ Hs]. apply call_reads; [done..|by apply taint_inside|].
    unfold call_stage. simpl (String.eqb _ _). cbv iota. apply parse_taint_printed; [done|by destruct scopes].
  - apply call_reads; [done..|by apply quiet_inside, word_quiet|]. unfold call_stage. rewrite render_text.
    simpl (String.eqb _ _). cbv iota. unfold parse_stage_plugin. rewrite trim_edged by (by apply word_edged).
    cbn [stage_wf] in Hwf. unfold non_empty in Hwf. apply negb_true_iff in Hwf. by rewrite Hwf.
  - destruct k; by apply bare_reads.
Qed.

Lemma pipeline_segments_printed src l p :
  forallb writable l = true ->
  pipeline_segments src (map (fun st => render (print_stage st)) l) p = Ok (mkPipeline (stages p ++ l)).
Proof.
  revert p. induction l as [|st l IH]; intros p Hl.
  { destruct p. simpl. by rewrite app_nil_r. }
  cbn [forallb] in Hl. apply andb_true_iff in Hl as [Hst Hl].
  destruct (stage_round_trip st Hst) as (_ & He & Hp). cbn [map pipeline_segments].
  rewrite trim_edged by done. assert (String.eqb (render (print_stage st)) "" = false) as ->.
  { destruct He as (a & s' & _ & _ & -> & _). done. }
  rewrite Hp, IH by done. unfold Pipeline_push. simpl. by rewrite <- (assoc_L (++)).
Qed.

Lemma pipeline_edged l : l <> [] -> forallb writable l = true -> edged (render (join_pieces "|" (map print_stage l))).
Proof.
  induction l as [|st l IH]; [done|]. intros _ [Hst Hl]%andb_true_iff.
  destruct (stage_round_trip st Hst) as (_ & He & _). destruct l as [|st' l]; [done|].
  cbn [map]. rewrite render_join_cons.
  change (String "|" (render (join_pieces "|" (print_stage st' :: map print_stage l))))
    with ("|" +:+ render (join_pieces "|" (map print_stage (st' :: l)))).
  apply edged_app; [done|]. by apply IH.
Qed.

(** Pipe chains round-trip through their text: a chain of stages the syntax can
    write (types, ranges, lengths, enumerations and regexes with quoted values, masks,
    redactions under a printed predicate, taints with scopes, plugin calls and scans),
    printed with [|] between the stages, parses back to exactly that chain; separators and
    parentheses inside quotes, brackets and predicates do not cut it. *)
Theorem pipeline_round_trip p :
  forallb writable (stages p) = true -> parse_pipeline (print_pipeline p) = Ok p.
Proof.
  destruct p as [l]. unfold print_pipeline, parse_pipeline. simpl. intros Hl.
  destruct l as [|st l]; [done|]. rewrite trim_edged by (by apply pipeline_edged).
  assert (String.eqb (render (join_pieces "|" (map print_stage (st :: l)))) "" = false) as ->.
  { destruct (pipeline_edged (st :: l)) as (a & s' & _ & _ & -> & _); done. }
  rewrite split_top_level_join; [|done..|].
  - rewrite map_map. by rewrite pipeline_segments_printed.
  - apply Forall_map. rewrite forallb_true_iff in Hl. eapply Forall_impl; [exact Hl|].
    intros x Hx. by destruct (stage_round_trip x Hx).
Qed.
End RoundTrip.

