(* ===== verification/RuleProps.v ===== *)
(** * From the lines of a policy to its decision

    A policy written as lines [require ( e )] and [e : deny('reason', 'code')], compiled and
    evaluated: what the text says is what is enforced. *)

From Stdlib Require Import Ascii String.
From S2P Require Import Prelude RustStr F64 Json Platform Attributes Rules Constraint Step Lexical Predicate Eval.
From S2P Require Import Effects Paths Host PipelineEval Branches Dispatch DispatchProps PhaseProps LexerProps Scan.
From S2P Require Import Stages RuleParser StepParser ScanProps CompileProps CompileErrors StageProps.

(** ** Names at the start of a line *)

Definition name_byte (b : ascii) : bool := is_segment_char b || Ascii.eqb b ".".

(** The run of name bytes a text starts with, and the rest. *)
Fixpoint name_run (s : string) : string * string :=
  match s with
  | EmptyString => ("", "")
  | String a s' => if name_byte a then (String a (name_run s').1, (name_run s').2) else ("", s)
  end.

Lemma name_run_app x y :
  string_forall name_byte x = true -> match y with String b _ => name_byte b = false | EmptyString => True end ->
  name_run (x +:+ y) = (x, y).
Proof.
  intros Hx Hy. induction x as [|a x IH].
  - change ("" +:+ y) with y. destruct y as [|b y]; [done|]. simpl. by rewrite Hy.
  - cbn [string_forall] in Hx. apply andb_true_iff in Hx as [Ha Hx]. rewrite string_app_cons. cbn [name_run].
    by rewrite Ha, IH.
Qed.

Lemma starts_with_spec p s : starts_with p s = true -> exists r, s = p +:+ r.
Proof.
  unfold starts_with. revert s. induction p as [|a p IH]; intros s; [by exists s|]. destruct s as [|b s]; [done|].
  simpl. destruct (ascii_dec a b) as [->|]; [|done]. intros [r ->]%IH. by exists r.
Qed.

(** The text does not start with a call or a step key. *)
Definition plain_start (s : string) : bool :=
  match name_run s with
  | (EmptyString, _) => true
  | (_, String b _) => negb (Ascii.eqb b "(") && negb (Ascii.eqb b ":")
  | (_, EmptyString) => true
  end.

Lemma plain_start_no w c s :
  string_forall name_byte w = true -> w <> "" -> c = "("%char \/ c = ":"%char ->
  plain_start s = true -> starts_with (w +:+ str1 c) s = false.
Proof.
  intros Hw Hne Hc Hs. apply not_true_is_false. intros [r ->]%starts_with_spec.
  unfold plain_start in Hs. rewrite append_assoc in Hs. rewrite name_run_app in Hs.
  - destruct w as [|a w]; [done|]. simpl in Hs. by destruct Hc as [->| ->].
  - done.
  - by destruct Hc as [->| ->].
Qed.

Lemma plain_start_no_step s : plain_start s = true -> detect_step_kind s = None \/ trim_start s <> s.
Proof.
  intros Hs. destruct (decide (trim_start s = s)) as [E|]; [left|by right]. unfold detect_step_kind. rewrite E.
  unfold STEP_PREFIXES. cbn [List.find fst].
  rewrite (plain_start_no "taint" "("), (plain_start_no "run" "("), (plain_start_no "cedar" ":"),
    (plain_start_no "opa" "("), (plain_start_no "authzen" "("), (plain_start_no "nemo" "("),
    (plain_start_no "cel" ":"), (plain_start_no "sequential" ":"), (plain_start_no "parallel" ":") by auto.
  done.
Qed.

Lemma plain_start_no_verb s : plain_start s = true -> find_verb s = None.
Proof.
  intros Hs. unfold find_verb, ELICIT_VERBS. cbn [List.find fst].
  by rewrite (plain_start_no "require_approval" "("), (plain_start_no "confirm" "("),
    (plain_start_no "require_step_up" "("), (plain_start_no "require_attestation" "("),
    (plain_start_no "request_info" "("), (plain_start_no "require_review" "(") by auto.
Qed.

Lemma trim_start_edged s : edged s -> trim_start s = s.
Proof.
  intros (a & s' & _ & _ & -> & _ & Ha & _). unfold trim_start.
  destruct (chars_head a s') as (t & cs & Ec). rewrite Ec. cbn [drop_while].
  rewrite (graphic_not_whitespace a t Ha), <- Ec. apply of_chars_chars.
Qed.

(** A line that starts plainly is a rule. *)
Section Line.
Context `{Platform, CompilerLib}.

Lemma parse_step_plain line source :
  edged line -> plain_start line = true ->
  parse_step_string line source = let? rule := parse_rule line source in Ok (StepRule rule).
Proof.
  intros He Hs. unfold parse_step_string. rewrite trim_edged by done.
  rewrite (plain_start_no "taint" "("), (plain_start_no "plugin" "("), (plain_start_no "run" "("),
    (plain_start_no "delegate" "(") by auto.
  by rewrite plain_start_no_verb.
Qed.

Lemma parse_rule_plain line source :
  edged line -> plain_start line = true ->
  parse_rule line source =
  match split_predicate_action line with
  | Some (p, a) => let? effects := parse_action a line in guarded_rule p line source effects
  | None =>
      match try_bare_action line with
      | Some effects => Ok (mkRule EAlways effects source)
      | None =>
          let? call := try_parse_deny_call line line in
          match call with
          | Some deny => Ok (mkRule EAlways [deny] source)
          | None => guarded_rule line line source [EffDeny None None]
          end
      end
  end.
Proof.
  intros He Hs. unfold parse_rule. rewrite trim_edged, trim_start_edged by done.
  rewrite (plain_start_no "plugin" "(") by auto.
  destruct (plain_start_no_step line Hs) as [->|E]; [done|]. by rewrite trim_start_edged in E.
Qed.
End Line.

(** ** The text of a policy *)

Inductive DenyText : Type :=
| BareDeny
| DenyReason (reason : string)
| DenyReasonCode (reason code : string).

Inductive PolicyLine : Type :=
| LRequire (e : Expression)
| LDenyIf (e : Expression) (d : DenyText).

Definition require_toks (e : Expression) : list Tok := TRequire :: TLParen :: print 0 e ++ [TRParen].

Definition deny_pieces (d : DenyText) : list piece :=
  match d with
  | BareDeny => text "deny"
  | DenyReason r => call "deny" (join_pieces "," [[PL r]])
  | DenyReasonCode r c => call "deny" (join_pieces "," [[PL r]; [PL c]])
  end.

Definition line_text (l : PolicyLine) : string :=
  match l with
  | LRequire e => spell_all (require_toks e)
  | LDenyIf e d => spell_all (print 0 e) +:+ " : " +:+ render (deny_pieces d)
  end.

Definition deny_effect (d : DenyText) : Effect :=
  match d with
  | BareDeny => EffDeny None None
  | DenyReason r => EffDeny (Some r) None
  | DenyReasonCode r c => EffDeny (Some r) (Some c)
  end.

(** The rule a line stands for. *)
Definition line_rule (l : PolicyLine) (source : string) : Rule :=
  match l with
  | LRequire e => mkRule (normalize_not e) [EffDeny None None] source
  | LDenyIf e d => mkRule e [deny_effect d] source
  end.

Definition line_expr (l : PolicyLine) : Expression := match l with LRequire e | LDenyIf e _ => e end.

(** The expression can be written, and what a deny line tests does not read as a field
    operation. *)
Definition line_ok `{Platform} (l : PolicyLine) : bool :=
  printable (line_expr l) && forallb tok_ok (print 0 (line_expr l))
  && match l with
     | LRequire _ => true
     | LDenyIf e _ => is_none (field_operation_in_rule_position (spell_all (print 0 e)))
     end.

(** ** Reading a line *)

Section Reading.
Context `{Platform, CompilerLib}.

Lemma require_toks_ok e : forallb tok_ok (print 0 e) = true -> forallb tok_ok (require_toks e) = true.
Proof. intros Hok. unfold require_toks. cbn [forallb tok_ok]. by rewrite forallb_app, Hok. Qed.

Lemma parse_predicate_require e :
  printable e = true -> forallb tok_ok (print 0 e) = true ->
  parse_predicate (spell_all (require_toks e)) = Ok (normalize_not e).
Proof.
  intros Hp Hok. unfold parse_predicate, PredParser_parse.
  rewrite trim_edged by (apply spell_all_edged; [done|by apply require_toks_ok]).
  rewrite tokenize_spell_all by (by apply require_toks_ok). set (src := spell_all (require_toks e)).
  assert (Hin : forall n, length (print 0 e) <= n ->
    parse_or src (S n) (print 0 e ++ [TRParen]) = Ok (e, [TRParen])).
  { intros n Hn. destruct (parse_print src e n Hp) as (_ & _ & Hr); [pose proof (print_size 0 e Hp); lia|].
    by apply Hr. }
  assert (Hu : parse_unary src (parse_or src (length (require_toks e))) (require_toks e ++ []) = Ok (normalize_not e, [])).
  { rewrite app_nil_r. unfold require_toks. cbn [parse_unary parse_atom]. unfold parse_require. cbn [tail require_loop].
    cbn [length]. rewrite Hin by (rewrite length_app; simpl; lia). done. }
  pose proof (and_to_or src _ _ _ [] (unary_to_and src _ _ _ [] Hu eq_refl) eq_refl) as Ho.
  rewrite app_nil_r in Ho. cbn [parse_or]. by rewrite Ho.
Qed.

(** The pieces of a token text outside parentheses hold no square bracket. *)
Lemma tok_no_square t : tok_ok t = true -> forallb no_square (tok_pieces t) = true.
Proof.
  intros Hok. assert (Htext : forall s, string_forall quiet s = true -> forallb no_square (text s) = true).
  { induction s as [|a s IH]; [done|]. cbn [string_forall text forallb]. intros [Ha Hs]%andb_true_iff.
    rewrite IH by done. by destruct a as [[] [] [] [] [] [] [] []]. }
  pose proof (spell_quiet t Hok) as Hq. destruct t; try done; apply Htext, Hq; done.
Qed.

Lemma join_no_square sep segs :
  no_square (PB sep) = true -> Forall (fun ps => forallb no_square ps = true) segs ->
  forallb no_square (join_pieces sep segs) = true.
Proof.
  intros Hs. induction 1 as [|ps segs Hps Hsegs IH]; [done|]. destruct segs as [|q segs]; [done|].
  change (join_pieces sep (ps :: q :: segs)) with (ps ++ PB sep :: join_pieces sep (q :: segs)).
  rewrite forallb_app, Hps. cbn [forallb]. by rewrite Hs, IH.
Qed.

Lemma spell_no_square ts : forallb tok_ok ts = true -> forallb no_square (spell_pieces ts) = true.
Proof.
  intros Hok. apply join_no_square; [done|]. rewrite forallb_true_iff in Hok.
  apply Forall_map. eapply Forall_impl; [exact Hok|]. apply tok_no_square.
Qed.

(** Without the separator, the separator does not matter. *)
Definition lacks (stop : ascii -> bool) (p : piece) : bool :=
  match p with PB b => negb (stop b) | PL _ => true end.

Lemma level_lacks op cl stop ps d :
  forallb (lacks stop) ps = true -> level op cl stop ps d = level op cl no_stop ps d.
Proof.
  revert d. induction ps as [|[b|v] ps IH]; intros d; simpl; [done| |apply IH].
  intros [Hb Hps]%andb_true_iff. apply negb_true_iff in Hb. rewrite Hb. simpl.
  destruct (op b); [by apply IH|]. destruct (cl b); [destruct d; [done|by apply IH]|by apply IH].
Qed.

Definition no_colon (b : ascii) : bool := negb (Ascii.eqb ":" b).

Lemma tok_no_colon t : tok_ok t = true -> forallb (lacks (Ascii.eqb ":")) (tok_pieces t) = true.
Proof.
  assert (Htext : forall s, string_forall no_colon s = true -> forallb (lacks (Ascii.eqb ":")) (text s) = true).
  { induction s as [|a s IH]; [done|]. cbn [string_forall text forallb]. intros [Ha Hs]%andb_true_iff.
    rewrite IH by done. by rewrite andb_true_r. }
  assert (Hseg : forall a, is_segment_char a = true -> no_colon a = true)
    by (intros [[] [] [] [] [] [] [] []]; first [discriminate|reflexivity]).
  intros Hok. destruct t; try done; try (by apply Htext); cbn [tok_ok] in Hok; apply Htext.
  - unfold key_ok in Hok. rewrite !andb_true_iff in Hok. destruct Hok as [[[Hk _] _] _].
    by apply segments_forall.
  - destruct (show_Z_shape i) as (neg & d & E & _ & Hd & _). cbn [spell]. rewrite E.
    assert (string_forall no_colon d = true).
    { eapply string_forall_impl; [|exact Hd]. intros a Ha. apply Hseg. unfold is_segment_char, is_ascii_alphanumeric.
      by rewrite Ha, orb_true_r. }
    by destruct neg.
  - by destruct b.
Qed.

Lemma join_lacks stop sep segs :
  stop sep = false -> Forall (fun ps => forallb (lacks stop) ps = true) segs ->
  forallb (lacks stop) (join_pieces sep segs) = true.
Proof.
  intros Hs. induction 1 as [|ps segs Hps Hsegs IH]; [done|]. destruct segs as [|q segs]; [done|].
  change (join_pieces sep (ps :: q :: segs)) with (ps ++ PB sep :: join_pieces sep (q :: segs)).
  rewrite forallb_app, Hps. cbn [forallb lacks]. by rewrite Hs, IH.
Qed.

(** Over the text of balanced tokens the rule cutter finds nothing. *)
Lemma spell_colon_level ts d :
  forallb tok_ok ts = true -> toks_level ts 0 = Some d ->
  level (Ascii.eqb "(") (Ascii.eqb ")") (Ascii.eqb ":") (spell_pieces ts) 0 = Some d.
Proof.
  intros Hok Hl. rewrite level_lacks.
  - rewrite <- Hl. by apply (spell_level parens parens_ok).
  - apply join_lacks; [done|]. rewrite forallb_true_iff in Hok. apply Forall_map.
    eapply Forall_impl; [exact Hok|]. apply tok_no_colon.
Qed.

Lemma require_level e : toks_level (require_toks e) 0 = Some 0.
Proof. unfold require_toks. cbn [toks_level tok_level]. by rewrite toks_level_app, print_level. Qed.

Lemma spell_pieces_app a b :
  a <> [] -> b <> [] -> spell_pieces (a ++ b) = spell_pieces a ++ PB " " :: spell_pieces b.
Proof.
  unfold spell_pieces. induction a as [|t a IH]; [done|]. intros _ Hb. destruct a as [|t' a].
  - destruct b as [|u b]; [done|]. done.
  - change (map tok_pieces ((t :: t' :: a) ++ b)) with (tok_pieces t :: tok_pieces t' :: map tok_pieces (a ++ b)).
    change (join_pieces " " (tok_pieces t :: tok_pieces t' :: map tok_pieces (a ++ b)))
      with (tok_pieces t ++ PB " " :: join_pieces " " (map tok_pieces ((t' :: a) ++ b))).
    rewrite IH by done. change (join_pieces " " (map tok_pieces (t :: t' :: a)))
      with (tok_pieces t ++ PB " " :: join_pieces " " (map tok_pieces (t' :: a))).
    by rewrite <- (assoc_L (++)).
Qed.

Lemma print_nonempty lvl e : printable e = true -> print lvl e <> [].
Proof. intros Hp E. pose proof (print_size lvl e Hp) as Hs. rewrite E in Hs. by destruct e; simpl in Hs; lia. Qed.

(** The parentheses of [require] keep a [|] inside from cutting. *)
Lemma require_one_segment e :
  printable e = true -> forallb tok_ok (print 0 e) = true ->
  split_top_level (spell_all (require_toks e)) "|" = [spell_all (require_toks e)].
Proof.
  intros Hp Hok. rewrite <- render_spell.
  change (spell_pieces (require_toks e)) with (join_pieces "|" [spell_pieces (require_toks e)]) at 1.
  rewrite split_top_level_join; [done..|]. constructor; [|done]. split; [by apply spell_pieces_ok, require_toks_ok|].
  change (require_toks e) with ([TRequire; TLParen] ++ print 0 e ++ [TRParen]).
  rewrite spell_pieces_app; [|done|by destruct (print 0 e)].
  rewrite spell_pieces_app by (done || by apply print_nonempty).
  change (spell_pieces [TRequire; TLParen]) with (text "require (").
  rewrite level_app. change (level is_open2 is_close2 (Ascii.eqb "|") (text "require (") 0) with (Some 1).
  cbn [level]. change (is_open2 " ") with false. change (is_close2 " ") with false.
  change (Ascii.eqb "|" " ") with false. cbn [andb].
  pose proof (printed_level brackets2 e 0 0 brackets2_ok Hok) as Hl.
  pose proof (level_nested is_open2 is_close2 (Ascii.eqb "|") _ 0 0 0 Hl) as Hn. simpl in Hn.
  by rewrite level_app, Hn.
Qed.

Lemma require_line_rule e source :
  printable e = true -> forallb tok_ok (print 0 e) = true ->
  parse_step_string (line_text (LRequire e)) source = Ok (StepRule (line_rule (LRequire e) source)).
Proof.
  intros Hp Hok. pose proof (require_toks_ok e Hok) as Hrt. cbn [line_text line_rule].
  assert (He : edged (spell_all (require_toks e))) by (by apply spell_all_edged).
  assert (Hs : plain_start (spell_all (require_toks e)) = true) by done.
  rewrite parse_step_plain, parse_rule_plain by done.
  assert (split_predicate_action (spell_all (require_toks e)) = None) as ->.
  { rewrite <- render_spell. apply split_predicate_none; [by apply spell_pieces_ok|by apply spell_no_square|].
    apply spell_colon_level; [done|apply require_level]. }
  assert (try_bare_action (spell_all (require_toks e)) = None) as ->.
  { unfold try_bare_action. by rewrite trim_edged. }
  unfold try_parse_deny_call. rewrite (plain_start_no "deny" "(") by auto. cbn [negb].
  unfold guarded_rule, reject_field_operation_in_rule_position, field_operation_in_rule_position.
  rewrite trim_edged, require_one_segment by done. unfold reject_require_with_allow. cbn [existsb is_allow].
  rewrite andb_false_r. unfold parse_rule_predicate. by rewrite parse_predicate_require.
Qed.

(** ** Deny lines *)

Lemma literal_or_bare_quoted v : literal_or_bare (trim (quote_literal v)) = Ok (Some v).
Proof.
  pose proof (literal_value_quoted v) as Hv. unfold literal_value in Hv. rewrite trim_edged in * by apply quote_literal_edged.
  unfold literal_or_bare, read_whole_literal in *. rewrite trim_edged in * by apply quote_literal_edged.
  unfold quote_literal in *. change (is_quote squote) with true in *. cbn [negb] in *.
  destruct (read_literal _ 0) as [lit|]; [|done]. destruct (Nat.eqb _ _); [|done]. congruence.
Qed.

Lemma strip_quoted v rule : strip_string_literal (trim (quote_literal v)) rule = Ok v.
Proof.
  unfold strip_string_literal. rewrite (trim_edged (quote_literal v)) by apply quote_literal_edged.
  rewrite (literal_or_bare_quoted v). done.
Qed.

Lemma extract_call head ps :
  head_ok head = true -> forallb piece_ok ps = true -> balanced parens ps ->
  extract_call_args (render (call head ps)) head = Some (render ps).
Proof.
  intros Hh Hok Hb. unfold extract_call_args. rewrite trim_edged by (by apply call_edged). rewrite render_call.
  assert (Hsp : forall p s, strip_prefix p (p +:+ s) = Some s).
  { clear. induction p as [|a p IH]; intros s; [done|]. rewrite string_app_cons. cbn [strip_prefix].
    by rewrite Ascii.eqb_refl. }
  assert (Hst : starts_with "(" (String "(" (render ps +:+ ")")) = true)
    by (unfold starts_with; simpl; by destruct (render ps +:+ ")")).
  rewrite Hsp, Hst. cbn [negb].
  rewrite (matching_close_at _ 0 ps "") by done.
  change (drop_bytes (S (1 + String.length (render ps))) (String "(" (render ps +:+ ")")))
    with (drop_bytes (S (String.length (render ps))) (render ps +:+ ")")).
  rewrite <- Nat.add_1_r, <- drop_bytes_add, drop_bytes_app. unfold slice.
  assert (drop_bytes 1 (String "(" (render ps +:+ ")")) = render ps +:+ ")") as -> by (simpl; by destruct (render ps)).
  replace (1 + String.length (render ps) - 1) with (String.length (render ps)) by lia. by rewrite take_bytes_app.
Qed.

Lemma literal_cut v : segment_cut is_open3 is_close3 "," [PL v].
Proof. done. Qed.

Lemma deny_call_parts ps rule parts e :
  forallb piece_ok ps = true -> balanced parens ps -> split_top_level_commas (render ps) = Ok parts ->
  (let? reason := transpose (fun p => strip_string_literal (trim p) rule) (head parts) in
   let? code := transpose (fun p => strip_string_literal (trim p) rule) (head (tail parts)) in
   match tail (tail parts) with
   | [] => Ok (Some (EffDeny reason code))
   | _ => Err (PeRule rule "deny(...) takes at most two args: deny('reason', 'code')")
   end) = Ok (Some e) ->
  parse_action (render (call "deny" ps)) rule = Ok [e].
Proof.
  intros Hok Hb Hparts He. unfold parse_action, try_bare_action. rewrite !trim_edged by (by apply call_edged).
  assert (Hd : String.eqb (render (call "deny" ps)) "deny" = false) by (by rewrite render_call).
  assert (Ha : String.eqb (render (call "deny" ps)) "allow" = false) by (by rewrite render_call).
  cbv zeta. rewrite Hd, Ha. unfold try_parse_deny_call. assert (starts_with "deny(" (render (call "deny" ps)) = true) as ->.
  { rewrite render_call. unfold starts_with. simpl. by destruct (render ps +:+ ")"). }
  cbn [negb]. rewrite extract_call by done. rewrite Hparts. cbn [result_map_err]. by rewrite He.
Qed.

Lemma deny_action d rule : parse_action (render (deny_pieces d)) rule = Ok [deny_effect d].
Proof.
  destruct d as [|r|r c]; [done|..]; cbn [deny_pieces deny_effect].
  - eapply deny_call_parts; [done..|apply split_commas_join; [done|]|].
    + by repeat constructor.
    + cbn [map render piece_text head tail transpose]. by rewrite string_app_nil_r, strip_quoted.
  - eapply deny_call_parts; [done..|apply split_commas_join; [done|]|].
    + by repeat constructor.
    + cbn [map render piece_text head tail transpose]. by rewrite !string_app_nil_r, !strip_quoted.
Qed.

Lemma trim_lead s : edged s -> trim (String " " s) = s.
Proof.
  intros He. pose proof (trim_edged s He) as Ht. destruct He as (a & s' & _ & _ & -> & _ & Ha & _).
  rewrite <- Ht at 2. unfold trim. do 3 f_equal. rewrite chars_cons.
  destruct (chars_head a s') as (t & cs & ->). simpl (starts_with_continuation _).
  rewrite graphic_not_continuation by done. done.
Qed.

Lemma trim_trail s : edged s -> trim (s +:+ " ") = s.
Proof.
  intros He. pose proof (trim_edged s He) as Ht. destruct He as (a & s' & _ & _ & E & _ & Ha & _).
  rewrite <- Ht at 2. unfold trim. do 2 f_equal. change " " with (str1 " "). rewrite chars_last by done.
  rewrite E. destruct (chars_head a s') as (t & cs & ->).
  cbn [app drop_while]. rewrite (graphic_not_whitespace a t Ha). rewrite app_comm_cons, rev_app_distr. done.
Qed.

Lemma deny_pieces_ok d :
  forallb piece_ok (deny_pieces d) = true /\ forallb no_square (deny_pieces d) = true
  /\ level (Ascii.eqb "(") (Ascii.eqb ")") (Ascii.eqb ":") (deny_pieces d) 0 = Some 0
  /\ edged (render (deny_pieces d)).
Proof.
  destruct d; repeat split; try done; try (by apply all_graphic_edged); by apply call_edged.
Qed.

(** The first token of a printed predicate is no literal. *)
Lemma print_head lvl e :
  printable e = true ->
  exists t ts, print lvl e = t :: ts
    /\ match t with TIdent _ | TRequire | TExists | TNot | TLParen => True | _ => False end.
Proof.
  revert lvl. induction e as [c|parts IH|parts IH|e IH|] using Expression_ind; intros lvl Hp; [| | |by eexists _, _|done].
  - destruct c as [k op v|k|k|k|k1 k2 []]; by eexists _, _.
  - cbn [printable] in Hp. apply andb_true_iff in Hp as [Hl Hp]. destruct parts as [|e parts]; [done|].
    inversion IH as [|? ? He _]; subst. cbn [forallb] in Hp. apply andb_true_iff in Hp as [Hpe _].
    cbn [print]. destruct (1 <? lvl)%nat; [by eexists _, _|]. cbn [paren_if map].
    destruct (He 2 Hpe) as (t & ts & -> & Ht). destruct (map (print 2) parts); by eexists _, _.
  - cbn [printable] in Hp. apply andb_true_iff in Hp as [Hl Hp]. destruct parts as [|e parts]; [done|].
    inversion IH as [|? ? He _]; subst. cbn [forallb] in Hp. apply andb_true_iff in Hp as [Hpe _].
    cbn [print]. destruct (0 <? lvl)%nat; [by eexists _, _|]. cbn [paren_if map].
    destruct (He 1 Hpe) as (t & ts & -> & Ht). destruct (map (print 1) parts); by eexists _, _.
Qed.

Lemma printed_plain_start e tail :
  printable e = true -> forallb tok_ok (print 0 e) = true ->
  plain_start (spell_all (print 0 e) +:+ String " " tail) = true.
Proof.
  intros Hp Hok. destruct (print_head 0 e Hp) as (t & ts & Et & Ht). rewrite Et in *.
  cbn [forallb] in Hok. apply andb_true_iff in Hok as [Htok _]. rewrite spell_all_cons, append_assoc.
  assert (exists r, spell_tail ts +:+ String " " tail = String " " r) as [r ->] by (destruct ts; eauto).
  destruct t; try done. cbn [spell tok_ok] in *. unfold key_ok in Htok. rewrite !andb_true_iff in Htok.
  destruct Htok as [[[Hk _] _] _]. unfold plain_start. rewrite name_run_app; [by destruct s| |done].
  apply segments_forall; [done| |done]. unfold name_byte. by intros a ->.
Qed.

Lemma deny_line_rule e d source :
  line_ok (LDenyIf e d) = true ->
  parse_step_string (line_text (LDenyIf e d)) source = Ok (StepRule (line_rule (LDenyIf e d) source)).
Proof.
  unfold line_ok. cbn [line_expr]. rewrite !andb_true_iff. intros [[Hp Hok] Hf].
  destruct (deny_pieces_ok d) as (Dok & Dsq & Dl & De). cbn [line_text line_rule].
  assert (Ee : edged (spell_all (print 0 e))) by (apply spell_all_edged; [by apply print_nonempty|done]).
  set (line := spell_all (print 0 e) +:+ " : " +:+ render (deny_pieces d)).
  assert (He : edged line) by (by apply edged_app).
  assert (Hs : plain_start line = true) by (by apply printed_plain_start).
  rewrite parse_step_plain, parse_rule_plain by done.
  assert (split_predicate_action line = Some (spell_all (print 0 e), render (deny_pieces d))) as ->.
  { assert (El : line = render (spell_pieces (print 0 e) ++ text " ") +:+ String ":" (render (text " " ++ deny_pieces d))).
    { unfold line. rewrite !render_app, !render_text, render_spell, !append_assoc. done. }
    rewrite El, split_predicate_at.
    - rewrite !render_app, !render_text, render_spell.
      change (" " +:+ render (deny_pieces d)) with (String " " (render (deny_pieces d))).
      by rewrite trim_trail, trim_lead.
    - rewrite !forallb_app, Dok, spell_pieces_ok by done. done.
    - rewrite !forallb_app, Dsq, spell_no_square by done. done.
    - rewrite level_app, (spell_colon_level _ 0) by (done || apply print_level). done.
    - by rewrite level_app. }
  rewrite deny_action. unfold guarded_rule, reject_field_operation_in_rule_position.
  destruct (field_operation_in_rule_position _); [done|]. unfold reject_require_with_allow.
  assert (existsb is_allow [deny_effect d] = false) as -> by (by destruct d). rewrite andb_false_r.
  unfold parse_rule_predicate. by rewrite parse_predicate_printed.
Qed.

Lemma line_step l source :
  line_ok l = true -> parse_step_string (line_text l) source = Ok (StepRule (line_rule l source)).
Proof.
  destruct l as [e|e d]; [|apply deny_line_rule]. unfold line_ok. rewrite !andb_true_iff. intros [[Hp Hok] _].
  by apply require_line_rule.
Qed.
End Reading.

(** ** The decision of a policy *)

Definition document (lines : list PolicyLine) : RouteYaml :=
  mkRouteYaml (Some (mkAuth (Some (map (fun l => YString (line_text l)) lines)) None)) [] [] ∅.

Definition line_source (source : string) (i : nat) : string := entry_source (source +:+ ".pre_invocation") i.

Fixpoint line_rules (source : string) (i : nat) (lines : list PolicyLine) : list Rule :=
  match lines with
  | [] => []
  | l :: rest => line_rule l (line_source source i) :: line_rules source (S i) rest
  end.

(** What a line lets pass: a requirement that definitely holds, a denial whose condition
    definitely does not. *)
Definition line_passes `{Platform} (bag : AttributeBag) (l : PolicyLine) : Prop :=
  match l with
  | LRequire e => eval_expression bag e = Ok true
  | LDenyIf e _ => eval_expression bag e = Ok false
  end.

(** The decision a line that does not pass makes. *)
Definition line_denies `{Platform} (bag : AttributeBag) (source : string) (l : PolicyLine) (d : Decision) : Prop :=
  match eval_expression bag (line_expr l) with
  | Ok _ =>
      d = match l with
          | LRequire _ | LDenyIf _ BareDeny => Deny None source
          | LDenyIf _ (DenyReason r) => Deny (Some r) source
          | LDenyIf _ (DenyReasonCode r c) => Deny (Some r) c
          end
  | Err _ => exists msg, d = Deny (Some msg) source
  end.

Section Decision.
Context `{Platform, CompilerLib, Host}.

Lemma line_rule_passes bag l source : rule_passes bag (line_rule l source) <-> line_passes bag l.
Proof.
  rewrite rule_passes_iff. destruct l as [e|e d]; cbn [line_rule rule_condition rule_effects rule_source_of line_passes].
  - pose proof (normalize_not_verdict bag e) as Hv.
    destruct (eval_expression bag (normalize_not e)) as [[]|], (eval_expression bag e) as [[]|]; simpl in *; naive_solver.
  - destruct (eval_expression bag e) as [[]|]; [|done..]. by destruct d.
Qed.

Lemma line_rule_denies bag l source reason src :
  denied_by bag (line_rule l source) reason src -> ~ line_passes bag l -> line_denies bag source l (Deny reason src).
Proof.
  unfold denied_by, line_denies. intros Hd Hn. destruct l as [e|e d]; cbn [line_rule rule_condition rule_effects rule_source_of line_expr line_passes] in *.
  - pose proof (normalize_not_verdict bag e) as Hv.
    destruct (eval_expression bag (normalize_not e)) as [[]|], (eval_expression bag e) as [[]|]; simpl in *; naive_solver.
  - destruct (eval_expression bag e) as [[]|]; [|naive_solver..]. destruct d; simpl in *; naive_solver.
Qed.

Lemma compile_lines source i lines :
  forallb line_ok lines = true ->
  compile_phase (source +:+ ".pre_invocation") i (map (fun l => YString (line_text l)) lines)
  = Ok (map Effect_from_Rule (line_rules source i lines)).
Proof.
  revert i. induction lines as [|l lines IH]; intros i; [done|]. cbn [forallb]. intros [Hl Hls]%andb_true_iff.
  cbn [map compile_phase]. unfold parse_step. cbn [yaml_size Nat.mul Nat.add step_of parse_step_body].
  rewrite line_step by done. cbn [step_to_top_level_effect]. by rewrite IH.
Qed.

Lemma line_rules_control source i lines :
  forallb (fun r => forallb is_control (rule_effects r)) (line_rules source i lines) = true
  /\ elicits (map Effect_from_Rule (line_rules source i lines)) = 0.
Proof.
  revert i. induction lines as [|[e|e d] lines IH]; intros i; [done|..]; destruct (IH (S i)) as [Hc He];
    unfold elicits in *; cbn [line_rules forallb map list_sum fold_right]; rewrite Hc;
    (split; [|simpl in *; try destruct d; simpl; exact He]).
  - done.
  - by destruct d.
Qed.

Lemma line_rules_lookup source i lines before r after :
  line_rules source i lines = before ++ r :: after ->
  exists l, lines !! length before = Some l /\ r = line_rule l (line_source source (i + length before))
    /\ Forall (fun l => exists j, line_rule l (line_source source j) ∈ before) (take (length before) lines).
Proof.
  revert i before. induction lines as [|l lines IH]; intros i before E; [by destruct before|].
  destruct before as [|b before]; cbn [line_rules app] in E; simplify_eq.
  - exists l. simpl. rewrite Nat.add_0_r. split; [done|]. split; [done|constructor].
  - destruct (IH (S i) before) as (l' & Hl & -> & Hf); [done|]. exists l'. cbn [length lookup list_lookup take].
    split; [done|]. split; [by rewrite Nat.add_succ_r|]. constructor; [exists i; left|].
    eapply Forall_impl; [exact Hf|]. intros x [j Hj]. exists j. by right.
Qed.

Lemma line_rules_pass bag source i lines :
  Forall (rule_passes bag) (line_rules source i lines) <-> Forall (line_passes bag) lines.
Proof.
  revert i. induction lines as [|l lines IH]; intros i; [done|]. cbn [line_rules].
  by rewrite !Forall_cons, line_rule_passes, IH.
Qed.

(** Claim C3. What the lines of a policy say is what is enforced. A document of at least one
    line, each [require ( e )] or [e : deny], [e : deny('reason')] or
    [e : deny('reason', 'code')], compiles when every [e] is an expression the grammar can
    write, with plain paths (no [$] segment, no subscript) and no float literal, and no deny line
    tests an [e] whose text reads as a field operation, which the parser refuses in a rule;
    evaluating it allows exactly when every required expression definitely holds and every denied
    one definitely does not, and otherwise denies for the first line that fails, with that line's
    reason and code or position; a comparison that cannot be decided denies. The request's
    attributes and payload are left alone. *)
Theorem policy_lines_enforced source lines :
  forallb line_ok lines = true -> lines <> [] ->
  exists r, compile_apl_blocks source (document lines) = Ok r
  /\ forall p bag payload, exists d,
       evaluate_effects p (pre_invocation r) bag Pre payload = (mkSteps d [] [] false false None, bag, payload)
       /\ (d = Allow <-> Forall (line_passes bag) lines)
       /\ (d <> Allow -> exists k l, lines !! k = Some l /\ ~ line_passes bag l
             /\ Forall (line_passes bag) (take k lines) /\ line_denies bag (line_source source k) l d).
Proof.
  intros Hok Hne. destruct (line_rules_control source 0 lines) as [Hc He].
  exists (mkRoute source [] (map Effect_from_Rule (line_rules source 0 lines)) [] [] ∅ None). split.
  { rewrite compile_unfold. assert (empty_authorization (document lines) = false) as -> by (by destruct lines).
    change (phase_entries au_pre_invocation (document lines)) with (map (fun l => YString (line_text l)) lines).
    rewrite compile_lines by done. simpl. unfold reject_elicitations. by rewrite He. }
  intros p bag payload. cbn [pre_invocation]. exists (evaluate_rules (line_rules source 0 lines) bag).
  rewrite control_rules_walk by done. split; [done|].
  destruct (evaluate_rules_correct (line_rules source 0 lines) bag) as [Ha Hd].
  split; [by rewrite Ha, line_rules_pass|]. intros Hn.
  destruct (evaluate_rules (line_rules source 0 lines) bag) as [|reason src] eqn:Er; [done|].
  destruct (Hd reason src eq_refl) as (before & r & after & E & Hb & Hnp & Hden).
  destruct (line_rules_lookup source 0 lines before r after E) as (l & Hl & -> & Hf).
  rewrite line_rule_passes in Hnp. exists (length before), l. split; [done|]. split; [done|]. split.
  - eapply Forall_impl; [exact Hf|]. intros x [j Hj]. rewrite Forall_forall in Hb.
    by apply Hb, line_rule_passes in Hj.
  - by apply line_rule_denies.
Qed.
End Decision.

Lemma policy_lines_enforced_witness :
  let lines := [LRequire (EOr [ECondition (IsTrue "role.hr"); ECondition (IsTrue "role.admin")]);
    LDenyIf (ECondition (Comparison "delegation.depth" OpGt (LInt 2))) (DenyReasonCode "too deep: it's > 2" "depth")] in
  let bag := bag_set (bag_set bag_new "role.hr" (AVBool true)) "delegation.depth" (AVInt 3) in
  map line_text lines
    = ["require ( role.hr | role.admin )"; "delegation.depth > 2 : deny('too deep: it\'s > 2','depth')"]
  /\ exists r, @compile_apl_blocks ascii_platform ascii_compiler_lib "hr" (document lines) = Ok r
  /\ exists d, (@evaluate_effects ascii_platform allow_host [] (pre_invocation r) bag Pre (RoutePayload_new JNull))
                = (mkSteps d [] [] false false None, bag, RoutePayload_new JNull)
     /\ d <> Allow.
Proof.
  cbv zeta. split; [vm_compute; reflexivity|].
  destruct (@policy_lines_enforced ascii_platform ascii_compiler_lib allow_host "hr"
    [LRequire (EOr [ECondition (IsTrue "role.hr"); ECondition (IsTrue "role.admin")]);
     LDenyIf (ECondition (Comparison "delegation.depth" OpGt (LInt 2))) (DenyReasonCode "too deep: it's > 2" "depth")])
    as (r & Hc & He); [vm_compute; reflexivity|discriminate|].
  exists r. split; [exact Hc|].
  destruct (He [] (bag_set (bag_set bag_new "role.hr" (AVBool true)) "delegation.depth" (AVInt 3))
    (RoutePayload_new JNull)) as (d & Hd & Ha & _).
  exists d. split; [exact Hd|]. intros E. apply Ha in E. inversion E as [|x l _ E2]; subst.
  inversion E2 as [|y k E3 _]; subst. vm_compute in E3. discriminate.
Defined.
