(* ===== verification/HttpPath.v ===== *)
(** * Reading a request path ([ppe-core/src/http_path.rs])

    The guard that refuses a path it cannot read, with the normal form it computes, and the
    theorem that an accepted path has the normal form it is compared by. *)

From Stdlib Require Import Ascii String.
From S2P Require Import Prelude RustStr F64 Json Platform Rules Lexical Predicate PipelineEval LexerProps Scan.

Inductive PathError : Type :=
| InvalidEscape (index : nat)
| TruncatedEscape (index : nat)
| ParameterizedTraversal (index : nat)
| ControlCharacter (index : nat) (byte : ascii).

(** ** More of Rust's [str] *)

(** [u8::is_ascii_control]. *)
Definition is_ascii_control (a : ascii) : bool := in_byte_range 0 31 a || in_byte_range 127 127 a.

(** [str::contains(&str)]. *)
Fixpoint contains_str (p s : string) : bool :=
  starts_with p s || match s with EmptyString => false | String _ s' => contains_str p s' end.

(** [str::ends_with(&str)]. *)
Fixpoint ends_with_str (p s : string) : bool :=
  String.eqb p s || match s with EmptyString => false | String _ s' => ends_with_str p s' end.

(** [s.split_once(c).map_or(s, |(head, _)| head)]. *)
Definition before_char (c : ascii) (s : string) : string :=
  match split_once c s with Some (head, _) => head | None => s end.

(** ** The checks *)

Fixpoint control_from (index : nat) (raw : string) : result unit PathError :=
  match raw with
  | EmptyString => Ok tt
  | String byte rest => if is_ascii_control byte then Err (ControlCharacter index byte) else control_from (S index) rest
  end.

Definition reject_control_characters (raw : string) : result unit PathError := control_from 0 raw.

(** The digits still expected, and where their escape started. *)
Fixpoint escapes_from (offset expected index : nat) (path : string) : result unit PathError :=
  match path with
  | EmptyString => match expected with O => Ok tt | S _ => Err (TruncatedEscape index) end
  | String byte rest =>
      match expected with
      | O => if Ascii.eqb byte "%" then escapes_from (S offset) 2 offset rest
             else escapes_from (S offset) 0 index rest
      | S expected' => if is_ascii_hexdigit byte then escapes_from (S offset) expected' index rest
                       else Err (InvalidEscape index)
      end
  end.

Definition reject_malformed_escapes (path : string) : result unit PathError := escapes_from 0 0 0 path.

(** [byte.eq_ignore_ascii_case(&b)]. *)
Definition byte_eq_ignore_case (a b : ascii) : bool := Ascii.eqb (ascii_lower a) (ascii_lower b).

(** The loop over the bytes of a segment: the dots seen, and the bytes of a [%2e] still
    expected. *)
Fixpoint traversal_loop (dots escape : nat) (segment : string) : bool :=
  match segment with
  | EmptyString => (escape =? 0)%nat && (dots =? 2)%nat
  | String byte rest =>
      let next (dots escape : nat) := if (2 <? dots)%nat then false else traversal_loop dots escape rest in
      match escape with
      | O => if Ascii.eqb byte "." then next (S dots) 0
             else if Ascii.eqb byte "%" then next dots 2
             else false
      | 2 => if byte_eq_ignore_case byte "2" then next dots 1 else false
      | _ => if byte_eq_ignore_case byte "e" then next (S dots) 0 else false
      end
  end.

Definition is_traversal_segment (segment : string) : bool :=
  if String.eqb segment ".." then true else traversal_loop 0 0 segment.

(** ** The rewrite *)

Definition strip_fragment_and_query (raw : string) : string := before_char "?" (before_char "#" raw).

Definition needs_rewrite (path : string) : bool :=
  contains_str "//" path || contains_str "/./" path || contains_str "/../" path
  || ends_with_str "/." path || ends_with_str "/.." path || contains_char ";" path
  || existsb is_traversal_segment (split "/" path).

(** [for raw_segment in path.split('/') { ... }], with the segments kept so far, the last
    one first. *)
Fixpoint rewrite_segments (raw_segments : list string) (index : nat) (kept : list string) :
    result (list string) PathError :=
  match raw_segments with
  | [] => Ok (rev kept)
  | raw_segment :: rest =>
      let segment := before_char ";" raw_segment in
      let next := index + String.length raw_segment + 1 in
      if String.eqb segment "" || String.eqb segment "." then rewrite_segments rest next kept
      else if is_traversal_segment segment then
        if negb (String.eqb segment raw_segment) then Err (ParameterizedTraversal index)
        else rewrite_segments rest next (tail kept)
      else rewrite_segments rest next (segment :: kept)
  end.

(** [for segment in &segments { out.push('/'); out.push_str(segment) }], or the root. *)
Definition render_path (segments : list string) : string :=
  match segments with
  | [] => "/"
  | _ => of_chars (map (fun s => String "/" s) segments)
  end.

Definition rewrite_path (path : string) : result string PathError :=
  let? segments := rewrite_segments (split "/" path) 0 [] in Ok (render_path segments).

Definition normalize_match_path (raw : string) : result string PathError :=
  let? _ := reject_control_characters raw in
  let path := strip_fragment_and_query raw in
  let? _ := reject_malformed_escapes path in
  if negb (starts_with "/" path) then Ok raw
  else if negb (needs_rewrite path) then Ok path
  else rewrite_path path.

Example normalize_examples :
  normalize_match_path "/a/./b//c/../d?x=1#f" = Ok "/a/b/d"
  /\ normalize_match_path "/a;v=1/b;x/c" = Ok "/a/b/c"
  /\ normalize_match_path "/a/%2e%2E/b" = Ok "/b"
  /\ normalize_match_path "/../../x" = Ok "/x"
  /\ normalize_match_path "/admin/x/..%2f..%2fv1" = Ok "/admin/x/..%2f..%2fv1"
  /\ normalize_match_path "/a/..;x" = Err (ParameterizedTraversal 3)
  /\ normalize_match_path "/a%2" = Err (TruncatedEscape 2)
  /\ normalize_match_path "/a%zz" = Err (InvalidEscape 2)
  /\ normalize_match_path "*" = Ok "*"
  /\ normalize_match_path "/a/" = Ok "/a/" /\ normalize_match_path "/a//" = Ok "/a".
Proof. vm_compute. repeat split. Qed.

(** ** The normal form of a request path *)

#[local] Arguments starts_with : simpl never.
#[local] Arguments contains_str : simpl never.
#[local] Arguments ends_with_str : simpl never.

(** ** Bytes of a part *)

Definition slash_free (s : string) : bool := negb (contains_char "/" s).

Lemma contains_char_forall c s : contains_char c s = negb (string_forall (fun a => negb (Ascii.eqb a c)) s).
Proof. induction s as [|a s IH]; simpl; [done|]. rewrite IH. by destruct (Ascii.eqb a c). Qed.

Lemma split_once_spec c s :
  match split_once c s with
  | Some (x, y) => s = x +:+ String c y /\ contains_char c x = false
  | None => contains_char c s = false
  end.
Proof.
  induction s as [|a s IH]; simpl; [done|]. destruct (Ascii.eqb_spec a c) as [->|Ha]; [done|].
  destruct (split_once c s) as [[x y]|]; simpl; [|done]. destruct IH as [-> Hx].
  split; [done|]. destruct (Ascii.eqb_spec a c); done.
Qed.

Lemma before_char_free c s : contains_char c (before_char c s) = false.
Proof. unfold before_char. pose proof (split_once_spec c s) as H. destruct (split_once c s) as [[x y]|]; naive_solver. Qed.

Lemma before_char_id c s : contains_char c s = false -> before_char c s = s.
Proof.
  unfold before_char. pose proof (split_once_spec c s) as H. destruct (split_once c s) as [[x y]|]; [|done].
  destruct H as [-> _]. intros Hc. exfalso. rewrite contains_char_forall, negb_false_iff in Hc.
  induction x as [|a x IH]; simpl in Hc; [by rewrite Ascii.eqb_refl in Hc|].
  apply andb_true_iff in Hc as [_ Hc]. by apply IH.
Qed.

Lemma before_char_forall p c s : string_forall p s = true -> string_forall p (before_char c s) = true.
Proof.
  unfold before_char. pose proof (split_once_spec c s) as H. destruct (split_once c s) as [[x y]|]; [|done].
  destruct H as [-> _]. rewrite string_forall_app. by intros [? _]%andb_true_iff.
Qed.

Lemma split_slash_forall p s : string_forall p s = true -> forallb (string_forall p) (split "/" s) = true.
Proof.
  induction s as [|a s IH]; [done|]. simpl. intros [Ha Hs]%andb_true_iff. specialize (IH Hs).
  destruct (Ascii.eqb a "/"); [done|]. destruct (split "/" s); simpl in *; [by rewrite Ha|].
  apply andb_true_iff in IH as [-> ->]. by rewrite Ha.
Qed.

Lemma split_slash_free s : forallb slash_free (split "/" s) = true.
Proof.
  induction s as [|a s IH]; [done|]. simpl. destruct (Ascii.eqb_spec a "/") as [->|Ha]; [done|].
  unfold slash_free in *. destruct (split "/" s) as [|p ps]; simpl in *.
  - by destruct (Ascii.eqb_spec a "/").
  - destruct (Ascii.eqb_spec a "/"); done.
Qed.

(** ** Absolute paths as segments *)

Definition join_slash (segs : list string) : string := of_chars (map (fun s => String "/" s) segs).

Lemma join_slash_cons s segs : join_slash (s :: segs) = String "/" (s +:+ join_slash segs).
Proof. unfold join_slash. simpl. by rewrite of_chars_cons. Qed.

Lemma join_slash_app a b : join_slash (a ++ b) = join_slash a +:+ join_slash b.
Proof. induction a as [|s a IH]; [done|]. simpl. rewrite !join_slash_cons, IH, string_app_cons. by rewrite append_assoc. Qed.

Lemma join_slash_split s : join_slash (split "/" s) = String "/" s.
Proof.
  induction s as [|a s IH]; [done|]. simpl. destruct (Ascii.eqb_spec a "/") as [->|Ha].
  - by rewrite join_slash_cons, IH.
  - pose proof (split_ne_nil "/" s) as Hne. destruct (split "/" s) as [|p ps]; [done|].
    rewrite join_slash_cons, string_app_cons in *. by injection IH as ->.
Qed.

Lemma split_app_slash a b : slash_free a = true -> split "/" (a +:+ String "/" b) = a :: split "/" b.
Proof.
  unfold slash_free. induction a as [|c a IH]; [done|]. rewrite string_app_cons. simpl. intros Hf.
  apply negb_true_iff, orb_false_iff in Hf as [Hc Hf]. rewrite Hc. rewrite IH by (by rewrite Hf). done.
Qed.

Lemma split_free a : slash_free a = true -> split "/" a = [a].
Proof.
  unfold slash_free. induction a as [|c a IH]; [done|]. simpl. intros Hf.
  apply negb_true_iff, orb_false_iff in Hf as [Hc Hf]. rewrite Hc. rewrite IH by (by rewrite Hf). done.
Qed.

Lemma split_join segs : segs <> [] -> forallb slash_free segs = true -> split "/" (join_slash segs) = "" :: segs.
Proof.
  induction segs as [|s segs IH]; [done|]. intros _ [Hs Hsegs]%andb_true_iff. rewrite join_slash_cons.
  cbn [split]. change (Ascii.eqb "/" "/") with true. cbv iota. f_equal.
  destruct segs as [|s' segs].
  - change (join_slash []) with "". rewrite string_app_nil_r. by apply split_free.
  - rewrite join_slash_cons, split_app_slash by done. f_equal.
    specialize (IH ltac:(done) Hsegs). rewrite join_slash_cons in IH. cbn [split] in IH.
    change (Ascii.eqb "/" "/") with true in IH. cbv iota in IH. by injection IH.
Qed.

Lemma starts_with_cons a p b s : starts_with (String a p) (String b s) = Ascii.eqb a b && starts_with p s.
Proof.
  unfold starts_with. simpl. destruct (ascii_dec a b) as [->|Hn]; [by rewrite Ascii.eqb_refl|].
  by destruct (Ascii.eqb_spec a b).
Qed.

Lemma starts_with_nil s : starts_with "" s = true.
Proof. by destruct s. Qed.

(** A slash-free name up to a slash. *)
Lemma starts_with_name x s t :
  slash_free x = true -> slash_free s = true ->
  starts_with (x +:+ "/") (s +:+ String "/" t) = String.eqb x s.
Proof.
  unfold slash_free. revert s. induction x as [|a x IH]; intros s.
  - change ("" +:+ "/") with (String "/" ""). destruct s as [|b s].
    { intros _ _. change ("" +:+ String "/" t) with (String "/" t). by rewrite starts_with_cons, starts_with_nil. }
    simpl. intros _ Hs. apply negb_true_iff, orb_false_iff in Hs as [Hb _].
    rewrite ?string_app_cons, starts_with_cons, Ascii.eqb_sym. by rewrite Hb.
  - simpl. intros Hx Hs. apply negb_true_iff, orb_false_iff in Hx as [Ha Hx]. destruct s as [|b s].
    + change ("" +:+ String "/" t) with (String "/" t). rewrite ?string_app_cons, starts_with_cons. by rewrite Ha.
    + simpl in Hs. apply negb_true_iff, orb_false_iff in Hs as [Hb Hs].
      rewrite ?string_app_cons, starts_with_cons. simpl. rewrite IH by (by rewrite ?Hx, ?Hs).
      by destruct (Ascii.eqb_spec a b).
Qed.

Lemma starts_with_name_end x s : slash_free s = true -> starts_with (x +:+ "/") s = false.
Proof.
  unfold slash_free. revert s. induction x as [|a x IH]; intros [|b s] Hs; try done; simpl in Hs;
    apply negb_true_iff, orb_false_iff in Hs as [Hb Hs].
  - change ("" +:+ "/") with (String "/" ""). rewrite starts_with_cons, Ascii.eqb_sym. by rewrite Hb.
  - rewrite string_app_cons, starts_with_cons, IH by (by rewrite Hs). by rewrite andb_false_r.
Qed.

Lemma contains_str_cons p a s : contains_str p (String a s) = starts_with p (String a s) || contains_str p s.
Proof. done. Qed.

Lemma ends_with_cons p a s : ends_with_str p (String a s) = String.eqb p (String a s) || ends_with_str p s.
Proof. done. Qed.

(** A pattern that starts with a slash does not match inside a name. *)
Lemma contains_skip p s t :
  slash_free s = true -> contains_str (String "/" p) (s +:+ t) = contains_str (String "/" p) t.
Proof.
  unfold slash_free. induction s as [|a s IH]; [done|]. simpl. intros Hs.
  apply negb_true_iff, orb_false_iff in Hs as [Ha Hs]. rewrite ?string_app_cons, contains_str_cons.
  rewrite starts_with_cons, Ascii.eqb_sym, Ha. simpl. apply IH. by rewrite Hs.
Qed.

Lemma contains_segment x segs :
  slash_free x = true -> forallb slash_free segs = true ->
  contains_str (String "/" (x +:+ "/")) (join_slash segs) = existsb (String.eqb x) (removelast segs).
Proof.
  intros Hx. induction segs as [|s segs IH]; [done|]. intros [Hs Hsegs]%andb_true_iff.
  rewrite join_slash_cons, contains_str_cons, starts_with_cons, contains_skip by done. simpl (Ascii.eqb _ _).
  destruct segs as [|s' segs].
  - change (join_slash []) with "". rewrite string_app_nil_r, starts_with_name_end by done. done.
  - rewrite IH by done. rewrite join_slash_cons at 1. rewrite starts_with_name by done. done.
Qed.

Lemma ends_skip p s t :
  slash_free s = true -> ends_with_str (String "/" p) (s +:+ t) = ends_with_str (String "/" p) t.
Proof.
  unfold slash_free. induction s as [|a s IH]; [done|]. simpl. intros Hs.
  apply negb_true_iff, orb_false_iff in Hs as [Ha Hs]. rewrite ?string_app_cons, ends_with_cons. cbn [String.eqb].
  rewrite Ascii.eqb_sym, Ha. simpl. apply IH. by rewrite Hs.
Qed.

Lemma ends_segment x segs :
  slash_free x = true -> segs <> [] -> forallb slash_free segs = true ->
  ends_with_str (String "/" x) (join_slash segs) = String.eqb x (List.last segs "").
Proof.
  intros Hx. induction segs as [|s segs IH]; [done|]. intros _ [Hs Hsegs]%andb_true_iff.
  rewrite join_slash_cons, ends_with_cons, ends_skip by done. simpl (String.eqb (String _ _) _).
  destruct segs as [|s' segs].
  - change (join_slash []) with "". rewrite string_app_nil_r. by rewrite orb_false_r.
  - rewrite IH by done. cbn [List.last]. rewrite join_slash_cons.
    destruct (String.eqb_spec x (s +:+ String "/" (s' +:+ join_slash segs))) as [->|]; [|done].
    exfalso. unfold slash_free in Hx. rewrite contains_char_forall, negb_involutive, string_forall_app in Hx.
    simpl in Hx. by rewrite andb_false_r in Hx.
Qed.

Lemma contains_semicolon segs : contains_char ";" (join_slash segs) = existsb (contains_char ";") segs.
Proof.
  induction segs as [|s segs IH]; [done|]. rewrite join_slash_cons. simpl. rewrite <- IH.
  rewrite !contains_char_forall, string_forall_app. by rewrite negb_andb.
Qed.

(** ** Normal segments *)

Definition normal_segment (s : string) : bool :=
  negb (String.eqb s "") && negb (String.eqb s ".") && negb (is_traversal_segment s)
  && slash_free s && negb (contains_char ";" s).

Lemma normal_slash_free s : normal_segment s = true -> slash_free s = true.
Proof. unfold normal_segment. rewrite !andb_true_iff. tauto. Qed.

Lemma normal_all_free segs : forallb normal_segment segs = true -> forallb slash_free segs = true.
Proof.
  intros Hs. rewrite forallb_true_iff in *. eapply Forall_impl; [exact Hs|]. apply normal_slash_free.
Qed.

Lemma existsb_eqb_notin x l : existsb (String.eqb x) l = false -> Forall (fun s => String.eqb s x = false) l.
Proof.
  rewrite existsb_false_iff. intros Hl. eapply Forall_impl; [exact Hl|]. intros s. by rewrite String.eqb_sym.
Qed.

(** What the fast check says of the segments: all are normal, but the last may be empty. *)
Lemma needs_rewrite_segments init l :
  forallb slash_free (init ++ [l]) = true ->
  needs_rewrite (join_slash (init ++ [l])) = false <->
  forallb normal_segment init = true /\ (l = "" \/ normal_segment l = true).
Proof.
  intros Hf. unfold needs_rewrite. rewrite split_join by (done || by destruct init).
  change "//" with (String "/" ("" +:+ "/")). change "/./" with (String "/" ("." +:+ "/")).
  change "/../" with (String "/" (".." +:+ "/")).
  rewrite !contains_segment, (ends_segment "."), (ends_segment ".."), contains_semicolon by (done || by destruct init).
  rewrite removelast_last, last_last. cbn [existsb]. change (is_traversal_segment "") with false.
  rewrite !existsb_app. cbn [existsb]. rewrite !orb_false_iff.
  rewrite forallb_app in Hf. cbn [forallb] in Hf. rewrite !andb_true_iff in Hf. destruct Hf as (Hfi & Hfl & _).
  split.
  - intros ((((((He & Hd) & Hdd) & Hld) & Hldd) & Hsi & Hsl & _) & _ & Hti & Htl & _). split.
    + rewrite forallb_true_iff in *. apply existsb_eqb_notin in He, Hd. rewrite existsb_false_iff in Hsi, Hti.
      rewrite Forall_forall in *. intros x Hx. unfold normal_segment.
      by rewrite (He x Hx), (Hd x Hx), (Hti x Hx), (Hfi x Hx), (Hsi x Hx).
    + destruct (String.eqb_spec l "") as [->|Hl]; [by left|right]. unfold normal_segment.
      rewrite String.eqb_sym in Hld. rewrite Hld, Htl, Hfl, Hsl. by destruct (String.eqb_spec l "").
  - intros [Hi Hl]. assert (Hn : forall s, normal_segment s = true ->
      String.eqb "" s = false /\ String.eqb "." s = false /\ String.eqb ".." s = false
      /\ contains_char ";" s = false /\ is_traversal_segment s = false).
    { intros s Hs. unfold normal_segment in Hs. rewrite !andb_true_iff, !negb_true_iff in Hs.
      destruct Hs as ((((H1 & H2) & H3) & _) & H4). rewrite !(String.eqb_sym _ s). repeat split; try done.
      destruct (String.eqb_spec s "..") as [->|]; [done|done]. }
    rewrite forallb_true_iff, Forall_forall in Hi.
    assert (Hex : forall f, (forall s, normal_segment s = true -> f s = false) -> existsb f init = false).
    { intros f Hfs. apply existsb_false_iff, Forall_forall. auto. }
    assert (Hlast : String.eqb "." l = false /\ String.eqb ".." l = false
      /\ contains_char ";" l = false /\ is_traversal_segment l = false).
    { destruct Hl as [->|Hl]; [done|]. by destruct (Hn l Hl) as (? & ? & ? & ? & ?). }
    destruct Hlast as (-> & -> & -> & ->).
    rewrite !Hex by (intros s Hs; by destruct (Hn s Hs) as (? & ? & ? & ? & ?)). done.
Qed.

Lemma normal_segment_kept s : normal_segment s = true ->
  before_char ";" s = s /\ String.eqb s "" || String.eqb s "." = false /\ is_traversal_segment s = false.
Proof.
  unfold normal_segment. rewrite !andb_true_iff, !negb_true_iff. intros ((((-> & ->) & ->) & _) & Hs).
  by rewrite before_char_id.
Qed.

Lemma rewrite_normal init rest i kept :
  forallb normal_segment init = true ->
  exists i', rewrite_segments (init ++ rest) i kept = rewrite_segments rest i' (rev init ++ kept).
Proof.
  revert i kept. induction init as [|s init IH]; intros i kept; [by exists i|]. intros [Hs Hi]%andb_true_iff.
  destruct (normal_segment_kept s Hs) as (Hb & Hd & Ht). cbn [app rewrite_segments]. rewrite Hb, Hd, Ht.
  destruct (IH (i + String.length s + 1) (s :: kept) Hi) as [i' ->]. exists i'. simpl.
  by rewrite <- (assoc_L (++)).
Qed.

Lemma rewrite_out_normal raws i kept out :
  forallb slash_free raws = true -> forallb normal_segment kept = true ->
  rewrite_segments raws i kept = Ok out -> forallb normal_segment out = true.
Proof.
  revert i kept. induction raws as [|raw raws IH]; intros i kept Hr Hk.
  { intros [= <-]. rewrite forallb_true_iff in *. by apply List.Forall_rev. }
  cbn [forallb] in Hr. apply andb_true_iff in Hr as [Hraw Hr]. cbn [rewrite_segments].
  destruct (_ || _) eqn:Ed; [by apply IH|]. destruct (is_traversal_segment _) eqn:Et.
  - destruct (negb _); [done|]. apply IH; [done|]. destruct kept; [done|]. by apply andb_true_iff in Hk as [_ ?].
  - apply IH; [done|]. cbn [forallb]. rewrite Hk, andb_true_r. unfold normal_segment.
    apply orb_false_iff in Ed as [-> ->]. rewrite Et, before_char_free. simpl. rewrite andb_true_r.
    unfold slash_free in *. rewrite contains_char_forall, negb_involutive in *. by apply before_char_forall.
Qed.

Lemma render_path_join segs : segs <> [] -> render_path segs = join_slash segs.
Proof. by destruct segs. Qed.

(** A rendered normal path needs no rewriting. *)
Lemma render_normal segs :
  forallb normal_segment segs = true -> needs_rewrite (render_path segs) = false.
Proof.
  intros Hs. destruct segs as [|s0 segs0] eqn:E; [done|]. rewrite <- E in *.
  rewrite render_path_join by (by rewrite E). destruct (exists_last (l := segs)) as (init & l & ->); [by rewrite E|].
  apply needs_rewrite_segments; [by apply normal_all_free|]. rewrite forallb_app in Hs. cbn [forallb] in Hs.
  rewrite !andb_true_iff in Hs. destruct Hs as (Hi & Hl & _). auto.
Qed.

(** ** Escapes *)

(** Every percent sign has its two digits; [n] are still expected. *)
Fixpoint escaped (n : nat) (s : string) : bool :=
  match s with
  | EmptyString => (n =? 0)%nat
  | String b r =>
      match n with
      | O => if Ascii.eqb b "%" then escaped 2 r else escaped 0 r
      | S n' => is_ascii_hexdigit b && escaped n' r
      end
  end.

Lemma escapes_escaped off n i s : escapes_from off n i s = Ok tt <-> escaped n s = true.
Proof.
  revert off n i. induction s as [|b s IH]; intros off n i; simpl; [by destruct n|].
  destruct n; [destruct (Ascii.eqb b "%"); apply IH|]. destruct (is_ascii_hexdigit b); simpl; [apply IH|done].
Qed.

Lemma escaped_app n a c b :
  is_ascii_hexdigit c = false -> Ascii.eqb c "%" = false ->
  escaped n (a +:+ String c b) = escaped n a && escaped 0 b.
Proof.
  intros Hc Hp. revert n. induction a as [|x a IH]; intros n.
  - change ("" +:+ String c b) with (String c b). simpl. destruct n; [by rewrite Hp|]. by rewrite Hc.
  - rewrite string_app_cons. simpl. destruct n; [by destruct (Ascii.eqb x "%")|]. by rewrite IH, andb_assoc.
Qed.

Lemma escaped_join segs : escaped 0 (join_slash segs) = forallb (escaped 0) segs.
Proof.
  induction segs as [|s segs IH]; [done|]. rewrite join_slash_cons. simpl. destruct segs as [|s' segs].
  - change (join_slash []) with "". by rewrite string_app_nil_r, andb_true_r.
  - rewrite join_slash_cons in *. rewrite escaped_app by done. by rewrite <- IH.
Qed.

Lemma escaped_before s : escaped 0 s = true -> escaped 0 (before_char ";" s) = true.
Proof.
  unfold before_char. pose proof (split_once_spec ";" s) as Hs. destruct (split_once ";" s) as [[x y]|]; [|done].
  destruct Hs as [-> _]. rewrite escaped_app by done. by intros [? _]%andb_true_iff.
Qed.

(** ** The guard *)

Lemma control_iff i s : control_from i s = Ok tt <-> string_forall (fun a => negb (is_ascii_control a)) s = true.
Proof. revert i. induction s as [|b s IH]; intros i; simpl; [done|]. by destruct (is_ascii_control b); simpl. Qed.

(** What is kept of a byte predicate by the rewrite. *)
Lemma rewrite_out_forall q raws i kept out :
  (forall s, q s = true -> q (before_char ";" s) = true) ->
  forallb q raws = true -> forallb q kept = true -> rewrite_segments raws i kept = Ok out -> forallb q out = true.
Proof.
  intros Hq. revert i kept. induction raws as [|raw raws IH]; intros i kept Hr Hk.
  { intros [= <-]. rewrite forallb_true_iff in *. by apply List.Forall_rev. }
  cbn [forallb] in Hr. apply andb_true_iff in Hr as [Hraw Hr]. cbn [rewrite_segments].
  destruct (_ || _); [by apply IH|]. destruct (is_traversal_segment _).
  - destruct (negb _); [done|]. apply IH; [done|]. destruct kept; [done|]. by apply andb_true_iff in Hk as [_ ?].
  - apply IH; [done|]. cbn [forallb]. by rewrite Hk, Hq.
Qed.

Lemma join_forall p segs :
  p "/"%char = true -> forallb (string_forall p) segs = true -> string_forall p (join_slash segs) = true.
Proof.
  intros Hp. induction segs as [|s segs IH]; [done|]. intros [Hs Hsegs]%andb_true_iff.
  rewrite join_slash_cons. simpl. by rewrite Hp, string_forall_app, Hs, IH.
Qed.

Lemma render_forall p segs :
  p "/"%char = true -> forallb (string_forall p) segs = true -> string_forall p (render_path segs) = true.
Proof.
  intros Hp Hs. destruct segs as [|s segs]; [simpl; by rewrite Hp|].
  rewrite render_path_join by done. by apply join_forall.
Qed.

(** A readable absolute path that carries no fragment and no query. *)
Record readable (p : string) : Prop := {
  rd_control : string_forall (fun a => negb (is_ascii_control a)) p = true;
  rd_plain : contains_char "#" p = false /\ contains_char "?" p = false;
  rd_escaped : escaped 0 p = true;
  rd_absolute : starts_with "/" p = true;
}.

Lemma strip_plain p : contains_char "#" p = false -> contains_char "?" p = false -> strip_fragment_and_query p = p.
Proof. intros Hf Hq. unfold strip_fragment_and_query. by rewrite (before_char_id "#"), (before_char_id "?"). Qed.

Lemma normalize_readable p :
  readable p -> normalize_match_path p = if needs_rewrite p then rewrite_path p else Ok p.
Proof.
  intros [Hc [Hf Hq] He Ha]. unfold normalize_match_path, reject_control_characters, reject_malformed_escapes.
  apply (control_iff 0) in Hc. rewrite Hc, strip_plain by done. apply (escapes_escaped 0 0 0) in He. rewrite He, Ha.
  by destruct (needs_rewrite p).
Qed.

(** What an absolute path that is not refused at once comes to. *)
Lemma normalize_absolute raw p :
  normalize_match_path raw = Ok p -> starts_with "/" (strip_fragment_and_query raw) = true ->
  readable (strip_fragment_and_query raw)
  /\ (if needs_rewrite (strip_fragment_and_query raw) then rewrite_path (strip_fragment_and_query raw)
      else Ok (strip_fragment_and_query raw)) = Ok p.
Proof.
  unfold normalize_match_path, reject_control_characters, reject_malformed_escapes. intros E Ha.
  destruct (control_from 0 raw) as [[]|] eqn:Ec; [|done]. apply control_iff in Ec.
  destruct (escapes_from _ _ _ _) as [[]|] eqn:Ee; [|done]. apply escapes_escaped in Ee. rewrite Ha in E. simpl in E.
  split; [|by destruct (needs_rewrite _)]. split; [| |done|done].
  - by apply before_char_forall, before_char_forall.
  - split; [|apply before_char_free]. pose proof (before_char_free "#" raw) as Hf.
    rewrite contains_char_forall, negb_false_iff in *. by apply before_char_forall.
Qed.

Lemma absolute_segments p : starts_with "/" p = true -> exists segs, segs <> [] /\ p = join_slash segs
  /\ forallb slash_free segs = true /\ split "/" p = "" :: segs.
Proof.
  destruct p as [|a p]; [done|]. rewrite starts_with_cons. intros [Ha _]%andb_true_iff.
  apply Ascii.eqb_eq in Ha as <-. exists (split "/" p). split; [apply split_ne_nil|].
  split; [by rewrite join_slash_split|]. split; [apply split_slash_free|done].
Qed.

Lemma readable_render p segs out i :
  readable p -> split "/" p = "" :: segs -> rewrite_segments ("" :: segs) i [] = Ok out -> readable (render_path out).
Proof.
  intros [Hc [Hf Hq] He Ha] Es Er.
  assert (Hkeep : forall q, string_forall q p = true -> q "/"%char = true -> string_forall q (render_path out) = true).
  { intros q Hp Hs. apply render_forall; [done|]. apply (rewrite_out_forall _ ("" :: segs) i []); [|rewrite <- Es; by apply split_slash_forall|done|done].
    intros s. apply before_char_forall. }
  assert (Hno : forall c, contains_char c p = false -> Ascii.eqb "/" c = false -> contains_char c (render_path out) = false).
  { intros c Hp Hs. rewrite contains_char_forall, negb_false_iff in *. apply Hkeep; [done|]. by rewrite Hs. }
  split; [by apply Hkeep|by split; apply Hno| |].
  - destruct out as [|s out]; [done|]. rewrite render_path_join, escaped_join by done.
    apply (rewrite_out_forall _ ("" :: segs) i []); [apply escaped_before| |done|done].
    assert (Ep : p = join_slash segs).
    { destruct (absolute_segments p Ha) as (segs' & _ & -> & _ & Es'). congruence. }
    cbn [forallb]. by rewrite Ep, escaped_join in He.
  - destruct out as [|s out]; [done|]. rewrite render_path_join by done.
    by rewrite join_slash_cons, starts_with_cons, starts_with_nil.
Qed.

(** The path guard gives absolute paths a normal form: what it returns is, up to
    one trailing slash, the rewrite of the path, whose segments are names (none empty, no
    dot segment, no traversal in any spelling, no path parameter); reading the result again
    returns it unchanged. *)
Theorem normalize_normal_form raw p :
  normalize_match_path raw = Ok p -> starts_with "/" (strip_fragment_and_query raw) = true ->
  exists segs, forallb normal_segment segs = true
  /\ rewrite_path (strip_fragment_and_query raw) = Ok (render_path segs)
  /\ (p = render_path segs \/ segs <> [] /\ p = render_path segs +:+ "/")
  /\ normalize_match_path p = Ok p.
Proof.
  intros E Ha. destruct (normalize_absolute raw p E Ha) as [Hr Ep]. clear E.
  set (path := strip_fragment_and_query raw) in *. destruct (absolute_segments path Ha) as (segs & Hne & Ej & Hfree & Es).
  destruct (needs_rewrite path) eqn:En.
  - unfold rewrite_path in Ep. rewrite Es in Ep. destruct (rewrite_segments ("" :: segs) 0 []) as [out|] eqn:Er; [|done].
    injection Ep as <-. assert (Hn : forallb normal_segment out = true) by (by eapply rewrite_out_normal; [| |exact Er]).
    exists out. split; [done|]. split; [unfold rewrite_path; by rewrite Es, Er|]. split; [by left|].
    rewrite normalize_readable by (by eapply readable_render). by rewrite render_normal.
  - injection Ep as <-. destruct (exists_last Hne) as (init & l & ->).
    assert (Hn := En). rewrite Ej, needs_rewrite_segments in Hn by done. destruct Hn as [Hi Hl].
    assert (Hself : normalize_match_path path = Ok path) by (by rewrite normalize_readable, En).
    assert (Hrw : forall x, rewrite_segments ("" :: init ++ [l]) 0 [] = Ok x -> rewrite_path path = Ok (render_path x)).
    { intros x Ex. unfold rewrite_path. by rewrite Es, Ex. }
    change (rewrite_segments ("" :: init ++ [l]) 0 []) with (rewrite_segments (init ++ [l]) 1 []) in Hrw.
    destruct (rewrite_normal init [l] 1 [] Hi) as [i' Ei]. rewrite Ei, app_nil_r in Hrw.
    destruct Hl as [->|Hl].
    + exists init. split; [done|]. split; [apply Hrw; simpl; by rewrite rev_involutive|].
      split; [|done]. destruct init as [|s init]; [left; by rewrite Ej|]. right. split; [done|].
      by rewrite Ej, render_path_join, join_slash_app.
    + exists (init ++ [l]). split; [rewrite forallb_app, Hi; simpl; by rewrite Hl|].
      split.
      { apply Hrw. destruct (normal_segment_kept l Hl) as (Hb & Hd & Ht). cbn [rewrite_segments]. rewrite Hb, Hd, Ht.
        simpl. by rewrite rev_involutive. }
      split; [|done]. left. rewrite Ej, render_path_join; [done|by destruct init].
Qed.

