(* ===== verification/ConfigKeys.v ===== *)
(** * The keys of a configuration document
    ([ppe-core/src/config.rs])

    The closed key table of every mapping a document can hold, the checks that run on the
    raw YAML before it is deserialized. A refusal is a value of [KeyError], one constructor per
    message, with what the message interpolates. *)

From Stdlib Require Import Ascii String.
From S2P Require Import Prelude RustStr F64 Json Constraint Step Stages StepParser.

(** ** Key tables *)

Inductive KeyRole : Type := Structural | AplTerm | EngineWiring | ShapeConditional.
Inductive KeyOwner : Type := OwnerCore | OwnerApl | OwnerShared.

Record ConfigKey : Type := mkKey { ck_name : string; ck_role : KeyRole; ck_owner : KeyOwner }.

#[global] Instance KeyOwner_eq_dec : EqDecision KeyOwner.
Proof. solve_decision. Defined.

Definition structural_key (name : string) (owner : KeyOwner) : ConfigKey := mkKey name Structural owner.
Definition apl_term_key (name : string) : ConfigKey := mkKey name AplTerm OwnerApl.
Definition wiring_key (name : string) : ConfigKey := mkKey name EngineWiring OwnerApl.
Definition shape_conditional_key (name : string) : ConfigKey := mkKey name ShapeConditional OwnerShared.

Definition core_keys (names : list string) : list ConfigKey := map (fun n => structural_key n OwnerCore) names.

Definition SECTION_APL_KEYS : list ConfigKey := [apl_term_key "authorization"].
Definition FIELD_STAGE_KEYS : list ConfigKey := [apl_term_key "args"; apl_term_key "result"].
Definition GLOBAL_WIRING_KEYS : list ConfigKey :=
  [wiring_key "pdp"; wiring_key "session_store"; wiring_key "attribute_files"].
Definition DOCUMENT_KEYS : list ConfigKey :=
  core_keys ["global"; "plugins"; "groups"; "routes"; "secrets"; "engine_settings"].
Definition GLOBAL_STRUCTURAL_KEYS : list ConfigKey :=
  core_keys ["defaults"; "authentication"; "rate_limits"; "assertions"] ++ [structural_key "response" OwnerApl].
Definition BUNDLE_STRUCTURAL_KEYS : list ConfigKey :=
  core_keys ["description"; "metadata"] ++ [shape_conditional_key "plugins"]
  ++ core_keys ["authentication"; "rate_limits"; "assertions"] ++ [structural_key "response" OwnerApl].
Definition ROUTE_STRUCTURAL_KEYS : list ConfigKey :=
  core_keys ["tool"; "resource"; "prompt"; "llm"; "http"; "meta"; "groups"] ++ [shape_conditional_key "plugins"]
  ++ core_keys ["authentication"; "rate_limits"; "assertions"] ++ [structural_key "response" OwnerApl].
Definition ENGINE_SETTINGS_KEYS : list ConfigKey :=
  core_keys ["dispatch"; "plugin_timeout"; "audit_timeout_milliseconds"; "short_circuit_on_deny";
             "route_cache_max_entries"; "effect_log_path"; "effect_log_compaction_threshold";
             "capture_content_provenance"; "content_provenance_key"; "audit_stream_namespace"].
Definition AUTHENTICATION_STEP_KEYS : list ConfigKey := core_keys ["name"; "config"].
Definition AUTHENTICATION_KEYS : list ConfigKey := core_keys ["steps"; "replace_inherited"].
Definition RATE_LIMITS_STEP_KEYS : list ConfigKey := AUTHENTICATION_STEP_KEYS.
Definition RATE_LIMITS_KEYS : list ConfigKey := AUTHENTICATION_KEYS.
Definition ASSERTIONS_KEYS : list ConfigKey := core_keys ["request"; "response"].
Definition ASSERTIONS_DIRECTION_KEYS : list ConfigKey := core_keys ["headers"; "strip"; "replace_inherited"].
Definition ASSERTION_HEADER_KEYS : list ConfigKey := core_keys ["name"; "from"; "members"; "on_missing"; "encode"].

Inductive ConfigScope : Type :=
| ScDocument | ScGlobal | ScEntityDefault | ScGroup | ScRoute | ScEngineSettings
| ScAuthentication | ScAuthenticationStep | ScRateLimits | ScRateLimitsStep
| ScAssertions | ScAssertionsDirection | ScAssertionHeader.

Definition scope_label (s : ConfigScope) : string :=
  match s with
  | ScDocument => "(document)"
  | ScGlobal => "global"
  | ScEntityDefault => "global.defaults.<entity>"
  | ScGroup => "groups.<name>"
  | ScRoute => "routes[]"
  | ScEngineSettings => "engine_settings"
  | ScAuthentication => "an authentication block"
  | ScAuthenticationStep => "an authentication step"
  | ScRateLimits => "a rate_limits block"
  | ScRateLimitsStep => "a rate_limits step"
  | ScAssertions => "an assertions block"
  | ScAssertionsDirection => "an assertions request or response block"
  | ScAssertionHeader => "an assertions header entry"
  end.

Definition scope_keys (s : ConfigScope) : list ConfigKey :=
  match s with
  | ScDocument => DOCUMENT_KEYS
  | ScGlobal => GLOBAL_STRUCTURAL_KEYS ++ SECTION_APL_KEYS ++ GLOBAL_WIRING_KEYS
  | ScEntityDefault | ScGroup => BUNDLE_STRUCTURAL_KEYS ++ SECTION_APL_KEYS ++ FIELD_STAGE_KEYS
  | ScRoute => ROUTE_STRUCTURAL_KEYS ++ SECTION_APL_KEYS ++ FIELD_STAGE_KEYS
  | ScEngineSettings => ENGINE_SETTINGS_KEYS
  | ScAuthentication => AUTHENTICATION_KEYS
  | ScAuthenticationStep => AUTHENTICATION_STEP_KEYS
  | ScRateLimits => RATE_LIMITS_KEYS
  | ScRateLimitsStep => RATE_LIMITS_STEP_KEYS
  | ScAssertions => ASSERTIONS_KEYS
  | ScAssertionsDirection => ASSERTIONS_DIRECTION_KEYS
  | ScAssertionHeader => ASSERTION_HEADER_KEYS
  end.

Definition section_apl_block_keys : list ConfigKey := SECTION_APL_KEYS ++ FIELD_STAGE_KEYS ++ GLOBAL_WIRING_KEYS.
Definition global_wiring_keys : list ConfigKey := GLOBAL_WIRING_KEYS.

(** [slice.contains(&s)]. *)
Definition contains_string (l : list string) (s : string) : bool := existsb (String.eqb s) l.

(** [map.keys().filter_map(Value::as_str)]. *)
Definition string_keys (m : list (yaml * yaml)) : list string := omap (fun '(k, _) => yaml_as_str k) m.

Definition unknown_keys_in (scope : ConfigScope) (m : list (yaml * yaml)) (extra : list string) : list string :=
  List.filter (fun key => negb (existsb (fun known => String.eqb (ck_name known) key) (scope_keys scope))
                          && negb (contains_string extra key)) (string_keys m).

Definition REPLACED_KEYS : list (string * string) :=
  [("policy", "`authorization.pre_invocation`");
   ("post_policy", "`authorization.post_invocation`");
   ("identity", "`authentication`");
   ("policies", "the top-level `groups:` block");
   ("plugin_settings", "`engine_settings`, whose `routing_enabled: true` is now `dispatch: policy`");
   ("when", "a `when:` / `do:` step under `authorization:`");
   ("plugin_dirs", "`register_factory()` plus a declaration in the `plugins:` block");
   ("parallel_execution_within_band", "`mode: concurrent` on the individual plugin");
   ("fail_on_plugin_error", "`on_error: fail` on the individual plugin");
   ("on_error", "the `on_error:` of the plugin's own `plugins:` declaration")].

Definition replacement_for (key : string) : option string :=
  snd <$> List.find (fun '(old, _) => String.eqb old key) REPLACED_KEYS.

Definition unknown_keys_message (scope : ConfigScope) (unknown : list string) : string :=
  let label := if (length unknown =? 1)%nat then "key" else "keys" in
  let message := "unknown " +:+ label +:+ " `" +:+ String.concat "`, `" unknown +:+ "`; " +:+ scope_label scope
                 +:+ " accepts " +:+ String.concat ", " (map ck_name (scope_keys scope)) in
  fold_left (fun message key =>
    match replacement_for key with
    | Some replacement => message +:+ ". `" +:+ key +:+ "` was replaced by " +:+ replacement
    | None => message
    end) unknown message.

(** ** Refusals *)

Inductive KeyError : Type :=
| EUnknownKeys (place message : string)          (* "{place} has {message}" *)
| ERouteKeyNotString (route : nat)
| EAplKeys (path : string) (found : list string)
| EHookModeKeys (found : list string)
| EActivationList (path : string)
| EPluginConditions (plugin : string)
| EPluginPriority (plugin : string).

(** [for (i, x) in l.iter().enumerate() { f(i, x)?; }], from index [i]. *)
Fixpoint try_enum {A E} (f : nat -> A -> result unit E) (i : nat) (l : list A) : result unit E :=
  match l with [] => Ok tt | x :: l' => let? _ := f i x in try_enum f (S i) l' end.

(** ** Checks on the raw document *)

(** [value.get("key")]. *)
Definition yaml_get (v : yaml) (key : string) : option yaml := as_mapping v ≫= mapping_get key.

Definition reject_unknown_document_keys (raw : yaml) : result unit KeyError :=
  match as_mapping raw with
  | None => Ok tt
  | Some m =>
      let unknown := unknown_keys_in ScDocument m [] in
      if is_nil unknown then Ok tt
      else Err (EUnknownKeys "config document" (unknown_keys_message ScDocument unknown))
  end.

Definition reject_unknown_engine_settings_keys (raw : yaml) : result unit KeyError :=
  match yaml_get raw "engine_settings" ≫= as_mapping with
  | None => Ok tt
  | Some m =>
      let unknown := unknown_keys_in ScEngineSettings m [] in
      if is_nil unknown then Ok tt
      else Err (EUnknownKeys "`engine_settings`" (unknown_keys_message ScEngineSettings unknown))
  end.

Definition reject_unknown_route_keys (raw : yaml) (extra_route_keys : list string) : result unit KeyError :=
  match yaml_get raw "routes" ≫= as_sequence with
  | None => Ok tt
  | Some routes =>
      try_enum (fun i route =>
        match as_mapping route with
        | None => Ok tt
        | Some m =>
            if existsb (fun '(k, _) => match yaml_as_str k with None => true | Some _ => false end) m
            then Err (ERouteKeyNotString i)
            else
              let unknown := unknown_keys_in ScRoute m extra_route_keys in
              if is_nil unknown then Ok tt
              else Err (EUnknownKeys ("route " +:+ show_nat i) (unknown_keys_message ScRoute unknown))
        end) 0 routes
  end.

Section Sections.
Variable check : string -> ConfigScope -> yaml -> result unit KeyError.

(** The walk over [bundles] shared by the section checks. *)
Definition check_bundles (prefix : string) (scope : ConfigScope) (bundles : option yaml) : result unit KeyError :=
  match bundles ≫= as_mapping with
  | None => Ok tt
  | Some m => try_each (fun '(name, bundle) => check (prefix +:+ "." +:+ default "?" (yaml_as_str name)) scope bundle) m
  end.

(** [global], its defaults, then the groups. *)
Definition check_sections (raw : yaml) : result unit KeyError :=
  let? _ := match yaml_get raw "global" with
            | None => Ok tt
            | Some global =>
                let? _ := check "global" ScGlobal global in
                check_bundles "global.defaults" ScEntityDefault (yaml_get global "defaults")
            end in
  check_bundles "groups" ScGroup (yaml_get raw "groups").
End Sections.

Definition section_keys_known (extra : list string) (path : string) (scope : ConfigScope) (v : yaml) :
    result unit KeyError :=
  match as_mapping v with
  | None => Ok tt
  | Some m =>
      let unknown := unknown_keys_in scope m extra in
      if is_nil unknown then Ok tt
      else Err (EUnknownKeys ("`" +:+ path +:+ "`") (unknown_keys_message scope unknown))
  end.

Definition reject_unknown_section_keys (raw : yaml) (extra_keys : list string) : result unit KeyError :=
  check_sections (section_keys_known extra_keys) raw.

Definition apl_keys_in (scope : ConfigScope) (m : list (yaml * yaml)) : list string :=
  List.filter (fun name => existsb (fun key => String.eqb (ck_name key) name && bool_decide (ck_owner key = OwnerApl))
                                   (scope_keys scope)) (string_keys m).

Definition section_apl_keys (path : string) (scope : ConfigScope) (v : yaml) : result unit KeyError :=
  match as_mapping v with
  | None => Ok tt
  | Some m => let found := apl_keys_in scope m in if is_nil found then Ok tt else Err (EAplKeys path found)
  end.

Definition reject_apl_keys_without_a_visitor (raw : yaml) : result unit KeyError :=
  let? _ := check_sections section_apl_keys raw in
  match yaml_get raw "routes" ≫= as_sequence with
  | None => Ok tt
  | Some routes =>
      try_enum (fun i route => section_apl_keys ("routes[" +:+ show_nat i +:+ "]") ScRoute route) 0 routes
  end.

(** ** Dispatch modes *)

Inductive DispatchMode : Type := ModePolicy | ModeHooks.

Definition is_policy (m : DispatchMode) : bool := match m with ModePolicy => true | ModeHooks => false end.

Definition declared_dispatch_mode (raw : yaml) : option DispatchMode :=
  match yaml_get raw "engine_settings" ≫= (fun s => yaml_get s "dispatch") with
  | None => Some ModePolicy
  | Some value =>
      match yaml_as_str value with
      | Some s => if String.eqb s "policy" then Some ModePolicy
                  else if String.eqb s "hooks" then Some ModeHooks else None
      | None => None
      end
  end.

Definition POLICY_MODE_DOCUMENT_KEYS : list string := ["global"; "groups"; "routes"].

Definition reject_policy_keys_in_hook_mode (raw : yaml) : result unit KeyError :=
  let found := List.filter (fun key => negb (is_none (yaml_get raw key))) POLICY_MODE_DOCUMENT_KEYS in
  let found := found ++ (if negb (is_none (yaml_get raw "global" ≫= (fun g => yaml_get g "defaults")))
                         then ["global.defaults"] else []) in
  if is_nil found then Ok tt else Err (EHookModeKeys found).

(** The value itself is a sequence, with no tag around it. *)
Definition activation_list (path : string) (section : yaml) : result unit KeyError :=
  match yaml_get section "plugins" with
  | Some (YSequence _) => Err (EActivationList path)
  | _ => Ok tt
  end.

Definition reject_activation_lists_in_policy_mode (raw : yaml) : result unit KeyError :=
  let bundles := check_bundles (fun path _ section => activation_list path section) in
  let? _ := match yaml_get raw "routes" ≫= as_sequence with
            | None => Ok tt
            | Some routes => try_enum (fun i route => activation_list ("routes[" +:+ show_nat i +:+ "]") route) 0 routes
            end in
  let? _ := bundles "groups" ScGroup (yaml_get raw "groups") in
  bundles "global.defaults" ScEntityDefault (yaml_get raw "global" ≫= (fun g => yaml_get g "defaults")).

Definition reject_plugin_dispatch_keys_in_policy_mode (raw : yaml) : result unit KeyError :=
  match yaml_get raw "plugins" ≫= as_sequence with
  | None => Ok tt
  | Some plugins =>
      try_each (fun plugin =>
        let name := default "?" (yaml_get plugin "name" ≫= yaml_as_str) in
        if negb (is_none (yaml_get plugin "conditions")) then Err (EPluginConditions name)
        else if negb (is_none (yaml_get plugin "priority")) then Err (EPluginPriority name)
        else Ok tt) plugins
  end.

Definition reject_mode_conflicts (raw : yaml) : result unit KeyError :=
  match declared_dispatch_mode raw with
  | None => Ok tt
  | Some ModeHooks => reject_policy_keys_in_hook_mode raw
  | Some ModePolicy =>
      let? _ := reject_activation_lists_in_policy_mode raw in
      reject_plugin_dispatch_keys_in_policy_mode raw
  end.
