(* ===== verification/Hooks.v ===== *)
(** * Hook names and their metadata ([ppe-core/src/hooks/metadata.rs],
    [ppe-core/src/hooks/types.rs], [ppe-core/src/cmf/constants.rs], [ppe-core/src/config.rs])

    What a hook name says about dispatch, the registry that starts from the built-in table,
    and the name suggested for a misspelled hook: the built-in name at the least edit
    distance, when that distance is small. *)

From Stdlib Require Import Ascii String.
From S2P Require Import Prelude RustStr.

Definition ENTITY_TOOL : string := "tool".
Definition ENTITY_LLM : string := "llm".
Definition ENTITY_PROMPT : string := "prompt".
Definition ENTITY_RESOURCE : string := "resource".
Definition ENTITY_HTTP : string := "http".
Definition ENTITY_NAME_GLOBAL : string := "*".

Inductive HookPhase : Type := PhPre | PhPost | PhUnphased.

#[global] Instance HookPhase_eq_dec : EqDecision HookPhase.
Proof. solve_decision. Defined.

Record HookMetadata : Type := mkHookMeta {
  hm_family : option string;
  hm_entity_type : option string;
  hm_phase : HookPhase;
}.

Definition permissive : HookMetadata := mkHookMeta None None PhUnphased.

Definition meta_matches (m : HookMetadata) (request_entity_type : option string) (requested_phase : HookPhase) : bool :=
  let entity_ok := match hm_entity_type m, request_entity_type with
                   | Some hook_et, Some req_et => String.eqb hook_et req_et
                   | Some _, None => true
                   | None, _ => true
                   end in
  if negb entity_ok then false
  else match hm_phase m, requested_phase with
       | PhUnphased, _ | _, PhUnphased => true
       | a, b => bool_decide (a = b)
       end.

(** ** The built-in tables *)

Definition HOOK_IDENTITY_RESOLVE : string := "identity.resolve".
Definition HOOK_TOKEN_DELEGATE : string := "token.delegate".
Definition HOOK_ELICIT : string := "elicit".
Definition HOOK_RATELIMIT_PRE_IDENTITY : string := "ratelimit.pre_identity".
Definition HOOK_RATELIMIT_POST_IDENTITY : string := "ratelimit.post_identity".

Definition cmf_row (name entity : string) (phase : HookPhase) : string * HookMetadata :=
  (name, mkHookMeta (Some "cmf") (Some entity) phase).

Definition CMF_HOOK_METADATA : list (string * HookMetadata) :=
  [cmf_row "cmf.tool_pre_invoke" ENTITY_TOOL PhPre; cmf_row "cmf.tool_post_invoke" ENTITY_TOOL PhPost;
   cmf_row "cmf.llm_input" ENTITY_LLM PhPre; cmf_row "cmf.llm_output" ENTITY_LLM PhPost;
   cmf_row "cmf.prompt_pre_invoke" ENTITY_PROMPT PhPre; cmf_row "cmf.prompt_post_invoke" ENTITY_PROMPT PhPost;
   cmf_row "cmf.resource_pre_fetch" ENTITY_RESOURCE PhPre; cmf_row "cmf.resource_post_fetch" ENTITY_RESOURCE PhPost].

Definition HTTP_HOOK_METADATA : list (string * HookMetadata) :=
  [("http.request", mkHookMeta (Some "http") (Some ENTITY_HTTP) PhPre);
   ("http.response", mkHookMeta (Some "http") (Some ENTITY_HTTP) PhPost)].

Definition IDENTITY_HOOK_METADATA : list (string * HookMetadata) :=
  [(HOOK_IDENTITY_RESOLVE, mkHookMeta (Some "identity.resolve") None PhUnphased)].

Definition DELEGATION_HOOK_METADATA : list (string * HookMetadata) :=
  [(HOOK_TOKEN_DELEGATE, mkHookMeta (Some "token.delegate") None PhUnphased)].

Definition ELICITATION_HOOK_METADATA : list (string * HookMetadata) :=
  [(HOOK_ELICIT, mkHookMeta (Some "elicit") None PhUnphased)].

Definition RATELIMIT_HOOK_METADATA : list (string * HookMetadata) :=
  [(HOOK_RATELIMIT_PRE_IDENTITY, mkHookMeta (Some "http") None PhUnphased);
   (HOOK_RATELIMIT_POST_IDENTITY, mkHookMeta (Some "http") None PhUnphased)].

Definition HOOK_TABLES : list (list (string * HookMetadata)) :=
  [CMF_HOOK_METADATA; HTTP_HOOK_METADATA; IDENTITY_HOOK_METADATA; DELEGATION_HOOK_METADATA;
   ELICITATION_HOOK_METADATA; RATELIMIT_HOOK_METADATA].

Definition BUILTIN_HOOK_METADATA : list (string * HookMetadata) := concat HOOK_TABLES.

Definition builtin_hook_types : list string := map fst BUILTIN_HOOK_METADATA.

(** ** The registry *)

Definition HookRegistry : Type := gmap string HookMetadata.

(** What the registry holds on first access. *)
Definition registry : HookRegistry :=
  fold_left (fun m '(name, meta) => <[name := meta]> m) BUILTIN_HOOK_METADATA ∅.

Definition lookup_hook (r : HookRegistry) (hook_name : string) : option HookMetadata := r !! hook_name.

Definition register_hook_metadata (r : HookRegistry) (hook_name : string) (meta : HookMetadata) : HookRegistry :=
  <[hook_name := meta]> r.

(** ** The suggestion for an unknown name *)

(** The inner loop: the cells after the first of the row for [ca], from the characters of
    the second name and the row above. [left] is the cell to the left. *)
Fixpoint distance_row (ca : string) (left : nat) (b_chars : list string) (prev : list nat) : list nat :=
  match b_chars, prev with
  | cb :: b', up_left :: ((up :: _) as prev') =>
      let left := ((up_left + (if String.eqb ca cb then 0 else 1)) `min` (up + 1)) `min` (left + 1) in
      left :: distance_row ca left b' prev'
  | _, _ => []
  end%nat.

(** The outer loop, from row [i]. *)
Fixpoint distance_rows (i : nat) (a_chars b_chars : list string) (prev : list nat) : list nat :=
  match a_chars with
  | [] => prev
  | ca :: a' => distance_rows (S i) a' b_chars ((i + 1)%nat :: distance_row ca (i + 1)%nat b_chars prev)
  end.

Definition edit_distance (a b : string) : nat :=
  let b_chars := chars b in
  default 0%nat (last (distance_rows 0 (chars a) b_chars (seq 0 (S (length b_chars))))).

(** [iter.min_by_key(..)]: the first of the least. *)
Fixpoint min_by_key {A} (key : A -> nat) (l : list A) : option A :=
  match l with
  | [] => None
  | x :: l' =>
      match min_by_key key l' with
      | Some y => Some (if (key x <=? key y)%nat then x else y)
      | None => Some x
      end
  end.

Definition nearest_known_hook (name : string) : option string :=
  snd <$> min_by_key fst
    (List.filter (fun '(distance, candidate) =>
        (distance * 2 <=? length (chars name) `max` length (chars candidate))%nat)
      (map (fun candidate => (edit_distance name candidate, candidate)) builtin_hook_types)).

(** ** The two-row edit distance computes the least number of edits

    [edit_distance] keeps one row of the table. Its specification is an edit script: keep,
    replace, delete or insert one character at a time. *)

(** [edits a b n]: a script of [n] changes turns [a] into [b]. *)
Inductive edits : list string -> list string -> nat -> Prop :=
| edits_nil : edits [] [] 0
| edits_keep c a b n : edits a b n -> edits (c :: a) (c :: b) n
| edits_replace c d a b n : edits a b n -> edits (c :: a) (d :: b) (S n)
| edits_delete c a b n : edits a b n -> edits (c :: a) b (S n)
| edits_insert d a b n : edits a b n -> edits a (d :: b) (S n).

#[local] Hint Constructors edits : policy.

(** The same recursion with no table. *)
Fixpoint lev (a b : list string) : nat :=
  match a with
  | [] => length b
  | x :: a' =>
      (fix go (b : list string) : nat :=
        match b with
        | [] => S (length a')
        | y :: b' => ((lev a' b' + (if String.eqb x y then 0 else 1)) `min` (lev a' b + 1)) `min` (go b' + 1)
        end) b
  end%nat.

Lemma lev_cons x a y b :
  lev (x :: a) (y :: b) = (((lev a b + (if String.eqb x y then 0 else 1)) `min` (lev a (y :: b) + 1))
                           `min` (lev (x :: a) b + 1))%nat.
Proof. done. Qed.

Lemma edits_insert_all b : edits [] b (length b).
Proof. induction b; simpl; eauto with policy. Qed.

Lemma edits_delete_all a : edits a [] (length a).
Proof. induction a; simpl; eauto with policy. Qed.

Lemma edits_le a b n : edits a b n -> (lev a b <= n)%nat.
Proof.
  induction 1 as [|c a b n H IH|c d a b n H IH|c a b n H IH|d a b n H IH]; try done.
  - rewrite lev_cons, String.eqb_refl. lia.
  - rewrite lev_cons. destruct (String.eqb c d); lia.
  - destruct b as [|y b]; [|rewrite lev_cons; lia].
    destruct a; simpl in *; lia.
  - destruct a as [|x a]; [simpl in *; lia|rewrite lev_cons; lia].
Qed.

Lemma lev_edits a b : edits a b (lev a b).
Proof.
  revert b. induction a as [|x a IHa]; intros b; [apply edits_insert_all|].
  induction b as [|y b IHb]; [apply (edits_delete_all (x :: a))|].
  rewrite lev_cons.
  destruct (Nat.min_spec ((lev a b + (if String.eqb x y then 0 else 1)) `min` (lev a (y :: b) + 1)) (lev (x :: a) b + 1))
    as [[_ ->]|[_ ->]]; [|rewrite Nat.add_1_r; auto with policy].
  destruct (Nat.min_spec (lev a b + (if String.eqb x y then 0 else 1)) (lev a (y :: b) + 1)) as [[_ ->]|[_ ->]];
    [|rewrite Nat.add_1_r; auto with policy].
  destruct (String.eqb_spec x y) as [->|_]; [rewrite Nat.add_0_r|rewrite Nat.add_1_r]; auto with policy.
Qed.

(** Scripts read from either end. *)
Lemma edits_app a b n a' b' n' : edits a b n -> edits a' b' n' -> edits (a ++ a') (b ++ b') (n + n').
Proof. induction 1; simpl; eauto with policy. Qed.

Lemma edits_rev a b n : edits a b n -> edits (rev a) (rev b) n.
Proof.
  induction 1 as [|c a b n H IH|c d a b n H IH|c a b n H IH|d a b n H IH]; simpl; [constructor| | | |].
  - rewrite <- (Nat.add_0_r n). apply edits_app; auto with policy.
  - rewrite <- Nat.add_1_r. apply edits_app; auto with policy.
  - rewrite <- Nat.add_1_r, <- (app_nil_r (rev b)). apply edits_app; auto with policy.
  - rewrite <- Nat.add_1_r, <- (app_nil_r (rev a)). apply edits_app; auto with policy.
Qed.

Lemma lev_rev a b : lev (rev a) (rev b) = lev a b.
Proof.
  assert (Hle : forall a b, (lev (rev a) (rev b) <= lev a b)%nat).
  { intros a' b'. apply edits_le, edits_rev, lev_edits. }
  apply Nat.le_antisymm; [apply Hle|].
  rewrite <- (rev_involutive a) at 1. rewrite <- (rev_involutive b) at 1. apply Hle.
Qed.

(** ** The rows *)

(** The cells of the row for the characters [ra] (last first), from column [done] (last
    first) on. *)
Fixpoint cells (ra done_ todo : list string) : list nat :=
  lev ra done_ :: match todo with [] => [] | c :: todo' => cells ra (c :: done_) todo' end.

Lemma cells_first ra done_ todo :
  exists rest, cells ra done_ todo = lev ra done_ :: rest.
Proof. destruct todo; simpl; eauto. Qed.

Lemma distance_row_cells ca ra todo : forall done_,
  lev (ca :: ra) done_ :: distance_row ca (lev (ca :: ra) done_) todo (cells ra done_ todo) = cells (ca :: ra) done_ todo.
Proof.
  induction todo as [|c todo IH]; intros done_; [done|].
  change (cells ra done_ (c :: todo)) with (lev ra done_ :: cells ra (c :: done_) todo).
  change (cells (ca :: ra) done_ (c :: todo)) with (lev (ca :: ra) done_ :: cells (ca :: ra) (c :: done_) todo).
  specialize (IH (c :: done_)).
  destruct (cells_first ra (c :: done_) todo) as [rest Hrest]. rewrite Hrest in IH |- *.
  f_equal. rewrite <- IH. rewrite lev_cons. reflexivity.
Qed.

Lemma distance_rows_cells b a : forall ra,
  distance_rows (length ra) a b (cells ra [] b) = cells (rev a ++ ra) [] b.
Proof.
  induction a as [|ca a IH]; intros ra; [done|]. simpl distance_rows.
  replace (length ra + 1)%nat with (lev (ca :: ra) []) at 1 2 by (simpl; lia).
  rewrite distance_row_cells. change (S (length ra)) with (length (ca :: ra)).
  rewrite IH. simpl. by rewrite <- app_assoc.
Qed.

Lemma cells_nil done_ todo : cells [] done_ todo = seq (length done_) (S (length todo)).
Proof.
  revert done_. induction todo as [|c todo IH]; intros done_; [done|].
  change (cells [] done_ (c :: todo)) with (length done_ :: cells [] (c :: done_) todo). by rewrite IH.
Qed.

Lemma cells_last ra todo : forall done_, last (cells ra done_ todo) = Some (lev ra (rev todo ++ done_)).
Proof.
  induction todo as [|c todo IH]; intros done_; [done|].
  change (cells ra done_ (c :: todo)) with (lev ra done_ :: cells ra (c :: done_) todo).
  rewrite last_cons, IH. simpl. by rewrite <- app_assoc.
Qed.

Lemma edit_distance_lev a b : edit_distance a b = lev (chars a) (chars b).
Proof.
  unfold edit_distance. pose proof (cells_nil [] (chars b)) as Hrow. simpl length in Hrow. rewrite <- Hrow.
  pose proof (distance_rows_cells (chars b) (chars a) []) as Hrows. simpl length in Hrows.
  rewrite Hrows, cells_last, !app_nil_r. apply lev_rev.
Qed.

(** [edit_distance_least]: the two-row loop computes the Levenshtein distance: some
    script of that many changes turns the first name's characters into the second's, and
    none is shorter. *)
Theorem edit_distance_least a b :
  edits (chars a) (chars b) (edit_distance a b)
  /\ (forall n, edits (chars a) (chars b) n -> (edit_distance a b <= n)%nat).
Proof. rewrite edit_distance_lev. split; [apply lev_edits|apply edits_le]. Qed.
