(* ===== verification/Assertions.v ===== *)
(** * What the engine asserts as headers ([ppe-core/src/assertions/])

    The sources an entry may read ([source.rs]), the [assertions:] block and its checks
    ([config.rs], [floor.rs]), the accumulated contract ([resolved.rs]), and the rendering
    and application of a contract ([render.rs], [apply.rs]). Glob matching is the
    [wildmatch] crate's and is a parameter; an error text is a constructor with what the
    text interpolates. *)

From Stdlib Require Import Ascii String.
From S2P Require Import Prelude RustStr F64 Json Platform Constraint Step ExtData Extensions Stages StepParser HttpPath ConfigKeys.

(** [wildmatch::WildMatch::new(pattern).matches(name)]. *)
Class WildMatch := { wildmatch : string -> string -> bool }.

(** [Pattern]: the text, whose matcher is compiled from it. *)
Definition Pattern : Type := string.
Definition pattern_matches `{WildMatch} (p : Pattern) (name : string) : bool := wildmatch p name.

(** ** Directions and levels ([mod.rs]) *)

Inductive Direction : Type := DirRequest | DirResponse.
Inductive AssertionLevel : Type := LvGlobal | LvEntityDefault | LvBundle | LvRoute.

Definition dir_label (d : Direction) : string :=
  match d with DirRequest => "assertions.request" | DirResponse => "assertions.response" end.

(** ** Sources ([source.rs]) *)

Inductive SourceRejection : Type := Unaddressable | NeverUsable | ClaimRoot.
Record SourceError : Type := mkSourceError { se_kind : SourceRejection; se_path : string }.

(** The refused prefixes; the table's second column is the printed reason. *)
Definition EXCLUDED_SOURCES : list string := ["raw_credentials"; "http.request_headers"; "http.response_headers"].

Inductive SourcePath : Type :=
| SpSubjectId | SpSubjectType | SpSubjectRoles | SpSubjectTeams | SpSubjectPermissions
| SpClaim (name : string)
| SpClientId | SpClientName | SpClientTrustLevel | SpClientRoles | SpClientPermissions | SpClientTeams
| SpClientScopes | SpClientAudiences
| SpClientClaim (name : string)
| SpSecret (name : string).

(** The paths that carry no name. *)
Definition PLAIN_SOURCES : list (string * SourcePath) :=
  [("subject.id", SpSubjectId); ("subject.type", SpSubjectType); ("subject.roles", SpSubjectRoles);
   ("subject.teams", SpSubjectTeams); ("subject.permissions", SpSubjectPermissions);
   ("client.client_id", SpClientId); ("client.client_name", SpClientName);
   ("client.trust_level", SpClientTrustLevel); ("client.roles", SpClientRoles);
   ("client.permissions", SpClientPermissions); ("client.teams", SpClientTeams);
   ("client.authorized_scopes", SpClientScopes); ("client.authorized_audiences", SpClientAudiences)].

Definition excluded_source (path : string) : bool :=
  existsb (fun prefix => String.eqb path prefix || starts_with (prefix +:+ ".") path) EXCLUDED_SOURCES.

Definition claim_root (path : string) : bool :=
  contains_string ["claim"; "claim."; "client.claim"; "client.claim."] path.

Definition plain_source (path : string) : result SourcePath SourceError :=
  match List.find (fun '(text, _) => String.eqb path text) PLAIN_SOURCES with
  | Some (_, source) => Ok source
  | None => Err (mkSourceError Unaddressable path)
  end.

Definition source_parse (path : string) : result SourcePath SourceError :=
  if excluded_source path then Err (mkSourceError NeverUsable path)
  else if claim_root path then Err (mkSourceError ClaimRoot path)
  else match strip_prefix "client.claim." path with
  | Some name => Ok (SpClientClaim name)
  | None =>
      match strip_prefix "claim." path with
      | Some name => Ok (SpClaim name)
      | None =>
          match strip_prefix "secret." path with
          | Some name => if negb (String.eqb name "") then Ok (SpSecret name) else plain_source path
          | None => plain_source path
          end
      end
  end.

Definition authored (s : SourcePath) : string :=
  match s with
  | SpSubjectId => "subject.id"
  | SpSubjectType => "subject.type"
  | SpSubjectRoles => "subject.roles"
  | SpSubjectTeams => "subject.teams"
  | SpSubjectPermissions => "subject.permissions"
  | SpClaim name => "claim." +:+ name
  | SpClientId => "client.client_id"
  | SpClientName => "client.client_name"
  | SpClientTrustLevel => "client.trust_level"
  | SpClientRoles => "client.roles"
  | SpClientPermissions => "client.permissions"
  | SpClientTeams => "client.teams"
  | SpClientScopes => "client.authorized_scopes"
  | SpClientAudiences => "client.authorized_audiences"
  | SpClientClaim name => "client.claim." +:+ name
  | SpSecret name => "secret." +:+ name
  end.

Definition is_collection (s : SourcePath) : bool :=
  match s with
  | SpSubjectRoles | SpSubjectTeams | SpSubjectPermissions | SpClientRoles | SpClientPermissions
  | SpClientTeams | SpClientScopes | SpClientAudiences => true
  | _ => false
  end.

(** [serde_json::to_value] of the two enums, by their [rename_all = "snake_case"]. *)
Definition subject_type_value (t : SubjectType) : json :=
  JString match t with SubUser => "user" | SubAgent => "agent" | SubService => "service" | SubSystem => "system" end.
Definition trust_level_value (t : ClientTrustLevel) : json :=
  JString match t with
          | TrustFirstParty => "first_party" | TrustThirdParty => "third_party" | TrustInternal => "internal"
          | TrustCustom level => level
          end.

Definition sorted_set (values : gset string) : json := JArray (map JString (sorted_elements values)).
Definition sorted_list (values : list string) : json := JArray (map JString (merge_sort string_le values)).

Definition claim (claims : gmap string json) (name : string) : option json :=
  match claims !! name with None | Some JNull => None | Some value => Some value end.

(** The current values of the store, by declared name. *)
Definition SecretStore : Type := gmap string string.

Definition source_resolve {Message} (s : SourcePath) (ext : Extensions Message) (secrets : option SecretStore) :
    option json :=
  match s with
  | SpSecret name => secrets ≫= (fun store => JString <$> store !! name)
  | _ =>
      x_security ext ≫= (fun security =>
      match s with
      | SpSubjectId => sec_subject security ≫= (fun sub => JString <$> sj_id sub)
      | SpSubjectType => sec_subject security ≫= (fun sub => subject_type_value <$> sj_subject_type sub)
      | SpSubjectRoles => (fun sub => sorted_set (sj_roles sub)) <$> sec_subject security
      | SpSubjectTeams => (fun sub => sorted_set (sj_teams sub)) <$> sec_subject security
      | SpSubjectPermissions => (fun sub => sorted_set (sj_permissions sub)) <$> sec_subject security
      | SpClaim name => sec_subject security ≫= (fun sub => claim (sj_claims sub) name)
      | SpClientId => (fun c => JString (cl_client_id c)) <$> sec_client security
      | SpClientName => sec_client security ≫= (fun c => JString <$> cl_client_name c)
      | SpClientTrustLevel => (fun c => trust_level_value (cl_trust_level c)) <$> sec_client security
      | SpClientRoles => (fun c => sorted_list (cl_roles c)) <$> sec_client security
      | SpClientPermissions => (fun c => sorted_list (cl_permissions c)) <$> sec_client security
      | SpClientTeams => (fun c => sorted_list (cl_teams c)) <$> sec_client security
      | SpClientScopes => (fun c => sorted_list (cl_authorized_scopes c)) <$> sec_client security
      | SpClientAudiences => (fun c => sorted_list (cl_authorized_audiences c)) <$> sec_client security
      | SpClientClaim name => sec_client security ≫= (fun c => claim (cl_claims c) name)
      | SpSecret _ => None
      end)
  end.

(** ** The block ([config.rs]) *)

Inductive AuthoredSource : Type :=
| AsFrom (path : string)
| AsMembers (members : gmap string string).   (* a [BTreeMap], read in key order *)

Inductive OnMissing : Type := MissOmit | MissDeny.
Inductive Encoding : Type := EncJson | EncCsv.

Record HeaderEntry : Type := mkEntry {
  he_header : string;
  he_source : AuthoredSource;
  he_on_missing : OnMissing;
  he_encode : option Encoding;
}.

(** The pattern as written; its matcher is compiled from the lower-cased text. *)
Record StripPattern : Type := mkStrip { sp_pattern : string }.

Record DirectionBlock : Type := mkDirBlock {
  db_headers : list HeaderEntry;
  db_strip : list StripPattern;
  db_replace_inherited : bool;
}.

Record AssertionsConfig : Type := mkAssertions {
  as_request : option DirectionBlock;
  as_response : option DirectionBlock;
}.

Definition block_of (d : Direction) (a : AssertionsConfig) : option DirectionBlock :=
  match d with DirRequest => as_request a | DirResponse => as_response a end.

Inductive AssertError : Type :=
| AeShape (place : string)                                  (* a value of the wrong YAML shape *)
| AeUnknownKeys (place message : string)
| AeStripEmpty (label : string)
| AeEntryName (label : string) (index : nat)
| AeFieldName (label : string) (index : nat) (name defect : string)
| AeMemberTwice (label header member : string)
| AeMembersEmpty (label header : string)
| AeBothSources (label header : string)
| AeNoSource (label header : string)
| AeOnMissing (label header : string)
| AeEncode (label header : string)
| AeTargetTwice (level label header : string)
| AeFloorTarget (level label header floor : string)
| AeSource (level label header : string) (member : option string) (cause : SourceError)
| AeSecretResponse (level label header : string) (member : option string) (name : string)
| AeSecretUndeclared (level label header : string) (member : option string) (name : string)
| AeNoEncoding (level label header path : string)
| AeMembersEncode (level label header : string)
| AeFloorStrip (level label pattern floor : string).

(** *** Parsing *)

Definition is_token_byte (byte : ascii) : bool :=
  is_ascii_alphanumeric byte || contains_char byte "!#$%&'*+-.^_`|~".

Definition field_name_defect (name : string) : option string :=
  if String.eqb name "" then Some "is empty"
  else if negb (string_forall is_token_byte name) then Some "is not an HTTP field name"
  else None.

Fixpoint parse_members (label name : string) (m : list (yaml * yaml)) (parsed : gmap string string) :
    result (gmap string string) AssertError :=
  match m with
  | [] => Ok parsed
  | (key, value) :: rest =>
      match yaml_as_str key with
      | None => Err (AeShape (label +:+ " header " +:+ name +:+ ": members key"))
      | Some key =>
          match yaml_as_str value with
          | None => Err (AeShape (label +:+ " header " +:+ name +:+ ": member " +:+ key))
          | Some path =>
              match parsed !! key with
              | Some _ => Err (AeMemberTwice label name key)
              | None => parse_members label name rest (<[key := path]> parsed)
              end
          end
      end
  end.

Definition parse_source (label name : string) (m : list (yaml * yaml)) : result AuthoredSource AssertError :=
  match mapping_get "from" m, mapping_get "members" m with
  | Some from, None =>
      match yaml_as_str from with
      | Some path => Ok (AsFrom path)
      | None => Err (AeShape (label +:+ " header " +:+ name +:+ ": from"))
      end
  | None, Some members =>
      match as_mapping members with
      | None => Err (AeShape (label +:+ " header " +:+ name +:+ ": members"))
      | Some entries =>
          let? parsed := parse_members label name entries ∅ in
          if bool_decide (parsed = ∅) then Err (AeMembersEmpty label name) else Ok (AsMembers parsed)
      end
  | Some _, Some _ => Err (AeBothSources label name)
  | None, None => Err (AeNoSource label name)
  end.

Definition parse_on_missing (label name : string) (v : option yaml) : result OnMissing AssertError :=
  match v with
  | None | Some YNull => Ok MissOmit
  | Some value =>
      match yaml_as_str value with
      | Some s => if String.eqb s "omit" then Ok MissOmit else if String.eqb s "deny" then Ok MissDeny
                  else Err (AeOnMissing label name)
      | None => Err (AeOnMissing label name)
      end
  end.

Definition parse_encode (label name : string) (v : option yaml) : result (option Encoding) AssertError :=
  match v with
  | None | Some YNull => Ok None
  | Some value =>
      match yaml_as_str value with
      | Some s => if String.eqb s "json" then Ok (Some EncJson) else if String.eqb s "csv" then Ok (Some EncCsv)
                  else Err (AeEncode label name)
      | None => Err (AeEncode label name)
      end
  end.

Definition parse_entry (raw : yaml) (index : nat) (label : string) : result HeaderEntry AssertError :=
  let place := label +:+ ".headers[" +:+ show_nat index +:+ "]" in
  match as_mapping raw with
  | None => Err (AeShape place)
  | Some m =>
      let unknown := unknown_keys_in ScAssertionHeader m [] in
      if negb (is_nil unknown) then Err (AeUnknownKeys place (unknown_keys_message ScAssertionHeader unknown))
      else match mapping_get "name" m ≫= yaml_as_str with
      | None => Err (AeEntryName label index)
      | Some name =>
          match field_name_defect name with
          | Some defect => Err (AeFieldName label index name defect)
          | None =>
              let? source := parse_source label name m in
              let? on_missing := parse_on_missing label name (mapping_get "on_missing" m) in
              let? encode := parse_encode label name (mapping_get "encode" m) in
              Ok (mkEntry name source on_missing encode)
          end
      end
  end.

Fixpoint parse_entries (label : string) (i : nat) (items : list yaml) : result (list HeaderEntry) AssertError :=
  match items with
  | [] => Ok []
  | item :: rest =>
      let? entry := parse_entry item i label in
      let? entries := parse_entries label (S i) rest in
      Ok (entry :: entries)
  end.

Definition parse_strip (label : string) (item : yaml) : result StripPattern AssertError :=
  match yaml_as_str item with
  | None => Err (AeShape (label +:+ ".strip entries"))
  | Some pattern => if String.eqb pattern "" then Err (AeStripEmpty label) else Ok (mkStrip pattern)
  end.

Definition parse_direction (raw : yaml) (d : Direction) : result DirectionBlock AssertError :=
  let label := dir_label d in
  match as_mapping raw with
  | None => Err (AeShape label)
  | Some m =>
      let unknown := unknown_keys_in ScAssertionsDirection m [] in
      if negb (is_nil unknown) then Err (AeUnknownKeys label (unknown_keys_message ScAssertionsDirection unknown))
      else
        let? replace_inherited :=
          match mapping_get "replace_inherited" m with
          | None | Some YNull => Ok false
          | Some value => match as_bool value with Some b => Ok b | None => Err (AeShape (label +:+ ".replace_inherited")) end
          end in
        let? headers :=
          match mapping_get "headers" m with
          | None | Some YNull => Ok []
          | Some value => match as_sequence value with
                          | Some items => parse_entries label 0 items
                          | None => Err (AeShape (label +:+ ".headers"))
                          end
          end in
        let? strip :=
          match mapping_get "strip" m with
          | None | Some YNull => Ok []
          | Some value => match as_sequence value with
                          | Some items => collect (parse_strip label) items
                          | None => Err (AeShape (label +:+ ".strip"))
                          end
          end in
        Ok (mkDirBlock headers strip replace_inherited)
  end.

Definition direction_key (d : Direction) : string := match d with DirRequest => "request" | DirResponse => "response" end.

Definition parse_optional_direction (m : list (yaml * yaml)) (d : Direction) :
    result (option DirectionBlock) AssertError :=
  match mapping_get (direction_key d) m with
  | None => Ok None
  | Some value => if is_null value then Ok None else let? block := parse_direction value d in Ok (Some block)
  end.

Definition parse_assertions (raw : yaml) : result AssertionsConfig AssertError :=
  match as_mapping raw with
  | None => Err (AeShape "assertions")
  | Some m =>
      let unknown := unknown_keys_in ScAssertions m [] in
      if negb (is_nil unknown) then Err (AeUnknownKeys "assertions" (unknown_keys_message ScAssertions unknown))
      else
        let? request := parse_optional_direction m DirRequest in
        let? response := parse_optional_direction m DirResponse in
        Ok (mkAssertions request response)
  end.

(** ** The floors ([floor.rs]): the names, in table order *)

Definition REQUEST_FLOOR : list string := ["host"; "content-type"; "content-length"; "transfer-encoding"].
Definition RESPONSE_FLOOR : list string :=
  ["content-type"; "content-length"; "content-encoding"; "transfer-encoding"; "cache-control"; "etag";
   "last-modified"; "expires"; "vary"; "retry-after"; "access-control-allow-origin";
   "access-control-allow-credentials"; "access-control-allow-methods"; "access-control-allow-headers";
   "access-control-expose-headers"; "access-control-max-age"].

Definition floor_for (d : Direction) : list string :=
  match d with DirRequest => REQUEST_FLOOR | DirResponse => RESPONSE_FLOOR end.

Section Contract.
Context `{Platform, WildMatch}.

Definition is_floor (d : Direction) (name : string) : bool := contains_string (floor_for d) (str_to_lowercase name).

Definition glob_would_match_floor (d : Direction) (pattern : string) : option string :=
  List.find (pattern_matches (str_to_lowercase pattern)) (floor_for d).

Definition strip_matches_lowercase (p : StripPattern) (lowercase_name : string) : bool :=
  pattern_matches (str_to_lowercase (sp_pattern p)) lowercase_name.

(** *** Checking a block ([config.rs]). [declared] says whether [secrets.values] has a name. *)

Variable declared : string -> bool.

Definition validate_source (parsed : SourcePath) (d : Direction) (level header : string) (member : option string) :
    result unit AssertError :=
  match parsed with
  | SpSecret name =>
      match d with
      | DirResponse => Err (AeSecretResponse level (dir_label d) header member name)
      | DirRequest => if declared name then Ok tt else Err (AeSecretUndeclared level (dir_label d) header member name)
      end
  | _ => Ok tt
  end.

Definition validate_path (d : Direction) (level header : string) (member : option string) (path : string) :
    result SourcePath AssertError :=
  let? parsed := result_map_err (AeSource level (dir_label d) header member) (source_parse path) in
  let? _ := validate_source parsed d level header member in
  Ok parsed.

Definition validate_entry_source (d : Direction) (level : string) (entry : HeaderEntry) : result unit AssertError :=
  match he_source entry with
  | AsFrom path =>
      let? parsed := validate_path d level (he_header entry) None path in
      if is_collection parsed && is_none (he_encode entry)
      then Err (AeNoEncoding level (dir_label d) (he_header entry) path) else Ok tt
  | AsMembers members =>
      if negb (is_none (he_encode entry)) then Err (AeMembersEncode level (dir_label d) (he_header entry))
      else try_each (fun '(member, path) =>
             let? _ := validate_path d level (he_header entry) (Some member) path in Ok tt) (sorted_entries members)
  end.

(** The loop over [headers], with the lower-case names targeted so far. *)
Fixpoint validate_headers (d : Direction) (level : string) (targeted : list string) (headers : list HeaderEntry) :
    result unit AssertError :=
  match headers with
  | [] => Ok tt
  | entry :: rest =>
      let lower := str_to_lowercase (he_header entry) in
      if contains_string targeted lower then Err (AeTargetTwice level (dir_label d) (he_header entry))
      else match List.find (String.eqb lower) (floor_for d) with
      | Some floor => Err (AeFloorTarget level (dir_label d) (he_header entry) floor)
      | None =>
          let? _ := validate_entry_source d level entry in
          validate_headers d level (targeted ++ [lower]) rest
      end
  end.

Definition validate_block (block : DirectionBlock) (d : Direction) (level : string) : result unit AssertError :=
  let? _ := validate_headers d level [] (db_headers block) in
  try_each (fun p =>
    match glob_would_match_floor d (sp_pattern p) with
    | Some floor => Err (AeFloorStrip level (dir_label d) (sp_pattern p) floor)
    | None => Ok tt
    end) (db_strip block).

Definition assertions_validate (a : AssertionsConfig) (level : string) : result unit AssertError :=
  try_each (fun d => match block_of d a with Some block => validate_block block d level | None => Ok tt end)
           [DirRequest; DirResponse].
End Contract.

(** ** The accumulated contract ([resolved.rs]) *)

Inductive ResolvedSource : Type :=
| RsFrom (path : SourcePath)
| RsMembers (members : list (string * SourcePath))
| RsUnresolvable.

Record ResolvedHeader : Type := mkResolved {
  rh_name : string;
  rh_lowercase : string;
  rh_source : ResolvedSource;
  rh_on_missing : OnMissing;
  rh_encode : option Encoding;
  rh_declared_in : string;
  rh_level : AssertionLevel;
  rh_overrode : option string;
}.

Record ResolvedContract : Type := mkContract {
  rc_headers : list ResolvedHeader;
  rc_strip : list StripPattern;
}.

Definition secret_of (p : SourcePath) : option string := match p with SpSecret name => Some name | _ => None end.

Definition secrets_read (s : ResolvedSource) : list string :=
  merge_sort string_le
    match s with
    | RsFrom path => option_list (secret_of path)
    | RsUnresolvable => []
    | RsMembers members => omap (fun '(_, path) => secret_of path) members
    end.

Definition contract_is_empty (c : ResolvedContract) : bool := is_nil (rc_headers c) && is_nil (rc_strip c).

Definition removes `{Platform, WildMatch} (c : ResolvedContract) (name : string) : bool :=
  let lower := str_to_lowercase name in
  existsb (fun header => String.eqb (rh_lowercase header) lower) (rc_headers c)
  || existsb (fun pattern => strip_matches_lowercase pattern lower) (rc_strip c).

Definition redaction (header : ResolvedHeader) : option (string * string) :=
  match secrets_read (rh_source header) with
  | [] => None
  | names => Some (rh_name header,
                   "<redacted " +:+ String.concat ", " (map (fun name => "secret." +:+ name) names) +:+ ">")
  end.

Definition redactions (c : ResolvedContract) : list (string * string) := omap redaction (rc_headers c).

(** ** Rendering ([render.rs]) *)

Record MissingSource : Type := mkMissing { ms_header : string; ms_source : string }.

Inductive Rendered : Type := RValue (value : string) | RSkip | RMissing (source : string).

Definition wire_defect (value : string) : option string :=
  if contains_char "013" value || contains_char "010" value
  then Some "carries a carriage return or line feed"
  else if contains_char "000" value then Some "carries a NUL byte" else None.

Definition emit (value : string) : Rendered := match wire_defect value with Some _ => RSkip | None => RValue value end.

(** [serde_json::to_string] of a [Value] does not fail. *)
Definition scalar_text `{Platform} (value : json) : string :=
  match value with
  | JString text => text
  | JNumber _ => json_to_string value
  | JBool flag => show_bool flag
  | JNull => ""
  | structured => json_to_string structured
  end.

Definition encode `{Platform} (value : json) (encoding : option Encoding) : string :=
  match encoding with
  | None => scalar_text value
  | Some EncJson => json_to_string value
  | Some EncCsv =>
      match value with
      | JArray items => String.concat "," (map scalar_text items)
      | other => scalar_text other
      end
  end.

Section Render.
Context `{Platform, WildMatch} {Message : Type}.
Variable ext : Extensions Message.
Variable secrets : option SecretStore.

Definition resolve_members (members : list (string * SourcePath)) : list (string * json) :=
  omap (fun '(member, path) => (fun v => (member, v)) <$> source_resolve path ext secrets) members.

(** The members come from a [BTreeMap], so [sort_by_key] sorts distinct names. *)
Definition render_one (header : ResolvedHeader) : Rendered :=
  match rh_source header with
  | RsFrom path =>
      match source_resolve path ext secrets with
      | Some value => emit (encode value (rh_encode header))
      | None => RMissing (authored path)
      end
  | RsMembers members =>
      let object := fold_left (fun o '(member, value) => map_insert member value o)
                      (merge_sort key_le (resolve_members members)) [] in
      if is_nil object then RMissing (String.concat ", " (map (fun '(_, p) => authored p) members))
      else emit (json_to_string (JObject object))
  | RsUnresolvable => RSkip
  end.

Fixpoint render_headers (headers : list ResolvedHeader) : result (list (string * string)) MissingSource :=
  match headers with
  | [] => Ok []
  | header :: rest =>
      match render_one header with
      | RValue value => let? rendered := render_headers rest in Ok ((rh_name header, value) :: rendered)
      | RSkip => render_headers rest
      | RMissing source =>
          match rh_on_missing header with
          | MissDeny => Err (mkMissing (rh_name header) source)
          | MissOmit => render_headers rest
          end
      end
  end.

Definition render (c : ResolvedContract) : result (list (string * string)) MissingSource := render_headers (rc_headers c).
End Render.

(** ** Applying a contract ([apply.rs]) *)

Section Apply.
Context `{Platform, WildMatch}.

(** [map.retain(|name, _| !contract.removes(name))]. *)
Definition retain (c : ResolvedContract) (m : gmap string string) : gmap string string :=
  filter (fun kv => removes c kv.1 = false) m.

Definition insert_all (l : list (string * string)) (m : gmap string string) : gmap string string :=
  fold_left (fun m '(name, value) => <[name := value]> m) l m.

(** The markers of the secret headers that were rendered. *)
Definition mark_secrets (c : ResolvedContract) (rendered : list (string * string)) (markers : gmap string string) :
    gmap string string :=
  fold_left (fun m '(name, marker) =>
    if existsb (fun '(rendered_name, _) => eq_ignore_ascii_case rendered_name name) rendered
    then <[to_ascii_lowercase name := marker]> m else m) (redactions c) markers.

Definition apply_http (c : ResolvedContract) (rendered : list (string * string)) (current : HttpExtension)
    (d : Direction) : HttpExtension :=
  match d with
  | DirRequest =>
      mkHttp (insert_all rendered (retain c (ht_request_headers current))) (ht_client_address current)
        (mark_secrets c rendered (retain c (ht_secret_headers current)))
        (ht_response_headers current) (ht_status current) (ht_method current) (ht_path current) (ht_query current)
        (ht_host current) (ht_scheme current)
  | DirResponse =>
      mkHttp (ht_request_headers current) (ht_client_address current) (ht_secret_headers current)
        (insert_all rendered (retain c (ht_response_headers current)))
        (ht_status current) (ht_method current) (ht_path current) (ht_query current) (ht_host current)
        (ht_scheme current)
  end.

Definition set_http {Message} (ext : Extensions Message) (http : option HttpExtension) : Extensions Message :=
  mkExtensions (x_request ext) (x_agent ext) http (x_security ext) (x_candidate_constraint ext)
    (x_delegation ext) (x_raw_credentials ext) (x_mcp ext) (x_completion ext) (x_provenance ext) (x_llm ext)
    (x_llm_request ext) (x_framework ext) (x_meta ext) (x_metadata ext) (x_custom ext) (x_http_write_token ext)
    (x_labels_write_token ext) (x_delegation_write_token ext) (x_http_transport ext) (x_effect_log ext).

Definition apply_contract {Message} (c : ResolvedContract) (rendered : list (string * string))
    (ext : Extensions Message) (d : Direction) : Extensions Message :=
  match x_http ext with
  | None => ext
  | Some current =>
      if contract_is_empty c && is_nil rendered then ext
      else set_http ext (Some (apply_http c rendered current d))
  end.
End Apply.
