(* ===== verification/Config.v ===== *)
(** * Configuration and route selection ([ppe-core/src/config.rs], [ppe-core/src/engine.rs])

    The declarations of the [plugins:] list ([plugin.rs]), the configuration a document loads into, the selectors of its routes, and the choice of
    the route a request runs under. A [HashMap] is a [gmap] read through [HashOrder], the
    unspecified order of its iteration; a [usize] is a [Z] with its saturating operations. *)

From Stdlib Require Import Ascii String.
From S2P Require Import Prelude RustStr F64 Json Platform Constraint Step ExtData Plugin Extensions Stages StepParser.
From S2P Require Import HttpPath ConfigKeys Hooks Assertions.

(** ** Plugin declarations and their conditions ([ppe-core/src/plugin.rs])

    A declaration of the [plugins:] list, and the conditions that decide under
    [dispatch: hooks] whether a plugin runs for a request. *)

Record PluginCondition : Type := mkCondition {
  cd_server_ids : option (gset string);
  cd_tenant_ids : option (gset string);
  cd_tools : option (gset string);
  cd_prompts : option (gset string);
  cd_resources : option (gset string);
  cd_agents : option (gset string);
  cd_user_patterns : option (list string);
  cd_content_types : option (list string);
}.

Record PluginConfig : Type := mkPluginConfig {
  pg_name : string;
  pg_kind : string;
  pg_description : option string;
  pg_author : option string;
  pg_version : option string;
  pg_hooks : list string;
  pg_mode : PluginMode;
  pg_priority : Z;
  pg_on_error : OnError;
  pg_capabilities : gset string;
  pg_tags : list string;
  pg_conditions : list PluginCondition;
  pg_config : option json;
}.

Record MatchContext : Type := mkMatchContext {
  mc_server_id : option string;
  mc_tenant_id : option string;
  mc_tool : option string;
  mc_prompt : option string;
  mc_resource : option string;
  mc_agent : option string;
  mc_user : option string;
  mc_content_type : option string;
}.

(** The three closures share their shape: an absent field matches anything, a present one
    needs a value that passes. *)
Definition check_field {F} (test : F -> string -> bool) (field : option F) (value : option string) : bool :=
  match field with
  | None => true
  | Some f => match value with Some v => test f v | None => false end
  end.

Definition check_set : option (gset string) -> option string -> bool :=
  check_field (fun set v => bool_decide (v ∈ set)).
Definition check_patterns `{WildMatch} : option (list string) -> option string -> bool :=
  check_field (fun patterns v => existsb (fun p => wildmatch p v) patterns).
Definition check_list : option (list string) -> option string -> bool :=
  check_field (fun l v => existsb (fun s => String.eqb s v) l).

Definition condition_matches `{WildMatch} (c : PluginCondition) (ctx : MatchContext) : bool :=
  check_set (cd_server_ids c) (mc_server_id ctx)
  && check_set (cd_tenant_ids c) (mc_tenant_id ctx)
  && check_set (cd_tools c) (mc_tool ctx)
  && check_set (cd_prompts c) (mc_prompt ctx)
  && check_set (cd_resources c) (mc_resource ctx)
  && check_set (cd_agents c) (mc_agent ctx)
  && check_patterns (cd_user_patterns c) (mc_user ctx)
  && check_list (cd_content_types c) (mc_content_type ctx).

(** [Option::or_else]. *)
Definition or_opt {A} (a b : option A) : option A := match a with Some _ => a | None => b end.

(** [SubjectExtension::claim_str] of [extensions/security.rs]. *)
Definition claim_str `{Platform} (sub : SubjectExtension) (name : string) : option string :=
  match sj_claims sub !! name with
  | Some (JString s) => Some s
  | Some (JNumber n) => Some (json_to_string (JNumber n))
  | Some (JBool b) => Some (show_bool b)
  | _ => None
  end.

Definition mcp_server_id (m : MCPExtension) : option string :=
  or_opt (match mcp_tool m with Some t => tm_server_id t | None => None end)
    (or_opt (match mcp_resource m with Some r => rm_server_id r | None => None end)
            (match mcp_prompt m with Some p => pm_server_id p | None => None end)).

Definition match_context `{Platform} {Message} (x : Extensions Message) : MatchContext :=
  let subject := match x_security x with Some s => sec_subject s | None => None end in
  let entity (t : string) : option string :=
    match x_meta x with
    | Some meta =>
        match mt_entity_type (arc_val meta) with
        | Some e => if String.eqb e t then mt_entity_name (arc_val meta) else None
        | None => None
        end
    | None => None
    end in
  mkMatchContext
    (match x_mcp x with Some m => mcp_server_id (arc_val m) | None => None end)
    (match subject with Some sub => claim_str sub "tenant" | None => None end)
    (entity "tool") (entity "prompt") (entity "resource")
    (match x_agent x with Some a => ag_agent_id Message (arc_val a) | None => None end)
    (match subject with Some sub => sj_id sub | None => None end)
    (match x_mcp x with
     | Some m => match mcp_resource (arc_val m) with Some r => rm_mime_type r | None => None end
     | None => None
     end).

Definition passes_conditions `{Platform, WildMatch} {Message} (p : PluginConfig) (x : Extensions Message) : bool :=
  if is_nil (pg_conditions p) then true
  else existsb (fun c => condition_matches c (match_context x)) (pg_conditions p).

(** The order a [HashMap] iterates in. *)
Class HashOrder := {
  hash_iter : forall V, gmap string V -> list (string * V);
  hash_iter_perm : forall V (m : gmap string V), hash_iter V m ≡ₚ map_to_list m;
}.
Arguments hash_iter {_ V} m.

(** One such order. *)
Definition map_order : HashOrder := {|
  hash_iter := fun V m => map_to_list m;
  hash_iter_perm := fun V m => Permutation_refl _;
|}.

(** ** The configuration *)

(** [RouteIdentityStep], [RouteIdentityConfig] of [identity/route_config.rs]; a
    [rate_limits:] block has the same types. *)
Record RouteIdentityStep : Type := mkStep { rs_name : string; rs_config_override : option json }.
Record RouteIdentityConfig : Type := mkIdentityConfig {
  ri_steps : list RouteIdentityStep;
  ri_replace_inherited : bool;
}.

Inductive StringOrList : Type :=
| SSingle (p : Pattern)
| SList (names : list string).

Record HttpMatch : Type := mkHttpMatch {
  hx_path : option string;
  hx_path_prefix : option string;
  hx_method : option StringOrList;
}.

Inductive HttpSelector : Type :=
| HsPath (path : string)
| HsPaths (paths : list string)
| HsMatch (m : HttpMatch).

Record RouteMeta : Type := mkRouteMeta {
  rm_tags : list string;
  rm_scope : option string;
  rm_properties : gmap string string;
}.

Inductive PluginRouteRef : Type :=
| RefName (name : string)
| RefOverrides (name : string) (overrides : json).   (* the first key of the override map *)

Definition ref_name (r : PluginRouteRef) : string := match r with RefName n => n | RefOverrides n _ => n end.

Record PolicyGroup : Type := mkGroup {
  gr_description : option string;
  gr_metadata : gmap string string;
  gr_plugins : list PluginRouteRef;
  gr_authentication : option RouteIdentityConfig;
  gr_rate_limits : option RouteIdentityConfig;
  gr_assertions : option AssertionsConfig;
}.

Record GlobalConfig : Type := mkGlobal {
  gl_bundles : gmap string PolicyGroup;
  gl_defaults : gmap string PolicyGroup;
  gl_authentication : option RouteIdentityConfig;
  gl_rate_limits : option RouteIdentityConfig;
  gl_assertions : option AssertionsConfig;
}.

Record RouteEntry : Type := mkRouteEntry {
  rt_tool : option StringOrList;
  rt_resource : option StringOrList;
  rt_prompt : option StringOrList;
  rt_llm : option StringOrList;
  rt_http : option HttpSelector;
  rt_meta : option RouteMeta;
  rt_groups : option StringOrList;
  rt_plugins : list PluginRouteRef;
  rt_authentication : option RouteIdentityConfig;
  rt_rate_limits : option RouteIdentityConfig;
  rt_assertions : option AssertionsConfig;
}.

(** [secrets/config.rs]: a provider's settings are not read here. *)
Record SecretValueConfig : Type := mkSecretValue { sv_provider : string; sv_reference : string }.
Record SecretsConfig : Type := mkSecrets {
  sc_providers : gmap string string;               (* the kind of each provider *)
  sc_values : gmap string SecretValueConfig;
}.

(** The settings route selection and validation read. *)
Record EngineSettings : Type := mkSettings {
  es_dispatch : DispatchMode;
  es_capture_content_provenance : bool;
  es_content_provenance_key : option string;
  es_audit_stream_namespace : option string;
}.

Record PolicyConfig : Type := mkPolicyConfig {
  cf_global : GlobalConfig;
  cf_plugins : list PluginConfig;
  cf_groups : gmap string PolicyGroup;
  cf_routes : list RouteEntry;
  cf_secrets : SecretsConfig;
  cf_engine_settings : EngineSettings;
}.

Definition fold_groups_into_bundles (c : PolicyConfig) : PolicyConfig :=
  if bool_decide (cf_groups c = ∅) then c
  else
    let g := cf_global c in
    mkPolicyConfig (mkGlobal (cf_groups c ∪ gl_bundles g) (gl_defaults g) (gl_authentication g) (gl_rate_limits g)
                             (gl_assertions g))
      (cf_plugins c) ∅ (cf_routes c) (cf_secrets c) (cf_engine_settings c).

(** ** Selectors *)

Definition selector_matches `{WildMatch} (s : StringOrList) (name : string) : bool :=
  match s with
  | SSingle pattern => pattern_matches pattern name
  | SList names => existsb (fun n => String.eqb n name) names
  end.

Definition as_names (s : StringOrList) : list string := match s with SSingle p => [p] | SList names => names end.

Definition exact_paths (h : HttpSelector) : list string :=
  match h with HsPath path => [path] | HsPaths paths => paths | HsMatch m => option_list (hx_path m) end.
Definition path_prefix (h : HttpSelector) : option string := match h with HsMatch m => hx_path_prefix m | _ => None end.
Definition http_method (h : HttpSelector) : option StringOrList := match h with HsMatch m => hx_method m | _ => None end.

(** [str::strip_suffix] of one character. *)
Fixpoint strip_last (c : ascii) (s : string) : option string :=
  match s with
  | EmptyString => None
  | String a EmptyString => if Ascii.eqb a c then Some EmptyString else None
  | String a s' => String a <$> strip_last c s'
  end.

Definition trim_declared_slash (path : string) : string :=
  match strip_last "/" path with
  | Some trimmed => if negb (String.eqb trimmed "") then trimmed else path
  | None => path
  end.

Definition starts_slash (path : string) : bool := starts_with "/" path.

Definition non_absolute_path_defect (key path : string) : option string :=
  if negb (starts_slash path) then Some ("declares `" +:+ key +:+ ":` as '" +:+ path +:+ "', which is not an absolute path")
  else None.

Definition is_http_method_token (value : string) : bool :=
  negb (String.eqb value "")
  && string_forall (fun b => is_ascii_alphanumeric b || contains_char b "!#$%&'+-.^_`|~") value.

(** [find_map]. *)
Fixpoint find_map {A B} (f : A -> option B) (l : list A) : option B :=
  match l with [] => None | x :: l' => match f x with Some y => Some y | None => find_map f l' end end.

Definition method_defect (method : option StringOrList) : option string :=
  match method with
  | None => None
  | Some m =>
      if match m with SList [] => true | _ => false end then Some "declares an empty `http.method:` list"
      else if existsb (fun name => String.eqb name "") (as_names m) then Some "declares an empty method under `http.method:`"
      else match List.find (fun name => negb (is_http_method_token name)) (as_names m) with
      | Some bad => Some ("declares `http.method:` as '" +:+ bad +:+ "', which is not an HTTP method token")
      | None => None
      end
  end.

Definition defect (h : HttpSelector) : option string :=
  match h with
  | HsPath path =>
      if String.eqb path "" then Some "declares an empty `http:` path" else non_absolute_path_defect "http" path
  | HsPaths paths =>
      if is_nil paths then Some "declares an empty `http:` list"
      else if existsb (fun p => String.eqb p "") paths then Some "declares an empty path in its `http:` list"
      else find_map (non_absolute_path_defect "http") paths
  | HsMatch m =>
      match method_defect (hx_method m) with
      | Some d => Some d
      | None =>
          match hx_path m, hx_path_prefix m with
          | Some _, Some _ => Some "declares both `path:` and `path_prefix:` under `http:`"
          | None, None => Some "declares neither `path:` nor `path_prefix:` under `http:`"
          | Some path, None =>
              if String.eqb path "" then Some "declares an empty `http.path:`"
              else non_absolute_path_defect "http.path" path
          | None, Some prefix =>
              if String.eqb prefix "" then Some "declares an empty `http.path_prefix:`"
              else non_absolute_path_defect "http.path_prefix" prefix
          end
      end
  end.

(** ** Scores *)

Definition saturating_add (a b : Z) : Z := Z.min (a + b) usize_max.
Definition saturating_mul (a b : Z) : Z := Z.min (a * b) usize_max.
Definition saturating_sub (a b : Z) : Z := Z.max (a - b) 0.

Definition SPECIFICITY_EXACT_NAME : Z := 1000.
Definition SPECIFICITY_NAME_LIST : Z := 500.
Definition SPECIFICITY_GLOB : Z := 300.
Definition SPECIFICITY_WILDCARD : Z := 0.
Definition SPECIFICITY_EXACT_PATH : Z := usize_max `div` 2.
Definition SPECIFICITY_PATH_PREFIX_STEP : Z := 1000.
Definition SPECIFICITY_METHOD_NARROWED : Z := 50.
Definition SPECIFICITY_SCOPE_MATCH : Z := 100.

Definition score_entity_match `{WildMatch} (matcher : option StringOrList) (entity_name : string) : option Z :=
  match matcher with
  | None => None
  | Some m =>
      if negb (selector_matches m entity_name) then None
      else Some match m with
                | SSingle p => if String.eqb p "*" then SPECIFICITY_WILDCARD
                               else if contains_char "*" p then SPECIFICITY_GLOB
                               else SPECIFICITY_EXACT_NAME
                | SList _ => SPECIFICITY_NAME_LIST
                end
  end.

Definition without_trailing_slash (path : string) : string := default path (strip_last "/" path).

(** [path.as_bytes().get(n)]. *)
Definition byte_at (n : nat) (s : string) : option ascii := String.get n s.

Definition path_prefix_matches (path prefix : string) : bool :=
  if negb (starts_slash path) then false
  else
    let trimmed := without_trailing_slash prefix in
    if String.eqb trimmed "" || String.eqb path trimmed then true
    else starts_with trimmed path
         && match byte_at (String.length trimmed) path with Some b => Ascii.eqb b "/" | None => false end.

Definition exact_path_matches (path declared : string) : bool := String.eqb path declared.

Definition str_len (s : string) : Z := Z.of_nat (String.length s).

Definition path_prefix_specificity (prefix : string) : Z :=
  let trimmed := without_trailing_slash prefix in
  if String.eqb trimmed "" then 1 else str_len trimmed.

Definition http_method_matches (accepted : option StringOrList) (method : option string) : bool :=
  match accepted with
  | None => true
  | Some a => match method with
              | None => false
              | Some m => existsb (fun name => eq_ignore_ascii_case name m) (as_names a)
              end
  end.

Definition ascii_upper (a : ascii) : ascii :=
  if is_ascii_lower a then ascii_of_N (N_of_ascii a - 32)%N else a.

Fixpoint to_ascii_uppercase (s : string) : string :=
  match s with EmptyString => EmptyString | String a s' => String (ascii_upper a) (to_ascii_uppercase s') end.

(** [Vec::dedup]: consecutive repeats. *)
Fixpoint dedup (l : list string) : list string :=
  match l with
  | x :: ((y :: _) as l') => if String.eqb x y then dedup l' else x :: dedup l'
  | _ => l
  end.

Definition normalized_methods (method : option StringOrList) : option (list string) :=
  match method with
  | None => None
  | Some m => Some (dedup (merge_sort string_le (map to_ascii_uppercase (as_names m))))
  end.

Definition rendered_methods (method : option StringOrList) : option string :=
  String.concat "," <$> normalized_methods method.

Definition method_narrowing_bonus (method : option StringOrList) : Z :=
  match normalized_methods method with
  | None => 0
  | Some methods =>
      saturating_sub SPECIFICITY_METHOD_NARROWED (saturating_sub (Z.of_nat (length methods)) 1) `max` 1
  end.

Definition matched_exact_path (selector : HttpSelector) (path : string) : option string :=
  List.find (exact_path_matches path) (exact_paths selector).

Definition score_http_match (selector : HttpSelector) (path : string) (method : option string) : option Z :=
  if negb (starts_slash path) || negb (http_method_matches (http_method selector) method) then None
  else
    let path_score :=
      match path_prefix selector with
      | Some prefix =>
          if path_prefix_matches path prefix
          then Some (saturating_mul (path_prefix_specificity prefix) SPECIFICITY_PATH_PREFIX_STEP) else None
      | None => match matched_exact_path selector path with Some _ => Some SPECIFICITY_EXACT_PATH | None => None end
      end in
    (fun s => saturating_add s (method_narrowing_bonus (http_method selector))) <$> path_score.

(** ** Names *)

Definition rendered_prefix_name (prefix : string) (methods : option string) : string :=
  match methods with Some ms => ms +:+ " prefix:" +:+ prefix | None => "prefix:" +:+ prefix end.

Definition rendered_exact_name (declared : string) (methods : option string) : string :=
  match methods with Some ms => ms +:+ " path:" +:+ declared | None => declared end.

Definition selector_names (s : StringOrList) : list string := as_names s.

Definition http_selector_names (selector : HttpSelector) : list string :=
  let methods := rendered_methods (http_method selector) in
  match path_prefix selector with
  | Some prefix => [rendered_prefix_name prefix methods]
  | None => map (fun declared => rendered_exact_name declared methods) (exact_paths selector)
  end.

Definition route_entity_identity (route : RouteEntry) : option (string * list string) :=
  match rt_tool route with
  | Some tool => Some (ENTITY_TOOL, selector_names tool)
  | None =>
  match rt_resource route with
  | Some resource => Some (ENTITY_RESOURCE, selector_names resource)
  | None =>
  match rt_prompt route with
  | Some prompt => Some (ENTITY_PROMPT, selector_names prompt)
  | None =>
  match rt_llm route with
  | Some llm => Some (ENTITY_LLM, selector_names llm)
  | None =>
  match rt_http route with
  | Some http => Some (ENTITY_HTTP, http_selector_names http)
  | None => None
  end end end end end.

Definition matched_selector_name (selector : StringOrList) (entity_name : string) : option string :=
  match selector with
  | SList names => List.find (fun name => String.eqb name entity_name) names
  | SSingle _ => head (selector_names selector)
  end.

Definition matched_http_name (selector : HttpSelector) (path : string) : option string :=
  let methods := rendered_methods (http_method selector) in
  match path_prefix selector with
  | Some prefix => Some (rendered_prefix_name prefix methods)
  | None => (fun declared => rendered_exact_name declared methods) <$> matched_exact_path selector path
  end.

(** ** Resolution *)

Record RouteQuery : Type := mkQuery {
  q_entity_type : string;
  q_name : string;
  q_path : string;
  q_method : option string;
  q_scope : option string;
}.

Definition query_named (entity_type name : string) : RouteQuery := mkQuery entity_type name "" None None.
Definition query_http (path : string) (method : option string) : RouteQuery := mkQuery ENTITY_HTTP "" path method None.
Definition with_scope (q : RouteQuery) (scope : option string) : RouteQuery :=
  mkQuery (q_entity_type q) (q_name q) (q_path q) (q_method q) scope.

(** The winning route; its position stands for the reference into [routes]. *)
Record MatchedRoute : Type := mkMatched { mr_index : nat; mr_route : RouteEntry; mr_name : string }.

Definition matcher_for (route : RouteEntry) (entity_type : string) : option StringOrList :=
  if String.eqb entity_type ENTITY_TOOL then rt_tool route
  else if String.eqb entity_type ENTITY_RESOURCE then rt_resource route
  else if String.eqb entity_type ENTITY_PROMPT then rt_prompt route
  else if String.eqb entity_type ENTITY_LLM then rt_llm route
  else None.

Section Resolve.
Context `{WildMatch}.

Definition score_route_match (route : RouteEntry) (query : RouteQuery) : option (Z * string) :=
  if String.eqb (q_entity_type query) ENTITY_HTTP then
    match rt_http route with
    | None => None
    | Some selector =>
        match score_http_match selector (q_path query) (q_method query) with
        | None => None
        | Some score => (fun name => (score, name)) <$> matched_http_name selector (q_path query)
        end
    end
  else
    match matcher_for route (q_entity_type query) with
    | None => None
    | Some matcher =>
        match score_entity_match (Some matcher) (q_name query) with
        | None => None
        | Some score => (fun name => (score, name)) <$> matched_selector_name matcher (q_name query)
        end
    end.

Definition route_scope (route : RouteEntry) : option string :=
  match rt_meta route with Some m => rm_scope m | None => None end.

(** [None] when the route declares another scope. *)
Definition scope_bonus (route : RouteEntry) (query : RouteQuery) : option Z :=
  match route_scope route, q_scope query with
  | None, _ => Some 0%Z
  | Some rs, Some rq => if String.eqb rs rq then Some SPECIFICITY_SCOPE_MATCH else None
  | Some _, None => None
  end.

(** What one turn of the loop compares. *)
Definition route_total (route : RouteEntry) (query : RouteQuery) : option (Z * string) :=
  match scope_bonus route query with
  | None => None
  | Some bonus =>
      match score_route_match route query with
      | None => None
      | Some (base_specificity, name) => Some (saturating_add base_specificity bonus, name)
      end
  end.

Fixpoint resolve_loop (query : RouteQuery) (i : nat) (routes : list RouteEntry) (best : option (Z * MatchedRoute)) :
    option (Z * MatchedRoute) :=
  match routes with
  | [] => best
  | route :: rest =>
      let best :=
        match route_total route query with
        | None => best
        | Some (total, name) =>
            if match best with None => true | Some (s, _) => (s <? total)%Z end
            then Some (total, mkMatched i route name) else best
        end in
      resolve_loop query (S i) rest best
  end.

Definition resolve_route (config : PolicyConfig) (query : RouteQuery) : option MatchedRoute :=
  snd <$> resolve_loop query 0 (cf_routes config) None.

(** *** The engine's callers ([engine.rs]) *)

Definition match_path {Message} (x : Extensions Message) : option string :=
  match x_http x with
  | Some http => before_char "?" <$> ht_path http
  | None => None
  end.

Definition meta_scope {Message} (x : Extensions Message) : option string :=
  match x_meta x with Some m => mt_scope (arc_val m) | None => None end.

Definition resolve_http_route {Message} (config : PolicyConfig) (x : Extensions Message) : option MatchedRoute :=
  match match_path x with
  | None => None
  | Some path =>
      let method := match x_http x with Some http => ht_method http | None => None end in
      resolve_route config (with_scope (query_http path method) (meta_scope x))
  end.

(** [declares_assertions] is the snapshot's flag. *)
Definition resolve_contract_route {Message} (declares_assertions : bool) (policy_config : option PolicyConfig)
    (x : Extensions Message) : option MatchedRoute :=
  if negb declares_assertions then None
  else match policy_config with
  | None => None
  | Some config =>
      if negb (is_policy (es_dispatch (cf_engine_settings config))) then None
      else match x_meta x with
      | None => None
      | Some meta =>
          match mt_entity_type (arc_val meta) with
          | None => None
          | Some entity_type =>
              if String.eqb entity_type ENTITY_HTTP then resolve_http_route config x
              else match mt_entity_name (arc_val meta) with
              | None => None
              | Some entity_name =>
                  resolve_route config (with_scope (query_named entity_type entity_name) (mt_scope (arc_val meta)))
              end
          end
      end
  end.
End Resolve.
