(* ===== verification/Sections.v ===== *)
(** * Inherited sections ([ppe-core/src/config.rs], [ppe-core/src/engine.rs])

    The blocks that stack over the four levels of a configuration: global, the entity
    type's default, the bundles a route joins, the route. The [authentication:] and
    [rate_limits:] steps in force for a route, the [assertions:] contract, the reports of
    what a [replace_inherited] drops, and the engine's application of a contract. *)

From Stdlib Require Import Ascii String.
From S2P Require Import Prelude RustStr F64 Json Platform Constraint Step ExtData Plugin Extensions Stages ConfigKeys.
From S2P Require Import Hooks Assertions Config.

(** [meta.tags], then [groups:]. *)
Definition route_static_tags (route : RouteEntry) : list string :=
  match rt_meta route with Some m => rm_tags m | None => [] end
  ++ match rt_groups route with Some g => as_names g | None => [] end.

(** The first of each name. *)
Fixpoint first_seen (seen : list string) (l : list string) : list string :=
  match l with
  | [] => []
  | x :: l' => if contains_string seen x then first_seen seen l' else x :: first_seen (x :: seen) l'
  end.

Definition route_bundle_names (route : RouteEntry) : list string := first_seen [] (route_static_tags route).

Inductive SectionSource : Type :=
| SoGlobal
| SoEntityDefault (entity_type : string)
| SoBundle (tag : string)
| SoRoute.

Definition source_label (s : SectionSource) : string :=
  match s with
  | SoGlobal => "global"
  | SoEntityDefault entity_type => "global.defaults." +:+ entity_type
  | SoBundle tag => "groups." +:+ tag
  | SoRoute => "the route"
  end.

Definition source_level (s : SectionSource) : AssertionLevel :=
  match s with
  | SoGlobal => LvGlobal | SoEntityDefault _ => LvEntityDefault | SoBundle _ => LvBundle | SoRoute => LvRoute
  end.

(** The sections between the global one and the route. *)
Definition above_the_route (s : SectionSource) : bool :=
  match s with SoEntityDefault _ | SoBundle _ => true | SoGlobal | SoRoute => false end.

Section Layers.
Context {T : Type}.
Variable from_global : GlobalConfig -> option T.
Variable from_section : PolicyGroup -> option T.
Variable from_route : RouteEntry -> option T.

Definition layer (source : SectionSource) (block : option T) : list (SectionSource * T) :=
  match block with Some b => [(source, b)] | None => [] end.

Definition entity_type_of (route : option RouteEntry) (request_entity_type : option string) : option string :=
  match route with
  | Some r => match route_entity_identity r with Some (t, _) => Some t | None => request_entity_type end
  | None => request_entity_type
  end.

Definition section_of (sections : gmap string PolicyGroup) (name : string) : option T :=
  match sections !! name with Some g => from_section g | None => None end.

(** The loop over the static tags, with the names joined so far. *)
Fixpoint bundle_layers (bundles : gmap string PolicyGroup) (joined : list string) (tags : list string) :
    list (SectionSource * T) :=
  match tags with
  | [] => []
  | tag :: rest =>
      if contains_string joined tag then bundle_layers bundles joined rest
      else layer (SoBundle tag) (section_of bundles tag) ++ bundle_layers bundles (joined ++ [tag]) rest
  end.

Definition section_layers (config : PolicyConfig) (route : option RouteEntry) (request_entity_type : option string) :
    list (SectionSource * T) :=
  layer SoGlobal (from_global (cf_global config))
  ++ match entity_type_of route request_entity_type with
     | Some entity_type => layer (SoEntityDefault entity_type) (section_of (gl_defaults (cf_global config)) entity_type)
     | None => []
     end
  ++ match route with
     | None => []
     | Some r => bundle_layers (gl_bundles (cf_global config)) [] (route_static_tags r)
                 ++ layer SoRoute (from_route r)
     end.
End Layers.

Definition authentication_layers (config : PolicyConfig) (route : option RouteEntry) :
    list (SectionSource * RouteIdentityConfig) :=
  section_layers gl_authentication gr_authentication rt_authentication config route None.

Definition rate_limits_layers (config : PolicyConfig) (route : option RouteEntry) (request_entity_type : option string) :
    list (SectionSource * RouteIdentityConfig) :=
  section_layers gl_rate_limits gr_rate_limits rt_rate_limits config route request_entity_type.

Definition assertions_layers (config : PolicyConfig) (route : option RouteEntry) (request_entity_type : option string) :
    list (SectionSource * AssertionsConfig) :=
  section_layers gl_assertions gr_assertions rt_assertions config route request_entity_type.

(** ** Step lists *)

(** The accumulating loop every step chain runs: a layer that replaces clears what came
    before it, then contributes its own. *)
Definition stack_steps {A} (contribute : SectionSource -> RouteIdentityConfig -> list A)
    (layers : list (SectionSource * RouteIdentityConfig)) : list A :=
  fold_left (fun steps '(source, block) =>
    (if ri_replace_inherited block then [] else steps) ++ contribute source block) layers [].

Record ResolvedPlugin : Type := mkResolvedPlugin { rp_name : string; rp_config_overrides : option json }.

Definition resolved_step (step : RouteIdentityStep) : ResolvedPlugin :=
  mkResolvedPlugin (rs_name step) ((fun cfg => JObject [("config", cfg)]) <$> rs_config_override step).

Definition fold_step_layers (layers : list (SectionSource * RouteIdentityConfig)) : list ResolvedPlugin :=
  map resolved_step (stack_steps (fun _ block => ri_steps block) layers).

Definition resolve_identity_plugins_for_route (config : PolicyConfig) (matched : option MatchedRoute) :
    list ResolvedPlugin :=
  fold_step_layers (authentication_layers config (mr_route <$> matched)).

Definition resolve_plugins_for_entity (config : PolicyConfig) : list ResolvedPlugin :=
  if is_policy (es_dispatch (cf_engine_settings config)) then []
  else map (fun p => mkResolvedPlugin (pg_name p) None) (cf_plugins config).

(** *** Rate limits *)

Record RateLimitStepSite : Type := mkSite { si_index : nat; si_section : string }.

Record RateLimitStepRef : Type := mkStepRef {
  sr_source : SectionSource;
  sr_index : nat;
  sr_step : RouteIdentityStep;
}.

Definition rate_limit_section_label (source : SectionSource) (route_index : option nat) : string :=
  match source, route_index with
  | SoRoute, Some i => "routes[" +:+ show_nat i +:+ "]"
  | source, _ => source_label source
  end.

(** [route_index] is where the matched route stands in [routes]. *)
Definition site (r : RateLimitStepRef) (route_index : option nat) : RateLimitStepSite :=
  mkSite (sr_index r)
    (rate_limit_section_label (sr_source r) (match sr_source r with SoRoute => route_index | _ => None end)).

Definition step_refs (source : SectionSource) (block : RouteIdentityConfig) : list RateLimitStepRef :=
  imap (fun index step => mkStepRef source index step) (ri_steps block).

Definition rate_limit_step_refs (config : PolicyConfig) (route : option RouteEntry)
    (request_entity_type : option string) : list RateLimitStepRef :=
  stack_steps step_refs (rate_limits_layers config route request_entity_type).

Definition rate_limit_steps (config : PolicyConfig) (route : option (nat * RouteEntry))
    (request_entity_type : option string) : list (RateLimitStepSite * RouteIdentityStep) :=
  map (fun r => (site r (fst <$> route), sr_step r)) (rate_limit_step_refs config (snd <$> route) request_entity_type).

Inductive RateLimitScope : Type :=
| RlEntityDefault (entity_type : string)
| RlGlobal
| RlGroup (name : string)
| RlRoute (index : nat) (route : RouteEntry).

Definition site_label (s : RateLimitScope) : string :=
  match s with
  | RlEntityDefault entity_type => "global.defaults." +:+ entity_type
  | RlGlobal => "global"
  | RlGroup name => "groups." +:+ name
  | RlRoute i _ => "routes[" +:+ show_nat i +:+ "]"
  end.

Definition rate_limit_blocks `{HashOrder} (config : PolicyConfig) : list (RateLimitScope * RouteIdentityConfig) :=
  let global := cf_global config in
  let of_group (scope : string -> RateLimitScope) '(name, g) := (fun b => (scope name, b)) <$> gr_rate_limits g in
  option_list ((fun b => (RlGlobal, b)) <$> gl_rate_limits global)
  ++ omap (of_group RlEntityDefault) (hash_iter (gl_defaults global))
  ++ omap (of_group RlGroup) (hash_iter (gl_bundles global))
  ++ omap (fun '(i, route) => (fun b => (RlRoute i route, b)) <$> rt_rate_limits route)
       (imap pair (cf_routes config)).

Definition rate_limit_override_steps `{HashOrder} (config : PolicyConfig) :
    list (RateLimitStepSite * RouteIdentityStep) :=
  flat_map (fun '(scope, block) =>
    omap (fun '(index, step) =>
      match rs_config_override step with Some _ => Some (mkSite index (site_label scope), step) | None => None end)
      (imap pair (ri_steps block))) (rate_limit_blocks config).

Definition declares_hook (hook : string) (p : PluginConfig) : bool := existsb (fun h => String.eqb h hook) (pg_hooks p).

Definition plugins_at (config : PolicyConfig) (hook : string) : list string :=
  map pg_name (List.filter (declares_hook hook) (cf_plugins config)).

Definition declares_rate_limits_at `{HashOrder} (config : PolicyConfig) (hook : string) : bool :=
  negb (is_nil (plugins_at config hook))
  && existsb (fun '(_, block) => existsb (fun step => contains_string (plugins_at config hook) (rs_name step))
                                         (ri_steps block)) (rate_limit_blocks config).

(** ** Reports *)

Definition route_display_name (route : RouteEntry) (index : nat) : string :=
  match route_entity_identity route with
  | Some (entity_type, names) => entity_type +:+ ":" +:+ String.concat "," names
  | None => "routes[" +:+ show_nat index +:+ "]"
  end.

Record Dropped : Type := mkDropped { dr_route : string; dr_declared_in : string; dr_dropped : list string }.

Definition step_names (block : RouteIdentityConfig) : list string := map rs_name (ri_steps block).

(** The first section above the route that replaces non-empty steps. *)
Fixpoint dropped_above (steps : list string) (layers : list (SectionSource * RouteIdentityConfig)) :
    option (SectionSource * list string) :=
  match layers with
  | [] => None
  | (source, block) :: rest =>
      if above_the_route source && ri_replace_inherited block && negb (is_nil steps) then Some (source, steps)
      else dropped_above ((if ri_replace_inherited block then [] else steps) ++ step_names block) rest
  end.

Definition dropped_inherited_authentication (config : PolicyConfig) : list Dropped :=
  omap (fun '(i, route) =>
    if is_some_and ri_replace_inherited (rt_authentication route) then None
    else match dropped_above [] (authentication_layers config (Some route)) with
         | Some (source, steps) => Some (mkDropped (route_display_name route i) (source_label source) steps)
         | None => None
         end) (imap pair (cf_routes config)).

(** The loop of the rate-limit report: the steps so far and the finding. *)
Fixpoint dropped_limits (steps : list string) (finding : option (SectionSource * list string))
    (layers : list (SectionSource * RouteIdentityConfig)) : option (SectionSource * list string) :=
  match layers with
  | [] => finding
  | (source, block) :: rest =>
      let finding :=
        if ri_replace_inherited block && negb (is_nil steps)
        then if is_none finding || match source with SoRoute => true | _ => false end
             then Some (source, steps) else finding
        else finding in
      dropped_limits ((if ri_replace_inherited block then [] else steps) ++ step_names block) finding rest
  end.

Definition dropped_inherited_rate_limits (config : PolicyConfig) : list Dropped :=
  omap (fun '(i, route) =>
    (fun '(source, dropped) => mkDropped (route_display_name route i) (source_label source) dropped)
    <$> dropped_limits [] None (rate_limits_layers config (Some route) None)) (imap pair (cf_routes config)).

Record UnauthenticatedRateLimits : Type := mkUnauthenticated { ua_limiters : list string; ua_route : string }.

Definition rate_limits_without_authentication (config : PolicyConfig) : list UnauthenticatedRateLimits :=
  let post_identity := plugins_at config HOOK_RATELIMIT_POST_IDENTITY in
  if is_nil post_identity then []
  else omap (fun '(i, route) =>
         if negb (is_nil (fold_step_layers (authentication_layers config (Some route)))) then None
         else
           let limiters := List.filter (contains_string post_identity)
             (map rp_name (fold_step_layers (rate_limits_layers config (Some route) None))) in
           if is_nil limiters then None else Some (mkUnauthenticated limiters (route_display_name route i)))
       (imap pair (cf_routes config)).

(** The [repeated] closure: what is seen, and what repeats. *)
Fixpoint repeated (seen repeats : list string) (steps : list (RateLimitStepSite * RouteIdentityStep)) : list string :=
  match steps with
  | [] => repeats
  | (_, step) :: rest =>
      match rs_config_override step with
      | Some _ => repeated seen repeats rest
      | None =>
          if contains_string seen (rs_name step)
          then repeated seen (if contains_string repeats (rs_name step) then repeats else repeats ++ [rs_name step]) rest
          else repeated (seen ++ [rs_name step]) repeats rest
      end
  end.

Record RepeatedRateLimits : Type := mkRepeated { rr_limiters : list string; rr_route : string }.

Definition rate_limits_listed_twice (config : PolicyConfig) : list RepeatedRateLimits :=
  let of_steps := repeated [] [] in
  let global := of_steps (rate_limit_steps config None None) in
  (if is_nil global then [] else [mkRepeated global "global"])
  ++ omap (fun '(entity_type, _) =>
       let limiters := of_steps (rate_limit_steps config None (Some entity_type)) in
       if negb (is_nil limiters) && negb (bool_decide (limiters = global))
       then Some (mkRepeated limiters ("global.defaults." +:+ entity_type)) else None)
     (sorted_entries (gl_defaults (cf_global config)))
  ++ omap (fun '(i, route) =>
       let limiters := of_steps (rate_limit_steps config (Some (i, route)) None) in
       if is_nil limiters then None else Some (mkRepeated limiters (route_display_name route i)))
     (imap pair (cf_routes config)).

(** *** What a set of [http:] routes leaves uncovered *)

(** [prefix.trim_matches('/').is_empty()]. *)
Definition only_slashes (prefix : string) : bool := string_forall (fun c => Ascii.eqb c "/") prefix.

Definition is_http_catch_all (selector : HttpSelector) : bool :=
  is_none (http_method selector) && is_some_and only_slashes (path_prefix selector).

(** The number of [http:] routes the one message reports, when it is reported. *)
Definition http_routing_gaps (config : PolicyConfig) : option nat :=
  let selectors := omap rt_http (cf_routes config) in
  if is_nil selectors then None
  else if existsb is_http_catch_all selectors then None
  else Some (length selectors).

(** ** The [assertions:] contract *)

Definition resolve_entry_source (entry : HeaderEntry) : ResolvedSource :=
  match he_source entry with
  | AsFrom path => match source_parse path with Ok parsed => RsFrom parsed | Err _ => RsUnresolvable end
  | AsMembers members =>
      match collect (fun '(member, path) => let? source := source_parse path in Ok (member, source))
                    (sorted_entries members) with
      | Ok parsed => RsMembers parsed
      | Err _ => RsUnresolvable
      end
  end.

Section Accumulate.
Context `{Platform, WildMatch}.

Definition resolved_entry (source : SectionSource) (entry : HeaderEntry) : ResolvedHeader :=
  mkResolved (he_header entry) (str_to_lowercase (he_header entry)) (resolve_entry_source entry)
    (he_on_missing entry) (he_encode entry) (source_label source) (source_level source) None.

Definition overriding (held header : ResolvedHeader) : ResolvedHeader :=
  mkResolved (rh_name header) (rh_lowercase header) (rh_source header) (rh_on_missing header) (rh_encode header)
    (rh_declared_in header) (rh_level header) (Some (rh_declared_in held)).

(** The later entry in the position the first one with its name holds, or at the end. *)
Fixpoint put_header (header : ResolvedHeader) (headers : list ResolvedHeader) : list ResolvedHeader :=
  match headers with
  | [] => [header]
  | held :: rest =>
      if String.eqb (rh_lowercase held) (rh_lowercase header) then overriding held header :: rest
      else held :: put_header header rest
  end.

Definition put_strip (pattern : StripPattern) (strip : list StripPattern) : list StripPattern :=
  if existsb (fun held => String.eqb (str_to_lowercase (sp_pattern held)) (str_to_lowercase (sp_pattern pattern))) strip
  then strip else strip ++ [pattern].

Definition apply_layer (c : ResolvedContract) (source : SectionSource) (block : DirectionBlock) : ResolvedContract :=
  let c := if db_replace_inherited block then mkContract [] [] else c in
  mkContract
    (fold_left (fun headers entry => put_header (resolved_entry source entry) headers) (db_headers block) (rc_headers c))
    (fold_left (fun strip pattern => put_strip pattern strip) (db_strip block) (rc_strip c)).

(** The layers that declare the direction. *)
Definition direction_layers (d : Direction) (layers : list (SectionSource * AssertionsConfig)) :
    list (SectionSource * DirectionBlock) :=
  omap (fun '(source, a) => (fun block => (source, block)) <$> block_of d a) layers.

Definition accumulate (layers : list (SectionSource * DirectionBlock)) : ResolvedContract :=
  fold_left (fun c '(source, block) => apply_layer c source block) layers (mkContract [] []).

Definition resolve_assertions_for_route (config : PolicyConfig) (route : option RouteEntry)
    (request_entity_type : option string) (d : Direction) : option ResolvedContract :=
  let layers := direction_layers d (assertions_layers config route request_entity_type) in
  if is_nil layers then None else Some (accumulate layers).

(** *** The report *)

Record DroppedAssertions : Type := mkDroppedAssertions {
  da_route : string;
  da_direction : string;
  da_declared_in : string;
  da_dropped_headers : list string;
  da_dropped_strip : list string;
}.

Fixpoint dropped_content (headers strip : list string) (layers : list (SectionSource * DirectionBlock)) :
    option (SectionSource * list string * list string) :=
  match layers with
  | [] => None
  | (source, block) :: rest =>
      if above_the_route source && db_replace_inherited block && negb (is_nil headers && is_nil strip)
      then Some (source, headers, strip)
      else
        dropped_content ((if db_replace_inherited block then [] else headers) ++ map he_header (db_headers block))
          ((if db_replace_inherited block then [] else strip) ++ map sp_pattern (db_strip block)) rest
  end.

Definition dropped_inherited_assertions_for (config : PolicyConfig) (route : RouteEntry) (route_label : string) :
    list DroppedAssertions :=
  omap (fun d =>
    let route_replaces :=
      match rt_assertions route with Some a => is_some_and db_replace_inherited (block_of d a) | None => false end in
    if route_replaces then None
    else (fun '(source, headers, strip) =>
            mkDroppedAssertions route_label (dir_label d) (source_label source) headers strip)
         <$> dropped_content [] [] (direction_layers d (assertions_layers config (Some route) None)))
    [DirRequest; DirResponse].

Definition dropped_inherited_assertions (config : PolicyConfig) : list DroppedAssertions :=
  flat_map (fun '(i, route) => dropped_inherited_assertions_for config route (route_display_name route i))
    (imap pair (cf_routes config)).

(** ** The engine's application of the contract ([engine.rs]) *)

(** [Direction::from_phase]. *)
Definition from_phase (phase : HookPhase) : option Direction :=
  match phase with PhPre => Some DirRequest | PhPost => Some DirResponse | PhUnphased => None end.

(** What [apply_assertions] does to the pipeline result: the extensions it leaves, and the
    missing source when it turns an allowed pipeline into a denial. [extensions] is
    [modified_extensions], [denied] is [result.is_denied()]. *)
Definition apply_assertions {Message} (declares_assertions : bool) (hook : option HookMetadata)
    (policy_config : option PolicyConfig) (matched : option MatchedRoute) (secrets : option SecretStore)
    (denied : bool) (extensions : option (Extensions Message)) : option (Extensions Message) * option MissingSource :=
  if negb declares_assertions then (extensions, None)
  else match hook, policy_config with
  | Some meta, Some config =>
      match from_phase (hm_phase meta) with
      | None => (extensions, None)
      | Some direction =>
          if denied && match direction with DirResponse => true | DirRequest => false end then (extensions, None)
          else
            let entity_type := match extensions with
                               | Some x => match x_meta x with Some m => mt_entity_type (arc_val m) | None => None end
                               | None => None
                               end in
            match resolve_assertions_for_route config (mr_route <$> matched) entity_type direction with
            | None => (extensions, None)
            | Some contract =>
                let stripped := (fun x => apply_contract contract [] x direction) <$> extensions in
                if denied then (stripped, None)
                else match extensions with
                | None => (extensions, None)
                | Some x =>
                    match render x secrets contract with
                    | Ok rendered => (Some (apply_contract contract rendered x direction), None)
                    | Err missing => (stripped, Some missing)
                    end
                end
            end
      end
  | _, _ => (extensions, None)
  end.
End Accumulate.
