(* ===== verification/ConfigCheck.v ===== *)
(** * Checking a configuration ([ppe-core/src/config.rs], [ppe-core/src/secrets/config.rs])

    The hand-written parts of deserialization, the checks on the typed configuration, and
    the load of a document. The derived [Deserialize] implementations are parameters. A
    refusal is a value of [ConfigError], one constructor per message, with what the message
    interpolates. *)

From Stdlib Require Import Ascii String.
From S2P Require Import Prelude RustStr F64 Json Platform Constraint Step Stages StepParser HttpPath ConfigKeys Hooks.
From S2P Require Import Assertions Config Sections.

Inductive ConfigError : Type :=
| EKeys (e : KeyError)
| EYaml (message : string)
| ENothingToDispatch (plugins : list string)
| ETypedActivationList (path : string)
| ETypedConditions (plugin : string)
| EHookModeScopes (found : list string)
| EUnknownHook (plugin hook : string) (suggestion : option string)
| EReservedName (route : nat)
| EEmptyNamespace
| EProvenanceKeyUnset
| EProvenanceKeyEmpty
| EProvenanceKeyAmbiguous
| EProvenanceKeyed (key : string)
| EProvenanceKeyUndeclared (key : string)
| ESecretName (what name : string)
| ESecretProvider (name provider : string)
| ESecretReference (name : string)
| EAssertion (e : AssertError)
| EBundleConflict (route first second header direction : string)
| EDuplicatePlugin (name : string)
| EUnknownPlugin (context name : string)
| EDefaultsKey (key : string)
| ENoMatcher (route : nat)
| EManyMatchers (route : nat) (declared : list string)
| EHttpDefect (route : nat) (defect : string)
| ESharedName (first second : nat) (entity_type name : string)
| EUnknownGroup (route : nat) (name : string)
| EUnknownLimiter (context name : string)
| ENoRateLimitHook (context name : string)
| EPreIdentity (context name entity_types : string).

(** ** Hand-written deserialization *)

(** The derived [Deserialize] of [StepYaml], with [deny_unknown_fields]. *)
Class StepSerde := { step_from_value : list (yaml * yaml) -> result (string * option json) string }.

Record StepListBlock : Type := mkStepList {
  sl_key : string;
  sl_scope : ConfigScope;
  sl_step_label : string;
  sl_step_scope : ConfigScope;
}.

Definition AUTHENTICATION_BLOCK : StepListBlock :=
  mkStepList "authentication" ScAuthentication "authentication step" ScAuthenticationStep.
Definition RATE_LIMITS_BLOCK : StepListBlock :=
  mkStepList "rate_limits" ScRateLimits "rate_limits step" ScRateLimitsStep.

Inductive StepListError : Type :=
| SeUnknownKeys (place message : string)
| SeShape (place : string)
| SeNoSteps (key : string)
| SeEmptyName (label : string) (index : nat)
| SeStep (label : string) (index : nat) (message : string).

Definition parse_list_step `{StepSerde} (block : StepListBlock) (index : nat) (raw : yaml) :
    result RouteIdentityStep StepListError :=
  let label := sl_step_label block in
  match raw with
  | YString name => if String.eqb name "" then Err (SeEmptyName label index) else Ok (mkStep name None)
  | YMapping m =>
      let unknown := unknown_keys_in (sl_step_scope block) m [] in
      if negb (is_nil unknown)
      then Err (SeUnknownKeys (label +:+ " [" +:+ show_nat index +:+ "]") (unknown_keys_message (sl_step_scope block) unknown))
      else
        let? parsed := result_map_err (SeStep label index) (step_from_value m) in
        if String.eqb (fst parsed) "" then Err (SeEmptyName label index)
        else Ok (mkStep (fst parsed) (snd parsed))
  | _ => Err (SeShape (label +:+ " [" +:+ show_nat index +:+ "]"))
  end.

Fixpoint parse_list_steps `{StepSerde} (block : StepListBlock) (i : nat) (raw : list yaml) :
    result (list RouteIdentityStep) StepListError :=
  match raw with
  | [] => Ok []
  | item :: rest =>
      let? step := parse_list_step block i item in
      let? steps := parse_list_steps block (S i) rest in
      Ok (step :: steps)
  end.

(** [None] is an absent or null block. *)
Definition deserialize_step_list `{StepSerde} (raw : option yaml) (block : StepListBlock) :
    result (option RouteIdentityConfig) StepListError :=
  let key := sl_key block in
  match raw with
  | None | Some YNull => Ok None
  | Some raw =>
      let? shape :=
        match raw with
        | YSequence items => Ok (false, items)
        | YMapping m =>
            let unknown := unknown_keys_in (sl_scope block) m [] in
            if negb (is_nil unknown) then Err (SeUnknownKeys key (unknown_keys_message (sl_scope block) unknown))
            else
              let? replace_inherited :=
                match mapping_get "replace_inherited" m with
                | Some v => match as_bool v with Some b => Ok b | None => Err (SeShape (key +:+ ".replace_inherited")) end
                | None => Ok false
                end in
              match mapping_get "steps" m with
              | None => Err (SeNoSteps key)
              | Some v => match as_sequence v with
                          | Some items => Ok (replace_inherited, items)
                          | None => Err (SeShape (key +:+ ".steps"))
                          end
              end
        | _ => Err (SeShape key)
        end in
      let? steps := parse_list_steps block 0 (snd shape) in
      Ok (Some (mkIdentityConfig steps (fst shape)))
  end.

(** The untagged [StringOrList]: a string, or a list of strings. *)
Definition string_or_list (v : yaml) : option StringOrList :=
  match v with
  | YString s => Some (SSingle s)
  | YSequence l =>
      SList <$> mapM (fun item => match item with YString s => Some s | _ => None end) l
  | _ => None
  end.

Definition http_selector_path (key : string) (value : yaml) : result string string :=
  match yaml_as_str value with Some path => Ok path | None => Err ("`http." +:+ key +:+ ":` must be a path string") end.

Fixpoint http_paths (i : nat) (items : list yaml) : result (list string) string :=
  match items with
  | [] => Ok []
  | YString path :: rest => let? paths := http_paths (S i) rest in Ok (path :: paths)
  | _ :: _ => Err ("`http:` list entry [" +:+ show_nat i +:+ "] must be a path string")
  end.

Fixpoint http_match (parsed : HttpMatch) (m : list (yaml * yaml)) : result HttpMatch string :=
  match m with
  | [] => Ok parsed
  | (key, value) :: rest =>
      match yaml_as_str key with
      | None => Err "`http:` map keys must be strings"
      | Some key =>
          let? parsed :=
            if String.eqb key "path" then
              let? path := http_selector_path key value in
              Ok (mkHttpMatch (Some path) (hx_path_prefix parsed) (hx_method parsed))
            else if String.eqb key "path_prefix" then
              let? path := http_selector_path key value in
              Ok (mkHttpMatch (hx_path parsed) (Some (trim_declared_slash path)) (hx_method parsed))
            else if String.eqb key "method" then
              match string_or_list value with
              | Some method => Ok (mkHttpMatch (hx_path parsed) (hx_path_prefix parsed) (Some method))
              | None => Err "`http.method:` must be a method name or a list of them"
              end
            else Err ("unknown key `" +:+ key +:+ "` under `http:` (accepts path, path_prefix, method)") in
          http_match parsed rest
      end
  end.

Definition http_selector_from_value (v : yaml) : result HttpSelector string :=
  match v with
  | YString path => Ok (HsPath path)
  | YSequence items => let? paths := http_paths 0 items in Ok (HsPaths paths)
  | YMapping m => let? parsed := http_match (mkHttpMatch None None None) m in Ok (HsMatch parsed)
  | _ => Err "`http:` must be a path, a list of paths, or a map with `path:` or `path_prefix:` (and optional `method:`)"
  end.

(** ** Checks on the typed configuration *)

Definition reject_policy_mode_with_nothing_to_dispatch (config : PolicyConfig) (has_visitor : bool) :
    result unit ConfigError :=
  if has_visitor || negb (is_policy (es_dispatch (cf_engine_settings config))) || is_nil (cf_plugins config) then Ok tt
  else
    let g := cf_global config in
    if negb (is_nil (cf_routes config)) || negb (bool_decide (cf_groups config = ∅))
       || negb (bool_decide (gl_bundles g = ∅)) || negb (bool_decide (gl_defaults g = ∅))
       || negb (is_none (gl_authentication g)) || negb (is_none (gl_rate_limits g))
    then Ok tt
    else Err (ENothingToDispatch (map pg_name (cf_plugins config))).

Section Check.
Context `{Platform, WildMatch, HashOrder}.

Definition reject_typed_activation_lists (config : PolicyConfig) : result unit ConfigError :=
  let route_lists := omap (fun '(i, route) =>
    if is_nil (rt_plugins route) then None else Some ("routes[" +:+ show_nat i +:+ "]")) (imap pair (cf_routes config)) in
  let group_lists prefix groups := omap (fun '(name, g) =>
    if is_nil (gr_plugins g) then None else Some (prefix +:+ name)) (hash_iter groups) in
  match route_lists ++ group_lists "groups." (gl_bundles (cf_global config))
        ++ group_lists "global.defaults." (gl_defaults (cf_global config)) with
  | [] => Ok tt
  | path :: _ => Err (ETypedActivationList path)
  end.

Definition reject_typed_plugin_conditions (config : PolicyConfig) : result unit ConfigError :=
  match List.find (fun p => negb (is_nil (pg_conditions p))) (cf_plugins config) with
  | None => Ok tt
  | Some plugin => Err (ETypedConditions (pg_name plugin))
  end.

Definition reject_typed_policy_scopes (config : PolicyConfig) : result unit ConfigError :=
  let g := cf_global config in
  let found := omap (fun '(present, name) => then_some present name)
    [(negb (is_nil (cf_routes config)), "routes"); (negb (bool_decide (gl_bundles g = ∅)), "groups");
     (negb (bool_decide (gl_defaults g = ∅)), "global.defaults");
     (negb (is_none (gl_authentication g)), "global.authentication");
     (negb (is_none (gl_rate_limits g)), "global.rate_limits")] in
  if is_nil found then Ok tt else Err (EHookModeScopes found).

Definition reject_mode_conflicts_typed (config : PolicyConfig) : result unit ConfigError :=
  if is_policy (es_dispatch (cf_engine_settings config)) then
    let? _ := reject_typed_activation_lists config in
    reject_typed_plugin_conditions config
  else reject_typed_policy_scopes config.

Definition validate_declared_hooks (hooks : HookRegistry) (config : PolicyConfig) : result unit ConfigError :=
  try_each (fun plugin =>
    try_each (fun hook =>
      match lookup_hook hooks hook with
      | Some _ => Ok tt
      | None => Err (EUnknownHook (pg_name plugin) hook (nearest_known_hook hook))
      end) (pg_hooks plugin)) (cf_plugins config).

Definition reject_reserved_route_names (config : PolicyConfig) : result unit ConfigError :=
  try_enum (fun i route =>
    match route_entity_identity route with
    | None => Ok tt
    | Some (entity_type, names) =>
        if String.eqb entity_type ENTITY_HTTP && contains_string names ENTITY_NAME_GLOBAL
        then Err (EReservedName i) else Ok tt
    end) 0 (cf_routes config).

(** *** Secrets *)

Definition validate_name (name what : string) : result unit ConfigError :=
  if String.eqb name "" then Err (ESecretName what name)
  else if negb (string_forall (fun c => is_ascii_alphanumeric c || contains_char c "_-/") name)
  then Err (ESecretName what name)
  else if starts_with "/" name || ends_with_str "/" name || contains_str "//" name then Err (ESecretName what name)
  else Ok tt.

Definition validate_secrets (s : SecretsConfig) : result unit ConfigError :=
  let? _ := try_each (fun '(name, _) => validate_name name "provider") (hash_iter (sc_providers s)) in
  try_each (fun '(name, value) =>
    let? _ := validate_name name "secret" in
    match sc_providers s !! sv_provider value with
    | None => Err (ESecretProvider name (sv_provider value))
    | Some _ => if String.eqb (sv_reference value) "" then Err (ESecretReference name) else Ok tt
    end) (hash_iter (sc_values s)).

Definition secret_declared (config : PolicyConfig) (name : string) : bool :=
  bool_decide (is_Some (sc_values (cf_secrets config) !! name)).

Definition UNKEYED_CONTENT_PROVENANCE : string := "unkeyed".

(** [fips] is the crate feature. *)
Definition validate_content_provenance_key (fips : bool) (config : PolicyConfig) : result unit ConfigError :=
  let settings := cf_engine_settings config in
  match es_content_provenance_key settings with
  | None => if es_capture_content_provenance settings then Err EProvenanceKeyUnset else Ok tt
  | Some key =>
      if String.eqb (trim key) "" then Err EProvenanceKeyEmpty
      else
        let declared := secret_declared config key in
        if String.eqb key UNKEYED_CONTENT_PROVENANCE then
          if declared then Err EProvenanceKeyAmbiguous else Ok tt
        else if fips && es_capture_content_provenance settings then Err (EProvenanceKeyed key)
        else if negb declared then Err (EProvenanceKeyUndeclared key)
        else Ok tt
  end.

(** *** Assertions *)

Definition direction_block (bundles : gmap string PolicyGroup) (name : string) (d : Direction) : option DirectionBlock :=
  match bundles !! name with
  | Some g => match gr_assertions g with Some a => block_of d a | None => None end
  | None => None
  end.

Fixpoint claim_headers (route bundle : string) (d : Direction) (claimed : gmap string string)
    (headers : list HeaderEntry) : result (gmap string string) ConfigError :=
  match headers with
  | [] => Ok claimed
  | entry :: rest =>
      let lower := str_to_lowercase (he_header entry) in
      match claimed !! lower with
      | Some first => Err (EBundleConflict route first bundle (he_header entry) (dir_label d))
      | None => claim_headers route bundle d (<[lower := bundle]> claimed) rest
      end
  end.

Fixpoint claim_bundles (bundles : gmap string PolicyGroup) (route : string) (d : Direction)
    (claimed : gmap string string) (names : list string) : result unit ConfigError :=
  match names with
  | [] => Ok tt
  | name :: rest =>
      match direction_block bundles name d with
      | None => claim_bundles bundles route d claimed rest
      | Some block =>
          let? claimed := claim_headers route name d claimed (db_headers block) in
          claim_bundles bundles route d claimed rest
      end
  end.

Definition reject_bundle_assertion_conflicts (config : PolicyConfig) : result unit ConfigError :=
  try_enum (fun i route =>
    try_each (fun d =>
      claim_bundles (gl_bundles (cf_global config)) (route_display_name route i) d ∅ (route_bundle_names route))
      [DirRequest; DirResponse]) 0 (cf_routes config).

Definition check_assertions (config : PolicyConfig) (level : string) (a : option AssertionsConfig) :
    result unit ConfigError :=
  match a with
  | Some a => result_map_err EAssertion (assertions_validate (secret_declared config) a level)
  | None => Ok tt
  end.

Definition validate_assertions (config : PolicyConfig) : result unit ConfigError :=
  let g := cf_global config in
  let? _ := check_assertions config "global" (gl_assertions g) in
  let? _ := try_each (fun '(entity_type, d) =>
              check_assertions config ("global.defaults." +:+ entity_type) (gr_assertions d)) (hash_iter (gl_defaults g)) in
  let? _ := try_each (fun '(name, b) => check_assertions config ("groups." +:+ name) (gr_assertions b))
              (hash_iter (gl_bundles g)) in
  let? _ := try_enum (fun i route => check_assertions config (route_display_name route i) (rt_assertions route))
              0 (cf_routes config) in
  reject_bundle_assertion_conflicts config.

(** *** Rate limits *)

(** The entity types of the joining routes so far; [None] once an HTTP route joins. *)
Fixpoint joining_types (group_name : string) (types : list string) (routes : list RouteEntry) : option (list string) :=
  match routes with
  | [] => Some types
  | route :: rest =>
      if contains_string (route_static_tags route) group_name then
        match route_entity_identity route with
        | None => joining_types group_name types rest
        | Some (entity_type, _) =>
            if String.eqb entity_type ENTITY_HTTP then None
            else joining_types group_name (if contains_string types entity_type then types else types ++ [entity_type]) rest
        end
      else joining_types group_name types rest
  end.

Definition group_only_entity_types (config : PolicyConfig) (group_name : string) : option string :=
  match joining_types group_name [] (cf_routes config) with
  | Some (t :: ts) => Some (String.concat " or " (t :: ts))
  | _ => None
  end.

(** A later declaration of a name wins in the lookup table. *)
Definition plugin_named (config : PolicyConfig) (name : string) : option PluginConfig :=
  List.find (fun p => String.eqb (pg_name p) name) (rev (cf_plugins config)).

Definition check_limit (config : PolicyConfig) (context : string) (non_http_entity : option string)
    (step : RouteIdentityStep) : result unit ConfigError :=
  match plugin_named config (rs_name step) with
  | None => Err (EUnknownLimiter context (rs_name step))
  | Some plugin =>
      let pre_identity := declares_hook HOOK_RATELIMIT_PRE_IDENTITY plugin in
      if negb pre_identity && negb (declares_hook HOOK_RATELIMIT_POST_IDENTITY plugin)
      then Err (ENoRateLimitHook context (rs_name step))
      else match non_http_entity with
      | Some entity_type => if pre_identity then Err (EPreIdentity context (rs_name step) entity_type) else Ok tt
      | None => Ok tt
      end
  end.

Definition limit_context (config : PolicyConfig) (scope : RateLimitScope) : string * option string :=
  match scope with
  | RlGlobal => ("global", None)
  | RlEntityDefault entity_type =>
      ("global.defaults." +:+ entity_type, if String.eqb entity_type ENTITY_HTTP then None else Some entity_type)
  | RlGroup name => ("policy group '" +:+ name +:+ "'", group_only_entity_types config name)
  | RlRoute i route =>
      ("route " +:+ show_nat i,
       match route_entity_identity route with
       | Some (entity_type, _) => if String.eqb entity_type ENTITY_HTTP then None else Some entity_type
       | None => None
       end)
  end.

Definition validate_rate_limits (config : PolicyConfig) : result unit ConfigError :=
  try_each (fun '(scope, block) =>
    let '(context, non_http) := limit_context config scope in
    try_each (check_limit config context non_http) (ri_steps block)) (rate_limit_blocks config).

(** *** Routes *)

Definition SELECTOR_KEYS : list string := [ENTITY_TOOL; ENTITY_RESOURCE; ENTITY_PROMPT; ENTITY_LLM; ENTITY_HTTP].

Definition declared_matchers (route : RouteEntry) : list string :=
  omap (fun '(name, present) => then_some present name)
    [("tool", negb (is_none (rt_tool route))); ("resource", negb (is_none (rt_resource route)));
     ("prompt", negb (is_none (rt_prompt route))); ("llm", negb (is_none (rt_llm route)));
     ("http", negb (is_none (rt_http route)))].

(** The first route to claim each name of an entity type and scope. *)
Definition ClaimedNames : Type := gmap (string * option string * string) nat.

Fixpoint claim_names (i : nat) (entity_type : string) (scope : option string) (names : list string)
    (claimed : ClaimedNames) : result ClaimedNames ConfigError :=
  match names with
  | [] => Ok claimed
  | name :: rest =>
      match claimed !! (entity_type, scope, name) with
      | Some first =>
          if (first =? i)%nat then claim_names i entity_type scope rest claimed
          else Err (ESharedName first i entity_type name)
      | None => claim_names i entity_type scope rest (<[(entity_type, scope, name) := i]> claimed)
      end
  end.

Definition plugin_declared (config : PolicyConfig) (name : string) : bool :=
  contains_string (map pg_name (cf_plugins config)) name.

Definition validate_authentication (config : PolicyConfig) (a : option RouteIdentityConfig) (context : string) :
    result unit ConfigError :=
  match a with
  | None => Ok tt
  | Some a =>
      try_each (fun step =>
        if plugin_declared config (rs_name step) then Ok tt else Err (EUnknownPlugin context (rs_name step))) (ri_steps a)
  end.

Definition known_refs (config : PolicyConfig) (context : string) (refs : list PluginRouteRef) : result unit ConfigError :=
  try_each (fun r => if plugin_declared config (ref_name r) then Ok tt else Err (EUnknownPlugin context (ref_name r))) refs.

(** One turn of the route loop. *)
Definition validate_route (config : PolicyConfig) (i : nat) (route : RouteEntry) (claimed : ClaimedNames) :
    result ClaimedNames ConfigError :=
  match declared_matchers route with
  | [] => Err (ENoMatcher i)
  | _ :: _ :: _ => Err (EManyMatchers i (declared_matchers route))
  | [_] =>
      match match rt_http route with Some http => defect http | None => None end with
      | Some d => Err (EHttpDefect i d)
      | None =>
          let? claimed :=
            match route_entity_identity route with
            | Some (entity_type, names) => claim_names i entity_type (route_scope route) names claimed
            | None => Ok claimed
            end in
          let? _ := known_refs config ("route " +:+ show_nat i) (rt_plugins route) in
          let? _ := match rt_groups route with
                    | None => Ok tt
                    | Some groups =>
                        try_each (fun name => match gl_bundles (cf_global config) !! name with
                                              | Some _ => Ok tt
                                              | None => Err (EUnknownGroup i name)
                                              end) (as_names groups)
                    end in
          let? _ := validate_authentication config (rt_authentication route) ("route " +:+ show_nat i) in
          Ok claimed
      end
  end.

Fixpoint validate_routes (config : PolicyConfig) (i : nat) (routes : list RouteEntry) (claimed : ClaimedNames) :
    result ClaimedNames ConfigError :=
  match routes with
  | [] => Ok claimed
  | route :: rest =>
      let? claimed := validate_route config i route claimed in
      validate_routes config (S i) rest claimed
  end.

Fixpoint distinct_plugins (seen : list string) (plugins : list PluginConfig) : result unit ConfigError :=
  match plugins with
  | [] => Ok tt
  | p :: rest => if contains_string seen (pg_name p) then Err (EDuplicatePlugin (pg_name p))
                 else distinct_plugins (pg_name p :: seen) rest
  end.

Definition validate_policy_mode (config : PolicyConfig) : result unit ConfigError :=
  let? _ := validate_authentication config (gl_authentication (cf_global config)) "global" in
  let? _ := try_each (fun '(entity_type, _) =>
              if contains_string SELECTOR_KEYS entity_type then Ok tt else Err (EDefaultsKey entity_type))
              (hash_iter (gl_defaults (cf_global config))) in
  let? _ := validate_routes config 0 (cf_routes config) ∅ in
  let? _ := try_each (fun '(group_name, g) =>
              let context := "policy group '" +:+ group_name +:+ "'" in
              let? _ := known_refs config context (gr_plugins g) in
              validate_authentication config (gr_authentication g) context) (hash_iter (gl_bundles (cf_global config))) in
  validate_rate_limits config.

Definition validate_config (fips : bool) (hooks : HookRegistry) (config : PolicyConfig) : result unit ConfigError :=
  let? _ := validate_declared_hooks hooks config in
  let? _ := reject_reserved_route_names config in
  let? _ := match es_audit_stream_namespace (cf_engine_settings config) with
            | Some ns => if String.eqb (trim ns) "" then Err EEmptyNamespace else Ok tt
            | None => Ok tt
            end in
  let? _ := validate_content_provenance_key fips config in
  let? _ := validate_secrets (cf_secrets config) in
  let? _ := validate_assertions config in
  let? _ := distinct_plugins [] (cf_plugins config) in
  if is_policy (es_dispatch (cf_engine_settings config)) then validate_policy_mode config else Ok tt.

(** ** Loading a document *)

(** [from_str] is the YAML parser and [config_from_value] the derived deserialization. *)
Definition parse_config (fips : bool) (hooks : HookRegistry) (from_str : string -> result yaml string)
    (config_from_value : yaml -> result PolicyConfig string) (text : string) : result PolicyConfig ConfigError :=
  let? raw := result_map_err EYaml (from_str text) in
  let? _ := result_map_err EKeys (reject_unknown_document_keys raw) in
  let? _ := result_map_err EKeys (reject_unknown_engine_settings_keys raw) in
  let? _ := result_map_err EKeys (reject_unknown_route_keys raw []) in
  let? _ := result_map_err EKeys (reject_unknown_section_keys raw []) in
  let? _ := result_map_err EKeys (reject_mode_conflicts raw) in
  let? config := result_map_err EYaml (config_from_value raw) in
  let config := fold_groups_into_bundles config in
  let? _ := validate_config fips hooks config in
  Ok config.
End Check.
