(* ===== verification/RouteSelectProps.v ===== *)
(** * Which route a request resolves to

    [resolve_route] returns the first route of the greatest score; the score of an [http:]
    route orders as a tuple; in a checked configuration a resolved name belongs to one
    route. Then the steps [replace_inherited] leaves in force for it. *)

From Stdlib Require Import Ascii String.
From S2P Require Import Prelude RustStr F64 Json Platform Constraint Routing HttpPath ConfigKeys Hooks Assertions.
From S2P Require Import Config Sections ConfigCheck.

(** ** The loop *)

Section Loop.
Context `{WildMatch}.
Implicit Types (q : RouteQuery) (routes : list RouteEntry).

(** The route at [i] beats what the others score: none is greater, and none before it is
    equal. [base] is the position of the first of [routes]. *)
Definition beats q routes (base i : nat) (total : Z) : Prop :=
  forall j route total' name',
    routes !! j = Some route -> route_total route q = Some (total', name') ->
    (total' < total)%Z \/ (total' = total /\ (i <= base + j)%nat).

(** [m] is the answer over [routes], which start at position [base]. *)
Definition winner q routes (base : nat) (total : Z) (m : MatchedRoute) : Prop :=
  (base <= mr_index m)%nat /\ routes !! (mr_index m - base)%nat = Some (mr_route m)
  /\ route_total (mr_route m) q = Some (total, mr_name m)
  /\ beats q routes base (mr_index m) total.

Definition unmatched q routes : Prop := Forall (fun route => route_total route q = None) routes.

(** The state of the loop against what it has read. *)
Definition tracks q routes (best : option (Z * MatchedRoute)) : Prop :=
  match best with Some (total, m) => winner q routes 0 total m | None => unmatched q routes end.

Lemma beats_snoc q routes i total route :
  beats q routes 0 i total ->
  (forall total' name', route_total route q = Some (total', name') ->
     (total' < total)%Z \/ (total' = total /\ (i <= length routes)%nat)) ->
  beats q (routes ++ [route]) 0 i total.
Proof.
  intros Hb Hr j r total' name' Hj Ht.
  destruct (decide (j < length routes)%nat) as [Hlt|Hge].
  - rewrite lookup_app_l in Hj by done. eapply Hb; eauto.
  - rewrite lookup_app_r in Hj by lia. apply list_lookup_singleton_Some in Hj as [Hj <-].
    destruct (Hr _ _ Ht) as [?|[? ?]]; [by left|right; split; [done|lia]].
Qed.

Lemma winner_snoc q routes total m route :
  winner q routes 0 total m ->
  (forall total' name', route_total route q = Some (total', name') ->
     (total' < total)%Z \/ (total' = total /\ (mr_index m <= length routes)%nat)) ->
  winner q (routes ++ [route]) 0 total m.
Proof.
  intros (H1 & H2 & H3 & H4) Hr. split_and!; auto using beats_snoc.
  by apply lookup_app_l_Some.
Qed.

Lemma winner_last q routes route total name :
  route_total route q = Some (total, name) ->
  (forall j r total' name', routes !! j = Some r -> route_total r q = Some (total', name') -> (total' < total)%Z) ->
  winner q (routes ++ [route]) 0 total (mkMatched (length routes) route name).
Proof.
  intros Ht Hlt. split_and!; simpl; [lia| |done|].
  - rewrite Nat.sub_0_r. by apply list_lookup_middle.
  - apply beats_snoc.
    + intros j r total' name' Hj Hr. left. eauto.
    + intros total' name' Hr. rewrite Ht in Hr. injection Hr as <- <-. right. split; [done|lia].
Qed.

Lemma winner_index q routes total m : winner q routes 0 total m -> (mr_index m < length routes)%nat.
Proof. intros (_ & Hl & _). rewrite Nat.sub_0_r in Hl. by eapply lookup_lt_Some. Qed.

Lemma tracks_step q seen route best :
  tracks q seen best ->
  tracks q (seen ++ [route])
    match route_total route q with
    | None => best
    | Some (total, name) =>
        if match best with None => true | Some (s, _) => (s <? total)%Z end
        then Some (total, mkMatched (length seen) route name) else best
    end.
Proof.
  destruct (route_total route q) as [[total name]|] eqn:Ht; destruct best as [[s m]|]; simpl; intros Hb.
  - destruct (Z.ltb_spec s total) as [Hlt|Hge]; simpl.
    + apply winner_last; [done|]. intros j r total' name' Hj Hr.
      destruct Hb as (_ & _ & _ & Hb). destruct (Hb _ _ _ _ Hj Hr) as [?|[? ?]]; lia.
    + apply winner_snoc; [done|]. intros total' name' Hr. rewrite Ht in Hr. injection Hr as <- <-.
      apply winner_index in Hb. destruct (Z.eq_dec total s); [right|left]; lia.
  - apply winner_last; [done|]. intros j r total' name' Hj Hr.
    eapply Forall_lookup_1 in Hb; [|done]. congruence.
  - apply winner_snoc; [done|]. congruence.
  - apply Forall_app; auto.
Qed.

Lemma resolve_loop_tracks q routes : forall seen best,
  tracks q seen best -> tracks q (seen ++ routes) (resolve_loop q (length seen) routes best).
Proof.
  induction routes as [|route routes IH]; intros seen best Hb; simpl; [by rewrite app_nil_r|].
  apply (tracks_step q seen route) in Hb. apply IH in Hb.
  rewrite length_app, Nat.add_1_r, <- app_assoc in Hb. done.
Qed.

(** Claim C36. [resolve_route_best]: a request resolves to a route exactly when that route
    matches it with a score no route exceeds and no earlier route equals, and to none
    exactly when no route matches. *)
Theorem resolve_route_best (config : PolicyConfig) q :
  (forall m, resolve_route config q = Some m <-> exists total, winner q (cf_routes config) 0 total m)
  /\ (resolve_route config q = None <-> unmatched q (cf_routes config)).
Proof.
  pose proof (resolve_loop_tracks q (cf_routes config) [] None (Forall_nil_2 _)) as Ht. simpl in Ht.
  unfold resolve_route. destruct (resolve_loop q 0 (cf_routes config) None) as [[total m]|]; simpl in *.
  - split; [|split; [done|]].
    + intros m'. split; [intros [= <-]; eauto|]. intros (total' & Hm'). f_equal.
      destruct Ht as (_ & L1 & T1 & B1), Hm' as (_ & L2 & T2 & B2).
      rewrite Nat.sub_0_r in *.
      destruct (B1 _ _ _ _ L2 T2), (B2 _ _ _ _ L1 T1); try lia.
      assert (Hi : mr_index m = mr_index m') by lia.
      destruct m, m'; simpl in *; subst. congruence.
    + intros Hu. destruct Ht as (_ & L & T & _). eapply Forall_lookup_1 in Hu; [|done]. congruence.
  - split; [|by split].
    intros m'. split; [done|]. intros (total' & _ & L & T & _).
    eapply Forall_lookup_1 in Ht; [|done]. congruence.
Qed.
End Loop.

(** ** The order of [http:] routes *)

Lemma dedup_methods_elem x l : x ∈ dedup l <-> x ∈ l.
Proof.
  induction l as [|y [|z l] IH]; [done|done|].
  change (dedup (y :: z :: l)) with (if String.eqb y z then dedup (z :: l) else y :: dedup (z :: l)).
  destruct (String.eqb_spec y z) as [->|Hne]; [rewrite IH; set_solver|].
  rewrite !(elem_of_cons _ x y), IH. done.
Qed.

Lemma dedup_nodup l : StronglySorted string_le l -> NoDup (dedup l).
Proof.
  induction 1 as [|y l Hs IH Hall]; [constructor|]. destruct l as [|z l]; [by apply NoDup_singleton|].
  change (dedup (y :: z :: l)) with (if String.eqb y z then dedup (z :: l) else y :: dedup (z :: l)).
  destruct (String.eqb_spec y z) as [->|Hne]; [done|].
  constructor; [|done]. rewrite dedup_methods_elem. intros Hy. apply Hne. apply (anti_symm string_le).
  - by inversion Hall.
  - apply elem_of_cons in Hy as [->|Hy]; [destruct (total string_le z z); done|].
    inversion Hs as [|? ? _ Hz]. rewrite Forall_forall in Hz. by apply Hz.
Qed.

(** The methods a narrowing names, up to case. *)
Definition distinct_methods (m : StringOrList) : gset string := list_to_set (map to_ascii_uppercase (as_names m)).

Lemma normalized_methods_length m methods :
  normalized_methods (Some m) = Some methods -> length methods = size (distinct_methods m).
Proof.
  simpl. intros [= <-]. set (sorted := merge_sort string_le (map to_ascii_uppercase (as_names m))).
  assert (Hn : NoDup (dedup sorted)) by (apply dedup_nodup, (StronglySorted_merge_sort string_le)).
  rewrite <- (size_list_to_set (C := gset string)) by done. f_equal.
  apply set_eq. intros x. unfold distinct_methods. rewrite !elem_of_list_to_set, dedup_methods_elem.
  unfold sorted. by rewrite merge_sort_Permutation.
Qed.

(** The key an [http:] route orders by: an exact path, the length of the prefix, a scope of
    its own, and how few methods it accepts (with no difference past fifty). *)
Record http_rank : Type := mkRank { rk_exact : Z; rk_length : Z; rk_scoped : Z; rk_narrow : Z }.

Definition route_rank (route : RouteEntry) (selector : HttpSelector) : http_rank :=
  mkRank (match path_prefix selector with Some _ => 0 | None => 1 end)
    (match path_prefix selector with Some prefix => path_prefix_specificity prefix | None => 0 end)
    (match route_scope route with Some _ => 1 | None => 0 end)
    (match http_method selector with
     | Some m => 51 - Z.min (Z.of_nat (size (distinct_methods m))) 50
     | None => 0
     end).

Definition rank_lt (a b : http_rank) : Prop :=
  (rk_exact a < rk_exact b
   \/ rk_exact a = rk_exact b /\
      (rk_length a < rk_length b
       \/ rk_length a = rk_length b /\
          (rk_scoped a < rk_scoped b \/ rk_scoped a = rk_scoped b /\ rk_narrow a < rk_narrow b)))%Z.

(** Every prefix is shorter than this many bytes. *)
Definition longest_prefix : Z := 2 ^ 53.

Definition prefix_bounded (selector : HttpSelector) : Prop :=
  match path_prefix selector with Some prefix => (str_len prefix < longest_prefix)%Z | None => True end.

Lemma strip_last_length c s t : strip_last c s = Some t -> String.length s = S (String.length t).
Proof.
  revert t. induction s as [|a s IH]; intros t; [done|]. destruct s as [|b s].
  - simpl. destruct (Ascii.eqb a c); [|done]. by intros [= <-].
  - change (strip_last c (String a (String b s))) with (String a <$> strip_last c (String b s)).
    destruct (strip_last c (String b s)) as [u|] eqn:E; [|done]. intros [= <-]. simpl.
    f_equal. by apply IH.
Qed.

Lemma path_prefix_specificity_bounds prefix :
  (str_len prefix < longest_prefix)%Z -> (1 <= path_prefix_specificity prefix < longest_prefix)%Z.
Proof.
  unfold path_prefix_specificity, without_trailing_slash, str_len. intros Hb.
  destruct (strip_last "/" prefix) as [t|] eqn:E; simpl default.
  - apply strip_last_length in E. destruct (String.eqb_spec t "") as [->|Hne]; [unfold longest_prefix; lia|].
    destruct t; [done|]. simpl in *. lia.
  - destruct (String.eqb_spec prefix "") as [->|Hne]; [unfold longest_prefix; lia|].
    destruct prefix; [done|]. simpl in *. lia.
Qed.

Lemma method_bonus_narrow accepted method :
  http_method_matches accepted method = true ->
  method_narrowing_bonus accepted
  = match accepted with Some m => (51 - Z.min (Z.of_nat (size (distinct_methods m))) 50)%Z | None => 0%Z end
  /\ (0 <= method_narrowing_bonus accepted <= 50)%Z.
Proof.
  destruct accepted as [m|]; [|unfold method_narrowing_bonus; simpl; lia].
  destruct method as [meth|]; [|done]. simpl http_method_matches. intros Hm.
  assert (Hne : size (distinct_methods m) <> 0%nat).
  { apply existsb_exists in Hm as (name & Hin & _). apply list_elem_of_In in Hin.
    rewrite size_non_empty_iff. intros He. apply (not_elem_of_empty (C := gset string) (to_ascii_uppercase name)).
    rewrite <- He. unfold distinct_methods. apply elem_of_list_to_set.
    apply list_elem_of_fmap. eauto. }
  unfold method_narrowing_bonus. destruct (normalized_methods (Some m)) as [methods|] eqn:E; [|done].
  apply normalized_methods_length in E. rewrite E.
  unfold saturating_sub, SPECIFICITY_METHOD_NARROWED. lia.
Qed.

(** The score of a matching [http:] route from its rank. *)
Lemma http_total_of_rank `{WildMatch} route selector q total name :
  rt_http route = Some selector -> q_entity_type q = ENTITY_HTTP -> prefix_bounded selector ->
  route_total route q = Some (total, name) ->
  let k := route_rank route selector in
  total = (rk_exact k * SPECIFICITY_EXACT_PATH + rk_length k * 1000 + rk_scoped k * 100 + rk_narrow k)%Z
  /\ (rk_exact k = 0 /\ 1 <= rk_length k < longest_prefix \/ rk_exact k = 1 /\ rk_length k = 0)%Z
  /\ (0 <= rk_scoped k <= 1)%Z /\ (0 <= rk_narrow k <= 50)%Z.
Proof.
  intros Hh Hq Hb Ht. unfold route_total in Ht.
  assert (Hs : exists s, scope_bonus route q = Some (100 * s)%Z
                         /\ s = match route_scope route with Some _ => 1%Z | None => 0%Z end).
  { unfold scope_bonus in *. destruct (route_scope route) as [rs|]; [|by exists 0%Z].
    destruct (q_scope q) as [rq|]; [|done]. destruct (String.eqb rs rq); [|done]. by exists 1%Z. }
  destruct Hs as (s & Hs & Hsv). rewrite Hs in Ht. unfold score_route_match in Ht.
  rewrite Hq, String.eqb_refl, Hh in Ht. unfold score_http_match in Ht.
  destruct (starts_slash (q_path q)); [|done].
  destruct (http_method_matches (http_method selector) (q_method q)) eqn:Hm; [|done].
  apply method_bonus_narrow in Hm as [Hm1 Hm2]. simpl negb in Ht. cbn [orb] in Ht.
  unfold route_rank; cbn [rk_exact rk_length rk_scoped rk_narrow]. rewrite <- Hm1, <- Hsv.
  assert (Hsr : (0 <= s <= 1)%Z) by (destruct (route_scope route); lia).
  unfold saturating_add, SPECIFICITY_PATH_PREFIX_STEP, saturating_mul in Ht.
  unfold prefix_bounded in Hb. destruct (path_prefix selector) as [prefix|].
  - apply path_prefix_specificity_bounds in Hb. destruct (path_prefix_matches _ _); [|done].
    simpl fmap in Ht. destruct (matched_http_name _ _); [|done]. injection Ht as <- <-.
    unfold longest_prefix in *. unfold usize_max.
    split_and!; try lia.
  - destruct (matched_exact_path _ _); [|done]. simpl fmap in Ht.
    destruct (matched_http_name _ _); [|done]. injection Ht as <- <-.
    change SPECIFICITY_EXACT_PATH with 9223372036854775807%Z in *. unfold usize_max. split_and!; try lia.
Qed.

(** [http_score_lexicographic]: of two [http:] routes that match one request, the
    greater score is the greater tuple of (exact path, prefix length, scope, fewer
    methods): the machine-width arithmetic never lets a tiebreaker outweigh what is before
    it, nor wraps, for prefixes shorter than 2^53 bytes. *)
Theorem http_score_lexicographic `{WildMatch} q route1 route2 selector1 selector2 total1 total2 name1 name2
  (Hq : q_entity_type q = ENTITY_HTTP)
  (H1 : rt_http route1 = Some selector1) (H2 : rt_http route2 = Some selector2)
  (B1 : prefix_bounded selector1) (B2 : prefix_bounded selector2)
  (T1 : route_total route1 q = Some (total1, name1)) (T2 : route_total route2 q = Some (total2, name2)) :
  (total1 < total2)%Z <-> rank_lt (route_rank route1 selector1) (route_rank route2 selector2).
Proof.
  destruct (http_total_of_rank _ _ _ _ _ H1 Hq B1 T1) as (-> & L1 & S1 & N1).
  destruct (http_total_of_rank _ _ _ _ _ H2 Hq B2 T2) as (-> & L2 & S2 & N2).
  unfold rank_lt, longest_prefix in *. change SPECIFICITY_EXACT_PATH with 9223372036854775807%Z.
  lia.
Qed.

(** A prefix route and a narrowed one, on one request. *)
Definition example_http_route (selector : HttpSelector) : RouteEntry :=
  mkRouteEntry None None None None (Some selector) None None [] None None None.

Definition broad_files : HttpSelector := HsMatch (mkHttpMatch None (Some "/v1/files") None).
Definition narrow_files : HttpSelector := HsMatch (mkHttpMatch None (Some "/v1/files") (Some (SList ["GET"; "get"]))).


(** ** Names in a checked configuration *)

Section Names.
Context `{Platform, WildMatch, HashOrder}.

Lemma try_enum_ok {A E} (f : nat -> A -> result unit E) l : forall i,
  try_enum f i l = Ok tt -> forall j x, l !! j = Some x -> f (i + j)%nat x = Ok tt.
Proof.
  induction l as [|y l IH]; intros i Hok j x Hj; [done|]. simpl in Hok.
  destruct (f i y) as [[]|] eqn:Ef; [|done]. destruct j as [|j]; simpl in Hj.
  - injection Hj as <-. by rewrite Nat.add_0_r.
  - rewrite <- Nat.add_succ_comm. eauto.
Qed.

Lemma claim_names_ok i et scope names : forall claimed claimed',
  claim_names i et scope names claimed = Ok claimed' ->
  claimed ⊆ claimed' /\ (forall name, name ∈ names -> claimed' !! (et, scope, name) = Some i).
Proof.
  induction names as [|name names IH]; intros claimed claimed'; simpl.
  - intros [= <-]. split; [done|]. intros ? Hn. by apply not_elem_of_nil in Hn.
  - destruct (claimed !! (et, scope, name)) as [first|] eqn:E.
    + destruct (Nat.eqb_spec first i) as [->|]; [|done]. intros Hok. apply IH in Hok as [Hsub Hin].
      split; [done|]. intros x [->|Hx]%elem_of_cons; [|auto]. by eapply lookup_weaken.
    + intros Hok. apply IH in Hok as [Hsub Hin]. split; [etrans; [by apply insert_subseteq|done]|].
      intros x [->|Hx]%elem_of_cons; [|auto]. eapply lookup_weaken; [apply lookup_insert_eq|done].
Qed.

(** What a route that passed its turn of the loop has. *)
Definition route_checked (i : nat) (route : RouteEntry) (claimed : ClaimedNames) : Prop :=
  (exists m, declared_matchers route = [m])
  /\ forall et names name, route_entity_identity route = Some (et, names) -> name ∈ names ->
       claimed !! (et, route_scope route, name) = Some i.

Lemma validate_route_ok config i route claimed claimed' :
  validate_route config i route claimed = Ok claimed' -> claimed ⊆ claimed' /\ route_checked i route claimed'.
Proof.
  unfold validate_route, route_checked. destruct (declared_matchers route) as [|m [|]]; [done| |done].
  destruct (match rt_http route with Some http => defect http | None => None end); [done|].
  destruct (route_entity_identity route) as [[et names]|].
  - destruct (claim_names i et (route_scope route) names claimed) as [c|] eqn:E; [|done].
    apply claim_names_ok in E as [Hsub Hin]. intros Hok. peel_ok Hok. injection Hok as <-.
    split; [done|]. split; [eauto|]. intros ? ? ? [= <- <-]. auto.
  - intros Hok. peel_ok Hok. injection Hok as <-. split; [done|]. split; [eauto|done].
Qed.

Lemma validate_routes_ok config routes : forall i claimed claimed',
  validate_routes config i routes claimed = Ok claimed' ->
  claimed ⊆ claimed' /\ forall j route, routes !! j = Some route -> route_checked (i + j)%nat route claimed'.
Proof.
  induction routes as [|route routes IH]; intros i claimed claimed' Hok; simpl in Hok.
  - injection Hok as <-. split; [done|]. by intros j ? ?.
  - destruct (validate_route config i route claimed) as [c|] eqn:E; [|done].
    apply validate_route_ok in E as [Hsub (Hm & Hc)]. apply IH in Hok as [Hsub' Hrest].
    split; [by etrans|]. intros [|j] r Hj; simpl in Hj.
    + injection Hj as <-. rewrite Nat.add_0_r. split; [done|].
      intros et names name Hid Hn. eapply lookup_weaken; eauto.
    + rewrite <- Nat.add_succ_comm. auto.
Qed.

(** A matching route's name is one it contributes, under the request's entity type. *)
Lemma score_name_in_identity route q total name m :
  declared_matchers route = [m] -> score_route_match route q = Some (total, name) ->
  exists names, route_entity_identity route = Some (q_entity_type q, names) /\ name ∈ names.
Proof.
  unfold declared_matchers, score_route_match, matcher_for, route_entity_identity. intros Hone Hs.
  destruct (String.eqb_spec (q_entity_type q) ENTITY_HTTP) as [->|_].
  - destruct (rt_http route) as [selector|]; [|done].
    destruct (rt_tool route), (rt_resource route), (rt_prompt route), (rt_llm route); simpl in Hone; try done.
    eexists; split; [done|]. destruct (score_http_match _ _ _); [|done].
    unfold matched_http_name, matched_exact_path, http_selector_names in *.
    destruct (path_prefix selector); simpl in Hs; [simplify_eq; by apply list_elem_of_singleton|].
    destruct (List.find _ _) as [declared|] eqn:E; [|done]. injection Hs as <- <-.
    apply find_some in E as [Hin _]. apply list_elem_of_fmap. exists declared. split; [done|].
    by apply list_elem_of_In.
  - assert (Hsel : forall s, (fun name => (total, name)) <$> matched_selector_name s (q_name q) = Some (total, name) ->
                             name ∈ selector_names s).
    { intros [p|l]; simpl; [intros [= <-]; by apply list_elem_of_singleton|].
      destruct (List.find _ _) as [n|] eqn:E; [|done]. intros [= <-].
      apply find_some in E as [Hin _]. by apply list_elem_of_In. }
    destruct (String.eqb_spec (q_entity_type q) ENTITY_TOOL) as [->|_];
      [|destruct (String.eqb_spec (q_entity_type q) ENTITY_RESOURCE) as [->|_];
        [|destruct (String.eqb_spec (q_entity_type q) ENTITY_PROMPT) as [->|_];
          [|destruct (String.eqb_spec (q_entity_type q) ENTITY_LLM) as [->|_]; [|done]]]].
    all: destruct (rt_tool route), (rt_resource route), (rt_prompt route), (rt_llm route), (rt_http route);
      simpl in Hone; try done;
      destruct (score_entity_match _ _) as [sc|]; try done;
      (eexists; split; [done|]); apply Hsel;
      match goal with |- ?f <$> ?o = _ => destruct o; simpl in *; congruence end.
Qed.

Lemma validate_config_routes fips hooks config :
  validate_config fips hooks config = Ok tt -> is_policy (es_dispatch (cf_engine_settings config)) = true ->
  exists claimed, forall j route, cf_routes config !! j = Some route -> route_checked j route claimed.
Proof.
  unfold validate_config. intros Hok Hp. rewrite Hp in Hok.
  peel_ok Hok. unfold validate_policy_mode in Hok.
  destruct (validate_authentication _ _ _); [|done]. destruct (try_each _ _); [|done].
  destruct (validate_routes config 0 (cf_routes config) ∅) as [claimed|] eqn:E; [|done].
  exists claimed. apply validate_routes_ok in E as [_ E]. exact E.
Qed.

Lemma resolve_route_winner config q m :
  resolve_route config q = Some m -> exists total, winner q (cf_routes config) 0 total m.
Proof.
  pose proof (resolve_loop_tracks q (cf_routes config) [] None (Forall_nil_2 _)) as Ht. simpl in Ht.
  unfold resolve_route. destruct (resolve_loop q 0 (cf_routes config) None) as [[total m']|]; [|done].
  simpl. intros [= <-]. eauto.
Qed.

(** The key a resolved request is annotated under. *)
Definition annotation_key (q : RouteQuery) (m : MatchedRoute) : string * option string * string :=
  (q_entity_type q, route_scope (mr_route m), mr_name m).

Lemma resolved_claims config claimed q m :
  (forall j route, cf_routes config !! j = Some route -> route_checked j route claimed) ->
  resolve_route config q = Some m -> claimed !! annotation_key q m = Some (mr_index m)
  /\ cf_routes config !! mr_index m = Some (mr_route m).
Proof.
  intros Hc Hr. apply resolve_route_winner in Hr as (total & _ & Hl & Ht & _). rewrite Nat.sub_0_r in Hl.
  split; [|done]. destruct (Hc _ _ Hl) as [[one Hone] Hnames]. unfold route_total in Ht.
  destruct (scope_bonus _ _); [|done]. destruct (score_route_match _ _) as [[base name]|] eqn:E; [|done].
  injection Ht as _ Hname. destruct (score_name_in_identity _ _ _ _ _ Hone E) as (names & Hid & Hin).
  unfold annotation_key. rewrite <- Hname. eauto.
Qed.

(** [resolved_name_identifies_route]: in a configuration that loads in policy mode, two
    requests that resolve to the same name under the same entity type and route scope
    resolve to the same route, so annotations keyed by that triple reach one route. *)
Theorem resolved_name_identifies_route fips hooks config q1 q2 m1 m2
  (Hok : validate_config fips hooks config = Ok tt)
  (Hmode : is_policy (es_dispatch (cf_engine_settings config)) = true)
  (R1 : resolve_route config q1 = Some m1) (R2 : resolve_route config q2 = Some m2)
  (Hkey : annotation_key q1 m1 = annotation_key q2 m2) : m1 = m2.
Proof.
  destruct (validate_config_routes _ _ _ Hok Hmode) as [claimed Hc].
  destruct (resolved_claims _ _ _ _ Hc R1) as [C1 L1], (resolved_claims _ _ _ _ Hc R2) as [C2 L2].
  rewrite Hkey in C1. assert (Hi : mr_index m1 = mr_index m2) by congruence.
  unfold annotation_key in Hkey. destruct m1, m2; simpl in *. simplify_eq. done.
Qed.
End Names.

(** Two tool routes, one a glob. *)
Definition example_tool_route (pattern : string) : RouteEntry :=
  mkRouteEntry (Some (SSingle pattern)) None None None None None None [] None None None.

Definition empty_global : GlobalConfig := mkGlobal ∅ ∅ None None None.

Definition example_config (routes : list RouteEntry) : PolicyConfig :=
  mkPolicyConfig empty_global [] ∅ routes (mkSecrets ∅ ∅) (mkSettings ModePolicy false None None).

Definition star_wildmatch : WildMatch := {| wildmatch := glob_match |}.

(** ** What survives [replace_inherited]

    The steps in force for a route are those of the layers from the last one that replaces;
    the load-time report names a route exactly when inherited authentication is lost. *)

(** ** The layers in force *)

Section InForce.
Context {T : Type}.
Variable replaces : T -> bool.

Definition any_replaces (layers : list (SectionSource * T)) : bool := existsb (fun '(_, b) => replaces b) layers.

(** The layers from the last one that replaces; all of them when none does. *)
Fixpoint in_force (layers : list (SectionSource * T)) : list (SectionSource * T) :=
  match layers with
  | [] => []
  | l :: rest => if any_replaces rest then in_force rest else l :: rest
  end.

Lemma in_force_sublist layers x : x ∈ in_force layers -> x ∈ layers.
Proof.
  induction layers as [|l layers IH]; simpl; [done|]. destruct (any_replaces layers); [|done].
  intros Hx. apply elem_of_cons. auto.
Qed.

Lemma in_force_none layers : any_replaces layers = false -> in_force layers = layers.
Proof. destruct layers as [|[s b] layers]; [done|]. simpl. intros Hn. split_bools. by rewrite H0. Qed.

(** A loop that clears at a layer that replaces and then adds that layer's content runs over
    the layers in force alone. *)
Lemma fold_in_force {A} (clear : A) (add : SectionSource -> T -> A -> A) layers : forall acc,
  fold_left (fun acc '(source, block) => add source block (if replaces block then clear else acc)) layers acc
  = fold_left (fun acc '(source, block) => add source block acc) (in_force layers)
      (if any_replaces layers then clear else acc).
Proof.
  induction layers as [|[s b] layers IH]; intros acc; [done|]. simpl. rewrite IH.
  destruct (any_replaces layers) eqn:E; [by rewrite orb_true_r|].
  rewrite in_force_none by done. rewrite orb_false_r. done.
Qed.
End InForce.

(** ** Step lists *)

Lemma fold_append {A B} (f : B -> list A) (l : list B) : forall acc,
  fold_left (fun acc x => acc ++ f x) l acc = acc ++ flat_map f l.
Proof.
  induction l as [|x l IH]; intros acc; simpl; [by rewrite app_nil_r|]. by rewrite IH, <- app_assoc.
Qed.

Lemma stack_steps_in_force {A} (contribute : SectionSource -> RouteIdentityConfig -> list A) layers :
  stack_steps contribute layers = flat_map (fun '(s, b) => contribute s b) (in_force ri_replace_inherited layers).
Proof.
  unfold stack_steps.
  rewrite (fold_in_force ri_replace_inherited [] (fun s b acc => acc ++ contribute s b)).
  replace (if any_replaces ri_replace_inherited layers then [] else []) with (@nil A) by (by case_match).
  rewrite <- (app_nil_l (flat_map _ _)), <- fold_append.
  generalize (@nil A). induction (in_force _ layers) as [|[s b] l IH]; intros acc; simpl; auto.
Qed.

(** The names that stack from [steps] over [layers]. *)
Definition stack_names (steps : list string) (layers : list (SectionSource * RouteIdentityConfig)) : list string :=
  fold_left (fun steps '(_, block) => (if ri_replace_inherited block then [] else steps) ++ step_names block) layers steps.

(** Every step a layer declares. *)
Definition all_names (layers : list (SectionSource * RouteIdentityConfig)) : list string :=
  flat_map (fun '(_, block) => step_names block) layers.

Lemma stack_names_length layers : forall steps, (length (stack_names steps layers) <= length steps + length (all_names layers))%nat.
Proof.
  induction layers as [|[s b] layers IH]; intros steps; simpl; [lia|].
  rewrite length_app. etrans; [apply IH|]. rewrite length_app. destruct (ri_replace_inherited b); simpl; lia.
Qed.

(** A layer that only a section above the route may use to replace. *)
Definition reported (l : SectionSource * RouteIdentityConfig) : Prop :=
  ri_replace_inherited l.2 = true -> above_the_route l.1 = true.

Lemma dropped_above_exact layers : forall steps,
  Forall reported layers ->
  dropped_above steps layers = None <-> stack_names steps layers = steps ++ all_names layers.
Proof.
  induction layers as [|[s b] layers IH]; intros steps Hr; simpl; [by rewrite app_nil_r|].
  inversion Hr as [|? ? Hb Hr']; subst. unfold reported in Hb; simpl in Hb.
  destruct (ri_replace_inherited b) eqn:Hrep.
  - rewrite (Hb eq_refl). simpl. destruct steps as [|st steps]; simpl; [by apply IH|].
    split; [done|]. intros Heq. exfalso. apply (f_equal length) in Heq.
    pose proof (stack_names_length layers (step_names b)) as Hle.
    simpl in Heq. rewrite !length_app in Heq. lia.
  - rewrite andb_false_r. simpl. rewrite IH by done. by rewrite app_assoc.
Qed.

Lemma stack_steps_names layers :
  map rp_name (fold_step_layers layers) = stack_names [] layers.
Proof.
  unfold fold_step_layers, stack_steps, stack_names. rewrite map_map.
  change (fun x => rp_name (resolved_step x)) with rs_name.
  enough (Hg : forall acc, map rs_name (fold_left (fun steps '(_, block) =>
      (if ri_replace_inherited block then [] else steps) ++ ri_steps block) layers acc)
    = fold_left (fun steps '(_, block) => (if ri_replace_inherited block then [] else steps) ++ step_names block)
        layers (map rs_name acc)) by apply (Hg []).
  induction layers as [|[s b] layers IH]; intros acc; simpl; [done|]. rewrite IH. f_equal.
  rewrite map_app. by destruct (ri_replace_inherited b).
Qed.

(** ** The layers of a route *)

Lemma bundle_layers_sources {T} (from : PolicyGroup -> option T) bundles tags : forall joined source block,
  (source, block) ∈ bundle_layers from bundles joined tags ->
  exists tag g, source = SoBundle tag /\ bundles !! tag = Some g /\ from g = Some block.
Proof.
  induction tags as [|tag tags IH]; intros joined source block; simpl; [by intros ?%not_elem_of_nil|].
  destruct (contains_string joined tag); [eauto|]. rewrite elem_of_app. intros [Hin|Hin]; [|eauto].
  unfold layer, section_of in Hin. destruct (bundles !! tag) as [g|] eqn:Eg; [|by apply not_elem_of_nil in Hin].
  destruct (from g) eqn:Ef; [|by apply not_elem_of_nil in Hin].
  apply list_elem_of_singleton in Hin. simplify_eq. eauto.
Qed.

(** Whether a route's own block replaces. *)
Definition route_replaces (route : RouteEntry) : bool := is_some_and ri_replace_inherited (rt_authentication route).

Lemma auth_layers_split config route :
  route_replaces route = false ->
  exists tail, authentication_layers config (Some route) = layer SoGlobal (gl_authentication (cf_global config)) ++ tail
               /\ Forall reported tail.
Proof.
  intros Hr. unfold authentication_layers, section_layers. eexists. split; [done|].
  rewrite !Forall_app. split_and!.
  - destruct (entity_type_of _ _); [|done]. unfold layer. case_match; [|done]. by apply Forall_singleton.
  - apply Forall_forall. intros [s b] Hin. apply bundle_layers_sources in Hin as (tag & g & -> & _). by unfold reported.
  - unfold route_replaces in Hr. unfold layer. destruct (rt_authentication route) as [b|]; [|done].
    apply Forall_singleton. unfold reported. simpl in *. congruence.
Qed.

(** No step a layer declares is lost on this route. *)
Definition keeps_all_steps (config : PolicyConfig) (route : RouteEntry) : Prop :=
  map rp_name (resolve_identity_plugins_for_route config (Some (mkMatched 0 route "")))
  = all_names (authentication_layers config (Some route)).

Lemma report_route config route :
  route_replaces route = false ->
  dropped_above [] (authentication_layers config (Some route)) = None <-> keeps_all_steps config route.
Proof.
  intros Hr. destruct (auth_layers_split config route Hr) as (tail & Hl & Ht).
  unfold keeps_all_steps, resolve_identity_plugins_for_route. cbn [fmap option_fmap option_map mr_route].
  rewrite stack_steps_names, Hl. unfold layer. destruct (gl_authentication (cf_global config)) as [g|]; simpl.
  - replace (if ri_replace_inherited g then [] else []) with (@nil string) by (by case_match). simpl.
    by apply dropped_above_exact.
  - by rewrite (dropped_above_exact tail []).
Qed.

Lemma imap_pair_lookup {A} (l : list A) i x : (i, x) ∈ imap pair l <-> l !! i = Some x.
Proof.
  rewrite list_elem_of_lookup. split.
  - intros [j Hj]. rewrite list_lookup_imap in Hj. destruct (l !! j) as [y|] eqn:E; [|done].
    simpl in Hj. by simplify_eq.
  - intros Hl. exists i. rewrite list_lookup_imap, Hl. done.
Qed.

Lemma omap_nil_iff {A B} (f : A -> option B) l : omap f l = [] <-> Forall (fun x => f x = None) l.
Proof.
  induction l as [|x l IH]; simpl; [split; auto|]. rewrite Forall_cons.
  destruct (f x) eqn:E; [split; [done|intros [? ?]; congruence]|]. rewrite IH. tauto.
Qed.

(** [drop_report_exact]: the load-time report is empty exactly when every route that does
    not discard its inheritance itself runs all the authentication steps declared at every
    level that reaches it: a section cannot silently remove one. *)
Theorem drop_report_exact config :
  dropped_inherited_authentication config = []
  <-> Forall (fun route => route_replaces route = true \/ keeps_all_steps config route) (cf_routes config).
Proof.
  unfold dropped_inherited_authentication. rewrite omap_nil_iff, !Forall_forall. split.
  - intros Hn route Hin. apply list_elem_of_lookup in Hin as [i Hi].
    destruct (route_replaces route) eqn:Hr; [by left|right].
    apply report_route; [done|]. specialize (Hn (i, route)). rewrite imap_pair_lookup in Hn.
    specialize (Hn Hi). unfold route_replaces in Hr. cbn beta iota in Hn. rewrite Hr in Hn.
    destruct (dropped_above _ _) as [[? ?]|]; done.
  - intros Hk [i route] Hin. apply imap_pair_lookup in Hin.
    destruct (is_some_and ri_replace_inherited (rt_authentication route)) eqn:Hr; [done|].
    destruct (Hk route) as [Ht|Hkeep]; [by eapply list_elem_of_lookup_2| |].
    + unfold route_replaces in Ht. congruence.
    + apply report_route in Hkeep; [|done]. by rewrite Hkeep.
Qed.
