(* ===== verification/ContractProps.v ===== *)
(** * The accumulated contract and what it does to the wire

    The contract of a route is the most specific entry per header of the layers in force,
    and applying it makes what stands under a removed name independent of the client. What the
    parser of sources accepts, and what a contract that loads keeps. *)

From Stdlib Require Import Ascii String.
From S2P Require Import Prelude RustStr F64 Json Platform Constraint Step Routing ExtData Extensions Stages.
From S2P Require Import ConfigKeys Hooks Assertions Config Sections ConfigCheck RouteSelectProps.

(** ** The most specific entry wins *)

Section Accumulation.
Context `{Platform, WildMatch}.
Implicit Types (h : ResolvedHeader) (layers : list (SectionSource * DirectionBlock)).

(** A header without the record of what it replaced. *)
Definition erase h : ResolvedHeader :=
  mkResolved (rh_name h) (rh_lowercase h) (rh_source h) (rh_on_missing h) (rh_encode h) (rh_declared_in h) (rh_level h)
    None.

Definition named (n : string) h : bool := String.eqb (rh_lowercase h) n.

Definition header_for (n : string) (hs : list ResolvedHeader) : option ResolvedHeader := erase <$> List.find (named n) hs.

(** The entries of [layers], in the order they stack. *)
Definition entries_in layers : list ResolvedHeader :=
  flat_map (fun '(s, b) => map (resolved_entry s) (db_headers b)) layers.

Definition strips_in layers : list StripPattern := flat_map (fun '(_, b) => db_strip b) layers.

Definition add_layer (s : SectionSource) (b : DirectionBlock) (c : ResolvedContract) : ResolvedContract :=
  mkContract (fold_left (fun hs e => put_header (resolved_entry s e) hs) (db_headers b) (rc_headers c))
    (fold_left (fun strip p => put_strip p strip) (db_strip b) (rc_strip c)).

Definition in_force_layers layers : list (SectionSource * DirectionBlock) := in_force db_replace_inherited layers.

Lemma add_layers_flat layers : forall c,
  fold_left (fun c '(s, b) => add_layer s b c) layers c
  = mkContract (fold_left (fun hs h => put_header h hs) (entries_in layers) (rc_headers c))
      (fold_left (fun strip p => put_strip p strip) (strips_in layers) (rc_strip c)).
Proof.
  induction layers as [|[s b] layers IH]; intros c; simpl; [by destruct c|].
  rewrite IH. simpl. unfold entries_in, strips_in; simpl. rewrite !fold_left_app. f_equal. f_equal.
  generalize (rc_headers c). induction (db_headers b) as [|e es IHe]; intros hs; simpl; auto.
Qed.

Lemma accumulate_flat layers :
  accumulate layers
  = mkContract (fold_left (fun hs h => put_header h hs) (entries_in (in_force_layers layers)) [])
      (fold_left (fun strip p => put_strip p strip) (strips_in (in_force_layers layers)) []).
Proof.
  pose proof (fold_in_force db_replace_inherited (mkContract [] []) add_layer layers (mkContract [] [])) as Hf.
  assert (Hs : accumulate layers = fold_left (fun c '(s, b) =>
            add_layer s b (if db_replace_inherited b then mkContract [] [] else c)) layers (mkContract [] [])) by done.
  rewrite Hs, Hf. rewrite add_layers_flat. by case_match.
Qed.

Lemma header_for_put n h hs :
  header_for n (put_header h hs) = if named n h then Some (erase h) else header_for n hs.
Proof.
  unfold header_for. induction hs as [|held hs IH]; simpl; [by case_match|].
  destruct (String.eqb_spec (rh_lowercase held) (rh_lowercase h)) as [He|Hne]; simpl.
  - change (named n (overriding held h)) with (named n h).
    destruct (named n h) eqn:Hn; [done|]. unfold named in *. by rewrite He, Hn.
  - destruct (named n held) eqn:Hh; [|by rewrite IH]. simpl.
    destruct (named n h) eqn:Hn; [|done]. unfold named in *.
    apply String.eqb_eq in Hh, Hn. congruence.
Qed.

Lemma last_filter_cons n h hs :
  last (List.filter (named n) (h :: hs))
  = match last (List.filter (named n) hs) with Some x => Some x | None => if named n h then Some h else None end.
Proof. simpl. destruct (named n h); [|by destruct (last _)]. rewrite last_cons. done. Qed.

Lemma header_for_fold n es : forall hs,
  header_for n (fold_left (fun hs h => put_header h hs) es hs)
  = match last (List.filter (named n) es) with Some h => Some (erase h) | None => header_for n hs end.
Proof.
  induction es as [|e es IH]; intros hs; [done|]. rewrite last_filter_cons. simpl. rewrite IH, header_for_put.
  destruct (last (List.filter (named n) es)); [done|]. by destruct (named n e).
Qed.

Lemma put_header_lowercases h hs :
  map rh_lowercase (put_header h hs)
  = map rh_lowercase hs ++ (if contains_string (map rh_lowercase hs) (rh_lowercase h) then [] else [rh_lowercase h]).
Proof.
  induction hs as [|held hs IH]; simpl; [done|].
  rewrite (String.eqb_sym (rh_lowercase h)).
  destruct (String.eqb_spec (rh_lowercase held) (rh_lowercase h)) as [He|Hne]; simpl.
  - by rewrite app_nil_r, He.
  - f_equal. apply IH.
Qed.

Lemma contains_string_spec l s : contains_string l s = true <-> s ∈ l.
Proof.
  unfold contains_string. rewrite existsb_exists. setoid_rewrite <- list_elem_of_In.
  setoid_rewrite String.eqb_eq. split; [by intros (x & ? & ->)|eauto].
Qed.

Lemma put_headers_nodup es : forall hs,
  NoDup (map rh_lowercase hs) -> NoDup (map rh_lowercase (fold_left (fun hs h => put_header h hs) es hs)).
Proof.
  induction es as [|e es IH]; intros hs Hn; simpl; [done|]. apply IH. rewrite put_header_lowercases.
  destruct (contains_string _ _) eqn:E; [by rewrite app_nil_r|].
  apply NoDup_app. split_and!; [done| |apply NoDup_singleton].
  intros x Hx ->%list_elem_of_singleton. apply contains_string_spec in Hx. congruence.
Qed.

Lemma named_find n hs : existsb (named n) hs = match header_for n hs with Some _ => true | None => false end.
Proof.
  unfold header_for. induction hs as [|h hs IH]; simpl; [done|]. destruct (named n h); [done|]. by rewrite IH.
Qed.

Lemma last_filter_some n es :
  match last (List.filter (named n) es) with Some _ => true | None => false end = existsb (named n) es.
Proof.
  induction es as [|e es IH]; [done|]. rewrite last_filter_cons. simpl. rewrite <- IH.
  destruct (last _); [by rewrite orb_true_r|]. by destruct (named n e).
Qed.

Lemma put_strip_matches lower ps : forall strip,
  existsb (fun p => strip_matches_lowercase p lower) (fold_left (fun strip p => put_strip p strip) ps strip)
  = existsb (fun p => strip_matches_lowercase p lower) strip || existsb (fun p => strip_matches_lowercase p lower) ps.
Proof.
  induction ps as [|p ps IH]; intros strip; simpl; [by rewrite orb_false_r|]. rewrite IH, orb_assoc. f_equal.
  unfold put_strip. destruct (existsb _ strip) eqn:E; [|by rewrite existsb_app; simpl; rewrite orb_false_r].
  apply existsb_exists in E as (held & Hin & He). apply String.eqb_eq in He.
  destruct (strip_matches_lowercase p lower) eqn:Hp; [|by rewrite orb_false_r].
  rewrite orb_true_r. apply existsb_exists. exists held. split; [done|].
  unfold strip_matches_lowercase in *. by rewrite He.
Qed.

(** [contract_most_specific]: the contract in force takes each header whole from the most
    specific layer that names it, counting only layers from the last [replace_inherited] on;
    it lists a header once, and removes exactly the names those layers target or strip. *)
Theorem contract_most_specific config route entity_type d contract
  (Hc : resolve_assertions_for_route config route entity_type d = Some contract) :
  let layers := in_force_layers (direction_layers d (assertions_layers config route entity_type)) in
  (forall n, header_for n (rc_headers contract) = erase <$> last (List.filter (named n) (entries_in layers)))
  /\ NoDup (map rh_lowercase (rc_headers contract))
  /\ (forall name, removes contract name
        = existsb (named (str_to_lowercase name)) (entries_in layers)
          || existsb (fun p => strip_matches_lowercase p (str_to_lowercase name)) (strips_in layers)).
Proof.
  unfold resolve_assertions_for_route in Hc. destruct (is_nil _); [done|]. injection Hc as <-.
  rewrite accumulate_flat. cbn [rc_headers]. set (layers := in_force_layers _).
  assert (Hh : forall n, header_for n (fold_left (fun hs h => put_header h hs) (entries_in layers) [])
                         = erase <$> last (List.filter (named n) (entries_in layers))).
  { intros n. rewrite header_for_fold. by destruct (last _). }
  split_and!; [exact Hh|apply put_headers_nodup; constructor|].
  intros name. unfold removes. cbn [rc_headers rc_strip]. rewrite put_strip_matches. simpl. f_equal.
  etransitivity; [apply (named_find (str_to_lowercase name))|].
  rewrite Hh, <- last_filter_some. by destruct (last _).
Qed.

(** *** Where a contract's headers come from *)

(** What a header takes from its entry. *)
Definition holds_of (P : string -> string -> ResolvedSource -> Prop) (h : ResolvedHeader) : Prop :=
  P (rh_name h) (rh_lowercase h) (rh_source h).

Lemma put_header_forall P h hs : holds_of P h -> Forall (holds_of P) hs -> Forall (holds_of P) (put_header h hs).
Proof.
  intros Hp. induction 1 as [|x hs Hx Hs IH]; simpl; [by repeat constructor|].
  destruct (String.eqb _ _); constructor; auto.
Qed.

Lemma contract_headers_from P layers :
  (forall s b e, (s, b) ∈ layers -> e ∈ db_headers b ->
     P (he_header e) (str_to_lowercase (he_header e)) (resolve_entry_source e)) ->
  Forall (holds_of P) (rc_headers (accumulate layers)).
Proof.
  intros Hp. rewrite accumulate_flat. cbn [rc_headers].
  assert (He : Forall (holds_of P) (entries_in (in_force_layers layers))).
  { apply Forall_forall. intros h Hin. unfold entries_in in Hin. apply list_elem_of_In, in_flat_map in Hin.
    destruct Hin as ([s b] & Hsb & Hin). apply list_elem_of_In, in_force_sublist in Hsb.
    apply in_map_iff in Hin as (e & <- & Hin). apply list_elem_of_In in Hin. by eapply Hp. }
  assert (Hn : Forall (holds_of P) []) by constructor. revert Hn. generalize (@nil ResolvedHeader).
  induction He as [|h es Hh He IH]; intros hs Hs; simpl; [done|]. apply IH, put_header_forall; done.
Qed.

Lemma put_strips_from ps p : forall strip,
  p ∈ fold_left (fun strip p => put_strip p strip) ps strip -> p ∈ strip \/ p ∈ ps.
Proof.
  induction ps as [|q ps IH]; intros strip Hp; simpl in *; [by left|].
  apply IH in Hp as [Hp|Hp]; [|right; by apply elem_of_cons; right].
  unfold put_strip in Hp. destruct (existsb _ strip); [by left|].
  apply elem_of_app in Hp as [Hp|Hp%list_elem_of_singleton]; [by left|]. subst. right. apply elem_of_cons. by left.
Qed.

Lemma contract_strip_from layers p :
  p ∈ rc_strip (accumulate layers) -> exists s b, (s, b) ∈ layers /\ p ∈ db_strip b.
Proof.
  rewrite accumulate_flat. cbn [rc_strip]. intros Hp. apply put_strips_from in Hp as [Hp|Hp]; [by apply not_elem_of_nil in Hp|].
  unfold strips_in in Hp. apply list_elem_of_In, in_flat_map in Hp as ([s b] & Hsb & Hin).
  apply list_elem_of_In, in_force_sublist in Hsb. apply list_elem_of_In in Hin. eauto.
Qed.
End Accumulation.

(** ** Application *)

Section Wire.
Context `{Platform, WildMatch}.

Lemma insert_all_union l : forall m, insert_all l m = insert_all l ∅ ∪ m.
Proof.
  unfold insert_all. induction l as [|[k v] l IH]; intros m; simpl; [by rewrite map_empty_union|].
  rewrite IH, (IH (<[k:=v]> ∅)). rewrite <- map_union_assoc. f_equal.
  by rewrite <- insert_union_l, map_empty_union.
Qed.

Lemma retain_lookup c m k : retain c m !! k = if removes c k then None else m !! k.
Proof.
  unfold retain. destruct (m !! k) as [v|] eqn:E; destruct (removes c k) eqn:Er.
  - apply map_lookup_filter_None. right. intros x _. simpl. congruence.
  - apply map_lookup_filter_Some. done.
  - apply map_lookup_filter_None. by left.
  - apply map_lookup_filter_None. by left.
Qed.

(** The headers of a direction. *)
Definition wire (d : Direction) (h : HttpExtension) : gmap string string :=
  match d with DirRequest => ht_request_headers h | DirResponse => ht_response_headers h end.

Lemma wire_apply c rendered h d : wire d (apply_http c rendered h d) = insert_all rendered (retain c (wire d h)).
Proof. by destruct d. Qed.

Definition ext_wire {Message} (d : Direction) (x : option (Extensions Message)) : option (gmap string string) :=
  match x with Some x => wire d <$> x_http x | None => None end.

(** The header a name removed by the contract carries afterwards is what was rendered. *)
Lemma apply_contract_removed {Message} c rendered (x : Extensions Message) h d name :
  x_http x = Some h -> removes c name = true ->
  (fun m => m !! name) <$> ext_wire d (Some (apply_contract c rendered x d)) = Some (insert_all rendered ∅ !! name).
Proof.
  intros Hh Hr. unfold apply_contract. rewrite Hh.
  destruct (contract_is_empty c) eqn:Hc; simpl.
  - unfold contract_is_empty, removes in *. destruct c as [[|? ?] [|? ?]]; done.
  - rewrite wire_apply, insert_all_union, lookup_union, retain_lookup, Hr. by destruct (_ !! name).
Qed.

(** A source reads the security slot and the secrets, nothing of the request line or the
    headers. *)
Lemma source_resolve_security {Message} s (x1 x2 : Extensions Message) secrets :
  x_security x1 = x_security x2 -> source_resolve s x1 secrets = source_resolve s x2 secrets.
Proof. intros Hs. unfold source_resolve. by rewrite Hs. Qed.

Lemma resolve_members_ext {Message} members (x1 x2 : Extensions Message) s1 s2 :
  Forall (fun '(_, p) => source_resolve p x1 s1 = source_resolve p x2 s2) members ->
  resolve_members x1 s1 members = resolve_members x2 s2 members.
Proof.
  unfold resolve_members. induction 1 as [|[k p] members Hp _ IH]; [done|].
  cbn. rewrite Hp. destruct (source_resolve p x2 s2); cbn; [f_equal|]; exact IH.
Qed.

(** Two states in which every source of a contract resolves alike render alike. *)
Definition source_agrees {Message} (x1 x2 : Extensions Message) s1 s2 (rs : ResolvedSource) : Prop :=
  match rs with
  | RsFrom p => source_resolve p x1 s1 = source_resolve p x2 s2
  | RsMembers members => Forall (fun '(_, p) => source_resolve p x1 s1 = source_resolve p x2 s2) members
  | RsUnresolvable => True
  end.

Lemma render_headers_ext {Message} (x1 x2 : Extensions Message) s1 s2 hs :
  Forall (fun h => source_agrees x1 x2 s1 s2 (rh_source h)) hs ->
  render_headers x1 s1 hs = render_headers x2 s2 hs.
Proof.
  induction 1 as [|h hs Hh _ IH]; simpl; [done|].
  assert (Hone : render_one x1 s1 h = render_one x2 s2 h).
  { unfold render_one, source_agrees in *. destruct (rh_source h); [by rewrite Hh| |done].
    by rewrite (resolve_members_ext _ _ _ _ _ Hh). }
  rewrite Hone, IH. done.
Qed.

Lemma render_security {Message} (x1 x2 : Extensions Message) secrets c :
  x_security x1 = x_security x2 -> render x1 secrets c = render x2 secrets c.
Proof.
  intros Hs. apply render_headers_ext, Forall_forall. intros h _. unfold source_agrees.
  destruct (rh_source h); [by apply source_resolve_security| |done].
  apply Forall_forall. intros [k p] _. by apply source_resolve_security.
Qed.

Definition entity_of {Message} (x : Extensions Message) : option string :=
  match x_meta x with Some m => mt_entity_type (arc_val m) | None => None end.

Lemma apply_assertions_contract {Message} config meta matched secrets denied (x : Extensions Message) d c :
  from_phase (hm_phase meta) = Some d -> (denied = true -> d = DirRequest) ->
  resolve_assertions_for_route config (mr_route <$> matched) (entity_of x) d = Some c ->
  apply_assertions true (Some meta) (Some config) matched secrets denied (Some x)
  = if denied then (Some (apply_contract c [] x d), None)
    else match render x secrets c with
         | Ok rendered => (Some (apply_contract c rendered x d), None)
         | Err missing => (Some (apply_contract c [] x d), Some missing)
         end.
Proof.
  intros Hp Hd Hc. unfold apply_assertions. simpl. rewrite Hp.
  replace (denied && match d with DirResponse => true | DirRequest => false end) with false
    by (destruct denied; [rewrite Hd|]; done).
  unfold entity_of in Hc. by rewrite Hc.
Qed.

(** Claim C35. [client_cannot_launder]: whatever a client or an upstream put in the header maps, what
    stands under a name the contract asserts or strips after the engine applied it, and
    whether the request is refused for a missing source, depend only on the identity the
    engine established and its secrets: a wire value is never re-emitted there. *)
Theorem client_cannot_launder {Message} config meta matched secrets denied (x1 x2 : Extensions Message) h1 h2 d c name
  (Hphase : from_phase (hm_phase meta) = Some d) (Hdenied : denied = true -> d = DirRequest)
  (Hc : resolve_assertions_for_route config (mr_route <$> matched) (entity_of x1) d = Some c)
  (Hr : removes c name = true)
  (Hh1 : x_http x1 = Some h1) (Hh2 : x_http x2 = Some h2)
  (Hsec : x_security x1 = x_security x2) (Hmeta : x_meta x1 = x_meta x2) :
  let run x := apply_assertions true (Some meta) (Some config) matched secrets denied (Some x) in
  (fun m => m !! name) <$> ext_wire d (run x1).1 = (fun m => m !! name) <$> ext_wire d (run x2).1
  /\ (run x1).2 = (run x2).2.
Proof.
  intros run. unfold run.
  assert (Hc2 : resolve_assertions_for_route config (mr_route <$> matched) (entity_of x2) d = Some c).
  { unfold entity_of in *. by rewrite <- Hmeta. }
  rewrite (apply_assertions_contract _ _ _ _ _ _ _ _ Hphase Hdenied Hc).
  rewrite (apply_assertions_contract _ _ _ _ _ _ _ _ Hphase Hdenied Hc2).
  rewrite (render_security x1 x2 secrets c Hsec).
  destruct denied; [|destruct (render x2 secrets c)]; cbn [fst snd]; (split; [|done]);
    by erewrite !apply_contract_removed by done.
Qed.

(** ** Secrets are not shown *)

Lemma mark_secrets_lookup (rendered : list (string * string)) (l : list (string * string)) : forall (markers : gmap string string) k,
  Exists (fun '(name, _) => to_ascii_lowercase name = k
            /\ existsb (fun '(r, _) => eq_ignore_ascii_case r name) rendered = true) l ->
  exists name marker, (name, marker) ∈ l
    /\ fold_left (fun m '(name, marker) =>
         if existsb (fun '(r, _) => eq_ignore_ascii_case r name) rendered
         then <[to_ascii_lowercase name := marker]> m else m) l markers !! k = Some marker.
Proof.
  induction l as [|[n mk] l IH]; intros markers k Hex; [by inversion Hex|]. simpl.
  destruct (decide (Exists (fun '(name, _) => to_ascii_lowercase name = k
            /\ existsb (fun '(r, _) => eq_ignore_ascii_case r name) rendered = true) l)) as [Hl|Hl].
  - destruct (IH (if existsb (fun '(r, _) => eq_ignore_ascii_case r n) rendered
                  then <[to_ascii_lowercase n := mk]> markers else markers) k Hl) as (name & marker & Hin & Hm).
    exists name, marker. split; [by apply elem_of_cons; right|done].
  - apply Exists_cons in Hex as [Hex|Hex]; [|done]. destruct Hex as [Hk Hr]. subst k.
    exists n, mk. split; [by apply elem_of_cons; left|]. rewrite Hr. clear -Hl. assert (Hm : (<[to_ascii_lowercase n := mk]> markers) !! to_ascii_lowercase n = Some mk)
      by apply lookup_insert_eq.
    revert Hm. generalize (<[to_ascii_lowercase n := mk]> markers).
    induction l as [|[n' mk'] l IH]; intros m Hm; simpl; [done|].
    apply IH; [intros ?; apply Hl; by right|].
    destruct (existsb _ rendered) eqn:Hr'; [|done].
    rewrite lookup_insert_ne; [done|]. intros He. apply Hl. left. done.
Qed.

Lemma insert_all_elem l k v : (k, v) ∈ l -> is_Some (insert_all l ∅ !! k).
Proof.
  unfold insert_all. generalize (∅ : gmap string string). induction l as [|[k' v'] l IH]; intros m Hin; [by apply not_elem_of_nil in Hin|].
  simpl. apply elem_of_cons in Hin as [[= <- <-]|Hin]; [|auto].
  fold (insert_all l (<[k:=v]> m)). rewrite insert_all_union, lookup_union, lookup_insert_eq.
  destruct (insert_all l ∅ !! k); simpl; eauto.
Qed.

(** [secret_headers_redacted]: after a request contract is applied, the redacted view of the
    request headers shows, under every header rendered from a declared secret, one of the
    contract's markers and never the value. *)
Theorem secret_headers_redacted c rendered current h value
  (Hin : h ∈ rc_headers c) (Hsecret : secrets_read (rh_source h) <> [])
  (Hrendered : (rh_name h, value) ∈ rendered) :
  exists name marker,
    redacted_request_headers (apply_http c rendered current DirRequest) !! rh_name h = Some marker
    /\ (name, marker) ∈ redactions c.
Proof.
  destruct (mark_secrets_lookup rendered (redactions c) (retain c (ht_secret_headers current))
              (to_ascii_lowercase (rh_name h))) as (name & marker & Hm & Hl).
  { apply Exists_exists. unfold redactions, redaction.
    destruct (secrets_read (rh_source h)) as [|n ns] eqn:Es; [done|].
    eexists (rh_name h, _). split.
    - apply list_elem_of_omap. exists h. split; [done|]. by rewrite Es.
    - split; [done|]. apply existsb_exists. exists (rh_name h, value). split; [by apply list_elem_of_In|].
      unfold eq_ignore_ascii_case. apply String.eqb_refl. }
  exists name, marker. split; [|done].
  unfold redacted_request_headers, apply_http; cbn [ht_secret_headers ht_request_headers].
  fold (mark_secrets c rendered (retain c (ht_secret_headers current))) in Hl.
  rewrite bool_decide_eq_false_2 by (intros He; by rewrite He in Hl).
  rewrite map_lookup_imap, insert_all_union, lookup_union.
  destruct (insert_all_elem _ _ _ Hrendered) as [v Hv]. rewrite Hv.
  replace (Some v ∪ retain c (ht_request_headers current) !! rh_name h) with (Some v) by (by destruct (retain _ _ !! _)).
  cbn [mbind option_bind]. f_equal. case_match eqn:Hmk; [|by apply (eq_trans (eq_sym Hmk)) in Hl].
  by apply (eq_trans (eq_sym Hmk)) in Hl as [= ->].
Qed.
End Wire.

(** ** An example configuration: an identity header, a credential for the upstream, and two
    globs *)

Definition example_assertions : AssertionsConfig :=
  mkAssertions
    (Some (mkDirBlock [mkEntry "X-User" (AsFrom "subject.id") MissOmit None;
                       mkEntry "Authorization" (AsFrom "secret.upstream") MissDeny None] [mkStrip "X-Internal-*"] false))
    (Some (mkDirBlock [] [mkStrip "server"] false)).

Definition asserting_config : PolicyConfig :=
  mkPolicyConfig (mkGlobal ∅ ∅ None None (Some example_assertions)) [] ∅ []
    (mkSecrets {["env" := "env"]} {["upstream" := mkSecretValue "env" "UPSTREAM_TOKEN"]})
    (mkSettings ModePolicy false None None).

Definition request_hook : HookMetadata := mkHookMeta (Some "http") (Some ENTITY_HTTP) PhPre.
Definition response_hook : HookMetadata := mkHookMeta (Some "http") (Some ENTITY_HTTP) PhPost.

Definition http_request (headers : gmap string string) : Extensions unit :=
  set_http Extensions_default (Some (mkHttp headers None ∅ ∅ None None None None None None)).

Definition example_contract (d : Direction) : ResolvedContract :=
  match @resolve_assertions_for_route ascii_platform asserting_config None None d with
  | Some c => c
  | None => mkContract [] []
  end.


Lemma client_cannot_launder_witness :
  let run x := @apply_assertions ascii_platform star_wildmatch unit true (Some request_hook) (Some asserting_config) None
                 (Some {["upstream" := "s3cret"]}) false (Some x) in
  (fun m => m !! "X-User") <$> ext_wire DirRequest (run (http_request {["X-User" := "root"]})).1
  = (fun m => m !! "X-User") <$> ext_wire DirRequest (run (http_request ∅)).1.
Proof.
  intros run.
  eapply (@client_cannot_launder ascii_platform star_wildmatch unit asserting_config request_hook None
           (Some {["upstream" := "s3cret"]}) false (http_request {["X-User" := "root"]}) (http_request ∅)
           _ _ DirRequest (example_contract DirRequest) "X-User"); try done; vm_compute; reflexivity.
Defined.

(** ** What a checked [assertions:] configuration guarantees

    The source grammar is exactly its printed forms; a contract that loads leaves the
    protocol floor of each direction alone and puts no declared secret in a response. *)

(** ** The source grammar *)

(** The sources that carry a name carry one. *)
Definition source_named (s : SourcePath) : Prop :=
  match s with SpClaim n | SpClientClaim n | SpSecret n => n <> "" | _ => True end.

Lemma strip_prefix_spec p : forall s t, strip_prefix p s = Some t <-> s = p +:+ t.
Proof.
  induction p as [|a p IH]; intros s t; simpl.
  - split; [by intros [= <-]|by intros ->].
  - destruct s as [|b s]; [split; [done|]; rewrite string_app_cons; done|].
    rewrite string_app_cons. destruct (Ascii.eqb_spec a b) as [->|Hne].
    + rewrite IH. split; [by intros ->|by intros [= ->]].
    + split; [done|]. intros [= ? ?]. congruence.
Qed.

Lemma plain_source_spec path s : plain_source path = Ok s <-> (path, s) ∈ PLAIN_SOURCES.
Proof.
  unfold plain_source. split.
  - destruct (List.find _ _) as [[text source]|] eqn:E; [|done]. intros [= <-].
    apply find_some in E as [Hin He]. apply String.eqb_eq in He as ->. by apply list_elem_of_In.
  - intros Hin. unfold PLAIN_SOURCES in Hin.
    repeat (apply elem_of_cons in Hin as [[= -> ->]|Hin]; [reflexivity|]). by apply not_elem_of_nil in Hin.
Qed.

(** [source_grammar_exact]: a path parses to a source exactly when it is that source's
    printed form (with a name where the form has one), so printing and parsing invert each
    other, and the raw credentials and the wire headers, which print as no source, are
    never one. *)
Theorem source_grammar_exact path s :
  source_parse path = Ok s <-> path = authored s /\ source_named s.
Proof.
  split.
  - unfold source_parse. destruct (excluded_source path); [done|]. destruct (claim_root path) eqn:Hroot; [done|].
    destruct (strip_prefix "client.claim." path) as [n|] eqn:E1.
    { apply strip_prefix_spec in E1 as ->. intros [= <-]. split; [done|]. simpl. intros ->. done. }
    destruct (strip_prefix "claim." path) as [n|] eqn:E2.
    { apply strip_prefix_spec in E2 as ->. intros [= <-]. split; [done|]. simpl. intros ->. done. }
    assert (Hplain : plain_source path = Ok s -> path = authored s /\ source_named s).
    { rewrite plain_source_spec. intros Hin. unfold PLAIN_SOURCES in Hin.
      repeat (apply elem_of_cons in Hin as [[= -> ->]|Hin]; [done|]). by apply not_elem_of_nil in Hin. }
    destruct (strip_prefix "secret." path) as [n|] eqn:E3; [|exact Hplain].
    destruct (String.eqb_spec n "") as [->|Hne]; [exact Hplain|].
    apply strip_prefix_spec in E3 as ->. by intros [= <-].
  - intros [-> Hn]. destruct s; try reflexivity; simpl in Hn.
    all: destruct name; [done|reflexivity].
Qed.

(** ** Blocks that pass their checks *)

Section Checked.
Context `{Platform, WildMatch, HashOrder}.
Variable declared : string -> bool.

(** What a checked entry's source is: parsed, and a declared secret only toward the
    upstream. *)
Definition path_ok (d : Direction) (p : SourcePath) : Prop :=
  match p with SpSecret n => d = DirRequest /\ declared n = true | _ => True end.

Definition resolved_ok (d : Direction) (rs : ResolvedSource) : Prop :=
  match rs with
  | RsFrom p => path_ok d p
  | RsMembers members => Forall (fun '(_, p) => path_ok d p) members
  | RsUnresolvable => False
  end.

Definition entry_ok (d : Direction) (e : HeaderEntry) : Prop :=
  str_to_lowercase (he_header e) ∉ floor_for d /\ resolved_ok d (resolve_entry_source e).

Definition strip_ok (d : Direction) (p : StripPattern) : Prop :=
  forall f, f ∈ floor_for d -> strip_matches_lowercase p f = false.

Lemma validate_path_ok d level header member path parsed :
  validate_path declared d level header member path = Ok parsed -> source_parse path = Ok parsed /\ path_ok d parsed.
Proof.
  unfold validate_path. destruct (source_parse path) as [p|]; simpl; [|done]. unfold validate_source, path_ok.
  destruct p; simpl; try (by intros [= <-]).
  destruct d; [|done]. destruct (declared name) eqn:Ed; [|done]. by intros [= <-].
Qed.

Lemma validate_members_ok d level header members :
  try_each (fun '(member, path) => let? _ := validate_path declared d level header (Some member) path in Ok tt) members
    = Ok tt ->
  exists parsed, collect (fun '(member, path) => let? source := source_parse path in Ok (member, source)) members = Ok parsed
                 /\ Forall (fun '(_, p) => path_ok d p) parsed.
Proof.
  induction members as [|[m path] members IH]; simpl; [eauto|].
  destruct (validate_path _ _ _ _ _ _) as [p|] eqn:E; [|done]. apply validate_path_ok in E as [-> Hp].
  intros Hok. apply IH in Hok as (parsed & -> & Hf). eauto.
Qed.

Lemma validate_entry_source_ok d level e :
  validate_entry_source declared d level e = Ok tt -> resolved_ok d (resolve_entry_source e).
Proof.
  unfold validate_entry_source, resolve_entry_source. destruct (he_source e) as [path|members].
  - destruct (validate_path _ _ _ _ _ _) as [p|] eqn:E; [|done]. intros _.
    by apply validate_path_ok in E as [-> Hp].
  - destruct (negb _); [done|]. intros Hok. by apply validate_members_ok in Hok as (parsed & -> & Hf).
Qed.

Lemma validate_headers_ok d level es : forall targeted,
  validate_headers declared d level targeted es = Ok tt -> Forall (entry_ok d) es.
Proof.
  induction es as [|e es IH]; intros targeted; simpl; [constructor|].
  destruct (contains_string targeted _); [done|]. destruct (List.find _ _) eqn:Ef; [done|].
  destruct (validate_entry_source _ _ _ _) as [[]|] eqn:Es; [|done]. intros Hok. constructor; [|eauto].
  split; [|by eapply validate_entry_source_ok]. intros Hin.
  eapply find_none in Ef; [|by apply list_elem_of_In]. by rewrite String.eqb_refl in Ef.
Qed.

Lemma validate_block_ok d level b :
  validate_block declared b d level = Ok tt -> Forall (entry_ok d) (db_headers b) /\ Forall (strip_ok d) (db_strip b).
Proof.
  unfold validate_block. destruct (validate_headers _ _ _ _ _) as [[]|] eqn:Eh; [|done].
  apply validate_headers_ok in Eh. intros Hok. split; [done|].
  apply Forall_forall. intros p Hp f Hf. eapply try_each_elem in Hok; [|exact Hp]. cbn beta in Hok.
  unfold glob_would_match_floor in Hok. destruct (List.find _ _) eqn:Ef; [done|].
  eapply find_none in Ef; [exact Ef|by apply list_elem_of_In].
Qed.
End Checked.

(** ** The layers of a configuration that loads *)

Section Loaded.
Context `{Platform, WildMatch, HashOrder}.

(** A request's route is one of the configuration's, or none. *)
Definition route_of (config : PolicyConfig) (route : option RouteEntry) : Prop :=
  match route with Some r => r ∈ cf_routes config | None => True end.

Definition block_checked (config : PolicyConfig) (d : Direction) (b : DirectionBlock) : Prop :=
  Forall (entry_ok (secret_declared config) d) (db_headers b) /\ Forall (strip_ok d) (db_strip b).

Lemma check_assertions_block config level a d b :
  check_assertions config level (Some a) = Ok tt -> block_of d a = Some b -> block_checked config d b.
Proof.
  unfold check_assertions. intros Hok Hb.
  destruct (assertions_validate _ _ _) as [[]|] eqn:E; [|done]. unfold assertions_validate in E.
  apply (validate_block_ok (secret_declared config) d level).
  assert (Hd : d ∈ [DirRequest; DirResponse]) by (destruct d; set_solver).
  apply (try_each_elem _ _ E) in Hd. by rewrite Hb in Hd.
Qed.

Lemma hash_iter_lookup {V} (m : gmap string V) k v : m !! k = Some v -> (k, v) ∈ hash_iter m.
Proof. intros Hm. rewrite hash_iter_perm. by apply elem_of_map_to_list. Qed.

Lemma layer_elem {T} (s source : SectionSource) (o : option T) (b : T) :
  (s, b) ∈ layer source o -> o = Some b.
Proof.
  unfold layer. destruct o; [|by intros ?%not_elem_of_nil]. intros Hin%list_elem_of_singleton. congruence.
Qed.

Lemma layers_checked config route entity_type s a d b :
  validate_assertions config = Ok tt -> route_of config route ->
  (s, a) ∈ assertions_layers config route entity_type -> block_of d a = Some b -> block_checked config d b.
Proof.
  unfold validate_assertions. intros Hok Hroute Hin Hb. peel_ok Hok. destruct a0, a1, a2, a3.
  unfold assertions_layers, section_layers in Hin. rewrite !elem_of_app in Hin.
  destruct Hin as [Hin|[Hin|Hin]].
  - apply layer_elem in Hin. rewrite Hin in Heqr. by eapply check_assertions_block.
  - destruct (entity_type_of route entity_type) as [et|]; [|by apply not_elem_of_nil in Hin].
    apply layer_elem in Hin. unfold section_of in Hin.
    destruct (gl_defaults (cf_global config) !! et) as [g|] eqn:Eg; [|done].
    eapply try_each_elem in Heqr0; [|by apply hash_iter_lookup]. cbn beta iota in Heqr0. rewrite Hin in Heqr0.
    by eapply check_assertions_block.
  - destruct route as [r|]; [|by apply not_elem_of_nil in Hin]. apply elem_of_app in Hin as [Hin|Hin].
    + apply bundle_layers_sources in Hin as (tag & g & -> & Eg & Hg).
      eapply try_each_elem in Heqr1; [|by apply hash_iter_lookup]. cbn beta iota in Heqr1. rewrite Hg in Heqr1.
      by eapply check_assertions_block.
    + apply layer_elem in Hin. apply list_elem_of_lookup in Hroute as [i Hi].
      eapply try_enum_ok in Heqr2; [|exact Hi]. cbn beta in Heqr2. rewrite Hin in Heqr2.
      by eapply check_assertions_block.
Qed.

Lemma validate_config_assertions fips hooks config :
  validate_config fips hooks config = Ok tt -> validate_assertions config = Ok tt.
Proof. unfold validate_config. intros Hok. peel_ok Hok. repeat match goal with u : unit |- _ => destruct u end. done. Qed.

(** What holds of every contract of a configuration that loads. *)
Lemma loaded_contract fips hooks config route entity_type d c :
  validate_config fips hooks config = Ok tt -> route_of config route ->
  resolve_assertions_for_route config route entity_type d = Some c ->
  Forall (holds_of (fun name lower rs => lower = str_to_lowercase name /\ lower ∉ floor_for d
                      /\ resolved_ok (secret_declared config) d rs)) (rc_headers c)
  /\ Forall (strip_ok d) (rc_strip c).
Proof.
  intros Hok%validate_config_assertions Hroute Hc. unfold resolve_assertions_for_route in Hc.
  destruct (is_nil _); [done|]. injection Hc as <-.
  assert (Hl : forall s b, (s, b) ∈ direction_layers d (assertions_layers config route entity_type) ->
                           block_checked config d b).
  { intros s b Hin. unfold direction_layers in Hin. apply list_elem_of_omap in Hin as ([s' a] & Hin & Hb).
    destruct (block_of d a) as [b'|] eqn:Eb; [|done]. simpl in Hb. injection Hb as <- <-. by eapply layers_checked. }
  split.
  - apply contract_headers_from. intros s b e Hin He. apply Hl in Hin as [Hb _].
    rewrite Forall_forall in Hb. destruct (Hb e He) as [Hf Hr]. done.
  - apply Forall_forall. intros p Hp. apply contract_strip_from in Hp as (s & b & Hin & Hp).
    apply Hl in Hin as [_ Hb]. rewrite Forall_forall in Hb. auto.
Qed.
End Loaded.

(** ** Guarantees *)

Section Guarantees.
Context `{Platform, WildMatch, HashOrder} {Message : Type}.
Implicit Types (x : Extensions Message).

Lemma render_names x secrets hs rendered :
  render_headers x secrets hs = Ok rendered -> forall n v, (n, v) ∈ rendered -> exists h, h ∈ hs /\ rh_name h = n.
Proof.
  revert rendered. induction hs as [|h hs IH]; intros rendered; simpl.
  - intros [= <-] n v Hin. by apply not_elem_of_nil in Hin.
  - assert (Hrest : forall r, render_headers x secrets hs = Ok r -> forall n v, (n, v) ∈ r ->
                     exists h', h' ∈ h :: hs /\ rh_name h' = n).
    { intros r Hr n v Hin. destruct (IH r Hr n v Hin) as (h' & ? & ?). exists h'. split; [by apply elem_of_cons; right|done]. }
    destruct (render_one x secrets h); [|eauto|destruct (rh_on_missing h); [eauto|done]].
    destruct (render_headers x secrets hs) as [r|]; [|done]. intros [= <-] n v Hin.
    apply elem_of_cons in Hin as [[= -> ->]|Hin]; [|by eapply Hrest].
    exists h. split; [by apply elem_of_cons; left|done].
Qed.

Lemma insert_all_absent l m k : (forall v, (k, v) ∉ l) -> insert_all l m !! k = m !! k.
Proof.
  unfold insert_all. revert m. induction l as [|[k' v'] l IH]; intros m Hl; simpl; [done|].
  rewrite IH by (intros v Hv; apply (Hl v), elem_of_cons; by right).
  apply lookup_insert_ne. intros ->. apply (Hl v'), elem_of_cons. by left.
Qed.

Lemma apply_contract_kept c rendered x d name :
  removes c name = false -> (forall v, (name, v) ∉ rendered) ->
  (fun m => m !! name) <$> ext_wire d (Some (apply_contract c rendered x d)) = (fun m => m !! name) <$> ext_wire d (Some x).
Proof.
  intros Hr Hn. unfold apply_contract. simpl. destruct (x_http x) as [h|] eqn:Hh; [|by rewrite Hh].
  destruct (contract_is_empty c && is_nil rendered); [by rewrite Hh|]. simpl. f_equal.
  by rewrite wire_apply, insert_all_absent, retain_lookup, Hr.
Qed.

Lemma floor_not_removed fips hooks config route entity_type d c name :
  validate_config fips hooks config = Ok tt -> route_of config route ->
  resolve_assertions_for_route config route entity_type d = Some c ->
  is_floor d name = true ->
  removes c name = false /\ forall h, h ∈ rc_headers c -> rh_name h <> name.
Proof.
  intros Hok Hroute Hc Hf. destruct (loaded_contract _ _ _ _ _ _ _ Hok Hroute Hc) as [Hh Hs].
  unfold is_floor in Hf. apply contains_string_spec in Hf. rewrite Forall_forall in Hh. rewrite Forall_forall in Hs.
  unfold holds_of in Hh. split.
  - apply orb_false_iff. split; apply existsb_false_iff; apply Forall_forall.
    + intros h Hin. destruct (Hh h Hin) as (_ & Hnf & _). apply String.eqb_neq. intros He. by rewrite He in Hnf.
    + intros p Hin. by apply (Hs p Hin).
  - intros h Hin <-. destruct (Hh h Hin) as (Hl & Hnf & _). by rewrite Hl in Hnf.
Qed.

(** [floor_headers_survive]: in a configuration that loads, no contract of any route removes,
    replaces or injects a header of the direction's protocol floor, in any casing: what the
    other side needs to read the message reaches it as it was. *)
Theorem floor_headers_survive fips hooks config meta matched secrets denied x d name
  (Hok : validate_config fips hooks config = Ok tt) (Hroute : route_of config (mr_route <$> matched))
  (Hphase : from_phase (hm_phase meta) = Some d) (Hfloor : is_floor d name = true) :
  (fun m => m !! name) <$> ext_wire d (apply_assertions true (Some meta) (Some config) matched secrets denied (Some x)).1
  = (fun m => m !! name) <$> ext_wire d (Some x).
Proof.
  assert (Hd : denied = true /\ d = DirResponse \/ (denied = true -> d = DirRequest))
    by (destruct denied, d; naive_solver).
  destruct Hd as [[-> ->]|Hd].
  { unfold apply_assertions. simpl negb. cbn iota. by rewrite Hphase. }
  destruct (resolve_assertions_for_route config (mr_route <$> matched) (entity_of x) d) as [c|] eqn:Hc.
  - destruct (floor_not_removed _ _ _ _ _ _ _ _ Hok Hroute Hc Hfloor) as [Hr Hn].
    rewrite (apply_assertions_contract config meta matched secrets denied x d c Hphase); [|done|done].
    assert (Hnil : forall v : string, (name, v) ∉ []) by (intros v; apply not_elem_of_nil).
    destruct denied; [by apply apply_contract_kept|].
    destruct (render x secrets c) as [rendered|missing] eqn:Er; cbn [fst]; apply apply_contract_kept; try done.
    intros v Hin. destruct (render_names _ _ _ _ Er _ _ Hin) as (h & Hh & He). by apply (Hn h).
  - unfold apply_assertions. simpl negb. cbn iota. rewrite Hphase.
    unfold entity_of in Hc. rewrite Hc. by destruct (denied && _).
Qed.

(** [response_independent_of_secrets]: in a configuration that loads, what a response contract
    does to a response does not depend on the declared secrets, so no credential held for an
    upstream reaches a client through it. *)
Theorem response_independent_of_secrets fips hooks config meta matched secrets1 secrets2 denied x
  (Hok : validate_config fips hooks config = Ok tt) (Hroute : route_of config (mr_route <$> matched))
  (Hphase : from_phase (hm_phase meta) = Some DirResponse) :
  apply_assertions true (Some meta) (Some config) matched secrets1 denied (Some x)
  = apply_assertions true (Some meta) (Some config) matched secrets2 denied (Some x).
Proof.
  destruct denied; [unfold apply_assertions; simpl negb; cbn iota; by rewrite Hphase|].
  destruct (resolve_assertions_for_route config (mr_route <$> matched) (entity_of x) DirResponse) as [c|] eqn:Hc.
  - rewrite !(apply_assertions_contract config meta matched _ false x DirResponse c Hphase) by done.
    destruct (loaded_contract _ _ _ _ _ _ _ Hok Hroute Hc) as [Hh _].
    assert (Hr : render x secrets1 c = render x secrets2 c).
    { apply render_headers_ext. eapply Forall_impl; [exact Hh|]. intros h (_ & _ & Hs).
      assert (Hp : forall p, path_ok (secret_declared config) DirResponse p ->
                             source_resolve p x secrets1 = source_resolve p x secrets2).
      { intros []; simpl; try done. by intros [? _]. }
      destruct (rh_source h) as [p|members|]; simpl in *; [by apply Hp| |done].
      eapply Forall_impl; [exact Hs|]. intros [k p]. apply Hp. }
    by rewrite Hr.
  - unfold apply_assertions. simpl negb. cbn iota. rewrite Hphase. unfold entity_of in Hc. by rewrite Hc.
Qed.
End Guarantees.

(** ** On the example configuration *)


