(* ===== verification/EffectLog.v ===== *)
(** * The write-ahead log of irreversible effects

    [ppe-core/src/effect.rs]: the records, the file-backed log with its append, roll-back,
    recovery and reconciliation, over a file whose unsynced writes and directory changes a
    crash may undo. The JSON codec of a record is a parameter. *)

From Stdlib Require Import Ascii String.
From S2P Require Import Prelude RustStr F64 Json Lexical Plugin.

(** ** Records *)

Inductive EffectState : Type :=
| EsPrepared
| EsConfirmed
| EsRejected
| EsUnknown.

#[global] Instance EffectState_eq_dec : EqDecision EffectState.
Proof. solve_decision. Defined.

Record EffectRecord : Type := mkEffect {
  ef_kind : string;
  ef_description : string;
  ef_key : string;
  ef_state : EffectState;
  ef_details : gmap string json;
  ef_plugin_name : option string;
  ef_epoch : option N;
  ef_stream_id : option string;
  ef_stream_seq : option N;
  ef_emission_seq : option N;
}.

(** [EffectRecord::prepared]. *)
Definition prepared (kind description key : string) : EffectRecord :=
  mkEffect kind description key EsPrepared ∅ None None None None None.

Definition with_detail (key : string) (value : json) (r : EffectRecord) : EffectRecord :=
  mkEffect (ef_kind r) (ef_description r) (ef_key r) (ef_state r) (<[key := value]> (ef_details r))
    (ef_plugin_name r) (ef_epoch r) (ef_stream_id r) (ef_stream_seq r) (ef_emission_seq r).

Definition into_state (s : EffectState) (r : EffectRecord) : EffectRecord :=
  mkEffect (ef_kind r) (ef_description r) (ef_key r) s (ef_details r) (ef_plugin_name r) (ef_epoch r) (ef_stream_id r)
    (ef_stream_seq r) (ef_emission_seq r).

(** [matches!(state, Confirmed | Rejected)]. *)
Definition is_terminal (s : EffectState) : bool :=
  match s with EsConfirmed | EsRejected => true | EsPrepared | EsUnknown => false end.

(** ** Reconcilers *)

Definition Reconciler : Type := EffectRecord -> EffectState.

Definition LogUnknownsReconciler : Reconciler := fun _ => EsUnknown.

(** [wal_error]; the cause it wraps is not part of a [PluginError] here. *)
Definition wal_error (what : string) : PluginError :=
  PeExecution "effect-log" ("effect log: could not " +:+ what) (Some "effect_log_failed") ∅ None.

(** ** The standard library's view of the bytes *)

Definition newline : ascii := ascii_of_N 10.

(** The ranges the bytes after a lead byte must fall in; [None] for a byte no character
    starts with. *)
Definition utf8_lead (a : ascii) : option (list (N * N)) :=
  let within lo hi := in_byte_range lo hi a in
  (if within 0 127 then Some []
   else if within 194 223 then Some [(128, 191)]
   else if within 224 224 then Some [(160, 191); (128, 191)]
   else if within 225 236 || within 238 239 then Some [(128, 191); (128, 191)]
   else if within 237 237 then Some [(128, 159); (128, 191)]
   else if within 240 240 then Some [(144, 191); (128, 191); (128, 191)]
   else if within 241 243 then Some [(128, 191); (128, 191); (128, 191)]
   else if within 244 244 then Some [(128, 143); (128, 191); (128, 191)]
   else None)%N.

Fixpoint utf8_from (pending : list (N * N)) (s : string) : bool :=
  match s, pending with
  | "", [] => true
  | "", _ :: _ => false
  | String a s', (lo, hi) :: rest => in_byte_range lo hi a && utf8_from rest s'
  | String a s', [] => match utf8_lead a with Some rest => utf8_from rest s' | None => false end
  end%string.

(** [std::str::from_utf8(..).is_ok()]. *)
Definition from_utf8 (s : string) : bool := utf8_from [] s.

(** [raw.get(..=end)] for the last newline of [raw], and nothing without one. *)
Fixpoint complete_lines (raw : string) : string :=
  match raw with
  | "" => ""
  | String a rest =>
      match complete_lines rest with
      | "" => if Ascii.eqb a newline then String a "" else ""
      | c => String a c
      end
  end%string.

(** [strip_suffix('\r')]. *)
Fixpoint strip_cr (s : string) : string :=
  match s with
  | "" => ""
  | String a "" => if Ascii.eqb a (ascii_of_N 13) then "" else s
  | String a rest => String a (strip_cr rest)
  end%string.

(** The pieces between the newlines: a piece a newline ended loses its [\r], an empty piece
    after the last newline is no line. *)
Fixpoint trim_pieces (pieces : list string) : list string :=
  match pieces with
  | [] => []
  | [last] => if String.eqb last "" then [] else [last]
  | p :: rest => strip_cr p :: trim_pieces rest
  end.

(** [str::lines]. *)
Definition lines (s : string) : list string := trim_pieces (split newline s).

(** ** The log's file *)

(** The file under the log's path: what a reader sees, the contents its current inode may
    have on stable storage, and what an older version of the directory would name instead.
    Without unsynced changes [dk_data] is the content alone and [dk_stale] is empty. *)
Record Disk : Type := mkDisk {
  dk_now : option string;
  dk_data : list string;
  dk_stale : list (option string);
}.

(** No file, durably. *)
Definition no_file : Disk := mkDisk None [] [None].

(** What a crash may leave under the path. *)
Definition crash_images (d : Disk) : list (option string) := map Some (dk_data d) ++ dk_stale d.

(** The file a process started after a crash finds. *)
Definition after_crash (image : option string) : Disk :=
  match image with Some s => mkDisk (Some s) [s] [] | None => no_file end.

(** [open] with [create] and [append]. *)
Definition open_append (d : Disk) : Disk :=
  match dk_now d with Some _ => d | None => mkDisk (Some "") [""] (dk_stale d) end.

(** The first [n] bytes of [line] written at the end of [old]; any shorter part of them may
    be the one that reaches the disk. *)
Definition write_bytes (old line : string) (n : nat) (d : Disk) : Disk :=
  mkDisk (Some (old +:+ take_bytes n line)) (dk_data d ++ map (fun k => old +:+ take_bytes k line) (seq 0 (S n)))
    (dk_stale d).

Definition sync_all (d : Disk) : Disk :=
  match dk_now d with Some s => mkDisk (Some s) [s] (dk_stale d) | None => d end.

Definition set_len (old : string) (d : Disk) : Disk := mkDisk (Some old) (dk_data d ++ [old]) (dk_stale d).

(** The rename of a synced file over the path. *)
Definition rename_over (new : string) (d : Disk) : Disk :=
  mkDisk (Some new) [new] (dk_stale d ++ match dk_now d with Some _ => map Some (dk_data d) | None => [] end).

Definition sync_dir (d : Disk) : Disk := mkDisk (dk_now d) (dk_data d) [].

(** What the system answers to the calls of one append. *)
Record AppendIo : Type := mkAppendIo {
  ai_task : bool;
  ai_open : bool;
  ai_metadata : bool;
  (** [None]: all of it; [Some n]: an error after [n] bytes. *)
  ai_write : option nat;
  ai_sync : bool;
  ai_set_len : bool;
  ai_set_len_sync : bool;
  ai_dir : bool;
}.

Record RecoverIo : Type := mkRecoverIo {
  ri_task : bool;
  ri_read : bool;
  ri_tmp_open : bool;
  (** Which write is refused, if one is. *)
  ri_tmp_write : option nat;
  ri_tmp_sync : bool;
  ri_rename : bool;
  ri_dir : bool;
}.

(** The answers to the calls of a log, by how many it has made. *)
Class FileSystem := {
  append_io : nat -> AppendIo;
  recover_io : nat -> RecoverIo;
}.

(** [serde_json::to_vec] and [serde_json::from_str] at [EffectRecord]. *)
Class EffectCodec := {
  to_vec : EffectRecord -> result string string;
  from_str : string -> result EffectRecord string;
}.

(** ** Append *)

(** [append_or_roll_back] around the write and the [fsync] of one line. *)
Definition append_or_roll_back (io : AppendIo) (old line : string) (d : Disk) : Disk * result unit PluginError :=
  if negb (ai_metadata io) then (d, Err (wal_error "read the log's length"))
  else
    let written := write_bytes old line (default (String.length line) (ai_write io)) d in
    let outcome :=
      match ai_write io with
      | Some _ => Err (wal_error "write a record")
      | None => if ai_sync io then Ok tt else Err (wal_error "fsync the log")
      end in
    match outcome with
    | Ok _ => (sync_all written, outcome)
    | Err _ =>
        let cut := if ai_set_len io then set_len old written else written in
        (if ai_set_len io && ai_set_len_sync io then sync_all cut else cut, outcome)
    end.

Definition sync_parent_dir (ok : bool) (d : Disk) : Disk * result unit PluginError :=
  if ok then (sync_dir d, Ok tt) else (d, Err (wal_error "fsync the log's directory")).

(** The blocking task of an append. *)
Definition append_task (io : AppendIo) (line : string) (d : Disk) : Disk * result unit PluginError :=
  let creating := bool_decide (dk_now d = None) in
  if negb (ai_open io) then (d, Err (wal_error "open the log"))
  else
    let opened := open_append d in
    let '(d1, written) := append_or_roll_back io (default "" (dk_now opened)) line opened in
    match written with
    | Err e => (d1, Err e)
    | Ok _ => if creating then sync_parent_dir (ai_dir io) d1 else (d1, Ok tt)
    end.

(** ** Recovery *)

Record RecoverySummary : Type := mkSummary {
  rs_compacted : nat;
  rs_unresolved : list EffectRecord;
}.

Definition RecoverySummary_default : RecoverySummary := mkSummary 0 [].

(** The keys some record settles. *)
Definition resolved_keys (records : list EffectRecord) : gset string :=
  list_to_set (map ef_key (filter (fun r => is_terminal (ef_state r) = true) records)).

(** One record of the pass that keeps the latest record per unresolved key. *)
Definition keep_latest (resolved : gset string) (acc : list EffectRecord * gmap string nat) (r : EffectRecord) :
    list EffectRecord * gmap string nat :=
  let '(unresolved, pos) := acc in
  if decide (ef_key r ∈ resolved) then acc
  else match pos !! ef_key r with
       | Some i => if decide (i < length unresolved) then (<[i := r]> unresolved, pos)
                   else (unresolved ++ [r], <[ef_key r := length unresolved]> pos)
       | None => (unresolved ++ [r], <[ef_key r := length unresolved]> pos)
       end.

Definition unresolved_of (records : list EffectRecord) : list EffectRecord :=
  (fold_left (keep_latest (resolved_keys records)) records ([], ∅)).1.

Section Log.
Context `{EffectCodec}.

(** The loop over the lines, the first of them number [n]. *)
Fixpoint parse_lines (n : nat) (ls : list string) : result (list EffectRecord) PluginError :=
  match ls with
  | [] => Ok []
  | line :: rest =>
      if String.eqb (trim line) "" then parse_lines (S n) rest
      else match from_str line with
           | Err _ => Err (wal_error ("parse line " +:+ show_nat n))
           | Ok rec => let? recs := parse_lines (S n) rest in Ok (rec :: recs)
           end
  end.

(** From the bytes of the file to its records. *)
Definition read_records (raw : string) : result (list EffectRecord) PluginError :=
  let complete := complete_lines raw in
  if from_utf8 complete then parse_lines 1 (lines complete) else Err (wal_error "decode the log").

(** The temp log: one line per record, up to the write the system refuses. *)
Fixpoint write_temp (refused : option nat) (records : list EffectRecord) : result string PluginError :=
  match records with
  | [] => Ok ""
  | r :: rest =>
      let? line := result_map_err (fun _ => wal_error "serialize during compaction") (to_vec r) in
      match refused with
      | Some 0 => Err (wal_error "write the temp log")
      | _ => let? others := write_temp (pred <$> refused) rest in
             Ok (line +:+ String newline others)
      end
  end.

(** The blocking task of a recovery. The temp file is opened with [truncate], so nothing an
    earlier sweep left in it is ever read. *)
Definition recover_task (io : RecoverIo) (d : Disk) : Disk * result RecoverySummary PluginError :=
  match dk_now d with
  | None => if ri_read io then (d, Ok RecoverySummary_default) else (d, Err (wal_error "read the log"))
  | Some raw =>
      if negb (ri_read io) then (d, Err (wal_error "read the log"))
      else match read_records raw with
           | Err e => (d, Err e)
           | Ok records =>
               let unresolved := unresolved_of records in
               let compacted := size (resolved_keys records) in
               if negb (ri_tmp_open io) then (d, Err (wal_error "open the temp log"))
               else match write_temp (ri_tmp_write io) unresolved with
                    | Err e => (d, Err e)
                    | Ok text =>
                        if negb (ri_tmp_sync io) then (d, Err (wal_error "fsync the temp log"))
                        else if negb (ri_rename io) then (d, Err (wal_error "rename the temp log"))
                        else let '(d1, synced) := sync_parent_dir (ri_dir io) (rename_over text d) in
                             match synced with
                             | Err e => (d1, Err e)
                             | Ok _ => (d1, Ok (mkSummary compacted unresolved))
                             end
                    end
           end
  end.

(** ** [FileEffectLog] *)

Record FileEffectLog : Type := mkLog {
  fl_disk : Disk;
  fl_appends_since_compaction : nat;
  fl_compaction_threshold : nat;
  (** The calls made so far. *)
  fl_calls : nat;
}.

Definition DEFAULT_COMPACTION_THRESHOLD : nat := 1024.

Definition FileEffectLog_new (d : Disk) : FileEffectLog := mkLog d 0 DEFAULT_COMPACTION_THRESHOLD 0.

Definition with_compaction_threshold (threshold : nat) (l : FileEffectLog) : FileEffectLog :=
  mkLog (fl_disk l) (fl_appends_since_compaction l) threshold (fl_calls l).

Context `{FileSystem}.

(** One call of the log that leaves [d]. *)
Definition called (d : Disk) (l : FileEffectLog) : FileEffectLog :=
  mkLog d (fl_appends_since_compaction l) (fl_compaction_threshold l) (S (fl_calls l)).

Definition count_appends (n : nat) (l : FileEffectLog) : FileEffectLog :=
  mkLog (fl_disk l) n (fl_compaction_threshold l) (fl_calls l).

(** [FileEffectLog::recover]. *)
Definition recover (l : FileEffectLog) : FileEffectLog * result RecoverySummary PluginError :=
  let io := recover_io (fl_calls l) in
  if negb (ri_task io) then (called (fl_disk l) l, Err (wal_error "the recovery task failed"))
  else let '(d, r) := recover_task io (fl_disk l) in (called d l, r).

(** The compaction an append that has succeeded triggers; its failure is only logged. *)
Definition auto_compact (l : FileEffectLog) : FileEffectLog :=
  if Nat.eqb (fl_compaction_threshold l) 0 then l
  else
    let n := S (fl_appends_since_compaction l) in
    if Nat.leb (fl_compaction_threshold l) n then (recover (count_appends 0 l)).1 else count_appends n l.

(** [FileEffectLog::append]. *)
Definition append (effect : EffectRecord) (l : FileEffectLog) : FileEffectLog * result unit PluginError :=
  match to_vec effect with
  | Err _ => (l, Err (wal_error "serialize effect record"))
  | Ok line =>
      let io := append_io (fl_calls l) in
      if negb (ai_task io) then (called (fl_disk l) l, Err (wal_error "the append task failed"))
      else
        let '(d, r) := append_task io (line +:+ String newline "") (fl_disk l) in
        match r with
        | Err e => (called d l, Err e)
        | Ok _ => (auto_compact (called d l), Ok tt)
        end
  end.

Record RecoveryOutcome : Type := mkOutcome {
  ro_resolved : list EffectRecord;
  ro_unresolved : list EffectRecord;
}.

(** The loop over the unresolved records. *)
Fixpoint reconcile_loop (reconciler : Reconciler) (recs : list EffectRecord) (outcome : RecoveryOutcome)
    (l : FileEffectLog) : FileEffectLog * result RecoveryOutcome PluginError :=
  match recs with
  | [] => (l, Ok outcome)
  | rec :: rest =>
      let state := reconciler rec in
      if is_terminal state then
        let settled := into_state state rec in
        let '(l1, appended) := append settled l in
        match appended with
        | Err e => (l1, Err e)
        | Ok _ => reconcile_loop reconciler rest
                    (mkOutcome (ro_resolved outcome ++ [settled]) (ro_unresolved outcome)) l1
        end
      else reconcile_loop reconciler rest (mkOutcome (ro_resolved outcome) (ro_unresolved outcome ++ [rec])) l
  end.

(** [FileEffectLog::recover_and_reconcile]. *)
Definition recover_and_reconcile (reconciler : Reconciler) (l : FileEffectLog) :
    FileEffectLog * result RecoveryOutcome PluginError :=
  let '(l1, swept) := recover l in
  match swept with
  | Err e => (l1, Err e)
  | Ok summary =>
      let '(l2, looped) := reconcile_loop reconciler (rs_unresolved summary) (mkOutcome [] []) l1 in
      match looped with
      | Err e => (l2, Err e)
      | Ok outcome =>
          if bool_decide (ro_resolved outcome = []) then (l2, Ok outcome)
          else let '(l3, again) := recover l2 in
               match again with Err e => (l3, Err e) | Ok _ => (l3, Ok outcome) end
      end
  end.
End Log.
