(* ===== verification/EffectLogProps.v ===== *)
(** * What the write-ahead log guarantees

    Reading back what was written, the records a recovery keeps, and what a call leaves on
    the disk: under a refusal of any system call, and under a crash after any of them. *)

From Stdlib Require Import Ascii String.
From S2P Require Import Prelude RustStr F64 Json Platform Lexical Plugin EffectLog.

(** ** The records a recovery keeps *)

(** The keys in the order they are first seen, and the latest record of a key. *)
Definition seen_order (l : list string) : list string :=
  fold_left (fun seen k => if decide (k ∈ seen) then seen else seen ++ [k]) l [].

Definition latest (records : list EffectRecord) (k : string) : option EffectRecord :=
  last (filter (fun r => ef_key r = k) records).

(** What a recovery should keep: for every key no record settles, in the order the keys
    first appear, its latest record. *)
Definition unresolved_spec (records : list EffectRecord) : list EffectRecord :=
  omap (latest records) (filter (fun k => k ∉ resolved_keys records) (seen_order (map ef_key records))).

Lemma elem_of_resolved k records :
  k ∈ resolved_keys records <-> exists r, r ∈ records /\ ef_key r = k /\ is_terminal (ef_state r) = true.
Proof.
  unfold resolved_keys. rewrite elem_of_list_to_set, list_elem_of_fmap.
  setoid_rewrite list_elem_of_filter. naive_solver.
Qed.

Lemma resolved_app l1 l2 : resolved_keys (l1 ++ l2) = resolved_keys l1 ∪ resolved_keys l2.
Proof. unfold resolved_keys. by rewrite filter_app, map_app, list_to_set_app_L. Qed.

Lemma seen_order_snoc l k :
  seen_order (l ++ [k]) = if decide (k ∈ seen_order l) then seen_order l else seen_order l ++ [k].
Proof. unfold seen_order. by rewrite fold_left_app. Qed.

Lemma seen_order_elem l k : k ∈ seen_order l <-> k ∈ l.
Proof.
  induction l as [|x l IH] using rev_ind; [done|]. rewrite seen_order_snoc. case_decide; set_solver.
Qed.

Lemma seen_order_nodup l : NoDup (seen_order l).
Proof.
  induction l as [|x l IH] using rev_ind; [constructor|]. rewrite seen_order_snoc. case_decide; [done|].
  apply NoDup_app. split_and!; [done|set_solver|apply NoDup_singleton].
Qed.

Lemma latest_snoc l r k : latest (l ++ [r]) k = if decide (ef_key r = k) then Some r else latest l k.
Proof.
  unfold latest. rewrite filter_app. case_decide as Hk.
  - rewrite filter_cons_True, filter_nil by done. by rewrite last_snoc.
  - by rewrite filter_cons_False, filter_nil, app_nil_r.
Qed.

Lemma latest_elem l k r : latest l k = Some r -> r ∈ l /\ ef_key r = k.
Proof. unfold latest. intros Hl%last_Some_elem_of. apply list_elem_of_filter in Hl. naive_solver. Qed.

Lemma latest_some l k : k ∈ map ef_key l -> exists r, latest l k = Some r.
Proof.
  induction l as [|x l IH] using rev_ind; [set_solver|]. rewrite latest_snoc, map_app. case_decide; [eauto|].
  intros [Hin|Hin]%elem_of_app; [auto|set_solver].
Qed.

(** The state of the pass after [l]: the kept records are the latest of the keys kept so
    far, and [pos] is where each of those keys sits. *)
Definition kept (R : gset string) (l : list EffectRecord) (u : list EffectRecord) (pos : gmap string nat) : Prop :=
  let ks := filter (fun k => k ∉ R) (seen_order (map ef_key l)) in
  Forall2 (fun k r => latest l k = Some r) ks u /\ forall k i, pos !! k = Some i <-> ks !! i = Some k.

Lemma latest_other l r ks u :
  Forall2 (fun k x => latest l k = Some x) ks u -> ef_key r ∉ ks -> Forall2 (fun k x => latest (l ++ [r]) k = Some x) ks u.
Proof.
  induction 1 as [|k x ks u Hk _ IH]; intros Hr; constructor; [|apply IH; set_solver].
  rewrite latest_snoc, decide_False; [done|set_solver].
Qed.

Lemma latest_replace l r ks u i :
  Forall2 (fun k x => latest l k = Some x) ks u -> NoDup ks -> ks !! i = Some (ef_key r) ->
  Forall2 (fun k x => latest (l ++ [r]) k = Some x) ks (<[i := r]> u).
Proof.
  intros Hu. revert i. induction Hu as [|k x ks u Hk Hu IH]; intros [|i] Hnd Hi; simplify_eq/=;
    apply NoDup_cons in Hnd as [Hnin Hnd].
  - constructor; [by rewrite latest_snoc, decide_True|]. by apply latest_other.
  - constructor; [|by apply IH]. rewrite latest_snoc, decide_False; [done|].
    intros <-. by apply list_elem_of_lookup_2 in Hi.
Qed.

Lemma kept_snoc R l u pos r :
  kept R l u pos -> let '(u', pos') := keep_latest R (u, pos) r in kept R (l ++ [r]) u' pos'.
Proof.
  unfold kept, keep_latest. rewrite map_app. simpl. rewrite seen_order_snoc.
  pose proof (seen_order_nodup (map ef_key l)) as Hnd. set (seen := seen_order (map ef_key l)) in *. intros [Hu Hpos].
  pose proof (Forall2_length _ _ _ Hu) as Hlen.
  destruct (decide (ef_key r ∈ R)) as [HR|HR].
  - replace (filter _ (if decide _ then _ else _)) with (filter (fun k => k ∉ R) seen).
    + split; [|done]. apply latest_other; [done|]. intros Hin%list_elem_of_filter. tauto.
    + case_decide; [done|]. rewrite filter_app, filter_cons_False by tauto. by rewrite filter_nil, app_nil_r.
  - destruct (pos !! ef_key r) as [i|] eqn:Ei.
    + apply Hpos in Ei. rewrite decide_True by (rewrite <- Hlen; by eapply lookup_lt_Some).
      rewrite decide_True by (eapply list_elem_of_filter, list_elem_of_lookup_2, Ei).
      split; [|done]. apply latest_replace; [done|by apply NoDup_filter|done].
    + assert (Hnew : ef_key r ∉ filter (fun k => k ∉ R) seen).
      { intros [i Hi]%list_elem_of_lookup. apply Hpos in Hi. congruence. }
      rewrite decide_False by (intros Hin; apply Hnew; by apply list_elem_of_filter).
      rewrite filter_app, filter_cons_True, filter_nil by done. split.
      * apply Forall2_app; [by apply latest_other|]. constructor; [by rewrite latest_snoc, decide_True|constructor].
      * intros k i. rewrite <- Hlen. rewrite lookup_insert_Some, lookup_app_Some, Hpos, list_lookup_singleton_Some.
        split; [|naive_solver lia].
        intros [[<- <-]|[Hk Hi]]; [right; split; [lia|split; [lia|done]]|by left].
Qed.

Lemma unresolved_kept R l : forall p u pos, kept R p u pos ->
  let '(u', pos') := fold_left (keep_latest R) l (u, pos) in kept R (p ++ l) u' pos'.
Proof.
  induction l as [|r l IH]; intros p u pos Hk; cbn [fold_left]; [by rewrite app_nil_r|].
  apply (kept_snoc R p u pos r) in Hk. destruct (keep_latest R (u, pos) r) as [u1 pos1].
  replace (p ++ r :: l) with ((p ++ [r]) ++ l) by (by rewrite <- app_assoc).
  by apply (IH (p ++ [r]) u1 pos1).
Qed.

Lemma omap_forall2 {A B} (f : A -> option B) ks u : Forall2 (fun k x => f k = Some x) ks u -> omap f ks = u.
Proof. induction 1 as [|k x ks u Hk _ IH]; simpl; [done|]. rewrite Hk. f_equal. exact IH. Qed.

Lemma unresolved_forall2 records :
  Forall2 (fun k r => latest records k = Some r)
    (filter (fun k => k ∉ resolved_keys records) (seen_order (map ef_key records))) (unresolved_of records).
Proof.
  pose proof (unresolved_kept (resolved_keys records) records [] [] ∅) as Hk. unfold unresolved_of.
  destruct (fold_left _ _ _) as [u pos]. apply Hk. split; [constructor|]. intros k i. by rewrite lookup_empty.
Qed.

Lemma unresolved_of_spec records : unresolved_of records = unresolved_spec records.
Proof. symmetry. apply omap_forall2, unresolved_forall2. Qed.

Lemma elem_of_unresolved records r :
  r ∈ unresolved_of records <-> ef_key r ∉ resolved_keys records /\ latest records (ef_key r) = Some r.
Proof.
  rewrite unresolved_of_spec. unfold unresolved_spec. rewrite list_elem_of_omap. split.
  - intros (k & Hk & Hl). pose proof (latest_elem _ _ _ Hl) as [_ <-]. apply list_elem_of_filter in Hk. tauto.
  - intros [Hr Hl]. exists (ef_key r). split; [|done]. apply list_elem_of_filter. split; [done|].
    apply seen_order_elem. apply latest_elem in Hl as [Hin _]. by apply list_elem_of_fmap_2.
Qed.

Lemma unresolved_keys records :
  map ef_key (unresolved_of records)
  = filter (fun k => k ∉ resolved_keys records) (seen_order (map ef_key records)).
Proof.
  induction (unresolved_forall2 records) as [|k r ks u Hk _ IH]; [done|]. simpl. rewrite IH. f_equal.
  by apply latest_elem in Hk as [_ <-].
Qed.

(** *** Compaction *)

Lemma seen_order_filter P `{forall k : string, Decision (P k)} l : filter P (seen_order l) = seen_order (filter P l).
Proof.
  induction l as [|x l IH] using rev_ind; [done|]. rewrite seen_order_snoc, filter_app.
  destruct (decide (P x)) as [Hx|Hx].
  - rewrite filter_cons_True, filter_nil, seen_order_snoc by done. rewrite <- IH.
    destruct (decide (x ∈ seen_order l)) as [Hin|Hin].
    + by rewrite decide_True by (by apply list_elem_of_filter).
    + rewrite decide_False by (rewrite list_elem_of_filter; tauto).
      by rewrite filter_app, filter_cons_True, filter_nil.
  - rewrite filter_cons_False, filter_nil, app_nil_r by done. rewrite <- IH. case_decide; [done|].
    by rewrite filter_app, filter_cons_False, filter_nil, app_nil_r.
Qed.

Lemma seen_order_id l : NoDup l -> seen_order l = l.
Proof.
  induction l as [|x l IH] using rev_ind; [done|]. rewrite seen_order_snoc.
  intros (Hl & Hx & _)%NoDup_app. rewrite IH by done. rewrite decide_False; [done|set_solver].
Qed.

Lemma seen_order_absorb a b : seen_order (seen_order a ++ b) = seen_order (a ++ b).
Proof.
  induction b as [|x b IH] using rev_ind.
  - rewrite !app_nil_r. apply seen_order_id, seen_order_nodup.
  - by rewrite !app_assoc, !seen_order_snoc, IH.
Qed.

Lemma latest_app a b k : latest (a ++ b) k = match latest b k with Some r => Some r | None => latest a k end.
Proof.
  induction b as [|r b IH] using rev_ind; [by rewrite app_nil_r|]. rewrite app_assoc, !latest_snoc.
  by case_decide.
Qed.

Lemma unresolved_no_terminal records : resolved_keys (unresolved_of records) = ∅.
Proof.
  apply set_eq. intros k. split; [|set_solver]. intros (r & Hin & Hk & Ht)%elem_of_resolved.
  apply elem_of_unresolved in Hin as [Hn Hl]. exfalso. apply Hn, elem_of_resolved.
  apply latest_elem in Hl as [Hin _]. eauto.
Qed.

Lemma latest_unresolved records k :
  k ∉ resolved_keys records -> latest (unresolved_of records) k = latest records k.
Proof.
  intros Hk. destruct (latest records k) as [r|] eqn:Er.
  - pose proof (latest_elem _ _ _ Er) as [_ <-].
    assert (Hin : r ∈ unresolved_of records) by (by apply elem_of_unresolved).
    destruct (latest_some (unresolved_of records) (ef_key r)) as [r' Hr']; [by apply list_elem_of_fmap_2|].
    rewrite Hr'. pose proof (latest_elem _ _ _ Hr') as [[_ Hl]%elem_of_unresolved Hk']. congruence.
  - destruct (latest (unresolved_of records) k) as [r|] eqn:E; [|done].
    pose proof (latest_elem _ _ _ E) as [[_ Hl]%elem_of_unresolved <-]. congruence.
Qed.

Lemma unresolved_ext a b :
  filter (fun k => k ∉ resolved_keys a) (seen_order (map ef_key a))
  = filter (fun k => k ∉ resolved_keys b) (seen_order (map ef_key b)) ->
  (forall k, k ∉ resolved_keys b -> latest a k = latest b k) -> unresolved_of a = unresolved_of b.
Proof.
  intros Hks Hl. rewrite !unresolved_of_spec. unfold unresolved_spec. rewrite Hks.
  apply list_omap_ext, Forall_Forall2_diag, Forall_forall. intros k [Hk _]%list_elem_of_filter. by apply Hl.
Qed.

(** Records of keys the log has not settled already fold into a compacted log as they would
    into the original one. *)
Lemma compaction_transparent_app records new :
  Forall (fun r => ef_key r ∉ resolved_keys records) new ->
  unresolved_of (unresolved_of records ++ new) = unresolved_of (records ++ new).
Proof.
  intros Hnew. apply unresolved_ext.
  - rewrite !map_app, unresolved_keys, !resolved_app, unresolved_no_terminal, (left_id_L ∅ (∪)).
    rewrite (seen_order_filter _ (map ef_key records)), seen_order_absorb, !seen_order_filter, !filter_app.
    f_equal. f_equal.
    + rewrite list_filter_filter. apply list_filter_iff. intros k. set_solver.
    + apply filter_same. intros k (r & -> & Hr)%list_elem_of_fmap. rewrite Forall_forall in Hnew.
      specialize (Hnew r Hr). set_solver.
  - intros k Hk. rewrite resolved_app in Hk. rewrite !latest_app, latest_unresolved; [done|set_solver].
Qed.

Lemma forall2_filter_keys (k : string) records ks u :
  Forall2 (fun k r => latest records k = Some r) ks u ->
  Forall2 (fun k r => latest records k = Some r) (filter (fun x => x <> k) ks) (filter (fun r => ef_key r <> k) u).
Proof.
  induction 1 as [|x r ks u Hx _ IH]; [constructor|]. rewrite !filter_cons.
  pose proof (latest_elem _ _ _ Hx) as [_ ->]. case_decide; [by constructor|done].
Qed.

(** A settling record removes its key and nothing else. *)
Lemma unresolved_settle records r :
  is_terminal (ef_state r) = true ->
  unresolved_of (records ++ [r]) = filter (fun x => ef_key x <> ef_key r) (unresolved_of records).
Proof.
  intros Ht. rewrite (unresolved_of_spec (_ ++ _)). apply omap_forall2.
  pose proof (forall2_filter_keys (ef_key r) _ _ _ (unresolved_forall2 records)) as Hf.
  replace (filter _ (seen_order (map ef_key (records ++ [r]))))
    with (filter (fun x => x <> ef_key r) (filter (fun k => k ∉ resolved_keys records) (seen_order (map ef_key records)))).
  - apply latest_other; [done|]. intros [Hne _]%list_elem_of_filter. done.
  - rewrite list_filter_filter, map_app, !seen_order_filter, filter_app.
    assert (Hr : resolved_keys (records ++ [r]) = resolved_keys records ∪ {[ef_key r]}).
    { rewrite resolved_app. f_equal. unfold resolved_keys. rewrite filter_cons_True, filter_nil by done.
      simpl. set_solver. }
    simpl. rewrite filter_cons_False, filter_nil, app_nil_r by (rewrite Hr; set_solver).
    f_equal. apply filter_same. intros k _. rewrite Hr. set_solver.
Qed.

Lemma unresolved_nodup records : NoDup (map ef_key (unresolved_of records)).
Proof. rewrite unresolved_keys. apply NoDup_filter, seen_order_nodup. Qed.

Lemma unresolved_idemp records : unresolved_of (unresolved_of records) = unresolved_of records.
Proof.
  pose proof (compaction_transparent_app records [] (Forall_nil_2 _)) as Ht. by rewrite !app_nil_r in Ht.
Qed.

(** ** Reading back the file *)

Lemma utf8_from_app s : forall pending t, utf8_from pending s = true -> utf8_from pending (s +:+ t) = from_utf8 t.
Proof.
  induction s as [|a s IH]; intros pending t Hs.
  - by destruct pending.
  - rewrite string_app_cons. destruct pending as [|[lo hi] rest]; simpl in *.
    + destruct (utf8_lead a); [by apply IH|done].
    + apply andb_true_iff in Hs as [-> Hs]. by apply IH.
Qed.

Lemma complete_app s t : complete_lines (s +:+ String newline t) = s +:+ String newline (complete_lines t).
Proof.
  induction s as [|a s IH].
  - simpl. by destruct (complete_lines t).
  - rewrite !string_app_cons. simpl. rewrite IH. by destruct s.
Qed.

Lemma complete_torn t : contains_char newline t = false -> complete_lines t = "".
Proof.
  induction t as [|a t IH]; [done|]. simpl. intros [Ha Ht]%orb_false_iff. rewrite IH by done. by rewrite Ha.
Qed.

Lemma split_line s t : contains_char newline s = false ->
  split newline (s +:+ String newline t) = s :: split newline t.
Proof.
  induction s as [|a s IH].
  - done.
  - rewrite string_app_cons. simpl. intros [-> Hs]%orb_false_iff. by rewrite IH.
Qed.

Lemma strip_cr_none s : contains_char (ascii_of_N 13) s = false -> strip_cr s = s.
Proof.
  induction s as [|a s IH]; [done|]. simpl. intros [Ha Hs]%orb_false_iff.
  destruct s as [|b s]; [by rewrite Ha|]. by rewrite IH.
Qed.

(** A line the log can hold: UTF-8 without control characters, and not blank. *)
Definition line_ok (s : string) : bool :=
  from_utf8 s && negb (contains_char newline s) && negb (contains_char (ascii_of_N 13) s) && negb (String.eqb (trim s) "").

Lemma contains_take c s : forall n, contains_char c s = false -> contains_char c (take_bytes n s) = false.
Proof.
  induction s as [|a s IH]; intros [|n]; try done. simpl. intros [-> Hs]%orb_false_iff. by apply IH.
Qed.

Lemma take_bytes_part s t : forall n, n <= String.length s -> take_bytes n (s +:+ t) = take_bytes n s.
Proof.
  induction s as [|a s IH]; intros [|n] Hn; simpl in *; try done; [lia|]. rewrite IH; [done|lia].
Qed.

Lemma take_bytes_all s : forall n, String.length s <= n -> take_bytes n s = s.
Proof. induction s as [|a s IH]; intros [|n] Hn; simpl in *; try done; [lia|]. rewrite IH; [done|lia]. Qed.

Section Codec.
Context `{EffectCodec}.

(** The codec round-trips [r] through such a line. *)
Definition recordable (r : EffectRecord) : Prop :=
  exists line, to_vec r = Ok line /\ from_str line = Ok r /\ line_ok line = true.

Lemma write_temp_cons r line rest :
  to_vec r = Ok line -> write_temp None (r :: rest) = let? others := write_temp None rest in Ok (line +:+ String newline others).
Proof. intros E. simpl. by rewrite E. Qed.

Lemma write_temp_ok records : Forall recordable records -> exists text, write_temp None records = Ok text.
Proof.
  induction 1 as [|r rs (line & E & _) _ [text IH]]; [by exists ""|].
  exists (line +:+ String newline text). by rewrite (write_temp_cons _ line), IH.
Qed.

(** Whatever follows the last newline is not part of the log. *)
Lemma read_written records text tail :
  Forall recordable records -> write_temp None records = Ok text -> contains_char newline tail = false ->
  read_records (text +:+ tail) = Ok records.
Proof.
  intros Hr Hw Htail.
  assert (complete_lines (text +:+ tail) = text /\ from_utf8 text = true
          /\ forall n, parse_lines n (lines text) = Ok records) as (Hc & Hu & Hp).
  { revert text Hw. induction Hr as [|r rs (line & E & Hf & Hok) Hrs IH]; intros text Hw.
    - injection Hw as <-. split; [by apply complete_torn|done].
    - rewrite (write_temp_cons _ line) in Hw by done. destruct (write_temp None rs) as [others|] eqn:Ew; [|done].
      injection Hw as <-. destruct (IH others eq_refl) as (Hc & Hu & Hp).
      unfold line_ok in Hok. split_bools. split_and!.
      + replace ((line +:+ String newline others) +:+ tail) with (line +:+ String newline (others +:+ tail)).
        * by rewrite complete_app, Hc.
        * by rewrite <- string_app_cons, append_assoc.
      + unfold from_utf8. by rewrite utf8_from_app.
      + intros n. unfold lines. rewrite split_line by done.
        destruct (split newline others) as [|p ps] eqn:Es; [by apply split_ne_nil in Es|].
        cbn [trim_pieces]. rewrite strip_cr_none by done. cbn [parse_lines].
        match goal with Hb : String.eqb (trim line) "" = false |- _ => rewrite Hb end. rewrite Hf.
        unfold lines in Hp. rewrite Es in Hp. by rewrite Hp. }
  unfold read_records. rewrite Hc, Hu. apply Hp.
Qed.

(** ** What a call leaves on the disk *)

(** The file holds exactly [records], durably. *)
Definition holds (d : Disk) (records : list EffectRecord) : Prop :=
  Forall recordable records
  /\ (d = no_file /\ records = []
      \/ exists text, write_temp None records = Ok text /\ d = mkDisk (Some text) [text] []).

(** What a process started after a crash reads, given what the crash left. *)
Definition image_reads (image : option string) (records : list EffectRecord) : Prop :=
  match image with Some raw => read_records raw = Ok records | None => records = [] end.

(** [T] holds of the content of the file and of all a crash may leave of it; every file
    operation keeps that when [T] holds of what it writes. *)
Definition all_images (T : option string -> Prop) (d : Disk) : Prop := T (dk_now d) /\ Forall T (crash_images d).

(** The file, now and after a crash, reads as a list [P] allows. *)
Definition reads_as (d : Disk) (P : list EffectRecord -> Prop) : Prop :=
  all_images (fun image => exists records, image_reads image records /\ P records) d.

Lemma reads_as_impl d (P Q : list EffectRecord -> Prop) :
  reads_as d P -> (forall records, P records -> Q records) -> reads_as d Q.
Proof. intros [Hn Hd] HPQ. split; [naive_solver|]. eapply Forall_impl; [exact Hd|]. naive_solver. Qed.

Lemma holds_reads d records : holds d records -> reads_as d (eq records).
Proof.
  assert (Hw : forall text, Forall recordable records -> write_temp None records = Ok text ->
                            exists read, image_reads (Some text) read /\ records = read).
  { intros text Hr Hw. exists records. split; [|done]. simpl. rewrite <- (string_app_nil_r text). by apply read_written. }
  intros [Hr [[-> ->]|(text & Ht & ->)]]; (split; [|apply Forall_singleton]); simpl; eauto.
Qed.

Lemma write_temp_snoc records r text line :
  write_temp None records = Ok text -> to_vec r = Ok line ->
  write_temp None (records ++ [r]) = Ok (text +:+ (line +:+ String newline "")).
Proof.
  revert text. induction records as [|x xs IH]; intros text Hw Hr.
  - injection Hw as <-. simpl. by rewrite Hr.
  - simpl in Hw. destruct (to_vec x) as [lx|] eqn:Ex; [|done]. simpl in Hw.
    destruct (write_temp None xs) as [tx|] eqn:Et; [|done]. injection Hw as <-.
    rewrite <- app_comm_cons, (write_temp_cons _ lx), (IH tx) by done. f_equal. rewrite append_assoc.
    by rewrite <- string_app_cons.
Qed.

(** Any part of the line that reaches the disk reads as nothing or as the whole record. *)
Lemma read_torn records r text line n :
  Forall recordable records -> recordable r -> to_vec r = Ok line -> write_temp None records = Ok text ->
  exists read, read_records (text +:+ take_bytes n (line +:+ String newline "")) = Ok read
               /\ (read = records \/ read = records ++ [r]).
Proof.
  intros Hrs (line' & E & Hf & Hok) Hr Hw. rewrite Hr in E. injection E as <-.
  destruct (decide (n <= String.length line)) as [Hn|Hn].
  - exists records. split; [|by left]. apply read_written; [done..|]. rewrite take_bytes_part by done.
    unfold line_ok in Hok. split_bools. by apply contains_take.
  - exists (records ++ [r]). split; [|by right]. rewrite take_bytes_all by (rewrite string_app_length; simpl; lia).
    rewrite <- (string_app_nil_r (text +:+ _)). apply read_written; [|by apply write_temp_snoc|done].
    apply Forall_app. split; [done|]. apply Forall_singleton. exists line. by rewrite Hf.
Qed.

Lemma all_images_open T d : all_images T d -> T (Some "") -> all_images T (open_append d).
Proof.
  unfold all_images, open_append, crash_images. destruct (dk_now d) eqn:En; [by rewrite En|]. simpl.
  rewrite Forall_app. intros [_ [_ Hs]] Ht. auto.
Qed.

Lemma all_images_write T d old line n :
  all_images T d -> (forall k, T (Some (old +:+ take_bytes k line))) -> all_images T (write_bytes old line n d).
Proof.
  unfold all_images, write_bytes, crash_images. cbn [dk_now dk_data dk_stale].
  rewrite map_app, !Forall_app. intros (_ & Hd & Hs) Ht. split_and!; auto.
  rewrite map_map. apply Forall_fmap, Forall_forall. intros k _. apply Ht.
Qed.

Lemma all_images_set_len T d old : all_images T d -> T (Some old) -> all_images T (set_len old d).
Proof.
  unfold all_images, set_len, crash_images. cbn [dk_now dk_data dk_stale]. rewrite map_app, !Forall_app.
  intros (_ & Hd & Hs) Ht. split_and!; auto. by apply Forall_singleton.
Qed.

Lemma all_images_sync T d : all_images T d -> all_images T (sync_all d).
Proof.
  unfold all_images, sync_all, crash_images. destruct (dk_now d) as [s|] eqn:En; [|by rewrite En]. simpl.
  rewrite Forall_app. intros (Ht & _ & Hs). auto.
Qed.

Lemma all_images_sync_dir T d : all_images T d -> all_images T (sync_dir d).
Proof.
  unfold all_images, sync_dir, crash_images. simpl. rewrite Forall_app, app_nil_r. tauto.
Qed.

Lemma all_images_rename T d new : all_images T d -> T (Some new) -> all_images T (rename_over new d).
Proof.
  unfold all_images, rename_over, crash_images. cbn [dk_now dk_data dk_stale]. rewrite !Forall_app.
  intros (_ & Hd & Hs) Ht. split_and!; [done|by apply Forall_singleton|done|by destruct (dk_now d)].
Qed.

#[local] Hint Resolve all_images_open all_images_write all_images_set_len all_images_sync all_images_sync_dir
  all_images_rename : policy.

Lemma append_task_images T io line d :
  all_images T d -> (forall k, T (Some (default "" (dk_now d) +:+ take_bytes k line))) ->
  all_images T (append_task io line d).1.
Proof.
  intros Hd Ht. unfold append_task. destruct (ai_open io); [|done]. cbn [negb].
  assert (Hold : T (Some (default "" (dk_now d)))) by (specialize (Ht 0); simpl in Ht; by rewrite string_app_nil_r in Ht).
  assert (Ho : all_images T (open_append d)).
  { unfold open_append. destruct (dk_now d) eqn:En; [done|].
    pose proof (all_images_open T d Hd Hold) as Ho. unfold open_append in Ho. by rewrite En in Ho. }
  replace (default "" (dk_now (open_append d))) with (default "" (dk_now d))
    by (unfold open_append; destruct (dk_now d) as [s|] eqn:En; [by rewrite En|done]).
  unfold append_or_roll_back, sync_parent_dir. cases_in_goal; simplify_eq/=; eauto 6 with policy.
Qed.

Lemma append_task_done io d d' line :
  d = no_file \/ (exists text, d = mkDisk (Some text) [text] []) -> append_task io line d = (d', Ok tt) ->
  d' = mkDisk (Some (default "" (dk_now d) +:+ line)) [default "" (dk_now d) +:+ line] [].
Proof.
  assert (Hall : take_bytes (String.length line) line = line) by (by apply take_bytes_all).
  unfold append_task, append_or_roll_back, sync_parent_dir, sync_all.
  intros [->|[text ->]] Ha; cbn in Ha; repeat (case_match; simplify_eq/=); by rewrite Hall.
Qed.

Lemma append_task_ok io d d' records r line :
  holds d records -> recordable r -> to_vec r = Ok line ->
  append_task io (line +:+ String newline "") d = (d', Ok tt) -> holds d' (records ++ [r]).
Proof.
  intros [Hrs Hd] Hr Hl Ha. split; [apply Forall_app; by rewrite Forall_singleton|]. right.
  apply append_task_done in Ha; [|naive_solver]. destruct Hd as [[-> ->]|(text & Hw & ->)]; simpl in Ha.
  - eexists. split; [by apply (write_temp_snoc [] r "" line)|done].
  - eexists. split; [by apply write_temp_snoc|done].
Qed.

Lemma append_task_repaired io d d' line e :
  dk_now d <> None -> dk_stale d = [] -> dk_data d = [default "" (dk_now d)] ->
  ai_set_len io = true -> ai_set_len_sync io = true -> append_task io line d = (d', Err e) -> d' = d.
Proof.
  intros Hn Hs Hdata Hc Hcs Ha. destruct d as [[text|] data stale]; [|done]. simpl in *. subst.
  unfold append_task, append_or_roll_back in Ha. cbn -[write_bytes] in Ha. rewrite Hc, Hcs in Ha.
  repeat (case_match; simplify_eq/=); done.
Qed.

(** *** Recovery *)

Lemma write_temp_refused refused records text :
  write_temp refused records = Ok text -> write_temp None records = Ok text.
Proof.
  revert refused text. induction records as [|r rs IH]; intros refused text; [done|]. simpl.
  destruct (to_vec r) as [line|]; [|done]. simpl. destruct refused as [[|n]|]; [done| |done]. simpl.
  destruct (write_temp (Some n) rs) as [others|] eqn:Ew; [|done]. by rewrite (IH _ _ Ew).
Qed.

Lemma unresolved_recordable records : Forall recordable records -> Forall recordable (unresolved_of records).
Proof.
  rewrite !Forall_forall. intros Hr r [_ Hl]%elem_of_unresolved. apply latest_elem in Hl as [Hin _]. auto.
Qed.

Lemma recover_task_spec io d records :
  holds d records ->
  match recover_task io d with
  | (d', Ok summary) =>
      summary = mkSummary (size (resolved_keys records)) (unresolved_of records) /\ holds d' (unresolved_of records)
  | (d', Err _) => reads_as d' (fun read => read = records \/ read = unresolved_of records)
  end.
Proof.
  intros Hd. pose proof (holds_reads _ _ Hd) as Hreads.
  assert (Hsame : reads_as d (fun read => read = records \/ read = unresolved_of records))
    by (eapply reads_as_impl; [exact Hreads|auto]).
  pose proof Hd as [Hrs [[-> ->]|(text & Hw & ->)]]; unfold recover_task; cbn [dk_now].
  { simpl. by destruct (ri_read io). }
  destruct Hreads as [(read & Hread & <-) _]. cbn [dk_now image_reads] in Hread. rewrite Hread.
  destruct (ri_read io), (ri_tmp_open io); try done. cbn [negb].
  destruct (write_temp (ri_tmp_write io) (unresolved_of records)) as [new|] eqn:Enew; [|done]. apply write_temp_refused in Enew.
  destruct (ri_tmp_sync io), (ri_rename io); try done. cbn [negb]. unfold sync_parent_dir.
  pose proof (unresolved_recordable _ Hrs) as Hu. destruct (ri_dir io); cbv beta iota zeta.
  - split; [done|]. split; [done|]. right. by exists new.
  - apply all_images_rename; [done|]. exists (unresolved_of records). split; [|by right]. simpl.
    rewrite <- (string_app_nil_r new). by apply read_written.
Qed.

(** *** The log's calls *)

Context `{FileSystem}.
Implicit Types l : FileEffectLog.

Lemma recover_spec l records :
  holds (fl_disk l) records ->
  match recover l with
  | (l', Ok summary) =>
      summary = mkSummary (size (resolved_keys records)) (unresolved_of records)
      /\ holds (fl_disk l') (unresolved_of records)
  | (l', Err _) => reads_as (fl_disk l') (fun read => read = records \/ read = unresolved_of records)
  end.
Proof.
  intros Hd. unfold recover. destruct (ri_task _); cbn [negb].
  - pose proof (recover_task_spec (recover_io (fl_calls l)) _ _ Hd) as Hs.
    destruct (recover_task _ _) as [d' [summary|e]]; done.
  - simpl. eapply reads_as_impl; [by apply holds_reads|auto].
Qed.

Lemma auto_compact_reads l records :
  holds (fl_disk l) records ->
  reads_as (fl_disk (auto_compact l)) (fun read => read = records \/ read = unresolved_of records).
Proof.
  intros Hd. unfold auto_compact. destruct (Nat.eqb _ 0); [eapply reads_as_impl; [by apply holds_reads|auto]|].
  destruct (Nat.leb _ _); [|eapply reads_as_impl; [by apply holds_reads|auto]].
  pose proof (recover_spec (count_appends 0 l) records Hd) as Hs.
  destruct (recover _) as [l' [summary|e]]; simpl; [|done].
  eapply reads_as_impl; [eapply holds_reads, Hs|auto].
Qed.

(** An append is all or nothing, whatever the system refuses and wherever a crash falls: an
    acknowledged record is in every image of the file (the file compacted or not), and a
    refused one leaves the log as it was or with the record that was refused. *)
Lemma append_atomic l records r :
  holds (fl_disk l) records -> recordable r ->
  match append r l with
  | (l', Ok _) =>
      reads_as (fl_disk l') (fun read => read = records ++ [r] \/ read = unresolved_of (records ++ [r]))
  | (l', Err _) => reads_as (fl_disk l') (fun read => read = records \/ read = records ++ [r])
  end.
Proof.
  intros Hd Hr. pose proof Hr as (line & E & _). unfold append. rewrite E. cbn zeta.
  destruct (ai_task _); cbn [negb]; [|eapply reads_as_impl; [by apply holds_reads|auto]].
  destruct (append_task _ _ _) as [d' [[]|e]] eqn:Ea.
  - apply auto_compact_reads. simpl. by eapply append_task_ok.
  - simpl. change d' with (d', @Err unit _ e).1. rewrite <- Ea.
    apply append_task_images; [eapply (reads_as_impl _ (eq records)); [by apply holds_reads|auto]|].
    intros k. destruct Hd as [Hrs [[-> ->]|(text & Hw & ->)]]; simpl.
    + by apply (read_torn [] r "" line).
    + by apply (read_torn records r text line).
Qed.

(** [recovery_exact]: a recovery of a log that holds [records] returns, when it succeeds, exactly
    the latest record of every key no record settles, in the order the keys first appear,
    and the number of settled keys, and leaves a log that holds just those records, which
    another recovery keeps as they are; when it fails at any of its calls, or a crash falls
    anywhere in it, the file reads as before or as that result, never as part of it. *)
Theorem recovery_exact l records (Hdisk : holds (fl_disk l) records) :
  unresolved_spec (unresolved_spec records) = unresolved_spec records
  /\ match recover l with
     | (l', Ok summary) =>
         summary = mkSummary (size (resolved_keys records)) (unresolved_spec records)
         /\ holds (fl_disk l') (unresolved_spec records)
     | (l', Err _) => reads_as (fl_disk l') (fun read => read = records \/ read = unresolved_spec records)
     end.
Proof.
  rewrite <- (unresolved_of_spec records), <- (unresolved_of_spec (unresolved_of records)), unresolved_idemp.
  split; [done|]. by apply recover_spec.
Qed.
End Codec.

(** ** A system to run examples on *)

Definition state_letter (s : EffectState) : string :=
  match s with EsPrepared => "P" | EsConfirmed => "C" | EsRejected => "R" | EsUnknown => "U" end.

Definition letter_state (c : string) : result EffectState string :=
  if String.eqb c "P" then Ok EsPrepared else if String.eqb c "C" then Ok EsConfirmed
  else if String.eqb c "R" then Ok EsRejected else if String.eqb c "U" then Ok EsUnknown else Err "state".

(** A codec of token mints that keeps the state, the key and the plugin. *)
Definition mint_codec : EffectCodec := {|
  to_vec := fun r =>
    Ok ("{" +:+ state_letter (ef_state r) +:+ ":" +:+ ef_key r +:+ ":" +:+ default "" (ef_plugin_name r) +:+ "}");
  from_str := fun s =>
    match strip_prefix "{" s with
    | None => Err "object"
    | Some s1 =>
        match split ":" s1 with
        | [state; key; rest] =>
            let? st := letter_state state in
            match split_once "}" rest with
            | Some (plugin, "") =>
                Ok (mkEffect "token_mint" "mint" key st ∅ (if String.eqb plugin "" then None else Some plugin)
                      None None None None)
            | _ => Err "end"
            end
        | _ => Err "fields"
        end
    end;
|}.

Definition fine_append : AppendIo := mkAppendIo true true true None true true true true.
Definition fine_recover : RecoverIo := mkRecoverIo true true true None true true true.

Definition fine_system : FileSystem := {| append_io := fun _ => fine_append; recover_io := fun _ => fine_recover |}.

Definition mint (key : string) (s : EffectState) : EffectRecord := into_state s (prepared "token_mint" "mint" key).

Lemma mint_recordable r line :
  @to_vec mint_codec r = Ok line -> @from_str mint_codec line = Ok r -> line_ok line = true -> @recordable mint_codec r.
Proof. intros. by exists line. Qed.

Ltac recordable_now := eapply mint_recordable; [reflexivity|vm_compute; reflexivity|vm_compute; reflexivity].

(** A log that holds [records], all of the codec. *)
Definition mint_log (records : list EffectRecord) : FileEffectLog :=
  match @write_temp mint_codec None records with
  | Ok text => FileEffectLog_new (mkDisk (Some text) [text] [])
  | Err _ => FileEffectLog_new no_file
  end.


(** The condition on the disk in [append_atomic] is needed. When the very first append fails
    after the file was created, here in its write and with the roll-back done, the next one
    finds the file there and does not sync its directory: it acknowledges a record a crash
    can still lose with the file. *)
Definition first_write_fails : FileSystem := {|
  append_io := fun n => if Nat.eqb n 0 then mkAppendIo true true true (Some 0) true true true true else fine_append;
  recover_io := fun _ => fine_recover;
|}.

Example acknowledged_and_lost :
  let '(l1, first) := @append mint_codec first_write_fails (mint "a" EsPrepared) (FileEffectLog_new no_file) in
  let '(l2, second) := @append mint_codec first_write_fails (mint "b" EsPrepared) l1 in
  result_is_ok first = false /\ second = Ok tt /\ None ∈ crash_images (fl_disk l2).
Proof. vm_compute. split; [done|]. split; [done|]. apply list_elem_of_In. right. by left. Qed.
