(* ===== verification/EffectSink.v ===== *)
(** * Performing and recording an effect

    The rest of [ppe-core/src/effect.rs] and the executor's and the engine's use of it: the
    keys in flight, the sink that stamps and delivers records, [Extensions::perform_effect]
    and its two halves, and the recovery sweep of the engine. The log is an interface; the
    file log implements it. *)

From Stdlib Require Import Ascii String.
From S2P Require Import Prelude RustStr F64 Json Plugin ExtData Extensions EffectLog.

(** ** The log as the sink sees it *)

Class DurableEffectLog (L : Type) := {
  log_append : EffectRecord -> L -> L * result unit PluginError;
  log_recover_and_reconcile : Reconciler -> L -> L * result RecoveryOutcome PluginError;
}.

#[global] Instance file_effect_log `{EffectCodec, FileSystem} : DurableEffectLog FileEffectLog := {|
  log_append := append;
  log_recover_and_reconcile := recover_and_reconcile;
|}.

(** ** Keys in flight *)

Record InFlightState : Type := mkInFlight {
  if_open : gset string;
  if_sweeps : nat;
  if_touched_during_sweep : gset string;
}.

Definition InFlight_default : InFlightState := mkInFlight ∅ 0 ∅.

Definition touch (key : string) (s : InFlightState) : gset string :=
  if Nat.ltb 0 (if_sweeps s) then {[key]} ∪ if_touched_during_sweep s else if_touched_during_sweep s.

(** [InFlightEffects::open], [close], [sweep] and [is_busy]. *)
Definition in_flight_open (key : string) (s : InFlightState) : InFlightState :=
  mkInFlight ({[key]} ∪ if_open s) (if_sweeps s) (touch key s).

Definition in_flight_close (key : string) (s : InFlightState) : InFlightState :=
  mkInFlight (if_open s ∖ {[key]}) (if_sweeps s) (touch key s).

Definition sweep (s : InFlightState) : InFlightState :=
  mkInFlight (if_open s) (S (if_sweeps s)) (if_touched_during_sweep s).

Definition is_busy (key : string) (s : InFlightState) : bool :=
  bool_decide (key ∈ if_open s) || bool_decide (key ∈ if_touched_during_sweep s).

(** [SweepGuard::drop]. *)
Definition sweep_drop (s : InFlightState) : InFlightState :=
  let sweeps := pred (if_sweeps s) in
  mkInFlight (if_open s) sweeps (if Nat.eqb sweeps 0 then ∅ else if_touched_during_sweep s).

(** [SkipInFlight]. *)
Definition SkipInFlight (inner : Reconciler) (s : InFlightState) : Reconciler :=
  fun effect => if is_busy (ef_key effect) s then EsUnknown else inner effect.

(** [OpenedKeys]: the keys one invocation holds open, over the shared state. *)
Definition opened_open (key : string) (st : list string * InFlightState) : list string * InFlightState :=
  (st.1 ++ [key], in_flight_open key st.2).

Definition opened_close (key : string) (st : list string * InFlightState) : list string * InFlightState :=
  (filter (fun k => k <> key) st.1, in_flight_close key st.2).

(** [OpenedKeys::drop]. *)
Definition opened_drop (st : list string * InFlightState) : list string * InFlightState :=
  ([], fold_left (fun s key => in_flight_close key s) st.1 st.2).

(** ** Errors *)

Definition detached_error : PluginError :=
  PeExecution "effect"
    ("these extensions are a copy, not the ones this handler was given, so the "
     +:+ "effect cannot be attributed to an invocation or recorded against it. "
     +:+ "Perform effects on the `&Extensions` passed to `handle`.")
    (Some "effect_extensions_detached") ∅ None.

Definition mode_debug (m : PluginMode) : string :=
  match m with
  | Sequential => "Sequential" | Transform => "Transform" | Audit => "Audit" | Concurrent => "Concurrent"
  | FireAndForget => "FireAndForget" | Disabled => "Disabled"
  end.

Definition phase_error (m : PluginMode) (plugin_name : string) : PluginError :=
  PeExecution plugin_name
    ("cannot perform an irreversible effect from " +:+ mode_debug m
     +:+ " mode. Work in this phase is cancelled or discarded when the pipeline short-circuits, and an external act "
     +:+ "cannot be taken back, so set this plugin's `mode:` to sequential or transform, "
     +:+ "where it runs to completion and its result is honored.")
    (Some "effect_phase_not_permitted") ∅ None.

Section Sink.
Context {Message L : Type} `{DurableEffectLog L}.
Notation Extensions := (Extensions Message).

(** ** The sink *)

(** [AttachedSink]: the handler by its name, and the capabilities it was registered with. *)
Record AttachedSink : Type := mkAttached {
  at_name : string;
  at_capabilities : Capabilities;
}.

Definition sink_view (s : AttachedSink) (x : Extensions) : Extensions := filter_extensions x (at_capabilities s).

Record EffectSink : Type := mkSink {
  es_handlers : list AttachedSink;
  es_epoch : N;
  es_stream_id : string;
}.

(** One call of a handler's [on_effect]. *)
Record Delivery : Type := mkDelivery {
  dv_sink : string;
  dv_record : EffectRecord;
  dv_view : Extensions;
}.

(** What the sinks, the log and the invocations of one executor share, with the keys of the
    invocation that runs; the deliveries and the acts (each with the log as it stood) are
    the observable past. *)
Record EffectWorld : Type := mkEffectWorld {
  ew_log : option L;
  ew_in_flight : InFlightState;
  ew_opened : list string;
  ew_stream_seq : N;
  ew_emission_seq : N;
  ew_delivered : list Delivery;
  ew_acts : list (EffectRecord * option L);
}.

(** [AtomicU64::fetch_add(1)]. *)
Definition next_seq (n : N) : N := ((n + 1) mod 2 ^ 64)%N.

Definition set_keys (st : list string * InFlightState) (w : EffectWorld) : EffectWorld :=
  mkEffectWorld (ew_log w) st.2 st.1 (ew_stream_seq w) (ew_emission_seq w) (ew_delivered w) (ew_acts w).

Definition set_log (l : option L) (w : EffectWorld) : EffectWorld :=
  mkEffectWorld l (ew_in_flight w) (ew_opened w) (ew_stream_seq w) (ew_emission_seq w) (ew_delivered w) (ew_acts w).

(** [EffectSink::stamp]. *)
Definition stamp (sink : EffectSink) (r : EffectRecord) (w : EffectWorld) : EffectRecord * EffectWorld :=
  (mkEffect (ef_kind r) (ef_description r) (ef_key r) (ef_state r) (ef_details r) (ef_plugin_name r)
     (Some (es_epoch sink)) (Some (es_stream_id sink)) (Some (ew_stream_seq w)) (Some (ew_emission_seq w)),
   mkEffectWorld (ew_log w) (ew_in_flight w) (ew_opened w) (next_seq (ew_stream_seq w)) (next_seq (ew_emission_seq w))
     (ew_delivered w) (ew_acts w)).

(** [EffectSink::dispatch]: every handler is called, whatever an earlier one answers; a
    panic or a timeout is only logged. *)
Definition sink_dispatch (sink : EffectSink) (r : EffectRecord) (x : Extensions) (w : EffectWorld) : EffectWorld :=
  mkEffectWorld (ew_log w) (ew_in_flight w) (ew_opened w) (ew_stream_seq w) (ew_emission_seq w)
    (ew_delivered w ++ map (fun s => mkDelivery (at_name s) r (sink_view s x)) (es_handlers sink)) (ew_acts w).

(** [EffectSink::notify]. *)
Definition notify (sink : EffectSink) (r : EffectRecord) (x : Extensions) (w : EffectWorld) : EffectWorld :=
  if bool_decide (es_handlers sink = []) then w
  else let '(stamped, w1) := stamp sink r w in sink_dispatch sink stamped x w1.

(** ** Recording *)

Definition with_plugin (name : string) (r : EffectRecord) : EffectRecord :=
  mkEffect (ef_kind r) (ef_description r) (ef_key r) (ef_state r) (ef_details r) (Some name) (ef_epoch r)
    (ef_stream_id r) (ef_stream_seq r) (ef_emission_seq r).

(** The durable half of [emit_effect]. *)
Definition append_recorded (record : EffectRecord) (w : EffectWorld) : EffectWorld * result unit PluginError :=
  match ew_log w with
  | None => (w, Ok tt)
  | Some log =>
      let opening := bool_decide (ef_state record = EsPrepared) in
      let w1 := if opening then set_keys (opened_open (ef_key record) (ew_opened w, ew_in_flight w)) w else w in
      let '(log', appended) := log_append record log in
      let w2 := set_log (Some log') w1 in
      let w3 := if negb opening || negb (result_is_ok appended)
                then set_keys (opened_close (ef_key record) (ew_opened w2, ew_in_flight w2)) w2 else w2 in
      (w3, appended)
  end.

(** [Extensions::emit_effect]. *)
Definition emit_effect (sink : EffectSink) (x : Extensions) (effect : EffectRecord) (state : EffectState)
    (w : EffectWorld) : EffectWorld * result unit PluginError :=
  match x_effect_log x with
  | EffectUnrecorded => (w, Ok tt)
  | EffectDetached => (w, Err detached_error)
  | EffectNotPermitted mode plugin_name => (w, Err (phase_error mode plugin_name))
  | EffectRecorded plugin_name =>
      let record := with_plugin plugin_name (into_state state effect) in
      let '(w1, appended) := append_recorded record w in
      match appended with
      | Err e => (w1, Err e)
      | Ok _ => (notify sink record x w1, Ok tt)
      end
  end.

Definition begin_effect (sink : EffectSink) (x : Extensions) (effect : EffectRecord) (w : EffectWorld) :
    EffectWorld * result unit PluginError :=
  emit_effect sink x effect EsPrepared w.

Definition complete_effect (sink : EffectSink) (x : Extensions) (effect : EffectRecord) (state : EffectState)
    (w : EffectWorld) : EffectWorld * result unit PluginError :=
  emit_effect sink x effect state w.

(** The act, noted with the log it ran under. *)
Definition note_act (effect : EffectRecord) (w : EffectWorld) : EffectWorld :=
  mkEffectWorld (ew_log w) (ew_in_flight w) (ew_opened w) (ew_stream_seq w) (ew_emission_seq w) (ew_delivered w)
    (ew_acts w ++ [(effect, ew_log w)]).

(** [Extensions::perform_effect]. *)
Definition perform_effect {T} (sink : EffectSink) (x : Extensions) (effect : EffectRecord)
    (act : EffectWorld -> result T PluginError) (w : EffectWorld) : EffectWorld * result T PluginError :=
  let '(w1, begun) := begin_effect sink x effect w in
  match begun with
  | Err e => (w1, Err e)
  | Ok _ =>
      let outcome := act w1 in
      let terminal := if result_is_ok outcome then EsConfirmed else EsUnknown in
      ((complete_effect sink x effect terminal (note_act effect w1)).1, outcome)
  end.

(** The end of an invocation, whichever way it ends. *)
Definition end_invocation (w : EffectWorld) : EffectWorld :=
  set_keys (opened_drop (ew_opened w, ew_in_flight w)) w.

(** ** Sweeps *)

(** [Executor::emit_reconciled]. *)
Definition emit_reconciled (sink : option EffectSink) (resolved : list EffectRecord) (w : EffectWorld) : EffectWorld :=
  match sink with
  | None => w
  | Some s => fold_left (fun w r => notify s r Extensions_default w) resolved w
  end.

Definition set_in_flight (s : InFlightState) (w : EffectWorld) : EffectWorld := set_keys (ew_opened w, s) w.

(** [PolicyEngine::recover_effects_with]. *)
Definition recover_effects_with (sink : option EffectSink) (reconciler : Reconciler) (w : EffectWorld) :
    EffectWorld * result (list EffectRecord) PluginError :=
  match ew_log w with
  | None => (w, Ok [])
  | Some log =>
      let swept := sweep (ew_in_flight w) in
      let '(log', outcome) := log_recover_and_reconcile (SkipInFlight reconciler swept) log in
      let w1 := set_log (Some log') (set_in_flight swept w) in
      let w2 := match outcome with Ok o => emit_reconciled sink (ro_resolved o) w1 | Err _ => w1 end in
      (set_in_flight (sweep_drop (ew_in_flight w2)) w2,
       match outcome with Ok o => Ok (ro_unresolved o) | Err e => Err e end)
  end.

Definition recover_effects (sink : option EffectSink) (w : EffectWorld) :
    EffectWorld * result (list EffectRecord) PluginError :=
  recover_effects_with sink LogUnknownsReconciler w.
End Sink.
Arguments EffectWorld Message L : clear implicits.
Arguments Delivery Message : clear implicits.
