(* ===== verification/EffectSinkProps.v ===== *)
(** * What performing an effect guarantees

    The act runs only behind a durable intent, the stream the sinks see has no gap, and a
    sweep settles every orphan its reconciler can answer for. *)

From Stdlib Require Import Ascii String.
From S2P Require Import Prelude RustStr F64 Json Plugin ExtData Extensions EffectLog EffectLogProps EffectSink.

(** ** The intent before the act *)

Section WriteAhead.
Context `{EffectCodec, FileSystem} {Message T : Type}.
Implicit Types (w : EffectWorld Message FileEffectLog) (x : Extensions Message).

Definition intent_of (plugin : string) (effect : EffectRecord) : EffectRecord :=
  with_plugin plugin (into_state EsPrepared effect).

Lemma notify_log sink r x w : ew_log (notify sink r x w) = ew_log w /\ ew_acts (notify sink r x w) = ew_acts w.
Proof. unfold notify. by case_bool_decide. Qed.

Lemma emit_recorded sink x plugin effect state w l :
  x_effect_log x = EffectRecorded plugin -> ew_log w = Some l ->
  let '(w', res) := emit_effect sink x effect state w in
  let '(l', appended) := append (with_plugin plugin (into_state state effect)) l in
  ew_log w' = Some l' /\ ew_acts w' = ew_acts w /\ res = appended.
Proof.
  intros Hx Hl. unfold emit_effect, append_recorded. rewrite Hx, Hl. simpl log_append.
  destruct (append _ l) as [l' [[]|e]]; cbv beta iota zeta.
  - rewrite (proj1 (notify_log _ _ _ _)), (proj2 (notify_log _ _ _ _)). by repeat case_match.
  - by repeat case_match.
Qed.

Lemma intent_kept records r :
  is_terminal (ef_state r) = false -> ef_key r ∉ map ef_key records -> r ∈ unresolved_of (records ++ [r]).
Proof.
  intros Ht Hk. apply elem_of_unresolved. rewrite latest_snoc, decide_True by done. split; [|done].
  intros (r' & Hin & Hr' & Ht')%elem_of_resolved. apply elem_of_app in Hin as [Hin| ->%list_elem_of_singleton]; [|congruence].
  apply Hk. rewrite <- Hr'. by apply list_elem_of_fmap_2.
Qed.

(** Claim C18. [perform_effect_write_ahead]: over a file log that holds its records durably (its
    name synced in its directory, no torn line, or no file yet), an effect whose key the log
    does not know and whose intent can be written and read back, performed under a recording
    slot, either does not run at all, and then returns an error and leaves the log as it was or
    with the refused intent, or it runs exactly once, and at that point every image a crash
    could leave of the log (compacted or not) holds its intent, under the name of the plugin
    the executor was running; from a copy of the extensions or a phase that may not act, it
    never runs. Without the first condition it fails: see [acknowledged_and_lost]. *)
Theorem perform_effect_write_ahead sink x effect (act : EffectWorld Message FileEffectLog -> result T PluginError) w l records
  (Hlog : ew_log w = Some l) (Hdisk : holds (fl_disk l) records)
  (Hfresh : ef_key effect ∉ map ef_key records)
  (Hrec : forall plugin, x_effect_log x = EffectRecorded plugin -> recordable (intent_of plugin effect)) :
  let '(w', res) := perform_effect sink x effect act w in
  match x_effect_log x with
  | EffectRecorded plugin =>
      (exists e l', res = Err e /\ ew_acts w' = ew_acts w /\ ew_log w' = Some l'
                    /\ reads_as (fl_disk l') (fun read => read = records \/ read = records ++ [intent_of plugin effect]))
      \/ (exists l1, ew_acts w' = ew_acts w ++ [(effect, Some l1)]
                     /\ reads_as (fl_disk l1) (fun read => intent_of plugin effect ∈ read))
  | EffectUnrecorded => ew_acts w' = ew_acts w ++ [(effect, Some l)]
  | EffectDetached | EffectNotPermitted _ _ => ew_acts w' = ew_acts w /\ result_is_ok res = false
  end.
Proof.
  unfold perform_effect, begin_effect, complete_effect. destruct (x_effect_log x) as [| |plugin|mode name] eqn:Hx.
  1,2,4: unfold emit_effect; rewrite Hx; simpl; by rewrite ?Hlog.
  pose proof (emit_recorded sink x plugin effect EsPrepared w l Hx Hlog) as He.
  pose proof (append_atomic l records (intent_of plugin effect) Hdisk (Hrec plugin eq_refl)) as Ha. unfold intent_of in Ha.
  destruct (emit_effect _ _ _ EsPrepared w) as [w1 res1], (append _ l) as [l1 r1]. destruct He as (Hl1 & Hacts & ->).
  destruct r1 as [[]|e]; [right|left; eauto 7].
  exists l1. split.
  - set (w2 := note_act effect w1). set (s := if result_is_ok (act w1) then EsConfirmed else EsUnknown).
    pose proof (emit_recorded sink x plugin effect s w2 l1 Hx Hl1) as He.
    destruct (emit_effect _ _ _ s w2) as [w3 res3], (append _ l1) as [l3 r3]. destruct He as (_ & Ha3 & _).
    simpl. rewrite Ha3. unfold w2. simpl. by rewrite Hacts, Hl1.
  - eapply reads_as_impl; [exact Ha|]. intros read [->| ->].
    + apply elem_of_app. right. by apply list_elem_of_singleton.
    + by apply intent_kept.
Qed.
End WriteAhead.

(** ** The stream *)

Section Stream.
Context {Message L : Type} `{DurableEffectLog L}.
Implicit Types (w : EffectWorld Message L) (x : Extensions Message).

(** One emission, and the records accepted so far with the extensions they came with. *)
Definition emit_step (sink : EffectSink) (st : EffectWorld Message L * list (EffectRecord * Extensions Message))
    (call : Extensions Message * EffectRecord * EffectState) :
    EffectWorld Message L * list (EffectRecord * Extensions Message) :=
  let '(x, effect, state) := call in
  let '(w', res) := emit_effect sink x effect state st.1 in
  (w', st.2 ++ match res, x_effect_log x with
               | Ok _, EffectRecorded plugin => [(with_plugin plugin (into_state state effect), x)]
               | _, _ => []
               end).

Definition counter_at (n : N) (i : nat) : N := ((n + N.of_nat i) mod 2 ^ 64)%N.

(** The [i]-th record of a stream that starts at [n] and [m], as the handlers get it. *)
Definition deliveries_at (sink : EffectSink) (n m : N) (i : nat) (accepted : EffectRecord * Extensions Message) :
    list (Delivery Message) :=
  let '(r, x) := accepted in
  map (fun s =>
         mkDelivery (at_name s)
           (mkEffect (ef_kind r) (ef_description r) (ef_key r) (ef_state r) (ef_details r) (ef_plugin_name r)
              (Some (es_epoch sink)) (Some (es_stream_id sink)) (Some (counter_at n i)) (Some (counter_at m i)))
           (sink_view s x))
    (es_handlers sink).

Lemma counter_next n i : next_seq (counter_at n i) = counter_at n (S i).
Proof.
  unfold next_seq, counter_at. rewrite N.Div0.add_mod_idemp_l. f_equal. lia.
Qed.

Lemma append_recorded_stream r w :
  let '(w', _) := append_recorded r w in
  ew_stream_seq w' = ew_stream_seq w /\ ew_emission_seq w' = ew_emission_seq w /\ ew_delivered w' = ew_delivered w.
Proof.
  unfold append_recorded. destruct (ew_log w); [|done]. destruct (log_append _ _) as [l' r']. cbv zeta.
  by repeat case_match.
Qed.

(** [effect_stream_dense]: over any sequence of effect emissions, from any slots, with any of the
    appends refused, the handlers get exactly the records the log accepted, in that order,
    each handler every record with its own view, and the stream and emission numbers they
    carry are consecutive from the counters the sequence started at: a refused, detached or
    forbidden emission spends no number. *)
Theorem effect_stream_dense sink calls w
  (Hhandlers : es_handlers sink <> [])
  (Hseq : (ew_stream_seq w < 2 ^ 64)%N) (Hem : (ew_emission_seq w < 2 ^ 64)%N) :
  let '(w', accepted) := fold_left (emit_step sink) calls (w, []) in
  ew_delivered w' = ew_delivered w ++ concat (imap (deliveries_at sink (ew_stream_seq w) (ew_emission_seq w)) accepted)
  /\ ew_stream_seq w' = counter_at (ew_stream_seq w) (length accepted)
  /\ ew_emission_seq w' = counter_at (ew_emission_seq w) (length accepted).
Proof.
  assert (H0 : forall n, (n < 2 ^ 64)%N -> n = counter_at n 0).
  { intros n Hn. unfold counter_at. rewrite N.add_0_r. by rewrite N.mod_small. }
  set (Inv := fun (w' : EffectWorld Message L) accepted =>
    ew_delivered w' = ew_delivered w ++ concat (imap (deliveries_at sink (ew_stream_seq w) (ew_emission_seq w)) accepted)
    /\ ew_stream_seq w' = counter_at (ew_stream_seq w) (length accepted)
    /\ ew_emission_seq w' = counter_at (ew_emission_seq w) (length accepted)).
  change (let '(w', accepted) := fold_left (emit_step sink) calls (w, []) in Inv w' accepted).
  assert (Hi : Inv w []) by (unfold Inv; simpl; rewrite app_nil_r; auto).
  enough (Hgen : forall acc w0, Inv w0 acc ->
            let '(w', accepted) := fold_left (emit_step sink) calls (w0, acc) in Inv w' accepted) by (by apply Hgen).
  clear Hi. induction calls as [|[[x effect] state] calls IH]; intros acc w0 Hi; [done|]. cbn [fold_left].
  unfold emit_step at 2. cbn [fst snd].
  destruct (emit_effect sink x effect state w0) as [w1 res] eqn:Ee. apply IH. clear IH.
  unfold emit_effect in Ee. destruct (x_effect_log x) as [| |plugin|mode name];
    try (injection Ee as <- <-; by rewrite app_nil_r).
  pose proof (append_recorded_stream (with_plugin plugin (into_state state effect)) w0) as Ha.
  destruct (append_recorded _ w0) as [w2 [[]|e]]; destruct Ha as (Hs & He & Hd); injection Ee as <- <-.
  - unfold notify. rewrite bool_decide_eq_false_2 by done. unfold Inv in *. simpl.
    rewrite Hd, Hs, He. destruct Hi as (-> & -> & ->). rewrite !counter_next, imap_app, concat_app, length_app. simpl.
    rewrite Nat.add_1_r, Nat.add_0_r, app_nil_r, <- app_assoc. done.
  - rewrite app_nil_r. unfold Inv in *. by rewrite Hd, Hs, He.
Qed.
End Stream.

(** ** A sweep *)

Section Sweep.
Context `{EffectCodec, FileSystem}.
Implicit Types l : FileEffectLog.

(** The system refuses no call. *)
Definition append_fine (io : AppendIo) : Prop :=
  ai_task io = true /\ ai_open io = true /\ ai_metadata io = true /\ ai_write io = None /\ ai_sync io = true
  /\ ai_dir io = true.

Definition recover_fine (io : RecoverIo) : Prop :=
  ri_task io = true /\ ri_read io = true /\ ri_tmp_open io = true /\ ri_tmp_write io = None /\ ri_tmp_sync io = true
  /\ ri_rename io = true /\ ri_dir io = true.

Context (Happend : forall n, append_fine (append_io n)) (Hrecover : forall n, recover_fine (recover_io n)).

Lemma recover_reliable l records :
  holds (fl_disk l) records ->
  exists l', recover l = (l', Ok (mkSummary (size (resolved_keys records)) (unresolved_of records)))
             /\ holds (fl_disk l') (unresolved_of records).
Proof.
  intros Hd. pose proof (recover_spec l records Hd) as Hs.
  enough (exists l' s, recover l = (l', Ok s)) as (l' & s & E) by (rewrite E in Hs; destruct Hs as [-> Hs]; eauto).
  unfold recover, recover_task. destruct (Hrecover (fl_calls l)) as (-> & -> & -> & -> & -> & -> & ->). cbn [negb].
  pose proof (holds_reads _ _ Hd) as [(read & Hread & <-) _]. destruct Hd as [Hrs _].
  destruct (dk_now (fl_disk l)) as [raw|]; [|eauto]. cbn [image_reads] in Hread. rewrite Hread.
  destruct (write_temp_ok _ (unresolved_recordable _ Hrs)) as [text ->]. simpl. eauto.
Qed.

Lemma append_reliable l records r :
  holds (fl_disk l) records -> recordable r ->
  exists l' records', append r l = (l', Ok tt) /\ holds (fl_disk l') records'
                      /\ (records' = records ++ [r] \/ records' = unresolved_of (records ++ [r])).
Proof.
  intros Hd Hr. pose proof Hr as (line & E & _). unfold append. rewrite E. cbv zeta.
  pose proof (Happend (fl_calls l)) as Hio.
  destruct (append_task (append_io (fl_calls l)) (line +:+ String newline "") (fl_disk l)) as [d' res] eqn:Ea.
  assert (res = Ok tt) as ->.
  { destruct Hio as (_ & Ho & Hm & Hw & Hs & Hdir). unfold append_task, append_or_roll_back in Ea.
    rewrite Ho, Hm, Hw, Hs, Hdir in Ea. cbn -[write_bytes] in Ea. by case_bool_decide; injection Ea as <- <-. }
  rewrite (proj1 Hio). cbn [negb]. apply (append_task_ok _ _ _ _ _ _ Hd Hr E) in Ea.
  unfold auto_compact. cbn [fl_compaction_threshold called].
  destruct (Nat.eqb _ 0); [eauto 7|]. destruct (Nat.leb _ _); [|eauto 7].
  destruct (recover_reliable (count_appends 0 (called d' l)) _ Ea) as (l' & El & Hl'). rewrite El. eauto 7.
Qed.

(** The records a reconciler settles, as it settles them, and the ones it leaves. *)
Definition settled_by (rec : Reconciler) (recs : list EffectRecord) : list EffectRecord :=
  map (fun r => into_state (rec r) r) (filter (fun r => is_terminal (rec r) = true) recs).

Definition left_by (rec : Reconciler) (recs : list EffectRecord) : list EffectRecord :=
  filter (fun r => is_terminal (rec r) = false) recs.

Lemma reconcile_loop_reliable rec recs : forall outcome l records,
  holds (fl_disk l) records -> Forall recordable (settled_by rec recs) ->
  exists l' records',
    reconcile_loop rec recs outcome l
    = (l', Ok (mkOutcome (ro_resolved outcome ++ settled_by rec recs) (ro_unresolved outcome ++ left_by rec recs)))
    /\ holds (fl_disk l') records'
    /\ unresolved_of records' = filter (fun r => ef_key r ∉ map ef_key (settled_by rec recs)) (unresolved_of records)
    /\ (settled_by rec recs = [] -> l' = l).
Proof.
  induction recs as [|r recs IH]; intros outcome l records Hd Hs.
  - exists l, records. unfold settled_by, left_by. simpl. rewrite !app_nil_r. split_and!; [by destruct outcome|done| |done].
    symmetry. apply filter_all. intros x _. apply not_elem_of_nil.
  - unfold settled_by, left_by in *. cbn [reconcile_loop]. destruct (is_terminal (rec r)) eqn:Et.
    + rewrite filter_cons_True in Hs |- * by done. rewrite filter_cons_False by congruence. simpl in Hs.
      apply Forall_cons in Hs as [Hr Hs].
      destruct (append_reliable l records _ Hd Hr) as (l1 & recs1 & -> & Hd1 & Hrecs1).
      destruct (IH (mkOutcome (ro_resolved outcome ++ [into_state (rec r) r]) (ro_unresolved outcome)) l1 recs1 Hd1 Hs)
        as (l' & recs' & E & Hd' & Hu & _).
      exists l', recs'. rewrite E. simpl. rewrite <- app_assoc. split_and!; [done|done| |done].
      rewrite Hu. replace (unresolved_of recs1) with (unresolved_of (records ++ [into_state (rec r) r]))
        by (destruct Hrecs1 as [-> | ->]; [done|by rewrite unresolved_idemp]).
      rewrite unresolved_settle by done. rewrite list_filter_filter. apply list_filter_iff. intros x. simpl.
      rewrite not_elem_of_cons. tauto.
    + rewrite filter_cons_False in Hs |- * by congruence. rewrite filter_cons_True by done.
      destruct (IH (mkOutcome (ro_resolved outcome) (ro_unresolved outcome ++ [r])) l records Hd Hs)
        as (l' & recs' & E & Hrest).
      exists l', recs'. rewrite E. simpl. by rewrite <- app_assoc.
Qed.

Lemma left_keys rec recs :
  NoDup (map ef_key recs) -> filter (fun r => ef_key r ∉ map ef_key (settled_by rec recs)) recs = left_by rec recs.
Proof.
  unfold left_by. intros Hnd. apply filter_same. intros r Hr. unfold settled_by. rewrite map_map.
  rewrite list_elem_of_fmap. simpl. split.
  - intros Hno. destruct (is_terminal (rec r)) eqn:Et; [|done]. destruct Hno. exists r. split; [done|].
    by apply list_elem_of_filter.
  - intros Et (r' & Hk & [Ht Hin]%list_elem_of_filter).
    enough (r = r') by congruence. by eapply (nodup_map_inj ef_key).
Qed.

Lemma recover_and_reconcile_reliable rec l records :
  holds (fl_disk l) records -> Forall recordable (settled_by rec (unresolved_of records)) ->
  exists l', recover_and_reconcile rec l
             = (l', Ok (mkOutcome (settled_by rec (unresolved_of records)) (left_by rec (unresolved_of records))))
             /\ holds (fl_disk l') (left_by rec (unresolved_of records)).
Proof.
  intros Hd Hs. unfold recover_and_reconcile.
  destruct (recover_reliable l records Hd) as (l1 & -> & Hd1). cbn [rs_unresolved].
  destruct (reconcile_loop_reliable rec (unresolved_of records) (mkOutcome [] []) l1 _ Hd1 Hs)
    as (l2 & recs2 & -> & Hd2 & Hu & Hsame). simpl ro_resolved. simpl ro_unresolved.
  pose proof (left_keys rec (unresolved_of records) (unresolved_nodup records)) as Hleft.
  rewrite unresolved_idemp, Hleft in Hu. case_bool_decide as Hnil.
  - exists l2. split; [done|]. rewrite (Hsame Hnil), <- Hleft, Hnil.
    rewrite filter_all by (intros; apply not_elem_of_nil). done.
  - destruct (recover_reliable l2 recs2 Hd2) as (l3 & -> & Hd3). rewrite Hu in Hd3. eauto.
Qed.

Lemma notify_delivers {Message} sink r x (w : EffectWorld Message FileEffectLog) s :
  s ∈ es_handlers sink ->
  exists d, d ∈ ew_delivered (notify sink r x w) /\ dv_sink d = at_name s
            /\ ef_key (dv_record d) = ef_key r /\ ef_state (dv_record d) = ef_state r.
Proof.
  intros Hs. unfold notify. rewrite bool_decide_eq_false_2 by (intros E; rewrite E in Hs; by apply not_elem_of_nil in Hs).
  simpl. eexists. rewrite elem_of_app, list_elem_of_fmap. split; [right; by exists s|done].
Qed.

Lemma notify_all_keeps {Message} sink rs (w : EffectWorld Message FileEffectLog) :
  let w' := fold_left (fun w r => notify sink r Extensions_default w) rs w in
  ew_log w' = ew_log w /\ ew_in_flight w' = ew_in_flight w /\ ew_delivered w `prefix_of` ew_delivered w'.
Proof.
  revert w. induction rs as [|r rs IH]; intros w; simpl; [done|].
  destruct (IH (notify sink r Extensions_default w)) as (-> & -> & Hp). unfold notify in *.
  case_bool_decide; simpl in *; [done|]. split_and!; [done..|]. etrans; [|exact Hp]. by eexists.
Qed.

Lemma notify_all_delivers {Message} sink rs (w : EffectWorld Message FileEffectLog) r s :
  r ∈ rs -> s ∈ es_handlers sink ->
  exists d, d ∈ ew_delivered (fold_left (fun w r => notify sink r Extensions_default w) rs w)
            /\ dv_sink d = at_name s /\ ef_key (dv_record d) = ef_key r /\ ef_state (dv_record d) = ef_state r.
Proof.
  intros Hin Hs. revert w. induction rs as [|r' rs IH]; intros w; [by apply not_elem_of_nil in Hin|].
  apply elem_of_cons in Hin as [<-|Hin]; [|by apply IH]. simpl.
  destruct (notify_delivers sink r Extensions_default w s Hs) as (d & Hd & Hrest). exists d. split; [|done].
  destruct (notify_all_keeps sink rs (notify sink r Extensions_default w)) as (_ & _ & [k ->]). apply elem_of_app. by left.
Qed.

(** Claim C33. [sweep_settles]: while the system refuses no call, one sweep settles every effect nobody is
    acting on that the reconciler has an answer for: it returns the others, the log holds
    exactly those when it is done, and every sink has been told each answer. *)
Theorem sweep_settles {Message} sink reconciler (w : EffectWorld Message FileEffectLog) l records
  (Hlog : ew_log w = Some l) (Hdisk : holds (fl_disk l) records)
  (Hrec : Forall recordable (settled_by (SkipInFlight reconciler (ew_in_flight w)) (unresolved_of records))) :
  let remaining := filter (fun r => is_busy (ef_key r) (ew_in_flight w) || negb (is_terminal (reconciler r)) = true)
                     (unresolved_of records) in
  let '(w', res) := recover_effects_with (Some sink) reconciler w in
  res = Ok remaining
  /\ (exists l', ew_log w' = Some l' /\ holds (fl_disk l') remaining)
  /\ forall r s, r ∈ unresolved_of records -> r ∉ remaining -> s ∈ es_handlers sink ->
       exists d, d ∈ ew_delivered w' /\ dv_sink d = at_name s
                 /\ ef_key (dv_record d) = ef_key r /\ ef_state (dv_record d) = reconciler r.
Proof.
  set (rec := SkipInFlight reconciler (ew_in_flight w)) in *. intros remaining.
  assert (Hleft : left_by rec (unresolved_of records) = remaining).
  { apply list_filter_iff. intros r. unfold rec, SkipInFlight. destruct (is_busy _ _); simpl; [done|].
    by destruct (is_terminal _). }
  unfold recover_effects_with. rewrite Hlog. change (SkipInFlight reconciler (sweep (ew_in_flight w))) with rec.
  destruct (recover_and_reconcile_reliable rec l records Hdisk Hrec) as (l' & E & Hd'). simpl log_recover_and_reconcile.
  rewrite E. simpl ro_resolved. simpl ro_unresolved. rewrite Hleft in *. cbv zeta.
  set (w1 := set_log (Some l') (set_in_flight (sweep (ew_in_flight w)) w)).
  unfold emit_reconciled. pose proof (notify_all_keeps sink (settled_by rec (unresolved_of records)) w1) as (Hl & _ & _).
  split; [done|]. split; [exists l'; by split|].
  intros r s Hr Hnr Hs. assert (Hset : into_state (reconciler r) r ∈ settled_by rec (unresolved_of records)).
  { apply list_elem_of_fmap. exists r. rewrite list_elem_of_filter. unfold remaining in Hnr.
    rewrite list_elem_of_filter in Hnr. unfold rec, SkipInFlight. destruct (is_busy _ _); simpl in *; [tauto|].
    destruct (is_terminal _); simpl in *; tauto. }
  by apply (notify_all_delivers sink _ w1 (into_state (reconciler r) r)).
Qed.
End Sweep.

(** ** An executor with the file log and one audit sink *)

Definition recording : Extensions unit :=
  mkExtensions None None None None None None None None None None None None None None None None
    false false false TransportNotInstalled (EffectRecorded "oauth").

Definition audit_sink : EffectSink := mkSink [mkAttached "ocsf" ∅] 7 "node/effect".

Definition audited (l : FileEffectLog) (open : gset string) : EffectWorld unit FileEffectLog :=
  mkEffectWorld (Some l) (mkInFlight open 0 ∅) [] 0 0 [] [].

Lemma mint_log_holds records :
  Forall (@recordable mint_codec) records -> @holds mint_codec (fl_disk (mint_log records)) records.
Proof.
  intros Hr. split; [done|]. right. destruct (@write_temp_ok mint_codec records Hr) as [text Ht].
  exists text. unfold mint_log. by rewrite Ht.
Qed.

Lemma perform_effect_write_ahead_witness :
  let w := audited (FileEffectLog_new no_file) ∅ in
  let '(w', _) := @perform_effect unit FileEffectLog (@file_effect_log mint_codec fine_system) nat audit_sink recording
                    (mint "a" EsPrepared) (fun _ => Ok 3) w in
  exists l1, ew_acts w' = [(mint "a" EsPrepared, Some l1)]
             /\ @reads_as mint_codec (fl_disk l1) (fun read => intent_of "oauth" (mint "a" EsPrepared) ∈ read).
Proof.
  intros w.
  pose proof (@perform_effect_write_ahead mint_codec fine_system unit nat audit_sink recording (mint "a" EsPrepared)
                (fun _ => Ok 3) w (FileEffectLog_new no_file) [] eq_refl) as Hw.
  specialize (Hw (conj (Forall_nil_2 _) (or_introl (conj eq_refl eq_refl))) ltac:(apply not_elem_of_nil)).
  specialize (Hw ltac:(intros plugin [= <-]; recordable_now)).
  assert (Hok : result_is_ok (@perform_effect unit FileEffectLog (@file_effect_log mint_codec fine_system) nat audit_sink
                                recording (mint "a" EsPrepared) (fun _ => Ok 3) w).2 = true) by (vm_compute; reflexivity).
  destruct (@perform_effect unit FileEffectLog _ nat _ _ _ _ w) as [w' res]. simpl in Hw.
  destruct Hw as [(e & l' & -> & _)|Hw]; [done|exact Hw].
Defined.


Lemma sweep_settles_witness :
  let records := [mint "a" EsPrepared; mint "b" EsPrepared; mint "c" EsUnknown] in
  let reconciler := fun r => if String.eqb (ef_key r) "c" then EsUnknown else EsConfirmed in
  (@recover_effects_with unit FileEffectLog (@file_effect_log mint_codec fine_system) (Some audit_sink) reconciler
     (audited (mint_log records) {["b"]})).2
  = Ok [mint "b" EsPrepared; mint "c" EsUnknown].
Proof.
  intros records reconciler. set (w := audited (mint_log records) {["b"]}).
  assert (Hr : Forall (@recordable mint_codec) records) by (repeat constructor; recordable_now).
  pose proof (@sweep_settles mint_codec fine_system ltac:(done) ltac:(done) unit audit_sink reconciler w
                (mint_log records) records eq_refl (mint_log_holds _ Hr)) as Hs.
  assert (Hset : settled_by (SkipInFlight reconciler (ew_in_flight w)) (unresolved_of records) = [mint "a" EsConfirmed])
    by (vm_compute; reflexivity).
  rewrite Hset in Hs. specialize (Hs ltac:(constructor; [recordable_now|constructor])).
  destruct (@recover_effects_with unit FileEffectLog _ _ reconciler w) as [w' res].
  destruct Hs as [-> _]. vm_compute. reflexivity.
Defined.
