(* ===== verification/SweepProps.v ===== *)
(** * No act unaccounted for, and no second answer

    Over every interleaving of attempts, sweeps, compactions, refusals of the system,
    cancellations and crashes: a sweep never answers for a key its plugin has answered or will
    answer for, and a performed act has a settling record or still stands in the log, unless a
    crash has lost the log file or a torn line has made it unreadable. *)

From Stdlib Require Import Ascii String.
From S2P Require Import Prelude RustStr F64 Json ExtData Plugin Extensions EffectLog EffectLogProps EffectSink.

(** ** Attempts, sweeps and crashes interleaved

    The tasks of [ppe-core/src/effect.rs] as a step relation: attempts that open a key,
    record their intent, act, record the outcome and close; recovery sweeps that read the
    log, ask a reconciler and record its answers; compactions; cancellation of either, with
    the blocking write it may leave behind; and crashes. The log is the list of records the
    file holds, an append or a recovery one step of it (see [EffectLogProps.append_atomic]
    and [recover_spec]); a key is used by one attempt, as [EffectRecord::key] requires. What a
    refused append, a refused directory sync or a crash leaves of the file beside its records
    is kept too: whether a crash can still take its name away, and whether it ends in a torn
    line. *)

(** ** The state *)

(** How the file ends: in whole lines; in a part of one, which a recovery forgives and the next
    append turns into a line nobody can parse; or with such a line in it, after which every
    recovery refuses the file. *)
Inductive Tail : Type := Clean | Torn | Broken.

(** What a crash can bring back: no file, or the one a compaction replaced. *)
Record Image : Type := mkImage {
  im_file : bool;
  im_records : list EffectRecord;
  im_tail : Tail;
}.

Record LogDisk : Type := mkLogDisk {
  dk_file : bool;             (* [path.exists()] *)
  dk_old : option Image;      (* the name is not durable: what it stands for after a crash *)
  dk_tail : Tail;
  dk_lost : bool;             (* a crash has taken the file away *)
  dk_taken : gset string;     (* the unresolved keys it took with it *)
}.

(** How an append that is not acknowledged leaves the file: without its record (nothing was
    written, or it was cut back), with all of it, or with a part. *)
Inductive Refusal : Type := RolledBack | LeftWhole | LeftTorn.

Definition after_append (t : Tail) : Tail := match t with Torn => Broken | Clean | Broken => t end.
Definition after_tear (t : Tail) : Tail := match t with Clean => Torn | Torn | Broken => t end.

(** An acknowledged append: a call that creates the file has synced its directory. *)
Definition appended (d : LogDisk) : LogDisk := mkLogDisk true (dk_old d) (after_append (dk_tail d)) (dk_lost d) (dk_taken d).

(** One that is not, or that a crash cuts short; [opened] when it got as far as opening the
    file. The directory of a file it has created is not synced, and later appends, which find
    the file, do not sync it either. *)
Definition not_appended (how : Refusal) (opened : bool) (d : LogDisk) : LogDisk :=
  let opened := match how with RolledBack => opened | LeftWhole | LeftTorn => true end in
  mkLogDisk (dk_file d || opened)
    (if negb (dk_file d) && opened then Some (mkImage false [] Clean) else dk_old d)
    (match how with RolledBack => dk_tail d | LeftWhole => after_append (dk_tail d) | LeftTorn => after_tear (dk_tail d) end)
    (dk_lost d) (dk_taken d).

(** A compaction: the rename and the sync of the directory after it, which may be refused; a
    missing file is left alone. *)
Definition compacted (log : list EffectRecord) (synced : bool) (d : LogDisk) : LogDisk :=
  if dk_file d
  then mkLogDisk true
         (if synced then None
          else Some (match dk_old d with Some image => image | None => mkImage true log (dk_tail d) end))
         Clean (dk_lost d) (dk_taken d)
  else d.

(** Where an attempt is: its key is open from [PhOpen] to [PhRecorded]. *)
Inductive AttemptPhase : Type :=
| PhOpen (r : EffectRecord)
| PhIntent (r : EffectRecord)
| PhActing (r : EffectRecord)
| PhOutcome (r : EffectRecord) (s : EffectState)
| PhRecording (r : EffectRecord) (s : EffectState)
| PhRecorded (r : EffectRecord)
| PhClosed.

Inductive SweepPhase : Type :=
| SwStarted
| SwPending (recs : list EffectRecord)
| SwSettling (settled : EffectRecord) (rest : list EffectRecord)
| SwWriting (settled : EffectRecord) (rest : list EffectRecord).

Inductive Author : Type :=
| ByPlugin
| BySweep (n : nat).

Record Race : Type := mkRace {
  rc_log : list EffectRecord;
  (** The blocking task that holds the write lock, and what it appends. *)
  rc_task : option (Author * EffectRecord);
  rc_flight : InFlightState;
  rc_attempts : gmap string AttemptPhase;
  rc_sweeps : gmap nat SweepPhase;
  (** All that was ever written, and the keys whose act was performed. *)
  rc_history : list (Author * EffectRecord);
  rc_acted : gset string;
  rc_disk : LogDisk;
}.

Definition race_start : Race := mkRace [] None InFlight_default ∅ ∅ [] ∅ (mkLogDisk false None Clean false ∅).

Definition set_attempt (k : string) (p : AttemptPhase) (w : Race) : Race :=
  mkRace (rc_log w) (rc_task w) (rc_flight w) (<[k := p]> (rc_attempts w)) (rc_sweeps w) (rc_history w) (rc_acted w) (rc_disk w).

Definition set_flight (s : InFlightState) (w : Race) : Race :=
  mkRace (rc_log w) (rc_task w) s (rc_attempts w) (rc_sweeps w) (rc_history w) (rc_acted w) (rc_disk w).

Definition set_task (t : option (Author * EffectRecord)) (w : Race) : Race :=
  mkRace (rc_log w) t (rc_flight w) (rc_attempts w) (rc_sweeps w) (rc_history w) (rc_acted w) (rc_disk w).

Definition set_records (l : list EffectRecord) (w : Race) : Race :=
  mkRace l (rc_task w) (rc_flight w) (rc_attempts w) (rc_sweeps w) (rc_history w) (rc_acted w) (rc_disk w).

Definition set_sweeps (m : gmap nat SweepPhase) (w : Race) : Race :=
  mkRace (rc_log w) (rc_task w) (rc_flight w) (rc_attempts w) m (rc_history w) (rc_acted w) (rc_disk w).

Definition set_disk (d : LogDisk) (w : Race) : Race :=
  mkRace (rc_log w) (rc_task w) (rc_flight w) (rc_attempts w) (rc_sweeps w) (rc_history w) (rc_acted w) d.

(** A record reaches the log. *)
Definition land (a : Author) (r : EffectRecord) (w : Race) : Race :=
  mkRace (rc_log w ++ [r]) (rc_task w) (rc_flight w) (rc_attempts w) (rc_sweeps w) (rc_history w ++ [(a, r)]) (rc_acted w) (rc_disk w).

Definition act (k : string) (w : Race) : Race :=
  mkRace (rc_log w) (rc_task w) (rc_flight w) (rc_attempts w) (rc_sweeps w) (rc_history w) ({[k]} ∪ rc_acted w)
    (rc_disk w).

(** What the attempt that waits for an append does with its answer. *)
Definition attempt_next (ok : bool) (p : AttemptPhase) : AttemptPhase :=
  match p with
  | PhIntent r => if ok then PhActing r else PhRecorded r
  | PhRecording r s => PhRecorded r
  | _ => p
  end.

(** What a sweep does with it; an error ends the sweep. *)
Definition sweep_next (p : SweepPhase) : SweepPhase :=
  match p with SwWriting _ rest => SwPending rest | _ => p end.

(** The task is done: whoever still waits for it gets the answer. *)
Definition answer (a : Author) (k : string) (ok : bool) (w : Race) : Race :=
  match a with
  | ByPlugin => mkRace (rc_log w) None (rc_flight w) (alter (attempt_next ok) k (rc_attempts w)) (rc_sweeps w)
                  (rc_history w) (rc_acted w) (rc_disk w)
  | BySweep n =>
      mkRace (rc_log w) None (rc_flight w) (rc_attempts w) (alter sweep_next n (rc_sweeps w)) (rc_history w)
        (rc_acted w) (rc_disk w)
  end.

(** The end of a sweep: its guard drops. *)
Definition end_sweep (n : nat) (w : Race) : Race :=
  set_flight (sweep_drop (rc_flight w)) (set_sweeps (delete n (rc_sweeps w)) w).

Definition close_attempt (k : string) (w : Race) : Race :=
  set_flight (in_flight_close k (rc_flight w)) (set_attempt k PhClosed w).

(** A refused append: the attempt does not act, the sweep that waits for it ends. *)
Definition refuse (a : Author) (k : string) (w : Race) : Race :=
  match a with
  | ByPlugin => answer a k false w
  | BySweep n =>
      match rc_sweeps w !! n with
      | Some (SwWriting _ _) => end_sweep n (answer a k false w)
      | _ => answer a k false w
      end
  end.

(** What an append that is not acknowledged leaves behind. *)
Definition leave (a : Author) (r : EffectRecord) (how : Refusal) (opened : bool) (w : Race) : Race :=
  set_disk (not_appended how opened (rc_disk w)) (match how with LeftWhole => land a r w | RolledBack | LeftTorn => w end).

Definition compact (synced : bool) (w : Race) : Race :=
  set_disk (compacted (rc_log w) synced (rc_disk w)) (set_records (unresolved_of (rc_log w)) w).

(** All a process keeps in memory is gone. *)
Definition restart (w : Race) : Race :=
  mkRace (rc_log w) None InFlight_default ((fun _ => PhClosed) <$> rc_attempts w) ∅ (rc_history w) (rc_acted w) (rc_disk w).

(** The keys a log asks about. *)
Definition asked (log : list EffectRecord) : gset string := list_to_set (map ef_key (unresolved_of log)).

(** The crash that leaves [image] of the file: the unresolved records it does not show are gone. *)
Definition lose (image : Image) (w : Race) : Race :=
  let taken := dk_taken (rc_disk w) ∪ (asked (rc_log w) ∖ asked (im_records image)) in
  restart (set_disk (mkLogDisk (im_file image) None (im_tail image) true taken) (set_records (im_records image) w)).

(** ** The steps *)

(** The steps that keep the file's records. *)
Inductive live : Race -> Race -> Prop :=
| StOpen w r :
    rc_attempts w !! ef_key r = None ->
    live w (set_flight (in_flight_open (ef_key r) (rc_flight w)) (set_attempt (ef_key r) (PhOpen r) w))
| StIntent w k r :
    rc_attempts w !! k = Some (PhOpen r) -> rc_task w = None ->
    live w (set_task (Some (ByPlugin, into_state EsPrepared r)) (set_attempt k (PhIntent r) w))
| StAct w k r s :
    rc_attempts w !! k = Some (PhActing r) -> s <> EsPrepared ->
    live w (act k (set_attempt k (PhOutcome r s) w))
| StOutcome w k r s :
    rc_attempts w !! k = Some (PhOutcome r s) -> rc_task w = None ->
    live w (set_task (Some (ByPlugin, into_state s r)) (set_attempt k (PhRecording r s) w))
| StClose w k r :
    rc_attempts w !! k = Some (PhRecorded r) -> live w (close_attempt k w)
| StCancel w k p :
    rc_attempts w !! k = Some p -> p <> PhClosed -> live w (close_attempt k w)
| StWritten w a r :
    rc_task w = Some (a, r) ->
    live w (answer a (ef_key r) true (set_disk (appended (rc_disk w)) (land a r w)))
| StRefused w a r how opened :
    rc_task w = Some (a, r) -> live w (refuse a (ef_key r) (leave a r how opened w))
| StCompact w synced :
    rc_task w = None -> dk_tail (rc_disk w) <> Broken -> live w (compact synced w)
| StFlushed w :
    live w (set_disk (mkLogDisk (dk_file (rc_disk w)) None (dk_tail (rc_disk w)) (dk_lost (rc_disk w)) (dk_taken (rc_disk w))) w)
| StSweep w n :
    rc_sweeps w !! n = None ->
    live w (set_flight (sweep (rc_flight w)) (set_sweeps (<[n := SwStarted]> (rc_sweeps w)) w))
| StRead w n :
    rc_sweeps w !! n = Some SwStarted -> rc_task w = None -> dk_tail (rc_disk w) <> Broken ->
    live w (compact true (set_sweeps (<[n := SwPending (unresolved_of (rc_log w))]> (rc_sweeps w)) w))
| StLeave w n r rest :
    rc_sweeps w !! n = Some (SwPending (r :: rest)) ->
    live w (set_sweeps (<[n := SwPending rest]> (rc_sweeps w)) w)
| StSettle w n r rest s :
    rc_sweeps w !! n = Some (SwPending (r :: rest)) -> is_busy (ef_key r) (rc_flight w) = false -> is_terminal s = true ->
    live w (set_sweeps (<[n := SwSettling (into_state s r) rest]> (rc_sweeps w)) w)
| StSettled w n r rest :
    rc_sweeps w !! n = Some (SwSettling r rest) -> rc_task w = None ->
    live w (set_task (Some (BySweep n, r)) (set_sweeps (<[n := SwWriting r rest]> (rc_sweeps w)) w))
| StEndSweep w n p :
    rc_sweeps w !! n = Some p -> live w (end_sweep n w)
| StCrash w how opened :
    live w (restart (match rc_task w with Some (a, r) => leave a r how opened w | None => w end)).

(** All steps: those, and a crash that takes the file away while its name is not durable. *)
Inductive step : Race -> Race -> Prop :=
| StLive w w' : live w w' -> step w w'
| StLoss w image :
    dk_old (rc_disk w) = Some image ->
    step w (lose image w).

Definition reachable : Race -> Prop := rtc step race_start.

Implicit Types (w : Race) (k : string) (r : EffectRecord).

(** ** What the properties speak about *)

(** A plugin, a sweep, anyone has settled [k]. *)
Definition plugin_settled w k : Prop :=
  exists r, (ByPlugin, r) ∈ rc_history w /\ ef_key r = k /\ is_terminal (ef_state r) = true.

Definition sweep_settled w k : Prop := exists n r, (BySweep n, r) ∈ rc_history w /\ ef_key r = k.

Definition settled w k : Prop :=
  exists a r, (a, r) ∈ rc_history w /\ ef_key r = k /\ is_terminal (ef_state r) = true.

(** The log still asks about [k]. *)
Definition standing (log : list EffectRecord) k : Prop := k ∈ map ef_key (unresolved_of log).

Definition accounted w k : Prop := settled w k \/ standing (rc_log w) k \/ k ∈ dk_taken (rc_disk w).

Definition plugin_writes w k : Prop := exists r, rc_task w = Some (ByPlugin, r) /\ ef_key r = k.

(** The attempt of [k] is over, and left no answer. *)
Definition quiet w k : Prop :=
  rc_attempts w !! k = Some PhClosed /\ ~ plugin_writes w k /\ ~ plugin_settled w k.

Definition pending (p : SweepPhase) : list EffectRecord :=
  match p with SwStarted => [] | SwPending recs => recs | SwSettling _ rest | SwWriting _ rest => rest end.

Definition phase_record (p : AttemptPhase) : option EffectRecord :=
  match p with
  | PhOpen r | PhIntent r | PhActing r | PhOutcome r _ | PhRecording r _ | PhRecorded r => Some r
  | PhClosed => None
  end.

(** The phases in which the intent has been acknowledged. *)
Definition begun (p : AttemptPhase) : bool :=
  match p with PhActing _ | PhOutcome _ _ | PhRecording _ _ => true | _ => false end.

(** What a plugin's task may find its attempt in. *)
Definition writing (r : EffectRecord) (p : AttemptPhase) : Prop :=
  match p with
  | PhIntent r0 => r = into_state EsPrepared r0
  | PhRecording _ _ | PhClosed => True
  | _ => False
  end.

Definition finished (p : AttemptPhase) : Prop := match p with PhRecorded _ | PhClosed => True | _ => False end.

(** ** The invariant *)

(** What every reachable state satisfies: each act is accounted for. *)
Record Sound w : Prop := mkSound {
  inv_keys k p r : rc_attempts w !! k = Some p -> phase_record p = Some r -> ef_key r = k;
  inv_task r : rc_task w = Some (ByPlugin, r) -> exists p, rc_attempts w !! ef_key r = Some p /\ writing r p;
  inv_history r : r ∈ rc_log w -> exists a, (a, r) ∈ rc_history w;
  inv_image image r : dk_old (rc_disk w) = Some image -> r ∈ im_records image -> exists a, (a, r) ∈ rc_history w;
  inv_begun k p : rc_attempts w !! k = Some p -> begun p = true -> accounted w k;
  inv_acted k : k ∈ rc_acted w -> accounted w k;
}.

(** What holds as long as no crash has lost the file: nobody answers twice. *)
Record Inv w : Prop := mkInv {
  inv_sound :> Sound w;
  inv_open k p : rc_attempts w !! k = Some p -> p <> PhClosed -> k ∈ if_open (rc_flight w);
  inv_known r : r ∈ rc_log w -> is_Some (rc_attempts w !! ef_key r);
  inv_plugin k : plugin_settled w k ->
    (exists p, rc_attempts w !! k = Some p /\ finished p) /\ ~ plugin_writes w k /\ ~ standing (rc_log w) k;
  inv_count : if_sweeps (rc_flight w) = size (rc_sweeps w);
  inv_pending n p r : rc_sweeps w !! n = Some p -> r ∈ pending p ->
    is_busy (ef_key r) (rc_flight w) = true \/ quiet w (ef_key r);
  inv_settling n r rest : rc_sweeps w !! n = Some (SwSettling r rest) -> quiet w (ef_key r);
  inv_sweep_task n r : rc_task w = Some (BySweep n, r) -> quiet w (ef_key r);
  inv_settled k : sweep_settled w k -> quiet w k;
}.

(** ** The log *)

Lemma elem_of_standing log k :
  standing log k <-> k ∉ resolved_keys log /\ k ∈ map ef_key log.
Proof.
  unfold standing. rewrite unresolved_keys, list_elem_of_filter, seen_order_elem. done.
Qed.

Lemma standing_snoc log r k :
  standing (log ++ [r]) k <->
  (standing log k \/ k = ef_key r /\ k ∉ resolved_keys log) /\ ~ (k = ef_key r /\ is_terminal (ef_state r) = true).
Proof.
  rewrite !elem_of_standing, resolved_app, map_app, elem_of_union, elem_of_app. simpl.
  rewrite list_elem_of_singleton.
  assert (Hr : k ∈ resolved_keys [r] <-> k = ef_key r /\ is_terminal (ef_state r) = true).
  { rewrite elem_of_resolved. setoid_rewrite list_elem_of_singleton. naive_solver. }
  rewrite Hr. tauto.
Qed.

Lemma standing_compact log k : standing (unresolved_of log) k <-> standing log k.
Proof. unfold standing. by rewrite unresolved_idemp. Qed.

(** How a step changes the log and the history. *)
Lemma step_log w w' :
  live w w' ->
  (rc_log w' = rc_log w /\ rc_history w' = rc_history w)
  \/ (exists a r, rc_task w = Some (a, r) /\ rc_log w' = rc_log w ++ [r] /\ rc_history w' = rc_history w ++ [(a, r)])
  \/ (rc_log w' = unresolved_of (rc_log w) /\ rc_history w' = rc_history w).
Proof.
  destruct 1; unfold refuse, answer, restart, leave, compact, set_disk, land, end_sweep in *; simpl;
    repeat (case_match; simplify_eq/=); eauto 10.
Qed.

(** A loss is remembered. *)
Lemma live_lost w w' :
  live w w' -> dk_lost (rc_disk w') = dk_lost (rc_disk w) /\ dk_taken (rc_disk w') = dk_taken (rc_disk w).
Proof.
  destruct 1; unfold refuse, answer, restart, leave, compact, set_disk, land, end_sweep, not_appended, compacted in *;
    simpl; repeat (case_match; simplify_eq/=); done.
Qed.

Lemma step_accounted w w' k : live w w' -> accounted w k -> accounted w' k.
Proof.
  intros Hst. unfold accounted, settled. rewrite (proj2 (live_lost _ _ Hst)).
  destruct (step_log _ _ Hst) as [[-> ->]|[(a & r & _ & -> & ->)|[-> ->]]]; [done| |by rewrite standing_compact].
  intros [(b & r' & Hin & Hr')|[Hs|Hl]]; [left; exists b, r'; set_solver| |by auto].
  destruct (decide (k = ef_key r /\ is_terminal (ef_state r) = true)) as [[-> Ht]|Hn].
  - left. exists a, r. set_solver.
  - right. left. apply standing_snoc. auto.
Qed.

(** The old file holds only what was written. *)
Lemma step_image w w' image :
  live w w' -> dk_old (rc_disk w') = Some image ->
  dk_old (rc_disk w) = Some image \/ im_records image = [] \/ im_records image = rc_log w.
Proof.
  destruct 1; unfold refuse, answer, restart, leave, compact, set_disk, land, end_sweep, not_appended, compacted in *;
    simpl; intros E; repeat (case_match; simplify_eq/=); try discriminate E; auto.
Qed.

(** ** Attempts *)

Ltac unfold_step := unfold refuse, answer, restart, leave, compact, set_disk, land, end_sweep, close_attempt, set_task, set_attempt, set_flight,
  set_records, set_sweeps, act in *; simpl in *.

Lemma step_closed w w' k :
  live w w' -> rc_attempts w !! k = Some PhClosed -> rc_attempts w' !! k = Some PhClosed.
Proof.
  destruct 1; intros Hk; unfold_step; repeat (case_match; simplify_eq/=); try done;
    rewrite ?lookup_fmap, ?lookup_alter, ?lookup_insert; repeat case_decide; simplify_eq; by rewrite ?Hk.
Qed.

(** A task of a plugin is spawned by an open attempt. *)
Lemma step_task w w' r :
  Inv w -> live w w' -> rc_task w' = Some (ByPlugin, r) ->
  rc_task w = Some (ByPlugin, r)
  \/ exists p, rc_attempts w !! ef_key r = Some p /\ p <> PhClosed /\ ~ finished p.
Proof.
  intros HI Hst. destruct Hst; unfold_step; intros Ht; repeat (case_match; simplify_eq/=); try (by left).
  - right. pose proof (inv_keys w HI _ _ r0 H eq_refl) as <-. naive_solver.
  - right. pose proof (inv_keys w HI _ _ r0 H eq_refl) as <-. naive_solver.
Qed.

Lemma step_plugin_settled w w' k :
  live w w' -> plugin_settled w' k ->
  plugin_settled w k \/ exists r, rc_task w = Some (ByPlugin, r) /\ ef_key r = k /\ is_terminal (ef_state r) = true.
Proof.
  unfold plugin_settled. intros [[_ ->]|[(a & r & Ht & _ & ->)|[_ ->]]]%step_log (r' & Hin & Hr'); [eauto| |eauto].
  apply elem_of_app in Hin as [Hin|Hin%list_elem_of_singleton]; [eauto|]. naive_solver.
Qed.

Lemma step_quiet w w' k : Inv w -> live w w' -> quiet w k -> quiet w' k.
Proof.
  intros HI Hst (Hc & Hw & Hs). split_and!.
  - by eapply step_closed.
  - intros (r & Ht & <-). apply (step_task _ _ _ HI Hst) in Ht as [Ht|(p & Hp & Hn & _)]; [|congruence].
    apply Hw. by exists r.
  - intros [Hp|(r & Ht & Hk & _)]%(step_plugin_settled _ _ _ Hst); [done|]. apply Hw. by exists r.
Qed.

(** ** Preservation *)

Lemma attempt_next_record ok p : phase_record (attempt_next ok p) = phase_record p.
Proof. by destruct p, ok. Qed.

Lemma attempt_next_closed ok p : attempt_next ok p = PhClosed <-> p = PhClosed.
Proof. by destruct p, ok. Qed.

(** How an attempt moves in a step. *)
Inductive moved w w' k : option AttemptPhase -> AttemptPhase -> Prop :=
| MvSame p : moved w w' k (Some p) p
| MvOpen r : ef_key r = k -> k ∈ if_open (rc_flight w') -> moved w w' k None (PhOpen r)
| MvIntent r : moved w w' k (Some (PhOpen r)) (PhIntent r)
| MvAct r s : moved w w' k (Some (PhActing r)) (PhOutcome r s)
| MvOutcome r s : moved w w' k (Some (PhOutcome r s)) (PhRecording r s)
| MvClosed p : moved w w' k (Some p) PhClosed
| MvAnswer p r ok :
    rc_task w = Some (ByPlugin, r) -> ef_key r = k ->
    (ok = true -> rc_log w' = rc_log w ++ [r] /\ rc_history w' = rc_history w ++ [(ByPlugin, r)]) ->
    moved w w' k (Some p) (attempt_next ok p).

Lemma set_attempt_moved w w' (m : gmap string AttemptPhase) k0 q k p :
  (k = k0 -> moved w w' k (m !! k) q) -> (k <> k0 -> m !! k = Some p -> moved w w' k (m !! k) p) ->
  <[k0 := q]> m !! k = Some p -> moved w w' k (m !! k) p.
Proof. intros Hq Ho. rewrite lookup_insert_Some. intros [[-> <-]|[Hne Hk]]; auto. Qed.

Lemma step_moved w w' k p : live w w' -> rc_attempts w' !! k = Some p -> moved w w' k (rc_attempts w !! k) p.
Proof.
  assert (Hsame : forall w', rc_attempts w !! k = Some p -> moved w w' k (rc_attempts w !! k) p)
    by (intros w0 ->; constructor).
  assert (Hans : forall w' r ok (m : gmap string AttemptPhase), rc_task w = Some (ByPlugin, r) -> m = rc_attempts w ->
            (ok = true -> rc_log w' = rc_log w ++ [r] /\ rc_history w' = rc_history w ++ [(ByPlugin, r)]) ->
            alter (attempt_next ok) (ef_key r) m !! k = Some p -> moved w w' k (rc_attempts w !! k) p).
  { intros w0 r ok m Ht -> Hok. rewrite lookup_alter. case_decide as Hk; [|apply Hsame]. rewrite Hk.
    intros (p0 & -> & ->)%fmap_Some. by eapply MvAnswer. }
  destruct 1; unfold refuse, close_attempt; simpl; auto;
    try (apply set_attempt_moved; [intros ->|intros _; apply Hsame]; simplify_eq;
         match goal with H : _ !! _ = _ |- _ => rewrite H end; constructor; simpl; set_solver).
  - destruct a as [|n]; [|apply Hsame]. by apply Hans.
  - destruct a as [|n]; [|by destruct how; simpl; repeat case_match; apply Hsame].
    destruct how; apply Hans; done.
  - destruct (rc_task w) as [[a r]|] eqn:Et; [|idtac]; try destruct how; rewrite lookup_fmap;
      intros (p0 & Hp & ->)%fmap_Some; simpl in Hp; rewrite Hp; constructor.
Qed.

Ltac attempt_moves Hst Hk := let Hm := fresh "Hm" in
  pose proof (step_moved _ _ _ _ Hst Hk) as Hm; inversion Hm; clear Hm; subst; simplify_eq/=.

Lemma keep_keys w w' : Sound w -> live w w' ->
  forall k p r, rc_attempts w' !! k = Some p -> phase_record p = Some r -> ef_key r = k.
Proof.
  intros HI Hst k p r Hk Hr. pose proof (inv_keys w HI k) as IH. attempt_moves Hst Hk; try done; try by eapply IH.
  rewrite attempt_next_record in Hr. by eapply IH.
Qed.

(** The keys in flight: a live attempt's key is open; a key that leaves the open ones while
    a sweep runs is remembered for as long as one does. *)
Lemma step_open w w' k p :
  live w w' -> rc_attempts w' !! k = Some p -> p <> PhClosed ->
  k ∈ if_open (rc_flight w) \/ rc_attempts w !! k = None -> k ∈ if_open (rc_flight w').
Proof.
  intros Hst Hk Hp Ho. destruct Hst; unfold_step; repeat (case_match; simplify_eq/=); try tauto;
    rewrite ?lookup_insert, ?lookup_alter, ?lookup_fmap in Hk; repeat case_decide; simplify_eq/=;
    try set_solver; try (destruct Ho as [Ho|Ho]; [done|]; by rewrite Ho in Hk).
  all: destruct (rc_attempts w !! k); simpl in Hk; congruence.
Qed.

Lemma keep_open w w' : Inv w -> live w w' ->
  forall k p, rc_attempts w' !! k = Some p -> p <> PhClosed -> k ∈ if_open (rc_flight w').
Proof.
  intros HI Hst k p Hk Hp. eapply step_open; [done..|]. pose proof (inv_open w HI k) as IH.
  attempt_moves Hst Hk; try (left; by eapply IH); try done; [by right|]. left. eapply IH; [done|].
  intros ->. by destruct ok.
Qed.

Lemma keep_task w w' : Sound w -> live w w' ->
  forall r, rc_task w' = Some (ByPlugin, r) -> exists p, rc_attempts w' !! ef_key r = Some p /\ writing r p.
Proof.
  intros HI Hst r Ht. pose proof (inv_task w HI r) as IH. pose proof (inv_keys w HI) as Hkeys.
  assert (Hother : forall k p, rc_task w = Some (ByPlugin, r) ->
            (ef_key r = k -> forall p0, rc_attempts w !! k = Some p0 -> writing r p0 -> writing r p) ->
            exists q, <[k := p]> (rc_attempts w) !! ef_key r = Some q /\ writing r q).
  { intros k p Hr Hw. destruct (IH Hr) as (p0 & Hp0 & Hw0). rewrite lookup_insert. case_decide; [|eauto].
    subst. eauto. }
  destruct Hst; unfold_step; repeat (case_match; simplify_eq/=); auto.
  - apply Hother; [done|]. intros _ p0 Hp0. congruence.
  - injection Ht as <-. simpl. rewrite (Hkeys _ _ _ H eq_refl), lookup_insert_eq. by eexists.
  - apply Hother; [done|]. intros _ p0 Hp0. by simplify_eq.
  - injection Ht as <-. simpl. rewrite (Hkeys _ _ _ H eq_refl), lookup_insert_eq. by eexists.
  - by apply Hother.
  - by apply Hother.
  - done.
Qed.

Lemma step_known w w' k : live w w' -> is_Some (rc_attempts w !! k) -> is_Some (rc_attempts w' !! k).
Proof.
  intros Hst [p Hp]. destruct Hst; unfold_step; repeat (case_match; simplify_eq/=); eauto;
    rewrite ?lookup_fmap, ?lookup_alter, ?lookup_insert; repeat case_decide; simplify_eq; rewrite ?Hp; eauto.
Qed.

Lemma task_known w a r : Inv w -> rc_task w = Some (a, r) -> is_Some (rc_attempts w !! ef_key r).
Proof.
  intros HI Ht. destruct a as [|n].
  - destruct (inv_task w HI r Ht) as (p & -> & _). eauto.
  - destruct (inv_sweep_task w HI n r Ht) as [-> _]. eauto.
Qed.

Lemma unresolved_subset log r : r ∈ unresolved_of log -> r ∈ log.
Proof. intros [_ [Hin _]%latest_elem]%elem_of_unresolved. done. Qed.

Lemma keep_known w w' : Inv w -> live w w' -> forall r, r ∈ rc_log w' -> is_Some (rc_attempts w' !! ef_key r).
Proof.
  intros HI Hst r Hr. eapply step_known; [done|].
  destruct (step_log _ _ Hst) as [[E _]|[(a & r0 & Ht & E & _)|[E _]]]; rewrite E in Hr.
  - by apply (inv_known w HI).
  - apply elem_of_app in Hr as [Hr| ->%list_elem_of_singleton]; [by apply (inv_known w HI)|by eapply task_known].
  - by apply (inv_known w HI), unresolved_subset.
Qed.

Lemma keep_history w w' : Sound w -> live w w' -> forall r, r ∈ rc_log w' -> exists a, (a, r) ∈ rc_history w'.
Proof.
  intros HI Hst r Hr. destruct (step_log _ _ Hst) as [[E ->]|[(a & r0 & Ht & E & ->)|[E ->]]]; rewrite E in Hr.
  - by apply (inv_history w HI).
  - apply elem_of_app in Hr as [Hr| ->%list_elem_of_singleton].
    + destruct (inv_history w HI r Hr) as [b Hb]. exists b. set_solver.
    + exists a. set_solver.
  - by apply (inv_history w HI), unresolved_subset.
Qed.

(** The step that lands a task's record. *)
Lemma step_landed w w' a r :
  live w w' -> rc_task w = Some (a, r) -> rc_history w' = rc_history w ++ [(a, r)] ->
  rc_task w' = None
  /\ (a = ByPlugin -> forall p, rc_attempts w !! ef_key r = Some p ->
       exists ok, rc_attempts w' !! ef_key r = Some (attempt_next ok p) \/ rc_attempts w' !! ef_key r = Some PhClosed).
Proof.
  assert (Hne : forall (h : list (Author * EffectRecord)) x, h <> h ++ [x]).
  { intros h x E. apply (f_equal length) in E. rewrite length_app in E. simpl in E. lia. }
  intros Hst Ht Hh. destruct Hst; unfold_step; try congruence; try (by apply Hne in Hh);
    repeat (case_match; simplify_eq/=); try (by apply Hne in Hh); (split; [done|]); intros Ha p Hp; simplify_eq/=;
    rewrite ?lookup_alter_eq, ?lookup_fmap, ?Hp; try (exists true; by left); try (exists false; by left); exists true; by right.
Qed.

Lemma keep_plugin_old w w' k : Inv w -> live w w' -> plugin_settled w k ->
  (exists p, rc_attempts w' !! k = Some p /\ finished p) /\ ~ plugin_writes w' k /\ ~ standing (rc_log w') k.
Proof.
  intros HI Hst Hset. destruct (inv_plugin w HI k Hset) as ((p & Hp & Hf) & Hw & Hs). split_and!.
  - destruct (step_known _ _ k Hst ltac:(eauto)) as [p' Hp']. exists p'. split; [done|].
    pose proof (step_moved _ _ _ _ Hst Hp') as Hm. rewrite Hp in Hm. inversion Hm; subst; try done.
    by destruct p, ok.
  - intros (r & Ht & <-). apply (step_task _ _ _ HI Hst) in Ht as [Ht|(p' & Hp' & _ & Hn)]; [|by simplify_eq].
    apply Hw. by exists r.
  - destruct (step_log _ _ Hst) as [[-> _]|[(a & r & Ht & -> & _)|[-> _]]]; [done| |by rewrite standing_compact].
    rewrite standing_snoc. intros [[?|[-> _]] _]; [done|]. destruct a as [|n]; [apply Hw; by exists r|].
    by apply (inv_sweep_task w HI n r Ht).
Qed.

Lemma keep_plugin w w' : Inv w -> live w w' -> forall k, plugin_settled w' k ->
  (exists p, rc_attempts w' !! k = Some p /\ finished p) /\ ~ plugin_writes w' k /\ ~ standing (rc_log w') k.
Proof.
  intros HI Hst k Hset. pose proof Hset as (r & Hin & Hk & Ht).
  destruct (step_log _ _ Hst) as [[_ E]|[(a & r0 & Htask & El & E)|[_ E]]]; rewrite E in Hin.
  1,3: apply (keep_plugin_old w); [done..|by exists r].
  apply elem_of_app in Hin as [Hin|Hin%list_elem_of_singleton]; [apply (keep_plugin_old w); [done..|by exists r]|].
  injection Hin as <- <-. destruct (step_landed _ _ _ _ Hst Htask E) as [Hnone Hp]. subst k. split_and!.
  - destruct (inv_task w HI r Htask) as (p & Hp0 & Hw).
    destruct (Hp eq_refl p Hp0) as (ok & [->| ->]); [|by eexists]. eexists. split; [done|].
    destruct p, ok; try done. by rewrite Hw in Ht.
  - intros (r' & Ht' & _). congruence.
  - rewrite El, standing_snoc. tauto.
Qed.

Lemma size_alter {A} (f : A -> A) n (m : gmap nat A) : size (alter f n m) = size m.
Proof. by rewrite <- !size_dom, dom_alter_L. Qed.

Lemma end_sweep_count (m : gmap nat SweepPhase) n :
  is_Some (m !! n) -> pred (size m) = size (delete n m).
Proof. intros Hn. by rewrite map_size_delete_Some. Qed.

Lemma keep_count w w' : Inv w -> live w w' -> if_sweeps (rc_flight w') = size (rc_sweeps w').
Proof.
  intros HI Hst. pose proof (inv_count w HI) as Hc.
  destruct Hst; unfold_step; repeat (case_match; simplify_eq/=); rewrite ?size_alter; try done;
    try (rewrite map_size_insert_Some by eauto; done); try (rewrite map_size_insert_None by done; congruence);
    rewrite Hc; try (apply end_sweep_count; by eauto).
  all: rewrite <- (size_alter sweep_next n (rc_sweeps w)); apply end_sweep_count; rewrite lookup_alter_eq;
    match goal with H : _ !! _ = Some _ |- _ => rewrite H end; eauto.
Qed.

(** ** Sweeps *)

(** A sweep's pending records were pending before, or have just been read. *)
Lemma step_pending w w' n p r :
  live w w' -> rc_sweeps w' !! n = Some p -> r ∈ pending p ->
  (exists p0, rc_sweeps w !! n = Some p0 /\ r ∈ pending p0)
  \/ (r ∈ unresolved_of (rc_log w) /\ rc_task w = None /\ rc_attempts w' = rc_attempts w
      /\ rc_flight w' = rc_flight w).
Proof.
  intros Hst Hp Hr. destruct Hst; unfold_step; repeat (case_match; simplify_eq/=); eauto;
    rewrite ?lookup_insert_Some, ?lookup_delete_Some, ?lookup_alter_Some in Hp;
    destruct_and?; destruct_or?; destruct_and?; simplify_eq/=; eauto; try set_solver.
  - destruct H1 as (x & Hx & ->). left. exists x. split; [done|]. by destruct x.
  - left. eexists. split; [done|]. by right.
  - left. eexists. split; [done|]. by right.
Qed.

Lemma is_busy_spec k s : is_busy k s = true <-> k ∈ if_open s \/ k ∈ if_touched_during_sweep s.
Proof. unfold is_busy. by rewrite orb_true_iff, !bool_decide_eq_true. Qed.

Lemma busy_open k k0 s : is_busy k s = true -> is_busy k (in_flight_open k0 s) = true.
Proof. rewrite !is_busy_spec. unfold in_flight_open, touch. simpl. case_match; set_solver. Qed.

Lemma busy_close k k0 s : 0 < if_sweeps s -> is_busy k s = true -> is_busy k (in_flight_close k0 s) = true.
Proof.
  rewrite !is_busy_spec. unfold in_flight_close, touch. simpl. intros Hs. rewrite (proj2 (Nat.ltb_lt _ _) Hs).
  destruct (decide (k = k0)); set_solver.
Qed.

Lemma busy_drop k s : 0 < pred (if_sweeps s) -> is_busy k s = true -> is_busy k (sweep_drop s) = true.
Proof.
  rewrite !is_busy_spec. unfold sweep_drop. simpl. intros Hs. by rewrite (proj2 (Nat.eqb_neq _ _)) by lia.
Qed.

(** While a sweep runs, a busy key stays busy. *)
Lemma step_busy w w' n k :
  Inv w -> live w w' -> is_Some (rc_sweeps w !! n) -> is_Some (rc_sweeps w' !! n) ->
  is_busy k (rc_flight w) = true -> is_busy k (rc_flight w') = true.
Proof.
  intros HI Hst Hn Hn' Hb. pose proof (keep_count _ _ HI Hst) as Hc'. pose proof (inv_count w HI) as Hc.
  assert (Hsize : forall m : gmap nat SweepPhase, is_Some (m !! n) -> 0 < size m).
  { intros m [p Hp]. apply Nat.neq_0_lt_0, map_size_non_empty_iff. intros ->. by rewrite lookup_empty in Hp. }
  apply Hsize in Hn as Hpos, Hn' as Hpos'. rewrite <- Hc in Hpos. rewrite <- Hc' in Hpos'.
  destruct Hst; unfold_step; repeat (case_match; simplify_eq/=); auto using busy_open, busy_close, busy_drop.
  all: lia.
Qed.

Lemma keep_pending w w' : Inv w -> live w w' -> forall n p r, rc_sweeps w' !! n = Some p -> r ∈ pending p ->
  is_busy (ef_key r) (rc_flight w') = true \/ quiet w' (ef_key r).
Proof.
  intros HI Hst n p r Hp Hr. destruct (step_pending _ _ _ _ _ Hst Hp Hr) as [(p0 & Hp0 & Hr0)|(Hu & Ht & Ha & Hf)].
  - destruct (inv_pending w HI n p0 r Hp0 Hr0) as [Hb|Hq]; [left|right; by eapply step_quiet].
    eapply (step_busy _ _ n); eauto.
  - destruct (inv_known w HI r (unresolved_subset _ _ Hu)) as [ph Hph].
    assert (Hd : ph = PhClosed \/ ph <> PhClosed) by (destruct ph; auto).
    destruct Hd as [->|Hne]; [right|left].
    + eapply step_quiet; [done..|]. split_and!; [done| |].
      * intros (r' & Ht' & _). congruence.
      * intros (_ & _ & Hs)%(inv_plugin w HI). apply Hs. by apply list_elem_of_fmap_2.
    + apply is_busy_spec. left. rewrite Hf. by eapply (inv_open w HI).
Qed.

Lemma keep_settling w w' : Inv w -> live w w' -> forall n r rest,
  rc_sweeps w' !! n = Some (SwSettling r rest) -> quiet w' (ef_key r).
Proof.
  intros HI Hst n r rest Hp. eapply step_quiet; [done..|].
  pose proof (inv_settling w HI n r rest) as IH.
  destruct Hst; unfold_step; repeat (case_match; simplify_eq/=); auto;
    rewrite ?lookup_insert_Some, ?lookup_delete_Some, ?lookup_alter_Some in Hp;
    destruct_and?; destruct_or?; destruct_and?; simplify_eq/=; eauto.
  all: try (match goal with H : exists x, _ |- _ => destruct H as ([] & ? & ?); simplify_eq/=; by apply IH end).
  edestruct (inv_pending w HI n) as [Hb|Hq]; [done|by left|congruence|done].
Qed.

Lemma keep_sweep_task w w' : Inv w -> live w w' -> forall n r, rc_task w' = Some (BySweep n, r) -> quiet w' (ef_key r).
Proof.
  intros HI Hst n r Ht. eapply step_quiet; [done..|]. pose proof (inv_sweep_task w HI n r) as IH.
  destruct Hst; unfold_step; repeat (case_match; simplify_eq/=); auto.
  all: simplify_eq; by eapply (inv_settling w HI).
Qed.

Lemma keep_settled w w' : Inv w -> live w w' -> forall k, sweep_settled w' k -> quiet w' k.
Proof.
  intros HI Hst k (n & r & Hin & Hk). eapply step_quiet; [done..|].
  destruct (step_log _ _ Hst) as [[_ E]|[(a & r0 & Ht & _ & E)|[_ E]]]; rewrite E in Hin.
  1,3: apply (inv_settled w HI); by exists n, r.
  apply elem_of_app in Hin as [Hin|Hin%list_elem_of_singleton]; [apply (inv_settled w HI); by exists n, r|].
  injection Hin as <- <-. subst. by eapply (inv_sweep_task w HI).
Qed.

(** An acknowledged intent is accounted for. *)
Lemma landed_accounted w w' r :
  Sound w -> rc_log w' = rc_log w ++ [r] -> rc_history w' = rc_history w ++ [(ByPlugin, r)] ->
  is_terminal (ef_state r) = false -> accounted w' (ef_key r).
Proof.
  intros HI El Eh Ht. unfold accounted, settled. rewrite El, Eh.
  destruct (decide (ef_key r ∈ resolved_keys (rc_log w))) as [Hr|Hr].
  - left. apply elem_of_resolved in Hr as (r' & Hin & Hk & Ht'). destruct (inv_history w HI r' Hin) as [a Ha].
    exists a, r'. set_solver.
  - right. left. apply standing_snoc. split; [by right|]. intros [_ ?]. congruence.
Qed.

Lemma keep_begun w w' : Sound w -> live w w' -> forall k p,
  rc_attempts w' !! k = Some p -> begun p = true -> accounted w' k.
Proof.
  intros HI Hst k p Hk Hb. pose proof (inv_begun w HI k) as IH. attempt_moves Hst Hk; try done;
    try (eapply step_accounted; [done|]; eapply IH; [done|]; done).
  destruct p0; destruct ok; try done; try (eapply step_accounted; [done|]; eapply IH; [done|]; done).
  match goal with Ht : rc_task w = _, Hok : true = true -> _ |- _ =>
    destruct (Hok eq_refl) as [El Eh], (inv_task w HI _ Ht) as (q & Hq & Hw) end.
  apply (landed_accounted w); [done..|].
  assert (q = PhIntent r0) as -> by congruence. by rewrite Hw.
Qed.

Lemma keep_acted w w' : Sound w -> live w w' -> forall k, k ∈ rc_acted w' -> accounted w' k.
Proof.
  intros HI Hst k Hk. eapply step_accounted; [done|]. pose proof (inv_acted w HI k) as IH.
  destruct Hst; unfold_step; repeat (case_match; simplify_eq/=); auto.
  apply elem_of_union in Hk as [->%elem_of_singleton|Hk]; [|auto]. by eapply (inv_begun w HI).
Qed.

Lemma step_history w w' x : live w w' -> x ∈ rc_history w -> x ∈ rc_history w'.
Proof. intros [[_ ->]|[(a & r & _ & _ & ->)|[_ ->]]]%step_log; set_solver. Qed.

Lemma keep_image w w' : Sound w -> live w w' -> forall image r,
  dk_old (rc_disk w') = Some image -> r ∈ im_records image -> exists a, (a, r) ∈ rc_history w'.
Proof.
  intros HI Hst image r Ho Hr. enough (exists a, (a, r) ∈ rc_history w) as [a Ha] by (exists a; by eapply step_history).
  destruct (step_image _ _ _ Hst Ho) as [Ho'|[E|E]]; [by eapply (inv_image w HI)|rewrite E in Hr; by apply not_elem_of_nil in Hr|].
  apply (inv_history w HI). by rewrite <- E.
Qed.

Lemma sound_live w w' : Sound w -> live w w' -> Sound w'.
Proof.
  intros HI Hst. constructor; eauto using keep_keys, keep_task, keep_history, keep_image, keep_begun, keep_acted.
Qed.

Lemma inv_live w w' : Inv w -> live w w' -> Inv w'.
Proof.
  intros HI Hst. constructor; eauto using sound_live, inv_sound, keep_open, keep_known, keep_plugin,
    keep_count, keep_pending, keep_settling, keep_sweep_task, keep_settled.
Qed.

(** What the crash takes is put on its list. *)
Lemma lose_accounted w image k : accounted w k -> accounted (lose image w) k.
Proof.
  intros [Hs|[Hs|Hs]]; [by left| |right; right; simpl; set_solver].
  right. destruct (decide (k ∈ asked (im_records image))) as [Hi|Hi]; [left|right].
  - by apply elem_of_list_to_set in Hi.
  - simpl. apply elem_of_union_r, elem_of_difference. split; [|done]. by apply elem_of_list_to_set.
Qed.

Lemma sound_lose w image : Sound w -> dk_old (rc_disk w) = Some image -> Sound (lose image w).
Proof.
  intros HI Ho. constructor.
  - simpl. intros k p r Hk. rewrite lookup_fmap in Hk. by apply fmap_Some in Hk as (? & _ & ->).
  - done.
  - simpl. intros r. by apply (inv_image w HI).
  - done.
  - simpl. intros k p Hk. rewrite lookup_fmap in Hk. by apply fmap_Some in Hk as (? & _ & ->).
  - intros k Hk. by apply lose_accounted, (inv_acted w HI).
Qed.

Lemma inv_start : Inv race_start.
Proof.
  constructor; [constructor|..]; simpl; intros;
    repeat match goal with
    | Hs : plugin_settled _ _ |- _ => destruct Hs as (? & Hs & _)
    | Hs : sweep_settled _ _ |- _ => destruct Hs as (? & ? & Hs & _)
    | Hs : ∅ !! _ = Some _ |- _ => by rewrite lookup_empty in Hs
    | Hs : _ ∈ [] |- _ => by apply not_elem_of_nil in Hs
    end; set_solver.
Qed.

Lemma reachable_sound w : reachable w -> Sound w.
Proof.
  revert w. apply (rtc_ind_r Sound race_start); [apply inv_start|].
  intros w w' _ Hst IH. destruct Hst as [w w' Hl|w image Ho]; [by eapply sound_live|by apply sound_lose].
Qed.

Lemma reachable_inv w : reachable w -> dk_lost (rc_disk w) = false -> Inv w.
Proof.
  revert w. apply (rtc_ind_r (fun w => dk_lost (rc_disk w) = false -> Inv w) race_start); [intros _; apply inv_start|].
  intros w w' _ Hst IH. destruct Hst as [w w' Hl|w image Ho]; [|done]. intros Hk. eapply inv_live; [|done]. apply IH.
  by rewrite <- (proj1 (live_lost _ _ Hl)).
Qed.

(** ** The properties *)

(** [no_second_answer]: over every interleaving of attempts, sweeps, compactions, cancellations
    and crashes, with a blocking write outliving whoever asked for it, no key is answered
    for twice while no crash has lost the log: one a sweep has answered for is one its plugin
    has not settled, before or after. *)
Theorem no_second_answer w k (Hreach : reachable w) (Hkept : dk_lost (rc_disk w) = false) (Hsweep : sweep_settled w k) :
  ~ plugin_settled w k.
Proof. apply (inv_settled w (reachable_inv w Hreach Hkept) k Hsweep). Qed.

(** The records a recovery of the file would return; [None] when it refuses the file. *)
Definition recovers w : option (list EffectRecord) :=
  match dk_tail (rc_disk w) with Broken => None | Clean | Torn => Some (unresolved_of (rc_log w)) end.

(** Claim C19. [acts_accounted]: over every interleaving of attempts, sweeps, compactions, refusals
    of the system, cancellations and crashes, an act that was performed has a settling record
    in the history, or its key still stands unresolved in the log, where the next sweep asks
    about it. The two exceptions are those of the code: a crash has taken this very key's
    unresolved record with the file while the file's name was not durable (a first append was
    refused after it had created the file, or the directory sync of a compaction was refused), or
    the file holds a line that cannot be parsed (an append was acknowledged behind a torn line
    that a refused rollback or a crash left), and every recovery refuses it. *)
Theorem acts_accounted w k (Hreach : reachable w) (Hact : k ∈ rc_acted w) :
  settled w k
  \/ (exists recs r, recovers w = Some recs /\ r ∈ recs /\ ef_key r = k)
  \/ k ∈ dk_taken (rc_disk w) \/ dk_tail (rc_disk w) = Broken.
Proof.
  destruct (inv_acted w (reachable_sound w Hreach) k Hact) as [Hs|[Hs|Hs]]; [by auto| |by auto].
  apply list_elem_of_fmap in Hs as (r & -> & Hr). unfold recovers. right.
  destruct (dk_tail (rc_disk w)); [left; by eexists _, r..|by do 2 right].
Qed.

(** ** An attempt cancelled after its act, and the sweep that settles it *)

Definition lost_mint : EffectRecord := mint "a" EsPrepared.
Definition found_mint : EffectRecord := into_state EsConfirmed lost_mint.

Definition opened_race : Race :=
  set_flight (in_flight_open "a" (rc_flight race_start)) (set_attempt "a" (PhOpen lost_mint) race_start).
Definition intent_race : Race :=
  set_task (Some (ByPlugin, lost_mint)) (set_attempt "a" (PhIntent lost_mint) opened_race).
Definition acting_race : Race :=
  answer ByPlugin "a" true (set_disk (appended (rc_disk intent_race)) (land ByPlugin lost_mint intent_race)).
Definition acted_race : Race := act "a" (set_attempt "a" (PhOutcome lost_mint EsConfirmed) acting_race).
Definition cancelled_race : Race := close_attempt "a" acted_race.
Definition swept_race : Race :=
  set_flight (sweep (rc_flight cancelled_race)) (set_sweeps (<[0 := SwStarted]> (rc_sweeps cancelled_race)) cancelled_race).
Definition read_race : Race :=
  compact true (set_sweeps (<[0 := SwPending (unresolved_of (rc_log swept_race))]> (rc_sweeps swept_race)) swept_race).
Definition settling_race : Race :=
  set_sweeps (<[0 := SwSettling found_mint []]> (rc_sweeps read_race)) read_race.
Definition writing_race : Race :=
  set_task (Some (BySweep 0, found_mint)) (set_sweeps (<[0 := SwWriting found_mint []]> (rc_sweeps settling_race)) settling_race).
Definition settled_race : Race :=
  answer (BySweep 0) "a" true (set_disk (appended (rc_disk writing_race)) (land (BySweep 0) found_mint writing_race)).

Lemma reach w w' : reachable w -> live w w' -> reachable w'.
Proof. intros Hr Hl. eapply rtc_r; [done|by apply StLive]. Qed.

Lemma cancelled_reachable : reachable cancelled_race.
Proof.
  eapply (reach acted_race); [|by eapply (StCancel _ "a")].
  eapply (reach acting_race); [|by eapply (StAct _ "a" lost_mint EsConfirmed)].
  eapply (reach intent_race); [|by apply (StWritten _ ByPlugin lost_mint)].
  eapply (reach opened_race); [|by apply (StIntent _ "a" lost_mint)].
  eapply (reach race_start); [apply rtc_refl|by apply (StOpen race_start lost_mint)].
Qed.

Lemma settled_reachable : reachable settled_race.
Proof.
  eapply (reach writing_race); [|by apply (StWritten _ (BySweep 0) found_mint)].
  eapply (reach settling_race); [|by apply (StSettled _ 0 found_mint [])].
  eapply (reach read_race); [|by apply (StSettle _ 0 lost_mint [] EsConfirmed)].
  eapply (reach swept_race); [|by apply (StRead _ 0)].
  eapply (reach cancelled_race); [apply cancelled_reachable|by apply (StSweep _ 0)].
Qed.

Lemma acts_accounted_witness :
  settled cancelled_race "a" \/ exists recs r, recovers cancelled_race = Some recs /\ r ∈ recs /\ ef_key r = "a".
Proof.
  destruct (acts_accounted cancelled_race "a" cancelled_reachable) as [H|[H|[H|H]]];
    [vm_compute; done|by left|by right|by destruct (not_elem_of_empty (C := gset string) "a")|].
  vm_compute in H. discriminate H.
Defined.

(** ** An act that a crash leaves unaccounted for

    The first append of [b] is refused after it has created the file; the intent of [a] is then
    acknowledged without a sync of the directory, [a] acts, and a crash takes the file away. *)

Definition other_mint : EffectRecord := mint "b" EsPrepared.

Definition first_open : Race :=
  set_flight (in_flight_open "b" (rc_flight race_start)) (set_attempt "b" (PhOpen other_mint) race_start).
Definition first_intent : Race := set_task (Some (ByPlugin, other_mint)) (set_attempt "b" (PhIntent other_mint) first_open).
Definition first_refused : Race := refuse ByPlugin "b" (leave ByPlugin other_mint RolledBack true first_intent).
Definition second_open : Race :=
  set_flight (in_flight_open "a" (rc_flight first_refused)) (set_attempt "a" (PhOpen lost_mint) first_refused).
Definition second_intent : Race :=
  set_task (Some (ByPlugin, lost_mint)) (set_attempt "a" (PhIntent lost_mint) second_open).
Definition second_acting : Race :=
  answer ByPlugin "a" true (set_disk (appended (rc_disk second_intent)) (land ByPlugin lost_mint second_intent)).
Definition second_acted : Race := act "a" (set_attempt "a" (PhOutcome lost_mint EsConfirmed) second_acting).
Definition after_loss : Race :=
  lose (mkImage false [] Clean) second_acted.

Lemma after_loss_reachable : reachable after_loss.
Proof.
  apply rtc_r with (y := second_acted); [|by apply (StLoss second_acted (mkImage false [] Clean))].
  eapply (reach second_acting); [|by eapply (StAct _ "a" lost_mint EsConfirmed)].
  eapply (reach second_intent); [|by apply (StWritten _ ByPlugin lost_mint)].
  eapply (reach second_open); [|by apply (StIntent _ "a" lost_mint)].
  eapply (reach first_refused); [|by apply (StOpen first_refused lost_mint)].
  eapply (reach first_intent); [|by apply (StRefused _ ByPlugin other_mint RolledBack true)].
  eapply (reach first_open); [|by apply (StIntent _ "b" other_mint)].
  eapply (reach race_start); [apply rtc_refl|by apply (StOpen race_start other_mint)].
Qed.

Lemma act_lost_by_crash :
  reachable after_loss /\ "a" ∈ rc_acted after_loss /\ ~ settled after_loss "a" /\ recovers after_loss = Some [].
Proof.
  split; [apply after_loss_reachable|]. split; [by vm_compute|]. split; [|by vm_compute].
  intros (a & r & Hin & Hk & Ht). apply list_elem_of_In in Hin. cbn in Hin. destruct Hin as [[= <- <-]|[]]. done.
Qed.
