(* ===== verification/DecisionCache.v ===== *)
(** * The decision cache

    [ppe-apl-runtime/src/decision_cache]: the digest key of an evaluation, the bounded
    store of decisions, the resolver that wraps another with them, and the [cache:] block.
    The SHA-256 provider is a parameter. *)

From Stdlib Require Import Ascii String SpecFloat.
From S2P Require Import Prelude RustStr F64 Json Platform Attributes Constraint Step Paths StepParser.

(** ** Bytes ([key.rs]) *)

Definition byte_of (z : Z) : ascii := ascii_of_N (Z.to_N (z mod 256)).

(** The [n] low bytes of [z], big-endian. *)
Fixpoint be_bytes (n : nat) (z : Z) : string :=
  match n with
  | O => ""
  | S n' => be_bytes n' (z / 256) +:+ String (byte_of z) ""
  end.

(** [to_be_bytes] of an [i64] or a [u64]. *)
Definition to_be_bytes (z : Z) : string := be_bytes 8 z.

Definition u8 (z : Z) : string := be_bytes 1 z.

(** [f64::to_bits], with the one quiet NaN of the model. *)
Definition to_bits (f : f64) : Z :=
  let sign (s : bool) : Z := if s then (2 ^ 63)%Z else 0%Z in
  match f with
  | S754_zero s => sign s
  | S754_infinity s => (sign s + 2047 * 2 ^ 52)%Z
  | S754_nan => (2047 * 2 ^ 52 + 2 ^ 51)%Z
  | S754_finite s m e =>
      (sign s + if Zpos m <? 2 ^ 52 then Zpos m else (e + 1075) * 2 ^ 52 + (Zpos m - 2 ^ 52))%Z
  end.

Definition hash_len (len : nat) : string := to_be_bytes (Z.min (Z.of_nat len) (2 ^ 64 - 1)).

Definition hash_bytes (bytes : string) : string := hash_len (String.length bytes) +:+ bytes.

Definition hash_dialect (d : PdpDialect) : string :=
  match d with
  | Cedar => u8 0
  | Opa => u8 1
  | AuthZen => u8 2
  | NeMo => u8 3
  | Cel => u8 4
  | CustomDialect name => u8 5 +:+ hash_bytes name
  end.

Definition concat_all (l : list string) : string := String.concat "" l.

Definition hash_attr (value : AttributeValue) : string :=
  match value with
  | AVBool v => u8 0 +:+ u8 (Z.b2z v)
  | AVInt v => u8 1 +:+ to_be_bytes v
  | AVFloat v => u8 2 +:+ to_be_bytes (to_bits v)
  | AVString v => u8 3 +:+ hash_bytes v
  | AVStringSet set =>
      let members := sorted_elements set in
      u8 4 +:+ hash_len (length members) +:+ concat_all (map hash_bytes members)
  | AVNonScalar => u8 5
  end.

Definition hash_bag (bag : AttributeBag) : string :=
  let entries := sorted_entries bag in
  hash_len (length entries) +:+ concat_all (map (fun '(key, value) => hash_bytes key +:+ hash_attr value) entries).

(** [as_i64], then [as_u64], then [as_f64]. *)
Definition hash_number (n : number) : string :=
  match n with
  | NInt z =>
      if in_i64 z then u8 2 +:+ to_be_bytes z
      else if (0 <=? z)%Z && (z <? 2 ^ 64)%Z then u8 3 +:+ to_be_bytes z
      else u8 5
  | NFloat f => u8 4 +:+ to_be_bytes (to_bits f)
  end.

(** [pairs.sort_by(|a, b| a.0.cmp(&b.0))]. *)
Definition sort_pairs (pairs : list (string * string)) : list (string * string) := merge_sort key_le pairs.

Definition hash_pairs (pairs : list (string * string)) : string :=
  hash_len (length pairs) +:+ concat_all (map (fun '(key, value) => hash_bytes key +:+ value) pairs).

Fixpoint hash_yaml (value : yaml) : string :=
  match value with
  | YNull => u8 0
  | YBool v => u8 1 +:+ u8 (Z.b2z v)
  | YNumber n => hash_number n
  | YString s => u8 6 +:+ hash_bytes s
  | YSequence seq => u8 7 +:+ hash_len (length seq) +:+ concat_all (map hash_yaml seq)
  | YMapping map => u8 8 +:+ hash_pairs (sort_pairs (List.map (fun '(k, v) => (hash_yaml k, hash_yaml v)) map))
  | YTagged tag value => u8 9 +:+ hash_bytes ("!" +:+ tag) +:+ hash_yaml value
  end.

Fixpoint hash_json (value : json) : string :=
  match value with
  | JNull => u8 0
  | JBool v => u8 1 +:+ u8 (Z.b2z v)
  | JNumber n => hash_number n
  | JString s => u8 6 +:+ hash_bytes s
  | JArray items => u8 7 +:+ hash_len (length items) +:+ concat_all (map hash_json items)
  | JObject map => u8 8 +:+ hash_pairs (sort_pairs (List.map (fun '(k, v) => (k, hash_json v)) map))
  end.

Definition hash_optional_json (value : option json) : string :=
  match value with None => u8 0 | Some value => u8 1 +:+ hash_json value end.

Definition hash_structured (structured : StructuredInput) : string :=
  u8 (Z.b2z (si_too_deep structured)) +:+ hash_optional_json (si_llm_request structured)
  +:+ hash_optional_json (si_args structured).

(** What an evaluation is given. *)
Record Evaluation : Type := mkEvaluation {
  ev_call : PdpCall;
  ev_bag : AttributeBag;
  ev_structured : StructuredInput;
}.

Definition preimage (e : Evaluation) : string :=
  hash_dialect (pdp_dialect (ev_call e)) +:+ hash_yaml (pdp_args (ev_call e)) +:+ hash_bag (ev_bag e)
  +:+ hash_structured (ev_structured e).

(** The SHA-256 provider: a digest, or the error it fails with. *)
Class Digest := { sha256 : string -> result string string }.

(** [CacheKey::for_evaluation]. *)
Definition for_evaluation `{Digest} (e : Evaluation) : result string string := sha256 (preimage e).

(** ** The store ([store.rs]) *)

Record Slot : Type := mkSlot {
  sl_decision : PdpDecision;
  sl_expires_at : N;
}.

Record Store : Type := mkStore {
  st_entries : gmap string Slot;
  st_order : list string;
  st_max_entries : nat;
}.

Inductive Lookup : Type :=
| LuHit (decision : PdpDecision)
| LuExpired
| LuMiss.

Inductive InsertOutcome : Type :=
| InStored
| InEvicted.

Definition Store_new (max_entries : nat) : Store := mkStore ∅ [] max_entries.

Definition store_clear (s : Store) : Store := mkStore ∅ [] (st_max_entries s).

(** Removal at the first position of the key. *)
Fixpoint remove_first (key : string) (l : list string) : list string :=
  match l with
  | [] => []
  | k :: rest => if String.eqb k key then rest else k :: remove_first key rest
  end.

Definition store_remove (key : string) (s : Store) : Store :=
  mkStore (delete key (st_entries s)) (remove_first key (st_order s)) (st_max_entries s).

Definition store_lookup (key : string) (now : N) (s : Store) : Store * Lookup :=
  match st_entries s !! key with
  | None => (s, LuMiss)
  | Some slot =>
      if (sl_expires_at slot <=? now)%N then (store_remove key s, LuExpired) else (s, LuHit (sl_decision slot))
  end.

Definition slot_expired (now : N) (s : Store) (key : string) : bool :=
  match st_entries s !! key with None => true | Some slot => (sl_expires_at slot <=? now)%N end.

(** [drop_expired_from_front], one step per key of the deque. *)
Fixpoint drop_front_loop (fuel : nat) (now : N) (s : Store) : Store :=
  match fuel with
  | O => s
  | S fuel' =>
      match st_order s with
      | [] => s
      | front :: _ => if slot_expired now s front then drop_front_loop fuel' now (store_remove front s) else s
      end
  end.

Definition drop_expired_from_front (now : N) (s : Store) : Store := drop_front_loop (length (st_order s)) now s.

(** [order.retain(..)], whose closure removes the entries of the keys it drops. *)
Fixpoint retain_live (now : N) (order : list string) (entries : gmap string Slot) : list string * gmap string Slot :=
  match order with
  | [] => ([], entries)
  | key :: rest =>
      let live := match entries !! key with Some slot => negb (sl_expires_at slot <=? now)%N | None => false end in
      if live then let '(kept, entries') := retain_live now rest entries in (key :: kept, entries')
      else retain_live now rest (delete key entries)
  end.

Definition drop_all_expired (now : N) (s : Store) : Store :=
  let '(order, entries) := retain_live now (st_order s) (st_entries s) in mkStore entries order (st_max_entries s).

(** The eviction loop; each turn takes a key off the deque or ends it. *)
Fixpoint evict_loop (order : list string) (entries : gmap string Slot) (max_entries : nat) (evicted : bool) :
    list string * gmap string Slot * bool :=
  if Nat.leb max_entries (size entries) then
    match order with
    | old :: rest => evict_loop rest (delete old entries) max_entries true
    | [] => ([], entries, evicted)
    end
  else (order, entries, evicted).

Definition store_insert (key : string) (decision : PdpDecision) (expires_at now : N) (s : Store) : Store * InsertOutcome :=
  let s := drop_expired_from_front now s in
  let slot := mkSlot decision expires_at in
  match st_entries s !! key with
  | Some _ => (mkStore (<[key := slot]> (st_entries s)) (st_order s) (st_max_entries s), InStored)
  | None =>
      let s := if Nat.leb (st_max_entries s) (size (st_entries s)) then drop_all_expired now s else s in
      let '(order, entries, evicted) := evict_loop (st_order s) (st_entries s) (st_max_entries s) false in
      (mkStore (<[key := slot]> entries) (order ++ [key]) (st_max_entries s), if evicted then InEvicted else InStored)
  end.

(** ** The [cache:] block ([config.rs]) *)

Inductive DecisionCacheConfigError : Type :=
| NotAMapping
| NonStringKey
| UnknownKey (key : string)
| InvalidTtl
| InvalidMaxEntries.

Record DecisionCacheConfig : Type := mkCacheConfig {
  dc_ttl : Z;
  dc_max_entries : Z;
}.

(** [DecisionCacheConfig::new], a [Duration] being its seconds. *)
Definition DecisionCacheConfig_new (ttl max_entries : Z) : result DecisionCacheConfig DecisionCacheConfigError :=
  if (ttl =? 0)%Z then Err InvalidTtl else Ok (mkCacheConfig ttl max_entries).

Definition as_u64 (y : yaml) : option Z :=
  match untag y with
  | YNumber (NInt z) => if (0 <=? z)%Z && (z <? 2 ^ 64)%Z then Some z else None
  | _ => None
  end.

Definition positive_u64 (value : yaml) : option Z :=
  match as_u64 value with Some n => then_some (0 <? n)%Z n | None => None end.

(** A [u64] is a [usize] here. *)
Definition positive_nonzero (value : yaml) : option Z := positive_u64 value.

Fixpoint cache_keys (map : list (yaml * yaml)) (ttl_seconds max_entries : option Z) :
    result (option Z * option Z) DecisionCacheConfigError :=
  match map with
  | [] => Ok (ttl_seconds, max_entries)
  | (key, val) :: rest =>
      match yaml_as_str key with
      | None => Err NonStringKey
      | Some name =>
          if String.eqb name "ttl_seconds" then
            match positive_u64 val with Some n => cache_keys rest (Some n) max_entries | None => Err InvalidTtl end
          else if String.eqb name "max_entries" then
            match positive_nonzero val with
            | Some n => cache_keys rest ttl_seconds (Some n)
            | None => Err InvalidMaxEntries
            end
          else Err (UnknownKey name)
      end
  end.

Definition from_yaml (value : yaml) : result DecisionCacheConfig DecisionCacheConfigError :=
  match as_mapping value with
  | None => Err NotAMapping
  | Some map =>
      match cache_keys map None None with
      | Err e => Err e
      | Ok (None, _) => Err InvalidTtl
      | Ok (Some _, None) => Err InvalidMaxEntries
      | Ok (Some ttl, Some cap) => DecisionCacheConfig_new ttl cap
      end
  end.

(** ** The resolver ([wrapper.rs]) *)

Record DecisionCacheStats : Type := mkStats {
  cs_hits : N;
  cs_misses : N;
  cs_expiries : N;
  cs_evictions : N;
}.

(** [CachedPdpResolver] without the resolver it wraps. *)
Record Cache : Type := mkCache {
  ca_store : Store;
  ca_generation : N;
  ca_ttl : N;
  ca_stats : DecisionCacheStats;
}.

(** The latest instant the platform represents, for [Instant::checked_add]. *)
Class Clock := { last_instant : N }.

Section Resolver.
Context `{Digest, Clock}.

Definition wrap (ttl : N) (max_entries : nat) (engine : option N) : Cache :=
  mkCache (Store_new max_entries) (default 0%N engine) ttl (mkStats 0 0 0 0).

Definition set_store (s : Store) (c : Cache) : Cache := mkCache s (ca_generation c) (ca_ttl c) (ca_stats c).

Definition set_stats (st : DecisionCacheStats) (c : Cache) : Cache := mkCache (ca_store c) (ca_generation c) (ca_ttl c) st.

Definition maybe_clear_for_generation (current : N) (c : Cache) : Cache :=
  if (current =? ca_generation c)%N then c
  else mkCache (store_clear (ca_store c)) current (ca_ttl c) (ca_stats c).

(** What both holders of the lock do first: [engine] is the generation read under it, while
    the engine is alive. *)
Definition refresh (engine : option N) (c : Cache) : Cache :=
  match engine with Some current => maybe_clear_for_generation current c | None => c end.

(** [CachedPdpResolver::lookup]. *)
Definition cache_lookup (key : string) (engine : option N) (now : N) (c : Cache) : Cache * Lookup * N :=
  let c := refresh engine c in
  let '(s, found) := store_lookup key now (ca_store c) in
  (set_store s c, found, ca_generation c).

(** [fetch_add(1)]. *)
Definition bump (n : N) : N := ((n + 1) mod 2 ^ 64)%N.

(** [insert_if_generation]; the instant is taken before the lock. *)
Definition insert_if_generation (key : string) (decision : PdpDecision) (expected_gen : N) (engine : option N) (now : N)
    (c : Cache) : Cache :=
  let expires_at := (now + ca_ttl c)%N in
  if (last_instant <? expires_at)%N then c
  else
    let c := refresh engine c in
    if negb (ca_generation c =? expected_gen)%N then c
    else
      let '(s, outcome) := store_insert key decision expires_at now (ca_store c) in
      let c := set_store s c in
      match outcome with
      | InStored => c
      | InEvicted =>
          let st := ca_stats c in
          set_stats (mkStats (cs_hits st) (cs_misses st) (cs_expiries st) (bump (cs_evictions st))) c
      end.

(** The counters after a lookup. *)
Definition count_lookup (found : Lookup) (c : Cache) : Cache :=
  let st := ca_stats c in
  set_stats
    match found with
    | LuHit _ => mkStats (bump (cs_hits st)) (cs_misses st) (cs_expiries st) (cs_evictions st)
    | LuExpired => mkStats (cs_hits st) (bump (cs_misses st)) (bump (cs_expiries st)) (cs_evictions st)
    | LuMiss => mkStats (cs_hits st) (bump (cs_misses st)) (cs_expiries st) (cs_evictions st)
    end c.

(** [evaluate_structured] up to the call of the wrapped resolver: refused, answered from the
    store, or to be asked, with the key and the generation for the insertion. *)
Inductive Begun : Type :=
| BgRefused (e : PdpError)
| BgHit (decision : PdpDecision)
| BgAsk (key : string) (generation : N).

Definition begin_evaluation (e : Evaluation) (engine : option N) (now : N) (c : Cache) : Cache * Begun :=
  match for_evaluation e with
  | Err _ => (c, BgRefused (PdpDispatch "PDP cache key hashing failed"))
  | Ok key =>
      let '(c, found, generation) := cache_lookup key engine now c in
      (count_lookup found c,
       match found with LuHit decision => BgHit decision | LuExpired | LuMiss => BgAsk key generation end)
  end.

(** The rest of it, with the wrapped resolver's answer. *)
Definition finish_evaluation (key : string) (generation : N) (answer : result PdpDecision PdpError) (engine : option N)
    (now : N) (c : Cache) : Cache :=
  match answer with Ok decision => insert_if_generation key decision generation engine now c | Err _ => c end.

(** [evaluate_structured] with nothing in between: [inner] answers at once. *)
Definition evaluate_structured (inner : Evaluation -> result PdpDecision PdpError) (e : Evaluation) (engine : option N)
    (now : N) (c : Cache) : Cache * result PdpDecision PdpError :=
  match begin_evaluation e engine now c with
  | (c, BgRefused err) => (c, Err err)
  | (c, BgHit decision) => (c, Ok decision)
  | (c, BgAsk key generation) => (finish_evaluation key generation (inner e) engine now c, inner e)
  end.

(** [evaluate]: no structured input. *)
Definition evaluate (inner : Evaluation -> result PdpDecision PdpError) (call : PdpCall) (bag : AttributeBag)
    (engine : option N) (now : N) (c : Cache) : Cache * result PdpDecision PdpError :=
  evaluate_structured inner (mkEvaluation call bag (mkStructured None None false)) engine now c.
End Resolver.
