(* ===== verification/CacheKeyProps.v ===== *)
(** * The cache key tells evaluations apart

    The byte string the key digests is self-delimiting at every level, so two evaluations
    have the same one exactly when they are the same up to the order of mapping entries. *)

From Stdlib Require Import Ascii String SpecFloat Permutation.
From S2P Require Import Prelude RustStr F64 Json Platform Attributes Constraint Step Lexical Paths StepParser.
From S2P Require Import DecisionCache.

(** ** Self-delimiting encodings

    The fixed-width, counted and sorted pieces the cache key is built from, and that each
    of them can be read back whatever follows it. *)

(** ** Fixed-width fields *)

Lemma string_app_inj s1 s2 t1 t2 :
  String.length s1 = String.length s2 -> s1 +:+ t1 = s2 +:+ t2 -> s1 = s2 /\ t1 = t2.
Proof.
  revert s2. induction s1 as [|a s1 IH]; intros [|b s2] Hl He; simpl in *; try lia; [done|].
  injection He as -> He. injection Hl as Hl. destruct (IH s2 Hl He) as [-> ->]. done.
Qed.

Lemma be_bytes_length n z : String.length (be_bytes n z) = n.
Proof. revert z. induction n as [|n IH]; intros z; [done|]. simpl. rewrite string_app_length, IH. simpl. lia. Qed.

Lemma byte_of_inj x y : byte_of x = byte_of y -> (x mod 256 = y mod 256)%Z.
Proof.
  unfold byte_of. intros He. apply (f_equal N_of_ascii) in He.
  pose proof (Z.mod_pos_bound x 256 ltac:(lia)). pose proof (Z.mod_pos_bound y 256 ltac:(lia)).
  rewrite !N_ascii_embedding in He by lia. lia.
Qed.

Lemma be_bytes_inj n x y :
  (0 <= x < 256 ^ Z.of_nat n)%Z -> (0 <= y < 256 ^ Z.of_nat n)%Z -> be_bytes n x = be_bytes n y -> x = y.
Proof.
  revert x y. induction n as [|n IH]; intros x y Hx Hy He; [simpl in *; lia|].
  rewrite Nat2Z.inj_succ, Z.pow_succ_r in Hx, Hy by lia. cbn [be_bytes] in He.
  apply string_app_inj in He as [He Hb]; [|by rewrite !be_bytes_length]. injection Hb as Hb%byte_of_inj.
  apply IH in He; [|split; [apply Z.div_pos; lia|apply Z.div_lt_upper_bound; lia]..].
  rewrite (Z.div_mod x 256), (Z.div_mod y 256) by lia. lia.
Qed.

(** Two's complement: the bytes of [z] are those of its residue. *)
Lemma be_bytes_mod n z : be_bytes n z = be_bytes n (z mod 256 ^ Z.of_nat n)%Z.
Proof.
  revert z. induction n as [|n IH]; intros z; [done|]. cbn [be_bytes]. rewrite Nat2Z.inj_succ, Z.pow_succ_r by lia.
  set (M := (256 ^ Z.of_nat n)%Z). assert (HM : (0 < M)%Z) by (apply Z.pow_pos_nonneg; lia).
  f_equal.
  - rewrite IH, (IH (z mod (256 * M) / 256)%Z). f_equal. fold M.
    rewrite (Z.rem_mul_r z 256 M) by lia. rewrite (Z.mul_comm 256), Z.div_add by lia.
    rewrite (Z.div_small (z mod 256)) by (apply Z.mod_pos_bound; lia). by rewrite Z.add_0_l, Z.mod_mod by lia.
  - f_equal. unfold byte_of. f_equal. f_equal. rewrite (Z.rem_mul_r z 256 M), (Z.mul_comm 256) by lia.
    by rewrite Z.mod_add, Z.mod_mod by lia.
Qed.

Definition in_u64 (z : Z) : Prop := (0 <= z < 2 ^ 64)%Z.

Lemma to_be_bytes_u64 x y s t : in_u64 x -> in_u64 y -> to_be_bytes x +:+ s = to_be_bytes y +:+ t -> x = y /\ s = t.
Proof.
  unfold to_be_bytes. intros Hx Hy He. apply string_app_inj in He as [He ->]; [|by rewrite !be_bytes_length].
  split; [|done]. by apply be_bytes_inj in He.
Qed.

Lemma to_be_bytes_i64 x y s t :
  in_i64 x = true -> in_i64 y = true -> to_be_bytes x +:+ s = to_be_bytes y +:+ t -> x = y /\ s = t.
Proof.
  unfold in_i64, i64_min, i64_max. intros Hx Hy He. split_bools. rewrite !Z.leb_le in *.
  unfold to_be_bytes in He. rewrite (be_bytes_mod 8 x), (be_bytes_mod 8 y) in He.
  change (256 ^ Z.of_nat 8)%Z with (2 ^ 64)%Z in He.
  apply (to_be_bytes_u64 (x mod 2 ^ 64) (y mod 2 ^ 64)) in He as [He ->];
    [|unfold in_u64; apply Z.mod_pos_bound; lia..].
  split; [|done]. assert (x = y \/ (x - y) mod 2 ^ 64 <> 0)%Z as [->|Hn]; [|done|].
  { destruct (Z.eq_dec x y) as [->|Hne]; [by left|right]. intros Hz.
    apply Z.mod_divide in Hz as [q Hq]; [|lia]. assert (q = 0 \/ q <= -1 \/ 1 <= q)%Z by lia. nia. }
  exfalso. apply Hn. rewrite Zminus_mod, He, Z.sub_diag. done.
Qed.

(** ** Doubles *)

Definition f64_valid (f : f64) : Prop := valid_binary f64_prec f64_emax f = true.

(** The magnitude field of a double: below [2^63], and of one of four shapes. *)
Lemma finite_fields m e :
  bounded f64_prec f64_emax m e = true ->
  (Zpos m < 2 ^ 52 /\ e = -1074 \/ 2 ^ 52 <= Zpos m < 2 ^ 53 /\ -1074 <= e <= 971)%Z.
Proof.
  unfold bounded, canonical_mantissa. intros [Hc He]%andb_true_iff. apply Zeq_bool_eq in Hc. apply Z.leb_le in He.
  unfold fexp, emin, f64_prec, f64_emax in *. pose proof (digits2_pos_bounds m) as [H1 H2].
  set (d := Zpos (digits2_pos m)) in *. assert (0 < d)%Z by lia.
  assert (d = 53 \/ d <= 52 /\ e = -1074)%Z as [->|[Hd ->]] by lia.
  - right. change (2 ^ (53 - 1))%Z with (2 ^ 52)%Z in H1. lia.
  - left. split; [|done]. assert (2 ^ d <= 2 ^ 52)%Z by (apply Z.pow_le_mono_r; lia). lia.
Qed.

Definition magnitude (f : f64) : Z :=
  (match f with
   | S754_zero _ => 0
   | S754_infinity _ => 2047 * 2 ^ 52
   | S754_nan => 2047 * 2 ^ 52 + 2 ^ 51
   | S754_finite _ m e => if Zpos m <? 2 ^ 52 then Zpos m else (e + 1075) * 2 ^ 52 + (Zpos m - 2 ^ 52)
   end)%Z.

Definition sign_bit (f : f64) : bool :=
  match f with S754_zero s | S754_infinity s | S754_finite s _ _ => s | S754_nan => false end.

Lemma to_bits_split f : to_bits f = ((if sign_bit f then 2 ^ 63 else 0) + magnitude f)%Z.
Proof. destruct f; simpl; try done; destruct s; done. Qed.

Lemma magnitude_range f : f64_valid f -> (0 <= magnitude f < 2 ^ 63)%Z.
Proof.
  destruct f as [| | |s m e]; simpl; try lia. unfold f64_valid. simpl. intros Hf%finite_fields.
  destruct (Z.ltb_spec (Zpos m) (2 ^ 52)); lia.
Qed.

Lemma to_bits_inj f g : f64_valid f -> f64_valid g -> to_bits f = to_bits g -> f = g.
Proof.
  intros Hf Hg He. rewrite !to_bits_split in He.
  pose proof (magnitude_range f Hf). pose proof (magnitude_range g Hg).
  assert (sign_bit f = sign_bit g /\ magnitude f = magnitude g)%Z as [Hs Hm] by (destruct (sign_bit f), (sign_bit g); lia).
  destruct f as [s1|s1| |s1 m1 e1], g as [s2|s2| |s2 m2 e2]; simpl in *; subst; try done; try lia;
    unfold f64_valid in *; simpl in Hf, Hg;
    repeat match goal with Hb : bounded _ _ _ _ = true |- _ => apply finite_fields in Hb end;
    repeat match goal with Hm : context [Z.ltb ?a ?b] |- _ => destruct (Z.ltb_spec a b) end; try lia.
  - assert (m1 = m2) as -> by lia. f_equal. lia.
  - assert (e1 = e2 /\ Zpos m1 = Zpos m2) as [-> Hp] by lia. injection Hp as ->. done.
Qed.

Lemma to_bits_u64 f : f64_valid f -> in_u64 (to_bits f).
Proof. intros Hf. pose proof (magnitude_range f Hf). rewrite to_bits_split. unfold in_u64. destruct (sign_bit f); lia. Qed.

(** ** Self-delimiting encodings *)

(** Whatever follows, the encodings of [a] and [b] agree only if [R a b], and then what
    follows agrees too. *)
Definition delimits {A} (enc : A -> string) (R : A -> A -> Prop) (a b : A) : Prop :=
  forall s t, enc a +:+ s = enc b +:+ t -> R a b /\ s = t.

Definition fits (n : nat) : Prop := (Z.of_nat n < 2 ^ 64)%Z.

Lemma hash_len_delimits n m s t : fits n -> fits m -> hash_len n +:+ s = hash_len m +:+ t -> n = m /\ s = t.
Proof.
  unfold hash_len, fits. intros Hn Hm He. apply to_be_bytes_u64 in He as [He ->]; [|unfold in_u64; lia..].
  split; [lia|done].
Qed.

Lemma hash_bytes_delimits a b : fits (String.length a) -> fits (String.length b) -> delimits hash_bytes eq a b.
Proof.
  intros Ha Hb s t He. unfold hash_bytes in He. rewrite !append_assoc in He.
  apply hash_len_delimits in He as [Hl He]; [|done..]. by apply string_app_inj in He.
Qed.

Lemma u8_tag x y s t : (0 <= x < 256)%Z -> (0 <= y < 256)%Z -> u8 x +:+ s = u8 y +:+ t -> x = y /\ s = t.
Proof.
  intros Hx Hy He. apply string_app_inj in He as [He ->]; [|by unfold u8; rewrite !be_bytes_length].
  split; [|done]. by apply be_bytes_inj in He.
Qed.

Lemma concat_all_cons x l : concat_all (x :: l) = x +:+ concat_all l.
Proof. apply of_chars_cons. Qed.

Lemma concat_delimits {A} (enc : A -> string) R l1 l2 s t :
  length l1 = length l2 -> (forall a b, a ∈ l1 -> b ∈ l2 -> delimits enc R a b) ->
  concat_all (map enc l1) +:+ s = concat_all (map enc l2) +:+ t -> Forall2 R l1 l2 /\ s = t.
Proof.
  revert l2. induction l1 as [|a l1 IH]; intros [|b l2] Hl Hd He; simpl in Hl; try lia; [by split; [constructor|]|].
  cbn [map] in He. rewrite !concat_all_cons, !append_assoc in He.
  destruct (Hd a b ltac:(left) ltac:(left) _ _ He) as [Hab He'].
  apply IH in He' as [Hr ->]; [|lia|intros x y Hx Hy; apply Hd; by right]. split; [by constructor|done].
Qed.

(** A counted list of self-delimiting elements. *)
Lemma counted_delimits {A} (enc : A -> string) R l1 l2 s t :
  fits (length l1) -> fits (length l2) -> (forall a b, a ∈ l1 -> b ∈ l2 -> delimits enc R a b) ->
  (hash_len (length l1) +:+ concat_all (map enc l1)) +:+ s = (hash_len (length l2) +:+ concat_all (map enc l2)) +:+ t ->
  Forall2 R l1 l2 /\ s = t.
Proof.
  intros H1 H2 Hd He. rewrite !append_assoc in He. apply hash_len_delimits in He as [Hl He]; [|done..].
  by apply (concat_delimits enc R) in He.
Qed.

(** ** Sorted entries *)

#[global] Instance key_le_total {V} : Total (@key_le V).
Proof. intros a b. apply (total string_le). Qed.

#[global] Instance key_le_trans {V} : Transitive (@key_le V).
Proof. intros a b c. apply (transitivity (R := string_le)). Qed.

Lemma sort_pairs_unique l1 l2 : l1 ≡ₚ l2 -> NoDup (map fst l1) -> sort_pairs l1 = sort_pairs l2.
Proof.
  intros Hp Hnd. unfold sort_pairs. apply (StronglySorted_unique_strong key_le); try apply (StronglySorted_merge_sort _).
  - intros x1 x2 H1 H2 Hle1 Hle2. rewrite merge_sort_Permutation in H1, H2. rewrite <- Hp in H2.
    apply (nodup_map_inj fst l1); [done..|]. by apply (anti_symm string_le).
  - by rewrite !merge_sort_Permutation.
Qed.

(** The entries of a mapping, encoded, sorted and counted. *)
Lemma pairs_delimits {A} (f : A -> string * string) (R : A -> A -> Prop) (m1 m2 : list A) s t :
  fits (length m1) -> fits (length m2) ->
  (forall a, a ∈ m1 ++ m2 -> fits (String.length (f a).1)) ->
  (forall a b, a ∈ m1 -> b ∈ m2 -> (f a).1 = (f b).1 ->
     forall s t, (f a).2 +:+ s = (f b).2 +:+ t -> R a b /\ s = t) ->
  hash_pairs (sort_pairs (map f m1)) +:+ s = hash_pairs (sort_pairs (map f m2)) +:+ t ->
  (exists m2', m2 ≡ₚ m2' /\ Forall2 R m1 m2') /\ s = t.
Proof.
  intros H1 H2 Hfit Hd He.
  destruct (Permutation_map_inv f m1 (merge_sort_Permutation key_le (map f m1))) as (m1' & E1 & P1).
  destruct (Permutation_map_inv f m2 (merge_sort_Permutation key_le (map f m2))) as (m2' & E2 & P2).
  unfold hash_pairs, sort_pairs in He. rewrite E1, E2, !length_map, !map_map in He.
  apply (counted_delimits _ R) in He as [Hr ->].
  - split; [|done]. symmetry in P1. destruct (Permutation_Forall2 P1 Hr) as (m2'' & P3 & Hr').
    exists m2''. split; [by rewrite P2|done].
  - by rewrite <- P1.
  - by rewrite <- P2.
  - intros a b Ha Hb s' t' He'. rewrite <- P1 in Ha. rewrite <- P2 in Hb.
    pose proof (Hfit a ltac:(set_solver)) as Fa. pose proof (Hfit b ltac:(set_solver)) as Fb.
    pose proof (Hd a b Ha Hb) as Hab. destruct (f a) as [ka va], (f b) as [kb vb]. simpl in *.
    rewrite !append_assoc in He'. apply hash_bytes_delimits in He' as [-> He']; [|done..].
    by apply (Hab eq_refl).
Qed.

Lemma pairs_same {A} (f : A -> string * string) m1 m2 m2' :
  m2 ≡ₚ m2' -> Forall2 (fun a b => f a = f b) m1 m2' -> NoDup (map (fun a => (f a).1) m1) ->
  sort_pairs (map f m1) = sort_pairs (map f m2).
Proof.
  intros Hp Hf Hnd. apply sort_pairs_unique; [|by rewrite map_map].
  replace (map f m1) with (map f m2'); [by rewrite Hp|]. clear -Hf.
  induction Hf as [|a b l1 l2 Hab _ IH]; [done|]. simpl. by rewrite Hab, IH.
Qed.

(** ** Values *)

Definition number_ok (n : number) : Prop :=
  match n with NInt z => (i64_min <= z < 2 ^ 64)%Z | NFloat f => f64_valid f end.

Lemma hash_number_tag n : exists tag rest,
  hash_number n = u8 tag +:+ rest /\ (2 <= tag <= 5)%Z.
Proof.
  destruct n as [z|f]; simpl; [|by exists 4%Z, (to_be_bytes (to_bits f))].
  destruct (in_i64 z); [by exists 2%Z, (to_be_bytes z)|].
  destruct (_ && _); [by exists 3%Z, (to_be_bytes z)|by exists 5%Z, ""].
Qed.

Lemma hash_number_delimits n m : number_ok n -> number_ok m -> delimits hash_number eq n m.
Proof.
  assert (Hint : forall z, (i64_min <= z < 2 ^ 64)%Z ->
            hash_number (NInt z) = if in_i64 z then u8 2 +:+ to_be_bytes z else u8 3 +:+ to_be_bytes z).
  { intros z Hz. cbn [hash_number]. destruct (in_i64 z) eqn:Ei; [done|]. unfold in_i64, i64_min, i64_max in *.
    replace (_ && _) with true; [done|]. symmetry. apply andb_true_iff. rewrite Z.leb_le, Z.ltb_lt.
    apply andb_false_iff in Ei. rewrite !Z.leb_gt in Ei. lia. }
  assert (Htag : forall x y p q s t, (0 <= x < 256)%Z -> (0 <= y < 256)%Z ->
            (u8 x +:+ p) +:+ s = (u8 y +:+ q) +:+ t -> x = y /\ p +:+ s = q +:+ t).
  { intros x y p q s t Hx Hy He. rewrite !append_assoc in He. by apply u8_tag in He. }
  assert (Hu : forall z, in_i64 z = false -> (i64_min <= z < 2 ^ 64)%Z -> in_u64 z).
  { unfold in_i64, in_u64, i64_min, i64_max. intros z Hz%andb_false_iff. rewrite !Z.leb_gt in Hz. lia. }
  intros Hn Hm s t He. destruct n as [x|f], m as [y|g].
  - rewrite !Hint in He by done. destruct (in_i64 x) eqn:Ex, (in_i64 y) eqn:Ey;
      apply Htag in He as [Ht He]; try lia; [apply to_be_bytes_i64 in He as [-> ->]|apply to_be_bytes_u64 in He as [-> ->]];
      auto.
  - rewrite Hint in He by done. cbn [hash_number] in He. destruct (in_i64 x); apply Htag in He as [? _]; lia.
  - rewrite Hint in He by done. cbn [hash_number] in He. destruct (in_i64 y); apply Htag in He as [? _]; lia.
  - cbn [hash_number] in He. apply Htag in He as [_ He]; [|lia..].
    apply to_be_bytes_u64 in He as [He ->]; [|by apply to_bits_u64..]. by apply to_bits_inj in He as ->.
Qed.

(** Induction through sequences and mappings. *)
Definition yaml_nested_ind (P : yaml -> Prop)
    (Hnull : P YNull) (Hbool : forall b, P (YBool b))
    (Hnum : forall n, P (YNumber n)) (Hstr : forall s, P (YString s))
    (Hseq : forall l, Forall P l -> P (YSequence l))
    (Hmap : forall m, Forall (fun kv => P kv.1 /\ P kv.2) m -> P (YMapping m))
    (Htag : forall tag v, P v -> P (YTagged tag v)) : forall v, P v :=
  fix F (v : yaml) : P v :=
    match v with
    | YNull => Hnull
    | YBool b => Hbool b
    | YNumber n => Hnum n
    | YString s => Hstr s
    | YSequence l =>
        Hseq l ((fix G (l : list yaml) : Forall P l :=
                   match l with
                   | [] => Forall_nil_2 P
                   | x :: l' => Forall_cons_2 P x l' (F x) (G l')
                   end) l)
    | YMapping m =>
        Hmap m ((fix G (l : list (yaml * yaml)) : Forall (fun kv => P kv.1 /\ P kv.2) l :=
                   match l with
                   | [] => Forall_nil_2 _
                   | kv :: l' => Forall_cons_2 _ kv l' (conj (F kv.1) (F kv.2)) (G l')
                   end) m)
    | YTagged tag v => Htag tag v (F v)
    end.

(** ** The same document *)

(** Equal up to the order of mapping entries. *)
Inductive same_yaml : yaml -> yaml -> Prop :=
| SY_Null : same_yaml YNull YNull
| SY_Bool b : same_yaml (YBool b) (YBool b)
| SY_Number n : same_yaml (YNumber n) (YNumber n)
| SY_String s : same_yaml (YString s) (YString s)
| SY_Sequence l1 l2 : Forall2 same_yaml l1 l2 -> same_yaml (YSequence l1) (YSequence l2)
| SY_Mapping m1 m2 m2' :
    m2 ≡ₚ m2' -> Forall2 (fun a b => same_yaml a.1 b.1 /\ same_yaml a.2 b.2) m1 m2' ->
    same_yaml (YMapping m1) (YMapping m2)
| SY_Tagged tag v1 v2 : same_yaml v1 v2 -> same_yaml (YTagged tag v1) (YTagged tag v2).

Inductive same_json : json -> json -> Prop :=
| SJ_Null : same_json JNull JNull
| SJ_Bool b : same_json (JBool b) (JBool b)
| SJ_Number n : same_json (JNumber n) (JNumber n)
| SJ_String s : same_json (JString s) (JString s)
| SJ_Array l1 l2 : Forall2 same_json l1 l2 -> same_json (JArray l1) (JArray l2)
| SJ_Object m1 m2 m2' :
    m2 ≡ₚ m2' -> Forall2 (fun a b => a.1 = b.1 /\ same_json a.2 b.2) m1 m2' ->
    same_json (JObject m1) (JObject m2).

(** What a [Value] in memory satisfies: numbers of their width, lengths below [2^64], and
    no key twice. *)
Fixpoint yaml_ok (v : yaml) : Prop :=
  match v with
  | YNull | YBool _ => True
  | YNumber n => number_ok n
  | YString s => fits (String.length s)
  | YSequence l => fits (length l) /\ Forall (fun P => P) (map yaml_ok l)
  | YMapping m =>
      fits (length m) /\ Forall (fun P => P) (map (fun '(k, w) => yaml_ok k /\ yaml_ok w) m)
      /\ Forall (fun kv => fits (String.length (hash_yaml kv.1))) m
      /\ ForallOrdPairs (fun a b => ~ same_yaml a.1 b.1) m
  | YTagged tag w => fits (S (String.length tag)) /\ yaml_ok w
  end.

Fixpoint json_ok (v : json) : Prop :=
  match v with
  | JNull | JBool _ => True
  | JNumber n => number_ok n
  | JString s => fits (String.length s)
  | JArray l => fits (length l) /\ Forall (fun P => P) (map json_ok l)
  | JObject m =>
      fits (length m) /\ Forall (fun P => P) (map (fun '(_, w) => json_ok w) m)
      /\ Forall (fun kv => fits (String.length kv.1)) m /\ NoDup (map fst m)
  end.

(** ** Tags *)

Definition yaml_tag (v : yaml) : Z :=
  match v with
  | YNull => 0 | YBool _ => 1 | YNumber _ => 2 | YString _ => 6 | YSequence _ => 7 | YMapping _ => 8 | YTagged _ _ => 9
  end.

Definition json_tag (v : json) : Z :=
  match v with JNull => 0 | JBool _ => 1 | JNumber _ => 2 | JString _ => 6 | JArray _ => 7 | JObject _ => 8 end.

(** The tag byte, and what of it names the variant. *)
Definition tag_class (z : Z) : Z := if (2 <=? z)%Z && (z <=? 5)%Z then 2%Z else z.

Definition tagged_as (s : string) (c : Z) : Prop :=
  exists tag rest, s = u8 tag +:+ rest /\ (0 <= tag < 256)%Z /\ tag_class tag = c.

Lemma tagged_same s1 s2 c1 c2 s t : tagged_as s1 c1 -> tagged_as s2 c2 -> s1 +:+ s = s2 +:+ t -> c1 = c2.
Proof.
  intros (x & p & -> & Hx & <-) (y & q & -> & Hy & <-) He. rewrite !append_assoc in He.
  apply u8_tag in He as [-> _]; done.
Qed.

Lemma tagged_u8 x rest : (0 <= x < 256)%Z -> tagged_as (u8 x +:+ rest) (tag_class x).
Proof. intros Hx. by exists x, rest. Qed.

Lemma number_tagged n : tagged_as (hash_number n) 2.
Proof.
  destruct (hash_number_tag n) as (tag & rest & -> & Ht). exists tag, rest. split_and!; [done|lia|lia|].
  unfold tag_class. destruct (Z.leb_spec 2 tag), (Z.leb_spec tag 5); try lia. done.
Qed.

Lemma yaml_tagged v : tagged_as (hash_yaml v) (yaml_tag v).
Proof. destruct v; try apply number_tagged; try (by apply tagged_u8); by exists 0%Z, "". Qed.

Lemma json_tagged v : tagged_as (hash_json v) (json_tag v).
Proof. destruct v; try apply number_tagged; try (by apply tagged_u8); by exists 0%Z, "". Qed.

Lemma peel_u8 x p q s t : (u8 x +:+ p) +:+ s = (u8 x +:+ q) +:+ t -> p +:+ s = q +:+ t.
Proof. rewrite !append_assoc. intros He. by apply string_app_inj in He as [_ He]. Qed.

Lemma bool_delimits b c : delimits (fun b => u8 (Z.b2z b)) eq b c.
Proof. intros s t He. apply u8_tag in He as [He ->]; [|by destruct b|by destruct c]. by apply Z.b2z_inj in He as ->. Qed.

Lemma forall_map_id {A} (P : A -> Prop) l : Forall (fun p => p) (map P l) <-> forall x, x ∈ l -> P x.
Proof. rewrite <- Forall_forall. exact (Forall_fmap P (fun p => p) l). Qed.

(** ** One document per encoding *)

Lemma hash_yaml_delimits v1 v2 : yaml_ok v1 -> yaml_ok v2 -> delimits hash_yaml same_yaml v1 v2.
Proof.
  revert v2. induction v1 as [|b1|n1|s1|l1 IH|m1 IH|tag1 v1 IH] using yaml_nested_ind; intros v2 H1 H2 s t He;
    pose proof (tagged_same _ _ _ _ _ _ (yaml_tagged _) (yaml_tagged _) He) as Htag;
    destruct v2 as [|b2|n2|s2|l2|m2|tag2 v2]; try discriminate Htag; clear Htag;
    simpl in H1, H2; cbn [hash_yaml] in He.
  - apply string_app_inj in He as [_ ->]; [|done]. split; [constructor|done].
  - apply peel_u8, bool_delimits in He as [-> ->]. split; [constructor|done].
  - apply hash_number_delimits in He as [-> ->]; [|done..]. split; [constructor|done].
  - apply peel_u8, hash_bytes_delimits in He as [-> ->]; [|done..]. split; [constructor|done].
  - destruct H1 as [Hf1 H1], H2 as [Hf2 H2]. rewrite forall_map_id in H1, H2. rewrite Forall_forall in IH.
    apply peel_u8, (counted_delimits _ same_yaml) in He as [Hr ->]; [by split; [constructor|]|done|done|].
    intros a b Ha Hb. apply IH; auto.
  - destruct H1 as (Hf1 & H1 & Hk1 & _), H2 as (Hf2 & H2 & Hk2 & _). rewrite forall_map_id in H1, H2.
    rewrite Forall_forall in IH, Hk1, Hk2.
    apply peel_u8, (pairs_delimits _ (fun a b => same_yaml a.1 b.1 /\ same_yaml a.2 b.2)) in He
      as [(m2' & Hp & Hr) ->]; [by split; [econstructor|]|done|done|..].
    + intros [k w] [Ha|Ha]%elem_of_app; [by apply (Hk1 (k, w))|by apply (Hk2 (k, w))].
    + intros [k1 w1] [k2 w2] Ha Hb Hk s' t' He'. simpl in *. destruct (IH _ Ha) as [IHk IHw].
      pose proof (H1 _ Ha) as [Hok1 How1]. pose proof (H2 _ Hb) as [Hok2 How2]. simpl in *.
      destruct (IHw w2 How1 How2 s' t' He') as [Hw ->]. split; [|done]. split; [|done].
      apply (IHk k2 Hok1 Hok2 "" ""). by rewrite Hk.
  - destruct H1 as [Hf1 H1], H2 as [Hf2 H2]. apply peel_u8 in He. rewrite !append_assoc in He.
    apply hash_bytes_delimits in He as [Ht He]; [|done..]. apply string_app_inj in Ht as [_ ->]; [|done].
    apply IH in He as [Hv ->]; [|done..]. split; [by constructor|done].
Qed.

Lemma hash_json_delimits v1 v2 : json_ok v1 -> json_ok v2 -> delimits hash_json same_json v1 v2.
Proof.
  revert v2. induction v1 as [|b1|n1|s1|l1 IH|m1 IH]; intros v2 H1 H2 s t He;
    pose proof (tagged_same _ _ _ _ _ _ (json_tagged _) (json_tagged _) He) as Htag;
    destruct v2 as [|b2|n2|s2|l2|m2]; try discriminate Htag; clear Htag;
    simpl in H1, H2; cbn [hash_json] in He.
  - apply string_app_inj in He as [_ ->]; [|done]. split; [constructor|done].
  - apply peel_u8, bool_delimits in He as [-> ->]. split; [constructor|done].
  - apply hash_number_delimits in He as [-> ->]; [|done..]. split; [constructor|done].
  - apply peel_u8, hash_bytes_delimits in He as [-> ->]; [|done..]. split; [constructor|done].
  - destruct H1 as [Hf1 H1], H2 as [Hf2 H2]. rewrite forall_map_id in H1, H2. rewrite Forall_forall in IH.
    apply peel_u8, (counted_delimits _ same_json) in He as [Hr ->]; [by split; [constructor|]|done|done|].
    intros a b Ha Hb. apply IH; auto.
  - destruct H1 as (Hf1 & H1 & Hk1 & _), H2 as (Hf2 & H2 & Hk2 & _). rewrite forall_map_id in H1, H2.
    rewrite Forall_forall in IH, Hk1, Hk2.
    apply peel_u8, (pairs_delimits _ (fun a b => a.1 = b.1 /\ same_json a.2 b.2)) in He
      as [(m2' & Hp & Hr) ->]; [by split; [econstructor|]|done|done|..].
    + intros [k w] [Ha|Ha]%elem_of_app; [by apply (Hk1 (k, w))|by apply (Hk2 (k, w))].
    + intros [k1 w1] [k2 w2] Ha Hb Hk s' t' He'. simpl in *.
      destruct (IH _ Ha w2 (H1 _ Ha) (H2 _ Hb) s' t' He') as [Hw ->]. done.
Qed.

(** ** One encoding per document *)

Lemma forall2_map {A B} (f : A -> B) (R : A -> A -> Prop) l1 l2 :
  Forall2 R l1 l2 -> (forall a b, a ∈ l1 -> R a b -> f a = f b) -> map f l1 = map f l2.
Proof.
  induction 1 as [|a b l1 l2 Hab _ IH]; intros Hf; [done|]. simpl. f_equal; [apply Hf; [left|done]|].
  apply IH. intros x y Hx. apply Hf. by right.
Qed.

Lemma forall2_weaken {A} (R S : A -> A -> Prop) l1 l2 :
  Forall2 R l1 l2 -> (forall a b, a ∈ l1 -> b ∈ l2 -> R a b -> S a b) -> Forall2 S l1 l2.
Proof.
  induction 1 as [|a b l1 l2 Hab _ IH]; intros Hf; constructor; [apply Hf; [left|left|done]|].
  apply IH. intros x y Hx Hy. apply Hf; by right.
Qed.

Lemma distinct_encodings m :
  (forall a, a ∈ m -> yaml_ok a.1) -> ForallOrdPairs (fun a b => ~ same_yaml a.1 b.1) m ->
  NoDup (map (fun kv : yaml * yaml => hash_yaml kv.1) m).
Proof.
  intros Hok Hd. induction Hd as [|a m Ha _ IH]; [constructor|]. simpl. constructor.
  - intros (b & He & Hb)%list_elem_of_fmap. rewrite List.Forall_forall in Ha.
    apply (Ha b); [by apply list_elem_of_In|].
    apply (hash_yaml_delimits _ _ (Hok a ltac:(left)) (Hok b ltac:(by right)) "" ""). by rewrite He.
  - apply IH. intros x Hx. apply Hok. by right.
Qed.

Lemma hash_yaml_same v1 v2 : yaml_ok v1 -> same_yaml v1 v2 -> hash_yaml v1 = hash_yaml v2.
Proof.
  revert v2. induction v1 as [|b1|n1|s1|l1 IH|m1 IH|tag1 v1 IH] using yaml_nested_ind; intros v2 H1 Hs;
    inversion Hs as [| | | |? l2 Hr|? m2 m2' Hp Hr|? ? v2' Hv]; subst; try done; simpl in H1; cbn [hash_yaml].
  - destruct H1 as [_ H1]. rewrite forall_map_id in H1. rewrite Forall_forall in IH.
    do 2 f_equal; [by rewrite (Forall2_length _ _ _ Hr)|]. f_equal. apply (forall2_map _ same_yaml); [done|].
    intros a b Ha. apply IH; auto.
  - destruct H1 as (_ & H1 & _ & Hd). rewrite forall_map_id in H1. rewrite Forall_forall in IH.
    do 2 f_equal. apply (pairs_same _ m1 m2 m2'); [done| |].
    + apply (forall2_weaken _ _ _ _ Hr). intros [k1 w1] [k2 w2] Ha _ [Hk Hw]. simpl in *.
      destruct (IH _ Ha) as [IHk IHw]. destruct (H1 _ Ha). f_equal; auto.
    + erewrite map_ext; [apply (distinct_encodings m1); [|done]|by intros [k w]].
      intros [k w] Ha. by destruct (H1 _ Ha).
  - destruct H1 as [_ H1]. by rewrite (IH v2' H1 Hv).
Qed.

Lemma hash_json_same v1 v2 : json_ok v1 -> same_json v1 v2 -> hash_json v1 = hash_json v2.
Proof.
  revert v2. induction v1 as [|b1|n1|s1|l1 IH|m1 IH]; intros v2 H1 Hs;
    inversion Hs as [| | | |? l2 Hr|? m2 m2' Hp Hr]; subst; try done; simpl in H1; cbn [hash_json].
  - destruct H1 as [_ H1]. rewrite forall_map_id in H1. rewrite Forall_forall in IH.
    do 2 f_equal; [by rewrite (Forall2_length _ _ _ Hr)|]. f_equal. apply (forall2_map _ same_json); [done|].
    intros a b Ha. apply IH; auto.
  - destruct H1 as (_ & H1 & _ & Hd). rewrite forall_map_id in H1. rewrite Forall_forall in IH.
    do 2 f_equal. apply (pairs_same _ m1 m2 m2'); [done| |].
    + apply (forall2_weaken _ _ _ _ Hr). intros [k1 w1] [k2 w2] Ha _ [Hk Hw]. simpl in *.
      f_equal; [done|]. apply (IH _ Ha); [apply (H1 _ Ha)|done].
    + erewrite map_ext; [exact Hd|by intros [k w]].
Qed.

(** ** Bags, dialects and structured input *)

Definition attr_ok (v : AttributeValue) : Prop :=
  match v with
  | AVBool _ | AVNonScalar => True
  | AVInt z => in_i64 z = true
  | AVFloat f => f64_valid f
  | AVString s => fits (String.length s)
  | AVStringSet set => fits (length (elements set)) /\ forall x, x ∈ set -> fits (String.length x)
  end.

Definition attr_tag (v : AttributeValue) : Z :=
  match v with AVBool _ => 0 | AVInt _ => 1 | AVFloat _ => 2 | AVString _ => 3 | AVStringSet _ => 4 | AVNonScalar => 5 end.

Lemma attr_tagged v : exists rest, hash_attr v = u8 (attr_tag v) +:+ rest.
Proof. destruct v; by eexists. Qed.

Lemma sorted_elements_length set : length (sorted_elements set) = length (elements set).
Proof. unfold sorted_elements. by rewrite merge_sort_Permutation. Qed.

Lemma forall2_eq {A} (l1 l2 : list A) : Forall2 eq l1 l2 -> l1 = l2.
Proof. by induction 1; subst. Qed.

Lemma hash_attr_delimits v1 v2 : attr_ok v1 -> attr_ok v2 -> delimits hash_attr eq v1 v2.
Proof.
  intros H1 H2 s t He. assert (Ht : attr_tag v1 = attr_tag v2).
  { destruct (attr_tagged v1) as [r1 E1], (attr_tagged v2) as [r2 E2]. rewrite E1, E2, !append_assoc in He.
    apply u8_tag in He as [-> _]; [done|by destruct v1|by destruct v2]. }
  destruct v1 as [b1|z1|f1|s1|set1|], v2 as [b2|z2|f2|s2|set2|]; try discriminate Ht; clear Ht;
    simpl in H1, H2; cbn [hash_attr] in He.
  - apply peel_u8, bool_delimits in He as [-> ->]. done.
  - apply peel_u8, to_be_bytes_i64 in He as [-> ->]; done.
  - apply peel_u8, to_be_bytes_u64 in He as [He ->]; [|by apply to_bits_u64..]. by apply to_bits_inj in He as ->.
  - apply peel_u8, hash_bytes_delimits in He as [-> ->]; done.
  - destruct H1 as [Hf1 H1], H2 as [Hf2 H2].
    apply peel_u8, (counted_delimits hash_bytes eq) in He as [Hr%forall2_eq ->]; [|by rewrite sorted_elements_length..|].
    + split; [|done]. f_equal. apply set_eq. intros x. by rewrite <- !sorted_elements_elem, Hr.
    + intros a b Ha%sorted_elements_elem Hb%sorted_elements_elem. apply hash_bytes_delimits; auto.
  - apply string_app_inj in He as [_ ->]; done.
Qed.

Definition bag_ok (bag : AttributeBag) : Prop :=
  fits (size bag) /\ forall k v, bag !! k = Some v -> fits (String.length k) /\ attr_ok v.

Lemma sorted_entries_length {V} (m : gmap string V) : length (sorted_entries m) = size m.
Proof. unfold sorted_entries. rewrite merge_sort_Permutation. apply length_map_to_list. Qed.

Lemma hash_bag_delimits b1 b2 : bag_ok b1 -> bag_ok b2 -> delimits hash_bag eq b1 b2.
Proof.
  intros [Hf1 H1] [Hf2 H2] s t He. unfold hash_bag in He.
  apply (counted_delimits _ eq) in He as [Hr%forall2_eq ->]; [|by rewrite sorted_entries_length..|].
  - split; [|done]. apply map_eq. intros k. apply option_eq. intros v. by rewrite <- !sorted_entries_elem, Hr.
  - intros [k1 v1] [k2 v2] Ha%sorted_entries_elem Hb%sorted_entries_elem s' t' He'.
    destruct (H1 _ _ Ha), (H2 _ _ Hb). rewrite !append_assoc in He'.
    apply hash_bytes_delimits in He' as [-> He']; [|done..]. apply hash_attr_delimits in He' as [-> ->]; done.
Qed.

Definition dialect_ok (d : PdpDialect) : Prop :=
  match d with CustomDialect name => fits (String.length name) | _ => True end.

Definition dialect_tag (d : PdpDialect) : Z :=
  match d with Cedar => 0 | Opa => 1 | AuthZen => 2 | NeMo => 3 | Cel => 4 | CustomDialect _ => 5 end.

Lemma dialect_tagged d : exists rest, hash_dialect d = u8 (dialect_tag d) +:+ rest.
Proof. destruct d; try (by exists ""). by eexists. Qed.

Lemma hash_dialect_delimits d1 d2 : dialect_ok d1 -> dialect_ok d2 -> delimits hash_dialect eq d1 d2.
Proof.
  intros H1 H2 s t He. assert (Ht : dialect_tag d1 = dialect_tag d2).
  { destruct (dialect_tagged d1) as [r1 E1], (dialect_tagged d2) as [r2 E2]. rewrite E1, E2, !append_assoc in He.
    apply u8_tag in He as [-> _]; [done|by destruct d1|by destruct d2]. }
  destruct d1, d2; try discriminate Ht; clear Ht; cbn [hash_dialect] in He; try (apply string_app_inj in He as [_ ->]; done).
  apply peel_u8, hash_bytes_delimits in He as [-> ->]; done.
Qed.

(** The same optional document, and the same structured input. *)
Inductive same_optional : option json -> option json -> Prop :=
| SO_None : same_optional None None
| SO_Some v1 v2 : same_json v1 v2 -> same_optional (Some v1) (Some v2).

Definition optional_ok (o : option json) : Prop := match o with None => True | Some v => json_ok v end.

Lemma hash_optional_delimits o1 o2 :
  optional_ok o1 -> optional_ok o2 -> delimits hash_optional_json same_optional o1 o2.
Proof.
  intros H1 H2 s t He. destruct o1 as [v1|], o2 as [v2|]; cbn [hash_optional_json] in He.
  - apply peel_u8, hash_json_delimits in He as [Hv ->]; [|done..]. split; [by constructor|done].
  - rewrite append_assoc in He. by apply u8_tag in He as [? _].
  - rewrite append_assoc in He. by apply u8_tag in He as [? _].
  - apply string_app_inj in He as [_ ->]; [|done]. split; [constructor|done].
Qed.

Lemma hash_optional_same o1 o2 : optional_ok o1 -> same_optional o1 o2 -> hash_optional_json o1 = hash_optional_json o2.
Proof. intros H1 Hs. destruct Hs as [|v1 v2 Hs]; [done|]. cbn [hash_optional_json]. by rewrite (hash_json_same v1 v2). Qed.

(** ** Evaluations *)

Record evaluation_ok (e : Evaluation) : Prop := {
  eo_dialect : dialect_ok (pdp_dialect (ev_call e));
  eo_args : yaml_ok (pdp_args (ev_call e));
  eo_bag : bag_ok (ev_bag e);
  eo_llm : optional_ok (si_llm_request (ev_structured e));
  eo_input : optional_ok (si_args (ev_structured e));
}.

(** The same dialect, arguments, attributes and structured input, documents up to the
    order of their mappings' entries. *)
Record same_evaluation (e1 e2 : Evaluation) : Prop := {
  se_dialect : pdp_dialect (ev_call e1) = pdp_dialect (ev_call e2);
  se_args : same_yaml (pdp_args (ev_call e1)) (pdp_args (ev_call e2));
  se_bag : ev_bag e1 = ev_bag e2;
  se_deep : si_too_deep (ev_structured e1) = si_too_deep (ev_structured e2);
  se_llm : same_optional (si_llm_request (ev_structured e1)) (si_llm_request (ev_structured e2));
  se_input : same_optional (si_args (ev_structured e1)) (si_args (ev_structured e2));
}.

Lemma preimage_exact e1 e2 :
  evaluation_ok e1 -> evaluation_ok e2 -> preimage e1 = preimage e2 <-> same_evaluation e1 e2.
Proof.
  intros [Hd1 Ha1 Hb1 Hl1 Hi1] [Hd2 Ha2 Hb2 Hl2 Hi2]. unfold preimage, hash_structured. split.
  - intros He. apply hash_dialect_delimits in He as [Ed He]; [|done..].
    apply hash_yaml_delimits in He as [Ea He]; [|done..]. apply hash_bag_delimits in He as [Eb He]; [|done..].
    apply bool_delimits in He as [Et He]. apply hash_optional_delimits in He as [El He]; [|done..].
    rewrite <- (string_app_nil_r (hash_optional_json (si_args (ev_structured e1)))),
      <- (string_app_nil_r (hash_optional_json (si_args (ev_structured e2)))) in He.
    apply hash_optional_delimits in He as [Ei _]; [|done..]. done.
  - intros [Ed Ea Eb Et El Ei]. by rewrite Ed, (hash_yaml_same _ _ Ha1 Ea), Eb, Et, (hash_optional_same _ _ Hl1 El),
      (hash_optional_same _ _ Hi1 Ei).
Qed.

(** Claim C31. [cache_key_exact]: two evaluations are keyed by the same bytes exactly when they
    have the same dialect, the same attributes, the same depth marker, and the same arguments and
    structured input up to the order in which mappings list their entries: no two
    different evaluations share a key short of a digest collision, and reordering a
    mapping never loses a hit. *)
Theorem cache_key_exact `{Digest} e1 e2 :
  evaluation_ok e1 -> evaluation_ok e2 ->
  (preimage e1 = preimage e2 <-> same_evaluation e1 e2)
  /\ (same_evaluation e1 e2 -> for_evaluation e1 = for_evaluation e2)
  /\ (for_evaluation e1 = for_evaluation e2 ->
      same_evaluation e1 e2 \/ preimage e1 <> preimage e2 /\ sha256 (preimage e1) = sha256 (preimage e2)).
Proof.
  intros H1 H2. pose proof (preimage_exact e1 e2 H1 H2) as Hx. split_and!; [done|..].
  - intros Hs. unfold for_evaluation. by rewrite (proj2 Hx Hs).
  - intros He. destruct (decide (preimage e1 = preimage e2)) as [Hp|Hp]; [left; by apply Hx|by right].
Qed.

(** Two calls whose mappings list the same entries in the other order. *)
Definition reordered (m : list (yaml * yaml)) : Evaluation :=
  mkEvaluation (mkPdpCall Cedar (YMapping m)) {[ "role" := AVString "admin" ]} (mkStructured None None false).

Definition identity_digest : Digest := {| sha256 := fun s => Ok s |}.

Lemma cache_key_exact_witness :
  let k1 := (YString "a", YNumber (NInt 1)) in let k2 := (YString "b", YNull) in
  for_evaluation (H := identity_digest) (reordered [k1; k2])
  = for_evaluation (H := identity_digest) (reordered [k2; k1]).
Proof.
  intros k1 k2.
  assert (Hok : forall a b, (a, b) = (k1, k2) \/ (a, b) = (k2, k1) -> evaluation_ok (reordered [a; b])).
  { intros a b Hab. constructor; try done.
    - simpl. destruct Hab as [[= -> ->]|[= -> ->]]; simpl; unfold fits, number_ok, i64_min; simpl; split_and!;
        repeat constructor; try lia; try done; unfold fits; simpl; try lia; intros Hs; inversion Hs.
    - split; [vm_compute; done|]. intros k v Hk. cbn [reordered ev_bag] in Hk. apply lookup_singleton_Some in Hk as [<- <-].
      by split; vm_compute. }
  apply (cache_key_exact (H := identity_digest)); [apply Hok; by left|apply Hok; by right|].
  constructor; try done.
  - simpl. apply (SY_Mapping _ _ [k1; k2]); [apply Permutation_swap|]. repeat constructor.
  - constructor.
  - constructor.
Defined.
