(* ===== verification/CacheRaceProps.v ===== *)
(** * What the cache serves

    Over every interleaving: a hit is an answer of the wrapped resolver to the same key, asked
    and given under the generation it is served under, and still within its lifetime; and the
    store stays within its bound. *)

From Stdlib Require Import Ascii String.
From S2P Require Import Prelude RustStr F64 Json Platform Attributes Constraint Step Paths StepParser DecisionCache.
From S2P Require Import CacheKeyProps.

(** ** The bounded store of decisions

    The deque and the map of the store hold the same keys, the bound is never exceeded,
    and an insertion gives up a live decision only when every slot holds one. *)

(** ** The invariant *)

Record store_wf (s : Store) : Prop := {
  sw_nodup : NoDup (st_order s);
  sw_keys : forall k, k ∈ st_order s <-> is_Some (st_entries s !! k);
  sw_bound : size (st_entries s) <= st_max_entries s;
  sw_max : 0 < st_max_entries s;
}.

Definition live (now : N) (slot : Slot) : Prop := (now < sl_expires_at slot)%N.

Lemma order_length s : store_wf s -> length (st_order s) = size (st_entries s).
Proof.
  intros [Hnd Hk _ _]. rewrite <- size_dom, <- (size_list_to_set (C := gset string)) by done. f_equal.
  apply set_eq. intros k. by rewrite elem_of_list_to_set, elem_of_dom, Hk.
Qed.

Lemma remove_first_elem key l k : NoDup l -> k ∈ remove_first key l <-> k ∈ l /\ k <> key.
Proof.
  induction 1 as [|x l Hx Hnd IH]; simpl; [set_solver|]. destruct (String.eqb_spec x key) as [->|Hne]; set_solver.
Qed.

Lemma remove_first_sublist key l : remove_first key l `sublist_of` l.
Proof.
  induction l as [|x l IH]; simpl; [constructor|]. destruct (String.eqb x key); [by constructor|by constructor].
Qed.

Lemma sublist_same_length {A} (l1 l2 : list A) : l1 `sublist_of` l2 -> length l1 = length l2 -> l1 = l2.
Proof.
  induction 1 as [|x l1 l2 _ IH|x l1 l2 Hs _]; simpl; intros Hl; [done|by rewrite IH by lia|].
  apply sublist_length in Hs. lia.
Qed.

(** ** Dropping expired entries *)

(** What dropping may do: expired entries go, live ones stay, in the same order. *)
Record pruned (now : N) (s s' : Store) : Prop := {
  pr_wf : store_wf s';
  pr_max : st_max_entries s' = st_max_entries s;
  pr_sub : st_entries s' ⊆ st_entries s;
  pr_order : st_order s' `sublist_of` st_order s;
  pr_live : forall k slot, st_entries s !! k = Some slot -> live now slot -> st_entries s' !! k = Some slot;
}.

Lemma pruned_refl now s : store_wf s -> pruned now s s.
Proof. by constructor. Qed.

Lemma pruned_trans now s1 s2 s3 : pruned now s1 s2 -> pruned now s2 s3 -> pruned now s1 s3.
Proof.
  intros [W2 M2 S2 O2 L2] [W3 M3 S3 O3 L3]. constructor; [done|congruence|by etrans|by etrans|auto].
Qed.

(** With every entry live, nothing was dropped. *)
Lemma pruned_all_live now s s' :
  store_wf s -> pruned now s s' -> (forall k slot, st_entries s !! k = Some slot -> live now slot) -> s' = s.
Proof.
  intros Hw [Hw' Hm Hs Ho Hl] Hall.
  assert (He : st_entries s' = st_entries s).
  { apply map_eq. intros k. destruct (st_entries s !! k) as [slot|] eqn:E; [eauto|].
    destruct (st_entries s' !! k) as [slot|] eqn:E'; [|done]. by rewrite (lookup_weaken _ _ _ _ E' Hs) in E. }
  assert (Hl' : length (st_order s') = length (st_order s)) by (rewrite !order_length by done; by rewrite He).
  destruct s as [e o m], s' as [e' o' m']; simpl in *. subst. f_equal. by apply sublist_same_length.
Qed.

Lemma store_remove_wf key s : store_wf s -> store_wf (store_remove key s).
Proof.
  intros [Hnd Hk Hb Hm]. constructor; simpl; [|..|by etrans; [apply map_subseteq_size, delete_subseteq|]|done].
  - by eapply sublist_NoDup, remove_first_sublist.
  - intros k. rewrite remove_first_elem, lookup_delete_is_Some, Hk by done. naive_solver.
Qed.

Lemma store_remove_pruned now key s :
  store_wf s -> (forall slot, st_entries s !! key = Some slot -> ~ live now slot) -> pruned now s (store_remove key s).
Proof.
  intros Hw He. constructor; [by apply store_remove_wf|done|apply delete_subseteq|apply remove_first_sublist|].
  intros k slot Hk Hl. simpl. rewrite lookup_delete_ne; [done|]. intros ->. by apply (He slot).
Qed.

Lemma slot_expired_spec now s key :
  slot_expired now s key = true <-> forall slot, st_entries s !! key = Some slot -> ~ live now slot.
Proof.
  unfold slot_expired, live. destruct (st_entries s !! key) as [slot|]; [|naive_solver]. rewrite N.leb_le.
  split; [intros Hl ? [= <-]; lia|]. intros Hn. specialize (Hn slot eq_refl). lia.
Qed.

Lemma drop_front_pruned now s : store_wf s -> pruned now s (drop_expired_from_front now s).
Proof.
  unfold drop_expired_from_front. generalize (length (st_order s)) as fuel. intros fuel. revert s.
  induction fuel as [|fuel IH]; intros s Hw; simpl; [by apply pruned_refl|].
  destruct (st_order s) as [|front rest] eqn:Eo; [by apply pruned_refl|].
  destruct (slot_expired now s front) eqn:Ee; [|by apply pruned_refl].
  eapply pruned_trans; [apply store_remove_pruned; [done|by apply slot_expired_spec]|].
  apply IH. by apply store_remove_wf.
Qed.

Definition is_live (now : N) (entries : gmap string Slot) (key : string) : bool :=
  match entries !! key with Some slot => negb (sl_expires_at slot <=? now)%N | None => false end.

Lemma is_live_spec now entries key :
  is_live now entries key = true <-> exists slot, entries !! key = Some slot /\ live now slot.
Proof.
  unfold is_live, live. destruct (entries !! key) as [slot|]; [|naive_solver]. rewrite negb_true_iff, N.leb_gt.
  naive_solver.
Qed.

Lemma is_live_delete now entries key k : k <> key -> is_live now (delete key entries) k = is_live now entries k.
Proof. intros Hne. unfold is_live. by rewrite lookup_delete_ne. Qed.

Lemma retain_live_cons now key rest entries :
  retain_live now (key :: rest) entries
  = if is_live now entries key then let '(kept, entries') := retain_live now rest entries in (key :: kept, entries')
    else retain_live now rest (delete key entries).
Proof. done. Qed.

Lemma retain_kept now order entries :
  NoDup order -> (retain_live now order entries).1 = List.filter (is_live now entries) order.
Proof.
  intros Hnd. revert entries. induction Hnd as [|key order Hkey Hnd IH]; intros entries; [done|].
  rewrite retain_live_cons. cbn [List.filter]. destruct (is_live now entries key) eqn:El.
  - rewrite <- IH. by destruct (retain_live now order entries).
  - rewrite IH. apply filter_ext_in. intros k Hk. apply is_live_delete. intros ->. apply Hkey. by apply list_elem_of_In.
Qed.

Lemma retain_entries now order entries k :
  NoDup order ->
  (retain_live now order entries).2 !! k
  = if bool_decide (k ∈ order) && negb (is_live now entries k) then None else entries !! k.
Proof.
  intros Hnd. revert entries. induction Hnd as [|key order Hkey Hnd IH]; intros entries; [done|].
  rewrite retain_live_cons. destruct (is_live now entries key) eqn:El.
  - replace ((let '(kept, entries') := _ in _).2) with (retain_live now order entries).2
      by (by destruct (retain_live now order entries)).
    rewrite IH. destruct (decide (k = key)) as [->|Hne].
    + by rewrite El, !andb_false_r.
    + rewrite (bool_decide_ext (k ∈ key :: order) (k ∈ order)) by set_solver. done.
  - rewrite IH. destruct (decide (k = key)) as [->|Hne].
    + rewrite El, (bool_decide_eq_true_2 (key ∈ key :: order)), (bool_decide_eq_false_2 (key ∈ order)) by set_solver.
      simpl. apply lookup_delete_eq.
    + rewrite (bool_decide_ext (k ∈ key :: order) (k ∈ order)), is_live_delete, lookup_delete_ne by set_solver. done.
Qed.

Lemma filter_sublist {A} (p : A -> bool) l : List.filter p l `sublist_of` l.
Proof. induction l as [|x l IH]; simpl; [constructor|]. destruct (p x); by constructor. Qed.

Lemma drop_all_lookup now s k : store_wf s ->
  st_entries (drop_all_expired now s) !! k = if is_live now (st_entries s) k then st_entries s !! k else None.
Proof.
  intros Hw. unfold drop_all_expired.
  pose proof (retain_entries now (st_order s) (st_entries s) k (sw_nodup s Hw)) as He.
  destruct (retain_live now (st_order s) (st_entries s)) as [kept entries]. simpl in *. rewrite He.
  destruct (is_live now (st_entries s) k) eqn:El; [by rewrite andb_false_r|]. rewrite andb_true_r.
  case_bool_decide as Hk; [done|]. rewrite (sw_keys s Hw) in Hk. by apply eq_None_not_Some.
Qed.

Lemma drop_all_order now s : store_wf s ->
  st_order (drop_all_expired now s) = List.filter (is_live now (st_entries s)) (st_order s).
Proof.
  intros Hw. rewrite <- retain_kept by apply Hw. unfold drop_all_expired. by destruct (retain_live _ _ _).
Qed.

Lemma drop_all_max now s : st_max_entries (drop_all_expired now s) = st_max_entries s.
Proof. unfold drop_all_expired. by destruct (retain_live _ _ _). Qed.

Lemma drop_all_sub now s : store_wf s -> st_entries (drop_all_expired now s) ⊆ st_entries s.
Proof.
  intros Hw. apply map_subseteq_spec. intros k slot. rewrite drop_all_lookup by done. by destruct (is_live _ _ _).
Qed.

Lemma drop_all_pruned now s : store_wf s -> pruned now s (drop_all_expired now s).
Proof.
  intros Hw. constructor; [constructor|..].
  - rewrite drop_all_order by done. eapply sublist_NoDup; [apply Hw|apply filter_sublist].
  - intros k. rewrite drop_all_order, drop_all_lookup, list_elem_of_In, filter_In, <- list_elem_of_In, (sw_keys s Hw) by done.
    destruct (is_live _ _ _) eqn:El; [naive_solver|]. split; [naive_solver|]. by intros [? ?].
  - rewrite drop_all_max. etrans; [by apply map_subseteq_size, drop_all_sub|apply Hw].
  - rewrite drop_all_max. apply Hw.
  - apply drop_all_max.
  - by apply drop_all_sub.
  - rewrite drop_all_order by done. apply filter_sublist.
  - intros k slot Hk Hl. rewrite drop_all_lookup by done. by rewrite (proj2 (is_live_spec _ _ _)) by eauto.
Qed.

Lemma drop_all_live now s k slot :
  store_wf s -> st_entries (drop_all_expired now s) !! k = Some slot -> live now slot.
Proof.
  intros Hw. rewrite drop_all_lookup by done. destruct (is_live _ _ _) eqn:El; [|done].
  apply is_live_spec in El as (sl & Hsl & Hl). intros Hk. by simplify_eq.
Qed.

(** ** Insertion *)

Lemma evict_loop_room order entries max evicted :
  size entries < max -> evict_loop order entries max evicted = (order, entries, evicted).
Proof. intros Hs. destruct order; simpl; by rewrite (proj2 (Nat.leb_gt _ _)). Qed.

Lemma evict_loop_full old rest entries evicted :
  is_Some (entries !! old) ->
  evict_loop (old :: rest) entries (size entries) evicted = (rest, delete old entries, true).
Proof.
  intros [slot Ho]. cbn [evict_loop]. rewrite Nat.leb_refl. apply evict_loop_room.
  rewrite (map_size_delete_Some old entries) by eauto.
  assert (size entries <> 0); [|lia]. apply map_size_non_empty_iff. intros ->. by rewrite lookup_empty in Ho.
Qed.

(** A store with a new entry at the back, and with an entry replaced in place. *)
Definition appended (key : string) (slot : Slot) (s : Store) : Store :=
  mkStore (<[key := slot]> (st_entries s)) (st_order s ++ [key]) (st_max_entries s).

Definition replaced (key : string) (slot : Slot) (s : Store) : Store :=
  mkStore (<[key := slot]> (st_entries s)) (st_order s) (st_max_entries s).

Lemma appended_wf key slot s :
  store_wf s -> st_entries s !! key = None -> size (st_entries s) < st_max_entries s -> store_wf (appended key slot s).
Proof.
  intros [Hnd Hk Hb Hm] Hn Hs. constructor; simpl; [|..|by rewrite map_size_insert_None|done].
  - apply NoDup_app. split_and!; [done| |apply NoDup_singleton]. intros x Hx ->%list_elem_of_singleton.
    apply Hk in Hx as [? Hx]. congruence.
  - intros k. rewrite elem_of_app, list_elem_of_singleton, lookup_insert_is_Some, Hk. destruct (decide (key = k)); naive_solver.
Qed.

Lemma replaced_wf key slot s : store_wf s -> is_Some (st_entries s !! key) -> store_wf (replaced key slot s).
Proof.
  intros [Hnd Hk Hb Hm] Hi. constructor; simpl; [done|..|by rewrite map_size_insert_Some|done].
  intros k. rewrite lookup_insert_is_Some, Hk. destruct (decide (key = k)); naive_solver.
Qed.

Lemma store_remove_head old rest s : st_order s = old :: rest ->
  store_remove old s = mkStore (delete old (st_entries s)) rest (st_max_entries s).
Proof. intros Ho. unfold store_remove. rewrite Ho. cbn [remove_first]. by rewrite String.eqb_refl. Qed.

(** The three ways an insertion goes: over an entry, into a free slot, or in the place of
    the oldest of a store full of live entries. *)
Inductive inserted (key : string) (slot : Slot) (now : N) (s : Store) : Store -> InsertOutcome -> Prop :=
| ins_replace s1 : pruned now s s1 -> is_Some (st_entries s1 !! key) ->
    inserted key slot now s (replaced key slot s1) InStored
| ins_append s1 : pruned now s s1 -> st_entries s1 !! key = None -> size (st_entries s1) < st_max_entries s1 ->
    inserted key slot now s (appended key slot s1) InStored
| ins_evict old rest : st_entries s !! key = None -> size (st_entries s) = st_max_entries s ->
    (forall k sl, st_entries s !! k = Some sl -> live now sl) -> st_order s = old :: rest ->
    inserted key slot now s (appended key slot (store_remove old s)) InEvicted.

Lemma append_inserted key decision expires now s s1 :
  store_wf s -> pruned now s s1 -> st_entries s1 !! key = None ->
  (st_max_entries s1 <= size (st_entries s1) -> forall k sl, st_entries s1 !! k = Some sl -> live now sl) ->
  let '(order, entries, evicted) := evict_loop (st_order s1) (st_entries s1) (st_max_entries s1) false in
  inserted key (mkSlot decision expires) now s
    (mkStore (<[key := mkSlot decision expires]> entries) (order ++ [key]) (st_max_entries s1))
    (if evicted : bool then InEvicted else InStored).
Proof.
  intros Hw Hp Hn Hfull. pose proof (pr_wf _ _ _ Hp) as Hw1. pose proof (sw_bound _ Hw1) as Hb.
  destruct (decide (size (st_entries s1) < st_max_entries s1)) as [Hroom|Hno].
  - rewrite evict_loop_room by done. by apply ins_append.
  - assert (Hsz : size (st_entries s1) = st_max_entries s1) by lia.
    assert (Hs : s1 = s).
    { assert (He : st_entries s1 = st_entries s).
      { apply map_subseteq_size_eq; [apply Hp|]. rewrite Hsz, (pr_max _ _ _ Hp). apply Hw. }
      apply (pruned_all_live now); [done..|]. rewrite <- He. apply Hfull. lia. }
    subst s1. destruct (st_order s) as [|old rest] eqn:Eo.
    { pose proof (order_length s Hw) as Hl. rewrite Eo in Hl. simpl in Hl. pose proof (sw_max s Hw). lia. }
    assert (is_Some (st_entries s !! old)) by (apply (sw_keys s Hw); rewrite Eo; left).
    rewrite <- Hsz, evict_loop_full, Hsz by done.
    pose proof (ins_evict key (mkSlot decision expires) now s old rest Hn Hsz (Hfull ltac:(lia)) Eo) as Hi.
    unfold appended in Hi. by rewrite (store_remove_head old rest s Eo) in Hi.
Qed.

Lemma store_insert_spec key decision expires now s : store_wf s ->
  inserted key (mkSlot decision expires) now s (store_insert key decision expires now s).1
    (store_insert key decision expires now s).2.
Proof.
  intros Hw. pose proof (drop_front_pruned now s Hw) as Hp. unfold store_insert.
  set (s1 := drop_expired_from_front now s) in *. clearbody s1.
  destruct (st_entries s1 !! key) as [old|] eqn:Ek; [by eapply ins_replace|].
  assert (Hw1 : store_wf s1) by apply Hp.
  set (s2 := if Nat.leb (st_max_entries s1) (size (st_entries s1)) then drop_all_expired now s1 else s1).
  assert (Hp2 : pruned now s s2).
  { subst s2. destruct (Nat.leb _ _); [|done]. eapply pruned_trans; [exact Hp|by apply drop_all_pruned]. }
  assert (Hn2 : st_entries s2 !! key = None).
  { subst s2. destruct (Nat.leb _ _); [|done]. rewrite drop_all_lookup, Ek by done. by destruct (is_live _ _ _). }
  assert (Hfull : st_max_entries s2 <= size (st_entries s2) -> forall k sl, st_entries s2 !! k = Some sl -> live now sl).
  { subst s2. destruct (Nat.leb_spec (st_max_entries s1) (size (st_entries s1))); [|lia].
    intros _ k sl. by apply drop_all_live. }
  pose proof (append_inserted key decision expires now s s2 Hw Hp2 Hn2 Hfull) as Hi.
  destruct (evict_loop _ _ _ _) as [[order entries] evicted]. exact Hi.
Qed.

Lemma inserted_wf key slot now s s' out : store_wf s -> inserted key slot now s s' out -> store_wf s'.
Proof.
  intros Hw Hi. destruct Hi as [s1 Hp Hk|s1 Hp Hk Hs|old rest Hk Hs Hl Ho].
  - apply replaced_wf; [apply Hp|done].
  - apply appended_wf; [apply Hp|done..].
  - apply appended_wf; [by apply store_remove_wf|..]; simpl.
    + by rewrite lookup_delete_None; right.
    + assert (is_Some (st_entries s !! old)) by (apply (sw_keys s Hw); rewrite Ho; left).
      rewrite map_size_delete_Some by done. pose proof (sw_max s Hw). lia.
Qed.

Lemma inserted_key key slot now s s' out : inserted key slot now s s' out -> st_entries s' !! key = Some slot.
Proof. intros []; apply lookup_insert_eq. Qed.

Lemma inserted_old key slot now s s' out k sl :
  inserted key slot now s s' out -> k <> key -> st_entries s' !! k = Some sl -> st_entries s !! k = Some sl.
Proof.
  intros Hi Hne. destruct Hi as [s1 Hp Hk|s1 Hp Hk Hs|old rest Hk Hs Hl Ho]; simpl; rewrite lookup_insert_ne by done.
  - intros Hs1. eapply lookup_weaken; [done|apply Hp].
  - intros Hs1. eapply lookup_weaken; [done|apply Hp].
  - by intros [_ ?]%lookup_delete_Some.
Qed.

Lemma inserted_kept key slot now s s' out k sl :
  inserted key slot now s s' out -> k <> key -> st_entries s !! k = Some sl -> live now sl ->
  st_entries s' !! k = Some sl \/ out = InEvicted /\ head (st_order s) = Some k.
Proof.
  intros Hi Hne Hk Hlive. destruct Hi as [s1 Hp Hk1|s1 Hp Hk1 Hs|old rest Hk1 Hs Hl Ho]; simpl;
    rewrite lookup_insert_ne by done.
  - left. by apply (pr_live _ _ _ Hp).
  - left. by apply (pr_live _ _ _ Hp).
  - rewrite Ho. destruct (decide (old = k)) as [->|]; [by right|left]. by rewrite lookup_delete_ne.
Qed.

Lemma inserted_evicts key slot now s s' out : store_wf s -> inserted key slot now s s' out ->
  out = InEvicted <-> st_entries s !! key = None /\ size (st_entries s) = st_max_entries s
                     /\ forall k sl, st_entries s !! k = Some sl -> live now sl.
Proof.
  intros Hw Hi. destruct Hi as [s1 Hp Hk|s1 Hp Hk Hs|old rest Hk Hs Hl Ho]; split; try done.
  - intros (Hn & _ & _). destruct Hk as [sl Hk]. by rewrite (lookup_weaken _ _ _ _ Hk (pr_sub _ _ _ Hp)) in Hn.
  - intros (Hn & Hfull & Hl). rewrite (pruned_all_live now s s1 Hw Hp Hl) in Hs. lia.
Qed.

(** [store_insert_exact]: from a store whose deque and map agree and respect the
    bound, an insertion keeps them so and leaves the new decision to be found until it expires
    and not after; it invents no entry, and drops a decision
    that has not expired only when every slot holds a live decision for another key, and
    then only the oldest. *)
Theorem store_insert_exact key decision expires now s : store_wf s ->
  let '(s', out) := store_insert key decision expires now s in
  store_wf s'
  /\ (forall t, (store_lookup key t s').2 = if (expires <=? t)%N then LuExpired else LuHit decision)
  /\ (forall k sl, k <> key -> st_entries s' !! k = Some sl -> st_entries s !! k = Some sl)
  /\ (forall k sl, k <> key -> st_entries s !! k = Some sl -> live now sl ->
        st_entries s' !! k = Some sl \/ out = InEvicted /\ head (st_order s) = Some k)
  /\ (out = InEvicted <-> st_entries s !! key = None /\ size (st_entries s) = st_max_entries s
        /\ forall k sl, st_entries s !! k = Some sl -> live now sl).
Proof.
  intros Hw. pose proof (store_insert_spec key decision expires now s Hw) as Hi.
  destruct (store_insert key decision expires now s) as [s' out]. cbn [fst snd] in Hi. split_and!.
  - by eapply inserted_wf.
  - intros t. unfold store_lookup. rewrite (inserted_key _ _ _ _ _ _ Hi). cbn [sl_expires_at]. by destruct (_ <=? _)%N.
  - intros k sl. by eapply inserted_old.
  - intros k sl. by eapply inserted_kept.
  - by eapply inserted_evicts.
Qed.

(** ** Evaluations racing through the cache

    Any number of evaluations of one [CachedPdpResolver], each at one of the points where it
    can be overtaken, beside a clock that advances and an engine that reloads its
    configuration or goes away. What was asked and what was served is kept as history. *)

(** [mutate_runtime]: the snapshot is swapped in, then the generation is bumped. *)
Record Engine : Type := mkEngine {
  en_generation : N;
  en_snapshot : N;
  en_alive : bool;
}.

(** An answer of the wrapped resolver: to what, with what, the generation the cache gave the
    evaluation when it asked, the engine's generation and snapshot when the answer came. *)
Record Answered : Type := mkAnswered {
  an_evaluation : Evaluation;
  an_decision : PdpDecision;
  an_asked : N;
  an_generation : N;
  an_snapshot : N;
  an_at : N;
}.

(** A hit: what was asked, what was served, and what the engine and the clock were. *)
Record Served : Type := mkServed {
  sv_evaluation : Evaluation;
  sv_decision : PdpDecision;
  sv_engine : option N;
  sv_at : N;
}.

(** Where an evaluation is: not begun, waiting for the wrapped resolver, answered, and with
    the instant for the insertion taken. *)
Inductive Task : Type :=
| TkStart (e : Evaluation)
| TkAsking (e : Evaluation) (key : string) (generation : N)
| TkAnswered (a : Answered) (key : string)
| TkInserting (a : Answered) (key : string) (now : N).

Record World : Type := mkWorld {
  wd_cache : Cache;
  wd_engine : Engine;
  wd_clock : N;
  wd_tasks : gmap nat Task;
  wd_answers : list Answered;
  wd_served : list Served;
}.

Definition set_cache (c : Cache) (w : World) : World :=
  mkWorld c (wd_engine w) (wd_clock w) (wd_tasks w) (wd_answers w) (wd_served w).
Definition set_engine (g : Engine) (w : World) : World :=
  mkWorld (wd_cache w) g (wd_clock w) (wd_tasks w) (wd_answers w) (wd_served w).
Definition set_clock (t : N) (w : World) : World :=
  mkWorld (wd_cache w) (wd_engine w) t (wd_tasks w) (wd_answers w) (wd_served w).
Definition set_tasks (m : gmap nat Task) (w : World) : World :=
  mkWorld (wd_cache w) (wd_engine w) (wd_clock w) m (wd_answers w) (wd_served w).
Definition answered (a : Answered) (w : World) : World :=
  mkWorld (wd_cache w) (wd_engine w) (wd_clock w) (wd_tasks w) (a :: wd_answers w) (wd_served w).
Definition serve (v : Served) (w : World) : World :=
  mkWorld (wd_cache w) (wd_engine w) (wd_clock w) (wd_tasks w) (wd_answers w) (v :: wd_served w).

(** What upgrading the weak reference before the lock, and reading the generation under
    it, can yield: nothing only once the engine is gone. *)
Definition sees (g : Engine) (view : option N) : Prop :=
  view = Some (en_generation g) \/ view = None /\ en_alive g = false.

Section Race.
Context `{Digest, Clock}.

(** An evaluation begins: under the lock, at the clock's instant. *)
Definition begin_task (n : nat) (e : Evaluation) (view : option N) (w : World) : World :=
  let '(c, begun) := begin_evaluation e view (wd_clock w) (wd_cache w) in
  let w := set_cache c w in
  match begun with
  | BgRefused _ => set_tasks (delete n (wd_tasks w)) w
  | BgHit d => serve (mkServed e d view (wd_clock w)) (set_tasks (delete n (wd_tasks w)) w)
  | BgAsk key gen => set_tasks (<[n := TkAsking e key gen]> (wd_tasks w)) w
  end.

Definition answer_task (n : nat) (e : Evaluation) (key : string) (gen : N) (d : PdpDecision) (w : World) : World :=
  let a := mkAnswered e d gen (en_generation (wd_engine w)) (en_snapshot (wd_engine w)) (wd_clock w) in
  answered a (set_tasks (<[n := TkAnswered a key]> (wd_tasks w)) w).

Definition finish_task (n : nat) (a : Answered) (key : string) (now : N) (view : option N) (w : World) : World :=
  set_cache (finish_evaluation key (an_asked a) (Ok (an_decision a)) view now (wd_cache w))
    (set_tasks (delete n (wd_tasks w)) w).

(** A cancelled evaluation, or one the wrapped resolver failed, just ends. *)
Inductive cache_step : World -> World -> Prop :=
| StTick w t : (wd_clock w <= t)%N -> cache_step w (set_clock t w)
| StPublish w g : wd_engine w = mkEngine g g true -> cache_step w (set_engine (mkEngine g (g + 1) true) w)
| StBump w g : wd_engine w = mkEngine g (g + 1) true -> cache_step w (set_engine (mkEngine (g + 1) (g + 1) true) w)
| StGone w g : wd_engine w = mkEngine g g true -> cache_step w (set_engine (mkEngine g g false) w)
| StStart w n e : wd_tasks w !! n = None -> cache_step w (set_tasks (<[n := TkStart e]> (wd_tasks w)) w)
| StBegin w n e view :
    wd_tasks w !! n = Some (TkStart e) -> sees (wd_engine w) view -> cache_step w (begin_task n e view w)
| StAnswer w n e key gen d :
    wd_tasks w !! n = Some (TkAsking e key gen) -> cache_step w (answer_task n e key gen d w)
| StInstant w n a key :
    wd_tasks w !! n = Some (TkAnswered a key) ->
    cache_step w (set_tasks (<[n := TkInserting a key (wd_clock w)]> (wd_tasks w)) w)
| StInsert w n a key now view :
    wd_tasks w !! n = Some (TkInserting a key now) -> sees (wd_engine w) view ->
    cache_step w (finish_task n a key now view w)
| StCancel w n : cache_step w (set_tasks (delete n (wd_tasks w)) w).

(** [wrap] over an engine, or over none. *)
Definition fresh (ttl : N) (max_entries : nat) (g : Engine) (t : N) : World :=
  mkWorld (wrap ttl max_entries (if en_alive g then Some (en_generation g) else None)) g t ∅ [] [].

Definition reachable (ttl : N) (max_entries : nat) (w : World) : Prop :=
  exists g t, (en_generation g <= en_snapshot g <= en_generation g + 1)%N /\ rtc cache_step (fresh ttl max_entries g t) w.
End Race.

Section Props.
Context `{Hdigest : Digest, Hclock : Clock} (ttl : N).

(** The entry of [key] came from an answer: asked under the cache's generation, to an
    evaluation of that key, and inserted at an instant its expiry is counted from. *)
Definition entry_from (answers : list Answered) (clock gen : N) (key : string) (slot : Slot) : Prop :=
  exists a now, a ∈ answers /\ for_evaluation (an_evaluation a) = Ok key /\ an_decision a = sl_decision slot
  /\ an_asked a = gen /\ (an_at a <= now <= clock)%N /\ sl_expires_at slot = (now + ttl)%N.

Record cache_ok (answers : list Answered) (clock gen : N) (c : Cache) : Prop := {
  co_store : store_wf (ca_store c);
  co_ttl : ca_ttl c = ttl;
  co_gen : (ca_generation c <= gen)%N;
  co_entry : forall k slot, st_entries (ca_store c) !! k = Some slot ->
    entry_from answers clock (ca_generation c) k slot;
}.

Lemma entry_from_mono answers answers' clock clock' gen k slot :
  answers ⊆ answers' -> (clock <= clock')%N -> entry_from answers clock gen k slot -> entry_from answers' clock' gen k slot.
Proof. intros Ha Hc (a & now & Hi & Hk & Hd & Hg & Ht & He). exists a, now. split_and!; auto; lia. Qed.

Lemma cache_ok_mono answers answers' clock clock' gen gen' c :
  answers ⊆ answers' -> (clock <= clock')%N -> (gen <= gen')%N ->
  cache_ok answers clock gen c -> cache_ok answers' clock' gen' c.
Proof.
  intros Ha Hc Hg [Hs Ht Hcg He]. constructor; [done|done|lia|]. intros k slot Hk. eapply entry_from_mono; eauto.
Qed.

(** ** One operation at a time *)

Lemma store_new_wf max : 0 < max -> store_wf (Store_new max).
Proof.
  intros Hm. constructor; simpl; [constructor| |rewrite map_size_empty; lia|done].
  intros k. rewrite lookup_empty. split; [by intros ?%not_elem_of_nil|by intros [? ?]].
Qed.

Lemma refresh_ok answers clock g view c :
  sees g view -> cache_ok answers clock (en_generation g) c ->
  cache_ok answers clock (en_generation g) (refresh view c)
  /\ (forall v, view = Some v -> ca_generation (refresh view c) = v).
Proof.
  intros Hv Hc. destruct Hv as [->|[-> _]]; [|by split].
  cbn [refresh]. unfold maybe_clear_for_generation. destruct (N.eqb_spec (en_generation g) (ca_generation c)) as [He|He].
  - split; [done|]. by intros v [= <-].
  - split; [|by intros v [= <-]]. destruct Hc as [Hs Ht Hg Hk]. constructor; simpl; [|done|lia|].
    + apply store_new_wf, Hs.
    + intros k slot. by rewrite lookup_empty.
Qed.

Lemma lookup_ok answers clock gen key now c :
  cache_ok answers clock gen c -> cache_ok answers clock gen (set_store (store_lookup key now (ca_store c)).1 c).
Proof.
  intros [Hs Ht Hg Hk]. unfold store_lookup. destruct (st_entries (ca_store c) !! key) as [slot|]; [|by constructor].
  destruct (_ <=? _)%N; [|by constructor]. constructor; simpl; [by apply store_remove_wf|done|done|].
  intros k sl [_ Hl]%lookup_delete_Some. auto.
Qed.

Lemma stats_ok answers clock gen st c : cache_ok answers clock gen c -> cache_ok answers clock gen (set_stats st c).
Proof. by intros [Hs Ht Hg Hk]. Qed.

Lemma insert_ok answers clock g view a key now c :
  sees g view -> cache_ok answers clock (en_generation g) c -> a ∈ answers ->
  for_evaluation (an_evaluation a) = Ok key -> (an_at a <= now <= clock)%N ->
  cache_ok answers clock (en_generation g) (insert_if_generation key (an_decision a) (an_asked a) view now c).
Proof.
  intros Hv Hc Ha Hk Ht. destruct (refresh_ok answers clock g view c Hv Hc) as [Hc' _].
  unfold insert_if_generation. destruct (_ <? _)%N; [done|].
  pose proof (co_ttl _ _ _ _ Hc) as Httl. set (c1 := refresh view c) in *. clearbody c1.
  destruct (N.eqb_spec (ca_generation c1) (an_asked a)) as [Hg|]; [|done]. cbn [negb].
  pose proof (store_insert_spec key (an_decision a) (now + ca_ttl c) now (ca_store c1) (co_store _ _ _ _ Hc')) as Hi.
  destruct (store_insert _ _ _ _ _) as [s' out]. cbn [fst snd] in Hi.
  assert (Hs : cache_ok answers clock (en_generation g) (set_store s' c1)).
  { destruct Hc' as [Hw Hl Hle He]. constructor; simpl; [by eapply inserted_wf|done|done|].
    intros k slot Hs. destruct (decide (k = key)) as [->|Hne].
    - rewrite (inserted_key _ _ _ _ _ _ Hi) in Hs. injection Hs as <-. exists a, now. by rewrite Httl, Hg.
    - eapply He, inserted_old; eauto. }
  destruct out; [done|by apply stats_ok].
Qed.

(** ** The invariant *)

Definition served_well (answers : list Answered) (v : Served) : Prop :=
  exists a now, a ∈ answers
  /\ for_evaluation (an_evaluation a) = for_evaluation (sv_evaluation v)
  /\ an_decision a = sv_decision v
  /\ (an_at a <= now <= sv_at v)%N /\ (sv_at v < now + ttl)%N
  /\ (forall g, sv_engine v = Some g -> an_asked a = g /\ an_generation a = g /\ (g <= an_snapshot a <= g + 1)%N).

Definition answer_ok (clock gen : N) (a : Answered) : Prop :=
  (an_asked a <= an_generation a <= gen)%N /\ (an_generation a <= an_snapshot a <= an_generation a + 1)%N
  /\ (an_at a <= clock)%N.

Definition task_ok (answers : list Answered) (clock gen : N) (t : Task) : Prop :=
  match t with
  | TkStart _ => True
  | TkAsking e key g => for_evaluation e = Ok key /\ (g <= gen)%N
  | TkAnswered a key => a ∈ answers /\ for_evaluation (an_evaluation a) = Ok key
  | TkInserting a key now => a ∈ answers /\ for_evaluation (an_evaluation a) = Ok key /\ (an_at a <= now <= clock)%N
  end.

Record Inv (w : World) : Prop := {
  iv_engine : (en_generation (wd_engine w) <= en_snapshot (wd_engine w) <= en_generation (wd_engine w) + 1)%N;
  iv_cache : cache_ok (wd_answers w) (wd_clock w) (en_generation (wd_engine w)) (wd_cache w);
  iv_answers a : a ∈ wd_answers w -> answer_ok (wd_clock w) (en_generation (wd_engine w)) a;
  iv_tasks n t : wd_tasks w !! n = Some t -> task_ok (wd_answers w) (wd_clock w) (en_generation (wd_engine w)) t;
  iv_served v : v ∈ wd_served w -> served_well (wd_answers w) v;
}.

Lemma answer_ok_mono clock clock' gen gen' a :
  (clock <= clock')%N -> (gen <= gen')%N -> answer_ok clock gen a -> answer_ok clock' gen' a.
Proof. unfold answer_ok. lia. Qed.

Lemma task_ok_mono answers answers' clock clock' gen gen' t :
  answers ⊆ answers' -> (clock <= clock')%N -> (gen <= gen')%N ->
  task_ok answers clock gen t -> task_ok answers' clock' gen' t.
Proof. intros Ha Hc Hg. destruct t; simpl; [done|intros [? ?]|intros [? ?]|intros (? & ? & ?)]; split_and?; auto; lia. Qed.

Lemma served_well_mono answers answers' v : answers ⊆ answers' -> served_well answers v -> served_well answers' v.
Proof. intros Ha (a & now & Hi & Hr). exists a, now. auto. Qed.

(** The clock and the engine may move on. *)
Lemma inv_environment w t g :
  Inv w -> (wd_clock w <= t)%N -> (en_generation (wd_engine w) <= en_generation g)%N ->
  (en_generation g <= en_snapshot g <= en_generation g + 1)%N -> Inv (set_engine g (set_clock t w)).
Proof.
  intros [He Hc Ha Ht Hs] Hcl Hg Hsn. constructor; simpl; [done|..|done].
  - by eapply cache_ok_mono.
  - intros a Hi. eapply answer_ok_mono; [done..|]. auto.
  - intros n k Hk. eapply task_ok_mono; [done..|]. eauto.
Qed.

(** An evaluation moves to a point its task is sound at, or ends. *)
Lemma inv_task w n t : Inv w -> task_ok (wd_answers w) (wd_clock w) (en_generation (wd_engine w)) t ->
  Inv (set_tasks (<[n := t]> (wd_tasks w)) w).
Proof.
  intros [He Hc Ha Ht Hs] Hok. constructor; simpl; try done. intros m t' [[<- <-]|[_ Hm]]%lookup_insert_Some; eauto.
Qed.

Lemma inv_end w n : Inv w -> Inv (set_tasks (delete n (wd_tasks w)) w).
Proof. intros [He Hc Ha Ht Hs]. constructor; simpl; try done. intros m t' [_ Hm]%lookup_delete_Some; eauto. Qed.

Lemma inv_set_cache w c :
  Inv w -> cache_ok (wd_answers w) (wd_clock w) (en_generation (wd_engine w)) c -> Inv (set_cache c w).
Proof. by intros [He Hc Ha Ht Hs] Hok. Qed.

(** What a hit found in a refreshed cache. *)
Lemma hit_well w view e key d :
  Inv w -> sees (wd_engine w) view -> for_evaluation e = Ok key ->
  (store_lookup key (wd_clock w) (ca_store (refresh view (wd_cache w)))).2 = LuHit d ->
  served_well (wd_answers w) (mkServed e d view (wd_clock w)).
Proof.
  intros Hi Hv Hk Hl. destruct (refresh_ok _ _ _ _ _ Hv (iv_cache w Hi)) as [Hc Hg].
  unfold store_lookup in Hl. destruct (st_entries _ !! key) as [slot|] eqn:Es; [|done].
  destruct (N.leb_spec (sl_expires_at slot) (wd_clock w)) as [|Hlive]; [done|]. simpl in Hl. injection Hl as <-.
  destruct (co_entry _ _ _ _ Hc _ _ Es) as (a & now & Ha & Hka & Hd & Hask & Ht & Hex).
  exists a, now. simpl. split_and!; [done|by rewrite Hk|done|lia|lia|lia|].
  intros g Hview. rewrite (Hg g Hview) in Hask. destruct (iv_answers w Hi a Ha) as (Hag & Hsn & _).
  destruct Hv as [Hv|[Hv _]]; rewrite Hview in Hv; [injection Hv as Hv|done]. split_and!; [done|lia|lia|lia].
Qed.

Lemma inv_begin w n e view : Inv w -> sees (wd_engine w) view -> Inv (begin_task n e view w).
Proof.
  intros Hi Hv. unfold begin_task, begin_evaluation. destruct (for_evaluation e) as [key|err] eqn:Ek.
  2: { cbn. apply (inv_end (set_cache (wd_cache w) w)). by apply inv_set_cache; [|apply Hi]. }
  unfold cache_lookup. pose proof (hit_well w view e key) as Hhit.
  destruct (refresh_ok _ _ _ _ _ Hv (iv_cache w Hi)) as [Hc _].
  pose proof (lookup_ok _ _ _ key (wd_clock w) _ Hc) as Hl.
  assert (Hgen : (ca_generation (refresh view (wd_cache w)) <= en_generation (wd_engine w))%N) by apply Hc.
  destruct (store_lookup key (wd_clock w) _) as [s found]. cbn [fst snd] in *.
  set (c' := count_lookup found (set_store s (refresh view (wd_cache w)))).
  assert (Hw : Inv (set_cache c' w)) by (apply inv_set_cache; [done|by apply stats_ok]).
  clearbody c'. destruct found as [d| |].
  - pose proof (inv_end _ n Hw) as [He Hca Ha Ht Hs]. constructor; try done.
    intros v [->|Hin]%elem_of_cons; [|by apply Hs]. by apply Hhit.
  - by apply (inv_task (set_cache c' w)).
  - by apply (inv_task (set_cache c' w)).
Qed.

Lemma inv_answer w n e key gen d :
  Inv w -> wd_tasks w !! n = Some (TkAsking e key gen) -> Inv (answer_task n e key gen d w).
Proof.
  intros Hi Hn. unfold answer_task. set (a := mkAnswered _ _ _ _ _ _). destruct (iv_tasks w Hi _ _ Hn) as [Hk Hg].
  assert (Hsub : wd_answers w ⊆ a :: wd_answers w) by set_solver. pose proof (iv_engine w Hi) as He.
  constructor; simpl; [done|..].
  - eapply cache_ok_mono; [exact Hsub|reflexivity|reflexivity|]. by apply (iv_cache w Hi).
  - intros x [->|Hx]%elem_of_cons; [|by apply (iv_answers w Hi)]. unfold answer_ok. simpl. lia.
  - intros m t [[<- <-]|[_ Hm]]%lookup_insert_Some; [by split; [left|]|].
    eapply task_ok_mono; [exact Hsub|reflexivity|reflexivity|]. by eapply (iv_tasks w Hi).
  - intros v Hv. eapply served_well_mono; [exact Hsub|]. by apply (iv_served w Hi).
Qed.

Lemma inv_cache_step w w' : Inv w -> cache_step w w' -> Inv w'.
Proof.
  intros Hi Hs. destruct Hs as [w t Ht|w g Hg|w g Hg|w g Hg|w n e Hn|w n e view Hn Hv|w n e key gen d Hn|w n a key Hn
                               |w n a key now view Hn Hv|w n].
  - by apply (inv_environment w t (wd_engine w)); [..|apply Hi].
  - apply (inv_environment w (wd_clock w)); rewrite ?Hg; simpl; [done|lia..].
  - apply (inv_environment w (wd_clock w)); rewrite ?Hg; simpl; [done|lia..].
  - apply (inv_environment w (wd_clock w)); rewrite ?Hg; simpl; [done|lia..].
  - by apply inv_task.
  - by apply inv_begin.
  - by apply inv_answer.
  - apply inv_task; [done|]. destruct (iv_tasks w Hi _ _ Hn) as [Ha Hk]. destruct (iv_answers w Hi a Ha) as (_ & _ & Ht).
    simpl. split_and!; [done..|lia].
  - destruct (iv_tasks w Hi _ _ Hn) as (Ha & Hk & Ht). apply inv_set_cache; [by apply inv_end|].
    by apply insert_ok; [|apply Hi|..].
  - by apply inv_end.
Qed.

Lemma inv_fresh max g t :
  0 < max -> (en_generation g <= en_snapshot g <= en_generation g + 1)%N -> Inv (fresh ttl max g t).
Proof.
  intros Hm Hg. constructor; simpl; [done|..].
  - constructor; simpl; [by apply store_new_wf|done|destruct (en_alive g); simpl; lia|].
    intros k slot. by rewrite lookup_empty.
  - by intros a ?%not_elem_of_nil.
  - intros n k. by rewrite lookup_empty.
  - by intros a ?%not_elem_of_nil.
Qed.

Lemma inv_reachable max w : 0 < max -> reachable ttl max w -> Inv w.
Proof.
  intros Hm (g & t & Hg & Hr). pose proof (inv_fresh max g t Hm Hg) as Hi. revert Hi.
  induction Hr as [|w1 w2 w3 Hs _ IH]; [done|]. intros Hi. apply IH. by eapply inv_cache_step.
Qed.
End Props.

(** Claim C17. [hit_current]: however evaluations, reloads of the configuration, the end of the
    engine and the clock interleave, every decision the cache serves was given by the
    wrapped resolver to an evaluation with the same key, and was put in the cache, at an instant not before
    that answer, less than the lifetime before the hit; and if the
    engine was seen alive, the answer was asked for and given under the very generation it
    is served under. For evaluations of well-formed values, the two are the same evaluation
    unless the digest collides. *)
Theorem hit_current `{Digest, Clock} ttl max w v :
  0 < max -> reachable ttl max w -> v ∈ wd_served w ->
  exists a now, a ∈ wd_answers w
  /\ for_evaluation (an_evaluation a) = for_evaluation (sv_evaluation v)
  /\ an_decision a = sv_decision v
  /\ (an_at a <= now <= sv_at v)%N /\ (sv_at v < now + ttl)%N
  /\ (forall g, sv_engine v = Some g -> an_asked a = g /\ an_generation a = g /\ (g <= an_snapshot a <= g + 1)%N)
  /\ (evaluation_ok (an_evaluation a) -> evaluation_ok (sv_evaluation v) ->
      same_evaluation (an_evaluation a) (sv_evaluation v)
      \/ preimage (an_evaluation a) <> preimage (sv_evaluation v)
         /\ sha256 (preimage (an_evaluation a)) = sha256 (preimage (sv_evaluation v))).
Proof.
  intros Hm Hr Hv. destruct (iv_served _ _ (inv_reachable ttl max w Hm Hr) v Hv) as (a & now & Ha & Hk & Hrest).
  exists a, now. split_and!; try apply Hrest; [done|done|]. intros H1 H2.
  destruct (decide (preimage (an_evaluation a) = preimage (sv_evaluation v))) as [He|He]; [|by right].
  left. by apply preimage_exact.
Qed.

(** One evaluation asks and stores, a second one, a tick later, is served. *)
Definition far_clock : Clock := {| last_instant := 1000%N |}.

Definition asked_twice : World :=
  let _ := identity_digest in let _ := far_clock in
  let e := reordered [] in let yes := mkPdpDecision Allow [] in
  let w0 := fresh 10 1 (mkEngine 3 3 true) 5 in
  let w1 := begin_task 0 e (Some 3%N) (set_tasks (<[0 := TkStart e]> (wd_tasks w0)) w0) in
  let w2 := answer_task 0 e (preimage e) 3 yes w1 in
  let a := mkAnswered e yes 3 3 3 5 in
  let w3 := set_tasks (<[0 := TkInserting a (preimage e) 5]> (wd_tasks w2)) w2 in
  let w4 := set_clock 6 (finish_task 0 a (preimage e) 5 (Some 3%N) w3) in
  begin_task 1 e (Some 3%N) (set_tasks (<[1 := TkStart e]> (wd_tasks w4)) w4).

Lemma hit_current_witness :
  let _ := identity_digest in let _ := far_clock in
  reachable 10 1 asked_twice
  /\ exists v, v ∈ wd_served asked_twice /\ sv_decision v = mkPdpDecision Allow []
     /\ exists a now, a ∈ wd_answers asked_twice /\ an_decision a = sv_decision v /\ (sv_at v < now + 10)%N.
Proof.
  intros Hd Hc. assert (Hr : reachable 10 1 asked_twice).
  { exists (mkEngine 3 3 true), 5%N. split; [simpl; lia|].
    eapply rtc_l; [apply (StStart _ 0 (reordered [])); done|].
    eapply rtc_l; [apply (StBegin _ 0 (reordered []) (Some 3%N)); [done|by left]|].
    eapply rtc_l; [apply (StAnswer _ 0 (reordered []) (preimage (reordered [])) 3 (mkPdpDecision Allow [])); by vm_compute|].
    eapply rtc_l; [apply (StInstant _ 0 (mkAnswered (reordered []) (mkPdpDecision Allow []) 3 3 3 5)
                            (preimage (reordered []))); by vm_compute|].
    eapply rtc_l; [apply (StInsert _ 0 (mkAnswered (reordered []) (mkPdpDecision Allow []) 3 3 3 5)
                            (preimage (reordered [])) 5 (Some 3%N)); [by vm_compute|by left]|].
    eapply rtc_l; [apply (StTick _ 6); by vm_compute|].
    eapply rtc_l; [apply (StStart _ 1 (reordered [])); by vm_compute|].
    apply rtc_once. apply (StBegin _ 1 (reordered []) (Some 3%N)); [by vm_compute|by left]. }
  split; [done|]. exists (mkServed (reordered []) (mkPdpDecision Allow []) (Some 3%N) 6).
  assert (Hv : mkServed (reordered []) (mkPdpDecision Allow []) (Some 3%N) 6 ∈ wd_served asked_twice)
    by (vm_compute; left).
  split_and!; [done|done|].
  destruct (hit_current 10 1 asked_twice _ ltac:(lia) Hr Hv) as (a & now & Ha & _ & Hdec & _ & Hlt & _).
  by exists a, now.
Defined.
