(* ===== verification/Bridge.v ===== *)
(** * From extensions to attributes ([ppe-apl-cmf/src])

    The bridges that flatten the slots of a request, its arguments and its result into the
    bag policies are evaluated against, and the table of the namespaces a capability opens.
    A bridge only writes, so it is the sequence of its writes; a [HashMap] is visited in
    the unspecified order [hash_iter]. The SHA-256 provider and the date printer are
    parameters. *)

From Stdlib Require Import Ascii String.
From S2P Require Import Prelude RustStr F64 Json Platform Attributes Constraint Routing ExtData Plugin Extensions.
From S2P Require Import Rules Predicate Step Paths StepParser Config DecisionCache.

(** [DateTime::to_rfc3339_opts(SecondsFormat::Secs, true)]. *)
Class Chrono := { rfc3339 : DateTime -> string }.

(** [DateTime::timestamp]: whole seconds, toward the past. *)
Definition timestamp (at_ : DateTime) : Z := (at_ / 1000000000)%Z.

Definition Writes : Type := list (string * AttributeValue).

(** [bag.set(key, value)] for each, in order. *)
Definition bag_write (ws : Writes) (bag : AttributeBag) : AttributeBag :=
  foldl (fun bag w => bag_set bag w.1 w.2) bag ws.

(** [if let Some(v) = o { bag.set(key, ..) }]. *)
Definition set_opt (key : string) (o : option string) : Writes :=
  match o with Some v => [(key, AVString v)] | None => [] end.

Definition set_of (l : list string) : AttributeValue := AVStringSet (list_to_set l).

Section Bridge.
Context `{Platform, HashOrder, Digest, Chrono}.

(** ** Flattening ([payload.rs]) *)

(** The set a scalar array becomes: [None] at a nested array or object. *)
Fixpoint array_set (items : list json) (set : gset string) : option (gset string) :=
  match items with
  | [] => Some set
  | item :: rest =>
      match item with
      | JString s => array_set rest ({[ s ]} ∪ set)
      | JNumber n => array_set rest ({[ json_to_string (JNumber n) ]} ∪ set)
      | JBool b => array_set rest ({[ show_bool b ]} ∪ set)
      | JNull => array_set rest set
      | JArray _ | JObject _ => None
      end
  end.

Definition set_number (prefix : string) (n : number) : Writes :=
  match n with
  | NInt z => if in_i64 z then [(prefix, AVInt z)] else [(prefix, AVFloat (f64_of_Z z))]
  | NFloat f => [(prefix, AVFloat f)]
  end.

Fixpoint walk_inner (value : json) (prefix : string) (mark_non_scalar : bool) : Writes :=
  match value with
  | JObject map =>
      (if mark_non_scalar && negb (String.eqb prefix "") then [(prefix, AVNonScalar)] else [])
      ++ concat (List.map (fun '(key, sub) =>
           walk_inner sub (if String.eqb prefix "" then key else prefix +:+ "." +:+ key) mark_non_scalar) map)
  | JArray items =>
      match array_set items ∅ with
      | Some set => [(prefix, AVStringSet set)]
      | None => if mark_non_scalar then [(prefix, AVNonScalar)] else []
      end
  | JString s => [(prefix, AVString s)]
  | JBool b => [(prefix, AVBool b)]
  | JNumber n => set_number prefix n
  | JNull => if mark_non_scalar then [(prefix, AVNonScalar)] else []
  end.

Definition walk (value : json) (prefix : string) : Writes := walk_inner value prefix false.

(** A map of documents, each under its own key. *)
Definition walk_map (prefix : string) (m : gmap string json) : Writes :=
  concat (map (fun '(k, v) => walk v (prefix +:+ k)) (hash_iter m)).

Definition extract_args (args : json) : Writes := walk_inner args "args" true.
Definition extract_result (result : json) : Writes := walk_inner result "result" true.
Definition extract_data (tree : json) : Writes := walk tree "data".

(** ** Security ([security.rs]) *)

Definition is_atomic_membership_name (name : string) : bool := negb (contains_char "." name).

(** A presence key per undotted name. *)
Definition aliases (prefix : string) (names : list string) : Writes :=
  map (fun name => (prefix +:+ name, AVBool true)) (List.filter is_atomic_membership_name names).

Definition trust_level_str (level : ClientTrustLevel) : string :=
  match level with
  | TrustFirstParty => "first_party"
  | TrustThirdParty => "third_party"
  | TrustInternal => "internal"
  | TrustCustom s => s
  end.

Definition subject_type_str (t : SubjectType) : string :=
  match t with SubUser => "user" | SubAgent => "agent" | SubService => "service" | SubSystem => "system" end.

Definition extract_key_binding (prefix : string) (kb : KeyBinding) : Writes :=
  [(prefix +:+ ".key_binding", AVString (kb_method kb)); (prefix +:+ ".key_binding_thumbprint", AVString (kb_thumbprint kb))].

Definition extract_binding (prefix : string) (kb : option KeyBinding) : Writes :=
  match kb with Some kb => extract_key_binding prefix kb | None => [] end.

(** The subject's part of [extract_security]. *)
Definition extract_subject (subject : SubjectExtension) : Writes :=
  set_opt "subject.id" (sj_id subject)
  ++ set_opt "subject.type" (option_map subject_type_str (sj_subject_type subject))
  ++ ("subject.roles", AVStringSet (sj_roles subject)) :: aliases "role." (elements (sj_roles subject))
  ++ ("subject.permissions", AVStringSet (sj_permissions subject)) :: aliases "perm." (elements (sj_permissions subject))
  ++ ("subject.teams", AVStringSet (sj_teams subject)) :: aliases "team." (elements (sj_teams subject))
  ++ walk_map "claim." (sj_claims subject)
  ++ match sj_id subject with Some _ => [("authenticated", AVBool true)] | None => [] end
  ++ extract_binding "subject" (sj_key_binding subject).

Definition extract_client (client : ClientExtension) : Writes :=
  ("client.client_id", AVString (cl_client_id client))
  :: set_opt "client.client_name" (cl_client_name client)
  ++ ("client.trust_level", AVString (trust_level_str (cl_trust_level client)))
  :: ("client.roles", set_of (cl_roles client)) :: aliases "client.role." (cl_roles client)
  ++ ("client.permissions", set_of (cl_permissions client)) :: aliases "client.perm." (cl_permissions client)
  ++ ("client.authorized_scopes", set_of (cl_authorized_scopes client))
  :: ("client.authorized_audiences", set_of (cl_authorized_audiences client))
  :: ("client.teams", set_of (cl_teams client))
  :: walk_map "client.claim." (cl_claims client)
  ++ extract_binding "client" (cl_key_binding client).

Definition extract_workload (prefix : string) (w : WorkloadIdentity) : Writes :=
  set_opt (prefix +:+ ".spiffe_id") (wi_spiffe_id w)
  ++ set_opt (prefix +:+ ".trust_domain") (wi_trust_domain w)
  ++ set_opt (prefix +:+ ".attestor") (wi_attestor w)
  ++ (prefix +:+ ".selectors", set_of (wi_selectors w))
  :: set_opt (prefix +:+ ".client_id") (wi_client_id w)
  ++ extract_binding prefix (wi_key_binding w)
  ++ match wi_attested_at w with
     | Some at_ => [(prefix +:+ ".attested_at", AVString (rfc3339 at_)); (prefix +:+ ".attested_at_epoch", AVInt (timestamp at_))]
     | None => []
     end.

(** [if let Some(v) = slot { .. }]. *)
Definition when {A} (f : A -> Writes) (o : option A) : Writes := match o with Some v => f v | None => [] end.

Definition extract_security (sec : SecurityExtension) : Writes :=
  when extract_subject (sec_subject sec)
  ++ when extract_client (sec_client sec)
  ++ when (extract_workload "caller_workload") (sec_caller_workload sec)
  ++ when (extract_workload "this_workload") (sec_this_workload sec)
  ++ set_opt "auth_method" (sec_auth_method sec)
  ++ ("security.labels", AVStringSet (sec_labels sec))
  :: set_opt "security.classification" (sec_classification sec).

(** ** The other slots *)

Definition extract_delegation (del : DelegationExtension) : Writes :=
  ("delegation.depth", AVInt (del_depth del))
  :: ("delegation.delegated", AVBool (del_delegated del))
  :: ("delegated", AVBool (del_delegated del))
  :: set_opt "delegation.origin_subject_id" (del_origin_subject_id del)
  ++ set_opt "delegation.actor_subject_id" (del_actor_subject_id del)
  ++ [("delegation.age_seconds", AVFloat (del_age_seconds del))].

Definition set_int (key : string) (o : option Z) : Writes := when (fun v => [(key, AVInt v)]) o.

Definition extract_agent {Message} (agent : AgentExtension Message) : Writes :=
  set_opt "agent.input" (ag_input _ agent)
  ++ set_opt "agent.session_id" (ag_session_id _ agent)
  ++ set_opt "agent.conversation_id" (ag_conversation_id _ agent)
  ++ set_int "agent.turn" (ag_turn _ agent)
  ++ set_opt "agent.agent_id" (ag_agent_id _ agent)
  ++ set_opt "agent.parent_agent_id" (ag_parent_agent_id _ agent)
  ++ when (fun conv =>
       set_opt "agent.conversation.summary" (cv_summary _ conv)
       ++ [("agent.conversation.topics", set_of (cv_topics _ conv))]) (ag_conversation _ agent).

Definition extract_meta (meta : MetaExtension) : Writes :=
  set_opt "meta.entity_type" (mt_entity_type meta)
  ++ set_opt "meta.entity_name" (mt_entity_name meta)
  ++ ("meta.tags", AVStringSet (mt_tags meta))
  :: set_opt "meta.scope" (mt_scope meta)
  ++ map (fun '(k, v) => ("meta.properties." +:+ k, AVString v)) (hash_iter (mt_properties meta)).

Definition extract_request (req : RequestExtension) : Writes :=
  set_opt "request.environment" (rq_environment req)
  ++ set_opt "request.request_id" (rq_request_id req)
  ++ set_opt "request.timestamp" (rq_timestamp req)
  ++ set_opt "request.trace_id" (rq_trace_id req)
  ++ set_opt "request.span_id" (rq_span_id req).

(** Header names are lower-cased. *)
Definition header_writes (prefix : string) (headers : gmap string string) : Writes :=
  map (fun '(k, v) => (prefix +:+ str_to_lowercase k, AVString v)) (hash_iter headers).

Definition extract_http (http : HttpExtension) : Writes :=
  set_opt "http.method" (ht_method http)
  ++ set_opt "http.path" (ht_path http)
  ++ set_opt "http.query" (ht_query http)
  ++ set_opt "http.host" (ht_host http)
  ++ set_opt "http.scheme" (ht_scheme http)
  ++ set_opt "http.client_address" (ht_client_address http)
  ++ set_int "http.status" (ht_status http)
  ++ header_writes "http.request_headers." (ht_request_headers http)
  ++ header_writes "http.response_headers." (ht_response_headers http).

Definition extract_llm (llm : LLMExtension) : Writes :=
  when (fun v => [("llm.model.id", AVString v); ("llm.model_id", AVString v)]) (llm_model_id llm)
  ++ when (fun v => [("llm.model.provider", AVString v); ("llm.provider", AVString v)]) (llm_provider llm)
  ++ [("llm.model.capabilities", set_of (llm_capabilities llm)); ("llm.capabilities", set_of (llm_capabilities llm))].

Definition instruction_bytes (i : LlmInstruction) : string :=
  u8 (match li_role i with RoleSystem => 0 | RoleDeveloper => 1 end) +:+ hash_bytes (li_text i).

Definition instruction_preimage (instructions : list LlmInstruction) : string :=
  "ppe.llm.instructions.v1" +:+ u8 0
  +:+ be_bytes 4 (Z.min (Z.of_nat (length instructions)) (2 ^ 32 - 1))
  +:+ concat_all (map instruction_bytes instructions).

(** [{b:02x}] of each byte. *)
Definition hex_of (digest : string) : string :=
  concat_all (map (fun b => hex_digits 2 (N_of_ascii b)) (list_ascii_of_string digest)).

Definition instruction_digest (instructions : list LlmInstruction) : result string string :=
  let? digest := sha256 (instruction_preimage instructions) in
  Ok ("sha256-v1:" +:+ hex_of digest).

Definition tool_choice_writes (choice : ToolChoice) : Writes :=
  match choice with
  | ChoiceAuto => [("llm.input.tool_choice", AVString "auto")]
  | ChoiceNone => [("llm.input.tool_choice", AVString "none")]
  | ChoiceRequired => [("llm.input.tool_choice", AVString "required")]
  | ChoiceTool name => [("llm.input.forced_tool", AVString name); ("llm.input.tool_choice", AVString "tool")]
  end.

Definition extract_llm_request (req : LlmRequestParts) : result Writes string :=
  let? digest := instruction_digest (lp_instructions req) in
  Ok (("llm.input.offered_tools", set_of (map tm_name (lp_offered_tools req)))
      :: ("llm.input.stop_sequences", set_of (lp_stop_sequences req))
      :: when tool_choice_writes (lp_tool_choice req)
      ++ set_int "llm.input.max_tokens" (lp_max_tokens req)
      ++ set_int "llm.input.candidate_count" (lp_candidate_count req)
      ++ when (fun v => [("llm.input.temperature", AVFloat v)]) (lp_temperature req)
      ++ when (fun v => [("llm.input.top_p", AVFloat v)]) (lp_top_p req)
      ++ when (fun v => [("llm.input.stream", AVBool v)]) (lp_stream req)
      ++ [("llm.input.instructions_digest", AVString digest)]).

Definition extract_tool (tool : ToolMetadata) : Writes :=
  ("mcp.tool.name", AVString (tm_name tool))
  :: set_opt "mcp.tool.title" (tm_title tool)
  ++ set_opt "mcp.tool.description" (tm_description tool)
  ++ set_opt "mcp.tool.server_id" (tm_server_id tool)
  ++ set_opt "mcp.tool.namespace" (tm_namespace tool)
  ++ walk_map "mcp.tool.annotations." (tm_annotations tool).

Definition extract_resource (res : ResourceMetadata) : Writes :=
  ("mcp.resource.uri", AVString (rm_uri res))
  :: set_opt "mcp.resource.name" (rm_name res)
  ++ set_opt "mcp.resource.description" (rm_description res)
  ++ set_opt "mcp.resource.mime_type" (rm_mime_type res)
  ++ set_opt "mcp.resource.server_id" (rm_server_id res)
  ++ walk_map "mcp.resource.annotations." (rm_annotations res).

Definition extract_prompt (prompt : PromptMetadata) : Writes :=
  ("mcp.prompt.name", AVString (pm_name prompt))
  :: set_opt "mcp.prompt.description" (pm_description prompt)
  ++ set_opt "mcp.prompt.server_id" (pm_server_id prompt)
  ++ walk_map "mcp.prompt.annotations." (pm_annotations prompt).

Definition extract_mcp (mcp : MCPExtension) : Writes :=
  when extract_tool (mcp_tool mcp) ++ when extract_resource (mcp_resource mcp) ++ when extract_prompt (mcp_prompt mcp).

Definition set_alias (canonical legacy : string) (value : AttributeValue) : Writes := [(canonical, value); (legacy, value)].

Definition stop_reason_str (sr : StopReason) : string :=
  match sr with
  | StopEnd => "end" | StopReturn => "return" | StopCall => "call" | StopMaxTokens => "max_tokens"
  | StopSequence => "stop_sequence"
  end.

Definition extract_completion (c : CompletionExtension) : Writes :=
  when (fun sr => set_alias "llm.output.stop_reason" "completion.stop_reason" (AVString (stop_reason_str sr)))
    (cp_stop_reason c)
  ++ when (fun tu =>
       set_alias "llm.output.tokens.input" "completion.tokens.input" (AVInt (tu_input_tokens tu))
       ++ set_alias "llm.output.tokens.output" "completion.tokens.output" (AVInt (tu_output_tokens tu))
       ++ set_alias "llm.output.tokens.total" "completion.tokens.total" (AVInt (tu_total_tokens tu))) (cp_tokens c)
  ++ when (fun v => set_alias "llm.output.model" "completion.model" (AVString v)) (cp_model c)
  ++ when (fun v => set_alias "llm.output.raw_format" "completion.raw_format" (AVString v)) (cp_raw_format c)
  ++ when (fun v => set_alias "llm.output.created_at" "completion.created_at" (AVString v)) (cp_created_at c)
  ++ when (fun ms => set_alias "llm.output.latency_ms" "completion.latency_ms" (AVInt (Z.min ms i64_max))) (cp_latency_ms c).

Definition extract_provenance (p : ProvenanceExtension) : Writes :=
  set_opt "provenance.source" (pv_source p)
  ++ set_opt "provenance.message_id" (pv_message_id p)
  ++ set_opt "provenance.parent_id" (pv_parent_id p).

Definition extract_framework (f : FrameworkExtension) : Writes :=
  set_opt "framework.framework" (fw_framework f)
  ++ set_opt "framework.framework_version" (fw_framework_version f)
  ++ set_opt "framework.node_id" (fw_node_id f)
  ++ set_opt "framework.graph_id" (fw_graph_id f)
  ++ walk_map "framework.metadata." (fw_metadata f).

Definition extract_custom (custom : gmap string json) : Writes := walk_map "custom." custom.

(** ** Acquired metadata ([metadata.rs]) *)

(** The items as strings, unless one is none. *)
Fixpoint all_strings (items : list json) : option (list string) :=
  match items with
  | [] => Some []
  | JString s :: rest => option_map (cons s) (all_strings rest)
  | _ :: _ => None
  end.

Definition metadata_number (n : number) : AttributeValue :=
  match n with
  | NInt z => if in_i64 z then AVInt z else AVNonScalar
  | NFloat f => AVFloat f
  end.

Fixpoint metadata_walk (value : json) (prefix : string) : Writes :=
  match value with
  | JObject map =>
      (prefix, AVNonScalar)
      :: concat (List.map (fun '(key, child) => metadata_walk child (prefix +:+ "." +:+ key)) map)
  | JArray items =>
      [(prefix, match all_strings items with Some strings => set_of strings | None => AVNonScalar end)]
  | JString s => [(prefix, AVString s)]
  | JBool b => [(prefix, AVBool b)]
  | JNumber n => [(prefix, metadata_number n)]
  | JNull => [(prefix, AVNonScalar)]
  end.

Definition extract_value (facts : AcquiredFacts) (prefix : string) : Writes :=
  match af_value facts with
  | None => []
  | Some (JObject map) => concat (List.map (fun '(key, child) => metadata_walk child (prefix +:+ "." +:+ key)) map)
  | Some other => metadata_walk other (prefix +:+ ".value")
  end.

Definition cache_str (c : MetadataCacheDisposition) : string :=
  match c with
  | CacheDisabled => "disabled" | CacheMiss => "miss" | CacheHit => "hit" | CacheRevalidated => "revalidated"
  | CacheStale => "stale"
  end.

Definition outcome_str (o : MetadataOutcome) : string := match o with MetaSuccess => "success" | MetaError => "error" end.

Definition facts_provenance (facts : AcquiredFacts) (prefix : string) : Writes :=
  when (fun source => [(prefix +:+ ".$source", AVString (ms_kind source))]) (af_source facts)
  ++ (prefix +:+ ".$outcome", AVString (outcome_str (af_outcome facts)))
  :: (prefix +:+ ".$cache", AVString (cache_str (af_cache facts)))
  :: when (fun t => [(prefix +:+ ".$fetched_at", AVString (rfc3339 t))]) (af_fetched_at facts)
  ++ set_int (prefix +:+ ".$status") (af_status facts)
  ++ (if af_stale facts then [(prefix +:+ ".$stale", AVBool true)] else [])
  ++ set_opt (prefix +:+ ".$error_code") (af_error_code facts).

Definition extract_metadata (metadata : MetadataExtension) : Writes :=
  concat (map (fun '(instance, facts) =>
    let prefix := "metadata." +:+ instance in
    (prefix, AVNonScalar) :: extract_value facts prefix ++ facts_provenance facts prefix) (sorted_entries metadata)).

(** ** The container ([extensions_bridge.rs], [lib.rs]) *)

Definition when_arc {A} (f : A -> Writes) (o : option (arc A)) : Writes := when (fun a => f (arc_val a)) o.

Definition request_writes (o : option (arc LlmRequestData)) : result Writes string :=
  match o with
  | Some a => match lr_parts (arc_val a) with Some parts => extract_llm_request parts | None => Ok [] end
  | None => Ok []
  end.

Definition extract_extensions {Message} (x : Extensions Message) : result Writes string :=
  let? llm_request := request_writes (x_llm_request x) in
  Ok (when extract_security (x_security x)
      ++ when extract_delegation (x_delegation x)
      ++ when_arc extract_agent (x_agent x)
      ++ when_arc extract_meta (x_meta x)
      ++ when_arc extract_metadata (x_metadata x)
      ++ when_arc extract_request (x_request x)
      ++ when extract_http (x_http x)
      ++ when_arc extract_llm (x_llm x)
      ++ llm_request
      ++ when_arc extract_mcp (x_mcp x)
      ++ when_arc extract_completion (x_completion x)
      ++ when_arc extract_provenance (x_provenance x)
      ++ when_arc extract_framework (x_framework x)
      ++ when extract_custom (x_custom x)).

(** [BagBuilder::with_extensions] and the other steps of the builder. *)
Definition with_extensions {Message} (x : Extensions Message) (bag : AttributeBag) : result AttributeBag string :=
  let? ws := extract_extensions x in Ok (bag_write ws bag).

Definition with_args (args : json) (bag : AttributeBag) : AttributeBag := bag_write (extract_args args) bag.
Definition with_result (result : json) (bag : AttributeBag) : AttributeBag := bag_write (extract_result result) bag.
Definition with_data (tree : json) (bag : AttributeBag) : AttributeBag := bag_write (extract_data tree) bag.
Definition with_route_key (route_key : string) (bag : AttributeBag) : AttributeBag :=
  bag_set bag "route.key" (AVString route_key).
End Bridge.

(** ** What a capability opens ([capability_namespaces.rs]) *)

Definition SUBJECT_KEYS : list string :=
  ["subject.id"; "subject.type"; "subject.key_binding"; "subject.key_binding_thumbprint"; "authenticated"].

Definition TABLE : list (string * list string) :=
  [("read_subject", SUBJECT_KEYS);
   ("read_roles", "role." :: "subject.roles" :: SUBJECT_KEYS);
   ("read_permissions", "perm." :: "subject.permissions" :: SUBJECT_KEYS);
   ("read_teams", "team." :: "subject.teams" :: SUBJECT_KEYS);
   ("read_claims", "claim." :: SUBJECT_KEYS);
   ("read_labels", ["security.labels"]);
   ("read_client", ["client."]);
   ("read_workload", ["caller_workload."; "this_workload."]);
   ("read_inbound_credentials", []);
   ("read_delegated_tokens", []);
   ("read_delegation", ["delegation."; "delegated"]);
   ("read_agent", ["agent."]);
   ("read_headers", ["http.request_headers."; "http.response_headers."; "http.method"; "http.path"; "http.host";
                     "http.scheme"; "http.client_address"; "http.status"]);
   ("read_query", ["http.query"]);
   ("read_llm_request", ["llm.input.offered_tools"; "llm.input.stop_sequences"; "llm.input.tool_choice";
                         "llm.input.forced_tool"; "llm.input.max_tokens"; "llm.input.candidate_count";
                         "llm.input.temperature"; "llm.input.top_p"; "llm.input.stream";
                         "llm.input.instructions_digest"]);
   ("read_metadata", ["metadata."])].

Definition capability_namespaces (cap : string) : list string :=
  match find (fun e => String.eqb e.1 cap) TABLE with Some e => e.2 | None => [] end.

Definition known_read_capabilities : list string := map fst TABLE.

Definition unlocked_bag_prefixes (caps : list string) : gset string :=
  list_to_set (concat (map capability_namespaces caps)).

(** A prefix ending in a dot names every key under it, another one only itself. *)
Definition under (key prefix : string) : bool :=
  if ends_with_dot prefix then starts_with prefix key else String.eqb key prefix.

(** [matches_any] of the rate limiter's configuration. *)
Definition matches_any (attribute : string) (entries : list string) : bool := existsb (under attribute) entries.

(** [granting_capabilities] of its handler. *)
Definition granting_capabilities (attribute : string) : list string :=
  List.filter (fun capability => matches_any attribute (capability_namespaces capability)) known_read_capabilities.
