(* ===== verification/BridgeProps.v ===== *)
(** * What a capability shows of the attributes

    The bag built from a plugin's filtered view of a request is the bag of the whole
    request on the namespaces the table gives to its capabilities and on the open ones,
    and holds nothing else but empty sets. *)

From Stdlib Require Import Ascii String.
From S2P Require Import Prelude RustStr F64 Json Platform Attributes Rules Constraint Step Lexical Predicate Paths.
From S2P Require Import Routing ExtData Plugin Extensions StepParser Config DecisionCache CacheKeyProps Bridge.

Ltac by_decision := match goal with |- ?P => apply (bool_decide_eq_true_1 P); vm_compute; reflexivity end.

(** ** The last write wins *)

Definition hits (key : string) (ws : Writes) : Writes := List.filter (fun w => String.eqb w.1 key) ws.

Lemma hits_app key ws1 ws2 : hits key (ws1 ++ ws2) = hits key ws1 ++ hits key ws2.
Proof. apply List.filter_app. Qed.

Lemma bag_write_app ws1 ws2 bag : bag_write (ws1 ++ ws2) bag = bag_write ws2 (bag_write ws1 bag).
Proof. apply foldl_app. Qed.

(** Only the writes of a key matter to what stands under it. *)
Lemma bag_write_hits key ws bag1 bag2 :
  bag1 !! key = bag2 !! key -> bag_write ws bag1 !! key = bag_write (hits key ws) bag2 !! key.
Proof.
  revert bag1 bag2. induction ws as [|[k v] ws IH]; intros bag1 bag2 Hb; [done|]. cbn.
  destruct (String.eqb_spec k key) as [->|Hne]; apply IH; unfold bag_set; simpl.
  - by rewrite !lookup_insert_eq.
  - by rewrite lookup_insert_ne.
Qed.

Lemma same_hits key ws1 ws2 bag : hits key ws1 = hits key ws2 -> bag_write ws1 bag !! key = bag_write ws2 bag !! key.
Proof. intros Hh. by rewrite (bag_write_hits key ws1 bag bag), (bag_write_hits key ws2 bag bag), Hh. Qed.

Lemma bag_write_elem key v ws bag : bag_write ws bag !! key = Some v -> (key, v) ∈ ws \/ bag !! key = Some v.
Proof.
  revert bag. induction ws as [|[k w] ws IH]; intros bag Hb; [by right|]. cbn in Hb. apply IH in Hb as [Hin|Hb].
  - left. by right.
  - unfold bag_set in Hb. simpl in Hb. apply lookup_insert_Some in Hb as [[-> ->]|[_ Hb]]; [left; left|by right].
Qed.

(** ** Namespaces *)

(** Whether some key lies under both prefixes. *)
Definition overlap (p q : string) : bool :=
  match ends_with_dot p, ends_with_dot q with
  | true, true => starts_with p q || starts_with q p
  | true, false => starts_with p q
  | false, true => starts_with q p
  | false, false => String.eqb p q
  end.

Lemma prefix_comparable p q s : starts_with p s = true -> starts_with q s = true -> starts_with p q || starts_with q p = true.
Proof.
  unfold starts_with. revert q s. induction p as [|a p IH]; intros q s Hp Hq; [by destruct q|].
  destruct q as [|b q]; [done|]. destruct s as [|c s]; [done|]. simpl in *.
  destruct (ascii_dec a c) as [<-|]; [|done]. destruct (ascii_dec b a) as [<-|]; [|done].
  destruct (ascii_dec b b) as [_|]; [by apply (IH q s)|done].
Qed.

Lemma under_overlap key p q : under key p = true -> under key q = true -> overlap p q = true.
Proof.
  unfold under, overlap. destruct (ends_with_dot p), (ends_with_dot q); intros Hp Hq.
  - by eapply prefix_comparable.
  - apply String.eqb_eq in Hq as ->. done.
  - apply String.eqb_eq in Hp as ->. done.
  - apply String.eqb_eq in Hp as ->. done.
Qed.

Lemma matches_any_spec key ns : matches_any key ns = true <-> exists p, p ∈ ns /\ under key p = true.
Proof. unfold matches_any. rewrite existsb_exists. setoid_rewrite list_elem_of_In. done. Qed.

Lemma starts_with_app p s r : starts_with p s = true -> starts_with p (s +:+ r) = true.
Proof.
  unfold starts_with. revert s. induction p as [|a p IH]; intros s Hs; [by destruct (s +:+ r)|].
  destruct s as [|b s]; [done|]. simpl in *. destruct (ascii_dec a b); [by apply IH|done].
Qed.

(** A key under a prefix, whatever its end is. *)
Lemma matches_below s ns r : existsb (fun p => ends_with_dot p && starts_with p s) ns = true -> matches_any (s +:+ r) ns = true.
Proof.
  intros (p & Hp & [Hd Hs]%andb_true_iff)%existsb_exists. apply matches_any_spec. exists p.
  split; [by apply list_elem_of_In|]. unfold under. rewrite Hd. by apply starts_with_app.
Qed.

(** Every write lands in one of the namespaces. *)
Definition inside (ns : list string) (ws : Writes) : Prop := Forall (fun w => matches_any w.1 ns = true) ws.

Lemma inside_hits ns ws key : inside ns ws -> matches_any key ns = false -> hits key ws = [].
Proof.
  intros Hi Hn. induction Hi as [|[k v] ws Hk _ IH]; [done|]. cbn in *.
  destruct (String.eqb_spec k key) as [->|]; [congruence|done].
Qed.

Lemma inside_when {A} ns (f : A -> Writes) o : (forall v, inside ns (f v)) -> inside ns (when f o).
Proof. intros Hf. destruct o; [apply Hf|constructor]. Qed.

Lemma inside_when_arc {A} ns (f : A -> Writes) o : (forall v, inside ns (f v)) -> inside ns (when_arc f o).
Proof. intros Hf. apply inside_when. intros v. apply Hf. Qed.

Lemma inside_set_opt ns key o : matches_any key ns = true -> inside ns (set_opt key o).
Proof. intros Hk. destruct o; repeat constructor. done. Qed.

Lemma inside_set_int ns key o : matches_any key ns = true -> inside ns (set_int key o).
Proof. intros Hk. destruct o; repeat constructor. done. Qed.

Lemma inside_aliases ns prefix names :
  (forall r, matches_any (prefix +:+ r) ns = true) -> inside ns (aliases prefix names).
Proof. intros Hp. unfold aliases. apply Forall_map, Forall_forall. intros name _. apply Hp. Qed.

Lemma inside_binding ns prefix kb :
  matches_any (prefix +:+ ".key_binding") ns = true -> matches_any (prefix +:+ ".key_binding_thumbprint") ns = true ->
  inside ns (extract_binding prefix kb).
Proof. intros H1 H2. destruct kb; repeat constructor; done. Qed.

Lemma inside_concat {A} ns (f : A -> Writes) l : (forall x, inside ns (f x)) -> inside ns (concat (map f l)).
Proof. intros Hf. apply Forall_concat, Forall_map, Forall_forall. intros x _. apply Hf. Qed.

Section Bridge.
Context `{Platform, HashOrder, Digest, Chrono}.

(** A document flattens below its prefix. *)
Lemma walk_below j prefix mark : Forall (fun w => exists r, w.1 = prefix +:+ r) (walk_inner j prefix mark).
Proof.
  assert (Hself : forall v, exists r, (prefix, v : AttributeValue).1 = prefix +:+ r)
    by (intros v; exists ""; by rewrite string_app_nil_r).
  revert prefix mark Hself. induction j as [|b|n|s|items _|m IH]; intros prefix mark Hself; cbn.
  - destruct mark; repeat constructor. apply (Hself AVNonScalar).
  - repeat constructor. apply (Hself (AVBool b)).
  - destruct n as [z|f]; cbn; [destruct (in_i64 z)|]; repeat constructor; apply (Hself AVNonScalar).
  - repeat constructor. apply (Hself (AVString s)).
  - destruct (array_set items ∅); [|destruct mark]; repeat constructor; apply (Hself AVNonScalar).
  - apply Forall_app. split; [destruct (mark && _); repeat constructor; apply (Hself AVNonScalar)|].
    apply Forall_concat, Forall_map. eapply Forall_impl; [exact IH|]. intros [key sub] Hsub. simpl in *.
    eapply Forall_impl; [apply Hsub; intros v; exists ""; by rewrite string_app_nil_r|]. intros [k v] [r Hr]. simpl in *.
    rewrite Hr. destruct (String.eqb_spec prefix "") as [->|_]; [by exists (key +:+ r)|].
    exists ("." +:+ key +:+ r). by rewrite !append_assoc.
Qed.

Lemma inside_walk ns j prefix mark : (forall r, matches_any (prefix +:+ r) ns = true) -> inside ns (walk_inner j prefix mark).
Proof. intros Hp. eapply Forall_impl; [apply walk_below|]. intros [k v] [r ->]. apply Hp. Qed.

Lemma inside_walk_map ns prefix m : (forall r, matches_any (prefix +:+ r) ns = true) -> inside ns (walk_map prefix m).
Proof.
  intros Hp. apply inside_concat. intros [k v]. apply inside_walk. intros r. rewrite append_assoc. apply Hp.
Qed.

Lemma inside_header_writes ns prefix m :
  (forall r, matches_any (prefix +:+ r) ns = true) -> inside ns (header_writes prefix m).
Proof. intros Hp. unfold header_writes. apply Forall_map, Forall_forall. intros [k v] _. apply Hp. Qed.

Lemma metadata_walk_below j prefix : Forall (fun w => exists r, w.1 = prefix +:+ r) (metadata_walk j prefix).
Proof.
  revert prefix. induction j as [|b|n|s|items _|m IH]; intros prefix; cbn;
    constructor; try (exists ""; by rewrite string_app_nil_r); try constructor.
  apply Forall_concat, Forall_map. eapply Forall_impl; [exact IH|]. intros [key sub] Hsub. simpl in *.
  eapply Forall_impl; [apply Hsub|]. intros [k v] [r Hr]. simpl in *. rewrite Hr. exists ("." +:+ key +:+ r).
  by rewrite !append_assoc.
Qed.

Lemma inside_metadata_walk ns j prefix : (forall r, matches_any (prefix +:+ r) ns = true) -> inside ns (metadata_walk j prefix).
Proof. intros Hp. eapply Forall_impl; [apply metadata_walk_below|]. intros [k v] [r ->]. apply Hp. Qed.

(** ** Where each bridge writes *)

Definition SUBJECT_ALL : list string :=
  ["role."; "perm."; "team."; "claim."; "subject.roles"; "subject.permissions"; "subject.teams"] ++ SUBJECT_KEYS.

(** The namespaces of the slots no capability gates. *)
Definition OPEN : list string :=
  ["meta."; "request."; "llm.model."; "llm.model_id"; "llm.provider"; "llm.capabilities"; "llm.output."; "completion.";
   "mcp."; "provenance."; "framework."; "custom."; "auth_method"; "security.classification"].

Ltac below := first [reflexivity | by (intros; apply matches_below)].

Ltac solve_inside :=
  repeat first
    [ apply Forall_app; split
    | apply Forall_cons; split; [below|]
    | apply Forall_nil; exact I
    | apply inside_set_opt; below
    | apply inside_set_int; below
    | apply inside_aliases; below
    | apply inside_walk_map; below
    | apply inside_binding; below
    | apply inside_header_writes; below
    | apply inside_when; intros ?; cbn beta ].

Lemma subject_inside s : inside SUBJECT_ALL (extract_subject s).
Proof. unfold extract_subject. solve_inside. Qed.

Lemma client_inside c : inside ["client."] (extract_client c).
Proof. unfold extract_client. solve_inside. Qed.

Lemma caller_inside w : inside ["caller_workload."; "this_workload."] (extract_workload "caller_workload" w).
Proof. unfold extract_workload. solve_inside. Qed.

Lemma this_inside w : inside ["caller_workload."; "this_workload."] (extract_workload "this_workload" w).
Proof. unfold extract_workload. solve_inside. Qed.

Lemma delegation_inside d : inside ["delegation."; "delegated"] (extract_delegation d).
Proof. unfold extract_delegation. solve_inside. Qed.

Lemma agent_inside {Message} (a : AgentExtension Message) : inside ["agent."] (extract_agent a).
Proof. unfold extract_agent. solve_inside. Qed.

Definition beneath (prefix : string) (ws : Writes) : Prop := Forall (fun w => exists r, w.1 = prefix +:+ r) ws.

Lemma beneath_app prefix s ws : beneath (prefix +:+ s) ws -> beneath prefix ws.
Proof. intros Hw. eapply Forall_impl; [exact Hw|]. intros w [r ->]. exists (s +:+ r). by rewrite append_assoc. Qed.

Lemma value_beneath facts prefix : beneath prefix (extract_value facts prefix).
Proof.
  unfold extract_value. destruct (af_value facts) as [[]|]; try apply Forall_nil_2;
    try (eapply beneath_app, metadata_walk_below).
  apply Forall_concat, Forall_map, Forall_forall. intros [k v] _. eapply beneath_app, metadata_walk_below.
Qed.

Lemma provenance_beneath facts prefix : beneath prefix (facts_provenance facts prefix).
Proof.
  unfold facts_provenance, set_int, beneath.
  repeat first [apply Forall_app; split | apply Forall_cons; split; [by eexists|] | apply Forall_nil; exact I].
  - destruct (af_source facts); repeat constructor. by eexists.
  - destruct (af_fetched_at facts); repeat constructor. by eexists.
  - destruct (af_status facts); repeat constructor. by eexists.
  - destruct (af_stale facts); repeat constructor. by eexists.
  - destruct (af_error_code facts); repeat constructor. by eexists.
Qed.

Lemma metadata_inside m : inside ["metadata."] (extract_metadata m).
Proof.
  apply inside_concat. intros [instance facts]. eapply (Forall_impl (fun w => exists r, w.1 = ("metadata." +:+ instance) +:+ r)).
  - constructor; [exists ""; by rewrite string_app_nil_r|].
    apply Forall_app. split; [apply value_beneath|apply provenance_beneath].
  - intros w [r ->]. rewrite append_assoc. by apply matches_below.
Qed.

Lemma request_inside parts ws :
  extract_llm_request parts = Ok ws -> inside (capability_namespaces "read_llm_request") ws.
Proof.
  unfold extract_llm_request, set_int. destruct (instruction_digest _) as [d|]; [|done]. intros [= <-].
  solve_inside. destruct v; solve_inside.
Qed.

Lemma meta_inside m : inside OPEN (extract_meta m).
Proof. unfold extract_meta. solve_inside. apply Forall_map, Forall_forall. intros [k v] _. by apply matches_below. Qed.

Lemma request_ext_inside r : inside OPEN (extract_request r).
Proof. unfold extract_request. solve_inside. Qed.

Lemma llm_inside l : inside OPEN (extract_llm l).
Proof. unfold extract_llm. solve_inside. Qed.

Lemma mcp_inside m : inside OPEN (extract_mcp m).
Proof. unfold extract_mcp, extract_tool, extract_resource, extract_prompt. solve_inside. Qed.

Lemma completion_inside c : inside OPEN (extract_completion c).
Proof. unfold extract_completion, set_alias. solve_inside. Qed.

Lemma provenance_inside p : inside OPEN (extract_provenance p).
Proof. unfold extract_provenance. solve_inside. Qed.

Lemma framework_inside f : inside OPEN (extract_framework f).
Proof. unfold extract_framework. solve_inside. Qed.

Lemma custom_inside c : inside OPEN (extract_custom c).
Proof. apply inside_walk_map. below. Qed.

(** ** What a capability set sees *)

(** Under a namespace a capability opens, or under an open one. *)
Definition visible (caps : Capabilities) (key : string) : Prop :=
  (exists p, p ∈ unlocked_bag_prefixes (elements caps) /\ under key p = true) \/ matches_any key OPEN = true.

Lemma elem_concat {A} (x : A) ls : x ∈ concat ls <-> exists l, l ∈ ls /\ x ∈ l.
Proof. setoid_rewrite list_elem_of_In. apply in_concat. Qed.

Lemma unlocked_spec (caps : Capabilities) p :
  p ∈ unlocked_bag_prefixes (elements caps) <-> exists cap, cap ∈ caps /\ p ∈ capability_namespaces cap.
Proof.
  unfold unlocked_bag_prefixes. rewrite elem_of_list_to_set, elem_concat.
  setoid_rewrite list_elem_of_fmap. setoid_rewrite elem_of_elements. naive_solver.
Qed.

Lemma namespaces_spec cap p : p ∈ capability_namespaces cap -> exists e, e ∈ TABLE /\ e.1 = cap /\ p ∈ e.2.
Proof.
  unfold capability_namespaces. destruct (find _ TABLE) as [e|] eqn:Ef; [|by intros ?%not_elem_of_nil].
  apply find_some in Ef as [He%list_elem_of_In Hn%String.eqb_eq]. intros Hp. by exists e.
Qed.

Lemma inside_visible c caps ws :
  has_cap caps c = true -> inside (capability_namespaces (cap_str c)) ws -> Forall (fun w => visible caps w.1) ws.
Proof.
  unfold has_cap. rewrite bool_decide_eq_true. intros Hc Hi. eapply Forall_impl; [exact Hi|].
  intros w (p & Hp & Hu)%matches_any_spec. left. exists p. split; [|done]. apply unlocked_spec. eauto.
Qed.

Lemma open_visible caps ws : inside OPEN ws -> Forall (fun w => visible caps w.1) ws.
Proof. intros Hi. eapply Forall_impl; [exact Hi|]. intros w Hw. by right. Qed.

(** No namespace of the table but those of [names], and no open one, meets [ns]. *)
Definition apart (names ns : list string) : bool :=
  forallb (fun q => forallb (fun p => negb (overlap p q))
    (OPEN ++ concat (map snd (List.filter (fun e => negb (existsb (String.eqb e.1) names)) TABLE)))) ns.

Lemma hidden names ns caps key :
  apart names ns = true -> (forall n, n ∈ names -> n ∉ caps) -> visible caps key -> matches_any key ns = false.
Proof.
  intros Ha Hn Hv. destruct (matches_any key ns) eqn:E; [|done]. exfalso.
  apply matches_any_spec in E as (q & Hq & Hu). unfold apart in Ha. rewrite forallb_forall in Ha.
  specialize (Ha q (proj1 (list_elem_of_In _ _) Hq)). rewrite forallb_forall in Ha.
  assert (Hno : forall p, p ∈ OPEN ++ concat (map snd (List.filter (fun e => negb (existsb (String.eqb e.1) names)) TABLE)) ->
            under key p = true -> False).
  { intros p Hp%list_elem_of_In Hup. specialize (Ha p Hp). by rewrite (under_overlap key p q Hup Hu) in Ha. }
  destruct Hv as [(p & (cap & Hc & Hp)%unlocked_spec & Hup)|(p & Hp & Hup)%matches_any_spec].
  - apply (Hno p); [|done]. apply elem_of_app. right. apply namespaces_spec in Hp as ([n l] & He & <- & Hp). cbn [fst snd] in *.
    apply elem_concat. exists l. split; [|done]. apply list_elem_of_fmap. exists (n, l). split; [done|].
    apply list_elem_of_In, filter_In. split; [by apply list_elem_of_In|]. apply negb_true_iff. cbn [fst].
    destruct (existsb (String.eqb n) names) eqn:Ex; [|done]. apply existsb_exists in Ex as (n' & Hn' & ->%String.eqb_eq).
    exfalso. apply (Hn n'); [by apply list_elem_of_In|done].
  - apply (Hno p); [|done]. apply elem_of_app. by left.
Qed.

(** A slot shown to its capability only: the writes of a visible key are not lost. *)
Lemma gated_hits {A} c (f : A -> Writes) caps key o :
  apart [cap_str c] (capability_namespaces (cap_str c)) = true ->
  (forall v, inside (capability_namespaces (cap_str c)) (f v)) -> visible caps key ->
  hits key (when f (if has_cap caps c then o else None)) = hits key (when f o).
Proof.
  intros Ha Hf Hv. destruct (has_cap caps c) eqn:Hc; [done|]. destruct o as [v|]; [|done]. simpl. symmetry.
  eapply inside_hits; [apply Hf|]. eapply hidden; [exact Ha| |exact Hv]. intros n ->%list_elem_of_singleton.
  unfold has_cap in Hc. by apply bool_decide_eq_false in Hc.
Qed.

Lemma gated_visible {A} c (f : A -> Writes) caps o :
  (forall v, inside (capability_namespaces (cap_str c)) (f v)) ->
  Forall (fun w => visible caps w.1) (when f (if has_cap caps c then o else None)).
Proof.
  intros Hf. destruct (has_cap caps c) eqn:Hc; [|constructor]. eapply inside_visible; [exact Hc|]. by apply inside_when.
Qed.

(** ** Slot by slot *)

Lemma gate_by_cap {T} name c caps (slot : option T) :
  sp_access (slot_policy name) = CapabilityGated -> sp_read_cap (slot_policy name) = Some c -> c <> ReadSubject ->
  gate name caps slot = if has_cap caps c then slot else None.
Proof.
  intros Ha Hr Hc. unfold gate, has_read_access. rewrite Ha, Hr. cbn [is_some_and].
  rewrite bool_decide_eq_false_2 by congruence. by rewrite orb_false_r.
Qed.

(** The attribute a request header is written to. *)
Definition header_key (name : string) : string := "http.request_headers." +:+ str_to_lowercase name.

(** [name] is a request header written to [key]. *)
Definition writes_key (http : HttpExtension) (key name : string) : Prop :=
  is_Some (ht_request_headers http !! name) /\ header_key name = key.

(** A key the redaction leaves alone: no secret header is written to it, and no two headers
    that differ in case only, whose order the view does not keep. *)
Definition plain_header (http : HttpExtension) (key : string) : Prop :=
  ht_secret_headers http = ∅
  \/ (forall name, writes_key http key name -> is_marked (ht_secret_headers http) name = false)
     /\ (forall name name', writes_key http key name -> writes_key http key name' -> name = name').

Definition plain {Message} (x : Extensions Message) (key : string) : Prop :=
  forall http, x_http x = Some http -> plain_header http key.

Lemma query_inside o : inside ["http.query"] (set_opt "http.query" o).
Proof. solve_inside. Qed.

Definition HEADER_KEYS : list string := capability_namespaces "read_headers".

Lemma no_cap_hidden c ns caps key ws :
  has_cap caps c = false -> apart [cap_str c] ns = true -> visible caps key -> inside ns ws -> hits key ws = [].
Proof.
  intros Hc Ha Hv Hi. eapply inside_hits; [exact Hi|]. eapply hidden; [exact Ha| |exact Hv].
  intros n ->%list_elem_of_singleton. unfold has_cap in Hc. by apply bool_decide_eq_false in Hc.
Qed.

Lemma http_split http : exists pre post,
  extract_http http = pre ++ set_opt "http.query" (ht_query http) ++ post
  /\ inside HEADER_KEYS pre /\ inside HEADER_KEYS post.
Proof.
  unfold extract_http. rewrite (app_assoc (set_opt "http.method" _)). eexists _, _. split; [reflexivity|]. split; solve_inside.
Qed.

(** The headers of a map that are written to [key]. *)
Definition keyed (key : string) (m : gmap string string) : list (string * string) :=
  List.filter (fun kv => String.eqb (header_key kv.1) key) (hash_iter m).

Lemma keyed_elem key m name v : (name, v) ∈ keyed key m <-> m !! name = Some v /\ header_key name = key.
Proof.
  unfold keyed. rewrite list_elem_of_In, filter_In, <- list_elem_of_In, hash_iter_perm, elem_of_map_to_list.
  by rewrite String.eqb_eq.
Qed.

Lemma keyed_nodup key m : NoDup (keyed key m).
Proof. apply NoDup_ListNoDup, List.NoDup_filter, NoDup_ListNoDup. rewrite hash_iter_perm. apply NoDup_map_to_list. Qed.

Lemma header_hits key m :
  hits key (header_writes "http.request_headers." m) = map (fun kv => (header_key kv.1, AVString kv.2)) (keyed key m).
Proof.
  unfold hits, header_writes, keyed. induction (hash_iter m) as [|[name v] l IH]; [done|]. cbn [map List.filter fst].
  rewrite IH. change ("http.request_headers." +:+ str_to_lowercase name) with (header_key name).
  by destruct (String.eqb _ key).
Qed.

(** Two duplicate-free lists of at most one element are equal when they have the same elements. *)
Lemma at_most_one_eq {A} (l l' : list A) :
  NoDup l -> NoDup l' -> (forall a b, a ∈ l -> b ∈ l -> a = b) -> (forall a, a ∈ l <-> a ∈ l') -> l = l'.
Proof.
  intros Hl Hl' Hone Hsame.
  assert (Hp : l ≡ₚ l') by by apply NoDup_Permutation.
  destruct l as [|a [|b l]].
  - by apply Permutation_nil_l in Hp as ->.
  - by apply Permutation_singleton_l in Hp as ->.
  - apply NoDup_cons in Hl as [Hn _]. destruct Hn. rewrite (Hone a b) by set_solver. left.
Qed.

(** The view's headers are written to [key] as the request's are. *)
Lemma redacted_hits key http :
  plain_header http key ->
  hits key (header_writes "http.request_headers." (redacted_request_headers http))
  = hits key (header_writes "http.request_headers." (ht_request_headers http)).
Proof.
  unfold redacted_request_headers. intros [->|[Hm Hu]]; [by rewrite bool_decide_eq_true_2|].
  case_bool_decide; [done|]. rewrite !header_hits. f_equal.
  set (redacted := map_imap _ _).
  assert (Hsame : forall kv, kv ∈ keyed key redacted <-> kv ∈ keyed key (ht_request_headers http)).
  { intros [name v]. rewrite !keyed_elem. unfold redacted. rewrite map_lookup_imap.
    destruct (ht_request_headers http !! name) as [w|] eqn:Ew; simpl; [|done].
    destruct (decide (header_key name = key)) as [Hk|]; [|naive_solver].
    assert (Hn : is_marked (ht_secret_headers http) name = false) by (apply Hm; split; [by eexists|done]).
    unfold is_marked in Hn. apply bool_decide_eq_false in Hn. rewrite <- eq_None_not_Some in Hn. by rewrite Hn. }
  apply at_most_one_eq; [apply keyed_nodup..| |exact Hsame].
  intros [n v] [n' v'] [Hv Hk]%Hsame%keyed_elem [Hv' Hk']%Hsame%keyed_elem.
  assert (n = n') as -> by (apply Hu; split; first [by eexists|done]). congruence.
Qed.

(** What the redaction changes: the query when it is hidden, and the request headers. *)
Lemma http_redacted_hits http caps key :
  plain_header http key ->
  hits key (extract_http (mkHttp (redacted_request_headers http) (ht_client_address http) (ht_secret_headers http)
    (ht_response_headers http) (ht_status http) (ht_method http) (ht_path http)
    (if has_cap caps ReadQuery then ht_query http else None) (ht_host http) (ht_scheme http)))
  = hits key (extract_http (mkHttp (ht_request_headers http) (ht_client_address http) (ht_secret_headers http)
    (ht_response_headers http) (ht_status http) (ht_method http) (ht_path http)
    (if has_cap caps ReadQuery then ht_query http else None) (ht_host http) (ht_scheme http))).
Proof.
  intros Hp. unfold extract_http. cbn [ht_request_headers ht_client_address ht_response_headers ht_status ht_method ht_path
    ht_query ht_host ht_scheme]. by rewrite !hits_app, redacted_hits.
Qed.

Lemma http_hits caps key http :
  visible caps key -> plain_header http key ->
  hits key (when extract_http (filter_http http caps)) = hits key (extract_http http).
Proof.
  intros Hv Hp. unfold filter_http.
  assert (Hr : has_read_access (slot_policy SlHttp) caps = has_cap caps ReadHeaders).
  { unfold has_read_access. cbn [slot_policy sp_access sp_read_cap is_some_and]. by rewrite orb_false_r. }
  rewrite Hr. destruct (has_cap caps ReadHeaders) eqn:Eh; cbn [andb].
  - destruct (bool_decide (ht_secret_headers http = ∅) && _); [done|]. cbn [when]. rewrite http_redacted_hits by done.
    destruct (has_cap caps ReadQuery) eqn:Eq; [by destruct http|].
    destruct http as [rh ca sh rsh st me pa qu ho sc]. unfold extract_http. cbn. rewrite !hits_app.
    do 2 f_equal. rewrite (no_cap_hidden ReadQuery ["http.query"] caps key (set_opt "http.query" qu)); try done.
    apply query_inside.
  - destruct (http_split http) as (pre & post & -> & Hpre & Hpost).
    assert (Hn : forall ws, inside HEADER_KEYS ws -> hits key ws = []) by (intros ws; by apply (no_cap_hidden ReadHeaders HEADER_KEYS caps)).
    rewrite !hits_app, (Hn pre), (Hn post) by done. cbn [app]. rewrite app_nil_r.
    destruct (has_cap caps ReadQuery) eqn:Eq; cbn [when].
    + destruct (http_split (mkHttp ∅ None ∅ ∅ None None None (ht_query http) None None)) as (pre' & post' & -> & Hpre' & Hpost').
      rewrite !hits_app, (Hn pre'), (Hn post') by done. cbn [app]. by rewrite app_nil_r.
    + symmetry. apply (no_cap_hidden ReadQuery ["http.query"] caps); try done. apply query_inside.
Qed.

(** A membership of the subject: its set, and a presence key per undotted name. *)
Definition membership (key prefix : string) (names : gset string) : Writes :=
  (key, AVStringSet names) :: aliases prefix (elements names).

Lemma subject_groups s : extract_subject s =
  (set_opt "subject.id" (sj_id s) ++ set_opt "subject.type" (option_map subject_type_str (sj_subject_type s)))
  ++ membership "subject.roles" "role." (sj_roles s)
  ++ membership "subject.permissions" "perm." (sj_permissions s)
  ++ membership "subject.teams" "team." (sj_teams s)
  ++ walk_map "claim." (sj_claims s)
  ++ match sj_id s with Some _ => [("authenticated", AVBool true)] | None => [] end
  ++ extract_binding "subject" (sj_key_binding s).
Proof. unfold extract_subject. by rewrite <- app_assoc. Qed.

Lemma membership_inside key prefix names :
  ends_with_dot prefix = true -> ends_with_dot key = false -> inside [prefix; key] (membership key prefix names).
Proof.
  intros Hd Hk. constructor.
  - apply matches_any_spec. exists key. split; [right; left|]. cbn [fst]. unfold under. rewrite Hk. apply String.eqb_refl.
  - apply inside_aliases. intros r. apply matches_below. cbn [existsb]. rewrite Hd. cbn [andb].
    replace (starts_with prefix prefix) with true; [done|]. symmetry. rewrite <- (string_app_nil_r prefix) at 2.
    clear. induction prefix as [|a p IH]; [done|]. unfold starts_with in *. simpl. by destruct (ascii_dec a a).
Qed.

Lemma cap_hits {A} c ns (f : A -> Writes) (v e : A) caps key :
  apart [cap_str c] ns = true -> (forall v, inside ns (f v)) -> visible caps key ->
  hits key (f (if has_cap caps c then v else e)) = hits key (f v).
Proof.
  intros Ha Hf Hv. destruct (has_cap caps c) eqn:Hc; [done|].
  by rewrite (no_cap_hidden c ns caps key (f e)), (no_cap_hidden c ns caps key (f v)).
Qed.

Lemma walk_map_inside_claim m : inside ["claim."] (walk_map "claim." m).
Proof. apply inside_walk_map. below. Qed.

Lemma subject_hits caps key s :
  visible caps key -> hits key (extract_subject (build_filtered_subject s caps)) = hits key (extract_subject s).
Proof.
  intros Hv. rewrite !subject_groups.
  cbn [build_filtered_subject sj_id sj_subject_type sj_roles sj_permissions sj_teams sj_claims sj_key_binding].
  rewrite !hits_app.
  rewrite (cap_hits ReadRoles ["role."; "subject.roles"] (membership "subject.roles" "role."))
    by first [reflexivity|done|intros; by apply membership_inside].
  rewrite (cap_hits ReadPermissions ["perm."; "subject.permissions"] (membership "subject.permissions" "perm."))
    by first [reflexivity|done|intros; by apply membership_inside].
  rewrite (cap_hits ReadTeams ["team."; "subject.teams"] (membership "subject.teams" "team."))
    by first [reflexivity|done|intros; by apply membership_inside].
  rewrite (cap_hits ReadClaims ["claim."] (walk_map "claim.")) by first [reflexivity|done|apply walk_map_inside_claim].
  done.
Qed.

Definition SUBJECT_CAPS : list Capability := [ReadSubject; ReadRoles; ReadTeams; ReadClaims; ReadPermissions].

Lemma no_subject_hidden caps key ws :
  has_any_subject_capability caps = false -> visible caps key -> inside SUBJECT_ALL ws -> hits key ws = [].
Proof.
  intros Hc Hv Hi. eapply inside_hits; [exact Hi|].
  eapply (hidden (map cap_str SUBJECT_CAPS)); [reflexivity| |exact Hv]. intros n (c & -> & Hin)%list_elem_of_fmap.
  unfold has_any_subject_capability in Hc. intros Hn. assert (existsb (has_cap caps) SUBJECT_CAPS = true); [|by unfold SUBJECT_CAPS in *; congruence].
  apply existsb_exists. exists c. split; [by apply list_elem_of_In|]. unfold has_cap. by apply bool_decide_eq_true.
Qed.

Definition label_write (labels : MonotonicSet) : Writes := [("security.labels", AVStringSet labels)].

Lemma label_split labels ws : ("security.labels", AVStringSet labels) :: ws = label_write labels ++ ws.
Proof. done. Qed.

Lemma security_hits caps key sec :
  visible caps key -> hits key (extract_security (build_filtered_security sec caps)) = hits key (extract_security sec).
Proof.
  intros Hv. unfold extract_security, build_filtered_security.
  cbn [sec_subject sec_client sec_caller_workload sec_this_workload sec_auth_method sec_labels sec_classification].
  rewrite !(gate_by_cap _ ReadClient), !(gate_by_cap _ ReadWorkload) by done.
  assert (Hsub : hits key (when extract_subject match sec_subject sec with
      | Some subject => if has_any_subject_capability caps then Some (build_filtered_subject subject caps) else None
      | None => None end) = hits key (when extract_subject (sec_subject sec))).
  { destruct (sec_subject sec) as [s|]; [|done]. destruct (has_any_subject_capability caps) eqn:Ea; cbn [when].
    - by apply subject_hits.
    - symmetry. by apply (no_subject_hidden caps); [..|apply subject_inside]. }
  assert (Hlab : has_read_access (slot_policy SlSecurityLabels) caps = has_cap caps ReadLabels).
  { unfold has_read_access. cbn [slot_policy sp_access sp_read_cap is_some_and]. by rewrite orb_false_r. }
  rewrite Hlab.
  rewrite !label_split.
  rewrite !hits_app, Hsub, (gated_hits ReadClient), (gated_hits ReadWorkload), (gated_hits ReadWorkload)
    by first [reflexivity|done|apply client_inside|apply caller_inside|apply this_inside].
  rewrite (cap_hits ReadLabels ["security.labels"] label_write)
    by first [reflexivity|done|intros; unfold label_write; solve_inside].
  done.
Qed.

Lemma request_hits caps key o ws : visible caps key -> request_writes o = Ok ws ->
  exists ws', request_writes (gate SlLlmRequest caps o) = Ok ws' /\ hits key ws' = hits key ws.
Proof.
  intros Hv Hw. rewrite (gate_by_cap _ ReadLlmRequest) by done.
  destruct (has_cap caps ReadLlmRequest) eqn:Ec; [by exists ws|]. exists []. split; [done|]. symmetry.
  apply (no_cap_hidden ReadLlmRequest (capability_namespaces "read_llm_request") caps); try done.
  unfold request_writes in Hw. destruct o as [a|]; [|by simplify_eq; constructor].
  destruct (lr_parts (arc_val a)) as [parts|]; [by eapply request_inside|by simplify_eq; constructor].
Qed.

Lemma extensions_hits {Message} (x : Extensions Message) caps key ws ws' :
  visible caps key -> plain x key -> extract_extensions x = Ok ws -> extract_extensions (filter_extensions x caps) = Ok ws' ->
  hits key ws' = hits key ws.
Proof.
  intros Hv Hp Hw Hw'. unfold extract_extensions in *.
  cbn [filter_extensions x_security x_delegation x_agent x_meta x_metadata x_request x_http x_llm x_llm_request x_mcp
    x_completion x_provenance x_framework x_custom] in Hw'.
  destruct (request_writes (x_llm_request x)) as [rw|] eqn:Er; [|done].
  destruct (request_hits caps key _ rw Hv Er) as (rw' & Er' & Hr). rewrite Er' in Hw'. simplify_eq.
  rewrite !(gate_by_cap _ ReadDelegation), !(gate_by_cap _ ReadAgent), !(gate_by_cap _ ReadMetadata) by done.
  unfold when_arc. rewrite !hits_app, Hr, (gated_hits ReadDelegation), (gated_hits ReadAgent), (gated_hits ReadMetadata)
    by first [reflexivity|done|intros; apply delegation_inside|intros; apply agent_inside|intros; apply metadata_inside].
  assert (Hsec : hits key (when extract_security (option_map (fun security => build_filtered_security security caps) (x_security x)))
                 = hits key (when extract_security (x_security x))).
  { destruct (x_security x) as [s|]; [|done]. by apply security_hits. }
  assert (Hhttp : hits key (when extract_http match x_http x with Some http => filter_http http caps | None => None end)
                  = hits key (when extract_http (x_http x))).
  { destruct (x_http x) as [http|] eqn:Eh; [|done]. apply http_hits; [done|].
    by apply Hp. }
  by rewrite Hsec, Hhttp.
Qed.

Lemma extensions_filter_ok {Message} (x : Extensions Message) caps ws :
  extract_extensions x = Ok ws -> exists ws', extract_extensions (filter_extensions x caps) = Ok ws'.
Proof.
  unfold extract_extensions. cbn [filter_extensions x_llm_request]. rewrite (gate_by_cap _ ReadLlmRequest) by done.
  destruct (request_writes (x_llm_request x)) as [rw|] eqn:Er; [|done]. intros _.
  destruct (has_cap caps ReadLlmRequest); [rewrite Er|]; by eexists.
Qed.

(** ** Nothing else *)

(** The sets a present slot writes even when the capability for them is missing. *)
Definition PRESENT_SETS : list string := ["subject.roles"; "subject.permissions"; "subject.teams"; "security.labels"].

Definition shown (caps : Capabilities) (w : string * AttributeValue) : Prop :=
  visible caps w.1 \/ w.1 ∈ PRESENT_SETS /\ w.2 = AVStringSet ∅.

Lemma shown_visible caps ws : Forall (fun w => visible caps w.1) ws -> Forall (shown caps) ws.
Proof. intros Hw. eapply Forall_impl; [exact Hw|]. by left. Qed.

Lemma hash_iter_empty V : hash_iter (∅ : gmap string V) = [].
Proof. apply Permutation_nil_r. by rewrite hash_iter_perm, map_to_list_empty. Qed.

Lemma membership_shown caps c key prefix names :
  key ∈ PRESENT_SETS -> ends_with_dot prefix = true -> ends_with_dot key = false ->
  prefix ∈ capability_namespaces (cap_str c) -> key ∈ capability_namespaces (cap_str c) ->
  Forall (shown caps) (membership key prefix (if has_cap caps c then names else ∅)).
Proof.
  intros Hk Hd He Hp Hkn. destruct (has_cap caps c) eqn:Hc.
  - apply shown_visible. eapply inside_visible; [exact Hc|].
    eapply Forall_impl; [by apply membership_inside|]. intros w (q & Hq & Hu)%matches_any_spec. apply matches_any_spec.
    exists q. split; [|done]. set_solver.
  - unfold membership. rewrite elements_empty. constructor; [by right|constructor].
Qed.

Lemma subject_key_visible caps key :
  has_any_subject_capability caps = true -> matches_any key SUBJECT_KEYS = true -> visible caps key.
Proof.
  intros (c & Hin & Hc)%existsb_exists (p & Hp & Hu)%matches_any_spec. left. exists p. split; [|done].
  apply unlocked_spec. exists (cap_str c). split; [unfold has_cap in Hc; by apply bool_decide_eq_true in Hc|].
  assert (Hall : forallb (fun c => bool_decide (SUBJECT_KEYS ⊆ capability_namespaces (cap_str c))) SUBJECT_CAPS = true)
    by (vm_compute; reflexivity).
  rewrite forallb_forall in Hall. specialize (Hall c Hin). apply bool_decide_eq_true in Hall. by apply Hall.
Qed.

Lemma subject_shown caps s : has_any_subject_capability caps = true ->
  Forall (shown caps) (extract_subject (build_filtered_subject s caps)).
Proof.
  intros Ha. rewrite subject_groups.
  cbn [build_filtered_subject sj_id sj_subject_type sj_roles sj_permissions sj_teams sj_claims sj_key_binding].
  assert (Hid : forall ws, inside SUBJECT_KEYS ws -> Forall (shown caps) ws).
  { intros ws Hi. apply shown_visible. eapply Forall_impl; [exact Hi|]. intros w. by apply subject_key_visible. }
  rewrite !Forall_app. split_and!.
  - apply Hid. solve_inside.
  - apply Hid. solve_inside.
  - apply (membership_shown caps ReadRoles); try reflexivity; by_decision.
  - apply (membership_shown caps ReadPermissions); try reflexivity; by_decision.
  - apply (membership_shown caps ReadTeams); try reflexivity; by_decision.
  - destruct (has_cap caps ReadClaims) eqn:Hc; [|unfold walk_map; by rewrite hash_iter_empty].
    apply shown_visible, (inside_visible ReadClaims); [done|]. apply inside_walk_map. below.
  - apply Hid. destruct (sj_id s); solve_inside.
  - apply Hid. solve_inside.
Qed.

Lemma gated_shown {A} c (f : A -> Writes) caps o :
  (forall v, inside (capability_namespaces (cap_str c)) (f v)) ->
  Forall (shown caps) (when f (if has_cap caps c then o else None)).
Proof. intros Hf. by apply shown_visible, gated_visible. Qed.

Lemma open_shown caps ws : inside OPEN ws -> Forall (shown caps) ws.
Proof. intros Hi. by apply shown_visible, open_visible. Qed.

Lemma security_shown caps sec : Forall (shown caps) (extract_security (build_filtered_security sec caps)).
Proof.
  unfold extract_security, build_filtered_security.
  cbn [sec_subject sec_client sec_caller_workload sec_this_workload sec_auth_method sec_labels sec_classification].
  rewrite !(gate_by_cap _ ReadClient), !(gate_by_cap _ ReadWorkload), !Forall_app, Forall_cons by done. split_and!.
  - destruct (sec_subject sec) as [s|]; [|constructor]. destruct (has_any_subject_capability caps) eqn:Ea; [|constructor].
    by apply subject_shown.
  - apply (gated_shown ReadClient), client_inside.
  - apply (gated_shown ReadWorkload), caller_inside.
  - apply (gated_shown ReadWorkload), this_inside.
  - apply open_shown. solve_inside.
  - unfold has_read_access. cbn [slot_policy sp_access sp_read_cap is_some_and]. rewrite orb_false_r.
    destruct (has_cap caps ReadLabels) eqn:Hc; [|by right; split; [by_decision|]]. left.
    assert (Hi : inside (capability_namespaces "read_labels") [("security.labels", AVStringSet (sec_labels sec))]) by solve_inside.
    apply (inside_visible ReadLabels caps) in Hi; [|done]. inversion Hi as [|? ? Hv _]. exact Hv.
  - apply open_shown. solve_inside.
Qed.

Lemma http_shown caps http : Forall (shown caps) (when extract_http (filter_http http caps)).
Proof.
  assert (Hh : forall ws, has_cap caps ReadHeaders = true -> inside HEADER_KEYS ws -> Forall (shown caps) ws).
  { intros ws Hc Hi. apply shown_visible. by apply (inside_visible ReadHeaders). }
  assert (Hq : forall o, has_cap caps ReadQuery = true \/ o = None -> Forall (shown caps) (set_opt "http.query" o)).
  { intros o [Hc| ->]; [|constructor]. apply shown_visible, (inside_visible ReadQuery); [done|]. apply query_inside. }
  assert (Hs : forall h, has_cap caps ReadHeaders = true -> has_cap caps ReadQuery = true \/ ht_query h = None ->
            Forall (shown caps) (extract_http h)).
  { intros h Hc Hqu. destruct (http_split h) as (pre & post & -> & Hpre & Hpost). rewrite !Forall_app. split_and!; auto. }
  unfold filter_http.
  assert (Hr : has_read_access (slot_policy SlHttp) caps = has_cap caps ReadHeaders).
  { unfold has_read_access. cbn [slot_policy sp_access sp_read_cap is_some_and]. by rewrite orb_false_r. }
  rewrite Hr. destruct (has_cap caps ReadHeaders) eqn:Eh; cbn [andb].
  - destruct (bool_decide _ && _) eqn:Eb; cbn [when]; apply Hs; try done.
    + apply andb_true_iff in Eb as [_ [Eb|Eb]%orb_true_iff]; [by left|right]. by destruct (ht_query http).
    + simpl. destruct (has_cap caps ReadQuery); [by left|by right].
  - destruct (has_cap caps ReadQuery) eqn:Eq; [|constructor]. cbn [when]. unfold extract_http, header_writes.
    cbn [ht_request_headers ht_client_address ht_response_headers ht_status ht_method ht_path ht_query ht_host ht_scheme
      set_opt set_int when]. rewrite hash_iter_empty. cbn [map app]. rewrite !app_nil_r. apply Hq. by left.
Qed.

Lemma extensions_shown {Message} (x : Extensions Message) caps ws :
  extract_extensions (filter_extensions x caps) = Ok ws -> Forall (shown caps) ws.
Proof.
  unfold extract_extensions.
  cbn [filter_extensions x_security x_delegation x_agent x_meta x_metadata x_request x_http x_llm x_llm_request x_mcp
    x_completion x_provenance x_framework x_custom].
  rewrite (gate_by_cap _ ReadLlmRequest), !(gate_by_cap _ ReadDelegation), !(gate_by_cap _ ReadAgent), !(gate_by_cap _ ReadMetadata) by done.
  destruct (request_writes _) as [rw|] eqn:Er; [|done]. intros [= <-]. unfold when_arc. rewrite !Forall_app. split_and!.
  - destruct (x_security x); [apply security_shown|constructor].
  - apply (gated_shown ReadDelegation), delegation_inside.
  - apply (gated_shown ReadAgent). intros v. apply agent_inside.
  - apply open_shown, inside_when. intros v. apply meta_inside.
  - apply (gated_shown ReadMetadata). intros v. apply metadata_inside.
  - apply open_shown, inside_when. intros v. apply request_ext_inside.
  - destruct (x_http x); [apply http_shown|constructor].
  - apply open_shown, inside_when. intros v. apply llm_inside.
  - destruct (has_cap caps ReadLlmRequest) eqn:Hc; [|injection Er as <-; constructor].
    apply shown_visible, (inside_visible ReadLlmRequest); [done|]. unfold request_writes in Er.
    destruct (x_llm_request x) as [a|]; [|by simplify_eq; constructor].
    destruct (lr_parts (arc_val a)); [by eapply request_inside|by simplify_eq; constructor].
  - apply open_shown, inside_when. intros v. apply mcp_inside.
  - apply open_shown, inside_when. intros v. apply completion_inside.
  - apply open_shown, inside_when. intros v. apply provenance_inside.
  - apply open_shown, inside_when. intros v. apply framework_inside.
  - apply open_shown, inside_when. intros v. apply custom_inside.
Qed.

(** Claim C16. [capability_view_exact]: a plugin's view of a request, once flattened into
    attributes, is decided by the capability table: on every key under a namespace one of
    its capabilities opens, or under the namespace of an ungated slot, it holds what the
    whole request's bag holds, and on every other key it holds nothing, or the empty set
    where a present slot always writes one. Exempt from the first part are only, once some
    header is marked secret, the key of a marked header, whose value the view redacts, and a
    key two header names that differ in case share. If the whole request can be flattened so
    can the view. *)
Theorem capability_view_exact {Message} (x : Extensions Message) caps full :
  with_extensions x bag_new = Ok full ->
  exists part, with_extensions (filter_extensions x caps) bag_new = Ok part
  /\ (forall key, visible caps key -> plain x key -> part !! key = full !! key)
  /\ (forall key v, ~ visible caps key -> part !! key = Some v -> key ∈ PRESENT_SETS /\ v = AVStringSet ∅).
Proof.
  unfold with_extensions. destruct (extract_extensions x) as [ws|] eqn:Ew; [|done]. intros [= <-].
  destruct (extensions_filter_ok x caps ws Ew) as [ws' Ew']. rewrite Ew'. eexists. split; [reflexivity|]. split.
  - intros key Hv Hp. apply same_hits. by apply (extensions_hits x caps).
  - intros key v Hv Hk. apply bag_write_elem in Hk as [Hin|Hk]; [|unfold bag_new in Hk; by rewrite lookup_empty in Hk].
    pose proof (extensions_shown x caps ws' Ew') as Hs. rewrite Forall_forall in Hs.
    by destruct (Hs _ Hin) as [Hvis|Hset].
Qed.
End Bridge.

(** A subject with a role and a request with a secret header, seen with [read_subject] and
    [read_headers]. *)
Definition no_digest : Digest := {| sha256 := fun _ => Err "unavailable" |}.
Definition no_dates : Chrono := {| rfc3339 := fun _ => "" |}.

Definition w_http : HttpExtension :=
  mkHttp {[ "Authorization" := "Bearer t"; "X-Team" := "hr" ]} None {[ "authorization" := "[redacted]" ]} ∅
    None None None None None None.

Definition alice_in_hr : Extensions unit :=
  let subject := mkSubject (Some "alice") None {[ "hr" ]} ∅ ∅ ∅ None in
  mkExtensions None None (Some w_http) (Some (mkSecurity ∅ None (Some subject) None None None None ∅ ∅)) None None None
    None None None None None None None None None false false false TransportNotInstalled EffectDetached.

Lemma w_header_key name :
  is_Some (ht_request_headers w_http !! name) -> name = "Authorization" \/ name = "X-Team".
Proof.
  cbn [w_http ht_request_headers]. rewrite lookup_insert_is_Some, lookup_singleton_is_Some.
  naive_solver.
Qed.

Lemma capability_view_exact_witness :
  let p := ascii_platform in let h := map_order in let d := no_digest in let c := no_dates in
  exists part, with_extensions (filter_extensions alice_in_hr {[ "read_subject"; "read_headers" ]}) bag_new = Ok part
  /\ part !! "subject.id" = Some (AVString "alice") /\ part !! "role.hr" = None
  /\ part !! "http.request_headers.x-team" = Some (AVString "hr")
  /\ part !! "http.request_headers.authorization" = Some (AVString "[redacted]").
Proof.
  intros p h d c.
  assert (Hfull : exists full, with_extensions alice_in_hr bag_new = Ok full
      /\ full !! "http.request_headers.x-team" = Some (AVString "hr"))
    by (eexists; split; [reflexivity|by vm_compute]).
  destruct Hfull as (full & Hf & Hid).
  destruct (capability_view_exact alice_in_hr {[ "read_subject"; "read_headers" ]} full Hf) as (part & Hp & Hin & Hout).
  assert (Hr : part = match with_extensions (filter_extensions alice_in_hr {[ "read_subject"; "read_headers" ]}) bag_new
                      with Ok bag => bag | Err _ => ∅ end) by by rewrite Hp.
  exists part. split; [done|]. split_and!.
  - rewrite Hr. by vm_compute.
  - rewrite Hr. by vm_compute.
  - rewrite <- Hid. apply Hin.
    + left. exists "http.request_headers.". split; [|reflexivity]. apply unlocked_spec. exists "read_headers".
      split; [set_solver|by_decision].
    + intros http [= <-]. right.
      assert (Hone : forall name, writes_key w_http "http.request_headers.x-team" name -> name = "X-Team")
        by (by intros name [[->| ->]%w_header_key ?]).
      split; [by intros name ->%Hone|]. by intros name name' ->%Hone ->%Hone.
  - rewrite Hr. by vm_compute.
Defined.

(** ** Flattening a document is exact

    In a document none of whose keys contains a dot, the flattened key of a path holds
    exactly what the value at the path is worth as an attribute; with dotted keys two
    values can claim one key. *)

(** ** Dotted paths *)

(** The value at a path of object keys. *)
Fixpoint at_path (v : json) (path : list string) : option json :=
  match path with
  | [] => Some v
  | k :: rest =>
      match v with
      | JObject m => match map_get k m with Some sub => at_path sub rest | None => None end
      | _ => None
      end
  end.

Definition dotted (path : list string) : string := concat_all (map (fun k => "." +:+ k) path).

Definition undotted (s : string) : Prop := contains_char "." s = false.

(** Every key of every object is undotted and there once. *)
Fixpoint plain_doc (v : json) : Prop :=
  match v with
  | JArray _ | JNull | JBool _ | JNumber _ | JString _ => True
  | JObject m =>
      NoDup (m.*1) /\ Forall (fun kv => undotted kv.1) m /\ Forall (fun P => P) (map (fun '(_, w) => plain_doc w) m)
  end.

Lemma dotted_cons k path : dotted (k :: path) = "." +:+ k +:+ dotted path.
Proof. unfold dotted. cbn [map]. by rewrite concat_all_cons, append_assoc. Qed.

(** What follows a key is nothing, or a dot. *)
Lemma key_end k1 k2 p1 p2 :
  undotted k1 -> undotted k2 -> k1 +:+ dotted p1 = k2 +:+ dotted p2 -> k1 = k2 /\ dotted p1 = dotted p2.
Proof.
  assert (Hhead : forall p, dotted p = "" \/ exists r, dotted p = String "." r).
  { intros [|k p]; [by left|right]. rewrite dotted_cons. by eexists. }
  unfold undotted. revert k2. induction k1 as [|a k1 IH]; intros [|b k2] H1 H2 He.
  - done.
  - exfalso. change (dotted p1 = String b (k2 +:+ dotted p2)) in He.
    destruct (Hhead p1) as [E|[r E]]; rewrite E in He; [done|]. injection He as <- _. done.
  - exfalso. change (String a (k1 +:+ dotted p1) = dotted p2) in He.
    destruct (Hhead p2) as [E|[r E]]; rewrite E in He; [done|]. injection He as -> _. done.
  - change (String a (k1 +:+ dotted p1) = String b (k2 +:+ dotted p2)) in He. injection He as -> He.
    simpl in H1, H2. destruct (Ascii.eqb b "."); [done|]. destruct (IH k2 H1 H2 He) as [-> ->]. done.
Qed.

Lemma dotted_inj p1 p2 : Forall undotted p1 -> Forall undotted p2 -> dotted p1 = dotted p2 -> p1 = p2.
Proof.
  intros H1. revert p2. induction H1 as [|k1 p1 Hk1 _ IH]; intros p2 H2 He.
  - destruct p2 as [|k2 p2]; [done|]. by rewrite dotted_cons in He.
  - destruct H2 as [|k2 p2 Hk2 H2]; [by rewrite dotted_cons in He|]. rewrite !dotted_cons in He.
    apply string_app_inj in He as [_ He]; [|done]. apply key_end in He as [-> He]; [|done..]. f_equal. auto.
Qed.

Lemma at_path_undotted v path u : plain_doc v -> at_path v path = Some u -> Forall undotted path.
Proof.
  revert v. induction path as [|k path IH]; intros v Hv Ha; [constructor|]. destruct v as [| | | | |m]; try done.
  cbn in Ha. destruct (map_get k m) as [sub|] eqn:Eg; [|done]. destruct Hv as (_ & Hk & Hs).
  apply map_get_in in Eg. rewrite Forall_forall in Hk. constructor; [by apply (Hk (k, sub))|]. apply (IH sub); [|done].
  rewrite Forall_map, Forall_forall in Hs. by apply (Hs (k, sub)).
Qed.

(** ** The writes of a document *)

Section Flatten.
Context `{Platform}.

(** What a value is worth by itself. *)
Definition worth (mark : bool) (v : json) : option AttributeValue :=
  match v with
  | JObject _ | JNull => if mark then Some AVNonScalar else None
  | JArray items =>
      match array_set items ∅ with Some set => Some (AVStringSet set) | None => if mark then Some AVNonScalar else None end
  | JString s => Some (AVString s)
  | JBool b => Some (AVBool b)
  | JNumber (NInt z) => Some (if in_i64 z then AVInt z else AVFloat (f64_of_Z z))
  | JNumber (NFloat f) => Some (AVFloat f)
  end.

Definition own (mark : bool) (v : json) (prefix : string) : Writes :=
  match worth mark v with Some a => [(prefix, a)] | None => [] end.

Definition object_entries (v : json) : list (string * json) := match v with JObject m => m | _ => [] end.

(** A value writes what it is worth, then its entries write below it. *)
Lemma walk_split v prefix mark : prefix <> "" ->
  walk_inner v prefix mark
  = own mark v prefix ++ concat (map (fun '(k, sub) => walk_inner sub (prefix +:+ "." +:+ k) mark) (object_entries v)).
Proof.
  intros Hp. destruct v as [|b|[z|f]|s|items|m]; unfold own; cbn.
  - by destruct mark.
  - done.
  - by destruct (in_i64 z).
  - done.
  - done.
  - by destruct (array_set items ∅), mark.
  - destruct (String.eqb_spec prefix "") as [|_]; [done|]. by destruct mark.
Qed.

Lemma at_path_cons v k path u :
  plain_doc v -> at_path v (k :: path) = Some u <-> exists sub, (k, sub) ∈ object_entries v /\ at_path sub path = Some u.
Proof.
  intros Hv. destruct v as [| | | | |m]; cbn [at_path object_entries];
    try (split; [done|intros (sub & Hin & _); by apply not_elem_of_nil in Hin]).
  destruct Hv as (Hnd & _ & _). destruct (map_get k m) as [sub|] eqn:Eg.
  - split; [intros Ha; exists sub; split; [by apply map_get_in|done]|].
    intros (sub' & Hin%map_get_nodup & Ha); [|done]. congruence.
  - split; [done|]. intros (sub' & Hin%map_get_nodup & Ha); [|done]. congruence.
Qed.

Lemma own_elem mark v prefix key a : (key, a) ∈ own mark v prefix <-> worth mark v = Some a /\ key = prefix.
Proof.
  unfold own. destruct (worth mark v) as [b|]; [|split; [by intros ?%not_elem_of_nil|by intros [? ?]]].
  rewrite list_elem_of_singleton. naive_solver.
Qed.

Lemma plain_sub v k sub : plain_doc v -> (k, sub) ∈ object_entries v -> plain_doc sub.
Proof.
  destruct v as [| | | | |m]; cbn [object_entries]; try (by intros _ ?%not_elem_of_nil). intros (_ & _ & Hs) Hin.
  rewrite Forall_map, Forall_forall in Hs. by apply (Hs (k, sub)).
Qed.

Lemma children_elem v (f : string * json -> Writes) (P : string -> json -> string -> AttributeValue -> Prop) key a :
  (forall k sub, (k, sub) ∈ object_entries v -> (key, a) ∈ f (k, sub) <-> P k sub key a) ->
  (key, a) ∈ concat (map f (object_entries v)) <-> exists k sub, (k, sub) ∈ object_entries v /\ P k sub key a.
Proof.
  intros Hf. rewrite elem_concat. setoid_rewrite list_elem_of_fmap. split.
  - intros (l & ([k sub] & -> & Hin) & Ha). exists k, sub. split; [done|]. by apply Hf.
  - intros (k & sub & Hin & Ha). exists (f (k, sub)). split; [by exists (k, sub)|]. by apply Hf.
Qed.

Lemma walk_writes v prefix mark key a :
  plain_doc v -> prefix <> "" ->
  (key, a) ∈ walk_inner v prefix mark
  <-> exists path u, at_path v path = Some u /\ worth mark u = Some a /\ key = prefix +:+ dotted path.
Proof.
  revert prefix. induction v as [| | | | |m IH] using json_ind; intros prefix Hv Hp; rewrite walk_split by done.
  all: rewrite elem_of_app, own_elem.
  all: match goal with |- context [object_entries ?u] => set (v := u) in * end.
  all: rewrite (children_elem v _ (fun k sub key a => exists path u, at_path sub path = Some u /\ worth mark u = Some a
         /\ key = (prefix +:+ "." +:+ k) +:+ dotted path)).
  all: try (intros k sub Hin; first [by apply not_elem_of_nil in Hin|idtac]).
  all: try (rewrite Forall_forall in IH; apply (IH (k, sub)); [done|by eapply plain_sub|by destruct prefix]).
  all: split.
  all: try (intros [[Hw ->]|(k & sub & Hin & path & u & Ha & Hw & ->)];
         [exists [], v; split_and!; [done|done|by rewrite string_app_nil_r]
         |exists (k :: path), u; split_and!; [by apply at_path_cons; eauto|done|by rewrite dotted_cons, !append_assoc]]).
  all: intros (path & u & Ha & Hw & ->); destruct path as [|k path];
         [left; injection Ha as <-; split; [done|by rewrite string_app_nil_r]
         |right; apply at_path_cons in Ha as (sub & Hin & Ha); [|done]; exists k, sub; split; [done|];
          exists path, u; split_and!; [done|done|by rewrite dotted_cons, !append_assoc]].
Qed.

(** ** The bag *)

Lemma bag_write_functional ws bag key a :
  (forall k b c, (k, b) ∈ ws -> (k, c) ∈ ws -> b = c) -> (key, a) ∈ ws -> bag_write ws bag !! key = Some a.
Proof.
  intros Hf. revert bag. induction ws as [|[k b] ws IH] using rev_ind; intros bag Hin; [by apply not_elem_of_nil in Hin|].
  rewrite bag_write_app. cbn. unfold bag_set. destruct (decide (k = key)) as [->|Hne].
  - rewrite lookup_insert_eq. f_equal. apply (Hf key); [set_solver|done].
  - rewrite lookup_insert_ne by done. apply IH; [|set_solver]. intros k' c d Hc Hd. apply (Hf k'); set_solver.
Qed.
End Flatten.

(** [flatten_exact]: flattening a document whose keys contain no dot, under a
    nonempty prefix, loses nothing, invents nothing and confuses nothing: an attribute
    stands under a key exactly when the key is the prefix and the dotted path of a value of the
    document, and it is what that value is worth (a scalar as itself, an
    integer beyond 64 bits as a double, a scalar array as the set of its printed members,
    anything else as a marker where markers are asked for). *)
Theorem flatten_exact `{Platform} v prefix mark key a :
  plain_doc v -> prefix <> "" ->
  bag_write (walk_inner v prefix mark) bag_new !! key = Some a
  <-> exists path u, at_path v path = Some u /\ worth mark u = Some a /\ key = prefix +:+ dotted path.
Proof.
  intros Hv Hp. rewrite <- walk_writes by done. split.
  - intros [Hin|He]%bag_write_elem; [done|]. unfold bag_new in He. by rewrite lookup_empty in He.
  - apply bag_write_functional. intros k b c (p1 & u1 & A1 & W1 & ->)%walk_writes (p2 & u2 & A2 & W2 & E)%walk_writes; try done.
    apply string_app_inj in E as [_ E]; [|done]. apply dotted_inj in E as ->; [congruence|by eapply at_path_undotted..].
Qed.


(** With a dotted key, the value a key holds is the one visited last: two orders of one
    [HashMap] of claims give different bags. *)
Definition back_order : HashOrder := {|
  hash_iter := fun V m => rev (map_to_list m);
  hash_iter_perm := fun V m => symmetry (Permutation_rev _);
|}.

Lemma dotted_claims_depend_on_order :
  let p := ascii_platform in
  let claims : gmap string json := {[ "a" := JObject [("b", JString "nested")]; "a.b" := JString "flat" ]} in
  bag_write (walk_map (H0 := map_order) "claim." claims) bag_new !! "claim.a.b"
  <> bag_write (walk_map (H0 := back_order) "claim." claims) bag_new !! "claim.a.b".
Proof. intros p claims. by vm_compute. Qed.
