(* ===== verification/RateLimit.v ===== *)
(** * The rate limiter ([builtins/src/plugins/ratelimit])

    The plugin that counts requests with Limitador: its settings, the variables its CEL
    expressions read, the checks of loading and the handler. The Limitador crate (its
    counters, its predicates and expressions, its CEL parser) is a parameter; the handler's
    logging is left out. *)

From Stdlib Require Import Ascii String.
From S2P Require Import Prelude RustStr F64 Json Platform Attributes Rules Constraint Step Lexical Predicate Paths.
From S2P Require Import Routing ExtData Plugin Extensions StepParser Config DecisionCache Bridge.

(** ** CEL expressions ([cel.rs]) *)

(** The variants the collector matches, with the fields it reads. *)
Unset Elimination Schemes.
Inductive cel : Type :=
| CelCall (target : option cel) (args : list cel)
| CelComprehension (iter_range accu_init loop_cond loop_step res : cel) (accu_var iter_var : string) (iter_var2 : option string)
| CelIdent (name : string)
| CelList (elements : list cel)
| CelMap (entries : list cel_entry)
| CelSelect (operand : cel)
| CelStruct (entries : list cel_entry)
| CelLiteral
| CelUnspecified
with cel_entry : Type :=
| CelStructField (value : cel)
| CelMapEntry (key value : cel).
Set Elimination Schemes.

Definition set_union (l : list (gset string)) : gset string := ⋃ l.

(** [collect_free], [collect_entries]: what they insert. *)
Fixpoint collect_free (e : cel) (scope : list string) : gset string :=
  match e with
  | CelCall target args =>
      match target with Some t => collect_free t scope | None => ∅ end
      ∪ set_union (map (fun a => collect_free a scope) args)
  | CelComprehension iter_range accu_init loop_cond loop_step res accu_var iter_var iter_var2 =>
      let inner := accu_var :: scope in
      let step_scope := match iter_var2 with Some v => v :: iter_var :: inner | None => iter_var :: inner end in
      collect_free iter_range scope ∪ collect_free accu_init scope ∪ collect_free loop_cond inner
      ∪ collect_free res inner ∪ collect_free loop_step step_scope
  | CelIdent name => if bool_decide (name ∈ scope) then ∅ else {[ name ]}
  | CelList elements => set_union (map (fun a => collect_free a scope) elements)
  | CelMap entries | CelStruct entries => set_union (map (fun en => collect_entry en scope) entries)
  | CelSelect operand => collect_free operand scope
  | CelLiteral | CelUnspecified => ∅
  end
with collect_entry (en : cel_entry) (scope : list string) : gset string :=
  match en with
  | CelStructField value => collect_free value scope
  | CelMapEntry key value => collect_free key scope ∪ collect_free value scope
  end.

(** ** Settings ([config.rs]) *)

Definition on_error_display (o : OnError) : string :=
  match o with OeFail => "fail" | OeIgnore => "ignore" | OeDisable => "disable" end.

Inductive LimitStage : Type := PreIdentity | PostIdentity.

#[global] Instance LimitStage_eq_dec : EqDecision LimitStage.
Proof. solve_decision. Defined.

Definition HOOK_RATELIMIT_PRE_IDENTITY : string := "ratelimit.pre_identity".
Definition HOOK_RATELIMIT_POST_IDENTITY : string := "ratelimit.post_identity".

Definition stage_hook (s : LimitStage) : string :=
  match s with PreIdentity => HOOK_RATELIMIT_PRE_IDENTITY | PostIdentity => HOOK_RATELIMIT_POST_IDENTITY end.

Definition stage_of_hook (hook : string) : option LimitStage :=
  if String.eqb hook HOOK_RATELIMIT_PRE_IDENTITY then Some PreIdentity
  else if String.eqb hook HOOK_RATELIMIT_POST_IDENTITY then Some PostIdentity else None.

(** [Vec::dedup_stages]: consecutive repetitions go. *)
Fixpoint dedup_stages (l : list LimitStage) : list LimitStage :=
  match l with
  | a :: ((b :: _) as rest) => if bool_decide (a = b) then dedup_stages rest else a :: dedup_stages rest
  | _ => l
  end.

Fixpoint stages_of (hooks : list string) : result (list LimitStage) string :=
  match hooks with
  | [] => Ok []
  | hook :: rest =>
      match stage_of_hook hook with
      | Some s => let? l := stages_of rest in Ok (s :: l)
      | None => Err ("hook `" +:+ hook +:+ "` is not served by this kind; declare only `hooks: [" +:+ HOOK_RATELIMIT_PRE_IDENTITY
               +:+ "]` or `hooks: [" +:+ HOOK_RATELIMIT_POST_IDENTITY +:+ "]` and list the plugin under `rate_limits:`")
      end
  end.

Definition from_hooks (hooks : list string) : result LimitStage string :=
  let? stages := stages_of hooks in
  match dedup_stages stages with
  | [stage] => Ok stage
  | [] => Err ("no rate-limit hook is declared; set `hooks: [" +:+ HOOK_RATELIMIT_PRE_IDENTITY +:+ "]` or `hooks: ["
                +:+ HOOK_RATELIMIT_POST_IDENTITY +:+ "]`")
  | _ => Err ("both `" +:+ HOOK_RATELIMIT_PRE_IDENTITY +:+ "` and `" +:+ HOOK_RATELIMIT_POST_IDENTITY
               +:+ "` are declared, but an instance runs at one stage; declare a second plugin for the other stage")
  end.

Definition IDENTITY_DERIVED_ATTRIBUTES : list string :=
  ["subject."; "claim."; "role."; "perm."; "team."; "authenticated"; "client."; "caller_workload."; "delegation."; "delegated"].

Definition CALLER_CONTROLLED_ATTRIBUTES : list string :=
  ["http.request_headers."; "http.query"; "http.path"; "http.host"; "agent."; "args."; "custom."; "llm.input.";
   "meta.properties."; "provenance."; "request."].

Definition DEFAULT_COUNTER_CAPACITY : Z := 10000.
Definition MAX_WINDOW_SECONDS : Z := 9223372036854.

Definition is_identity_derived (attribute : string) : bool := matches_any attribute IDENTITY_DERIVED_ATTRIBUTES.
Definition is_caller_controlled (attribute : string) : bool := matches_any attribute CALLER_CONTROLLED_ATTRIBUTES.

Record LimitConfig : Type := mkLimitConfig {
  lc_conditions : list string;
  lc_max : Z;
  lc_seconds : Z;
  lc_variables : list string;
}.

Record RateLimitConfig : Type := mkRateLimitConfig {
  rl_bindings : gmap string string;
  rl_counter_capacity : Z;
  rl_limits : list LimitConfig;
  rl_namespace : string;
}.

Definition default_bindings : gmap string string :=
  {[ "subject_id" := "subject.id"; "http_method" := "http.method" ]}.

Definition simple_variable (variable : string) : bool :=
  negb (String.eqb variable "limit")
  && match variable with
     | EmptyString => false
     | String first rest =>
         (Ascii.eqb first "_" || is_ascii_alphabetic first)
         && string_forall (fun ch => Ascii.eqb ch "_" || is_ascii_alphanumeric ch) rest
     end.

Definition check_binding (variable attribute : string) : result unit string :=
  if negb (simple_variable variable)
  then Err ("binding '" +:+ variable +:+ "' must be a simple CEL variable other than 'limit'")
  else if String.eqb (trim attribute) "" then Err ("binding '" +:+ variable +:+ "' must name a PPE attribute")
  else Ok tt.

Definition check_limit_entry (index : nat) (limit : LimitConfig) : result unit string :=
  let at_ := "limits[" +:+ show_nat index +:+ "] " in
  if (lc_max limit =? 0)%Z || (lc_seconds limit =? 0)%Z then Err (at_ +:+ "max and seconds must be greater than zero")
  else if (MAX_WINDOW_SECONDS <? lc_seconds limit)%Z
  then Err (at_ +:+ "seconds must be at most " +:+ show_Z MAX_WINDOW_SECONDS)
  else Ok tt.

Fixpoint check_limits (index : nat) (limits : list LimitConfig) : result unit string :=
  match limits with
  | [] => Ok tt
  | limit :: rest => let? _ := check_limit_entry index limit in check_limits (S index) rest
  end.

(** [RateLimitConfig::validate]. *)
Definition validate (c : RateLimitConfig) : result unit string :=
  if String.eqb (trim (rl_namespace c)) "" then Err "namespace must be non-empty"
  else if (rl_counter_capacity c =? 0)%Z then Err "counter_capacity must be greater than zero"
  else if bool_decide (rl_bindings c = ∅) then Err "at least one attribute binding is required"
  else
    let? _ := try_for (fun '(variable, attribute) => check_binding variable attribute) (sorted_entries (rl_bindings c)) in
    match rl_limits c with
    | [] => Err "at least one limit is required"
    | limits => check_limits 0 limits
    end.

(** ** The Limitador crate *)

(** What [catch_unwind] sees. *)
Inductive Caught (A : Type) : Type :=
| Returned (a : A)
| Panicked.
Arguments Returned {A} a.
Arguments Panicked {A}.

(** What resolving a CEL expression gives: [NoSuchKey] is an error of its own. *)
Inductive Resolved : Type :=
| RvBool (b : bool)
| RvOther (debug : string)
| RvNoSuchKey
| RvError (e : string).

(** [Limit::new]'s arguments. *)
Record Limit : Type := mkLimit {
  lm_namespace : string;
  lm_max : Z;
  lm_seconds : Z;
  lm_conditions : list string;
  lm_variables : list string;
}.

(** A counter as a check reports it; durations in nanoseconds. *)
Record Counter : Type := mkCounter {
  ct_limit : Limit;
  ct_remaining : option Z;
  ct_expires_in : option Z;
}.

Definition ct_window (c : Counter) : Z := (lm_seconds (ct_limit c) * 1000000000)%Z.

Record CheckResult : Type := mkCheckResult {
  ck_limited : bool;
  ck_counters : list Counter;
  ck_limit_name : option string;
}.

Abbreviation Values := (gmap string string).

Class Limitador := {
  Limiter : Type;
  limiter_new : Z -> Limiter;
  add_limit : Limit -> Limiter -> Limiter * bool;
  (** [check_rate_limited_and_update(namespace, ctx, 1)]. *)
  check_and_update : string -> Values -> Limiter -> Limiter * Caught (result CheckResult string);
  cel_parse : string -> result cel string;
  (** [references().variables()]. *)
  cel_references : cel -> list string;
  predicate_new : string -> result unit string;
  predicate_test : string -> Values -> result bool string;
  expression_new : string -> result unit string;
  expression_eval : string -> Values -> Caught (result (option string) string);
  (** [CelContext::resolve] with the values and [limit] bound. *)
  cel_resolve : cel -> Values -> Resolved;
}.

(** ** Loading ([handler.rs]) *)

Record ConditionCheck : Type := mkConditionCheck {
  cc_predicate : string;
  cc_with_limit : option cel;
}.

Record ComputedCounterRule : Type := mkComputedRule {
  cr_index : nat;
  cr_variables : list string;
}.

Section Limit.
Context `{Platform, Limitador}.

Record RateLimit : Type := mkRateLimit {
  rt_bindings : gmap string string;
  rt_config : PluginConfig;
  rt_condition_rules : list (list ConditionCheck);
  rt_computed_rules : list ComputedCounterRule;
  rt_has_limit_conditions : bool;
  rt_macro_locals : gset string;
  rt_namespace : string;
}.

Definition config_error (name message : string) : Plugin.PluginError := PeConfig ("plugin '" +:+ name +:+ "': " +:+ message).

(** [Variables::parse]: the free names and the others the expression mentions. *)
Definition variables_parse (source : string) : result (gset string * gset string) string :=
  let? e := cel_parse source in
  let free := collect_free e [] in
  Ok (free, list_to_set (List.filter (fun name => negb (bool_decide (name ∈ free))) (cel_references e))).

(** What the loop over the limits accumulates. *)
Record Loading : Type := mkLoading {
  ld_limiter : Limiter;
  ld_condition_rules : list (list ConditionCheck);
  ld_computed_rules : list ComputedCounterRule;
  ld_has_limit_conditions : bool;
  ld_macro_locals : gset string;
  ld_referenced : gset string;
  ld_counter_keys : gset string;
}.

Definition at_limit (index : nat) : string := "limits[" +:+ show_nat index +:+ "]".

(** [for variable in variables.free]. *)
Fixpoint free_names (bindings : gmap string string) (index : nat) (is_condition : bool) (free : list string)
    (referenced counter_keys : gset string) : result (gset string * gset string) string :=
  match free with
  | [] => Ok (referenced, counter_keys)
  | variable :: rest =>
      if String.eqb variable "limit" then
        if negb is_condition
        then Err (at_limit index +:+ " 'limit' is supported only in conditions, not counter expressions")
        else free_names bindings index is_condition rest referenced counter_keys
      else if bool_decide (bindings !! variable = None)
      then Err (at_limit index +:+ " references unbound CEL variable '" +:+ variable +:+ "'")
      else
        free_names bindings index is_condition rest ({[ variable ]} ∪ referenced)
          (if is_condition then counter_keys else {[ variable ]} ∪ counter_keys)
  end.

(** The conditions, then the variables, of one limit. *)
Fixpoint source_names (bindings : gmap string string) (index : nat) (sources : list (string * bool))
    (locals referenced counter_keys : gset string) : result (gset string * gset string * gset string) string :=
  match sources with
  | [] => Ok (locals, referenced, counter_keys)
  | (source, is_condition) :: rest =>
      match variables_parse source with
      | Err error => Err (at_limit index +:+ " invalid CEL: " +:+ error)
      | Ok (free, local) =>
          let? (referenced, counter_keys) :=
            free_names bindings index is_condition (sorted_elements free) referenced counter_keys in
          source_names bindings index rest (local ∪ locals) referenced counter_keys
      end
  end.

(** One check per distinct condition, in the order of their texts. *)
Definition condition_check (source : string) : result (bool * ConditionCheck) string :=
  let? (free, _) := variables_parse source in
  if bool_decide ("limit" ∈ free) then let? e := cel_parse source in Ok (true, mkConditionCheck source (Some e))
  else Ok (false, mkConditionCheck source None).

Fixpoint condition_checks (sources : list string) (checks : gmap string ConditionCheck) (has_limit : bool) :
    result (gmap string ConditionCheck * bool) string :=
  match sources with
  | [] => Ok (checks, has_limit)
  | source :: rest =>
      let? (references_limit, check) := condition_check source in
      condition_checks rest (<[source := check]> checks) (has_limit || references_limit)
  end.

Definition prefix_error {A} (prefix : string) (r : result A string) : result A string :=
  match r with Ok a => Ok a | Err e => Err (prefix +:+ e) end.

Definition load_limit (namespace : string) (bindings : gmap string string) (index : nat) (entry : LimitConfig) (ld : Loading) :
    result Loading string :=
  let sources := map (fun s => (s, true)) (lc_conditions entry) ++ map (fun s => (s, false)) (lc_variables entry) in
  let? (locals, referenced, counter_keys) :=
    source_names bindings index sources (ld_macro_locals ld) (ld_referenced ld) (ld_counter_keys ld) in
  let? _ := prefix_error (at_limit index +:+ " invalid condition: ") (try_for predicate_new (lc_conditions entry)) in
  let? (checks, has_limit) := condition_checks (lc_conditions entry) ∅ (ld_has_limit_conditions ld) in
  let? _ := prefix_error (at_limit index +:+ " invalid variable: ") (try_for expression_new (lc_variables entry)) in
  let computed := List.filter (fun v => bool_decide (bindings !! trim v = None)) (lc_variables entry) in
  let '(limiter, added) :=
    add_limit (mkLimit namespace (lc_max entry) (lc_seconds entry) (lc_conditions entry) (lc_variables entry)) (ld_limiter ld) in
  if negb added then Err (at_limit index +:+ " duplicates an earlier limit")
  else
    Ok (mkLoading limiter (ld_condition_rules ld ++ [map snd (sorted_entries checks)])
          (match computed with [] => ld_computed_rules ld | _ => ld_computed_rules ld ++ [mkComputedRule index computed] end)
          has_limit locals referenced counter_keys).

Fixpoint load_limits (namespace : string) (bindings : gmap string string) (index : nat) (limits : list LimitConfig)
    (ld : Loading) : result Loading string :=
  match limits with
  | [] => Ok ld
  | entry :: rest =>
      let? ld := load_limit namespace bindings index entry ld in load_limits namespace bindings (S index) rest ld
  end.

(** [check_stage_bindings]. *)
Definition check_stage_binding (stage : LimitStage) (counter_keys : gset string) (variable attribute : string) : result unit string :=
  if bool_decide (stage = PreIdentity) && is_identity_derived attribute
  then Err ("binding '" +:+ variable +:+ "' reads `" +:+ attribute +:+ "`, which identity resolution sets, so it is never present at `"
            +:+ stage_hook PreIdentity +:+ "`; declare `hooks: [" +:+ stage_hook PostIdentity
            +:+ "]` or bind an attribute present before identity, such as `http.client_address`")
  else if negb (bool_decide (variable ∈ counter_keys)) || negb (is_caller_controlled attribute) then Ok tt
  else if bool_decide (stage = PreIdentity)
  then Err ("binding '" +:+ variable +:+ "' keys a counter on `" +:+ attribute +:+ "`, which the caller chooses, so at `"
            +:+ stage_hook PreIdentity +:+ "` a caller resets its counter by changing it; key the counter on "
            +:+ "`http.client_address`, or use the binding only in `conditions`")
  else Ok tt.

Definition check_stage_bindings (stage : LimitStage) (bindings : gmap string string) (counter_keys : gset string) : result unit string :=
  try_for (fun '(variable, attribute) => check_stage_binding stage counter_keys variable attribute) (sorted_entries bindings).

(** [RateLimit::new], the settings deserialized. *)
Definition ratelimit_new (config : PluginConfig) (typed : RateLimitConfig) (stage : LimitStage) :
    result (RateLimit * Limiter) Plugin.PluginError :=
  let name := pg_name config in
  match
    (let? _ := validate typed in
     let? ld := load_limits (rl_namespace typed) (rl_bindings typed) 0 (rl_limits typed)
                  (mkLoading (limiter_new (rl_counter_capacity typed)) [] [] false ∅ ∅ ∅) in
     let bindings := filter (fun '(variable, _) => variable ∈ ld_referenced ld) (rl_bindings typed) in
     let? _ := check_stage_bindings stage bindings (ld_counter_keys ld) in
     Ok (mkRateLimit bindings config (ld_condition_rules ld) (ld_computed_rules ld) (ld_has_limit_conditions ld)
           (ld_macro_locals ld) (rl_namespace typed), ld_limiter ld))
  with
  | Ok r => Ok r
  | Err message => Err (config_error name message)
  end.

(** [check_dispatch_with] of [factory.rs]. *)
Definition check_dispatch_with (config : PluginConfig) (aborts : bool) : result LimitStage Plugin.PluginError :=
  let name := pg_name config in
  if aborts then Err (config_error name ("this build aborts on panic, and Limitador panics on a condition evaluation error; build the "
    +:+ "host with `panic = " +:+ str_debug "unwind" +:+ "` to use this kind"))
  else
    match from_hooks (pg_hooks config) with
    | Err message => Err (config_error name message)
    | Ok stage =>
        if negb (bool_decide (pg_on_error config = OeFail))
        then Err (config_error name ("`on_error: " +:+ on_error_display (pg_on_error config)
               +:+ "` would admit a request the limiter could not check; remove it or set `on_error: fail`"))
        else if negb (bool_decide (pg_mode config = Sequential))
        then Err (config_error name ("`mode: " +:+ mode_display (pg_mode config)
               +:+ "` cannot enforce a limit; remove it or set `mode: sequential`"))
        else Ok stage
    end.

(** [RateLimitFactory::create]. *)
Definition create (config : PluginConfig) (typed : RateLimitConfig) (aborts : bool) :
    result (string * RateLimit * Limiter) Plugin.PluginError :=
  let? stage := check_dispatch_with config aborts in
  let? (core, limiter) := ratelimit_new config typed stage in
  Ok (stage_hook stage, core, limiter).

(** ** The handler *)

(** The rest of [matching_conditions] for one rule: whether every condition holds. *)
Fixpoint rule_matches (index : nat) (conditions : list ConditionCheck) (context : Values) (values : option Values) :
    result bool string :=
  match conditions with
  | [] => Ok true
  | condition :: rest =>
      let? r :=
        match cc_with_limit condition with
        | Some expression =>
            match values with
            | None => Err "limit condition context is unavailable"
            | Some values =>
                Ok match cel_resolve expression values with
                   | RvBool b => Ok b
                   | RvOther debug => Err ("unexpected condition value: " +:+ debug)
                   | RvNoSuchKey => Ok false
                   | RvError e => Err e
                   end
            end
        | None => Ok (predicate_test (cc_predicate condition) context)
        end in
      match r with
      | Ok true => rule_matches index rest context values
      | Ok false => Ok false
      | Err error => Err (at_limit index +:+ " condition failed: " +:+ error)
      end
  end.

Fixpoint matching_from (index : nat) (rules : list (list ConditionCheck)) (context : Values) (values : option Values) :
    result (list bool) string :=
  match rules with
  | [] => Ok []
  | conditions :: rest =>
      let? matched := rule_matches index conditions context values in
      let? others := matching_from (S index) rest context values in
      Ok (matched :: others)
  end.

Definition matching_conditions (rl : RateLimit) (context : Values) (values : option Values) : result (list bool) string :=
  matching_from 0 (rt_condition_rules rl) context values.

(** Every expression of the rule yields a key, or the first that does not. *)
Fixpoint rule_keys (index : nat) (variables : list string) (context : Values) : Caught (result unit string) :=
  match variables with
  | [] => Returned (Ok tt)
  | variable :: rest =>
      match expression_eval variable context with
      | Panicked => Panicked
      | Returned (Ok (Some _)) => rule_keys index rest context
      | Returned (Ok None) =>
          Returned (Err (at_limit index +:+ " counter expression '" +:+ variable +:+ "' resolved to no key"))
      | Returned (Err error) =>
          Returned (Err (at_limit index +:+ " counter expression '" +:+ variable +:+ "' failed: " +:+ error))
      end
  end.

Fixpoint check_computed_counter_keys (rules : list ComputedCounterRule) (context : Values) (matching : list bool) :
    Caught (result unit string) :=
  match rules with
  | [] => Returned (Ok tt)
  | rule :: rest =>
      match matching !! cr_index rule with
      | None => Returned (Err (at_limit (cr_index rule) +:+ " condition result is missing"))
      | Some false => check_computed_counter_keys rest context matching
      | Some true =>
          match rule_keys (cr_index rule) (cr_variables rule) context with
          | Returned (Ok _) => check_computed_counter_keys rest context matching
          | other => other
          end
      end
  end.

Definition STATUS_TOO_MANY_REQUESTS : Z := 429.
Definition STATUS_SERVICE_UNAVAILABLE : Z := 503.
Definition STATUS_UNAUTHORIZED : Z := 401.
Definition STATUS_BAD_REQUEST : Z := 400.

Definition with_status (v : PluginViolation) (status : Z) : PluginViolation :=
  mkViolation (vi_code v) (vi_reason v) (vi_description v) {[ "http.status" := JNumber (NInt status) ]} (vi_plugin_name v)
    (Some status).

(** [PluginResult::allow()] and [PluginResult::deny(..)]. *)
Definition deny_unbound (bag_has_it : bool) (attribute : string) : PluginViolation :=
  let '(code, status, reason) :=
    if bag_has_it
    then ("ratelimit.unsupported_attribute", STATUS_BAD_REQUEST, "a request attribute a rate limit requires is not a string")
    else if String.eqb attribute "subject.id"
    then ("ratelimit.no_identity", STATUS_UNAUTHORIZED, "the request has no identity, which a rate limit requires")
    else if String.eqb attribute "http.method"
    then ("ratelimit.no_http_method", STATUS_BAD_REQUEST, "the request has no HTTP method, which a rate limit requires")
    else ("ratelimit.missing_attribute", STATUS_BAD_REQUEST, "the request lacks an attribute a rate limit requires") in
  with_status (violation_new code reason) status.

Definition check_failed_denial : PluginViolation :=
  with_status (violation_new "ratelimit.check_failed" "request rate limit check failed") STATUS_SERVICE_UNAVAILABLE.

Definition ceil_seconds (duration : Z) : Z :=
  Z.min (duration / 1000000000 + (if (duration mod 1000000000 =? 0)%Z then 0 else 1)) (2 ^ 64 - 1).

Definition remaining_of (c : Counter) : Z := default (lm_max (ct_limit c)) (ct_remaining c).
Definition reset_of (c : Counter) : Z := default (ct_window c) (ct_expires_in c).

(** [a] sorts strictly before [b]: less remaining, then a later reset. *)
Definition stricter (a b : Counter) : bool :=
  (remaining_of a <? remaining_of b)%Z || ((remaining_of a =? remaining_of b)%Z && (reset_of b <? reset_of a)%Z).

(** [min_by_key]: the first of the least. *)
Definition most_restrictive (counters : list Counter) : option Counter :=
  foldl (fun best c => match best with
                       | None => Some c
                       | Some b => if stricter c b then Some c else Some b
                       end) None counters.

Definition retry_after (c : Counter) : Z :=
  let window := lm_seconds (ct_limit c) in
  let wait := match ct_expires_in c with Some d => ceil_seconds d | None => window end in
  Z.min (Z.max wait 1) (Z.max window 1).

Definition deny_exceeded (counters : list Counter) : PluginViolation :=
  let status : gmap string json := {[ "http.status" := JNumber (NInt STATUS_TOO_MANY_REQUESTS) ]} in
  let details :=
    match most_restrictive counters with
    | None => status
    | Some c =>
        <["window_seconds" := JNumber (NInt (lm_seconds (ct_limit c)))]>
        (<["remaining" := JNumber (NInt (remaining_of c))]>
         (<["limit" := JNumber (NInt (lm_max (ct_limit c)))]>
          (<["retry_after_seconds" := JNumber (NInt (retry_after c))]> status)))
    end in
  mkViolation "ratelimit.exceeded" "request rate limit exceeded" None details None (Some STATUS_TOO_MANY_REQUESTS).

(** [for (variable, attribute) in &self.bindings]: the values, or the denial. *)
Fixpoint bind_values (bag : AttributeBag) (bindings : list (string * string)) (values : Values) :
    result Values PluginViolation :=
  match bindings with
  | [] => Ok values
  | (variable, attribute) :: rest =>
      match get_string bag attribute with
      | None => Err (deny_unbound (bag_contains bag attribute) attribute)
      | Some value =>
          let value := if String.eqb attribute "http.method" then to_ascii_uppercase value else value in
          bind_values bag rest (<[variable := value]> values)
      end
  end.

(** [values.entry(local).or_default()]. *)
Definition add_locals (locals : gset string) (values : Values) : Values :=
  foldl (fun values local => match values !! local with Some _ => values | None => <[local := ""]> values end) values
    (sorted_elements locals).

(** All that comes before the limiter is asked: its context, or the denial. *)
Definition prepare (rl : RateLimit) (bag : AttributeBag) : result Values PluginViolation :=
  let? values := bind_values bag (sorted_entries (rt_bindings rl)) ∅ in
  let values := add_locals (rt_macro_locals rl) values in
  let cel_values := if rt_has_limit_conditions rl then Some values else None in
  match matching_conditions rl values cel_values with
  | Err _ => Err check_failed_denial
  | Ok matched =>
      match rt_computed_rules rl with
      | [] => Ok values
      | rules =>
          match check_computed_counter_keys rules values matched with
          | Returned (Ok _) => Ok values
          | Returned (Err _) | Panicked => Err check_failed_denial
          end
      end
  end.

(** [HookHandler::handle], the check and the update under the plugin's lock. *)
Definition handle `{HashOrder, Digest, Chrono} {Message} (rl : RateLimit) (x : Extensions Message) (limiter : Limiter) :
    Limiter * Verdict :=
  match with_extensions x bag_new with
  | Err _ => (limiter, VDeny check_failed_denial)
  | Ok bag =>
      match prepare rl bag with
      | Err v => (limiter, VDeny v)
      | Ok values =>
          match check_and_update (rt_namespace rl) values limiter with
          | (limiter, Returned (Ok r)) =>
              (limiter, if ck_limited r then VDeny (deny_exceeded (ck_counters r)) else VAllow)
          | (limiter, Returned (Err _)) | (limiter, Panicked) => (limiter, VDeny check_failed_denial)
          end
      end
  end.
End Limit.
