(* ===== verification/RateLimitProps.v ===== *)
(** * What the rate limiter guarantees

    A request is admitted only through a check of the limiter that counted it; before
    identity is resolved the caller cannot choose the counter it is charged to; and the
    wait a refusal announces outlasts every exhausted counter. *)

From Stdlib Require Import Ascii String.
From S2P Require Import Prelude RustStr F64 Json Platform Attributes Rules Constraint Step Lexical Predicate Paths.
From S2P Require Import Routing ExtData Plugin Extensions StepParser Config DecisionCache Bridge BridgeProps.
From S2P Require Import RateLimit.

Section Props.
Context `{Platform, Limitador}.

(** ** Loading *)

Definition free_of (source : string) : gset string := match cel_parse source with Ok e => collect_free e [] | Err _ => ∅ end.

(** What a loop over names has added: nothing is lost, and every name of a counter is
    bound, referenced and counted. *)
Record grown (bindings : gmap string string) (names : gset string) (counting : bool) (ref key ref' key' : gset string) : Prop := {
  gr_ref : ref ⊆ ref';
  gr_key : key ⊆ key';
  gr_names x : counting = true -> x ∈ names -> x ∈ ref' /\ x ∈ key' /\ is_Some (bindings !! x);
}.

Lemma free_names_grown bindings index is_condition free ref key ref' key' :
  free_names bindings index is_condition free ref key = Ok (ref', key') ->
  grown bindings (list_to_set free) (negb is_condition) ref key ref' key'.
Proof.
  revert ref key. induction free as [|x free IH]; intros ref key Hf; cbn in Hf.
  { injection Hf as <- <-. split; [done|done|set_solver]. }
  destruct (String.eqb_spec x "limit") as [->|Hl].
  - destruct is_condition; [|done]. apply IH in Hf as [Hr Hk _]. by split.
  - case_bool_decide as Hb; [done|]. apply IH in Hf as [Hr Hk Hn]. split; [set_solver|destruct is_condition; set_solver|].
    intros y Hc Hy. destruct is_condition; [done|]. rewrite list_to_set_cons in Hy. apply elem_of_union in Hy as [->%elem_of_singleton|Hy].
    + split_and!; [set_solver|set_solver|]. by apply not_eq_None_Some.
    + by apply Hn.
Qed.

Lemma source_names_grown bindings index sources locals ref key locals' ref' key' :
  source_names bindings index sources locals ref key = Ok (locals', ref', key') ->
  ref ⊆ ref' /\ key ⊆ key'
  /\ forall source x, (source, false) ∈ sources -> x ∈ free_of source -> x ∈ ref' /\ x ∈ key' /\ is_Some (bindings !! x).
Proof.
  revert locals ref key. induction sources as [|[s c] sources IH]; intros locals ref key Hs; cbn in Hs.
  { injection Hs as _ <- <-. split_and!; [done|done|]. by intros ? ? ?%not_elem_of_nil. }
  unfold variables_parse in Hs. destruct (cel_parse s) as [e|] eqn:Ep; [|done]. cbn in Hs.
  destruct (free_names _ _ _ _ _ _) as [[r1 k1]|] eqn:Ef; [|done].
  apply free_names_grown in Ef as [Hr Hk Hn]. apply IH in Hs as (Hr' & Hk' & Hn').
  split_and!; [set_solver|set_solver|]. intros source x [[= -> <-]|Hin]%elem_of_cons Hx; [|by eapply Hn'].
  unfold free_of in Hx. rewrite Ep in Hx. destruct (Hn x) as (A & B & C); [done| |set_solver].
  apply elem_of_list_to_set. by apply sorted_elements_elem.
Qed.

(** The names of the counters of a limit are counted once it is loaded. *)
Definition counted (bindings : gmap string string) (limit : LimitConfig) (ld : Loading) : Prop :=
  forall source x, source ∈ lc_variables limit -> x ∈ free_of source ->
    x ∈ ld_referenced ld /\ x ∈ ld_counter_keys ld /\ is_Some (bindings !! x).

Lemma load_limit_counted ns bindings index entry ld ld' :
  load_limit ns bindings index entry ld = Ok ld' ->
  ld_referenced ld ⊆ ld_referenced ld' /\ ld_counter_keys ld ⊆ ld_counter_keys ld' /\ counted bindings entry ld'.
Proof.
  unfold load_limit. destruct (source_names _ _ _ _ _ _) as [[[l1 r1] k1]|] eqn:Es; [|done]. cbn.
  destruct (prefix_error _ _) as [u|]; [|done]. destruct (condition_checks _ _ _) as [[checks hl]|]; [|done].
  destruct (prefix_error _ _) as [u'|]; [|done]. destruct (add_limit _ _) as [lim added]. destruct added; [|done].
  intros [= <-]. cbn. apply source_names_grown in Es as (Hr & Hk & Hn). split_and!; [done|done|].
  intros source x Hin Hx. apply (Hn source x); [|done]. apply elem_of_app. right. apply list_elem_of_fmap. by exists source.
Qed.

Lemma load_limits_counted ns bindings index limits ld ld' :
  load_limits ns bindings index limits ld = Ok ld' ->
  ld_referenced ld ⊆ ld_referenced ld' /\ ld_counter_keys ld ⊆ ld_counter_keys ld'
  /\ forall limit, limit ∈ limits -> counted bindings limit ld'.
Proof.
  revert index ld. induction limits as [|entry limits IH]; intros index ld Hl; cbn in Hl.
  { injection Hl as ->. split_and!; [done|done|]. by intros ? ?%not_elem_of_nil. }
  destruct (load_limit _ _ _ _ _) as [ld1|] eqn:E; [|done].
  apply load_limit_counted in E as (Hr & Hk & Hc). apply IH in Hl as (Hr' & Hk' & Hc').
  split_and!; [set_solver|set_solver|]. intros limit [->|Hin]%elem_of_cons; [|by apply Hc'].
  intros source x Hs Hx. destruct (Hc source x Hs Hx) as (A & B & C). split_and!; [set_solver|set_solver|done].
Qed.

Lemma try_for_ok {A E} (f : A -> result unit E) l x : try_for f l = Ok tt -> x ∈ l -> exists u, f x = Ok u.
Proof.
  induction l as [|y l IH]; cbn; [by intros _ ?%not_elem_of_nil|].
  destruct (f y) eqn:Ef; [|done]. intros Hl [->|Hin]%elem_of_cons; [by eexists|auto].
Qed.

(** Before identity, a counter is keyed on nothing the caller chooses and on nothing
    identity resolution writes. *)
Lemma preidentity_bindings config typed rl limiter limit source x :
  ratelimit_new config typed PreIdentity = Ok (rl, limiter) -> limit ∈ rl_limits typed -> source ∈ lc_variables limit ->
  x ∈ free_of source ->
  exists attribute, rt_bindings rl !! x = Some attribute
    /\ is_caller_controlled attribute = false /\ is_identity_derived attribute = false.
Proof.
  unfold ratelimit_new. destruct (validate typed) as [u|]; [|done].
  destruct (load_limits _ _ _ _ _) as [ld|] eqn:El; [|done].
  set (bindings := filter _ (rl_bindings typed)).
  destruct (check_stage_bindings PreIdentity bindings (ld_counter_keys ld)) as [[]|] eqn:Ec; [|done].
  intros [= <- <-] Hlim Hs Hx. cbn [rt_bindings].
  apply load_limits_counted in El as (_ & _ & Hc). destruct (Hc limit Hlim source x Hs Hx) as (Hr & Hk & attribute & Ha).
  assert (Hb : bindings !! x = Some attribute) by (apply map_lookup_filter_Some; done).
  exists attribute. split; [done|]. eapply try_for_ok in Ec as [v Hv]; [|by apply sorted_entries_elem].
  unfold check_stage_binding in Hv. rewrite bool_decide_eq_true_2 in Hv by done. cbn [andb] in Hv.
  destruct (is_identity_derived attribute); [done|]. rewrite bool_decide_eq_true_2 in Hv by done.
  destruct (is_caller_controlled attribute); [|done]. done.
Qed.

(** ** The values of a request *)

(** What a binding reads: the attribute, a method in upper case. *)
Definition bound_value (bag : AttributeBag) (attribute : string) : option string :=
  match get_string bag attribute with
  | Some value => Some (if String.eqb attribute "http.method" then to_ascii_uppercase value else value)
  | None => None
  end.

Lemma bind_values_lookup bag bindings v v' :
  NoDup (bindings.*1) -> bind_values bag bindings v = Ok v' ->
  (forall x attribute, (x, attribute) ∈ bindings -> is_Some (bound_value bag attribute) /\ v' !! x = bound_value bag attribute)
  /\ (forall x, x ∉ bindings.*1 -> v' !! x = v !! x).
Proof.
  revert v. induction bindings as [|[y attr] bindings IH]; intros v Hnd Hb; cbn in Hb.
  { injection Hb as <-. split; [by intros ? ? ?%not_elem_of_nil|done]. }
  apply NoDup_cons in Hnd as [Hy Hnd]. destruct (get_string bag attr) as [value|] eqn:Eg; [|done].
  destruct (IH _ Hnd Hb) as [Hin Hout]. split.
  - intros x attribute [[= -> ->]|Hx]%elem_of_cons; [|by apply Hin]. unfold bound_value. rewrite Eg.
    split; [by eexists|]. rewrite Hout by done. apply lookup_insert_eq.
  - intros x Hx. cbn in Hx. apply not_elem_of_cons in Hx as [Hne Hx]. rewrite Hout by done. by apply lookup_insert_ne.
Qed.

Lemma add_locals_lookup locals v x :
  add_locals locals v !! x = match v !! x with Some s => Some s | None => if bool_decide (x ∈ locals) then Some "" else None end.
Proof.
  unfold add_locals.
  replace (bool_decide (x ∈ locals)) with (bool_decide (x ∈ sorted_elements locals))
    by (apply bool_decide_ext; apply sorted_elements_elem).
  generalize (sorted_elements locals) as l. intros l. revert v. induction l as [|y l IH]; intros v; cbn.
  { by destruct (v !! x). }
  rewrite IH. destruct (v !! y) as [s|] eqn:Ey.
  - destruct (v !! x) eqn:Ex; [done|]. rewrite (bool_decide_ext (x ∈ y :: l) (x ∈ l)); [done|]. rewrite elem_of_cons.
    split; [|by right]. intros [->|Hx]; [congruence|done].
  - destruct (decide (y = x)) as [->|Hne].
    + rewrite lookup_insert_eq, Ey, bool_decide_eq_true_2; [done|left].
    + rewrite lookup_insert_ne by done. rewrite (bool_decide_ext (x ∈ y :: l) (x ∈ l)); [done|]. set_solver.
Qed.

Lemma sorted_entries_nodup {V} (m : gmap string V) : NoDup ((sorted_entries m).*1).
Proof. unfold sorted_entries. rewrite merge_sort_Permutation. apply NoDup_fst_map_to_list. Qed.

Lemma prepare_values rl bag v :
  prepare rl bag = Ok v ->
  (forall x attribute, rt_bindings rl !! x = Some attribute ->
     is_Some (bound_value bag attribute) /\ v !! x = bound_value bag attribute)
  /\ (forall x, rt_bindings rl !! x = None -> v !! x = if bool_decide (x ∈ rt_macro_locals rl) then Some "" else None).
Proof.
  unfold prepare. destruct (bind_values _ _ _) as [v0|] eqn:Eb; [|done].
  destruct (bind_values_lookup _ _ _ _ (sorted_entries_nodup _) Eb) as [Hin Hout]. intros Hp.
  assert (v = add_locals (rt_macro_locals rl) v0) as ->.
  { destruct (matching_conditions _ _ _) as [matched|]; [|done]. destruct (rt_computed_rules rl); [congruence|].
    destruct (check_computed_counter_keys _ _ _) as [[]|]; congruence. }
  split.
  - intros x attribute Hx%sorted_entries_elem. destruct (Hin _ _ Hx) as [[s Hs] Hv]. split; [by eexists|].
    by rewrite add_locals_lookup, Hv, Hs.
  - intros x Hx. rewrite add_locals_lookup, Hout; [by rewrite lookup_empty|].
    intros ([y attribute] & -> & Hy%sorted_entries_elem)%list_elem_of_fmap. simpl in Hx. congruence.
Qed.

(** Two requests give the same names values or none. *)
Lemma prepare_dom rl b1 b2 v1 v2 x :
  prepare rl b1 = Ok v1 -> prepare rl b2 = Ok v2 -> is_Some (v1 !! x) <-> is_Some (v2 !! x).
Proof.
  intros [I1 O1]%prepare_values [I2 O2]%prepare_values. destruct (rt_bindings rl !! x) as [attribute|] eqn:Eb.
  - destruct (I1 _ _ Eb) as [S1 ->], (I2 _ _ Eb) as [S2 ->]. done.
  - by rewrite O1, O2.
Qed.

(** ** The counter a refusal reports *)

Definition worse_eq (a b : Counter) : Prop :=
  (remaining_of a < remaining_of b \/ remaining_of a = remaining_of b /\ reset_of b <= reset_of a)%Z.

Lemma stricter_false a b : stricter a b = false -> worse_eq b a.
Proof.
  unfold stricter, worse_eq. intros [H1 H2]%orb_false_iff. apply Z.ltb_ge in H1.
  destruct (Z.eqb_spec (remaining_of a) (remaining_of b)); cbn in H2; [|lia]. apply Z.ltb_ge in H2. lia.
Qed.

Lemma stricter_true a b : stricter a b = true -> worse_eq a b.
Proof.
  unfold stricter, worse_eq. intros [Hl|[He Hr]%andb_true_iff]%orb_true_iff; [apply Z.ltb_lt in Hl|apply Z.eqb_eq in He; apply Z.ltb_lt in Hr]; lia.
Qed.

Lemma most_restrictive_from b l c : foldl (fun best c => match best with
    | None => Some c | Some b => if stricter c b then Some c else Some b end) (Some b) l = Some c ->
  (c = b \/ c ∈ l) /\ worse_eq c b /\ forall d, d ∈ l -> worse_eq c d.
Proof.
  revert b. induction l as [|d l IH]; intros b Hf; cbn in Hf.
  { injection Hf as ->. split_and!; [by left|unfold worse_eq; lia|by intros ? ?%not_elem_of_nil]. }
  assert (Hn : exists b', (b' = b \/ b' = d) /\ worse_eq b' b /\ worse_eq b' d
     /\ foldl (fun best c => match best with
        | None => Some c | Some b => if stricter c b then Some c else Some b end) (Some b') l = Some c).
  { destruct (stricter d b) eqn:Es; [exists d|exists b]; split_and!; try done; try (by left); try (by right); try (unfold worse_eq; lia).
    - by apply stricter_true.
    - by apply stricter_false. }
  destruct Hn as (b' & Hb' & W1 & W2 & Hf'). apply IH in Hf' as (Hc & Wc & Hall). unfold worse_eq in *. split_and!.
  - destruct Hc as [->|Hc]; [|right; by right]. destruct Hb' as [->| ->]; [by left|right; left].
  - lia.
  - intros e [->|He]%elem_of_cons; [lia|by apply Hall].
Qed.

Lemma most_restrictive_least counters c :
  most_restrictive counters = Some c -> c ∈ counters /\ forall d, d ∈ counters -> worse_eq c d.
Proof.
  unfold most_restrictive. destruct counters as [|b l]; [done|]. cbn. intros Hf%most_restrictive_from.
  destruct Hf as (Hc & Wb & Hall). split; [destruct Hc as [->|Hc]; [left|by right]|].
  intros d [->|Hd]%elem_of_cons; [done|by apply Hall].
Qed.

Lemma most_restrictive_some counters : counters <> [] -> is_Some (most_restrictive counters).
Proof.
  destruct counters as [|b l]; [done|]. intros _. unfold most_restrictive. cbn. revert b.
  induction l as [|c l IH]; intros b; cbn; [by eexists|]. destruct (stricter c b); apply IH.
Qed.

(** ** The check before the count *)

Lemma rule_keys_ok index variables v u : rule_keys index variables v = Returned (Ok u) ->
  forall variable, variable ∈ variables -> exists key, expression_eval variable v = Returned (Ok (Some key)).
Proof.
  induction variables as [|y variables IH]; cbn; [by intros _ ? ?%not_elem_of_nil|].
  destruct (expression_eval y v) as [[[key|]|]|] eqn:Ee; try done. intros Hr z [->|Hz]%elem_of_cons; eauto.
Qed.

Lemma computed_keys_ok rules v matched u : check_computed_counter_keys rules v matched = Returned (Ok u) ->
  forall rule variable, rule ∈ rules -> matched !! cr_index rule = Some true -> variable ∈ cr_variables rule ->
  exists key, expression_eval variable v = Returned (Ok (Some key)).
Proof.
  induction rules as [|r rules IH]; cbn; [by intros _ ? ? ?%not_elem_of_nil|].
  intros Hc rule variable [->|Hin]%elem_of_cons Hm Hv.
  - rewrite Hm in Hc. destruct (rule_keys _ _ _) as [[u'|]|] eqn:Er; try done. by eapply rule_keys_ok.
  - destruct (matched !! cr_index r) as [[]|]; try done; [|by apply (IH Hc rule)].
    destruct (rule_keys _ _ _) as [[u'|]|]; try done. by apply (IH Hc rule).
Qed.

(** A rule's conditions under the values of a request. *)
Definition matches (rl : RateLimit) (v : Values) : result (list bool) string :=
  matching_conditions rl v (if rt_has_limit_conditions rl then Some v else None).

Lemma prepare_checked rl bag v : prepare rl bag = Ok v ->
  exists matched, matches rl v = Ok matched
  /\ forall rule variable, rule ∈ rt_computed_rules rl -> matched !! cr_index rule = Some true ->
     variable ∈ cr_variables rule -> exists key, expression_eval variable v = Returned (Ok (Some key)).
Proof.
  unfold prepare, matches. destruct (bind_values _ _ _) as [v0|]; [|done]. set (w := add_locals _ v0). clearbody w.
  destruct (matching_conditions rl w _) as [matched|] eqn:Em; [|done].
  destruct (rt_computed_rules rl) as [|r rules] eqn:Er.
  - intros [= <-]. exists matched. split; [done|]. by intros ? ? ?%not_elem_of_nil.
  - destruct (check_computed_counter_keys _ _ _) as [[u|]|] eqn:Ec; try done. intros [= <-]. exists matched. split; [done|].
    by eapply computed_keys_ok.
Qed.

Lemma bind_values_refused bag bindings v vi : bind_values bag bindings v = Err vi ->
  vi_proto_error_code vi = Some 400%Z \/ vi_proto_error_code vi = Some 401%Z.
Proof.
  revert v. induction bindings as [|[y attr] bindings IH]; intros v; cbn; [done|].
  destruct (get_string bag attr); [apply IH|]. intros [= <-]. unfold deny_unbound.
  destruct (bag_contains bag attr); [by left|]. destruct (String.eqb attr _); [by right|]. by destruct (String.eqb attr _); left.
Qed.

Lemma bind_values_missing bag bindings v y attr :
  (y, attr) ∈ bindings -> get_string bag attr = None -> exists vi, bind_values bag bindings v = Err vi.
Proof.
  revert v. induction bindings as [|[z b] bindings IH]; intros v; cbn; [by intros ?%not_elem_of_nil|].
  intros [[= <- <-]|Hin]%elem_of_cons Hg; [rewrite Hg; by eexists|]. destruct (get_string bag b); [by apply IH|by eexists].
Qed.
End Props.

(** [counter_not_caller_chosen]: for an instance that loads at the stage before
    identity, two requests whose attributes differ only in what a caller chooses
    freely are charged to the same counters: every counter expression of every limit
    evaluates alike on both, provided the expression language
    evaluates an expression from its free variables and the names that are present. *)
Theorem counter_not_caller_chosen `{Platform, Limitador} config typed rl limiter b1 b2 v1 v2 limit source :
  (forall s e w1 w2, cel_parse s = Ok e -> (forall x, x ∈ collect_free e [] -> w1 !! x = w2 !! x) ->
     (forall x, is_Some (w1 !! x) <-> is_Some (w2 !! x)) -> expression_eval s w1 = expression_eval s w2) ->
  ratelimit_new config typed PreIdentity = Ok (rl, limiter) ->
  (forall attribute, is_caller_controlled attribute = false -> b1 !! attribute = b2 !! attribute) ->
  prepare rl b1 = Ok v1 -> prepare rl b2 = Ok v2 ->
  limit ∈ rl_limits typed -> source ∈ lc_variables limit -> (exists e, cel_parse source = Ok e) ->
  expression_eval source v1 = expression_eval source v2.
Proof.
  intros Hcel Hnew Hb P1 P2 Hlim Hs [e He]. apply (Hcel source e); [done| |by intros x; eapply prepare_dom].
  intros x Hx. destruct (preidentity_bindings config typed rl limiter limit source x) as (attribute & Ha & Hc & _); try done.
  { unfold free_of. by rewrite He. }
  apply prepare_values in P1 as [I1 _], P2 as [I2 _]. destruct (I1 _ _ Ha) as [_ ->], (I2 _ _ Ha) as [_ ->].
  unfold bound_value, get_string, bag_get. by rewrite (Hb attribute Hc).
Qed.

(** [retry_after_outlasts]: the wait announced with a refusal is at least one
    second and at most the window of the counter it is taken from, and when a counter
    is exhausted no exhausted counter is still closed once it is over. *)
Theorem retry_after_outlasts counters c :
  (forall d, d ∈ counters -> (0 <= remaining_of d)%Z /\ (0 < lm_seconds (ct_limit d) < 2 ^ 64)%Z
     /\ forall t, ct_expires_in d = Some t -> (0 <= t <= ct_window d)%Z) ->
  most_restrictive counters = Some c ->
  (1 <= retry_after c <= lm_seconds (ct_limit c))%Z
  /\ ((exists d, d ∈ counters /\ remaining_of d = 0%Z) -> remaining_of c = 0%Z)
  /\ (remaining_of c = 0%Z -> forall d, d ∈ counters -> remaining_of d = 0%Z -> (reset_of d <= retry_after c * 1000000000)%Z).
Proof.
  intros Hok Hc. apply most_restrictive_least in Hc as [Hin Hall]. destruct (Hok c Hin) as (Hr & Hw & Ht).
  assert (Hwait : (reset_of c <= retry_after c * 1000000000 /\ 1 <= retry_after c <= lm_seconds (ct_limit c))%Z).
  { unfold retry_after, reset_of, ct_window, ceil_seconds in *. destruct (ct_expires_in c) as [t|]; cbn [default]; [|lia].
    specialize (Ht t eq_refl). pose proof (Z.div_mod t 1000000000 ltac:(lia)) as Hd.
    pose proof (Z.mod_pos_bound t 1000000000 ltac:(lia)). unfold id.
    destruct (Z.eqb_spec (t mod 1000000000) 0); lia. }
  split_and!; [lia|lia|..].
  - intros (d & Hd & H0). specialize (Hall d Hd). unfold worse_eq in Hall. lia.
  - intros H0 d Hd Hd0. specialize (Hall d Hd). unfold worse_eq in Hall. lia.
Qed.

(** [admitted_was_counted]: a request is admitted only if every attribute the
    limits bind was a string of its bag, every rule's conditions could be decided, every
    counter expression of a matching rule produced a key, and the limiter, asked once with
    those values, counted it and did not find it over a limit; and a request that lacks a bound attribute is refused with 400 or 401 and
    leaves every counter as it was. *)
Theorem admitted_was_counted `{Platform, Limitador, HashOrder, Digest, Chrono} {Message} rl (x : Extensions Message) l l' verdict :
  handle rl x l = (l', verdict) ->
  (verdict = VAllow -> exists bag v matched r,
     with_extensions x bag_new = Ok bag
     /\ (forall y attribute, rt_bindings rl !! y = Some attribute ->
          is_Some (bound_value bag attribute) /\ v !! y = bound_value bag attribute)
     /\ matches rl v = Ok matched
     /\ (forall rule variable, rule ∈ rt_computed_rules rl -> matched !! cr_index rule = Some true ->
          variable ∈ cr_variables rule -> exists key, expression_eval variable v = Returned (Ok (Some key)))
     /\ check_and_update (rt_namespace rl) v l = (l', Returned (Ok r)) /\ ck_limited r = false)
  /\ (forall bag y attribute, with_extensions x bag_new = Ok bag -> rt_bindings rl !! y = Some attribute ->
       get_string bag attribute = None ->
       l' = l /\ exists vi, verdict = VDeny vi
         /\ (vi_proto_error_code vi = Some 400%Z \/ vi_proto_error_code vi = Some 401%Z)).
Proof.
  intros Hh. unfold handle in Hh. destruct (with_extensions x bag_new) as [bag|] eqn:Eb;
    [|injection Hh as <- <-; by split].
  destruct (prepare rl bag) as [v|vi] eqn:Ep.
  - split.
    + intros ->. destruct (prepare_checked _ _ _ Ep) as (matched & Hm & Hk). destruct (prepare_values _ _ _ Ep) as [Hv _].
      destruct (check_and_update _ v l) as [l1 [[r|]|]] eqn:Ec; [|done..].
      destruct (ck_limited r) eqn:El; [done|]. injection Hh as ->. by exists bag, v, matched, r.
    + intros bag' y attribute [= <-] Hy Hg. destruct (prepare_values _ _ _ Ep) as [Hv _].
      destruct (Hv _ _ Hy) as [[s Hs] _]. unfold bound_value in Hs. by rewrite Hg in Hs.
  - injection Hh as <- <-. split; [done|]. intros bag' y attribute [= <-] Hy%sorted_entries_elem Hg. split; [done|].
    exists vi. split; [done|]. unfold prepare in Ep. destruct (bind_values_missing bag _ ∅ y attribute Hy Hg) as [vi' Hb].
    rewrite Hb in Ep. injection Ep as ->. by eapply bind_values_refused.
Qed.

(** ** A limiter to run examples on *)

(** An expression is the name of a variable; one counter of at most two. *)
Definition direct_limitador : Limitador := {|
  Limiter := nat;
  limiter_new := fun _ => 0;
  add_limit := fun _ l => (l, true);
  check_and_update := fun _ _ l =>
    if Nat.ltb l 2 then (S l, Returned (Ok (mkCheckResult false [] None)))
    else (l, Returned (Ok (mkCheckResult true [] None)));
  cel_parse := fun s => Ok (CelIdent s);
  cel_references := fun _ => [];
  predicate_new := fun _ => Ok tt;
  predicate_test := fun _ _ => Ok true;
  expression_new := fun _ => Ok tt;
  expression_eval := fun s v => Returned (Ok (v !! s));
  cel_resolve := fun _ _ => RvNoSuchKey;
|}.

Definition by_address : RateLimitConfig :=
  mkRateLimitConfig {[ "address" := "http.client_address" ]} 100 [mkLimitConfig [] 2 60 ["address"]] "api".

Definition limit_plugin : PluginConfig :=
  mkPluginConfig "limit" "ratelimit/limitador" None None None ["ratelimit.pre_identity"] Sequential 0 OeFail ∅ [] [] None.


Definition exhausted (t : Z) : Counter := mkCounter (mkLimit "api" 2 60 [] []) (Some 0%Z) (Some t).

Lemma retry_after_outlasts_witness :
  most_restrictive [exhausted 1000000000; exhausted 2500000000] = Some (exhausted 2500000000)
  /\ (1 <= retry_after (exhausted 2500000000) <= 60)%Z.
Proof.
  split; [done|]. apply (retry_after_outlasts [exhausted 1000000000; exhausted 2500000000]); [|done].
  intros d [->|[->|[]%not_elem_of_nil]%elem_of_cons]%elem_of_cons; (split; [done|]; split; [done|]); intros t [= <-]; done.
Defined.

Definition from_address : Extensions unit :=
  mkExtensions None None (Some (mkHttp ∅ (Some "10.0.0.1") ∅ ∅ None None None None None None)) None None None None None None
    None None None None None None None false false false TransportNotInstalled EffectDetached.

