(* ===== verification/Runtime.v ===== *)
(** * The policy runtime bridge ([ppe-apl-runtime/src])

    What stands between a compiled route and the plugin engine: the effective declaration of
    a plugin ([ppe-apl-core/src/plugin_decl.rs]), the mode check of parallel blocks
    ([parallel_safety.rs]), the names and capabilities a route reaches, its dispatch plan and
    the cache of plans ([dispatch_plan.rs]), the router of decision points
    ([pdp_router.rs]). *)

From Stdlib Require Import Ascii String.
From S2P Require Import Prelude RustStr F64 Json Platform Attributes Rules Constraint Step Eval Effects.
From S2P Require Import StepParser Paths Host ExtData Plugin Extensions Executor Hooks Config.

(** A [HashSet<String>] in the order it iterates. *)
Definition hash_elems `{HashOrder} (s : gset string) : list string :=
  map fst (hash_iter (gset_to_gmap tt s)).

(** ** Declarations ([plugin_decl.rs]) *)

(** The opaque [extra] keys are not read. *)
Record PluginDeclaration : Type := mkDeclaration {
  pd_name : string;
  pd_kind : string;
  pd_hooks : list string;
  pd_capabilities : list string;
  pd_config : option yaml;
  pd_on_error : option string;
}.

Definition PluginRegistry : Type := gmap string PluginDeclaration.

Inductive CapsView : Type := CapsGlobal (s : list string) | CapsOverride (s : list string).

Definition caps_as_slice (c : CapsView) : list string :=
  match c with CapsGlobal s | CapsOverride s => s end.

Record EffectivePlugin : Type := mkEffective {
  ep_name : string;
  ep_kind : string;
  ep_hooks : list string;
  ep_capabilities : CapsView;
  ep_config : option yaml;
  ep_on_error : option string;
}.

Definition resolve_effective (name : string) (registry : PluginRegistry)
    (route_overrides : gmap string PluginOverride) : option EffectivePlugin :=
  match registry !! name with
  | None => None
  | Some global =>
      let ovr := route_overrides !! name in
      let capabilities := match ovr ≫= ov_capabilities with
                          | Some c => CapsOverride c
                          | None => CapsGlobal (pd_capabilities global)
                          end in
      let config := match ovr ≫= ov_config with Some c => Some c | None => pd_config global end in
      let on_error := match ovr ≫= ov_on_error with Some e => Some e | None => pd_on_error global end in
      Some (mkEffective (pd_name global) (pd_kind global) (pd_hooks global) capabilities config on_error)
  end.

(** ** The mode check of parallel blocks ([parallel_safety.rs]) *)

Definition is_safe_in_parallel (m : PluginMode) : bool :=
  match m with Audit | Concurrent | FireAndForget | Disabled => true | _ => false end.

Section ParallelSafety.
(** [PluginModeLookup::mode_for]. *)
Variable mode_for : string -> option PluginMode.

(** The errors it pushes. *)
Definition check_plugin_mode (name location : string) : list string :=
  match mode_for name with
  | None => [location +:+ ": `parallel:` references unknown plugin `" +:+ name +:+ "`"]
  | Some mode =>
      if negb (is_safe_in_parallel mode)
      then [location +:+ ": plugin `" +:+ name +:+ "` has mode `" +:+ mode_display mode
              +:+ "` which can modify state; parallel branches discard mutations, so this would silently lose its effect. Use `sequential:` for ordered mutations or change the plugin's mode."]
      else []
  end.

Fixpoint walk_parallel (effect : Effect) (location : string) (under_parallel : bool) : list string :=
  match effect with
  | EffPlugin name => if under_parallel then check_plugin_mode name location else []
  | EffParallel inner => flat_map (fun e => walk_parallel e location true) inner
  | EffSequential inner => flat_map (fun e => walk_parallel e location under_parallel) inner
  | EffWhen _ body _ => flat_map (fun e => walk_parallel e location under_parallel) body
  | EffPdp _ on_allow on_deny =>
      flat_map (fun e => walk_parallel e location under_parallel) on_allow
      ++ flat_map (fun e => walk_parallel e location under_parallel) on_deny
  | _ => []
  end.

Fixpoint walk_phase (key phase_name : string) (idx : nat) (effects : list Effect) : list string :=
  match effects with
  | [] => []
  | effect :: rest =>
      walk_parallel effect ("routes." +:+ key +:+ "." +:+ phase_name +:+ "[" +:+ show_nat idx +:+ "]") false
      ++ walk_phase key phase_name (S idx) rest
  end.

Definition validate_parallel_plugin_modes (route : CompiledRoute) : result unit string :=
  let errors := walk_phase (route_key route) "pre_invocation" 0 (pre_invocation route)
                ++ walk_phase (route_key route) "post_invocation" 0 (post_invocation route) in
  if is_nil errors then Ok tt else Err (String.concat "; " errors).
End ParallelSafety.

(** ** The names a route reaches ([dispatch_plan.rs]) *)

(** The effects of a tree in the order [walk_effects] visits them. *)
Fixpoint visit_order (e : Effect) : list Effect :=
  e :: match e with
       | EffWhen _ body _ => flat_map visit_order body
       | EffSequential inner | EffParallel inner => flat_map visit_order inner
       | EffPdp _ on_allow on_deny => flat_map visit_order on_allow ++ flat_map visit_order on_deny
       | _ => []
       end.

Definition walk_tree {S} (visit : S -> Effect -> S) (effects : list Effect) (s : S) : S :=
  fold_left visit (flat_map visit_order effects) s.

(** [out] and [seen]. *)
Definition Names : Type := list string * gset string.

(** [if seen.insert(name.clone()) { out.push(name) }]. *)
Definition note (name : string) (s : Names) : Names :=
  if bool_decide (name ∈ s.2) then s else (s.1 ++ [name], {[ name ]} ∪ s.2).

Definition no_names : Names := ([], ∅).

(** The two walks of a collector. *)
Definition walk_route (visit : Names -> Effect -> Names) (route : CompiledRoute) : Names :=
  walk_tree visit (post_invocation route) (walk_tree visit (pre_invocation route) no_names).

Definition collect_delegate_plugin_names (route : CompiledRoute) : list string :=
  (walk_route (fun s e => match e with EffDelegate ds => note (dg_plugin_name ds) s | _ => s end) route).1.

Definition collect_elicit_plugin_names (route : CompiledRoute) : list string :=
  (walk_route (fun s e => match e with EffElicit es => note (el_plugin_name es) s | _ => s end) route).1.

Definition note_stages (s : Names) (fr : FieldRule) : Names :=
  fold_left (fun s st => match st with StPlugin name => note name s | _ => s end) (stages (fr_pipeline fr)) s.

Definition collect_plugin_names (route : CompiledRoute) : list string :=
  (fold_left note_stages (rt_args route ++ rt_result route)
     (walk_route (fun s e => match e with EffPlugin name => note name s | _ => s end) route)).1.

(** [names_in], [stage_names] and [extend_unique] of [collect_plugin_names_by_half]. *)
Definition names_in (effects : list Effect) : list string :=
  (walk_tree (fun s e =>
     match e with
     | EffPlugin name => note name s
     | EffDelegate ds => note (dg_plugin_name ds) s
     | EffElicit es => note (el_plugin_name es) s
     | _ => s
     end) effects no_names).1.

Definition push_unique (out : list string) (name : string) : list string :=
  if bool_decide (name ∈ out) then out else out ++ [name].

Definition stage_names (fields : list FieldRule) : list string :=
  fold_left (fun out fr =>
    fold_left (fun out st => match st with StPlugin name => push_unique out name | _ => out end)
      (stages (fr_pipeline fr)) out) fields [].

Definition extend_unique (into names : list string) : list string := fold_left push_unique names into.

Definition collect_plugin_names_by_half (route : CompiledRoute) : list string * list string :=
  (extend_unique (names_in (pre_invocation route)) (stage_names (rt_args route)),
   extend_unique (names_in (post_invocation route)) (stage_names (rt_result route))).

Definition collect_family_fixed_plugin_hooks (route : CompiledRoute) : list (string * string) :=
  let push out pair := if bool_decide (pair ∈ out) then out else out ++ [pair] in
  let visit out e :=
    match e with
    | EffDelegate ds => push out (dg_plugin_name ds, HOOK_TOKEN_DELEGATE)
    | EffElicit es => push out (el_plugin_name es, HOOK_ELICIT)
    | _ => out
    end in
  walk_tree visit (post_invocation route) (walk_tree visit (pre_invocation route) []).

(** The [subject] key of a delegation step, as the reachability check reads it. *)
Definition step_subject (ds : DelegateStep) : string :=
  default "user" (((dg_config_override ds ≫= as_mapping) ≫= mapping_get "subject") ≫= yaml_as_str).

Definition delegate_steps_exchanging_caller_credentials (route : CompiledRoute) : list string :=
  (walk_route (fun s e =>
     match e with
     | EffDelegate ds =>
         if String.eqb (step_subject ds) "this_workload" || String.eqb (step_subject ds) "gateway"
         then s else note (dg_plugin_name ds) s
     | _ => s
     end) route).1.

(** The inner loop of [route_capability_union]. *)
Definition grant_of (registry : PluginRegistry) (route : CompiledRoute) (caps : gset string) (name : string) :
    gset string :=
  match resolve_effective name registry (plugin_overrides route) with
  | Some eff => fold_left (fun caps cap => caps ∪ {[ cap ]}) (caps_as_slice (ep_capabilities eff)) caps
  | None => caps
  end.

Definition route_capability_union (route : CompiledRoute) (registry : PluginRegistry) : gset string :=
  let caps := fold_left (grant_of registry route) (collect_plugin_names route) ∅ in
  let caps := fold_left (grant_of registry route) (collect_delegate_plugin_names route) caps in
  let elicit_plugins := collect_elicit_plugin_names route in
  let caps := fold_left (grant_of registry route) elicit_plugins caps in
  if is_nil elicit_plugins then caps else caps ∪ {[ "read_headers" ]}.

(** ** The dispatch plan *)

Definition parse_on_error (s : string) : option OnError :=
  let s := to_ascii_lowercase s in
  if String.eqb s "fail" then Some OeFail
  else if String.eqb s "ignore" then Some OeIgnore
  else if String.eqb s "disable" then Some OeDisable
  else None.

Section Plan.
Context `{Payloads} `{HashOrder}.

Definition Handler : Type := Payload -> Extensions Message -> PluginContext -> Invocation.

(** *** The registry ([ppe-core/src/registry.rs]) *)

Record Registry : Type := mkRegistry {
  rg_plugins : gmap string PluginRef;
  rg_hook_index : gmap string (list HookEntry);
}.

Definition registry_new : Registry := mkRegistry ∅ ∅.

(** A handler under a hook name, with the family it reports ([hook_type_name]). *)
Definition Offered : Type := string * string * Handler.

Definition check_handler_family (hooks : HookRegistry) (plugin_name : string) (offered : Offered) :
    result unit string :=
  let '(hook_name, reported, _) := offered in
  match lookup_hook hooks hook_name ≫= hm_family with
  | None => Ok tt
  | Some expected =>
      if String.eqb reported expected then Ok tt
      else Err ("plugin '" +:+ plugin_name +:+ "' declares hook '" +:+ hook_name +:+ "', which belongs to the '"
                +:+ expected +:+ "' hook family, but its handler serves '" +:+ reported +:+ "'")
  end.

Definition ref_priority (r : PluginRef) : Z := pc_priority (pr_trusted_config r).

Definition by_priority (a b : HookEntry) : Prop := (ref_priority (he_ref a) <= ref_priority (he_ref b))%Z.

#[global] Instance by_priority_dec a b : base.Decision (by_priority a b).
Proof. unfold by_priority. apply _. Defined.

(** [self.hook_index.entry(hook_type).or_default().push(entry)]. *)
Definition push_entry (r : PluginRef) (index : gmap string (list HookEntry)) (offered : Offered) :
    gmap string (list HookEntry) :=
  let '(hook_name, _, handler) := offered in
  <[hook_name := default [] (index !! hook_name) ++ [mkEntry r handler]]> index.

(** [entries.sort_by_key(...)], a stable sort. *)
Definition sort_hook (index : gmap string (list HookEntry)) (offered : Offered) : gmap string (list HookEntry) :=
  let '(hook_name, _, _) := offered in
  match index !! hook_name with
  | Some entries => <[hook_name := merge_sort by_priority entries]> index
  | None => index
  end.

(** [id] is the one [PluginRef::new] draws. *)
Definition register_multi_handler (hooks : HookRegistry) (rg : Registry) (id : Uuid) (config : TrustedConfig)
    (handlers : list Offered) : result Registry string :=
  let name := pc_name config in
  if bool_decide (is_Some (rg_plugins rg !! name))
  then Err ("plugin '" +:+ name +:+ "' is already registered")
  else
    let? _ := try_each (check_handler_family hooks name) handlers in
    let plugin_ref := mkRef id config in
    let index := fold_left (push_entry plugin_ref) handlers (rg_hook_index rg) in
    let index := fold_left sort_hook handlers index in
    Ok (mkRegistry (<[name := plugin_ref]> (rg_plugins rg)) index).

(** The same steps with one handler under every name. *)
Definition register_for_names_inner (hooks : HookRegistry) (rg : Registry) (id : Uuid) (config : TrustedConfig)
    (family : string) (handler : Handler) (names : list string) : result Registry string :=
  register_multi_handler hooks rg id config (map (fun n => (n, family, handler)) names).

Definition unregister (rg : Registry) (name : string) : option (Registry * PluginRef) :=
  match rg_plugins rg !! name with
  | None => None
  | Some plugin_ref =>
      let index := List.filter (fun e => negb (String.eqb (he_name e) name)) <$> rg_hook_index rg in
      Some (mkRegistry (delete name (rg_plugins rg)) (filter (fun '(_, entries) => entries <> []) index), plugin_ref)
  end.

Definition registry_get (rg : Registry) (name : string) : option PluginRef := rg_plugins rg !! name.

Definition entries_for_hook (rg : Registry) (hook : string) : list HookEntry := default [] (rg_hook_index rg !! hook).

Definition entries_for_plugin (rg : Registry) (plugin_name : string) : list (string * HookEntry) :=
  flat_map (fun '(hook, entries) =>
    map (fun e => (hook, e)) (List.filter (fun e => String.eqb (he_name e) plugin_name) entries))
    (hash_iter (rg_hook_index rg)).

(** *** Entries with overrides ([ppe-core/src/engine.rs]) *)

(** What the plan asks of the engine. The factories and the plugins they build are the
    host's: [en_create] is the conversion of the override, [create_with] and
    [initialize_with] together, [None] when one of them fails. *)
Record RuntimeEngine : Type := mkRuntimeEngine {
  en_registry : Registry;
  en_create : string -> TrustedConfig -> yaml -> option (list (string * Handler));
  en_executor : ExecutorConfig;
  en_transport : option N;
}.

(** [PluginModeLookup] for the engine. *)
Definition engine_mode_for (en : RuntimeEngine) (disabled : DisabledSet) (name : string) : option PluginMode :=
  mode disabled <$> registry_get (en_registry en) name.

(** [fresh] is the id [PluginRef::new] draws. *)
Definition build_override_entries (en : RuntimeEngine) (fresh : Uuid) (plugin_name : string)
    (config_override : option yaml) (capabilities_override : option (gset string))
    (on_error_override : option OnError) : list (string * HookEntry) :=
  let base_entries := entries_for_plugin (en_registry en) plugin_name in
  match base_entries with
  | [] => []
  | (_, base) :: _ =>
      if is_none config_override && is_none capabilities_override && is_none on_error_override
      then base_entries
      else
        let merged := mkConfig (pc_name (he_config base)) (pc_mode (he_config base))
                        (default (pc_on_error (he_config base)) on_error_override)
                        (default (pc_capabilities (he_config base)) capabilities_override)
                        (pc_priority (he_config base)) in
        let new_ref := mkRef fresh merged in
        match config_override with
        | None => map (fun '(hook, e) => (hook, mkEntry new_ref (he_handler e))) base_entries
        | Some cfg =>
            match en_create en plugin_name merged cfg with
            | None => []
            | Some handlers => map (fun '(hook, h) => (hook, mkEntry new_ref h)) handlers
            end
        end
  end.

Record RoutePluginEntry : Type := mkRoutePlugin {
  rpe_plugin_name : string;
  rpe_entries_by_hook : gmap string HookEntry;
}.

Definition pick_entry (r : HookRegistry) (p : RoutePluginEntry)
    (requested_entity_type : option string) (requested_phase : HookPhase) : option HookEntry :=
  snd <$> List.find (fun '(hook_name, _) =>
            meta_matches (default permissive (lookup_hook r hook_name)) requested_entity_type requested_phase)
            (hash_iter (rpe_entries_by_hook p)).

Record RouteDispatchPlan : Type := mkPlan {
  pl_plugins : gmap string RoutePluginEntry;
  pl_delegation_entries : gmap string HookEntry;
  pl_elicitation_entries : gmap string HookEntry;
}.

Definition plan_default : RouteDispatchPlan := mkPlan ∅ ∅ ∅.

Definition by_hook (entries : list (string * HookEntry)) : gmap string HookEntry :=
  fold_left (fun m '(hook, e) => <[hook := e]> m) entries ∅.

(** [build] is asynchronous, and each of its calls of [build_override_entries] loads its own
    snapshot of the runtime: [engines k] is the one the [k]-th call meets, and [fresh + k] the
    id it draws. Each loop returns what it filled and the number of calls made so far. *)
Section Build.
Variable engines : nat -> RuntimeEngine.
Variable fresh : Uuid.

(** The body of the first loop. *)
Definition plan_plugin (route : CompiledRoute) (registry : PluginRegistry)
    (acc : gmap string RoutePluginEntry * nat) (name : string) : gmap string RoutePluginEntry * nat :=
  let '(plugins, k) := acc in
  match resolve_effective name registry (plugin_overrides route) with
  | None => (plugins, k)
  | Some eff =>
      let override_block := plugin_overrides route !! name in
      let caps_override := match ep_capabilities eff with
                           | CapsOverride s => Some (list_to_set s : gset string)
                           | CapsGlobal _ => None
                           end in
      let on_error_override := (override_block ≫= ov_on_error) ≫= parse_on_error in
      match build_override_entries (engines k) (fresh + N.of_nat k)%N name (override_block ≫= ov_config)
              caps_override on_error_override with
      | [] => (plugins, S k)
      | entries => (<[name := mkRoutePlugin name (by_hook entries)]> plugins, S k)
      end
  end.

(** The body of the two loops over the families with a fixed hook. *)
Definition plan_family (hook : string) (acc : gmap string HookEntry * nat) (name : string) :
    gmap string HookEntry * nat :=
  let '(m, k) := acc in
  match List.find (fun '(hook_name, _) => String.eqb hook_name hook)
          (build_override_entries (engines k) (fresh + N.of_nat k)%N name None None None) with
  | Some (_, entry) => (<[name := entry]> m, S k)
  | None => (m, S k)
  end.

Definition build_plan (route : CompiledRoute) (registry : PluginRegistry) : RouteDispatchPlan :=
  let '(plugins, k) := fold_left (plan_plugin route registry) (collect_plugin_names route) (∅, 0) in
  let '(delegation_entries, k) :=
    fold_left (plan_family HOOK_TOKEN_DELEGATE) (collect_delegate_plugin_names route) (∅, k) in
  let '(elicitation_entries, _) :=
    fold_left (plan_family HOOK_ELICIT) (collect_elicit_plugin_names route) (∅, k) in
  mkPlan plugins delegation_entries elicitation_entries.
End Build.

(** How many calls of [build_override_entries] a build makes. *)
Definition plan_calls (route : CompiledRoute) (registry : PluginRegistry) : nat :=
  length (List.filter (fun name => is_some (resolve_effective name registry (plugin_overrides route)))
            (collect_plugin_names route))
  + length (collect_delegate_plugin_names route) + length (collect_elicit_plugin_names route).

Definition resolve_plugin (en : RuntimeEngine) (plugin_name : string) : option RoutePluginEntry :=
  match entries_for_plugin (en_registry en) plugin_name with
  | [] => None
  | base => Some (mkRoutePlugin plugin_name (by_hook base))
  end.

(** ** The cache of plans *)

(** An [Arc<OnceCell<Arc<RouteDispatchPlan>>>] is an address in [dc_cells]. *)
Record CachedDispatchPlan : Type := mkCached { cd_generation : N; cd_plan : N }.

Record DispatchCache : Type := mkDispatchCache {
  dc_inner : gmap string CachedDispatchPlan;
  dc_cells : gmap N (option RouteDispatchPlan);
}.

Definition dispatch_cache_new : DispatchCache := mkDispatchCache ∅ ∅.

(** The read lock of [plan_cell]. *)
Definition cell_cached (c : DispatchCache) (route_key : string) (current_gen : N) : option N :=
  match dc_inner c !! route_key with
  | Some entry => if (cd_generation entry =? current_gen)%N then Some (cd_plan entry) else None
  | None => None
  end.

(** The write lock of [plan_cell]; [current_gen] is read from the engine under it, and
    [cell] is the address of the cell it may allocate. *)
Definition cell_install (c : DispatchCache) (route_key : string) (current_gen cell : N) : DispatchCache * N :=
  let fresh := mkDispatchCache (<[route_key := mkCached current_gen cell]> (dc_inner c))
                 (<[cell := None]> (dc_cells c)) in
  match dc_inner c !! route_key with
  | Some entry =>
      if negb (cd_generation entry =? current_gen)%N then (fresh, cell) else (c, cd_plan entry)
  | None => (fresh, cell)
  end.

(** [OnceCell::get_or_init]: the value built by whoever comes first. *)
Definition cell_get_or_init (c : DispatchCache) (cell : N) (built : RouteDispatchPlan) :
    DispatchCache * RouteDispatchPlan :=
  match dc_cells c !! cell with
  | Some (Some plan) => (c, plan)
  | _ => (mkDispatchCache (dc_inner c) (<[cell := Some built]> (dc_cells c)), built)
  end.
End Plan.

(** ** The router of decision points ([pdp_router.rs]) *)

#[global] Instance PdpDialect_eq_dec : EqDecision PdpDialect.
Proof. solve_decision. Defined.
#[global] Instance PdpDialect_countable : Countable PdpDialect.
Proof.
  refine (inj_countable'
    (fun d => match d with
              | Cedar => inl 0 | Opa => inl 1 | AuthZen => inl 2 | NeMo => inl 3 | Cel => inl 4
              | CustomDialect s => inr s end)
    (fun c => match c with
              | inl 0 => Cedar | inl 1 => Opa | inl 2 => AuthZen | inl 3 => NeMo | inl _ => Cel
              | inr s => CustomDialect s end) _).
  by intros [].
Defined.

(** [dyn PdpResolver]. *)
Record PdpResolver : Type := mkResolver {
  re_dialect : PdpDialect;
  re_evaluate : PdpCall -> AttributeBag -> result PdpDecision PdpError;
  re_evaluate_structured : PdpCall -> AttributeBag -> StructuredInput -> result PdpDecision PdpError;
  re_validate_call : PdpCall -> result unit string;
  re_validate_call_with_input : PdpCall -> StructuredInputAvailability -> result unit string;
}.

Record PdpRouter : Type := mkRouter {
  ro_code : gmap PdpDialect PdpResolver;
  ro_config : gmap PdpDialect PdpResolver;
}.

Definition router_new : PdpRouter := mkRouter ∅ ∅.

Definition has_code_resolver (r : PdpRouter) (d : PdpDialect) : bool :=
  bool_decide (is_Some (ro_code r !! d)).

Definition router_register (r : PdpRouter) (resolver : PdpResolver) : PdpRouter :=
  let dialect := re_dialect resolver in
  if has_code_resolver r dialect then r
  else mkRouter (<[dialect := resolver]> (ro_code r)) (delete dialect (ro_config r)).

Definition router_replace (r : PdpRouter) (resolver : PdpResolver) : PdpRouter :=
  let dialect := re_dialect resolver in
  mkRouter (<[dialect := resolver]> (ro_code r)) (delete dialect (ro_config r)).

Definition set_config_resolvers (r : PdpRouter) (resolvers : gmap PdpDialect PdpResolver) : PdpRouter :=
  mkRouter (ro_code r) (filter (fun '(d, _) => ro_code r !! d = None) resolvers).

Definition router_len (r : PdpRouter) : nat := size (ro_code r) + size (ro_config r).

Definition router_resolver (r : PdpRouter) (d : PdpDialect) : option PdpResolver :=
  match ro_code r !! d with Some x => Some x | None => ro_config r !! d end.

Definition router_evaluate (r : PdpRouter) (call : PdpCall) (bag : AttributeBag) : result PdpDecision PdpError :=
  match router_resolver r (pdp_dialect call) with
  | None => Err (PdpNoResolver (pdp_dialect call))
  | Some resolver => re_evaluate resolver call bag
  end.

Definition router_evaluate_structured (r : PdpRouter) (call : PdpCall) (bag : AttributeBag)
    (structured : StructuredInput) : result PdpDecision PdpError :=
  match router_resolver r (pdp_dialect call) with
  | None => Err (PdpNoResolver (pdp_dialect call))
  | Some resolver => re_evaluate_structured resolver call bag structured
  end.

Definition router_validate_call (r : PdpRouter) (call : PdpCall) : result unit string :=
  let? _ := validate_input_options call in
  match router_resolver r (pdp_dialect call) with
  | None => Ok tt
  | Some resolver => re_validate_call resolver call
  end.

Definition router_validate_call_with_input (r : PdpRouter) (call : PdpCall)
    (input : StructuredInputAvailability) : result unit string :=
  let? _ := validate_input_options call in
  if requires_llm_request call && negb (av_llm_request input)
  then Err "`require_llm_request: true` requires a route that can carry a host request document"
  else match router_resolver r (pdp_dialect call) with
       | None => Ok tt
       | Some resolver => re_validate_call_with_input resolver call input
       end.
