(* ===== verification/Session.v ===== *)
(** * Sessions, the plugin invoker and the verdict of a request ([ppe-apl-runtime/src])

    A session accumulates labels across requests. [session_resolver.rs] names the session of
    a request, [session_store.rs] keeps its labels, [cmf_invoker.rs] takes them in before the
    first plugin runs, carries payload and extensions from call to call and appends what the
    request added; [route_handler.rs] turns the outcome into the verdict the engine acts on.
    The store is an interface: the in-process one is given, others are the host's. *)

From Stdlib Require Import Ascii String.
From S2P Require Import Prelude RustStr F64 Json Platform Attributes Rules Constraint Step Eval Effects Paths Host.
From S2P Require Import RouteEval Routing Fold ExtData Plugin Extensions Executor StepParser Hooks Config.
From S2P Require Import DecisionCache Bridge Runtime.

(** ** The store ([session_store.rs]) *)

(** [SessionStoreError::Backend]. *)
Inductive SessionStoreError : Type := Backend (message : string).

Class SessionStore := {
  Store : Type;
  load_labels : Store -> string -> result (list string) SessionStoreError;
  append_labels : Store -> string -> list string -> Store * result unit SessionStoreError;
}.

(** The invariants the trait states: a load gives what the session holds, an append adds to
    it and nothing comes out, also when the append reports a failure. *)
Class SessionStoreLaws `{SessionStore} := {
  held : Store -> string -> gset string;
  load_held : forall st sid ls, load_labels st sid = Ok ls -> list_to_set ls = held st sid;
  append_held : forall st sid ls st',
    append_labels st sid ls = (st', Ok tt) -> held st' sid = held st sid ∪ list_to_set ls;
  append_grows : forall st sid ls st' r s,
    append_labels st sid ls = (st', r) -> held st s ⊆ held st' s;
  append_isolated : forall st sid ls st' r s,
    append_labels st sid ls = (st', r) -> s <> sid -> held st' s = held st s;
}.

(** [MemorySessionStore]. *)
Abbreviation MemoryStore := (gmap string (gset string)).

Definition memory_load_labels `{HashOrder} (m : MemoryStore) (session_id : string) : list string :=
  match m !! session_id with Some s => hash_elems s | None => [] end.

Definition memory_append_labels (m : MemoryStore) (session_id : string) (labels : list string) : MemoryStore :=
  if is_nil labels then m
  else <[session_id := fold_left (fun entry l => entry ∪ {[ l ]}) labels (default ∅ (m !! session_id))]> m.

#[global] Instance memory_store `{HashOrder} : SessionStore := {|
  Store := MemoryStore;
  load_labels := fun m sid => Ok (memory_load_labels m sid);
  append_labels := fun m sid ls => (memory_append_labels m sid ls, Ok tt);
|}.

(** ** The session of a request ([session_resolver.rs]) *)

Inductive SessionSource : Type := SrcAgent | SrcTokenClaim | SrcIdentity.

Definition source_as_str (s : SessionSource) : string :=
  match s with SrcAgent => "agent" | SrcTokenClaim => "token_claim" | SrcIdentity => "identity" end.

Section Resolver.
Context `{Platform, Digest} {Message : Type}.

(** [digest.iter().take(8)]. *)
Definition short_hash (raw : string) : result string string :=
  let? digest := sha256 raw in Ok (hex_of (String.substring 0 8 digest)).

Definition subject_scoped (subject_id : option string) (raw : string) : result (option string) string :=
  match subject_id with
  | None => Ok None
  | Some sub => let? h := short_hash (sub +:+ ":" +:+ raw) in Ok (Some h)
  end.

Definition subject_id_of (x : Extensions Message) : option string :=
  (x_security x ≫= sec_subject) ≫= sj_id.

(** The non-empty value of a tier, bound to the subject. *)
Definition tier (subject_id value : option string) (source : SessionSource)
    (next : result (option (string * SessionSource)) string) : result (option (string * SessionSource)) string :=
  match value with
  | None => next
  | Some sid =>
      if String.eqb sid "" then next
      else let? bound := subject_scoped subject_id sid in
           match bound with Some id => Ok (Some (id, source)) | None => next end
  end.

Definition identity_tier (x : Extensions Message) : result (option (string * SessionSource)) string :=
  match x_security x with
  | None => Ok None
  | Some sec =>
      match sec_subject sec ≫= sj_id with
      | None => Ok None
      | Some sub =>
          let actor := default "-" (sec_caller_workload sec ≫= wi_client_id) in
          let aud := default "-" (sec_this_workload sec ≫= wi_client_id) in
          let? h := short_hash (sub +:+ ":" +:+ actor +:+ ":" +:+ aud) in
          Ok (Some (h, SrcIdentity))
      end
  end.

Definition resolve_session (x : Extensions Message) : result (option (string * SessionSource)) string :=
  let subject_id := subject_id_of x in
  tier subject_id (match x_agent x with Some a => ag_session_id Message (arc_val a) | None => None end) SrcAgent
    (tier subject_id
       (match x_security x ≫= sec_subject with Some subj => claim_str subj "session_id" | None => None end)
       SrcTokenClaim (identity_tier x)).
End Resolver.

(** ** The invoker ([cmf_invoker.rs]) *)

(** One hook family: its payload among the payloads of the executor, and what an [args:] or
    [result:] stage can read of it ([PayloadFields]). *)
Class PayloadFields `{Payloads} := {
  HPayload : Type;
  to_payload : HPayload -> Payload;
  (** [as_any().downcast_ref::<H::Payload>()]. *)
  downcast : Payload -> option HPayload;
  field_value : HPayload -> string -> DispatchPhase -> option json;
  downcast_to_payload : forall p, downcast (to_payload p) = Some p;
}.

Definition set_security {M} (x : Extensions M) (s : option SecurityExtension) : Extensions M :=
  mkExtensions (x_request x) (x_agent x) (x_http x) s (x_candidate_constraint x)
    (x_delegation x) (x_raw_credentials x) (x_mcp x) (x_completion x) (x_provenance x) (x_llm x)
    (x_llm_request x) (x_framework x) (x_meta x) (x_metadata x) (x_custom x) (x_http_write_token x)
    (x_labels_write_token x) (x_delegation_write_token x) (x_http_transport x) (x_effect_log x).

Definition set_transport {M} (x : Extensions M) (t : HttpTransportSlot) : Extensions M :=
  mkExtensions (x_request x) (x_agent x) (x_http x) (x_security x) (x_candidate_constraint x)
    (x_delegation x) (x_raw_credentials x) (x_mcp x) (x_completion x) (x_provenance x) (x_llm x)
    (x_llm_request x) (x_framework x) (x_meta x) (x_metadata x) (x_custom x) (x_http_write_token x)
    (x_labels_write_token x) (x_delegation_write_token x) t (x_effect_log x).

(** [SecurityExtension::add_label], for each of [labels]. *)
Definition add_labels (sec : SecurityExtension) (labels : list string) : SecurityExtension :=
  mkSecurity (fold_left add_label labels (sec_labels sec)) (sec_classification sec) (sec_subject sec)
    (sec_client sec) (sec_caller_workload sec) (sec_this_workload sec) (sec_auth_method sec)
    (sec_objects sec) (sec_data sec).

Definition snapshot_labels {M} (x : Extensions M) : gset string :=
  match x_security x with Some s => sec_labels s | None => ∅ end.

Definition hydrate_labels {M} (x : Extensions M) (labels : list string) : Extensions M :=
  set_security x (Some (add_labels (default SecurityExtension_default (x_security x)) labels)).

#[global] Instance TaintScope_eq_dec : EqDecision TaintScope.
Proof. solve_decision. Defined.

(** The labels of [after] that are not in [before], in the order [after] iterates. *)
Definition labels_beyond `{HashOrder} (before after : gset string) : list string :=
  List.filter (fun l => negb (bool_decide (l ∈ before))) (hash_elems after).

Section Invoker.
Context `{Platform, Digest, HashOrder, PayloadFields}.

Record Invoker : Type := mkInvoker {
  iv_extensions : Extensions Message;
  iv_payload : HPayload;
  iv_payload_modified : bool;
  iv_plan : RouteDispatchPlan;
  iv_session_id : option string;
  iv_initial_labels : gset string;
}.

Definition for_request `{SessionStore} (st : Store) (x : Extensions Message) (payload : HPayload)
    (plan : RouteDispatchPlan) : result Invoker SessionStoreError :=
  let? session := result_map_err (fun _ => Backend "session id hashing failed") (resolve_session x) in
  let session_id := fst <$> session in
  let? x :=
    match session_id with
    | None => Ok x
    | Some sid =>
        let? stored := load_labels st sid in
        Ok (if is_nil stored then x else hydrate_labels x stored)
    end in
  Ok (mkInvoker x payload false plan session_id (snapshot_labels x)).

(** [PolicyEngine::invoke_entries], without the audit record: no assertion contract is in
    force at a nested dispatch. *)
Definition with_host_services (en : RuntimeEngine) (x : Extensions Message) : Extensions Message :=
  match en_transport en with Some t => set_transport x (TransportAvailable t) | None => x end.

Definition invoke_entries (en : RuntimeEngine) (sched : schedule) (disabled : DisabledSet) (entries : list HookEntry)
    (payload : Payload) (x : Extensions Message) : PipelineResult * DisabledSet :=
  let x := if is_nil entries then x else with_host_services en x in
  let '(r, _, _, disabled) := execute_audited (en_executor en) sched disabled entries payload x None in
  (r, disabled).

Definition hook_phase (p : DispatchPhase) : HookPhase := match p with Pre => PhPre | Post => PhPost end.

Definition request_entity_type (x : Extensions Message) : option string :=
  match x_meta x with Some m => mt_entity_type (arc_val m) | None => None end.

(** The text lists the declared hooks in the order the map iterates; the model names the
    plugin and leaves the context out. *)
Definition no_hook_error (name : string) : Step.PluginError :=
  PlDispatch ("plugin '" +:+ name +:+ "' has no hook matching dispatch context").

(** [result.is_denied()]. *)
Definition outcome_decision (r : PipelineResult) : Decision :=
  if pp_continue_processing r then Allow
  else match pp_violation r with
       | Some v => Deny (Some (vi_reason v)) (vi_code v)
       | None => Deny None "policy.forbidden"
       end.

(** The payload a plugin handed back, if it is of this family. *)
Definition accepted_payload (r : PipelineResult) : option HPayload :=
  if pp_payload_modified r then pp_modified_payload r ≫= downcast else None.

(** The value of the addressed field, when the accepted payload holds another one than the
    payload held before the call. *)
Definition rewritten_field (invocation : PluginInvocation) (before modified : HPayload) : option json :=
  match invocation with
  | InvokeStep _ => None
  | InvokeField name _ phase =>
      match field_value modified name phase with
      | Some v => if is_some_and (fun b => json_eqb b v) (field_value before name phase) then None else Some v
      | None => None
      end
  end.

Definition invoke (en : RuntimeEngine) (hooks : HookRegistry) (sched : schedule) (plugin_name : string)
    (invocation : PluginInvocation) (iv : Invoker) (disabled : DisabledSet) :
    Invoker * DisabledSet * result PluginOutcome Step.PluginError :=
  match pl_plugins (iv_plan iv) !! plugin_name with
  | None => (iv, disabled, Err (PlNotFound plugin_name))
  | Some resolved =>
      match pick_entry hooks resolved (request_entity_type (iv_extensions iv)) (hook_phase (invocation_phase invocation)) with
      | None => (iv, disabled, Err (no_hook_error plugin_name))
      | Some entry =>
          let x := clone (iv_extensions iv) in
          let '(r, disabled) := invoke_entries en sched disabled [entry] (to_payload (iv_payload iv)) x in
          let payload := accepted_payload r in
          let modified_value := match payload with
                                | Some p => rewritten_field invocation (iv_payload iv) p
                                | None => None
                                end in
          let new_labels := match pp_modified_extensions r with
                            | Some x' => labels_beyond (snapshot_labels x) (snapshot_labels x')
                            | None => []
                            end in
          let x' := match pp_modified_extensions r with
                    | Some x' => retain_metadata_from x' (iv_extensions iv)
                    | None => iv_extensions iv
                    end in
          (mkInvoker x' (default (iv_payload iv) payload) (iv_payload_modified iv || is_some payload)
             (iv_plan iv) (iv_session_id iv) (iv_initial_labels iv),
           disabled,
           Ok (mkPluginOutcome (outcome_decision r) (map (fun l => mkTaint l [ScopeSession]) new_labels)
                 modified_value))
      end
  end.

Definition session_labels (taints : list TaintEvent) : list string :=
  map taint_label (List.filter (fun t => bool_decide (ScopeSession ∈ taint_scopes t)) taints).

Definition apply_session_taints (taints : list TaintEvent) (iv : Invoker) : Invoker :=
  match session_labels taints with
  | [] => iv
  | labels =>
      mkInvoker (hydrate_labels (iv_extensions iv) labels) (iv_payload iv) (iv_payload_modified iv)
        (iv_plan iv) (iv_session_id iv) (iv_initial_labels iv)
  end.

Definition persist_session `{SessionStore} (iv : Invoker) (st : Store) : Store * result unit SessionStoreError :=
  match iv_session_id iv, x_security (iv_extensions iv) with
  | Some sid, Some security =>
      match labels_beyond (iv_initial_labels iv) (sec_labels security) with
      | [] => (st, Ok tt)
      | new_labels => append_labels st sid new_labels
      end
  | _, _ => (st, Ok tt)
  end.
End Invoker.

(** ** The verdict of a request ([route_handler.rs]) *)

Definition ELICITATION_PENDING_CODE : Z := -32120.
Definition ELICITATION_APPROVED_CODE : Z := -32121.
Definition ELICITATION_UNAVAILABLE_CODE : Z := -32122.
Definition ELICITATION_ID_HEADER : string := "X-Policy-Elicitation-Id".
Definition ELICITATION_PEEK_HEADER : string := "X-Policy-Elicitation-Peek".
Definition STORE_UNAVAILABLE_CODE : string := "elicitation.store_unavailable".
Definition DETAIL_HTTP_STATUS : string := "http.status".
Definition DETAIL_HTTP_BODY : string := "http.body".
Definition DETAIL_HTTP_HEADERS : string := "http.headers".

Definition set_details (v : PluginViolation) (details : gmap string json) : PluginViolation :=
  mkViolation (vi_code v) (vi_reason v) (vi_description v) details (vi_plugin_name v) (vi_proto_error_code v).

Definition with_proto_error_code (v : PluginViolation) (code : Z) : PluginViolation :=
  mkViolation (vi_code v) (vi_reason v) (vi_description v) (vi_details v) (vi_plugin_name v) (Some code).

Definition insert_opt (key : string) (value : option json) (m : gmap string json) : gmap string json :=
  match value with Some v => <[key := v]> m | None => m end.

Section Verdict.
Context `{Platform, Digest, HashOrder, Chrono}.

(** [json!(headers)]. *)
Definition headers_json (headers : gmap string string) : json :=
  JObject (map (fun '(k, v) => (k, JString v)) (sorted_entries headers)).

Definition decorate_denial_response (violation : PluginViolation) (response : option DenyResponse) : PluginViolation :=
  match response with
  | None => violation
  | Some resp =>
      let d := vi_details violation in
      let d := insert_opt DETAIL_HTTP_STATUS ((fun s => JNumber (NInt s)) <$> dr_status resp) d in
      let d := insert_opt DETAIL_HTTP_BODY (JString <$> dr_body resp) d in
      let d := if bool_decide (dr_headers resp = ∅) then d
               else <[DETAIL_HTTP_HEADERS := headers_json (dr_headers resp)]> d in
      set_details violation d
  end.

(** [HttpExtension::get_request_header]. *)
Definition get_header_ci (headers : gmap string string) (name : string) : option string :=
  snd <$> List.find (fun '(k, _) => String.eqb (str_to_lowercase k) (str_to_lowercase name)) (hash_iter headers).

Definition request_header_of {Message} (x : Extensions Message) (name : string) : option string :=
  match x_http x with Some h => get_header_ci (ht_request_headers h) name | None => None end.

Definition elicitation_id_from_headers {Message} (x : Extensions Message) : option string :=
  match request_header_of x ELICITATION_ID_HEADER with
  | Some v => if String.eqb v "" then None else Some v
  | None => None
  end.

Definition elicitation_peek_from_headers {Message} (x : Extensions Message) : bool :=
  is_some_and (fun v => negb (String.eqb v "") && negb (eq_ignore_ascii_case v "false") && negb (String.eqb v "0"))
    (request_header_of x ELICITATION_PEEK_HEADER).

Definition unavailable_id {Message} (bag : AttributeBag) (x : Extensions Message) : option string :=
  match get_string bag EL_ID with Some id => Some id | None => elicitation_id_from_headers x end.

Definition unavailable_violation (reason : string) (id : option string) : PluginViolation :=
  set_details (with_proto_error_code (violation_new STORE_UNAVAILABLE_CODE reason) ELICITATION_UNAVAILABLE_CODE)
    (insert_opt "elicitation_id" (JString <$> id) ∅).

Definition approved_peek_violation (bag : AttributeBag) : PluginViolation :=
  set_details
    (with_proto_error_code
       (violation_new "elicitation.approved" "approved — confirm to apply (re-send without the peek header)")
       ELICITATION_APPROVED_CODE)
    (insert_opt "approver" (JString <$> get_string bag EL_APPROVER)
       (insert_opt "elicitation_id" (JString <$> get_string bag EL_ID) ∅)).

Definition pending_violation (p : PendingElicitation) : PluginViolation :=
  let d := <["plugin" := JString (Step.pe_plugin_name p)]> (<["elicitation_id" := JString (pe_id p)]> ∅) in
  let d := insert_opt "approver" (JString <$> pe_approver p) d in
  let d := insert_opt "channel" (JString <$> Step.pe_channel p) d in
  let d := insert_opt "expires_at" (JString <$> pe_expires_at p) d in
  let d := insert_opt "intent_id" (JString <$> pe_intent_id p) d in
  set_details
    (with_proto_error_code
       (violation_new "elicitation.pending"
          ("awaiting approval `" +:+ pe_id p +:+ "` via `" +:+ Step.pe_plugin_name p +:+ "` — retry with this id"))
       ELICITATION_PENDING_CODE) d.

(** [continue_processing] and [violation]. *)
Definition Settled : Type := bool * option PluginViolation.

(** What the policy decided. *)
Definition decided {Message} (response : option DenyResponse) (d : Decision) (bag : AttributeBag)
    (x : Extensions Message) : Settled :=
  match d with
  | Allow => (true, None)
  | Deny reason rule_source =>
      let code := if String.eqb rule_source "" then "policy.deny" else rule_source in
      let reason := default "access denied" reason in
      (false, Some (if String.eqb code STORE_UNAVAILABLE_CODE
                    then unavailable_violation reason (unavailable_id bag x)
                    else decorate_denial_response (violation_new code reason) response))
  end.

(** The four overrides, in the order of the code. *)
Definition suspend (pending : option PendingElicitation) (v : Settled) : Settled :=
  match pending with Some p => (false, Some (pending_violation p)) | None => v end.

Definition peek_only {Message} (bag : AttributeBag) (x : Extensions Message) (v : Settled) : Settled :=
  if v.1 && elicitation_peek_from_headers x
     && is_some_and (fun o => String.eqb o "approved") (get_string bag EL_OUTCOME)
  then (false, Some (approved_peek_violation bag)) else v.

Definition persist_failed (response : option DenyResponse) (persist : result unit SessionStoreError) (v : Settled) :
    Settled :=
  match persist with
  | Ok _ => v
  | Err _ =>
      if v.1
      then (false, Some (decorate_denial_response
                           (violation_new "session.persist_failed" "session state could not be persisted") response))
      else v
  end.

Definition restrict_conflict (conflict : option ConstraintConflict) (v : Settled) : Settled :=
  match conflict with
  | None => v
  | Some c => if v.1 then (false, Some (violation_new "policy.restrict_conflict" (conflict_display c))) else v
  end.

Definition settle {Message} (response : option DenyResponse) (d : RouteDecision) (bag : AttributeBag)
    (x : Extensions Message) (persist : result unit SessionStoreError) (conflict : option ConstraintConflict) :
    Settled :=
  restrict_conflict conflict
    (persist_failed response persist
       (peek_only bag x (suspend (rd_pending d) (decided response (rd_decision d) bag x)))).
End Verdict.

(** ** The two ends of a request

    [AplRouteHandler::evaluate] before and after the evaluation of the route: the invoker and
    the bag the policy reads, then the taints, the append and the verdict. What the message
    projects to ([args], [result]) is given; the payload handed back is not modelled. *)
Section Request.
Context `{Platform, Digest, HashOrder, Chrono, PayloadFields, SessionStore}.

Definition begin_request (st : Store) (route : CompiledRoute) (data : json) (phase : DispatchPhase)
    (args result : json) (x : Extensions Message) (payload : HPayload) (plan : RouteDispatchPlan) :
    Prelude.result (Invoker * AttributeBag) PluginViolation :=
  match for_request st (clone x) payload plan with
  | Err _ =>
      Err (decorate_denial_response (violation_new "session.load_failed" "session state could not be loaded")
             (response route))
  | Ok iv =>
      let post := clone (iv_extensions iv) in
      match with_extensions post bag_new with
      | Err _ =>
          Err (decorate_denial_response (violation_new CRYPTO_FAILED_CODE "the request could not be hashed")
                 (response route))
      | Ok bag =>
          let bag := with_data data (with_route_key (route_key route) bag) in
          let bag := match elicitation_id_from_headers post with
                     | Some id => bag_set bag EL_ID (AVString id)
                     | None => bag
                     end in
          let bag := with_args args bag in
          Ok (iv, match phase with Pre => bag | Post => with_result result bag end)
      end
  end.

(** [extensions_changed] compares the addresses of five slots, which the model does not keep:
    [changed] is its answer. *)
Definition modified_extensions (changed : bool) (folded : option CandidateConstraintExtension)
    (final : Extensions Message) : option (OwnedExtensions Message) :=
  let owned := cow_copy final in
  match folded with
  | Some c =>
      Some (mkOwned (o_request owned) (o_agent owned) (o_mcp owned) (o_completion owned) (o_provenance owned)
              (o_llm owned) (o_llm_request owned) (o_framework owned) (o_meta owned) (o_metadata owned)
              (o_raw_credentials owned) (o_http owned) (o_security owned) (Some c) (o_delegation owned)
              (o_custom owned) (o_http_write_token owned) (o_labels_write_token owned)
              (o_delegation_write_token owned))
  | None => if changed then Some owned else None
  end.

(** [post] are the extensions the bag was built from. *)
Definition finish_request (st : Store) (route : CompiledRoute) (post : Extensions Message) (changed : bool)
    (d : RouteDecision) (bag : AttributeBag) (iv : Invoker) :
    Store * Settled * option (OwnedExtensions Message) :=
  let iv := apply_session_taints (rd_taints d) iv in
  let '(folded, conflict) := match fold_candidate_constraints (rd_constraints d) with
                             | Ok folded => (folded, None)
                             | Err c => (None, Some c)
                             end in
  let '(st, persist) := persist_session iv st in
  (st, settle (response route) d bag post persist conflict,
   modified_extensions changed folded (clone (iv_extensions iv))).
End Request.
