(* ===== verification/RuntimeProps.v ===== *)
(** * Properties of the runtime bridge

    The registry keeps its two indexes in step; the plugins a parallel block may call write
    nothing a branch could lose; a route's handler holds exactly the capabilities its plugins
    need; the router refines "the host's resolver, else the last loaded one"; a plan is built
    once per generation. *)

From Stdlib Require Import Ascii String.
From S2P Require Import Prelude RustStr F64 Json Platform Attributes Rules Constraint Step Eval Effects.
From S2P Require Import StepParser Paths Host ExtData Plugin Extensions Executor ExtProps TierProps ExecutorProps.
From S2P Require Import Hooks Config Runtime Session.

(** ** The registry *)

Section Registry.
Context `{Payloads} `{HashOrder}.

(** Every entry of the index is of a registered plugin, under its own name, and carries the
    reference the name index has; entries are in order of priority; no hook is left empty. *)
Record registry_wf (rg : Registry) : Prop := {
  wf_named : forall n r, rg_plugins rg !! n = Some r -> pc_name (pr_trusted_config r) = n;
  wf_entry : forall hook es e, rg_hook_index rg !! hook = Some es -> e ∈ es ->
    rg_plugins rg !! he_name e = Some (he_ref e);
  wf_sorted : forall hook es, rg_hook_index rg !! hook = Some es -> Sorted by_priority es;
  wf_nonempty : forall hook es, rg_hook_index rg !! hook = Some es -> es <> [];
}.

Inductive registered (hooks : HookRegistry) : Registry -> Prop :=
| reg_new : registered hooks registry_new
| reg_register rg id config handlers rg' :
    registered hooks rg -> register_multi_handler hooks rg id config handlers = Ok rg' -> registered hooks rg'
| reg_unregister rg name rg' r :
    registered hooks rg -> unregister rg name = Some (rg', r) -> registered hooks rg'.

#[local] Instance by_priority_total : Total by_priority.
Proof. intros a b. unfold by_priority. lia. Qed.
#[local] Instance by_priority_trans : Transitive by_priority.
Proof. intros a b c. unfold by_priority. lia. Qed.

(** What pushing the handlers adds to a hook. *)
Definition offered_under (r : PluginRef) (hook : string) (handlers : list Offered) : list HookEntry :=
  flat_map (fun '(h, _, handler) => if String.eqb h hook then [mkEntry r handler] else []) handlers.

Lemma push_lookup r handlers index hook :
  default [] (fold_left (push_entry r) handlers index !! hook)
  = default [] (index !! hook) ++ offered_under r hook handlers.
Proof.
  revert index. induction handlers as [|[[h f] handler] hs IH]; intros index; simpl; [by rewrite app_nil_r|].
  rewrite IH. destruct (String.eqb_spec h hook) as [->|Hne].
  - rewrite lookup_insert_eq. simpl. by rewrite <- app_assoc.
  - by rewrite lookup_insert_ne.
Qed.

Lemma push_domain r handlers index hook es :
  fold_left (push_entry r) handlers index !! hook = Some es ->
  es = [] -> index !! hook = Some [].
Proof.
  revert index. induction handlers as [|[[h f] handler] hs IH]; intros index Hl ->; simpl in *; [done|].
  apply IH in Hl; [|done]. destruct (decide (h = hook)) as [->|Hne]; [|by rewrite lookup_insert_ne in Hl].
  rewrite lookup_insert_eq in Hl. simplify_eq. by destruct (default [] (index !! hook)).
Qed.


Definition hook_of (o : Offered) : string := o.1.1.

(** Sorting keeps a hook's entries and leaves the offered hooks sorted, the others as they are. *)
Lemma sort_lookup handlers index hook es :
  fold_left sort_hook handlers index !! hook = Some es ->
  exists es0, index !! hook = Some es0 /\ es ≡ₚ es0
    /\ (hook ∈ map hook_of handlers -> Sorted by_priority es)
    /\ (Sorted by_priority es0 -> Sorted by_priority es).
Proof.
  revert index. induction handlers as [|[[h f] handler] hs IH]; intros index Hl; simpl in *.
  { exists es. repeat split; auto. by intros ?%elem_of_nil. }
  apply IH in Hl as (es1 & H1 & Hp1 & Hs1 & Hk1).
  destruct (index !! h) as [es0|] eqn:E; simplify_eq/=.
  - destruct (decide (h = hook)) as [->|Hne].
    + rewrite lookup_insert_eq in H1. simplify_eq. exists es0.
      pose proof (Sorted_merge_sort by_priority es0). rewrite merge_sort_Permutation in Hp1.
      repeat split; auto.
    + rewrite lookup_insert_ne in H1 by done. exists es1. repeat split; auto.
      intros [?|?]%elem_of_cons; [by unfold hook_of in *; simplify_eq/=|auto].
  - exists es1. repeat split; auto.
    intros [?|?]%elem_of_cons; [by unfold hook_of in *; simplify_eq/=|auto].
Qed.

Lemma offered_elem r hook handlers e :
  e ∈ offered_under r hook handlers -> he_ref e = r /\ hook ∈ map hook_of handlers.
Proof.
  unfold offered_under. intros He%list_elem_of_In%in_flat_map. destruct He as ([[h f] handler] & Hin & He).
  destruct (String.eqb_spec h hook) as [->|]; [|by apply list_elem_of_In in He; set_solver].
  destruct He as [<-|[]]. split; [done|]. apply list_elem_of_fmap. exists (hook, f, handler).
  split; [done|]. by apply list_elem_of_In.
Qed.

Lemma offered_none r hook handlers : hook ∉ map hook_of handlers -> offered_under r hook handlers = [].
Proof.
  intros Hn. destruct (offered_under r hook handlers) as [|e l] eqn:E; [done|].
  destruct (offered_elem r hook handlers e); [rewrite E; set_solver|done].
Qed.

Lemma register_wf hooks rg id config handlers rg' :
  registry_wf rg -> register_multi_handler hooks rg id config handlers = Ok rg' -> registry_wf rg'.
Proof.
  intros Hwf. unfold register_multi_handler. case_bool_decide as Hnew; [done|].
  intros Hr. peel_ok Hr. injection Hr as <-. apply eq_None_not_Some in Hnew.
  set (r := mkRef id config).
  assert (Hix : forall hook es,
    fold_left sort_hook handlers (fold_left (push_entry r) handlers (rg_hook_index rg)) !! hook = Some es ->
    es ≡ₚ default [] (rg_hook_index rg !! hook) ++ offered_under r hook handlers /\ es <> []
    /\ Sorted by_priority es).
  { intros hook es (es0 & E0 & Hp & Hs & Hk)%sort_lookup.
    pose proof (push_lookup r handlers (rg_hook_index rg) hook) as Hl. rewrite E0 in Hl. simpl in Hl. rewrite <- Hl.
    repeat split; [done| |].
    - intros ->. apply Permutation_nil_l in Hp as Hn. subst es0.
      apply push_domain in E0; [|done]. by apply (wf_nonempty _ Hwf) in E0.
    - destruct (decide (hook ∈ map hook_of handlers)); [auto|]. apply Hk.
      rewrite Hl, offered_none, app_nil_r by done.
      destruct (rg_hook_index rg !! hook) eqn:E; [by eapply (wf_sorted _ Hwf)|constructor]. }
  split; simpl.
  - intros n r0. destruct (decide (n = pc_name config)) as [->|]; [rewrite lookup_insert_eq; intros; by simplify_eq|].
    rewrite lookup_insert_ne by done. apply (wf_named _ Hwf).
  - intros hook es e (Hp & _ & _)%Hix He. rewrite Hp in He. apply elem_of_app in He as [He|He].
    + destruct (rg_hook_index rg !! hook) as [es0|] eqn:E; [|set_solver].
      pose proof (wf_entry _ Hwf _ _ _ E He) as Hn. rewrite lookup_insert_ne; [done|]. intros Heq. congruence.
    + apply offered_elem in He as [Hr _]. unfold he_name, he_config. rewrite Hr. apply lookup_insert_eq.
  - intros hook es (_ & _ & ?)%Hix. done.
  - intros hook es (_ & ? & _)%Hix. done.
Qed.

Lemma unregister_wf rg name rg' r : registry_wf rg -> unregister rg name = Some (rg', r) -> registry_wf rg'.
Proof.
  intros Hwf. unfold unregister. destruct (rg_plugins rg !! name) as [r0|] eqn:Er; [|done]. intros [= <- <-].
  assert (Hix : forall hook es,
    filter (fun '(_, entries) => entries <> [])
      (List.filter (fun e => negb (String.eqb (he_name e) name)) <$> rg_hook_index rg) !! hook = Some es ->
    exists es0, rg_hook_index rg !! hook = Some es0 /\ es <> []
      /\ es = List.filter (fun e => negb (String.eqb (he_name e) name)) es0).
  { intros hook es Hl. apply map_lookup_filter_Some in Hl as [Hl Hne].
    rewrite lookup_fmap in Hl. destruct (rg_hook_index rg !! hook) as [es0|]; simplify_eq/=. by exists es0. }
  split; simpl.
  - intros n r1 [_ ?]%lookup_delete_Some. by apply (wf_named _ Hwf).
  - intros hook es e (es0 & E0 & _ & ->)%Hix [He Hne]%list_elem_of_In%filter_In.
    apply negb_true_iff, String.eqb_neq in Hne. rewrite lookup_delete_ne by done.
    eapply (wf_entry _ Hwf); [done|]. by apply list_elem_of_In.
  - intros hook es (es0 & E0 & _ & ->)%Hix. apply StronglySorted_Sorted.
    pose proof (wf_sorted _ Hwf _ _ E0) as Hs. apply Sorted_StronglySorted in Hs; [|exact by_priority_trans]. clear -Hs.
    induction Hs as [|a l Hs IH Hall]; simpl; [constructor|]. destruct (negb _); [|done]. constructor; [done|].
    apply list.Forall_forall. intros e He%list_elem_of_In%filter_In. rewrite list.Forall_forall in Hall.
    apply Hall, list_elem_of_In, He.
  - intros hook es (es0 & _ & ? & _)%Hix. done.
Qed.

Lemma registered_wf hooks rg : registered hooks rg -> registry_wf rg.
Proof.
  induction 1 as [|rg id config handlers rg' _ IH Hr|rg name rg' r _ IH Hr].
  - split; simpl; intros *; by rewrite ?lookup_empty.
  - by eapply register_wf.
  - by eapply unregister_wf.
Qed.
End Registry.

(** ** Parallel blocks *)

(** A call of plugin [n] that runs in a branch: [e] stands in a branch already when [b]. *)
Inductive in_branch (n : string) : bool -> Effect -> Prop :=
| ib_here : in_branch n true (EffPlugin n)
| ib_branch b es e : e ∈ es -> in_branch n true e -> in_branch n b (EffParallel es)
| ib_child b p e : e ∈ children p -> in_branch n b e -> in_branch n b p.

Lemma in_branch_deeper n b e : in_branch n b e -> in_branch n true e.
Proof.
  induction 1 as [|b es e He _ IH|b p e He _ IH]; [constructor|by eapply ib_branch|by eapply ib_child].
Qed.

Lemma can_modify_unsafe m : can_modify m = negb (is_safe_in_parallel m).
Proof. by destruct m. Qed.

Section Parallel.
Variable mode_for : string -> option PluginMode.

Definition harmless (n : string) : Prop := exists m, mode_for n = Some m /\ can_modify m = false.

Lemma check_plugin_mode_ok n location : check_plugin_mode mode_for n location = [] <-> harmless n.
Proof.
  unfold check_plugin_mode, harmless. destruct (mode_for n) as [m|]; [|split; [done|by intros (? & ? & _)]].
  setoid_rewrite can_modify_unsafe. destruct (is_safe_in_parallel m) eqn:E; simpl.
  - split; [|done]. intros _. exists m. by rewrite E.
  - split; [done|]. intros (m' & [= <-] & Hm). by rewrite E in Hm.
Qed.

Lemma flat_map_nil {A B} (f : A -> list B) l : flat_map f l = [] <-> forall a, a ∈ l -> f a = [].
Proof.
  induction l as [|a l IH]; simpl; [split; [by intros _ b ?%elem_of_nil|done]|].
  rewrite app_nil, IH. split.
  - intros [Ha Hl] b [->|Hb]%elem_of_cons; auto.
  - intros Hall. split; [|intros b Hb]; apply Hall; set_solver.
Qed.

Lemma walk_parallel_ok e location b :
  walk_parallel mode_for e location b = [] <-> forall n, in_branch n b e -> harmless n.
Proof.
  revert b. induction e as [e IH] using Effect_ind. intros b. rewrite Forall_forall in IH.
  (** A list of effects walked under the flag [b']. *)
  assert (Hl : forall b' l, (forall a, a ∈ l -> a ∈ children e) ->
    (flat_map (fun e => walk_parallel mode_for e location b') l = []
     <-> forall a n, a ∈ l -> in_branch n b' a -> harmless n)).
  { intros b' l Hsub. rewrite flat_map_nil. split.
    - intros Hf a n Ha Hn. by apply (proj1 (IH a (Hsub a Ha) b') (Hf a Ha)).
    - intros Hall a Ha. apply (IH a (Hsub a Ha) b'). intros n Hn. by eapply Hall. }
  assert (Hleaf : children e = [] -> (forall m, e <> EffPlugin m) -> forall n, ~ in_branch n b e).
  { intros Hc Hnp n Hn. inversion Hn as [|? es a Ha|? p a Ha]; subst; simpl in *; subst;
      [by eapply Hnp|set_solver|rewrite Hc in Ha; set_solver]. }
  destruct e as [| |n0| | | | | |es|es|c body s|call oa od]; simpl;
    try (split; [intros _ n Hn; by apply (Hleaf eq_refl) in Hn|done]).
  - destruct b.
    + rewrite check_plugin_mode_ok. split; [|intros Hh; apply Hh; constructor].
      intros Hh n Hn. inversion Hn; subst; [done|set_solver].
    + split; [|done]. intros _ n Hn. inversion Hn; subst. set_solver.
  - rewrite Hl by done. split.
    + intros Hall n Hn. inversion Hn; subst. eauto.
    + intros Hh a n Ha Hn. apply Hh. by eapply ib_child.
  - rewrite Hl by done. split.
    + intros Hall n Hn. inversion Hn; subst; [eauto|]. eapply Hall; [done|]. by eapply in_branch_deeper.
    + intros Hh a n Ha Hn. apply Hh. by eapply ib_branch.
  - rewrite Hl by done. split.
    + intros Hall n Hn. inversion Hn; subst. eauto.
    + intros Hh a n Ha Hn. apply Hh. by eapply ib_child.
  - rewrite app_nil, !Hl by (simpl; set_solver). split.
    + intros [H1 H2] n Hn. inversion Hn as [| |? p a Ha]; subst. simpl in *. apply elem_of_app in Ha as []; eauto.
    + intros Hh. split; intros a n Ha Hn; apply Hh; eapply ib_child; try done; simpl; set_solver.
Qed.

Lemma walk_phase_ok key phase idx es :
  walk_phase mode_for key phase idx es = [] <-> forall e n, e ∈ es -> in_branch n false e -> harmless n.
Proof.
  revert idx. induction es as [|e es IH]; intros idx; simpl; [set_solver|].
  rewrite app_nil, walk_parallel_ok, IH. set_solver.
Qed.

Lemma parallel_modes_exact route :
  validate_parallel_plugin_modes mode_for route = Ok tt
  <-> forall e n, e ∈ pre_invocation route ++ post_invocation route -> in_branch n false e -> harmless n.
Proof.
  unfold validate_parallel_plugin_modes.
  transitivity (walk_phase mode_for (route_key route) "pre_invocation" 0 (pre_invocation route)
    ++ walk_phase mode_for (route_key route) "post_invocation" 0 (post_invocation route) = []).
  - by destruct (_ ++ _).
  - rewrite app_nil, !walk_phase_ok. setoid_rewrite elem_of_app. naive_solver.
Qed.
End Parallel.

(** ** What a plan holds *)

Section PlanEntries.
Context `{Payloads} `{HashOrder}.

Lemma entries_for_plugin_elem rg name hook e :
  registry_wf rg -> (hook, e) ∈ entries_for_plugin rg name ->
  he_name e = name /\ registry_get rg name = Some (he_ref e).
Proof.
  intros Hwf. unfold entries_for_plugin. intros Hin%list_elem_of_In%in_flat_map.
  destruct Hin as ([h es] & Hh & He%in_map_iff). destruct He as (e' & [= -> ->] & [He Hn]%filter_In).
  apply String.eqb_eq in Hn as <-. split; [done|]. apply (wf_entry _ Hwf hook es); [|by apply list_elem_of_In].
  apply elem_of_map_to_list. rewrite <- (hash_iter_perm _ (rg_hook_index rg)). by apply list_elem_of_In.
Qed.

(** An entry with overrides runs in the mode the plugin is registered with. *)
Lemma override_mode en fresh name cfg caps oe hook e :
  registry_wf (en_registry en) -> (hook, e) ∈ build_override_entries en fresh name cfg caps oe ->
  exists r, registry_get (en_registry en) name = Some r
    /\ pc_mode (he_config e) = pc_mode (pr_trusted_config r).
Proof.
  intros Hwf. unfold build_override_entries.
  destruct (entries_for_plugin (en_registry en) name) as [|[h0 base] rest] eqn:E; [by intros ?%elem_of_nil|].
  destruct (entries_for_plugin_elem (en_registry en) name h0 base Hwf) as [_ Hb]; [rewrite E; set_solver|].
  destruct (is_none cfg && is_none caps && is_none oe).
  { intros Hin. rewrite <- E in Hin. destruct (entries_for_plugin_elem _ _ _ _ Hwf Hin) as [_ Hr]. by eexists. }
  intros Hin. exists (he_ref base). split; [done|].
  destruct cfg as [c|].
  - destruct (en_create _ _ _ _) as [hs|]; [|set_solver].
    apply list_elem_of_fmap in Hin as ([? ?] & [= -> ->] & _). done.
  - change ((hook, e) ∈ map (fun '(hook, e) => (hook, mkEntry (mkRef fresh
      (mkConfig (pc_name (he_config base)) (pc_mode (he_config base))
         (default (pc_on_error (he_config base)) oe) (default (pc_capabilities (he_config base)) caps)
         (pc_priority (he_config base)))) (he_handler e))) ((h0, base) :: rest)) in Hin.
    apply list_elem_of_fmap in Hin as ([? ?] & [= -> ->] & _). done.
Qed.

Lemma by_hook_elem entries hook e : by_hook entries !! hook = Some e -> (hook, e) ∈ entries.
Proof.
  unfold by_hook. intros Hl.
  assert (Hg : forall es (m : gmap string HookEntry), fold_left (fun m '(hook, e) => <[hook := e]> m) es m !! hook = Some e ->
    (hook, e) ∈ es \/ m !! hook = Some e).
  { induction es as [|[h0 e0] es IH]; intros m Hm; simpl in *; [by right|].
    apply IH in Hm as [?|Hm]; [left; set_solver|].
    destruct (decide (h0 = hook)) as [->|]; [rewrite lookup_insert_eq in Hm; simplify_eq; left; set_solver|].
    rewrite lookup_insert_ne in Hm by done. by right. }
  apply Hg in Hl as [?|?]; [done|by simplify_map_eq].
Qed.

(** What the calls of a build return: the entries each plugin of a plan holds are those one
    of its calls returned. *)
Definition from_calls (engines : nat -> RuntimeEngine) (fresh : Uuid) (plugins : gmap string RoutePluginEntry) : Prop :=
  forall name p hook e, plugins !! name = Some p -> rpe_entries_by_hook p !! hook = Some e ->
    exists k cfg caps oe, (hook, e) ∈ build_override_entries (engines k) (fresh + N.of_nat k)%N name cfg caps oe.

Lemma plan_plugin_calls engines fresh route registry acc name :
  from_calls engines fresh acc.1 -> from_calls engines fresh (plan_plugin engines fresh route registry acc name).1.
Proof.
  intros Hf. unfold plan_plugin. destruct acc as [plugins k]. simpl in Hf.
  destruct (resolve_effective _ _ _) as [eff|]; [|done].
  destruct (build_override_entries _ _ _ _ _ _) as [|a l] eqn:E; [done|].
  intros n p hook e. cbn [fst]. destruct (decide (n = name)) as [->|Hne].
  - rewrite lookup_insert_eq. intros [= <-] Hh%by_hook_elem. rewrite <- E in Hh. by eexists _, _, _, _.
  - rewrite lookup_insert_ne by done. apply Hf.
Qed.

Lemma build_plan_plugins engines fresh route registry :
  pl_plugins (build_plan engines fresh route registry)
  = (fold_left (plan_plugin engines fresh route registry) (collect_plugin_names route) (∅, 0)).1.
Proof. unfold build_plan. by destruct (fold_left (plan_plugin _ _ _ _) _ _), (fold_left _ _ _), (fold_left _ _ _). Qed.

Lemma build_plan_calls engines fresh route registry :
  from_calls engines fresh (pl_plugins (build_plan engines fresh route registry)).
Proof.
  rewrite build_plan_plugins.
  assert (Hf : from_calls engines fresh (∅ : gmap string RoutePluginEntry, 0).1) by (by intros ?????).
  revert Hf. generalize (∅ : gmap string RoutePluginEntry, 0). induction (collect_plugin_names route) as [|n ns IH];
    intros acc Hf; simpl; [done|]. by apply IH, plan_plugin_calls.
Qed.

(** A build looks at the engines of its [plan_calls] calls and no other. *)
Lemma plan_plugins_ext engines engines' fresh route registry names : forall acc,
  let made := length (List.filter (fun n => is_some (resolve_effective n registry (plugin_overrides route))) names) in
  (forall k, acc.2 <= k < acc.2 + made -> engines k = engines' k) ->
  fold_left (plan_plugin engines fresh route registry) names acc
  = fold_left (plan_plugin engines' fresh route registry) names acc
  /\ (fold_left (plan_plugin engines fresh route registry) names acc).2 = acc.2 + made.
Proof.
  induction names as [|n names IH]; intros [plugins k] made Hk; cbn [fold_left snd] in *; [split; [done|unfold made; simpl; lia]|].
  subst made. cbn [List.filter] in *.
  destruct (is_some (resolve_effective n registry (plugin_overrides route))) eqn:Er.
  - assert (plan_plugin engines fresh route registry (plugins, k) n = plan_plugin engines' fresh route registry (plugins, k) n)
      as <- by (unfold plan_plugin; rewrite (Hk k) by (simpl; lia); done).
    assert ((plan_plugin engines fresh route registry (plugins, k) n).2 = S k) as En
      by (unfold plan_plugin; destruct (resolve_effective _ _ _); [|done]; by destruct (build_override_entries _ _ _ _ _ _)).
    destruct (plan_plugin _ _ _ _ _ _) as [m k1]. cbn in En. subst k1. destruct (IH (m, S k)) as [E L].
    { intros j Hj. apply Hk. simpl in *. lia. }
    split; [done|]. rewrite L. simpl. lia.
  - assert (forall es, plan_plugin es fresh route registry (plugins, k) n = (plugins, k)) as Hsame
      by (intros es; unfold plan_plugin; by destruct (resolve_effective _ _ _)).
    rewrite !Hsame. by apply IH.
Qed.

Lemma plan_family_ext engines engines' fresh hook names : forall acc,
  (forall k, acc.2 <= k < acc.2 + length names -> engines k = engines' k) ->
  fold_left (plan_family engines fresh hook) names acc = fold_left (plan_family engines' fresh hook) names acc
  /\ (fold_left (plan_family engines fresh hook) names acc).2 = acc.2 + length names.
Proof.
  induction names as [|n names IH]; intros [m k] Hk; cbn [fold_left length snd] in *; [split; [done|lia]|].
  assert (plan_family engines fresh hook (m, k) n = plan_family engines' fresh hook (m, k) n)
    as <- by (unfold plan_family; rewrite (Hk k) by lia; done).
  assert ((plan_family engines fresh hook (m, k) n).2 = S k) as En
    by (unfold plan_family; by destruct (List.find _ _) as [[]|]).
  destruct (plan_family _ _ _ _ _) as [m' k1]. cbn in En. subst k1. destruct (IH (m', S k)) as [E L].
  { intros j Hj. apply Hk. simpl in *. lia. }
  split; [done|]. rewrite L. simpl. lia.
Qed.

Lemma build_plan_ext engines engines' fresh route registry :
  (forall k, k < plan_calls route registry -> engines k = engines' k) ->
  build_plan engines fresh route registry = build_plan engines' fresh route registry.
Proof.
  unfold plan_calls, build_plan. intros Hk.
  destruct (plan_plugins_ext engines engines' fresh route registry (collect_plugin_names route) (∅, 0)) as [E1 L1].
  { intros k Hj. apply Hk. simpl in Hj. lia. }
  rewrite <- E1. destruct (fold_left (plan_plugin _ _ _ _) _ _) as [plugins k1]. cbn [snd] in L1.
  destruct (plan_family_ext engines engines' fresh HOOK_TOKEN_DELEGATE (collect_delegate_plugin_names route) (∅, k1)) as [E2 L2].
  { intros k Hj. apply Hk. simpl in Hj. lia. }
  rewrite <- E2. destruct (fold_left (plan_family _ _ HOOK_TOKEN_DELEGATE) _ _) as [ds k2]. cbn [snd] in L2.
  destruct (plan_family_ext engines engines' fresh HOOK_ELICIT (collect_elicit_plugin_names route) (∅, k2)) as [E3 L3].
  { intros k Hj. apply Hk. simpl in Hj. lia. }
  by rewrite <- E3.
Qed.

(** Every entry of a plan's plugin runs in its registered mode. *)
Lemma build_plan_faithful en fresh route registry name p hook e :
  registry_wf (en_registry en) ->
  pl_plugins (build_plan (fun _ => en) fresh route registry) !! name = Some p -> rpe_entries_by_hook p !! hook = Some e ->
  exists r, registry_get (en_registry en) name = Some r /\ pc_mode (he_config e) = pc_mode (pr_trusted_config r).
Proof.
  intros Hwf Hp Hh. destruct (build_plan_calls _ _ _ _ _ _ _ _ Hp Hh) as (k & cfg & caps & oe & Hin). by eapply override_mode.
Qed.

Lemma pick_entry_elem hooks p et ph e :
  pick_entry hooks p et ph = Some e -> exists hook, rpe_entries_by_hook p !! hook = Some e.
Proof.
  unfold pick_entry. destruct (List.find _ _) as [[h e']|] eqn:Hf; [|done]. intros [= <-].
  apply find_some in Hf as [Hin _]. exists h. apply elem_of_map_to_list.
  rewrite <- (hash_iter_perm _ (rpe_entries_by_hook p)). by apply list_elem_of_In.
Qed.
End PlanEntries.

Section ParallelCalls.
Context `{Platform, Digest, HashOrder, PayloadFields}.

Lemma execute_fst cfg sched disabled es payload x table :
  (execute_audited cfg sched disabled es payload x table).1.1.1 = (execute cfg sched disabled es payload x table).1.
Proof. unfold execute. by destruct (execute_audited _ _ _ _ _ _ _) as [[[] ] ]. Qed.

Lemma invoke_entries_fst en sched disabled es payload x :
  (invoke_entries en sched disabled es payload x).1
  = (execute (en_executor en) sched disabled es payload (if is_nil es then x else with_host_services en x) None).1.
Proof.
  unfold invoke_entries. rewrite <- execute_fst. by destruct (execute_audited _ _ _ _ _ _ _) as [[[] ] ].
Qed.

Lemma safe_entry_no_modifier disabled e :
  can_modify (pc_mode (he_config e)) = false -> modifiers disabled [e] = [].
Proof.
  intros Hm. unfold modifiers, entries_of. simpl. unfold mode. fold (he_config e).
  destruct (bool_decide (pr_id (he_ref e) ∈ disabled)); destruct (pc_mode (he_config e)); done.
Qed.

Lemma restored_clone (en : RuntimeEngine) (x : Extensions Message) :
  clone (retain_metadata_from (with_host_services en (clone x)) x) = clone x.
Proof. unfold with_host_services. by destruct x, (en_transport en). Qed.

Lemma hash_elems_elem s l : l ∈ hash_elems s <-> l ∈ s.
Proof.
  unfold hash_elems. rewrite list_elem_of_fmap. split.
  - intros ([l' []] & -> & Hl). rewrite hash_iter_perm in Hl.
    apply elem_of_map_to_list, lookup_gset_to_gmap_Some in Hl. by destruct Hl.
  - intros Hl. exists (l, tt). split; [done|]. rewrite hash_iter_perm.
    by apply elem_of_map_to_list, lookup_gset_to_gmap_Some.
Qed.

Lemma labels_beyond_elem before after l : l ∈ labels_beyond before after <-> l ∈ after /\ l ∉ before.
Proof.
  unfold labels_beyond. rewrite list_elem_of_In, filter_In, <- list_elem_of_In, hash_elems_elem.
  rewrite negb_true_iff, bool_decide_eq_false. done.
Qed.

Lemma no_new_labels (en : RuntimeEngine) (x : Extensions Message) :
  labels_beyond (snapshot_labels (clone x)) (snapshot_labels (with_host_services en (clone x))) = [].
Proof.
  replace (snapshot_labels (with_host_services en (clone x))) with (snapshot_labels (clone x))
    by (unfold with_host_services; by destruct (en_transport en)).
  destruct (labels_beyond _ _) as [|l ls] eqn:E; [done|].
  destruct (proj1 (labels_beyond_elem (snapshot_labels (clone x)) (snapshot_labels (clone x)) l)); [|done].
  rewrite E. left.
Qed.

(** Claim C8. [parallel_calls_write_nothing]: in a route the mode check accepted, a plugin that
    a [parallel:] block calls, however deeply nested and whatever override the route gives
    it, leaves the request as it found it: the payload, the modification flag and every
    extension slot are unchanged, and it reports no taint and no rewritten field. *)
Theorem parallel_calls_write_nothing en hooks sched fresh route registry e name invocation iv disabled iv' disabled' r :
  registered hooks (en_registry en) ->
  validate_parallel_plugin_modes (engine_mode_for en ∅) route = Ok tt ->
  e ∈ pre_invocation route ++ post_invocation route -> in_branch name false e ->
  iv_plan iv = build_plan (fun _ => en) fresh route registry ->
  invoke en hooks sched name invocation iv disabled = (iv', disabled', r) ->
  iv_payload iv' = iv_payload iv /\ iv_payload_modified iv' = iv_payload_modified iv
  /\ clone (iv_extensions iv') = clone (iv_extensions iv)
  /\ forall o, r = Ok o -> po_taints o = [] /\ po_modified_value o = None.
Proof.
  intros Hreg%registered_wf Hv He Hb Hplan. unfold invoke.
  destruct (pl_plugins (iv_plan iv) !! name) as [p|] eqn:Ep; [|intros [= <- <- <-]; by repeat split].
  destruct (pick_entry _ _ _ _) as [entry|] eqn:Epick; [|intros [= <- <- <-]; by repeat split].
  rewrite Hplan in Ep. destruct (pick_entry_elem _ _ _ _ _ Epick) as [hook Hh].
  destruct (build_plan_faithful en fresh route registry _ _ _ _ Hreg Ep Hh) as (ref & Hg & Hm).
  destruct (proj1 (parallel_modes_exact _ _) Hv e name He Hb) as (m & Hmf & Hsafe).
  unfold engine_mode_for in Hmf. rewrite Hg in Hmf. injection Hmf as <-.
  unfold mode in Hsafe. rewrite bool_decide_eq_false_2 in Hsafe by set_solver. rewrite <- Hm in Hsafe.
  pose proof (invoke_entries_fst en sched disabled [entry] (to_payload (iv_payload iv)) (clone (iv_extensions iv))) as Hfst.
  pose proof (pipeline_readonly (en_executor en) sched disabled [entry] (to_payload (iv_payload iv))
    (with_host_services en (clone (iv_extensions iv))) None (safe_entry_no_modifier disabled entry Hsafe)) as (Hpm & Hx & _).
  destruct (invoke_entries _ _ _ _ _ _) as [res dis]. cbn [fst is_nil] in Hfst. rewrite <- Hfst in Hpm, Hx.
  unfold accepted_payload. rewrite Hpm, Hx. intros [= <- <- <-]. cbn [iv_payload iv_payload_modified iv_extensions].
  split_and!; [done|by destruct (iv_payload_modified iv)|apply restored_clone|].
  intros o [= <-]. cbn. by rewrite no_new_labels.
Qed.
End ParallelCalls.

(** ** Concrete requests *)

(** The payload is a string, which is also what a field stage reads. *)
Definition string_fields : @PayloadFields string_payloads.
Proof.
  refine (@Build_PayloadFields string_payloads string (fun s => s) (fun s => Some s)
    (fun s _ _ => Some (JString s)) _). done.
Defined.

(** A plugin that answers every call with another payload, registered in [mode]. *)
Definition w_rewrite : @Handler string_payloads :=
  fun _ _ ctx => @mkInvocation string_payloads
    (HOk (Some (@mkErased string_payloads true (Some "rewritten") None None))) ctx 0%Z None.

Definition w_rewriter (mode : PluginMode) : result (@Registry string_payloads) string :=
  @register_multi_handler string_payloads ∅ (@registry_new string_payloads) 7%N
    (mkConfig "scan" mode OeFail ∅ 10%Z) [("cmf.tool_pre_invoke", "cmf", w_rewrite)].

Definition w_engine (rg : @Registry string_payloads) : @RuntimeEngine string_payloads :=
  @mkRuntimeEngine string_payloads rg (fun _ _ _ => None) w_cfg (Some 3%N).

Definition w_route : CompiledRoute :=
  mkRoute "tool:pay" [] [EffParallel [EffSequential [EffPlugin "scan"]; EffAllow]] [] [] ∅ None.

Definition w_declared : PluginRegistry :=
  {["scan" := mkDeclaration "scan" "native" ["cmf.tool_pre_invoke"] [] None None]}.

Definition w_registry (mode : PluginMode) : @Registry string_payloads :=
  match w_rewriter mode with Ok rg => rg | Err _ => @registry_new string_payloads end.

Definition w_invoker (mode : PluginMode) : @Invoker string_payloads string_fields :=
  @mkInvoker string_payloads string_fields Extensions_default "body" false
    (@build_plan string_payloads map_order (fun _ => w_engine (w_registry mode)) 100%N w_route w_declared) None ∅.

Definition w_invoke (mode : PluginMode) :=
  @invoke map_order string_payloads string_fields (w_engine (w_registry mode)) ∅ (fun _ => (0, false)) "scan"
    (InvokeStep Pre) (w_invoker mode) ∅.

(** The same plugin in a mode that may modify does rewrite the payload, and the check refuses it. *)
Example sequential_call_rewrites : iv_payload (w_invoke Sequential).1.1 = "rewritten".
Proof. by vm_compute. Qed.

Example sequential_call_refused :
  validate_parallel_plugin_modes (engine_mode_for (w_engine (w_registry Sequential)) ∅) w_route <> Ok tt.
Proof. by vm_compute. Qed.

Lemma parallel_calls_write_nothing_witness :
  iv_payload (w_invoke Concurrent).1.1 = iv_payload (w_invoker Concurrent)
  /\ iv_payload (w_invoker Concurrent) = "body" /\ result_is_ok (w_invoke Concurrent).2 = true.
Proof.
  split; [|by vm_compute].
  eapply (parallel_calls_write_nothing (w_engine (w_registry Concurrent)) ∅ (fun _ => (0, false)) 100%N w_route
    w_declared (EffParallel [EffSequential [EffPlugin "scan"]; EffAllow]) "scan" (InvokeStep Pre)
    (w_invoker Concurrent) ∅ _ (w_invoke Concurrent).1.2 (w_invoke Concurrent).2).
  - apply (reg_register _ (@registry_new string_payloads) 7%N (mkConfig "scan" Concurrent OeFail ∅ 10%Z)
      [("cmf.tool_pre_invoke", "cmf", w_rewrite)]); [constructor|by vm_compute].
  - by vm_compute.
  - left.
  - eapply ib_branch; [left|]. eapply ib_child; [left|]. constructor.
  - reflexivity.
  - fold (w_invoke Concurrent). by destruct (w_invoke Concurrent) as [[] ].
Defined.

(** ** The router *)

Inductive RouterOp : Type :=
| OpRegister (r : PdpResolver)
| OpReplace (r : PdpResolver)
| OpLoad (resolvers : gmap PdpDialect PdpResolver).

Definition router_step (r : PdpRouter) (op : RouterOp) : PdpRouter :=
  match op with
  | OpRegister x => router_register r x
  | OpReplace x => router_replace r x
  | OpLoad m => set_config_resolvers r m
  end.

(** The specification: what the host registered, and the set the last load brought. *)
Definition router_spec (s : gmap PdpDialect PdpResolver * gmap PdpDialect PdpResolver) (op : RouterOp) :
    gmap PdpDialect PdpResolver * gmap PdpDialect PdpResolver :=
  match op with
  | OpRegister x => (match s.1 !! re_dialect x with Some _ => s.1 | None => <[re_dialect x := x]> s.1 end, s.2)
  | OpReplace x => (<[re_dialect x := x]> s.1, s.2)
  | OpLoad m => (s.1, m)
  end.

(** The config set is the loaded one without what the host owns. *)
Definition router_rel (s : gmap PdpDialect PdpResolver * gmap PdpDialect PdpResolver) (r : PdpRouter) : Prop :=
  ro_code r = s.1 /\ forall d, ro_config r !! d = match s.1 !! d with Some _ => None | None => s.2 !! d end.

Lemma router_step_rel s r op : router_rel s r -> router_rel (router_spec s op) (router_step r op).
Proof.
  intros [Hc Hd].
  assert (Hins : forall x, router_rel (<[re_dialect x := x]> s.1, s.2) (router_replace r x)).
  { intros x. split; simpl; [by rewrite Hc|]. intros d. destruct (decide (re_dialect x = d)) as [<-|Hne].
    - by rewrite lookup_delete_eq, lookup_insert_eq.
    - by rewrite lookup_delete_ne, lookup_insert_ne. }
  destruct op as [x|x|m]; simpl; [|apply Hins|].
  - unfold router_register, has_code_resolver. rewrite Hc. destruct (s.1 !! re_dialect x) eqn:E.
    + rewrite bool_decide_eq_true_2 by done. done.
    + rewrite bool_decide_eq_false_2 by (by intros [? [=]]).
      pose proof (Hins x) as Hx. unfold router_replace in Hx. by rewrite Hc in Hx.
  - split; simpl; [done|]. intros d. rewrite Hc. destruct (s.1 !! d) eqn:E.
    + apply map_lookup_filter_None. right. simpl. congruence.
    + destruct (m !! d) eqn:Em; [by apply map_lookup_filter_Some|].
      apply map_lookup_filter_None. by left.
Qed.

(** [router_refines]: after any registrations, replacements and configuration loads, the
    decision-point router dispatches a call to the resolver the host owns for its dialect,
    else to the one the last load brought, else fails with [NoResolver]; a resolver of an
    earlier load that the last one dropped is never called; and [len] counts the dialects it
    can dispatch. *)
Theorem router_refines ops call bag :
  let r := fold_left router_step ops router_new in
  let s := fold_left router_spec ops (∅, ∅) in
  router_evaluate r call bag
    = match s.1 !! pdp_dialect call with
      | Some x => re_evaluate x call bag
      | None => match s.2 !! pdp_dialect call with
                | Some x => re_evaluate x call bag
                | None => Err (PdpNoResolver (pdp_dialect call))
                end
      end
  /\ router_len r = size (dom s.1 ∪ dom s.2).
Proof.
  simpl. assert (Hr : router_rel (fold_left router_spec ops (∅, ∅)) (fold_left router_step ops router_new)).
  { assert (H0 : router_rel (∅, ∅) router_new) by (split; [done|]; intros d; simpl; by rewrite !lookup_empty).
    revert H0. generalize router_new, ((∅, ∅) : gmap PdpDialect PdpResolver * gmap PdpDialect PdpResolver).
    induction ops as [|op ops IH]; intros r s Hrel; simpl; [done|]. by apply IH, router_step_rel. }
  destruct Hr as [Hc Hd]. split.
  - unfold router_evaluate, router_resolver. rewrite Hc, Hd.
    destruct ((fold_left router_spec ops (∅, ∅)).1 !! pdp_dialect call); [done|].
    by destruct ((fold_left router_spec ops (∅, ∅)).2 !! pdp_dialect call).
  - unfold router_len. rewrite <- !size_dom, <- size_union.
    + f_equal. rewrite Hc. apply set_eq. intros d. rewrite !elem_of_union, !elem_of_dom, Hd.
      destruct ((fold_left router_spec ops (∅, ∅)).1 !! d); [|done]. unfold is_Some. naive_solver.
    + intros d. rewrite !elem_of_dom, Hd, Hc. intros [x ->] [y [=]].
Qed.

(** ** The capabilities of a route's handler *)

(** [x] is [e] or stands somewhere inside it. *)
Inductive within (x : Effect) : Effect -> Prop :=
| within_here : within x x
| within_child e c : c ∈ children e -> within x c -> within x e.

Lemma visit_order_within x e : x ∈ visit_order e <-> within x e.
Proof.
  induction e as [e IH] using Effect_ind. rewrite Forall_forall in IH.
  assert (Hl : forall l, (forall a, a ∈ l -> a ∈ children e) ->
    (x ∈ flat_map visit_order l <-> exists a, a ∈ l /\ within x a)).
  { intros l Hs. rewrite list_elem_of_In, in_flat_map. setoid_rewrite <- list_elem_of_In.
    split; intros (a & Ha & Hx); exists a; (split; [done|]); by apply (IH a (Hs a Ha)). }
  transitivity (x = e \/ exists a, a ∈ children e /\ within x a).
  - destruct e; simpl; rewrite elem_of_cons;
      try (rewrite Hl by (simpl; set_solver); done); try (rewrite elem_of_nil; set_solver).
    rewrite elem_of_app, !Hl by (simpl; set_solver). setoid_rewrite elem_of_app. naive_solver.
  - split; [intros [->|(a & Ha & Hx)]; [constructor|by eapply within_child]|].
    intros Hw. inversion Hw; subst; eauto.
Qed.

(** What a walk with [note] collects. *)
Lemma note_fold {A} (f : A -> option string) (l : list A) s :
  (forall n, n ∈ s.1 <-> n ∈ s.2) ->
  let s' := fold_left (fun s a => match f a with Some n => note n s | None => s end) l s in
  (forall n, n ∈ s'.1 <-> n ∈ s'.2) /\ forall n, n ∈ s'.1 <-> n ∈ s.1 \/ exists a, a ∈ l /\ f a = Some n.
Proof.
  revert s. induction l as [|a l IH]; intros s Hs; simpl; [split; [done|set_solver]|].
  destruct (f a) as [n0|] eqn:E.
  - assert (Hn : (forall n, n ∈ (note n0 s).1 <-> n ∈ (note n0 s).2)
      /\ forall n, n ∈ (note n0 s).1 <-> n ∈ s.1 \/ n = n0).
    { unfold note. case_bool_decide as Hin; [|simpl; set_solver]. split; [done|]. rewrite <- Hs in Hin. set_solver. }
    destruct Hn as [H1 H2]. destruct (IH _ H1) as [H3 H4]. split; [done|]. intros n. rewrite H4, H2.
    setoid_rewrite elem_of_cons. split; [intros [[?| ->]|(b & ? & ?)]; eauto|].
    intros [?|(b & [->|?] & Hb)]; [eauto| |eauto]. left; right. congruence.
  - destruct (IH s Hs) as [H3 H4]. split; [done|]. intros n. rewrite H4. setoid_rewrite elem_of_cons.
    split; [intros [?|(b & ? & ?)]; eauto|]. intros [?|(b & [->|?] & Hb)]; [eauto|congruence|eauto].
Qed.

Lemma fold_left_ext {A S} (f g : S -> A -> S) l s : (forall s a, f s a = g s a) -> fold_left f l s = fold_left g l s.
Proof. intros Hfg. revert s. induction l as [|a l IH]; intros s; simpl; [done|]. by rewrite Hfg. Qed.

(** An effect of the route, at any depth. *)
Definition reached (route : CompiledRoute) (x : Effect) : Prop :=
  exists e, e ∈ pre_invocation route ++ post_invocation route /\ within x e.

Definition in_step (s : Names) : Prop := forall n, n ∈ s.1 <-> n ∈ s.2.

Lemma walk_route_elem visit (f : Effect -> option string) route :
  (forall s e, visit s e = match f e with Some n => note n s | None => s end) ->
  in_step (walk_route visit route)
  /\ forall n, n ∈ (walk_route visit route).1 <-> exists x, reached route x /\ f x = Some n.
Proof.
  intros Hv. unfold walk_route, walk_tree. rewrite !(fold_left_ext _ _ _ _ Hv), <- fold_left_app, <- flat_map_app.
  destruct (note_fold f (flat_map visit_order (pre_invocation route ++ post_invocation route)) no_names) as [H1 H2];
    [intros n; simpl; set_solver|].
  split; [exact H1|]. intros n. rewrite H2. split.
  - intros [?%elem_of_nil|(x & Hx & Hf)]; [done|]. exists x. split; [|done].
    apply list_elem_of_In, in_flat_map in Hx as (e & He & Hx). exists e.
    by rewrite list_elem_of_In, <- visit_order_within, list_elem_of_In.
  - intros (x & (e & He & Hx) & Hf). right. exists x. split; [|done].
    apply list_elem_of_In, in_flat_map. exists e. rewrite <- !list_elem_of_In. by rewrite visit_order_within.
Qed.

(** The plugin a pipeline stage, or an effect, calls. *)
Definition stage_calls (st : Stage) : option string := match st with StPlugin n => Some n | _ => None end.
Definition plugin_calls (e : Effect) : option string := match e with EffPlugin n => Some n | _ => None end.
Definition delegate_calls (e : Effect) : option string :=
  match e with EffDelegate ds => Some (dg_plugin_name ds) | _ => None end.
Definition elicit_calls (e : Effect) : option string :=
  match e with EffElicit es => Some (el_plugin_name es) | _ => None end.

(** The plugins a route can call: by an effect at any depth, or by a stage of a field pipeline. *)
Inductive route_calls (route : CompiledRoute) (n : string) : Prop :=
| rc_effect x : reached route x ->
    plugin_calls x = Some n \/ delegate_calls x = Some n \/ elicit_calls x = Some n -> route_calls route n
| rc_stage fr st : fr ∈ rt_args route ++ rt_result route -> st ∈ stages (fr_pipeline fr) ->
    stage_calls st = Some n -> route_calls route n.

Lemma note_stages_elem frs s :
  in_step s ->
  forall n, n ∈ (fold_left note_stages frs s).1
    <-> n ∈ s.1 \/ exists fr st, fr ∈ frs /\ st ∈ stages (fr_pipeline fr) /\ stage_calls st = Some n.
Proof.
  revert s. induction frs as [|fr frs IH]; intros s Hs n; simpl; [set_solver|].
  assert (Hf : note_stages s fr = fold_left (fun s st => match stage_calls st with Some n => note n s | None => s end)
    (stages (fr_pipeline fr)) s) by (apply fold_left_ext; by intros ? []).
  destruct (note_fold stage_calls (stages (fr_pipeline fr)) s Hs) as [H1 H2].
  rewrite Hf, (IH _ H1), H2. setoid_rewrite elem_of_cons. naive_solver.
Qed.

Lemma collect_plugin_names_elem route n :
  n ∈ collect_plugin_names route <-> (exists x, reached route x /\ plugin_calls x = Some n)
    \/ exists fr st, fr ∈ rt_args route ++ rt_result route /\ st ∈ stages (fr_pipeline fr) /\ stage_calls st = Some n.
Proof.
  unfold collect_plugin_names.
  destruct (walk_route_elem (fun s e => match e with EffPlugin name => note name s | _ => s end) plugin_calls route)
    as [H1 H2]; [by intros ? []|].
  rewrite note_stages_elem by done. by rewrite H2.
Qed.

Lemma collect_delegate_elem route n :
  n ∈ collect_delegate_plugin_names route <-> exists x, reached route x /\ delegate_calls x = Some n.
Proof. unfold collect_delegate_plugin_names. apply walk_route_elem. by intros ? []. Qed.

Lemma collect_elicit_elem route n :
  n ∈ collect_elicit_plugin_names route <-> exists x, reached route x /\ elicit_calls x = Some n.
Proof. unfold collect_elicit_plugin_names. apply walk_route_elem. by intros ? []. Qed.

(** The capability [cap] is in the effective declaration of plugin [n]. *)
Definition declares_cap (route : CompiledRoute) (registry : PluginRegistry) (n cap : string) : Prop :=
  exists eff, resolve_effective n registry (plugin_overrides route) = Some eff
    /\ cap ∈ caps_as_slice (ep_capabilities eff).

Lemma fold_add_elem (l : list string) (s : gset string) x :
  x ∈ fold_left (fun s y => s ∪ {[ y ]}) l s <-> x ∈ s \/ x ∈ l.
Proof. revert s. induction l as [|y l IH]; intros s; simpl; [set_solver|]. rewrite IH. set_solver. Qed.

Lemma grant_fold registry route names caps cap :
  cap ∈ fold_left (grant_of registry route) names caps
  <-> cap ∈ caps \/ exists n, n ∈ names /\ declares_cap route registry n cap.
Proof.
  revert caps. induction names as [|n names IH]; intros caps; simpl; [set_solver|].
  rewrite IH. unfold grant_of at 1. unfold declares_cap at 2.
  destruct (resolve_effective n registry (plugin_overrides route)) as [eff|] eqn:E.
  - rewrite fold_add_elem. setoid_rewrite elem_of_cons. split.
    + intros [[?|?]|(m & ? & ?)]; [by left| |right; eauto]. right. exists n. eauto.
    + intros [?|(m & [->|?] & Hm)]; [by left; left| |right; eauto].
      destruct Hm as (eff' & He & Hc). left; right. congruence.
  - setoid_rewrite elem_of_cons. split.
    + intros [?|(m & ? & ?)]; [by left|right; eauto].
    + intros [?|(m & [->|?] & Hm)]; [by left| |right; eauto]. destruct Hm as (eff' & He & _). congruence.
Qed.

(** [route_capabilities_exact]: the handler installed for a route is granted exactly the
    capabilities that some plugin the route can call declares, after the route's overrides,
    and the right to read headers when the route can ask for an approval. Nothing a plugin
    of the route needs is filtered away, and nothing else is opened. *)
Theorem route_capabilities_exact route registry cap :
  cap ∈ route_capability_union route registry
  <-> (exists n, route_calls route n /\ declares_cap route registry n cap)
      \/ (cap = "read_headers" /\ exists x n, reached route x /\ elicit_calls x = Some n).
Proof.
  unfold route_capability_union.
  assert (Hc : forall n, route_calls route n <-> n ∈ collect_plugin_names route
    \/ n ∈ collect_delegate_plugin_names route \/ n ∈ collect_elicit_plugin_names route).
  { intros n. rewrite collect_plugin_names_elem, collect_delegate_elem, collect_elicit_elem. split.
    - intros [x Hx [?|[?|?]]|fr st ? ? ?]; eauto 10.
    - intros [[(x & ? & ?)|(fr & st & ? & ? & ?)]|[(x & ? & ?)|(x & ? & ?)]];
        first [by eapply rc_effect; eauto|by eapply rc_stage]. }
  set (caps := fold_left (grant_of registry route) (collect_elicit_plugin_names route) _).
  assert (Hcaps : cap ∈ caps <-> exists n, route_calls route n /\ declares_cap route registry n cap).
  { subst caps. rewrite !grant_fold. setoid_rewrite Hc. set_solver. }
  assert (He : collect_elicit_plugin_names route <> [] <-> exists x n, reached route x /\ elicit_calls x = Some n).
  { split.
    - destruct (collect_elicit_plugin_names route) as [|n ns] eqn:E; [done|]. intros _.
      destruct (proj1 (collect_elicit_elem route n)) as (x & ? & ?); [rewrite E; left|]. eauto.
    - intros (x & n & Hx & Hn) E. assert (n ∈ collect_elicit_plugin_names route) by (apply collect_elicit_elem; eauto).
      rewrite E in *. by apply not_elem_of_nil in H. }
  destruct (collect_elicit_plugin_names route) eqn:E; cbn [is_nil].
  - rewrite Hcaps. naive_solver.
  - rewrite elem_of_union, elem_of_singleton, Hcaps, <- He. naive_solver.
Qed.

(** ** The cache of plans under interleaving *)

Section PlanCache.
Context `{Payloads} `{HashOrder}.

(** The engine of each configuration generation. *)
Variable engine_at : N -> RuntimeEngine.

(** A handler: its compiled route and its plugin declarations. *)
Definition RouteOwner : Type := CompiledRoute * PluginRegistry.
Definition key_of (h : RouteOwner) : string := route_key h.1.

(** A request at the points where others can run: it has read the generation [g] (which every
    state keeps), missed under the read lock, holds a cell and, while it builds the plan for
    it, the generations its calls have loaded so far, has its plan. *)
Inductive PlanRequest : Type :=
| PrObserved (h : RouteOwner) (g : N)
| PrMissed (h : RouteOwner) (g : N)
| PrCell (h : RouteOwner) (g cell : N) (loaded : list N)
| PrDone (h : RouteOwner) (g : N) (plan : RouteDispatchPlan).

Record PlanSystem : Type := mkPlanSystem {
  ps_gen : N;
  ps_cache : DispatchCache;
  ps_reqs : gmap nat PlanRequest;
}.

(** A build is a load per plugin and then the initialization of the cell; reloads and other
    requests run in between. The [OnceCell] lets one request build at a time; here several may,
    and the first to finish fills the cell. *)
Inductive plan_step : PlanSystem -> PlanSystem -> Prop :=
| plan_reload gen gen' c reqs : (gen <= gen')%N -> plan_step (mkPlanSystem gen c reqs) (mkPlanSystem gen' c reqs)
| plan_observe gen c reqs t h :
    plan_step (mkPlanSystem gen c reqs) (mkPlanSystem gen c (<[t := PrObserved h gen]> reqs))
| plan_hit gen c reqs t h g cell :
    reqs !! t = Some (PrObserved h g) -> cell_cached c (key_of h) g = Some cell ->
    plan_step (mkPlanSystem gen c reqs) (mkPlanSystem gen c (<[t := PrCell h g cell []]> reqs))
| plan_miss gen c reqs t h g :
    reqs !! t = Some (PrObserved h g) -> cell_cached c (key_of h) g = None ->
    plan_step (mkPlanSystem gen c reqs) (mkPlanSystem gen c (<[t := PrMissed h g]> reqs))
| plan_install gen c reqs t h g fresh c' cell :
    reqs !! t = Some (PrMissed h g) -> dc_cells c !! fresh = None ->
    cell_install c (key_of h) gen fresh = (c', cell) ->
    plan_step (mkPlanSystem gen c reqs) (mkPlanSystem gen c' (<[t := PrCell h g cell []]> reqs))
| plan_found gen c reqs t h g cell loaded plan :
    reqs !! t = Some (PrCell h g cell loaded) -> dc_cells c !! cell = Some (Some plan) ->
    plan_step (mkPlanSystem gen c reqs) (mkPlanSystem gen c (<[t := PrDone h g plan]> reqs))
| plan_load gen c reqs t h g cell loaded :
    reqs !! t = Some (PrCell h g cell loaded) -> length loaded < plan_calls h.1 h.2 ->
    plan_step (mkPlanSystem gen c reqs) (mkPlanSystem gen c (<[t := PrCell h g cell (loaded ++ [gen])]> reqs))
| plan_init gen c reqs t h g cell loaded id c' plan :
    reqs !! t = Some (PrCell h g cell loaded) -> length loaded = plan_calls h.1 h.2 ->
    cell_get_or_init c cell (build_plan (fun k => engine_at (nth k loaded gen)) id h.1 h.2) = (c', plan) ->
    plan_step (mkPlanSystem gen c reqs) (mkPlanSystem gen c' (<[t := PrDone h g plan]> reqs)).

(** [plan] was built for the route key [key], every call of the build finding an engine of
    generation [low] or later, not always the same one. *)
Definition built_from (key : string) (low : N) (plan : RouteDispatchPlan) : Prop :=
  exists (gens : nat -> N) id h, (forall k, low <= gens k)%N /\ key_of h = key
    /\ plan = build_plan (fun k => engine_at (gens k)) id h.1 h.2.

(** [cg] gives the key and the generation each cell was made for. *)
Record plan_inv (cg : gmap N (string * N)) (s : PlanSystem) : Prop := {
  pi_made : forall cell, is_Some (cg !! cell) <-> is_Some (dc_cells (ps_cache s) !! cell);
  pi_entry : forall key e, dc_inner (ps_cache s) !! key = Some e ->
    cg !! cd_plan e = Some (key, cd_generation e);
  pi_cell : forall cell key g plan, cg !! cell = Some (key, g) ->
    dc_cells (ps_cache s) !! cell = Some (Some plan) -> built_from key g plan;
  pi_now : forall cell key g, cg !! cell = Some (key, g) -> (g <= ps_gen s)%N;
  pi_req : forall t r, ps_reqs s !! t = Some r ->
    match r with
    | PrObserved _ g | PrMissed _ g => (g <= ps_gen s)%N
    | PrCell h g cell loaded =>
        exists g', cg !! cell = Some (key_of h, g') /\ (g <= g')%N /\ Forall (fun g1 => (g' <= g1)%N) loaded
    | PrDone h g plan => built_from (key_of h) g plan
    end;
}.

Lemma req_insert (reqs : gmap nat PlanRequest) t r (P : PlanRequest -> Prop) :
  (forall t' r', reqs !! t' = Some r' -> P r') -> P r -> forall t' r', <[t := r]> reqs !! t' = Some r' -> P r'.
Proof. intros Hall Hr t' r' [[<- <-]|[_ ?]]%lookup_insert_Some; eauto. Qed.

Lemma built_from_weaken key low low' plan : (low <= low')%N -> built_from key low' plan -> built_from key low plan.
Proof. intros Hle (gens & id & h & Hg & Hk & ->). exists gens, id, h. split; [intros k; specialize (Hg k); lia|done]. Qed.

Lemma plan_install_inv cg gen c reqs t h g fresh c' cell :
  plan_inv cg (mkPlanSystem gen c reqs) -> reqs !! t = Some (PrMissed h g) -> dc_cells c !! fresh = None ->
  cell_install c (key_of h) gen fresh = (c', cell) ->
  exists cg', plan_inv cg' (mkPlanSystem gen c' (<[t := PrCell h g cell []]> reqs)).
Proof.
  intros [Hm He Hc Hn Hr] Ht Hf. simpl in *. pose proof (Hr _ _ Ht) as Hg. simpl in Hg.
  assert (Hcg : cg !! fresh = None).
  { apply eq_None_not_Some. intros Hs%Hm. rewrite Hf in Hs. by destruct Hs. }
  assert (Hfresh : (mkDispatchCache (<[key_of h := mkCached gen fresh]> (dc_inner c)) (<[fresh := None]> (dc_cells c)), fresh)
    = (c', cell) -> exists cg', plan_inv cg' (mkPlanSystem gen c' (<[t := PrCell h g cell []]> reqs))).
  { intros [= <- <-]. exists (<[fresh := (key_of h, gen)]> cg).
    assert (Hold : forall cell v, cg !! cell = Some v -> <[fresh := (key_of h, gen)]> cg !! cell = Some v).
    { intros cell v Hv. rewrite lookup_insert_ne; [done|]. congruence. }
    split; simpl.
    - intros x. destruct (decide (fresh = x)) as [<-|]; [rewrite !lookup_insert_eq; by split|by rewrite !lookup_insert_ne].
    - intros key e [[<- <-]|[_ Hl]]%lookup_insert_Some; [apply lookup_insert_eq|]. auto.
    - intros x key g0 plan [[<- [= <- <-]]|[? Hx]]%lookup_insert_Some; [by rewrite lookup_insert_eq|].
      rewrite lookup_insert_ne by done. by apply Hc.
    - intros x key g0 [[<- [= <- <-]]|[_ Hx]]%lookup_insert_Some; [done|by eapply Hn].
    - apply (req_insert reqs); [|exists gen; by rewrite lookup_insert_eq].
      intros t' r' Ht'. specialize (Hr t' r' Ht'). destruct r'; auto. destruct Hr as (g' & ? & ? & ?). exists g'. auto. }
  unfold cell_install. destruct (dc_inner c !! key_of h) as [e|] eqn:E; [|done].
  destruct (N.eqb_spec (cd_generation e) gen) as [Heq|Hne]; cbn [negb]; [|done].
  intros [= <- <-]. exists cg. split; simpl; auto. apply (req_insert reqs); [done|].
  exists (cd_generation e). split_and!; [by apply He|lia|constructor].
Qed.

Lemma plan_init_inv cg gen c reqs t h g cell loaded id c' plan :
  plan_inv cg (mkPlanSystem gen c reqs) -> reqs !! t = Some (PrCell h g cell loaded) ->
  cell_get_or_init c cell (build_plan (fun k => engine_at (nth k loaded gen)) id h.1 h.2) = (c', plan) ->
  plan_inv cg (mkPlanSystem gen c' (<[t := PrDone h g plan]> reqs)).
Proof.
  intros [Hm He Hc Hn Hr] Ht. simpl in *. destruct (Hr _ _ Ht) as (g' & Hcell & Hg & Hl).
  set (built := build_plan _ _ _ _).
  assert (Hb : built_from (key_of h) g' built).
  { exists (fun k => nth k loaded gen), id, h. split; [|done]. intros k.
    destruct (nth_in_or_default k loaded gen) as [Hin| ->]; [|by eapply Hn].
    rewrite Forall_forall in Hl. by apply Hl, list_elem_of_In. }
  assert (Hfill : (mkDispatchCache (dc_inner c) (<[cell := Some built]> (dc_cells c)), built) = (c', plan) ->
    plan_inv cg (mkPlanSystem gen c' (<[t := PrDone h g plan]> reqs))).
  { intros [= <- <-]. split; simpl; auto.
    - intros x. destruct (decide (cell = x)) as [<-|]; [rewrite lookup_insert_eq; by split|by rewrite lookup_insert_ne].
    - intros x key g0 p Hx [[<- [= <-]]|[_ Hx']]%lookup_insert_Some; [by rewrite Hcell in Hx; simplify_eq|by eapply Hc].
    - apply (req_insert reqs); [done|]. by eapply built_from_weaken. }
  unfold cell_get_or_init. destruct (dc_cells c !! cell) as [[p|]|] eqn:E; [|exact Hfill|exact Hfill].
  intros [= <- <-]. split; simpl; auto. apply (req_insert reqs); [done|].
  eapply built_from_weaken; [done|]. by eapply Hc.
Qed.

Lemma plan_step_inv cg s s' : plan_inv cg s -> plan_step s s' -> exists cg', plan_inv cg' s'.
Proof.
  intros Hi Hs. destruct Hs as [gen gen' c reqs Hle|gen c reqs t h|gen c reqs t h g cell Ht Hh|gen c reqs t h g Ht Hh
    |gen c reqs t h g fresh c' cell Ht Hf Hin|gen c reqs t h g cell loaded plan Ht Hin|gen c reqs t h g cell loaded Ht Hlen
    |gen c reqs t h g cell loaded id c' plan Ht Hlen Hin].
  - exists cg. destruct Hi as [Hm He Hc Hn Hr]. split; simpl in *; auto.
    + intros cell key g Hx. specialize (Hn _ _ _ Hx). lia.
    + intros t r Ht. specialize (Hr t r Ht). destruct r; auto; lia.
  - exists cg. destruct Hi as [Hm He Hc Hn Hr]. split; simpl in *; auto. by apply (req_insert reqs).
  - exists cg. destruct Hi as [Hm He Hc Hn Hr]. split; simpl in *; auto. apply (req_insert reqs); [done|].
    unfold cell_cached in Hh. destruct (dc_inner c !! key_of h) as [e|] eqn:E; [|done].
    destruct (N.eqb_spec (cd_generation e) g) as [<-|]; [|done]. injection Hh as <-.
    exists (cd_generation e). split_and!; [by apply He|done|constructor].
  - exists cg. destruct Hi as [Hm He Hc Hn Hr]. split; simpl in *; auto. apply (req_insert reqs); [done|].
    by apply (Hr _ _ Ht).
  - by eapply plan_install_inv.
  - exists cg. destruct Hi as [Hm He Hc Hn Hr]. split; simpl in *; auto. apply (req_insert reqs); [done|].
    destruct (Hr _ _ Ht) as (g' & Hcell & Hg & _). eapply built_from_weaken; [done|]. by eapply Hc.
  - exists cg. destruct Hi as [Hm He Hc Hn Hr]. split; simpl in *; auto. apply (req_insert reqs); [done|].
    destruct (Hr _ _ Ht) as (g' & Hcell & Hg & Hl). exists g'. split_and!; [done|done|].
    apply Forall_app. split; [done|]. constructor; [by eapply Hn|constructor].
  - exists cg. by eapply plan_init_inv.
Qed.

Lemma plan_run_inv s s' : rtc plan_step s s' -> (exists cg, plan_inv cg s) -> exists cg, plan_inv cg s'.
Proof. induction 1 as [s|s s1 s2 Hstep _ IH]; [done|]. intros [cg Hcg]. apply IH. by eapply plan_step_inv. Qed.

(** Claim C28. [plan_never_older]: however requests, the calls of their builds and reloads
    interleave, the dispatch plan a request ends up with was built for a route of its key, and
    every call of that build resolved its plugin in an engine at least as new as the
    configuration generation the request started under. The calls of one build may meet
    different engines. *)
Theorem plan_never_older gen s t h g plan :
  rtc plan_step (mkPlanSystem gen dispatch_cache_new ∅) s ->
  ps_reqs s !! t = Some (PrDone h g plan) ->
  built_from (key_of h) g plan.
Proof.
  intros Hs Ht. destruct (plan_run_inv _ _ Hs) as [cg Hi]; [|by apply (pi_req _ _ Hi) in Ht].
  exists ∅. split; simpl; intros *; rewrite ?lookup_empty; done.
Qed.
End PlanCache.

(** *** Concrete races *)

(** A reload to generation 2 puts [scan] in audit mode. *)
Definition w_engine_at (g : N) : @RuntimeEngine string_payloads :=
  w_engine (w_registry (if (g <=? 1)%N then Sequential else Audit)).

(** The route before and after a reload that adds a call of [scan] to it. *)
Definition w_before : RouteOwner := (mkRoute "tool:pay" [] [EffAllow] [] [] ∅ None, w_declared).
Definition w_after : RouteOwner := (w_route, w_declared).

Definition w_plan (h : RouteOwner) : @RouteDispatchPlan string_payloads :=
  @build_plan string_payloads map_order (fun _ => w_engine_at 1%N) 0%N h.1 h.2.

(** At generation 1 a request of the old handler fills the cell, and one of the new handler
    finds it filled. *)
Definition w_final : @PlanSystem string_payloads :=
  mkPlanSystem 1%N
    (mkDispatchCache {["tool:pay" := mkCached 1%N 0%N]} {[0%N := Some (w_plan w_before)]})
    (<[1 := PrDone w_after 1%N (w_plan w_before)]> {[0 := PrDone w_before 1%N (w_plan w_before)]}).

Lemma w_race : rtc (@plan_step string_payloads map_order w_engine_at)
  (mkPlanSystem 1%N dispatch_cache_new ∅) w_final.
Proof.
  eapply rtc_l; [apply (plan_observe _ _ _ _ 0 w_before)|].
  eapply rtc_l; [by apply (plan_miss _ _ _ _ 0 w_before 1%N)|].
  eapply rtc_l; [by apply (plan_install _ _ _ _ 0 w_before 1%N 0%N)|].
  eapply rtc_l; [by apply (plan_init _ _ _ _ 0 w_before 1%N 0%N [] 0%N)|].
  eapply rtc_l; [apply (plan_observe _ _ _ _ 1 w_after)|].
  eapply rtc_l; [by apply (plan_hit _ _ _ _ 1 w_after 1%N 0%N)|].
  eapply rtc_l; [by apply (plan_found _ _ _ _ 1 w_after 1%N 0%N [])|].
  match goal with |- rtc _ ?s _ => replace s with w_final by reflexivity end. apply rtc_refl.
Qed.

(** The plan of the new generation can be the one of the handler the reload replaced: the new
    handler is served a plan without the plugin its route calls. *)
Lemma replaced_handler_fills_the_plan :
  exists s plan, rtc (@plan_step string_payloads map_order w_engine_at) (mkPlanSystem 1%N dispatch_cache_new ∅) s
    /\ ps_reqs s !! 1 = Some (PrDone w_after 1%N plan)
    /\ pl_plugins plan !! "scan" = None /\ pl_plugins (w_plan w_after) !! "scan" <> None.
Proof. exists w_final, (w_plan w_before). split; [exact w_race|]. by vm_compute. Qed.

(** A request that starts under generation 1 loads [scan] for its plugin call; then the engine is
    reloaded, and the call of its [delegate] step loads generation 2. *)
Definition w_two : RouteOwner :=
  (mkRoute "tool:pay" [] [EffPlugin "scan"; EffDelegate (mkDelegate "scan" None None "r")] [] [] ∅ None, w_declared).

Definition w_mixed_plan : @RouteDispatchPlan string_payloads :=
  @build_plan string_payloads map_order (fun k => w_engine_at (nth k [1; 2] 2)%N) 0%N w_two.1 w_two.2.

Definition w_mixed : @PlanSystem string_payloads :=
  mkPlanSystem 2%N
    (mkDispatchCache {["tool:pay" := mkCached 1%N 0%N]} {[0%N := Some w_mixed_plan]})
    {[0 := PrDone w_two 1%N w_mixed_plan]}.

Lemma w_mixed_run : rtc (@plan_step string_payloads map_order w_engine_at)
  (mkPlanSystem 1%N dispatch_cache_new ∅) w_mixed.
Proof.
  eapply rtc_l; [apply (plan_observe _ _ _ _ 0 w_two)|].
  eapply rtc_l; [by apply (plan_miss _ _ _ _ 0 w_two 1%N)|].
  eapply rtc_l; [by apply (plan_install _ _ _ _ 0 w_two 1%N 0%N)|].
  eapply rtc_l; [apply (plan_load _ _ _ _ 0 w_two 1%N 0%N []); [done|vm_compute; lia]|].
  eapply rtc_l; [by apply (plan_reload _ 1%N 2%N)|].
  eapply rtc_l; [apply (plan_load _ _ _ _ 0 w_two 1%N 0%N [1%N]); [done|vm_compute; lia]|].
  eapply rtc_l; [by apply (plan_init _ _ _ _ 0 w_two 1%N 0%N [1%N; 2%N] 0%N)|].
  match goal with |- rtc _ ?s _ => replace s with w_mixed by reflexivity end. apply rtc_refl.
Qed.

Lemma plan_never_older_witness :
  ps_reqs w_mixed !! 0 = Some (PrDone w_two 1%N w_mixed_plan)
  /\ @built_from string_payloads map_order w_engine_at (key_of w_two) 1%N w_mixed_plan.
Proof.
  split; [reflexivity|].
  exact (@plan_never_older string_payloads map_order w_engine_at 1%N w_mixed 0 w_two 1%N w_mixed_plan
    w_mixed_run eq_refl).
Defined.
