(* ===== verification/SessionProps.v ===== *)
(** * Properties of sessions

    The in-process store keeps the contract of the interface; against the interface, a label a
    forwarded request acquires is on every later request of its session; a request is
    forwarded exactly when nothing holds it back; a session belongs to one subject. *)

From Stdlib Require Import Ascii String.
From S2P Require Import Prelude RustStr F64 Json Platform Attributes Rules Constraint Step Eval Effects.
From S2P Require Import StepParser Paths Host RouteEval Routing Fold ExtData Plugin Extensions Executor ExtProps.
From S2P Require Import TierProps ExecutorProps Hooks Config DecisionCache CacheKeyProps Bridge BridgeProps.
From S2P Require Import Runtime Session RuntimeProps.

(** ** The in-process store *)

Lemma memory_append_elem (m : MemoryStore) sid labels s (x : string) :
  x ∈ default ∅ (memory_append_labels m sid labels !! s) <-> x ∈ default ∅ (m !! s) \/ (s = sid /\ x ∈ labels).
Proof.
  unfold memory_append_labels. destruct labels as [|l ls]; cbn [is_nil]; [set_solver|].
  destruct (decide (s = sid)) as [->|]; [|rewrite lookup_insert_ne by done; naive_solver].
  rewrite lookup_insert_eq. cbn [from_option id]. rewrite fold_add_elem. naive_solver.
Qed.

Lemma memory_load_elem `{HashOrder} (m : MemoryStore) sid l : l ∈ memory_load_labels m sid <-> l ∈ default ∅ (m !! sid).
Proof. unfold memory_load_labels. destruct (m !! sid); simpl; [apply hash_elems_elem|set_solver]. Qed.

#[global] Instance memory_laws `{HashOrder} : @SessionStoreLaws memory_store.
Proof.
  refine (@Build_SessionStoreLaws memory_store (fun (m : MemoryStore) sid => default ∅ (m !! sid)) _ _ _ _).
  - intros m sid ls [= <-]. apply set_eq. intros l. rewrite elem_of_list_to_set. apply memory_load_elem.
  - intros m sid ls m' [= <-]. apply set_eq. intros x. rewrite memory_append_elem. set_solver.
  - intros m sid ls m' r s [= <- <-] x Hx. apply memory_append_elem. by left.
  - intros m sid ls m' r s [= <- <-] Hne. apply set_eq. intros x. rewrite memory_append_elem. naive_solver.
Defined.

(** ** The labels of a session *)

Section Sticky.
Context `{Platform, Digest, HashOrder, Chrono, PayloadFields, SessionStoreLaws}.

Lemma add_labels_elem sec labels l : l ∈ sec_labels (add_labels sec labels) <-> l ∈ sec_labels sec \/ l ∈ labels.
Proof. apply fold_add_label. Qed.

Lemma hydrate_elem {M} (x : Extensions M) labels l :
  l ∈ snapshot_labels (hydrate_labels x labels) <-> l ∈ snapshot_labels x \/ l ∈ labels.
Proof.
  unfold snapshot_labels, hydrate_labels. cbn [x_security set_security]. rewrite add_labels_elem.
  destruct (x_security x); simpl; [done|]. set_solver.
Qed.

(** What [for_request] takes in: the labels of the request and those of its session. *)
Lemma for_request_labels st x payload plan iv :
  for_request st x payload plan = Ok iv ->
  iv_initial_labels iv = snapshot_labels (iv_extensions iv)
  /\ forall l, l ∈ snapshot_labels (iv_extensions iv)
       <-> l ∈ snapshot_labels x \/ exists sid, iv_session_id iv = Some sid /\ l ∈ held st sid.
Proof.
  unfold for_request. destruct (resolve_session x) as [session|]; [|done]. cbn [result_map_err].
  destruct (fst <$> session) as [sid|].
  - destruct (load_labels st sid) as [stored|] eqn:El; [|done]. intros [= <-]. split; [done|]. intros l.
    cbn [iv_extensions iv_session_id]. pose proof (load_held _ _ _ El) as Hh.
    destruct stored as [|s0 ss]; cbn [is_nil].
    + split; [by left|]. intros [?|(s & [= <-] & Hl)]; [done|].
      rewrite <- Hh in Hl. by apply elem_of_empty in Hl.
    + rewrite hydrate_elem, <- (elem_of_list_to_set (C := gset string)), Hh. split; [intros [?|?]; eauto|].
      intros [?|(s & [= <-] & ?)]; auto.
  - intros [= <-]. split; [done|]. intros l. cbn [iv_extensions iv_session_id]. split; [by left|].
    by intros [?|(s & [=] & _)].
Qed.

(** The invoker with other shared extensions. *)
Definition with_shared (iv : Invoker) (x : Extensions Message) : Invoker :=
  mkInvoker x (iv_payload iv) (iv_payload_modified iv) (iv_plan iv) (iv_session_id iv) (iv_initial_labels iv).

(** One plugin call, whatever the engine, the schedule and the plugin do; or a write to the
    shared extensions that leaves the security slot alone, as a delegation makes. *)
Inductive call_step (iv iv' : Invoker) : Prop :=
| called en hooks sched name invocation disabled disabled' r :
    invoke en hooks sched name invocation iv disabled = (iv', disabled', r) -> call_step iv iv'
| shared_write x :
    x_security x = x_security (iv_extensions iv) -> iv' = with_shared iv x -> call_step iv iv'.

Lemma host_labels en (x : Extensions Message) : snapshot_labels (with_host_services en (clone x)) = snapshot_labels x.
Proof. unfold with_host_services. by destruct (en_transport en). Qed.

Lemma call_labels iv iv' :
  call_step iv iv' ->
  iv_session_id iv' = iv_session_id iv /\ iv_initial_labels iv' = iv_initial_labels iv
  /\ snapshot_labels (iv_extensions iv) ⊆ snapshot_labels (iv_extensions iv').
Proof.
  intros [en hooks sched name invocation disabled disabled' r|x Hx ->];
    [|by unfold snapshot_labels; simpl; rewrite Hx]. unfold invoke in *.
  destruct (pl_plugins _ !! name) as [p|]; [|by simplify_eq].
  destruct (pick_entry _ _ _ _) as [entry|]; [|by simplify_eq].
  pose proof (invoke_entries_fst en sched disabled [entry] (to_payload (iv_payload iv)) (clone (iv_extensions iv))) as Hfst.
  destruct (pipeline_tiers (en_executor en) sched disabled [entry] (to_payload (iv_payload iv))
    (with_host_services en (clone (iv_extensions iv))) None) as (x' & Hx & Ht).
  destruct (invoke_entries _ _ _ _ _ _) as [res dis]. cbn [fst is_nil] in Hfst. rewrite <- Hfst in Hx.
  simplify_eq. cbn [iv_session_id iv_initial_labels iv_extensions]. split_and!; [done..|].
  rewrite Hx. rewrite <- (host_labels en (iv_extensions iv)). unfold snapshot_labels.
  change (x_security (retain_metadata_from x' (iv_extensions iv))) with (x_security x').
  pose proof (ti_labels _ _ _ Ht) as Hl. unfold security_of in Hl.
  by destruct (x_security (with_host_services en (clone (iv_extensions iv)))), (x_security x').
Qed.

Lemma calls_labels iv iv' :
  rtc call_step iv iv' ->
  iv_session_id iv' = iv_session_id iv /\ iv_initial_labels iv' = iv_initial_labels iv
  /\ snapshot_labels (iv_extensions iv) ⊆ snapshot_labels (iv_extensions iv').
Proof.
  induction 1 as [iv|iv iv1 iv2 Hs _ IH]; [done|]. destruct (call_labels _ _ Hs) as (H1' & H2' & H3'), IH as (-> & -> & ?).
  split_and!; [done..|]. by etrans.
Qed.
Lemma apply_taints_labels taints iv :
  iv_session_id (apply_session_taints taints iv) = iv_session_id iv
  /\ iv_initial_labels (apply_session_taints taints iv) = iv_initial_labels iv
  /\ forall l, l ∈ snapshot_labels (iv_extensions (apply_session_taints taints iv))
       <-> l ∈ snapshot_labels (iv_extensions iv) \/ l ∈ session_labels taints.
Proof.
  unfold apply_session_taints. destruct (session_labels taints) as [|l0 ls]; [split_and!; [done..|]; set_solver|].
  split_and!; [done..|]. intros l. apply hydrate_elem.
Qed.

(** A successful append leaves every label the request acquired in the session. *)
Lemma persist_holds iv st st' sid :
  iv_session_id iv = Some sid -> persist_session iv st = (st', Ok tt) ->
  (forall s, held st s ⊆ held st' s)
  /\ forall l, l ∈ snapshot_labels (iv_extensions iv) -> l ∉ iv_initial_labels iv -> l ∈ held st' sid.
Proof.
  unfold persist_session, snapshot_labels. intros ->.
  destruct (x_security (iv_extensions iv)) as [sec|]; [|intros [= <-]; split; [done|set_solver]].
  pose proof (labels_beyond_elem (iv_initial_labels iv) (sec_labels sec)) as Hb.
  destruct (labels_beyond _ _) as [|n ns].
  - intros [= <-]. split; [done|]. intros l Hl Hn. pose proof (proj2 (Hb l) (conj Hl Hn)) as Hin. by apply elem_of_nil in Hin.
  - intros Ha. split; [intros s; by eapply append_grows|]. intros l Hl Hn. rewrite (append_held _ _ _ _ Ha).
    apply elem_of_union. right. apply elem_of_list_to_set. by apply Hb.
Qed.

(** ** The verdict *)

(** The peek header asks for the outcome of an approval that is in. *)
Definition peeked {M} (bag : AttributeBag) (x : Extensions M) : bool :=
  elicitation_peek_from_headers x && is_some_and (fun o => String.eqb o "approved") (get_string bag EL_OUTCOME).

Lemma settle_forwards {M} response d bag (x : Extensions M) persist conflict :
  (settle response d bag x persist conflict).1 = true
  <-> rd_decision d = Allow /\ rd_pending d = None /\ peeked bag x = false /\ persist = Ok tt /\ conflict = None.
Proof.
  unfold settle, restrict_conflict, persist_failed, peek_only, suspend, decided, peeked.
  destruct (rd_decision d), (rd_pending d), persist as [[]|], conflict;
    repeat (case_match; simplify_eq/=); naive_solver.
Qed.

Definition grows (st st' : Store) : Prop := forall sid, held st sid ⊆ held st' sid.

(** Claim C7. [session_taint_sticks]: a label that a request of a session picks up after it starts,
    from a plugin it calls or from a session taint of the policy, is on the extensions of
    every later request of the session before its first plugin runs, if the request was
    forwarded at all. The store is any that keeps its contract, and other requests may
    append to it in between. *)
Theorem session_taint_sticks st st1 st1' st2 route post changed d bag x payload plan iv0 iv v owned
    x2 payload2 plan2 iv2 sid l :
  for_request st x payload plan = Ok iv0 -> iv_session_id iv0 = Some sid ->
  rtc call_step iv0 iv -> grows st st1 ->
  finish_request st1 route post changed d bag iv = (st1', (true, v), owned) ->
  grows st1' st2 -> for_request st2 x2 payload2 plan2 = Ok iv2 -> iv_session_id iv2 = Some sid ->
  l ∈ snapshot_labels (iv_extensions iv) \/ l ∈ session_labels (rd_taints d) -> l ∉ snapshot_labels x ->
  l ∈ snapshot_labels (iv_extensions iv2).
Proof.
  intros Hreq Hsid Hcalls Hg Hfin Hg2 Hreq2 Hsid2 Hl Hnew.
  destruct (for_request_labels _ _ _ _ _ Hreq) as [Hinit Hst].
  destruct (calls_labels _ _ Hcalls) as (Hs1 & Hi1 & _).
  destruct (apply_taints_labels (rd_taints d) iv) as (Hs2 & Hi2 & Hl2).
  apply (for_request_labels _ _ _ _ _ Hreq2). right. exists sid. split; [done|]. apply Hg2.
  unfold finish_request in Hfin.
  destruct (fold_candidate_constraints _) as [folded|c], (persist_session _ st1) as [stp persist] eqn:Hp;
    pose proof (f_equal (fun r => r.1.1) Hfin) as Hst'; pose proof (f_equal (fun r => r.1.2.1) Hfin) as Hset;
    cbn [fst snd] in Hst', Hset; subst stp; apply settle_forwards in Hset as (_ & _ & _ & -> & Hc); [|done].
  assert (Hsid' : iv_session_id (apply_session_taints (rd_taints d) iv) = Some sid) by (by rewrite Hs2, Hs1).
  destruct (persist_holds _ _ _ sid Hsid' Hp) as [Hkeep Hadd].
  destruct (decide (l ∈ held st sid)) as [Hin|Hout]; [by apply Hkeep, Hg|].
  apply Hadd; [by apply Hl2|]. rewrite Hi2, Hi1, Hinit, Hst. intros [?|(s & ? & ?)]; [done|]. by simplify_eq.
Qed.

(** Claim C9. [verdict_exact]: the engine may go on with a request exactly when the policy allows it,
    no approval is pending, an approval is not merely peeked at, the session's labels were
    stored, and the routing constraints agree; then there is no violation. Otherwise there
    is one, a pending approval is reported as pending whatever else failed, and a request the
    policy denied keeps the policy's violation. *)
Theorem verdict_exact {M} response d bag (x : Extensions M) persist conflict :
  let '(go, violation) := settle response d bag x persist conflict in
  (go = true <-> rd_decision d = Allow /\ rd_pending d = None /\ peeked bag x = false
                 /\ persist = Ok tt /\ conflict = None)
  /\ (go = true <-> violation = None)
  /\ (forall p, rd_pending d = Some p -> violation = Some (pending_violation p))
  /\ (rd_pending d = None -> rd_decision d <> Allow ->
      violation = (decided response (rd_decision d) bag x).2).
Proof.
  pose proof (settle_forwards response d bag x persist conflict) as Hf.
  destruct (settle response d bag x persist conflict) as [go violation] eqn:E. simpl in Hf. split; [done|].
  unfold settle, restrict_conflict, persist_failed, peek_only, suspend, decided in *.
  clear Hf. destruct (rd_decision d), (rd_pending d), persist as [[]|], conflict;
    repeat (case_match; simplify_eq/=); naive_solver.
Qed.
End Sticky.

(** ** Whose session it is *)

Section Binding.
Context `{Platform, Digest} {M : Type}.

(** A tier's value, if it has one that is not empty. *)
Definition offered_value (v : option string) : option string :=
  match v with Some s => if String.eqb s "" then None else Some s | None => None end.

Definition agent_session (x : Extensions M) : option string :=
  offered_value (match x_agent x with Some a => ag_session_id M (arc_val a) | None => None end).
Definition claimed_session (x : Extensions M) : option string :=
  offered_value (match x_security x ≫= sec_subject with Some subj => claim_str subj "session_id" | None => None end).
Definition identity_session (x : Extensions M) : string :=
  default "-" ((x_security x ≫= sec_caller_workload) ≫= wi_client_id) +:+ ":"
  +:+ default "-" ((x_security x ≫= sec_this_workload) ≫= wi_client_id).

(** The text a session id is the hash of. *)
Definition session_preimage (x : Extensions M) : option (string * SessionSource) :=
  match subject_id_of x with
  | None => None
  | Some sub =>
      Some (match agent_session x, claimed_session x with
            | Some sid, _ => (sub +:+ ":" +:+ sid, SrcAgent)
            | None, Some sid => (sub +:+ ":" +:+ sid, SrcTokenClaim)
            | None, None => (sub +:+ ":" +:+ identity_session x, SrcIdentity)
            end)
  end.

Lemma tier_value sub v src next :
  tier (Some sub) v src next
  = match offered_value v with
    | Some sid => let? h := short_hash (sub +:+ ":" +:+ sid) in Ok (Some (h, src))
    | None => next
    end.
Proof.
  unfold tier, offered_value. destruct v as [sid|]; [|done]. destruct (String.eqb sid ""); [done|].
  simpl. by destruct (short_hash _).
Qed.

Lemma tier_none v src next : tier None v src next = next.
Proof. unfold tier. destruct v as [sid|]; [|done]. by destruct (String.eqb sid ""). Qed.

Lemma resolve_session_preimage x :
  resolve_session x
  = match session_preimage x with
    | None => Ok None
    | Some (raw, src) => let? h := short_hash raw in Ok (Some (h, src))
    end.
Proof.
  unfold resolve_session, session_preimage. destruct (subject_id_of x) as [sub|] eqn:Es.
  - rewrite !tier_value. fold (agent_session x) (claimed_session x).
    destruct (agent_session x); [done|]. destruct (claimed_session x); [done|].
    unfold identity_tier, identity_session, subject_id_of in *. destruct (x_security x) as [sec|]; [|done].
    simpl in Es |- *. destruct (sec_subject sec) as [subj|]; [|done]. simpl in Es |- *. by rewrite Es.
  - rewrite !tier_none. unfold identity_tier, subject_id_of in *. destruct (x_security x) as [sec|]; [|done].
    simpl in Es. by rewrite Es.
Qed.

Lemma preimage_subject x p src :
  session_preimage x = Some (p, src) -> exists sub raw, subject_id_of x = Some sub /\ p = sub +:+ ":" +:+ raw.
Proof.
  unfold session_preimage. destruct (subject_id_of x) as [sub|]; [|done].
  destruct (agent_session x); [|destruct (claimed_session x)]; intros [= <- <-]; by eexists _, _.
Qed.

Lemma colon_split s1 r1 s2 r2 :
  contains_char ":" s1 = false -> contains_char ":" s2 = false ->
  s1 +:+ ":" +:+ r1 = s2 +:+ ":" +:+ r2 -> s1 = s2.
Proof.
  revert s2. induction s1 as [|a s1 IH]; intros [|b s2]; simpl; [done| | |].
  - intros _ Hb [= <- _]. by rewrite Ascii.eqb_refl in Hb.
  - intros Ha _ [= -> _]. by rewrite Ascii.eqb_refl in Ha.
  - intros [_ H1]%orb_false_iff [_ H2]%orb_false_iff [= -> He]. f_equal. by apply IH.
Qed.

(** Claim C26. [session_bound_to_subject]: a request has a session only if it has an authenticated
    subject. Two requests whose subjects hold no colon and that resolve to the same session
    id are requests of the same subject, whatever session value the caller or the token
    names, unless SHA-256 cut to 64 bits collides on the two texts hashed for them. *)
Theorem session_bound_to_subject x1 x2 id src1 src2 :
  resolve_session x1 = Ok (Some (id, src1)) -> resolve_session x2 = Ok (Some (id, src2)) ->
  (forall sub, subject_id_of x1 = Some sub -> contains_char ":" sub = false) ->
  (forall sub, subject_id_of x2 = Some sub -> contains_char ":" sub = false) ->
  exists p1 p2 sub, session_preimage x1 = Some (p1, src1) /\ session_preimage x2 = Some (p2, src2)
    /\ subject_id_of x1 = Some sub
    /\ (subject_id_of x2 = Some sub
        \/ (p1 <> p2 /\ short_hash p1 = Ok id /\ short_hash p2 = Ok id)).
Proof.
  rewrite !resolve_session_preimage.
  destruct (session_preimage x1) as [[p1 s1]|] eqn:E1; [|done].
  destruct (session_preimage x2) as [[p2 s2]|] eqn:E2; [|done].
  destruct (short_hash p1) as [h1|] eqn:Eh1; [|done]. destruct (short_hash p2) as [h2|] eqn:Eh2; [|done].
  intros [= -> ->] [= -> ->] Hc1 Hc2.
  destruct (preimage_subject _ _ _ E1) as (sub1 & r1 & Hs1 & Hp1), (preimage_subject _ _ _ E2) as (sub2 & r2 & Hs2 & Hp2).
  exists p1, p2, sub1. split_and!; [done..|].
  destruct (decide (p1 = p2)) as [->|]; [left|by right].
  rewrite Hs2. f_equal. symmetry. rewrite Hp1 in Hp2. by eapply colon_split; [apply Hc1|apply Hc2|].
Qed.
End Binding.

(** ** Concrete requests *)

Definition w_subject (id : string) (claims : gmap string json) : SecurityExtension :=
  mkSecurity ∅ None (Some (mkSubject (Some id) None ∅ ∅ ∅ claims None)) None None None None ∅ ∅.

Definition w_agent (session : option string) : AgentExtension string :=
  mkAgent string None session None None None None None.

(** A request of subject [id], with the session value the caller and the token give. *)
Definition w_ext (id : string) (session claim : option string) : Extensions string :=
  set_security
    (mkExtensions None (Some (mkArc 1%N (w_agent session))) None None None None None None None None None None None
       None None None false false false TransportNotInstalled EffectDetached)
    (Some (w_subject id (match claim with Some c => {["session_id" := JString c]} | None => ∅ end))).

(** A colon in a subject lets two subjects share a session, under every digest: [a] naming the
    session [b:c] and [a:b] naming [c]. *)
Lemma colon_subjects_share_session `{Platform, Digest} :
  resolve_session (w_ext "a" (Some "b:c") None) = resolve_session (w_ext "a:b" (Some "c") None)
  /\ subject_id_of (w_ext "a" (Some "b:c") None) <> subject_id_of (w_ext "a:b" (Some "c") None).
Proof. split; [by rewrite !resolve_session_preimage|done]. Qed.

Lemma session_bound_to_subject_witness :
  exists p1 p2 sub,
    @session_preimage ascii_platform string (w_ext "alice" (Some "s1") None) = Some (p1, SrcAgent)
    /\ @session_preimage ascii_platform string (w_ext "alice" None (Some "s1")) = Some (p2, SrcTokenClaim)
    /\ subject_id_of (w_ext "alice" (Some "s1") None) = Some sub
    /\ (subject_id_of (w_ext "alice" None (Some "s1")) = Some sub
        \/ (p1 <> p2 /\ @short_hash identity_digest p1 = Ok "616c6963653a7331"
            /\ @short_hash identity_digest p2 = Ok "616c6963653a7331")).
Proof.
  apply (@session_bound_to_subject ascii_platform identity_digest string); [reflexivity..| |];
    intros sub [= <-]; reflexivity.
Defined.

Definition w_begin (st : MemoryStore) (x : Extensions string) : result (@Invoker string_payloads string_fields) SessionStoreError :=
  @for_request ascii_platform identity_digest string_payloads string_fields (@memory_store map_order) st x "body" plan_default.

Definition w_started (st : MemoryStore) (x : Extensions string) : @Invoker string_payloads string_fields :=
  match w_begin st x with
  | Ok iv => iv
  | Err _ => @mkInvoker string_payloads string_fields Extensions_default "" false plan_default None ∅
  end.

(** The policy allows the first request and taints its session; the second one starts with the label. *)
Definition w_tainting : RouteDecision :=
  mkRouteDecision Allow [mkTaint "pii" [ScopeSession]; mkTaint "draft" [ScopeMessage]] [] false false None.

Definition w_finished : MemoryStore * Settled * option (OwnedExtensions string) :=
  @finish_request ascii_platform map_order string_payloads string_fields (@memory_store map_order) ∅
    (CompiledRoute_new "tool:pay") (w_ext "alice" None None) false w_tainting ∅
    (w_started ∅ (w_ext "alice" None None)).

Lemma session_taint_sticks_witness :
  snapshot_labels (iv_extensions (w_started ∅ (w_ext "alice" None None))) = ∅
  /\ w_finished.1.2 = (true, None)
  /\ "pii" ∈ snapshot_labels (iv_extensions (w_started w_finished.1.1 (w_ext "alice" None None))).
Proof.
  split; [by vm_compute|]. split; [by vm_compute|].
  eapply (@session_taint_sticks ascii_platform identity_digest map_order string_payloads string_fields
    (@memory_store map_order) memory_laws ∅ ∅ w_finished.1.1 w_finished.1.1 (CompiledRoute_new "tool:pay")
    (w_ext "alice" None None) false w_tainting ∅ (w_ext "alice" None None) "body" plan_default
    (w_started ∅ (w_ext "alice" None None)) (w_started ∅ (w_ext "alice" None None)) None w_finished.2
    (w_ext "alice" None None) "body" plan_default).
  - reflexivity.
  - reflexivity.
  - apply rtc_refl.
  - by intros s.
  - reflexivity.
  - by intros s.
  - reflexivity.
  - reflexivity.
  - right. left.
  - by vm_compute.
Defined.
