(* ===== verification/Delegation.v ===== *)
(** * Delegation and elicitation ([ppe-core/src/delegation], [ppe-core/src/elicitation],
    [ppe-apl-runtime/src])

    The payloads a [delegate(...)] step and an approval step send through the engine, the two
    invokers that build them from the step and read the answers back
    ([delegation_invoker.rs], [elicitation_invoker.rs]), and where a minted token is kept. *)

From Stdlib Require Import Ascii String.
From S2P Require Import Prelude RustStr F64 Json Platform Attributes Rules Constraint Step Eval Effects.
From S2P Require Import StepParser Paths Host ExtData Plugin Extensions Executor Hooks Config DecisionCache Bridge.
From S2P Require Import Runtime Session.

(** ** The delegation payload ([delegation/payload.rs]) *)

Inductive DelegationSubject : Type := SubjUser | SubjClient | SubjCallerWorkload | SubjThisWorkload.

#[global] Instance DelegationSubject_eq_dec : EqDecision DelegationSubject.
Proof. solve_decision. Defined.

Definition inbound_role (s : DelegationSubject) : option TokenRole :=
  match s with
  | SubjUser => Some RoleUser
  | SubjClient => Some RoleClient
  | SubjCallerWorkload => Some RoleCallerWorkload
  | SubjThisWorkload => None
  end.

Definition default_mode (s : DelegationSubject) : DelegationMode :=
  match s with
  | SubjUser => OnBehalfOfUser
  | SubjClient => AsClient
  | SubjCallerWorkload => AsCallerWorkload
  | SubjThisWorkload => AsThisWorkload
  end.

Definition from_config_str (s : string) : option DelegationSubject :=
  if String.eqb s "user" then Some SubjUser
  else if String.eqb s "client" then Some SubjClient
  else if String.eqb s "caller_workload" || String.eqb s "workload" then Some SubjCallerWorkload
  else if String.eqb s "this_workload" || String.eqb s "gateway" then Some SubjThisWorkload
  else None.

Inductive TargetType : Type := TgTool | TgAgent | TgResource | TgService | TgCustom (s : string).
Inductive AuthEnforcedBy : Type := ByCaller | ByTarget | ByBoth.

Record AttenuationConfig : Type := mkAttenuation {
  at_capabilities : list string;
  at_resource_template : option string;
  at_actions : list string;
  at_ttl_seconds : option Z;
}.

Record DelegationPayload : Type := mkDelegationPayload {
  dp_bearer_token : string;
  dp_actor_token : string;
  dp_actor_role : option TokenRole;
  dp_subject : DelegationSubject;
  dp_delegator_name : string;
  dp_target_name : string;
  dp_target_type : TargetType;
  dp_target_audience : option string;
  dp_required_permissions : list string;
  dp_trust_domain : option string;
  dp_auth_enforced_by : AuthEnforcedBy;
  dp_route_attenuation : option AttenuationConfig;
  dp_delegated_token : option RawDelegatedToken;
  dp_delegation_update : option DelegationExtension;
  dp_delegation_mode : option DelegationMode;
  dp_minted_at : option DateTime;
  dp_metadata : gmap string json;
}.

Definition delegation_payload_new (bearer_token target_name : string) : DelegationPayload :=
  mkDelegationPayload bearer_token "" None SubjUser "" target_name TgTool None [] None ByCaller None
    None None None None ∅.

(** The output slots of [other] over those of [self]. *)
Definition delegation_merge (self other : DelegationPayload) : DelegationPayload :=
  mkDelegationPayload (dp_bearer_token self) (dp_actor_token self) (dp_actor_role self) (dp_subject self)
    (dp_delegator_name self) (dp_target_name self) (dp_target_type self) (dp_target_audience self)
    (dp_required_permissions self) (dp_trust_domain self) (dp_auth_enforced_by self) (dp_route_attenuation self)
    (match dp_delegated_token other with Some t => Some t | None => dp_delegated_token self end)
    (match dp_delegation_update other with Some u => Some u | None => dp_delegation_update self end)
    (match dp_delegation_mode other with Some m => Some m | None => dp_delegation_mode self end)
    (match dp_minted_at other with Some t => Some t | None => dp_minted_at self end)
    (dp_metadata other ∪ dp_metadata self).

Definition involves_workload (p : DelegationPayload) : bool :=
  bool_decide (dp_subject p = SubjCallerWorkload) || bool_decide (dp_actor_role p = Some RoleCallerWorkload).

Definition involves_client (p : DelegationPayload) : bool :=
  bool_decide (dp_subject p = SubjClient) || bool_decide (dp_actor_role p = Some RoleClient).

(** *** Where a minted token is kept *)

(** [.filter(|id| !id.is_empty())]. *)
Definition nonempty (s : option string) : option string :=
  match s with Some id => if String.eqb id "" then None else Some id | None => None end.

Definition token_key {M} (p : DelegationPayload) (token : RawDelegatedToken) (x : Extensions M) : DelegationKey :=
  let sec := x_security x in
  mkDelegationKey
    (default "" ((sec ≫= sec_subject) ≫= sj_id))
    (if involves_workload p then (sec ≫= sec_caller_workload) ≫= wi_spiffe_id else None)
    (if involves_client p then nonempty (cl_client_id <$> (sec ≫= sec_client)) else None)
    (dp_delegator_name p) (dp_target_name p) (rd_audience token) (rd_scopes token)
    (default OnBehalfOfUser (dp_delegation_mode p)).

Definition set_delegation {M} (x : Extensions M) (raw : option RawCredentialsExtension) (d : option DelegationExtension) :
    Extensions M :=
  mkExtensions (x_request x) (x_agent x) (x_http x) (x_security x) (x_candidate_constraint x) d raw (x_mcp x)
    (x_completion x) (x_provenance x) (x_llm x) (x_llm_request x) (x_framework x) (x_meta x) (x_metadata x)
    (x_custom x) (x_http_write_token x) (x_labels_write_token x) (x_delegation_write_token x)
    (x_http_transport x) (x_effect_log x).

Definition RawCredentials_default : RawCredentialsExtension := mkRawCredentials ∅ ∅.

Definition delegation_apply {M} (p : DelegationPayload) (x : Extensions M) : Extensions M :=
  let raw :=
    match dp_delegated_token p with
    | Some token =>
        let raw := default RawCredentials_default (x_raw_credentials x) in
        Some (mkRawCredentials (rc_inbound_tokens raw)
                (<[token_key p token x := token]> (rc_delegated_tokens raw)))
    | None => x_raw_credentials x
    end in
  set_delegation x raw (match dp_delegation_update p with Some u => Some u | None => x_delegation x end).

(** ** The delegation invoker ([delegation_invoker.rs]) *)

(** A key of the step's configuration. *)
Definition cfg_get (cfg : option (list (yaml * yaml))) (key : string) : option yaml := cfg ≫= mapping_get key.

Definition subject_from_cfg (cfg : option (list (yaml * yaml))) : result DelegationSubject DelegationError :=
  match cfg_get cfg "subject" with
  | None => Ok SubjUser
  | Some v =>
      match yaml_as_str v with
      | None => Err (DelInvalidConfig "`subject:` must be a string")
      | Some s =>
          match from_config_str s with
          | Some subject => Ok subject
          | None => Err (DelInvalidConfig ("unknown `subject: " +:+ s
                      +:+ "` (expected user | client | caller_workload | this_workload)"))
          end
      end
  end.

Definition role_from_cfg (cfg : option (list (yaml * yaml))) (key : string) : result (option TokenRole) DelegationError :=
  match cfg_get cfg key with
  | None => Ok None
  | Some v =>
      match yaml_as_str v with
      | None => Err (DelInvalidConfig ("`" +:+ key +:+ ":` must be a string"))
      | Some s =>
          if String.eqb s "user" then Ok (Some RoleUser)
          else if String.eqb s "client" then Ok (Some RoleClient)
          else if String.eqb s "caller_workload" || String.eqb s "workload" then Ok (Some RoleCallerWorkload)
          else Err (DelInvalidConfig ("unknown `" +:+ key +:+ ": " +:+ s
                      +:+ "` (expected user | client | caller_workload)"))
      end
  end.

Definition reject_unsupported_actor_combo (subject : DelegationSubject) (actor : option TokenRole) :
    result unit DelegationError :=
  if is_some actor && (match subject with SubjCallerWorkload | SubjThisWorkload => true | _ => false end)
  then Err (DelInvalidConfig
         "`actor:` is not supported with `subject: caller_workload` or `subject: this_workload` — the actor would be silently ignored")
  else Ok tt.

Definition target_type_from_str (s : string) : TargetType :=
  let s := to_ascii_lowercase s in
  if String.eqb s "tool" then TgTool
  else if String.eqb s "agent" then TgAgent
  else if String.eqb s "resource" then TgResource
  else if String.eqb s "service" then TgService
  else TgCustom s.

Definition auth_enforced_by_from_str (s : string) : AuthEnforcedBy :=
  let s := to_ascii_lowercase s in
  if String.eqb s "caller" then ByCaller else if String.eqb s "target" then ByTarget else ByCaller.

Fixpoint permission_list (i : nat) (l : list yaml) : result (list string) DelegationError :=
  match l with
  | [] => Ok []
  | v :: rest =>
      match yaml_as_str v with
      | None => Err (DelInvalidConfig ("`permissions[" +:+ show_nat i +:+ "]` must be a string"))
      | Some s => let? ss := permission_list (S i) rest in Ok (s :: ss)
      end
  end.

Definition permissions_from_cfg (cfg : option (list (yaml * yaml))) : result (list string) DelegationError :=
  match cfg_get cfg "permissions" with
  | None => Ok []
  | Some v =>
      match untag v with
      | YSequence l => permission_list 0 l
      | _ => Err (DelInvalidConfig "`permissions:` must be a sequence")
      end
  end.

(** The two payloads among those of the executor, and serde's reading of an [attenuation:]
    block, which refuses unknown keys. *)
Class DelegationHost `{Payloads} := {
  of_delegation : DelegationPayload -> Payload;
  as_delegation : Payload -> option DelegationPayload;
  as_of_delegation : forall p, as_delegation (of_delegation p) = Some p;
  decode_attenuation : yaml -> result AttenuationConfig string;
}.

Definition attenuation_from_cfg `{DelegationHost} (cfg : option (list (yaml * yaml))) :
    result (option AttenuationConfig) DelegationError :=
  match cfg_get cfg "attenuation" with
  | None => Ok None
  | Some att =>
      match decode_attenuation att with
      | Ok a => Ok (Some a)
      | Err e => Err (DelInvalidConfig ("invalid `attenuation:` block: " +:+ e))
      end
  end.

Section Invokers.
Context `{HashOrder, Chrono, DelegationHost}.

(** The inbound credential of a role, empty when there is none. *)
Definition inbound_token (x : Extensions Message) (role : option TokenRole) : string :=
  match role, x_raw_credentials x with
  | Some r, Some rc => match rc_inbound_tokens rc !! r with Some t => ri_token t | None => "" end
  | _, _ => ""
  end.

(** The payload of a step, from its configuration and the credentials of the request. *)
Definition delegation_payload (step : DelegateStep) (x : Extensions Message) : result DelegationPayload DelegationError :=
  let cfg := dg_config_override step ≫= as_mapping in
  let? subject := subject_from_cfg cfg in
  let bearer_token := inbound_token x (inbound_role subject) in
  let target_name := default (dg_plugin_name step) (cfg_get cfg "target" ≫= yaml_as_str) in
  let? actor_role := role_from_cfg cfg "actor" in
  let? _ := reject_unsupported_actor_combo subject actor_role in
  let actor_token := inbound_token x actor_role in
  let actor := if String.eqb actor_token "" then (None, "") else (actor_role, actor_token) in
  let audience := cfg_get cfg "audience" ≫= yaml_as_str in
  let? perms := permissions_from_cfg cfg in
  let target_type := match cfg_get cfg "target_type" ≫= yaml_as_str with
                     | Some s => target_type_from_str s | None => TgTool end in
  let enforced_by := match cfg_get cfg "auth_enforced_by" ≫= yaml_as_str with
                     | Some s => auth_enforced_by_from_str s | None => ByCaller end in
  let? attenuation := attenuation_from_cfg cfg in
  Ok (mkDelegationPayload bearer_token actor.2 actor.1 subject (dg_plugin_name step) target_name target_type audience
        perms None enforced_by attenuation None None None None ∅).

(** The shared extensions, the disabled plugins and the outcome. *)
Definition delegate_step (en : RuntimeEngine) (sched : schedule) (plan : RouteDispatchPlan) (step : DelegateStep)
    (shared : Extensions Message) (disabled : DisabledSet) :
    Extensions Message * DisabledSet * result DelegationOutcome DelegationError :=
  match pl_delegation_entries plan !! dg_plugin_name step with
  | None => (shared, disabled, Err (DelNotFound (dg_plugin_name step)))
  | Some entry =>
      match delegation_payload step (clone shared) with
      | Err e => (shared, disabled, Err e)
      | Ok payload =>
          let '(r, disabled) := invoke_entries en sched disabled [entry] (of_delegation payload) (clone shared) in
          if negb (pp_continue_processing r) then
            (shared, disabled,
             Ok (mkDelegationOutcome
                   (match pp_violation r with
                    | Some v => Deny (Some (vi_reason v)) (vi_code v)
                    | None => Deny (Some ("delegate `" +:+ dg_plugin_name step +:+ "` denied without violation detail"))
                                (dg_source step)
                    end) [] None None))
          else
            match pp_modified_payload r ≫= as_delegation with
            | None =>
                (shared, disabled,
                 Err (DelDispatch ("plugin `" +:+ dg_plugin_name step +:+ "` returned allow but no DelegationPayload")))
            | Some resolved =>
                (delegation_apply resolved (clone shared), disabled,
                 Ok (match dp_delegated_token resolved with
                     | Some tok => mkDelegationOutcome Allow (rd_scopes tok) (Some (rd_audience tok))
                                     (Some (rfc3339 (rd_expires_at tok)))
                     | None => mkDelegationOutcome Allow [] None None
                     end))
            end
      end
  end.
End Invokers.

(** ** The elicitation payload ([elicitation/payload.rs]) *)

Inductive ElicitationOp : Type := OpDispatch | OpCheck | OpValidate.
Inductive ElicitationStatusKind : Type := KindPending | KindResolved | KindExpired.
Inductive ElicitationOutcomeKind : Type := KindApproved | KindDenied.

Record ElicitationPayload : Type := mkElicitationPayload {
  ep_operation : ElicitationOp;
  ep_elicitation_id : option string;
  ep_elicit_kind : string;
  ep_from : string;
  ep_purpose : option string;
  ep_scope : option string;
  ep_timeout : option string;
  ep_channel : option string;
  ep_route_key : string;
  ep_tool : string;
  ep_requester : string;
  ep_peek : bool;
  ep_id : option string;
  ep_status : option ElicitationStatusKind;
  ep_outcome : option ElicitationOutcomeKind;
  ep_approver : option string;
  ep_intent_id : option string;
  ep_expires_at : option string;
  ep_valid : option bool;
  ep_reason : option string;
  ep_metadata : gmap string json;
}.

(** What the invoker binds an approval to ([with_context]). *)
Record ElicitationContext : Type := mkElicitationContext {
  ec_route_key : string;
  ec_tool : string;
  ec_requester : string;
  ec_peek : bool;
}.

(** [new], [with_elicitation_id], [apply_step_inputs], [with_binding] and [with_peek]. *)
Definition elicitation_payload (op : ElicitationOp) (step : ElicitStep) (from : string) (id : option string)
    (cx : ElicitationContext) (peek : bool) : ElicitationPayload :=
  mkElicitationPayload op id (ElicitKind_as_str (el_kind step)) from (el_purpose step) (el_scope step)
    (el_timeout step) (el_channel step) (ec_route_key cx) (ec_tool cx) (ec_requester cx) peek
    None None None None None None None None ∅.

Class ElicitationHost `{Payloads} := {
  of_elicitation : ElicitationPayload -> Payload;
  as_elicitation : Payload -> option ElicitationPayload;
  as_of_elicitation : forall p, as_elicitation (of_elicitation p) = Some p;
}.

(** ** The elicitation invoker ([elicitation_invoker.rs]) *)

Section Elicitation.
Context `{HashOrder, ElicitationHost}.
Variable en : RuntimeEngine.
Variable sched : schedule.
Variable plan : RouteDispatchPlan.
Variable cx : ElicitationContext.

(** [invoke]: the shared extensions are read, not written. *)
Definition elicit_invoke (op plugin_name : string) (payload : ElicitationPayload) (shared : Extensions Message)
    (disabled : DisabledSet) : DisabledSet * result ElicitationPayload ElicitationError :=
  match pl_elicitation_entries plan !! plugin_name with
  | None => (disabled, Err (ElNotFound plugin_name))
  | Some entry =>
      let '(r, disabled) := invoke_entries en sched disabled [entry] (of_elicitation payload) (clone shared) in
      (disabled,
       if negb (pp_continue_processing r) then
         Err (match pp_violation r with
              | Some v =>
                  let reason := op +:+ ": plugin `" +:+ plugin_name +:+ "` halted: " +:+ vi_reason v in
                  if String.eqb (vi_code v) STORE_UNAVAILABLE_CODE then ElStoreUnavailable (vi_code v) reason
                  else ElHandlerViolation (vi_code v) reason
              | None => ElHandler (op +:+ ": plugin `" +:+ plugin_name +:+ "` halted without violation detail")
              end)
       else match pp_modified_payload r ≫= as_elicitation with
            | Some out => Ok out
            | None => Err (ElHandler (op +:+ ": plugin `" +:+ plugin_name +:+ "` returned allow but no ElicitationPayload"))
            end)
  end.

Definition elicitation_dispatch (step : ElicitStep) (resolved_from : string) (shared : Extensions Message)
    (disabled : DisabledSet) : DisabledSet * result ElicitationDispatch ElicitationError :=
  let '(disabled, out) :=
    elicit_invoke "dispatch" (el_plugin_name step) (elicitation_payload OpDispatch step resolved_from None cx false)
      shared disabled in
  (disabled,
   let? out := out in
   match ep_id out with
   | None => Err (ElHandler ("dispatch: plugin `" +:+ el_plugin_name step +:+ "` dispatched without returning an id"))
   | Some id => Ok (mkElicitationDispatch id (ep_approver out) (ep_intent_id out) (ep_expires_at out))
   end).

Definition elicitation_check (step : ElicitStep) (id : string) (shared : Extensions Message)
    (disabled : DisabledSet) : DisabledSet * result ElicitationStatus ElicitationError :=
  let '(disabled, out) :=
    elicit_invoke "check" (el_plugin_name step) (elicitation_payload OpCheck step "" (Some id) cx false)
      shared disabled in
  (disabled,
   let? out := out in
   Ok (match ep_status out with
       | Some KindPending | None => StatusPending
       | Some KindExpired => StatusExpired
       | Some KindResolved =>
           StatusResolved (match ep_outcome out with Some KindApproved => Approved | Some KindDenied | None => Denied end)
       end)).

Definition elicitation_validate (step : ElicitStep) (id : string) (shared : Extensions Message)
    (disabled : DisabledSet) : DisabledSet * result ElicitationValidation ElicitationError :=
  let '(disabled, out) :=
    elicit_invoke "validate" (el_plugin_name step) (elicitation_payload OpValidate step "" (Some id) cx (ec_peek cx))
      shared disabled in
  (disabled,
   let? out := out in
   Ok (mkElicitationValidation (default false (ep_valid out)) (ep_approver out) (ep_intent_id out) (ep_reason out))).
End Elicitation.
