(* ===== verification/DelegationProps.v ===== *)
(** * Properties of delegation and elicitation

    A delegation hands a plugin the credential its step names and no other, writes nothing but
    the minted token and the chain, and keeps the tokens of other principals; a handler that
    does not answer never approves. *)

From Stdlib Require Import Ascii String.
From S2P Require Import Prelude RustStr F64 Json Platform Attributes Rules Constraint Step Eval Effects.
From S2P Require Import StepParser Paths Host ExtData Plugin Extensions Executor ExtProps TierProps ExecutorProps.
From S2P Require Import Hooks Config DecisionCache Bridge BridgeProps Runtime Session RuntimeProps SessionProps Delegation.

(** ** What a delegation sends *)

Section Delegation.
Context `{HashOrder, Chrono, DelegationHost}.

(** The credential of [role], as the request presented it. *)
Definition presented (x : Extensions Message) (role : TokenRole) (token : string) : Prop :=
  exists rc t, x_raw_credentials x = Some rc /\ rc_inbound_tokens rc !! role = Some t /\ ri_token t = token.

Lemma inbound_token_presented x role token :
  inbound_token x role = token -> token <> "" -> exists r, role = Some r /\ presented x r token.
Proof.
  unfold inbound_token. destruct role as [r|]; [|by intros <-].
  destruct (x_raw_credentials x) as [rc|] eqn:Er; [|by intros <-].
  destruct (rc_inbound_tokens rc !! r) as [t|] eqn:Et; [|by intros <-].
  intros <- _. exists r. split; [done|]. by exists rc, t.
Qed.

(** The step's configuration, as the invoker reads it. *)
Definition step_cfg (step : DelegateStep) : option (list (yaml * yaml)) := dg_config_override step ≫= as_mapping.

(** [token] is the credential the request presented in [role], and empty when there is none. *)
Definition sends (x : Extensions Message) (role : option TokenRole) (token : string) : Prop :=
  (forall r t, role = Some r -> presented x r t -> token = t)
  /\ (token <> "" -> exists r, role = Some r /\ presented x r token).

Lemma inbound_token_sends x role : sends x role (inbound_token x role).
Proof.
  split; [|by apply inbound_token_presented]. intros r t -> (rc & tok & Hrc & Ht & <-).
  unfold inbound_token. by rewrite Hrc, Ht.
Qed.

(** What the payload of a step carries: as bearer token the credential of the role its
    [subject:] names, as actor token the one of the role its [actor:] names. *)
Definition names_credentials (step : DelegateStep) (x : Extensions Message) (p : DelegationPayload) : Prop :=
  subject_from_cfg (step_cfg step) = Ok (dp_subject p)
  /\ sends x (inbound_role (dp_subject p)) (dp_bearer_token p)
  /\ exists actor, role_from_cfg (step_cfg step) "actor" = Ok actor /\ sends x actor (dp_actor_token p)
       /\ dp_actor_role p = (if String.eqb (dp_actor_token p) "" then None else actor)
       /\ (actor <> None -> dp_subject p = SubjUser \/ dp_subject p = SubjClient).

Lemma delegation_payload_credentials step x p :
  delegation_payload step x = Ok p -> names_credentials step x p.
Proof.
  unfold delegation_payload, names_credentials. fold (step_cfg step).
  destruct (subject_from_cfg (step_cfg step)) as [subject|] eqn:Es; [|done].
  destruct (role_from_cfg (step_cfg step) "actor") as [role|] eqn:Er; [|done].
  destruct (reject_unsupported_actor_combo subject role) as [[]|] eqn:Ec; [|done].
  destruct (permissions_from_cfg (step_cfg step)) as [perms|]; [|done].
  destruct (attenuation_from_cfg (step_cfg step)) as [att|]; [|done].
  intros [= <-]. cbn [dp_subject dp_bearer_token dp_actor_role dp_actor_token].
  split_and!; [done|apply inbound_token_sends|]. exists role. pose proof (inbound_token_sends x role) as Hs.
  destruct (String.eqb_spec (inbound_token x role) "") as [E|E]; cbn [fst snd].
  - rewrite E in Hs. split_and!; [done..|]. unfold reject_unsupported_actor_combo in Ec.
    destruct role; [|done]. destruct subject; simpl in Ec; auto; done.
  - split_and!; [done..|by rewrite (proj2 (String.eqb_neq _ _) E)|]. unfold reject_unsupported_actor_combo in Ec.
    destruct role; [|done]. destruct subject; simpl in Ec; auto; done.
Qed.

(** ** What a delegation leaves behind *)

(** All slots but the delegation chain and the raw credentials. *)
Definition other_slots {M} (x : Extensions M) : Extensions M := clone (set_delegation x None None).

Lemma delegation_apply_frame {M} p (x : Extensions M) :
  other_slots (delegation_apply p x) = other_slots x /\ x_security (delegation_apply p x) = x_security x.
Proof. by destruct x. Qed.

(** The tokens a request holds. *)
Definition inbound_of {M} (x : Extensions M) : gmap TokenRole RawInboundToken :=
  match x_raw_credentials x with Some rc => rc_inbound_tokens rc | None => ∅ end.
Definition delegated_of {M} (x : Extensions M) : gmap DelegationKey RawDelegatedToken :=
  match x_raw_credentials x with Some rc => rc_delegated_tokens rc | None => ∅ end.

Lemma delegation_apply_tokens {M} p (x : Extensions M) :
  inbound_of (delegation_apply p x) = inbound_of x
  /\ delegated_of (delegation_apply p x)
     = match dp_delegated_token p with
       | Some t => <[token_key p t x := t]> (delegated_of x)
       | None => delegated_of x
       end.
Proof.
  unfold inbound_of, delegated_of, delegation_apply. cbn [x_raw_credentials set_delegation].
  destruct (dp_delegated_token p) as [t|]; [|done]. by destruct (x_raw_credentials x).
Qed.

(** Two exchanges share a cache entry only when they are for the same principals: the same
    user, and the same calling workload or client where one took part in both. *)
Lemma token_key_principals {M} p1 t1 (x1 : Extensions M) p2 t2 (x2 : Extensions M) w1 w2 :
  token_key p1 t1 x1 = token_key p2 t2 x2 ->
  involves_workload p1 = true -> involves_workload p2 = true ->
  (x_security x1 ≫= sec_caller_workload) ≫= wi_spiffe_id = Some w1 ->
  (x_security x2 ≫= sec_caller_workload) ≫= wi_spiffe_id = Some w2 ->
  w1 = w2 /\ default "" (subject_id_of x1) = default "" (subject_id_of x2)
  /\ dp_delegator_name p1 = dp_delegator_name p2.
Proof.
  intros Hk Hw1 Hw2 E1 E2. pose proof (f_equal dk_workload_id Hk) as Hw. pose proof (f_equal dk_subject_id Hk) as Hs.
  pose proof (f_equal dk_delegator_name Hk) as Hd. unfold token_key in Hw, Hs, Hd.
  cbn [dk_workload_id dk_subject_id dk_delegator_name] in Hw, Hs, Hd. rewrite Hw1, Hw2, E1, E2 in Hw.
  by injection Hw.
Qed.

(** Claim C27. [delegation_confined]: a [delegate(...)] step either fails or is denied and leaves
    the shared extensions as they were, or keeps every slot of them but the delegation chain and
    the minted tokens. The caller's inbound credentials, the identity and the labels stay, and so
    does every token minted before, except under the key of the new one. However it ends,
    either it fails before any plugin runs, or the one plugin the route binds to it runs, with
    as bearer token the credential the request presented in the role [subject:] names, and as
    actor token the one presented in the role [actor:] names, each empty when there is none;
    an actor goes with a user or a client only. *)
Theorem delegation_confined en sched plan step shared disabled shared' disabled' r :
  delegate_step en sched plan step shared disabled = (shared', disabled', r) ->
  (shared' = shared
   \/ other_slots shared' = other_slots shared /\ x_security shared' = x_security shared
      /\ inbound_of shared' = inbound_of shared
      /\ (exists o, r = Ok o /\ do_decision o = Allow)
      /\ (delegated_of shared' = delegated_of shared
          \/ exists key token, delegated_of shared' = <[key := token]> (delegated_of shared)
             /\ dk_audience key = rd_audience token /\ dk_scopes key = rd_scopes token
             /\ dk_subject_id key = default "" (subject_id_of shared)))
  /\ (shared' = shared /\ disabled' = disabled /\ (exists e, r = Err e)
      \/ exists entry p res,
           pl_delegation_entries plan !! dg_plugin_name step = Some entry
           /\ invoke_entries en sched disabled [entry] (of_delegation p) (clone shared) = (res, disabled')
           /\ names_credentials step shared p).
Proof.
  unfold delegate_step. destruct (pl_delegation_entries plan !! dg_plugin_name step) as [entry|] eqn:Ee;
    [|intros [= <- <- <-]; split; [by left|left; by split_and!; [..|eexists]]].
  destruct (delegation_payload step (clone shared)) as [p|] eqn:Ep;
    [|intros [= <- <- <-]; split; [by left|left; by split_and!; [..|eexists]]].
  destruct (invoke_entries _ _ _ _ _ _) as [res dis] eqn:Ei. intros Hr.
  assert (dis = disabled') as -> by (repeat case_match; by simplify_eq).
  split; [|right; exists entry, p, res; split_and!; [done..|by apply (delegation_payload_credentials step (clone shared))]].
  destruct (pp_continue_processing res); cbn [negb] in Hr; [|left; by simplify_eq].
  destruct (pp_modified_payload res ≫= as_delegation) as [q|]; [|left; by simplify_eq]. simplify_eq. right.
  destruct (delegation_apply_frame q (clone shared)) as [Hf Hs].
  destruct (delegation_apply_tokens q (clone shared)) as [Hi Hd].
  split_and!; [by rewrite Hf|done|done|by destruct (dp_delegated_token q); eexists|].
  rewrite Hd. destruct (dp_delegated_token q) as [t|]; [right|by left]. by eexists _, t.
Qed.

(** The write of a delegation is one that leaves the labels of the session alone. *)
Lemma delegate_is_call {F : PayloadFields} en sched plan step iv disabled shared' disabled' r :
  delegate_step en sched plan step (iv_extensions iv) disabled = (shared', disabled', r) ->
  call_step iv (with_shared iv shared').
Proof.
  intros Hd. apply shared_write with (x := shared'); [|done].
  unfold delegate_step in Hd. repeat (case_match; simplify_eq/=; try done).
Qed.
End Delegation.

(** ** Approvals *)

Section Approvals.
Context `{HashOrder, ElicitationHost}.
Variable en : RuntimeEngine.
Variable sched : schedule.
Variable plan : RouteDispatchPlan.
Variable cx : ElicitationContext.

(** What a handler that cannot write the payload makes of it. *)
Lemma silent_invoke op name payload shared disabled entry out :
  pl_elicitation_entries plan !! name = Some entry -> modifiers disabled [entry] = [] ->
  (elicit_invoke en sched plan op name payload shared disabled).2 = Ok out -> out = payload.
Proof.
  unfold elicit_invoke. intros -> Hm.
  pose proof (invoke_entries_fst en sched disabled [entry] (of_elicitation payload) (clone shared)) as Hfst.
  destruct (pipeline_readonly (en_executor en) sched disabled [entry] (of_elicitation payload)
    (with_host_services en (clone shared)) None Hm) as (_ & _ & Hp).
  destruct (invoke_entries _ _ _ _ _ _) as [r dis]. cbn [fst is_nil] in Hfst. rewrite <- Hfst in Hp. cbn [snd].
  destruct (pp_continue_processing r); cbn [negb]; [|done]. rewrite Hp by done. cbn [mbind option_bind].
  rewrite as_of_elicitation. by intros [= <-].
Qed.

(** The three calls, by what the handler answered. *)
Lemma check_by_answer step id shared disabled status :
  (elicitation_check en sched plan cx step id shared disabled).2 = Ok status ->
  exists out, (elicit_invoke en sched plan "check" (el_plugin_name step)
                (elicitation_payload OpCheck step "" (Some id) cx false) shared disabled).2 = Ok out
    /\ (status = StatusResolved Approved <-> ep_status out = Some KindResolved /\ ep_outcome out = Some KindApproved)
    /\ (ep_status out = None -> status = StatusPending).
Proof.
  unfold elicitation_check. destruct (elicit_invoke _ _ _ _ _ _ _ _) as [dis [out|]]; [|done]. cbn [snd].
  intros [= <-]. exists out. split; [done|]. destruct (ep_status out) as [[]|], (ep_outcome out) as [[]|]; naive_solver.
Qed.

Lemma validate_by_answer step id shared disabled v :
  (elicitation_validate en sched plan cx step id shared disabled).2 = Ok v ->
  exists out, (elicit_invoke en sched plan "validate" (el_plugin_name step)
                (elicitation_payload OpValidate step "" (Some id) cx (ec_peek cx)) shared disabled).2 = Ok out
    /\ (ev_valid v = true <-> ep_valid out = Some true).
Proof.
  unfold elicitation_validate. destruct (elicit_invoke _ _ _ _ _ _ _ _) as [dis [out|]]; [|done]. cbn [snd].
  intros [= <-]. exists out. split; [done|]. cbn [ev_valid]. by destruct (ep_valid out) as [[]|].
Qed.

(** [silent_handler_never_approves]: an approval handler that cannot write its answer (its
    mode is not sequential or transform, or the engine disabled it) never lets a request
    through: a dispatch fails, a check reports the approval as pending, and a response is not
    valid. Approval needs a handler that answers resolved and approved, and validation one
    that answers valid. *)
Theorem silent_handler_never_approves step from id shared disabled entry :
  pl_elicitation_entries plan !! el_plugin_name step = Some entry ->
  modifiers disabled [entry] = [] ->
  (forall o, (elicitation_dispatch en sched plan cx step from shared disabled).2 <> Ok o)
  /\ (forall s, (elicitation_check en sched plan cx step id shared disabled).2 = Ok s -> s = StatusPending)
  /\ (forall v, (elicitation_validate en sched plan cx step id shared disabled).2 = Ok v -> ev_valid v = false).
Proof.
  intros He Hm. split_and!.
  - intros o. unfold elicitation_dispatch. destruct (elicit_invoke _ _ _ _ _ _ _ _) as [dis [out|]] eqn:E; [|done].
    apply (f_equal snd) in E. apply (silent_invoke _ _ _ _ _ _ _ He Hm) in E as ->. done.
  - intros s (out & Ho & _ & Hn)%check_by_answer.
    apply (silent_invoke _ _ _ _ _ _ _ He Hm) in Ho as ->. by apply Hn.
  - intros v (out & Ho & Hv)%validate_by_answer.
    apply (silent_invoke _ _ _ _ _ _ _ He Hm) in Ho as ->. apply not_true_iff_false. by rewrite Hv.
Qed.
End Approvals.

(** ** Concrete steps *)

(** Payloads that are one of the two. *)
Definition exchange_payloads : Payloads :=
  {| Payload := DelegationPayload + ElicitationPayload; Message := string; as_identity := fun _ => None |}.

Definition exchange_delegation : @DelegationHost exchange_payloads.
Proof.
  refine (@Build_DelegationHost exchange_payloads inl
    (fun p => match p with inl d => Some d | inr _ => None end) _ (fun _ => Err "unknown field")). done.
Defined.

Definition exchange_elicitation : @ElicitationHost exchange_payloads.
Proof.
  refine (@Build_ElicitationHost exchange_payloads inr
    (fun p => match p with inr e => Some e | inl _ => None end) _). done.
Defined.

(** A plugin in [mode] whose handler answers with [f] of the payload. *)
Definition x_entry (mode : PluginMode) (f : @Payload exchange_payloads -> @Payload exchange_payloads) :
    @HookEntry exchange_payloads :=
  @mkEntry exchange_payloads (mkRef 1%N (mkConfig "approver" mode OeFail ∅ 0%Z))
    (fun p _ ctx => @mkInvocation exchange_payloads
      (HOk (Some (@mkErased exchange_payloads true (Some (f p)) None None))) ctx 0%Z None).

Definition x_engine : @RuntimeEngine exchange_payloads :=
  @mkRuntimeEngine exchange_payloads registry_new (fun _ _ _ => None) w_cfg None.

(** The handler says: approved. *)
Definition say_approved (p : @Payload exchange_payloads) : @Payload exchange_payloads :=
  match p with
  | inr e => inr (mkElicitationPayload (ep_operation e) (ep_elicitation_id e) (ep_elicit_kind e) (ep_from e)
      (ep_purpose e) (ep_scope e) (ep_timeout e) (ep_channel e) (ep_route_key e) (ep_tool e) (ep_requester e)
      (ep_peek e) (Some "e1") (Some KindResolved) (Some KindApproved) (Some "bob") None None (Some true) None ∅)
  | inl d => inl d
  end.

Definition x_step : ElicitStep := mkElicit Approval "approver" None "manager" None None None None None "r".
Definition x_cx : ElicitationContext := mkElicitationContext "tool:pay" "pay" "alice" false.
Definition x_plan (mode : PluginMode) : @RouteDispatchPlan exchange_payloads :=
  mkPlan ∅ ∅ {["approver" := x_entry mode say_approved]}.

Definition x_check (mode : PluginMode) :=
  (@elicitation_check exchange_payloads exchange_elicitation x_engine (fun _ => (0, false)) (x_plan mode) x_cx x_step
    "e1" Extensions_default ∅).2.

(** In a mode that can answer, the same handler approves. *)
Example sequential_handler_approves : x_check Sequential = Ok (StatusResolved Approved).
Proof. by vm_compute. Qed.


(** The handler mints a token for whatever audience it is asked for. *)
Definition mint (p : @Payload exchange_payloads) : @Payload exchange_payloads :=
  match p with
  | inl d => inl (delegation_merge d (mkDelegationPayload "" "" None SubjUser "" "" TgTool None [] None ByCaller None
      (Some (mkDelegated ("minted-for-" +:+ dp_bearer_token d) "authorization" "Bearer " "api" ["read"] 0%Z))
      None (Some (default_mode (dp_subject d))) None ∅))
  | inr e => inr e
  end.

Definition x_delegate : DelegateStep :=
  mkDelegate "approver" (Some (YMapping [(YString "subject", YString "client"); (YString "actor", YString "user");
    (YString "audience", YString "api")])) None "r".

Definition x_shared : Extensions string :=
  set_delegation Extensions_default
    (Some (mkRawCredentials
       {[RoleUser := mkInbound "user-token" (CredHeader "authorization") KindJwt;
         RoleClient := mkInbound "client-token" (CredHeader "x-client") KindJwt]} ∅)) None.

Definition x_delegated :=
  @delegate_step no_dates exchange_payloads exchange_delegation x_engine (fun _ => (0, false))
    (mkPlan ∅ {["approver" := x_entry Sequential mint]} ∅) x_delegate x_shared ∅.

Lemma delegation_confined_witness :
  map snd (map_to_list (delegated_of x_delegated.1.1))
    = [mkDelegated "minted-for-client-token" "authorization" "Bearer " "api" ["read"] 0%Z]
  /\ exists p, @names_credentials exchange_payloads x_delegate x_shared p /\ dp_bearer_token p = "client-token"
       /\ dp_actor_token p = "user-token".
Proof.
  split; [by vm_compute|].
  destruct (@delegation_confined no_dates exchange_payloads exchange_delegation x_engine (fun _ => (0, false))
    (mkPlan ∅ {["approver" := x_entry Sequential mint]} ∅) x_delegate x_shared ∅
    x_delegated.1.1 x_delegated.1.2 x_delegated.2) as [_ [(_ & _ & e & He)|(entry & p & res & _ & _ & Hp)]].
  - unfold x_delegated. by destruct (delegate_step _ _ _ _ _ _) as [[] ].
  - vm_compute in He. discriminate He.
  - exists p. split; [exact Hp|]. destruct Hp as (Hsub & [Hb _] & actor & Ha & [Hat _] & _).
    assert (Hc : subject_from_cfg (step_cfg x_delegate) = Ok SubjClient) by by vm_compute.
    assert (Hu : role_from_cfg (step_cfg x_delegate) "actor" = Ok (Some RoleUser)) by by vm_compute.
    rewrite Hc in Hsub. rewrite Hu in Ha. injection Hsub as Hsub. injection Ha as Ha.
    split; [apply (Hb RoleClient); [by rewrite <- Hsub|]|apply (Hat RoleUser); [by rewrite <- Ha|]];
      eexists _, _; by vm_compute.
Defined.
