(* ===== verification/Credential.v ===== *)
(** * Reading a credential from a request ([ppe-core/src/http_credential.rs],
    [ppe-core/src/identity/credential.rs])

    The parsers of a [Cookie] header and of a query string, the location a resolver reads its
    credential from, and the theorem that what is read is the only value any reader of the
    request could take for it. *)

From Stdlib Require Import Ascii String.
From S2P Require Import Prelude RustStr F64 Json Platform Lexical PipelineEval LexerProps ExtData Plugin Extensions.
From S2P Require Import Scan HttpPath Hooks Config.

(** ** The raw strings ([http_credential.rs]) *)

Definition MAX_INPUT_LEN : nat := 2 ^ 14.

Inductive CredentialParseError : Type :=
| TooLong (location : string) (len max : nat)
| ControlChar (location : string)
| DuplicateName (location name : string)
| PercentEncodedName (encoded credential : string).

(** [char::to_digit(16)] of a byte. *)
Definition to_hex_digit (a : ascii) : option N :=
  let n := N_of_ascii a in
  if is_ascii_digit a then Some (n - 48)%N
  else if in_byte_range 97 102 a then Some (n - 87)%N
  else if in_byte_range 65 70 a then Some (n - 55)%N
  else None.

(** [u8::from_str_radix] of two bytes: two digits, or a [+] and one digit. *)
Definition hex_pair (hi lo : ascii) : option ascii :=
  match to_hex_digit lo with
  | None => None
  | Some l =>
      if Ascii.eqb hi "+" then Some (ascii_of_N l)
      else match to_hex_digit hi with Some h => Some (ascii_of_N (16 * h + l)) | None => None end
  end.

Fixpoint percent_decode (s : string) : option string :=
  match s with
  | EmptyString => Some ""
  | String b rest =>
      if Ascii.eqb b "%" then
        match rest with
        | String hi (String lo rest') =>
            match hex_pair hi lo with
            | Some d => match percent_decode rest' with Some out => Some (String d out) | None => None end
            | None => None
            end
        | _ => None
        end
      else match percent_decode rest with Some out => Some (String b out) | None => None end
  end.

(** [percent_decode_name]. Bytes that are not UTF-8 are [None] there; no name is equal to them. *)
Definition percent_decode_name (input : string) : option string :=
  if contains_char "%" input then percent_decode input else None.

Definition tab : ascii := ascii_of_N 9.

Definition parse_validate (raw location : string) : result unit CredentialParseError :=
  if (MAX_INPUT_LEN <? String.length raw)%nat then Err (TooLong location (String.length raw) MAX_INPUT_LEN)
  else if negb (string_forall (fun b => negb (is_ascii_control b && negb (Ascii.eqb b tab))) raw)
  then Err (ControlChar location)
  else Ok tt.

Definition Pairs : Type := gmap string string.

Definition insert_unique (location credential_name : string) (map : Pairs) (name value : string) :
    result Pairs CredentialParseError :=
  if String.eqb name credential_name && bool_decide (is_Some (map !! name)) then Err (DuplicateName location name)
  else Ok (match map !! name with Some _ => map | None => <[name := value]> map end).

(** [for (name, value) in pairs { insert_unique(..)?; }]. *)
Fixpoint insert_all (location credential_name : string) (map : Pairs) (pairs : list (string * string)) :
    result Pairs CredentialParseError :=
  match pairs with
  | [] => Ok map
  | (name, value) :: pairs' =>
      let? map := insert_unique location credential_name map name value in
      insert_all location credential_name map pairs'
  end.

(** The pair a cookie is read as; an empty one is skipped. *)
Definition cookie_pair (pair : string) : option (string * string) :=
  let pair := trim_start pair in
  if String.eqb pair "" then None
  else Some (match split_once "=" pair with Some (n, v) => (trim n, v) | None => (trim pair, "") end).

Definition parse_cookie_header (raw credential_name : string) : result Pairs CredentialParseError :=
  let? _ := parse_validate raw "cookie" in
  insert_all "cookie" credential_name ∅ (omap cookie_pair (split ";" raw)).

Definition query_pair (segment : string) : option (string * string) :=
  if String.eqb segment "" then None
  else Some (match split_once "=" segment with Some (n, v) => (n, v) | None => (segment, "") end).

Definition is_encoded_name (credential_name key : string) : bool :=
  match percent_decode_name key with Some decoded => String.eqb decoded credential_name | None => false end.

Definition parse_query_string `{HashOrder} (raw credential_name : string) : result Pairs CredentialParseError :=
  let? _ := parse_validate raw "query_param" in
  let? out := insert_all "query_param" credential_name ∅ (omap query_pair (split "&" raw)) in
  match List.find (fun kv => is_encoded_name credential_name kv.1) (hash_iter out) with
  | Some (key, _) =>
      match out !! credential_name with
      | Some _ => Err (DuplicateName "query_param" credential_name)
      | None => Err (PercentEncodedName key credential_name)
      end
  | None => Ok out
  end.

(** ** The configured location ([identity/credential.rs]) *)

Record CredentialLocation : Type := mkLocation {
  lo_credential : Credential;
  lo_prefix : option string;
}.

Inductive ExtractionError : Type := ExMissing | ExEmpty | ExWrongPrefix | ExAmbiguous | ExMalformed.

(** The characters of a [String] are whole; [split_at_checked] inside one is [None], and the
    head it would give is not the prefix. *)
Definition strip_prefix_ignore_case (value prefix : string) : option string :=
  if (String.length value <? String.length prefix)%nat then None
  else
    let head := String.substring 0 (String.length prefix) value in
    let tail := String.substring (String.length prefix) (String.length value - String.length prefix) value in
    if eq_ignore_ascii_case head prefix then Some tail else None.

Definition map_parse_error (e : CredentialParseError) : ExtractionError :=
  match e with DuplicateName _ _ => ExAmbiguous | _ => ExMalformed end.

Definition header_matches (headers : Pairs) (name : string) : list string :=
  map snd (List.filter (fun kv => eq_ignore_ascii_case kv.1 name) (map_to_list headers)).

Definition single_header_ci (headers : Pairs) (name : string) : result string ExtractionError :=
  match header_matches headers name with
  | [] => Err ExMissing
  | [value] => Ok value
  | _ => Err ExAmbiguous
  end.

(** [str::trim_start_matches(' ')]. *)
Fixpoint trim_spaces (s : string) : string :=
  match s with
  | String a s' => if Ascii.eqb a " " then trim_spaces s' else s
  | EmptyString => ""
  end.

Definition strip_gate (raw prefix : string) : result string ExtractionError :=
  match split_once " " prefix with
  | None => if starts_with prefix raw then Ok raw else Err ExWrongPrefix
  | Some (scheme, leader) =>
      match strip_prefix_ignore_case raw scheme with
      | None => Err ExWrongPrefix
      | Some after_scheme =>
          let credential := trim_spaces after_scheme in
          if (String.length credential =? String.length after_scheme)%nat then Err ExWrongPrefix
          else if starts_with (trim_spaces leader) credential then Ok credential else Err ExWrongPrefix
      end
  end.

Definition gate (self : CredentialLocation) (raw : string) : result string ExtractionError :=
  if String.eqb raw "" then Err ExEmpty
  else
    let? after := match lo_prefix self with Some prefix => strip_gate raw prefix | None => Ok raw end in
    if String.eqb after "" then Err ExEmpty else Ok after.

Definition extract_header (self : CredentialLocation) (headers : Pairs) (name : string) :
    result string ExtractionError :=
  let? raw := single_header_ci headers name in gate self raw.

Definition extract_cookie (self : CredentialLocation) (headers : Pairs) (name : string) :
    result string ExtractionError :=
  let? cookie_header := single_header_ci headers "cookie" in
  let? cookies := result_map_err map_parse_error (parse_cookie_header cookie_header name) in
  match cookies !! name with None => Err ExMissing | Some v => gate self v end.

Definition extract_query_param `{HashOrder} (self : CredentialLocation) (query : option string) (name : string) :
    result string ExtractionError :=
  match query with
  | None => Err ExMissing
  | Some qs =>
      let? params := result_map_err map_parse_error (parse_query_string qs name) in
      match params !! name with None => Err ExMissing | Some v => gate self v end
  end.

(** [CredentialLocation::raw]. *)
Definition location_raw `{HashOrder} (self : CredentialLocation) (headers : Pairs) (query : option string) :
    result string ExtractionError :=
  match lo_credential self with
  | CredHeader name => extract_header self headers name
  | CredCookie name => extract_cookie self headers name
  | CredQueryParam name => extract_query_param self query name
  end.

(** [CredentialLocation::raw_from_ext]. *)
Definition raw_from_ext `{HashOrder} {M} (self : CredentialLocation) (headers : Pairs) (x : Extensions M) :
    result string ExtractionError :=
  location_raw self headers (x_http x ≫= ht_query).

(** [http::header::HeaderName::from_bytes]: a token of the HTTP grammar, of at most 65535
    bytes. *)
Definition is_token_byte (a : ascii) : bool :=
  is_ascii_alphanumeric a || existsb (Ascii.eqb a) (list_ascii_of_string "!#$%&'*+-.^_`|~").

Definition is_header_name (name : string) : bool :=
  negb (String.eqb name "") && string_forall is_token_byte name && (Z.of_nat (String.length name) <=? 65535)%Z.

Inductive LocationError : Type :=
| LocNameEmpty
| LocNameWhitespace
| LocCookieName
| LocQueryName
| LocNotToken
| LocPrefixEmpty
| LocPrefixSpace.

Definition credential_name (c : Credential) : string :=
  match c with CredHeader name | CredCookie name | CredQueryParam name => name end.

Definition contains_whitespace (s : string) : bool := existsb is_whitespace (chars s).

(** [CredentialLocation::validate]. *)
Definition location_validate (self : CredentialLocation) : result unit LocationError :=
  let c := lo_credential self in
  let name := credential_name c in
  let cookie := match c with CredCookie _ => true | _ => false end in
  let query := match c with CredQueryParam _ => true | _ => false end in
  if String.eqb (trim name) "" then Err LocNameEmpty
  else if negb (String.eqb name (trim name)) || contains_whitespace name then Err LocNameWhitespace
  else if cookie && (contains_char "=" name || contains_char ";" name) then Err LocCookieName
  else if query && (contains_char "&" name || contains_char "=" name) then Err LocQueryName
  else if negb query && negb (is_header_name name) then Err LocNotToken
  else match lo_prefix self with
       | Some "" => Err LocPrefixEmpty
       | Some (String " " _) => Err LocPrefixSpace
       | _ => Ok tt
       end.

(** ** What is read is the only candidate *)

Lemma insert_unique_ok location cn map name value m :
  insert_unique location cn map name value = Ok m ->
  (name = cn -> map !! cn = None) /\ (forall k, is_Some (m !! k) <-> k = name \/ is_Some (map !! k))
  /\ m !! cn = (if String.eqb name cn then Some value else map !! cn).
Proof.
  unfold insert_unique, Pairs in *. destruct (String.eqb_spec name cn) as [->|Hne]; cbn [andb].
  - case_bool_decide as Hs; [done|]. destruct (map !! cn) as [x|] eqn:E; [by destruct Hs; eexists|].
    intros [= <-]. split_and!; [done| |apply lookup_insert_eq]. intros k. rewrite lookup_insert_is_Some'. naive_solver.
  - intros [= <-]. split_and!; [done| |].
    + intros k. destruct (map !! name) eqn:E; [|rewrite lookup_insert_is_Some'; naive_solver].
      split; [by right|]. intros [->|]; [by eexists|done].
    + destruct (map !! name); [done|]. by rewrite lookup_insert_ne.
Qed.

Lemma insert_all_ok location cn pairs map m :
  insert_all location cn map pairs = Ok m ->
  (forall k, is_Some (m !! k) <-> is_Some (map !! k) \/ k ∈ pairs.*1)
  /\ (forall v, map !! cn = Some v -> m !! cn = Some v /\ cn ∉ pairs.*1)
  /\ (forall v, map !! cn = None -> m !! cn = Some v ->
        exists pre post, pairs = pre ++ (cn, v) :: post /\ cn ∉ pre.*1 /\ cn ∉ post.*1).
Proof.
  revert map. induction pairs as [|[name value] pairs IH]; intros map; cbn [insert_all].
  { intros [= <-]. split_and!; [set_solver|set_solver|]. intros v E E'. unfold Pairs in *. congruence. }
  destruct (insert_unique location cn map name value) as [map'|] eqn:Eu; [|done]. intros Hm.
  apply IH in Hm as (Hk & Hs & Hn). apply insert_unique_ok in Eu as (Hfirst & Hdom & Hcn).
  cbn [fmap list_fmap fst] in *. split_and!.
  - intros k. rewrite Hk, Hdom, elem_of_cons. naive_solver.
  - intros v Ev. destruct (String.eqb_spec name cn) as [->|Hne].
    { unfold Pairs in *. rewrite Hfirst in Ev; done. }
    rewrite <- Hcn in Ev. destruct (Hs v Ev) as [? ?]. split; [done|]. rewrite elem_of_cons. naive_solver.
  - intros v En Ev. destruct (String.eqb_spec name cn) as [->|Hne].
    + destruct (Hs value Hcn) as [Hv Hpost]. unfold Pairs in *. rewrite Hv in Ev. injection Ev as ->.
      exists [], pairs. split_and!; [done|set_solver|done].
    + unfold Pairs in *. rewrite En in Hcn. destruct (Hn v Hcn Ev) as (pre & post & -> & Hpre & Hpost).
      exists ((name, value) :: pre), post. cbn. split_and!; [done|set_solver|done].
Qed.

Lemma header_matches_one (headers : Pairs) name v :
  single_header_ci headers name = Ok v ->
  exists key, headers !! key = Some v /\ eq_ignore_ascii_case key name = true
    /\ forall key' v', headers !! key' = Some v' -> eq_ignore_ascii_case key' name = true -> key' = key.
Proof.
  unfold single_header_ci, header_matches, Pairs in *.
  destruct (List.filter _ (map_to_list headers)) as [|[key w] l] eqn:E; cbn [map]; [done|].
  destruct l as [|]; cbn [map]; [|done]. intros [= <-].
  assert (forall kv, In kv (map_to_list headers) /\ eq_ignore_ascii_case kv.1 name = true <-> kv = (key, w)) as Hone.
  { intros kv. etrans; [symmetry; apply (filter_In (fun kv => eq_ignore_ascii_case kv.1 name))|]. rewrite E. simpl. naive_solver. }
  destruct (proj2 (Hone (key, w)) eq_refl) as [Hin Hci]. exists key.
  split_and!; [by apply elem_of_map_to_list, list_elem_of_In|done|].
  intros key' v' Hk Hc. assert ((key', v') = (key, w)) as Eq.
  { apply Hone. split; [|done]. by apply list_elem_of_In, elem_of_map_to_list. }
  by injection Eq.
Qed.

(** The one header of a name, whatever its case. *)
Definition only_header (headers : Pairs) (name v : string) : Prop :=
  exists key, headers !! key = Some v /\ eq_ignore_ascii_case key name = true
    /\ forall key' v', headers !! key' = Some v' -> eq_ignore_ascii_case key' name = true -> key' = key.

(** The one pair of a name among those a string is read as. *)
Definition only_pair (pairs : list (string * string)) (other : string -> Prop) (name v : string) : Prop :=
  exists pre post, pairs = pre ++ (name, v) :: post
    /\ forall k, k ∈ (pre ++ post).*1 -> k <> name /\ ~ other k.

(** A spelling that percent-decodes to a name: each byte stands for itself or is escaped. *)
Inductive spells : string -> string -> Prop :=
| spells_nil : spells "" ""
| spells_byte b k n : b <> "%"%char -> spells k n -> spells (String b k) (String b n)
| spells_escape hi lo d k n :
    hex_pair hi lo = Some d -> spells k n -> spells (String "%" (String hi (String lo k))) (String d n).

Lemma spells_decode k n : spells k n -> percent_decode k = Some n.
Proof.
  induction 1 as [|b k n Hb _ IH|hi lo d k n Hd _ IH]; [done| |].
  - cbn [percent_decode]. rewrite (proj2 (Ascii.eqb_neq _ _) Hb). by rewrite IH.
  - cbn [percent_decode]. cbn [Ascii.eqb Bool.eqb]. by rewrite Hd, IH.
Qed.

Lemma spells_plain k n : spells k n -> contains_char "%" k = false -> k = n.
Proof.
  induction 1 as [|b k n Hb _ IH|hi lo d k n Hd _ IH]; [done| |done].
  cbn. intros Hc. apply orb_false_iff in Hc as [_ Hc]. by rewrite IH.
Qed.

(** A name the scan does not notice is not spelled by another. *)
Lemma unnoticed name k : is_encoded_name name k = false -> k <> name -> ~ spells k name.
Proof.
  unfold is_encoded_name, percent_decode_name. intros He Hk Hs. destruct (contains_char "%" k) eqn:Ec.
  - by rewrite (spells_decode _ _ Hs), String.eqb_refl in He.
  - by apply Hk, spells_plain.
Qed.

(** The one value a request has at a location. *)
Definition only_at (loc : CredentialLocation) (headers : Pairs) (query : option string) (raw : string) : Prop :=
  match lo_credential loc with
  | CredHeader name => only_header headers name raw
  | CredCookie name =>
      exists h, only_header headers "cookie" h
        /\ only_pair (omap cookie_pair (split ";" h)) (fun _ => False) name raw
  | CredQueryParam name =>
      exists qs, query = Some qs /\ only_pair (omap query_pair (split "&" qs)) (fun k => spells k name) name raw
  end.

Section Unambiguous.
Context `{HashOrder}.

Lemma parse_query_ok qs name m v :
  parse_query_string qs name = Ok m -> m !! name = Some v ->
  only_pair (omap query_pair (split "&" qs)) (fun k => spells k name) name v.
Proof.
  unfold parse_query_string. destruct (parse_validate qs "query_param"); [|done].
  destruct (insert_all _ _ _ _) as [out|] eqn:Ei; [|done].
  destruct (List.find _ (hash_iter out)) as [[key w]|] eqn:Ef; [by destruct (out !! name)|]. intros [= <-] Hv.
  apply insert_all_ok in Ei as (Hk & _ & Hn). destruct (Hn v (lookup_empty _) Hv) as (pre & post & E & Hpre & Hpost).
  exists pre, post. split; [done|]. intros k Hin. rewrite fmap_app, elem_of_app in Hin. assert (k <> name) as Hkn by naive_solver.
  split; [done|]. apply unnoticed; [|done].
  assert (is_Some (out !! k)) as [w Hw].
  { apply Hk. right. rewrite E, fmap_app. cbn. set_solver. }
  apply (find_none _ _ Ef (k, w)). apply list_elem_of_In. rewrite hash_iter_perm. by apply elem_of_map_to_list.
Qed.

Lemma parse_cookie_ok h name m v :
  parse_cookie_header h name = Ok m -> m !! name = Some v ->
  only_pair (omap cookie_pair (split ";" h)) (fun _ => False) name v.
Proof.
  unfold parse_cookie_header. destruct (parse_validate h "cookie"); [|done]. intros Ei Hv.
  apply insert_all_ok in Ei as (_ & _ & Hn). destruct (Hn v (lookup_empty _) Hv) as (pre & post & E & Hpre & Hpost).
  exists pre, post. split; [done|]. intros k Hin. rewrite fmap_app, elem_of_app in Hin. naive_solver.
Qed.

Lemma gate_nonempty loc raw v : gate loc raw = Ok v -> v <> "".
Proof.
  unfold gate. destruct (String.eqb raw ""); [done|].
  destruct (match lo_prefix loc with Some p => strip_gate raw p | None => Ok raw end) as [a|]; [|done].
  destruct (String.eqb_spec a "") as [|Hne]; [done|]. by intros [= <-].
Qed.

(** Claim C32. A credential read from a request is not empty and is the only value of its
    location: one header of that name in any casing, one cookie of that name in the one
    [Cookie] header, or one query parameter of that name with no other parameter whose name
    becomes it when percent-decoded; a request that offers a second one is refused. *)
Theorem credential_unambiguous loc headers query v :
  location_raw loc headers query = Ok v ->
  v <> "" /\ exists raw, gate loc raw = Ok v
    /\ only_at loc headers query raw.
Proof.
  intros Hr. assert (exists raw, gate loc raw = Ok v
    /\ only_at loc headers query raw) as (raw & Hg & Hc); [|by split; [eapply gate_nonempty|exists raw]].
  unfold location_raw in Hr. unfold only_at. destruct (lo_credential loc) as [name|name|name].
  - unfold extract_header in Hr. destruct (single_header_ci headers name) as [raw|] eqn:E; [|done].
    exists raw. split; [done|]. by apply header_matches_one.
  - unfold extract_cookie in Hr. destruct (single_header_ci headers "cookie") as [h|] eqn:E; [|done].
    destruct (parse_cookie_header h name) as [m|] eqn:Ep; [|done]. cbn [result_map_err] in Hr.
    destruct (m !! name) as [raw|] eqn:Em; [|done]. exists raw. split; [done|]. exists h.
    split; [by apply header_matches_one|by eapply parse_cookie_ok].
  - unfold extract_query_param in Hr. destruct query as [qs|]; [|done].
    destruct (parse_query_string qs name) as [m|] eqn:Ep; [|done]. cbn [result_map_err] in Hr.
    destruct (m !! name) as [raw|] eqn:Em; [|done]. exists raw. split; [done|]. exists qs.
    split; [done|by eapply parse_query_ok].
Qed.
End Unambiguous.

(** A token read from a query string among other parameters. *)
Lemma credential_unambiguous_witness :
  let loc := mkLocation (CredQueryParam "token") None in
  @location_raw map_order loc ∅ (Some "a=1&token=abc&a=2") = Ok "abc"
  /\ "abc" <> "" /\ exists raw, gate loc raw = Ok "abc"
    /\ only_at loc ∅ (Some "a=1&token=abc&a=2") raw.
Proof.
  assert (@location_raw map_order (mkLocation (CredQueryParam "token") None) ∅ (Some "a=1&token=abc&a=2") = Ok "abc")
    as E by (vm_compute; reflexivity).
  split; [exact E|]. exact (@credential_unambiguous map_order _ _ _ _ E).
Defined.
