(* ===== verification/ClaimMap.v ===== *)
(** * Claim mapping ([ppe-core/src/identity/mapping/], [identity_jwt/claim_map.rs], [presets.rs],
    [identity_api_key/record_map.rs])

    The paths that address a claim, the map an operator writes and its compiled form, the
    mapper a compiled map drives, the mapper written in Rust for the standard claims, and the
    presets shipped with the JWT resolver. A claim set is the map of a validated token. *)

From Stdlib Require Import Ascii String.
From S2P Require Import Prelude RustStr F64 Json Lexical ExtData.

(** A record's fields: a JSON object's key/value pairs. *)
Definition ClaimMap : Type := gmap string json.

(** ** Claim paths ([claim_path.rs]) *)

Record ClaimPath : Type := mkClaimPath { segments : list string }.

Inductive PathFault : Type :=
| UnrecognizedEscape (input other : string)
| TrailingEscape (input : string)
| EmptySegment (input : string)
| EmptyPath.

(** The two special characters are ASCII, so the loop over characters is a loop over bytes; the
    error names the whole character an unknown escape is written with. *)
Definition path_dot : ascii := ".".
Definition path_escape : ascii := "\".

Definition first_char (s : string) : string := match chars s with c :: _ => c | [] => "" end.

Fixpoint path_loop (input s : string) (segs : list string) (current : string) : result ClaimPath PathFault :=
  match s with
  | EmptyString =>
      if String.eqb current "" then Err (match segs with [] => EmptyPath | _ => EmptySegment input end)
      else Ok (mkClaimPath (segs ++ [current]))
  | String c rest =>
      if Ascii.eqb c path_escape then
        match rest with
        | EmptyString => Err (TrailingEscape input)
        | String e rest' =>
            if Ascii.eqb e path_dot then path_loop input rest' segs (current +:+ str1 path_dot)
            else if Ascii.eqb e path_escape then path_loop input rest' segs (current +:+ str1 path_escape)
            else Err (UnrecognizedEscape input (first_char rest))
        end
      else if Ascii.eqb c path_dot then
        if String.eqb current "" then Err (EmptySegment input)
        else path_loop input rest (segs ++ [current]) ""
      else path_loop input rest segs (current +:+ str1 c)
  end.

(** [ClaimPath::parse]. *)
Definition claim_path_parse (input : string) : result ClaimPath PathFault := path_loop input input [] "".

(** [Value::get(&str)]. *)
Definition value_get (key : string) (v : json) : option json :=
  match v with JObject m => map_get key m | _ => None end.

Fixpoint value_walk (v : json) (segs : list string) : option json :=
  match segs with
  | [] => Some v
  | s :: rest => match value_get s v with Some v' => value_walk v' rest | None => None end
  end.

(** [ClaimPath::resolve]. *)
Definition claim_path_resolve (p : ClaimPath) (claims : ClaimMap) : option json :=
  match segments p with
  | [] => None
  | first :: rest => match claims !! first with Some v => value_walk v rest | None => None end
  end.

(** [ClaimPath::single_segment]. *)
Definition single_segment (p : ClaimPath) : option string :=
  match segments p with [only] => Some only | _ => None end.

(** [Display for ClaimPath]. *)
Fixpoint escape_segment (s : string) : string :=
  match s with
  | EmptyString => ""
  | String c rest =>
      (if Ascii.eqb c path_dot || Ascii.eqb c path_escape then String path_escape (str1 c) else str1 c)
      +:+ escape_segment rest
  end.

Definition claim_path_display (p : ClaimPath) : string := String.concat "." (map escape_segment (segments p)).

(** ** What an operator writes ([claim_map_config.rs]) *)

Definition SUBJECT_FIELDS : list string := ["id"; "permissions"; "roles"; "teams"].

Definition CLIENT_FIELDS : list string :=
  ["authorized_audiences"; "authorized_scopes"; "client_id"; "client_name"; "permissions"; "roles"; "teams"].

Definition WORKLOAD_FIELDS : list string := ["client_id"; "selectors"; "spiffe_id"].

Definition SCALAR_FIELDS : list string := ["client_id"; "client_name"; "id"; "spiffe_id"].

Inductive MergeMode : Type := FirstMatch | Union.
Inductive SplitMode : Type := Whitespace.
Inductive OnMissing : Type := Ignore | Deny.

#[global] Instance MergeMode_eq_dec : EqDecision MergeMode.
Proof. solve_decision. Defined.
#[global] Instance OnMissing_eq_dec : EqDecision OnMissing.
Proof. solve_decision. Defined.

Record Candidate : Type := mkCandidate {
  ca_path : string;
  ca_array_only : bool;
  ca_string_only : bool;
  ca_stop_if_present : bool;
}.

Record FieldMap : Type := mkFieldMap {
  fm_paths : list Candidate;
  fm_merge : MergeMode;
  fm_split : option SplitMode;
  fm_on_missing : OnMissing;
}.

Definition FIELD_OPTIONS : list string := ["merge"; "on_missing"; "paths"; "split"].
Definition CANDIDATE_KEYS : list string := ["array_only"; "path"; "stop_if_present"; "string_only"].

(** The messages of the compiler, by the values they quote. *)
Inductive ClaimMapError : Type :=
| UnknownCandidateKey (field key : string)
| CandidatePathKind (field kind : string)
| CandidateNeedsPath (field : string)
| OptionNotValid (field option : string)
| BothShapes (field path : string)
| CandidateKind (field kind : string)
| UnknownOption (field key : string)
| PathsKind (field kind : string)
| NeedsPaths (field : string)
| FieldKind (field kind : string)
| UnknownField (role name : string)
| PathsEmpty (field : string)
| UnionOnScalar (field : string)
| SplitOnScalar (field : string)
| ShapeOnScalar (field flag path : string)
| StopOnCollection (field path : string)
| BadPath (field : string) (reason : PathFault)
| NoSection (name : string)
| NoSectionForRole (role : TokenRole).

Definition kind_of (value : json) : string :=
  match value with
  | JNull => "null"
  | JBool _ => "a boolean"
  | JNumber _ => "a number"
  | JString _ => "a string"
  | JArray _ => "a list"
  | JObject _ => "an object"
  end.

(** What [option_from_value] reads at the three types it is used at: a boolean, and an enum of
    unit variants, which [serde] takes as a string or as an object of one entry holding
    [null]. *)
Definition read_bool (value : json) : option bool := match value with JBool b => Some b | _ => None end.

Definition read_variant {T} (variant : string -> option T) (value : json) : option T :=
  match value with
  | JString s => variant s
  | JObject [(s, JNull)] => variant s
  | _ => None
  end.

Definition merge_variant (s : string) : option MergeMode :=
  if String.eqb s "first_match" then Some FirstMatch
  else if String.eqb s "union" then Some Union else None.

Definition split_variant (s : string) : option SplitMode :=
  if String.eqb s "whitespace" then Some Whitespace else None.

Definition missing_variant (s : string) : option OnMissing :=
  if String.eqb s "ignore" then Some Ignore
  else if String.eqb s "deny" then Some Deny else None.

Definition option_from_value {T} (read : json -> option T) (field option : string) (value : json) :
    result T ClaimMapError :=
  match read value with Some t => Ok t | None => Err (OptionNotValid field option) end.

(** [entries.get(name)], read at its type, with the default of an absent option. *)
Definition option_or {T} (read : json -> option T) (default : T) (field name : string)
    (entries : list (string * json)) : result T ClaimMapError :=
  match map_get name entries with
  | Some value => option_from_value read field name value
  | None => Ok default
  end.

(** The loop over the keys, stopping at the first that is not allowed. *)
Definition unknown_key (allowed : list string) (entries : list (string * json)) : option string :=
  List.find (fun key => negb (existsb (String.eqb key) allowed)) (entries.*1).

(** A path written on its own. *)
Definition plain_candidate (path : string) : Candidate := mkCandidate path false false false.

(** [Candidate::from_value]. *)
Definition candidate_from_value (field : string) (value : json) : result Candidate ClaimMapError :=
  match value with
  | JString path => Ok (plain_candidate path)
  | JObject entries =>
      match unknown_key CANDIDATE_KEYS entries with
      | Some key => Err (UnknownCandidateKey field key)
      | None =>
          let? path :=
            match map_get "path" entries with
            | Some (JString path) => Ok path
            | Some other => Err (CandidatePathKind field (kind_of other))
            | None => Err (CandidateNeedsPath field)
            end in
          let? array_only := option_or read_bool false field "array_only" entries in
          let? string_only := option_or read_bool false field "string_only" entries in
          if array_only && string_only then Err (BothShapes field path)
          else
            let? stop := option_or read_bool false field "stop_if_present" entries in
            Ok (mkCandidate path array_only string_only stop)
      end
  | other => Err (CandidateKind field (kind_of other))
  end.

Fixpoint candidates_from_list (field : string) (items : list json) : result (list Candidate) ClaimMapError :=
  match items with
  | [] => Ok []
  | item :: items' =>
      let? c := candidate_from_value field item in
      let? cs := candidates_from_list field items' in
      Ok (c :: cs)
  end.

(** [FieldMap::from_value]. *)
Definition field_from_value (field : string) (value : json) : result FieldMap ClaimMapError :=
  match value with
  | JString path => Ok (mkFieldMap [plain_candidate path] FirstMatch None Ignore)
  | JArray items =>
      let? paths := candidates_from_list field items in
      Ok (mkFieldMap paths FirstMatch None Ignore)
  | JObject entries =>
      match unknown_key FIELD_OPTIONS entries with
      | Some key => Err (UnknownOption field key)
      | None =>
          let? paths :=
            match map_get "paths" entries with
            | Some (JArray items) => candidates_from_list field items
            | Some (JString path) => Ok [plain_candidate path]
            | Some other => Err (PathsKind field (kind_of other))
            | None => Err (NeedsPaths field)
            end in
          let? merge := option_or (read_variant merge_variant) FirstMatch field "merge" entries in
          let? split :=
            option_or (fun v => option_map Some (read_variant split_variant v)) None field "split" entries in
          let? missing := option_or (read_variant missing_variant) Ignore field "on_missing" entries in
          Ok (mkFieldMap paths merge split missing)
      end
  | other => Err (FieldKind field (kind_of other))
  end.

(** ** The claims bag's overrides *)

Record ClaimsOverrides : Type := mkOverrides {
  co_exclude : list string;
  co_include : list string;
}.

Record CompiledClaimsOverrides : Type := mkCompiledOverrides {
  cco_exclude : gset string;
  cco_include : gset string;
}.

Definition no_overrides : CompiledClaimsOverrides := mkCompiledOverrides ∅ ∅.

(** A message of [compile_claim_names]: one per name that does not parse, and one for the
    names that address a nested claim. *)
Inductive NameProblem : Type :=
| NameFault (listed : string) (reason : PathFault)
| NestedNames (listed : string) (names : list string).

Inductive OverridesError : Type :=
| NameProblems (problems : list NameProblem)
| InBothLists (claims : list string).

Record ParsedNames : Type := mkParsedNames {
  pn_parsed : gset string;
  pn_problems : list NameProblem;
  pn_nested : list string;
}.

Definition parse_claim_name (listed : string) (acc : ParsedNames) (name : string) : ParsedNames :=
  match claim_path_parse name with
  | Err e => mkParsedNames (pn_parsed acc) (pn_problems acc ++ [NameFault listed e]) (pn_nested acc)
  | Ok path =>
      match single_segment path with
      | Some segment => mkParsedNames ({[segment]} ∪ pn_parsed acc) (pn_problems acc) (pn_nested acc)
      | None => mkParsedNames (pn_parsed acc) (pn_problems acc) (pn_nested acc ++ [name])
      end
  end.

Definition compile_claim_names (listed : string) (names : list string) : gset string * list NameProblem :=
  let acc := foldl (parse_claim_name listed) (mkParsedNames ∅ [] []) names in
  (pn_parsed acc,
   match pn_nested acc with [] => pn_problems acc | nested => pn_problems acc ++ [NestedNames listed nested] end).

(** [ClaimsOverrides::compile]. *)
Definition overrides_compile (self : ClaimsOverrides) : result CompiledClaimsOverrides OverridesError :=
  let '(exclude, exclude_problems) := compile_claim_names "exclude" (co_exclude self) in
  let '(include, include_problems) := compile_claim_names "include" (co_include self) in
  match exclude_problems ++ include_problems with
  | (_ :: _) as problems => Err (NameProblems problems)
  | [] =>
      match sorted_elements (include ∩ exclude) with
      | [] => Ok (mkCompiledOverrides exclude include)
      | both => Err (InBothLists both)
      end
  end.

(** [CompiledClaimsOverrides::is_empty]. *)
Definition overrides_is_empty (self : CompiledClaimsOverrides) : bool :=
  bool_decide (cco_exclude self = ∅) && bool_decide (cco_include self = ∅).

(** ** The compiled map *)

(** [RoleMapConfig]: one role's section, field name to field as written. *)
Definition RoleMapConfig : Type := gmap string json.

Record ClaimMapConfig : Type := mkClaimMapConfig {
  cm_subject : option RoleMapConfig;
  cm_client : option RoleMapConfig;
  cm_workload : option RoleMapConfig;
}.

Record CompiledCandidate : Type := mkCompiledCandidate {
  cc_path : ClaimPath;
  cc_array_only : bool;
  cc_string_only : bool;
  cc_stop_if_present : bool;
}.

Record CompiledField : Type := mkCompiledField {
  cf_candidates : list CompiledCandidate;
  cf_merge : MergeMode;
  cf_split : option SplitMode;
  cf_on_missing : OnMissing;
}.

(** [CompiledRoleMap]: its fields, by name. *)
Definition CompiledRoleMap : Type := gmap string CompiledField.

Record CompiledClaimMap : Type := mkCompiledMap {
  cp_subject : option CompiledRoleMap;
  cp_client : option CompiledRoleMap;
  cp_workload : option CompiledRoleMap;
  cp_claims : CompiledClaimsOverrides;
}.

(** [CompiledClaimMap::role]. *)
Definition compiled_role (self : CompiledClaimMap) (role : TokenRole) : result CompiledRoleMap ClaimMapError :=
  let section name (s : option CompiledRoleMap) :=
    match s with Some m => Ok m | None => Err (NoSection name) end in
  match role with
  | RoleUser => section "subject" (cp_subject self)
  | RoleClient => section "client" (cp_client self)
  | RoleCallerWorkload => section "workload" (cp_workload self)
  | other => Err (NoSectionForRole other)
  end.

(** [CompiledClaimMap::with_claims]. *)
Definition with_claims (self : CompiledClaimMap) (claims : CompiledClaimsOverrides) : CompiledClaimMap :=
  mkCompiledMap (cp_subject self) (cp_client self) (cp_workload self) claims.

(** [find_map]: the first candidate of a field holding one value that carries a shape flag. *)
Fixpoint shape_flag (paths : list Candidate) : option (string * Candidate) :=
  match paths with
  | [] => None
  | c :: paths' =>
      if ca_array_only c then Some ("array_only", c)
      else if ca_string_only c then Some ("string_only", c)
      else shape_flag paths'
  end.

Definition holds_one_value (name : string) : bool := existsb (String.eqb name) SCALAR_FIELDS.

(** The checks of a field that holds one value, and of one that holds a collection. *)
Definition check_options (name qualified : string) (f : FieldMap) : result unit ClaimMapError :=
  if holds_one_value name then
    if bool_decide (fm_merge f = Union) then Err (UnionOnScalar qualified)
    else if fm_split f is Some _ then Err (SplitOnScalar qualified)
    else match shape_flag (fm_paths f) with
         | Some (flag, c) => Err (ShapeOnScalar qualified flag (ca_path c))
         | None => Ok tt
         end
  else match List.find ca_stop_if_present (fm_paths f) with
       | Some c => Err (StopOnCollection qualified (ca_path c))
       | None => Ok tt
       end.

Fixpoint compile_candidates (qualified : string) (paths : list Candidate) :
    result (list CompiledCandidate) ClaimMapError :=
  match paths with
  | [] => Ok []
  | c :: paths' =>
      let? path := result_map_err (BadPath qualified) (claim_path_parse (ca_path c)) in
      let? cs := compile_candidates qualified paths' in
      Ok (mkCompiledCandidate path (ca_array_only c) (ca_string_only c) (ca_stop_if_present c) :: cs)
  end.

(** One iteration of the loop of [compile_role]. *)
Definition compile_field (role : string) (allowed : list string) (name : string) (value : json) :
    result CompiledField ClaimMapError :=
  if negb (existsb (String.eqb name) allowed) then Err (UnknownField role name)
  else
    let qualified := role +:+ "." +:+ name in
    let? f := field_from_value qualified value in
    if fm_paths f is [] then Err (PathsEmpty qualified)
    else
      let? _ := check_options name qualified f in
      let? cs := compile_candidates qualified (fm_paths f) in
      Ok (mkCompiledField cs (fm_merge f) (fm_split f) (fm_on_missing f)).

Fixpoint compile_fields (role : string) (allowed : list string) (authored : list (string * json))
    (fields : CompiledRoleMap) : result CompiledRoleMap ClaimMapError :=
  match authored with
  | [] => Ok fields
  | (name, value) :: authored' =>
      let? f := compile_field role allowed name value in
      compile_fields role allowed authored' (<[name := f]> fields)
  end.

(** [compile_role]: the fields in the order of the [BTreeMap]. *)
Definition compile_role (role : string) (allowed : list string) (section : option RoleMapConfig) :
    result (option CompiledRoleMap) ClaimMapError :=
  match section with
  | None => Ok None
  | Some authored =>
      let? fields := compile_fields role allowed (sorted_entries authored) ∅ in
      Ok (Some fields)
  end.

(** [ClaimMapConfig::compile]. *)
Definition claim_map_compile (self : ClaimMapConfig) : result CompiledClaimMap ClaimMapError :=
  let? subject := compile_role "subject" SUBJECT_FIELDS (cm_subject self) in
  let? client := compile_role "client" CLIENT_FIELDS (cm_client self) in
  let? workload := compile_role "workload" WORKLOAD_FIELDS (cm_workload self) in
  Ok (mkCompiledMap subject client workload no_overrides).

(** ** SPIFFE identities ([mapping/mod.rs]) *)

Definition SPIFFE_SCHEME : string := "spiffe://".

Definition trust_domain_of (spiffe_id : string) : option string :=
  match strip_prefix SPIFFE_SCHEME spiffe_id with
  | Some rest =>
      match split "/" rest with
      | domain :: _ => if String.eqb domain "" then None else Some domain
      | [] => None
      end
  | None => None
  end.

Definition is_spiffe_id (text : string) : bool := if trust_domain_of text is Some _ then true else false.

(** The mapper a resolver calls, one method per role; a role it does not know is [None]. *)
Class ClaimMapper (T : Type) := {
  map_subject : T -> ClaimMap -> option SubjectExtension;
  map_client : T -> ClaimMap -> option ClientExtension;
  map_workload : T -> ClaimMap -> option WorkloadIdentity;
}.

(** [..Default::default()] of the client: the least trusted level. *)
Definition default_trust : ClientTrustLevel := TrustThirdParty.

(** ** Resolving a field ([configured_mapper.rs]) *)

(** [str::split_whitespace]: the maximal runs of characters that are not whitespace. *)
Fixpoint whitespace_pieces (cs : list string) : list (list string) :=
  match cs with
  | [] => [[]]
  | c :: cs' =>
      let rest := whitespace_pieces cs' in
      if is_whitespace c then [] :: rest
      else match rest with p :: ps => (c :: p) :: ps | [] => [[c]] end
  end.

Definition split_whitespace (s : string) : list string :=
  map of_chars (List.filter (fun p => match p with [] => false | _ => true end) (whitespace_pieces (chars s))).

Record MappingProfile : Type := mkProfileOf {
  mp_reserved_names : list string;
  mp_attestor : string;
}.

Record ConfiguredClaimMap : Type := mkConfigured {
  ccm_map : CompiledClaimMap;
  ccm_profile : MappingProfile;
}.

(** The claims a section's single-segment paths consume. *)
Definition consumed_names (section : CompiledRoleMap) : list string :=
  concat (map (fun nf => omap (fun c => single_segment (cc_path c)) (cf_candidates nf.2)) (map_to_list section)).

(** [ConfiguredClaimMap::claims_bag]. *)
Definition excluded_names (self : ConfiguredClaimMap) (section : CompiledRoleMap) : gset string :=
  let overrides := cp_claims (ccm_map self) in
  (list_to_set (mp_reserved_names (ccm_profile self)) ∪ list_to_set (consumed_names section)
   ∪ cco_exclude overrides) ∖ cco_include overrides.

Definition claims_bag (self : ConfiguredClaimMap) (section : CompiledRoleMap) (claims : ClaimMap) : ClaimMap :=
  filter (fun nv => nv.1 ∉ excluded_names self section) claims.

Record FieldOutcome : Type := mkOutcome {
  fo_values : list string;
  fo_resolved : bool;
  fo_tried : nat;
}.

(** The strings of an array, in order. *)
Definition strings_of (items : list json) : list string := omap as_str items.

(** [contribute]: what a value adds, or [None] where its shape cannot serve the field. *)
Definition contribute (value : json) (c : CompiledCandidate) (split : option SplitMode) : option (list string) :=
  match value with
  | JArray items => if cc_string_only c then None else Some (strings_of items)
  | JString text =>
      if cc_array_only c then None
      else Some (match split with Some Whitespace => split_whitespace text | None => [text] end)
  | JNull | JBool _ | JNumber _ | JObject _ => None
  end.

(** The loop over the candidates. *)
Fixpoint collection_loop (field : CompiledField) (claims : ClaimMap) (candidates : list CompiledCandidate)
    (out : FieldOutcome) : FieldOutcome :=
  match candidates with
  | [] => out
  | c :: candidates' =>
      let out := mkOutcome (fo_values out) (fo_resolved out) (S (fo_tried out)) in
      match claim_path_resolve (cc_path c) claims with
      | None => collection_loop field claims candidates' out
      | Some value =>
          match contribute value c (cf_split field) with
          | None => collection_loop field claims candidates' out
          | Some more =>
              let out := mkOutcome (fo_values out ++ more) true (fo_tried out) in
              if bool_decide (cf_merge field = FirstMatch) then out
              else collection_loop field claims candidates' out
          end
      end
  end.

(** [values.retain(|value| seen.insert(value.clone()))]. *)
Fixpoint retain_unseen (seen : gset string) (values : list string) : list string :=
  match values with
  | [] => []
  | v :: values' =>
      if bool_decide (v ∈ seen) then retain_unseen seen values'
      else v :: retain_unseen ({[v]} ∪ seen) values'
  end.

Definition resolve_collection (field : CompiledField) (claims : ClaimMap) : FieldOutcome :=
  let out := collection_loop field claims (cf_candidates field) (mkOutcome [] false 0) in
  if bool_decide (cf_merge field = Union)
  then mkOutcome (retain_unseen ∅ (fo_values out)) (fo_resolved out) (fo_tried out)
  else out.

Fixpoint scalar_loop (claims : ClaimMap) (accept : string -> bool) (candidates : list CompiledCandidate)
    (tried : nat) : option string * nat :=
  match candidates with
  | [] => (None, tried)
  | c :: candidates' =>
      match claim_path_resolve (cc_path c) claims with
      | None => scalar_loop claims accept candidates' (S tried)
      | Some value =>
          let unusable :=
            if cc_stop_if_present c then (None, S tried) else scalar_loop claims accept candidates' (S tried) in
          match as_str value with
          | Some text => if accept text then (Some text, S tried) else unusable
          | None => unusable
          end
      end
  end.

Definition resolve_scalar (field : CompiledField) (claims : ClaimMap) (accept : string -> bool) :
    option string * nat :=
  scalar_loop claims accept (cf_candidates field) 0.

Definition paths_tried (field : CompiledField) (tried : nat) : list string :=
  map (fun c => claim_path_display (cc_path c)) (take tried (cf_candidates field)).

(** ** Diagnostics: what one mapping call missed. [emit] logs it. *)

Record Diagnostics : Type := mkDiagnostics {
  dg_role : string;
  dg_detailed : bool;
  dg_missed : list (string * list string);
  dg_empty : list string;
  dg_denied : list string;
}.

(** Whether anything listens at [debug]. *)
Class Tracing := debug_enabled : bool.

Definition diagnostics_new `{Tracing} (role : string) : Diagnostics :=
  mkDiagnostics role debug_enabled [] [] [].

Definition record_miss (self : Diagnostics) (name : string) (field : CompiledField) (tried : nat) : Diagnostics :=
  mkDiagnostics (dg_role self) (dg_detailed self)
    (if dg_detailed self then dg_missed self ++ [(name, paths_tried field tried)] else dg_missed self)
    (dg_empty self)
    (if bool_decide (cf_on_missing field = Deny) then dg_denied self ++ [name] else dg_denied self).

(** [Diagnostics::record]; its result is not used. *)
Definition record_outcome (self : Diagnostics) (name : string) (field : CompiledField) (outcome : FieldOutcome) :
    Diagnostics :=
  if fo_resolved outcome then
    match fo_values outcome with
    | [] =>
        if dg_detailed self
        then mkDiagnostics (dg_role self) (dg_detailed self) (dg_missed self) (dg_empty self ++ [name]) (dg_denied self)
        else self
    | _ => self
    end
  else record_miss self name field (fo_tried outcome).

Definition record_undeclared_anchor (self : Diagnostics) (name : string) : Diagnostics :=
  mkDiagnostics (dg_role self) (dg_detailed self)
    (if dg_detailed self then dg_missed self ++ [(name, [])] else dg_missed self)
    (dg_empty self) (dg_denied self).

Definition declined (self : Diagnostics) : bool := match dg_denied self with [] => false | _ => true end.

Definition collection (section : CompiledRoleMap) (name : string) (claims : ClaimMap) (diag : Diagnostics) :
    list string * Diagnostics :=
  match section !! name with
  | None => ([], diag)
  | Some field =>
      let outcome := resolve_collection field claims in
      (fo_values outcome, record_outcome diag name field outcome)
  end.

Definition scalar (section : CompiledRoleMap) (name : string) (claims : ClaimMap) (diag : Diagnostics)
    (accept : string -> bool) : option string * Diagnostics :=
  match section !! name with
  | None => (None, diag)
  | Some field =>
      let '(value, tried) := resolve_scalar field claims accept in
      (value, match value with None => record_miss diag name field tried | Some _ => diag end)
  end.

Definition anchor (section : CompiledRoleMap) (name : string) (claims : ClaimMap) (diag : Diagnostics)
    (accept : string -> bool) : option string * Diagnostics :=
  match section !! name with
  | None => (None, record_undeclared_anchor diag name)
  | Some _ => scalar section name claims diag accept
  end.

Definition accept_any (_ : string) : bool := true.

(** ** The configured mapper *)

Definition configured_subject `{Tracing} (self : ConfiguredClaimMap) (claims : ClaimMap) : option SubjectExtension :=
  match compiled_role (ccm_map self) RoleUser with
  | Err _ => None
  | Ok section =>
      let diag := diagnostics_new "subject" in
      let '(id, diag) := anchor section "id" claims diag accept_any in
      let '(roles, diag) := collection section "roles" claims diag in
      let '(permissions, diag) := collection section "permissions" claims diag in
      let '(teams, diag) := collection section "teams" claims diag in
      if declined diag then None
      else match id with
           | None => None
           | Some id =>
               Some (mkSubject (Some id) None (list_to_set roles) (list_to_set permissions) (list_to_set teams)
                       (claims_bag self section claims) None)
           end
  end.

Definition configured_client `{Tracing} (self : ConfiguredClaimMap) (claims : ClaimMap) : option ClientExtension :=
  match compiled_role (ccm_map self) RoleClient with
  | Err _ => None
  | Ok section =>
      let diag := diagnostics_new "client" in
      let '(client_id, diag) := anchor section "client_id" claims diag accept_any in
      let '(client_name, diag) := scalar section "client_name" claims diag accept_any in
      let '(scopes, diag) := collection section "authorized_scopes" claims diag in
      let '(audiences, diag) := collection section "authorized_audiences" claims diag in
      let '(roles, diag) := collection section "roles" claims diag in
      let '(permissions, diag) := collection section "permissions" claims diag in
      let '(teams, diag) := collection section "teams" claims diag in
      if declined diag then None
      else match client_id with
           | None => None
           | Some client_id =>
               Some (mkClient client_id client_name default_trust scopes audiences roles permissions teams
                       (claims_bag self section claims) None)
           end
  end.

Definition configured_workload `{Tracing} (self : ConfiguredClaimMap) (claims : ClaimMap) : option WorkloadIdentity :=
  match compiled_role (ccm_map self) RoleCallerWorkload with
  | Err _ => None
  | Ok section =>
      let diag := diagnostics_new "workload" in
      let '(spiffe_id, diag) := anchor section "spiffe_id" claims diag is_spiffe_id in
      let '(client_id, diag) := scalar section "client_id" claims diag accept_any in
      let '(selectors, diag) := collection section "selectors" claims diag in
      if declined diag then None
      else match spiffe_id with
           | None => None
           | Some spiffe_id =>
               Some (mkWorkload (Some spiffe_id) (trust_domain_of spiffe_id) None
                       (Some (mp_attestor (ccm_profile self))) selectors client_id None)
           end
  end.

#[global] Instance configured_mapper `{Tracing} : ClaimMapper ConfiguredClaimMap := {|
  map_subject := configured_subject;
  map_client := configured_client;
  map_workload := configured_workload;
|}.

(** ** The standard claims in Rust ([identity_jwt/claim_map.rs]) *)

Definition JWT_MAPPING_PROFILE : MappingProfile :=
  mkProfileOf ["aud"; "exp"; "iat"; "iss"; "jti"; "nbf"; "sub"] "jwt".

Inductive StandardClaimMap : Type := StandardMap.

(** [claims.get(name).and_then(Value::as_str)] and [and_then(Value::as_array)]. *)
Definition claim_string (claims : ClaimMap) (name : string) : option string := claims !! name ≫= as_str.

Definition as_array (v : json) : option (list json) := match v with JArray items => Some items | _ => None end.

Definition claim_array (claims : ClaimMap) (name : string) : option (list json) := claims !! name ≫= as_array.

(** The loop over an array claim, pushing its strings. *)
Definition array_strings (claims : ClaimMap) (name : string) : option (list string) :=
  option_map strings_of (claim_array claims name).

(** The loop over the words of a string claim, skipping empty ones. *)
Definition string_words (claims : ClaimMap) (name : string) : option (list string) :=
  option_map (fun s => List.filter (fun w => negb (String.eqb w "")) (split_whitespace s)) (claim_string claims name).

(** [if let .. else if let ..]: the first that is there, or nothing. *)
Definition first_of (a b : option (list string)) : list string :=
  match a with Some l => l | None => match b with Some l => l | None => [] end end.

(** The loop that copies every claim that is not reserved. *)
Definition unreserved (reserved : list string) (claims : ClaimMap) : ClaimMap :=
  filter (fun nv => nv.1 ∉ reserved) claims.

Definition CLIENT_RESERVED : list string :=
  ["client_id"; "azp"; "client_name"; "authorized_scopes"; "scope"; "aud"; "roles"; "iss"; "exp"; "nbf"; "iat";
   "jti"; "sub"].

Definition SUBJECT_RESERVED : list string :=
  ["sub"; "roles"; "permissions"; "scope"; "teams"; "groups"; "iss"; "aud"; "exp"; "nbf"; "iat"; "jti"].

Definition standard_client (claims : ClaimMap) : option ClientExtension :=
  let anchor := match claims !! "client_id" with Some v => Some v | None => claims !! "azp" end in
  match anchor ≫= as_str with
  | None => None
  | Some client_id =>
      let audiences :=
        match claims !! "aud" with
        | Some (JString s) => [s]
        | Some (JArray items) => strings_of items
        | _ => []
        end in
      Some (mkClient client_id (claim_string claims "client_name") default_trust
              (first_of (array_strings claims "authorized_scopes") (string_words claims "scope"))
              audiences (first_of (array_strings claims "roles") None) [] []
              (unreserved CLIENT_RESERVED claims) None)
  end.

Definition standard_workload (claims : ClaimMap) : option WorkloadIdentity :=
  let from_sub :=
    match claim_string claims "sub" with Some s => then_some (is_spiffe_id s) s | None => None end in
  let candidate := match from_sub with Some s => Some s | None => claim_string claims "spiffe_id" end in
  match candidate with
  | Some spiffe_id =>
      if is_spiffe_id spiffe_id
      then Some (mkWorkload (Some spiffe_id) (trust_domain_of spiffe_id) None (Some "jwt") [] None None)
      else None
  | None => None
  end.

Definition standard_subject (claims : ClaimMap) : option SubjectExtension :=
  match claim_string claims "sub" with
  | None => None
  | Some sub =>
      Some (mkSubject (Some sub) None
              (list_to_set (first_of (array_strings claims "roles") None))
              (list_to_set (first_of (array_strings claims "permissions") (string_words claims "scope")))
              (list_to_set (first_of (array_strings claims "teams") (array_strings claims "groups")))
              (unreserved SUBJECT_RESERVED claims) None)
  end.

#[global] Instance standard_mapper : ClaimMapper StandardClaimMap := {|
  map_subject _ := standard_subject;
  map_client _ := standard_client;
  map_workload _ := standard_workload;
|}.

(** ** API key records ([identity_api_key/record_map.rs]) *)

Definition ATTESTOR : string := "api_key".
Definition RESERVED_FIELDS : list string := [].

Inductive RecordMapError : Type :=
| RecordMapFault (e : ClaimMapError)
| RecordOverridesFault (e : OverridesError).

Definition record_map_compile (config : ClaimMapConfig) (claims : ClaimsOverrides) :
    result ConfiguredClaimMap RecordMapError :=
  let? compiled := result_map_err RecordMapFault (claim_map_compile config) in
  let? overrides := result_map_err RecordOverridesFault (overrides_compile claims) in
  Ok (mkConfigured (with_claims compiled overrides) (mkProfileOf RESERVED_FIELDS ATTESTOR)).

(** ** Presets ([identity_jwt/presets.rs]): the documents embedded in the crate, as [serde] reads
    their [claim_map]. The [description] of each is prose and is left out. *)

Definition preset_section (fields : list (string * json)) : option RoleMapConfig := Some (list_to_map fields).

Definition flagged (flag : bool) (path : string) : json :=
  JObject [("array_only", JBool flag); ("path", JString path)].

Definition string_only (path : string) : json := JObject [("path", JString path); ("string_only", JBool true)].

Definition words_of (paths : list json) : json := JObject [("paths", JArray paths); ("split", JString "whitespace")].

Definition first_present (path : string) : json :=
  JObject [("path", JString path); ("stop_if_present", JBool true)].

Definition preset_auth0 : ClaimMapConfig := mkClaimMapConfig
  (preset_section [
     ("id", JString "sub");
     ("permissions", words_of [flagged true "permissions"; string_only "scope"])])
  (preset_section [
     ("authorized_audiences", JString "aud");
     ("authorized_scopes", words_of [string_only "scope"]);
     ("client_id", JArray [first_present "client_id"; JString "azp"])])
  None.

Definition preset_cognito : ClaimMapConfig := mkClaimMapConfig
  (preset_section [
     ("id", JString "sub");
     ("permissions", words_of [string_only "scope"]);
     ("teams", JArray [flagged true "cognito:groups"])])
  (preset_section [
     ("authorized_scopes", words_of [string_only "scope"]);
     ("client_id", JArray [JString "client_id"])])
  None.

Definition preset_ibmverify : ClaimMapConfig := mkClaimMapConfig
  (preset_section [
     ("id", JString "sub");
     ("permissions", words_of [flagged false "permissions"; string_only "scope"]);
     ("roles", JArray [flagged false "roles"]);
     ("teams", JArray [flagged false "teams"; flagged false "groups"])])
  (preset_section [
     ("authorized_audiences", JString "aud");
     ("authorized_scopes", words_of [flagged false "authorized_scopes"; string_only "scope"]);
     ("client_id", JArray [first_present "client_id"; JString "azp"]);
     ("client_name", JString "client_name");
     ("roles", JArray [flagged false "roles"])])
  None.

Definition preset_keycloak : ClaimMapConfig := mkClaimMapConfig
  (preset_section [
     ("id", JString "sub");
     ("permissions", words_of [string_only "scope"]);
     ("roles", JArray [flagged true "realm_access.roles"])])
  (preset_section [
     ("authorized_audiences", JString "aud");
     ("authorized_scopes", words_of [string_only "scope"]);
     ("client_id", JArray [first_present "client_id"; JString "azp"; JString "clientId"])])
  None.

Definition preset_standard : ClaimMapConfig := mkClaimMapConfig
  (preset_section [
     ("id", JString "sub");
     ("permissions", words_of [flagged true "permissions"; string_only "scope"]);
     ("roles", JArray [flagged true "roles"]);
     ("teams", JArray [flagged true "teams"; flagged true "groups"])])
  (preset_section [
     ("authorized_audiences", JString "aud");
     ("authorized_scopes", words_of [flagged true "authorized_scopes"; string_only "scope"]);
     ("client_id", JArray [first_present "client_id"; JString "azp"]);
     ("client_name", JString "client_name");
     ("roles", JArray [flagged true "roles"])])
  (preset_section [
     ("spiffe_id", JArray [JString "sub"; JString "spiffe_id"])]).

Definition PRESETS : list (string * ClaimMapConfig) :=
  [("auth0", preset_auth0); ("cognito", preset_cognito); ("ibmverify", preset_ibmverify);
   ("keycloak", preset_keycloak); ("standard", preset_standard)].

Definition DEFAULT_PRESET : string := "standard".

Record Preset : Type := mkPreset {
  pr_name : string;
  pr_claim_map : CompiledClaimMap;
}.

Inductive PresetError : Type :=
| UnknownPreset (name : string) (valid : list string)
| PresetDoesNotCompile (name : string) (e : ClaimMapError).

Definition preset_names : list string := PRESETS.*1.

(** [presets::lookup]. *)
Definition preset_lookup (name : string) : result Preset PresetError :=
  match List.find (fun p => String.eqb p.1 name) PRESETS with
  | None => Err (UnknownPreset name preset_names)
  | Some (interned, config) =>
      let? compiled := result_map_err (PresetDoesNotCompile interned) (claim_map_compile config) in
      Ok (mkPreset interned compiled)
  end.
