(* ===== verification/ClaimMapProps.v ===== *)
(** * Properties of claim mapping

    A claim path reads back as written; the shipped standard map computes what the mapper
    written in Rust computes, on every claim set; a mapped identity holds only what its declared
    paths reach, with the claims bag showing exactly the claims the map leaves visible. *)

From Stdlib Require Import Ascii String.
From S2P Require Import Prelude RustStr F64 Json Platform Lexical ExtData ClaimMap.

(** ** Paths *)

Lemma append_assoc3 a b c : (a +:+ b) +:+ c = a +:+ (b +:+ c).
Proof. induction a as [|x a IH]; [done|]. by rewrite !string_app_cons, IH. Qed.

Lemma append_str1 a c s : (a +:+ str1 c) +:+ s = a +:+ String c s.
Proof. by rewrite append_assoc3. Qed.

Lemma concat_cons_ne sep x y l : String.concat sep (x :: y :: l) = x +:+ sep +:+ String.concat sep (y :: l).
Proof. done. Qed.

(** Reading an escaped segment moves it into the accumulator. *)
Lemma path_loop_segment input seg t segs cur :
  path_loop input (escape_segment seg +:+ t) segs cur = path_loop input t segs (cur +:+ seg).
Proof.
  revert cur. induction seg as [|c seg IH]; intros cur; [by rewrite string_app_nil_r|].
  rewrite <- append_str1. cbn [escape_segment].
  destruct (Ascii.eqb_spec c path_dot) as [->|Hd]; [by cbn; rewrite <- IH|].
  destruct (Ascii.eqb_spec c path_escape) as [->|He]; [by cbn; rewrite <- IH|].
  change (path_loop input (String c (escape_segment seg +:+ t)) segs cur = path_loop input t segs ((cur +:+ str1 c) +:+ seg)).
  cbn [path_loop].
  rewrite (proj2 (Ascii.eqb_neq _ _) He), (proj2 (Ascii.eqb_neq _ _) Hd). apply IH.
Qed.

Lemma append_ne_nil_l a b : a <> "" -> a +:+ b <> "".
Proof. by destruct a. Qed.

Lemma path_loop_complete input seg tl segs cur :
  cur +:+ seg <> "" -> Forall (fun s => s <> "") tl ->
  path_loop input (String.concat "." (map escape_segment (seg :: tl))) segs cur
  = Ok (mkClaimPath (segs ++ (cur +:+ seg) :: tl)).
Proof.
  revert seg segs cur. induction tl as [|s tl IH]; intros seg segs cur Hne Ht.
  - cbn [map String.concat]. rewrite <- (string_app_nil_r (escape_segment seg)), path_loop_segment.
    cbn [path_loop]. by rewrite (proj2 (String.eqb_neq _ _) Hne).
  - apply Forall_cons in Ht as [Hs Ht]. cbn [map]. rewrite concat_cons_ne, path_loop_segment.
    rewrite string_app_cons. change ("" +:+ ?t) with t. cbn [path_loop].
    change (Ascii.eqb "." path_escape) with false. change (Ascii.eqb "." path_dot) with true. cbv iota.
    rewrite (proj2 (String.eqb_neq _ _) Hne).
    etrans; [apply (IH s (segs ++ [cur +:+ seg]) "" Hs Ht)|]. by rewrite <- app_assoc.
Qed.

(** The converse: what the loop accepts is the rendering of what it returns. *)
Lemma path_loop_sound n input s segs cur p :
  String.length s <= n -> path_loop input s segs cur = Ok p ->
  exists seg tl, p = mkClaimPath (segs ++ (cur +:+ seg) :: tl) /\ cur +:+ seg <> ""
    /\ Forall (fun x => x <> "") tl /\ s = String.concat "." (map escape_segment (seg :: tl)).
Proof.
  revert s segs cur. induction n as [|n IH]; intros s segs cur Hl;
    (destruct s as [|c rest]; [|cbn [String.length] in Hl]; [|try lia]); cbn [path_loop].
  1,2: destruct (String.eqb_spec cur "") as [|Hne]; [by destruct segs|]; intros [= <-]; exists "", [];
    by rewrite string_app_nil_r.
  destruct (Ascii.eqb_spec c path_escape) as [->|He].
  { destruct rest as [|e rest]; [done|]. cbn [String.length] in Hl.
    destruct (Ascii.eqb_spec e path_dot) as [->|Hd]; [|destruct (Ascii.eqb_spec e path_escape) as [->|]; [|done]];
      intros H; apply IH in H as (seg & tl & -> & Hne & Ht & ->); try lia;
      rewrite append_str1 in *; eexists (String _ seg), tl; (split_and!; [done..|]); by destruct tl. }
  destruct (Ascii.eqb_spec c path_dot) as [->|Hd].
  - destruct (String.eqb_spec cur "") as [|Hne]; [done|]. intros H.
    apply IH in H as (seg & tl & -> & Hs & Ht & ->); [|lia].
    exists "", (seg :: tl). rewrite string_app_nil_r, <- app_assoc. split_and!; [done..|by constructor|done].
  - intros H. apply IH in H as (seg & tl & -> & Hs & Ht & ->); [|lia].
    rewrite append_str1 in *. exists (String c seg), tl. split_and!; [done..|].
    destruct tl; cbn [map String.concat escape_segment];
      by rewrite (proj2 (Ascii.eqb_neq _ _) He), (proj2 (Ascii.eqb_neq _ _) Hd).
Qed.

Lemma claim_path_parse_sound s p :
  claim_path_parse s = Ok p ->
  claim_path_display p = s /\ segments p <> [] /\ Forall (fun seg => seg <> "") (segments p).
Proof.
  unfold claim_path_parse, claim_path_display. intros H.
  apply (path_loop_sound (String.length s)) in H as (seg & tl & -> & Hs & Ht & E); [|done].
  cbn [segments app]. split_and!; [done|done|by constructor].
Qed.

(** A path and its text determine each other: parsing accepts exactly the
    renderings of paths with at least one segment and no empty one, and gives back the path
    whose rendering it read, whatever dots, backslashes or colons its segments hold. *)
Theorem claim_path_round_trip s p :
  claim_path_parse s = Ok p
  <-> claim_path_display p = s /\ segments p <> [] /\ Forall (fun seg => seg <> "") (segments p).
Proof.
  split; [apply claim_path_parse_sound|]. unfold claim_path_parse, claim_path_display.
  destruct p as [[|seg tl]]; cbn [segments]; intros (<- & Hn & Hf); [done|].
  apply Forall_cons in Hf as [Hs Ht]. by rewrite path_loop_complete.
Qed.

(** ** What a field resolves to *)

(** What one candidate contributes to a field. *)
Definition candidate_values (split : option SplitMode) (claims : ClaimMap) (c : CompiledCandidate) :
    option (list string) :=
  claim_path_resolve (cc_path c) claims ≫= fun v => contribute v c split.

Definition contributions (split : option SplitMode) (claims : ClaimMap) (cs : list CompiledCandidate) :
    list (list string) :=
  omap (candidate_values split claims) cs.

(** The first contribution, or all of them. *)
Definition combined (merge : MergeMode) (contributed : list (list string)) : list string :=
  match merge with
  | FirstMatch => match contributed with l :: _ => l | [] => [] end
  | Union => concat contributed
  end.

Definition any_contribution (contributed : list (list string)) : bool :=
  match contributed with [] => false | _ => true end.

Lemma collection_loop_spec field claims cs out :
  let contributed := contributions (cf_split field) claims cs in
  fo_values (collection_loop field claims cs out) = fo_values out ++ combined (cf_merge field) contributed
  /\ fo_resolved (collection_loop field claims cs out) = fo_resolved out || any_contribution contributed.
Proof.
  cbv zeta. revert out. induction cs as [|c cs IH]; intros out.
  { cbn. by destruct (cf_merge field); rewrite ?app_nil_r, ?orb_false_r. }
  cbn [collection_loop contributions omap list_omap]. unfold candidate_values.
  destruct (claim_path_resolve (cc_path c) claims) as [v|]; cbn [mbind option_bind]; [|apply (IH (mkOutcome _ _ _))].
  destruct (contribute v c (cf_split field)) as [more|]; [|apply (IH (mkOutcome _ _ _))].
  specialize (IH (mkOutcome (fo_values out ++ more) true (S (fo_tried out)))). cbn [fo_values fo_resolved fo_tried] in IH |- *.
  destruct (cf_merge field); case_bool_decide; try done.
  - cbn. by rewrite orb_true_r.
  - destruct IH as [-> ->]. cbn. by rewrite <- app_assoc, orb_true_r.
Qed.

Lemma retain_unseen_elem seen l x : x ∈ retain_unseen seen l <-> x ∈ l /\ x ∉ seen.
Proof.
  revert seen. induction l as [|v l IH]; intros seen; cbn [retain_unseen]; [set_solver|].
  case_bool_decide; rewrite ?elem_of_cons, IH; [set_solver|].
  destruct (decide (x = v)); set_solver.
Qed.

Lemma retain_unseen_nodup seen l : NoDup (retain_unseen seen l).
Proof.
  revert seen. induction l as [|v l IH]; intros seen; cbn [retain_unseen]; [constructor|].
  case_bool_decide; [apply IH|]. constructor; [|apply IH]. rewrite retain_unseen_elem. set_solver.
Qed.

(** A field in one equation: the first contribution, or every value of all of them once. *)
Lemma resolve_collection_spec field claims :
  let contributed := contributions (cf_split field) claims (cf_candidates field) in
  fo_values (resolve_collection field claims)
  = match cf_merge field with
    | FirstMatch => combined FirstMatch contributed
    | Union => retain_unseen ∅ (combined Union contributed)
    end
  /\ fo_resolved (resolve_collection field claims) = any_contribution contributed.
Proof.
  cbv zeta. unfold resolve_collection.
  destruct (collection_loop_spec field claims (cf_candidates field) (mkOutcome [] false 0)) as [Hv Hr].
  destruct (cf_merge field); case_bool_decide; try done; cbn [fo_values fo_resolved]; by rewrite Hv, Hr.
Qed.

(** ** The mapper without its diagnostics *)

Definition field_values (section : CompiledRoleMap) (claims : ClaimMap) (name : string) : list string :=
  match section !! name with Some f => fo_values (resolve_collection f claims) | None => [] end.

Definition scalar_value (section : CompiledRoleMap) (claims : ClaimMap) (accept : string -> bool) (name : string) :
    option string :=
  match section !! name with Some f => (resolve_scalar f claims accept).1 | None => None end.

(** Whether a declared field asks to be denied when missing, and is missing. *)
Definition collection_denies (section : CompiledRoleMap) (claims : ClaimMap) (name : string) : bool :=
  match section !! name with
  | Some f =>
      bool_decide (cf_on_missing f = Deny)
      && negb (any_contribution (contributions (cf_split f) claims (cf_candidates f)))
  | None => false
  end.

Definition scalar_denies (section : CompiledRoleMap) (claims : ClaimMap) (accept : string -> bool) (name : string) :
    bool :=
  match section !! name with
  | Some f =>
      bool_decide (cf_on_missing f = Deny)
      && match (resolve_scalar f claims accept).1 with Some _ => false | None => true end
  | None => false
  end.

Lemma declined_record_miss d name f tried :
  declined (record_miss d name f tried) = declined d || bool_decide (cf_on_missing f = Deny).
Proof.
  unfold declined, record_miss. cbn [dg_denied]. case_bool_decide; [|by rewrite orb_false_r].
  rewrite orb_true_r. by destruct (dg_denied d).
Qed.

Lemma collection_spec section name claims d :
  exists d', collection section name claims d = (field_values section claims name, d')
    /\ declined d' = declined d || collection_denies section claims name.
Proof.
  unfold collection, field_values, collection_denies.
  destruct (section !! name) as [f|]; [|eexists; split; [done|by rewrite orb_false_r]].
  eexists; split; [done|]. unfold record_outcome. rewrite (proj2 (resolve_collection_spec f claims)).
  destruct (any_contribution _); [|by rewrite declined_record_miss, andb_true_r].
  rewrite andb_false_r, orb_false_r. destruct (fo_values _); [|done]. by destruct (dg_detailed d).
Qed.

Lemma scalar_spec section name claims d accept :
  exists d', scalar section name claims d accept = (scalar_value section claims accept name, d')
    /\ declined d' = declined d || scalar_denies section claims accept name.
Proof.
  unfold scalar, scalar_value, scalar_denies.
  destruct (section !! name) as [f|]; [|eexists; split; [done|by rewrite orb_false_r]].
  destruct (resolve_scalar f claims accept) as [[v|] n]; eexists; (split; [done|]); cbn [fst].
  - by rewrite andb_false_r, orb_false_r.
  - by rewrite declined_record_miss, andb_true_r.
Qed.

Lemma anchor_spec section name claims d accept :
  exists d', anchor section name claims d accept = (scalar_value section claims accept name, d')
    /\ declined d' = declined d || scalar_denies section claims accept name.
Proof.
  unfold anchor. destruct (section !! name) as [f|] eqn:E; [apply scalar_spec|].
  unfold scalar_value, scalar_denies. rewrite E. eexists. split; [done|]. by rewrite orb_false_r.
Qed.

(** Step through the fields of a mapper. *)
Ltac step_fields :=
  repeat match goal with
  | |- context [anchor ?s ?n ?c ?d ?a] =>
      let d' := fresh "d" in let E := fresh in let D := fresh "D" in
      destruct (anchor_spec s n c d a) as (d' & E & D); rewrite E; clear E; cbv beta iota
  | |- context [scalar ?s ?n ?c ?d ?a] =>
      let d' := fresh "d" in let E := fresh in let D := fresh "D" in
      destruct (scalar_spec s n c d a) as (d' & E & D); rewrite E; clear E; cbv beta iota
  | |- context [collection ?s ?n ?c ?d] =>
      let d' := fresh "d" in let E := fresh in let D := fresh "D" in
      destruct (collection_spec s n c d) as (d' & E & D); rewrite E; clear E; cbv beta iota
  end;
  repeat match goal with H : declined ?d = _ |- context [declined ?d] => rewrite H; clear H end.

Section Mapper.
Context `{Tracing}.
Implicit Type self : ConfiguredClaimMap.

Definition subject_denied (sec : CompiledRoleMap) (claims : ClaimMap) : bool :=
  scalar_denies sec claims accept_any "id"
  || existsb (collection_denies sec claims) ["roles"; "permissions"; "teams"].

Definition client_denied (sec : CompiledRoleMap) (claims : ClaimMap) : bool :=
  existsb (scalar_denies sec claims accept_any) ["client_id"; "client_name"]
  || existsb (collection_denies sec claims)
       ["authorized_scopes"; "authorized_audiences"; "roles"; "permissions"; "teams"].

Definition workload_denied (sec : CompiledRoleMap) (claims : ClaimMap) : bool :=
  scalar_denies sec claims is_spiffe_id "spiffe_id" || scalar_denies sec claims accept_any "client_id"
  || collection_denies sec claims "selectors".

Lemma configured_subject_eq self claims :
  configured_subject self claims
  = match cp_subject (ccm_map self) with
    | None => None
    | Some sec =>
        if subject_denied sec claims then None
        else option_map (fun id =>
          mkSubject (Some id) None (list_to_set (field_values sec claims "roles"))
            (list_to_set (field_values sec claims "permissions")) (list_to_set (field_values sec claims "teams"))
            (claims_bag self sec claims) None) (scalar_value sec claims accept_any "id")
    end.
Proof.
  unfold configured_subject, compiled_role. destruct (cp_subject (ccm_map self)) as [sec|]; [|done].
  cbv beta iota zeta. step_fields. unfold subject_denied. cbn [declined diagnostics_new dg_denied orb existsb].
  rewrite orb_false_r, !orb_assoc. destruct (_ || _ || _ || _); [done|]. by destruct (scalar_value _ _ _ _).
Qed.

Lemma configured_client_eq self claims :
  configured_client self claims
  = match cp_client (ccm_map self) with
    | None => None
    | Some sec =>
        if client_denied sec claims then None
        else option_map (fun id =>
          mkClient id (scalar_value sec claims accept_any "client_name") default_trust
            (field_values sec claims "authorized_scopes") (field_values sec claims "authorized_audiences")
            (field_values sec claims "roles") (field_values sec claims "permissions")
            (field_values sec claims "teams") (claims_bag self sec claims) None)
          (scalar_value sec claims accept_any "client_id")
    end.
Proof.
  unfold configured_client, compiled_role. destruct (cp_client (ccm_map self)) as [sec|]; [|done].
  cbv beta iota zeta. step_fields. unfold client_denied. cbn [declined diagnostics_new dg_denied orb existsb].
  rewrite !orb_false_r, !orb_assoc. destruct (_ || _ || _ || _ || _ || _ || _); [done|].
  by destruct (scalar_value _ _ _ "client_id").
Qed.

Lemma configured_workload_eq self claims :
  configured_workload self claims
  = match cp_workload (ccm_map self) with
    | None => None
    | Some sec =>
        if workload_denied sec claims then None
        else option_map (fun id =>
          mkWorkload (Some id) (trust_domain_of id) None (Some (mp_attestor (ccm_profile self)))
            (field_values sec claims "selectors") (scalar_value sec claims accept_any "client_id") None)
          (scalar_value sec claims is_spiffe_id "spiffe_id")
    end.
Proof.
  unfold configured_workload, compiled_role. destruct (cp_workload (ccm_map self)) as [sec|]; [|done].
  cbv beta iota zeta. step_fields. unfold workload_denied. cbn [declined diagnostics_new dg_denied orb existsb].
  destruct (_ || _ || _); [done|]. by destruct (scalar_value _ _ _ "spiffe_id").
Qed.
End Mapper.

(** ** The standard preset and the mapper it replaces *)

Lemma chars_nonempty s : Forall (fun c => c <> "") (chars s).
Proof.
  induction s as [|a s IH]; [constructor|]. cbn [chars]. destruct (chars s) as [|c cs]; [by repeat constructor|].
  apply Forall_cons in IH as [Hc IH]. destruct (starts_with_continuation c); by repeat constructor.
Qed.

Lemma whitespace_pieces_chars cs : Forall (fun p => Forall (fun c => c ∈ cs) p) (whitespace_pieces cs).
Proof.
  induction cs as [|c cs IH]; cbn [whitespace_pieces]; [by repeat constructor|].
  assert (Forall (fun p => Forall (fun c' => c' ∈ c :: cs) p) (whitespace_pieces cs)) as IH'.
  { eapply Forall_impl; [exact IH|]. intros p Hp. eapply Forall_impl; [exact Hp|]. intros x Hx. by constructor 2. }
  destruct (is_whitespace c); [by constructor|].
  destruct (whitespace_pieces cs) as [|p ps]; [repeat constructor|].
  apply Forall_cons in IH' as [Hp Hps]. repeat constructor; try done.
Qed.

(** The words of a string are not empty, so skipping empty ones skips none. *)
Lemma split_whitespace_nonempty s w : w ∈ split_whitespace s -> w <> "".
Proof.
  unfold split_whitespace. rewrite list_elem_of_In, in_map_iff.
  intros (p & <- & Hp). apply filter_In in Hp as [Hp Hne].
  pose proof (whitespace_pieces_chars (chars s)) as Hw. rewrite Forall_forall in Hw.
  specialize (Hw p (proj2 (list_elem_of_In _ _) Hp)). destruct p as [|c p]; [done|].
  apply Forall_cons in Hw as [Hc _]. pose proof (chars_nonempty s) as Hn. rewrite Forall_forall in Hn.
  rewrite of_chars_cons. by apply append_ne_nil_l, Hn.
Qed.

Lemma filter_nonempty_words s :
  List.filter (fun w => negb (String.eqb w "")) (split_whitespace s) = split_whitespace s.
Proof.
  apply forallb_filter_id, forallb_forall. intros w Hw. apply negb_true_iff, String.eqb_neq.
  apply (split_whitespace_nonempty s). by apply list_elem_of_In.
Qed.

Lemma resolve_single k claims : claim_path_resolve (mkClaimPath [k]) claims = claims !! k.
Proof. cbn. by destruct (claims !! k). Qed.

Lemma array_candidate split claims k :
  candidate_values split claims (mkCompiledCandidate (mkClaimPath [k]) true false false) = array_strings claims k.
Proof.
  unfold candidate_values, array_strings, claim_array. cbn [cc_path]. rewrite resolve_single.
  by destruct (claims !! k) as [[]|].
Qed.

Lemma words_candidate claims k :
  candidate_values (Some Whitespace) claims (mkCompiledCandidate (mkClaimPath [k]) false true false)
  = string_words claims k.
Proof.
  unfold candidate_values, string_words, claim_string. cbn [cc_path]. rewrite resolve_single.
  destruct (claims !! k) as [[]|]; try done. cbn. by rewrite filter_nonempty_words.
Qed.

(** A field of up to two candidates, first match. *)
Lemma first_match_two f claims c1 c2 a b :
  cf_merge f = FirstMatch -> cf_candidates f = c1 :: c2 ->
  candidate_values (cf_split f) claims c1 = a ->
  (match c2 with [] => None | [c] => candidate_values (cf_split f) claims c | _ => b end) = b ->
  length c2 <= 1 ->
  fo_values (resolve_collection f claims) = first_of a b.
Proof.
  intros Hm Hc Ha Hb Hl. rewrite (proj1 (resolve_collection_spec f claims)), Hm, Hc.
  unfold contributions. cbn [omap list_omap]. rewrite Ha.
  destruct a as [a|]; [done|]. destruct c2 as [|c [|]]; simpl in Hl; try lia; subst b; [done|].
  cbn [omap list_omap]. by destruct (candidate_values _ _ c).
Qed.

(** The compiled standard preset, and the fields of its sections. *)
Definition standard_map : CompiledClaimMap :=
  Eval vm_compute in
  match preset_lookup DEFAULT_PRESET with Ok p => pr_claim_map p | Err _ => mkCompiledMap None None None no_overrides end.

Definition standard_configured : ConfiguredClaimMap := mkConfigured standard_map JWT_MAPPING_PROFILE.

Definition single (k : string) (array string_only stop : bool) : CompiledCandidate :=
  mkCompiledCandidate (mkClaimPath [k]) array string_only stop.

Definition ignored_field (split : option SplitMode) (cs : list CompiledCandidate) : CompiledField :=
  mkCompiledField cs FirstMatch split Ignore.

(** The bag of a section whose excluded names are a reserved list. *)
Lemma bag_unreserved self sec reserved claims :
  excluded_names self sec = list_to_set reserved -> claims_bag self sec claims = unreserved reserved claims.
Proof. intros E. apply map_filter_ext. intros k v _. rewrite E. cbn. by rewrite elem_of_list_to_set. Qed.

Lemma standard_subject_fields :
  exists sec, cp_subject standard_map = Some sec
    /\ sec !! "id" = Some (ignored_field None [single "sub" false false false])
    /\ sec !! "roles" = Some (ignored_field None [single "roles" true false false])
    /\ sec !! "permissions"
       = Some (ignored_field (Some Whitespace) [single "permissions" true false false; single "scope" false true false])
    /\ sec !! "teams" = Some (ignored_field None [single "teams" true false false; single "groups" true false false])
    /\ excluded_names standard_configured sec = list_to_set SUBJECT_RESERVED.
Proof. eexists. split; [reflexivity|]. split_and!; vm_compute; reflexivity. Qed.

Lemma standard_client_fields :
  exists sec, cp_client standard_map = Some sec
    /\ sec !! "client_id" = Some (ignored_field None [single "client_id" false false true; single "azp" false false false])
    /\ sec !! "client_name" = Some (ignored_field None [single "client_name" false false false])
    /\ sec !! "authorized_scopes"
       = Some (ignored_field (Some Whitespace)
           [single "authorized_scopes" true false false; single "scope" false true false])
    /\ sec !! "authorized_audiences" = Some (ignored_field None [single "aud" false false false])
    /\ sec !! "roles" = Some (ignored_field None [single "roles" true false false])
    /\ sec !! "permissions" = None /\ sec !! "teams" = None
    /\ excluded_names standard_configured sec = list_to_set CLIENT_RESERVED.
Proof. eexists. split; [reflexivity|]. split_and!; vm_compute; reflexivity. Qed.

Lemma standard_workload_fields :
  exists sec, cp_workload standard_map = Some sec
    /\ sec !! "spiffe_id" = Some (ignored_field None [single "sub" false false false; single "spiffe_id" false false false])
    /\ sec !! "client_id" = None /\ sec !! "selectors" = None.
Proof. eexists. split; [reflexivity|]. split_and!; vm_compute; reflexivity. Qed.

(** A field of the standard map never denies. *)
Lemma ignored_scalar_denies sec claims accept name split cs :
  sec !! name = Some (ignored_field split cs) -> scalar_denies sec claims accept name = false.
Proof. unfold scalar_denies. by intros ->. Qed.

Lemma ignored_collection_denies sec claims name split cs :
  sec !! name = Some (ignored_field split cs) -> collection_denies sec claims name = false.
Proof. unfold collection_denies. by intros ->. Qed.

Lemma undeclared_denies sec claims accept name :
  sec !! name = None ->
  scalar_denies sec claims accept name = false /\ collection_denies sec claims name = false
  /\ field_values sec claims name = [] /\ scalar_value sec claims accept name = None.
Proof. unfold scalar_denies, collection_denies, field_values, scalar_value. by intros ->. Qed.

Lemma standard_array sec claims name split k :
  sec !! name = Some (ignored_field split [single k true false false]) ->
  field_values sec claims name = first_of (array_strings claims k) None.
Proof.
  unfold field_values. intros ->. eapply first_match_two; [done|done|apply array_candidate|done|simpl; lia].
Qed.

Lemma standard_arrays sec claims name split j k :
  sec !! name = Some (ignored_field split [single j true false false; single k true false false]) ->
  field_values sec claims name = first_of (array_strings claims j) (array_strings claims k).
Proof.
  unfold field_values. intros ->.
  eapply first_match_two; [done|done|apply array_candidate|apply array_candidate|simpl; lia].
Qed.

Lemma standard_words sec claims name j k :
  sec !! name = Some (ignored_field (Some Whitespace) [single j true false false; single k false true false]) ->
  field_values sec claims name = first_of (array_strings claims j) (string_words claims k).
Proof.
  unfold field_values. intros ->.
  eapply first_match_two; [done|done|apply array_candidate|apply words_candidate|simpl; lia].
Qed.

Lemma standard_string sec claims name k :
  sec !! name = Some (ignored_field None [single k false false false]) ->
  scalar_value sec claims accept_any name = claim_string claims k.
Proof.
  unfold scalar_value, resolve_scalar, claim_string. intros ->. cbn [cf_candidates ignored_field scalar_loop].
  cbn [cc_path single]. rewrite resolve_single. by destruct (claims !! k) as [[]|].
Qed.

Section Standard.
Context `{Tracing}.

Lemma standard_subject_equiv claims : configured_subject standard_configured claims = standard_subject claims.
Proof.
  rewrite configured_subject_eq. destruct standard_subject_fields as (sec & Es & Hid & Hr & Hp & Ht & Hx).
  cbn [ccm_map standard_configured]. rewrite Es. unfold subject_denied. cbn [existsb].
  rewrite (ignored_scalar_denies _ _ _ _ _ _ Hid), (ignored_collection_denies _ _ _ _ _ Hr),
    (ignored_collection_denies _ _ _ _ _ Hp), (ignored_collection_denies _ _ _ _ _ Ht). cbn [orb].
  rewrite (standard_string _ _ _ _ Hid), (standard_array _ _ _ _ _ Hr), (standard_words _ _ _ _ _ Hp),
    (standard_arrays _ _ _ _ _ _ Ht), (bag_unreserved _ _ _ _ Hx).
  unfold standard_subject. by destruct (claim_string claims "sub").
Qed.

Lemma standard_client_equiv claims : configured_client standard_configured claims = standard_client claims.
Proof.
  rewrite configured_client_eq. destruct standard_client_fields as (sec & Es & Hid & Hn & Hs & Ha & Hr & Hp & Ht & Hx).
  cbn [ccm_map standard_configured]. rewrite Es. unfold client_denied. cbn [existsb].
  rewrite (ignored_scalar_denies _ _ _ _ _ _ Hid), (ignored_scalar_denies _ _ _ _ _ _ Hn),
    (ignored_collection_denies _ _ _ _ _ Hs), (ignored_collection_denies _ _ _ _ _ Ha),
    (ignored_collection_denies _ _ _ _ _ Hr).
  destruct (undeclared_denies _ claims accept_any _ Hp) as (_ & -> & -> & _).
  destruct (undeclared_denies _ claims accept_any _ Ht) as (_ & -> & -> & _). cbn [orb].
  rewrite (standard_string _ _ _ _ Hn), (standard_array _ _ _ _ _ Hr), (standard_words _ _ _ _ _ Hs),
    (bag_unreserved _ _ _ _ Hx).
  unfold standard_client, scalar_value, field_values. rewrite Hid, Ha.
  rewrite (first_match_two (ignored_field None [single "aud" false false false]) claims _ _ _ None
    eq_refl eq_refl eq_refl eq_refl ltac:(simpl; lia)).
  unfold resolve_scalar, candidate_values. cbn [cf_candidates ignored_field scalar_loop cf_split].
  cbn [cc_path single]. rewrite !resolve_single.
  by destruct (claims !! "client_id") as [[]|], (claims !! "azp") as [[]|], (claims !! "aud") as [[]|].
Qed.

Lemma standard_workload_equiv claims : configured_workload standard_configured claims = standard_workload claims.
Proof.
  rewrite configured_workload_eq. destruct standard_workload_fields as (sec & Es & Hid & Hc & Hs).
  cbn [ccm_map standard_configured]. rewrite Es. unfold workload_denied.
  rewrite (ignored_scalar_denies _ _ _ _ _ _ Hid).
  destruct (undeclared_denies _ claims accept_any _ Hc) as (-> & _ & _ & ->).
  destruct (undeclared_denies _ claims accept_any _ Hs) as (_ & -> & -> & _). cbn [orb].
  unfold standard_workload, scalar_value. rewrite Hid.
  unfold resolve_scalar, claim_string. cbn [cf_candidates ignored_field scalar_loop].
  cbn [cc_path single cc_stop_if_present]. rewrite !resolve_single.
  destruct (claims !! "sub") as [[| | |s| |]|], (claims !! "spiffe_id") as [[| | |t| |]|]; try done;
    cbn [mbind option_bind as_str then_some];
    repeat match goal with |- context [is_spiffe_id ?x] => destruct (is_spiffe_id x) eqn:? end;
    cbn [then_some option_map fst]; try done; by rewrite ?Heqb, ?Heqb0.
Qed.

(** The standard preset is found and compiles, and on every claim set, whatever
    is listening to the log, the mapper it drives gives the subject, the client and the
    workload identity the mapper written in Rust gives, or refuses exactly when that one
    refuses. *)
Theorem standard_preset_equivalent :
  exists preset, preset_lookup DEFAULT_PRESET = Ok preset
    /\ let m := mkConfigured (pr_claim_map preset) JWT_MAPPING_PROFILE in
       forall claims,
         map_subject m claims = map_subject StandardMap claims
         /\ map_client m claims = map_client StandardMap claims
         /\ map_workload m claims = map_workload StandardMap claims.
Proof.
  exists (mkPreset "standard" standard_map). split; [by vm_compute|]. intros m claims.
  split_and!; [apply standard_subject_equiv|apply standard_client_equiv|apply standard_workload_equiv].
Qed.
End Standard.

(** ** Where a mapped value comes from *)

(** A string the paths declared for a field reach in the claims: the value itself, a word of it
    where the field splits, or an element of an array. *)
Definition reached (sec : CompiledRoleMap) (claims : ClaimMap) (name x : string) : Prop :=
  exists f c v, sec !! name = Some f /\ c ∈ cf_candidates f /\ claim_path_resolve (cc_path c) claims = Some v
    /\ ((v = JString x /\ cf_split f = None)
        \/ (exists t, v = JString t /\ cf_split f = Some Whitespace /\ x ∈ split_whitespace t)
        \/ (exists items, v = JArray items /\ JString x ∈ items)).

(** The string a declared path of a field holding one value reaches. *)
Definition names_value (sec : CompiledRoleMap) (claims : ClaimMap) (name x : string) : Prop :=
  exists f c, sec !! name = Some f /\ c ∈ cf_candidates f /\ claim_path_resolve (cc_path c) claims = Some (JString x).

Lemma strings_of_elem items x : x ∈ strings_of items <-> JString x ∈ items.
Proof.
  unfold strings_of. rewrite list_elem_of_omap. split.
  - intros (v & Hv & E). by destruct v; simplify_eq/=.
  - intros Hx. by exists (JString x).
Qed.

Lemma candidate_values_reached sec claims name f c l x :
  sec !! name = Some f -> c ∈ cf_candidates f -> candidate_values (cf_split f) claims c = Some l -> x ∈ l ->
  reached sec claims name x.
Proof.
  unfold candidate_values. intros Hf Hc Hl Hx.
  destruct (claim_path_resolve (cc_path c) claims) as [v|] eqn:Ev; [|done]. exists f, c, v. split_and!; [done..|].
  destruct v as [| | |t|items|]; cbn in Hl; try done.
  - destruct (cc_array_only c); [done|]. destruct (cf_split f) as [[]|]; simplify_eq.
    + right; left. by exists t.
    + left. by apply list_elem_of_singleton in Hx as ->.
  - destruct (cc_string_only c); simplify_eq. right; right. exists items. by rewrite <- strings_of_elem.
Qed.

Lemma field_values_reached sec claims name x : x ∈ field_values sec claims name -> reached sec claims name x.
Proof.
  unfold field_values. destruct (sec !! name) as [f|] eqn:Ef; [|by intros ?%elem_of_nil].
  rewrite (proj1 (resolve_collection_spec f claims)). intros Hx.
  assert (exists l, l ∈ contributions (cf_split f) claims (cf_candidates f) /\ x ∈ l) as (l & Hl & Hxl).
  { destruct (cf_merge f); cbn [combined] in Hx.
    - destruct (contributions _ _ _) as [|l ls]; [by apply elem_of_nil in Hx|]. exists l. by split; [left|].
    - apply retain_unseen_elem in Hx as [Hx _]. apply list_elem_of_In, in_concat in Hx as (l & Hl & Hx).
      exists l. by rewrite !list_elem_of_In. }
  apply list_elem_of_omap in Hl as (c & Hc & El). by eapply candidate_values_reached.
Qed.

Lemma scalar_loop_some claims accept cs tried x n :
  scalar_loop claims accept cs tried = (Some x, n) ->
  accept x = true /\ exists c, c ∈ cs /\ claim_path_resolve (cc_path c) claims = Some (JString x).
Proof.
  revert tried. induction cs as [|c cs IH]; intros tried; cbn [scalar_loop]; [done|].
  assert (scalar_loop claims accept cs (S tried) = (Some x, n) ->
    accept x = true /\ exists c0, c0 ∈ c :: cs /\ claim_path_resolve (cc_path c0) claims = Some (JString x)) as Hrest.
  { intros E. destruct (IH _ E) as (Ha & c0 & Hc & Hr). split; [done|]. exists c0. by split; [right|]. }
  destruct (claim_path_resolve (cc_path c) claims) as [v|] eqn:Ev; [|done].
  destruct v as [| | |t| |]; cbn [as_str]; try (by destruct (cc_stop_if_present c)).
  destruct (accept t) eqn:Ea; [|by destruct (cc_stop_if_present c)].
  intros [= <- _]. split; [done|]. exists c. by split; [left|].
Qed.

Lemma scalar_value_names sec claims accept name x :
  scalar_value sec claims accept name = Some x -> accept x = true /\ names_value sec claims name x.
Proof.
  unfold scalar_value, resolve_scalar. destruct (sec !! name) as [f|] eqn:Ef; [|done].
  destruct (scalar_loop _ _ _ _) as [o n] eqn:E; cbn [fst]; intros ->.
  apply scalar_loop_some in E as (Ha & c & Hc & Hr). split; [done|]. by exists f, c.
Qed.

(** What a SPIFFE id names. *)
Lemma split_head c s : exists p ps, split c s = p :: ps /\ contains_char c p = false
  /\ (s = p \/ exists rest, s = p +:+ String c rest).
Proof.
  induction s as [|a s IH]; cbn [split]; [by exists "", []; auto|].
  destruct (Ascii.eqb_spec a c) as [->|Ha].
  - exists "", (split c s). split_and!; [done..|]. right. by exists s.
  - destruct IH as (p & ps & -> & Hp & Hs). exists (String a p), ps. split_and!; [done| |].
    + cbn [contains_char]. by rewrite (proj2 (Ascii.eqb_neq _ _) Ha).
    + destruct Hs as [->|[rest ->]]; [by left|right; by exists rest].
Qed.

Lemma strip_prefix_some p s rest : strip_prefix p s = Some rest -> s = p +:+ rest.
Proof.
  revert s. induction p as [|a p IH]; intros s; [by intros [= ->]|]. destruct s as [|b s]; [done|]. cbn [strip_prefix].
  destruct (Ascii.eqb_spec a b) as [->|]; [|done]. intros E. by rewrite (IH s E).
Qed.

Lemma trust_domain_some id d :
  trust_domain_of id = Some d ->
  d <> "" /\ contains_char "/" d = false /\ (id = SPIFFE_SCHEME +:+ d \/ exists path, id = SPIFFE_SCHEME +:+ d +:+ "/" +:+ path).
Proof.
  unfold trust_domain_of. destruct (strip_prefix SPIFFE_SCHEME id) as [rest|] eqn:E; [|done].
  apply strip_prefix_some in E as ->. destruct (split_head "/" rest) as (p & ps & -> & Hp & Hr).
  destruct (String.eqb_spec p "") as [|Hne]; [done|]. intros [= <-]. split_and!; [done..|].
  destruct Hr as [->|[path ->]]; [by left|right; by exists path].
Qed.

Section Provenance.
Context `{Tracing}.
Implicit Type self : ConfiguredClaimMap.

(** A mapped identity is made of what its section's declared paths reach: the id of
    the subject or client is a string at a path declared for it, every role, permission, team,
    scope, audience and selector is a string some path of that field carries, and nothing else
    is set: no subject type, no trust level above the lowest, no key binding. *)
Theorem mapped_identity_reached self claims :
  (forall s, map_subject self claims = Some s ->
    exists sec id, cp_subject (ccm_map self) = Some sec /\ sj_id s = Some id /\ names_value sec claims "id" id
      /\ (forall x, (x ∈ sj_roles s -> reached sec claims "roles" x)
                 /\ (x ∈ sj_permissions s -> reached sec claims "permissions" x)
                 /\ (x ∈ sj_teams s -> reached sec claims "teams" x))
      /\ sj_subject_type s = None /\ sj_key_binding s = None)
  /\ (forall c, map_client self claims = Some c ->
    exists sec, cp_client (ccm_map self) = Some sec /\ names_value sec claims "client_id" (cl_client_id c)
      /\ (forall x, (cl_client_name c = Some x -> names_value sec claims "client_name" x)
                 /\ (x ∈ cl_authorized_scopes c -> reached sec claims "authorized_scopes" x)
                 /\ (x ∈ cl_authorized_audiences c -> reached sec claims "authorized_audiences" x)
                 /\ (x ∈ cl_roles c -> reached sec claims "roles" x)
                 /\ (x ∈ cl_permissions c -> reached sec claims "permissions" x)
                 /\ (x ∈ cl_teams c -> reached sec claims "teams" x))
      /\ cl_trust_level c = default_trust /\ cl_key_binding c = None).
Proof.
  split.
  - intros s Hs. cbn in Hs. rewrite configured_subject_eq in Hs.
    destruct (cp_subject (ccm_map self)) as [sec|]; [|done]. destruct (subject_denied sec claims); [done|].
    destruct (scalar_value sec claims accept_any "id") as [id|] eqn:Ei; [|done]. injection Hs as <-.
    apply scalar_value_names in Ei as [_ Hi]. exists sec, id. split_and!; try done.
    intros x. cbn [sj_roles sj_permissions sj_teams]. rewrite !elem_of_list_to_set.
    split_and!; apply field_values_reached.
  - intros c Hc. cbn in Hc. rewrite configured_client_eq in Hc.
    destruct (cp_client (ccm_map self)) as [sec|]; [|done]. destruct (client_denied sec claims); [done|].
    destruct (scalar_value sec claims accept_any "client_id") as [id|] eqn:Ei; [|done]. injection Hc as <-.
    apply scalar_value_names in Ei as [_ Hi]. exists sec. split_and!; try done. intros x. cbn.
    split_and!; [by intros [_ ?]%scalar_value_names|apply field_values_reached..].
Qed.

(** A workload identity the mapper gives always has a SPIFFE id that a declared
    path holds: the scheme, a trust domain that is not empty and has no slash, and the domain
    recorded is that one, whatever the claims say; the attestor is the verified credential's. *)
Theorem workload_identity_sound self claims w :
  map_workload self claims = Some w ->
  exists sec id domain,
    cp_workload (ccm_map self) = Some sec /\ wi_spiffe_id w = Some id /\ names_value sec claims "spiffe_id" id
    /\ wi_trust_domain w = Some domain /\ domain <> "" /\ contains_char "/" domain = false
    /\ (id = SPIFFE_SCHEME +:+ domain \/ exists path, id = SPIFFE_SCHEME +:+ domain +:+ "/" +:+ path)
    /\ wi_attestor w = Some (mp_attestor (ccm_profile self)) /\ wi_attested_at w = None /\ wi_key_binding w = None.
Proof.
  intros Hw. cbn in Hw. rewrite configured_workload_eq in Hw.
  destruct (cp_workload (ccm_map self)) as [sec|]; [|done]. destruct (workload_denied sec claims); [done|].
  destruct (scalar_value sec claims is_spiffe_id "spiffe_id") as [id|] eqn:Ei; [|done]. injection Hw as <-.
  apply scalar_value_names in Ei as [Ha Hi]. unfold is_spiffe_id in Ha.
  destruct (trust_domain_of id) as [domain|] eqn:Ed; [|done].
  destruct (trust_domain_some id domain Ed) as (Hne & Hs & Hid).
  exists sec, id, domain. by split_and!.
Qed.
End Provenance.

(** ** What the claims bag shows *)

(** A name of an override list, read as a path of one segment. *)
Definition named (names : list string) (k : string) : Prop :=
  exists n, n ∈ names /\ claim_path_parse n = Ok (mkClaimPath [k]).

Lemma named_cons n names k :
  named (n :: names) k <-> claim_path_parse n = Ok (mkClaimPath [k]) \/ named names k.
Proof. unfold named. setoid_rewrite elem_of_cons. naive_solver. Qed.

Lemma parse_names_parsed listed names acc k :
  k ∈ pn_parsed (foldl (parse_claim_name listed) acc names) <-> k ∈ pn_parsed acc \/ named names k.
Proof.
  revert acc. induction names as [|n names IH]; intros acc; cbn [foldl].
  - split; [by left|]. intros [|(n & Hn & _)]; [done|by apply elem_of_nil in Hn].
  - rewrite IH, named_cons. unfold parse_claim_name.
    destruct (claim_path_parse n) as [[segs]|] eqn:E; [|cbn; naive_solver].
    unfold single_segment. cbn [segments]. destruct segs as [|s [|]]; cbn [pn_parsed]; [naive_solver| |naive_solver].
    rewrite elem_of_union, elem_of_singleton. naive_solver.
Qed.

Lemma compile_claim_names_parsed listed names k : k ∈ (compile_claim_names listed names).1 <-> named names k.
Proof. unfold compile_claim_names. cbn [fst]. rewrite parse_names_parsed. cbn. set_solver. Qed.

Lemma overrides_compile_ok ov c :
  overrides_compile ov = Ok c ->
  forall k, (k ∈ cco_exclude c <-> named (co_exclude ov) k) /\ (k ∈ cco_include c <-> named (co_include ov) k)
    /\ ~ (k ∈ cco_exclude c /\ k ∈ cco_include c).
Proof.
  unfold overrides_compile.
  pose proof (compile_claim_names_parsed "exclude" (co_exclude ov)) as He.
  pose proof (compile_claim_names_parsed "include" (co_include ov)) as Hi.
  destruct (compile_claim_names "exclude" _) as [ex pe], (compile_claim_names "include" _) as [inc pi]. cbn [fst] in *.
  destruct (pe ++ pi); [|done]. destruct (sorted_elements (inc ∩ ex)) as [|] eqn:Es; [|done]. intros [= <-] k.
  split_and!; [apply He|apply Hi|]. cbn. intros [H1 H2].
  assert (k ∈ sorted_elements (inc ∩ ex)) as Hk by (apply sorted_elements_elem; set_solver).
  rewrite Es in Hk. by apply elem_of_nil in Hk.
Qed.

(** A claim a declared path consumes whole. *)
Definition consumed (sec : CompiledRoleMap) (k : string) : Prop :=
  exists name f c, sec !! name = Some f /\ c ∈ cf_candidates f /\ segments (cc_path c) = [k].

Lemma single_segment_some p k : single_segment p = Some k <-> segments p = [k].
Proof. unfold single_segment. destruct (segments p) as [|s [|]]; naive_solver. Qed.

Lemma consumed_names_elem sec k : k ∈ consumed_names sec <-> consumed sec k.
Proof.
  unfold consumed_names, consumed. rewrite elem_of_concat_map. split.
  - intros ([name f] & Hf & Hk). apply elem_of_map_to_list in Hf. apply list_elem_of_omap in Hk as (c & Hc & Ek).
    exists name, f, c. by rewrite single_segment_some in Ek.
  - intros (name & f & c & Hf & Hc & Es). exists (name, f). split; [by apply elem_of_map_to_list|].
    apply list_elem_of_omap. exists c. by rewrite single_segment_some.
Qed.

(** What the bag shows of a claim: one the operator includes by name, or one that is not
    reserved by the credential, not excluded, and not consumed by a declared path. *)
Definition visible (self : ConfiguredClaimMap) (ov : ClaimsOverrides) (sec : CompiledRoleMap) (k : string) : Prop :=
  named (co_include ov) k
  \/ (k ∉ mp_reserved_names (ccm_profile self) /\ ~ named (co_exclude ov) k /\ ~ consumed sec k).

Lemma claims_bag_lookup self ov sec claims k v :
  overrides_compile ov = Ok (cp_claims (ccm_map self)) ->
  claims_bag self sec claims !! k = Some v <-> claims !! k = Some v /\ visible self ov sec k.
Proof.
  intros Ho. destruct (overrides_compile_ok _ _ Ho k) as (He & Hi & _).
  etrans; [apply (map_lookup_filter_Some (fun nv => nv.1 ∉ excluded_names self sec) claims k v)|]. cbn [fst].
  unfold excluded_names, visible. rewrite not_elem_of_difference, !not_elem_of_union, !elem_of_list_to_set.
  rewrite consumed_names_elem, He, Hi.
  destruct (decide (k ∈ cco_include (cp_claims (ccm_map self)))); naive_solver.
Qed.

Section Bag.
Context `{Tracing}.
Implicit Type self : ConfiguredClaimMap.

(** The claims bag a policy reads shows a claim of the token exactly when the
    operator includes it by name, or it is none of the credential's reserved names, is not
    excluded and no declared path consumes it; what is shown is the token's own value. The two
    lists of a configuration that loads never name the same claim, so an excluded claim is
    never shown. *)
Theorem claims_bag_exact self ov claims :
  overrides_compile ov = Ok (cp_claims (ccm_map self)) ->
  (forall s sec k v, map_subject self claims = Some s -> cp_subject (ccm_map self) = Some sec ->
     sj_claims s !! k = Some v <-> claims !! k = Some v /\ visible self ov sec k)
  /\ (forall c sec k v, map_client self claims = Some c -> cp_client (ccm_map self) = Some sec ->
     cl_claims c !! k = Some v <-> claims !! k = Some v /\ visible self ov sec k)
  /\ (forall sec k, named (co_exclude ov) k -> ~ visible self ov sec k).
Proof.
  intros Ho. split_and!.
  - intros s sec k v Hs Es. cbn in Hs. rewrite configured_subject_eq, Es in Hs.
    destruct (subject_denied sec claims); [done|]. destruct (scalar_value _ _ _ _); [|done]. injection Hs as <-.
    by apply claims_bag_lookup.
  - intros c sec k v Hc Es. cbn in Hc. rewrite configured_client_eq, Es in Hc.
    destruct (client_denied sec claims); [done|]. destruct (scalar_value _ _ _ "client_id"); [|done]. injection Hc as <-.
    by apply claims_bag_lookup.
  - intros sec k Hx. destruct (overrides_compile_ok _ _ Ho k) as (He & Hi & Hd). unfold visible. naive_solver.
Qed.
End Bag.

(** ** What compiles *)

(** A field every option of which means something. *)
Definition field_ok (name : string) (f : CompiledField) : Prop :=
  cf_candidates f <> []
  /\ Forall (fun c => segments (cc_path c) <> [] /\ Forall (fun s => s <> "") (segments (cc_path c))
                      /\ cc_array_only c && cc_string_only c = false) (cf_candidates f)
  /\ if holds_one_value name
     then cf_merge f = FirstMatch /\ cf_split f = None
          /\ Forall (fun c => cc_array_only c = false /\ cc_string_only c = false) (cf_candidates f)
     else Forall (fun c => cc_stop_if_present c = false) (cf_candidates f).

(** The candidates a field compiles, path by path. *)
Definition compiles_to (c : Candidate) (cc : CompiledCandidate) : Prop :=
  claim_path_parse (ca_path c) = Ok (cc_path cc) /\ cc_array_only cc = ca_array_only c
  /\ cc_string_only cc = ca_string_only c /\ cc_stop_if_present cc = ca_stop_if_present c.

Lemma compile_candidates_ok q cs ccs : compile_candidates q cs = Ok ccs -> Forall2 compiles_to cs ccs.
Proof.
  revert ccs. induction cs as [|c cs IH]; intros ccs; cbn [compile_candidates]; [by intros [= <-]|].
  destruct (claim_path_parse (ca_path c)) as [p|] eqn:Ep; cbn [result_map_err]; [|done].
  destruct (compile_candidates q cs) as [ccs'|]; [|done]. intros [= <-]. constructor; [done|by apply IH].
Qed.

Lemma candidate_from_value_shape field v c :
  candidate_from_value field v = Ok c -> ca_array_only c && ca_string_only c = false.
Proof.
  destruct v as [| | |s| |m]; cbn [candidate_from_value]; try done; [by intros [= <-]|].
  destruct (unknown_key _ _); [done|]. intros H. peel_ok H.
  destruct (_ && _) eqn:E; [done|]. peel_ok H. by injection H as <-.
Qed.

Lemma candidates_from_list_shape field items cs :
  candidates_from_list field items = Ok cs -> Forall (fun c => ca_array_only c && ca_string_only c = false) cs.
Proof.
  revert cs. induction items as [|i items IH]; intros cs; cbn [candidates_from_list]; [by intros [= <-]|].
  destruct (candidate_from_value field i) as [c|] eqn:Ec; [|done].
  destruct (candidates_from_list field items) as [cs'|]; [|done]. intros [= <-].
  constructor; [by eapply candidate_from_value_shape|by apply IH].
Qed.

Lemma field_from_value_shape field v f :
  field_from_value field v = Ok f -> Forall (fun c => ca_array_only c && ca_string_only c = false) (fm_paths f).
Proof.
  destruct v as [| | |s|items|m]; cbn [field_from_value]; try done.
  - intros [= <-]. by repeat constructor.
  - intros H. peel_ok H. injection H as <-. by eapply candidates_from_list_shape.
  - destruct (unknown_key _ _); [done|]. intros H.
    destruct (map_get "paths" m) as [[| | |p|items|]|]; try done; peel_ok H; injection H as <-;
      [by repeat constructor|by eapply candidates_from_list_shape].
Qed.

Lemma shape_flag_none cs :
  shape_flag cs = None -> Forall (fun c => ca_array_only c = false /\ ca_string_only c = false) cs.
Proof.
  induction cs as [|c cs IH]; cbn [shape_flag]; [by constructor|].
  destruct (ca_array_only c) eqn:Ea; [done|]. destruct (ca_string_only c) eqn:Es; [done|]. by constructor; [|apply IH].
Qed.

Lemma compile_field_sound role allowed name v f :
  compile_field role allowed name v = Ok f -> name ∈ allowed /\ field_ok name f.
Proof.
  unfold compile_field. destruct (existsb (String.eqb name) allowed) eqn:Ea; cbn [negb]; [|done].
  destruct (field_from_value _ v) as [fm|] eqn:Ef; [|done]. apply field_from_value_shape in Ef.
  destruct (fm_paths fm) as [|c0 cs0] eqn:Ep; [done|]. rewrite <- Ep in *.
  destruct (check_options name _ fm) as [u|] eqn:Eo; [|done].
  destruct (compile_candidates _ (fm_paths fm)) as [ccs|] eqn:Ec; [|done]. intros [= <-].
  apply compile_candidates_ok in Ec. split.
  { apply existsb_true_iff in Ea as (y & Hy & ->%String.eqb_eq). done. }
  unfold field_ok. cbn [cf_candidates cf_merge cf_split]. split_and!.
  - intros ->. apply Forall2_length in Ec. rewrite Ep in Ec. done.
  - clear Eo Ep. induction Ec as [|c cc cs ccs (Hp & H1 & H2 & H3) Hc IH]; [constructor|].
    apply Forall_cons in Ef as [Hs Ef]. constructor; [|by apply IH].
    rewrite H1, H2. destruct (claim_path_parse_sound _ _ Hp) as (_ & Hn & Hne). by split_and!.
  - unfold check_options in Eo. destruct (holds_one_value name).
    + case_bool_decide; [done|]. destruct (fm_merge fm); [|done]. destruct (fm_split fm); [done|].
      destruct (shape_flag (fm_paths fm)) as [[]|] eqn:Es; [done|]. apply shape_flag_none in Es. split_and!; [done..|].
      clear -Es Ec. induction Ec as [|c cc cs ccs (Hp & H1 & H2 & H3) Hc IH]; [constructor|].
      apply Forall_cons in Es as [Hs Es]. constructor; [by rewrite H1, H2|by apply IH].
    + destruct (List.find ca_stop_if_present (fm_paths fm)) eqn:Es; [done|].
      pose proof (find_none _ _ Es) as Hn. clear -Hn Ec.
      induction Ec as [|c cc cs ccs (Hp & H1 & H2 & H3) Hc IH]; [constructor|].
      constructor; [rewrite H3; apply Hn; by left|]. apply IH. intros x Hx. apply Hn. by right.
Qed.

Lemma compile_fields_sound role allowed l acc m :
  compile_fields role allowed l acc = Ok m ->
  (forall k f, m !! k = Some f ->
     acc !! k = Some f \/ exists v, (k, v) ∈ l /\ compile_field role allowed k v = Ok f)
  /\ (forall k, is_Some (acc !! k) \/ k ∈ l.*1 -> is_Some (m !! k)).
Proof.
  revert acc. induction l as [|[name v] l IH]; intros acc; cbn [compile_fields].
  { intros [= <-]. split; [by left|]. intros k [|Hk]; [done|by apply elem_of_nil in Hk]. }
  destruct (compile_field role allowed name v) as [f|] eqn:Ef; [|done]. intros Hm. apply IH in Hm as [Hs Hc]. split.
  - intros k g Hg. unfold CompiledRoleMap in *.
    destruct (Hs k g Hg) as [Ha|(w & Hw & Eg)]; [|right; exists w; by split; [right|]].
    destruct (decide (name = k)) as [->|Hne]; [|left; by rewrite lookup_insert_ne in Ha].
    rewrite lookup_insert_eq in Ha. simplify_eq. right. exists v. by split; [left|].
  - intros k Hk. apply Hc. unfold CompiledRoleMap in *. cbn [fmap list_fmap] in Hk. rewrite elem_of_cons in Hk. cbn [fst] in Hk.
    destruct (decide (name = k)) as [->|Hne]; [left; by rewrite lookup_insert_eq; eexists|].
    rewrite lookup_insert_ne by done. naive_solver.
Qed.

(** A section that compiles holds a field for every name written, each name one the role
    allows, and every field meaningful. *)
Definition section_ok (allowed : list string) (section : option RoleMapConfig) (compiled : option CompiledRoleMap) :
    Prop :=
  match section, compiled with
  | None, None => True
  | Some authored, Some sec =>
      (forall k, is_Some (sec !! k) <-> is_Some (authored !! k))
      /\ (forall k f, sec !! k = Some f -> k ∈ allowed /\ field_ok k f)
  | _, _ => False
  end.

Lemma compile_role_sound role allowed section compiled :
  compile_role role allowed section = Ok compiled -> section_ok allowed section compiled.
Proof.
  unfold compile_role. destruct section as [authored|]; [|by intros [= <-]].
  destruct (compile_fields _ _ _ _) as [sec|] eqn:E; [|done]. intros [= <-].
  apply compile_fields_sound in E as [Hs Hc]. unfold CompiledRoleMap in *. split.
  - intros k. split.
    + intros [f Hf]. destruct (Hs k f Hf) as [Ha|(v & Hv & _)]; [by rewrite lookup_empty in Ha|].
      exists v. by apply sorted_entries_elem.
    + intros [v Hv]. apply Hc. right. apply list_elem_of_fmap. exists (k, v). by rewrite sorted_entries_elem.
  - intros k f Hf. destruct (Hs k f Hf) as [Ha|(v & Hv & Ef)]; [by rewrite lookup_empty in Ha|].
    by eapply compile_field_sound.
Qed.

Theorem claim_map_compile_sound cfg m :
  claim_map_compile cfg = Ok m ->
  section_ok SUBJECT_FIELDS (cm_subject cfg) (cp_subject m)
  /\ section_ok CLIENT_FIELDS (cm_client cfg) (cp_client m)
  /\ section_ok WORKLOAD_FIELDS (cm_workload cfg) (cp_workload m).
Proof.
  unfold claim_map_compile. intros H. peel_ok H. injection H as <-.
  split_and!; by eapply compile_role_sound.
Qed.

(** Every shipped preset compiles. *)
Lemma presets_compile : forallb (fun name => result_is_ok (preset_lookup name)) preset_names = true.
Proof. by vm_compute. Qed.

(** ** Examples *)

Section Examples.
#[local] Instance quiet : Tracing := false.

Definition svid_claims : ClaimMap :=
  list_to_map [("sub", JString "spiffe://corp.example/ns/default/sa/agent"); ("iss", JString "https://idp");
               ("dept", JString "ops")].

Definition svid_identity : WorkloadIdentity :=
  mkWorkload (Some "spiffe://corp.example/ns/default/sa/agent") (Some "corp.example") None (Some "jwt") [] None None.


Definition shown_overrides : ClaimsOverrides := mkOverrides ["dept"] ["iss"].

Definition shown_configured : ConfiguredClaimMap :=
  Eval vm_compute in
  match overrides_compile shown_overrides with
  | Ok c => mkConfigured (with_claims standard_map c) JWT_MAPPING_PROFILE
  | Err _ => standard_configured
  end.

End Examples.
