(* ===== verification/Dpop.v ===== *)
(** * Proof of possession ([builtins/src/plugins/identity_jwt/dpop.rs], [DpopConfig] of [config.rs])

    The checks of a DPoP proof, the guard that remembers accepted proofs and its memory
    implementation, and the record that lets one request resolve identity twice. JWT
    cryptography, base64 and the digest are parameters. *)

From Stdlib Require Import Ascii String.
From S2P Require Import Prelude RustStr F64 Json Platform Attributes Rules Constraint Step Lexical PipelineEval.
From S2P Require Import LexerProps ExtData Plugin Scan HttpPath DecisionCache ClaimMap.

(** ** The JOSE library *)

Inductive Algorithm : Type :=
| HS256 | HS384 | HS512 | ES256 | ES384 | RS256 | RS384 | RS512 | PS256 | PS384 | PS512 | EdDSA.

#[global] Instance Algorithm_eq_dec : EqDecision Algorithm.
Proof. solve_decision. Defined.

(** [{:?}] of an algorithm. *)
Definition algorithm_debug (a : Algorithm) : string :=
  match a with
  | HS256 => "HS256" | HS384 => "HS384" | HS512 => "HS512" | ES256 => "ES256" | ES384 => "ES384"
  | RS256 => "RS256" | RS384 => "RS384" | RS512 => "RS512" | PS256 => "PS256" | PS384 => "PS384"
  | PS512 => "PS512" | EdDSA => "EdDSA"
  end.

(** [jsonwebtoken::errors::ErrorKind], the kinds the source tells apart. *)
Inductive ErrorKind : Type :=
| ExpiredSignature
| InvalidSignature
| ImmatureSignature
| InvalidAudience
| MissingRequiredClaim (claim : string)
| InvalidIssuer
| InvalidAlgorithm
| InvalidAlgorithmName
| KindBase64
| KindJson
| KindProvider (detail : string)
| KindOther.

Record JwtError : Type := mkJwtError {
  je_kind : ErrorKind;
  je_display : string;
}.

(** [jsonwebtoken::Validation]: the settings the source gives it. *)
Record Validation : Type := mkValidation {
  va_algorithms : list Algorithm;
  va_iss : option (list string);
  va_aud : option (list string);
  va_required : list string;
  va_leeway : Z;
  va_validate_exp : bool;
  va_validate_nbf : bool;
  va_validate_aud : bool;
}.

(** [Validation::new]. *)
Definition validation_new (alg : Algorithm) : Validation :=
  mkValidation [alg] None None ["exp"] 60 true false true.

(** [ProofClaims]. *)
Record ProofClaims : Type := mkProofClaims {
  pf_htm : string;
  pf_htu : string;
  pf_iat : Z;
  pf_jti : string;
  pf_ath : option string;
}.

(** The crates the plugin calls: [jsonwebtoken], [base64], [serde_json] on bytes. *)
Class Jose := {
  DecodingKey : Type;
  Jwk : Type;
  (** [URL_SAFE_NO_PAD.decode] and [encode]. *)
  b64url_decode : string -> option string;
  b64url : string -> string;
  (** [serde_json::from_slice::<Value>]. *)
  json_from_slice : string -> option json;
  (** The algorithm, [kid], [crit] and [jwk] of [decode_header]. *)
  decode_header : string -> result (Algorithm * option string * option (list string) * option Jwk) JwtError;
  (** [DecodingKey::from_jwk]. *)
  key_from_jwk : Jwk -> result DecodingKey JwtError;
  (** [decode::<ProofClaims>] and [decode::<ClaimMap>]. *)
  decode_proof : string -> DecodingKey -> Validation -> result ProofClaims JwtError;
  decode_claims : string -> DecodingKey -> Validation -> result ClaimMap JwtError;
}.

(** ** Settings ([config.rs]) *)

Inductive DpopMode : Type := DpopOff | DpopOptional | DpopRequired.

#[global] Instance DpopMode_eq_dec : EqDecision DpopMode.
Proof. solve_decision. Defined.

Record DpopConfig : Type := mkDpopConfig {
  dc_mode : DpopMode;
  dc_algorithms : list Algorithm;
  dc_iat_window_seconds : Z;
  dc_external_base_url : option string;
}.

Definition DpopConfig_default : DpopConfig := mkDpopConfig DpopOff [ES256] 60 None.

Definition MAX_DPOP_IAT_WINDOW_SECONDS : Z := 300.

(** [is_asymmetric]. *)
Definition is_asymmetric (alg : Algorithm) : bool :=
  match alg with HS256 | HS384 | HS512 => false | _ => true end.

(** ** URLs *)

(** [str::split_once(&str)]. *)
Fixpoint split_once_str (p s : string) : option (string * string) :=
  match strip_prefix p s with
  | Some rest => Some ("", rest)
  | None =>
      match s with
      | EmptyString => None
      | String a s' =>
          match split_once_str p s' with Some (before, after) => Some (String a before, after) | None => None end
      end
  end.

(** [s.split(['?', '#']).next()]. *)
Fixpoint before_query (s : string) : string :=
  match s with
  | EmptyString => ""
  | String a s' => if Ascii.eqb a "?" || Ascii.eqb a "#" then "" else String a (before_query s')
  end.

(** [str::strip_suffix]. *)
Definition strip_suffix (p s : string) : option string :=
  if ends_with_str p s then Some (String.substring 0 (String.length s - String.length p) s) else None.

Definition default_port (scheme : string) : option string :=
  if String.eqb scheme "https" then Some ":443"
  else if String.eqb scheme "http" then Some ":80" else None.

Definition normalize_htu (url : string) : option string :=
  match split_once_str "://" url with
  | None => None
  | Some (scheme, rest) =>
      let scheme := to_ascii_lowercase scheme in
      match default_port scheme with
      | None => None
      | Some port =>
          let rest := before_query rest in
          let '(authority, path) :=
            match split_once "/" rest with
            | Some (authority, path) => (authority, "/" +:+ path)
            | None => (rest, "/")
            end in
          if String.eqb authority "" || contains_char "@" authority then None
          else
            let authority := to_ascii_lowercase authority in
            let authority := default authority (strip_suffix port authority) in
            Some (scheme +:+ "://" +:+ authority +:+ path)
      end
  end.

Inductive DpopConfigError : Type :=
| NoDpopAlgorithms
| SharedSecretAlgorithm (alg : Algorithm)
| WindowOutOfRange
| BadExternalBase (base : string).

(** [DpopConfig::validate]. *)
Definition dpop_validate (self : DpopConfig) : result unit DpopConfigError :=
  if bool_decide (dc_mode self = DpopOff) then Ok tt
  else if dc_algorithms self is [] then Err NoDpopAlgorithms
  else match List.find (fun a => negb (is_asymmetric a)) (dc_algorithms self) with
       | Some alg => Err (SharedSecretAlgorithm alg)
       | None =>
           if ((dc_iat_window_seconds self =? 0) || (MAX_DPOP_IAT_WINDOW_SECONDS <? dc_iat_window_seconds self))%Z
           then Err WindowOutOfRange
           else match dc_external_base_url self with
                | Some base =>
                    if negb (contains_char "?" base) && negb (contains_char "#" base)
                       && (if normalize_htu base is Some _ then true else false)
                    then Ok tt else Err (BadExternalBase base)
                | None => Ok tt
                end
       end.

(** ** Requests and denials *)

Definition DPOP_MISSING : string := "auth.dpop_missing".
Definition DPOP_INVALID : string := "auth.dpop_invalid".
Definition DPOP_KEY_MISMATCH : string := "auth.dpop_key_mismatch".
Definition DPOP_REPLAY : string := "auth.dpop_replay".
Definition DPOP_REPLAY_UNAVAILABLE : string := "auth.dpop_replay_unavailable".
Definition CRYPTO_FAILED_REASON : string := "the DPoP proof could not be checked".
Definition METHOD : string := "dpop".

Record PopDenial : Type := mkDenial {
  pd_code : string;
  pd_reason : string;
}.

Record PopRequest : Type := mkPopRequest {
  pq_issuer : string;
  pq_access_token : string;
  pq_bound_thumbprint : string;
  pq_proof : option string;
  pq_method : string;
  pq_url : string;
  pq_now : Z;
}.

(** ** The replay guard *)

Class ReplayGuard (G : Type) := {
  (** [first_use(scope, id, expires_at, now)]: whether this is the first use, or why the store
      cannot say; and the store it leaves. *)
  first_use : G -> string -> string -> Z -> Z -> result bool string * G;
  (** [size_of_val(guard) == 0], and the guard's address. *)
  guard_zero_sized : G -> bool;
  guard_addr : G -> Z;
}.

Record ReplayEntry : Type := mkReplayEntry {
  re_expiry : Z;
  re_scope : string;
  re_id : string;
}.

#[global] Instance ReplayEntry_eq_dec : EqDecision ReplayEntry.
Proof. solve_decision. Defined.

(** [ReplayState]: what was seen, the same entries in the order of a [BTreeSet] of tuples, and
    how many each scope has. *)
Record ReplayState : Type := mkReplayState {
  rs_seen : gmap (string * string) Z;
  rs_by_expiry : list ReplayEntry;
  rs_per_scope : gmap string Z;
}.

Definition ReplayState_default : ReplayState := mkReplayState ∅ [] ∅.

(** The order of the tuples. *)
Definition entry_compare (a b : ReplayEntry) : comparison :=
  match Z.compare (re_expiry a) (re_expiry b) with
  | Eq =>
      match String.compare (re_scope a) (re_scope b) with
      | Eq => String.compare (re_id a) (re_id b)
      | c => c
      end
  | c => c
  end.

Fixpoint entry_insert (e : ReplayEntry) (l : list ReplayEntry) : list ReplayEntry :=
  match l with
  | [] => [e]
  | x :: l' =>
      match entry_compare e x with
      | Lt => e :: l
      | Eq => l
      | Gt => x :: entry_insert e l'
      end
  end.

(** The count of a scope, one less; gone at zero. *)
Definition count_down (scope : string) (m : gmap string Z) : gmap string Z :=
  match m !! scope with
  | None => m
  | Some count => let count := Z.max (count - 1) 0 in if (count =? 0)%Z then delete scope m else <[scope := count]> m
  end.

(** [ReplayState::prune]: the loop pops the oldest entry while it has expired. *)
Fixpoint prune_loop (now : Z) (l : list ReplayEntry) (seen : gmap (string * string) Z) (per : gmap string Z) :
    ReplayState :=
  match l with
  | [] => mkReplayState seen [] per
  | e :: l' =>
      if (re_expiry e <=? now)%Z
      then prune_loop now l' (delete (re_scope e, re_id e) seen) (count_down (re_scope e) per)
      else mkReplayState seen l per
  end.

Definition prune (now : Z) (s : ReplayState) : ReplayState :=
  prune_loop now (rs_by_expiry s) (rs_seen s) (rs_per_scope s).

Record InMemoryReplayGuard : Type := mkMemoryGuard {
  mg_state : ReplayState;
  mg_capacity : Z;
  mg_capacity_per_key : Z;
  mg_addr : Z;
}.

Definition DEFAULT_REPLAY_CAPACITY : Z := 100000.
Definition DEFAULT_REPLAY_CAPACITY_PER_KEY : Z := 10000.

Definition memory_guard_default (addr : Z) : InMemoryReplayGuard :=
  mkMemoryGuard ReplayState_default DEFAULT_REPLAY_CAPACITY DEFAULT_REPLAY_CAPACITY_PER_KEY addr.

Definition set_state (g : InMemoryReplayGuard) (s : ReplayState) : InMemoryReplayGuard :=
  mkMemoryGuard s (mg_capacity g) (mg_capacity_per_key g) (mg_addr g).

Definition memory_first_use (g : InMemoryReplayGuard) (scope id : string) (expires_at now : Z) :
    result bool string * InMemoryReplayGuard :=
  let s := prune now (mg_state g) in
  match rs_seen s !! (scope, id) with
  | Some _ => (Ok false, set_state g s)
  | None =>
      if (mg_capacity_per_key g <=? default 0%Z (rs_per_scope s !! scope))%Z
      then (Err ("this key already has " +:+ show_Z (mg_capacity_per_key g) +:+ " live proofs in the replay window"),
            set_state g s)
      else if (mg_capacity g <=? Z.of_nat (size (rs_seen s)))%Z
      then (Err ("in-memory replay store is full (" +:+ show_Z (mg_capacity g) +:+ " live proofs)"), set_state g s)
      else
        (Ok true,
         set_state g
           (mkReplayState (<[(scope, id) := expires_at]> (rs_seen s))
              (entry_insert (mkReplayEntry expires_at scope id) (rs_by_expiry s))
              (<[scope := (default 0%Z (rs_per_scope s !! scope) + 1)%Z]> (rs_per_scope s))))
  end.

#[global] Instance memory_guard : ReplayGuard InMemoryReplayGuard := {|
  first_use := memory_first_use;
  guard_zero_sized _ := false;
  guard_addr := mg_addr;
|}.

(** ** Thumbprints *)

Section Verifier.
Context `{Platform, Digest, Jose}.

Definition json_member (jwk : json) (name : string) : option (string * json) :=
  match value_get name jwk ≫= as_str with Some s => Some (name, JString s) | None => None end.

Fixpoint members (jwk : json) (names : list string) : option (list (string * json)) :=
  match names with
  | [] => Some []
  | n :: names' =>
      match json_member jwk n, members jwk names' with Some m, Some ms => Some (m :: ms) | _, _ => None end
  end.

Definition required_members (kty : string) : option (list string) :=
  if String.eqb kty "EC" then Some ["crv"; "kty"; "x"; "y"]
  else if String.eqb kty "RSA" then Some ["e"; "kty"; "n"]
  else if String.eqb kty "OKP" then Some ["crv"; "kty"; "x"]
  else None.

(** [canonical_jwk]: the required members, in order, serialized. *)
Definition canonical_jwk (jwk : json) : option string :=
  match value_get "kty" jwk ≫= as_str with
  | None => None
  | Some kty =>
      match required_members kty with
      | None => None
      | Some names => option_map (fun ms => json_to_string (JObject ms)) (members jwk names)
      end
  end.

Inductive ThumbprintError : Type := ThumbUnsupported | ThumbCrypto (error : string).

Definition jwk_thumbprint (jwk : json) : result string ThumbprintError :=
  match canonical_jwk jwk with
  | None => Err ThumbUnsupported
  | Some canonical =>
      match sha256 canonical with Ok digest => Ok (b64url digest) | Err e => Err (ThumbCrypto e) end
  end.

Definition access_token_hash (token : string) : result string string :=
  match sha256 token with Ok digest => Ok (b64url digest) | Err e => Err e end.

(** ** The checks *)

Definition PRIVATE_JWK_MEMBERS : list string := ["d"; "p"; "q"; "dp"; "dq"; "qi"; "oth"; "k"].
Definition MAX_JTI_LEN : nat := 256.
Definition MAX_ECHO_CHARS : nat := 120.

(** [clip]: at most 120 characters, with an ellipsis where some were dropped. *)
Definition ellipsis : string := bytes [226; 128; 166]%N.

Definition clip (value : string) : string :=
  let clipped := of_chars (take MAX_ECHO_CHARS (chars value)) in
  if (String.length clipped <? String.length value)%nat then clipped +:+ ellipsis else clipped.

Definition invalid (reason : string) : PopDenial := mkDenial DPOP_INVALID reason.
Definition crypto_denial : PopDenial := mkDenial CRYPTO_FAILED_CODE CRYPTO_FAILED_REASON.

Record Checked : Type := mkChecked {
  ck_thumbprint : string;
  ck_jti : string;
  ck_htu : string;
  ck_ath : string;
}.

Definition is_object (v : json) : bool := match v with JObject _ => true | _ => false end.

(** The header of the proof: its type, no critical extension, a public key of a supported
    kind; the key's thumbprint. *)
Definition proof_key (proof : string) : result string PopDenial :=
  if contains_char "," proof then Err (invalid "the request carries more than one DPoP header")
  else
    match b64url_decode (before_char "." proof) ≫= json_from_slice with
    | None => Err (invalid "the DPoP proof is not a well-formed JWT")
    | Some header =>
        let typ := value_get "typ" header ≫= as_str in
        if negb (is_some_and (fun t => eq_ignore_ascii_case t "dpop+jwt") typ) then
          Err (invalid ("the DPoP proof's typ must be dpop+jwt, got "
                        +:+ debug_option (option_map (fun t => str_debug (clip t)) typ)))
        else if (if value_get "crit" header is Some _ then true else false) then
          Err (invalid ("the DPoP proof's header names critical extensions (crit), which this "
                        +:+ "verifier does not implement"))
        else
          match value_get "jwk" header with
          | Some jwk =>
              if negb (is_object jwk) then Err (invalid "the DPoP proof's header carries no public key (jwk)")
              else
                match List.find (fun m => if value_get m jwk is Some _ then true else false) PRIVATE_JWK_MEMBERS with
                | Some member => Err (invalid ("the DPoP proof's jwk carries the private member '" +:+ member +:+ "'"))
                | None =>
                    match jwk_thumbprint jwk with
                    | Ok t => Ok t
                    | Err (ThumbCrypto _) => Err crypto_denial
                    | Err ThumbUnsupported => Err (invalid "the DPoP proof's jwk is not a supported public key")
                    end
                end
          | None => Err (invalid "the DPoP proof's header carries no public key (jwk)")
          end
    end.

(** The settings a proof is decoded with: its own algorithm and no registered claim. *)
Definition proof_validation (alg : Algorithm) : Validation :=
  mkValidation [alg] None None [] 60 false false false.

(** The signature of the proof, with an algorithm the issuer accepts and the key it carries. *)
Definition proof_claims (config : DpopConfig) (proof : string) : result ProofClaims PopDenial :=
  match decode_header proof with
  | Err e => Err (invalid ("the DPoP proof's header is malformed: " +:+ je_display e))
  | Ok (alg, _, _, jwk) =>
      if negb (bool_decide (alg ∈ dc_algorithms config)) then
        Err (invalid ("the DPoP proof is signed with " +:+ algorithm_debug alg
                      +:+ ", which this issuer does not accept"))
      else match jwk with
           | None => Err (invalid "the DPoP proof's jwk could not be parsed")
           | Some jwk =>
               match key_from_jwk jwk with
               | Err e => Err (invalid ("the DPoP proof's jwk is unusable: " +:+ je_display e))
               | Ok key =>
                   match decode_proof proof key (proof_validation alg) with
                   | Ok claims => Ok claims
                   | Err e =>
                       match je_kind e with
                       | KindProvider _ => Err crypto_denial
                       | _ => Err (invalid ("the DPoP proof did not verify: " +:+ je_display e))
                       end
                   end
               end
           end
  end.

(** [DpopVerifier::check]. *)
Definition check (config : DpopConfig) (request : PopRequest) : result Checked PopDenial :=
  match pq_proof request with
  | None => Err (mkDenial DPOP_MISSING "the token is bound to a key but the request carries no DPoP proof")
  | Some proof =>
      let? thumbprint := proof_key proof in
      if negb (String.eqb thumbprint (pq_bound_thumbprint request)) then
        Err (mkDenial DPOP_KEY_MISMATCH
               "the DPoP proof is signed by a key other than the one the token is bound to")
      else
        let? claims := proof_claims config proof in
        if negb (String.eqb (pf_htm claims) (pq_method request)) then
          Err (invalid ("the DPoP proof is for method " +:+ clip (pf_htm claims) +:+ ", the request is "
                        +:+ pq_method request))
        else
          match normalize_htu (pq_url request) with
          | None => Err (invalid ("the request URL '" +:+ pq_url request +:+ "' is not usable"))
          | Some expected =>
              if negb (bool_decide (normalize_htu (pf_htu claims) = Some expected)) then
                Err (invalid ("the DPoP proof is for " +:+ clip (pf_htu claims) +:+ ", the request is for " +:+ expected))
              else
                let skew := Z.abs (pf_iat claims - pq_now request)%Z in
                if ((pf_iat claims <=? 0) || (dc_iat_window_seconds config <? skew))%Z then
                  Err (invalid ("the DPoP proof's iat is " +:+ show_Z skew +:+ "s from now, outside the "
                                +:+ show_Z (dc_iat_window_seconds config) +:+ "s window"))
                else
                  match access_token_hash (pq_access_token request) with
                  | Err _ => Err crypto_denial
                  | Ok ath =>
                      if negb (bool_decide (pf_ath claims = Some ath)) then
                        Err (invalid "the DPoP proof's ath does not match the access token presented with it")
                      else if (String.length (pf_jti claims) =? 0)%nat
                              || (MAX_JTI_LEN <? String.length (pf_jti claims))%nat then
                        Err (invalid ("the DPoP proof's jti must be 1 to " +:+ show_nat MAX_JTI_LEN +:+ " characters"))
                      else Ok (mkChecked thumbprint (pf_jti claims) expected ath)
                  end
          end
  end.

(** ** Consuming a proof *)

Definition clamp_i64 (z : Z) : Z := Z.max i64_min (Z.min z i64_max).

(** [retained_until]: the [i64] operations saturate. *)
Definition retained_until (config : DpopConfig) (now : Z) : Z :=
  let window := Z.min (dc_iat_window_seconds config) i64_max in
  clamp_i64 (now + clamp_i64 (clamp_i64 (window * 2) + 1)).

Definition unit_separator : string := bytes [31]%N.

Definition consume {G} `{ReplayGuard G} (config : DpopConfig) (replay : G) (request : PopRequest)
    (thumbprint jti : string) : result unit PopDenial * G :=
  let scope := pq_issuer request +:+ unit_separator +:+ thumbprint in
  match first_use replay scope jti (retained_until config (pq_now request)) (pq_now request) with
  | (Ok true, replay) => (Ok tt, replay)
  | (Ok false, replay) => (Err (mkDenial DPOP_REPLAY "the DPoP proof's jti was already used"), replay)
  | (Err reason, replay) => (Err (mkDenial DPOP_REPLAY_UNAVAILABLE reason), replay)
  end.

(** [ProofOfPossession::verify]. *)
Definition verify {G} `{ReplayGuard G} (config : DpopConfig) (replay : G) (request : PopRequest) :
    result KeyBinding PopDenial * G :=
  match check config request with
  | Err d => (Err d, replay)
  | Ok checked =>
      match consume config replay request (ck_thumbprint checked) (ck_jti checked) with
      | (Err d, replay) => (Err d, replay)
      | (Ok _, replay) => (Ok (mkKeyBinding METHOD (ck_thumbprint checked)), replay)
      end
  end.

(** ** The record of an accepted proof *)

Record ProofRecord : Type := mkProofRecord {
  po_issuer : string;
  po_thumbprint : string;
  po_jti : string;
  po_htm : string;
  po_htu : string;
  po_ath : string;
  po_replay_guard : Z;
  po_expires_at : Z;
  po_binding : KeyBinding;
}.

Definition RECORD_KEY_PREFIX : string := "identity/jwt:dpop_proof" +:+ unit_separator.

(** [ProofRecord::key]. *)
Definition record_key (r : ProofRecord) : string :=
  RECORD_KEY_PREFIX +:+ show_Z (po_replay_guard r) +:+ unit_separator +:+ po_issuer r +:+ unit_separator
  +:+ po_thumbprint r +:+ unit_separator +:+ po_jti r.

#[global] Instance KeyBinding_eq_dec : EqDecision KeyBinding.
Proof. solve_decision. Defined.

(** [ProofRecord::reusable]. *)
Definition reusable (self stored : ProofRecord) (now : Z) : bool :=
  (now <? po_expires_at stored)%Z && String.eqb (po_ath stored) (po_ath self)
  && bool_decide (po_binding stored = po_binding self) && String.eqb (po_htm stored) (po_htm self)
  && String.eqb (po_htu stored) (po_htu self) && String.eqb (po_issuer stored) (po_issuer self)
  && String.eqb (po_jti stored) (po_jti self) && (po_replay_guard stored =? po_replay_guard self)%Z
  && String.eqb (po_thumbprint stored) (po_thumbprint self).

(** Serialization of the record and of its binding, by [serde]'s derived code. *)
Definition binding_to_value (b : KeyBinding) : json :=
  JObject [("method", JString (kb_method b)); ("thumbprint", JString (kb_thumbprint b))].

Definition record_to_value (r : ProofRecord) : json :=
  JObject [("ath", JString (po_ath r)); ("binding", binding_to_value (po_binding r));
           ("expires_at", JNumber (NInt (po_expires_at r))); ("htm", JString (po_htm r)); ("htu", JString (po_htu r));
           ("issuer", JString (po_issuer r)); ("jti", JString (po_jti r));
           ("replay_guard", JNumber (NInt (po_replay_guard r))); ("thumbprint", JString (po_thumbprint r))].

(** The fields of a derived [Deserialize], in declaration order: an object, or an array of
    exactly that many elements. [strict] is [deny_unknown_fields]. *)
Fixpoint get_all (m : list (string * json)) (names : list string) : option (list json) :=
  match names with
  | [] => Some []
  | n :: names' =>
      match map_get n m, get_all m names' with Some v, Some vs => Some (v :: vs) | _, _ => None end
  end.

Definition struct_fields (strict : bool) (names : list string) (v : json) : option (list json) :=
  match v with
  | JObject m =>
      if strict && negb (forallb (fun kv => existsb (String.eqb kv.1) names) m) then None else get_all m names
  | JArray vs => if (length vs =? length names)%nat then Some vs else None
  | _ => None
  end.

Definition read_usize (v : json) : option Z :=
  match v with JNumber (NInt z) => then_some ((0 <=? z) && (z <=? usize_max))%Z z | _ => None end.

Definition binding_of_value (v : json) : option KeyBinding :=
  match struct_fields false ["method"; "thumbprint"] v with
  | Some [JString m; JString t] => Some (mkKeyBinding m t)
  | _ => None
  end.

Definition record_of_value (v : json) : option ProofRecord :=
  match struct_fields true
          ["issuer"; "thumbprint"; "jti"; "htm"; "htu"; "ath"; "replay_guard"; "expires_at"; "binding"] v with
  | Some [JString issuer; JString thumbprint; JString jti; JString htm; JString htu; JString ath; guard; expires; b] =>
      match read_usize guard, as_i64 expires, binding_of_value b with
      | Some guard, Some expires, Some b =>
          Some (mkProofRecord issuer thumbprint jti htm htu ath guard expires b)
      | _, _, _ => None
      end
  | _ => None
  end.

(** [DpopVerifier::record]. *)
Definition proof_record {G} `{ReplayGuard G} (config : DpopConfig) (replay : G) (request : PopRequest)
    (checked : Checked) : ProofRecord :=
  mkProofRecord (pq_issuer request) (ck_thumbprint checked) (ck_jti checked) (pq_method request) (ck_htu checked)
    (ck_ath checked) (guard_addr replay) (retained_until config (pq_now request))
    (mkKeyBinding METHOD (ck_thumbprint checked)).

Definition set_global (ctx : PluginContext) (key : string) (value : json) : PluginContext :=
  mkContext (cx_local_state ctx) (<[key := value]> (cx_global_state ctx)).

(** [DpopVerifier::verify_in]. *)
Definition verify_in {G} `{ReplayGuard G} (config : DpopConfig) (replay : G) (request : PopRequest)
    (ctx : PluginContext) : result KeyBinding PopDenial * G * PluginContext :=
  if guard_zero_sized replay then (verify config replay request, ctx)
  else
    match check config request with
    | Err d => (Err d, replay, ctx)
    | Ok checked =>
        let record := proof_record config replay request checked in
        let key := record_key record in
        let stored := cx_global_state ctx !! key ≫= record_of_value in
        if is_some_and (fun stored => reusable record stored (pq_now request)) stored
        then (Ok (po_binding record), replay, ctx)
        else
          match consume config replay request (po_thumbprint record) (po_jti record) with
          | (Err d, replay) => (Err d, replay, ctx)
          | (Ok _, replay) => (Ok (po_binding record), replay, set_global ctx key (record_to_value record))
          end
    end.
End Verifier.

(** ** The memory guard refines a map of live proofs *)

Definition entry_key (e : ReplayEntry) : string * string := (re_scope e, re_id e).
Definition entry_pair (e : ReplayEntry) : (string * string) * Z := (entry_key e, re_expiry e).

Definition scope_total (l : list ReplayEntry) (scope : string) : Z := Z.of_nat (length (filter (fun e => re_scope e = scope) l)).

(** The three indexes agree: the queue is ordered by expiry and lists each key once, [seen] is
    its map, and every scope is counted exactly, with no entry at zero. *)
Record replay_wf (s : ReplayState) : Prop := {
  rw_sorted : StronglySorted (fun a b => (re_expiry a <= re_expiry b)%Z) (rs_by_expiry s);
  rw_keys : NoDup (map entry_key (rs_by_expiry s));
  rw_seen : forall k e, rs_seen s !! k = Some e <-> (k, e) ∈ map entry_pair (rs_by_expiry s);
  rw_count : forall scope, default 0%Z (rs_per_scope s !! scope) = scope_total (rs_by_expiry s) scope;
  rw_positive : forall scope n, rs_per_scope s !! scope = Some n -> (0 < n)%Z;
}.

Lemma replay_default_wf : replay_wf ReplayState_default.
Proof.
  split; cbn; [constructor|constructor| |done|done].
  intros k e. rewrite lookup_empty. split; [done|]. by intros ?%elem_of_nil.
Qed.

Lemma entry_pair_elem l k e : (k, e) ∈ map entry_pair l <-> exists x, x ∈ l /\ entry_key x = k /\ re_expiry x = e.
Proof.
  rewrite list_elem_of_In, in_map_iff. setoid_rewrite list_elem_of_In. unfold entry_pair.
  split; [intros (x & [= <- <-] & Hx); by exists x|intros (x & Hx & <- & <-); by exists x].
Qed.

Lemma entry_compare_eq a b : entry_compare a b = Eq -> a = b.
Proof.
  unfold entry_compare. destruct a as [e s i], b as [e' s' i']. cbn.
  destruct (Z.compare_spec e e'); [|done|done]. destruct (String.compare s s') eqn:Es; [|done|done].
  intros Ei. apply String.compare_eq_iff in Es as ->, Ei as ->. by subst.
Qed.

Lemma entry_insert_perm e l : e ∉ l -> entry_insert e l ≡ₚ e :: l.
Proof.
  induction l as [|x l IH]; intros Hn; cbn [entry_insert]; [done|].
  destruct (entry_compare e x) eqn:Ec; [apply entry_compare_eq in Ec as ->; set_solver|done|].
  rewrite IH by set_solver. apply perm_swap.
Qed.

Lemma entry_insert_sorted e l :
  e ∉ l -> StronglySorted (fun a b => (re_expiry a <= re_expiry b)%Z) l ->
  StronglySorted (fun a b => (re_expiry a <= re_expiry b)%Z) (entry_insert e l).
Proof.
  induction l as [|x l IH]; intros Hn Hs; cbn [entry_insert]; [by repeat constructor|].
  apply StronglySorted_inv in Hs as [Hs Hx]. destruct (entry_compare e x) eqn:Ec.
  - by constructor.
  - assert (re_expiry e <= re_expiry x)%Z as Hle.
    { unfold entry_compare in Ec. destruct (Z.compare_spec (re_expiry e) (re_expiry x)); try done; lia. }
    constructor; [by constructor|]. constructor; [done|].
    eapply List.Forall_impl; [|exact Hx]. cbn. lia.
  - assert (re_expiry x <= re_expiry e)%Z as Hle.
    { unfold entry_compare in Ec. destruct (Z.compare_spec (re_expiry e) (re_expiry x)); try done; lia. }
    constructor; [apply IH; [set_solver|done]|].
    rewrite List.Forall_forall in Hx. apply List.Forall_forall. intros y Hy.
    rewrite <- list_elem_of_In, entry_insert_perm, elem_of_cons, list_elem_of_In in Hy by set_solver.
    destruct Hy as [->|Hy]; [done|by apply Hx].
Qed.

Lemma scope_total_cons e l scope :
  scope_total (e :: l) scope = ((if bool_decide (re_scope e = scope) then 1 else 0) + scope_total l scope)%Z.
Proof.
  unfold scope_total. rewrite filter_cons, bool_decide_decide.
  destruct (decide (re_scope e = scope)); cbn [length]; lia.
Qed.

Lemma scope_total_perm l k scope : l ≡ₚ k -> scope_total l scope = scope_total k scope.
Proof. unfold scope_total. by intros ->. Qed.

Lemma scope_total_nonneg l scope : (0 <= scope_total l scope)%Z.
Proof. unfold scope_total. lia. Qed.

(** One expired entry popped. *)
Lemma pop_wf e l seen per :
  replay_wf (mkReplayState seen (e :: l) per) ->
  replay_wf (mkReplayState (delete (entry_key e) seen) l (count_down (re_scope e) per)).
Proof.
  intros [Hs Hk Hm Hc Hp]. cbn [rs_seen rs_by_expiry rs_per_scope map] in *.
  apply StronglySorted_inv in Hs as [Hs _]. apply NoDup_cons in Hk as [Hne Hk].
  pose proof (Hc (re_scope e)) as Hce. rewrite scope_total_cons, bool_decide_true in Hce by done.
  split; cbn [rs_seen rs_by_expiry rs_per_scope]; [done|done| | |].
  - intros k x. rewrite lookup_delete_Some, Hm, elem_of_cons. split; [intros [Hn [E|]]; [|done]|].
    + unfold entry_pair in E. by injection E as -> _.
    + intros Hx. split; [|by right]. intros <-. apply Hne. apply entry_pair_elem in Hx as (y & Hy & Ek & _).
      rewrite <- Ek. apply list_elem_of_In, in_map, list_elem_of_In, Hy.
  - intros scope. specialize (Hc scope). rewrite scope_total_cons in Hc. unfold count_down.
    pose proof (scope_total_nonneg l scope) as Hnn. case_bool_decide as Hd; [subst scope|].
    + destruct (per !! re_scope e) as [n|] eqn:Ep; cbn [default] in Hc; [|simpl in Hc; lia]. simpl in Hc.
      destruct (Z.eqb_spec (Z.max (n - 1) 0) 0) as [E0|E0];
        [rewrite lookup_delete_eq; simpl; lia|rewrite lookup_insert_eq; simpl; lia].
    + destruct (per !! re_scope e) as [n|]; [|lia].
      destruct (Z.max (n - 1) 0 =? 0)%Z; [rewrite lookup_delete_ne by done|rewrite lookup_insert_ne by done]; lia.
  - intros scope n. unfold count_down. destruct (per !! re_scope e) as [m|] eqn:Em; [|apply Hp].
    destruct (Z.eqb_spec (Z.max (m - 1) 0) 0) as [E0|E0].
    + intros [_ Hn]%lookup_delete_Some. by eapply Hp.
    + destruct (decide (re_scope e = scope)) as [<-|]; [rewrite lookup_insert_eq; intros [= <-]; lia|].
      rewrite lookup_insert_ne by done. apply Hp.
Qed.

Lemma prune_loop_wf now l seen per :
  replay_wf (mkReplayState seen l per) ->
  replay_wf (prune_loop now l seen per)
  /\ forall k e, rs_seen (prune_loop now l seen per) !! k = Some e <-> seen !! k = Some e /\ (now < e)%Z.
Proof.
  revert seen per. induction l as [|x l IH]; intros seen per Hw; cbn [prune_loop].
  { split; [done|]. intros k e. cbn. rewrite (rw_seen _ Hw k e). cbn. set_solver. }
  destruct (Z.leb_spec (re_expiry x) now) as [Hle|Hlt].
  - pose proof (pop_wf _ _ _ _ Hw) as Hw'. destruct (IH _ _ Hw') as [Hr Hl]. split; [done|]. intros k e.
    rewrite Hl. change (re_scope x, re_id x) with (entry_key x). rewrite lookup_delete_Some.
    split; [naive_solver|]. intros [He Hn]. split; [split; [|done]|done]. intros <-.
    assert (seen !! entry_key x = Some (re_expiry x)) as E by (apply (rw_seen _ Hw); cbn; by left).
    rewrite E in He. injection He as <-. lia.
  - split; [done|]. intros k e. cbn [rs_seen]. split; [|naive_solver]. intros He. split; [done|].
    apply (rw_seen _ Hw) in He. cbn in He. apply (entry_pair_elem (x :: l)) in He as (y & Hy & _ & <-).
    apply elem_of_cons in Hy as [->|Hy]; [done|].
    pose proof (rw_sorted _ Hw) as Hs. apply StronglySorted_inv in Hs as [_ Hs].
    rewrite List.Forall_forall in Hs. specialize (Hs y (proj1 (list_elem_of_In _ _) Hy)). lia.
Qed.

(** The contract: a map of proofs to expiries, of which only the live ones count. *)
Definition live (now : Z) (m : gmap (string * string) Z) : gmap (string * string) Z :=
  filter (fun ke => (now < ke.2)%Z) m.

Definition live_in_scope (scope : string) (m : gmap (string * string) Z) : Z :=
  Z.of_nat (length (filter (fun ke => ke.1.1 = scope) (map_to_list m))).

Definition replay_spec (capacity per_key : Z) (m : gmap (string * string) Z) (scope id : string) (expires now : Z) :
    option bool * gmap (string * string) Z :=
  let m := live now m in
  match m !! (scope, id) with
  | Some _ => (Some false, m)
  | None =>
      if (per_key <=? live_in_scope scope m)%Z || (capacity <=? Z.of_nat (size m))%Z then (None, m)
      else (Some true, <[(scope, id) := expires]> m)
  end.

Definition replay_answer (r : result bool string) : option bool := match r with Ok b => Some b | Err _ => None end.

Lemma wf_to_list s : replay_wf s -> map_to_list (rs_seen s) ≡ₚ map entry_pair (rs_by_expiry s).
Proof.
  intros Hw. apply NoDup_Permutation; [apply NoDup_map_to_list| |].
  - pose proof (rw_keys _ Hw) as Hk. apply (NoDup_fmap_1 fst). rewrite <- list_fmap_compose. exact Hk.
  - intros [k e]. rewrite elem_of_map_to_list. apply (rw_seen _ Hw).
Qed.

Lemma scope_total_live s scope : replay_wf s -> scope_total (rs_by_expiry s) scope = live_in_scope scope (rs_seen s).
Proof.
  intros Hw. unfold live_in_scope, scope_total. rewrite (wf_to_list s Hw). f_equal.
  generalize (rs_by_expiry s) as l. intros l. induction l as [|x l IH]; [done|].
  cbn [map]. rewrite !filter_cons. cbn [entry_pair entry_key fst].
  destruct (decide (re_scope x = scope)); cbn [length]; by rewrite IH.
Qed.

Lemma insert_wf s scope id e :
  replay_wf s -> rs_seen s !! (scope, id) = None ->
  replay_wf (mkReplayState (<[(scope, id) := e]> (rs_seen s))
               (entry_insert (mkReplayEntry e scope id) (rs_by_expiry s))
               (<[scope := (default 0%Z (rs_per_scope s !! scope) + 1)%Z]> (rs_per_scope s))).
Proof.
  intros Hw Hn. set (x := mkReplayEntry e scope id).
  assert (forall y, y ∈ rs_by_expiry s -> entry_key y <> (scope, id)) as Hfresh.
  { intros y Hy E. assert (rs_seen s !! (scope, id) = Some (re_expiry y)) as E2; [|by rewrite Hn in E2].
    apply (rw_seen _ Hw), entry_pair_elem. by exists y. }
  assert (x ∉ rs_by_expiry s) as Hx by (intros Hx; by apply (Hfresh x Hx)).
  pose proof (entry_insert_perm x (rs_by_expiry s) Hx) as Hperm.
  split; cbn [rs_seen rs_by_expiry rs_per_scope].
  - apply entry_insert_sorted; [done|apply (rw_sorted _ Hw)].
  - rewrite Hperm. cbn [map]. constructor; [|apply (rw_keys _ Hw)].
    rewrite list_elem_of_In, in_map_iff. intros (y & Ey & Hy). by apply (Hfresh y); [apply list_elem_of_In|].
  - intros k v. rewrite (Permutation_map entry_pair Hperm). cbn [map]. rewrite elem_of_cons.
    rewrite lookup_insert_Some, (rw_seen _ Hw). change (entry_pair x) with ((scope, id), e).
    split; [naive_solver|]. intros [[= <- <-]|Hk]; [by left|right]. split; [|done]. intros <-.
    apply (rw_seen _ Hw) in Hk. by rewrite Hn in Hk.
  - intros sc. rewrite (scope_total_perm _ _ _ Hperm), scope_total_cons, <- (rw_count _ Hw). cbn [re_scope x].
    case_bool_decide; [subst; rewrite lookup_insert_eq; cbn; lia|by rewrite lookup_insert_ne].
  - intros sc n. pose proof (rw_count _ Hw scope) as Hc. pose proof (scope_total_nonneg (rs_by_expiry s) scope).
    destruct (decide (scope = sc)) as [<-|]; [rewrite lookup_insert_eq; intros [= <-]; lia|].
    rewrite lookup_insert_ne by done. apply (rw_positive _ Hw).
Qed.

Lemma prune_wf now s : replay_wf s -> replay_wf (prune now s) /\ rs_seen (prune now s) = live now (rs_seen s).
Proof.
  intros Hw. destruct s as [seen l per]. unfold prune. cbn [rs_by_expiry rs_seen rs_per_scope].
  destruct (prune_loop_wf now l seen per Hw) as [Hr Hl]. split; [done|].
  apply map_eq. intros k. apply option_eq. intros e. rewrite Hl. unfold live. by rewrite map_lookup_filter_Some.
Qed.

Lemma memory_first_use_refines g scope id expires now :
  replay_wf (mg_state g) ->
  let '(r, g') := memory_first_use g scope id expires now in
  replay_wf (mg_state g')
  /\ (replay_answer r, rs_seen (mg_state g'))
     = replay_spec (mg_capacity g) (mg_capacity_per_key g) (rs_seen (mg_state g)) scope id expires now
  /\ mg_capacity g' = mg_capacity g /\ mg_capacity_per_key g' = mg_capacity_per_key g /\ mg_addr g' = mg_addr g.
Proof.
  intros Hw. unfold memory_first_use, replay_spec. destruct (prune_wf now _ Hw) as [Hp <-].
  set (s := prune now (mg_state g)) in *. cbv zeta. destruct (rs_seen s !! (scope, id)) eqn:Es; [done|].
  rewrite (rw_count _ Hp), (scope_total_live _ _ Hp).
  destruct (mg_capacity_per_key g <=? live_in_scope scope (rs_seen s))%Z; [done|].
  destruct (mg_capacity g <=? Z.of_nat (size (rs_seen s)))%Z; [done|]. cbn [orb].
  split_and!; try done. cbn [mg_state set_state]. rewrite <- (scope_total_live _ _ Hp), <- (rw_count _ Hp).
  by apply insert_wf.
Qed.

(** Claim C21. The in-memory guard is a map of live proofs: whatever was recorded and
    whatever the clock, its ordered queue and its counts per key stay in step with the map,
    and a call answers as the map does: a repeat while the proof lives, unavailable when the
    key or the store is at its bound counting live proofs only, else the first use, recorded. *)
Theorem memory_guard_refines g scope id expires now :
  replay_wf (mg_state g) ->
  let '(r, g') := first_use g scope id expires now in
  replay_wf (mg_state g')
  /\ (replay_answer r, rs_seen (mg_state g'))
     = replay_spec (mg_capacity g) (mg_capacity_per_key g) (rs_seen (mg_state g)) scope id expires now
  /\ mg_capacity g' = mg_capacity g /\ mg_capacity_per_key g' = mg_capacity_per_key g.
Proof.
  intros Hw. cbn [first_use memory_guard]. pose proof (memory_first_use_refines g scope id expires now Hw) as H.
  destruct (memory_first_use g scope id expires now) as [r g']. naive_solver.
Qed.

(** ** What a guard promises a verifier *)

Class ReplayGuardLaws (G : Type) `{ReplayGuard G} := {
  guard_ok : G -> Prop;
  (** The guard holds a proof until [e]. *)
  held : G -> string -> string -> Z -> Prop;
  guard_ok_step : forall g s i e now, guard_ok g -> guard_ok (first_use g s i e now).2;
  first_use_held : forall g s i e now g', guard_ok g -> first_use g s i e now = (Ok true, g') -> held g' s i e;
  held_stable : forall g s i e s' i' e' now,
    guard_ok g -> held g s i e -> (now < e)%Z -> held (first_use g s' i' e' now).2 s i e;
  held_refused : forall g s i e e' now,
    guard_ok g -> held g s i e -> (now < e)%Z -> (first_use g s i e' now).1 <> Ok true;
}.

Lemma live_lookup (now : Z) (m : gmap (string * string) Z) (k : string * string) (e : Z) : live now m !! k = Some e <-> m !! k = Some e /\ (now < e)%Z.
Proof. unfold live. by rewrite map_lookup_filter_Some. Qed.

Definition memory_held (g : InMemoryReplayGuard) (s i : string) (e : Z) : Prop := rs_seen (mg_state g) !! (s, i) = Some e.

Lemma memory_first_use_held g s i e now g' :
  replay_wf (mg_state g) -> memory_first_use g s i e now = (Ok true, g') -> memory_held g' s i e.
Proof.
  intros Hw E. pose proof (memory_first_use_refines g s i e now Hw) as H. rewrite E in H.
  destruct H as (_ & H & _). unfold memory_held, replay_spec in *. destruct (live now _ !! (s, i)); [done|].
  destruct (_ || _); [done|]. injection H as ->. apply lookup_insert_eq.
Qed.

Lemma memory_held_stable g s i e s' i' e' now :
  replay_wf (mg_state g) -> memory_held g s i e -> (now < e)%Z ->
  memory_held (memory_first_use g s' i' e' now).2 s i e.
Proof.
  intros Hw Hh Hn. pose proof (memory_first_use_refines g s' i' e' now Hw) as H.
  destruct (memory_first_use g s' i' e' now) as [r g']. destruct H as (_ & H & _). unfold memory_held in *. cbn [snd].
  assert (live now (rs_seen (mg_state g)) !! (s, i) = Some e) as Hl by by apply live_lookup.
  unfold replay_spec in H. destruct (live now _ !! (s', i')) eqn:El; [by injection H as _ ->|].
  destruct (_ || _); injection H as _ ->; [done|]. rewrite lookup_insert_ne; [done|]. intros [= -> ->].
  by rewrite El in Hl.
Qed.

Lemma memory_held_refused g s i e e' now :
  replay_wf (mg_state g) -> memory_held g s i e -> (now < e)%Z -> (memory_first_use g s i e' now).1 <> Ok true.
Proof.
  intros Hw Hh Hn E. destruct (memory_first_use g s i e' now) as [r g'] eqn:Ef. cbn in E. subst r.
  pose proof (memory_first_use_refines g s i e' now Hw) as H. rewrite Ef in H. destruct H as (_ & H & _).
  unfold replay_spec in H.
  by rewrite (proj2 (live_lookup now (rs_seen (mg_state g)) (s, i) e) (conj Hh Hn)) in H.
Qed.

#[global] Instance memory_guard_laws : ReplayGuardLaws InMemoryReplayGuard.
Proof.
  refine {| guard_ok g := replay_wf (mg_state g); held := memory_held |}; cbn [first_use memory_guard].
  - intros g s i e now Hw. pose proof (memory_first_use_refines g s i e now Hw) as H.
    destruct (memory_first_use g s i e now). apply H.
  - intros. by eapply memory_first_use_held.
  - intros. by apply memory_held_stable.
  - intros. by eapply memory_held_refused.
Defined.

(** ** What an accepted proof establishes *)

Section Props.
Context `{Platform, Digest, Jose}.

(** A proof for a request: its key is the one the token is bound to, its signature verifies with
    that key and an accepted algorithm, and its claims name this method, URL, token and time. *)
Definition proves (config : DpopConfig) (request : PopRequest) (proof : string) (c : Checked) (iat : Z) : Prop :=
  pq_proof request = Some proof /\ proof_key proof = Ok (ck_thumbprint c)
  /\ ck_thumbprint c = pq_bound_thumbprint request
  /\ exists alg kid crit jwk key claims,
       decode_header proof = Ok (alg, kid, crit, Some jwk) /\ alg ∈ dc_algorithms config
       /\ key_from_jwk jwk = Ok key /\ decode_proof proof key (proof_validation alg) = Ok claims
       /\ pf_htm claims = pq_method request
       /\ normalize_htu (pq_url request) = Some (ck_htu c) /\ normalize_htu (pf_htu claims) = Some (ck_htu c)
       /\ pf_iat claims = iat /\ (0 < iat)%Z /\ (Z.abs (iat - pq_now request) <= dc_iat_window_seconds config)%Z
       /\ access_token_hash (pq_access_token request) = Ok (ck_ath c) /\ pf_ath claims = Some (ck_ath c)
       /\ pf_jti claims = ck_jti c /\ 1 <= String.length (ck_jti c) <= MAX_JTI_LEN.

Lemma proof_claims_ok config proof claims :
  proof_claims config proof = Ok claims <->
  exists alg kid crit jwk key, decode_header proof = Ok (alg, kid, crit, Some jwk) /\ alg ∈ dc_algorithms config
    /\ key_from_jwk jwk = Ok key /\ decode_proof proof key (proof_validation alg) = Ok claims.
Proof.
  unfold proof_claims. split.
  - destruct (decode_header proof) as [[[[alg kid] crit] jwk]|]; [|done].
    case_bool_decide as Ha; cbn [negb]; [|done]. destruct jwk as [jwk|]; [|done].
    destruct (key_from_jwk jwk) as [key|] eqn:Ek; [|done].
    destruct (decode_proof proof key (proof_validation alg)) as [c|e] eqn:Ed; [|by destruct (je_kind e)].
    intros [= <-]. by exists alg, kid, crit, jwk, key.
  - intros (alg & kid & crit & jwk & key & -> & Ha & -> & ->). by rewrite bool_decide_true.
Qed.

Lemma check_ok config request c : check config request = Ok c <-> exists proof iat, proves config request proof c iat.
Proof.
  unfold check, proves. split.
  - destruct (pq_proof request) as [proof|]; [|done]. destruct (proof_key proof) as [t|] eqn:Epk; [|done].
    destruct (String.eqb_spec t (pq_bound_thumbprint request)) as [->|]; cbn [negb]; [|done].
    destruct (proof_claims config proof) as [claims|] eqn:Ec; [|done].
    destruct (String.eqb_spec (pf_htm claims) (pq_method request)) as [Hm|]; cbn [negb]; [|done].
    destruct (normalize_htu (pq_url request)) as [expected|]; [|done].
    case_bool_decide as Hu; cbn [negb]; [|done]. destruct (_ || _)%Z eqn:Ei; [done|]. split_bools.
    destruct (access_token_hash (pq_access_token request)) as [ath|] eqn:Eath; [|done].
    case_bool_decide as Hath; cbn [negb]; [|done]. destruct (_ || _)%nat eqn:Ej; [done|]. split_bools.
    intros [= <-]. cbn [ck_thumbprint ck_jti ck_htu ck_ath].
    apply proof_claims_ok in Ec as (alg & kid & crit & jwk & key & Q1 & Q2 & Q3 & Q4).
    exists proof, (pf_iat claims). split; [done|]. split; [done|]. split; [done|].
    repeat match goal with
    | E : (_ <=? _)%Z = false |- _ => apply Z.leb_gt in E
    | E : (_ <? _)%Z = false |- _ => apply Z.ltb_ge in E
    | E : (_ =? _)%nat = false |- _ => apply Nat.eqb_neq in E
    | E : (_ <? _)%nat = false |- _ => apply Nat.ltb_ge in E
    end.
    exists alg, kid, crit, jwk, key, claims. split_and!; try done; lia.
  - intros (proof & iat & -> & -> & Ht & alg & kid & crit & jwk & key & claims & Q1 & Q2 & Q3 & Q4 & Hm & Hu & Hu' & <-
      & Hpos & Hw & Hath & Hath' & Hj & Hl).
    rewrite Ht, String.eqb_refl. cbn [negb].
    rewrite (proj2 (proof_claims_ok config proof claims)) by (by exists alg, kid, crit, jwk, key).
    rewrite Hm, String.eqb_refl, Hu, Hu', bool_decide_true by done. cbn [negb].
    rewrite (proj2 (Z.leb_gt _ _) Hpos), (proj2 (Z.ltb_ge _ _) Hw), Hath, Hath', bool_decide_true by done. cbn [negb orb].
    rewrite Hj, (proj2 (Nat.eqb_neq _ _)) by lia. rewrite (proj2 (Nat.ltb_ge _ _)) by lia. cbn [orb].
    rewrite <- Ht. by destruct c.
Qed.

(** Two acceptances of one proof see the same key, id and time. *)
Lemma proves_same config r1 r2 proof c1 c2 t1 t2 :
  proves config r1 proof c1 t1 -> proves config r2 proof c2 t2 ->
  ck_thumbprint c1 = ck_thumbprint c2 /\ ck_jti c1 = ck_jti c2 /\ t1 = t2.
Proof.
  intros (_ & Hk1 & _ & alg & kid & crit & jwk & key & claims & Q1 & _ & Q2 & Q3 & _ & _ & _ & Ht1 & _ & _ & _ & _ & Hj1 & _)
    (_ & Hk2 & _ & alg' & kid' & crit' & jwk' & key' & claims' & Q1' & _ & Q2' & Q3' & _ & _ & _ & Ht2 & _ & _ & _ & _ & Hj2 & _).
  rewrite Hk1 in Hk2. rewrite Q1 in Q1'. simplify_eq. rewrite Q2 in Q2'. simplify_eq. rewrite Q3 in Q3'. simplify_eq.
  split_and!; congruence.
Qed.

(** The proof outlives its acceptance window only as a memory of the guard. *)
Lemma retained_beyond config now now' iat :
  (0 <= dc_iat_window_seconds config)%Z -> (now' < i64_max)%Z -> (retained_until config now <= now')%Z ->
  (Z.abs (iat - now) <= dc_iat_window_seconds config)%Z -> (Z.abs (iat - now') <= dc_iat_window_seconds config)%Z ->
  (0 <= now)%Z -> False.
Proof.
  unfold retained_until, clamp_i64. assert (i64_min < 0 < i64_max)%Z by (unfold i64_min, i64_max; lia). lia.
Qed.

Section Guard.
Context {G : Type} `{ReplayGuardLaws G}.

(** A call of another request, with whatever context it has. *)
Record Call : Type := mkCall {
  cl_config : DpopConfig;
  cl_request : PopRequest;
  cl_context : PluginContext;
}.

Definition serve (g : G) (c : Call) : G := (verify_in (cl_config c) g (cl_request c) (cl_context c)).1.2.

Definition serve_all (g : G) (cs : list Call) : G := foldl serve g cs.

(** A context that holds no record of a proof: a request's first resolution. *)
Definition no_records (ctx : PluginContext) : Prop :=
  forall r, cx_global_state ctx !! record_key r = None.

Lemma consume_guard config g request t j :
  exists s i e, (consume config g request t j).2 = (first_use g s i e (pq_now request)).2
    /\ s = pq_issuer request +:+ unit_separator +:+ t /\ i = j /\ e = retained_until config (pq_now request)
    /\ ((consume config g request t j).1 = Ok tt -> (first_use g s i e (pq_now request)).1 = Ok true).
Proof.
  unfold consume. do 3 eexists. destruct (first_use _ _ _ _ _) as [[[]|] g'] eqn:E; cbn; by rewrite E.
Qed.

(** What a call does to the guard: nothing, or one [first_use] at its time. *)
Lemma serve_step g c :
  serve g c = g \/ exists s i e, serve g c = (first_use g s i e (pq_now (cl_request c))).2.
Proof.
  unfold serve, verify_in, verify. destruct c as [config request ctx]. cbn [cl_config cl_request cl_context].
  destruct (guard_zero_sized g); (destruct (check config request) as [ck|]; [|by left]).
  - destruct (consume_guard config g request (ck_thumbprint ck) (ck_jti ck)) as (s & i & e & E & _).
    destruct (consume _ _ _ _ _) as [[]]; cbn in *; right; by exists s, i, e.
  - destruct (is_some_and _ _); [by left|].
    destruct (consume_guard config g request (po_thumbprint (proof_record config g request ck))
                (po_jti (proof_record config g request ck))) as (s & i & e & E & _).
    destruct (consume _ _ _ _ _) as [[]]; cbn in *; right; by exists s, i, e.
Qed.

Lemma serve_all_held g cs s i e :
  guard_ok g -> held g s i e -> Forall (fun c => (pq_now (cl_request c) < e)%Z) cs ->
  guard_ok (serve_all g cs) /\ held (serve_all g cs) s i e.
Proof.
  revert g. induction cs as [|c cs IH]; intros g Hg Hh Hn; [done|]. apply Forall_cons in Hn as [Hc Hn].
  cbn [serve_all foldl]. apply IH; [| |done].
  - destruct (serve_step g c) as [->|(s' & i' & e' & ->)]; [done|by apply guard_ok_step].
  - destruct (serve_step g c) as [->|(s' & i' & e' & ->)]; [done|by apply held_stable].
Qed.

(** A first resolution is [verify]. *)
Lemma verify_in_fresh config g request ctx :
  no_records ctx -> (verify_in config g request ctx).1 = verify config g request.
Proof.
  intros Hn. unfold verify_in, verify. destruct (guard_zero_sized g); [done|].
  destruct (check config request) as [ck|]; [|done]. rewrite Hn. cbn [mbind option_bind is_some_and].
  cbn [po_thumbprint po_jti proof_record]. by destruct (consume _ _ _ _ _) as [[]].
Qed.

Lemma verify_ok config g request b g' :
  verify config g request = (Ok b, g') ->
  exists ck, check config request = Ok ck
    /\ first_use g (pq_issuer request +:+ unit_separator +:+ ck_thumbprint ck) (ck_jti ck)
         (retained_until config (pq_now request)) (pq_now request) = (Ok true, g').
Proof.
  unfold verify. destruct (check config request) as [ck|]; [|done]. unfold consume.
  destruct (first_use _ _ _ _ _) as [[[]|] g0] eqn:E; try done. intros [= <- <-]. by exists ck.
Qed.

(** Claim C12. A proof is good for one request: after a request presenting it is accepted,
    and however many other requests use the guard meanwhile, a later request presenting the
    same proof for the same issuer is denied, as long as the clock does not run backwards
    past it. Either the guard still remembers the proof's id, or the proof has left its
    window: the memory lasts longer than the window, also where the arithmetic saturates. *)
Theorem proof_accepted_once config g request ctx b g' ctx' others later ctx2 :
  guard_ok g -> (0 <= dc_iat_window_seconds config)%Z -> (0 <= pq_now request)%Z ->
  no_records ctx -> verify_in config g request ctx = (Ok b, g', ctx') ->
  Forall (fun c => (pq_now (cl_request c) <= pq_now later)%Z) others ->
  pq_issuer later = pq_issuer request -> pq_proof later = pq_proof request ->
  (pq_now later < i64_max)%Z -> no_records ctx2 ->
  exists d, (verify_in config (serve_all g' others) later ctx2).1.1 = Err d.
Proof.
  intros Hg Hwin Hmin Hn1 Hv Hothers Hi Hp Hmax Hn2.
  pose proof (verify_in_fresh config g request ctx Hn1) as Hf. rewrite Hv in Hf. cbn [fst] in Hf. symmetry in Hf.
  apply verify_ok in Hf as (ck & Hck & Hfu). pose proof Hck as Hck'. apply check_ok in Hck as (proof & iat & Hpr).
  assert (guard_ok g') as Hg'.
  { replace g' with (Ok true : result bool string, g').2 by done. rewrite <- Hfu. by apply guard_ok_step. }
  pose proof (first_use_held _ _ _ _ _ _ Hg Hfu) as Hheld.
  rewrite (verify_in_fresh _ _ _ _ Hn2).
  destruct (verify config (serve_all g' others) later) as [[b2|d] g2] eqn:E2; [exfalso|by exists d].
  apply verify_ok in E2 as (ck2 & Hck2 & Hfu2). apply check_ok in Hck2 as (proof2 & iat2 & Hpr2).
  assert (proof2 = proof) as ->.
  { destruct Hpr as [E1 _], Hpr2 as [E2 _]. rewrite Hp in E2. congruence. }
  destruct (proves_same _ _ _ _ _ _ _ _ Hpr Hpr2) as (Et & Ej & ->).
  destruct (Z.lt_ge_cases (pq_now later) (retained_until config (pq_now request))) as [Hlt|Hge].
  - destruct (serve_all_held g' others _ _ _ Hg' Hheld) as [Hok Hh].
    { eapply Forall_impl; [exact Hothers|]. cbn. lia. }
    apply (held_refused _ _ _ _ (retained_until config (pq_now later)) (pq_now later) Hok Hh Hlt).
    rewrite <- Hi, Et, Ej. by rewrite Hfu2.
  - destruct Hpr as (_ & _ & _ & a & k & cr & j & ke & cl & _ & _ & _ & _ & _ & _ & _ & _ & _ & Hw1 & _).
    destruct Hpr2 as (_ & _ & _ & a2 & k2 & cr2 & j2 & ke2 & cl2 & _ & _ & _ & _ & _ & _ & _ & _ & _ & Hw2 & _).
    exact (retained_beyond config _ _ iat2 Hwin Hmax Hge Hw1 Hw2 Hmin).
Qed.
End Guard.

(** ** A second resolution of one request *)

Lemma get_set_global ctx k v : cx_global_state (set_global ctx k v) !! k = Some v.
Proof. exact (lookup_insert_eq (cx_global_state ctx : gmap string json) k v). Qed.

Lemma get_all_binding b : binding_of_value (binding_to_value b) = Some b.
Proof. by destruct b. Qed.

Lemma record_round_trip r :
  (0 <= po_replay_guard r <= usize_max)%Z -> (i64_min <= po_expires_at r <= i64_max)%Z ->
  record_of_value (record_to_value r) = Some r.
Proof.
  intros Hg He. unfold record_of_value, record_to_value, struct_fields.
  destruct r as [i t j h u a g e b]. cbn [po_replay_guard po_expires_at] in *.
  assert (((0 <=? g) && (g <=? usize_max))%Z = true) as Eg by (apply andb_true_iff; split; apply Z.leb_le; lia).
  assert (in_i64 e = true) as Ee by (apply andb_true_iff; split; apply Z.leb_le; lia).
  cbn -[binding_of_value binding_to_value read_usize as_i64]. rewrite get_all_binding. unfold read_usize, as_i64.
  by rewrite Eg, Ee.
Qed.

Lemma retained_range config now : (i64_min <= retained_until config now <= i64_max)%Z.
Proof. unfold retained_until, clamp_i64. assert (i64_min < i64_max)%Z by (unfold i64_min, i64_max; lia). lia. Qed.

(** A request whose proof was accepted and recorded may resolve identity again: while the guard
    would still remember the proof, the same checks accept it, and the guard is left alone. *)
Lemma second_resolution_free {G} `{ReplayGuard G} config g request ctx b g' ctx' g2 later :
  guard_zero_sized g = false -> guard_zero_sized g2 = false -> guard_addr g2 = guard_addr g ->
  (0 <= guard_addr g <= usize_max)%Z ->
  no_records ctx -> verify_in config g request ctx = (Ok b, g', ctx') ->
  (pq_now later < retained_until config (pq_now request))%Z ->
  later = mkPopRequest (pq_issuer request) (pq_access_token request) (pq_bound_thumbprint request) (pq_proof request)
            (pq_method request) (pq_url request) (pq_now later) ->
  result_is_ok (check config later) = true ->
  verify_in config g2 later ctx' = (Ok b, g2, ctx').
Proof.
  intros Hz Hz2 Ha Hr Hn Hv Hnow Hl Hc. unfold verify_in in Hv |- *. rewrite Hz in Hv. rewrite Hz2.
  destruct (check config request) as [ck|] eqn:Eck; [|done]. rewrite Hn in Hv. cbn [mbind option_bind is_some_and] in Hv.
  destruct (consume _ _ _ _ _) as [[[]|] g0]; [|done]. injection Hv as <- <- <-.
  destruct (check config later) as [ck2|] eqn:Eck2; [|done]. clear Hc.
  apply check_ok in Eck as (p & t & Hp), Eck2 as (p2 & t2 & Hp2).
  assert (p2 = p) as -> by (destruct Hp as [E _], Hp2 as [E2 _]; rewrite Hl in E2; cbn in E2; congruence).
  destruct (proves_same _ _ _ _ _ _ _ _ Hp Hp2) as (Et & Ej & _).
  assert (ck_htu ck2 = ck_htu ck /\ ck_ath ck2 = ck_ath ck) as [Eh Eath].
  { destruct Hp as (_ & _ & _ & ? & ? & ? & ? & ? & ? & _ & _ & _ & _ & _ & Hu & _ & _ & _ & _ & Hath & _).
    destruct Hp2 as (_ & _ & _ & ? & ? & ? & ? & ? & ? & _ & _ & _ & _ & _ & Hu2 & _ & _ & _ & _ & Hath2 & _).
    rewrite Hl in Hu2, Hath2. cbn in Hu2, Hath2. split; congruence. }
  set (rec := proof_record config g request ck).
  assert (record_key (proof_record config g2 later ck2) = record_key rec) as ->.
  { unfold rec, record_key, proof_record. cbn. rewrite Ha, <- Et, <- Ej. by rewrite Hl. }
  rewrite get_set_global. cbn [mbind option_bind].
  rewrite record_round_trip by (done || apply retained_range). cbn [is_some_and].
  assert (reusable (proof_record config g2 later ck2) rec (pq_now later) = true) as ->.
  { unfold reusable, rec, proof_record. cbn. rewrite Eh, Eath, <- Et, <- Ej, Ha, (proj2 (Z.ltb_lt _ _) Hnow).
    rewrite bool_decide_true by done. rewrite Z.eqb_refl, !String.eqb_refl. rewrite Hl. cbn. by rewrite !String.eqb_refl. }
  unfold rec, proof_record. cbn. by rewrite Et.
Qed.
End Props.

(** ** Examples *)

Section Examples.
#[local] Instance sample_digest : Digest := {| sha256 s := Ok s |}.

Definition sample_header : json :=
  JObject [("jwk", JObject [("crv", JString "Ed25519"); ("kty", JString "OKP"); ("x", JString "AA")]);
           ("typ", JString "dpop+jwt")].

Definition sample_proof_claims : ProofClaims := mkProofClaims "GET" "https://API.example:443/x" 100 "j1" (Some "tok").

Definition sample_jose : Jose := {|
  DecodingKey := unit;
  Jwk := unit;
  b64url_decode := Some;
  b64url := fun s => s;
  json_from_slice := fun _ => Some sample_header;
  decode_header := fun _ => Ok (ES256, None, None, Some tt);
  key_from_jwk := fun _ => Ok tt;
  decode_proof := fun _ _ _ => Ok sample_proof_claims;
  decode_claims := fun _ _ _ => Ok ∅;
|}.

#[local] Existing Instance sample_jose.
#[local] Existing Instance ascii_platform.

Definition sample_request (now : Z) : PopRequest :=
  mkPopRequest "https://idp" "tok" "null" (Some "h.p.s") "GET" "https://api.example/x?q=1" now.

Definition sample_config : DpopConfig := mkDpopConfig DpopRequired [ES256] 60 None.
Definition fresh_context : PluginContext := mkContext ∅ ∅.
Definition sample_guard : InMemoryReplayGuard := memory_guard_default 4096.

Lemma memory_guard_refines_witness :
  replay_wf (mg_state sample_guard)
  /\ let '(r, g') := first_use sample_guard "s" "i" 10 1 in
     replay_wf (mg_state g')
     /\ (replay_answer r, rs_seen (mg_state g'))
        = replay_spec (mg_capacity sample_guard) (mg_capacity_per_key sample_guard)
            (rs_seen (mg_state sample_guard)) "s" "i" 10 1
     /\ mg_capacity g' = mg_capacity sample_guard /\ mg_capacity_per_key g' = mg_capacity_per_key sample_guard.
Proof. split; [exact replay_default_wf|]. exact (memory_guard_refines sample_guard "s" "i" 10 1 replay_default_wf). Defined.

Lemma fresh_no_records : no_records fresh_context.
Proof. intros r. reflexivity. Qed.

(** The sample proof, accepted at 100, is denied at 120. *)
Lemma proof_accepted_once_witness :
  exists b g' ctx', verify_in sample_config sample_guard (sample_request 100) fresh_context = (Ok b, g', ctx')
    /\ exists d, (verify_in sample_config (serve_all g' [mkCall sample_config (sample_request 110) fresh_context])
                    (sample_request 120) fresh_context).1.1 = Err d.
Proof.
  assert (exists b g' ctx', verify_in sample_config sample_guard (sample_request 100) fresh_context = (Ok b, g', ctx'))
    as (b & g' & ctx' & E) by (do 3 eexists; vm_compute; reflexivity).
  exists b, g', ctx'. split; [exact E|].
  refine (proof_accepted_once sample_config sample_guard (sample_request 100) fresh_context b g' ctx'
            [mkCall sample_config (sample_request 110) fresh_context] (sample_request 120) fresh_context
            replay_default_wf _ _ fresh_no_records E _ eq_refl eq_refl _ fresh_no_records).
  - cbn. lia.
  - cbn. lia.
  - constructor; [cbn; lia|constructor].
  - vm_compute. reflexivity.
Defined.
End Examples.
