(* ===== verification/Jwt.v ===== *)
(** * The JWT identity resolver ([builtins/src/plugins/identity_jwt/]: [config.rs],
    [trusted_issuer.rs], [resolver.rs])

    Where an issuer's keys come from and how they are refreshed, the validation of a token, the
    construction of a resolver and its handler, with what an accepted identity rests on. The
    JOSE library, the host's HTTP client and the file system are parameters. *)

From Stdlib Require Import Ascii String.
From S2P Require Import Prelude RustStr F64 Json Platform Lexical Scan ExtData HttpPath Plugin Extensions Hooks Config.
From S2P Require Import DecisionCache Bridge Credential ClaimMap ClaimMapProps Dpop.

(** ** Key material *)

Class KeyMaterial `{Jose} := {
  (** [DecodingKey::from_rsa_pem], [from_ec_pem], [from_ed_pem] and [from_secret]. *)
  key_from_rsa_pem : string -> result DecodingKey JwtError;
  key_from_ec_pem : string -> result DecodingKey JwtError;
  key_from_ed_pem : string -> result DecodingKey JwtError;
  key_from_secret : string -> DecodingKey;
  (** [serde_json::from_value::<Jwk>]. *)
  jwk_from_value : json -> result Jwk string;
  (** [std::fs::read]. *)
  fs_read : string -> result string string;
}.

(** A key of a published set: its use (is it a signature key, where it says), its [kid], and
    the key. *)
Record JwkEntry `{Jose} : Type := mkJwkEntry {
  jk_use_signature : option bool;
  jk_kid : option string;
  jk_jwk : Jwk;
}.
Arguments JwkEntry {_}.
Arguments mkJwkEntry {_}.

Inductive JwksFetchBudget : Type := Startup | RequestPath.

(** What the host's transport answers. *)
Inductive HttpReply : Type :=
| HttpUnavailable (message : string)
| HttpTransport (message : string)
| HttpResponse (status : Z) (etag : option string) (body : string).

Class JwksHost `{Jose} := {
  (** [HeaderValue::try_from]. *)
  is_header_value : string -> bool;
  (** [http_request]: a GET of the url within a budget, conditional on a validator. *)
  http_get : string -> JwksFetchBudget -> option string -> HttpReply;
  (** UTF-8 and [serde_json::from_str::<JwkSet>] of a body. *)
  jwkset_from_body : string -> result (list JwkEntry) string;
}.

(** ** Key stores ([trusted_issuer.rs]) *)

Record KeyStore `{Jose} : Type := mkKeyStore {
  ks_by_kid : gmap string DecodingKey;
  ks_fallback : option DecodingKey;
}.
Arguments KeyStore {_}.
Arguments mkKeyStore {_}.

Section Stores.
Context `{Jose}.

Definition keystore_empty : KeyStore := mkKeyStore ∅ None.
Definition single_fallback (key : DecodingKey) : KeyStore := mkKeyStore ∅ (Some key).

(** Collecting pairs into a [HashMap]: the last entry of a [kid] stays. *)
Definition from_jwks_entries (entries : list (string * DecodingKey)) : KeyStore :=
  mkKeyStore (foldl (fun m kv => <[kv.1 := kv.2]> m) ∅ entries) None.

Definition keystore_select (self : KeyStore) (kid : option string) : option DecodingKey :=
  match kid with Some k => ks_by_kid self !! k | None => ks_fallback self end.

Definition keystore_is_empty (self : KeyStore) : bool :=
  bool_decide (ks_by_kid self = ∅) && match ks_fallback self with None => true | Some _ => false end.
End Stores.

(** ** The gate on refreshes. Instants and durations in nanoseconds. *)

Record RefreshGate : Type := mkGate {
  rg_last_attempt : option Z;
  rg_last_success : option Z;
  rg_generation : N;
  rg_etag : option string;
}.

Definition RefreshGate_default : RefreshGate := mkGate None None 0 None.

Definition from_secs (s : Z) : Z := (s * 1000000000)%Z.

(** [Instant::duration_since]: zero where the argument is later. *)
Definition duration_since (now prev : Z) : Z := Z.max 0 (now - prev).

Definition claim_attempt (self : RefreshGate) (min_interval now : Z) : bool * RefreshGate :=
  let claim := (true, mkGate (Some now) (rg_last_success self) (rg_generation self) (rg_etag self)) in
  match rg_last_attempt self with
  | Some prev => if (duration_since now prev <? min_interval)%Z then (false, self) else claim
  | None => claim
  end.

Definition mark_current (self : RefreshGate) (now : Z) : RefreshGate :=
  mkGate (rg_last_attempt self) (Some now) (rg_generation self) (rg_etag self).

(** The counter is a [u64] and wraps. *)
Definition mark_success (self : RefreshGate) (now : Z) : RefreshGate :=
  let g := mark_current self now in
  mkGate (rg_last_attempt g) (rg_last_success g) ((rg_generation g + 1) mod 2 ^ 64) (rg_etag g).

Definition set_etag (self : RefreshGate) (etag : option string) : RefreshGate :=
  mkGate (rg_last_attempt self) (rg_last_success self) (rg_generation self) etag.

Definition is_stale (self : RefreshGate) (max_age : option Z) (now : Z) : bool :=
  match max_age with
  | None => false
  | Some max_age =>
      match rg_last_success self with None => true | Some t => (max_age <=? duration_since now t)%Z end
  end.

(** ** Key sources ([config.rs]) *)

Inductive DecodingKeySource : Type :=
| SrcPem (pem : string)
| SrcPemFile (path : string)
| SrcJwk (jwk : json)
| SrcJwksUrl (url : string) (insecure_http : bool) (refresh_secs min_refresh_interval_secs : Z)
| SrcSecret (secret : string).

Definition needs_async (self : DecodingKeySource) : bool :=
  match self with SrcJwksUrl _ _ _ _ => true | _ => false end.

Definition refresh_interval (self : DecodingKeySource) : option Z :=
  match self with SrcJwksUrl _ _ refresh _ => Some (from_secs refresh) | _ => None end.

(** [Duration::MAX] for a source that never refreshes. *)
Definition duration_max : Z := ((2 ^ 64 - 1) * 1000000000 + 999999999)%Z.

Definition min_refresh_interval (self : DecodingKeySource) : Z :=
  match self with SrcJwksUrl _ _ _ floor => from_secs floor | _ => duration_max end.

Inductive KeySourceError : Type := Fatal (message : string) | Recoverable (message : string).

Definition is_fatal (e : KeySourceError) : bool := match e with Fatal _ => true | Recoverable _ => false end.

(** [KeySourceError::context]. *)
Definition error_context (e : KeySourceError) (prefix : string) : KeySourceError :=
  match e with
  | Fatal m => Fatal (prefix +:+ ": " +:+ m)
  | Recoverable m => Recoverable (prefix +:+ ": " +:+ m)
  end.

(** [require_https]. *)
Definition require_https (url : string) (insecure_http : bool) : result unit string :=
  let lowered := to_ascii_lowercase (trim_start url) in
  if starts_with "https://" lowered then Ok tt
  else if starts_with "http://" lowered then
    if insecure_http then Ok tt
    else Err ("JWKS URL must use https:// (got '" +:+ url +:+ "'). Set `insecure_http: true` "
              +:+ "to allow plaintext for localhost/dev only — never production.")
  else Ok tt.

Inductive JwksFetch `{Jose} : Type :=
| Fetched (keys : KeyStore) (etag : option string)
| NotModified.
Arguments JwksFetch {_}.
Arguments Fetched {_}.
Arguments NotModified {_}.

Section Sources.
Context `{Jose} `{!KeyMaterial} `{!JwksHost}.

Definition or_try {A E} (r s : result A E) : result A E := match r with Ok a => Ok a | Err _ => s end.

Definition build_from_pem_bytes (bytes origin : string) : result DecodingKey string :=
  match or_try (or_try (key_from_rsa_pem bytes) (key_from_ec_pem bytes)) (key_from_ed_pem bytes) with
  | Ok key => Ok key
  | Err e => Err (origin +:+ " PEM key failed to parse: " +:+ je_display e)
  end.

Definition build_from_jwk_value (jwk : json) : result DecodingKey string :=
  match jwk_from_value jwk with
  | Err e => Err ("JWK is not well-formed: " +:+ e)
  | Ok parsed =>
      match key_from_jwk parsed with Ok key => Ok key | Err e => Err ("JWK not usable: " +:+ je_display e) end
  end.

(** [DecodingKeySource::build]; [check_key] accepts every key in this build. *)
Definition source_build (self : DecodingKeySource) : result KeyStore string :=
  let? key :=
    match self with
    | SrcPem pem => build_from_pem_bytes pem "inline PEM"
    | SrcPemFile path =>
        match fs_read path with
        | Err e => Err ("decoding-key file '" +:+ path +:+ "' unreadable: " +:+ e)
        | Ok bytes => build_from_pem_bytes bytes ("file '" +:+ path +:+ "'")
        end
    | SrcJwk jwk => build_from_jwk_value jwk
    | SrcJwksUrl url _ _ _ => Err ("JwksUrl source '" +:+ url +:+ "' requires async resolution — call build_async()")
    | SrcSecret secret => Ok (key_from_secret secret)
    end in
  Ok (single_fallback key).

(** One key of the published set: skipped for its use, for want of a [kid], or because the
    library cannot use it. *)
Definition jwks_entry (k : JwkEntry) : option (string * DecodingKey) :=
  if is_some_and negb (jk_use_signature k) then None
  else
    match jk_kid k with
    | None => None
    | Some kid =>
        if String.eqb kid "" then None
        else match key_from_jwk (jk_jwk k) with Ok key => Some (kid, key) | Err _ => None end
    end.

(** [DecodingKeySource::fetch_async]. The message of an unusable set also counts what was
    skipped. *)
Definition fetch_async (self : DecodingKeySource) (budget : JwksFetchBudget) (if_none_match : option string) :
    result JwksFetch KeySourceError :=
  match self with
  | SrcJwksUrl url insecure_http _ _ =>
      let? _ := result_map_err Fatal (require_https url insecure_http) in
      let validator := match if_none_match with Some v => if is_header_value v then Some v else None | None => None end in
      match http_get url budget validator with
      | HttpUnavailable e => Err (Fatal ("JWKS GET " +:+ url +:+ " failed: " +:+ e))
      | HttpTransport e => Err (Recoverable ("JWKS GET " +:+ url +:+ " failed: " +:+ e))
      | HttpResponse status etag body =>
          if (status =? 304)%Z then Ok NotModified
          else if negb ((200 <=? status) && (status <? 300))%Z then
            Err (Recoverable ("JWKS GET " +:+ url +:+ " returned non-2xx: " +:+ show_Z status))
          else
            match jwkset_from_body body with
            | Err e => Err (Recoverable ("JWKS " +:+ url +:+ " body is not a JWKSet: " +:+ e))
            | Ok keys =>
                match omap jwks_entry keys with
                | [] => Err (Recoverable ("JWKS at " +:+ url +:+ " contained no usable signature keys"))
                | entries => Ok (Fetched (from_jwks_entries entries) etag)
                end
            end
      end
  | other => match source_build other with Ok keys => Ok (Fetched keys None) | Err e => Err (Fatal e) end
  end.
End Sources.

(** ** Issuers *)

Record TrustedIssuerConfig : Type := mkIssuerConfig {
  tc_issuer : string;
  tc_audiences : list string;
  tc_skip_audience_validation : bool;
  tc_algorithms : list Algorithm;
  tc_decoding_key : DecodingKeySource;
  tc_leeway_seconds : Z;
  tc_dpop : DpopConfig;
}.

Record TrustedIssuer `{Jose} : Type := mkTrustedIssuer {
  ti_issuer : string;
  ti_audiences : list string;
  ti_skip_audience_validation : bool;
  ti_keys : KeyStore;
  ti_algorithms : list Algorithm;
  ti_leeway_seconds : Z;
  ti_dpop : DpopConfig;
  ti_source : DecodingKeySource;
  ti_refresh : RefreshGate;
}.
Arguments TrustedIssuer {_}.
Arguments mkTrustedIssuer {_}.

Inductive IssuerConfigError : Type :=
| IssuerEmpty
| NoIssuerAlgorithms (issuer : string)
| NoIssuerAudiences (issuer : string)
| AudiencesAndSkip (issuer : string)
| IssuerDpop (issuer : string) (e : DpopConfigError).

(** [TrustedIssuerConfig::validate]. *)
Definition issuer_validate (self : TrustedIssuerConfig) : result unit IssuerConfigError :=
  if String.eqb (trim (tc_issuer self)) "" then Err IssuerEmpty
  else if tc_algorithms self is [] then Err (NoIssuerAlgorithms (tc_issuer self))
  else if negb (tc_skip_audience_validation self) && bool_decide (tc_audiences self = [])
  then Err (NoIssuerAudiences (tc_issuer self))
  else if tc_skip_audience_validation self && negb (bool_decide (tc_audiences self = []))
  then Err (AudiencesAndSkip (tc_issuer self))
  else result_map_err (IssuerDpop (tc_issuer self)) (dpop_validate (tc_dpop self)).

Section Issuers.
Context `{Jose} `{!KeyMaterial} `{!JwksHost}.

Definition issuer_with (self : TrustedIssuerConfig) (keys : KeyStore) (refresh : RefreshGate) : TrustedIssuer :=
  mkTrustedIssuer (tc_issuer self) (tc_audiences self) (tc_skip_audience_validation self) keys (tc_algorithms self)
    (tc_leeway_seconds self) (tc_dpop self) (tc_decoding_key self) refresh.

Inductive IssuerBuildError : Type :=
| BuildShape (e : IssuerConfigError)
| BuildKey (issuer message : string).

(** [TrustedIssuerConfig::build]. *)
Definition issuer_build (self : TrustedIssuerConfig) : result TrustedIssuer IssuerBuildError :=
  let? _ := result_map_err BuildShape (issuer_validate self) in
  let? keys := result_map_err (BuildKey (tc_issuer self)) (source_build (tc_decoding_key self)) in
  Ok (issuer_with self keys RefreshGate_default).

Inductive AsyncBuildError : Type :=
| AsyncShape (e : IssuerConfigError)
| AsyncSource (e : KeySourceError).

Definition async_fatal (e : AsyncBuildError) : bool :=
  match e with AsyncShape _ => true | AsyncSource e => is_fatal e end.

(** [TrustedIssuerConfig::build_async]; a shape the validation refuses is fatal. *)
Definition issuer_build_async (self : TrustedIssuerConfig) (budget : JwksFetchBudget) :
    result TrustedIssuer AsyncBuildError :=
  let? _ := result_map_err AsyncShape (issuer_validate self) in
  let prefix := "trusted_issuer '" +:+ tc_issuer self +:+ "'" in
  match fetch_async (tc_decoding_key self) budget None with
  | Err e => Err (AsyncSource (error_context e prefix))
  | Ok NotModified =>
      Err (AsyncSource (Recoverable
             (prefix +:+ ": JWKS endpoint answered 304 to a request carrying no If-None-Match")))
  | Ok (Fetched keys etag) => Ok (issuer_with self keys (set_etag RefreshGate_default etag))
  end.

Definition set_refresh (self : TrustedIssuer) (g : RefreshGate) : TrustedIssuer :=
  mkTrustedIssuer (ti_issuer self) (ti_audiences self) (ti_skip_audience_validation self) (ti_keys self)
    (ti_algorithms self) (ti_leeway_seconds self) (ti_dpop self) (ti_source self) g.

Definition with_keys (self : TrustedIssuer) (keys : KeyStore) : TrustedIssuer :=
  mkTrustedIssuer (ti_issuer self) (ti_audiences self) (ti_skip_audience_validation self) keys
    (ti_algorithms self) (ti_leeway_seconds self) (ti_dpop self) (ti_source self) (ti_refresh self).

(** The issuer a boot fetch leaves: with its keys, or with none and the source to retry. *)
Definition booted (now : Z) (cfg : TrustedIssuerConfig) (outcome : result TrustedIssuer AsyncBuildError) :
    TrustedIssuer :=
  match outcome with
  | Ok issuer => set_refresh issuer (mark_success (ti_refresh issuer) now)
  | Err _ => issuer_with cfg keystore_empty RefreshGate_default
  end.

(** [initialize_with]: a fatal fetch fails it, naming every fatal issuer; else each pending
    issuer is added. *)
Definition initialize_with (now : Z) (pending : list TrustedIssuerConfig) (issuers : list TrustedIssuer) :
    result (list TrustedIssuer) (list string) :=
  let resolved := map (fun cfg => (cfg, issuer_build_async cfg Startup)) pending in
  let fatal :=
    omap (fun r => match r.2 with
                   | Err e => if async_fatal e then Some (tc_issuer r.1) else None
                   | Ok _ => None
                   end) resolved in
  match fatal with
  | _ :: _ => Err fatal
  | [] => Ok (issuers ++ map (fun r => booted now r.1 r.2) resolved)
  end.

(** ** Refreshing ([refresh_issuer]) *)

Inductive RefreshUrgency : Type := Required | Opportunistic.

(** How the wait for the issuer's single-flight lock ends: held, with the keys and the gate
    other requests have left the issuer with by then (its settings never change), or given up
    ([Required] after its budget, [Opportunistic] at once). *)
Inductive LockOutcome : Type :=
| LockHeld (keys : KeyStore) (gate : RefreshGate)
| LockGivenUp.

(** Under the lock: whether a fetch started, whether the store was replaced, and the issuer it
    leaves. [now] is the time of the claim, [done_at] the time the fetch ends. *)
Definition refresh_locked (issuer : TrustedIssuer) (now done_at : Z) : bool * bool * TrustedIssuer :=
  match claim_attempt (ti_refresh issuer) (min_refresh_interval (ti_source issuer)) now with
  | (false, _) => (false, false, issuer)
  | (true, gate) =>
      let issuer := set_refresh issuer gate in
      match fetch_async (ti_source issuer) RequestPath (rg_etag gate) with
      | Ok (Fetched keys etag) =>
          let issuer := with_keys issuer keys in
          (true, true, set_refresh issuer (mark_success (set_etag (ti_refresh issuer) etag) done_at))
      | Ok NotModified => (true, false, set_refresh issuer (mark_current (ti_refresh issuer) done_at))
      | Err _ => (true, false, issuer)
      end
  end.

Definition refresh_issuer (issuer : TrustedIssuer) (urgency : RefreshUrgency) (lock : LockOutcome) (now done_at : Z) :
    bool * TrustedIssuer :=
  match refresh_interval (ti_source issuer) with
  | None => (false, issuer)
  | Some _ =>
      let generation_before := rg_generation (ti_refresh issuer) in
      match lock with
      | LockGivenUp => (false, issuer)
      | LockHeld keys gate =>
          let current := set_refresh (with_keys issuer keys) gate in
          if negb (rg_generation (ti_refresh current) =? generation_before)%N then (true, current)
          else let '(_, replaced, issuer') := refresh_locked current now done_at in (replaced, issuer')
      end
  end.

(** ** Validating a token *)

Definition DEFAULT_LEEWAY_SECONDS : Z := 60.

Inductive ValidateError : Type :=
| UnsupportedCriticalHeader
| UnknownKid (kid : option string)
| KeysUnavailable
| NoAlgorithms
| NoAudiences
| VeJwt (e : JwtError).

Definition has_unsupported_critical_extensions (crit : option (list string)) : bool :=
  is_some_and (fun c => negb (bool_decide (c = []))) crit.

(** The settings a token of an issuer is decoded with. *)
Definition token_validation (issuer : TrustedIssuer) : Validation :=
  let leeway := if (ti_leeway_seconds issuer =? 0)%Z then DEFAULT_LEEWAY_SECONDS else ti_leeway_seconds issuer in
  if ti_skip_audience_validation issuer
  then mkValidation (ti_algorithms issuer) (Some [ti_issuer issuer]) None ["exp"] leeway true true false
  else mkValidation (ti_algorithms issuer) (Some [ti_issuer issuer]) (Some (ti_audiences issuer))
         ["exp"; "iss"; "aud"] leeway true true true.

(** [validate_token]. *)
Definition validate_token (token : string) (issuer : TrustedIssuer) : result ClaimMap ValidateError :=
  match decode_header token with
  | Err e => Err (VeJwt e)
  | Ok (_, kid, crit, _) =>
      if has_unsupported_critical_extensions crit then Err UnsupportedCriticalHeader
      else if keystore_is_empty (ti_keys issuer) then Err KeysUnavailable
      else match keystore_select (ti_keys issuer) kid with
           | None => Err (UnknownKid kid)
           | Some key =>
               if ti_algorithms issuer is [] then Err NoAlgorithms
               else if negb (ti_skip_audience_validation issuer) && bool_decide (ti_audiences issuer = [])
               then Err NoAudiences
               else result_map_err VeJwt (decode_claims token key (token_validation issuer))
           end
  end.

(** [classify_jwt_error]. *)
Definition classify_jwt_error (e : JwtError) : string * string :=
  let code :=
    match je_kind e with
    | ExpiredSignature => "auth.token_expired"
    | InvalidSignature => "auth.signature_invalid"
    | ImmatureSignature => "auth.token_not_yet_valid"
    | InvalidAudience => "auth.audience_mismatch"
    | MissingRequiredClaim c => if String.eqb c "aud" then "auth.audience_mismatch" else "auth.token_invalid"
    | InvalidIssuer => "auth.untrusted_issuer"
    | InvalidAlgorithm | InvalidAlgorithmName => "auth.algorithm_mismatch"
    | KindBase64 | KindJson => "auth.malformed_credential"
    | _ => "auth.token_invalid"
    end in
  (code, je_display e).

(** [peek_issuer]: three segments, the second a JSON document with a string [iss]. *)
Definition peek_issuer (token : string) : option string :=
  match split "." token with
  | [_; payload; _] =>
      match b64url_decode payload ≫= json_from_slice with
      | Some value => value_get "iss" value ≫= as_str
      | None => None
      end
  | _ => None
  end.
End Issuers.

(** ** Building a resolver ([JwtIdentityResolver::with_replay_guard]) *)

Record JwtIdentityResolverConfig : Type := mkResolverConfig {
  jc_trusted_issuers : list TrustedIssuerConfig;
  jc_role : TokenRole;
  jc_credential : option Credential;
  jc_header : option string;
  jc_claim_mapper : option string;
  jc_claim_map : option ClaimMapConfig;
  jc_claims : option json;
}.

Record Resolver `{Jose} : Type := mkResolver {
  jr_name : string;
  jr_trusted_issuers : list TrustedIssuer;
  jr_pending_jwks : list TrustedIssuerConfig;
  jr_claim_mapper : ConfiguredClaimMap;
  jr_role : TokenRole;
  jr_location : CredentialLocation;
}.
Arguments Resolver {_}.
Arguments mkResolver {_}.

Inductive ResolverError : Type :=
| HeaderAndCredential
| DuplicateIssuer (issuer : string)
| NoTrustedIssuers
| DpopNeedsReadHeaders (issuer : string)
| DpopNeedsSerialMode (issuer : string)
| DpopNeedsHeader (issuer : string)
| BadIssuer (e : IssuerConfigError)
| BadKey (e : IssuerBuildError)
| CustomRole
| ClaimsNotOverrides
| BadOverrides (e : OverridesError)
| MapAndMapper (named : string)
| MapNotUsable (e : ClaimMapError)
| BadPreset (e : PresetError)
| NoRoleSection (e : ClaimMapError)
| BadLocation (e : LocationError)
| QueryNeedsCapability.

(** [serde]'s reading of [ClaimsOverrides]: both lists optional, no other field; an array gives
    them in order. *)
Fixpoint strings_of_all (vs : list json) : option (list string) :=
  match vs with
  | [] => Some []
  | JString s :: vs' => option_map (cons s) (strings_of_all vs')
  | _ => None
  end.

Definition string_list (v : json) : option (list string) :=
  match v with JArray vs => strings_of_all vs | _ => None end.

Definition list_or_empty (v : option json) : option (list string) :=
  match v with None => Some [] | Some v => string_list v end.

Definition overrides_of_value (v : json) : option ClaimsOverrides :=
  let both ex inc :=
    match list_or_empty ex, list_or_empty inc with Some ex, Some inc => Some (mkOverrides ex inc) | _, _ => None end in
  match v with
  | JObject m =>
      if forallb (fun kv => existsb (String.eqb kv.1) ["exclude"; "include"]) m
      then both (map_get "exclude" m) (map_get "include" m) else None
  | JArray [] => both None None
  | JArray [ex] => both (Some ex) None
  | JArray [ex; inc] => both (Some ex) (Some inc)
  | _ => None
  end.

(** [find(|i| !seen.insert(..))]. *)
Fixpoint duplicate_issuer (seen : list string) (issuers : list TrustedIssuerConfig) : option string :=
  match issuers with
  | [] => None
  | i :: issuers' =>
      if existsb (String.eqb (tc_issuer i)) seen then Some (tc_issuer i)
      else duplicate_issuer (tc_issuer i :: seen) issuers'
  end.

Definition dpop_on (i : TrustedIssuerConfig) : bool := negb (bool_decide (dc_mode (tc_dpop i) = DpopOff)).

Definition keeps_context (m : PluginMode) : bool :=
  match m with Sequential | Transform | Disabled => true | _ => false end.

Definition check_dpop_plugin (cfg : PluginConfig) (typed : JwtIdentityResolverConfig) : result unit ResolverError :=
  match List.find dpop_on (jc_trusted_issuers typed) with
  | None => Ok tt
  | Some issuer =>
      if negb (bool_decide ("read_headers" ∈ pg_capabilities cfg)) then Err (DpopNeedsReadHeaders (tc_issuer issuer))
      else if negb (keeps_context (pg_mode cfg)) then Err (DpopNeedsSerialMode (tc_issuer issuer))
      else match jc_credential typed with
           | Some (CredCookie _ | CredQueryParam _) => Err (DpopNeedsHeader (tc_issuer issuer))
           | _ => Ok tt
           end
  end.

Section Construction.
Context `{Jose} `{!KeyMaterial} `{!JwksHost}.

(** The issuers whose keys are at hand, built, and those left to [initialize_with]. *)
Fixpoint partition_issuers (raws : list TrustedIssuerConfig) (built : list TrustedIssuer)
    (pending : list TrustedIssuerConfig) : result (list TrustedIssuer * list TrustedIssuerConfig) ResolverError :=
  match raws with
  | [] => Ok (built, pending)
  | raw :: raws' =>
      let? _ := result_map_err BadIssuer (issuer_validate raw) in
      if needs_async (tc_decoding_key raw) then partition_issuers raws' built (pending ++ [raw])
      else
        let? issuer := result_map_err BadKey (issuer_build raw) in
        partition_issuers raws' (built ++ [issuer]) pending
  end.

(** The compiled map: an inline one, a preset by name, or the standard preset. *)
Definition resolver_map (typed : JwtIdentityResolverConfig) : result CompiledClaimMap ResolverError :=
  match jc_claim_map typed, jc_claim_mapper typed with
  | Some _, Some named => Err (MapAndMapper named)
  | Some inline, None => result_map_err MapNotUsable (claim_map_compile inline)
  | None, named =>
      let? preset := result_map_err BadPreset (preset_lookup (default DEFAULT_PRESET named)) in
      Ok (pr_claim_map preset)
  end.

Definition resolver_overrides (typed : JwtIdentityResolverConfig) : result CompiledClaimsOverrides ResolverError :=
  match jc_claims typed with
  | None => Ok no_overrides
  | Some value =>
      match overrides_of_value value with
      | None => Err ClaimsNotOverrides
      | Some parsed => result_map_err BadOverrides (overrides_compile parsed)
      end
  end.

Definition resolver_credential (typed : JwtIdentityResolverConfig) : Credential :=
  match jc_credential typed with
  | Some c => c
  | None => CredHeader (default "Authorization" (jc_header typed))
  end.

Definition resolver_new (cfg : PluginConfig) (typed : JwtIdentityResolverConfig) : result Resolver ResolverError :=
  if (if jc_header typed is Some _ then true else false) && (if jc_credential typed is Some _ then true else false)
  then Err HeaderAndCredential
  else
    match duplicate_issuer [] (jc_trusted_issuers typed) with
    | Some issuer => Err (DuplicateIssuer issuer)
    | None =>
        if jc_trusted_issuers typed is [] then Err NoTrustedIssuers
        else
          let? _ := check_dpop_plugin cfg typed in
          let? parts := partition_issuers (jc_trusted_issuers typed) [] [] in
          if (if jc_role typed is RoleCustom _ then true else false) then Err CustomRole
          else
            let? overrides := resolver_overrides typed in
            let? compiled := resolver_map typed in
            let compiled := with_claims compiled overrides in
            let? _ := result_map_err NoRoleSection (compiled_role compiled (jc_role typed)) in
            let credential := resolver_credential typed in
            let location := mkLocation credential None in
            let? _ := result_map_err BadLocation (location_validate location) in
            if (if credential is CredQueryParam _ then true else false)
               && negb (bool_decide ("read_query" ∈ pg_capabilities cfg))
            then Err QueryNeedsCapability
            else
              Ok (mkResolver (pg_name cfg) parts.1 parts.2 (mkConfigured compiled JWT_MAPPING_PROFILE)
                    (jc_role typed) location)
    end.
End Construction.

(** ** The handler *)

Inductive AuthScheme : Type := SchemeBearer | SchemeDpop | SchemeUnspecified | SchemePreExtracted.

#[global] Instance AuthScheme_eq_dec : EqDecision AuthScheme.
Proof. solve_decision. Defined.

(** [split_auth_scheme]. *)
Definition split_auth_scheme (value : string) : AuthScheme * string :=
  match split_once " " value with
  | Some (scheme, after) =>
      if eq_ignore_ascii_case scheme "bearer" then (SchemeBearer, trim_spaces after)
      else if eq_ignore_ascii_case scheme "dpop" then (SchemeDpop, trim_spaces after)
      else (SchemeUnspecified, value)
  | None => (SchemeUnspecified, value)
  end.

Definition credential_display (c : Credential) : string :=
  match c with
  | CredHeader name => "header '" +:+ name +:+ "'"
  | CredCookie name => "cookie '" +:+ name +:+ "'"
  | CredQueryParam name => "query_param '" +:+ name +:+ "'"
  end.

Definition extraction_violation (c : Credential) (e : ExtractionError) : PluginViolation :=
  match e with
  | ExMissing => violation_new "auth.missing_credential" (credential_display c +:+ " not found in request")
  | ExEmpty => violation_new "auth.empty_credential" (credential_display c +:+ " is present but empty")
  | ExAmbiguous => violation_new "auth.ambiguous_credential" ("ambiguous credential at " +:+ credential_display c)
  | ExMalformed => violation_new "auth.malformed_credential" ("malformed credential at " +:+ credential_display c)
  | ExWrongPrefix =>
      violation_new "auth.missing_credential" (credential_display c +:+ " does not match the configured prefix")
  end.

(** [str::trim_end_matches('/')]. *)
Fixpoint trim_end_slashes (s : string) : string :=
  match s with
  | EmptyString => ""
  | String a s' =>
      match trim_end_slashes s' with
      | EmptyString => if Ascii.eqb a "/" then "" else str1 a
      | rest => String a rest
      end
  end.

(** [request_url]. *)
Definition request_url (http : HttpExtension) (external_base_url : option string) : result string string :=
  match ht_path http with
  | None => Err "the host supplied no request path, so a DPoP proof's htu cannot be checked"
  | Some path =>
      let path := before_query path in
      match external_base_url with
      | Some base => Ok (trim_end_slashes base +:+ path)
      | None =>
          match ht_scheme http, ht_host http with
          | Some scheme, Some host => Ok (scheme +:+ "://" +:+ host +:+ path)
          | _, _ =>
              Err ("the host supplied no request scheme and host, so a DPoP proof's htu "
                   +:+ "cannot be checked; set dpop.external_base_url on the issuer")
          end
      end
  end.

Definition CONFIG_ERROR : string := "auth.config_error".

(** What a handler returns: a denial, or the payload it leaves. *)
Inductive IdentityResult : Type :=
| IdDeny (v : PluginViolation)
| IdModify (payload : IdentityPayload).

Section Handler.
Context `{Platform, Digest, Jose, HashOrder} `{!KeyMaterial} `{!JwksHost} `{!Tracing}.
Context {M G : Type} `{ReplayGuard G}.
Implicit Type x : Extensions M.

(** [extract_token]: the token the host already extracted, or the configured location's. *)
Definition extract_token (self : Resolver) (payload : IdentityPayload) x :
    result (AuthScheme * string) PluginViolation :=
  let c := lo_credential (jr_location self) in
  let pre_extracted :=
    match c with
    | CredHeader name =>
        bool_decide (id_headers payload = ∅) && negb (String.eqb (id_raw_token payload) "")
        && (is_some_and (fun source => eq_ignore_ascii_case source name) (id_source_header payload)
            || (match id_source_header payload with None => true | Some _ => false end
                && eq_ignore_ascii_case name "Authorization"))
    | _ => false
    end in
  if pre_extracted then Ok (SchemePreExtracted, id_raw_token payload)
  else
    match raw_from_ext (jr_location self) (id_headers payload) x with
    | Err e => Err (extraction_violation c e)
    | Ok raw =>
        match c with
        | CredHeader _ =>
            let '(scheme, token) := split_auth_scheme raw in
            if String.eqb token "" then Err (extraction_violation c ExEmpty) else Ok (scheme, token)
        | _ => Ok (SchemeUnspecified, raw)
        end
    end.

(** [check_key_binding]. *)
Definition check_key_binding (issuer : TrustedIssuer) (scheme : AuthScheme) (token : string) (claims : ClaimMap)
    (payload : IdentityPayload) x (replay : G) (ctx : PluginContext) (now : Z) :
    result (option KeyBinding) PopDenial * G * PluginContext :=
  let deny code reason := (Err (mkDenial code reason), replay, ctx) in
  if bool_decide (dc_mode (ti_dpop issuer) = DpopOff) then
    if bool_decide (scheme = SchemeDpop) then
      deny DPOP_INVALID
        ("issuer '" +:+ ti_issuer issuer +:+ "' is not configured for DPoP, so a token presented with the "
         +:+ "DPoP scheme cannot have its proof checked")
    else (Ok None, replay, ctx)
  else
    let cnf := claims !! "cnf" in
    match (match cnf with Some c => value_get "jkt" c ≫= as_str | None => None end) with
    | None =>
        if (if cnf is Some _ then true else false) then
          deny DPOP_INVALID
            ("the token carries a cnf claim with no usable jkt, so it is bound in a way "
             +:+ "this issuer's DPoP check cannot verify")
        else if bool_decide (scheme = SchemeDpop) then
          deny DPOP_INVALID
            "the token was presented with the DPoP scheme but is not bound to a key (no cnf.jkt)"
        else if bool_decide (dc_mode (ti_dpop issuer) = DpopRequired) then
          deny DPOP_MISSING
            ("issuer '" +:+ ti_issuer issuer +:+ "' requires DPoP-bound tokens and this token carries no cnf.jkt")
        else (Ok None, replay, ctx)
    | Some bound =>
        if bool_decide (scheme = SchemeBearer) || bool_decide (scheme = SchemeUnspecified) then
          deny DPOP_MISSING
            ("the token is bound to a key but was not presented with the DPoP scheme; present "
             +:+ "it with the DPoP scheme and a proof")
        else
          match x_http x with
          | None => deny CONFIG_ERROR "the host supplied no request line, so a DPoP proof cannot be checked"
          | Some http =>
              match ht_method http with
              | None => deny CONFIG_ERROR "the host supplied no request method, so a DPoP proof cannot be checked"
              | Some method =>
                  match request_url http (dc_external_base_url (ti_dpop issuer)) with
                  | Err reason => deny CONFIG_ERROR reason
                  | Ok url =>
                      let request :=
                        mkPopRequest (ti_issuer issuer) token bound (id_headers payload !! "dpop") method url
                          (timestamp now) in
                      match verify_in (ti_dpop issuer) replay request ctx with
                      | (Ok b, replay, ctx) => (Ok (Some b), replay, ctx)
                      | (Err d, replay, ctx) => (Err d, replay, ctx)
                      end
                  end
              end
          end
    end.

(** The violation of a token that did not validate. *)
Definition validate_violation (iss : string) (e : ValidateError) : PluginViolation :=
  match e with
  | KeysUnavailable =>
      violation_new "auth.jwks_unavailable"
        ("issuer '" +:+ iss +:+ "' has no signing keys available — initial JWKS fetch failed and refresh has not "
         +:+ "yet succeeded; check upstream IdP reachability")
  | UnknownKid (Some k) =>
      violation_new "auth.unknown_kid" ("token's header `kid` = '" +:+ k +:+ "' did not match any key in issuer's JWKS")
  | UnknownKid None =>
      violation_new "auth.unknown_kid" "token has no `kid` header; issuer's JWKS keys all require kid match"
  | NoAlgorithms =>
      violation_new "auth.no_algorithms"
        ("issuer '" +:+ iss +:+ "' accepts no signature algorithms, so no token from it can be verified; this is a "
         +:+ "configuration fault rather than a problem with the token")
  | NoAudiences =>
      violation_new CONFIG_ERROR
        ("issuer '" +:+ iss +:+ "' lists no audiences and did not set skip_audience_validation, so a token minted for any "
         +:+ "app would be accepted; this is a configuration fault discovered at request time because `audiences` is a "
         +:+ "public field, not a problem with the token")
  | UnsupportedCriticalHeader =>
      violation_new "auth.unsupported_critical_header"
        "token requires a critical JWT header extension this resolver does not implement"
  | VeJwt e =>
      match je_kind e with
      | KindProvider _ => violation_new CRYPTO_FAILED_CODE "the token signature could not be checked"
      | _ => let '(code, reason) := classify_jwt_error e in violation_new code reason
      end
  end.

(** What a request meets at the issuer: the lock of a refresh, and its times. *)
Record RefreshEnv : Type := mkRefreshEnv {
  en_lock : LockOutcome;
  en_now : Z;
  en_done_at : Z;
}.

(** Steps 2: validate, refresh where that may help, validate once more if keys were replaced. *)
Definition validate_refreshing (token : string) (issuer : TrustedIssuer) (env : RefreshEnv) :
    result ClaimMap ValidateError * TrustedIssuer :=
  let outcome := validate_token token issuer in
  let refresh urgency := refresh_issuer issuer urgency (en_lock env) (en_now env) (en_done_at env) in
  let '(refreshed, issuer') :=
    match outcome with
    | Err (UnknownKid _) | Err KeysUnavailable => refresh Required
    | _ =>
        if is_stale (ti_refresh issuer) (refresh_interval (ti_source issuer)) (en_now env)
        then refresh Opportunistic else (false, issuer)
    end in
  (if refreshed then validate_token token issuer' else outcome, issuer').

Definition mapping_failed (role : TokenRole) : PluginViolation :=
  let tail := "resolved nothing. Raise the log level to debug to see which fields and which paths were tried" in
  violation_new "auth.mapping_failed"
    (match role with
     | RoleClient =>
         "the claim map produced no client: no candidate resolved for the client id, or a field declaring "
         +:+ "`on_missing: deny` " +:+ tail
     | RoleCallerWorkload =>
         "the claim map produced no workload: no candidate resolved to a `spiffe://` identity carrying a trust domain, "
         +:+ "which every candidate must, or a field declaring `on_missing: deny` " +:+ tail
     | _ =>
         "the claim map produced no subject: no candidate resolved for the subject id, or a field declaring "
         +:+ "`on_missing: deny` " +:+ tail
     end).

Definition bind_subject (s : SubjectExtension) (kb : option KeyBinding) : SubjectExtension :=
  mkSubject (sj_id s) (sj_subject_type s) (sj_roles s) (sj_permissions s) (sj_teams s) (sj_claims s) kb.

Definition bind_client (c : ClientExtension) (kb : option KeyBinding) : ClientExtension :=
  mkClient (cl_client_id c) (cl_client_name c) (cl_trust_level c) (cl_authorized_scopes c) (cl_authorized_audiences c)
    (cl_roles c) (cl_permissions c) (cl_teams c) (cl_claims c) kb.

Definition bind_workload (w : WorkloadIdentity) (kb : option KeyBinding) : WorkloadIdentity :=
  mkWorkload (wi_spiffe_id w) (wi_trust_domain w) (wi_attested_at w) (wi_attestor w) (wi_selectors w) (wi_client_id w) kb.

(** The identity slots of the payload, as step 4 leaves them. *)
Definition set_identity (p : IdentityPayload) (subject : option SubjectExtension) (client : option ClientExtension)
    (workload : option WorkloadIdentity) : IdentityPayload :=
  mkIdentity (id_raw_token p) (id_source p) (id_source_header p) (id_headers p) (id_client_host p) (id_client_port p)
    subject client workload (id_delegation p) (id_raw_credentials p) (id_resolved_at p) (id_raw_claims p)
    (id_credential_declined p).

Definition map_role (self : Resolver) (claims : ClaimMap) (kb : option KeyBinding) (p : IdentityPayload) :
    result IdentityPayload PluginViolation :=
  match jr_role self with
  | RoleUser =>
      match map_subject (jr_claim_mapper self) claims with
      | Some s => Ok (set_identity p (Some (bind_subject s kb)) (id_client p) (id_caller_workload p))
      | None => Err (mapping_failed (jr_role self))
      end
  | RoleClient =>
      match map_client (jr_claim_mapper self) claims with
      | Some c => Ok (set_identity p (id_subject p) (Some (bind_client c kb)) (id_caller_workload p))
      | None => Err (mapping_failed (jr_role self))
      end
  | RoleCallerWorkload =>
      match map_workload (jr_claim_mapper self) claims with
      | Some w => Ok (set_identity p (id_subject p) (id_client p) (Some (bind_workload w kb)))
      | None => Err (mapping_failed (jr_role self))
      end
  | RoleCustom _ => Err (violation_new "auth.misconfigured" "role: Custom(...) is not supported")
  end.

(** Step 5: the raw token under its role, the time and the claims. *)
Definition stash_token (self : Resolver) (token : string) (claims : ClaimMap) (now : DateTime) (p : IdentityPayload) :
    IdentityPayload :=
  let kind := match jr_role self with RoleCallerWorkload => KindSpiffeJwt | _ => KindJwt end in
  let creds := default (mkRawCredentials ∅ ∅) (id_raw_credentials p) in
  let creds :=
    mkRawCredentials (<[jr_role self := mkInbound token (lo_credential (jr_location self)) kind]> (rc_inbound_tokens creds))
      (rc_delegated_tokens creds) in
  mkIdentity (id_raw_token p) (id_source p) (id_source_header p) (id_headers p) (id_client_host p) (id_client_port p)
    (id_subject p) (id_client p) (id_caller_workload p) (id_delegation p) (Some creds) (Some now) claims
    (id_credential_declined p).

(** [HookHandler::handle]. The result, the issuer it dealt with as it left it, the guard and
    the context. *)
Definition handle (self : Resolver) (payload : IdentityPayload) x (replay : G) (ctx : PluginContext) (env : RefreshEnv)
    (now : DateTime) : IdentityResult * option TrustedIssuer * G * PluginContext :=
  match extract_token self payload x with
  | Err v => (IdDeny v, None, replay, ctx)
  | Ok (scheme, token) =>
      match peek_issuer token with
      | None =>
          (IdDeny (violation_new "auth.malformed_credential" "JWT not well-formed or missing `iss` claim"),
           None, replay, ctx)
      | Some iss =>
          match List.find (fun i => String.eqb (ti_issuer i) iss) (jr_trusted_issuers self) with
          | None =>
              (IdDeny (violation_new "auth.untrusted_issuer"
                         ("issuer '" +:+ iss +:+ "' is not in the trusted-issuer list")), None, replay, ctx)
          | Some issuer =>
              let '(outcome, issuer') := validate_refreshing token issuer env in
              match outcome with
              | Err e => (IdDeny (validate_violation iss e), Some issuer', replay, ctx)
              | Ok claims =>
                  match check_key_binding issuer scheme token claims payload x replay ctx now with
                  | (Err d, replay, ctx) =>
                      (IdDeny (violation_new (pd_code d) (pd_reason d)), Some issuer', replay, ctx)
                  | (Ok kb, replay, ctx) =>
                      match map_role self claims kb payload with
                      | Err v => (IdDeny v, Some issuer', replay, ctx)
                      | Ok updated =>
                          (IdModify (stash_token self token claims now updated), Some issuer', replay, ctx)
                      end
                  end
              end
          end
      end
  end.
End Handler.

(** ** What an accepted token was checked for *)

Section Accepted.
Context `{Platform, Digest, Jose, HashOrder} `{!KeyMaterial} `{!JwksHost} `{!Tracing}.
Context {M G : Type} `{ReplayGuard G}.
Implicit Type x : Extensions M.

(** The claims of a token that decodes with a key the issuer holds for the token's [kid], under
    settings that name this issuer, its algorithms and its audiences; no critical extension. *)
Definition verified (issuer : TrustedIssuer) (token : string) (claims : ClaimMap) : Prop :=
  exists alg kid crit jwk key,
    decode_header token = Ok (alg, kid, crit, jwk) /\ has_unsupported_critical_extensions crit = false
    /\ keystore_select (ti_keys issuer) kid = Some key
    /\ ti_algorithms issuer <> [] /\ (ti_skip_audience_validation issuer = true \/ ti_audiences issuer <> [])
    /\ decode_claims token key (token_validation issuer) = Ok claims.

Lemma validate_token_ok issuer token claims : validate_token token issuer = Ok claims -> verified issuer token claims.
Proof.
  unfold validate_token, verified. destruct (decode_header token) as [[[[alg kid] crit] jwk]|]; [|done].
  destruct (has_unsupported_critical_extensions crit) eqn:Ec; [done|]. destruct (keystore_is_empty _); [done|].
  destruct (keystore_select (ti_keys issuer) kid) as [key|] eqn:Ek; [|done].
  destruct (ti_algorithms issuer) as [|a l] eqn:Ea; [done|]. rewrite <- Ea.
  destruct (negb (ti_skip_audience_validation issuer) && bool_decide (ti_audiences issuer = [])) eqn:Eu; [done|].
  destruct (decode_claims token key (token_validation issuer)) as [c|] eqn:Ed; [|done]. intros [= <-].
  exists alg, kid, crit, jwk, key. split_and!; try done; [by rewrite Ea|].
  destruct (ti_skip_audience_validation issuer); [by left|right]. cbn [negb andb] in Eu. by apply bool_decide_eq_false in Eu.
Qed.

(** What an issuer's settings are, whatever its keys. *)
Definition same_settings (i j : TrustedIssuer) : Prop :=
  ti_issuer i = ti_issuer j /\ ti_audiences i = ti_audiences j
  /\ ti_skip_audience_validation i = ti_skip_audience_validation j /\ ti_algorithms i = ti_algorithms j
  /\ ti_leeway_seconds i = ti_leeway_seconds j /\ ti_dpop i = ti_dpop j /\ ti_source i = ti_source j.

Lemma refresh_locked_settings i now done_at : same_settings (refresh_locked i now done_at).2 i.
Proof.
  unfold refresh_locked, same_settings. destruct (claim_attempt _ _ _) as [[] gate]; [|done].
  destruct (fetch_async _ _ _) as [[keys etag|]|]; done.
Qed.

Lemma refresh_issuer_settings i u lock now done_at :
  same_settings (refresh_issuer i u lock now done_at).2 i.
Proof.
  unfold refresh_issuer. destruct (refresh_interval _); [|done]. destruct lock as [keys gate|]; [|done].
  set (c := set_refresh (with_keys i keys) gate).
  destruct (negb _); [done|]. pose proof (refresh_locked_settings c now done_at) as Hs.
  by destruct (refresh_locked c now done_at) as [[? ?] i'].
Qed.

Lemma validate_refreshing_ok token issuer env claims issuer' :
  validate_refreshing token issuer env = (Ok claims, issuer') ->
  same_settings issuer' issuer /\ (verified issuer token claims \/ verified issuer' token claims).
Proof.
  unfold validate_refreshing. pose proof (refresh_issuer_settings issuer Required (en_lock env) (en_now env)
    (en_done_at env)) as Hr. pose proof (refresh_issuer_settings issuer Opportunistic (en_lock env) (en_now env)
    (en_done_at env)) as Ho.
  destruct (refresh_issuer issuer Required _ _ _) as [b1 i1], (refresh_issuer issuer Opportunistic _ _ _) as [b2 i2].
  cbn [snd] in *. destruct (validate_token token issuer) as [c|e] eqn:Ev.
  - destruct (is_stale _ _ _).
    + destruct b2; intros [= E <-]; (split; [done|]); [right; by apply validate_token_ok|left].
      apply validate_token_ok. congruence.
    + intros [= <- <-]. split; [done|]. left. by apply validate_token_ok.
  - destruct e; try (destruct (is_stale _ _ _); [destruct b2|]); try destruct b1; intros [= E <-]; try done;
      (split; [done|]); right; by apply validate_token_ok.
Qed.

(** Everything an accepted request went through. *)
Lemma handle_modify self payload x replay ctx env now p oi replay' ctx' :
  handle self payload x replay ctx env now = (IdModify p, oi, replay', ctx') ->
  exists scheme token issuer issuer' claims kb updated,
    extract_token self payload x = Ok (scheme, token)
    /\ issuer ∈ jr_trusted_issuers self /\ peek_issuer token = Some (ti_issuer issuer)
    /\ validate_refreshing token issuer env = (Ok claims, issuer') /\ oi = Some issuer'
    /\ check_key_binding issuer scheme token claims payload x replay ctx now = (Ok kb, replay', ctx')
    /\ map_role self claims kb payload = Ok updated /\ p = stash_token self token claims now updated.
Proof.
  unfold handle. destruct (extract_token self payload x) as [[scheme token]|]; [|done].
  destruct (peek_issuer token) as [iss|] eqn:Ep; [|done].
  destruct (List.find _ _) as [issuer|] eqn:Ef; [|done]. apply find_some in Ef as [Hin Hiss].
  apply String.eqb_eq in Hiss as <-.
  destruct (validate_refreshing token issuer env) as [[claims|] issuer'] eqn:Ev; [|done].
  destruct (check_key_binding _ _ _ _ _ _ _ _ _) as [[[kb|] r2] c2] eqn:Eb; [|done].
  destruct (map_role self claims kb payload) as [updated|] eqn:Em; [|done]. intros [= <- <- <- <-].
  exists scheme, token, issuer, issuer', claims, kb, updated. split_and!; try done. by apply list_elem_of_In.
Qed.

(** The identity the resolver is configured to fill, and the one it leaves as it was. *)
Definition fills_role (self : Resolver) (claims : ClaimMap) (kb : option KeyBinding) (before after : IdentityPayload) :
    Prop :=
  match jr_role self with
  | RoleUser =>
      (exists s, map_subject (jr_claim_mapper self) claims = Some s /\ id_subject after = Some (bind_subject s kb))
      /\ id_client after = id_client before /\ id_caller_workload after = id_caller_workload before
  | RoleClient =>
      (exists c, map_client (jr_claim_mapper self) claims = Some c /\ id_client after = Some (bind_client c kb))
      /\ id_subject after = id_subject before /\ id_caller_workload after = id_caller_workload before
  | RoleCallerWorkload =>
      (exists w, map_workload (jr_claim_mapper self) claims = Some w
        /\ id_caller_workload after = Some (bind_workload w kb))
      /\ id_subject after = id_subject before /\ id_client after = id_client before
  | RoleCustom _ => False
  end.

(** The tokens of a payload, by role. *)
Definition tokens_of (p : IdentityPayload) : gmap TokenRole RawInboundToken :=
  match id_raw_credentials p with Some rc => rc_inbound_tokens rc | None => ∅ end.

(** What the host gave the resolver, which it leaves as it was. *)
Definition request_of (p : IdentityPayload) :=
  (id_raw_token p, id_source p, id_source_header p, id_headers p, id_client_host p, id_client_port p,
   id_delegation p, id_credential_declined p).

Definition delegated_of (p : IdentityPayload) :=
  match id_raw_credentials p with Some rc => rc_delegated_tokens rc | None => ∅ end.

Lemma map_role_fills self claims kb p updated :
  map_role self claims kb p = Ok updated ->
  fills_role self claims kb p updated /\ id_raw_credentials updated = id_raw_credentials p
  /\ request_of updated = request_of p.
Proof.
  unfold map_role, fills_role. destruct (jr_role self); [| | |done].
  - destruct (map_subject _ _) as [s|]; [|done]. intros [= <-]. cbn. split_and!; try done. by exists s.
  - destruct (map_client _ _) as [s|]; [|done]. intros [= <-]. cbn. split_and!; try done. by exists s.
  - destruct (map_workload _ _) as [s|]; [|done]. intros [= <-]. cbn. split_and!; try done. by exists s.
Qed.

Lemma stash_tokens self token claims now p r :
  tokens_of (stash_token self token claims now p) !! r
  = if bool_decide (r = jr_role self)
    then Some (mkInbound token (lo_credential (jr_location self))
                 (match jr_role self with RoleCallerWorkload => KindSpiffeJwt | _ => KindJwt end))
    else tokens_of p !! r.
Proof.
  unfold tokens_of. cbn [id_raw_credentials stash_token]. cbn [rc_inbound_tokens].
  case_bool_decide as E; [subst r; apply lookup_insert_eq|]. rewrite lookup_insert_ne by done.
  by destruct (id_raw_credentials p).
Qed.

(** Claim C10. The resolver fills an identity only from a token it verified: read from the
    configured place, naming a trusted issuer, its signature and claims accepted by the JOSE
    library under that issuer's algorithms, audiences and name, with the key the issuer
    publishes for the token's [kid], held on arrival or after a refresh, whichever requests
    share the refresh. It writes the one identity slot of its role, mapped from those claims,
    the raw token of its role, the claims themselves and the time: the other identities, the
    other tokens, the delegation chain and what the host gave it are as they were. *)
Theorem identity_from_verified_token self payload x replay ctx env now p oi replay' ctx' :
  handle self payload x replay ctx env now = (IdModify p, oi, replay', ctx') ->
  exists scheme token issuer issuer' claims kb,
    extract_token self payload x = Ok (scheme, token)
    /\ issuer ∈ jr_trusted_issuers self /\ peek_issuer token = Some (ti_issuer issuer)
    /\ oi = Some issuer' /\ same_settings issuer' issuer
    /\ (verified issuer token claims \/ verified issuer' token claims)
    /\ fills_role self claims kb payload p
    /\ id_raw_claims p = claims /\ id_resolved_at p = Some now
    /\ request_of p = request_of payload /\ delegated_of p = delegated_of payload
    /\ forall r, option_map ri_token (tokens_of p !! r)
               = if bool_decide (r = jr_role self) then Some token else option_map ri_token (tokens_of payload !! r).
Proof.
  intros Hh. apply handle_modify in Hh
    as (scheme & token & issuer & issuer' & claims & kb & updated & Hx & Hin & Hp & Hv & -> & _ & Hm & ->).
  apply validate_refreshing_ok in Hv as [Hs Hv].
  apply map_role_fills in Hm as (Hf & Hc & Hd).
  exists scheme, token, issuer, issuer', claims, kb. split_and!; try done.
  - unfold delegated_of. cbn [stash_token id_raw_credentials rc_delegated_tokens]. rewrite Hc.
    by destruct (id_raw_credentials payload).
  - intros r. rewrite stash_tokens. unfold tokens_of. rewrite Hc. by case_bool_decide.
Qed.

(** ** Bound tokens *)

(** The key binding the payload's identity carries for the resolver's role. *)
Definition binding_of (self : Resolver) (p : IdentityPayload) : option KeyBinding :=
  match jr_role self with
  | RoleUser => id_subject p ≫= sj_key_binding
  | RoleClient => id_client p ≫= cl_key_binding
  | RoleCallerWorkload => id_caller_workload p ≫= wi_key_binding
  | RoleCustom _ => None
  end.

Lemma fills_binding self claims kb before after : fills_role self claims kb before after -> binding_of self after = kb.
Proof.
  unfold fills_role, binding_of. destruct (jr_role self); [| | |done]; intros [(s & _ & ->) _]; done.
Qed.

(** The [jkt] a token's claims bind it to. *)
Definition bound_to (claims : ClaimMap) (jkt : string) : Prop :=
  exists cnf, claims !! "cnf" = Some cnf /\ value_get "jkt" cnf = Some (JString jkt).

(** A proof of possession for this request. *)
Definition possession (issuer : TrustedIssuer) (token : string) x (payload : IdentityPayload) (now : Z) (jkt : string) :
    Prop :=
  exists http method url proof ck iat,
    x_http x = Some http /\ ht_method http = Some method
    /\ request_url http (dc_external_base_url (ti_dpop issuer)) = Ok url
    /\ proves (ti_dpop issuer)
         (mkPopRequest (ti_issuer issuer) token jkt (id_headers payload !! "dpop") method url (timestamp now)) proof ck iat
    /\ ck_thumbprint ck = jkt.

Lemma verify_in_ok config replay request ctx b r c :
  verify_in config replay request ctx = (Ok b, r, c) ->
  exists ck, check config request = Ok ck /\ b = mkKeyBinding METHOD (ck_thumbprint ck).
Proof.
  unfold verify_in, verify. destruct (guard_zero_sized replay); (destruct (check config request) as [ck|]; [|done]).
  - destruct (consume _ _ _ _ _) as [[]]; [|done]. intros [= <- _ _]. by exists ck.
  - destruct (is_some_and _ _); [intros [= <- _ _]; by exists ck|].
    destruct (consume _ _ _ _ _) as [[]]; [|done]. intros [= <- _ _]. by exists ck.
Qed.

(** The three ways a token passes. *)
Definition binding_outcome (issuer : TrustedIssuer) (scheme : AuthScheme) (token : string) (claims : ClaimMap)
    (payload : IdentityPayload) x (now : Z) (kb : option KeyBinding) : Prop :=
  (dc_mode (ti_dpop issuer) = DpopOff /\ scheme <> SchemeDpop /\ kb = None)
  \/ (dc_mode (ti_dpop issuer) = DpopOptional /\ claims !! "cnf" = None /\ scheme <> SchemeDpop /\ kb = None)
  \/ (dc_mode (ti_dpop issuer) <> DpopOff /\ (scheme = SchemeDpop \/ scheme = SchemePreExtracted)
      /\ exists jkt, bound_to claims jkt /\ possession issuer token x payload now jkt
           /\ kb = Some (mkKeyBinding METHOD jkt)).

Lemma check_key_binding_ok issuer scheme token claims payload x replay ctx now kb r c :
  check_key_binding issuer scheme token claims payload x replay ctx now = (Ok kb, r, c) ->
  binding_outcome issuer scheme token claims payload x now kb.
Proof.
  unfold check_key_binding, binding_outcome. case_bool_decide as Hm.
  { case_bool_decide; [done|]. intros [= <- _ _]. by left. }
  destruct (claims !! "cnf") as [cnf|] eqn:Ec; [destruct (value_get "jkt" cnf ≫= as_str) as [jkt|] eqn:Ej; [|done]|].
  - destruct (bool_decide (scheme = SchemeBearer)) eqn:E1; [done|].
    destruct (bool_decide (scheme = SchemeUnspecified)) eqn:E2; [done|]. cbn [orb].
    apply bool_decide_eq_false in E1, E2. destruct (x_http x) as [http|] eqn:Eh; [|done].
    destruct (ht_method http) as [method|] eqn:Em; [|done].
    destruct (request_url http _) as [url|] eqn:Eu; [|done].
    destruct (verify_in _ _ _ _) as [[[b|] r2] c2] eqn:Ev; [|done]. intros [= <- _ _].
    apply verify_in_ok in Ev as (ck & Hck & ->). apply check_ok in Hck as (proof & iat & Hp).
    pose proof Hp as (_ & _ & Ht & _). cbn [pq_bound_thumbprint] in Ht.
    right; right. split_and!; [done|destruct scheme; auto; done|]. exists jkt. split_and!; [|exists http, method, url, proof, ck, iat; done|by rewrite Ht].
    exists cnf. split; [done|]. destruct (value_get "jkt" cnf) as [[]|]; by simplify_eq/=.
  - cbn [mbind option_bind]. case_bool_decide as Hs; [done|]. case_bool_decide as Hr; [done|]. intros [= <- _ _].
    right; left. split_and!; try done. by destruct (dc_mode (ti_dpop issuer)).
Qed.

(** Claim C11. Where an issuer binds tokens to keys, the identity of a bound token is accepted
    only with a proof of possession for this very request: the token's [cnf] names a key, the
    proof is signed by that key and names this method, URL and token within its window, and
    the identity records that key. A token without a [cnf] passes only where binding is
    optional, and never under the DPoP scheme; an identity with no binding proved none. *)
Theorem bound_token_needs_proof self payload x replay ctx env now p oi replay' ctx' :
  handle self payload x replay ctx env now = (IdModify p, oi, replay', ctx') ->
  exists scheme token issuer issuer' claims,
    extract_token self payload x = Ok (scheme, token) /\ issuer ∈ jr_trusted_issuers self
    /\ peek_issuer token = Some (ti_issuer issuer) /\ oi = Some issuer' /\ same_settings issuer' issuer
    /\ (verified issuer token claims \/ verified issuer' token claims)
    /\ binding_outcome issuer scheme token claims payload x now (binding_of self p).
Proof.
  intros Hh. apply handle_modify in Hh
    as (scheme & token & issuer & issuer' & claims & kb & updated & Hx & Hin & Hp & Hv & -> & Hb & Hm & ->).
  apply validate_refreshing_ok in Hv as [Hs Hv].
  apply check_key_binding_ok in Hb. apply map_role_fills in Hm as (Hf & _).
  exists scheme, token, issuer, issuer', claims. split_and!; try done.
  replace (binding_of self (stash_token self token claims now updated)) with kb; [done|].
  symmetry. change (binding_of self (stash_token self token claims now updated)) with (binding_of self updated).
  by eapply fills_binding.
Qed.
End Accepted.

(** ** Refreshes over time *)

Section Refreshing.
Context `{Jose} `{!KeyMaterial}.

(** One refresh under the lock: what the host answers at that moment, when it starts and when
    it is done. *)
Record RefreshEvent : Type := mkEvent {
  ev_host : JwksHost;
  ev_now : Z;
  ev_done_at : Z;
}.

Definition refresh_at (e : RefreshEvent) (i : TrustedIssuer) : bool * bool * TrustedIssuer :=
  @refresh_locked _ _ (ev_host e) i (ev_now e) (ev_done_at e).

(** The fetches a sequence of refreshes starts, and the issuer it leaves. *)
Fixpoint refreshes (i : TrustedIssuer) (events : list RefreshEvent) : Z * TrustedIssuer :=
  match events with
  | [] => (0%Z, i)
  | e :: events' =>
      let '(started, _, i') := refresh_at e i in
      let '(n, last) := refreshes i' events' in
      (((if started then 1 else 0) + n)%Z, last)
  end.

(** The clock does not run backwards from [start] over the events to [finish]. *)
Fixpoint in_order (start : Z) (events : list RefreshEvent) (finish : Z) : Prop :=
  match events with
  | [] => (start <= finish)%Z
  | e :: events' => (start <= ev_now e)%Z /\ in_order (ev_now e) events' finish
  end.

Lemma in_order_le events : forall start finish, in_order start events finish -> (start <= finish)%Z.
Proof. induction events as [|e events IH]; cbn; [done|]. intros start finish [Hs Ho]. apply IH in Ho. lia. Qed.

Lemma in_order_from events start start' finish :
  (start' <= start)%Z -> in_order start events finish -> in_order start' events finish.
Proof. destruct events; cbn; intros Hs; [lia|]. intros [? ?]. split; [lia|done]. Qed.

(** A refresh that starts a fetch does so after the floor, and dates the attempt; one that does
    not leaves the issuer alone. *)
Lemma refresh_at_attempt e i started replaced i' :
  refresh_at e i = (started, replaced, i') ->
  if started
  then rg_last_attempt (ti_refresh i') = Some (ev_now e)
       /\ forall p, rg_last_attempt (ti_refresh i) = Some p ->
                   (min_refresh_interval (ti_source i) <= duration_since (ev_now e) p)%Z
  else i' = i.
Proof.
  unfold refresh_at, refresh_locked, claim_attempt.
  destruct (rg_last_attempt (ti_refresh i)) as [p|] eqn:Ep; [destruct (_ <? _)%Z eqn:Et; [by intros [= <- <- <-]|]|].
  all: destruct (fetch_async _ _ _) as [[]|]; intros [= <- <- <-]; (split; [done|]); intros q; try done.
  all: intros [= <-]; by apply Z.ltb_ge in Et.
Qed.

Lemma refresh_at_source e i started replaced i' : refresh_at e i = (started, replaced, i') -> same_settings i' i.
Proof.
  intros E. pose proof (@refresh_locked_settings _ _ (ev_host e) i (ev_now e) (ev_done_at e)) as Hs.
  unfold refresh_at in E. by rewrite E in Hs.
Qed.

(** After an attempt at [p] the fetches are the floor apart. *)
Lemma refreshes_after events : forall i p start finish n last,
  rg_last_attempt (ti_refresh i) = Some p -> (p <= start)%Z -> in_order start events finish ->
  refreshes i events = (n, last) -> (n * min_refresh_interval (ti_source i) <= finish - p)%Z.
Proof.
  induction events as [|e events IH]; intros i p start finish n last Hp Hle Ho; cbn [refreshes].
  { intros [= <- _]. cbn in Ho. lia. }
  destruct Ho as [Hs Ho]. destruct (refresh_at e i) as [[started replaced] i'] eqn:E.
  destruct (refreshes i' events) as [m last'] eqn:Er. intros [= <- _].
  pose proof (refresh_at_source _ _ _ _ _ E) as (_ & _ & _ & _ & _ & _ & Hsrc).
  apply refresh_at_attempt in E. destruct started.
  - destruct E as [Hat Hfl]. specialize (Hfl _ Hp). unfold duration_since in Hfl.
    specialize (IH _ _ _ _ _ _ Hat (Z.le_refl _) Ho Er). rewrite Hsrc in IH. lia.
  - subst i'. assert (p <= ev_now e)%Z as Hpe by lia. specialize (IH _ _ _ _ _ _ Hp Hpe Ho Er). lia.
Qed.

Lemma refreshes_bound events : forall i start finish n last,
  in_order start events finish -> refreshes i events = (n, last) ->
  (n * min_refresh_interval (ti_source i) <= finish - start + Z.max 0 (min_refresh_interval (ti_source i)))%Z.
Proof.
  induction events as [|e events IH]; intros i start finish n last Ho; cbn [refreshes].
  { intros [= <- _]. cbn in Ho. lia. }
  destruct Ho as [Hs Ho]. destruct (refresh_at e i) as [[started replaced] i'] eqn:E.
  destruct (refreshes i' events) as [m last'] eqn:Er. intros [= <- _].
  pose proof (refresh_at_source _ _ _ _ _ E) as (_ & _ & _ & _ & _ & _ & Hsrc).
  apply refresh_at_attempt in E. destruct started.
  - destruct E as [Hat _]. pose proof (refreshes_after _ _ _ _ _ _ _ Hat (Z.le_refl _) Ho Er) as Hb.
    rewrite Hsrc in Hb. lia.
  - subst i'. specialize (IH _ _ _ _ _ Ho Er). lia.
Qed.

(** ** What a refresh does to the keys *)

Lemma insert_all_some (entries : list (string * DecodingKey)) : forall m k,
  is_Some (m !! k) -> is_Some (foldl (fun (m : gmap string DecodingKey) kv => <[kv.1 := kv.2]> m) m entries !! k).
Proof.
  induction entries as [|[k' v] entries IH]; intros m k Hk; [done|]. cbn [foldl]. apply IH. cbn [fst snd].
  destruct (decide (k = k')) as [->|Hn]; [rewrite lookup_insert_eq; by eexists|by rewrite lookup_insert_ne].
Qed.

Lemma entries_nonempty e entries : keystore_is_empty (from_jwks_entries (e :: entries)) = false.
Proof.
  unfold keystore_is_empty, from_jwks_entries. cbn [ks_by_kid ks_fallback foldl]. rewrite bool_decide_false; [done|].
  intros E. destruct (insert_all_some entries (<[e.1 := e.2]> ∅) e.1) as [v Hv]; [rewrite lookup_insert_eq; by eexists|].
  by rewrite E, lookup_empty in Hv.
Qed.

Lemma built_nonempty source keys : source_build source = Ok keys -> keystore_is_empty keys = false.
Proof.
  unfold source_build. intros E.
  match type of E with (match ?c with Ok _ => _ | Err _ => _ end) = Ok _ => destruct c; [|done] end. by injection E as <-.
Qed.

(** A fetch that answers with keys answers with at least one. *)
Lemma fetched_nonempty {JH : JwksHost} source budget inm keys etag :
  fetch_async source budget inm = Ok (Fetched keys etag) -> keystore_is_empty keys = false.
Proof.
  destruct source; cbn [fetch_async].
  4: { destruct (require_https _ _); [|done]. cbn [result_map_err]. destruct (http_get _ _ _) as [| |st et body]; try done.
       destruct (_ =? _)%Z; [done|]. destruct (negb _); [done|]. destruct (jwkset_from_body _) as [ks|]; [|done].
       destruct (omap jwks_entry ks) as [|e l]; [done|]. intros [= <- _]. apply entries_nonempty. }
  all: match goal with |- context [source_build ?s] => destruct (source_build s) eqn:E; [|done] end.
  all: intros [= <- _]; by eapply built_nonempty.
Qed.

(** The keys are those held before, or the whole of one answer of the source. *)
Definition keys_from (events : list RefreshEvent) (before after : TrustedIssuer) : Prop :=
  ti_keys after = ti_keys before
  \/ exists e inm etag, e ∈ events
       /\ @fetch_async _ _ (ev_host e) (ti_source before) RequestPath inm = Ok (Fetched (ti_keys after) etag).

Lemma refresh_at_keys e i started replaced i' :
  refresh_at e i = (started, replaced, i') ->
  ti_keys i' = ti_keys i
  \/ exists inm etag, @fetch_async _ _ (ev_host e) (ti_source i) RequestPath inm = Ok (Fetched (ti_keys i') etag).
Proof.
  unfold refresh_at, refresh_locked. destruct (claim_attempt _ _ _) as [[] gate]; [|intros [= _ _ <-]; by left].
  cbn [ti_source set_refresh]. destruct (fetch_async _ _ _) as [[keys etag|]|] eqn:E; intros [= _ _ <-]; [|by left|by left].
  right. by exists (rg_etag gate), etag.
Qed.

Lemma refreshes_keys events : forall i n last,
  refreshes i events = (n, last) -> same_settings last i /\ keys_from events i last.
Proof.
  induction events as [|e events IH]; intros i n last; cbn [refreshes]; [intros [= _ <-]; split; [done|by left]|].
  destruct (refresh_at e i) as [[started replaced] i'] eqn:E. destruct (refreshes i' events) as [m last'] eqn:Er.
  intros [= _ <-]. apply IH in Er as [Hs Hk]. pose proof (refresh_at_source _ _ _ _ _ E) as Hs'.
  split; [unfold same_settings in *; naive_solver congruence|]. assert (ti_source i' = ti_source i) as Hsrc by apply Hs'.
  unfold keys_from in *. rewrite Hsrc in Hk.
  destruct Hk as [Hk|(e' & inm & et & Hin & Hf)]; [|right; exists e', inm, et; split; [by apply list_elem_of_further|done]].
  apply refresh_at_keys in E as [E|(inm & et & E)]; [left; by rewrite Hk|right].
  exists e, inm, et. rewrite Hk. split; [apply list_elem_of_here|done].
Qed.

(** Claim C22. However often requests ask for an issuer's keys to be refreshed, and whatever its
    endpoint answers, the fetches are kept the configured floor apart: their number times the
    floor is at most the time elapsed plus one floor. The settings of the issuer stay, its keys
    are those it had or the whole of one answer, never a mixture, and an issuer that has keys is
    never left without. *)
Theorem refresh_floor i events start finish n last :
  in_order start events finish -> refreshes i events = (n, last) ->
  (n * min_refresh_interval (ti_source i) <= finish - start + Z.max 0 (min_refresh_interval (ti_source i)))%Z
  /\ same_settings last i /\ keys_from events i last
  /\ (keystore_is_empty (ti_keys i) = false -> keystore_is_empty (ti_keys last) = false).
Proof.
  intros Ho Hr. pose proof (refreshes_keys _ _ _ _ Hr) as [Hs Hk].
  split_and!; [by eapply refreshes_bound|done|done|]. intros Hne.
  destruct Hk as [->|(e & inm & et & _ & Hf)]; [done|by eapply fetched_nonempty].
Qed.
End Refreshing.

(** ** A loaded resolver *)

Section Loaded.
Context `{Jose} `{!KeyMaterial} `{!JwksHost}.

(** An issuer that has the settings of a configured one. *)
Definition made_from (c : TrustedIssuerConfig) (i : TrustedIssuer) : Prop := i = issuer_with c (ti_keys i) (ti_refresh i).

(** What the shape checks of a configured issuer leave. *)
Definition valid_issuer (c : TrustedIssuerConfig) : Prop :=
  tc_algorithms c <> []
  /\ (tc_skip_audience_validation c = true <-> tc_audiences c = [])
  /\ (dc_mode (tc_dpop c) <> DpopOff ->
      dc_algorithms (tc_dpop c) <> [] /\ Forall (fun a => is_asymmetric a = true) (dc_algorithms (tc_dpop c))
      /\ dc_iat_window_seconds (tc_dpop c) <> 0%Z
      /\ (dc_iat_window_seconds (tc_dpop c) <= MAX_DPOP_IAT_WINDOW_SECONDS)%Z).

Lemma dpop_validate_ok d :
  dpop_validate d = Ok tt -> dc_mode d <> DpopOff ->
  dc_algorithms d <> [] /\ Forall (fun a => is_asymmetric a = true) (dc_algorithms d)
  /\ dc_iat_window_seconds d <> 0%Z /\ (dc_iat_window_seconds d <= MAX_DPOP_IAT_WINDOW_SECONDS)%Z.
Proof.
  unfold dpop_validate. intros E Hm. rewrite bool_decide_false in E by done.
  destruct (dc_algorithms d) as [|a l] eqn:Ea; [done|]. destruct (List.find _ _) eqn:Ef; [done|].
  destruct (_ || _) eqn:Ew; [done|]. apply orb_false_iff in Ew as [Ez Ew]. apply Z.eqb_neq in Ez. apply Z.ltb_ge in Ew.
  split_and!; try done. apply Forall_forall. intros b Hb. apply list_elem_of_In in Hb.
  pose proof (find_none _ _ Ef _ Hb) as Hn. by apply negb_false_iff in Hn.
Qed.

Lemma issuer_validate_ok c : issuer_validate c = Ok tt -> valid_issuer c.
Proof.
  unfold issuer_validate, valid_issuer. destruct (String.eqb _ _); [done|].
  destruct (tc_algorithms c) eqn:Ea; [done|]. destruct (tc_skip_audience_validation c); cbn [negb andb].
  - case_bool_decide as Hn; cbn [negb]; [|done]. intros E. split_and!; [done|done|].
    destruct (dpop_validate (tc_dpop c)) as [[]|] eqn:Ed; [|done]. by apply dpop_validate_ok.
  - case_bool_decide as Hn; [done|]. intros E. split_and!; [done|by split|].
    destruct (dpop_validate (tc_dpop c)) as [[]|] eqn:Ed; [|done]. by apply dpop_validate_ok.
Qed.

Lemma duplicate_issuer_none issuers : forall seen,
  duplicate_issuer seen issuers = None ->
  NoDup (map tc_issuer issuers) /\ forall c, c ∈ issuers -> existsb (String.eqb (tc_issuer c)) seen = false.
Proof.
  induction issuers as [|c issuers IH]; intros seen; cbn [duplicate_issuer map].
  { intros _. split; [constructor|]. intros c Hc. by apply not_elem_of_nil in Hc. }
  destruct (existsb _ seen) eqn:Es; [done|]. intros E. apply IH in E as [Hn Hs]. split.
  - constructor; [|done]. intros Hin. apply list_elem_of_fmap in Hin as (c' & Hc' & Hin).
    apply Hs in Hin. cbn [existsb] in Hin. by rewrite <- Hc', String.eqb_refl in Hin.
  - intros c' Hc'. apply elem_of_cons in Hc' as [->|Hc']; [done|]. apply Hs in Hc'. cbn [existsb] in Hc'.
    apply orb_false_iff in Hc' as [_ Hc']. exact Hc'.
Qed.

(** An issuer as the resolver holds it: configured and checked, with a key where one is at hand. *)
Definition held_issuer (raws : list TrustedIssuerConfig) (i : TrustedIssuer) : Prop :=
  exists c, c ∈ raws /\ made_from c i /\ valid_issuer c
    /\ (needs_async (tc_decoding_key c) = false -> keystore_is_empty (ti_keys i) = false).

Lemma held_issuer_more raws c i : held_issuer raws i -> held_issuer (c :: raws) i.
Proof. intros (c' & Hin & Hr). exists c'. split; [by apply list_elem_of_further|done]. Qed.

Lemma issuer_build_ok c i :
  issuer_build c = Ok i -> made_from c i /\ valid_issuer c /\ keystore_is_empty (ti_keys i) = false.
Proof.
  unfold issuer_build. destruct (issuer_validate c) as [[]|] eqn:Ev; [|done]. cbn [result_map_err].
  destruct (source_build _) as [keys|] eqn:Eb; [|done]. cbn [result_map_err]. intros [= <-].
  split_and!; [done|by apply issuer_validate_ok|by eapply built_nonempty].
Qed.

Lemma partition_issuers_ok raws : forall built pending b p,
  partition_issuers raws built pending = Ok (b, p) ->
  exists b' p', b = built ++ b' /\ p = pending ++ p'
    /\ Permutation (map ti_issuer b' ++ map tc_issuer p') (map tc_issuer raws)
    /\ Forall (held_issuer raws) b'
    /\ Forall (fun c => c ∈ raws /\ valid_issuer c /\ needs_async (tc_decoding_key c) = true) p'.
Proof.
  induction raws as [|c raws IH]; intros built pending b p; cbn [partition_issuers].
  { intros [= <- <-]. exists [], []. rewrite !app_nil_r. split_and!; try done; constructor. }
  destruct (issuer_validate c) as [[]|] eqn:Ev; [|done]. cbn [result_map_err]. apply issuer_validate_ok in Ev.
  destruct (needs_async (tc_decoding_key c)) eqn:Ea.
  - intros E. apply IH in E as (b' & p' & -> & -> & Hp & Hb & Hq). exists b', (c :: p'). split_and!.
    + done.
    + by rewrite <- app_assoc.
    + cbn [map]. rewrite <- Permutation_middle. by constructor.
    + eapply Forall_impl; [exact Hb|]. apply held_issuer_more.
    + constructor; [split_and!; [apply list_elem_of_here|done|done]|]. eapply Forall_impl; [exact Hq|].
      intros c' (? & ? & ?). split_and!; [by apply list_elem_of_further|done|done].
  - destruct (issuer_build c) as [i|] eqn:Ei; [|done]. cbn [result_map_err]. apply issuer_build_ok in Ei as (Hm & _ & Hk).
    intros E. apply IH in E as (b' & p' & -> & -> & Hp & Hb & Hq). exists (i :: b'), p'. split_and!.
    + by rewrite <- app_assoc.
    + done.
    + cbn [map app]. replace (ti_issuer i) with (tc_issuer c) by (by rewrite Hm). by constructor.
    + constructor; [exists c; split_and!; [apply list_elem_of_here|done|done|done]|].
      eapply Forall_impl; [exact Hb|]. apply held_issuer_more.
    + eapply Forall_impl; [exact Hq|]. intros c' (? & ? & ?). split_and!; [by apply list_elem_of_further|done|done].
Qed.

Lemma booted_made now c : made_from c (booted now c (issuer_build_async c Startup)).
Proof.
  unfold booted, issuer_build_async. destruct (issuer_validate c); [|done]. cbn [result_map_err].
  by destruct (fetch_async _ _ _) as [[]|].
Qed.

Lemma initialize_with_ok now pending issuers loaded :
  initialize_with now pending issuers = Ok loaded ->
  loaded = issuers ++ map (fun c => booted now c (issuer_build_async c Startup)) pending.
Proof.
  unfold initialize_with. destruct (omap _ _); [|done]. intros [= <-]. by rewrite map_map.
Qed.

(** What a resolver under DPoP runs as: it can read the headers, keeps its context, and reads
    its token from a header. *)
Definition dpop_ready (cfg : PluginConfig) (r : Resolver) : Prop :=
  "read_headers" ∈ pg_capabilities cfg /\ keeps_context (pg_mode cfg) = true
  /\ exists name, lo_credential (jr_location r) = CredHeader name.

Lemma validate_no_fault c i token :
  made_from c i -> valid_issuer c ->
  validate_token token i <> Err NoAlgorithms /\ validate_token token i <> Err NoAudiences.
Proof.
  intros -> (Ha & Hs & _). unfold validate_token. cbn [ti_algorithms ti_audiences ti_skip_audience_validation issuer_with].
  destruct (decode_header token) as [[[[? kid] ?] ?]|]; [|done]. destruct (has_unsupported_critical_extensions _); [done|].
  destruct (keystore_is_empty _); [done|]. destruct (keystore_select _ _); [|done].
  destruct (tc_algorithms c); [done|]. destruct (negb _ && _) eqn:E; [|by destruct (decode_claims _ _ _)].
  apply andb_true_iff in E as [E1 E2]. apply negb_true_iff in E1. apply bool_decide_eq_true in E2. apply Hs in E2. congruence.
Qed.

(** The parts of a construction that succeeded. *)
Lemma resolver_new_ok cfg typed r :
  resolver_new cfg typed = Ok r ->
  duplicate_issuer [] (jc_trusted_issuers typed) = None /\ jc_trusted_issuers typed <> []
  /\ check_dpop_plugin cfg typed = Ok tt
  /\ partition_issuers (jc_trusted_issuers typed) [] [] = Ok (jr_trusted_issuers r, jr_pending_jwks r)
  /\ jr_role r = jc_role typed /\ (forall n, jr_role r <> RoleCustom n)
  /\ result_is_ok (compiled_role (ccm_map (jr_claim_mapper r)) (jr_role r)) = true
  /\ lo_credential (jr_location r) = resolver_credential typed /\ location_validate (jr_location r) = Ok tt.
Proof.
  unfold resolver_new. destruct (_ && _); [done|]. destruct (duplicate_issuer _ _); [done|].
  destruct (jc_trusted_issuers typed) as [|c l] eqn:Ei; [done|]. rewrite <- Ei.
  destruct (check_dpop_plugin cfg typed) as [[]|]; [|done].
  destruct (partition_issuers _ _ _) as [[b p]|] eqn:Ep; [|done].
  assert (forall n, (if jc_role typed is RoleCustom _ then true else false) = false -> jc_role typed <> RoleCustom n) as Hr
    by (by destruct (jc_role typed)).
  destruct (if jc_role typed is RoleCustom _ then true else false); [done|].
  destruct (resolver_overrides typed) as [o|]; [|done]. destruct (resolver_map typed) as [m|]; [|done].
  destruct (compiled_role _ _) eqn:Er; [|done]. destruct (location_validate _) as [[]|] eqn:El; [|done].
  cbn [result_map_err]. destruct (_ && _); [done|]. intros [= <-]. cbn.
  split_and!; try done; [by rewrite Ei|intros n; by apply Hr|by rewrite Er].
Qed.

Lemma check_dpop_plugin_ok cfg typed r c :
  check_dpop_plugin cfg typed = Ok tt -> lo_credential (jr_location r) = resolver_credential typed ->
  c ∈ jc_trusted_issuers typed -> dc_mode (tc_dpop c) <> DpopOff -> dpop_ready cfg r.
Proof.
  unfold check_dpop_plugin, dpop_ready, resolver_credential. intros E -> Hin Hm.
  destruct (List.find dpop_on _) as [i|] eqn:Ef.
  - case_bool_decide as Hh; cbn [negb] in E; [|done]. destruct (keeps_context _); cbn [negb] in E; [|done].
    split_and!; [done|done|]. destruct (jc_credential typed) as [[]|]; try done; by eexists.
  - apply list_elem_of_In in Hin. pose proof (find_none _ _ Ef _ Hin) as Hn. unfold dpop_on in Hn.
    rewrite bool_decide_false in Hn by done. done.
Qed.

(** A resolver that loads has sound issuers: at least one, each by a name of its own,
    exactly those configured, with the configured settings. Each accepts some algorithm and
    either lists audiences or is told to skip them, so validation never meets the two faults it
    guards against; each has a key unless its keys come from a URL; where tokens are bound to
    keys the proofs use public-key algorithms within a bounded window, and the plugin reads a
    header it may read, in a mode that keeps its context. The claim map has a section for the
    resolver's role. *)
Theorem loaded_resolver_sound cfg typed r now issuers :
  resolver_new cfg typed = Ok r -> initialize_with now (jr_pending_jwks r) (jr_trusted_issuers r) = Ok issuers ->
  issuers <> [] /\ NoDup (map ti_issuer issuers)
  /\ Permutation (map ti_issuer issuers) (map tc_issuer (jc_trusted_issuers typed))
  /\ Forall (fun i => held_issuer (jc_trusted_issuers typed) i
                     /\ (dc_mode (ti_dpop i) <> DpopOff -> dpop_ready cfg r)
                     /\ forall token, validate_token token i <> Err NoAlgorithms /\ validate_token token i <> Err NoAudiences) issuers
  /\ result_is_ok (compiled_role (ccm_map (jr_claim_mapper r)) (jr_role r)) = true.
Proof.
  intros Hr Hi. apply resolver_new_ok in Hr as (Hd & Hne & Hc & Hp & _ & _ & Hrole & Hloc & _).
  apply initialize_with_ok in Hi as ->. apply partition_issuers_ok in Hp as (b & p & -> & -> & Hperm & Hb & Hq).
  apply duplicate_issuer_none in Hd as [Hnd _]. cbn [app].
  set (boot := fun c => booted now c (issuer_build_async c Startup)).
  assert (map ti_issuer (b ++ map boot p) = map ti_issuer b ++ map tc_issuer p) as Hm.
  { rewrite map_app, map_map. f_equal. apply map_ext. intros c. unfold boot. by rewrite (booted_made now c). }
  rewrite Hm. split_and!; [|by rewrite Hperm|done| |done].
  - intros E. apply Hne. apply (f_equal (map ti_issuer)) in E. rewrite Hm in E. rewrite E in Hperm.
    apply Permutation_nil in Hperm. by destruct (jc_trusted_issuers typed).
  - assert (Forall (held_issuer (jc_trusted_issuers typed)) (b ++ map boot p)) as Hall.
    { apply Forall_app. split; [done|]. apply Forall_map. eapply Forall_impl; [exact Hq|].
      intros c (Hin & Hv & Ha). exists c. split_and!; [done|apply booted_made|done|]. by rewrite Ha. }
    eapply Forall_impl; [exact Hall|]. intros i Hi. split; [done|]. destruct Hi as (c & Hin & Hmade & Hv & _).
    split; [rewrite Hmade; by eapply check_dpop_plugin_ok|]. intros token. by apply validate_no_fault with c.
Qed.
End Loaded.

(** ** Examples *)

Section Examples.
#[local] Instance jwt_digest : Digest := {| sha256 s := Ok s |}.
#[local] Instance quiet_tracing : Tracing := false.
#[local] Existing Instance ascii_platform.
#[local] Existing Instance map_order.

Definition idp : string := "https://idp".
Definition access_token : string := "h.body.s".

(** A library under which the sample token is alice's, bound to the sample key. *)
Definition jwt_jose : Jose := {|
  DecodingKey := unit;
  Jwk := unit;
  b64url_decode := Some;
  b64url := fun s => s;
  json_from_slice := fun s =>
    if String.eqb s "body" then Some (JObject [("iss", JString idp)]) else Some sample_header;
  decode_header := fun _ => Ok (ES256, None, None, Some tt);
  key_from_jwk := fun _ => Ok tt;
  decode_proof := fun _ _ _ => Ok (mkProofClaims "GET" "https://API.example:443/x" 100 "j1" (Some access_token));
  decode_claims := fun _ _ _ =>
    Ok (list_to_map [("sub", JString "alice"); ("iss", JString idp); ("cnf", JObject [("jkt", JString "null")])]);
|}.

#[local] Existing Instance jwt_jose.

#[local] Instance jwt_keys : KeyMaterial := {|
  key_from_rsa_pem := fun _ => Err (mkJwtError KindOther "not RSA");
  key_from_ec_pem := fun _ => Ok tt;
  key_from_ed_pem := fun _ => Ok tt;
  key_from_secret := fun _ => tt;
  jwk_from_value := fun _ => Ok tt;
  fs_read := fun _ => Err "not found";
|}.

(** An endpoint that publishes one key. *)
#[local] Instance jwt_host : JwksHost := {|
  is_header_value := fun _ => true;
  http_get := fun _ _ _ => HttpResponse 200 None "keys";
  jwkset_from_body := fun _ => Ok [mkJwkEntry (Some true) (Some "k1") tt];
|}.

Definition jwt_plugin : PluginConfig :=
  mkPluginConfig "jwt" "identity/jwt" None None None [] Sequential 100 OeFail {["read_headers"]} [] [] None.

Definition bound_issuer : TrustedIssuerConfig :=
  mkIssuerConfig idp ["api"] false [ES256] (SrcPem "pem") 0 (mkDpopConfig DpopRequired [ES256] 60 None).

Definition remote_issuer : TrustedIssuerConfig :=
  mkIssuerConfig "https://remote" [] true [RS256] (SrcJwksUrl "https://remote/jwks" false 600 30) 0 DpopConfig_default.

Definition jwt_config : JwtIdentityResolverConfig :=
  mkResolverConfig [remote_issuer; bound_issuer] RoleUser None None None None None.

Definition bound_trusted : TrustedIssuer := issuer_with bound_issuer (single_fallback tt) RefreshGate_default.

Definition remote_trusted : TrustedIssuer :=
  issuer_with remote_issuer (from_jwks_entries [("k1", tt)]) (mark_success RefreshGate_default 0).

Definition jwt_resolver : Resolver :=
  mkResolver "jwt" [remote_trusted; bound_trusted] [] standard_configured RoleUser
    (mkLocation (CredHeader "Authorization") None).


(** Three refreshes ten seconds apart under a floor of thirty: one fetch. *)
Lemma refresh_floor_witness :
  let at_ t := mkEvent jwt_host (from_secs t) (from_secs t) in
  exists last, refreshes remote_trusted [at_ 40; at_ 50; at_ 60]%Z = (1%Z, last)
    /\ (1 * from_secs 30 <= from_secs 60 - from_secs 40 + from_secs 30)%Z
    /\ keystore_is_empty (ti_keys last) = false.
Proof.
  intros at_. eexists.
  assert (refreshes remote_trusted [at_ 40; at_ 50; at_ 60]%Z
          = (1%Z, set_refresh remote_trusted
                    (mkGate (Some (from_secs 40)) (Some (from_secs 40)) 2 None))) as E by (vm_compute; reflexivity).
  split; [exact E|].
  destruct (refresh_floor remote_trusted [at_ 40; at_ 50; at_ 60]%Z (from_secs 40) (from_secs 60) 1 _
              ltac:(vm_compute; intuition discriminate) E) as (Hb & _ & _ & Hk).
  split; [exact Hb|]. apply Hk. vm_compute. reflexivity.
Defined.

(** A request that presents the bound token with its proof. *)
Definition signed_in : IdentityPayload :=
  mkIdentity "" SrcBearer None (list_to_map [("authorization", "DPoP h.body.s"); ("dpop", "h.p.s")])
    None None None None None None None None ∅ false.

Definition jwt_request : Extensions unit :=
  mkExtensions None None
    (Some (mkHttp ∅ None ∅ ∅ None (Some "GET") (Some "/x") None (Some "api.example") (Some "https")))
    None None None None None None None None None None None None None false false false TransportNotInstalled EffectDetached.

(** Another request has replaced the keys of the issuer meanwhile. *)
Definition shared_env : RefreshEnv :=
  mkRefreshEnv (LockHeld (from_jwks_entries [("k2", tt)]) (mark_success RefreshGate_default 0)) 0 0.
Definition request_time : DateTime := from_secs 100.

(** Alice's identity, from her verified token. *)
Lemma identity_from_verified_token_witness :
  exists p oi replay ctx,
    handle jwt_resolver signed_in jwt_request sample_guard fresh_context shared_env request_time
      = (IdModify p, oi, replay, ctx)
    /\ exists scheme token issuer issuer' claims,
         extract_token jwt_resolver signed_in jwt_request = Ok (scheme, token) /\ issuer ∈ [remote_trusted; bound_trusted]
         /\ oi = Some issuer' /\ (verified issuer token claims \/ verified issuer' token claims) /\ id_raw_claims p = claims.
Proof.
  assert (exists p oi replay ctx,
    handle jwt_resolver signed_in jwt_request sample_guard fresh_context shared_env request_time
      = (IdModify p, oi, replay, ctx)) as (p & oi & replay & ctx & E) by (do 4 eexists; vm_compute; reflexivity).
  exists p, oi, replay, ctx. split; [exact E|].
  destruct (identity_from_verified_token jwt_resolver signed_in jwt_request sample_guard fresh_context shared_env
              request_time p oi replay ctx E)
    as (scheme & token & issuer & issuer' & claims & kb & Hx & Hin & _ & Ho & _ & Hv & _ & Hc & _).
  exists scheme, token, issuer, issuer', claims. exact (conj Hx (conj Hin (conj Ho (conj Hv Hc)))).
Defined.

(** Her token is bound, and the request proves the key. *)
Lemma bound_token_needs_proof_witness :
  exists p oi replay ctx,
    handle jwt_resolver signed_in jwt_request sample_guard fresh_context shared_env request_time
      = (IdModify p, oi, replay, ctx)
    /\ exists scheme token issuer claims,
         extract_token jwt_resolver signed_in jwt_request = Ok (scheme, token) /\ issuer ∈ [remote_trusted; bound_trusted]
         /\ binding_outcome issuer scheme token claims signed_in jwt_request request_time (binding_of jwt_resolver p).
Proof.
  assert (exists p oi replay ctx,
    handle jwt_resolver signed_in jwt_request sample_guard fresh_context shared_env request_time
      = (IdModify p, oi, replay, ctx)) as (p & oi & replay & ctx & E) by (do 4 eexists; vm_compute; reflexivity).
  exists p, oi, replay, ctx. split; [exact E|].
  destruct (bound_token_needs_proof jwt_resolver signed_in jwt_request sample_guard fresh_context shared_env
              request_time p oi replay ctx E)
    as (scheme & token & issuer & issuer' & claims & Hx & Hin & _ & _ & _ & _ & Hb).
  exists scheme, token, issuer, claims. exact (conj Hx (conj Hin Hb)).
Defined.
End Examples.
