(* ===== verification/ApiKey.v ===== *)
(** * API keys ([builtins/src/plugins/identity_api_key/])

    Key directories: the records file with its reloads, the service behind HTTP, and the cache
    in front of either; the settings of a resolver and its handler. A lookup of the file
    directory or of the cache is a sequence of atomic steps, so that concurrent lookups can be
    interleaved. *)

From Stdlib Require Import Ascii String.
From S2P Require Import Prelude RustStr F64 Json Platform Lexical Scan ExtData HttpPath Plugin Extensions Hooks Config.
From S2P Require Import DecisionCache Bridge Credential ClaimMap Jwt.

(** ** Directories ([directory.rs], [crypto.rs]) *)

(** The octets of a credential. *)
Definition PresentedKey : Type := string.

Record KeyRecord : Type := mkKeyRecord {
  kr_fields : ClaimMap;
  kr_expires_at : option DateTime;
}.

Inductive DirectoryError : Type :=
| DirUnavailable (message : string)
| DirMalformed (message : string).

Definition DirectoryAnswer : Type := result (option KeyRecord) DirectoryError.

Definition hash_credential `{Digest} (presented : PresentedKey) : result string DirectoryError :=
  match sha256 presented with Ok d => Ok d | Err _ => Err (DirUnavailable "API key hashing failed") end.

(** ** The records file ([file_directory.rs]) *)

Record FileRecord : Type := mkFileRecord {
  fr_hash : string;
  fr_expires_at : option DateTime;
  fr_fields : ClaimMap;
}.

Inductive IndexKind : Type := IndexSha256.

Record FileDirectoryConfig : Type := mkFileConfig {
  fc_path : string;
  fc_index : IndexKind;
  fc_refresh_secs : option Z;
  fc_max_staleness_secs : option Z;
}.

Inductive FileConfigError : Type :=
| CeilingBelowRefresh (ceiling refresh : Z)
| CeilingWithoutRefresh.

Definition file_config_validate (self : FileDirectoryConfig) : result unit FileConfigError :=
  match fc_refresh_secs self, fc_max_staleness_secs self with
  | Some refresh, Some ceiling =>
      if (ceiling <? refresh)%Z then Err (CeilingBelowRefresh ceiling refresh) else Ok tt
  | None, Some _ => Err CeilingWithoutRefresh
  | _, _ => Ok tt
  end.

Definition SHA256_HEX_LEN : nat := 64.

Definition normalize_digest (authored : string) (index : IndexKind) : result string string :=
  match split_once ":" authored with
  | None => Err "hash has no `<algorithm>:` prefix"
  | Some (algorithm, hex) =>
      let expected := match index with IndexSha256 => "sha256" end in
      if negb (eq_ignore_ascii_case algorithm expected)
      then Err ("hash algorithm does not match the configured '" +:+ expected +:+ "' index")
      else if negb (String.length hex =? SHA256_HEX_LEN)%nat || negb (string_forall is_ascii_hexdigit hex)
      then Err "hash is not 64 hex characters"
      else Ok (expected +:+ ":" +:+ to_ascii_lowercase hex)
  end.

Notation RecordIndex := (gmap string KeyRecord).

Inductive ReadError : Type :=
| ReadFile (message : string)
| ReadParse (message : string)
| ReadDigest (position : nat) (reason : string)
| ReadDuplicate (position : nat).

(** The loop of [read_index] over the records. *)
Fixpoint index_records (kind : IndexKind) (position : nat) (records : list FileRecord) (index : RecordIndex) :
    result RecordIndex ReadError :=
  match records with
  | [] => Ok index
  | r :: records' =>
      let? digest := result_map_err (ReadDigest position) (normalize_digest (fr_hash r) kind) in
      match index !! digest with
      | Some _ => Err (ReadDuplicate position)
      | None =>
          index_records kind (S position) records' (<[digest := mkKeyRecord (fr_fields r) (fr_expires_at r)]> index)
      end
  end.

(** [serde_yaml]'s reading of a [RecordFile]. *)
Class RecordFormat := record_file_from_str : string -> result (list FileRecord) string.

(** [read_index], on what reading the file answers. *)
Definition read_index `{RecordFormat} (config : FileDirectoryConfig) (text : result string string) :
    result RecordIndex ReadError :=
  match text with
  | Err e => Err (ReadFile e)
  | Ok text =>
      let? records := result_map_err ReadParse (record_file_from_str text) in
      index_records (fc_index config) 0 records ∅
  end.

(** What the lookups of a file directory share. *)
Record FileDirectory : Type := mkFileDirectory {
  fd_records : RecordIndex;
  fd_next_attempt_ms : Z;
  fd_loaded_at_ms : Z;
}.

Definition millis (secs : Z) : Z := saturating_mul secs 1000.

Definition file_directory_new `{RecordFormat} (config : FileDirectoryConfig) (text : result string string) :
    result FileDirectory (FileConfigError + ReadError) :=
  let? _ := result_map_err inl (file_config_validate config) in
  let? index := result_map_err inr (read_index config text) in
  Ok (mkFileDirectory index (match fc_refresh_secs config with Some s => millis s | None => usize_max end) 0).

Definition file_digest `{Digest} (config : FileDirectoryConfig) (presented : PresentedKey) : result string DirectoryError :=
  match fc_index config with
  | IndexSha256 => let? digest := hash_credential presented in Ok ("sha256:" +:+ hex_of digest)
  end.

(** Where a lookup stands, between two accesses of the shared state or of the clock. *)
Inductive FilePc : Type :=
| FpStart                                   (* about to read the clock, if reloads are configured *)
| FpDue (now : Z)                           (* about to load [next_attempt_ms] *)
| FpClaim (now due : Z)                     (* about to exchange it *)
| FpRead                                    (* about to read the file *)
| FpPublish (index : RecordIndex)           (* about to store the records *)
| FpClock                                   (* about to read the clock *)
| FpStamp (now : Z)                         (* about to store [loaded_at_ms] *)
| FpLoaded                                  (* about to load [loaded_at_ms] *)
| FpAge (loaded : Z)                        (* about to read the clock *)
| FpGet                                     (* about to load the records *)
| FpDone (answer : DirectoryAnswer).

(** [now_ms], of a clock in milliseconds. *)
Definition clamp_ms (clock : Z) : Z := Z.min clock usize_max.

(** The source measures the age once more for this text. *)
Definition stale_message (config : FileDirectoryConfig) (age ceiling : Z) : string :=
  "the records at " +:+ fc_path config +:+ " are " +:+ show_Z (age / 1000) +:+ "s stale, past the "
  +:+ show_Z ceiling +:+ "s ceiling".

(** One step of a lookup: [refresh_if_due], [reload], [staleness] and [lookup] in order. *)
Definition file_step `{Digest, RecordFormat} (config : FileDirectoryConfig) (presented : PresentedKey) (clock : Z)
    (text : result string string) (pc : FilePc) (d : FileDirectory) : FilePc * FileDirectory :=
  match pc with
  | FpStart =>
      if String.eqb presented "" then (FpDone (Ok None), d)
      else match fc_refresh_secs config with None => (FpLoaded, d) | Some _ => (FpDue (clamp_ms clock), d) end
  | FpDue now => if (now <? fd_next_attempt_ms d)%Z then (FpLoaded, d) else (FpClaim now (fd_next_attempt_ms d), d)
  | FpClaim now due =>
      if (fd_next_attempt_ms d =? due)%Z
      then (FpRead,
            mkFileDirectory (fd_records d) (saturating_add now (millis (default 0%Z (fc_refresh_secs config))))
              (fd_loaded_at_ms d))
      else (FpLoaded, d)
  | FpRead => match read_index config text with Ok index => (FpPublish index, d) | Err _ => (FpLoaded, d) end
  | FpPublish index => (FpClock, mkFileDirectory index (fd_next_attempt_ms d) (fd_loaded_at_ms d))
  | FpClock => (FpStamp (clamp_ms clock), d)
  | FpStamp now => (FpLoaded, mkFileDirectory (fd_records d) (fd_next_attempt_ms d) now)
  | FpLoaded => match fc_max_staleness_secs config with None => (FpGet, d) | Some _ => (FpAge (fd_loaded_at_ms d), d) end
  | FpAge loaded =>
      let age := Z.max 0 (clamp_ms clock - loaded) in
      let ceiling := default 0%Z (fc_max_staleness_secs config) in
      if (ceiling * 1000 <? age)%Z then (FpDone (Err (DirUnavailable (stale_message config age ceiling))), d)
      else (FpGet, d)
  | FpGet =>
      match file_digest config presented with
      | Err e => (FpDone (Err e), d)
      | Ok digest => (FpDone (Ok (fd_records d !! digest)), d)
      end
  | FpDone answer => (FpDone answer, d)
  end.

(** ** The service ([http_directory.rs]) *)

Definition ENVELOPE_FIELDS : list string := ["valid"; "reason"].

Record HttpDirectoryConfig : Type := mkHttpConfig {
  hd_url : string;
  hd_key_field : string;
  hd_valid_field : string;
  hd_timeout_secs : Z;
  hd_connect_timeout_secs : option Z;
}.

Inductive HttpConfigError : Type :=
| NotAbsoluteUrl (url : string)
| KeyFieldEmpty
| ValidFieldEmpty
| TimeoutZero.

Definition http_config_validate (self : HttpDirectoryConfig) : result unit HttpConfigError :=
  if negb (starts_with "http://" (hd_url self) || starts_with "https://" (hd_url self))
  then Err (NotAbsoluteUrl (hd_url self))
  else if String.eqb (trim (hd_key_field self)) "" then Err KeyFieldEmpty
  else if String.eqb (trim (hd_valid_field self)) "" then Err ValidFieldEmpty
  else if (hd_timeout_secs self =? 0)%Z then Err TimeoutZero
  else Ok tt.

(** [std::str::from_utf8]: is this byte sequence well-formed UTF-8? *)
Fixpoint valid_utf8 (s : string) : bool :=
  match s with
  | EmptyString => true
  | String a r =>
      if in_byte_range 0 127 a then valid_utf8 r
      else if in_byte_range 194 223 a then
        match r with String b r => in_byte_range 128 191 b && valid_utf8 r | _ => false end
      else if in_byte_range 224 239 a then
        match r with
        | String b (String c r) =>
            let '(lo, hi) :=
              if Ascii.eqb a (ascii_of_N 224) then (160, 191)%N
              else if Ascii.eqb a (ascii_of_N 237) then (128, 159)%N else (128, 191)%N in
            in_byte_range lo hi b && in_byte_range 128 191 c && valid_utf8 r
        | _ => false
        end
      else if in_byte_range 240 244 a then
        match r with
        | String b (String c (String d r)) =>
            let '(lo, hi) :=
              if Ascii.eqb a (ascii_of_N 240) then (144, 191)%N
              else if Ascii.eqb a (ascii_of_N 244) then (128, 143)%N else (128, 191)%N in
            in_byte_range lo hi b && in_byte_range 128 191 c && in_byte_range 128 191 d && valid_utf8 r
        | _ => false
        end
      else false
  end.

(** [serde_json::from_slice::<Value>]. *)
Class JsonFormat := json_of_bytes : string -> result json string.

(** [kind_of]. *)
Definition json_kind (v : json) : string :=
  match v with
  | JNull => "null"
  | JBool _ => "a boolean"
  | JNumber _ => "a number"
  | JString _ => "a string"
  | JArray _ => "an array"
  | JObject _ => "an object"
  end.

(** [HttpDirectory::body]. *)
Definition lookup_body `{Platform} (config : HttpDirectoryConfig) (presented : PresentedKey) :
    result string DirectoryError :=
  if valid_utf8 presented then Ok (json_to_string (JObject [(hd_key_field config, JString presented)]))
  else Err (DirMalformed "the presented credential is not UTF-8, so it cannot be sent as JSON").

Definition enveloped (config : HttpDirectoryConfig) (name : string) : bool :=
  String.eqb name (hd_valid_field config) || existsb (String.eqb name) ENVELOPE_FIELDS.

(** [HttpDirectory::read_response]. *)
Definition read_response `{JsonFormat} (config : HttpDirectoryConfig) (body : string) : DirectoryAnswer :=
  match json_of_bytes body with
  | Err e => Err (DirMalformed ("the response is not JSON: " +:+ e))
  | Ok (JObject object) =>
      match map_get (hd_valid_field config) object with
      | None => Err (DirMalformed ("the response carries no `" +:+ hd_valid_field config +:+ "` field"))
      | Some (JBool valid) =>
          if valid
          then Ok (Some (mkKeyRecord (list_to_map (List.filter (fun nv => negb (enveloped config nv.1)) object)) None))
          else Ok None
      | Some verdict =>
          Err (DirMalformed ("`" +:+ hd_valid_field config +:+ "` is " +:+ json_kind verdict
                             +:+ " where a boolean was expected"))
      end
  | Ok _ => Err (DirMalformed "the response is not a JSON object")
  end.

(** [HttpDirectory::lookup], on what the transport answers the request with that body. *)
Definition http_lookup `{Platform, JsonFormat} (config : HttpDirectoryConfig) (services : string -> HttpReply)
    (presented : PresentedKey) : DirectoryAnswer :=
  if String.eqb presented "" then Ok None
  else
    let? body := lookup_body config presented in
    match services body with
    | HttpUnavailable detail => Err (DirUnavailable ("no HTTP transport for the key directory: " +:+ detail))
    | HttpTransport e => Err (DirUnavailable e)
    | HttpResponse status _ body =>
        if (status =? 200)%Z then read_response config body
        else Err (DirUnavailable ("the directory answered " +:+ show_Z status))
    end.

(** ** The cache ([cache.rs]) *)

Record CacheConfig : Type := mkCacheConfig {
  ca_ttl_secs : Z;
  ca_negative_ttl_secs : Z;
  ca_max_entries : Z;
  ca_max_negative_entries : Z;
}.

Inductive CacheConfigError : Type := TtlZero | MaxEntriesZero.

Definition cache_config_validate (self : CacheConfig) : result unit CacheConfigError :=
  if (ca_ttl_secs self =? 0)%Z then Err TtlZero
  else if (ca_max_entries self =? 0)%Z then Err MaxEntriesZero
  else Ok tt.

Record CacheEntry : Type := mkCacheEntry {
  ce_record : option KeyRecord;
  ce_expires_at_ms : Z;
}.

Notation CacheMap := (gmap string CacheEntry).

(** What the lookups of a cache share. *)
Record CachingDirectory : Type := mkCaching {
  cd_hits : CacheMap;
  cd_misses : CacheMap;
}.

Definition caching_new (config : CacheConfig) : result CachingDirectory CacheConfigError :=
  let? _ := cache_config_validate config in Ok (mkCaching ∅ ∅).

(** [CachingDirectory::get]. *)
Definition cache_get (m : CacheMap) (key : string) (now : Z) : option CacheEntry :=
  match m !! key with
  | Some entry => if (now <? ce_expires_at_ms entry)%Z then Some entry else None
  | None => None
  end.

(** [CachingDirectory::put]. *)
Definition cache_put (m : CacheMap) (capacity : Z) (key : string) (entry : CacheEntry) (now : Z) : CacheMap :=
  if (capacity <=? Z.of_nat (size m))%Z && (if m !! key is None then true else false) then
    let m := filter (fun '(_, held) => (now < ce_expires_at_ms held)%Z) m in
    if (capacity <=? Z.of_nat (size m))%Z then m else <[key := entry]> m
  else <[key := entry]> m.

(** Where a lookup stands: about to read the clock, to probe a map, to ask the directory, or to
    store what it answered. *)
Inductive CachePc : Type :=
| CpStart
| CpHits (key : string) (now : Z)
| CpMisses (key : string) (now : Z)
| CpAsk (key : string) (now : Z)
| CpPut (key : string) (now : Z) (answer : option KeyRecord)
| CpDone (answer : DirectoryAnswer).

(** One step of [CachingDirectory::lookup]; [inner] is what the directory answers at this
    moment. *)
Definition caching_step `{Digest} (config : CacheConfig) (presented : PresentedKey) (clock : Z) (inner : DirectoryAnswer)
    (pc : CachePc) (d : CachingDirectory) : CachePc * CachingDirectory :=
  match pc with
  | CpStart =>
      match hash_credential presented with
      | Err e => (CpDone (Err e), d)
      | Ok key => (CpHits key (clamp_ms clock), d)
      end
  | CpHits key now =>
      match cache_get (cd_hits d) key now with
      | Some entry => (CpDone (Ok (ce_record entry)), d)
      | None => if (0 <? ca_negative_ttl_secs config)%Z then (CpMisses key now, d) else (CpAsk key now, d)
      end
  | CpMisses key now =>
      match cache_get (cd_misses d) key now with
      | Some entry => (CpDone (Ok (ce_record entry)), d)
      | None => (CpAsk key now, d)
      end
  | CpAsk key now =>
      match inner with
      | Err e => (CpDone (Err e), d)
      | Ok (Some record) => (CpPut key now (Some record), d)
      | Ok None => if (0 <? ca_negative_ttl_secs config)%Z then (CpPut key now None, d) else (CpDone (Ok None), d)
      end
  | CpPut key now answer =>
      (CpDone (Ok answer),
       match answer with
       | Some _ =>
           mkCaching (cache_put (cd_hits d) (ca_max_entries config) key
                        (mkCacheEntry answer (saturating_add now (millis (ca_ttl_secs config)))) now) (cd_misses d)
       | None =>
           mkCaching (cd_hits d)
             (cache_put (cd_misses d) (ca_max_negative_entries config) key
                (mkCacheEntry None (saturating_add now (millis (ca_negative_ttl_secs config)))) now)
       end)
  | CpDone answer => (CpDone answer, d)
  end.

(** ** Settings ([config.rs]) *)

Inductive ProviderConfig : Type :=
| ProviderFile (config : FileDirectoryConfig)
| ProviderHttp (config : HttpDirectoryConfig).

Inductive ExpiryPolicy : Type := ExpiryEnforce | ExpiryDirectory.

#[global] Instance ExpiryPolicy_eq_dec : EqDecision ExpiryPolicy.
Proof. solve_decision. Defined.

(** [OnDirectoryError] has the one value [Deny]. *)
Record ApiKeyResolverConfig : Type := mkApiKeyConfig {
  ak_credential : Credential;
  ak_prefix : option string;
  ak_provider : ProviderConfig;
  ak_record_map : ClaimMapConfig;
  ak_claims : ClaimsOverrides;
  ak_role : TokenRole;
  ak_expiry : ExpiryPolicy;
  ak_cache : option CacheConfig;
}.

Definition ak_location (self : ApiKeyResolverConfig) : CredentialLocation :=
  mkLocation (ak_credential self) (ak_prefix self).

Definition is_file (p : ProviderConfig) : bool := match p with ProviderFile _ => true | ProviderHttp _ => false end.

Inductive ApiKeyConfigError : Type :=
| AkMode
| AkLocation (e : LocationError)
| AkRecordMap (e : RecordMapError)
| AkNoSection (e : ClaimMapError)
| AkExpiryOverFile
| AkCacheOverFile
| AkQueryCapability
| AkFileSettings (e : FileConfigError)
| AkRecords (e : ReadError)
| AkHttpSettings (e : HttpConfigError)
| AkCacheSettings (e : CacheConfigError).

(** [ApiKeyResolverConfig::validate]. *)
Definition api_key_validate (self : ApiKeyResolverConfig) : result ConfiguredClaimMap ApiKeyConfigError :=
  let? _ := result_map_err AkLocation (location_validate (ak_location self)) in
  let? mapper := result_map_err AkRecordMap (record_map_compile (ak_record_map self) (ak_claims self)) in
  let? _ := result_map_err AkNoSection (compiled_role (ccm_map mapper) (ak_role self)) in
  if bool_decide (ak_expiry self = ExpiryDirectory) && is_file (ak_provider self) then Err AkExpiryOverFile
  else if (if ak_cache self is Some _ then true else false) && is_file (ak_provider self) then Err AkCacheOverFile
  else Ok mapper.

(** ** The resolver ([resolver.rs]) *)

(** The backend a resolver is built with, and the cache in front of it. *)
Inductive DirectoryBackend : Type :=
| BackendFile (d : FileDirectory)
| BackendHttp.

Record ApiKeyIdentityResolver : Type := mkApiKeyResolver {
  ar_settings : ApiKeyResolverConfig;
  ar_backend : DirectoryBackend;
  ar_cache : option CachingDirectory;
  ar_mapper : ConfiguredClaimMap;
}.

Definition api_key_new `{RecordFormat} (config : PluginConfig) (settings : ApiKeyResolverConfig)
    (text : result string string) : result ApiKeyIdentityResolver ApiKeyConfigError :=
  if negb (bool_decide (pg_mode config = Sequential)) || negb (bool_decide (pg_on_error config = OeFail)) then Err AkMode
  else
    let? mapper := api_key_validate settings in
    if (if ak_credential settings is CredQueryParam _ then true else false)
       && negb (bool_decide ("read_query" ∈ pg_capabilities config))
    then Err AkQueryCapability
    else
      let? backend :=
        match ak_provider settings with
        | ProviderFile file =>
            match file_directory_new file text with
            | Ok d => Ok (BackendFile d)
            | Err (inl e) => Err (AkFileSettings e)
            | Err (inr e) => Err (AkRecords e)
            end
        | ProviderHttp http => let? _ := result_map_err AkHttpSettings (http_config_validate http) in Ok BackendHttp
        end in
      let? cache :=
        match ak_cache settings with
        | Some c => let? d := result_map_err AkCacheSettings (caching_new c) in Ok (Some d)
        | None => Ok None
        end in
      Ok (mkApiKeyResolver settings backend cache mapper).

Definition KEY_UNKNOWN : string := "auth.key_unknown".
Definition KEY_EXPIRED : string := "auth.key_expired".
Definition DIRECTORY_UNAVAILABLE : string := "auth.directory_unavailable".

Definition role_debug `{Platform} (r : TokenRole) : string :=
  match r with
  | RoleUser => "User"
  | RoleClient => "Client"
  | RoleCallerWorkload => "CallerWorkload"
  | RoleCustom name => "Custom(" +:+ str_debug name +:+ ")"
  end.

(** [mapping_failed]. *)
Definition record_mapping_failed (slot : string) : PluginViolation :=
  violation_new "auth.mapping_failed"
    ("the record map produced no " +:+ slot +:+ ": no candidate resolved for the anchor, or a field declaring "
     +:+ "`on_missing: deny` resolved nothing. Raise the log level to debug to see which fields and which paths were tried").

(** The denial of a request without a usable credential; [None] where the credential is another
    resolver's. *)
Definition no_credential (c : Credential) (e : ExtractionError) : option PluginViolation :=
  match e with
  | ExMissing => Some (violation_new "auth.missing_credential" ("no credential at " +:+ credential_display c))
  | ExEmpty => Some (violation_new "auth.empty_credential" (credential_display c +:+ " holds an empty credential"))
  | ExWrongPrefix => None
  | ExAmbiguous => Some (violation_new "auth.ambiguous_credential" ("ambiguous credential at " +:+ credential_display c))
  | ExMalformed => Some (violation_new "auth.malformed_credential" ("malformed credential at " +:+ credential_display c))
  end.

(** [mark_credential_declined]. *)
Definition mark_declined (p : IdentityPayload) : IdentityPayload :=
  mkIdentity (id_raw_token p) (id_source p) (id_source_header p) (id_headers p) (id_client_host p) (id_client_port p)
    (id_subject p) (id_client p) (id_caller_workload p) (id_delegation p) (id_raw_credentials p) (id_resolved_at p)
    (id_raw_claims p) true.

Definition resolved (p : IdentityPayload) (now : DateTime) : IdentityPayload :=
  mkIdentity (id_raw_token p) (id_source p) (id_source_header p) (id_headers p) (id_client_host p) (id_client_port p)
    (id_subject p) (id_client p) (id_caller_workload p) (id_delegation p) (id_raw_credentials p) (Some now)
    (id_raw_claims p) (id_credential_declined p).

Section Resolver.
Context `{Platform, HashOrder} `{!Tracing}.

(** The identity slot of the role, from the record. *)
Definition project (mapper : ConfiguredClaimMap) (role : TokenRole) (fields : ClaimMap) (p : IdentityPayload) :
    result IdentityPayload PluginViolation :=
  match role with
  | RoleUser =>
      match map_subject mapper fields with
      | Some s => Ok (set_identity p (Some s) (id_client p) (id_caller_workload p))
      | None => Err (record_mapping_failed "subject")
      end
  | RoleClient =>
      match map_client mapper fields with
      | Some c => Ok (set_identity p (id_subject p) (Some c) (id_caller_workload p))
      | None => Err (record_mapping_failed "client")
      end
  | RoleCallerWorkload =>
      match map_workload mapper fields with
      | Some w => Ok (set_identity p (id_subject p) (id_client p) (Some w))
      | None => Err (record_mapping_failed "workload")
      end
  | RoleCustom _ => Err (violation_new "auth.misconfigured" ("role " +:+ role_debug role +:+ " is not supported"))
  end.

Definition expired (policy : ExpiryPolicy) (record : KeyRecord) (now : DateTime) : bool :=
  bool_decide (policy = ExpiryEnforce) && is_some_and (fun at_ => (at_ <=? now)%Z) (kr_expires_at record).

(** [HookHandler::handle]; [lookup] is what the directory answers, [now] the wall clock. *)
Definition api_key_handle {M} (self : ApiKeyIdentityResolver) (payload : IdentityPayload) (x : Extensions M)
    (lookup : PresentedKey -> DirectoryAnswer) (now : DateTime) : IdentityResult :=
  let location := ak_location (ar_settings self) in
  match raw_from_ext location (id_headers payload) x with
  | Err e =>
      match no_credential (lo_credential location) e with
      | Some v => IdDeny v
      | None => IdModify (mark_declined payload)
      end
  | Ok key =>
      match lookup key with
      | Err _ => IdDeny (violation_new DIRECTORY_UNAVAILABLE "the key directory could not answer")
      | Ok None => IdDeny (violation_new KEY_UNKNOWN "no record matches the presented credential")
      | Ok (Some record) =>
          if expired (ak_expiry (ar_settings self)) record now
          then IdDeny (violation_new KEY_EXPIRED "the credential's record has expired")
          else match project (ar_mapper self) (ak_role (ar_settings self)) (kr_fields record) payload with
               | Err v => IdDeny v
               | Ok updated => IdModify (resolved updated now)
               end
      end
  end.
End Resolver.
