(* ===== verification/ApiKeyProps.v ===== *)
(** * What the API key resolver guarantees

    Lookups of the cache and of the records file, interleaved in any order with each other and
    with the passing of time: how old an answer can be, and how many are held. The identity a
    credential is given. *)

From Stdlib Require Import Ascii String.
From S2P Require Import Prelude RustStr F64 Json Platform Lexical Scan ExtData HttpPath Plugin Extensions Hooks Config.
From S2P Require Import DecisionCache Bridge Credential ClaimMap Jwt ApiKey.

(** ** The cache among concurrent lookups *)

(** A lookup under way: its credential, when it began, where it stands. *)
Record CacheThread : Type := mkCacheThread {
  ct_key : PresentedKey;
  ct_start : Z;
  ct_pc : CachePc;
}.

(** The clock, the cache, the lookups, and a log of what the directory behind it answered and
    when. *)
Record CacheWorld : Type := mkCacheWorld {
  cw_clock : Z;
  cw_dir : CachingDirectory;
  cw_threads : gmap nat CacheThread;
  cw_log : list (Z * PresentedKey * option KeyRecord);
}.

Inductive CacheEvent : Type :=
| CeTick (ms : N)
| CeBegin (i : nat) (key : PresentedKey)
| CeStep (i : nat) (inner : DirectoryAnswer).

Section Cache.
Context `{Digest}.
Variable config : CacheConfig.

Definition logged (t : CacheThread) (clock : Z) (inner : DirectoryAnswer) : list (Z * PresentedKey * option KeyRecord) :=
  match ct_pc t, inner with CpAsk _ _, Ok answer => [(clock, ct_key t, answer)] | _, _ => [] end.

Definition cache_world_step (w : CacheWorld) (e : CacheEvent) : CacheWorld :=
  match e with
  | CeTick ms => mkCacheWorld (cw_clock w + Z.of_N ms) (cw_dir w) (cw_threads w) (cw_log w)
  | CeBegin i key =>
      mkCacheWorld (cw_clock w) (cw_dir w) (<[i := mkCacheThread key (cw_clock w) CpStart]> (cw_threads w)) (cw_log w)
  | CeStep i inner =>
      match cw_threads w !! i with
      | None => w
      | Some t =>
          let '(pc, d) := caching_step config (ct_key t) (cw_clock w) inner (ct_pc t) (cw_dir w) in
          mkCacheWorld (cw_clock w) d (<[i := mkCacheThread (ct_key t) (ct_start t) pc]> (cw_threads w))
            (cw_log w ++ logged t (cw_clock w) inner)
      end
  end.

Definition cache_run (events : list CacheEvent) : CacheWorld :=
  foldl cache_world_step (mkCacheWorld 0 (mkCaching ∅ ∅) ∅ []) events.

Definition ttl_of (answer : option KeyRecord) : Z :=
  match answer with Some _ => ca_ttl_secs config * 1000 | None => ca_negative_ttl_secs config * 1000 end.

(** The directory gave this answer, to a credential with this digest, at this time. *)
Definition answered (log : list (Z * PresentedKey * option KeyRecord)) (digest : string) (at_ : Z)
    (answer : option KeyRecord) : Prop :=
  exists key, (at_, key, answer) ∈ log /\ sha256 key = Ok digest.

(** The answer a lookup that began at [start] may give: one the directory gave it, or gave a
    credential of the same digest less than the lifetime of such an answer before. *)
Definition justified log (start : Z) (key : PresentedKey) (answer : option KeyRecord) : Prop :=
  exists digest at_, sha256 key = Ok digest /\ answered log digest at_ answer
    /\ (start <= at_ \/ clamp_ms start < at_ + ttl_of answer)%Z.

Definition entry_ok log (positive : bool) (digest : string) (e : CacheEntry) : Prop :=
  (if ce_record e then true else false) = positive
  /\ exists at_, answered log digest at_ (ce_record e) /\ (ce_expires_at_ms e <= at_ + ttl_of (ce_record e))%Z.

Definition thread_ok log (clock : Z) (t : CacheThread) : Prop :=
  (ct_start t <= clock)%Z
  /\ match ct_pc t with
     | CpStart => True
     | CpHits digest now | CpMisses digest now | CpAsk digest now =>
         sha256 (ct_key t) = Ok digest /\ (clamp_ms (ct_start t) <= now <= clock)%Z
     | CpPut digest now answer =>
         sha256 (ct_key t) = Ok digest
         /\ exists at_, answered log digest at_ answer /\ (now <= at_)%Z /\ (ct_start t <= at_)%Z
     | CpDone (Ok answer) => justified log (ct_start t) (ct_key t) answer
     | CpDone (Err _) => True
     end.

Definition cache_ok (w : CacheWorld) : Prop :=
  (Z.of_nat (size (cd_hits (cw_dir w))) <= Z.max 0 (ca_max_entries config))%Z
  /\ (Z.of_nat (size (cd_misses (cw_dir w))) <= Z.max 0 (ca_max_negative_entries config))%Z
  /\ map_Forall (entry_ok (cw_log w) true) (cd_hits (cw_dir w))
  /\ map_Forall (entry_ok (cw_log w) false) (cd_misses (cw_dir w))
  /\ map_Forall (fun _ => thread_ok (cw_log w) (cw_clock w)) (cw_threads w).

Lemma answered_more log more digest at_ answer : answered log digest at_ answer -> answered (log ++ more) digest at_ answer.
Proof. intros (key & Hin & Hd). exists key. split; [apply elem_of_app; by left|done]. Qed.

Lemma entry_ok_more log more b digest e : entry_ok log b digest e -> entry_ok (log ++ more) b digest e.
Proof. intros (Hb & at_ & Ha & He). split; [done|]. exists at_. split; [by apply answered_more|done]. Qed.

Lemma thread_ok_more log more clock clock' t :
  (clock <= clock')%Z -> thread_ok log clock t -> thread_ok (log ++ more) clock' t.
Proof.
  intros Hc [Hs Hp]. split; [lia|]. destruct (ct_pc t) as [|d n|d n|d n|d n a|[a|]]; try done.
  - destruct Hp; split; [done|lia].
  - destruct Hp; split; [done|lia].
  - destruct Hp; split; [done|lia].
  - destruct Hp as (Hd & at_ & Ha & Hn). split; [done|]. exists at_. split; [by apply answered_more|done].
  - destruct Hp as (dg & at_ & Hd & Ha & Hn). exists dg, at_. split_and!; [done|by apply answered_more|done].
Qed.

(** ** What [put] does to a map *)

Lemma cache_put_size (m : gmap string CacheEntry) capacity key entry now :
  (Z.of_nat (size m) <= Z.max 0 capacity)%Z ->
  (Z.of_nat (size (cache_put m capacity key entry now)) <= Z.max 0 capacity)%Z.
Proof.
  intros Hm. unfold cache_put. destruct (capacity <=? Z.of_nat (size m))%Z eqn:Ec; cbn [andb].
  - destruct (m !! key) eqn:Ek; cbv iota; [rewrite (map_size_insert_Some (M := gmap string)) by (by eexists); done|].
    destruct (capacity <=? Z.of_nat (size (filter _ m)))%Z eqn:Ef.
    + etrans; [apply inj_le, map_size_filter|done].
    + apply Z.leb_gt in Ef. rewrite (map_size_insert (M := gmap string)). case_match; cbn [id]; lia.
  - apply Z.leb_gt in Ec. rewrite (map_size_insert (M := gmap string)). case_match; cbn [id]; lia.
Qed.

Lemma cache_put_forall (P : string -> CacheEntry -> Prop) m capacity key entry now :
  map_Forall P m -> P key entry -> map_Forall P (cache_put m capacity key entry now).
Proof.
  intros Hm He. unfold cache_put.
  assert (map_Forall P (filter (fun '(_, held) => (now < ce_expires_at_ms held)%Z) m)) as Hf.
  { intros k e Hk. apply map_lookup_filter_Some in Hk as [Hk _]. by apply Hm. }
  destruct (_ && _); [destruct (_ <=? _)%Z; [done|]|]; by apply map_Forall_insert_2.
Qed.

Lemma saturating_le a b : (saturating_add a (millis b) <= a + b * 1000)%Z.
Proof. unfold saturating_add, millis, saturating_mul. lia. Qed.

Lemma cache_get_ok log b m digest now e :
  map_Forall (entry_ok log b) m -> cache_get m digest now = Some e ->
  exists at_, answered log digest at_ (ce_record e) /\ (now < at_ + ttl_of (ce_record e))%Z.
Proof.
  unfold cache_get. intros Hm Hg. destruct (m !! digest) as [e'|] eqn:Ek; [|done]. destruct (now <? _)%Z eqn:En; [|done].
  injection Hg as ->. apply Z.ltb_lt in En. destruct (Hm _ _ Ek) as (_ & at_ & Ha & He). exists at_. split; [done|lia].
Qed.

Lemma hash_ok key digest : hash_credential key = Ok digest -> sha256 key = Ok digest.
Proof. unfold hash_credential. destruct (sha256 key); [by intros [= ->]|done]. Qed.

(** ** The invariant *)

(** What one step of a lookup does: the maps stay sound and within bounds, and so does it. *)
Lemma cache_step_ok log clock inner t d pc d' :
  let log' := log ++ logged t clock inner in
  let w := mkCacheWorld clock d ∅ log in
  cache_ok w -> thread_ok log clock t -> caching_step config (ct_key t) clock inner (ct_pc t) d = (pc, d') ->
  cache_ok (mkCacheWorld clock d' ∅ log') /\ thread_ok log' clock (mkCacheThread (ct_key t) (ct_start t) pc).
Proof.
  intros log' w (Hs1 & Hs2 & Hh & Hm & _) Ht. unfold cache_ok. cbn [cw_dir cw_log cw_threads w] in *.
  assert (map_Forall (entry_ok log' true) (cd_hits d)) as Hh'.
  { intros k e Hk. by apply entry_ok_more, Hh. }
  assert (map_Forall (entry_ok log' false) (cd_misses d)) as Hm'.
  { intros k e Hk. by apply entry_ok_more, Hm. }
  pose proof (thread_ok_more log (logged t clock inner) clock clock t (Z.le_refl _) Ht) as Ht'. fold log' in Ht'.
  destruct Ht as [Hst Hpc]. unfold thread_ok in *. cbn [ct_key ct_start ct_pc] in *.
  destruct (ct_pc t) as [|dg now|dg now|dg now|dg now a|a] eqn:Ep; cbn [caching_step].
  - destruct (hash_credential (ct_key t)) as [dg|] eqn:Eh; intros [= <- <-]; (split; [split_and!; done|]); (split; [done|]); [|done].
    split; [by apply hash_ok|]. unfold clamp_ms. lia.
  - destruct (cache_get (cd_hits d) dg now) as [e|] eqn:Eg; [|destruct (0 <? _)%Z]; intros [= <- <-];
      (split; [split_and!; done|]); (split; [done|]); try apply Ht'.
    destruct Hpc as [Hd Hn]. destruct (cache_get_ok _ _ _ _ _ _ Hh' Eg) as (at_ & Ha & Ht2).
    exists dg, at_. split_and!; [done|done|right; lia].
  - destruct (cache_get (cd_misses d) dg now) as [e|] eqn:Eg; intros [= <- <-];
      (split; [split_and!; done|]); (split; [done|]); try apply Ht'.
    destruct Hpc as [Hd Hn]. destruct (cache_get_ok _ _ _ _ _ _ Hm' Eg) as (at_ & Ha & Ht2).
    exists dg, at_. split_and!; [done|done|right; lia].
  - destruct Hpc as [Hd Hn].
    assert (forall answer, inner = Ok answer -> answered log' dg clock answer) as Hans.
    { intros answer ->. exists (ct_key t). split; [|done]. unfold log', logged. rewrite Ep. apply elem_of_app. right.
      by apply list_elem_of_singleton. }
    destruct inner as [[r|]|]; [|destruct (0 <? _)%Z|]; intros [= <- <-]; (split; [split_and!; done|]); (split; [done|]); try done.
    + split; [done|]. exists clock. split_and!; [by apply Hans|lia|done].
    + split; [done|]. exists clock. split_and!; [by apply Hans|lia|done].
    + exists dg, clock. split_and!; [done|by apply Hans|by left].
  - destruct Ht' as [_ (Hd & at_ & Ha & Hn & Hs)].
    assert (entry_ok log' (if a then true else false) dg
              (mkCacheEntry a (saturating_add now (millis (ttl_of a / 1000))))) as He.
    { split; [done|]. exists at_. cbn [ce_record ce_expires_at_ms]. split; [done|]. etrans; [apply saturating_le|].
      destruct a; cbn [ttl_of]; rewrite Z.div_mul by done; lia. }
    intros [= <- <-]. split.
    + destruct a as [r|]; cbn [cd_hits cd_misses ttl_of] in *; rewrite Z.div_mul in He by done;
        split_and!; try done; try (by apply cache_put_size); by apply cache_put_forall.
    + split; [done|]. exists dg, at_. split_and!; [done|done|by left].
  - intros [= <- <-]. split; [split_and!; done|exact Ht'].
Qed.

Lemma cache_world_step_ok w e : cache_ok w -> cache_ok (cache_world_step w e).
Proof.
  intros Hw. destruct e as [ms|i key|i inner]; cbn [cache_world_step].
  - destruct Hw as (? & ? & ? & ? & Ht). split_and!; try done. intros i t Hi. cbn in *.
    rewrite <- (app_nil_r (cw_log w)). apply (thread_ok_more _ _ (cw_clock w)); [lia|by eapply Ht].
  - destruct Hw as (? & ? & ? & ? & Ht). split_and!; try done. cbn. apply map_Forall_insert_2; [|done]. by split.
  - destruct (cw_threads w !! i) as [t|] eqn:Ei; [|done].
    destruct (caching_step _ _ _ _ _ _) as [pc d] eqn:Es. destruct Hw as (H1 & H2 & H3 & H4 & Ht).
    destruct (cache_step_ok (cw_log w) (cw_clock w) inner t (cw_dir w) pc d) as [(Q1 & Q2 & Q3 & Q4 & _) Qt]; [|by eapply Ht|done|].
    { by split_and!. }
    split_and!; try done. cbn. apply map_Forall_insert_2; [done|]. intros j t' Hj.
    apply (thread_ok_more _ _ (cw_clock w)); [lia|]. by eapply Ht.
Qed.

Lemma cache_run_ok events : cache_ok (cache_run events).
Proof.
  unfold cache_run. assert (cache_ok (mkCacheWorld 0 (mkCaching ∅ ∅) ∅ [])) as H0.
  { split_and!; cbn; try (rewrite map_size_empty; lia); apply map_Forall_empty. }
  revert H0. generalize (mkCacheWorld 0 (mkCaching ∅ ∅) ∅ []) as w. induction events as [|e events IH]; intros w Hw; [done|].
  cbn [foldl]. by apply IH, cache_world_step_ok.
Qed.

(** However lookups interleave with each other and with the clock, whatever the
    directory answers: a cached lookup that ends with a record, or with none, gives an answer
    the directory gave for that credential's digest, to this lookup or less than the configured
    lifetime of such an answer before it began. A record withdrawn at the directory is gone
    from here within that time. Records and misses never exceed their own bounds. *)
Theorem cache_answers_recent events :
  let w := cache_run events in
  (forall i t answer, cw_threads w !! i = Some t -> ct_pc t = CpDone (Ok answer) ->
     justified (cw_log w) (ct_start t) (ct_key t) answer)
  /\ (Z.of_nat (size (cd_hits (cw_dir w))) <= Z.max 0 (ca_max_entries config))%Z
  /\ (Z.of_nat (size (cd_misses (cw_dir w))) <= Z.max 0 (ca_max_negative_entries config))%Z.
Proof.
  destruct (cache_run_ok events) as (H1 & H2 & _ & _ & Ht). split_and!; try done.
  intros i t answer Hi Hp. destruct (Ht _ _ Hi) as [_ Hd]. by rewrite Hp in Hd.
Qed.
End Cache.

(** ** The records file among concurrent lookups *)

(** A lookup under way: its credential, when it began, where it stands; while it reloads, the
    time it set for the next reload, and when it read the file. *)
Record FileThread : Type := mkFileThread {
  ft_key : PresentedKey;
  ft_start : Z;
  ft_deadline : Z;
  ft_read_at : Z;
  ft_pc : FilePc;
}.

(** The clock, the directory, the lookups, the record sets read from the file and when, and when
    the set being served was read. *)
Record FileWorld : Type := mkFileWorld {
  fw_clock : Z;
  fw_dir : FileDirectory;
  fw_threads : gmap nat FileThread;
  fw_log : list (Z * RecordIndex);
  fw_read_at : Z;
}.

Inductive FileEvent : Type :=
| FeTick (ms : N)
| FeBegin (i : nat) (key : PresentedKey)
| FeStep (i : nat) (text : result string string).

Definition reloading (pc : FilePc) : bool :=
  match pc with FpRead | FpPublish _ | FpClock | FpStamp _ => true | _ => false end.

Section File.
Context `{Digest, RecordFormat}.
Variable config : FileDirectoryConfig.

Definition thread_step (w : FileWorld) (t : FileThread) (text : result string string) : FileThread * FileWorld :=
  let '(pc, d) := file_step config (ft_key t) (fw_clock w) text (ft_pc t) (fw_dir w) in
  (mkFileThread (ft_key t) (ft_start t)
     (match pc with FpRead => fd_next_attempt_ms d | _ => ft_deadline t end)
     (match ft_pc t with FpRead => fw_clock w | _ => ft_read_at t end) pc,
   mkFileWorld (fw_clock w) d (fw_threads w)
     (fw_log w ++ match ft_pc t, read_index config text with FpRead, Ok index => [(fw_clock w, index)] | _, _ => [] end)
     (match ft_pc t with FpPublish _ => ft_read_at t | _ => fw_read_at w end)).

Definition file_world_step (w : FileWorld) (e : FileEvent) : FileWorld :=
  match e with
  | FeTick ms => mkFileWorld (fw_clock w + Z.of_N ms) (fw_dir w) (fw_threads w) (fw_log w) (fw_read_at w)
  | FeBegin i key =>
      mkFileWorld (fw_clock w) (fw_dir w) (<[i := mkFileThread key (fw_clock w) 0 0 FpStart]> (fw_threads w)) (fw_log w)
        (fw_read_at w)
  | FeStep i text =>
      match fw_threads w !! i with
      | None => w
      | Some t =>
          let '(t', w') := thread_step w t text in
          mkFileWorld (fw_clock w') (fw_dir w') (<[i := t']> (fw_threads w)) (fw_log w') (fw_read_at w')
      end
  end.

(** The world a directory starts in; the set it was built with counts as read at time zero. *)
Definition file_world (d : FileDirectory) : FileWorld := mkFileWorld 0 d ∅ [(0%Z, fd_records d)] 0.

Variables refresh ceiling : Z.
Hypothesis Hrange : (0 <= refresh)%Z.
Hypothesis Hrefresh : fc_refresh_secs config = Some refresh.
Hypothesis Hceiling : fc_max_staleness_secs config = Some ceiling.

Definition interval : Z := millis refresh.

(** Every reload under way is done before the next is due, and the clock is in range. *)
Definition orderly (w : FileWorld) : Prop :=
  (fw_clock w + interval <= usize_max)%Z
  /\ forall i t, fw_threads w !! i = Some t -> reloading (ft_pc t) = true -> (fw_clock w < ft_deadline t)%Z.

Fixpoint orderly_run (w : FileWorld) (events : list FileEvent) : Prop :=
  orderly w /\ match events with [] => True | e :: events' => orderly_run (file_world_step w e) events' end.

(** The same as a test. *)
Definition orderly_b (w : FileWorld) : bool :=
  (fw_clock w + interval <=? usize_max)%Z
  && forallb (fun it => negb (reloading (ft_pc it.2)) || (fw_clock w <? ft_deadline it.2)%Z) (map_to_list (fw_threads w)).

Fixpoint orderly_run_b (w : FileWorld) (events : list FileEvent) : bool :=
  orderly_b w && match events with [] => true | e :: events' => orderly_run_b (file_world_step w e) events' end.

Lemma orderly_b_ok w : orderly_b w = true -> orderly w.
Proof.
  intros E. apply andb_true_iff in E as [Ec Ef]. split; [by apply Z.leb_le|]. intros i t Hi Hr.
  rewrite forallb_forall in Ef. specialize (Ef (i, t)). cbn in Ef. rewrite Hr in Ef. apply Z.ltb_lt, Ef.
  by apply list_elem_of_In, elem_of_map_to_list.
Qed.

Lemma orderly_run_b_ok events : forall w, orderly_run_b w events = true -> orderly_run w events.
Proof.
  induction events as [|e events IH]; intros w E; apply andb_true_iff in E as [E1 E2]; (split; [by apply orderly_b_ok|]); [done|].
  by apply IH.
Qed.

(** A record set read from the file no longer before [start] than the ceiling and one interval. *)
Definition recent (start at_ : Z) : Prop := (start - ceiling * 1000 - interval <= at_)%Z.

Definition file_justified (log : list (Z * RecordIndex)) (start : Z) (key : PresentedKey) (answer : option KeyRecord) :
    Prop :=
  (key = "" /\ answer = None)
  \/ exists at_ index digest, (at_, index) ∈ log /\ file_digest config key = Ok digest /\ answer = index !! digest
       /\ recent start at_.

Definition file_thread_ok (w : FileWorld) (t : FileThread) : Prop :=
  (ft_start t <= fw_clock w)%Z
  /\ (reloading (ft_pc t) = true -> ft_deadline t = fd_next_attempt_ms (fw_dir w))
  /\ match ft_pc t with
     | FpDue now => (now <= fw_clock w)%Z
     | FpClaim now due => (due <= now <= fw_clock w)%Z
     | FpRead => (ft_deadline t - interval <= fw_clock w)%Z
     | FpPublish index =>
         (ft_read_at t, index) ∈ fw_log w /\ (ft_deadline t - interval <= ft_read_at t)%Z
         /\ (fw_read_at w <= ft_read_at t <= fw_clock w)%Z
     | FpClock => (ft_deadline t - interval <= fw_read_at w)%Z
     | FpStamp now => (ft_deadline t - interval <= fw_read_at w)%Z /\ (now < ft_deadline t)%Z
     | FpAge loaded => (loaded <= fw_read_at w + interval)%Z
     | FpGet => recent (ft_start t) (fw_read_at w)
     | FpDone (Ok answer) => file_justified (fw_log w) (ft_start t) (ft_key t) answer
     | FpStart | FpLoaded | FpDone (Err _) => True
     end.

Definition file_ok (w : FileWorld) : Prop :=
  (fw_read_at w, fd_records (fw_dir w)) ∈ fw_log w
  /\ (fd_loaded_at_ms (fw_dir w) <= fw_read_at w + interval)%Z /\ (fw_read_at w <= fw_clock w)%Z
  /\ map_Forall (fun _ => file_thread_ok w) (fw_threads w)
  /\ forall i j t u, fw_threads w !! i = Some t -> fw_threads w !! j = Some u ->
       reloading (ft_pc t) = true -> reloading (ft_pc u) = true -> i = j.

(** Another lookup's standing after a step elsewhere. *)
Lemma file_thread_later w w' u :
  (fw_clock w <= fw_clock w')%Z -> (forall x, x ∈ fw_log w -> x ∈ fw_log w') -> (fw_read_at w <= fw_read_at w')%Z ->
  (reloading (ft_pc u) = true ->
     fd_next_attempt_ms (fw_dir w') = fd_next_attempt_ms (fw_dir w) /\ fw_read_at w' = fw_read_at w) ->
  file_thread_ok w u -> file_thread_ok w' u.
Proof.
  intros Hc Hl Hr Hn (Hs & Hd & Hp). split_and!; [lia|intros E; rewrite (proj1 (Hn E)); by apply Hd|].
  unfold recent in *.
  destruct (ft_pc u) as [|n|n du| |ix| |n| |l| |[a|]]; try done; try lia.
  - destruct Hp as (Hi & Hq & Hb). destruct (Hn eq_refl) as [_ ->]. split_and!; [by apply Hl|lia|lia|lia].
  - destruct Hp as [Hk|(at_ & ix & dg & Hin & Hr2)]; [by left|right; exists at_, ix, dg; split; [by apply Hl|done]].
Qed.

(** While a reload is under way nobody else claims one. *)
Lemma claim_alone w now due i t :
  orderly w -> file_ok w -> fd_next_attempt_ms (fw_dir w) = due -> (due <= now <= fw_clock w)%Z ->
  fw_threads w !! i = Some t -> reloading (ft_pc t) = false.
Proof.
  intros [_ Ho] (_ & _ & _ & Ht & _) Hd Hn Hi. destruct (reloading (ft_pc t)) eqn:Er; [|done].
  destruct (Ht _ _ Hi) as (_ & Hdl & _). specialize (Hdl Er). specialize (Ho _ _ Hi Er). lia.
Qed.

Lemma interval_pos : (0 <= interval)%Z.
Proof. unfold interval, millis, saturating_mul, usize_max. lia. Qed.

(** What a step of lookup [i] leaves. *)
Definition stepped (w : FileWorld) (i : nat) (t t' : FileThread) (w' : FileWorld) : Prop :=
  fw_clock w' = fw_clock w /\ (forall x, x ∈ fw_log w -> x ∈ fw_log w')
  /\ (fw_read_at w <= fw_read_at w' <= fw_clock w)%Z
  /\ (fw_read_at w', fd_records (fw_dir w')) ∈ fw_log w'
  /\ (fd_loaded_at_ms (fw_dir w') <= fw_read_at w' + interval)%Z
  /\ file_thread_ok w' t'
  /\ (reloading (ft_pc t') = true ->
       reloading (ft_pc t) = true \/ forall j u, fw_threads w !! j = Some u -> reloading (ft_pc u) = false)
  /\ (forall j u, i <> j -> fw_threads w !! j = Some u -> reloading (ft_pc u) = true ->
       fd_next_attempt_ms (fw_dir w') = fd_next_attempt_ms (fw_dir w) /\ fw_read_at w' = fw_read_at w).

(** A step that moves only the lookup itself. *)
Lemma quiet_step w i t log pc :
  file_ok w -> fw_threads w !! i = Some t -> (reloading pc = true -> reloading (ft_pc t) = true) ->
  let t' := mkFileThread (ft_key t) (ft_start t) (ft_deadline t)
              (match ft_pc t with FpRead => fw_clock w | _ => ft_read_at t end) pc in
  let w' := mkFileWorld (fw_clock w) (fw_dir w) (fw_threads w) (fw_log w ++ log) (fw_read_at w) in
  file_thread_ok w' t' -> stepped w i t t' w'.
Proof.
  intros (Hg & Hl & Hc & Ht & Hu) Hi Hr t' w' Ht'. split_and!; try done; try lia.
  - intros x Hx. apply elem_of_app. by left.
  - apply elem_of_app. by left.
  - intros E. left. by apply Hr.
Qed.

(** What a step of one lookup does to the world and to it. *)
Lemma thread_step_ok w i t text t' w' :
  orderly w -> file_ok w -> fw_threads w !! i = Some t -> thread_step w t text = (t', w') -> stepped w i t t' w'.
Proof.
  intros Ho Hw Hi. pose proof Hw as (Hg & Hl & Hc & Ht & Hu). destruct (Ht _ _ Hi) as (Hs & Hd & Hp).
  pose proof Ho as [Hcap Hprompt]. specialize (Hprompt _ _ Hi). pose proof (quiet_step w i t) as Hq. unfold thread_step.
  assert (clamp_ms (fw_clock w) = fw_clock w) as Hclamp by (unfold clamp_ms; assert (0 <= interval)%Z by exact interval_pos; lia).
  destruct (ft_pc t) as [|n|n du| |ix| |n| |l| |a] eqn:Ep; cbn [file_step reloading] in *; rewrite ?Hrefresh, ?Hceiling.
  - destruct (String.eqb_spec (ft_key t) ""); intros [= <- <-]; (apply Hq; [done|done|done|]);
      (split_and!; [done|done|]); cbn; [by left|lia].
  - destruct (_ <? _)%Z eqn:En; intros [= <- <-]; (apply Hq; [done|done|done|]); (split_and!; [done|done|]); cbn; [done|].
    apply Z.ltb_ge in En. lia.
  - destruct (_ =? _)%Z eqn:En; [|intros [= <- <-]; apply Hq; [done|done|done|]; by split_and!].
    apply Z.eqb_eq in En. intros [= <- <-]. cbn [fd_next_attempt_ms default].
    assert (saturating_add n (millis refresh) = (n + interval)%Z) as Hadd by (unfold saturating_add, interval; unfold interval in Hcap; lia).
    rewrite Hadd. pose proof (claim_alone w n du) as Halone. split_and!; cbn; try done; try lia.
    + intros x Hx. by rewrite app_nil_r.
    + by rewrite app_nil_r.
    + split_and!; cbn; [done|done|lia].
    + intros _. right. intros j u Hj. by eapply Halone.
    + intros j u _ Hj Hr. rewrite (Halone j u Ho Hw En Hp Hj) in Hr. done.
  - destruct (read_index config text) as [ix|] eqn:Ei; intros [= <- <-]; (apply Hq; [done|done|done|]); (split_and!; [done|done|]); cbn; [|done].
    split_and!; [apply elem_of_app; right; by apply list_elem_of_singleton|lia|lia|lia].
  - destruct Hp as (Hin & Hdl & Hb). intros [= <- <-]. split_and!; cbn; try done; try lia.
    + intros x Hx. by rewrite app_nil_r.
    + by rewrite app_nil_r.
    + intros _. left. by rewrite Ep.
    + intros j u Hne Hj Hr. destruct (Hne (Hu _ _ _ _ Hi Hj ltac:(by rewrite Ep) Hr)).
  - specialize (Hprompt eq_refl). intros [= <- <-]. apply Hq; [done|done|done|]. split_and!; cbn; done || lia.
  - destruct Hp as [Hdl Hn]. intros [= <- <-]. split_and!; cbn; try done; try lia.
    + intros x Hx. by rewrite app_nil_r.
    + by rewrite app_nil_r.
  - intros [= <- <-]. apply Hq; [done|done|done|]. by split_and!.
  - cbn [default]. destruct (_ <? _)%Z eqn:En; intros [= <- <-]; (apply Hq; [done|done|done|]); (split_and!; [done|done|]); cbn; [done|].
    apply Z.ltb_ge in En. unfold recent. cbn in *. rewrite Hclamp in En. lia.
  - destruct (file_digest config (ft_key t)) as [dg|] eqn:Ed; intros [= <- <-]; (apply Hq; [done|done|done|]);
      (split_and!; [done|done|]); cbn; [|done].
    right. exists (fw_read_at w), (fd_records (fw_dir w)), dg. split_and!; [apply elem_of_app; by left|done|done|done].
  - intros [= <- <-]. apply Hq; [done|done|done|]. split_and!; [done|done|]. rewrite app_nil_r. by destruct a.
Qed.

Lemma file_world_step_ok w e : orderly w -> file_ok w -> file_ok (file_world_step w e).
Proof.
  intros Ho Hw. pose proof Hw as (Hg & Hl & Hc & Ht & Hu). destruct e as [ms|i key|i text]; cbn [file_world_step].
  - split_and!; try done; [cbn; lia|]. intros i t Hi. cbn in Hi. apply (file_thread_later w); try done; [cbn; lia|by eapply Ht].
  - split_and!; try done; cbn.
    + apply map_Forall_insert_2; [by split_and!|]. intros j u Hj. apply (file_thread_later w); try done. by eapply Ht.
    + intros j k t u Hj Hk Hr Hs. rewrite lookup_insert_Some in Hj, Hk.
      destruct Hj as [[<- <-]|[_ Hj]]; [done|]. destruct Hk as [[<- <-]|[_ Hk]]; [done|]. by eapply Hu.
  - destruct (fw_threads w !! i) as [t|] eqn:Ei; [|done]. destruct (thread_step w t text) as [t' w'] eqn:Es.
    destruct (thread_step_ok _ _ _ _ _ _ Ho Hw Ei Es) as (Ec & Hlog & Hr & Hg' & Hl' & Ht' & Hnew & Hoth).
    split_and!; cbn; try done; try lia.
    + intros j u Hj. rewrite lookup_insert_Some in Hj. destruct Hj as [[<- <-]|[Hne Hj]]; [done|].
      apply (file_thread_later w); try done; cbn; [lia|lia|by apply Hoth with j|by eapply Ht].
    + intros j k u v Hj Hk Hru Hrv. rewrite lookup_insert_Some in Hj, Hk.
      assert (forall m x, i <> m -> fw_threads w !! m = Some x -> reloading (ft_pc x) = true -> reloading (ft_pc t') = true -> i = m) as Hone.
      { intros m x _ Hm Hx Hx'. destruct (Hnew Hx') as [Hold|Hnone]; [by eapply Hu|]. by rewrite (Hnone _ _ Hm) in Hx. }
      destruct Hj as [[<- <-]|[Hnj Hj]], Hk as [[<- <-]|[Hnk Hk]]; [done|by eapply Hone|symmetry; by eapply Hone|by eapply Hu].
Qed.

Lemma orderly_run_ok events : forall w, orderly_run w events -> file_ok w -> file_ok (foldl file_world_step w events).
Proof.
  induction events as [|e events IH]; intros w [Ho Hr] Hw; [done|]. cbn [foldl]. apply IH; [done|]. by apply file_world_step_ok.
Qed.

(** Claim C23. With a refresh interval and a staleness ceiling, and every reload done before the
    next is due: however lookups interleave, an answer given to a lookup comes whole from one
    record set that was read from the file no longer before the lookup began than the ceiling
    plus one interval, whatever reads fail in between. A record removed from the file is gone
    within that time, or lookups fail instead. *)
Theorem file_answers_recent d events :
  fd_loaded_at_ms d = 0%Z -> orderly_run (file_world d) events ->
  let w := foldl file_world_step (file_world d) events in
  forall i t answer, fw_threads w !! i = Some t -> ft_pc t = FpDone (Ok answer) ->
    file_justified (fw_log w) (ft_start t) (ft_key t) answer.
Proof.
  intros Hd Ho w i t answer Hi Hp. assert (file_ok (file_world d)) as Hinit.
  { pose proof interval_pos. split_and!; cbn; try lia; [by apply list_elem_of_singleton|apply map_Forall_empty|].
    intros j k u v Hj. by rewrite lookup_empty in Hj. }
  destruct (orderly_run_ok _ _ Ho Hinit) as (_ & _ & _ & Ht & _). destruct (Ht _ _ Hi) as (_ & _ & Hdone). by rewrite Hp in Hdone.
Qed.
End File.

(** ** The index of a records file *)

Section Index.
Context `{RecordFormat}.

Definition record_of (r : FileRecord) : KeyRecord := mkKeyRecord (fr_fields r) (fr_expires_at r).

Definition digest_of (kind : IndexKind) (r : FileRecord) : result string string := normalize_digest (fr_hash r) kind.

Lemma index_records_ok kind records : forall position index out,
  index_records kind position records index = Ok out ->
  NoDup (map (digest_of kind) records) /\ (forall r, r ∈ records -> exists d, digest_of kind r = Ok d /\ index !! d = None)
  /\ forall d k, out !! d = Some k <-> index !! d = Some k \/ exists r, r ∈ records /\ digest_of kind r = Ok d /\ k = record_of r.
Proof.
  induction records as [|r records IH]; intros position index out; cbn [index_records map].
  { intros [= <-]. split_and!; [constructor|intros r Hr; by apply not_elem_of_nil in Hr|].
    intros d k. split; [by left|]. intros [?|(r & Hr & _)]; [done|by apply not_elem_of_nil in Hr]. }
  destruct (normalize_digest (fr_hash r) kind) as [d0|] eqn:Ed; [|done]. cbn [result_map_err].
  destruct (index !! d0) as [|] eqn:Ei; [done|]. intros E. apply IH in E as (Hn & Hd & Hl). fold (record_of r) in *.
  assert (digest_of kind r = Ok d0) as Er by done. split_and!.
  - constructor; [|done]. intros Hin. apply list_elem_of_fmap in Hin as (r' & Hr' & Hin). apply Hd in Hin as (d & Hd' & Hi).
    rewrite Er, Hd' in Hr'. injection Hr' as ->. by rewrite lookup_insert_eq in Hi.
  - intros r' Hr'. apply elem_of_cons in Hr' as [->|Hr']; [by exists d0|]. apply Hd in Hr' as (d & Hd' & Hi).
    exists d. split; [done|]. apply lookup_insert_None in Hi. naive_solver.
  - intros d k. rewrite Hl, lookup_insert_Some. split.
    + intros [[[<- <-]|[_ Hi]]|(r' & Hr' & Hd' & ->)]; [right|by left|right].
      * exists r. split_and!; [apply list_elem_of_here|done|done].
      * exists r'. split_and!; [by apply list_elem_of_further|done|done].
    + intros [Hi|(r' & Hr' & Hd' & ->)].
      * left. right. split; [|done]. intros ->. congruence.
      * apply elem_of_cons in Hr' as [->|Hr']; [left; left; split; congruence|right; by exists r'].
Qed.

(** A records file that loads has one record per digest, and a digest is looked up to the
    record that carries it, in whatever case its hexadecimal was written. *)
Theorem file_index_exact config text index :
  read_index config (Ok text) = Ok index ->
  exists records, record_file_from_str text = Ok records /\ NoDup (map (digest_of (fc_index config)) records)
    /\ forall d k, index !! d = Some k <->
         exists r, r ∈ records /\ digest_of (fc_index config) r = Ok d /\ k = record_of r.
Proof.
  cbn [read_index]. destruct (record_file_from_str text) as [records|]; [|done]. cbn [result_map_err]. intros E.
  exists records. apply index_records_ok in E as (Hn & _ & Hl). split_and!; [done|done|]. intros d k. rewrite Hl, lookup_empty.
  naive_solver.
Qed.
End Index.

(** ** The identity a credential is given *)

Section Identity.
Context `{Platform, HashOrder, RecordFormat} `{!Tracing}.

Lemma extracted_nonempty {M} loc headers (x : Extensions M) key : raw_from_ext loc headers x = Ok key -> key <> "".
Proof.
  unfold raw_from_ext, location_raw, extract_header, extract_cookie, extract_query_param. intros E.
  repeat match type of E with
  | context [match ?c with _ => _ end] => destruct c; try discriminate E
  end; by eapply gate_nonempty.
Qed.

(** The slot of the role holds what the map makes of the record; the others are as they were. *)
Definition projected (mapper : ConfiguredClaimMap) (role : TokenRole) (fields : ClaimMap) (before after : IdentityPayload) :
    Prop :=
  match role with
  | RoleUser =>
      (exists s, map_subject mapper fields = Some s /\ id_subject after = Some s)
      /\ id_client after = id_client before /\ id_caller_workload after = id_caller_workload before
  | RoleClient =>
      (exists c, map_client mapper fields = Some c /\ id_client after = Some c)
      /\ id_subject after = id_subject before /\ id_caller_workload after = id_caller_workload before
  | RoleCallerWorkload =>
      (exists w, map_workload mapper fields = Some w /\ id_caller_workload after = Some w)
      /\ id_subject after = id_subject before /\ id_client after = id_client before
  | RoleCustom _ => False
  end.

(** What a payload carries besides the identity slots. *)
Definition same_rest (before after : IdentityPayload) : Prop :=
  id_raw_credentials after = id_raw_credentials before /\ id_raw_claims after = id_raw_claims before
  /\ id_delegation after = id_delegation before /\ id_credential_declined after = id_credential_declined before
  /\ id_headers after = id_headers before /\ id_raw_token after = id_raw_token before.

Lemma project_ok mapper role fields p updated :
  project mapper role fields p = Ok updated -> projected mapper role fields p updated /\ same_rest p updated.
Proof.
  unfold project, projected. destruct role; [| | |done].
  - destruct (map_subject mapper fields) as [s|]; [|done]. intros [= <-]. split; [|by split_and!]. split_and!; [by exists s|done|done].
  - destruct (map_client mapper fields) as [s|]; [|done]. intros [= <-]. split; [|by split_and!]. split_and!; [by exists s|done|done].
  - destruct (map_workload mapper fields) as [s|]; [|done]. intros [= <-]. split; [|by split_and!]. split_and!; [by exists s|done|done].
Qed.

(** A resolver that loads: its settings, a map with a section for its role, a directory that
    enforces expiry where expiry is left to it, and at most one revocation window. *)
Lemma api_key_new_ok config settings text r :
  api_key_new config settings text = Ok r ->
  ar_settings r = settings /\ pg_mode config = Sequential /\ pg_on_error config = OeFail
  /\ result_is_ok (compiled_role (ccm_map (ar_mapper r)) (ak_role settings)) = true
  /\ (is_file (ak_provider settings) = true -> ak_expiry settings = ExpiryEnforce /\ ak_cache settings = None).
Proof.
  unfold api_key_new. case_bool_decide as Hm; cbn [negb orb]; [|done]. case_bool_decide as Ho; cbn [negb]; [|done].
  unfold api_key_validate. destruct (location_validate _); [|done]. cbn [result_map_err].
  destruct (record_map_compile _ _) as [mapper|]; [|done]. cbn [result_map_err].
  destruct (compiled_role (ccm_map mapper) (ak_role settings)) as [sec|] eqn:Er; [|done]. cbn [result_map_err].
  destruct (bool_decide (ak_expiry settings = ExpiryDirectory) && is_file (ak_provider settings)) eqn:Ee; [done|].
  destruct ((if ak_cache settings is Some _ then true else false) && is_file (ak_provider settings)) eqn:Ec; [done|].
  destruct ((if ak_credential settings is CredQueryParam _ then true else false) && _); [done|]. intros E. do 2 match type of E with (match ?c with Ok _ => _ | Err _ => _ end) = _ => destruct c; [|done] end.
  injection E as <-. cbn. rewrite Er. split_and!; try done.
  intros Hf. rewrite Hf, andb_true_r in Ee, Ec. apply bool_decide_eq_false in Ee.
  split; [by destruct (ak_expiry settings)|by destruct (ak_cache settings)].
Qed.

(** What a denial's code says. *)
Definition denial_exact (lookup : PresentedKey -> DirectoryAnswer) (extracted : result string ExtractionError)
    (code : string) : Prop :=
  (code = KEY_UNKNOWN <-> exists key, extracted = Ok key /\ lookup key = Ok None)
  /\ (code = DIRECTORY_UNAVAILABLE <-> exists key e, extracted = Ok key /\ lookup key = Err e)
  /\ code <> "auth.misconfigured".

Lemma denied_after lookup key answer code :
  lookup key = answer ->
  (code = KEY_UNKNOWN <-> answer = Ok None) -> (code = DIRECTORY_UNAVAILABLE <-> exists e, answer = Err e) ->
  code <> "auth.misconfigured" -> denial_exact lookup (Ok key) code.
Proof.
  intros <- Hku Hdu Hmc. split_and!; [|rewrite Hdu|done].
  - rewrite Hku. split; [by exists key|by intros (k & [= ->] & ?)].
  - split; [intros (e & ?); by exists key, e|intros (k & e & [= ->] & ?); by exists e].
Qed.

Lemma denied_before lookup e code :
  code <> KEY_UNKNOWN -> code <> DIRECTORY_UNAVAILABLE -> code <> "auth.misconfigured" -> denial_exact lookup (Err e) code.
Proof. intros Hku Hdu Hmc. split_and!; [split; [done|by intros (? & [=] & _)]|split; [done|by intros (? & ? & [=] & _)]|done]. Qed.

(** The resolver of an API key that loaded gives an identity only for a record the
    directory holds for the credential read from the configured place, not expired where it is
    to enforce that, and fills only the slot of its role: neither the credential nor anything
    else enters the payload. A credential of another population marks the payload as declined
    and nothing more. A denial says the key is unknown exactly when the directory answered so,
    and that the directory is unavailable exactly when it did not answer. *)
Theorem api_key_identity {M} config settings text self payload (x : Extensions M) lookup now :
  api_key_new config settings text = Ok self ->
  let extracted := raw_from_ext (ak_location settings) (id_headers payload) x in
  match api_key_handle self payload x lookup now with
  | IdModify p =>
      (extracted = Err ExWrongPrefix /\ p = mark_declined payload)
      \/ exists key record, extracted = Ok key /\ key <> "" /\ lookup key = Ok (Some record)
           /\ (ak_expiry settings = ExpiryEnforce -> forall at_, kr_expires_at record = Some at_ -> (now < at_)%Z)
           /\ projected (ar_mapper self) (ak_role settings) (kr_fields record) payload p /\ same_rest payload p
           /\ id_resolved_at p = Some now
  | IdDeny v => denial_exact lookup extracted (vi_code v)
  end.
Proof.
  intros Hn extracted. apply api_key_new_ok in Hn as (Hs & _ & _ & Hr & _). unfold api_key_handle. rewrite Hs. fold extracted.
  destruct extracted as [key|e] eqn:Ex.
  - assert (key <> "") as Hk by (by eapply extracted_nonempty).
    destruct (lookup key) as [[record|]|e] eqn:El.
    2: { eapply denied_after; [done|by split| |done]. split; [done|by intros [? [=]]]. }
    2: { eapply denied_after; [done|by split| |done]. split; [by exists e|done]. }
    assert (forall code, code <> KEY_UNKNOWN -> code <> DIRECTORY_UNAVAILABLE -> code <> "auth.misconfigured" ->
      denial_exact lookup (Ok key) code) as Hdeny.
    { intros code Hku Hdu Hmc. eapply denied_after; [done|by split| |done]. split; [done|by intros [? [=]]]. }
    destruct (expired _ record now) eqn:Ee; [by apply Hdeny|].
    destruct (project _ _ _ payload) as [updated|v] eqn:Ep.
    + right. exists key, record. apply project_ok in Ep as [Hp Hq]. split_and!; try done; try apply Hq.
      intros Hen at_ Hat. unfold expired in Ee. rewrite Hat, bool_decide_true in Ee by done. cbn in Ee. by apply Z.leb_gt in Ee.
    + unfold project in Ep. destruct (ak_role settings); [| | |done];
        match type of Ep with (match ?c with _ => _ end) = _ => destruct c; [done|] end; injection Ep as <-; by apply Hdeny.
  - destruct (no_credential _ e) as [v|] eqn:Ec; [|left; by destruct e].
    destruct e; cbn in Ec; simplify_eq; by apply denied_before.
Qed.
End Identity.

(** ** Examples *)

Section Examples.
#[local] Existing Instance ascii_platform.
#[local] Existing Instance map_order.
#[local] Instance quiet_log : Tracing := false.

(** Thirty-two bytes [a], for every credential. *)
#[local] Instance one_digest : Digest := {| sha256 _ := Ok (String.concat "" (repeat "a" 32)) |}.

Definition alice_record : FileRecord :=
  mkFileRecord ("SHA256:" +:+ String.concat "" (repeat "61" 32)) None (list_to_map [("user", JString "alice")]).

(** Two versions of the file: with the record and without. *)
#[local] Instance two_files : RecordFormat :=
  fun text => if String.eqb text "v0" then Ok [alice_record] else if String.eqb text "v1" then Ok [] else Err "not YAML".

Definition sample_file : FileDirectoryConfig := mkFileConfig "keys.yaml" IndexSha256 (Some 30%Z) (Some 60%Z).

Definition loaded_file : FileDirectory := mkFileDirectory (match read_index sample_file (Ok "v0") with Ok i => i | Err _ => ∅ end) 30000 0.

Lemma file_loads : file_directory_new sample_file (Ok "v0") = Ok loaded_file.
Proof. vm_compute. reflexivity. Qed.

Definition steps (i : nat) (texts : list (result string string)) : list FileEvent := map (FeStep i) texts.
Definition idle : result string string := Err "not read".

(** A lookup answered from the set loaded at start. *)
Definition early_lookup : list FileEvent := [FeTick 1000; FeBegin 1 "k"] ++ steps 1 [idle; idle; idle; idle; idle].

Definition after_lookup : FileWorld := foldl (file_world_step sample_file) (file_world loaded_file) early_lookup.

Definition alice : KeyRecord := record_of alice_record.

Definition answered_thread : FileThread := mkFileThread "k" 1000 0 0 (FpDone (Ok (Some alice))).

Lemma file_answers_recent_witness :
  fw_threads after_lookup !! 1 = Some answered_thread
  /\ file_justified sample_file 30 60 (fw_log after_lookup) 1000 "k" (Some alice).
Proof.
  assert (fw_threads after_lookup !! 1 = Some answered_thread) as E by (vm_compute; reflexivity).
  split; [exact E|].
  refine (file_answers_recent sample_file 30 60 _ eq_refl eq_refl loaded_file early_lookup eq_refl _ 1 answered_thread (Some alice) E eq_refl).
  - lia.
  - apply orderly_run_b_ok. vm_compute. reflexivity.
Defined.

(** Without that proviso the promise fails. Lookup 1 claims a reload, reads the file and stalls;
    lookup 2 claims the next and loads the file without the record; then lookup 1 publishes what
    it read, and dates it now. Lookup 3 is given a record that left the file long before, past
    ceiling and interval, while the file cannot be read. *)
Definition slow_reload : list FileEvent :=
  [FeTick 30000; FeBegin 1 "k"] ++ steps 1 [idle; idle; idle; Ok "v0"]
  ++ [FeTick 30000; FeBegin 2 "k"] ++ steps 2 [idle; idle; idle; Ok "v1"; idle; idle; idle; idle; idle; idle]
  ++ [FeTick 1000000000] ++ steps 1 [idle; idle; idle]
  ++ [FeTick 1; FeBegin 3 "k"] ++ steps 3 [idle; idle; idle; idle; idle; idle; idle].

Theorem slow_reload_revives :
  let w := foldl (file_world_step sample_file) (file_world loaded_file) slow_reload in
  exists t, fw_threads w !! 3 = Some t /\ ft_pc t = FpDone (Ok (Some alice))
    /\ ~ file_justified sample_file 30 60 (fw_log w) (ft_start t) (ft_key t) (Some alice).
Proof.
  eexists. split; [vm_compute; reflexivity|]. split; [reflexivity|]. cbn [ft_start ft_key].
  intros [[? _]|(at_ & index & digest & Hin & _ & _ & Hr)]; [done|].
  assert (Forall (fun x => (x.1 <= 60000)%Z) (fw_log (foldl (file_world_step sample_file) (file_world loaded_file) slow_reload))) as Hall
    by (vm_compute; repeat constructor; discriminate).
  rewrite Forall_forall in Hall. specialize (Hall _ Hin). unfold recent, interval, millis, saturating_mul, usize_max in Hr. cbn in Hall. lia.
Qed.

Definition key_settings : ApiKeyResolverConfig :=
  mkApiKeyConfig (CredHeader "x-api-key") None (ProviderFile sample_file)
    (mkClaimMapConfig (preset_section [("id", JString "user")]) None None) (mkOverrides [] []) RoleUser ExpiryEnforce None.

Definition key_plugin : PluginConfig :=
  mkPluginConfig "keys" "identity/api-key" None None None [] Sequential 100 OeFail ∅ [] [] None.

Definition key_payload : IdentityPayload :=
  mkIdentity "" SrcBearer None (list_to_map [("X-Api-Key", "k")]) None None None None None None None None ∅ false.

Definition no_request : Extensions unit := Extensions_default.

End Examples.
