(* ===== verification/Http.v ===== *)
(** * Outbound HTTP ([ppe-core/src/http.rs], [http_retry.rs], [host.rs])

    What a plugin's request ends in: the errors of a transport and what they say about the peer,
    the retry policies and the loop that keeps to them, the gate before it, and the encoding of
    a form. A request that must not be repeated reaches its peer at most once; a form can be
    read back. *)

From Stdlib Require Import Ascii String.
From S2P Require Import Prelude RustStr F64 Json Platform Lexical LexerProps Scan ExtData HttpPath Plugin Extensions Credential Dpop Jwt.

(** ** Errors and replies ([http.rs]) *)

Inductive HttpTransportError : Type :=
| TeTimeout
| TeConnect (m : string)
| TeIo (m : string)
| TeInvalidRequest (m : string)
| TeResponseTooLarge (actual limit : Z)
| TeRejected (m : string).

Definition may_have_reached_peer (e : HttpTransportError) : bool :=
  match e with
  | TeConnect _ | TeInvalidRequest _ | TeRejected _ => false
  | TeTimeout | TeIo _ | TeResponseTooLarge _ _ => true
  end.

Definition transport_error_display (e : HttpTransportError) : string :=
  match e with
  | TeTimeout => "request timed out"
  | TeConnect m => "connection failed: " +:+ m
  | TeIo m => "transport error: " +:+ m
  | TeInvalidRequest m => "malformed request: " +:+ m
  | TeResponseTooLarge actual limit =>
      "response body exceeded the " +:+ show_Z limit +:+ "-byte ceiling (saw at least " +:+ show_Z actual +:+ " bytes)"
  | TeRejected m => "request refused by the host: " +:+ m
  end.

Inductive HttpRequestError : Type :=
| ReqUnavailable (m : string)
| ReqTransport (e : HttpTransportError).

Record HttpReplyBody : Type := mkReplyBody {
  rp_status : Z;
  rp_body : string;
}.

Definition is_success (r : HttpReplyBody) : bool := ((200 <=? rp_status r) && (rp_status r <? 300))%Z.

(** ** Retries ([http_retry.rs]) *)

(** Durations are in nanoseconds. *)
Record RetryPolicy : Type := mkRetryPolicy {
  ry_max_attempts : Z;
  ry_initial_backoff : Z;
  ry_max_backoff : Z;
  ry_total_budget : option Z;
  ry_retry_delivered : bool;
}.

Definition from_millis (ms : Z) : Z := (ms * 1000000)%Z.

Definition retry_none : RetryPolicy := mkRetryPolicy 1 (from_millis 100) (from_secs 2) None false.
Definition idempotent : RetryPolicy := mkRetryPolicy 3 (from_millis 100) (from_secs 2) None true.
Definition undelivered_only : RetryPolicy := mkRetryPolicy 3 (from_millis 50) (from_millis 500) None false.

Definition with_total_budget (self : RetryPolicy) (budget : Z) : RetryPolicy :=
  mkRetryPolicy (ry_max_attempts self) (ry_initial_backoff self) (ry_max_backoff self) (Some budget) (ry_retry_delivered self).

Definition with_max_attempts (self : RetryPolicy) (attempts : Z) : RetryPolicy :=
  mkRetryPolicy attempts (ry_initial_backoff self) (ry_max_backoff self) (ry_total_budget self) (ry_retry_delivered self).

Definition should_retry (self : RetryPolicy) (err : HttpTransportError) : bool :=
  match err with
  | TeRejected _ | TeInvalidRequest _ | TeResponseTooLarge _ _ => false
  | other => ry_retry_delivered self || negb (may_have_reached_peer other)
  end.

(** [backoff_after]; [seq] is what the process-wide counter gives. *)
Definition backoff_after (self : RetryPolicy) (completed_attempts seq : Z) : Z :=
  let shift := Z.min (Z.max 0 (completed_attempts - 1)) 16 in
  let exponential := Z.min (Z.min duration_max (ry_initial_backoff self * 2 ^ shift)) (ry_max_backoff self) in
  let ceiling := (exponential / 1000000)%Z in
  if (usize_max <? ceiling)%Z then ry_max_backoff self
  else if (ceiling =? 0)%Z then 0%Z
  else
    let spread := Z.shiftr ((seq * 0x9E3779B97F4A7C15) mod 2 ^ 64) 32 in
    from_millis (spread mod (ceiling + 1)).

(** What one attempt meets: the transport's answer, the counter, the time spent so far. *)
Record AttemptEnv : Type := mkAttempt {
  ae_answer : result HttpReplyBody HttpTransportError;
  ae_seq : Z;
  ae_spent : Z;
}.

(** [Duration + Duration], which panics on overflow. *)
Definition duration_add (a b : Z) : option Z := if (duration_max <? a + b)%Z then None else Some (a + b)%Z.

(** Does the budget cover another attempt after this delay? [None] when the sum overflows. *)
Definition budget_covers (policy : RetryPolicy) (timeout delay spent : Z) : option bool :=
  match ry_total_budget policy with
  | Some budget =>
      waited ← duration_add spent delay;
      total ← duration_add waited timeout;
      Some (negb (budget <? total)%Z)
  | None => Some true
  end.

(** The loop of [execute_with_retry] after [attempt] attempts, and the attempts it makes.
    [None] when a sum of durations overflows (a panic), or the fuel is spent. *)
Fixpoint retry_loop (fuel : nat) (policy : RetryPolicy) (timeout attempt : Z) (env : Z -> AttemptEnv) :
    option (result HttpReplyBody HttpTransportError * list AttemptEnv) :=
  match fuel with
  | O => None
  | S fuel' =>
      let attempt := (attempt + 1)%Z in
      let made := env attempt in
      match ae_answer made with
      | Ok resp => Some (Ok resp, [made])
      | Err err =>
          if (ry_max_attempts policy <=? attempt)%Z || negb (should_retry policy err) then Some (Err err, [made])
          else
            match budget_covers policy timeout (backoff_after policy attempt (ae_seq made)) (ae_spent made) with
            | None => None
            | Some false => Some (Err err, [made])
            | Some true =>
                option_map (fun out => (out.1, made :: out.2)) (retry_loop fuel' policy timeout attempt env)
            end
      end
  end.

Definition execute_with_retry (policy : RetryPolicy) (timeout : Z) (env : Z -> AttemptEnv) :
    option (result HttpReplyBody HttpTransportError * list AttemptEnv) :=
  retry_loop (S (Z.to_nat (ry_max_attempts policy))) policy timeout 0 env.

(** ** The gate ([host.rs]) *)

(** [ServiceError]'s text for a transport that is missing or withheld. *)
Definition service_error (slot : HttpTransportSlot) : option string :=
  match slot with
  | TransportNotInstalled =>
      Some "needs the 'http' host service, but none is installed; the embedding host must install one before initializing the engine"
  | TransportNotPermitted =>
      Some "needs the 'http' host service but does not declare 'perform_http'; add it to the plugin's `capabilities` in config"
  | TransportAvailable _ => None
  end.

(** [start_request] and the future it makes. *)
Definition run_request (slot : HttpTransportSlot) (policy : RetryPolicy) (timeout : Z) (env : Z -> AttemptEnv) :
    option (result HttpReplyBody HttpRequestError * list AttemptEnv) :=
  match service_error slot with
  | Some e => Some (Err (ReqUnavailable e), [])
  | None => option_map (fun out => (result_map_err ReqTransport out.1, out.2)) (execute_with_retry policy timeout env)
  end.

(** ** A request that must not be repeated reaches its peer at most once *)

Definition reached (a : AttemptEnv) : bool :=
  match ae_answer a with Ok _ => true | Err e => may_have_reached_peer e end.

(** The [n]-th attempt, after which the loop went on: its error may be repeated, and the
    budget covers the time spent, the delay and a whole further attempt. *)
Definition went_on (policy : RetryPolicy) (timeout n : Z) (a : AttemptEnv) : Prop :=
  (exists e, ae_answer a = Err e /\ should_retry policy e = true)
  /\ forall budget, ry_total_budget policy = Some budget ->
       (ae_spent a + backoff_after policy n (ae_seq a) + timeout <= budget)%Z.

(** The settings of a policy and the clock are such that no sum the budget check makes
    overflows a [Duration]. *)
Record durations_fit (policy : RetryPolicy) (timeout : Z) (env : Z -> AttemptEnv) : Prop := {
  df_initial : (0 <= ry_initial_backoff policy)%Z;
  df_max : (0 <= ry_max_backoff policy)%Z;
  df_spent : ry_total_budget policy <> None ->
    forall n, (0 <= ae_spent (env n) /\ 0 <= timeout /\ ae_spent (env n) + ry_max_backoff policy + timeout <= duration_max)%Z;
}.

Lemma backoff_bounds policy n seq :
  (0 <= ry_initial_backoff policy)%Z -> (0 <= ry_max_backoff policy)%Z ->
  (0 <= backoff_after policy n seq <= ry_max_backoff policy)%Z.
Proof.
  intros Hi Hm. unfold backoff_after. destruct (_ <? _)%Z; [lia|]. destruct (_ =? 0)%Z eqn:Ez; [lia|].
  set (x := Z.min (Z.min _ _) _). set (c := (x / 1000000)%Z) in *. assert (0 <= x <= ry_max_backoff policy)%Z as Hx.
  { unfold x, duration_max. assert (0 <= 2 ^ Z.min (Z.max 0 (n - 1)) 16)%Z by (apply Z.pow_nonneg; lia). nia. }
  assert (0 <= c /\ c * 1000000 <= x)%Z by (unfold c; pose proof (Z.mul_div_le x 1000000); pose proof (Z.div_pos x 1000000); lia).
  unfold from_millis. pose proof (Z.mod_pos_bound (Z.shiftr ((seq * 0x9E3779B97F4A7C15) mod 2 ^ 64) 32) (c + 1) ltac:(lia)). lia.
Qed.

(** Under [durations_fit] the check answers, and what it answers is the sum itself. *)
Lemma budget_covers_fits policy timeout env n k :
  durations_fit policy timeout env ->
  let delay := backoff_after policy k (ae_seq (env n)) in
  exists b, budget_covers policy timeout delay (ae_spent (env n)) = Some b
    /\ (b = true -> forall budget, ry_total_budget policy = Some budget ->
          (ae_spent (env n) + delay + timeout <= budget)%Z).
Proof.
  intros [Hi Hm Hs] delay. unfold budget_covers, duration_add.
  destruct (ry_total_budget policy) as [budget|]; [|by exists true].
  pose proof (backoff_bounds policy k (ae_seq (env n)) Hi Hm). fold delay in H. destruct (Hs ltac:(done) n) as (? & ? & ?).
  rewrite (proj2 (Z.ltb_ge _ _)) by lia. cbn [mbind option_bind]. rewrite (proj2 (Z.ltb_ge _ _)) by lia. cbn [mbind option_bind].
  eexists. split; [done|]. intros Hb%negb_true_iff%Z.ltb_ge budget' [= <-]. lia.
Qed.

(** What the loop returns from [attempt] on: the attempts [attempt + 1], [attempt + 2], ... in order. *)
Definition attempts_from (policy : RetryPolicy) (timeout attempt : Z) (env : Z -> AttemptEnv)
    (earlier : list AttemptEnv) (last : AttemptEnv) : Prop :=
  (forall k a, (earlier ++ [last]) !! k = Some a -> a = env (attempt + 1 + Z.of_nat k)%Z)
  /\ (forall k a, earlier !! k = Some a -> went_on policy timeout (attempt + 1 + Z.of_nat k) a).

Lemma retry_loop_spec policy timeout env : durations_fit policy timeout env ->
  forall fuel attempt, (0 <= attempt)%Z -> Z.to_nat (ry_max_attempts policy - attempt) < fuel ->
  exists r earlier last,
    retry_loop fuel policy timeout attempt env = Some (r, earlier ++ [last])
    /\ ae_answer last = r /\ attempts_from policy timeout attempt env earlier last
    /\ (Z.of_nat (length earlier) <= Z.max 0 (ry_max_attempts policy - attempt - 1))%Z.
Proof.
  intros Hfit fuel. induction fuel as [|fuel IH]; intros attempt Ha Hf; [lia|]. cbn [retry_loop].
  set (made := env (attempt + 1)%Z).
  assert (forall r, ae_answer made = r -> exists r' earlier last, Some (r, [made]) = Some (r', earlier ++ [last])
    /\ ae_answer last = r' /\ attempts_from policy timeout attempt env earlier last
    /\ (Z.of_nat (length earlier) <= Z.max 0 (ry_max_attempts policy - attempt - 1))%Z) as Hend.
  { intros r Hr. exists r, [], made. split_and!; [done|done| |cbn; lia].
    split; intros [|k] a; cbn; try done. intros [= <-]. unfold made. f_equal. lia. }
  destruct (ae_answer made) as [resp|err] eqn:Em; [by apply Hend|].
  destruct (ry_max_attempts policy <=? attempt + 1)%Z eqn:El; cbn [orb]; [by apply Hend|]. apply Z.leb_gt in El.
  destruct (should_retry policy err) eqn:Es; cbn [negb]; [|by apply Hend].
  destruct (budget_covers_fits policy timeout env (attempt + 1) (attempt + 1) Hfit) as ([] & Eb & Hb); fold made in Eb, Hb;
    rewrite Eb; [|by apply Hend].
  destruct (IH (attempt + 1)%Z ltac:(lia) ltac:(lia)) as (r & earlier & last & -> & Hl & [Hat Hall] & Hlen).
  exists r, (made :: earlier), last. split_and!; [done|done| |cbn [length]; lia].
  split; intros [|k] a; cbn.
  - intros [= <-]. unfold made. f_equal. lia.
  - intros Hk%Hat. rewrite Hk. f_equal. lia.
  - intros [= <-]. rewrite Z.add_0_r. split; [by exists err|by apply Hb].
  - intros Hk%Hall. replace (attempt + 1 + Z.of_nat (S k))%Z with (attempt + 1 + 1 + Z.of_nat k)%Z by lia. done.
Qed.

Lemma went_on_unreached policy timeout n a :
  ry_retry_delivered policy = false -> went_on policy timeout n a -> reached a = false.
Proof.
  intros Hd [(e & He & Hs) _]. unfold reached. rewrite He. destruct e; cbn in *; try done; rewrite Hd in Hs; done.
Qed.

(** Claim C25. Whatever the transport answers, a request under a retry policy whose durations
    add up within a [Duration] ends, after at least one attempt and no more than the policy
    allows, with the answer to the last of them. Under a policy for operations that must not
    be repeated, at most one attempt may have reached the peer: every attempt that is followed
    by another failed before anything was sent. With a budget, the [k]-th attempt is repeated
    only while the time spent, the backoff delay after it and a whole further attempt fit in
    it. *)
Theorem delivered_at_most_once policy timeout env :
  durations_fit policy timeout env ->
  exists r earlier last,
    execute_with_retry policy timeout env = Some (r, earlier ++ [last]) /\ ae_answer last = r
    /\ (Z.of_nat (length (earlier ++ [last])) <= Z.max 1 (ry_max_attempts policy))%Z
    /\ (forall k a, (earlier ++ [last]) !! k = Some a -> a = env (Z.of_nat (S k)))
    /\ (ry_retry_delivered policy = false -> Forall (fun a => reached a = false) earlier)
    /\ forall budget k a, ry_total_budget policy = Some budget -> earlier !! k = Some a ->
         (ae_spent a + backoff_after policy (Z.of_nat (S k)) (ae_seq a) + timeout <= budget)%Z.
Proof.
  intros Hfit. destruct (retry_loop_spec policy timeout env Hfit (S (Z.to_nat (ry_max_attempts policy))) 0) as
    (r & earlier & last & He & Hl & [Hat Hall] & Hlen); [lia|lia|].
  assert (Hn : forall k, (0 + 1 + Z.of_nat k)%Z = Z.of_nat (S k)) by lia. setoid_rewrite Hn in Hat. setoid_rewrite Hn in Hall.
  exists r, earlier, last. split_and!; [done|done|rewrite length_app; cbn; lia|done| |].
  - intros Hd. rewrite Forall_lookup. intros k a Hk. by eapply went_on_unreached, Hall.
  - intros budget k a Hb Hk. by apply (Hall k a Hk).
Qed.

(** Two refusals, then a timeout; a budget of eleven seconds and attempts of five. *)
Definition w_retry_env (n : Z) : AttemptEnv :=
  mkAttempt (if (n <? 3)%Z then Err (TeConnect "refused") else Err TeTimeout) n
    (Z.min 3 (Z.max 0 n) * from_secs 1).

Lemma delivered_at_most_once_witness :
  let policy := with_total_budget undelivered_only (from_secs 11) in
  exists r earlier last,
    execute_with_retry policy (from_secs 5) w_retry_env = Some (r, earlier ++ [last])
    /\ r = Err TeTimeout /\ length earlier = 2 /\ Forall (fun a => reached a = false) earlier.
Proof.
  intros policy. destruct (delivered_at_most_once policy (from_secs 5) w_retry_env)
    as (r & earlier & last & He & Hl & _ & _ & Hu & _).
  { split; [by vm_compute..|]. intros _ n. cbn [ae_spent w_retry_env].
    assert (0 <= Z.min 3 (Z.max 0 n) <= 3)%Z by lia. unfold policy, duration_max, from_secs. cbn. unfold from_millis. lia. }
  exists r, earlier, last. split; [exact He|].
  vm_compute in He. injection He as Hr Hm.
  destruct earlier as [|a [|b [|c e]]]; try discriminate Hm.
  - split; [symmetry; exact Hr|]. split; [reflexivity|]. apply Hu. reflexivity.
  - exfalso. injection Hm as _ _ _ Hm. destruct e; discriminate Hm.
Defined.

(** ** Forms ([form_urlencode] of [http.rs]) *)

(** [char::from_digit] in base 16, in upper case. *)
Definition hex_upper (n : N) : ascii := ascii_of_N (if (n <? 10)%N then 48 + n else 55 + n).

Definition form_unreserved (a : ascii) : bool :=
  is_ascii_alphanumeric a || Ascii.eqb a "*" || Ascii.eqb a "-" || Ascii.eqb a "." || Ascii.eqb a "_".

Definition encode_byte (a : ascii) : string :=
  if form_unreserved a then String a ""
  else if Ascii.eqb a " " then "+"
  else String "%" (String (hex_upper (N.shiftr (N_of_ascii a) 4)) (String (hex_upper (N.land (N_of_ascii a) 15)) "")).

Fixpoint encode_into (raw : string) : string :=
  match raw with
  | EmptyString => ""
  | String a raw' => encode_byte a +:+ encode_into raw'
  end.

Fixpoint form_urlencode (pairs : list (string * string)) : string :=
  match pairs with
  | [] => ""
  | [(key, value)] => encode_into key +:+ "=" +:+ encode_into value
  | (key, value) :: pairs' => encode_into key +:+ "=" +:+ encode_into value +:+ "&" +:+ form_urlencode pairs'
  end.

(** How a peer reads a form back: pairs between ampersands, a name before the first equals
    sign, a plus for a space, a percent sign before two hexadecimal digits. *)
Fixpoint form_value (s : string) : string :=
  match s with
  | EmptyString => ""
  | String a s' =>
      if Ascii.eqb a "+" then String " " (form_value s')
      else if Ascii.eqb a "%" then
        match s' with
        | String hi (String lo s'') =>
            match to_hex_digit hi, to_hex_digit lo with
            | Some h, Some l => String (ascii_of_N (16 * h + l)) (form_value s'')
            | _, _ => String a (form_value s')
            end
        | _ => String a (form_value s')
        end
      else String a (form_value s')
  end.

Definition form_pair (s : string) : string * string :=
  match split "=" s with
  | [] => ("", "")
  | key :: rest => (form_value key, form_value (String.concat "=" rest))
  end.

Definition form_read (s : string) : list (string * string) :=
  if String.eqb s "" then [] else map form_pair (split "&" s).

Lemma encode_byte_read a s : form_value (encode_byte a +:+ s) = String a (form_value s).
Proof. destruct a as [[] [] [] [] [] [] [] []]; reflexivity. Qed.

Lemma encode_read s : form_value (encode_into s) = s.
Proof. induction s as [|a s IH]; [done|]. cbn [encode_into]. by rewrite encode_byte_read, IH. Qed.

Definition plain_octet (a : ascii) : bool := negb (Ascii.eqb a "&") && negb (Ascii.eqb a "=").

Lemma encode_byte_plain a : string_forall plain_octet (encode_byte a) = true.
Proof. destruct a as [[] [] [] [] [] [] [] []]; reflexivity. Qed.

Lemma encode_plain s : string_forall plain_octet (encode_into s) = true.
Proof.
  induction s as [|a s IH]; [done|]. cbn [encode_into]. rewrite string_forall_app. by rewrite encode_byte_plain, IH.
Qed.

Lemma split_free_app c a b :
  string_forall (fun x => negb (Ascii.eqb x c)) a = true -> split c (a +:+ String c b) = a :: split c b.
Proof.
  induction a as [|x a IH]; simpl; intros Ha; [by rewrite Ascii.eqb_refl|]. apply andb_true_iff in Ha as [Hx Ha].
  apply negb_true_iff in Hx. by rewrite Hx, IH.
Qed.

Lemma split_free_all c a : string_forall (fun x => negb (Ascii.eqb x c)) a = true -> split c a = [a].
Proof.
  induction a as [|x a IH]; simpl; intros Ha; [done|]. apply andb_true_iff in Ha as [Hx Ha].
  apply negb_true_iff in Hx. by rewrite Hx, IH.
Qed.

Lemma pair_plain key value :
  string_forall (fun x => negb (Ascii.eqb x "&")) (encode_into key +:+ "=" +:+ encode_into value) = true.
Proof.
  assert (forall s, string_forall (fun x => negb (Ascii.eqb x "&")) (encode_into s) = true) as Hs.
  { intros s. eapply string_forall_impl; [|apply encode_plain]. intros a [Ha _]%andb_true_iff. done. }
  rewrite !string_forall_app, !Hs. done.
Qed.

Lemma pair_read key value : form_pair (encode_into key +:+ "=" +:+ encode_into value) = (key, value).
Proof.
  assert (forall s, string_forall (fun x => negb (Ascii.eqb x "=")) (encode_into s) = true) as Hs.
  { intros s. eapply string_forall_impl; [|apply encode_plain]. intros a [_ Ha]%andb_true_iff. done. }
  unfold form_pair. change ("=" +:+ encode_into value) with (String "=" (encode_into value)).
  rewrite split_free_app by done. rewrite split_free_all by done. cbn. by rewrite !encode_read.
Qed.

(** The body of a form, read back, gives the pairs that were sent. *)
Theorem form_round_trip pairs : form_read (form_urlencode pairs) = pairs.
Proof.
  assert (forall key value rest, encode_into key +:+ "=" +:+ rest <> "" /\ form_pair (encode_into key +:+ "=" +:+ encode_into value) = (key, value)) as Hne.
  { intros key value rest. split; [|apply pair_read]. destruct (encode_into key); done. }
  induction pairs as [|[key value] [|next pairs] IH]; [done| |].
  - unfold form_read. cbn [form_urlencode]. destruct (String.eqb_spec (encode_into key +:+ "=" +:+ encode_into value) "") as [E|_].
    { by destruct (Hne key value (encode_into value)). }
    rewrite split_free_all by apply pair_plain. cbn [map]. by rewrite pair_read.
  - change (form_urlencode ((key, value) :: next :: pairs))
      with (encode_into key +:+ "=" +:+ encode_into value +:+ String "&" (form_urlencode (next :: pairs))).
    unfold form_read in *. destruct (String.eqb_spec (form_urlencode (next :: pairs)) "") as [E|_]; [done|].
    destruct (String.eqb_spec (encode_into key +:+ "=" +:+ encode_into value +:+ String "&" (form_urlencode (next :: pairs))) "")
      as [E|_]; [by apply Hne in E|].
    replace (encode_into key +:+ "=" +:+ encode_into value +:+ String "&" (form_urlencode (next :: pairs)))
      with ((encode_into key +:+ "=" +:+ encode_into value) +:+ String "&" (form_urlencode (next :: pairs)))
      by (by rewrite !append_assoc).
    rewrite split_free_app by apply pair_plain. cbn [map]. by rewrite pair_read, IH.
Qed.
