(* ===== verification/Ciba.v ===== *)
(** * Human approval over CIBA ([builtins/src/plugins/elicitation_ciba/]: [store.rs], [approver.rs])

    The store of approvals in flight, the three operations of the approver, and what an approval
    that is redeemed rests on when requests, polls and redemptions interleave. *)

From Stdlib Require Import Ascii String.
From S2P Require Import Prelude RustStr F64 Json Platform Lexical Scan ExtData HttpPath Plugin Extensions Hooks Config.
From S2P Require Import DecisionCache Bridge Runtime Session Delegation Credential ClaimMap Dpop Jwt ApiKey Http.

(** ** The correlation store ([store.rs]) *)

Record Correlation : Type := mkCorrelation {
  co_expected_approver : string;
  co_resolved_approver : option string;
  co_route_key : string;
  co_tool : string;
  co_requester : string;
  co_expires_at : DateTime;
}.

#[global] Instance Correlation_eq_dec : EqDecision Correlation.
Proof. solve_decision. Defined.

Inductive TakeResult : Type :=
| TakeMissing
| TakeBindingMismatch
| TakePending
| TakeReady (c : Correlation).

Inductive PollClaim : Type := ClaimAcquired | ClaimBusy | ClaimResolved | ClaimMissing | ClaimBindingMismatch | ClaimUncertain.

Definition StoreError : Type := string.

(** The times an operation reads: the wall clock and the monotonic one. *)
Record Times : Type := mkTimes {
  tm_now : DateTime;
  tm_instant : Z;
}.

Definition bound_to_request (c : Correlation) (route_key tool requester : string) : bool :=
  String.eqb (co_route_key c) route_key && String.eqb (co_tool c) tool && String.eqb (co_requester c) requester.

Definition resolve_with (c : Correlation) (approver : string) : Correlation :=
  mkCorrelation (co_expected_approver c) (Some approver) (co_route_key c) (co_tool c) (co_requester c) (co_expires_at c).

Class CorrelationStore (S : Type) := {
  st_put : S -> Times -> string -> Correlation -> result unit StoreError * S;
  st_get : S -> Times -> string -> result (option Correlation) StoreError * S;
  st_claim_poll : S -> Times -> string -> string -> Z -> string -> string -> string -> result PollClaim StoreError * S;
  st_release_poll : S -> Times -> string -> string -> result unit StoreError * S;
  st_complete_poll : S -> Times -> string -> string -> string -> result unit StoreError * S;
  st_abandon_poll : S -> Times -> string -> string -> result unit StoreError * S;
  st_take_if_ready : S -> Times -> string -> string -> string -> string -> result TakeResult StoreError * S;
}.

Inductive MemoryPoll : Type :=
| PollInFlight (owner : string) (deadline : Z)
| PollUncertain.

Record MemoryState : Type := mkMemoryState {
  ms_correlations : gmap string Correlation;
  ms_polls : gmap string MemoryPoll;
}.

(** [MemoryState::retain_live]. *)
Definition memory_retain_live (now : DateTime) (s : MemoryState) : MemoryState :=
  let live := filter (fun '(_, c) => (now < co_expires_at c)%Z) (ms_correlations s) in
  mkMemoryState live (filter (fun '(id, _) => is_Some (live !! id)) (ms_polls s)).

(** [require_owner]. *)
Definition require_owner (polls : gmap string MemoryPoll) (id owner : string) (instant : Z) : result unit StoreError :=
  match polls !! id with
  | Some (PollInFlight current deadline) =>
      if String.eqb current owner && (instant <? deadline)%Z then Ok tt else Err "poll claim is no longer owned"
  | _ => Err "poll claim is no longer owned"
  end.

Definition set_poll (s : MemoryState) (id : string) (p : MemoryPoll) : MemoryState :=
  mkMemoryState (ms_correlations s) (<[id := p]> (ms_polls s)).

Definition drop_poll (s : MemoryState) (id : string) : MemoryState :=
  mkMemoryState (ms_correlations s) (delete id (ms_polls s)).

Definition memory_put (s : MemoryState) (t : Times) (id : string) (c : Correlation) : result unit StoreError * MemoryState :=
  let s := memory_retain_live (tm_now t) s in
  (Ok tt, mkMemoryState (<[id := c]> (ms_correlations s)) (delete id (ms_polls s))).

Definition memory_get (s : MemoryState) (t : Times) (id : string) : result (option Correlation) StoreError * MemoryState :=
  let s := memory_retain_live (tm_now t) s in (Ok (ms_correlations s !! id), s).

(** [Instant::checked_add] fails past what the platform's clock can hold, [instant_max]. *)
Definition memory_claim_poll (instant_max : Z) (s : MemoryState) (t : Times) (id owner : string) (lease : Z)
    (route_key tool requester : string) : result PollClaim StoreError * MemoryState :=
  let s := memory_retain_live (tm_now t) s in
  match ms_correlations s !! id with
  | None => (Ok ClaimMissing, s)
  | Some c =>
      if negb (bound_to_request c route_key tool requester) then (Ok ClaimBindingMismatch, s)
      else if (if co_resolved_approver c is Some _ then true else false) then (Ok ClaimResolved, s)
      else
        match ms_polls s !! id with
        | Some PollUncertain => (Ok ClaimUncertain, s)
        | Some (PollInFlight _ deadline) =>
            if (deadline <=? tm_instant t)%Z then (Ok ClaimUncertain, set_poll s id PollUncertain) else (Ok ClaimBusy, s)
        | None =>
            if (instant_max <? tm_instant t + lease)%Z then (Err "poll lease is too large", s)
            else (Ok ClaimAcquired, set_poll s id (PollInFlight owner (tm_instant t + lease)))
        end
  end.

Definition memory_release_poll (s : MemoryState) (t : Times) (id owner : string) : result unit StoreError * MemoryState :=
  let s := memory_retain_live (tm_now t) s in
  match require_owner (ms_polls s) id owner (tm_instant t) with
  | Err e => (Err e, s)
  | Ok _ => (Ok tt, drop_poll s id)
  end.

Definition memory_complete_poll (s : MemoryState) (t : Times) (id owner approver : string) :
    result unit StoreError * MemoryState :=
  let s := memory_retain_live (tm_now t) s in
  match require_owner (ms_polls s) id owner (tm_instant t) with
  | Err e => (Err e, s)
  | Ok _ =>
      match ms_correlations s !! id with
      | None => (Err "poll correlation expired", s)
      | Some c => (Ok tt, drop_poll (mkMemoryState (<[id := resolve_with c approver]> (ms_correlations s)) (ms_polls s)) id)
      end
  end.

Definition memory_abandon_poll (s : MemoryState) (t : Times) (id owner : string) : result unit StoreError * MemoryState :=
  let s := memory_retain_live (tm_now t) s in
  match require_owner (ms_polls s) id owner (tm_instant t) with
  | Err e => (Err e, s)
  | Ok _ => (Ok tt, set_poll s id PollUncertain)
  end.

(** [set_resolved_approver], which no operation of the approver calls. *)
Definition memory_set_resolved_approver (s : MemoryState) (t : Times) (id approver : string) : MemoryState :=
  let s := memory_retain_live (tm_now t) s in
  match ms_correlations s !! id with
  | Some c => mkMemoryState (<[id := resolve_with c approver]> (ms_correlations s)) (ms_polls s)
  | None => s
  end.

Definition memory_take_if_ready (s : MemoryState) (t : Times) (id route_key tool requester : string) :
    result TakeResult StoreError * MemoryState :=
  let s := memory_retain_live (tm_now t) s in
  match ms_correlations s !! id with
  | None => (Ok TakeMissing, s)
  | Some c =>
      if negb (bound_to_request c route_key tool requester) then (Ok TakeBindingMismatch, s)
      else if (if co_resolved_approver c is None then true else false) then (Ok TakePending, s)
      else (Ok (TakeReady c), mkMemoryState (delete id (ms_correlations s)) (delete id (ms_polls s)))
  end.

Definition memory_store (instant_max : Z) : CorrelationStore MemoryState := {|
  st_put := memory_put;
  st_get := memory_get;
  st_claim_poll := memory_claim_poll instant_max;
  st_release_poll := memory_release_poll;
  st_complete_poll := memory_complete_poll;
  st_abandon_poll := memory_abandon_poll;
  st_take_if_ready := memory_take_if_ready;
|}.

(** What the crates and derived deserializers make of a body, and [chrono]'s checked addition of
    seconds to a time. *)
Class CibaFormat := {
  (** [BackchannelResponse]: [auth_req_id] and [expires_in]. *)
  backchannel_of : string -> result (string * option Z) string;
  (** [TokenResponse]: [access_token] and [id_token]. *)
  token_response_of : string -> result (option string * option string) string;
  (** [OAuthError], its [error]. *)
  oauth_error_of : string -> result string string;
  checked_add_seconds : DateTime -> Z -> option DateTime;
}.

(** ** Settings ([config.rs]) *)

Record CibaConfig : Type := mkCibaConfig {
  cb_backchannel_endpoint : string;
  cb_token_endpoint : string;
  cb_client_id : string;
  cb_scope : string;
  cb_default_requested_expiry_seconds : Z;
  cb_http_timeout_seconds : Z;
  cb_approver_claim : string;
  cb_insecure_http : bool;
}.

(** [require_https] of the approver: is plaintext refused? *)
Definition plaintext_refused (url : string) (insecure_http : bool) : bool :=
  let lowered := to_ascii_lowercase (trim_start url) in
  negb (starts_with "https://" lowered) && starts_with "http://" lowered && negb insecure_http.

Inductive CibaConfigError : Type :=
| EndpointEmpty (field : string)
| EndpointPlaintext (field url : string)
| ClientIdEmpty
| SecretUnresolved (message : string).

Fixpoint check_endpoints (insecure_http : bool) (l : list (string * string)) : result unit CibaConfigError :=
  match l with
  | [] => Ok tt
  | (field, url) :: l' =>
      if String.eqb (trim url) "" then Err (EndpointEmpty field)
      else if plaintext_refused url insecure_http then Err (EndpointPlaintext field url)
      else check_endpoints insecure_http l'
  end.

(** The checks of [CibaApprover::with_context] on settings that parsed; [secret] is what the
    secret's source gives. *)
Definition ciba_new (typed : CibaConfig) (secret : result string string) : result string CibaConfigError :=
  let? _ := check_endpoints (cb_insecure_http typed)
              [("backchannel_endpoint", cb_backchannel_endpoint typed); ("token_endpoint", cb_token_endpoint typed)] in
  if String.eqb (trim (cb_client_id typed)) "" then Err ClientIdEmpty
  else result_map_err SecretUnresolved secret.

(** ** Helpers of the approver ([approver.rs]) *)

(** The loop of [sanitize_binding_message]. *)
Fixpoint binding_chars (prev_dash started : bool) (l : list string) : string :=
  match l with
  | [] => ""
  | ch :: l' =>
      match ch with
      | String a EmptyString =>
          if is_ascii_alphanumeric a then String a (binding_chars false true l')
          else if is_whitespace ch && started && negb prev_dash then String "-" (binding_chars true true l')
          else binding_chars prev_dash started l'
      | _ =>
          if is_whitespace ch && started && negb prev_dash then String "-" (binding_chars true true l')
          else binding_chars prev_dash started l'
      end
  end.

(** [str::trim_end_matches('-')]. *)
Fixpoint trim_end_dashes (s : string) : string :=
  match s with
  | EmptyString => ""
  | String a s' =>
      match trim_end_dashes s' with
      | EmptyString => if Ascii.eqb a "-" then "" else String a ""
      | rest => String a rest
      end
  end.

Definition sanitize_binding_message (purpose : string) : string :=
  trim_end_dashes (String.substring 0 50 (binding_chars false false (chars purpose))).

(** [parse_duration_secs]; the product wraps at 64 bits. *)
Definition parse_duration_secs (s : string) : option Z :=
  let s := trim s in
  let parsed :=
    match Scan.strip_suffix "s" s with
    | Some rest => Some (rest, 1%Z)
    | None =>
        match Scan.strip_suffix "m" s with
        | Some rest => Some (rest, 60%Z)
        | None =>
            match Scan.strip_suffix "h" s with
            | Some rest => Some (rest, 3600%Z)
            | None =>
                match Scan.strip_suffix "d" s with
                | Some rest => Some (rest, 86400%Z)
                | None =>
                    match list_ascii_of_string (string_rev s) with
                    | a :: _ => if is_ascii_digit a then Some (s, 1%Z) else None
                    | [] => None
                    end
                end
            end
        end
    end in
  match parsed with
  | Some (num, mult) => option_map (fun n => (n * mult) mod 2 ^ 64)%Z (parse_usize (trim num))
  | None => None
  end.

(** [decode_jwt_claim]. *)
Definition decode_jwt_claim `{Jose} (token claim : string) : option string :=
  match split "." token with
  | _ :: payload :: _ =>
      match b64url_decode payload ≫= json_from_slice with
      | Some value => value_get claim value ≫= as_str
      | None => None
      end
  | _ => None
  end.

Inductive CibaResult : Type :=
| CrDeny (v : PluginViolation)
| CrModify (payload : ElicitationPayload).

Definition ciba_deny (code reason : string) : CibaResult := CrDeny (violation_new code reason).

Definition store_unavailable : CibaResult :=
  ciba_deny STORE_UNAVAILABLE_CODE "approval state is unavailable (fail-closed)".

Definition unknown_id : CibaResult := ciba_deny "elicitation.unknown_id" "unknown elicitation id".

Definition binding_mismatch : CibaResult :=
  ciba_deny "elicitation.binding_mismatch" "approval belongs to another route, tool, or requester".

(** The fields a handler writes. *)
Definition write_payload (p : ElicitationPayload) (id : option string) (status : option ElicitationStatusKind)
    (outcome : option ElicitationOutcomeKind) (approver expires_at : option string) (valid : option bool)
    (reason : option string) : ElicitationPayload :=
  mkElicitationPayload (ep_operation p) (ep_elicitation_id p) (ep_elicit_kind p) (ep_from p) (ep_purpose p) (ep_scope p)
    (ep_timeout p) (ep_channel p) (ep_route_key p) (ep_tool p) (ep_requester p) (ep_peek p) id status outcome approver
    (ep_intent_id p) expires_at valid reason (ep_metadata p).

Definition with_check_status (p : ElicitationPayload) (status : ElicitationStatusKind) (outcome : option ElicitationOutcomeKind) :
    ElicitationPayload :=
  write_payload p (ep_id p) (Some status) outcome (ep_approver p) (ep_expires_at p) (ep_valid p) (ep_reason p).

Definition with_verdict (p : ElicitationPayload) (approver : option string) (valid : bool) (reason : option string) :
    ElicitationPayload :=
  write_payload p (ep_id p) (ep_status p) (ep_outcome p) approver (ep_expires_at p) (Some valid) reason.

Definition approved_check (p : ElicitationPayload) : CibaResult :=
  CrModify (with_check_status p KindResolved (Some KindApproved)).

Definition invalid_verdict (p : ElicitationPayload) (reason : string) : CibaResult :=
  CrModify (with_verdict p (ep_approver p) false (Some reason)).

(** [op_violation]. *)
Definition op_violation (plugin what : string) (err : HttpRequestError) : PluginViolation :=
  match err with
  | ReqUnavailable e => violation_new "elicitation.no_transport" ("plugin '" +:+ plugin +:+ "' " +:+ e)
  | ReqTransport (TeRejected m as e) =>
      violation_new "elicitation.egress_denied"
        (what +:+ " was refused before it left the process: " +:+ transport_error_display e)
  | ReqTransport e =>
      if may_have_reached_peer e
      then violation_new "elicitation.op_timeout" (what +:+ " did not complete: " +:+ transport_error_display e)
      else violation_new "elicitation.op_unreachable" (what +:+ " never reached the OP: " +:+ transport_error_display e)
  end.

(** The lease of a poll: three attempts with their backoff, and a margin. *)
Definition poll_lease (typed : CibaConfig) : Z :=
  let sat z := Z.min z duration_max in
  sat (sat (sat (from_secs (cb_http_timeout_seconds typed) * 3) + sat (500000000 * 2)) + from_secs 5)%Z.

(** ** The operations, as steps between accesses of the store *)

(** Where a call stands: at its start; about to store a dispatch the provider took; to claim the
    poll; to poll; to save the approver; to read again after [invalid_grant]; to give the poll
    up or abandon it, with the result that follows; done. *)
Inductive CibaPc : Type :=
| KpStart
| KpPut (id : string) (c : Correlation)
| KpClaim (id : string)
| KpPoll (id owner : string)
| KpComplete (id owner approver : string)
| KpReread (id owner : string) (status : Z)
| KpSettle (id owner : string) (abandon : bool) (after : CibaResult)
| KpDone (r : CibaResult).

(** What a step meets: the times, a fresh owner id, and what the provider answers a form
    sent now. *)
Record CibaEnv : Type := mkCibaEnv {
  ke_times : Times;
  ke_owner : string;
  ke_reply : list (string * string) -> result HttpReplyBody HttpRequestError;
}.

Section Approver.
Context `{Jose, Chrono, CibaFormat} {S : Type} `{CorrelationStore S}.
Variables (plugin : string) (typed : CibaConfig).

Definition binds (c : Correlation) (p : ElicitationPayload) : bool :=
  bound_to_request c (ep_route_key p) (ep_tool p) (ep_requester p).

Definition requested_expiry (p : ElicitationPayload) : Z :=
  default (cb_default_requested_expiry_seconds typed) (ep_timeout p ≫= parse_duration_secs).

(** The form of the backchannel request. *)
Definition dispatch_form (p : ElicitationPayload) : list (string * string) :=
  [("scope", cb_scope typed); ("login_hint", ep_from p); ("requested_expiry", show_Z (requested_expiry p))]
  ++ match option_map sanitize_binding_message (ep_purpose p) with
     | Some bm => if String.eqb bm "" then [] else [("binding_message", bm)]
     | None => []
     end.

Definition GRANT_TYPE_CIBA : string := "urn:openid:params:grant-type:ciba".

(** The form of the poll. *)
Definition poll_form (id : string) : list (string * string) := [("grant_type", GRANT_TYPE_CIBA); ("auth_req_id", id)].

(** [do_dispatch], up to the store. [op_request] builds from header values that are fixed or
    base64, so it never refuses. *)
Definition do_dispatch (p : ElicitationPayload) (now : DateTime) (reply : result HttpReplyBody HttpRequestError) : CibaPc :=
  if String.eqb (ep_from p) "" then
    KpDone (ciba_deny "elicitation.bad_request"
              ("CIBA dispatch requires a resolved approver (login_hint) — `from` resolved to empty"))
  else
    match reply with
    | Err e => KpDone (CrDeny (op_violation plugin "CIBA backchannel POST" e))
    | Ok r =>
        if negb (is_success r) then
          KpDone (ciba_deny "elicitation.op_rejected" ("CIBA backchannel rejected (" +:+ show_Z (rp_status r) +:+ ")"))
        else
          match backchannel_of (rp_body r) with
          | Err e =>
              KpDone (ciba_deny "elicitation.bad_response" ("CIBA backchannel response wasn't valid JSON: " +:+ e))
          | Ok (id, expires_in) =>
              let ttl :=
                match expires_in with
                | Some n =>
                    if (0 <? n)%Z then n else default 0%Z (parse_i64 (show_Z (requested_expiry p)))
                | None => default 0%Z (parse_i64 (show_Z (requested_expiry p)))
                end in
              if (ttl <=? 0)%Z
              then KpDone (ciba_deny "elicitation.bad_response" "CIBA backchannel expiry must be positive")
              else
                match checked_add_seconds now ttl with
                | None => KpDone (ciba_deny "elicitation.bad_response" "CIBA backchannel expiry is out of range")
                | Some expires_at =>
                    KpPut id (mkCorrelation (ep_from p) None (ep_route_key p) (ep_tool p) (ep_requester p) expires_at)
                end
          end
    end.

(** The lifecycle state an error body of the poll names, if it is one. *)
Definition poll_state (code : string) : option (ElicitationStatusKind * option ElicitationOutcomeKind) :=
  if String.eqb code "authorization_pending" || String.eqb code "slow_down" then Some (KindPending, None)
  else if String.eqb code "expired_token" then Some (KindExpired, None)
  else if String.eqb code "access_denied" then Some (KindResolved, Some KindDenied)
  else None.

Definition poll_failed (status : Z) : CibaResult :=
  ciba_deny "elicitation.op_rejected" ("CIBA token poll failed (" +:+ show_Z status +:+ ")").

(** The answer of the poll. *)
Definition poll_answer (p : ElicitationPayload) (id owner : string) (reply : result HttpReplyBody HttpRequestError) : CibaPc :=
  match reply with
  | Err e =>
      let uncertain := match e with ReqTransport t => may_have_reached_peer t | ReqUnavailable _ => false end in
      KpSettle id owner uncertain (CrDeny (op_violation plugin "CIBA token poll" e))
  | Ok r =>
      if is_success r then
        match token_response_of (rp_body r) with
        | Err e =>
            KpSettle id owner true
              (ciba_deny "elicitation.bad_response" ("CIBA token response wasn't valid JSON: " +:+ e))
        | Ok (access_token, id_token) =>
            match (match id_token with Some t => Some t | None => access_token end)
                    ≫= (fun token => decode_jwt_claim token (cb_approver_claim typed)) with
            | None =>
                KpSettle id owner true
                  (ciba_deny "elicitation.bad_response" "CIBA token response lacks approver claim")
            | Some approver => KpComplete id owner approver
            end
        end
      else
        let code := match oauth_error_of (rp_body r) with Ok code => code | Err _ => "" end in
        if String.eqb code "invalid_grant" then KpReread id owner (rp_status r)
        else match poll_state code with
             | Some (status, outcome) => KpSettle id owner false (CrModify (with_check_status p status outcome))
             | None => KpSettle id owner true (poll_failed (rp_status r))
             end
  end.

(** [do_check], up to the claim. *)
Definition check_start (p : ElicitationPayload) (t : Times) (s : S) : CibaPc * S :=
  match ep_elicitation_id p with
  | None => (KpDone (ciba_deny "elicitation.bad_request" "CIBA check requires an elicitation id"), s)
  | Some id =>
      match st_get s t id with
      | (Err _, s) => (KpDone store_unavailable, s)
      | (Ok None, s) => (KpDone unknown_id, s)
      | (Ok (Some c), s) =>
          if negb (binds c p) then (KpDone binding_mismatch, s)
          else match co_resolved_approver c with
               | Some _ => (KpDone (approved_check p), s)
               | None => (KpClaim id, s)
               end
      end
  end.

Definition check_claim (p : ElicitationPayload) (id : string) (env : CibaEnv) (s : S) : CibaPc * S :=
  match st_claim_poll s (ke_times env) id (ke_owner env) (poll_lease typed) (ep_route_key p) (ep_tool p) (ep_requester p) with
  | (Err _, s) | (Ok ClaimUncertain, s) => (KpDone store_unavailable, s)
  | (Ok ClaimAcquired, s) => (KpPoll id (ke_owner env), s)
  | (Ok ClaimBusy, s) => (KpDone (CrModify (with_check_status p KindPending (ep_outcome p))), s)
  | (Ok ClaimResolved, s) => (KpDone (approved_check p), s)
  | (Ok ClaimMissing, s) => (KpDone unknown_id, s)
  | (Ok ClaimBindingMismatch, s) => (KpDone binding_mismatch, s)
  end.

(** The comparison that ends [do_validate]. *)
Definition validate_verdict (p : ElicitationPayload) (c : Correlation) : CibaResult :=
  match co_resolved_approver c with
  | None =>
      invalid_verdict p
        ("elicitation has no resolved approver (no `" +:+ cb_approver_claim typed
         +:+ "` claim was extracted at check, or it hasn't resolved)")
  | Some resolved =>
      if String.eqb resolved (co_expected_approver c)
      then CrModify (with_verdict p (Some resolved) true (ep_reason p))
      else CrModify (with_verdict p (Some resolved) false
             (Some ("approver mismatch: token names `" +:+ resolved +:+ "`, expected `" +:+ co_expected_approver c +:+ "`")))
  end.

Definition do_validate (p : ElicitationPayload) (t : Times) (s : S) : CibaPc * S :=
  match ep_elicitation_id p with
  | None => (KpDone (ciba_deny "elicitation.bad_request" "CIBA validate requires an elicitation id"), s)
  | Some id =>
      if ep_peek p then
        match st_get s t id with
        | (Err _, s) => (KpDone store_unavailable, s)
        | (Ok (Some c), s) => (KpDone (if binds c p then validate_verdict p c else binding_mismatch), s)
        | (Ok None, s) => (KpDone unknown_id, s)
        end
      else
        match st_take_if_ready s t id (ep_route_key p) (ep_tool p) (ep_requester p) with
        | (Err _, s) => (KpDone store_unavailable, s)
        | (Ok (TakeReady c), s) => (KpDone (validate_verdict p c), s)
        | (Ok TakeMissing, s) => (KpDone unknown_id, s)
        | (Ok TakeBindingMismatch, s) => (KpDone binding_mismatch, s)
        | (Ok TakePending, s) => (KpDone (invalid_verdict p "elicitation has no resolved approver"), s)
        end
  end.

(** [do_dispatch], from the store on. *)
Definition dispatch_put (p : ElicitationPayload) (id : string) (c : Correlation) (t : Times) (s : S) : CibaPc * S :=
  match st_put s t id c with
  | (Err _, s) => (KpDone store_unavailable, s)
  | (Ok _, s) =>
      (KpDone (CrModify (write_payload p (Some id) (Some KindPending) (ep_outcome p) (Some (co_expected_approver c))
                           (Some (rfc3339 (co_expires_at c))) (ep_valid p) (ep_reason p))), s)
  end.

(** [do_check], once the provider named an approver. *)
Definition check_complete (p : ElicitationPayload) (id owner approver : string) (t : Times) (s : S) : CibaPc * S :=
  match st_complete_poll s t id owner approver with
  | (Err _, s) => (KpDone store_unavailable, s)
  | (Ok _, s) => (KpDone (approved_check p), s)
  end.

(** [do_check], after [invalid_grant]: another check may have spent the id. *)
Definition check_reread (p : ElicitationPayload) (id owner : string) (status : Z) (t : Times) (s : S) : CibaPc * S :=
  match st_get s t id with
  | (Err _, s) => (KpDone store_unavailable, s)
  | (Ok (Some c), s) =>
      if (if co_resolved_approver c is Some _ then true else false)
      then (KpSettle id owner false (approved_check p), s)
      else (KpSettle id owner true (poll_failed status), s)
  | (Ok None, s) => (KpSettle id owner true (poll_failed status), s)
  end.

(** Every other end of [do_check]: the poll is abandoned or released, then the result given. *)
Definition check_settle (id owner : string) (abandon : bool) (after : CibaResult) (t : Times) (s : S) : CibaPc * S :=
  match (if abandon then st_abandon_poll s t id owner else st_release_poll s t id owner) with
  | (Err _, s) => (KpDone store_unavailable, s)
  | (Ok _, s) => (KpDone after, s)
  end.

(** [HookHandler::handle], one step at a time. *)
Definition ciba_step (p : ElicitationPayload) (env : CibaEnv) (pc : CibaPc) (s : S) : CibaPc * S :=
  match pc with
  | KpStart =>
      if String.eqb (trim (ep_route_key p)) "" then
        (KpDone (ciba_deny "elicitation.bad_request" "CIBA approval requires a non-empty policy route"), s)
      else if String.eqb (trim (ep_requester p)) "" then
        (KpDone (ciba_deny "elicitation.bad_request" "CIBA approval requires a non-empty requester subject id"), s)
      else
        match ep_operation p with
        | OpDispatch => (do_dispatch p (tm_now (ke_times env)) (ke_reply env (dispatch_form p)), s)
        | OpCheck => check_start p (ke_times env) s
        | OpValidate => do_validate p (ke_times env) s
        end
  | KpPut id c => dispatch_put p id c (ke_times env) s
  | KpClaim id => check_claim p id env s
  | KpPoll id owner => (poll_answer p id owner (ke_reply env (poll_form id)), s)
  | KpComplete id owner approver => check_complete p id owner approver (ke_times env) s
  | KpReread id owner status => check_reread p id owner status (ke_times env) s
  | KpSettle id owner abandon after => check_settle id owner abandon after (ke_times env) s
  | KpDone r => (KpDone r, s)
  end.
End Approver.

(** ** What a store promises *)

(** [held s id] is the approval the store may still hand out for [id]. Operations may drop
    approvals, and change them only by storing one or completing its poll; one that is handed
    over for good is gone. *)
Class CorrelationLaws (S : Type) `{CorrelationStore S} := {
  held : S -> string -> option Correlation;
  put_law s t id c r s' k x :
    st_put s t id c = (r, s') -> held s' k = Some x -> held s k = Some x \/ k = id /\ x = c;
  get_law s t id r s' :
    st_get s t id = (r, s') ->
    (forall k x, held s' k = Some x -> held s k = Some x)
    /\ forall c, r = Ok (Some c) -> held s id = Some c;
  claim_law s t id owner lease route tool requester r s' :
    st_claim_poll s t id owner lease route tool requester = (r, s') ->
    (forall k x, held s' k = Some x -> held s k = Some x)
    /\ (r = Ok ClaimResolved -> exists c a, held s id = Some c /\ co_resolved_approver c = Some a);
  release_law s t id owner r s' k x :
    st_release_poll s t id owner = (r, s') -> held s' k = Some x -> held s k = Some x;
  complete_law s t id owner a r s' k x :
    st_complete_poll s t id owner a = (r, s') -> held s' k = Some x ->
    held s k = Some x \/ k = id /\ exists c, held s id = Some c /\ x = resolve_with c a;
  abandon_law s t id owner r s' k x :
    st_abandon_poll s t id owner = (r, s') -> held s' k = Some x -> held s k = Some x;
  take_law s t id route tool requester r s' :
    st_take_if_ready s t id route tool requester = (r, s') ->
    (forall k x, held s' k = Some x -> held s k = Some x)
    /\ forall c, r = Ok (TakeReady c) ->
         held s id = Some c /\ bound_to_request c route tool requester = true /\ held s' id = None;
}.

(** *** The store in memory keeps it *)

Lemma memory_retain_live_held now s k x : ms_correlations (memory_retain_live now s) !! k = Some x -> ms_correlations s !! k = Some x.
Proof. cbn. intros E. by apply map_lookup_filter_Some in E as [E _]. Qed.

Lemma claim_poll_keeps m s t id owner lease route tool requester r s' :
  memory_claim_poll m s t id owner lease route tool requester = (r, s') ->
  ms_correlations s' = ms_correlations (memory_retain_live (tm_now t) s).
Proof. unfold memory_claim_poll. intros E. repeat case_match; by simplify_eq. Qed.

Lemma take_result m t id route tool requester c s' :
  memory_take_if_ready m t id route tool requester = (Ok (TakeReady c), s') ->
  ms_correlations (memory_retain_live (tm_now t) m) !! id = Some c
  /\ bound_to_request c route tool requester = true
  /\ ms_correlations s' !! id = None.
Proof.
  unfold memory_take_if_ready. intros E. destruct (ms_correlations _ !! id) as [c'|] eqn:El; [|done].
  destruct (bound_to_request _ _ _ _) eqn:Eb; [|done]. cbn [negb] in E. destruct (co_resolved_approver c'); [|done].
  simplify_eq. split_and!; [done|done|]. apply lookup_delete_eq.
Qed.

Lemma take_keeps m t id route tool requester r s' k x :
  memory_take_if_ready m t id route tool requester = (r, s') ->
  ms_correlations s' !! k = Some x -> ms_correlations m !! k = Some x.
Proof.
  unfold memory_take_if_ready. intros E Hk. apply (memory_retain_live_held (tm_now t)).
  repeat case_match; simplify_eq; try done. cbn [ms_correlations] in Hk. by apply lookup_delete_Some in Hk as [_ Hk].
Qed.

#[refine] Definition memory_laws (instant_max : Z) : @CorrelationLaws MemoryState (memory_store instant_max) := {|
  held := fun s id => ms_correlations s !! id
|}.
Proof.
  all: cbn [memory_store st_put st_get st_claim_poll st_release_poll st_complete_poll st_abandon_poll st_take_if_ready].
  - intros s t id c r s' k x [= <- <-] Hk. cbn [ms_correlations] in Hk.
    apply lookup_insert_Some in Hk as [[<- <-]|[_ Hk]]; [by right|left; exact (memory_retain_live_held (tm_now t) _ _ _ Hk)].
  - intros s t id r s' [= <- <-]. split; [intros k x; apply memory_retain_live_held|].
    intros c [= Hc]. by apply (memory_retain_live_held (tm_now t)).
  - intros s t id owner lease route tool requester r s' E. split.
    { intros k x. rewrite (claim_poll_keeps _ _ _ _ _ _ _ _ _ _ _ E). apply memory_retain_live_held. }
    intros ->. unfold memory_claim_poll in E. destruct (ms_correlations _ !! id) as [c|] eqn:El; [|done].
    destruct (negb _); [done|]. destruct (co_resolved_approver c) as [a|] eqn:Er.
    { exists c, a. split; [by apply (memory_retain_live_held (tm_now t))|done]. }
    cbv iota in E. repeat case_match; by simplify_eq.
  - intros s t id owner r s' k x E Hk. unfold memory_release_poll in E. apply (memory_retain_live_held (tm_now t)).
    case_match; by simplify_eq.
  - intros s t id owner a r s' k x E Hk. unfold memory_complete_poll in E.
    destruct (require_owner _ _ _ _); [|left; apply (memory_retain_live_held (tm_now t)); by simplify_eq].
    destruct (ms_correlations _ !! id) as [c|] eqn:El; [|left; apply (memory_retain_live_held (tm_now t)); by simplify_eq].
    simplify_eq. cbn [drop_poll ms_correlations] in Hk.
    apply lookup_insert_Some in Hk as [[<- <-]|[_ Hk]]; [|left; exact (memory_retain_live_held (tm_now t) _ _ _ Hk)].
    right. split; [done|]. exists c. split; [by apply (memory_retain_live_held (tm_now t))|done].
  - intros s t id owner r s' k x E Hk. unfold memory_abandon_poll in E. apply (memory_retain_live_held (tm_now t)).
    case_match; by simplify_eq.
  - intros s t id route tool requester r s' E. split; [intros k x; by apply (take_keeps _ _ _ _ _ _ _ _ _ _ E)|].
    intros c ->. destruct (take_result _ _ _ _ _ _ _ _ E) as (? & ? & ?).
    split_and!; [by apply (memory_retain_live_held (tm_now t))|done|done].
Defined.

(** ** Requests, polls and redemptions interleaved *)

(** What was exchanged with the provider, stored and redeemed: a backchannel request it took,
    with its reply; an approval put in the store for a request; the reply to the poll of an id; an
    approval redeemed. *)
Inductive CibaEntry : Type :=
| LgAccepted (request : ElicitationPayload) (reply : HttpReplyBody)
| LgStored (id : string) (request : ElicitationPayload)
| LgPolled (id : string) (reply : HttpReplyBody)
| LgRedeemed (id : string).

(** The calls under way, each with its payload. *)
Record CibaWorld (S : Type) : Type := mkCibaWorld {
  kw_store : S;
  kw_calls : gmap nat (ElicitationPayload * CibaPc);
  kw_log : list CibaEntry;
}.
Arguments mkCibaWorld {S}.
Arguments kw_store {S}.
Arguments kw_calls {S}.
Arguments kw_log {S}.

Inductive CibaEvent : Type :=
| KeBegin (i : nat) (p : ElicitationPayload)
| KeStep (i : nat) (env : CibaEnv).

Section Approvals.
Context `{Jose, Chrono, CibaFormat} {S : Type} `{CorrelationLaws S}.
Variables (plugin : string) (typed : CibaConfig).

Definition redeems (p : ElicitationPayload) (pc : CibaPc) : list CibaEntry :=
  match ep_operation p, ep_elicitation_id p, ep_peek p, pc with
  | OpValidate, Some id, false, KpDone (CrModify p') =>
      if decide (ep_valid p' = Some true) then [LgRedeemed id] else []
  | _, _, _, _ => []
  end.

Definition noted (p : ElicitationPayload) (env : CibaEnv) (pc pc' : CibaPc) : list CibaEntry :=
  match pc with
  | KpStart =>
      match pc', ke_reply env (dispatch_form typed p) with KpPut _ _, Ok reply => [LgAccepted p reply] | _, _ => redeems p pc' end
  | KpPut id _ => [LgStored id p]
  | KpPoll id _ => match ke_reply env (poll_form id) with Ok reply => [LgPolled id reply] | Err _ => [] end
  | _ => []
  end.

Definition ciba_world_step (w : CibaWorld S) (e : CibaEvent) : CibaWorld S :=
  match e with
  | KeBegin i p => mkCibaWorld (kw_store w) (<[i := (p, KpStart)]> (kw_calls w)) (kw_log w)
  | KeStep i env =>
      match kw_calls w !! i with
      | None => w
      | Some (p, pc) =>
          let '(pc', s) := ciba_step plugin typed p env pc (kw_store w) in
          mkCibaWorld s (<[i := (p, pc')]> (kw_calls w)) (kw_log w ++ noted p env pc pc')
      end
  end.

Definition ciba_run (s : S) (events : list CibaEvent) : CibaWorld S :=
  foldl ciba_world_step (mkCibaWorld s ∅ []) events.

(** The provider's reply to a poll names this approver: a success whose token carries the
    configured claim. *)
Definition names_approver (reply : HttpReplyBody) (approver : string) : Prop :=
  is_success reply = true
  /\ exists access id_token token, token_response_of (rp_body reply) = Ok (access, id_token)
     /\ (id_token = Some token \/ id_token = None /\ access = Some token)
     /\ decode_jwt_claim token (cb_approver_claim typed) = Some approver.

Definition polled (log : list CibaEntry) (id approver : string) : Prop :=
  exists reply, LgPolled id reply ∈ log /\ names_approver reply approver.

(** The provider took a request to ask [approver], with this route, tool and requester, under
    this id. *)
Definition dispatched (log : list CibaEntry) (id approver route tool requester : string) : Prop :=
  exists request reply expires_in,
    LgStored id request ∈ log /\ LgAccepted request reply ∈ log
    /\ is_success reply = true /\ backchannel_of (rp_body reply) = Ok (id, expires_in)
    /\ ep_operation request = OpDispatch /\ ep_from request = approver
    /\ ep_route_key request = route /\ ep_tool request = tool /\ ep_requester request = requester.

Definition says_approved (p : ElicitationPayload) : Prop :=
  ep_status p = Some KindResolved /\ ep_outcome p = Some KindApproved.

Definition result_ok (log : list CibaEntry) (p : ElicitationPayload) (r : CibaResult) : Prop :=
  match r with
  | CrDeny _ => True
  | CrModify p' =>
      match ep_operation p with
      | OpValidate =>
          ep_valid p' = Some true ->
          exists id approver, ep_elicitation_id p = Some id /\ ep_approver p' = Some approver
            /\ polled log id approver /\ dispatched log id approver (ep_route_key p) (ep_tool p) (ep_requester p)
      | OpCheck => says_approved p' -> exists id approver, ep_elicitation_id p = Some id /\ polled log id approver
      | OpDispatch => True
      end
  end.

Definition checks (p : ElicitationPayload) (id : string) : Prop :=
  ep_operation p = OpCheck /\ ep_elicitation_id p = Some id.

Definition call_ok (log : list CibaEntry) (p : ElicitationPayload) (pc : CibaPc) : Prop :=
  match pc with
  | KpStart => True
  | KpPut id c =>
      ep_operation p = OpDispatch /\ co_resolved_approver c = None
      /\ co_expected_approver c = ep_from p /\ bound_to_request c (ep_route_key p) (ep_tool p) (ep_requester p) = true
      /\ exists reply expires_in,
           LgAccepted p reply ∈ log /\ is_success reply = true /\ backchannel_of (rp_body reply) = Ok (id, expires_in)
  | KpClaim id | KpPoll id _ | KpReread id _ _ => checks p id
  | KpComplete id _ approver => checks p id /\ polled log id approver
  | KpSettle id _ _ after => checks p id /\ result_ok log p after
  | KpDone r => result_ok log p r
  end.

Definition approval_ok (log : list CibaEntry) (id : string) (c : Correlation) : Prop :=
  dispatched log id (co_expected_approver c) (co_route_key c) (co_tool c) (co_requester c)
  /\ forall approver, co_resolved_approver c = Some approver -> polled log id approver.

Definition stored_count (log : list CibaEntry) (id : string) : nat :=
  list_sum (map (fun e => match e with LgStored k _ => if String.eqb k id then 1 else 0 | _ => 0 end) log).

Definition redeemed_count (log : list CibaEntry) (id : string) : nat :=
  list_sum (map (fun e => match e with LgRedeemed k => if String.eqb k id then 1 else 0 | _ => 0 end) log).

Definition live (s : S) (id : string) : nat := if held s id then 1 else 0.

Definition store_ok (log : list CibaEntry) (s : S) : Prop :=
  (forall id c, held s id = Some c -> approval_ok log id c)
  /\ forall id, redeemed_count log id + live s id <= stored_count log id.

(** *** More exchanges keep what is known *)

Lemma polled_more log log' id a : log ⊆ log' -> polled log id a -> polled log' id a.
Proof. intros Hl (reply & Hr & Hn). exists reply. split; [by apply Hl|done]. Qed.

Lemma dispatched_more log log' id a route tool requester :
  log ⊆ log' -> dispatched log id a route tool requester -> dispatched log' id a route tool requester.
Proof.
  intros Hl (request & reply & e & Hst & Hac & Hr). exists request, reply, e. split_and!; try apply Hl; naive_solver.
Qed.

Lemma result_ok_more log log' p r : log ⊆ log' -> result_ok log p r -> result_ok log' p r.
Proof.
  intros Hl. destruct r as [v|p']; [done|]. cbn. destruct (ep_operation p); [done| |].
  - intros Hr Hs. destruct (Hr Hs) as (id & a & Hid & Hp). exists id, a. split; [done|by eapply polled_more].
  - intros Hr Hs. destruct (Hr Hs) as (id & a & Hid & Ha & Hp & Hd). exists id, a.
    split_and!; [done|done|by eapply polled_more|by eapply dispatched_more].
Qed.

Lemma call_ok_more log log' p pc : log ⊆ log' -> call_ok log p pc -> call_ok log' p pc.
Proof.
  intros Hl. destruct pc as [|id c|id|id o|id o a|id o st|id o b r|r]; cbn; try done.
  - intros (? & ? & ? & ? & reply & e & Ha & He). split_and!; try done. exists reply, e. split; [by apply Hl|done].
  - intros [? ?]. split; [done|by eapply polled_more].
  - intros [? ?]. split; [done|by eapply result_ok_more].
  - by apply result_ok_more.
Qed.

Lemma approval_ok_more log log' id c : log ⊆ log' -> approval_ok log id c -> approval_ok log' id c.
Proof.
  intros Hl [Hd Hp]. split; [by eapply dispatched_more|]. intros a Ha. by eapply polled_more, Hp.
Qed.

Lemma stored_count_app l1 l2 id : stored_count (l1 ++ l2) id = stored_count l1 id + stored_count l2 id.
Proof. unfold stored_count. by rewrite map_app, list_sum_app. Qed.

Lemma redeemed_count_app l1 l2 id : redeemed_count (l1 ++ l2) id = redeemed_count l1 id + redeemed_count l2 id.
Proof. unfold redeemed_count. by rewrite map_app, list_sum_app. Qed.

(** *** How the store moves *)

Lemma store_ok_step log more s s' :
  store_ok log s ->
  (forall k x, held s' k = Some x -> held s k = Some x \/ approval_ok (log ++ more) k x) ->
  (forall k, redeemed_count more k + live s' k <= live s k + stored_count more k) ->
  store_ok (log ++ more) s'.
Proof.
  intros [Ha Hc] Hh Hl. split.
  - intros id c Hk. destruct (Hh _ _ Hk) as [Hk'|Hk']; [|done].
    eapply approval_ok_more; [|by apply Ha]. set_solver.
  - intros id. rewrite redeemed_count_app, stored_count_app. specialize (Hc id). specialize (Hl id). lia.
Qed.

Lemma store_ok_keep log more s s' :
  store_ok log s -> (forall k x, held s' k = Some x -> held s k = Some x) ->
  (forall k, redeemed_count more k = 0) -> store_ok (log ++ more) s'.
Proof.
  intros Hs Hk Hr. eapply store_ok_step; [done|by auto|]. intros k. rewrite Hr. unfold live.
  destruct (held s' k) as [x|] eqn:E; [rewrite (Hk _ _ E)|]; lia.
Qed.

(** *** One step of a call *)

Definition step_ok (log : list CibaEntry) (p : ElicitationPayload) (env : CibaEnv) (pc : CibaPc) (out : CibaPc * S) : Prop :=
  store_ok (log ++ noted p env pc out.1) out.2 /\ call_ok (log ++ noted p env pc out.1) p out.1.

Lemma dispatch_ok log p env s :
  ep_operation p = OpDispatch -> store_ok log s ->
  step_ok log p env KpStart (do_dispatch plugin typed p (tm_now (ke_times env)) (ke_reply env (dispatch_form typed p)), s).
Proof.
  intros Hop Hs. unfold step_ok. cbn [fst snd].
  assert (forall r, redeems p r = []) as Hred by (intros; unfold redeems; by rewrite Hop).
  split.
  - eapply store_ok_keep; [done|done|]. intros k. cbn [noted]. rewrite Hred. repeat case_match; done.
  - unfold do_dispatch. destruct (String.eqb _ _); [done|].
    destruct (ke_reply env (dispatch_form typed p)) as [r|e] eqn:Er; [|done]. destruct (is_success r) eqn:Es; [|done]. cbn [negb].
    destruct (backchannel_of _) as [[id ei]|] eqn:Eb; [|done].
    destruct (_ <=? _)%Z; [done|]. destruct (checked_add_seconds _ _); [|done].
    cbn [call_ok noted]. rewrite Er. split_and!; try done.
    + unfold bound_to_request. cbn. by rewrite !String.eqb_refl.
    + exists r, ei. split_and!; [set_solver|done|done].
Qed.

Lemma put_ok log p env id c s :
  store_ok log s -> call_ok log p (KpPut id c) ->
  step_ok log p env (KpPut id c) (ciba_step plugin typed p env (KpPut id c) s).
Proof.
  intros Hs (Hop & Hnone & Hexp & Hb & reply & ei & Hacc & Hsucc & Hbc). cbn [ciba_step]. unfold dispatch_put.
  unfold bound_to_request in Hb. rewrite !andb_true_iff, !String.eqb_eq in Hb. destruct Hb as [[Hroute Htool] Hreq].
  destruct (st_put s (ke_times env) id c) as [r s'] eqn:Ep.
  assert (store_ok (log ++ [LgStored id p]) s') as Hs'.
  { eapply store_ok_step; [done| |].
    - intros k x Hk. destruct (put_law _ _ _ _ _ _ _ _ Ep Hk) as [?|[-> ->]]; [by left|]. right. split; [|by rewrite Hnone].
      exists p, reply, ei. split_and!; try done; set_solver.
    - intros k. unfold live. cbn. destruct (held s' k) as [x|] eqn:Ek; [|lia].
      destruct (put_law _ _ _ _ _ _ _ _ Ep Ek) as [->|[-> _]]; [lia|]. rewrite String.eqb_refl. lia. }
  destruct r; (split; [exact Hs'|]); cbn; [|done]. by rewrite Hop.
Qed.

Lemma check_result_ok log p id a r :
  checks p id -> polled log id a -> result_ok log p r.
Proof. intros [Hop Hid] Hp. destruct r as [|p']; [done|]. cbn. rewrite Hop. intros _. by exists id, a. Qed.

Lemma pending_result_ok log p id status outcome :
  checks p id -> outcome <> Some KindApproved -> result_ok log p (CrModify (with_check_status p status outcome)).
Proof. intros [Hop _] Hne. cbn. rewrite Hop. intros [_ Ha]. done. Qed.

Lemma check_start_ok log p env s :
  ep_operation p = OpCheck -> store_ok log s -> step_ok log p env KpStart (check_start p (ke_times env) s).
Proof.
  intros Hop Hs. unfold check_start.
  assert (forall pc, (if pc is KpPut _ _ then False else True) -> noted p env KpStart pc = []) as Hn.
  { intros pc Hpc. cbn. unfold redeems. rewrite Hop. by destruct pc. }
  destruct (ep_elicitation_id p) as [id|] eqn:Eid.
  2: { unfold step_ok. cbn [fst snd]. rewrite Hn by done. by rewrite app_nil_r. }
  destruct (st_get s (ke_times env) id) as [r s'] eqn:Eg. destruct (get_law _ _ _ _ _ Eg) as [Hkeep Hget].
  assert (store_ok (log ++ []) s') as Hs' by (eapply store_ok_keep; [done|done|done]).
  destruct r as [[c|]|]; [destruct (negb _); [|destruct (co_resolved_approver c) as [a|] eqn:Er]| |];
    (split; cbn [fst snd]; rewrite Hn by done; [exact Hs'|]); rewrite app_nil_r; cbn; try done.
  - rewrite Hop. intros _. exists id, a. split; [done|]. destruct Hs as [Ha _]. by apply (Ha id c (Hget _ eq_refl)).
Qed.

Lemma claim_ok log p env id s :
  store_ok log s -> call_ok log p (KpClaim id) -> step_ok log p env (KpClaim id) (check_claim typed p id env s).
Proof.
  intros Hs Hck. unfold check_claim.
  destruct (st_claim_poll _ _ _ _ _ _ _ _) as [r s'] eqn:Ec. destruct (claim_law _ _ _ _ _ _ _ _ _ _ Ec) as [Hkeep Hres].
  assert (store_ok (log ++ []) s') as Hs' by (eapply store_ok_keep; [done|done|done]).
  destruct r as [[]|]; (split; cbn [fst snd noted]; [exact Hs'|]); rewrite app_nil_r; try done.
  - cbn. destruct Hck as [-> _]. by intros [? _].
  - destruct (Hres eq_refl) as (c & a & Hh & Hr). eapply (check_result_ok _ _ id a); [done|]. destruct Hs as [Ha _].
    by apply (Ha id c Hh).
Qed.

Lemma poll_ok log p env id owner s :
  store_ok log s -> call_ok log p (KpPoll id owner) ->
  step_ok log p env (KpPoll id owner) (poll_answer plugin typed p id owner (ke_reply env (poll_form id)), s).
Proof.
  intros Hs Hck. unfold step_ok. cbn [fst snd noted].
  split; [eapply store_ok_keep; [done|done|]; intros k; by destruct (ke_reply env _)|].
  destruct (ke_reply env (poll_form id)) as [r|e]; cbn [poll_answer]; [|by split].
  destruct (is_success r) eqn:Es.
  - destruct (token_response_of (rp_body r)) as [[access idt]|] eqn:Et; [|by split].
    destruct (_ ≫= _) as [a|] eqn:Ed; [|by split]. split; [done|]. exists r. split; [set_solver|]. split; [done|].
    apply bind_Some in Ed as (token & Htok & Hdec). exists access, idt, token. split_and!; [done| |done].
    destruct idt; simplify_eq; [by left|by right].
  - destruct (String.eqb _ "invalid_grant"); [done|]. unfold poll_state.
    repeat case_match; simplify_eq; (split; [done|]); try done; by eapply pending_result_ok.
Qed.

Lemma complete_ok log p env id owner a s :
  store_ok log s -> call_ok log p (KpComplete id owner a) ->
  step_ok log p env (KpComplete id owner a) (ciba_step plugin typed p env (KpComplete id owner a) s).
Proof.
  intros Hs [Hck Hp]. cbn [ciba_step]. unfold check_complete. destruct (st_complete_poll _ _ _ _ _) as [r s'] eqn:Ec.
  assert (store_ok (log ++ []) s') as Hs'.
  { eapply store_ok_step; [done| |].
    - intros k x Hk. destruct (complete_law _ _ _ _ _ _ _ _ _ Ec Hk) as [?|(-> & c & Hc & ->)]; [by left|right].
      rewrite app_nil_r. destruct Hs as [Ha _]. destruct (Ha _ _ Hc) as [Hd _]. split; [done|]. by intros ? [= <-].
    - intros k. unfold live. cbn. destruct (held s' k) as [x|] eqn:Ek; [|lia].
      destruct (complete_law _ _ _ _ _ _ _ _ _ Ec Ek) as [->|(-> & c & -> & _)]; lia. }
  destruct r; (split; cbn [fst snd noted]; [exact Hs'|]); [|done]. rewrite app_nil_r. by eapply check_result_ok.
Qed.

Lemma reread_ok log p env id owner status s :
  store_ok log s -> call_ok log p (KpReread id owner status) ->
  step_ok log p env (KpReread id owner status) (ciba_step plugin typed p env (KpReread id owner status) s).
Proof.
  intros Hs Hck. cbn [ciba_step]. unfold check_reread. destruct (st_get s (ke_times env) id) as [r s'] eqn:Eg.
  destruct (get_law _ _ _ _ _ Eg) as [Hkeep Hget].
  assert (store_ok (log ++ []) s') as Hs' by (eapply store_ok_keep; [done|done|done]).
  destruct r as [[c|]|]; [destruct (co_resolved_approver c) as [a|] eqn:Er| |];
    (split; cbn [fst snd noted]; [exact Hs'|]); rewrite app_nil_r; try done.
  split; [done|]. apply (check_result_ok _ _ id a); [done|]. destruct Hs as [Ha _]. by apply (Ha id c (Hget _ eq_refl)).
Qed.

Lemma settle_ok log p env id owner abandon r s :
  store_ok log s -> call_ok log p (KpSettle id owner abandon r) ->
  step_ok log p env (KpSettle id owner abandon r) (ciba_step plugin typed p env (KpSettle id owner abandon r) s).
Proof.
  intros Hs [_ Hr]. cbn [ciba_step]. unfold check_settle.
  destruct (if abandon then _ else _) as [o s'] eqn:Eo.
  assert (store_ok (log ++ []) s') as Hs'.
  { eapply store_ok_keep; [done| |done]. intros k x. destruct abandon; [by eapply abandon_law|by eapply release_law]. }
  destruct o; (split; cbn [fst snd noted]; [exact Hs'|]); rewrite app_nil_r; done.
Qed.

(** The verdict on an approval the store held, and for this request. *)
Lemma verdict_ok log p id c :
  ep_operation p = OpValidate -> ep_elicitation_id p = Some id -> approval_ok log id c ->
  bound_to_request c (ep_route_key p) (ep_tool p) (ep_requester p) = true ->
  result_ok log p (validate_verdict typed p c).
Proof.
  intros Hop Hid [Hd Hp] Hb. unfold bound_to_request in Hb. rewrite !andb_true_iff, !String.eqb_eq in Hb.
  destruct Hb as [[Hr Ht] Hq]. unfold validate_verdict. destruct (co_resolved_approver c) as [a|]; [|cbn; by rewrite Hop].
  destruct (String.eqb_spec a (co_expected_approver c)) as [->|Hne]; cbn; rewrite Hop; [|done]. intros _.
  exists id, (co_expected_approver c). rewrite <- Hr, <- Ht, <- Hq. split_and!; [done|done|by apply Hp|done].
Qed.

Lemma redeems_cases p pc : redeems p pc = [] \/ exists id, ep_elicitation_id p = Some id /\ redeems p pc = [LgRedeemed id].
Proof. unfold redeems. repeat case_match; try (by left). right. by eexists. Qed.

Lemma validate_ok log p env s :
  ep_operation p = OpValidate -> store_ok log s -> step_ok log p env KpStart (do_validate typed p (ke_times env) s).
Proof.
  intros Hop Hs. unfold do_validate.
  assert (forall r s', (forall k x, held s' k = Some x -> held s k = Some x) -> redeems p (KpDone r) = [] ->
            result_ok log p r -> step_ok log p env KpStart (KpDone r, s')) as Hplain.
  { intros r s' Hkeep Hred Hr. split; cbn [fst snd noted]; rewrite Hred; [by eapply store_ok_keep|]. by rewrite app_nil_r. }
  destruct (ep_elicitation_id p) as [id|] eqn:Eid; [|apply Hplain; [done|unfold redeems; by rewrite Hop, Eid|done]].
  destruct (ep_peek p) eqn:Epk.
  - assert (forall pc, redeems p pc = []) as Hred by (intros; unfold redeems; by rewrite Hop, Eid, Epk).
    destruct (st_get s (ke_times env) id) as [r s'] eqn:Eg. destruct (get_law _ _ _ _ _ Eg) as [Hkeep Hget].
    destruct r as [[c|]|]; apply Hplain; try done. destruct (binds c p) eqn:Eb; [|done].
    eapply verdict_ok; [done|done| |done]. destruct Hs as [Ha _]. by apply Ha, Hget.
  - assert (forall v, redeems p (KpDone (CrDeny v)) = []) as Hdeny by (intros; unfold redeems; by rewrite Hop, Eid, Epk).
    destruct (st_take_if_ready _ _ _ _ _ _) as [r s'] eqn:Et. destruct (take_law _ _ _ _ _ _ _ _ Et) as [Hkeep Htake].
    destruct r as [[| | |c]|]; try (apply Hplain; [done|apply Hdeny|done]).
    + apply Hplain; [done| |by cbn; rewrite Hop]. unfold redeems. by rewrite Hop, Eid, Epk.
    + destruct (Htake c eq_refl) as (Hh & Hb & Hgone).
      assert (result_ok log p (validate_verdict typed p c)) as Hv by (eapply verdict_ok; [done|done| |done]; by apply Hs).
      split; cbn [fst snd noted]; [|by eapply result_ok_more, Hv; set_solver].
      destruct (redeems_cases p (KpDone (validate_verdict typed p c))) as [->|(id' & Hid' & ->)]; [by eapply store_ok_keep|].
      simplify_eq. eapply store_ok_step; [done|by auto|]. intros k. unfold live. cbn.
      destruct (held s' k) as [x|] eqn:Ek; [rewrite (Hkeep _ _ Ek)|]; destruct (String.eqb_spec id k) as [->|]; simplify_eq; try lia.
      rewrite Hh. lia.
Qed.

(** *** Every run *)

Definition world_ok (w : CibaWorld S) : Prop :=
  store_ok (kw_log w) (kw_store w) /\ map_Forall (fun _ call => call_ok (kw_log w) call.1 call.2) (kw_calls w).

Lemma ciba_step_ok log p env pc s :
  store_ok log s -> call_ok log p pc -> step_ok log p env pc (ciba_step plugin typed p env pc s).
Proof.
  intros Hs Hc. destruct pc as [|id c|id|id o|id o a|id o st|id o b r|r].
  - cbn [ciba_step].
    assert (forall v, step_ok log p env KpStart (KpDone (CrDeny v), s)) as Hdeny.
    { intros v. assert (redeems p (KpDone (CrDeny v)) = []) as Hr by (unfold redeems; by repeat case_match).
      split; cbn [fst snd noted]; rewrite Hr; [by eapply store_ok_keep|done]. }
    destruct (String.eqb _ _); [apply Hdeny|]. destruct (String.eqb _ _); [apply Hdeny|].
    destruct (ep_operation p) eqn:Eop; [by apply dispatch_ok|by apply check_start_ok|by apply validate_ok].
  - by apply put_ok.
  - by apply claim_ok.
  - by apply poll_ok.
  - by apply complete_ok.
  - by apply reread_ok.
  - by apply settle_ok.
  - split; cbn [fst snd noted ciba_step]; by rewrite app_nil_r.
Qed.

Lemma ciba_world_step_ok w e : world_ok w -> world_ok (ciba_world_step w e).
Proof.
  intros [Hs Hc]. destruct e as [i p|i env]; cbn [ciba_world_step].
  - split; [done|]. cbn. by apply map_Forall_insert_2.
  - destruct (kw_calls w !! i) as [[p pc]|] eqn:Ei; [|by split].
    pose proof (ciba_step_ok (kw_log w) p env pc (kw_store w) Hs (Hc _ _ Ei)) as Hstep.
    destruct (ciba_step _ _ _ _ _ _) as [pc' s']. destruct Hstep as [Hs' Hc']. cbn [fst snd] in *. split; [done|]. cbn.
    apply map_Forall_insert_2; [done|]. intros j [p2 pc2] Hj. eapply call_ok_more; [|by apply (Hc _ _ Hj)]. set_solver.
Qed.

Lemma ciba_run_ok s events : (forall id, held s id = None) -> world_ok (ciba_run s events).
Proof.
  intros Hnone. unfold ciba_run.
  assert (world_ok (mkCibaWorld s ∅ [])) as Hw0.
  { split; [|apply map_Forall_empty]. split; cbn; [intros id c; by rewrite Hnone|]. intros id. unfold live. by rewrite Hnone. }
  revert Hw0. generalize (mkCibaWorld s ∅ []) as w. induction events as [|e events IH]; intros w Hw; [done|].
  cbn [foldl]. by apply IH, ciba_world_step_ok.
Qed.

(** Claim C13. However requests, polls and redemptions interleave on an approval store that
    starts empty, whatever the provider answers: a validation that comes out valid names an
    approver whom the provider itself named in its answer to a poll of that id, and whom it had
    been asked to reach for the same route, tool and requester; a check says approved only
    after the provider named an approver; and an approval is redeemed no more often than it was
    stored. *)
Theorem approval_redeemed_once s events :
  (forall id, held s id = None) ->
  let w := ciba_run s events in
  (forall i p p', kw_calls w !! i = Some (p, KpDone (CrModify p')) ->
     (ep_operation p = OpValidate -> ep_valid p' = Some true ->
        exists id approver, ep_elicitation_id p = Some id /\ ep_approver p' = Some approver
          /\ polled (kw_log w) id approver
          /\ dispatched (kw_log w) id approver (ep_route_key p) (ep_tool p) (ep_requester p))
     /\ (ep_operation p = OpCheck -> says_approved p' ->
        exists id approver, ep_elicitation_id p = Some id /\ polled (kw_log w) id approver))
  /\ forall id, redeemed_count (kw_log w) id <= stored_count (kw_log w) id.
Proof.
  intros Hnone w. destruct (ciba_run_ok s events Hnone) as [[_ Hc] Hcalls]. fold w in Hc, Hcalls. split.
  - intros i p p' Hi. pose proof (Hcalls _ _ Hi) as Hr. cbn in Hr. split; intros Hop; by rewrite Hop in Hr.
  - intros id. specialize (Hc id). lia.
Qed.
End Approvals.

(** ** Examples *)

Section Examples.
#[local] Existing Instance ascii_platform.

(** A library under which a token's payload is its subject. *)
#[local] Instance ciba_jose : Jose := {|
  DecodingKey := unit;
  Jwk := unit;
  b64url_decode := Some;
  b64url := fun s => s;
  json_from_slice := fun s => Some (JObject [("sub", JString s)]);
  decode_header := fun _ => Ok (ES256, None, None, Some tt);
  key_from_jwk := fun _ => Ok tt;
  decode_proof := fun _ _ _ => Err (mkJwtError KindOther "not a proof");
  decode_claims := fun _ _ _ => Ok ∅;
|}.

#[local] Instance ciba_dates : Chrono := {| rfc3339 := fun _ => "later" |}.

(** Bodies that are the id and the token themselves. *)
#[local] Instance ciba_format : CibaFormat := {|
  backchannel_of := fun body => Ok (body, Some 60%Z);
  token_response_of := fun body => Ok (None, Some body);
  oauth_error_of := fun body => Ok body;
  checked_add_seconds := fun now secs => Some (now + secs * 1000000000)%Z;
|}.

Definition ciba_sample : CibaConfig := mkCibaConfig "https://op/bc" "https://op/token" "gateway" "openid" 300%Z 10%Z "sub" false.

Definition sample_request (op : ElicitationOp) (id : option string) : ElicitationPayload :=
  mkElicitationPayload op id "approval" "boss" (Some "pay 5 EUR") None None None "route" "pay" "alice" false
    None None None None None None None None ∅.

Definition sample_env (status : Z) (body : string) : CibaEnv :=
  mkCibaEnv (mkTimes 1000%Z 1000%Z) "owner" (fun _ => Ok (mkReplyBody status body)).

(** A dispatch, a check that polls the provider, a redemption and a second one. *)
Definition sample_events : list CibaEvent :=
  [KeBegin 0 (sample_request OpDispatch None); KeStep 0 (sample_env 200 "req-1"); KeStep 0 (sample_env 200 "");
   KeBegin 1 (sample_request OpCheck (Some "req-1")); KeStep 1 (sample_env 200 ""); KeStep 1 (sample_env 200 "");
   KeStep 1 (sample_env 200 "h.boss.s"); KeStep 1 (sample_env 200 "");
   KeBegin 2 (sample_request OpValidate (Some "req-1")); KeStep 2 (sample_env 200 "");
   KeBegin 3 (sample_request OpValidate (Some "req-1")); KeStep 3 (sample_env 200 "")].

#[local] Instance sample_store : CorrelationStore MemoryState := memory_store (2 ^ 63).
#[local] Instance sample_laws : CorrelationLaws MemoryState := memory_laws (2 ^ 63).

Definition sample_world : CibaWorld MemoryState := ciba_run "approver" ciba_sample (mkMemoryState ∅ ∅) sample_events.

(** The check reports the approval, the first redemption is granted in the approver's name, the
    second finds nothing. *)
Example sample_approval :
  option_map (fun call => match call.2 with KpDone (CrModify p) => ep_outcome p | _ => None end) (kw_calls sample_world !! 1)
    = Some (Some KindApproved)
  /\ option_map (fun call => match call.2 with KpDone (CrModify p) => (ep_valid p, ep_approver p) | _ => (None, None) end)
       (kw_calls sample_world !! 2) = Some (Some true, Some "boss")
  /\ option_map snd (kw_calls sample_world !! 3) = Some (KpDone unknown_id).
Proof. vm_compute. done. Qed.

Example sample_binding_message : sanitize_binding_message "  pay  5 EUR, now! " = "pay-5-EUR-now".
Proof. vm_compute. done. Qed.

Lemma approval_redeemed_once_witness :
  (exists p p', kw_calls sample_world !! 2 = Some (p, KpDone (CrModify p')) /\ ep_valid p' = Some true
     /\ exists approver, ep_approver p' = Some approver /\ polled ciba_sample (kw_log sample_world) "req-1" approver)
  /\ redeemed_count (kw_log sample_world) "req-1" <= stored_count (kw_log sample_world) "req-1".
Proof.
  destruct (approval_redeemed_once "approver" ciba_sample (mkMemoryState ∅ ∅) sample_events) as [Hv Hc].
  { intros id. reflexivity. }
  unfold sample_world. set (w := ciba_run _ _ _ _) in *. split; [|exact (Hc _)].
  destruct (kw_calls w !! 2) as [[p pc]|] eqn:E2; [|vm_compute in E2; discriminate].
  destruct pc as [| | | | | | |[v|p']]; try (vm_compute in E2; discriminate).
  exists p, p'. split; [done|]. destruct (Hv _ _ _ E2) as [Hval _].
  assert (ep_operation p = OpValidate /\ ep_valid p' = Some true /\ ep_elicitation_id p = Some "req-1") as (Hop & Hok & Hid).
  { vm_compute in E2. injection E2 as <- <-. split_and!; reflexivity. }
  split; [exact Hok|]. destruct (Hval Hop Hok) as (id & approver & Hid' & Ha & Hp & _). rewrite Hid in Hid'. injection Hid' as <-.
  exists approver. exact (conj Ha Hp).
Defined.
End Examples.
