(* ===== verification/OAuth.v ===== *)
(** * Delegated tokens over OAuth ([builtins/src/plugins/delegator_oauth/])

    The cache of minted tokens: its settings, the key of a delegation and what is kept under
    it ([cache/]); the exchange with the identity provider and the handler ([delegator.rs]).
    Whom a served token was minted for, when delegations interleave. *)

From Stdlib Require Import Ascii String SpecFloat.
From S2P Require Import Prelude RustStr F64 Json Platform Lexical Scan ExtData HttpPath Plugin Extensions Hooks Config.
From S2P Require Import RouteSelectProps DecisionCache CacheKeyProps Bridge Runtime Session Delegation Credential ClaimMap Dpop Jwt Http Ciba.

(** ** Settings of the cache ([cache/config.rs]) *)

Record StalenessConfig : Type := mkStaleness {
  sl_fraction : f64;
  sl_floor_seconds : Z;
  sl_jitter_seconds : Z;
}.

Record TokenCacheConfig : Type := mkTokenCache {
  tk_enabled : bool;
  tk_subjects : list DelegationSubject;
  tk_max_entries : Z;
  tk_ttl_ceiling_seconds : Z;
  tk_staleness : StalenessConfig;
}.

Definition f64_add (a b : f64) : f64 := SFadd f64_prec f64_emax a b.
Definition f64_sub (a b : f64) : f64 := SFsub f64_prec f64_emax a b.
Definition f64_mul (a b : f64) : f64 := SFmul f64_prec f64_emax a b.
Definition f64_div (a b : f64) : f64 := SFdiv f64_prec f64_emax a b.

(** [f64::max]: the other operand when one is not a number. *)
Definition f64_max (a b : f64) : f64 :=
  match a, b with
  | S754_nan, _ => b
  | _, S754_nan => a
  | _, _ => if f64_ltb a b then b else a
  end.

(** The quotient rounded to the nearest integer, ties to even. *)
Definition div_round (n d : Z) : Z :=
  let q := (n / d)%Z in
  let r := (n mod d)%Z in
  if (2 * r <? d)%Z then q else if (d <? 2 * r)%Z then (q + 1)%Z else if Z.even q then q else (q + 1)%Z.

(** [Duration::from_secs_f64] of a positive value, in nanoseconds. *)
Definition from_secs_f64 (f : f64) : Z :=
  match f with
  | S754_finite false m e =>
      if (0 <=? e)%Z then (Zpos m * 2 ^ e * 1000000000)%Z else div_round (Zpos m * 1000000000) (2 ^ (- e))
  | _ => 0%Z
  end.

Definition whole_seconds (value : Z) : f64 := f64_of_Z (Z.min value (2 ^ 32 - 1)).

(** [CacheConfig::serve_window]; times are in nanoseconds. *)
Definition serve_window (self : TokenCacheConfig) (lifetime jitter_byte : Z) : option Z :=
  let s := tk_staleness self in
  let capped := Z.min lifetime (from_secs (tk_ttl_ceiling_seconds self)) in
  let secs := whole_seconds (capped / 1000000000) in
  let fractional := f64_mul secs (sl_fraction s) in
  let floor := whole_seconds (sl_floor_seconds s) in
  let jitter :=
    if (sl_jitter_seconds s =? 0)%Z then S754_zero false
    else f64_mul (f64_div (f64_of_Z jitter_byte) (f64_of_Z 255)) (whole_seconds (sl_jitter_seconds s)) in
  let margin := f64_add (f64_max fractional floor) jitter in
  let window := f64_sub secs margin in
  if f64_leb window (S754_zero false) then None else Some (from_secs_f64 window).

Inductive TokenCacheError : Type :=
| CacheNoSubjects
| CacheNoEntries
| CacheBadFraction (fraction : f64)
| CacheNoCeiling
| CacheNoWindow.

Definition token_cache_validate (self : TokenCacheConfig) : result unit TokenCacheError :=
  let fraction := sl_fraction (tk_staleness self) in
  if negb (tk_enabled self) then Ok tt
  else if bool_decide (tk_subjects self = []) then Err CacheNoSubjects
  else if (tk_max_entries self =? 0)%Z then Err CacheNoEntries
  else if negb (f64_is_finite fraction) || f64_ltb fraction (S754_zero false) || f64_geb fraction (f64_of_Z 1)
  then Err (CacheBadFraction fraction)
  else if (tk_ttl_ceiling_seconds self =? 0)%Z then Err CacheNoCeiling
  else if bool_decide (serve_window self (from_secs (tk_ttl_ceiling_seconds self)) 255 = None) then Err CacheNoWindow
  else Ok tt.

Definition caches_subject (self : TokenCacheConfig) (subject : DelegationSubject) : bool :=
  tk_enabled self && bool_decide (subject ∈ tk_subjects self).

(** ** The key of a delegation ([cache/key.rs]) *)

Definition DOMAIN : string := "ppe.delegation.cache.v1".

(** HMAC-SHA-256 under the secret of the process. *)
Class KeyedHash := hmac : string -> string.

Record DelegatorIdentity : Type := mkDelegator {
  dg_instance : string;
  dg_token_endpoint : string;
  dg_client_id : string;
}.

Fixpoint le_bytes (n : nat) (z : Z) : string :=
  match n with
  | O => ""
  | S n' => String (byte_of z) (le_bytes n' (z / 256))
  end.

Definition u32_le (n : nat) : string := le_bytes 4 (Z.min (Z.of_nat n) (2 ^ 32 - 1)).

(** What the methods of [KeyEncoder] add to the message. *)
Definition enc_str (value : string) : string := u32_le (String.length value) +:+ value.
Definition enc_tag (value : Z) : string := u8 value.

Definition enc_opt (value : option string) : string :=
  match value with None => enc_tag 0 | Some s => enc_tag 1 +:+ enc_str s end.

Definition enc_set (values : list string) : string :=
  let sorted := Config.dedup (merge_sort string_le values) in
  u32_le (length sorted) +:+ concat_all (map enc_str sorted).

(** The tags; a variant the build does not know has none. *)
Definition subject_tag (s : DelegationSubject) : option Z :=
  Some (match s with SubjUser => 1 | SubjClient => 2 | SubjCallerWorkload => 3 | SubjThisWorkload => 4 end)%Z.

Definition target_type_tag (t : TargetType) : option (Z * option string) :=
  Some (match t with
        | TgTool => (1%Z, None)
        | TgAgent => (2%Z, None)
        | TgResource => (3%Z, None)
        | TgService => (4%Z, None)
        | TgCustom name => (5%Z, Some name)
        end).

Definition auth_enforced_by_tag (a : AuthEnforcedBy) : option Z :=
  Some (match a with ByCaller => 1 | ByTarget => 2 | ByBoth => 3 end)%Z.

Definition token_role_tag (r : TokenRole) : option (Z * option string) :=
  Some (match r with
        | RoleUser => (1%Z, None)
        | RoleClient => (2%Z, None)
        | RoleCallerWorkload => (3%Z, None)
        | RoleCustom name => (4%Z, Some name)
        end).

Inductive NotCacheable : Type := EmptyAnchor | ResourceTemplate | UnknownVariant.

Definition encode_attenuation (attenuation : option AttenuationConfig) : string :=
  match attenuation with
  | None => enc_tag 0
  | Some att =>
      enc_tag 1 +:+ enc_set (at_capabilities att) +:+ enc_set (at_actions att)
      +:+ match at_ttl_seconds att with None => enc_tag 0 | Some ttl => enc_tag 1 +:+ enc_str (le_bytes 8 ttl) end
  end.

Definition ok_or {A E} (e : E) (o : option A) : result A E := match o with Some a => Ok a | None => Err e end.

Definition encode_actor (role : option TokenRole) : result string NotCacheable :=
  match role with
  | None => Ok (enc_tag 0)
  | Some role =>
      let? tag := ok_or UnknownVariant (token_role_tag role) in Ok (enc_tag 1 +:+ enc_tag tag.1 +:+ enc_opt tag.2)
  end.

(** [derive], up to the hash. *)
Definition key_message (d : DelegatorIdentity) (p : DelegationPayload) : result string NotCacheable :=
  let? subject := ok_or UnknownVariant (subject_tag (dp_subject p)) in
  if String.eqb (dp_bearer_token p) "" && negb (bool_decide (dp_subject p = SubjThisWorkload)) then Err EmptyAnchor
  else if is_some_and (fun att => if at_resource_template att is Some _ then true else false) (dp_route_attenuation p)
  then Err ResourceTemplate
  else
    let? target := ok_or UnknownVariant (target_type_tag (dp_target_type p)) in
    let? auth := ok_or UnknownVariant (auth_enforced_by_tag (dp_auth_enforced_by p)) in
    let? actor := encode_actor (dp_actor_role p) in
    Ok (enc_str DOMAIN
        +:+ enc_str (dg_instance d) +:+ enc_str (dg_token_endpoint d) +:+ enc_str (dg_client_id d)
        +:+ enc_tag subject
        +:+ enc_str (dp_bearer_token p)
        +:+ actor +:+ enc_str (dp_actor_token p)
        +:+ enc_str (dp_target_name p) +:+ enc_tag target.1 +:+ enc_opt target.2 +:+ enc_opt (dp_target_audience p)
        +:+ enc_set (dp_required_permissions p) +:+ enc_opt (dp_trust_domain p) +:+ enc_tag auth
        +:+ encode_attenuation (dp_route_attenuation p)).

Definition derive `{KeyedHash} (d : DelegatorIdentity) (p : DelegationPayload) : result string NotCacheable :=
  let? message := key_message d p in Ok (hmac message).

Definition jitter_byte (key : string) : Z :=
  match key with String a _ => Z.of_N (N_of_ascii a) | EmptyString => 0%Z end.

(** ** What is kept ([cache/store.rs]) *)

Record Mint : Type := mkMint {
  mi_token : RawDelegatedToken;
  mi_issued_token_type : string;
}.

Record CachedMint : Type := mkCachedMint {
  cm_mint : Mint;
  cm_minted_at : DateTime;
  cm_serve_for : option Z;
}.

Inductive MintSource : Type := FromCache | FromMint.

Record ServedMint : Type := mkServed {
  sv_mint : Mint;
  sv_source : MintSource;
  sv_minted_at : DateTime;
}.

(** What a token endpoint answers with. *)
Record TokenExchangeResponse : Type := mkExchangeResponse {
  er_access_token : string;
  er_issued_token_type : option string;
  er_expires_in : option Z;
  er_scope : option string;
}.

(** The derived deserializers, the [http] crate's check of a header and [chrono]'s addition of
    seconds, which has no answer past its range. *)
Class TokenHost := {
  exchange_response_of : string -> result TokenExchangeResponse string;
  (** [TokenErrorResponse], its [error]. *)
  error_response_of : string -> option string;
  header_error : string -> string -> option string;
  add_seconds : DateTime -> Z -> option DateTime;
}.

Definition clamp_seconds (secs : Z) : Z := Z.min secs i64_max.

(** [CachedMint::is_servable_now]. *)
Definition is_servable_now `{TokenHost} (config : TokenCacheConfig) (self : CachedMint) (now : DateTime) : bool :=
  match add_seconds now (clamp_seconds (sl_floor_seconds (tk_staleness config))) with
  | None => false
  | Some with_floor =>
      if (rd_expires_at (mi_token (cm_mint self)) <? with_floor)%Z then false
      else match cm_serve_for self with
           | None => false
           | Some serve_for =>
               is_some_and (fun retires_at => (now <=? retires_at)%Z)
                 (add_seconds (cm_minted_at self) (clamp_seconds (serve_for / 1000000000)))
           end
  end.

(** ** The delegator ([config.rs], [delegator.rs]) *)

Record OAuthDelegatorConfig : Type := mkOAuthConfig {
  oa_token_endpoint : string;
  oa_client_id : string;
  oa_subject_token_type : string;
  oa_strict_response_validation : bool;
  oa_allowed_extra_scopes : list string;
  oa_timeout_seconds : Z;
  oa_default_outbound_header : string;
  oa_insecure_http : bool;
  oa_actor_token_type : string;
  oa_workload_assertion_type : string;
  oa_cache : TokenCacheConfig;
  oa_idempotency_header : option string;
}.

Definition GRANT_TYPE_TOKEN_EXCHANGE : string := "urn:ietf:params:oauth:grant-type:token-exchange".
Definition GRANT_TYPE_CLIENT_CREDENTIALS : string := "client_credentials".
Definition DEFAULT_ISSUED_TOKEN_TYPE : string := "urn:ietf:params:oauth:token-type:access_token".
Definition JWT_ISSUED_TOKEN_TYPE : string := "urn:ietf:params:oauth:token-type:jwt".

Inductive OAuthConfigError : Type :=
| TokenEndpointEmpty
| TokenEndpointPlaintext (url : string)
| OAuthClientIdEmpty
| BadExtraScope
| OAuthSecret (message : string)
| OAuthCache (e : TokenCacheError).

(** The checks of [OAuthDelegator::new] on settings that parsed; [secret] is what the secret's
    source gives. *)
Definition oauth_new (typed : OAuthDelegatorConfig) (secret : result string string) : result string OAuthConfigError :=
  if String.eqb (trim (oa_token_endpoint typed)) "" then Err TokenEndpointEmpty
  else if plaintext_refused (oa_token_endpoint typed) (oa_insecure_http typed)
  then Err (TokenEndpointPlaintext (oa_token_endpoint typed))
  else if String.eqb (trim (oa_client_id typed)) "" then Err OAuthClientIdEmpty
  else if existsb (fun scope => String.eqb scope "" || contains_whitespace scope) (oa_allowed_extra_scopes typed)
  then Err BadExtraScope
  else
    let? secret := result_map_err OAuthSecret secret in
    let? _ := result_map_err OAuthCache (token_cache_validate (oa_cache typed)) in
    Ok secret.

(** [requested_scopes], as the list that is joined_scopes. *)
Definition requested_scopes (p : DelegationPayload) : list string :=
  match dp_route_attenuation p with
  | None => dp_required_permissions p
  | Some att =>
      foldl (fun scopes cap => if bool_decide (cap ∈ scopes) then scopes else scopes ++ [cap])
        (dp_required_permissions p) (at_capabilities att)
  end.

Definition joined_scopes (l : list string) : string := String.concat " " l.

(** [violation_for]. *)
Definition idp_violation (plugin endpoint leg : string) (err : HttpRequestError) : PluginViolation :=
  match err with
  | ReqUnavailable e => violation_new "delegation.no_transport" ("plugin '" +:+ plugin +:+ "' " +:+ e)
  | ReqTransport (TeRejected m as e) =>
      violation_new "delegation.egress_denied"
        (leg +:+ " to " +:+ endpoint +:+ " was refused before it left the process: " +:+ transport_error_display e)
  | ReqTransport e =>
      if may_have_reached_peer e
      then violation_new "delegation.idp_timeout"
             (leg +:+ " to " +:+ endpoint +:+ " did not complete: " +:+ transport_error_display e)
      else violation_new "delegation.idp_unreachable"
             (leg +:+ " to " +:+ endpoint +:+ " never reached the IdP: " +:+ transport_error_display e)
  end.

Definition with_details (details : gmap string json) (v : PluginViolation) : PluginViolation :=
  mkViolation (vi_code v) (vi_reason v) (vi_description v) details (vi_plugin_name v) (vi_proto_error_code v).

Definition idp_rejection `{TokenHost} (leg : string) (response : HttpReplyBody) : PluginViolation :=
  let reason :=
    match error_response_of (rp_body response) with
    | Some error => leg +:+ " rejected: " +:+ error
    | None => leg +:+ " rejected (HTTP " +:+ show_Z (rp_status response) +:+ ")"
    end in
  with_details {["http_status" := JNumber (NInt (rp_status response))]} (violation_new "delegation.idp_rejected" reason).

(** The claims of the middle segment. *)
Definition middle_claims `{Jose} (token : string) : option json :=
  match split "." token with
  | _ :: payload :: _ => b64url_decode payload ≫= json_from_slice
  | _ => None
  end.

Definition names_bound_key `{Jose} (token : string) : bool :=
  is_some_and (fun claims => if value_walk claims ["cnf"; "jkt"] is Some _ then true else false) (middle_claims token).

Definition bound_tokens_sent `{Jose} (subject_token actor_token : option string) : list string :=
  (if is_some_and names_bound_key subject_token then ["subject_token"] else [])
  ++ (if is_some_and names_bound_key actor_token then ["actor_token"] else []).

Definition with_binding_hint (v : PluginViolation) (bound : list string) : PluginViolation :=
  match bound with
  | [] => v
  | _ =>
      mkViolation (vi_code v)
        (vi_reason v +:+ "; the " +:+ String.concat " and " bound +:+ " sent "
         +:+ (if (length bound =? 1)%nat then "is" else "are")
         +:+ " DPoP-bound, and an IdP may let only the client it was issued to exchange a bound token: exchange an unbound token, or delegate on this instance's own credential (subject: this_workload)")
        (vi_description v) (<["bound_tokens" := JArray (map JString bound)]> (vi_details v)) (vi_plugin_name v)
        (vi_proto_error_code v)
  end.

(** [jwt_claims]: three segments and an object. *)
Definition jwt_claims `{Jose} (token : string) : option json :=
  match split "." token with
  | [_; payload; _] =>
      match b64url_decode payload ≫= json_from_slice with
      | Some (JObject m) => Some (JObject m)
      | _ => None
      end
  | _ => None
  end.

Definition jwt_str (claims : json) (name : string) : option string := value_get name claims ≫= as_str.

(** [has_unapproved_scope] of the validation. *)
Definition has_unapproved_scope `{Platform} (requested_scope : string) (allowed_extra_scopes : list string) (scope : string) :
    bool :=
  negb (String.eqb requested_scope "")
  && existsb (fun granted =>
       negb (bool_decide (granted ∈ split_whitespace requested_scope))
       && negb (bool_decide (granted ∈ allowed_extra_scopes))) (split_whitespace scope).

(** The checks of [validate_exchange_response] on the claims of a JWT. *)
Definition validate_claims `{Platform, Jose} (claims : json) (requested_scope audience subject_token : string)
    (caller_identity : option string) (is_exchange_grant : bool) (allowed_extra_scopes : list string) :
    result (option (list string)) PluginViolation :=
  if is_some_and (has_unapproved_scope requested_scope allowed_extra_scopes) (jwt_str claims "scope")
  then Err (violation_new "delegation.scope_overgrant" "IdP JWT contains a scope that was not requested")
  else
    let jwt_scopes := option_map split_whitespace (jwt_str claims "scope") in
    let aud_matches :=
      match value_get "aud" claims with
      | Some (JString aud) => String.eqb aud audience
      | Some (JArray auds) => existsb (fun aud => bool_decide (as_str aud = Some audience)) auds
      | _ => false
      end in
    if negb aud_matches then Err (violation_new "delegation.audience_mismatch" "IdP issued a JWT for a different audience")
    else if is_exchange_grant then
      match (match jwt_claims subject_token ≫= (fun caller => jwt_str caller "sub") with
             | Some sub => Some sub
             | None => caller_identity
             end) with
      | None =>
          Err (violation_new "delegation.subject_unverifiable" "cannot determine the caller subject for the issued JWT")
      | Some caller_sub =>
          if bool_decide (jwt_str claims "sub" = Some caller_sub) then Ok jwt_scopes
          else Err (violation_new "delegation.subject_mismatch" "IdP issued a JWT for a different subject")
      end
    else Ok jwt_scopes.

Definition validate_exchange_response `{Platform, Jose} (response : TokenExchangeResponse)
    (requested_scope audience subject_token : string) (caller_identity : option string) (is_exchange_grant : bool)
    (allowed_extra_scopes : list string) : result (option (list string)) PluginViolation :=
  let issued_type := default DEFAULT_ISSUED_TOKEN_TYPE (er_issued_token_type response) in
  if bool_decide (er_issued_token_type response = None) && is_exchange_grant
  then Err (violation_new "delegation.bad_response" "IdP omitted the required issued_token_type")
  else if negb (String.eqb issued_type DEFAULT_ISSUED_TOKEN_TYPE) && negb (String.eqb issued_type JWT_ISSUED_TOKEN_TYPE)
  then Err (violation_new "delegation.issued_token_type_mismatch"
              "IdP issued a token type other than an access token or JWT")
  else if is_some_and (has_unapproved_scope requested_scope allowed_extra_scopes) (er_scope response)
  then Err (violation_new "delegation.scope_overgrant" "IdP granted a scope that was not requested")
  else
    match jwt_claims (er_access_token response) with
    | None =>
        if String.eqb issued_type JWT_ISSUED_TOKEN_TYPE
        then Err (violation_new "delegation.bad_response" "IdP labeled a token as JWT but its claims are unreadable")
        else Ok None
    | Some claims =>
        validate_claims claims requested_scope audience subject_token caller_identity is_exchange_grant
          allowed_extra_scopes
    end.

(** What one call to the token endpoint meets: its effect key, whether the intent could be
    recorded (an error says whether the phase forbids effects, and its text), the reply to a form. *)
Record LegEnv : Type := mkLeg {
  le_key : string;
  le_begin : result unit (bool * string);
  le_reply : list (string * string) -> result HttpReplyBody HttpRequestError;
}.

(** What is recorded around a mint. *)
Inductive MintNote : Type :=
| NoteIntent (key : string)
| NoteOutcome (key : string) (confirmed : bool).

(** [audit_mint]: no intent on record, no mint. *)
Definition audit_mint {T} (leg : LegEnv) (mint : result T PluginViolation) : result T PluginViolation * list MintNote :=
  match le_begin leg with
  | Err (true, e) => (Err (violation_new "delegation.effects_not_permitted" e), [])
  | Err (false, e) =>
      (Err (violation_new "delegation.effect_log_failed" ("could not durably record the token-mint intent: " +:+ e)), [])
  | Ok _ => (mint, [NoteIntent (le_key leg); NoteOutcome (le_key leg) (if mint is Ok _ then true else false)])
  end.

Inductive ExchangeEnd : Type :=
| ExMinted (m : Mint)
| ExDenied (v : PluginViolation)
| ExPanic.

Section Delegator.
Context `{Platform, Jose, TokenHost} {M : Type}.
Variables (plugin : string) (typed : OAuthDelegatorConfig).

(** [with_idempotency_key], on a request whose other headers are fixed or base64. *)
Definition with_idempotency_key (key : string) : result unit PluginViolation :=
  match oa_idempotency_header typed with
  | None => Ok tt
  | Some header =>
      match header_error header key with
      | None => Ok tt
      | Some e =>
          Err (violation_new "delegation.bad_request"
                 ("could not attach the idempotency header `" +:+ header +:+ "`: malformed request: " +:+ e))
      end
  end.

Definition base_form (svid : string) : list (string * string) :=
  [("grant_type", GRANT_TYPE_CLIENT_CREDENTIALS); ("client_assertion_type", oa_workload_assertion_type typed);
   ("client_assertion", svid)].

Definition base_reply (reply : result HttpReplyBody HttpRequestError) : result string PluginViolation :=
  match reply with
  | Err e => Err (idp_violation plugin (oa_token_endpoint typed) "workload client_assertion POST" e)
  | Ok r =>
      if negb (is_success r) then Err (idp_rejection "workload client_assertion" r)
      else match exchange_response_of (rp_body r) with
           | Ok parsed => Ok (er_access_token parsed)
           | Err e =>
               Err (violation_new "delegation.bad_response"
                      ("workload client_assertion response wasn't valid token JSON: " +:+ e))
           end
  end.

(** [mint_base_token]. *)
Definition mint_base_token (svid : string) (leg : LegEnv) : result string PluginViolation * list MintNote :=
  match with_idempotency_key (le_key leg) with
  | Err v => (Err v, [])
  | Ok _ => audit_mint leg (base_reply (le_reply leg (base_form svid)))
  end.

Definition as_this_workload (p : DelegationPayload) : bool := bool_decide (dp_subject p = SubjThisWorkload).
Definition is_workload (p : DelegationPayload) : bool := bool_decide (dp_subject p = SubjCallerWorkload).

Definition actor_requested (p : DelegationPayload) : bool :=
  negb (String.eqb (dp_actor_token p) "") && negb (as_this_workload p) && negb (is_workload p).

(** The form of the exchange. *)
Definition exchange_form (p : DelegationPayload) (subject_token : string) : list (string * string) :=
  let audience := default "" (dp_target_audience p) in
  let scope := joined_scopes (requested_scopes p) in
  (if as_this_workload p
   then [("grant_type", GRANT_TYPE_CLIENT_CREDENTIALS); ("audience", audience)]
   else [("grant_type", GRANT_TYPE_TOKEN_EXCHANGE); ("subject_token", subject_token);
         ("subject_token_type", oa_subject_token_type typed); ("audience", audience)])
  ++ (if String.eqb scope "" then [] else [("scope", scope)])
  ++ (if actor_requested p
      then [("actor_token", dp_actor_token p); ("actor_token_type", oa_actor_token_type typed)] else []).

(** The body of the bracket around the exchange. *)
Definition exchange_reply (p : DelegationPayload) (subject_token : string)
    (reply : result HttpReplyBody HttpRequestError) : result TokenExchangeResponse PluginViolation :=
  match reply with
  | Err e => Err (idp_violation plugin (oa_token_endpoint typed) "token-exchange POST" e)
  | Ok r =>
      if negb (is_success r) then
        Err (with_binding_hint (idp_rejection "token exchange" r)
               (bound_tokens_sent (if as_this_workload p then None else Some subject_token)
                  (if actor_requested p then Some (dp_actor_token p) else None)))
      else match exchange_response_of (rp_body r) with
           | Ok parsed => Ok parsed
           | Err e =>
               Err (violation_new "delegation.bad_response"
                      ("IdP response wasn't valid token-exchange JSON: " +:+ e))
           end
  end.

Definition require_permissions (p : DelegationPayload) (granted_scopes : list string) : result unit PluginViolation :=
  match List.filter (fun req => negb (bool_decide (req ∈ granted_scopes))) (dp_required_permissions p) with
  | [] => Ok tt
  | missing =>
      Err (violation_new "delegation.scope_too_broad"
             ("IdP granted narrower scopes than requested. requested=[" +:+ joined_scopes (dp_required_permissions p)
              +:+ "] granted=[" +:+ joined_scopes granted_scopes +:+ "] missing=[" +:+ joined_scopes missing +:+ "]"))
  end.

Definition caller_identity (p : DelegationPayload) (x : Extensions M) : option string :=
  match dp_subject p with
  | SubjUser => (x_security x ≫= sec_subject) ≫= sj_id
  | SubjClient => option_map cl_client_id (x_security x ≫= sec_client)
  | SubjCallerWorkload => (x_security x ≫= sec_caller_workload) ≫= wi_spiffe_id
  | SubjThisWorkload => None
  end.

(** The scopes of the minted token: the JWT's own where it can be read, else the grant the
    response names, else the one requested. *)
Definition effective_scopes (p : DelegationPayload) (x : Extensions M) (subject_token : string)
    (parsed : TokenExchangeResponse) : result (list string) PluginViolation :=
  let scope := joined_scopes (requested_scopes p) in
  let granted := split_whitespace (default scope (er_scope parsed)) in
  let? _ := (if er_scope parsed is Some _ then require_permissions p granted else Ok tt) in
  let? jwt_scopes :=
    (if oa_strict_response_validation typed
     then validate_exchange_response parsed scope (default "" (dp_target_audience p)) subject_token (caller_identity p x)
            (negb (as_this_workload p)) (oa_allowed_extra_scopes typed)
     else Ok None) in
  match jwt_scopes with
  | Some scopes => let? _ := require_permissions p scopes in Ok scopes
  | None => Ok granted
  end.

Definition token_ttl (p : DelegationPayload) (parsed : TokenExchangeResponse) : Z :=
  let ttl := default 300%Z (er_expires_in parsed) in
  match dp_route_attenuation p ≫= at_ttl_seconds with
  | Some hint => Z.min ttl (clamp_seconds hint)
  | None => ttl
  end.

(** The end of [exchange]; adding a lifetime past the range of a date panics. *)
Definition finish_exchange (p : DelegationPayload) (x : Extensions M) (subject_token : string)
    (parsed : TokenExchangeResponse) (now : DateTime) : ExchangeEnd :=
  match effective_scopes p x subject_token parsed with
  | Err v => ExDenied v
  | Ok scopes =>
      match add_seconds now (token_ttl p parsed) with
      | None => ExPanic
      | Some expires_at =>
          ExMinted (mkMint
            (mkDelegated (er_access_token parsed) (oa_default_outbound_header typed) "Bearer "
               (default "" (dp_target_audience p)) scopes expires_at)
            (default DEFAULT_ISSUED_TOKEN_TYPE (er_issued_token_type parsed)))
      end
  end.

(** [exchange], and what was recorded around its calls. *)
Definition exchange (p : DelegationPayload) (x : Extensions M) (leg1 leg2 : LegEnv) (now : DateTime) :
    ExchangeEnd * list MintNote :=
  let '(subject_token, notes) := if is_workload p then mint_base_token (dp_bearer_token p) leg1 else (Ok (dp_bearer_token p), []) in
  match subject_token with
  | Err v => (ExDenied v, notes)
  | Ok subject_token =>
      match with_idempotency_key (le_key leg2) with
      | Err v => (ExDenied v, notes)
      | Ok _ =>
          match audit_mint leg2 (exchange_reply p subject_token (le_reply leg2 (exchange_form p subject_token))) with
          | (Err v, more) => (ExDenied v, notes ++ more)
          | (Ok parsed, more) => (finish_exchange p x subject_token parsed now, notes ++ more)
          end
      end
  end.

Context `{KeyedHash}.

Definition delegator_identity : DelegatorIdentity := mkDelegator plugin (oa_token_endpoint typed) (oa_client_id typed).

(** [cache_for]. *)
Definition cache_for (p : DelegationPayload) : option string :=
  if caches_subject (oa_cache typed) (dp_subject p) then
    match derive delegator_identity p with Ok key => Some key | Err _ => None end
  else None.

(** The end of [handle]. *)
Definition served_payload (p : DelegationPayload) (served : ServedMint) : DelegationPayload :=
  mkDelegationPayload (dp_bearer_token p) (dp_actor_token p) (dp_actor_role p) (dp_subject p) (dp_delegator_name p)
    (dp_target_name p) (dp_target_type p) (dp_target_audience p) (dp_required_permissions p) (dp_trust_domain p)
    (dp_auth_enforced_by p) (dp_route_attenuation p) (Some (mi_token (sv_mint served))) (dp_delegation_update p)
    (Some (default_mode (dp_subject p))) (Some (sv_minted_at served))
    (<["delegated_token_source" := JString (match sv_source served with FromCache => "cache" | FromMint => "mint" end)]>
       (<["issued_token_type" := JString (mi_issued_token_type (sv_mint served))]> (dp_metadata p))).

Inductive DelegateResult : Type :=
| DrDeny (v : PluginViolation)
| DrModify (p : DelegationPayload).

(** Where a call stands: at its start; about to read the cache; to drop a stale entry; to enter
    the coalesced path; to exchange, for the cache or not; to read the clock for the lifetime;
    to insert; to date an uncached mint; done, or panicked. *)
Inductive TokenPc : Type :=
| TpStart
| TpGet (key : string)
| TpInvalidate (key : string)
| TpEnter (key : string)
| TpExchange (key : option string)
| TpLifetime (key : string) (m : Mint)
| TpInsert (key : string) (m : Mint) (serve_for : option Z)
| TpDate (m : Mint)
| TpDone (r : DelegateResult)
| TpPanic.

(** What a step meets: the clock, the provider, what the cache holds under the key, and what its
    coalesced entry gives: the value or error of another call's exchange, or the turn to run
    this one. *)
Record TokenEnv : Type := mkTokenEnv {
  te_now : DateTime;
  te_leg1 : LegEnv;
  te_leg2 : LegEnv;
  te_found : option CachedMint;
  te_entry : option (result CachedMint PluginViolation);
}.

Definition deny_delegation (code reason : string) : TokenPc := TpDone (DrDeny (violation_new code reason)).

(** [get_or_mint]: the check of what the cache holds, *)
Definition get_found (p : DelegationPayload) (key : string) (found : option CachedMint) (now : DateTime) : TokenPc :=
  match found with
  | None => TpEnter key
  | Some existing =>
      if is_servable_now (oa_cache typed) existing now
      then TpDone (DrModify (served_payload p (mkServed (cm_mint existing) FromCache (cm_minted_at existing))))
      else TpInvalidate key
  end.

(** its coalesced entry, *)
Definition enter_entry (p : DelegationPayload) (key : string) (entry : option (result CachedMint PluginViolation)) : TokenPc :=
  match entry with
  | None => TpExchange (Some key)
  | Some (Err v) => TpDone (DrDeny v)
  | Some (Ok value) => TpDone (DrModify (served_payload p (mkServed (cm_mint value) FromCache (cm_minted_at value))))
  end.

(** and the window of a new mint. *)
Definition mint_window (key : string) (m : Mint) (now : DateTime) : option Z :=
  serve_window (oa_cache typed) (Z.max 0 (rd_expires_at (mi_token m) - now)) (jitter_byte key).

(** [handle], one step at a time. *)
Definition token_step (p : DelegationPayload) (x : Extensions M) (env : TokenEnv) (pc : TokenPc) : TokenPc :=
  match pc with
  | TpStart =>
      if String.eqb (dp_bearer_token p) "" && negb (as_this_workload p) then
        deny_delegation "delegation.bad_request"
          "DelegationPayload carried an empty bearer_token — outbound caller didn't populate the credential before invoking the hook"
      else if String.eqb (default "" (dp_target_audience p)) "" then
        deny_delegation "delegation.bad_request"
          "target_audience missing — RFC 8693 token exchange requires an audience to scope the minted credential"
      else match cache_for p with Some key => TpGet key | None => TpExchange None end
  | TpGet key => get_found p key (te_found env) (te_now env)
  | TpInvalidate key => TpEnter key
  | TpEnter key => enter_entry p key (te_entry env)
  | TpExchange key =>
      match (exchange p x (te_leg1 env) (te_leg2 env) (te_now env)).1 with
      | ExPanic => TpPanic
      | ExDenied v => TpDone (DrDeny v)
      | ExMinted m => match key with Some key => TpLifetime key m | None => TpDate m end
      end
  | TpLifetime key m => TpInsert key m (mint_window key m (te_now env))
  | TpInsert key m serve_for => TpDone (DrModify (served_payload p (mkServed m FromMint (te_now env))))
  | TpDate m => TpDone (DrModify (served_payload p (mkServed m FromMint (te_now env))))
  | TpDone r => TpDone r
  | TpPanic => TpPanic
  end.
End Delegator.

(** ** Two delegations share a key exactly when they ask for the same token *)

Definition same_set (l1 l2 : list string) : Prop := forall s, s ∈ l1 <-> s ∈ l2.

Definition same_attenuation (a1 a2 : option AttenuationConfig) : Prop :=
  match a1, a2 with
  | None, None => True
  | Some a1, Some a2 =>
      same_set (at_capabilities a1) (at_capabilities a2) /\ same_set (at_actions a1) (at_actions a2)
      /\ at_ttl_seconds a1 = at_ttl_seconds a2
  | _, _ => False
  end.

(** Same credential in the same role, same actor, same target and audience, same narrowing. *)
Definition same_delegation (p1 p2 : DelegationPayload) : Prop :=
  dp_subject p1 = dp_subject p2 /\ dp_bearer_token p1 = dp_bearer_token p2
  /\ dp_actor_role p1 = dp_actor_role p2 /\ dp_actor_token p1 = dp_actor_token p2
  /\ dp_target_name p1 = dp_target_name p2 /\ dp_target_type p1 = dp_target_type p2
  /\ dp_target_audience p1 = dp_target_audience p2
  /\ same_set (dp_required_permissions p1) (dp_required_permissions p2)
  /\ dp_trust_domain p1 = dp_trust_domain p2 /\ dp_auth_enforced_by p1 = dp_auth_enforced_by p2
  /\ same_attenuation (dp_route_attenuation p1) (dp_route_attenuation p2).

(** Lengths the encoding can tell apart: below four gigabytes. *)
Definition short (s : string) : Prop := (Z.of_nat (String.length s) < 2 ^ 32)%Z.
Definition short_opt (o : option string) : Prop := match o with Some s => short s | None => True end.
Definition short_set (l : list string) : Prop := (Z.of_nat (length l) < 2 ^ 32)%Z /\ Forall short l.

Definition small (p : DelegationPayload) : Prop :=
  short (dp_bearer_token p) /\ short (dp_actor_token p)
  /\ match dp_actor_role p with Some (RoleCustom name) => short name | _ => True end
  /\ short (dp_target_name p) /\ match dp_target_type p with TgCustom name => short name | _ => True end
  /\ short_opt (dp_target_audience p) /\ short_set (dp_required_permissions p) /\ short_opt (dp_trust_domain p)
  /\ match dp_route_attenuation p with
     | Some att => short_set (at_capabilities att) /\ short_set (at_actions att)
                   /\ match at_ttl_seconds att with Some ttl => in_u64 ttl | None => True end
     | None => True
     end.

Definition small_identity (d : DelegatorIdentity) : Prop :=
  short (dg_instance d) /\ short (dg_token_endpoint d) /\ short (dg_client_id d).

Lemma le_bytes_length n z : String.length (le_bytes n z) = n.
Proof. revert z. induction n as [|n IH]; intros z; [done|]. cbn. by rewrite IH. Qed.

Lemma le_bytes_inj n x y :
  (0 <= x < 256 ^ Z.of_nat n)%Z -> (0 <= y < 256 ^ Z.of_nat n)%Z -> le_bytes n x = le_bytes n y -> x = y.
Proof.
  revert x y. induction n as [|n IH]; intros x y Hx Hy He; [simpl in *; lia|].
  rewrite Nat2Z.inj_succ, Z.pow_succ_r in Hx, Hy by lia. cbn [le_bytes] in He. injection He as Hb%byte_of_inj He.
  apply IH in He; [|split; [apply Z.div_pos; lia|apply Z.div_lt_upper_bound; lia]..].
  rewrite (Z.div_mod x 256), (Z.div_mod y 256) by lia. lia.
Qed.

Lemma u32_delimits n m s t :
  (Z.of_nat n < 2 ^ 32)%Z -> (Z.of_nat m < 2 ^ 32)%Z -> u32_le n +:+ s = u32_le m +:+ t -> n = m /\ s = t.
Proof.
  unfold u32_le. intros Hn Hm He. apply string_app_inj in He as [He ->]; [|by rewrite !le_bytes_length].
  split; [|done]. apply le_bytes_inj in He; change (256 ^ Z.of_nat 4)%Z with (2 ^ 32)%Z; lia.
Qed.

Lemma enc_str_delimits a b : short a -> short b -> delimits enc_str eq a b.
Proof.
  intros Ha Hb s t He. unfold enc_str in He. rewrite !append_assoc in He.
  apply u32_delimits in He as [Hl He]; [|done..]. by apply string_app_inj in He.
Qed.

Lemma enc_opt_delimits a b : short_opt a -> short_opt b -> delimits enc_opt eq a b.
Proof.
  intros Ha Hb s t He. destruct a as [a|], b as [b|]; cbn [enc_opt] in He; rewrite ?append_assoc in He;
    apply u8_tag in He as [Et He]; try lia.
  - apply enc_str_delimits in He as [-> ->]; done.
  - by split.
Qed.

Lemma dedup_sorted l : StronglySorted string_le l -> StronglySorted string_le (Config.dedup l).
Proof.
  induction 1 as [|y l Hs IH Hall]; [constructor|]. destruct l as [|z l]; [by repeat constructor|].
  change (Config.dedup (y :: z :: l)) with (if String.eqb y z then Config.dedup (z :: l) else y :: Config.dedup (z :: l)).
  destruct (String.eqb y z); [done|]. constructor; [done|]. apply Forall_forall. intros x Hx.
  rewrite dedup_methods_elem in Hx. rewrite Forall_forall in Hall. by apply Hall.
Qed.

Definition canonical (l : list string) : list string := Config.dedup (merge_sort string_le l).

Lemma canonical_elem l s : s ∈ canonical l <-> s ∈ l.
Proof. unfold canonical. by rewrite dedup_methods_elem, merge_sort_Permutation. Qed.

Lemma canonical_same l1 l2 : same_set l1 l2 <-> canonical l1 = canonical l2.
Proof.
  split.
  - intros Hs. apply (StronglySorted_unique string_le); try apply dedup_sorted, (StronglySorted_merge_sort string_le).
    apply NoDup_Permutation; try apply dedup_nodup, (StronglySorted_merge_sort string_le).
    intros s. by rewrite !canonical_elem.
  - intros He s. by rewrite <- (canonical_elem l1), He, canonical_elem.
Qed.

Lemma canonical_short l : short_set l -> (Z.of_nat (length (canonical l)) < 2 ^ 32)%Z /\ Forall short (canonical l).
Proof.
  intros [Hl Hf]. split.
  - assert (length (canonical l) <= length l); [|lia].
    apply submseteq_length, NoDup_submseteq; [apply dedup_nodup, (StronglySorted_merge_sort string_le)|].
    intros s. by rewrite canonical_elem.
  - apply Forall_forall. intros s Hs. rewrite canonical_elem in Hs. rewrite Forall_forall in Hf. by apply Hf.
Qed.

Lemma enc_set_delimits l1 l2 : short_set l1 -> short_set l2 -> delimits enc_set same_set l1 l2.
Proof.
  intros [H1 F1]%canonical_short [H2 F2]%canonical_short s t He. unfold enc_set in He. fold (canonical l1) (canonical l2) in He.
  rewrite !append_assoc in He. apply u32_delimits in He as [Hl He]; [|done..].
  apply (concat_delimits enc_str eq) in He as [He ->]; [|done|].
  - split; [|done]. apply canonical_same. by apply forall2_eq.
  - rewrite Forall_forall in F1, F2. intros a b Ha Hb. apply enc_str_delimits; auto.
Qed.

Lemma enc_set_same l1 l2 : same_set l1 l2 -> enc_set l1 = enc_set l2.
Proof. intros Hs%canonical_same. unfold enc_set. fold (canonical l1) (canonical l2). by rewrite Hs. Qed.

Lemma attenuation_delimits a1 a2 s t :
  match a1 with
  | Some att => short_set (at_capabilities att) /\ short_set (at_actions att)
                /\ match at_ttl_seconds att with Some ttl => in_u64 ttl | None => True end
  | None => True
  end ->
  match a2 with
  | Some att => short_set (at_capabilities att) /\ short_set (at_actions att)
                /\ match at_ttl_seconds att with Some ttl => in_u64 ttl | None => True end
  | None => True
  end ->
  encode_attenuation a1 +:+ s = encode_attenuation a2 +:+ t -> same_attenuation a1 a2 /\ s = t.
Proof.
  destruct a1 as [a1|], a2 as [a2|]; cbn [encode_attenuation same_attenuation]; intros H1 H2 He;
    rewrite ?append_assoc in He; apply u8_tag in He as [Et He]; try lia; [|by split].
  destruct H1 as (C1 & A1 & T1), H2 as (C2 & A2 & T2).
  apply enc_set_delimits in He as [Hc He]; [|done..]. rewrite ?append_assoc in He.
  apply enc_set_delimits in He as [Ha He]; [|done..].
  destruct (at_ttl_seconds a1) as [t1|], (at_ttl_seconds a2) as [t2|]; rewrite ?append_assoc in He;
    apply u8_tag in He as [Et' He]; try lia; [|by split_and!].
  apply enc_str_delimits in He as [Ht ->]; [|unfold short; rewrite le_bytes_length; lia..].
  apply le_bytes_inj in Ht as ->; [by split_and!|done..].
Qed.

Lemma actor_delimits r1 r2 e1 e2 s t :
  match r1 with Some (RoleCustom name) => short name | _ => True end ->
  match r2 with Some (RoleCustom name) => short name | _ => True end ->
  encode_actor r1 = Ok e1 -> encode_actor r2 = Ok e2 -> e1 +:+ s = e2 +:+ t -> r1 = r2 /\ s = t.
Proof.
  intros H1 H2 E1 E2 He.
  destruct r1 as [r1|], r2 as [r2|]; cbn [encode_actor token_role_tag ok_or fst snd] in E1, E2; injection E1 as <-; injection E2 as <-;
    rewrite ?append_assoc in He; apply u8_tag in He as [Et He]; try lia; [|by split].
  rewrite ?append_assoc in He. apply u8_tag in He as [Et' He]; [|destruct r1; cbn; lia|destruct r2; cbn; lia].
  apply enc_opt_delimits in He as [Ho ->]; [|by destruct r1|by destruct r2].
  split; [|done]. destruct r1, r2; cbn in *; try lia; congruence.
Qed.

Lemma subject_tag_spec a n : subject_tag a = Some n -> (0 <= n < 256)%Z /\ forall b, subject_tag b = Some n -> a = b.
Proof. destruct a; cbn; intros [= <-]; (split; [lia|]); intros []; by cbn. Qed.

Lemma target_tag_spec a n :
  target_type_tag a = Some n ->
  (0 <= n.1 < 256)%Z /\ (match a with TgCustom name => short name | _ => True end -> short_opt n.2)
  /\ forall b m, target_type_tag b = Some m -> n.1 = m.1 -> n.2 = m.2 -> a = b.
Proof.
  destruct a; cbn; intros [= <-]; (split; [cbn; lia|split; [done|]]); intros [] m [= <-]; cbn; try done; by intros _ [= ->].
Qed.

Lemma auth_tag_spec a n :
  auth_enforced_by_tag a = Some n -> (0 <= n < 256)%Z /\ forall b, auth_enforced_by_tag b = Some n -> a = b.
Proof. destruct a; cbn; intros [= <-]; (split; [lia|]); intros []; by cbn. Qed.

(** What a key message is made of, and why there may be none. *)
Lemma key_message_inv d p m :
  key_message d p = Ok m ->
  exists actor, encode_actor (dp_actor_role p) = Ok actor
  /\ (dp_bearer_token p <> "" \/ dp_subject p = SubjThisWorkload)
  /\ exists subject target auth, subject_tag (dp_subject p) = Some subject /\ target_type_tag (dp_target_type p) = Some target
     /\ auth_enforced_by_tag (dp_auth_enforced_by p) = Some auth
     /\ m = enc_str DOMAIN +:+ enc_str (dg_instance d) +:+ enc_str (dg_token_endpoint d) +:+ enc_str (dg_client_id d)
        +:+ enc_tag subject +:+ enc_str (dp_bearer_token p) +:+ actor +:+ enc_str (dp_actor_token p)
        +:+ enc_str (dp_target_name p) +:+ enc_tag target.1 +:+ enc_opt target.2 +:+ enc_opt (dp_target_audience p)
        +:+ enc_set (dp_required_permissions p) +:+ enc_opt (dp_trust_domain p) +:+ enc_tag auth
        +:+ encode_attenuation (dp_route_attenuation p).
Proof.
  unfold key_message. destruct (subject_tag (dp_subject p)) as [subject|] eqn:Es; [|done]. cbn [ok_or].
  destruct (String.eqb_spec (dp_bearer_token p) "") as [Eb|Eb]; cbn [andb].
  - destruct (bool_decide_reflect (dp_subject p = SubjThisWorkload)) as [Ew|]; [cbn [negb]|done].
    destruct (is_some_and _ _); [done|]. destruct (target_type_tag _) as [target|] eqn:Et; [|done].
    destruct (auth_enforced_by_tag _) as [auth|] eqn:Ea; [|done]. cbn [ok_or].
    destruct (encode_actor _) as [actor|]; [|done]. intros [= <-]. exists actor. split_and!; [done|by right|].
    by exists subject, target, auth.
  - destruct (is_some_and _ _); [done|]. destruct (target_type_tag _) as [target|] eqn:Et; [|done].
    destruct (auth_enforced_by_tag _) as [auth|] eqn:Ea; [|done]. cbn [ok_or].
    destruct (encode_actor _) as [actor|]; [|done]. intros [= <-]. exists actor. split_and!; [done|by left|].
    by exists subject, target, auth.
Qed.

Lemma key_message_same d1 d2 p1 p2 m1 m2 :
  small_identity d1 -> small_identity d2 -> small p1 -> small p2 ->
  key_message d1 p1 = Ok m1 -> key_message d2 p2 = Ok m2 -> m1 = m2 -> d1 = d2 /\ same_delegation p1 p2.
Proof.
  intros (I1 & I2 & I3) (J1 & J2 & J3) (B1 & A1 & R1 & N1 & T1 & U1 & Q1 & D1 & Z1) (B2 & A2 & R2 & N2 & T2 & U2 & Q2 & D2 & Z2) E1 E2 He.
  apply key_message_inv in E1 as (ac1 & Ha1 & _ & s1 & t1 & k1 & Es1 & Et1 & Ek1 & ->).
  apply key_message_inv in E2 as (ac2 & Ha2 & _ & s2 & t2 & k2 & Es2 & Et2 & Ek2 & ->).
  rewrite <- (string_app_nil_r (encode_attenuation (dp_route_attenuation p1))), <- (string_app_nil_r (encode_attenuation (dp_route_attenuation p2))) in He.
  apply enc_str_delimits in He as [_ He]; [|done..].
  apply enc_str_delimits in He as [E1 He]; [|done..].
  apply enc_str_delimits in He as [E2 He]; [|done..].
  apply enc_str_delimits in He as [E3 He]; [|done..].
  destruct (subject_tag_spec _ _ Es1) as [L1 S1], (subject_tag_spec _ _ Es2) as [L2 _].
  apply u8_tag in He as [E4 He]; [|done..].
  apply enc_str_delimits in He as [E5 He]; [|done..].
  apply (actor_delimits _ _ _ _ _ _ R1 R2 Ha1 Ha2) in He as [E6 He].
  apply enc_str_delimits in He as [E7 He]; [|done..].
  apply enc_str_delimits in He as [E8 He]; [|done..].
  destruct (target_tag_spec _ _ Et1) as (M1 & O1 & G1), (target_tag_spec _ _ Et2) as (M2 & O2 & _).
  apply u8_tag in He as [E9 He]; [|done..].
  apply enc_opt_delimits in He as [E10 He]; [|by auto..].
  apply enc_opt_delimits in He as [E11 He]; [|done..].
  apply enc_set_delimits in He as [E12 He]; [|done..].
  apply enc_opt_delimits in He as [E13 He]; [|done..].
  destruct (auth_tag_spec _ _ Ek1) as [K1 V1], (auth_tag_spec _ _ Ek2) as [K2 _].
  apply u8_tag in He as [E14 He]; [|done..].
  apply attenuation_delimits in He as [E15 _]; [|done..].
  split; [destruct d1, d2; cbn in *; congruence|]. split_and!; try done.
  - apply S1. by rewrite E4.
  - by eapply G1.
  - apply V1. by rewrite E14.
Qed.

Lemma encode_attenuation_same a1 a2 : same_attenuation a1 a2 -> encode_attenuation a1 = encode_attenuation a2.
Proof.
  destruct a1 as [a1|], a2 as [a2|]; cbn; try done. intros (Hc & Ha & Ht).
  by rewrite (enc_set_same _ _ Hc), (enc_set_same _ _ Ha), Ht.
Qed.

(** Claim C24. Two delegations of two delegators are keyed by the same message exactly when the
    delegators are the same instance, endpoint and client, and the delegations agree on the
    credential and the role it is exchanged in, the actor, the target and its audience, the
    permissions as a set, the trust domain, who enforces, and the attenuation up to the order
    and repetition of its lists; for components shorter than four gigabytes. *)
Theorem delegation_key_exact d1 d2 p1 p2 m1 m2 :
  small_identity d1 -> small_identity d2 -> small p1 -> small p2 ->
  key_message d1 p1 = Ok m1 -> key_message d2 p2 = Ok m2 ->
  m1 = m2 <-> d1 = d2 /\ same_delegation p1 p2.
Proof.
  intros Hd1 Hd2 Hp1 Hp2 E1 E2. split; [by apply key_message_same|].
  intros [-> (Es & Eb & Er & Ea & En & Et & Eu & Eq & Ed & Ee & Ez)].
  apply key_message_inv in E1 as (ac1 & Ha1 & _ & s1 & t1 & k1 & Es1 & Et1 & Ek1 & ->).
  apply key_message_inv in E2 as (ac2 & Ha2 & _ & s2 & t2 & k2 & Es2 & Et2 & Ek2 & ->).
  rewrite Er, Ha2 in Ha1. injection Ha1 as <-. rewrite Es, Es2 in Es1. injection Es1 as <-. rewrite Et, Et2 in Et1. injection Et1 as <-.
  rewrite Ee, Ek2 in Ek1. injection Ek1 as <-.
  by rewrite Eb, Ea, En, Eu, Ed, (enc_set_same _ _ Eq), (encode_attenuation_same _ _ Ez).
Qed.

(** ** What a minted token rests on *)

Section Tokens.
Context `{Platform, Jose, TokenHost, KeyedHash} {M : Type}.
Variables (plugin : string) (typed : OAuthDelegatorConfig).

(** The provider answered this form with this response. *)
Definition answered_with (leg : LegEnv) (form : list (string * string)) (parsed : TokenExchangeResponse) : Prop :=
  le_begin leg = Ok tt
  /\ exists r, le_reply leg form = Ok r /\ is_success r = true /\ exchange_response_of (rp_body r) = Ok parsed.

(** The credential the exchange presents: the caller's own, or the token a first call minted
    from the calling workload's. *)
Definition presented (p : DelegationPayload) (leg1 : LegEnv) (subject_token : string) : Prop :=
  if is_workload p
  then exists base, answered_with leg1 (base_form typed (dp_bearer_token p)) base /\ subject_token = er_access_token base
  else subject_token = dp_bearer_token p.

Definition names_audience (claims : json) (audience : string) : Prop :=
  value_get "aud" claims = Some (JString audience)
  \/ exists auds, value_get "aud" claims = Some (JArray auds) /\ JString audience ∈ auds.

Definition caller_subject (p : DelegationPayload) (x : Extensions M) (subject_token sub : string) : Prop :=
  jwt_claims subject_token ≫= (fun caller => jwt_str caller "sub") = Some sub
  \/ jwt_claims subject_token ≫= (fun caller => jwt_str caller "sub") = None /\ caller_identity p x = Some sub.

Definition approved_scope (p : DelegationPayload) (scope : string) : Prop :=
  joined_scopes (requested_scopes p) = "" \/ scope ∈ split_whitespace (joined_scopes (requested_scopes p))
  \/ scope ∈ oa_allowed_extra_scopes typed.

(** What a strict delegator checked of a response. *)
Definition checked (p : DelegationPayload) (x : Extensions M) (subject_token : string) (parsed : TokenExchangeResponse)
    (scopes : list string) : Prop :=
  (forall scope, scope ∈ scopes -> approved_scope p scope)
  /\ forall claims, jwt_claims (er_access_token parsed) = Some claims ->
       names_audience claims (default "" (dp_target_audience p))
       /\ (dp_subject p <> SubjThisWorkload ->
           exists sub, jwt_str claims "sub" = Some sub /\ caller_subject p x subject_token sub).

(** The token of [m] is the one the provider gave for this delegation. *)
Definition minted_for (p : DelegationPayload) (x : Extensions M) (leg1 leg2 : LegEnv) (m : Mint) : Prop :=
  exists subject_token parsed,
    presented p leg1 subject_token
    /\ answered_with leg2 (exchange_form typed p subject_token) parsed
    /\ rd_token (mi_token m) = er_access_token parsed
    /\ rd_audience (mi_token m) = default "" (dp_target_audience p)
    /\ (er_scope parsed <> None -> forall scope, scope ∈ dp_required_permissions p -> scope ∈ rd_scopes (mi_token m))
    /\ (oa_strict_response_validation typed = true -> checked p x subject_token parsed (rd_scopes (mi_token m))).

Lemma audit_mint_ok {T} leg (mint : result T PluginViolation) t notes :
  audit_mint leg mint = (Ok t, notes) -> le_begin leg = Ok tt /\ mint = Ok t.
Proof. unfold audit_mint. destruct (le_begin leg) as [[]|[[] e]]; [|done..]. by intros [= -> _]. Qed.

Lemma base_reply_ok reply t :
  base_reply plugin typed reply = Ok t ->
  exists r parsed, reply = Ok r /\ is_success r = true /\ exchange_response_of (rp_body r) = Ok parsed /\ t = er_access_token parsed.
Proof.
  unfold base_reply. destruct reply as [r|]; [|done]. destruct (is_success r) eqn:Es; [cbn [negb]|done].
  destruct (exchange_response_of _) as [parsed|] eqn:Ep; [|done]. intros [= <-]. by exists r, parsed.
Qed.

Lemma exchange_reply_ok p st reply parsed :
  exchange_reply plugin typed p st reply = Ok parsed ->
  exists r, reply = Ok r /\ is_success r = true /\ exchange_response_of (rp_body r) = Ok parsed.
Proof.
  unfold exchange_reply. destruct reply as [r|]; [|done]. destruct (is_success r) eqn:Es; [cbn [negb]|done].
  destruct (exchange_response_of _) as [p'|] eqn:Ep; [|done]. intros [= <-]. by exists r.
Qed.

Lemma require_permissions_ok p granted :
  require_permissions p granted = Ok tt -> forall scope, scope ∈ dp_required_permissions p -> scope ∈ granted.
Proof.
  unfold require_permissions. destruct (List.filter _ _) eqn:Ef; [|done]. intros _ scope Hs.
  destruct (decide (scope ∈ granted)) as [|Hn]; [done|]. exfalso.
  assert (In scope []) as []. rewrite <- Ef. apply filter_In. split; [by apply list_elem_of_In|]. by rewrite bool_decide_eq_false_2.
Qed.

Lemma approved_of p scope granted :
  has_unapproved_scope (joined_scopes (requested_scopes p)) (oa_allowed_extra_scopes typed) scope = false ->
  granted ∈ split_whitespace scope -> approved_scope p granted.
Proof.
  unfold has_unapproved_scope, approved_scope. destruct (String.eqb_spec (joined_scopes (requested_scopes p)) "") as [->|]; [by left|].
  cbn [negb andb]. intros He Hg. right. apply not_true_iff_false in He.
  destruct (decide (granted ∈ split_whitespace (joined_scopes (requested_scopes p)))) as [|Hr]; [by left|]. right.
  destruct (decide (granted ∈ oa_allowed_extra_scopes typed)) as [|Ha]; [done|]. exfalso. apply He, existsb_exists.
  exists granted. split; [by apply list_elem_of_In|]. by rewrite !bool_decide_eq_false_2.
Qed.

Lemma aud_ok claims audience :
  match value_get "aud" claims with
  | Some (JString aud) => String.eqb aud audience
  | Some (JArray auds) => existsb (fun aud => bool_decide (as_str aud = Some audience)) auds
  | _ => false
  end = true -> names_audience claims audience.
Proof.
  unfold names_audience. destruct (value_get "aud" claims) as [[| | |s|auds|]|]; try done.
  - intros ->%String.eqb_eq. by left.
  - intros (aud & Ha & Hs)%existsb_exists. right. exists auds. split; [done|]. apply bool_decide_eq_true in Hs.
    destruct aud; try done. injection Hs as ->. by apply list_elem_of_In.
Qed.

Lemma validate_claims_ok p x st claims jwt_scopes :
  validate_claims claims (joined_scopes (requested_scopes p)) (default "" (dp_target_audience p)) st (caller_identity p x)
    (negb (as_this_workload p)) (oa_allowed_extra_scopes typed) = Ok jwt_scopes ->
  (forall scopes granted, jwt_scopes = Some scopes -> granted ∈ scopes -> approved_scope p granted)
  /\ names_audience claims (default "" (dp_target_audience p))
  /\ (dp_subject p <> SubjThisWorkload -> exists sub, jwt_str claims "sub" = Some sub /\ caller_subject p x st sub).
Proof.
  unfold validate_claims. destruct (is_some_and _ (jwt_str claims "scope")) eqn:Esc; [done|].
  destruct (match value_get "aud" claims with Some _ => _ | None => _ end) eqn:Ea; [cbn [negb]|done]. apply aud_ok in Ea.
  assert (forall scopes granted, option_map split_whitespace (jwt_str claims "scope") = Some scopes -> granted ∈ scopes ->
    approved_scope p granted) as Hs.
  { intros scopes granted Hm Hg. destruct (jwt_str claims "scope") as [scope|]; [|done]. injection Hm as <-. by eapply approved_of. }
  unfold as_this_workload. destruct (bool_decide_reflect (dp_subject p = SubjThisWorkload)) as [Ew|Ew]; cbn [negb].
  { intros [= <-]. by split_and!. }
  destruct (match _ ≫= _ with Some sub => Some sub | None => _ end) as [sub|] eqn:Esub; [|done].
  destruct (bool_decide_reflect (jwt_str claims "sub" = Some sub)) as [Ec|]; [|done]. intros [= <-].
  split_and!; [done|done|]. intros _. exists sub. split; [done|]. unfold caller_subject.
  destruct (_ ≫= _) as [s'|]; [left; congruence|by right].
Qed.

(** What passes the validation of a response. *)
Lemma exchange_validated p x st parsed jwt_scopes :
  validate_exchange_response parsed (joined_scopes (requested_scopes p)) (default "" (dp_target_audience p)) st (caller_identity p x)
    (negb (as_this_workload p)) (oa_allowed_extra_scopes typed) = Ok jwt_scopes ->
  (forall scope granted, er_scope parsed = Some scope -> granted ∈ split_whitespace scope -> approved_scope p granted)
  /\ (forall scopes granted, jwt_scopes = Some scopes -> granted ∈ scopes -> approved_scope p granted)
  /\ forall claims, jwt_claims (er_access_token parsed) = Some claims ->
       names_audience claims (default "" (dp_target_audience p))
       /\ (dp_subject p <> SubjThisWorkload ->
           exists sub, jwt_str claims "sub" = Some sub /\ caller_subject p x st sub).
Proof.
  unfold validate_exchange_response. destruct (_ && negb (as_this_workload p)); [done|]. destruct (_ && _); [done|].
  destruct (is_some_and _ (er_scope parsed)) eqn:Esc; [done|].
  assert (forall scope granted, er_scope parsed = Some scope -> granted ∈ split_whitespace scope -> approved_scope p granted) as Hr.
  { intros scope granted Hs. rewrite Hs in Esc. by apply approved_of. }
  destruct (jwt_claims _) as [claims|] eqn:Ec; [|destruct (String.eqb _ _); [done|]; intros [= <-]; by split_and!].
  intros (Hs & Ha & Hsub)%validate_claims_ok. split_and!; [done|done|]. by intros ? [= <-].
Qed.

Lemma joined_scopes_approved p scope : scope ∈ split_whitespace (joined_scopes (requested_scopes p)) -> approved_scope p scope.
Proof. right. by left. Qed.

Lemma effective_scopes_ok p x st parsed scopes :
  effective_scopes typed p x st parsed = Ok scopes ->
  (er_scope parsed <> None -> forall scope, scope ∈ dp_required_permissions p -> scope ∈ scopes)
  /\ (oa_strict_response_validation typed = true -> checked p x st parsed scopes).
Proof.
  unfold effective_scopes. intros He.
  destruct (if er_scope parsed is Some _ then _ else _) as [[]|] eqn:Eg; [|done]. cbn in He.
  assert (er_scope parsed <> None -> forall scope, scope ∈ dp_required_permissions p ->
    scope ∈ split_whitespace (default (joined_scopes (requested_scopes p)) (er_scope parsed))) as Hg.
  { destruct (er_scope parsed); [|done]. intros _. by apply require_permissions_ok. }
  destruct (oa_strict_response_validation typed).
  - destruct (validate_exchange_response _ _ _ _ _ _ _) as [js|] eqn:Ev; [|done]. apply exchange_validated in Ev as (V1 & V2 & V3).
    cbn in He. destruct js as [scopes'|].
    + destruct (require_permissions p scopes') as [[]|] eqn:Er; [|done]. injection He as <-.
      split; [intros _; by apply require_permissions_ok|]. intros _. split; [|done]. intros scope. by apply (V2 scopes').
    + injection He as <-. split; [done|]. intros _. split; [|done]. intros scope Hs.
      destruct (er_scope parsed) as [sc|]; [by eapply V1|by apply joined_scopes_approved].
  - cbn in He. injection He as <-. split; [done|]. done.
Qed.

Lemma exchange_minted p x leg1 leg2 now m notes :
  exchange plugin typed p x leg1 leg2 now = (ExMinted m, notes) -> minted_for p x leg1 leg2 m.
Proof.
  unfold exchange. intros He. destruct (if is_workload p then _ else _) as [[st|] notes1] eqn:Est; [|done].
  destruct (with_idempotency_key typed (le_key leg2)); [|done].
  destruct (audit_mint leg2 _) as [[parsed|] more] eqn:Ea; [|done]. apply audit_mint_ok in Ea as [Hb Hr].
  apply exchange_reply_ok in Hr as (r & Hr & Hs & Hp). injection He as He _. unfold finish_exchange in He.
  destruct (effective_scopes _ _ _ _ _) as [scopes|] eqn:Ee; [|done]. apply effective_scopes_ok in Ee as [Hreq Hchk].
  destruct (add_seconds _ _); [|done]. injection He as <-. exists st, parsed. split_and!; try done; [|by split; [|exists r]].
  unfold presented. destruct (is_workload p); [|by injection Est as <-].
  unfold mint_base_token in Est. destruct (with_idempotency_key typed (le_key leg1)); [|done].
  apply audit_mint_ok in Est as [Hb1 (r1 & base & Hr1 & Hs1 & Hp1 & ->)%base_reply_ok].
  exists base. split; [|done]. split; [done|by exists r1].
Qed.

(** ** Delegations interleaved *)

(** What happened: an exchange that minted, a token put in the cache, a call answered with a
    token read from the cache, and a call answered with the value of its coalesced entry. *)
Inductive TokenEntry : Type :=
| TlMinted (p : DelegationPayload) (x : Extensions M) (leg1 leg2 : LegEnv) (m : Mint)
| TlInserted (key : string) (v : CachedMint)
| TlRead (i : nat) (key : string) (now : DateTime) (v : CachedMint)
| TlShared (i : nat) (key : string) (v : CachedMint).

Record TokenWorld : Type := mkTokenWorld {
  tw_calls : gmap nat (DelegationPayload * Extensions M * TokenPc);
  tw_log : list TokenEntry;
}.

Inductive TokenEvent : Type :=
| ToBegin (i : nat) (p : DelegationPayload) (x : Extensions M)
| ToStep (i : nat) (env : TokenEnv).

(** The call is answered with a token. *)
Definition answered (pc : TokenPc) : bool := match pc with TpDone (DrModify _) => true | _ => false end.

Definition happened (i : nat) (p : DelegationPayload) (x : Extensions M) (env : TokenEnv) (pc : TokenPc) : list TokenEntry :=
  let answers := answered (token_step plugin typed p x env pc) in
  match pc with
  | TpExchange _ =>
      match (exchange plugin typed p x (te_leg1 env) (te_leg2 env) (te_now env)).1 with
      | ExMinted m => [TlMinted p x (te_leg1 env) (te_leg2 env) m]
      | _ => []
      end
  | TpInsert key m serve_for => [TlInserted key (mkCachedMint m (te_now env) serve_for)]
  | TpGet key =>
      match te_found env with Some v => if answers then [TlRead i key (te_now env) v] else [] | None => [] end
  | TpEnter key =>
      match te_entry env with Some (Ok v) => if answers then [TlShared i key v] else [] | _ => [] end
  | _ => []
  end.

Definition token_world_step (w : TokenWorld) (e : TokenEvent) : TokenWorld :=
  match e with
  | ToBegin i p x => mkTokenWorld (<[i := (p, x, TpStart)]> (tw_calls w)) (tw_log w)
  | ToStep i env =>
      match tw_calls w !! i with
      | None => w
      | Some (p, x, pc) =>
          mkTokenWorld (<[i := (p, x, token_step plugin typed p x env pc)]> (tw_calls w))
            (tw_log w ++ happened i p x env pc)
      end
  end.

Definition token_run (events : list TokenEvent) : TokenWorld := foldl token_world_step (mkTokenWorld ∅ []) events.

(** What the cache crate documents: under a key it gives out only values inserted under it. *)
Definition gives_inserted (w : TokenWorld) (e : TokenEvent) : Prop :=
  match e with
  | ToBegin _ _ _ => True
  | ToStep i env =>
      match tw_calls w !! i with
      | Some (_, _, TpGet key) => forall v, te_found env = Some v -> TlInserted key v ∈ tw_log w
      | Some (_, _, TpEnter key) => forall v, te_entry env = Some (Ok v) -> TlInserted key v ∈ tw_log w
      | _ => True
      end
  end.

Fixpoint cache_sound (w : TokenWorld) (events : list TokenEvent) : Prop :=
  match events with [] => True | e :: events' => gives_inserted w e /\ cache_sound (token_world_step w e) events' end.

(** A token minted for a delegation that is [p], or keyed as [p] is. *)
Definition keyed_mint (P : DelegationPayload -> Prop) (log : list TokenEntry) (p : DelegationPayload) (m : Mint) : Prop :=
  exists p0 x0 leg1 leg2, TlMinted p0 x0 leg1 leg2 m ∈ log /\ P p0
    /\ (p0 = p \/ exists key, cache_for plugin typed p0 = Some key /\ cache_for plugin typed p = Some key).

(** Where the token [m] of call [i] comes from: its own exchange, a read of the cache, or the
    coalesced entry. *)
Definition served_by (log : list TokenEntry) (i : nat) (p : DelegationPayload) (m : Mint) : Prop :=
  (exists x leg1 leg2, TlMinted p x leg1 leg2 m ∈ log)
  \/ (exists key now v, TlRead i key now v ∈ log /\ cm_mint v = m)
  \/ (exists key v, TlShared i key v ∈ log /\ cm_mint v = m).

Definition token_call_ok (P : DelegationPayload -> Prop) (log : list TokenEntry) (i : nat) (p : DelegationPayload) (pc : TokenPc) :
    Prop :=
  P p
  /\ match pc with
     | TpGet key | TpInvalidate key | TpEnter key | TpExchange (Some key) => cache_for plugin typed p = Some key
     | TpLifetime key m | TpInsert key m _ =>
         cache_for plugin typed p = Some key /\ exists x leg1 leg2, TlMinted p x leg1 leg2 m ∈ log
     | TpDate m => exists x leg1 leg2, TlMinted p x leg1 leg2 m ∈ log
     | TpDone (DrModify p') =>
         exists m, dp_delegated_token p' = Some (mi_token m) /\ keyed_mint P log p m /\ served_by log i p m
     | _ => True
     end.

Definition token_entry_ok (P : DelegationPayload -> Prop) (log : list TokenEntry) (e : TokenEntry) : Prop :=
  match e with
  | TlMinted p x leg1 leg2 m => minted_for p x leg1 leg2 m
  | TlInserted key v =>
      exists p0 x0 leg1 leg2, TlMinted p0 x0 leg1 leg2 (cm_mint v) ∈ log /\ P p0 /\ cache_for plugin typed p0 = Some key
  | TlRead _ key now v => is_servable_now (oa_cache typed) v now = true /\ TlInserted key v ∈ log
  | TlShared _ key v => TlInserted key v ∈ log
  end.

Definition token_world_ok (P : DelegationPayload -> Prop) (w : TokenWorld) : Prop :=
  (forall e, e ∈ tw_log w -> token_entry_ok P (tw_log w) e)
  /\ map_Forall (fun i call => token_call_ok P (tw_log w) i call.1.1 call.2) (tw_calls w).

Lemma keyed_mint_more P log log' p m : log ⊆ log' -> keyed_mint P log p m -> keyed_mint P log' p m.
Proof. intros Hl (p0 & x0 & l1 & l2 & Hm & Hr). exists p0, x0, l1, l2. split; [by apply Hl|done]. Qed.

Lemma served_by_more log log' i p m : log ⊆ log' -> served_by log i p m -> served_by log' i p m.
Proof.
  intros Hl [(x & l1 & l2 & Hm)|[(key & now & v & Hm & Hv)|(key & v & Hm & Hv)]]; apply Hl in Hm.
  - left. by exists x, l1, l2.
  - right; left. by exists key, now, v.
  - right; right. by exists key, v.
Qed.

Lemma token_call_more P log log' i p pc : log ⊆ log' -> token_call_ok P log i p pc -> token_call_ok P log' i p pc.
Proof.
  intros Hl [Hp Hpc]. split; [done|]. destruct pc as [| | | |[|]|k m|k m sf|m|[v|p']|]; try done.
  - destruct Hpc as (? & x & l1 & l2 & Hm). split; [done|]. exists x, l1, l2. by apply Hl.
  - destruct Hpc as (? & x & l1 & l2 & Hm). split; [done|]. exists x, l1, l2. by apply Hl.
  - destruct Hpc as (x & l1 & l2 & Hm). exists x, l1, l2. by apply Hl.
  - destruct Hpc as (m & Hd & Hk & Hs). exists m. split_and!; [done|by eapply keyed_mint_more|by eapply served_by_more].
Qed.

Lemma token_entry_more P log log' e : log ⊆ log' -> token_entry_ok P log e -> token_entry_ok P log' e.
Proof.
  intros Hl. destruct e as [| |i key now v|i key v]; cbn; try done.
  - intros (p0 & x0 & l1 & l2 & Hm & Hr). exists p0, x0, l1, l2. split; [by apply Hl|done].
  - intros [Hs Hi]. split; [done|by apply Hl].
  - apply Hl.
Qed.

(** A token taken from the cache was minted for a delegation keyed alike. *)
Lemma inserted_keyed (P : DelegationPayload -> Prop) log p key v :
  (forall e, e ∈ log -> token_entry_ok P log e) -> cache_for plugin typed p = Some key -> TlInserted key v ∈ log ->
  keyed_mint P log p (cm_mint v).
Proof.
  intros Hlog Hk Hin. destruct (Hlog _ Hin) as (p0 & x0 & l1 & l2 & Hm & Hp & Hk0).
  exists p0, x0, l1, l2. split_and!; [done|done|]. right. by exists key.
Qed.

Lemma token_step_ok (P : DelegationPayload -> Prop) log i p x env pc :
  (forall e, e ∈ log -> token_entry_ok P log e) -> token_call_ok P log i p pc ->
  match pc with
  | TpGet key => forall v, te_found env = Some v -> TlInserted key v ∈ log
  | TpEnter key => forall v, te_entry env = Some (Ok v) -> TlInserted key v ∈ log
  | _ => True
  end ->
  let log' := log ++ happened i p x env pc in
  (forall e, e ∈ log' -> token_entry_ok P log' e) /\ token_call_ok P log' i p (token_step plugin typed p x env pc).
Proof.
  intros Hlog Hcall Hg log'. assert (log ⊆ log') as Hsub by set_solver.
  assert ((forall e, e ∈ happened i p x env pc -> token_entry_ok P log' e) -> forall e, e ∈ log' -> token_entry_ok P log' e) as Hall.
  { intros Hnew e [He|He]%elem_of_app; [by eapply token_entry_more, Hlog|by apply Hnew]. }
  destruct Hcall as [HP Hpc]. destruct pc as [|key|key|key|key|key m|key m sf|m|r|]; cbn [token_step happened] in *; unfold get_found, enter_entry in *.
  - split; [apply Hall; set_solver|]. split; [done|]. repeat case_match; simplify_eq; try done.
  - destruct (te_found env) as [v|]; [|by split; [apply Hall; set_solver|split]].
    specialize (Hg v eq_refl).
    destruct (is_servable_now _ v _) eqn:Es; [|by split; [apply Hall; set_solver|split]]. cbn [answered] in *.
    split; [apply Hall; intros e ->%list_elem_of_singleton; split; [done|by apply Hsub]|].
    split; [done|]. exists (cm_mint v). split_and!; [done| |].
    + eapply keyed_mint_more; [done|]. by eapply inserted_keyed.
    + right; left. exists key, (te_now env), v. split; [set_solver|done].
  - split; [apply Hall; set_solver|]. by split.
  - destruct (te_entry env) as [[v|v]|]; cbn [answered] in *; [|by split; [apply Hall; set_solver|split]..].
    specialize (Hg v eq_refl). split; [apply Hall; intros e ->%list_elem_of_singleton; by apply Hsub|].
    split; [done|]. exists (cm_mint v). split_and!; [done| |].
    + eapply keyed_mint_more; [done|]. by eapply inserted_keyed.
    + right; right. exists key, v. split; [set_solver|done].
  - destruct (exchange _ _ _ _ _ _ _) as [ed notes] eqn:Ee. cbn [fst] in *. destruct ed as [m|v|]; [|by split; [apply Hall; set_solver|split]..].
    split; [apply Hall; intros e ->%list_elem_of_singleton; by eapply exchange_minted|]. split; [done|].
    assert (TlMinted p x (te_leg1 env) (te_leg2 env) m ∈ log') as Hm by set_solver.
    destruct key as [key|]; [split; [done|]|]; by exists x, (te_leg1 env), (te_leg2 env).
  - split; [apply Hall; set_solver|]. split; [done|]. eapply (token_call_more P log log' i p (TpLifetime key m)); [done|by split].
  - destruct Hpc as (Hk & x1 & l1 & l2 & Hm). apply Hsub in Hm. split.
    + apply Hall. intros e ->%list_elem_of_singleton. by exists p, x1, l1, l2.
    + split; [done|]. exists m. split_and!; [done|exists p, x1, l1, l2; by split_and!; [..|left]|left; by exists x1, l1, l2].
  - destruct Hpc as (x1 & l1 & l2 & Hm). apply Hsub in Hm. split; [apply Hall; set_solver|]. split; [done|].
    exists m. split_and!; [done|exists p, x1, l1, l2; by split_and!; [..|left]|left; by exists x1, l1, l2].
  - split; [apply Hall; set_solver|]. eapply (token_call_more P log log' i p (TpDone r)); [done|by split].
  - split; [apply Hall; set_solver|]. by split.
Qed.

Lemma token_run_ok (P : DelegationPayload -> Prop) events w :
  (forall i p x, ToBegin i p x ∈ events -> P p) -> cache_sound w events -> token_world_ok P w ->
  token_world_ok P (foldl token_world_step w events).
Proof.
  revert w. induction events as [|e events IH]; intros w Hb Hs Hw; [done|]. destruct Hs as [Hg Hs]. cbn [foldl].
  apply IH; [intros i p x Hin; apply (Hb i p x); by right|done|]. destruct Hw as [Hlog Hcalls]. destruct e as [i p x|i env]; cbn [token_world_step].
  - split; [done|]. cbn. apply map_Forall_insert_2; [|done]. split; [apply (Hb i p x); by left|done].
  - cbn in Hg. destruct (tw_calls w !! i) as [[[p x] pc]|] eqn:Ei; [|by split].
    destruct (token_step_ok P (tw_log w) i p x env pc) as [Hlog' Hcall]; [done|by apply (Hcalls _ _ Ei)|by destruct pc|].
    split; [done|]. cbn. apply map_Forall_insert_2; [done|]. intros j [[p2 x2] pc2] Hj.
    eapply token_call_more; [|by apply (Hcalls _ _ Hj)]. set_solver.
Qed.

Lemma same_delegation_refl p : same_delegation p p.
Proof. unfold same_delegation, same_attenuation. split_and!; try done. by destruct (dp_route_attenuation p). Qed.

Definition begun (events : list TokenEvent) (p : DelegationPayload) : Prop := exists i x, ToBegin i p x ∈ events.

(** No two different messages of the delegations at hand have the same hash. *)
Definition no_collision (events : list TokenEvent) : Prop :=
  forall p1 p2 m1 m2, begun events p1 -> begun events p2 ->
    key_message (delegator_identity plugin typed) p1 = Ok m1 -> key_message (delegator_identity plugin typed) p2 = Ok m2 ->
    hmac m1 = hmac m2 -> m1 = m2.

Lemma keyed_same events p1 p2 key :
  no_collision events -> small_identity (delegator_identity plugin typed) ->
  (forall p, begun events p -> small p) -> begun events p1 -> begun events p2 ->
  cache_for plugin typed p1 = Some key -> cache_for plugin typed p2 = Some key -> same_delegation p1 p2.
Proof.
  intros Hn Hi Hs B1 B2. unfold cache_for, derive. do 2 (destruct (caches_subject _ _); [|done]).
  destruct (key_message _ p1) as [m1|] eqn:E1; [|done]. destruct (key_message _ p2) as [m2|] eqn:E2; [|done]. cbn.
  intros [= K1] [= K2]. assert (m1 = m2) as Em by (eapply (Hn p1 p2); [done..|congruence]).
  by destruct (key_message_same _ _ _ _ _ _ Hi Hi (Hs _ B1) (Hs _ B2) E1 E2 Em).
Qed.

(** At [now] the window fixed at the mint lasts, and the floor before the expiry is not reached. *)
Definition in_window (v : CachedMint) (now : DateTime) : Prop :=
  exists with_floor window retires,
    add_seconds now (clamp_seconds (sl_floor_seconds (tk_staleness (oa_cache typed)))) = Some with_floor
    /\ (with_floor <= rd_expires_at (mi_token (cm_mint v)))%Z /\ cm_serve_for v = Some window
    /\ add_seconds (cm_minted_at v) (clamp_seconds (window / 1000000000)) = Some retires /\ (now <= retires)%Z.

Lemma servable_bounds v now : is_servable_now (oa_cache typed) v now = true -> in_window v now.
Proof.
  unfold is_servable_now. destruct (add_seconds now _) as [wf|] eqn:Ew; [|done]. destruct (_ <? wf)%Z eqn:Ef; [done|].
  destruct (cm_serve_for v) as [window|] eqn:Ec; [|done]. destruct (add_seconds (cm_minted_at v) _) as [r|] eqn:Er; [|done]. cbn.
  intros Hn. exists wf, window, r. apply Z.ltb_ge in Ef. apply Z.leb_le in Hn. by split_and!.
Qed.

(** Claim C14. However delegations interleave, over a cache that gives out under a key only what
    was put under it and a hash without collisions among the delegations at hand: the token a
    delegation is given was minted, in this run, by an exchange for a delegation of the same
    credential, actor, target, audience and narrowing. The provider answered the form of that
    exchange, which presents that credential or what the provider gave the calling workload
    for it, behind a recorded intent; the permissions required are among the scopes the
    response grants; and a strict delegator has checked that no scope goes beyond the ones
    requested and allowed, and that a readable token names the audience and the caller. The
    call is answered by its own exchange, by a read of the cache, or by the coalesced entry. A
    call answered by a read is answered only while the window fixed at the mint lasts, and
    never within the floor of its expiry; the coalesced entry is given out with no such check,
    and all that holds of it is that it was put in the cache under the call's key. *)
Theorem token_minted_for_caller events :
  cache_sound (mkTokenWorld ∅ []) events -> no_collision events ->
  small_identity (delegator_identity plugin typed) -> (forall p, begun events p -> small p) ->
  let w := token_run events in
  (forall i p x p', tw_calls w !! i = Some (p, x, TpDone (DrModify p')) ->
     exists p0 x0 leg1 leg2 m, dp_delegated_token p' = Some (mi_token m) /\ TlMinted p0 x0 leg1 leg2 m ∈ tw_log w
       /\ same_delegation p0 p /\ minted_for p0 x0 leg1 leg2 m /\ served_by (tw_log w) i p m)
  /\ (forall i key now v, TlRead i key now v ∈ tw_log w -> in_window v now /\ TlInserted key v ∈ tw_log w)
  /\ (forall i key v, TlShared i key v ∈ tw_log w -> TlInserted key v ∈ tw_log w).
Proof.
  intros Hs Hn Hi Hsmall w.
  destruct (token_run_ok (begun events) events (mkTokenWorld ∅ [])) as [Hlog Hcalls].
  { intros i p x Hin. by exists i, x. }
  { done. }
  { split; [|apply map_Forall_empty]. cbn. intros e. set_solver. }
  fold (token_run events) in Hlog, Hcalls. fold w in Hlog, Hcalls. split_and!.
  - intros i p x p' Hc. destruct (Hcalls _ _ Hc) as [Hp (m & Hd & (p0 & x0 & l1 & l2 & Hm & Hp0 & Hsame) & Hby)].
    exists p0, x0, l1, l2, m. split_and!; [done|done| |by apply (Hlog _ Hm)|done].
    destruct Hsame as [->|(key & K0 & K)]; [apply same_delegation_refl|by eapply keyed_same].
  - intros i key now v Hh. destruct (Hlog _ Hh) as [Hv ?]. split; [by apply servable_bounds|done].
  - intros i key v Hh. apply (Hlog _ Hh).
Qed.
End Tokens.

(** ** Examples *)

Section Examples.
#[local] Existing Instance ascii_platform.

#[local] Instance token_jose : Jose := {|
  DecodingKey := unit;
  Jwk := unit;
  b64url_decode := Some;
  b64url := fun s => s;
  json_from_slice := fun s => Some (JObject [("sub", JString s)]);
  decode_header := fun _ => Ok (ES256, None, None, Some tt);
  key_from_jwk := fun _ => Ok tt;
  decode_proof := fun _ _ _ => Err (mkJwtError KindOther "not a proof");
  decode_claims := fun _ _ _ => Ok ∅;
|}.

(** A provider whose bodies are opaque tokens for an hour, and dates without an end. *)
#[local] Instance token_host : TokenHost := {|
  exchange_response_of := fun body =>
    Ok (mkExchangeResponse body (Some DEFAULT_ISSUED_TOKEN_TYPE) (Some 3600%Z) (Some "read"));
  error_response_of := Some;
  header_error := fun _ _ => None;
  add_seconds := fun now secs => Some (now + secs * 1000000000)%Z;
|}.

#[local] Instance plain_hash : KeyedHash := fun m => m.

Definition token_sample : OAuthDelegatorConfig :=
  mkOAuthConfig "https://idp/token" "gateway" "urn:ietf:params:oauth:token-type:access_token" true [] 5 "Authorization" false
    "urn:ietf:params:oauth:token-type:jwt" "urn:ietf:params:oauth:client-assertion-type:jwt-spiffe"
    (mkTokenCache true [SubjUser] 100 300 (mkStaleness (S754_zero false) 30 0)) None.

(** The settings load, and a token at the ceiling is kept for it less the floor. *)
Example token_sample_loads :
  oauth_new token_sample (Ok "secret") = Ok "secret"
  /\ serve_window (oa_cache token_sample) (from_secs 3600) 0 = Some (from_secs 270).
Proof. vm_compute. done. Qed.

Definition alice_to_api (permissions : list string) : DelegationPayload :=
  mkDelegationPayload "alice-token" "" None SubjUser "" "api" TgTool (Some "https://api") permissions None ByCaller None
    None None None None ∅.

Definition token_leg : LegEnv := mkLeg "k1" (Ok tt) (fun _ => Ok (mkReplyBody 200 "minted")).

Definition token_env (now : Z) (found : option CachedMint) : TokenEnv :=
  mkTokenEnv (from_secs now) token_leg token_leg found None.

Definition minted_once : CachedMint :=
  mkCachedMint
    (mkMint (mkDelegated "minted" "Authorization" "Bearer " "https://api" ["read"] (from_secs 4600)) DEFAULT_ISSUED_TOKEN_TYPE)
    (from_secs 1000) (Some (from_secs 270)).

(** A delegation that mints, and a minute later one of the same credential that does not. *)
Definition token_events : list (@TokenEvent unit) :=
  [ToBegin 0 (alice_to_api ["read"]) Extensions_default]
  ++ repeat (ToStep 0 (token_env 1000 None)) 6
  ++ [ToBegin 1 (alice_to_api ["read"; "read"]) Extensions_default;
      ToStep 1 (token_env 1060 None); ToStep 1 (token_env 1060 (Some minted_once))].

Definition token_world : @TokenWorld unit := token_run "oauth" token_sample token_events.

Example second_is_served_from_cache :
  option_map (fun call => match call.2 with
      | TpDone (DrModify p') => (option_map rd_token (dp_delegated_token p'), dp_minted_at p', dp_metadata p' !! "delegated_token_source")
      | _ => (None, None, None) end) (tw_calls token_world !! 1)
  = Some (Some "minted", Some (from_secs 1000), Some (JString "cache")).
Proof. vm_compute. reflexivity. Qed.

Lemma token_events_begun p : begun token_events p -> p = alice_to_api ["read"] \/ p = alice_to_api ["read"; "read"].
Proof.
  intros (i & x & Hin). apply list_elem_of_In in Hin. cbn in Hin. decompose [or] Hin; try done; simplify_eq; auto.
Qed.

Lemma alice_small permissions : permissions = ["read"] \/ permissions = ["read"; "read"] -> small (alice_to_api permissions).
Proof.
  intros Hp. unfold small, short, short_opt, short_set. cbn [alice_to_api dp_bearer_token dp_actor_token dp_actor_role dp_target_name
    dp_target_type dp_target_audience dp_required_permissions dp_trust_domain dp_route_attenuation String.length].
  split_and!; try done; destruct Hp as [->| ->]; repeat constructor; cbn; lia.
Qed.

Definition token_message (permissions : list string) : string :=
  match key_message (delegator_identity "oauth" token_sample) (alice_to_api permissions) with Ok m => m | Err _ => "" end.

Lemma delegation_key_exact_witness :
  let d := delegator_identity "oauth" token_sample in
  key_message d (alice_to_api ["read"]) = Ok (token_message ["read"])
  /\ d = d /\ same_delegation (alice_to_api ["read"]) (alice_to_api ["read"; "read"]).
Proof.
  cbv zeta. assert (key_message (delegator_identity "oauth" token_sample) (alice_to_api ["read"]) = Ok (token_message ["read"])) as E
    by (vm_compute; reflexivity).
  split; [exact E|].
  apply (delegation_key_exact _ _ _ _ (token_message ["read"]) (token_message ["read"; "read"])); [done|done| | |exact E| |].
  - apply alice_small. by left.
  - apply alice_small. by right.
  - vm_compute. reflexivity.
  - vm_compute. reflexivity.
Defined.

Lemma token_minted_for_caller_witness :
  exists p0 x0 leg1 leg2 m v,
    TlMinted p0 x0 leg1 leg2 m ∈ tw_log token_world
    /\ same_delegation p0 (alice_to_api ["read"; "read"]) /\ minted_for token_sample p0 x0 leg1 leg2 m
    /\ cm_mint v = m /\ in_window token_sample v (from_secs 1060).
Proof.
  destruct (token_minted_for_caller "oauth" token_sample token_events) as (Hc & Hr & _).
  - vm_compute. repeat split; intros v Hv; try discriminate Hv. injection Hv as <-. repeat constructor.
  - intros p1 p2 m1 m2 _ _ _ _ Hm. exact Hm.
  - done.
  - intros p [->| ->]%token_events_begun; apply alice_small; auto.
  - unfold token_world. set (w := token_run _ _ _) in *.
    destruct (tw_calls w !! 1) as [[[p x] pc]|] eqn:E1; [|vm_compute in E1; discriminate].
    destruct pc as [| | | | | | | |[v|p']|]; try (vm_compute in E1; discriminate).
    assert (p = alice_to_api ["read"; "read"]) as Ep by (vm_compute in E1; injection E1 as <- _ _; reflexivity).
    destruct (Hc _ _ _ _ E1) as (p0 & x0 & l1 & l2 & m & Hd & Hm & Hsame & Hfor & _). rewrite Ep in Hsame.
    exists p0, x0, l1, l2, m, minted_once. split; [exact Hm|]. split; [exact Hsame|]. split; [exact Hfor|].
    assert (exists key, TlRead 1 key (from_secs 1060) minted_once ∈ tw_log w) as [key Hread]
      by (eexists; vm_compute; repeat constructor).
    split; [|by apply (Hr 1 key)].
    assert (forall p0 x0 l1 l2 m, TlMinted p0 x0 l1 l2 m ∈ tw_log w -> cm_mint minted_once = m) as Hone.
    { clear. intros p0 x0 l1 l2 m Hm. vm_compute in Hm. apply list_elem_of_In in Hm. cbn in Hm.
      decompose [or] Hm; try done. by simplify_eq. }
    by eapply Hone.
Defined.
End Examples.
