(* ===== verification/Quota.v ===== *)
(** * Token budgets ([builtins/src/plugins/quota/]: [backend.rs], [client.rs], [config.rs], [handlers.rs])

    The check before a model is called and the debit after it, over a Limitador server, with the
    debits that did not land kept until they do. Calls run interleaved, each as the steps
    between its awaits, and may be cancelled at any of them. Whatever fails, nothing spent is
    forgotten or confirmed twice, and a principal passes only once all of it is confirmed. *)

From Stdlib Require Import Ascii String.
From S2P Require Import Prelude RustStr F64 Json Platform Lexical Scan ExtData HttpPath Plugin Extensions Hooks Config.
From S2P Require Import DecisionCache Bridge Runtime Session Delegation Credential ClaimMap Dpop Jwt Http.

(** ** The backend's verdicts ([backend.rs]) *)

Inductive CheckOutcome : Type := WithinLimit | OverLimit.

Inductive BackendErrorKind : Type := BackendTransport | BackendUnavailable | BackendEgressDenied.

(** ** Settings ([config.rs]) *)

Inductive OnErrorMode : Type := OnErrorDeny | OnErrorAllow.

#[global] Instance OnErrorMode_eq_dec : EqDecision OnErrorMode.
Proof. solve_decision. Defined.

Record QuotaConfig : Type := mkQuotaConfig {
  qc_endpoint : string;
  qc_namespace : string;
  qc_identity_claim : string;
  qc_on_error : OnErrorMode;
  qc_timeout_seconds : Z;
  qc_missing_usage_charge : Z;
  qc_allow_unauthenticated : bool;
  qc_insecure_http : bool;
}.

(** [QuotaConfig::validate]. *)
Definition quota_validate (c : QuotaConfig) : result unit string :=
  let endpoint := trim (qc_endpoint c) in
  if String.eqb endpoint "" then Err "quota: endpoint must be non-empty"
  else if String.eqb (trim (qc_namespace c)) "" then Err "quota: namespace must be non-empty"
  else if (qc_missing_usage_charge c =? 0)%Z then Err "quota: missing_usage_charge must be greater than zero"
  else if (qc_timeout_seconds c =? 0)%Z then Err "quota: timeout_seconds must be greater than zero"
  else
    let lowered := to_ascii_lowercase endpoint in
    if starts_with "https://" lowered then Ok tt
    else if starts_with "http://" lowered then
      if qc_insecure_http c then Ok tt
      else Err "quota: endpoint must use https:// so the connection to Limitador is encrypted; set insecure_http: true to allow http:// for a localhost or demo Limitador only"
    else Err ("quota: endpoint '" +:+ endpoint +:+ "' must be an https:// URL (or http:// with insecure_http: true)").

(** ** The Limitador client ([client.rs]) *)

Record LimitadorClient : Type := mkLimitador {
  lc_namespace : string;
  lc_check_url : string;
  lc_report_url : string;
  lc_timeout : Z;
}.

(** [LimitadorClient::new]. *)
Definition limitador_new (endpoint namespace : string) (timeout : Z) : LimitadorClient :=
  let endpoint := trim_end_slashes endpoint in
  mkLimitador namespace (endpoint +:+ "/check") (endpoint +:+ "/report") timeout.

Definition CHECK_PROBE_DELTA : Z := 1.
Definition STATUS_OK : Z := 200.
Definition STATUS_TOO_MANY_REQUESTS : Z := 429.

(** [LimitadorRequest] as it is serialized. *)
Definition limitador_request (c : LimitadorClient) (key value : string) (delta : Z) : json :=
  JObject [("namespace", JString (lc_namespace c)); ("values", JObject [(key, JString value)]);
           ("delta", JNumber (NInt delta))].

(** What the host's transport does with the attempts of a request to a URL with a body. *)
Definition QuotaEnv : Type := string -> json -> Z -> AttemptEnv.

Definition classify (err : HttpRequestError) : BackendErrorKind :=
  match err with
  | ReqUnavailable _ => BackendUnavailable
  | ReqTransport (TeRejected _) => BackendEgressDenied
  | ReqTransport (TeTimeout | TeConnect _ | TeIo _ | TeResponseTooLarge _ _) => BackendTransport
  | ReqTransport _ => BackendUnavailable
  end.

Definition classify_status (status : Z) : BackendErrorKind :=
  if ((500 <=? status) && (status <? 600))%Z then BackendTransport else BackendUnavailable.

(** [http_request] under [RetryPolicy::none]; [post_once] shows that it always ends. *)
Definition post (c : LimitadorClient) (slot : HttpTransportSlot) (url : string) (body : json) (env : QuotaEnv) :
    result HttpReplyBody HttpRequestError :=
  match run_request slot retry_none (lc_timeout c) (env url body) with
  | Some (r, _) => r
  | None => Err (ReqUnavailable "")
  end.

(** [LimitadorClient::send]. The body always serializes and the header is well formed; an error's
    text only goes to the log. *)
Definition send (c : LimitadorClient) (slot : HttpTransportSlot) (url : string) (body : json) (env : QuotaEnv) :
    result Z BackendErrorKind :=
  match post c slot url body env with
  | Ok response => Ok (rp_status response)
  | Err e => Err (classify e)
  end.

(** [check] and [report] of the backend. *)
Definition limitador_check (c : LimitadorClient) (slot : HttpTransportSlot) (key value : string) (env : QuotaEnv) :
    result CheckOutcome BackendErrorKind :=
  let? status := send c slot (lc_check_url c) (limitador_request c key value CHECK_PROBE_DELTA) env in
  if (status =? STATUS_OK)%Z then Ok WithinLimit
  else if (status =? STATUS_TOO_MANY_REQUESTS)%Z then Ok OverLimit
  else Err (classify_status status).

Definition limitador_report (c : LimitadorClient) (slot : HttpTransportSlot) (key value : string) (delta : Z)
    (env : QuotaEnv) : result unit BackendErrorKind :=
  let? status := send c slot (lc_report_url c) (limitador_request c key value delta) env in
  if (status =? STATUS_OK)%Z then Ok tt else Err (classify_status status).

(** ** Debits that did not land ([handlers.rs]) *)

Record PendingDebit : Type := mkPendingDebit {
  pd_delta : Z;
  pd_flushing : bool;
  pd_active_reports : Z;
}.

Definition PendingDebit_default : PendingDebit := mkPendingDebit 0 false 0.

Notation PendingMap := (gmap string PendingDebit).

(** The entry under a key, or the default one. *)
Definition entry_or_default (m : PendingMap) (p : string) : PendingDebit := default PendingDebit_default (m !! p).

Definition is_spent (d : PendingDebit) : bool :=
  (pd_delta d =? 0)%Z && negb (pd_flushing d) && (pd_active_reports d =? 0)%Z.

(** [Quota::debit], up to its await. *)
Definition debit_begin (m : PendingMap) (p : string) : PendingMap :=
  let d := entry_or_default m p in
  <[p := mkPendingDebit (pd_delta d) (pd_flushing d) (saturating_add (pd_active_reports d) 1)]> m.

(** [DebitClaim::finish], which dropping an unsettled claim runs too. *)
Definition debit_finish (m : PendingMap) (p : string) (delta : Z) (confirmed : bool) : PendingMap :=
  let d := entry_or_default m p in
  let d := mkPendingDebit (if confirmed then pd_delta d else saturating_add (pd_delta d) delta) (pd_flushing d)
             (saturating_sub (pd_active_reports d) 1) in
  let m := <[p := d]> m in
  if is_spent d then delete p m else m.

(** How [flush_pending] gets to its await: not at all, or with an amount to report. *)
Inductive FlushStart : Type := FlushProceed | FlushDeny | FlushReport (attempted : Z).

Definition flush_begin (m : PendingMap) (p : string) : FlushStart * PendingMap :=
  match m !! p with
  | None => (FlushProceed, m)
  | Some d =>
      if pd_flushing d || negb (pd_active_reports d =? 0)%Z then (FlushDeny, m)
      else if (pd_delta d =? 0)%Z then (FlushProceed, m)
      else (FlushReport (pd_delta d), <[p := mkPendingDebit (pd_delta d) true (pd_active_reports d)]> m)
  end.

(** [flush_pending] from its await on; does admission proceed? *)
Definition flush_settle (m : PendingMap) (p : string) (attempted : Z) (landed : bool) : bool * PendingMap :=
  match m !! p with
  | None => (landed, m)
  | Some d =>
      let delta := if landed then saturating_sub (pd_delta d) attempted else pd_delta d in
      let d' := mkPendingDebit delta false (pd_active_reports d) in
      let m := <[p := d']> m in
      (landed && (delta =? 0)%Z && (pd_active_reports d =? 0)%Z, if is_spent d' then delete p m else m)
  end.

(** Dropping a [FlushClaim] that did not commit. *)
Definition flush_drop (m : PendingMap) (p : string) : PendingMap :=
  match m !! p with
  | Some d => <[p := mkPendingDebit (pd_delta d) false (pd_active_reports d)]> m
  | None => m
  end.

(** ** The core and its handlers ([handlers.rs]) *)

(** [Quota], less the pending debits. *)
Record Quota : Type := mkQuota {
  qt_typed : QuotaConfig;
  qt_backend : LimitadorClient;
}.

(** [Quota::new]; [from_value] is the derived deserializer. *)
Definition quota_new (from_value : json -> result QuotaConfig string) (cfg : PluginConfig) : result Quota string :=
  match pg_config cfg with
  | None =>
      Err ("plugin '" +:+ pg_name cfg +:+ "' (quota): a `config:` block with `endpoint` and `namespace` is required")
  | Some raw =>
      let? typed := result_map_err (fun e => "plugin '" +:+ pg_name cfg +:+ "' (quota) config invalid: " +:+ e) (from_value raw) in
      let? _ := result_map_err (fun e => "plugin '" +:+ pg_name cfg +:+ "' (quota): " +:+ e) (quota_validate typed) in
      Ok (mkQuota typed
            (limitador_new (qc_endpoint typed) (qc_namespace typed) (from_secs (qc_timeout_seconds typed))))
  end.

Definition CODE_QUOTA_EXHAUSTED : string := "quota.exhausted".
Definition CODE_QUOTA_BACKEND_UNAVAILABLE : string := "quota.backend_unavailable".
Definition CODE_QUOTA_EGRESS_DENIED : string := "quota.egress_denied".
Definition CODE_QUOTA_NO_IDENTITY : string := "quota.no_identity".
Definition CODE_QUOTA_UNSETTLED_DEBIT : string := "quota.unsettled_debit".
Definition HTTP_TOO_MANY_REQUESTS : Z := 429.

Inductive QuotaResult : Type :=
| QrAllow
| QrDeny (v : PluginViolation).

Section Handlers.
Context `{Platform} {Message : Type}.

Definition resolve_identity (ext : Extensions Message) (identity_claim : string) : option string :=
  let value :=
    match x_security ext ≫= sec_subject with
    | None => None
    | Some subject =>
        if String.eqb identity_claim "sub" then sj_id subject else claim_str subject identity_claim
    end in
  value ≫= (fun v => then_some (negb (String.eqb v "")) v).

(** The amount [QuotaReport] debits. *)
Definition usage_total (typed : QuotaConfig) (ext : Extensions Message) : Z :=
  match x_completion ext ≫= (fun c => cp_tokens (arc_val c)) with
  | Some t => if (0 <? tu_total_tokens t)%Z then tu_total_tokens t else qc_missing_usage_charge typed
  | None => qc_missing_usage_charge typed
  end.

(** The verdict of [QuotaCheck] on what the backend's check came to. *)
Definition check_verdict (typed : QuotaConfig) (r : result CheckOutcome BackendErrorKind) : QuotaResult :=
  match r with
  | Ok WithinLimit => QrAllow
  | Ok OverLimit =>
      QrDeny (with_proto_error_code (violation_new CODE_QUOTA_EXHAUSTED "token budget exhausted") HTTP_TOO_MANY_REQUESTS)
  | Err BackendUnavailable =>
      QrDeny (violation_new CODE_QUOTA_BACKEND_UNAVAILABLE "token budget backend unavailable")
  | Err BackendEgressDenied =>
      QrDeny (violation_new CODE_QUOTA_EGRESS_DENIED "token budget check refused by host egress policy")
  | Err BackendTransport =>
      match qc_on_error typed with
      | OnErrorAllow => QrAllow
      | OnErrorDeny => QrDeny (violation_new CODE_QUOTA_BACKEND_UNAVAILABLE "token budget backend unavailable")
      end
  end.

(** A call of one of the two handlers. *)
Inductive QuotaCall : Type :=
| QuotaCheck (ext : Extensions Message)
| QuotaReport (ext : Extensions Message).

Definition call_ext (c : QuotaCall) : Extensions Message :=
  match c with QuotaCheck ext => ext | QuotaReport ext => ext end.

(** Where a call stands: not yet run; reporting a pending debit; asking for a verdict; reporting
    its own debit; done; or dropped. *)
Inductive QuotaPc : Type :=
| QpStart
| QpFlush (p : string) (attempted : Z)
| QpProbe (p : string)
| QpReport (p : string) (total : Z)
| QpDone (r : QuotaResult)
| QpDropped.

(** What happened, in order: a debit was begun; a request ended;
    a check found nothing unsettled. *)
Inductive QuotaEntry : Type :=
| QlDebit (p : string) (total : Z)
| QlPost (url : string) (body : json) (answer : result HttpReplyBody HttpRequestError)
| QlSettled (i : nat) (p : string).

Variable q : Quota.

(** The entry of a request sent now. *)
Definition posted (slot : HttpTransportSlot) (url : string) (body : json) (env : QuotaEnv) : QuotaEntry :=
  QlPost url body (post (qt_backend q) slot url body env).

(** Did a report land, and its entry. *)
Definition landed (slot : HttpTransportSlot) (p : string) (amount : Z) (env : QuotaEnv) : bool :=
  match limitador_report (qt_backend q) slot (qc_identity_claim (qt_typed q)) p amount env with Ok _ => true | Err _ => false end.

Definition report_entry (slot : HttpTransportSlot) (p : string) (amount : Z) (env : QuotaEnv) : QuotaEntry :=
  posted slot (lc_report_url (qt_backend q)) (limitador_request (qt_backend q) (qc_identity_claim (qt_typed q)) p amount) env.

(** [QuotaCheck::handle] up to its first await. *)
Definition quota_check_start (i : nat) (ext : Extensions Message) (m : PendingMap) : QuotaPc * PendingMap * list QuotaEntry :=
  match resolve_identity ext (qc_identity_claim (qt_typed q)) with
  | None =>
      (QpDone (if qc_allow_unauthenticated (qt_typed q) then QrAllow
               else QrDeny (violation_new CODE_QUOTA_NO_IDENTITY "no resolved identity to meter")), m, [])
  | Some p =>
      match flush_begin m p with
      | (FlushProceed, m) => (QpProbe p, m, [QlSettled i p])
      | (FlushDeny, m) =>
          (QpDone (QrDeny (violation_new CODE_QUOTA_UNSETTLED_DEBIT "a prior token debit is unsettled")), m, [])
      | (FlushReport attempted, m) => (QpFlush p attempted, m, [])
      end
  end.

(** [QuotaReport::handle] up to its await. *)
Definition quota_report_start (ext : Extensions Message) (m : PendingMap) : QuotaPc * PendingMap * list QuotaEntry :=
  match resolve_identity ext (qc_identity_claim (qt_typed q)) with
  | None => (QpDone QrAllow, m, [])
  | Some p =>
      let total := usage_total (qt_typed q) ext in
      (QpReport p total, debit_begin m p, [QlDebit p total])
  end.

(** A handler runs from one await to the next. *)
Definition quota_step (i : nat) (call : QuotaCall) (env : QuotaEnv) (pc : QuotaPc) (m : PendingMap) :
    QuotaPc * PendingMap * list QuotaEntry :=
  let typed := qt_typed q in
  let claim := qc_identity_claim typed in
  let slot := x_http_transport (call_ext call) in
  match pc with
  | QpStart =>
      match call with
      | QuotaCheck ext => quota_check_start i ext m
      | QuotaReport ext => quota_report_start ext m
      end
  | QpFlush p attempted =>
      match flush_settle m p attempted (landed slot p attempted env) with
      | (true, m) => (QpProbe p, m, [report_entry slot p attempted env; QlSettled i p])
      | (false, m) =>
          (QpDone (QrDeny (violation_new CODE_QUOTA_UNSETTLED_DEBIT "a prior token debit is unsettled")), m,
           [report_entry slot p attempted env])
      end
  | QpProbe p =>
      (QpDone (check_verdict typed (limitador_check (qt_backend q) slot claim p env)), m,
       [posted slot (lc_check_url (qt_backend q)) (limitador_request (qt_backend q) claim p CHECK_PROBE_DELTA) env])
  | QpReport p total => (QpDone QrAllow, debit_finish m p total (landed slot p total env), [report_entry slot p total env])
  | QpDone _ | QpDropped => (pc, m, [])
  end.

(** Dropping the future of a call at its await. *)
Definition quota_cancel (pc : QuotaPc) (m : PendingMap) : QuotaPc * PendingMap :=
  match pc with
  | QpStart | QpProbe _ => (QpDropped, m)
  | QpFlush p _ => (QpDropped, flush_drop m p)
  | QpReport p total => (QpDropped, debit_finish m p total false)
  | QpDone _ | QpDropped => (pc, m)
  end.

(** ** Calls interleaved *)

Record QuotaWorld : Type := mkQuotaWorld {
  qw_pending : PendingMap;
  qw_calls : gmap nat (QuotaCall * QuotaPc);
  qw_log : list QuotaEntry;
}.

Inductive QuotaEvent : Type :=
| QeBegin (i : nat) (call : QuotaCall)
| QeStep (i : nat) (env : QuotaEnv)
| QeCancel (i : nat).

Definition quota_world_step (w : QuotaWorld) (e : QuotaEvent) : QuotaWorld :=
  match e with
  | QeBegin i call =>
      match qw_calls w !! i with
      | Some _ => w
      | None => mkQuotaWorld (qw_pending w) (<[i := (call, QpStart)]> (qw_calls w)) (qw_log w)
      end
  | QeStep i env =>
      match qw_calls w !! i with
      | None => w
      | Some (call, pc) =>
          let '(pc', m, entries) := quota_step i call env pc (qw_pending w) in
          mkQuotaWorld m (<[i := (call, pc')]> (qw_calls w)) (qw_log w ++ entries)
      end
  | QeCancel i =>
      match qw_calls w !! i with
      | None => w
      | Some (call, pc) =>
          let '(pc', m) := quota_cancel pc (qw_pending w) in
          mkQuotaWorld m (<[i := (call, pc')]> (qw_calls w)) (qw_log w)
      end
  end.

Definition quota_run (events : list QuotaEvent) : QuotaWorld :=
  foldl quota_world_step (mkQuotaWorld ∅ ∅ []) events.

(** ** The ledger *)

Definition sum_entries (f : QuotaEntry -> Z) (log : list QuotaEntry) : Z := foldr (fun e acc => f e + acc)%Z 0%Z log.

Definition debit_of (p : string) (e : QuotaEntry) : Z :=
  match e with QlDebit p' total => if String.eqb p' p then total else 0%Z | _ => 0%Z end.

(** What Limitador confirms of a principal's spending by answering a request. *)
Definition confirmation_of (p : string) (e : QuotaEntry) : Z :=
  match e with
  | QlPost url (JObject [(f1, JString n); (f2, JObject [(key, JString v)]); (f3, JNumber (NInt d))]) (Ok response) =>
      if String.eqb f1 "namespace" && String.eqb f2 "values" && String.eqb f3 "delta"
         && String.eqb url (lc_report_url (qt_backend q)) && String.eqb n (lc_namespace (qt_backend q))
         && String.eqb key (qc_identity_claim (qt_typed q)) && String.eqb v p && (rp_status response =? STATUS_OK)%Z
      then d else 0%Z
  | _ => 0%Z
  end.

Definition debited (log : list QuotaEntry) (p : string) : Z := sum_entries (debit_of p) log.
Definition confirmed (log : list QuotaEntry) (p : string) : Z := sum_entries (confirmation_of p) log.

(** *** Requests *)

Lemma post_once c slot url body env : exists r made,
  run_request slot retry_none (lc_timeout c) (env url body) = Some (r, made) /\ post c slot url body env = r /\ length made <= 1.
Proof.
  unfold post, run_request. destruct (service_error slot) as [e|]; [by eexists _, []; split_and!; [done|done|cbn; lia]|].
  destruct (retry_loop_spec retry_none (lc_timeout c) (env url body)) with (fuel := 2) (attempt := 0%Z)
    as (r & earlier & last & He & _ & _ & Hlen); [|done|cbn; lia|].
  { by split. }
  unfold execute_with_retry. change (S (Z.to_nat (ry_max_attempts retry_none))) with 2. rewrite He. cbn [option_map fst snd].
  eexists _, _. split_and!; [done|done|]. rewrite length_app. cbn in *. lia.
Qed.

(** A report has landed exactly when the server answered it with [STATUS_OK]. *)
Lemma landed_status slot p amount env :
  landed slot p amount env
  = match post (qt_backend q) slot (lc_report_url (qt_backend q))
            (limitador_request (qt_backend q) (qc_identity_claim (qt_typed q)) p amount) env with
    | Ok response => (rp_status response =? STATUS_OK)%Z
    | Err _ => false
    end.
Proof. unfold landed, limitador_report, send. destruct (post _ _ _ _ _) as [r|]; [|done]. by destruct (rp_status r =? STATUS_OK)%Z. Qed.

Lemma sum_entries_app f l1 l2 : sum_entries f (l1 ++ l2) = (sum_entries f l1 + sum_entries f l2)%Z.
Proof. induction l1 as [|e l1 IH]; cbn; [done|]. unfold sum_entries in *. lia. Qed.

Definition same (p p' : string) (amount : Z) : Z := if String.eqb p' p then amount else 0%Z.

Lemma confirmation_report slot p p' amount env :
  confirmation_of p (report_entry slot p' amount env) = if landed slot p' amount env then same p p' amount else 0%Z.
Proof.
  rewrite landed_status. unfold report_entry, posted, confirmation_of, limitador_request, same. rewrite !String.eqb_refl. cbn [andb].
  destruct (post _ _ _ _ _) as [response|]; [|done]. destruct (rp_status response =? STATUS_OK)%Z; by rewrite ?andb_true_r, ?andb_false_r.
Qed.

(** *** What calls under way carry *)

Definition sum_calls (f : QuotaPc -> Z) (calls : gmap nat (QuotaCall * QuotaPc)) : Z :=
  map_fold (fun _ c acc => f c.2 + acc)%Z 0%Z calls.

Lemma sum_calls_new f calls i call pc :
  calls !! i = None -> sum_calls f (<[i := (call, pc)]> calls) = (f pc + sum_calls f calls)%Z.
Proof. intros Hi. unfold sum_calls. apply (map_fold_insert_L (fun _ c acc => f c.2 + acc)%Z 0%Z i (call, pc) calls); [intros; lia|done]. Qed.

Lemma sum_calls_delete f calls i call pc :
  calls !! i = Some (call, pc) -> sum_calls f calls = (f pc + sum_calls f (delete i calls))%Z.
Proof. intros Hi. unfold sum_calls. apply (map_fold_delete_L (fun _ c acc => f c.2 + acc)%Z 0%Z i (call, pc) calls); [intros; lia|done]. Qed.

Lemma sum_calls_step f calls i call pc pc' :
  calls !! i = Some (call, pc) -> sum_calls f (<[i := (call, pc')]> calls) = (sum_calls f calls - f pc + f pc')%Z.
Proof.
  intros Hi. rewrite (sum_calls_delete f calls i call pc) by done. rewrite <- insert_delete_eq.
  rewrite sum_calls_new by apply lookup_delete_eq. lia.
Qed.

Lemma sum_calls_bound f g calls :
  (forall i call pc, calls !! i = Some (call, pc) -> 0 <= f pc <= g pc)%Z -> (0 <= sum_calls f calls <= sum_calls g calls)%Z.
Proof.
  unfold sum_calls. revert calls. refine (map_ind _ _ _); [done|]. intros i [call pc] calls Hi IH Hall.
  rewrite !map_fold_insert_L by (done || (intros; lia)). cbn [snd].
  pose proof (Hall i call pc (lookup_insert_eq _ _ _)).
  assert (0 <= map_fold (fun _ c acc => f c.2 + acc)%Z 0%Z calls <= map_fold (fun _ c acc => g c.2 + acc)%Z 0%Z calls)%Z; [|lia].
  apply IH. intros j call' pc' Hj. apply (Hall j call'). rewrite lookup_insert_ne by (intros ->; congruence). done.
Qed.

Lemma sum_calls_zero f g calls :
  (forall i call pc, calls !! i = Some (call, pc) -> 0 <= f pc /\ (f pc = 0 -> g pc = 0))%Z ->
  sum_calls f calls = 0%Z -> sum_calls g calls = 0%Z.
Proof.
  unfold sum_calls. revert calls. refine (map_ind _ _ _); [done|]. intros i [call pc] calls Hi IH Hall.
  assert (forall j call' pc', calls !! j = Some (call', pc') -> 0 <= f pc' /\ (f pc' = 0 -> g pc' = 0))%Z as Hrest.
  { intros j call' pc' Hj. apply (Hall j call'). rewrite lookup_insert_ne by (intros ->; congruence). done. }
  rewrite !map_fold_insert_L by (done || (intros; lia)). cbn [snd].
  pose proof (Hall i call pc (lookup_insert_eq _ _ _)) as [H0 Hz]. specialize (IH Hrest).
  assert (0 <= map_fold (fun _ c acc => f c.2 + acc)%Z 0%Z calls)%Z as Hn
    by (apply (sum_calls_bound f f); intros; split; [by eapply Hrest|done]).
  intros Hs. rewrite IH, Hz by lia. done.
Qed.

Definition reporting (p : string) (pc : QuotaPc) : Z := match pc with QpReport p' _ => same p p' 1 | _ => 0%Z end.
Definition carried (p : string) (pc : QuotaPc) : Z := match pc with QpReport p' total => same p p' total | _ => 0%Z end.
Definition flushes (p : string) (pc : QuotaPc) : Z := match pc with QpFlush p' _ => same p p' 1 | _ => 0%Z end.

(** ** The ledger balances *)

(** Everything debited is confirmed, pending, or in a report under way; the entry counts the reports
    and the one flush; a flush never reports more than is pending. *)
Record balanced (w : QuotaWorld) (p : string) : Prop := {
  bal_active : pd_active_reports (entry_or_default (qw_pending w) p) = sum_calls (reporting p) (qw_calls w);
  bal_flushing : Z.b2z (pd_flushing (entry_or_default (qw_pending w) p)) = sum_calls (flushes p) (qw_calls w);
  bal_sum : (debited (qw_log w) p = confirmed (qw_log w) p + pd_delta (entry_or_default (qw_pending w) p)
                                    + sum_calls (carried p) (qw_calls w))%Z;
  bal_confirmed : (0 <= confirmed (qw_log w) p)%Z;
  bal_delta : (0 <= pd_delta (entry_or_default (qw_pending w) p))%Z;
  bal_flush i call a :
    qw_calls w !! i = Some (call, QpFlush p a) -> (0 < a <= pd_delta (entry_or_default (qw_pending w) p))%Z;
  bal_report i call total : qw_calls w !! i = Some (call, QpReport p total) -> (0 < total)%Z;
}.

Lemma entry_insert m p' d p : entry_or_default (<[p' := d]> m) p = if String.eqb p' p then d else entry_or_default m p.
Proof.
  unfold entry_or_default. destruct (String.eqb_spec p' p) as [->|Hn]; simplify_map_eq; done.
Qed.

Lemma is_spent_default d : is_spent d = true -> d = PendingDebit_default.
Proof.
  unfold is_spent. rewrite !andb_true_iff. intros [[Hd%Z.eqb_eq Hf%negb_true_iff] Ha%Z.eqb_eq].
  destruct d; cbn in *. by subst.
Qed.

Lemma entry_kept m p' d p :
  entry_or_default (if is_spent d then delete p' (<[p' := d]> m) else <[p' := d]> m) p
  = if String.eqb p' p then d else entry_or_default m p.
Proof.
  destruct (is_spent d) eqn:Es; [|apply entry_insert]. unfold entry_or_default.
  destruct (String.eqb_spec p' p) as [->|Hn].
  - simplify_map_eq. symmetry. by apply is_spent_default.
  - by simplify_map_eq.
Qed.

Lemma flush_unique w p i call a j call' a' :
  balanced w p -> qw_calls w !! i = Some (call, QpFlush p a) -> qw_calls w !! j = Some (call', QpFlush p a') -> i = j.
Proof.
  intros Hb Hi Hj. destruct (decide (i = j)) as [|Hn]; [done|exfalso].
  pose proof (bal_flushing _ _ Hb) as Hf. rewrite (sum_calls_delete _ _ _ _ _ Hi) in Hf.
  rewrite (sum_calls_delete (flushes p) (delete i (qw_calls w)) j call' (QpFlush p a')) in Hf by (rewrite lookup_delete_ne; done).
  cbn [flushes] in Hf. unfold same in Hf. rewrite String.eqb_refl in Hf.
  assert (0 <= sum_calls (flushes p) (delete j (delete i (qw_calls w))))%Z.
  { apply (sum_calls_bound (flushes p) (flushes p)). intros k c pc _. split; [|done].
    destruct pc; cbn; unfold same; try done. by case_match. }
  destruct (pd_flushing _); cbn in Hf; lia.
Qed.

(** One call moves on: what must hold of the entry of a principal for the ledger to balance again. *)
Lemma balanced_step w p i call pc pc' m entries :
  balanced w p -> qw_calls w !! i = Some (call, pc) ->
  let d := entry_or_default (qw_pending w) p in
  let d' := entry_or_default m p in
  (pd_active_reports d' = pd_active_reports d - reporting p pc + reporting p pc')%Z ->
  (Z.b2z (pd_flushing d') = Z.b2z (pd_flushing d) - flushes p pc + flushes p pc')%Z ->
  (debited entries p = confirmed entries p + (pd_delta d' - pd_delta d) + (carried p pc' - carried p pc))%Z ->
  (0 <= confirmed entries p)%Z -> (0 <= pd_delta d')%Z -> (pd_delta d <= pd_delta d' \/ exists a, pc = QpFlush p a)%Z ->
  (forall a, pc' = QpFlush p a -> 0 < a <= pd_delta d')%Z ->
  (forall total, pc' = QpReport p total -> 0 < total)%Z ->
  balanced (mkQuotaWorld m (<[i := (call, pc')]> (qw_calls w)) (qw_log w ++ entries)) p.
Proof.
  intros Hb Hi d d' Ha Hf Hs Hc Hd Hle Hfl Hre. pose proof Hb as [Ba Bf Bs Bc Bd Bfl Bre].
  assert (forall f, sum_calls f (<[i := (call, pc')]> (qw_calls w)) = sum_calls f (qw_calls w) - f pc + f pc')%Z as Hsum
    by (intros f; by apply sum_calls_step).
  unfold debited, confirmed in *.
  split; cbn [qw_pending qw_calls qw_log]; unfold debited, confirmed; rewrite ?sum_entries_app, ?Hsum; fold d'; [unfold d in *; lia..|done| |].
  - intros j c a [[<- [= <- ->]]|[Hn Hj]]%lookup_insert_Some; [by apply Hfl|].
    pose proof (Bfl _ _ _ Hj). destruct Hle as [Hle|[a' ->]]; [unfold d in *; lia|].
    exfalso. apply Hn. eapply flush_unique; eauto.
  - intros j c t [[<- [= <- ->]]|[_ Hj]]%lookup_insert_Some; [by apply Hre|by eapply Bre].
Qed.

Lemma contribution w p i call pc :
  balanced w p -> qw_calls w !! i = Some (call, pc) -> (0 <= reporting p pc <= carried p pc)%Z.
Proof.
  intros Hb Hi. destruct pc as [| | |p' total| |]; cbn; try done.
  unfold same. destruct (String.eqb_spec p' p) as [->|]; [|done].
  pose proof (bal_report _ _ Hb _ _ _ Hi). lia.
Qed.

(** The counters stay far from saturation while what was debited does. *)
Lemma balanced_bounds w p i call pc :
  balanced w p -> qw_calls w !! i = Some (call, pc) ->
  let d := entry_or_default (qw_pending w) p in
  (0 <= reporting p pc <= pd_active_reports d
   /\ pd_active_reports d + pd_delta d <= debited (qw_log w) p
   /\ pd_delta d + carried p pc <= debited (qw_log w) p)%Z.
Proof.
  intros Hb Hi d. pose proof (contribution _ _ _ _ _ Hb Hi) as Hc.
  assert (forall calls, (forall j x, calls !! j = Some x -> qw_calls w !! j = Some x) ->
    0 <= sum_calls (reporting p) calls <= sum_calls (carried p) calls)%Z as Hsub.
  { intros calls Hcalls. apply sum_calls_bound. intros j c x Hj. eapply contribution; eauto. }
  pose proof (Hsub (qw_calls w) (fun _ _ H => H)). pose proof (Hsub (delete i (qw_calls w))) as Hrest.
  destruct Hb as [Ba _ Bs Bc Bd _ _]. fold d in Ba, Bs, Bd.
  pose proof (sum_calls_delete (reporting p) _ _ _ _ Hi). pose proof (sum_calls_delete (carried p) _ _ _ _ Hi).
  assert (0 <= sum_calls (reporting p) (delete i (qw_calls w)) <= sum_calls (carried p) (delete i (qw_calls w)))%Z; [|lia].
  apply Hrest. intros j x Hj. by apply lookup_delete_Some in Hj as [_ Hj].
Qed.

(** With nothing pending and no report under way, all of it is confirmed. *)
Lemma balanced_settled w p :
  balanced w p -> pd_delta (entry_or_default (qw_pending w) p) = 0%Z ->
  pd_active_reports (entry_or_default (qw_pending w) p) = 0%Z -> debited (qw_log w) p = confirmed (qw_log w) p.
Proof.
  intros Hb Hd Ha. pose proof Hb as [Ba _ Bs _ _ _ _]. rewrite Ha in Ba.
  rewrite Bs, Hd, (sum_calls_zero (reporting p) (carried p)); [lia| |done].
  intros i call pc Hi. pose proof (contribution _ _ _ _ _ Hb Hi). split; [lia|].
  destruct pc; cbn; try done. unfold same. by case_match.
Qed.

(** *** Each part of a handler keeps the balance *)

#[local] Ltac ledger p' p :=
  unfold debited, confirmed; rewrite ?entry_insert, ?entry_kept; cbn; unfold same; unfold saturating_add, saturating_sub in *;
  destruct (String.eqb_spec p' p) as [->|]; cbn; try lia; auto; intros; simplify_eq; try done; try lia.

Hypothesis urls_differ : lc_check_url (qt_backend q) <> lc_report_url (qt_backend q).
Hypothesis charge_positive : (0 < qc_missing_usage_charge (qt_typed q))%Z.

Lemma usage_positive ext : (0 < usage_total (qt_typed q) ext)%Z.
Proof. unfold usage_total. repeat case_match; try done. by apply Z.ltb_lt. Qed.

Lemma confirmation_check slot p body env : confirmation_of p (posted slot (lc_check_url (qt_backend q)) body env) = 0%Z.
Proof.
  assert (String.eqb (lc_check_url (qt_backend q)) (lc_report_url (qt_backend q)) = false) as E by (by apply String.eqb_neq).
  unfold posted, confirmation_of. rewrite E. repeat case_match; try done. by rewrite andb_false_r in *.
Qed.

Lemma begin_balanced w p i call p' :
  balanced w p -> qw_calls w !! i = Some (call, QpStart) ->
  let total := usage_total (qt_typed q) (call_ext call) in
  (debited (qw_log w ++ [QlDebit p' total]) p <= usize_max)%Z ->
  balanced (mkQuotaWorld (debit_begin (qw_pending w) p') (<[i := (call, QpReport p' total)]> (qw_calls w))
              (qw_log w ++ [QlDebit p' total])) p.
Proof.
  intros Hb Hi total Hmax. pose proof (balanced_bounds _ _ _ _ _ Hb Hi) as (Hr & Ha & _). pose proof (bal_delta _ _ Hb) as Hd.
  pose proof (usage_positive (call_ext call)) as Ht. fold total in Ht. unfold debited in *. rewrite sum_entries_app in Hmax.
  cbn in Hmax. apply (balanced_step _ _ _ _ QpStart); [done|done|..]; unfold debit_begin; ledger p' p.
Qed.

(** A report ends, or is dropped. *)
Lemma finish_balanced w p i call p' total (ok : bool) entries pc' :
  balanced w p -> qw_calls w !! i = Some (call, QpReport p' total) -> (debited (qw_log w) p <= usize_max)%Z ->
  debited entries p = 0%Z -> confirmed entries p = (if ok then same p p' total else 0%Z) ->
  pc' = QpDone QrAllow \/ pc' = QpDropped ->
  balanced (mkQuotaWorld (debit_finish (qw_pending w) p' total ok) (<[i := (call, pc')]> (qw_calls w)) (qw_log w ++ entries)) p.
Proof.
  intros Hb Hi Hmax Hd Hc Hpc. pose proof (balanced_bounds _ _ _ _ _ Hb Hi) as (Hr & Ha & Hcar).
  pose proof (bal_delta _ _ Hb) as Hd0. pose proof (contribution _ _ _ _ _ Hb Hi) as Ht. cbn [reporting carried] in *.
  apply (balanced_step _ _ _ _ (QpReport p' total)); [done|done|..]; rewrite ?Hd, ?Hc; unfold debit_finish.
  all: unfold same in *; destruct Hpc as [-> | ->], ok; ledger p' p.
Qed.

(** A flush begins. *)
Lemma flush_begin_balanced w p i call p' start m :
  balanced w p -> qw_calls w !! i = Some (call, QpStart) -> flush_begin (qw_pending w) p' = (start, m) ->
  match start with
  | FlushReport a => balanced (mkQuotaWorld m (<[i := (call, QpFlush p' a)]> (qw_calls w)) (qw_log w)) p
  | FlushProceed => m = qw_pending w /\ (p' = p -> debited (qw_log w) p = confirmed (qw_log w) p)
  | FlushDeny => m = qw_pending w
  end.
Proof.
  intros Hb Hi E. unfold flush_begin in E. pose proof (bal_delta _ _ Hb) as Hd.
  destruct (qw_pending w !! p') as [d|] eqn:El.
  - assert (entry_or_default (qw_pending w) p' = d) as Hent by (unfold entry_or_default; by rewrite El).
    destruct (pd_flushing d) eqn:Ef; cbn in E; [by simplify_eq|].
    destruct (Z.eqb_spec (pd_active_reports d) 0) as [Ha|Ha]; cbn in E; [|by simplify_eq].
    destruct (Z.eqb_spec (pd_delta d) 0) as [Hz|Hz]; simplify_eq.
    + split; [done|]. intros ->. by apply balanced_settled.
    + rewrite <- (app_nil_r (qw_log w)). apply (balanced_step _ _ _ _ QpStart); [done|done|..]; ledger p' p. by rewrite Ef.
  - simplify_eq. split; [done|]. intros ->. apply balanced_settled; [done|..]; unfold entry_or_default; by rewrite El.
Qed.

Lemma flushing_entry w i call p a :
  balanced w p -> qw_calls w !! i = Some (call, QpFlush p a) ->
  exists d, qw_pending w !! p = Some d /\ entry_or_default (qw_pending w) p = d /\ pd_flushing d = true /\ (0 < a <= pd_delta d)%Z.
Proof.
  intros Hb Hi. pose proof (bal_flush _ _ Hb _ _ _ Hi) as Ha. pose proof (bal_flushing _ _ Hb) as Hf.
  assert (0 < sum_calls (flushes p) (qw_calls w))%Z as Hpos.
  { rewrite (sum_calls_delete _ _ _ _ _ Hi). cbn. unfold same. rewrite String.eqb_refl.
    assert (0 <= sum_calls (flushes p) (delete i (qw_calls w)))%Z; [|lia].
    apply (sum_calls_bound (flushes p) (flushes p)). intros j c pc _. split; [|done].
    destruct pc; cbn; unfold same; try done. by case_match. }
  unfold entry_or_default in *. destruct (qw_pending w !! p) as [d|]; cbn in *; [|lia].
  exists d. split_and!; [done|done| |lia..]. destruct (pd_flushing d); [done|cbn in *; lia].
Qed.

(** A flush ends. *)
Lemma settle_balanced w p i call p' a ok proceed m entries pc' :
  balanced w p -> balanced w p' -> qw_calls w !! i = Some (call, QpFlush p' a) ->
  flush_settle (qw_pending w) p' a ok = (proceed, m) ->
  debited entries p = 0%Z -> confirmed entries p = (if ok then same p p' a else 0%Z) ->
  (exists r, pc' = QpDone r) \/ pc' = QpProbe p' ->
  let w' := mkQuotaWorld m (<[i := (call, pc')]> (qw_calls w)) (qw_log w ++ entries) in
  balanced w' p /\ (proceed = true -> p' = p -> debited (qw_log w') p = confirmed (qw_log w') p).
Proof.
  intros Hb Hb' Hi E Hd Hc Hpc. destruct (flushing_entry _ _ _ _ _ Hb' Hi) as (d & El & Hent & Hf & Ha).
  unfold flush_settle in E. rewrite El in E. injection E as Hp <-.
  set (m := if is_spent _ then _ else _).
  assert (balanced (mkQuotaWorld m (<[i := (call, pc')]> (qw_calls w)) (qw_log w ++ entries)) p) as Hnew.
  { pose proof (bal_delta _ _ Hb).
    apply (balanced_step _ _ _ _ (QpFlush p' a)); [done|done|..]; rewrite ?Hd, ?Hc; subst m.
    all: unfold same in *; destruct Hpc as [[r ->] | ->], ok; ledger p' p. all: rewrite ?Hent, ?Hf; try done; try lia.
    all: right; by eexists. }
  split; [done|]. intros -> ->. rewrite !andb_true_iff, !Z.eqb_eq in Hp. destruct Hp as [[-> Hz] Hact].
  apply (balanced_settled _ _ Hnew); cbn [qw_pending]; subst m; rewrite entry_kept, String.eqb_refl; done.
Qed.

(** A flush is dropped. *)
Lemma drop_balanced w p i call p' a :
  balanced w p -> balanced w p' -> qw_calls w !! i = Some (call, QpFlush p' a) ->
  balanced (mkQuotaWorld (flush_drop (qw_pending w) p') (<[i := (call, QpDropped)]> (qw_calls w)) (qw_log w)) p.
Proof.
  intros Hb Hb' Hi. destruct (flushing_entry _ _ _ _ _ Hb' Hi) as (d & El & Hent & Hf & Ha). pose proof (bal_delta _ _ Hb).
  unfold flush_drop. rewrite El. rewrite <- (app_nil_r (qw_log w)).
  apply (balanced_step _ _ _ _ (QpFlush p' a)); [done|done|..]; ledger p' p. all: rewrite ?Hent, ?Hf; done.
Qed.

(** A call moves on without touching the debits. *)
Lemma untouched_balanced w p i call pc pc' entries :
  balanced w p -> qw_calls w !! i = Some (call, pc) ->
  (pc = QpStart \/ exists p', pc = QpProbe p') -> (pc' = QpDropped \/ (exists p', pc' = QpProbe p') \/ exists r, pc' = QpDone r) ->
  debited entries p = 0%Z -> confirmed entries p = 0%Z ->
  balanced (mkQuotaWorld (qw_pending w) (<[i := (call, pc')]> (qw_calls w)) (qw_log w ++ entries)) p.
Proof.
  intros Hb Hi Hpc Hpc' Hd Hc. pose proof (bal_delta _ _ Hb).
  apply (balanced_step _ _ _ _ pc); [done|done|..]; rewrite ?Hd, ?Hc.
  all: destruct Hpc as [-> |[? ->]], Hpc' as [-> |[[? ->]|[? ->]]]; cbn; try lia; done.
Qed.

(** ** What an admission rests on *)

(** The failures [on_error] governs: a peer that may recover. *)
Definition transient (answer : result HttpReplyBody HttpRequestError) : Prop :=
  match answer with
  | Ok response => (500 <= rp_status response < 600)%Z
  | Err (ReqTransport (TeTimeout | TeConnect _ | TeIo _ | TeResponseTooLarge _ _)) => True
  | Err _ => False
  end.

(** Limitador found the principal within its budget, or could not say and the settings let it. *)
Definition within_budget (answer : result HttpReplyBody HttpRequestError) : Prop :=
  (exists response, answer = Ok response /\ rp_status response = STATUS_OK)
  \/ (qc_on_error (qt_typed q) = OnErrorAllow /\ transient answer).

(** The check found all debits of the principal confirmed. *)
Definition settled_at (log : list QuotaEntry) (i : nat) (p : string) (rest : list QuotaEntry -> Prop) : Prop :=
  exists before after, log = before ++ QlSettled i p :: after /\ debited before p = confirmed before p /\ rest after.

Definition probe_entry (p : string) (answer : result HttpReplyBody HttpRequestError) : QuotaEntry :=
  QlPost (lc_check_url (qt_backend q)) (limitador_request (qt_backend q) (qc_identity_claim (qt_typed q)) p CHECK_PROBE_DELTA) answer.

Definition call_ok (log : list QuotaEntry) (i : nat) (call : QuotaCall) (pc : QuotaPc) : Prop :=
  match call with
  | QuotaReport _ => match pc with QpFlush _ _ | QpProbe _ => False | _ => True end
  | QuotaCheck ext =>
      let identity := resolve_identity ext (qc_identity_claim (qt_typed q)) in
      match pc with
      | QpFlush p _ => identity = Some p
      | QpProbe p => identity = Some p /\ settled_at log i p (fun _ => True)
      | QpReport _ _ => False
      | QpDone QrAllow =>
          match identity with
          | None => qc_allow_unauthenticated (qt_typed q) = true
          | Some p => settled_at log i p (fun after => exists answer, probe_entry p answer ∈ after /\ within_budget answer)
          end
      | _ => True
      end
  end.

Lemma check_verdict_allow slot p env :
  check_verdict (qt_typed q) (limitador_check (qt_backend q) slot (qc_identity_claim (qt_typed q)) p env) = QrAllow ->
  exists answer, posted slot (lc_check_url (qt_backend q))
      (limitador_request (qt_backend q) (qc_identity_claim (qt_typed q)) p CHECK_PROBE_DELTA) env = probe_entry p answer
    /\ within_budget answer.
Proof.
  intros E. eexists. split; [done|]. unfold limitador_check, send in E. unfold within_budget.
  destruct (post _ _ _ _ _) as [response|err]; cbn in E.
  - destruct (Z.eqb_spec (rp_status response) STATUS_OK); [left; by eexists|]. cbn in E. case_match; [done|].
    unfold classify_status in E. destruct (_ && _)%Z eqn:Es; cbn in E; [|done]. right.
    apply andb_true_iff in Es as [?%Z.leb_le ?%Z.ltb_lt]. cbn. by destruct (qc_on_error _).
  - right. destruct err as [|[]]; cbn in *; try done; by destruct (qc_on_error _).
Qed.

Lemma settled_at_app log entries i p (rest rest' : list QuotaEntry -> Prop) :
  (forall after, rest after -> rest' (after ++ entries)) -> settled_at log i p rest -> settled_at (log ++ entries) i p rest'.
Proof.
  intros Hr (before & after & -> & Hs & Ha). exists before, (after ++ entries). split_and!; [|done|by apply Hr].
  by rewrite <- app_assoc.
Qed.

Lemma call_ok_app log entries i call pc : call_ok log i call pc -> call_ok (log ++ entries) i call pc.
Proof.
  unfold call_ok. destruct call as [ext|ext]; [|done]. destruct pc as [| |p| |[|v]|]; try done.
  - intros [Hid Hs]. split; [done|]. by apply (settled_at_app _ _ _ _ (fun _ => True)).
  - destruct (resolve_identity _ _); [|done]. apply settled_at_app. intros after (answer & Hin & Hw).
    exists answer. split; [|done]. apply elem_of_app. by left.
Qed.

Lemma confirmed_report slot p p' amount env rest :
  confirmed rest p = 0%Z ->
  confirmed (report_entry slot p' amount env :: rest) p = if landed slot p' amount env then same p p' amount else 0%Z.
Proof. unfold confirmed, sum_entries. cbn [foldr]. intros ->. rewrite confirmation_report. lia. Qed.

(** *** Every step keeps it *)

Lemma start_ok w i call env pc' m entries :
  (forall p, balanced w p) -> qw_calls w !! i = Some (call, QpStart) ->
  quota_step i call env QpStart (qw_pending w) = (pc', m, entries) ->
  (forall p, debited (qw_log w ++ entries) p <= usize_max)%Z ->
  (forall p, balanced (mkQuotaWorld m (<[i := (call, pc')]> (qw_calls w)) (qw_log w ++ entries)) p)
  /\ call_ok (qw_log w ++ entries) i call pc'.
Proof.
  intros Hb Hi E Hmax. destruct call as [ext|ext]; cbn in E; unfold quota_check_start, quota_report_start in E;
    destruct (resolve_identity ext _) as [p'|] eqn:Er; cbv iota in E.
  - destruct (flush_begin (qw_pending w) p') as [start m'] eqn:Ef.
    pose proof (fun p => flush_begin_balanced w p i _ p' start m' (Hb p) Hi Ef) as Hs.
    destruct start; simplify_eq; cbn [call_ok]; rewrite ?Er, ?app_nil_r.
    + destruct (Hs p') as [-> Hp]. split.
      * intros p. eapply untouched_balanced; eauto 6.
      * split; [done|]. exists (qw_log w), []. split_and!; auto.
    + rewrite (Hs p'). split; [|done]. intros p. rewrite <- (app_nil_r (qw_log w)). eapply untouched_balanced; eauto 6.
    + split; [|done]. apply Hs.
  - simplify_eq. split; [intros p; eapply untouched_balanced; eauto 6|]. cbn. rewrite Er. by destruct (qc_allow_unauthenticated _).
  - simplify_eq. split; [|done]. intros p. by apply (begin_balanced w p i (QuotaReport ext)).
  - simplify_eq. split; [|done]. intros p. eapply untouched_balanced; eauto 6.
Qed.

Lemma step_ok w i call env pc pc' m entries :
  (forall p, balanced w p) -> qw_calls w !! i = Some (call, pc) -> call_ok (qw_log w) i call pc ->
  quota_step i call env pc (qw_pending w) = (pc', m, entries) ->
  (forall p, debited (qw_log w ++ entries) p <= usize_max)%Z ->
  (forall p, balanced (mkQuotaWorld m (<[i := (call, pc')]> (qw_calls w)) (qw_log w ++ entries)) p)
  /\ call_ok (qw_log w ++ entries) i call pc'.
Proof.
  intros Hb Hi Hc E Hmax. destruct pc as [|p' a|p'|p' total|r|]; [by eapply start_ok| | | | |]; cbn [quota_step] in E.
  - destruct call as [ext|]; [|done].
    destruct (flush_settle _ _ _ _) as [proceed m'] eqn:Ef.
    assert (forall p rest pc'', confirmed rest p = 0%Z -> debited rest p = 0%Z -> (exists r, pc'' = QpDone r) \/ pc'' = QpProbe p' ->
      let w' := mkQuotaWorld m' (<[i := (QuotaCheck ext, pc'')]> (qw_calls w))
                  (qw_log w ++ report_entry (x_http_transport ext) p' a env :: rest) in
      balanced w' p /\ (proceed = true -> p' = p -> debited (qw_log w') p = confirmed (qw_log w') p)) as Hs.
    { intros p rest pc'' Hr Hd Hpc. eapply settle_balanced; eauto. by apply confirmed_report. }
    destruct proceed; simplify_eq.
    + split; [intros p; by apply Hs; auto|]. split; [done|].
      exists (qw_log w ++ [report_entry (x_http_transport ext) p' a env]), []. split_and!; [by rewrite <- app_assoc| |done].
      by apply (Hs p' [] (QpProbe p')); auto.
    + split; [intros p; apply Hs; eauto|done].
  - destruct call as [ext|]; [|done]. destruct Hc as [Hid Hset]. simplify_eq. split.
    + intros p. eapply untouched_balanced; eauto 6. unfold confirmed. cbn [sum_entries foldr]. by rewrite confirmation_check.
    + destruct (check_verdict _ _) eqn:Ev; [|done]. cbn [call_ok]. rewrite Hid.
      apply check_verdict_allow in Ev as (answer & He & Hw). eapply settled_at_app; [|exact Hset]. intros after _.
      exists answer. split; [|done]. apply elem_of_app. right. rewrite He. by apply list_elem_of_singleton.
  - simplify_eq. split; [|by destruct call]. intros p. eapply finish_balanced; eauto; [|by apply confirmed_report].
    specialize (Hmax p). unfold debited in *. rewrite sum_entries_app in Hmax. cbn in Hmax. lia.
  - simplify_eq. rewrite app_nil_r, insert_id by done. by destruct w.
  - simplify_eq. rewrite app_nil_r, insert_id by done. by destruct w.
Qed.

Lemma cancel_ok w i call pc pc' m :
  (forall p, balanced w p) -> qw_calls w !! i = Some (call, pc) -> call_ok (qw_log w) i call pc ->
  quota_cancel pc (qw_pending w) = (pc', m) -> (forall p, debited (qw_log w) p <= usize_max)%Z ->
  (forall p, balanced (mkQuotaWorld m (<[i := (call, pc')]> (qw_calls w)) (qw_log w)) p) /\ call_ok (qw_log w) i call pc'.
Proof.
  intros Hb Hi Hc E Hmax. destruct pc as [|p' a|p'|p' total|r|]; cbn [quota_cancel] in E; simplify_eq.
  1-4: split; [intros p|by destruct call].
  2: by eapply drop_balanced.
  1-3: rewrite <- (app_nil_r (qw_log w)); first [eapply untouched_balanced; eauto 6; done|eapply finish_balanced; eauto; done].
  all: rewrite insert_id by done; by destruct w.
Qed.

Definition quota_ok (w : QuotaWorld) : Prop :=
  (forall p, balanced w p) /\ forall i call pc, qw_calls w !! i = Some (call, pc) -> call_ok (qw_log w) i call pc.

Lemma debited_grows w e p : (debited (qw_log w) p <= debited (qw_log (quota_world_step w e)) p)%Z.
Proof.
  destruct e as [i call|i env|i]; cbn.
  - by destruct (qw_calls w !! i).
  - destruct (qw_calls w !! i) as [[call pc]|]; [|done]. destruct (quota_step _ _ _ _ _) as [[pc' m] entries] eqn:E. cbn [qw_log].
    unfold debited. rewrite sum_entries_app. assert (0 <= sum_entries (debit_of p) entries)%Z; [|lia].
    unfold quota_step, quota_check_start, quota_report_start in E. destruct pc; simplify_eq; try done; repeat case_match; simplify_eq; cbn; try done.
    pose proof (usage_positive ext). destruct (String.eqb _ _); lia.
  - destruct (qw_calls w !! i) as [[call pc]|]; [|done]. by destruct (quota_cancel _ _).
Qed.

Lemma world_step_ok w e :
  quota_ok w -> (forall p, debited (qw_log (quota_world_step w e)) p <= usize_max)%Z -> quota_ok (quota_world_step w e).
Proof.
  intros [Hb Hc] Hmax. pose proof (fun p => Z.le_trans _ _ _ (debited_grows w e p) (Hmax p)) as Hold.
  destruct e as [i call|i env|i]; cbn in *; destruct (qw_calls w !! i) as [[c pc]|] eqn:Hi; try done.
  - split; cbn.
    + intros p. destruct (Hb p) as [Ba Bf Bs Bc Bd Bfl Bre]. split; cbn; rewrite ?sum_calls_new by done; try done.
      * intros j x a [[_ [=]]|[_ Hj]]%lookup_insert_Some. eauto.
      * intros j x a [[_ [=]]|[_ Hj]]%lookup_insert_Some. eauto.
    + intros j x pc [[_ [= <- <-]]|[_ Hj]]%lookup_insert_Some; [by destruct call|eauto].
  - destruct (quota_step _ _ _ _ _) as [[pc' m] entries] eqn:E. destruct (step_ok w i c env pc pc' m entries) as [Hb' Hc']; eauto.
    split; [done|]. cbn. intros j x y [[<- [= <- <-]]|[_ Hj]]%lookup_insert_Some; [done|]. apply call_ok_app. eauto.
  - destruct (quota_cancel _ _) as [pc' m] eqn:E. destruct (cancel_ok w i c pc pc' m) as [Hb' Hc']; eauto.
    split; [done|]. cbn. intros j x y [[<- [= <- <-]]|[_ Hj]]%lookup_insert_Some; [done|]. eauto.
Qed.

Lemma run_ok events :
  (forall p, debited (qw_log (quota_run events)) p <= usize_max)%Z -> quota_ok (quota_run events).
Proof.
  unfold quota_run. induction events as [|e events IH] using rev_ind.
  - intros _. split; [|by intros i call pc Hi]. intros p. by split.
  - rewrite foldl_app. cbn. intros Hmax. apply world_step_ok; [|done]. apply IH. intros p. etrans; [apply debited_grows|apply Hmax].
Qed.

(** ** Debits settle *)

(** No call of the principal is at a report. *)
Definition idle (w : QuotaWorld) (p : string) : Prop :=
  forall j call pc, qw_calls w !! j = Some (call, pc) -> reporting p pc = 0%Z /\ flushes p pc = 0%Z.

Lemma idle_entry w p :
  balanced w p -> idle w p ->
  let d := entry_or_default (qw_pending w) p in
  pd_active_reports d = 0%Z /\ pd_flushing d = false /\ (debited (qw_log w) p = confirmed (qw_log w) p + pd_delta d)%Z.
Proof.
  intros [Ba Bf Bs _ _ _ _] Hidle d. fold d in Ba, Bf, Bs.
  assert (forall f, (forall j call pc, qw_calls w !! j = Some (call, pc) -> f pc = 0%Z) -> sum_calls f (qw_calls w) = 0%Z) as Hz.
  { intros f Hf. apply (sum_calls_zero (fun _ => 0%Z) f); [intros; by split; [done|intros _; eapply Hf]|].
    clear. unfold sum_calls. induction (qw_calls w) as [|i x calls Hi IH] using map_ind; [done|].
    rewrite map_fold_insert_L by (done || (intros; lia)). by rewrite IH. }
  rewrite (Hz (reporting p)) in Ba by (intros; by eapply Hidle). rewrite (Hz (flushes p)) in Bf by (intros; by eapply Hidle).
  rewrite (Hz (carried p)) in Bs.
  - split_and!; [done|by destruct (pd_flushing d)|lia].
  - intros j call pc Hj. destruct (Hidle _ _ _ Hj) as [Hr _]. destruct pc; cbn in *; try done. unfold same in *. by case_match.
Qed.

(** A server that answers everything with [STATUS_OK]. *)
Definition answers (ext : Extensions Message) (env : QuotaEnv) : Prop :=
  (exists t, x_http_transport ext = TransportAvailable t)
  /\ forall url body, exists r, ae_answer (env url body 1%Z) = Ok r /\ rp_status r = STATUS_OK.

Lemma post_answered ext env url body :
  answers ext env -> exists r, post (qt_backend q) (x_http_transport ext) url body env = Ok r /\ rp_status r = STATUS_OK.
Proof.
  intros [[t ->] He]. destruct (He url body) as (r & Hr & Hs). exists r. split; [|done].
  unfold post, run_request, execute_with_retry. change (S (Z.to_nat (ry_max_attempts retry_none))) with 2.
  cbn [service_error retry_loop]. change (0 + 1)%Z with 1%Z. by rewrite Hr.
Qed.

Lemma world_step_call w i call pc env pc' m entries :
  qw_calls w !! i = Some (call, pc) -> quota_step i call env pc (qw_pending w) = (pc', m, entries) ->
  quota_world_step w (QeStep i env) = mkQuotaWorld m (<[i := (call, pc')]> (qw_calls w)) (qw_log w ++ entries).
Proof. intros Hi E. cbn. by rewrite Hi, E. Qed.

Lemma probe_step w i ext env p :
  answers ext env -> qw_calls w !! i = Some (QuotaCheck ext, QpProbe p) ->
  exists entry, confirmation_of p entry = 0%Z /\ debit_of p entry = 0%Z /\
    quota_world_step w (QeStep i env)
    = mkQuotaWorld (qw_pending w) (<[i := (QuotaCheck ext, QpDone QrAllow)]> (qw_calls w)) (qw_log w ++ [entry]).
Proof.
  intros Ha Hi. eexists. split; [|split]; [| |apply (world_step_call _ _ _ _ _ _ _ _ Hi)].
  3: { cbn. unfold limitador_check, send. edestruct post_answered as (r & -> & Hs); [done|]. cbn. by rewrite Hs. }
  - apply confirmation_check.
  - done.
Qed.

Lemma done_step w i call r env : qw_calls w !! i = Some (call, QpDone r) -> quota_world_step w (QeStep i env) = w.
Proof. intros Hi. cbn. rewrite Hi. cbn. rewrite insert_id, app_nil_r by done. by destruct w. Qed.

(** From a settled entry the check goes straight to its verdict. *)
Lemma admits w p i ext env :
  answers ext env -> qw_calls w !! i = Some (QuotaCheck ext, QpProbe p) ->
  let w' := quota_world_step w (QeStep i env) in
  qw_calls w' !! i = Some (QuotaCheck ext, QpDone QrAllow)
  /\ debited (qw_log w') p = debited (qw_log w) p /\ confirmed (qw_log w') p = confirmed (qw_log w) p.
Proof.
  intros Ha Hi w'. destruct (probe_step w i ext env p Ha Hi) as (entry & Hc & Hd & E). unfold w'. rewrite E. cbn [qw_calls qw_log].
  split; [apply lookup_insert_eq|]. unfold debited, confirmed. rewrite !sum_entries_app. cbn. rewrite Hc, Hd. lia.
Qed.

Lemma idle_flush w p :
  balanced w p -> idle w p ->
  let d := entry_or_default (qw_pending w) p in
  exists start m, flush_begin (qw_pending w) p = (start, m) /\
    (start = FlushProceed /\ pd_delta d = 0%Z
     \/ start = FlushReport (pd_delta d) /\ (0 < pd_delta d)%Z /\ m = <[p := mkPendingDebit (pd_delta d) true 0]> (qw_pending w)).
Proof.
  intros Hb Hidle. destruct (idle_entry w p Hb Hidle) as (Hact & Hfl & _). pose proof (bal_delta _ _ Hb) as Hd.
  unfold entry_or_default, flush_begin in *. destruct (qw_pending w !! p) as [d|]; cbn in *; [|by eexists _, _; split; [done|left]].
  rewrite Hfl, Hact. cbn. destruct (Z.eqb_spec (pd_delta d) 0) as [Hz|Hz]; eexists _, _; (split; [done|]); [by left|right].
  split_and!; [done|lia|done].
Qed.

Lemma drains w p i ext env :
  balanced w p -> idle w p -> qw_calls w !! i = Some (QuotaCheck ext, QpStart) ->
  resolve_identity ext (qc_identity_claim (qt_typed q)) = Some p -> answers ext env ->
  let w' := foldl quota_world_step w [QeStep i env; QeStep i env; QeStep i env] in
  qw_calls w' !! i = Some (QuotaCheck ext, QpDone QrAllow)
  /\ debited (qw_log w') p = debited (qw_log w) p /\ confirmed (qw_log w') p = debited (qw_log w) p.
Proof.
  intros Hb Hidle Hi Hid Ha. destruct (idle_entry w p Hb Hidle) as (Hact & Hfl & Hsum). pose proof (bal_delta _ _ Hb) as Hd.
  cbn [foldl]. set (d := entry_or_default (qw_pending w) p) in *.
  destruct (idle_flush w p Hb Hidle) as (start & m & Ef & Hst). fold d in Hst.
  assert (forall pc' m' es, quota_step i (QuotaCheck ext) env QpStart (qw_pending w) = (pc', m', es) ->
    quota_world_step w (QeStep i env) = mkQuotaWorld m' (<[i := (QuotaCheck ext, pc')]> (qw_calls w)) (qw_log w ++ es)) as Hstep
    by (intros; by eapply world_step_call).
  destruct Hst as [[-> Hz]|(-> & Hpos & ->)].
  - rewrite (Hstep (QpProbe p) m [QlSettled i p]) by (cbn; unfold quota_check_start; by rewrite Hid, Ef).
    set (w1 := mkQuotaWorld _ _ _). destruct (admits w1 p i ext env Ha (lookup_insert_eq _ _ _)) as (Hdone & Hdeb & Hcon).
    rewrite (done_step _ _ _ _ env Hdone). split; [done|]. rewrite Hdeb, Hcon. unfold debited, confirmed in *. cbn [qw_log w1].
    rewrite !sum_entries_app. cbn. lia.
  - rewrite (Hstep (QpFlush p (pd_delta d)) _ []) by (cbn; unfold quota_check_start; by rewrite Hid, Ef).
    set (w1 := mkQuotaWorld _ _ _).
    assert (landed (x_http_transport ext) p (pd_delta d) env = true) as Hl.
    { rewrite landed_status. edestruct post_answered as (r & -> & ->); done. }
    assert (exists m', quota_step i (QuotaCheck ext) env (QpFlush p (pd_delta d)) (qw_pending w1)
      = (QpProbe p, m', [report_entry (x_http_transport ext) p (pd_delta d) env; QlSettled i p])) as [m' E].
    { cbn. rewrite Hl. unfold flush_settle. rewrite lookup_insert_eq. cbn. unfold saturating_sub.
      rewrite Z.sub_diag. by eexists. }
    rewrite (world_step_call w1 i _ _ _ _ _ _ (lookup_insert_eq _ _ _) E).
    set (w2 := mkQuotaWorld m' _ _). destruct (admits w2 p i ext env Ha (lookup_insert_eq _ _ _)) as (Hdone & Hdeb & Hcon).
    split; [done|]. rewrite Hdeb, Hcon. cbn [qw_log w1 w2]. rewrite app_nil_r.
    assert (confirmed [report_entry (x_http_transport ext) p (pd_delta d) env; QlSettled i p] p = pd_delta d) as Hrep.
    { rewrite confirmed_report by done. rewrite Hl. unfold same. by rewrite String.eqb_refl. }
    unfold debited, confirmed in *. rewrite !sum_entries_app, Hrep. split; [|lia]. cbn. lia.
Qed.
End Handlers.

(** A core that was built keeps the two requests apart and never debits nothing. *)
Lemma built_ok from_value cfg q :
  quota_new from_value cfg = Ok q -> (0 <= qc_missing_usage_charge (qt_typed q))%Z ->
  lc_check_url (qt_backend q) <> lc_report_url (qt_backend q) /\ (0 < qc_missing_usage_charge (qt_typed q))%Z.
Proof.
  unfold quota_new. intros E Hc. destruct (pg_config cfg) as [raw|]; [|done]. destruct (from_value raw) as [typed|]; cbn in E; [|done].
  destruct (quota_validate typed) as [[]|] eqn:Ev; cbn in E; [|done]. injection E as <-. cbn in *. split.
  - intros Hs%(f_equal String.length). rewrite !string_app_length in Hs. cbn in Hs. lia.
  - unfold quota_validate in Ev. destruct (Z.eqb_spec (qc_missing_usage_charge typed) 0) as [Hz|]; [|lia].
    repeat case_match; done.
Qed.

Section Claims.
Context `{Platform} {Message : Type}.
Variables (from_value : json -> result QuotaConfig string) (cfg : PluginConfig) (q : Quota).

(** Claim C15. However checks and debits of a core that was built interleave, wherever their
    calls are dropped and whatever the transport and the server answer, as long as what a
    principal was debited fits 64 bits: all of it is confirmed by the server, pending, or in a
    report under way, and confirmed once; two flushes of a principal are never under way
    together. A check lets a request through only when the server had confirmed everything the
    principal was debited up to some moment of the check, and then found it within its budget,
    or failed in a way the settings allow; without an identity, only when the settings say so. *)
Theorem admitted_when_settled (events : list (@QuotaEvent Message)) :
  quota_new from_value cfg = Ok q -> (0 <= qc_missing_usage_charge (qt_typed q))%Z ->
  let w := quota_run q events in
  (forall p, debited (qw_log w) p <= usize_max)%Z ->
  (forall i ext, qw_calls w !! i = Some (QuotaCheck ext, QpDone QrAllow) ->
     match resolve_identity ext (qc_identity_claim (qt_typed q)) with
     | None => qc_allow_unauthenticated (qt_typed q) = true
     | Some p =>
         exists before after answer, qw_log w = before ++ QlSettled i p :: after
           /\ debited before p = confirmed q before p /\ probe_entry q p answer ∈ after /\ within_budget q answer
     end)
  /\ (forall p, debited (qw_log w) p = confirmed q (qw_log w) p + pd_delta (entry_or_default (qw_pending w) p)
                                       + sum_calls (carried p) (qw_calls w)
        /\ 0 <= confirmed q (qw_log w) p /\ 0 <= pd_delta (entry_or_default (qw_pending w) p)
        /\ 0 <= sum_calls (carried p) (qw_calls w))%Z
  /\ (forall p i j call call' a a', qw_calls w !! i = Some (call, QpFlush p a) ->
        qw_calls w !! j = Some (call', QpFlush p a') -> i = j).
Proof.
  intros Hq Hc w Hmax. destruct (built_ok _ _ _ Hq Hc) as [Hu Hp]. destruct (run_ok q Hu Hp events Hmax) as [Hb Hcalls].
  fold w in Hb, Hcalls. split_and!.
  - intros i ext Hi. specialize (Hcalls _ _ _ Hi). cbn in Hcalls. destruct (resolve_identity _ _); [|done].
    destruct Hcalls as (before & after & Hlog & Hs & answer & Hin & Hw). by exists before, after, answer.
  - intros p. pose proof (Hb p) as [_ _ Bs Bc Bd _ _]. split_and!; [done..|].
    assert (0 <= sum_calls (reporting p) (qw_calls w) <= sum_calls (carried p) (qw_calls w))%Z; [|lia].
    apply sum_calls_bound. intros. by eapply (contribution q).
  - intros p i j call call' a a'. by apply (flush_unique q).
Qed.

(** Claim C34. Whatever failed or was dropped before, once no report of a principal is under way
    the principal is not locked out: when the server answers again, the next check reports
    exactly what is missing, is let through, and leaves everything debited confirmed. *)
Theorem debits_settle (events : list (@QuotaEvent Message)) p i ext env :
  quota_new from_value cfg = Ok q -> (0 <= qc_missing_usage_charge (qt_typed q))%Z ->
  let w := quota_run q events in
  (forall p, debited (qw_log w) p <= usize_max)%Z ->
  idle w p -> qw_calls w !! i = None -> resolve_identity ext (qc_identity_claim (qt_typed q)) = Some p -> answers ext env ->
  let w' := quota_run q (events ++ [QeBegin i (QuotaCheck ext); QeStep i env; QeStep i env; QeStep i env]) in
  qw_calls w' !! i = Some (QuotaCheck ext, QpDone QrAllow)
  /\ debited (qw_log w') p = debited (qw_log w) p /\ confirmed q (qw_log w') p = debited (qw_log w') p.
Proof.
  intros Hq Hc w Hmax Hidle Hi Hid Ha w'. destruct (built_ok _ _ _ Hq Hc) as [Hu Hp].
  set (w0 := quota_world_step q w (QeBegin i (QuotaCheck ext))).
  assert (w' = foldl (quota_world_step q) w0 [QeStep i env; QeStep i env; QeStep i env]) as ->
    by (unfold w', quota_run; by rewrite foldl_app).
  assert (w0 = mkQuotaWorld (qw_pending w) (<[i := (QuotaCheck ext, QpStart)]> (qw_calls w)) (qw_log w)) as E
    by (unfold w0; cbn; by rewrite Hi).
  assert (quota_ok q w0) as [Hb _].
  { apply world_step_ok; [done|done|by apply run_ok|]. fold w0. by rewrite E. }
  destruct (drains q Hu w0 p i ext env) as (Hdone & Hdeb & Hcon); [done|rewrite E..|done|done|].
  - unfold idle. cbn. intros j c pc [[_ [= <- <-]]|[_ Hj]]%lookup_insert_Some; [done|by eapply Hidle].
  - apply lookup_insert_eq.
  - split; [exact Hdone|]. rewrite Hdeb, Hcon. by rewrite E.
Qed.
End Claims.

(** ** Examples *)

Section Examples.
#[local] Existing Instance ascii_platform.

Definition sample_settings : QuotaConfig := mkQuotaConfig "https://limitador/" "tokens" "sub" OnErrorDeny 5 1000 false false.

Definition sample_plugin : PluginConfig :=
  mkPluginConfig "budget" "quota/limitador" None None None [] Sequential 100 OeFail ∅ [] [] (Some JNull).

Definition sample_quota : Quota := mkQuota sample_settings (limitador_new "https://limitador/" "tokens" (from_secs 5)).

Definition alice : Extensions unit :=
  mkExtensions None None None
    (Some (mkSecurity ∅ None (Some (mkSubject (Some "alice") None ∅ ∅ ∅ ∅ None)) None None None None ∅ ∅))
    None None None None (Some (mkArc 1%N (mkCompletion None (Some (mkTokenUsage 3 4 7)) None None None None)))
    None None None None None None None false false false (TransportAvailable 1%N) EffectDetached.

Definition server (status : Z) : QuotaEnv := fun _ _ n => mkAttempt (Ok (mkReplyBody status "")) n 0.

(** A debit the server answers with an error, one whose call is dropped, a check whose flush is
    dropped. *)
Definition bad_day : list (@QuotaEvent unit) :=
  [QeBegin 0 (QuotaReport alice); QeStep 0 (server 500); QeStep 0 (server 500);
   QeBegin 1 (QuotaReport alice); QeStep 1 (server 200); QeCancel 1;
   QeBegin 2 (QuotaCheck alice); QeStep 2 (server 200); QeCancel 2].

Definition recovery : list (@QuotaEvent unit) :=
  bad_day ++ [QeBegin 3 (QuotaCheck alice); QeStep 3 (server 200); QeStep 3 (server 200); QeStep 3 (server 200)].

(** Fourteen tokens stay pending; a server that answers gets them in one report, and the check
    passes. *)
Example sample_recovery :
  qw_pending (quota_run sample_quota bad_day) !! "alice" = Some (mkPendingDebit 14 false 0)
  /\ qw_pending (quota_run sample_quota recovery) !! "alice" = None
  /\ confirmed sample_quota (qw_log (quota_run sample_quota recovery)) "alice" = 14%Z
  /\ option_map snd (qw_calls (quota_run sample_quota recovery) !! 3) = Some (QpDone QrAllow).
Proof. vm_compute. done. Qed.

Lemma debited_only (log : list QuotaEntry) p n :
  foldr (fun e acc => match e with QlDebit _ total => total + acc | _ => acc end)%Z 0%Z log = n ->
  Forall (fun e => match e with QlDebit _ total => 0 <= total | _ => True end)%Z log -> (0 <= debited log p <= n)%Z.
Proof.
  revert n. unfold debited, sum_entries. induction log as [|e log IH]; cbn [foldr]; intros n <-; [done|].
  intros [He Hl]%Forall_cons. specialize (IH _ eq_refl Hl). destruct e; cbn [debit_of]; try lia. case_match; lia.
Qed.

Lemma admitted_when_settled_witness :
  exists before after answer, qw_log (quota_run sample_quota recovery) = before ++ QlSettled 3 "alice" :: after
    /\ debited before "alice" = confirmed sample_quota before "alice"
    /\ probe_entry sample_quota "alice" answer ∈ after /\ within_budget sample_quota answer.
Proof.
  destruct (admitted_when_settled (fun _ => Ok sample_settings) sample_plugin sample_quota recovery) as [Hadm _].
  { reflexivity. }
  { vm_compute. discriminate. }
  { intros p. destruct (debited_only (qw_log (quota_run sample_quota recovery)) p 14) as [_ Hle].
    - vm_compute. reflexivity.
    - vm_compute. repeat constructor; discriminate.
    - etransitivity; [exact Hle|]. vm_compute. discriminate. }
  specialize (Hadm 3 alice). apply Hadm. vm_compute. reflexivity.
Defined.

Lemma idle_decided (w : @QuotaWorld unit) p :
  forallb (fun c => (reporting p c.2.2 =? 0)%Z && (flushes p c.2.2 =? 0)%Z) (map_to_list (qw_calls w)) = true -> idle w p.
Proof.
  intros Hall j call pc Hj%elem_of_map_to_list%list_elem_of_In. rewrite forallb_forall in Hall. specialize (Hall _ Hj).
  apply andb_true_iff in Hall as [?%Z.eqb_eq ?%Z.eqb_eq]. done.
Qed.

Lemma debits_settle_witness :
  idle (quota_run sample_quota bad_day) "alice"
  /\ confirmed sample_quota (qw_log (quota_run sample_quota recovery)) "alice" = 14%Z.
Proof.
  assert (idle (quota_run sample_quota bad_day) "alice") as Hidle.
  { apply idle_decided. vm_compute. reflexivity. }
  split; [exact Hidle|].
  destruct (debits_settle (fun _ => Ok sample_settings) sample_plugin sample_quota bad_day "alice" 3 alice (server 200)) as (_ & Hd & Hc).
  { reflexivity. }
  { vm_compute. discriminate. }
  { intros p. destruct (debited_only (qw_log (quota_run sample_quota bad_day)) p 14) as [_ Hle].
    - vm_compute. reflexivity.
    - vm_compute. repeat constructor; discriminate.
    - etransitivity; [exact Hle|]. vm_compute. discriminate. }
  { exact Hidle. }
  { vm_compute. reflexivity. }
  { vm_compute. reflexivity. }
  { split; [exists 1%N; reflexivity|]. intros url body. exists (mkReplyBody 200 ""). split; reflexivity. }
  unfold recovery. rewrite Hc, Hd. vm_compute. reflexivity.
Defined.
End Examples.
